(* ===== verification/_CoqProject ===== *)
-Q . S2P
Prelude.v
Utf8Scan.v
FlatString.v
Utf16Index.v
Rope.v
Builder.v
Utf8Codec.v
JsonQuote.v
WhatwgDecode.v
TextCodec.v
Limbs.v
Alloc.v
LimbDiv.v
BigInt.v
BigIntText.v
BigIntOps.v
WebSocket.v
Uri.v
Shapes.v
Objects.v
ShapeTree.v
ShapeHeap.v
PropStore.v
EventSource.v
Pool.v
ClassPool.v
BigIntGc.v
BigIntHeap.v
Date.v
DateText.v
Value.v
WeakTable.v
WeakGc.v
Ephemeron.v
SilverLexer.v
LexerText.v
Escape.v
SourceArena.v
FixedArena.v
MapSet.v
TaskQueue.v
Path.v
