(* ===== verification/Prelude.v ===== *)
(** * FAnt: verification of the runtime's core components

    FAnt is a JavaScript runtime in C.  [src/src/ant.c] keeps values, objects
    and strings; [src/src/silver] reads and runs programs; [src/src/shapes.c]
    has the hidden classes of objects; [src/src/pool.c], [src/src/runtime.c] and
    [src/src/gc] memory and its collection; [src/src/utf8.c] strings as UTF-8
    with UTF-16 indices; [src/src/modules] the built-in objects and
    [src/src/http] the protocols.  This library models components of that code
    as functions and step relations and proves what makes them correct.  The
    definitions follow the C functions they are named after: integers keep their
    width, buffers their capacity, every allocation can fail, and an access
    outside an array or to freed memory is a value of its own, so that its
    absence is a theorem.

    ** Files, and the code they model

    - [Prelude]: machine integers, C strings, decimal output, tactics, the
      hint databases, and the lemmas the components share.
    - Values and strings.  [Value] (the 64-bit encoding of values:
      [include/internal.h]), [Utf8Scan] (decoding one character, validation,
      counting: [src/utf8.c]), [FlatString] (the 64-bit metadata word of a
      string), [Utf16Index] (random access by UTF-16 index with its two caches
      and the sweep epoch of [gc/strings.c]), [Rope] (the heap of flat strings,
      ropes and builders, with flattening, lengths, concatenation and comparison:
      [ant.c]), [Builder] (variables that are appended to in place:
      [silver/engine.c]), [Utf8Codec] (Latin-1, validation and WTF-8 export),
      [JsonQuote] ([utf8_json_quote]), [WhatwgDecode] (the computed-goto
      decoder), [TextCodec] ([modules/textcodec.c]).
    - Program text.  [SilverLexer] ([silver/lexer.c]: every scanner, the token
      state, look-ahead and nested sources), [LexerText] (what the lexer reads
      back from the text of a list of tokens), [Escape] (string, template and
      identifier escapes), [SourceArena] ([runtime.c]: the arenas of code and of
      the parser, with rewinding and the table of interned strings).
    - BigInt, [modules/bigint.c].  [Limbs] and [LimbDiv] (arithmetic on 32-bit
      limbs), [Alloc] (the monad of computations that may be refused memory),
      [BigInt] (operators), [BigIntText] (literals and printing), [BigIntOps]
      (doubles, exponentiation, [asIntN], [BigInt(value)]).
    - The heap of bigints.  [Pool] and [ClassPool] ([pool.c], [include/pool.h]:
      blocks, buckets of size classes, free lists, and who owns which bytes),
      [BigIntGc] ([gc/bigints.c]: the block table, marking and sweeping),
      [BigIntHeap] (runs of allocations and collections).
    - Objects.  [Shapes] (the property table of one shape: [shapes.c]),
      [Objects] (property slots: [include/object.h], [ant.c]), [ShapeTree]
      (reference counts, transitions and pruning: [shapes.c],
      [gc/objects.c]), [ShapeHeap] (the owners of shapes as sequences of
      operations), [PropStore] (definition, lookup and deletion of properties:
      [ant.c]).
    - Collections.  [MapSet] ([modules/collections.c]: Map and Set over a hash
      table with insertion order, their iterators, entries by address),
      [WeakTable] (the open-addressing table behind a WeakMap), [WeakGc]
      ([gc/objects.c]: marking through weak keys, the pending pairs and their
      index, pruning) and [Ephemeron] (that code against reachability).
    - The heap of objects.  [FixedArena] ([include/arena.h], [gc/objects.c]: the
      arenas of objects, closures and upvalues, their allocation, sweeps and
      shrinking).
    - Scheduling.  [TaskQueue] ([modules/timer.c]: next ticks, microtasks and
      immediates as entries chained in memory, and the collector's walk of them).
    - Protocols and built-ins.  [WebSocket] ([http/websocket.c]: frames, header
      tokens and the handshake), [EventSource] ([http/eventsource.c]: parser and
      formatter of event streams), [Uri] ([modules/uri.c]), [Path]
      ([modules/path.c], POSIX and win32), [Date] and [DateText]
      ([modules/date.c]: calendar, fields, getters and setters; printing and the
      two parsers).

    ** How the parts interact

    [Rope] and [Utf16Index] both stand on the flat strings of [FlatString], whose
    lengths are those of the scanner in [Utf8Scan].  [LexerText] and [Escape] are
    proved about the functions of [SilverLexer].  [Objects], [ShapeTree] and
    [PropStore] share the property table of [Shapes]; [ShapeHeap] runs the three
    together.  [BigIntHeap] puts the allocator of [ClassPool] and the collector of
    [BigIntGc] into one run.  [WeakGc] marks and prunes the tables of [WeakTable],
    and [Ephemeron] states what is left.

    ** What the theorems show

    - Refinement.  Random access with both caches answers as a scan from the
      first byte does ([code_unit_at_correct], on the states of
      [caches_coherent]).  Programs over string variables, with ropes and builders
      that change in place, compute what they compute over immutable byte strings
      ([string_program_correct]).  The property table, the slots of an object and
      the transitions between shapes implement a finite map with insertion order
      ([shape_table_refines], [object_storage_correct], [transition_correct],
      [property_define]); so do Map and Set ([map_refines]) and the table of a
      WeakMap ([weakmap_table_refines]).  The queues run their tasks in the order
      of the specification ([drain_order]).
    - Safety and collection.  No sequence of operations of the owners of shapes
      uses freed memory ([shape_heap_safe]); the same holds of the arenas of
      objects ([fixed_arena_safe]), of the source arenas ([source_arena_safe]) and
      of the queues while they are marked ([marks_queued]).  Inline caches that
      are still valid answer as a lookup would ([inline_caches_valid]).  Pieces of
      the bigint heap never overlap while the system grants blocks
      ([bigint_heap_safe]), and a collection keeps what is marked and reclaims
      what is not ([bigint_collect_reclaims], [collection_correct]).  In a full
      collection weak entries survive exactly when key and collection do
      ([weak_process_keeps], [weak_process_exact]).  A Map iterator can read a
      freed entry ([dangling_iterator]).
    - Exactness.  BigInt arithmetic, shifts, bit operations, text and double
      conversion compute the mathematical result, in both the stack-buffer and
      the heap path, with every refusal of memory reported as an error.  Escapes
      decode to the value of the literal ([string_literal_value]); paths have the
      normal form, and lead where they say ([path_normal_form], [path_compose]).
    - Round trips.  Values and their encoding, program text, JSON strings, BigInt
      text, WebSocket frames, event streams, URI components, relative paths,
      dates and their fields, ISO date strings.
    - Chunking.  Decoders and stream parsers give the same answer however the
      input is cut ([chunked_decode]; [sse_chunking], [ws_parse_stream]).
    - Errors.  What a failing operation leaves behind: an append that is refused
      memory changes no string ([builder_append_correct]).
    - Bounds and termination.  Buffers of fixed or computed size are never left
      ([path_buffers_fit]); loops whose progress is not structural end
      ([tokenize_total], [string_flatten_correct]).

    ** Bounds, fuel and parameters

    Recursion that is not structural takes fuel, and a theorem shows that the
    fuel given is enough: the length of the input for scanners, parsers and the
    lexer, twice the length of a string for walks over its rope, the number of
    limbs or digits for BigInt, the number of nodes for the tree of shapes, the
    number of objects and pairs for weak marking, four rounds for the search of a
    year, the size of the table for a binary search or a probe.  [size_t] and
    pointers have 64 bits ([WebSocket] also shows what happens with 32).  String
    lengths stay below 2^53, where doubles are exact.  Refusals of memory are
    parameters: [grant k] for the [k]-th request of a run, [malloc_ok n] for a
    request of [n] bytes.

    Code outside the repository is a parameter with its documented behaviour as
    laws, and instances show that the laws can hold: utf8proc ([Utf8proc] in
    [Utf8Codec], character categories in [SilverLexer]), page mapping ([OsMap]),
    base64, SHA-1 and random bytes (arguments in [WebSocket]), the reading of
    decimal numbers (an argument in [SilverLexer]), the hash table of uthash (in
    [MapSet]), the time zone (an argument in [Date]), the working directory
    (in [Path]).  JavaScript code that runs in the middle of an operation, the
    callbacks of queues and collections, is a function on the state of the
    component, or a list of operations.  Doubles are given by their bits in
    [BigIntOps] and [Value]; where they hold integers, by the integer with
    rounding to 53 bits.

    ** Not modelled

    The parser, compiler, interpreter and JIT over the lexer: their
    specification is a semantics of JavaScript and of the bytecode, which this
    library does not have.  Event loop, sockets, timers, file system, processes
    and the sandbox: calls of libuv and the system, whose order is that of
    outside events.  The HTTP/1 parser is llhttp, multipart bodies and cron
    expressions are scanners over JavaScript objects and local time; compression,
    FFI, N-API and LMDB are external libraries.  The JavaScript plumbing around
    the modelled functions: argument coercion, prototypes, registration.  Dense
    arrays, proxies, the pools of strings and objects, and the marking of
    ordinary objects, ropes and closures are not modelled either. *)

From stdpp Require Export base list numbers option strings gmap.
From Stdlib Require Export ZArith Lia Bool.

#[global] Open Scope Z_scope.
#[global] Set Default Proof Using "Type".

(** ** Machine integers

    A [w]-bit unsigned integer of the C code is a [Z] in [0, 2^w); a cast
    to that type is the reduction below. *)

Definition wrap (w : Z) (x : Z) : Z := x mod 2 ^ w.

Declare Scope word_scope.
Delimit Scope word_scope with word.
Abbreviation u8 := (wrap 8).
Abbreviation u16 := (wrap 16).
Abbreviation u32 := (wrap 32).
Abbreviation u64 := (wrap 64).
Notation "a '.&' b" := (Z.land a b) (at level 40, left associativity) : word_scope.
Notation "a '.|' b" := (Z.lor a b) (at level 50, left associativity) : word_scope.
Notation "a '.^' b" := (Z.lxor a b) (at level 45, left associativity) : word_scope.
Notation "a '.<<' b" := (Z.shiftl a b) (at level 38, left associativity) : word_scope.
Notation "a '.>>' b" := (Z.shiftr a b) (at level 38, left associativity) : word_scope.
#[global] Open Scope word_scope.

(** Conversion of an unsigned value to [int] (two's complement, 32 bits). *)
Definition to_i32 (x : Z) : Z :=
  let y := u32 x in if y <? 2 ^ 31 then y else y - 2 ^ 32.

(** ** Doubles that hold integers

    The nearest quotient of [a] by [b], the even one of two. *)
Definition quot_even (a b : Z) : Z :=
  let q := a / b in let r := a mod b in
  if (b <? 2 * r) || ((b =? 2 * r) && Z.odd q) then q + 1 else q.

(** The nearest double to an integer, 53 bits of significand. *)
Definition round53 (z : Z) : Z :=
  let a := Z.abs z in
  if a <? 2 ^ 53 then z
  else let e := Z.log2 a - 52 in Z.sgn z * (quot_even a (2 ^ e) * 2 ^ e).

(** [is_byte b]: [b] is a value of [unsigned char] / [uint8_t]. *)
Definition is_byte (b : Z) : Prop := 0 <= b < 256.
Abbreviation bytes := (Forall is_byte).

(** Array read. Every flat string of the runtime carries a terminating NUL,
    which is what the default stands for at offset [length s]; the theorems
    that rely on a read prove that it is inside the array. *)
Definition rd (s : list Z) (i : nat) : Z := nth i s 0.

(** The length of an array, as the integer the code computes with. *)
Definition zlen (s : list Z) : Z := Z.of_nat (length s).

(** ** Errors *)

Inductive err_kind :=
| JS_ERR_TYPE | JS_ERR_RANGE | JS_ERR_URI | JS_ERR_SYNTAX.

(** A runtime value or the error value [js_mkerr] / [js_mkerr_typed] returns. *)
Inductive result (A : Type) :=
| Ok (a : A)
| Err (k : err_kind) (msg : string).
Arguments Ok {A} _.
Arguments Err {A} _ _.

(** [js_mkerr] builds a TypeError. *)
Definition js_mkerr {A} (msg : string) : result A := Err JS_ERR_TYPE msg.
Definition oom {A} : result A := js_mkerr "oom".

Definition rbind {A B} (m : result A) (k : A -> result B) : result B :=
  match m with Ok a => k a | Err e s => Err e s end.
Notation "'let!' x ':=' m 'in' k" := (rbind m (fun x => k))
  (at level 10, x pattern, m at level 100, k at level 200).

Definition is_ok {A} (r : result A) : bool := match r with Ok _ => true | _ => false end.

#[global] Instance err_kind_eq_dec : EqDecision err_kind.
Proof. solve_decision. Defined.
#[global] Instance result_eq_dec {A} `{EqDecision A} : EqDecision (result A).
Proof. solve_decision. Defined.

(** ** Helpers of [src/src/utils.c] *)

(** [hex_digit]: the table holds 0 for everything that is not a non-zero
    hexadecimal digit. *)
Definition hex_digit (c : Z) : Z :=
  let val := if (49 <=? c) && (c <=? 57) then c - 48
             else if (97 <=? c) && (c <=? 102) then c - 87
             else if (65 <=? c) && (c <=? 70) then c - 55
             else 0 in
  if negb (val =? 0) then val else if c =? 48 then 0 else -1.

(** ** C strings *)

Definition str_bytes (s : string) : list Z :=
  map (fun a => Z.of_N (Ascii.N_of_ascii a)) (String.list_ascii_of_string s).
(** The C string: the bytes before the first NUL. *)
Fixpoint c_str (s : list Z) : list Z :=
  match s with
  | c :: t => if c =? 0 then [] else c :: c_str t
  | [] => []
  end.

Definition tolower (c : Z) : Z := if (65 <=? c) && (c <=? 90) then c + 32 else c.

(** [strncasecmp(s, label, n) == 0]: both end at a NUL. *)
Fixpoint strncasecmp_eq (n : nat) (s label : list Z) : bool :=
  match n with
  | O => true
  | S n =>
      let a := rd s 0 in let b := rd label 0 in
      if negb (tolower a =? tolower b) then false
      else if a =? 0 then true
      else strncasecmp_eq n (drop 1 s) (drop 1 label)
  end.

(** ** Decimal numbers

    [snprintf] of an unsigned number with [%u], least significant digit first
    and then reversed; padding to a width with zeros; and [%0wd]. *)

Fixpoint dec_lsb (fuel : nat) (n : Z) : list Z :=
  match fuel with
  | O => []
  | S fuel => if n <? 10 then [48 + n] else 48 + n mod 10 :: dec_lsb fuel (n / 10)
  end.
Definition fmt_u (n : Z) : list Z := rev (dec_lsb 10 n).
Definition pad0 (w : nat) (s : list Z) : list Z := replicate (w - length s) 48 ++ s.
Definition fmt_0d (w : nat) (n : Z) : list Z := if n <? 0 then 45 :: pad0 (w - 1) (fmt_u (- n)) else pad0 w (fmt_u n).

(** The value of a run of digits. *)
Definition digit (c : Z) : Prop := 48 <= c <= 57.
Definition dec_value (s : list Z) (acc : Z) : Z := fold_left (fun a c => 10 * a + (c - 48)) s acc.

(** ** Automation *)

#[global] Arguments Nat.ltb : simpl never.
#[global] Arguments Nat.leb : simpl never.
#[global] Arguments Nat.eqb : simpl never.
#[global] Arguments Z.ltb : simpl never.
#[global] Arguments Z.leb : simpl never.
#[global] Arguments Z.eqb : simpl never.
#[global] Arguments Z.land : simpl never.
#[global] Arguments Z.lor : simpl never.
#[global] Arguments Z.lxor : simpl never.
#[global] Arguments Z.shiftl : simpl never.
#[global] Arguments Z.shiftr : simpl never.
#[global] Arguments Z.pow : simpl never.
#[global] Arguments wrap : simpl never.

Create HintDb fant discriminated.

(** Facts about one byte are decided by running them on all 256 values. *)
Definition all_bytes : list Z := map Z.of_nat (seq 0 256).

Lemma byte_in_all b : is_byte b -> In b all_bytes.
Proof.
  intros [H1 H2]. unfold all_bytes. apply in_map_iff. exists (Z.to_nat b).
  split; [lia|]. apply in_seq. lia.
Qed.

Lemma byte_forall (P : Z -> bool) :
  forallb P all_bytes = true -> forall b, is_byte b -> P b = true.
Proof. intros H b Hb. rewrite forallb_forall in H. auto using byte_in_all. Qed.

(** [by_bytes f]: the goal follows from [f b = true] for the byte in context. *)
Ltac by_bytes b f :=
  let H := fresh "Hbyte" in
  assert (H : f b = true) by (apply (byte_forall f); [vm_compute; reflexivity | assumption]);
  cbv beta in H.

(** Turn boolean comparisons in the context into arithmetic. *)
Ltac boolprop :=
  repeat match goal with
  | H : _ && _ = true |- _ => apply andb_true_iff in H; destruct H
  | H : _ || _ = false |- _ => apply orb_false_iff in H; destruct H
  | H : negb _ = true |- _ => apply negb_true_iff in H
  | H : negb _ = false |- _ => apply negb_false_iff in H
  | H : (_ <? _) = true |- _ => apply Z.ltb_lt in H
  | H : (_ <? _) = false |- _ => apply Z.ltb_ge in H
  | H : (_ <=? _) = true |- _ => apply Z.leb_le in H
  | H : (_ <=? _) = false |- _ => apply Z.leb_gt in H
  | H : (_ =? _) = true |- _ => apply Z.eqb_eq in H
  | H : (_ =? _) = false |- _ => apply Z.eqb_neq in H
  | H : (_ <? _)%nat = true |- _ => apply Nat.ltb_lt in H
  | H : (_ <? _)%nat = false |- _ => apply Nat.ltb_ge in H
  | H : (_ <=? _)%nat = true |- _ => apply Nat.leb_le in H
  | H : (_ <=? _)%nat = false |- _ => apply Nat.leb_gt in H
  | H : (_ =? _)%nat = true |- _ => apply Nat.eqb_eq in H
  | H : (_ =? _)%nat = false |- _ => apply Nat.eqb_neq in H
  end.

(** Split on the conditionals of the goal, keeping each test. *)
Ltac case_if :=
  match goal with
  | |- context [if ?b then _ else _] =>
      match b with context [if _ then _ else _] => fail 1 | _ => idtac end;
      let E := fresh "Eif" in destruct b eqn:E
  end.
Ltac case_ifs := repeat (case_if; boolprop).

(** Split conjunctions without unfolding definitions. *)
Ltac splits := repeat match goal with |- _ /\ _ => split end.

Ltac invc H := inversion H; clear H; subst.

(** ** Integers *)

Lemma wrap_range w x : 0 <= w -> 0 <= wrap w x < 2 ^ w.
Proof. intros. apply Z.mod_pos_bound. apply Z.pow_pos_nonneg; lia. Qed.

Lemma wrap_small w x : 0 <= x < 2 ^ w -> wrap w x = x.
Proof. apply Z.mod_small. Qed.

Lemma round53_small z : Z.abs z < 2 ^ 53 -> round53 z = z.
Proof. intros H. unfold round53. apply Z.ltb_lt in H. rewrite H. reflexivity. Qed.

Lemma wrap_idem w x : wrap w (wrap w x) = wrap w x.
Proof. unfold wrap. apply Zmod_mod. Qed.

Lemma to_i32_small x : 0 <= x < 2 ^ 31 -> to_i32 x = x.
Proof.
  intros. unfold to_i32. rewrite wrap_small by lia.
  destruct (Z.ltb_spec x (2 ^ 31)); lia.
Qed.

Lemma testbit_small b k n : 0 <= b < 2 ^ k -> k <= n -> Z.testbit b n = false.
Proof.
  intros Hb Hn. destruct (Z.eq_dec b 0) as [->|]; [apply Z.bits_0|].
  apply Z.bits_above_log2; [lia|]. apply Z.log2_lt_pow2; [lia|].
  eapply Z.lt_le_trans; [apply Hb|]. apply Z.pow_le_mono_r; lia.
Qed.

Lemma land_shiftl_small a b k : 0 <= k -> 0 <= b < 2 ^ k -> (a .<< k) .& b = 0.
Proof.
  intros Hk Hb. apply Z.bits_inj'. intros n Hn. rewrite Z.land_spec, Z.bits_0.
  destruct (Z.ltb_spec n k).
  - rewrite Z.shiftl_spec_low by lia. reflexivity.
  - rewrite (testbit_small b k) by lia. apply andb_false_r.
Qed.

(** A shift by [k] with the low [k] bits of another value or-ed in is a sum. *)
Lemma lor_shiftl_add a b k :
  0 <= k -> 0 <= b < 2 ^ k -> (a .<< k) .| b = a * 2 ^ k + b.
Proof.
  intros Hk Hb. pose proof (land_shiftl_small a b k Hk Hb) as D.
  rewrite <- Z.lxor_lor, <- Z.add_nocarry_lxor by exact D.
  rewrite Z.shiftl_mul_pow2 by lia. reflexivity.
Qed.

Lemma land_ones_mod a k : 0 <= k -> a .& (2 ^ k - 1) = a mod 2 ^ k.
Proof.
  intros. rewrite <- Z.land_ones by lia. f_equal. rewrite Z.ones_equiv. lia.
Qed.

Lemma land_pow2 x k : 0 <= k -> x .& 2 ^ k = if Z.testbit x k then 2 ^ k else 0.
Proof.
  intros Hk. apply Z.bits_inj'. intros n Hn. rewrite Z.land_spec, Z.pow2_bits_eqb by lia.
  destruct (Z.eqb_spec k n) as [->|Hne].
  - destruct (Z.testbit x n) eqn:E; [rewrite Z.pow2_bits_true by lia|rewrite Z.bits_0]; reflexivity.
  - rewrite andb_false_r. destruct (Z.testbit x k); [rewrite Z.pow2_bits_false by lia|rewrite Z.bits_0];
      reflexivity.
Qed.

(** ** Lists *)

Lemma rd_lookup s i b : s !! i = Some b -> rd s i = b.
Proof. intros H. unfold rd. rewrite nth_lookup, H. reflexivity. Qed.

Lemma rd_byte s i : bytes s -> is_byte (rd s i).
Proof.
  intros Hs. unfold rd. rewrite nth_lookup. destruct (s !! i) eqn:E; simpl.
  - eapply Forall_lookup_1; eauto.
  - unfold is_byte. lia.
Qed.

Lemma rd_drop s p i : rd (drop p s) i = rd s (p + i).
Proof. unfold rd. rewrite !nth_lookup, lookup_drop. reflexivity. Qed.

Lemma rd_app_l s t i : (i < length s)%nat -> rd (s ++ t) i = rd s i.
Proof. intros. unfold rd. apply app_nth1. lia. Qed.

Lemma drop_cons_rd s p : (p < length s)%nat -> drop p s = rd s p :: drop (S p) s.
Proof.
  intros H. destruct (lookup_lt_is_Some_2 s p H) as [b Hb].
  erewrite drop_S by eauto. erewrite (rd_lookup s p) by eauto. reflexivity.
Qed.

(** Lengths as integers. *)
Lemma zlen_app a b : zlen (a ++ b) = zlen a + zlen b.
Proof. unfold zlen. rewrite length_app. lia. Qed.
Lemma zlen_nonneg a : 0 <= zlen a.
Proof. unfold zlen. lia. Qed.
Lemma zlen_pos a : a <> [] -> 1 <= zlen a.
Proof. unfold zlen. destruct a; cbn; [congruence|lia]. Qed.
Lemma zlen_zero a : zlen a = 0 -> a = [].
Proof. destruct a; [reflexivity|]. unfold zlen. cbn. lia. Qed.

(** The number of elements that satisfy a test. *)
Definition countb {A} (p : A -> bool) (l : list A) : nat := length (List.filter p l).
#[global] Arguments countb : simpl never.

Lemma countb_cons {A} (p : A -> bool) x l : countb p (x :: l) = ((if p x then 1 else 0) + countb p l)%nat.
Proof. unfold countb. cbn. destruct (p x); reflexivity. Qed.
Lemma countb_insert {A} (p : A -> bool) l i x y : l !! i = Some x ->
  (countb p (<[i := y]> l) + (if p x then 1 else 0) = countb p l + (if p y then 1 else 0))%nat.
Proof.
  revert i. induction l as [|z l IH]; intros [|i] Hi; try discriminate; cbn in Hi.
  - injection Hi as ->. change (<[0%nat := y]> (x :: l)) with (y :: l). rewrite !countb_cons. destruct (p x), (p y); lia.
  - change (<[S i := y]> (z :: l)) with (z :: <[i := y]> l). rewrite !countb_cons. specialize (IH i Hi). destruct (p x), (p y), (p z); lia.
Qed.
Lemma countb_le {A} (p : A -> bool) l : (countb p l <= length l)%nat.
Proof. induction l as [|x l IH]; [reflexivity|]. rewrite countb_cons. cbn. destruct (p x); lia. Qed.
Lemma countb_pos {A} (p : A -> bool) l : (0 < countb p l)%nat -> exists i x, l !! i = Some x /\ p x = true.
Proof.
  induction l as [|x l IH]; [unfold countb; cbn; lia|]. rewrite countb_cons. destruct (p x) eqn:E; [exists 0%nat, x; auto|].
  intros H. destruct IH as (i & y & Hi & Hp); [lia|]. exists (S i), y. auto.
Qed.
Lemma countb_replicate {A} (p : A -> bool) n x : p x = false -> countb p (replicate n x) = 0%nat.
Proof. intros H. induction n as [|n IH]; [reflexivity|]. cbn [replicate]. rewrite countb_cons, H, IH. reflexivity. Qed.

Lemma existsb_ext {A} (f g : A -> bool) l :
  (forall x, f x = g x) -> existsb f l = existsb g l.
Proof. intros H. induction l; cbn; congruence. Qed.

(** Case-insensitive comparison does not see the case of its first argument. *)
Lemma tolower_idem c : tolower (tolower c) = tolower c.
Proof. unfold tolower. case_ifs; lia. Qed.

Lemma rd_map_tolower s i : rd (map tolower s) i = tolower (rd s i).
Proof. unfold rd. change 0 with (tolower 0) at 1. apply map_nth. Qed.

Lemma tolower_zero c : (tolower c =? 0) = (c =? 0).
Proof. unfold tolower. case_ifs; lia. Qed.

Lemma strncasecmp_lower n : forall s l, strncasecmp_eq n (map tolower s) l = strncasecmp_eq n s l.
Proof.
  induction n as [|n IH]; intros s l; cbn [strncasecmp_eq]; [reflexivity|].
  rewrite rd_map_tolower, tolower_idem, tolower_zero, skipn_map, IH. reflexivity.
Qed.

#[export] Hint Resolve rd_byte : fant.

Lemma c_str_nonzero s : Forall (fun c => c <> 0) (c_str s).
Proof. induction s as [|c s IH]; [constructor|]. cbn. destruct (Z.eqb_spec c 0); [constructor|constructor; assumption]. Qed.

Lemma c_str_id s : Forall (fun c => c <> 0) s -> c_str s = s.
Proof. induction 1 as [|c s Hc Hs IH]; [reflexivity|]. cbn. destruct (Z.eqb_spec c 0); [contradiction|]. congruence. Qed.

Lemma c_str_bytes s : bytes s -> bytes (c_str s).
Proof. induction 1 as [|c s Hc Hs IH]; [constructor|]. cbn. destruct (c =? 0); constructor; assumption. Qed.

Lemma c_str_length s : (length (c_str s) <= length s)%nat.
Proof. induction s as [|c s IH]; cbn; [lia|]. case_if; cbn; lia. Qed.

(** ** Decimal numbers *)

Lemma dec_value_ge s : Forall digit s -> forall a, 0 <= a -> a <= dec_value s a.
Proof.
  induction 1 as [|c s Hc Hs IH]; intros a Ha; unfold dec_value in *; cbn [fold_left]; [lia|].
  unfold digit in Hc. specialize (IH (10 * a + (c - 48))). lia.
Qed.

Lemma dec_value_app s t a : dec_value (s ++ t) a = dec_value t (dec_value s a).
Proof. unfold dec_value. apply fold_left_app. Qed.

Lemma dec_value_zeros k s : dec_value (replicate k 48 ++ s) 0 = dec_value s 0.
Proof. rewrite dec_value_app. f_equal. induction k as [|k IH]; [reflexivity|]. exact IH. Qed.

Lemma dec_lsb_spec fuel : forall n, 0 <= n < 10 ^ Z.of_nat fuel ->
  Forall digit (dec_lsb fuel n) /\ dec_value (rev (dec_lsb fuel n)) 0 = n /\
  forall k, (1 <= k)%nat -> n < 10 ^ Z.of_nat k -> (length (dec_lsb fuel n) <= k)%nat.
Proof.
  induction fuel as [|fuel IH]; intros n Hn; cbn [dec_lsb]; [change (10 ^ Z.of_nat 0) with 1 in Hn; splits; [constructor|cbn; lia|cbn; lia]|].
  destruct (Z.ltb_spec n 10).
  { splits; [repeat constructor; lia|unfold dec_value; cbn; lia|cbn; lia]. }
  rewrite Nat2Z.inj_succ, Z.pow_succ_r in Hn by lia.
  pose proof (Z.div_mod n 10 ltac:(lia)). pose proof (Z.mod_pos_bound n 10 ltac:(lia)).
  destruct (IH (n / 10)) as (D1 & D2 & D3); [split; [apply Z.div_pos; lia|apply Z.div_lt_upper_bound; lia]|]. splits.
  - constructor; [unfold digit; lia|exact D1].
  - cbn [rev]. rewrite dec_value_app, D2. unfold dec_value. cbn. lia.
  - intros k Hk Hnk. destruct k as [|[|k]]; [lia|change (10 ^ Z.of_nat 1) with 10 in Hnk; lia|]. cbn [length]. apply le_n_S, D3; [lia|].
    rewrite Nat2Z.inj_succ, Z.pow_succ_r in Hnk by lia. apply Z.div_lt_upper_bound; lia.
Qed.

(** A number printed with at least [k] digits that needs no more. *)
Lemma pad0_spec k n : 0 <= n < 10 ^ 10 -> (1 <= k)%nat -> n < 10 ^ Z.of_nat k ->
  Forall digit (pad0 k (fmt_u n)) /\ length (pad0 k (fmt_u n)) = k /\ dec_value (pad0 k (fmt_u n)) 0 = n.
Proof.
  intros Hn Hk Hnk. destruct (dec_lsb_spec 10 n Hn) as (H1 & H2 & H3). specialize (H3 k Hk Hnk). unfold pad0, fmt_u. splits.
  - apply Forall_app. split; [apply Forall_replicate; unfold digit; lia|apply Forall_rev, H1].
  - rewrite length_app, length_replicate, length_rev. lia.
  - rewrite dec_value_zeros. exact H2.
Qed.
