(* ===== verification/Utf8Scan.v ===== *)
(** * WTF-8 scanning

    The byte-level scanner of [src/src/utf8.c] and the helpers of
    [src/include/utf8.h]: sequence lengths, [utf16_scan_decode], validation,
    character counting.  Strings of the runtime are byte arrays in WTF-8
    (UTF-8 in which a lone surrogate is a three byte sequence); JavaScript
    addresses them by UTF-16 code unit, so the second half of the file defines
    the UTF-16 view of a byte string and proves that scanning from any
    character boundary reads it. *)

From S2P Require Import Prelude.

(** ** The code *)

(** [utf8_sequence_length] of utf8.h. *)
Definition utf8_sequence_length (first_byte : Z) : Z :=
  if first_byte .& 0x80 =? 0 then 1
  else if first_byte .& 0xE0 =? 0xC0 then 2
  else if first_byte .& 0xF0 =? 0xE0 then 3
  else if first_byte .& 0xF8 =? 0xF0 then 4
  else -1.

(** What [utf16_scan_decode] writes: [*slen_out], [*units_out], [*cp_out].
    The last one is written only when [cp_out] is not NULL. *)
Record scan_out := ScanOut { slen : nat; units : nat; scp : Z }.

(** [utf16_scan_decode(p, end, ...)] on the array [s]; [p] and [e] are the
    offsets of [p] and [end], [cp_out] tells whether the pointer is given. *)
Definition utf16_scan_decode (s : list Z) (p e : nat) (cp_out : bool) : scan_out :=
  let c := rd s p in
  let tail := ScanOut 1 1 c in
  if c <? 0x80 then ScanOut 1 1 c
  else if c .& 0xE0 =? 0xC0 then
    if cp_out && (p + 1 <? e)%nat then
      ScanOut 2 1 (((c .& 0x1F) .<< 6) .| (rd s (p + 1) .& 0x3F))
    else if negb cp_out then ScanOut 2 1 0 else tail
  else if c .& 0xF0 =? 0xE0 then
    if cp_out && (p + 2 <? e)%nat then
      ScanOut 3 1 (((c .& 0x0F) .<< 12) .| ((rd s (p + 1) .& 0x3F) .<< 6)
                   .| (rd s (p + 2) .& 0x3F))
    else if negb cp_out then ScanOut 3 1 0 else tail
  else if c .& 0xF8 =? 0xF0 then
    if cp_out && (p + 3 <? e)%nat then
      ScanOut 4 2 (((c .& 0x07) .<< 18) .| ((rd s (p + 1) .& 0x3F) .<< 12)
                   .| ((rd s (p + 2) .& 0x3F) .<< 6) .| (rd s (p + 3) .& 0x3F))
    else if negb cp_out then ScanOut 4 2 0 else tail
  else tail.

(** [utf8_char_len_at]. *)
Definition utf8_char_len_at (s : list Z) (byte_len pos : nat) : nat :=
  if (byte_len <=? pos)%nat then 1%nat
  else
    let seq := utf8_sequence_length (rd s pos) in
    if seq <=? 0 then 1%nat
    else if (byte_len <? pos + Z.to_nat seq)%nat then (byte_len - pos)%nat
    else Z.to_nat seq.

(** [utf8_strlen]: the loop over [p], from offset [p] to [byte_len]. *)
Fixpoint utf8_strlen_loop (fuel : nat) (s : list Z) (byte_len p count : nat) : nat :=
  match fuel with
  | O => count
  | S fuel =>
      if (p <? byte_len)%nat then
        let seq_len := utf8_sequence_length (rd s p) in
        if (seq_len <=? 0) || (byte_len - p <? Z.to_nat seq_len)%nat
        then utf8_strlen_loop fuel s byte_len (S p) (S count)
        else utf8_strlen_loop fuel s byte_len (p + Z.to_nat seq_len) (S count)
      else count
  end.

Definition utf8_strlen (s : list Z) (byte_len : nat) : nat :=
  utf8_strlen_loop (S byte_len) s byte_len 0 0.

(** The table in [utf8_validate_bytes]: number of continuation bytes and the
    range of the first one; [None] is [return false]. *)
Definition utf8_lead_class (c : Z) : option (nat * Z * Z) :=
  if (0xc2 <=? c) && (c <=? 0xdf) then Some (1%nat, 0x80, 0xbf)
  else if c =? 0xe0 then Some (2%nat, 0xa0, 0xbf)
  else if (0xe1 <=? c) && (c <=? 0xec) then Some (2%nat, 0x80, 0xbf)
  else if c =? 0xed then Some (2%nat, 0x80, 0x9f)
  else if (c =? 0xee) || (c =? 0xef) then Some (2%nat, 0x80, 0xbf)
  else if c =? 0xf0 then Some (3%nat, 0x90, 0xbf)
  else if (0xf1 <=? c) && (c <=? 0xf3) then Some (3%nat, 0x80, 0xbf)
  else if c =? 0xf4 then Some (3%nat, 0x80, 0x8f)
  else None.

(** [utf8_validate_bytes]: the loop over [s], from offset [p]. *)
Fixpoint utf8_validate_loop (fuel : nat) (s : list Z) (len p : nat) : bool :=
  match fuel with
  | O => true
  | S fuel =>
      if (p <? len)%nat then
        let c := rd s p in
        if c <? 0x80 then utf8_validate_loop fuel s len (S p)
        else match utf8_lead_class c with
        | None => false
        | Some (cont, lo, hi) =>
            if (len - p <=? cont)%nat then false
            else if (rd s (p + 1) <? lo) || (hi <? rd s (p + 1)) then false
            else if existsb (fun i => (rd s (p + i) <? 0x80) || (0xbf <? rd s (p + i)))
                            (seq 2 (cont - 1)) then false
            else utf8_validate_loop fuel s len (p + cont + 1)
        end
      else true
  end.

Definition utf8_validate_bytes (s : list Z) (len : nat) : bool :=
  utf8_validate_loop (S len) s len 0.

(** ** The UTF-16 view of a byte string *)

Definition is_lead2 (c : Z) : bool := c .& 0xE0 =? 0xC0.
Definition is_lead3 (c : Z) : bool := c .& 0xF0 =? 0xE0.
Definition is_lead4 (c : Z) : bool := c .& 0xF8 =? 0xF0.

Definition cp2 (c c1 : Z) : Z := ((c .& 0x1F) .<< 6) .| (c1 .& 0x3F).
Definition cp3 (c c1 c2 : Z) : Z :=
  ((c .& 0x0F) .<< 12) .| ((c1 .& 0x3F) .<< 6) .| (c2 .& 0x3F).
Definition cp4 (c c1 c2 c3 : Z) : Z :=
  ((c .& 0x07) .<< 18) .| ((c1 .& 0x3F) .<< 12) .| ((c2 .& 0x3F) .<< 6) .| (c3 .& 0x3F).

Definition high_surrogate (cp : Z) : Z := 0xD800 + (u32 (cp - 0x10000) .>> 10).
Definition low_surrogate (cp : Z) : Z := 0xDC00 + (u32 (cp - 0x10000) .& 0x3FF).

(** The UTF-16 code units a string denotes. *)
Fixpoint wtf16 (l : list Z) : list Z :=
  match l with
  | [] => []
  | c :: t =>
      if c <? 0x80 then c :: wtf16 t
      else if is_lead2 c then
        match t with c1 :: t1 => cp2 c c1 :: wtf16 t1 | _ => c :: wtf16 t end
      else if is_lead3 c then
        match t with c1 :: c2 :: t2 => cp3 c c1 c2 :: wtf16 t2 | _ => c :: wtf16 t end
      else if is_lead4 c then
        match t with
        | c1 :: c2 :: c3 :: t3 =>
            high_surrogate (cp4 c c1 c2 c3) :: low_surrogate (cp4 c c1 c2 c3) :: wtf16 t3
        | _ => c :: wtf16 t
        end
      else c :: wtf16 t
  end.

(** No sequence is cut off by the end of the string. *)
Fixpoint scan_wf (l : list Z) : bool :=
  match l with
  | [] => true
  | c :: t =>
      if c <? 0x80 then scan_wf t
      else if is_lead2 c then match t with _ :: t1 => scan_wf t1 | _ => false end
      else if is_lead3 c then match t with _ :: _ :: t2 => scan_wf t2 | _ => false end
      else if is_lead4 c then match t with _ :: _ :: _ :: t3 => scan_wf t3 | _ => false end
      else scan_wf t
  end.

(** Code units of the character at offset [p]. *)
Definition char_units (d : scan_out) : list Z :=
  if (units d =? 2)%nat then [high_surrogate (scp d); low_surrogate (scp d)] else [scp d].

(** Reachable positions of the scanner: byte offset and UTF-16 offset. *)
Inductive boundary (s : list Z) : nat -> nat -> Prop :=
| boundary_start : boundary s 0 0
| boundary_next p u :
    boundary s p u -> (p < length s)%nat ->
    boundary s (p + slen (utf16_scan_decode s p (length s) false))
               (u + units (utf16_scan_decode s p (length s) false)).

(** ** Lemmas *)

Lemma scan_decode_end s p e e' :
  utf16_scan_decode s p e false = utf16_scan_decode s p e' false.
Proof. unfold utf16_scan_decode. cbn [andb negb]. case_ifs; reflexivity. Qed.

Lemma scan_decode_slen_pos s p e b : (1 <= slen (utf16_scan_decode s p e b))%nat.
Proof. unfold utf16_scan_decode. case_ifs; simpl; lia. Qed.

Lemma scan_decode_slen_le s p e b : (slen (utf16_scan_decode s p e b) <= 4)%nat.
Proof. unfold utf16_scan_decode. case_ifs; simpl; lia. Qed.

Lemma scan_decode_units s p e b :
  (1 <= units (utf16_scan_decode s p e b) <= 2)%nat /\
  (units (utf16_scan_decode s p e b) <= slen (utf16_scan_decode s p e b))%nat.
Proof. unfold utf16_scan_decode. case_ifs; simpl; lia. Qed.

Lemma char_units_length s p e b :
  length (char_units (utf16_scan_decode s p e b)) = units (utf16_scan_decode s p e b).
Proof.
  unfold char_units. destruct (Nat.eqb_spec (units (utf16_scan_decode s p e b)) 2) as [->|]; simpl.
  - reflexivity.
  - pose proof (scan_decode_units s p e b). lia.
Qed.

(** [drop p s] is either exhausted or starts with the byte the code reads. *)
Lemma drop_view s p : (length s <= p)%nat /\ drop p s = [] \/
                      (p < length s)%nat /\ drop p s = rd s p :: drop (S p) s.
Proof.
  destruct (Nat.lt_ge_cases p (length s)).
  - right. auto using drop_cons_rd.
  - left. split; [lia|]. apply drop_ge. lia.
Qed.

Ltac drop_next s p :=
  let H := fresh "Hd" in let L := fresh "Hl" in
  destruct (drop_view s p) as [[L H]|[L H]]; rewrite H in *; try discriminate; clear H.

(** One scanner step at a complete character: the byte view loses that
    character, the UTF-16 view loses its code units. *)
Lemma scan_step s p :
  scan_wf (drop p s) = true -> (p < length s)%nat ->
  let d := utf16_scan_decode s p (length s) true in
  let n := utf16_scan_decode s p (length s) false in
  slen n = slen d /\ units n = units d /\ (p + slen d <= length s)%nat /\
  scan_wf (drop (p + slen d) s) = true /\
  wtf16 (drop p s) = char_units d ++ wtf16 (drop (p + slen d) s).
Proof.
  intros Hwf Hp. rewrite (drop_cons_rd s p Hp) in *. cbn [scan_wf wtf16] in *.
  unfold utf16_scan_decode, is_lead2, is_lead3, is_lead4, cp2, cp3, cp4 in *.
  destruct (rd s p <? 0x80) eqn:E1.
  { cbn. rewrite Nat.add_1_r. repeat split; auto. }
  destruct (rd s p .& 0xE0 =? 0xC0) eqn:E2.
  { drop_next s (S p).
    replace (p + 1 <? length s)%nat with true by (symmetry; apply Nat.ltb_lt; lia).
    cbn. rewrite Nat.add_1_r. replace (p + 2)%nat with (S (S p)) by lia.
    repeat split; auto. }
  destruct (rd s p .& 0xF0 =? 0xE0) eqn:E3.
  { drop_next s (S p). drop_next s (S (S p)).
    replace (p + 2 <? length s)%nat with true by (symmetry; apply Nat.ltb_lt; lia).
    cbn. replace (p + 1)%nat with (S p) by lia. replace (p + 2)%nat with (S (S p)) by lia.
    replace (p + 3)%nat with (S (S (S p))) by lia. repeat split; auto. }
  destruct (rd s p .& 0xF8 =? 0xF0) eqn:E4.
  { drop_next s (S p). drop_next s (S (S p)). drop_next s (S (S (S p))).
    replace (p + 3 <? length s)%nat with true by (symmetry; apply Nat.ltb_lt; lia).
    cbn. replace (p + 1)%nat with (S p) by lia. replace (p + 2)%nat with (S (S p)) by lia.
    replace (p + 3)%nat with (S (S (S p))) by lia.
    replace (p + 4)%nat with (S (S (S (S p)))) by lia. repeat split; auto. }
  cbn. rewrite Nat.add_1_r. repeat split; auto.
Qed.

(** What a boundary means for the UTF-16 view. *)
Lemma boundary_view s p u :
  scan_wf s = true -> boundary s p u ->
  (p <= length s)%nat /\ scan_wf (drop p s) = true /\
  (u <= length (wtf16 s))%nat /\ drop u (wtf16 s) = wtf16 (drop p s).
Proof.
  intros Hwf Hb. induction Hb as [|p u Hb (Hp & Hw & Hu & Hv) Hlt].
  { rewrite !drop_0. repeat split; auto; lia. }
  destruct (scan_step s p Hw Hlt) as (Es & Eu & Hle & Hw' & Hstep).
  rewrite Es, Eu. rewrite Hstep in Hv.
  assert (Hlen : (length (wtf16 s) - u =
    units (utf16_scan_decode s p (length s) true) +
    length (wtf16 (drop (p + slen (utf16_scan_decode s p (length s) true)) s)))%nat).
  { rewrite <- length_drop, Hv, length_app, char_units_length. reflexivity. }
  repeat split; auto; [pose proof (scan_decode_units s p (length s) true); lia|].
  rewrite <- drop_drop, Hv. rewrite drop_app_length'; auto. symmetry. apply char_units_length.
Qed.

(** The next boundary, in the form the loops of the code produce it. *)
Lemma boundary_advance s p u d :
  scan_wf s = true -> boundary s p u -> (p < length s)%nat ->
  d = utf16_scan_decode s p (length s) true \/ (exists e, d = utf16_scan_decode s p e false) ->
  boundary s (p + slen d) (u + units d) /\ (p + slen d <= length s)%nat /\
  slen d = slen (utf16_scan_decode s p (length s) true) /\
  units d = units (utf16_scan_decode s p (length s) true).
Proof.
  intros Hwf Hb Hlt Hd.
  destruct (boundary_view s p u Hwf Hb) as (_ & Hw & _ & _).
  destruct (scan_step s p Hw Hlt) as (Es & Eu & Hle & _ & _).
  destruct Hd as [->|[e ->]]; [|rewrite (scan_decode_end s p e (length s))];
    rewrite ?Es, ?Eu; repeat split; auto;
    pose proof (boundary_next s p u Hb Hlt) as H; rewrite Es, Eu in H; exact H.
Qed.

(** At a boundary, the character's code units sit at the UTF-16 offset. *)
Lemma boundary_units s p u i :
  scan_wf s = true -> boundary s p u -> (p < length s)%nat ->
  let d := utf16_scan_decode s p (length s) true in
  (i < units d)%nat -> wtf16 s !! (u + i)%nat = char_units d !! i.
Proof.
  intros Hwf Hb Hlt d Hi.
  destruct (boundary_view s p u Hwf Hb) as (_ & Hw & _ & Hv).
  destruct (scan_step s p Hw Hlt) as (_ & _ & _ & _ & Hstep).
  rewrite <- lookup_drop, Hv, Hstep. apply lookup_app_l.
  subst d. rewrite char_units_length. exact Hi.
Qed.

Lemma boundary_end s u :
  scan_wf s = true -> boundary s (length s) u -> u = length (wtf16 s).
Proof.
  intros Hwf Hb. destruct (boundary_view s _ u Hwf Hb) as (_ & _ & Hu & Hv).
  rewrite drop_all in Hv. apply (f_equal length) in Hv. rewrite length_drop in Hv.
  simpl in Hv. lia.
Qed.


(** Boundaries form a chain: two of them coincide, or one lies at least a
    whole character before the other. *)
Definition boundary_before (s : list Z) (p u p' u' : nat) : Prop :=
  (p + slen (utf16_scan_decode s p (length s) false) <= p')%nat /\
  (u + units (utf16_scan_decode s p (length s) false) <= u')%nat.

Lemma boundary_before_next s p u p' u' :
  boundary_before s p u p' u' ->
  boundary_before s p u (p' + slen (utf16_scan_decode s p' (length s) false))
                        (u' + units (utf16_scan_decode s p' (length s) false)).
Proof. unfold boundary_before. lia. Qed.

Lemma boundary_chain s p u :
  boundary s p u -> forall p' u', boundary s p' u' ->
  (p = p' /\ u = u') \/ boundary_before s p u p' u' \/ boundary_before s p' u' p u.
Proof.
  intros Hb. induction Hb as [|p u Hb IH Hlt]; intros p' u' Hb'.
  - induction Hb' as [|p' u' Hb' [[<- <-]|[H|[H _]]] Hlt]; [auto|..].
    + right; left. unfold boundary_before. lia.
    + right; left. apply boundary_before_next. exact H.
    + pose proof (scan_decode_slen_pos s p' (length s) false). lia.
  - induction Hb' as [|p' u' Hb' IH' Hlt'].
    + destruct (IH 0%nat 0%nat (boundary_start s)) as [[-> ->]|[[H _]|H]].
      * right; right. unfold boundary_before. lia.
      * pose proof (scan_decode_slen_pos s p (length s) false). lia.
      * right; right. apply boundary_before_next. exact H.
    + destruct (IH p' u' Hb') as [[<- <-]|[H|H]]; [auto|..].
      * destruct IH' as [[<- <-]|[H'|[H1 H2]]].
        -- right; left. unfold boundary_before. lia.
        -- right; left. apply boundary_before_next. exact H'.
        -- destruct H as [H3 H4]. pose proof (scan_decode_slen_pos s p' (length s) false). lia.
      * destruct (IH _ _ (boundary_next s p' u' Hb' Hlt')) as [[-> ->]|[H'|H']].
        -- right; right. unfold boundary_before. lia.
        -- destruct H as [H1 H2]. destruct H' as [H3 H4].
           pose proof (scan_decode_slen_pos s p (length s) false). lia.
        -- right; right. apply boundary_before_next. exact H'.
Qed.

(** No boundary lies strictly inside a character. *)
Lemma boundary_no_inside s p u i :
  boundary s p u -> (0 < i < units (utf16_scan_decode s p (length s) false))%nat ->
  ~ exists p', boundary s p' (u + i).
Proof.
  intros Hb Hi [p' Hb']. destruct (boundary_chain s p u Hb p' (u + i) Hb') as [[_ H]|[[_ H]|[_ H]]].
  - lia.
  - lia.
  - pose proof (scan_decode_units s p' (length s) false). lia.
Qed.
