(* ===== verification/FlatString.v ===== *)
(** * Flat strings and their metadata word

    A flat string of the heap (include/internal.h, [ant_flat_string_t]) is its
    bytes and one 64-bit metadata word that caches three facts about them: the
    ASCII state (bits 56-57), the UTF-8 validity state (bits 58-59) and the
    UTF-16 length (bits 0-55, all ones when unknown).  The file models the
    accessors of that word with its bit layout, the operations that fill it
    lazily ([str_is_ascii], [str_is_valid_utf8], [flat_utf16_len]), and proves
    that a cached fact is always a fact about the bytes. *)

From S2P Require Import Prelude Utf8Scan.

(** ** The code *)

Definition STR_META_ASCII_SHIFT : Z := 56.
Definition STR_META_VALID_SHIFT : Z := 58.
Definition STR_META_FIELD_MASK : Z := 0x3.
Definition STR_META_UTF16_MASK : Z := (1 .<< STR_META_ASCII_SHIFT) - 1.
Definition STR_META_ASCII_MASK : Z := STR_META_FIELD_MASK .<< STR_META_ASCII_SHIFT.
Definition STR_META_VALID_MASK : Z := STR_META_FIELD_MASK .<< STR_META_VALID_SHIFT.
Definition not64 (x : Z) : Z := u64 (Z.lnot x).
Definition STR_META_STATE_MASK : Z := not64 STR_META_UTF16_MASK.
Definition STR_UTF16_LEN_UNKNOWN : Z := STR_META_UTF16_MASK.

Definition STR_ASCII_UNKNOWN : Z := 0.
Definition STR_ASCII_YES : Z := 1.
Definition STR_ASCII_NO : Z := 2.

Definition STR_UTF_UNKNOWN : Z := 0.
Definition STR_UTF_VALID : Z := 1.
Definition STR_UTF_INVALID : Z := 2.
Definition STR_UTF_INVALID_SAME_LENGTH : Z := 3.

(** [ant_flat_string_t]; [len] is the length of [fl_bytes]. *)
Record flat := Flat { fl_bytes : list Z; fl_meta : Z }.

Definition str_detect_ascii_bytes (s : list Z) : Z :=
  if existsb (fun b => 0x80 <=? b) s then STR_ASCII_NO else STR_ASCII_YES.

Definition str_flat_ascii_state (f : flat) : Z :=
  u8 ((fl_meta f .& STR_META_ASCII_MASK) .>> STR_META_ASCII_SHIFT).

Definition str_flat_utf_valid_state (f : flat) : Z :=
  u8 ((fl_meta f .& STR_META_VALID_MASK) .>> STR_META_VALID_SHIFT).

Definition str_flat_set_utf_valid_state (f : flat) (state : Z) : flat :=
  Flat (fl_bytes f)
    ((fl_meta f .& not64 STR_META_VALID_MASK) .|
     ((state .<< STR_META_VALID_SHIFT) .& STR_META_VALID_MASK)).

Definition str_flat_cached_utf16_len (f : flat) : Z := fl_meta f .& STR_META_UTF16_MASK.

Definition str_flat_init_meta (f : flat) (ascii_state : Z) : flat :=
  Flat (fl_bytes f) ((ascii_state .<< STR_META_ASCII_SHIFT) .| STR_UTF16_LEN_UNKNOWN).

Definition str_flat_set_utf16_len (f : flat) (len : Z) : flat :=
  Flat (fl_bytes f)
    ((fl_meta f .& STR_META_STATE_MASK) .| (len .& STR_META_UTF16_MASK)).

(** [str_is_ascii]: the answer and the string with its metadata filled in. *)
Definition str_is_ascii (f : flat) : bool * flat :=
  let state := str_flat_ascii_state f in
  if state =? STR_ASCII_UNKNOWN then
    let state := str_detect_ascii_bytes (fl_bytes f) in
    (state =? STR_ASCII_YES, str_flat_init_meta f state)
  else (state =? STR_ASCII_YES, f).

Definition str_is_valid_utf8 (f : flat) : bool * flat :=
  let '(ascii, f) := str_is_ascii f in
  if ascii then (true, f)
  else
    let state := str_flat_utf_valid_state f in
    if state =? STR_UTF_UNKNOWN then
      let state := if utf8_validate_bytes (fl_bytes f) (length (fl_bytes f))
                   then STR_UTF_VALID else STR_UTF_INVALID in
      (state =? STR_UTF_VALID, str_flat_set_utf_valid_state f state)
    else (state =? STR_UTF_VALID, f).

(** [utf16_strlen] (utf8.c): the cursor loop, without its epoch check, which
    the index file adds. *)
Fixpoint utf16_strlen_loop (fuel : nat) (s : list Z) (byte_len p utf16_pos : nat) : nat :=
  match fuel with
  | O => utf16_pos
  | S fuel =>
      if (p <? byte_len)%nat then
        let d := utf16_scan_decode s p byte_len false in
        let next := (p + slen d)%nat in
        utf16_strlen_loop fuel s byte_len
          (if (byte_len <? next)%nat then byte_len else next) (utf16_pos + units d)
      else utf16_pos
  end.

Definition utf16_strlen (s : list Z) (byte_len : nat) : nat :=
  utf16_strlen_loop (S byte_len) s byte_len 0 0.

(** [flat_utf16_len] of ant.c. *)
Definition flat_utf16_len (f : flat) : Z * flat :=
  let ascii_state := str_flat_ascii_state f in
  let '(ascii_state, f) :=
    if ascii_state =? STR_ASCII_UNKNOWN then
      let st := str_detect_ascii_bytes (fl_bytes f) in (st, str_flat_init_meta f st)
    else (ascii_state, f) in
  if ascii_state =? STR_ASCII_YES then (Z.of_nat (length (fl_bytes f)), f)
  else
    let cached := str_flat_cached_utf16_len f in
    if cached =? STR_UTF16_LEN_UNKNOWN then
      let n := Z.of_nat (utf16_strlen (fl_bytes f) (length (fl_bytes f))) in
      (n, str_flat_set_utf16_len f n)
    else (cached, f).

(** ** The metadata invariant *)

Definition all_ascii (s : list Z) : bool := forallb (fun b => b <? 0x80) s.

(** Every cached fact holds of the bytes. *)
Record meta_ok (f : flat) : Prop := {
  mo_range : 0 <= fl_meta f < 2 ^ 64;
  mo_ascii : str_flat_ascii_state f = STR_ASCII_UNKNOWN \/
             str_flat_ascii_state f = str_detect_ascii_bytes (fl_bytes f);
  mo_valid_yes : str_flat_utf_valid_state f = STR_UTF_VALID ->
                 utf8_validate_bytes (fl_bytes f) (length (fl_bytes f)) = true;
  mo_valid_no : 2 <= str_flat_utf_valid_state f ->
                utf8_validate_bytes (fl_bytes f) (length (fl_bytes f)) = false;
  mo_utf16 : str_flat_cached_utf16_len f = STR_UTF16_LEN_UNKNOWN \/
             str_flat_cached_utf16_len f = Z.of_nat (length (wtf16 (fl_bytes f)))
}.

(** ** Bits of the word *)

Lemma field_mask_bit k n : 0 <= k -> 0 <= n ->
  Z.testbit (STR_META_FIELD_MASK .<< k) n = (k <=? n) && (n <? k + 2).
Proof.
  intros Hk Hn. rewrite Z.shiftl_spec by lia. change STR_META_FIELD_MASK with (Z.ones 2).
  destruct (Z.leb_spec k n); simpl.
  - destruct (Z.ltb_spec n (k + 2)).
    + apply Z.ones_spec_low. lia.
    + apply Z.ones_spec_high. lia.
  - apply Z.testbit_neg_r. lia.
Qed.

Lemma ascii_mask_bit n : 0 <= n ->
  Z.testbit STR_META_ASCII_MASK n = (56 <=? n) && (n <? 58).
Proof. apply field_mask_bit. unfold STR_META_ASCII_SHIFT. lia. Qed.

Lemma valid_mask_bit n : 0 <= n ->
  Z.testbit STR_META_VALID_MASK n = (58 <=? n) && (n <? 60).
Proof. apply field_mask_bit. unfold STR_META_VALID_SHIFT. lia. Qed.

Lemma utf16_mask_bit n : 0 <= n -> Z.testbit STR_META_UTF16_MASK n = (n <? 56).
Proof.
  intros Hn. change STR_META_UTF16_MASK with (Z.ones 56).
  destruct (Z.ltb_spec n 56); [apply Z.ones_spec_low | apply Z.ones_spec_high]; lia.
Qed.

Lemma wrap_bit w x n : 0 <= w -> 0 <= n ->
  Z.testbit (wrap w x) n = (n <? w) && Z.testbit x n.
Proof.
  intros Hw Hn. unfold wrap. destruct (Z.ltb_spec n w); simpl.
  - apply Z.mod_pow2_bits_low. lia.
  - apply Z.mod_pow2_bits_high. lia.
Qed.

Lemma small_field_bit v n : 0 <= v < 4 -> 0 <= n -> Z.testbit v n = (n <? 2) && Z.testbit v n.
Proof.
  intros. destruct (Z.ltb_spec n 2); simpl; auto. apply (testbit_small v 2); simpl; lia.
Qed.

(** Reduce an equation between words to the bits of its atoms. *)
Ltac word_bits n Hn :=
  apply Z.bits_inj'; intros n Hn;
  repeat (rewrite ?Z.land_spec, ?Z.lor_spec, ?Z.shiftr_spec, ?Z.shiftl_spec,
    ?wrap_bit, ?Z.lnot_spec, ?Z.bits_0, ?ascii_mask_bit, ?valid_mask_bit,
    ?utf16_mask_bit by lia).
Ltac cmp_cases :=
  repeat match goal with
  | |- context [?a <=? ?b] => destruct (Z.leb_spec a b); try lia
  | |- context [?a <? ?b] => destruct (Z.ltb_spec a b); try lia
  end; cbn [andb orb negb]; try reflexivity.

(** The three fields of the word, and each setter, by bits. *)
Ltac meta_bits n Hn :=
  unfold str_flat_ascii_state, str_flat_utf_valid_state, str_flat_cached_utf16_len,
    str_flat_init_meta, str_flat_set_utf_valid_state, str_flat_set_utf16_len,
    STR_UTF16_LEN_UNKNOWN, STR_META_STATE_MASK, not64,
    STR_META_ASCII_SHIFT, STR_META_VALID_SHIFT; cbn [fl_meta];
  word_bits n Hn; repeat rewrite Z.add_simpl_r; cmp_cases;
  rewrite ?andb_false_r, ?andb_true_r, ?orb_false_r; try reflexivity.

Section meta_fields.
Context (f : flat) (v : Z) (Hv : 0 <= v < 4).

Lemma init_meta_ascii : str_flat_ascii_state (str_flat_init_meta f v) = v.
Proof using Hv. meta_bits n Hn; symmetry; apply (testbit_small v 2); simpl; lia. Qed.

Lemma init_meta_valid : str_flat_utf_valid_state (str_flat_init_meta f v) = STR_UTF_UNKNOWN.
Proof using Hv. meta_bits n Hn; apply (testbit_small v 2); simpl; lia. Qed.

Lemma init_meta_utf16 : str_flat_cached_utf16_len (str_flat_init_meta f v) = STR_UTF16_LEN_UNKNOWN.
Proof using Hv. meta_bits n Hn. Qed.

Lemma set_valid_ascii :
  str_flat_ascii_state (str_flat_set_utf_valid_state f v) = str_flat_ascii_state f.
Proof using Hv. meta_bits n Hn. Qed.

Lemma set_valid_valid : str_flat_utf_valid_state (str_flat_set_utf_valid_state f v) = v.
Proof using Hv. meta_bits n Hn; symmetry; apply (testbit_small v 2); simpl; lia. Qed.

Lemma set_valid_utf16 :
  str_flat_cached_utf16_len (str_flat_set_utf_valid_state f v) = str_flat_cached_utf16_len f.
Proof using Hv. meta_bits n Hn. Qed.
End meta_fields.

Lemma set_len_ascii f n :
  str_flat_ascii_state (str_flat_set_utf16_len f n) = str_flat_ascii_state f.
Proof. meta_bits i Hi. Qed.

Lemma set_len_valid f n :
  str_flat_utf_valid_state (str_flat_set_utf16_len f n) = str_flat_utf_valid_state f.
Proof. meta_bits i Hi. Qed.

Lemma set_len_utf16 f n : 0 <= n < 2 ^ 56 ->
  str_flat_cached_utf16_len (str_flat_set_utf16_len f n) = n.
Proof. intros Hr. meta_bits i Hi; symmetry; apply (testbit_small n 56); lia. Qed.

(** A value whose bits from 64 on are clear is a 64-bit word. *)
Lemma word_range x :
  0 <= x -> (forall n, 64 <= n -> Z.testbit x n = false) -> 0 <= x < 2 ^ 64.
Proof.
  intros Hx H. split; auto. destruct (Z.lt_ge_cases x (2 ^ 64)) as [|Hge]; auto.
  pose proof (Z.log2_le_mono _ _ Hge) as Hl. rewrite Z.log2_pow2 in Hl by lia.
  pose proof (Z.bit_log2 x ltac:(lia)) as Hb. rewrite H in Hb by lia. discriminate.
Qed.

Lemma init_meta_range f v : 0 <= v < 4 -> 0 <= fl_meta (str_flat_init_meta f v) < 2 ^ 64.
Proof.
  intros Hv. unfold str_flat_init_meta, STR_META_ASCII_SHIFT; cbn [fl_meta]. apply word_range.
  - apply Z.lor_nonneg. split; [apply Z.shiftl_nonneg; lia | vm_compute; discriminate].
  - intros n Hn. rewrite Z.lor_spec, Z.shiftl_spec by lia.
    unfold STR_UTF16_LEN_UNKNOWN. rewrite utf16_mask_bit by lia.
    rewrite (testbit_small v 2) by (simpl; lia). cmp_cases.
Qed.

Lemma set_valid_range f v :
  0 <= fl_meta f < 2 ^ 64 -> 0 <= fl_meta (str_flat_set_utf_valid_state f v) < 2 ^ 64.
Proof.
  intros Hf. unfold str_flat_set_utf_valid_state; cbn [fl_meta]. apply word_range.
  - apply Z.lor_nonneg. rewrite !Z.land_nonneg. split; [lia|].
    right. vm_compute. discriminate.
  - intros n Hn. rewrite Z.lor_spec, !Z.land_spec, valid_mask_bit by lia.
    rewrite (testbit_small (fl_meta f) 64) by lia. cmp_cases.
    all: rewrite andb_false_r; reflexivity.
Qed.

Lemma set_len_range f n :
  0 <= fl_meta f < 2 ^ 64 -> 0 <= fl_meta (str_flat_set_utf16_len f n) < 2 ^ 64.
Proof.
  intros Hf. unfold str_flat_set_utf16_len; cbn [fl_meta]. apply word_range.
  - apply Z.lor_nonneg. rewrite !Z.land_nonneg. split; [lia|].
    right. vm_compute. discriminate.
  - intros i Hi. rewrite Z.lor_spec, !Z.land_spec, utf16_mask_bit by lia.
    rewrite (testbit_small (fl_meta f) 64) by lia. cmp_cases.
    all: rewrite andb_false_r; reflexivity.
Qed.

(** ** ASCII and validity *)

Lemma detect_ascii_range s : 1 <= str_detect_ascii_bytes s < 3.
Proof. unfold str_detect_ascii_bytes, STR_ASCII_NO, STR_ASCII_YES. case_ifs; lia. Qed.

Lemma detect_ascii_spec s : (str_detect_ascii_bytes s =? STR_ASCII_YES) = all_ascii s.
Proof.
  unfold str_detect_ascii_bytes, all_ascii. induction s as [|b s IH]; [reflexivity|].
  cbn [existsb forallb]. rewrite <- IH. clear IH.
  replace (b <? 0x80) with (negb (0x80 <=? b)) by
    (destruct (Z.leb_spec 0x80 b), (Z.ltb_spec b 0x80); simpl; lia).
  destruct (0x80 <=? b); simpl; [reflexivity|]. reflexivity.
Qed.

Lemma init_meta_ok f : meta_ok (str_flat_init_meta f (str_detect_ascii_bytes (fl_bytes f))).
Proof.
  pose proof (detect_ascii_range (fl_bytes f)). split.
  - apply init_meta_range. lia.
  - right. rewrite init_meta_ascii by lia. reflexivity.
  - rewrite init_meta_valid by lia. discriminate.
  - rewrite init_meta_valid by lia. unfold STR_UTF_UNKNOWN. lia.
  - left. apply init_meta_utf16. lia.
Qed.

Lemma set_valid_ok f v : meta_ok f -> 0 <= v < 4 ->
  (v = STR_UTF_VALID -> utf8_validate_bytes (fl_bytes f) (length (fl_bytes f)) = true) ->
  (2 <= v -> utf8_validate_bytes (fl_bytes f) (length (fl_bytes f)) = false) ->
  meta_ok (str_flat_set_utf_valid_state f v).
Proof.
  intros [] Hv Hyes Hno. split.
  - apply set_valid_range. lia.
  - rewrite set_valid_ascii by lia. auto.
  - rewrite set_valid_valid by lia. auto.
  - rewrite set_valid_valid by lia. auto.
  - rewrite set_valid_utf16 by lia. auto.
Qed.

Lemma set_len_ok f : meta_ok f -> Z.of_nat (length (wtf16 (fl_bytes f))) < 2 ^ 56 ->
  meta_ok (str_flat_set_utf16_len f (Z.of_nat (length (wtf16 (fl_bytes f))))).
Proof.
  intros [] Hn. split.
  - apply set_len_range. lia.
  - rewrite set_len_ascii. auto.
  - rewrite set_len_valid. auto.
  - rewrite set_len_valid. auto.
  - right. rewrite set_len_utf16 by lia. reflexivity.
Qed.

Lemma str_is_ascii_spec f : meta_ok f ->
  let '(r, f') := str_is_ascii f in
  r = all_ascii (fl_bytes f) /\ fl_bytes f' = fl_bytes f /\ meta_ok f' /\
  str_flat_ascii_state f' = str_detect_ascii_bytes (fl_bytes f).
Proof.
  intros Hok. unfold str_is_ascii.
  destruct (Z.eqb_spec (str_flat_ascii_state f) STR_ASCII_UNKNOWN) as [E|E].
  - rewrite detect_ascii_spec. repeat split; try apply init_meta_ok.
    apply init_meta_ascii. pose proof (detect_ascii_range (fl_bytes f)). lia.
  - destruct (mo_ascii f Hok) as [H|H]; [congruence|].
    rewrite H, detect_ascii_spec. auto.
Qed.

Lemma str_is_valid_utf8_spec f : meta_ok f ->
  let '(r, f') := str_is_valid_utf8 f in
  r = all_ascii (fl_bytes f) || utf8_validate_bytes (fl_bytes f) (length (fl_bytes f)) /\
  fl_bytes f' = fl_bytes f /\ meta_ok f'.
Proof.
  intros Hok. unfold str_is_valid_utf8. pose proof (str_is_ascii_spec f Hok) as Ha.
  destruct (str_is_ascii f) as [r f1]. destruct Ha as (-> & Hb & Hok1 & _).
  rewrite <- Hb. destruct (all_ascii (fl_bytes f1)); [auto|].
  destruct (Z.eqb_spec (str_flat_utf_valid_state f1) STR_UTF_UNKNOWN) as [E|E].
  - cbn [orb]. destruct (utf8_validate_bytes _ _) eqn:V; repeat split; auto;
      apply set_valid_ok; auto; unfold STR_UTF_VALID, STR_UTF_INVALID; try lia; congruence.
  - destruct (Z.eqb_spec (str_flat_utf_valid_state f1) STR_UTF_VALID) as [E1|E1]; cbn [orb].
    + rewrite (mo_valid_yes f1 Hok1 E1). auto.
    + rewrite (mo_valid_no f1 Hok1); auto.
      assert (0 <= str_flat_utf_valid_state f1) by
        (unfold str_flat_utf_valid_state; apply wrap_range; lia).
      unfold STR_UTF_UNKNOWN, STR_UTF_VALID in *. lia.
Qed.

(** ** UTF-16 length *)

Lemma utf16_strlen_loop_spec s fuel p u :
  scan_wf s = true -> boundary s p u -> (length s - p < fuel)%nat ->
  utf16_strlen_loop fuel s (length s) p u = length (wtf16 s).
Proof.
  intros Hwf. revert p u. induction fuel as [|fuel IH]; intros p u Hb Hf; [lia|].
  cbn [utf16_strlen_loop]. destruct (boundary_view s p u Hwf Hb) as (Hp & _).
  destruct (Nat.ltb_spec p (length s)) as [Hlt|Hge].
  - destruct (boundary_advance s p u (utf16_scan_decode s p (length s) false) Hwf Hb Hlt)
      as (Hb' & Hle & _); [eauto|].
    pose proof (scan_decode_slen_pos s p (length s) false).
    destruct (Nat.ltb_spec (length s) (p + slen (utf16_scan_decode s p (length s) false)));
      [lia|]. apply IH; [auto|lia].
  - apply boundary_end; auto. replace (length s) with p by lia. auto.
Qed.

Lemma utf16_strlen_wtf16 s :
  scan_wf s = true -> utf16_strlen s (length s) = length (wtf16 s).
Proof. intros. apply utf16_strlen_loop_spec; auto using boundary_start. lia. Qed.

Lemma wtf16_ascii s : all_ascii s = true -> wtf16 s = s.
Proof.
  induction s as [|b s IH]; [reflexivity|]. unfold all_ascii. cbn [forallb wtf16].
  intros H. apply andb_true_iff in H as [H1 H2]. rewrite H1, IH; auto.
Qed.

Lemma all_ascii_scan_wf s : all_ascii s = true -> scan_wf s = true.
Proof.
  induction s as [|b s IH]; [reflexivity|]. unfold all_ascii. cbn [forallb scan_wf].
  intros H. apply andb_true_iff in H as [H1 H2]. rewrite H1. auto.
Qed.

Lemma wtf16_length_le s : (length (wtf16 s) <= length s)%nat.
Proof.
  enough (H : forall n s, (length s < n)%nat -> (length (wtf16 s) <= length s)%nat) by eauto.
  clear s. induction n as [|n IH]; intros s Hs; [lia|].
  destruct s as [|c t]; cbn [wtf16 length] in *; [lia|].
  case_ifs; cbn [length]; repeat (match goal with |- context [match ?t with _ => _ end] => destruct t end;
    cbn [length] in * ); try (rewrite <- Nat.succ_le_mono; apply IH; cbn [length] in *; lia);
    try (match goal with |- context [wtf16 ?t] =>
      pose proof (IH t ltac:(cbn [length] in *; lia)) end; cbn [length] in *; lia).
Qed.

Lemma flat_utf16_len_spec f :
  meta_ok f -> scan_wf (fl_bytes f) = true -> Z.of_nat (length (fl_bytes f)) < 2 ^ 56 - 1 ->
  let '(n, f') := flat_utf16_len f in
  n = Z.of_nat (length (wtf16 (fl_bytes f))) /\ fl_bytes f' = fl_bytes f /\ meta_ok f'.
Proof.
  intros Hok Hwf Hlen. unfold flat_utf16_len.
  pose proof (str_is_ascii_spec f Hok) as Ha. unfold str_is_ascii in Ha.
  set (st := str_flat_ascii_state f) in *.
  assert (exists st' f1, (if st =? STR_ASCII_UNKNOWN then
     (str_detect_ascii_bytes (fl_bytes f), str_flat_init_meta f (str_detect_ascii_bytes (fl_bytes f)))
     else (st, f)) = (st', f1) /\ (st' =? STR_ASCII_YES) = all_ascii (fl_bytes f) /\
     fl_bytes f1 = fl_bytes f /\ meta_ok f1) as (st' & f1 & -> & Hst & Hb & Hok1).
  { destruct (st =? STR_ASCII_UNKNOWN); destruct Ha as (H1 & H2 & H3 & _); eauto 10. }
  rewrite Hst, Hb. destruct (all_ascii (fl_bytes f)) eqn:E.
  { rewrite (wtf16_ascii _ E). split; [reflexivity|]. split; assumption. }
  pose proof (wtf16_length_le (fl_bytes f)).
  destruct (Z.eqb_spec (str_flat_cached_utf16_len f1) STR_UTF16_LEN_UNKNOWN) as [Eu|Eu].
  - rewrite utf16_strlen_wtf16 by exact Hwf. split; [reflexivity|]. split; [exact Hb|].
    rewrite <- Hb. apply set_len_ok; [exact Hok1|]. rewrite Hb. lia.
  - destruct (mo_utf16 f1 Hok1) as [H1|H1]; [congruence|]. rewrite H1, Hb.
    split; [reflexivity|]. split; [reflexivity|exact Hok1].
Qed.

(** The packed metadata word never lies: in any state whose cached facts
    hold, [str_is_ascii], [str_is_valid_utf8] and [flat_utf16_len] return the
    answer computed from the bytes whether or not it was cached, keep the
    bytes, and leave a word whose cached facts hold. *)
Theorem flat_metadata_correct f :
  meta_ok f -> scan_wf (fl_bytes f) = true -> Z.of_nat (length (fl_bytes f)) < 2 ^ 56 - 1 ->
  (let '(r, f') := str_is_ascii f in
   r = all_ascii (fl_bytes f) /\ fl_bytes f' = fl_bytes f /\ meta_ok f') /\
  (let '(r, f') := str_is_valid_utf8 f in
   r = all_ascii (fl_bytes f) || utf8_validate_bytes (fl_bytes f) (length (fl_bytes f)) /\
   fl_bytes f' = fl_bytes f /\ meta_ok f') /\
  (let '(n, f') := flat_utf16_len f in
   n = Z.of_nat (length (wtf16 (fl_bytes f))) /\ fl_bytes f' = fl_bytes f /\ meta_ok f').
Proof.
  intros Hok Hwf Hlen. splits.
  - pose proof (str_is_ascii_spec f Hok) as H. destruct (str_is_ascii f). tauto.
  - apply str_is_valid_utf8_spec. exact Hok.
  - apply flat_utf16_len_spec; assumption.
Qed.

Lemma flat_metadata_correct_witness :
  let s := [0x61; 0xF0; 0x9F; 0x98; 0x80] in
  let f := str_flat_init_meta (Flat s 0) (str_detect_ascii_bytes s) in
  (flat_utf16_len f).1 = 3.
Proof.
  intros s f. pose proof (flat_metadata_correct f) as H.
  destruct H as (_ & _ & H); [apply (init_meta_ok (Flat s 0))|reflexivity|reflexivity|].
  destruct (flat_utf16_len f) as [n f']. destruct H as [-> _]. reflexivity.
Defined.
