(* ===== verification/Utf16Index.v ===== *)
(** * Random access by UTF-16 index

    The accessors of [src/src/utf8.c] that map between byte offsets and
    UTF-16 offsets, with the two caches they keep per thread: the scan cache
    (the last position reached in one string) and the index cache (eight
    strings with a checkpoint every 64 code units).  Both are keyed by the
    address of the string's bytes and dropped when [gc_strings_sweep_epoch]
    moves, since a sweep lets an address be reused.

    The state is the string heap, the sweep epoch and the two caches.  The
    theorems show that the caches are invisible: from every state that
    reachable operations produce, each accessor answers as a plain scan of the
    string from its first byte would. *)

From S2P Require Import Prelude Utf8Scan FlatString.

(** ** State *)

Definition NULL : Z := 0.

Record utf16_scan_cache_t := ScanCache {
  sc_epoch : Z; sc_str : Z; sc_byte_len : nat; sc_byte_pos : nat; sc_utf16_pos : nat }.

(** [start] is offset 0 and [end] is offset [cu_byte_len]. *)
Record utf16_scan_cursor_t := Cursor {
  cu_str : Z; cu_byte_len : nat; cu_p : nat; cu_utf16_pos : nat }.

(** A checkpoint is its [byte_off] and [utf16_pos]. *)
Record utf16_index_entry_t := IndexEntry {
  ie_str : Z; ie_byte_len : nat; ie_points : option (list (nat * nat)) }.

Record utf16_index_cache_t := IndexCache {
  ic_epoch : Z; ic_victim : nat; ic_mru : nat; ic_entries : list utf16_index_entry_t }.

Record world := World {
  w_heap : gmap Z flat; w_epoch : Z;
  w_scan : utf16_scan_cache_t; w_index : utf16_index_cache_t }.

Definition with_heap (w : world) h := World h (w_epoch w) (w_scan w) (w_index w).
Definition with_scan (w : world) c := World (w_heap w) (w_epoch w) c (w_index w).
Definition with_index (w : world) c := World (w_heap w) (w_epoch w) (w_scan w) c.

(** The bytes at an address. *)
Definition w_bytes (w : world) (str : Z) : list Z :=
  match w_heap w !! str with Some f => fl_bytes f | None => [] end.

(** [str_is_ascii(str)] through the heap. *)
Definition w_is_ascii (w : world) (str : Z) : bool * world :=
  match w_heap w !! str with
  | Some f => let '(r, f') := str_is_ascii f in (r, with_heap w (<[str := f']> (w_heap w)))
  | None => (false, w)
  end.

(** ** The scan cache and the cursor *)

Definition utf16_scan_cache_sync_epoch (w : world) : world :=
  if sc_epoch (w_scan w) =? w_epoch w then w
  else with_scan w (ScanCache (w_epoch w) NULL 0 0 0).

Definition utf16_scan_cursor_init (w : world) (str : Z) (byte_len : nat)
  : utf16_scan_cursor_t * world :=
  (Cursor str byte_len 0 0, utf16_scan_cache_sync_epoch w).

Definition utf16_scan_cache_matches (w : world) (cur : utf16_scan_cursor_t) : bool :=
  (sc_str (w_scan w) =? cu_str cur) && (sc_byte_pos (w_scan w) <=? cu_byte_len cur)%nat.

Definition cursor_at (cur : utf16_scan_cursor_t) (p u : nat) : utf16_scan_cursor_t :=
  Cursor (cu_str cur) (cu_byte_len cur) p u.

Definition utf16_scan_cursor_resume_utf16 (w : world) (cur : utf16_scan_cursor_t)
  (target_utf16 : nat) : utf16_scan_cursor_t :=
  if negb (utf16_scan_cache_matches w cur) then cur
  else if (target_utf16 <? sc_utf16_pos (w_scan w))%nat then cur
  else cursor_at cur (sc_byte_pos (w_scan w)) (sc_utf16_pos (w_scan w)).

Definition utf16_scan_cursor_resume_byte (w : world) (cur : utf16_scan_cursor_t)
  (target_byte : nat) : utf16_scan_cursor_t :=
  if negb (utf16_scan_cache_matches w cur) then cur
  else if (target_byte <? sc_byte_pos (w_scan w))%nat then cur
  else cursor_at cur (sc_byte_pos (w_scan w)) (sc_utf16_pos (w_scan w)).

Definition utf16_scan_cursor_store (w : world) (cur : utf16_scan_cursor_t) : world :=
  with_scan w (ScanCache (sc_epoch (w_scan w)) (cu_str cur) (cu_byte_len cur)
                         (cu_p cur) (cu_utf16_pos cur)).

(** [utf16_scan_cursor_advance]: whether the character ended inside the bound. *)
Definition utf16_scan_cursor_advance (s : list Z) (cur : utf16_scan_cursor_t) (bound_end : nat)
  : bool * utf16_scan_cursor_t :=
  let d := utf16_scan_decode s (cu_p cur) (cu_byte_len cur) false in
  let next := (cu_p cur + slen d)%nat in
  let utf16_pos := (cu_utf16_pos cur + units d)%nat in
  if (bound_end <? next)%nat then (false, cursor_at cur bound_end utf16_pos)
  else (true, cursor_at cur next utf16_pos).

(** ** The index cache *)

Definition UTF16_INDEX_CHUNK : nat := 64.
Definition UTF16_INDEX_WAYS : nat := 8.
Definition UTF16_INDEX_MIN_BYTES : nat := 256.
Definition UINT32_MAX : Z := 2 ^ 32 - 1.

Definition empty_entry : utf16_index_entry_t := IndexEntry NULL 0 None.
Definition cast_u32 (n : nat) : nat := Z.to_nat (u32 (Z.of_nat n)).

Definition utf16_index_sync_epoch (w : world) : world :=
  if ic_epoch (w_index w) =? w_epoch w then w
  else with_index w (IndexCache (w_epoch w) 0 0 (replicate UTF16_INDEX_WAYS empty_entry)).

Fixpoint utf16_index_build_loop (fuel : nat) (s : list Z) (byte_len p utf16_pos : nat)
  (points : list (nat * nat)) : list (nat * nat) :=
  match fuel with
  | O => points
  | S fuel =>
      if (p <? byte_len)%nat then
        let d := utf16_scan_decode s p byte_len false in
        let points :=
          if (length points * UTF16_INDEX_CHUNK <? utf16_pos + units d)%nat
          then points ++ [(cast_u32 p, cast_u32 utf16_pos)] else points in
        utf16_index_build_loop fuel s byte_len (p + slen d) (utf16_pos + units d) points
      else points
  end.

Definition utf16_index_points (s : list Z) (byte_len : nat) : list (nat * nat) :=
  utf16_index_build_loop (S byte_len) s byte_len 0 0 [(0%nat, 0%nat)].

(** Number of elements [utf16_index_build] allocates. *)
Definition utf16_index_max_points (byte_len : nat) : nat :=
  (byte_len / UTF16_INDEX_CHUNK + 2)%nat.

Section index.
(** Whether [malloc] grants a request of this many checkpoints. *)
Context (malloc_ok : nat -> bool).

Definition utf16_index_build (e : utf16_index_entry_t) (s : list Z) (byte_len : nat)
  : option utf16_index_entry_t :=
  if malloc_ok (utf16_index_max_points byte_len)
  then Some (IndexEntry (ie_str e) (ie_byte_len e) (Some (utf16_index_points s byte_len)))
  else None.

Definition entry_matches (e : utf16_index_entry_t) (str : Z) (byte_len : nat) : bool :=
  (ie_str e =? str) && (ie_byte_len e =? byte_len)%nat.

(** [entry] of [utf16_index_get]: the most recently used way first, then the
    others in order. *)
Definition utf16_index_find (c : utf16_index_cache_t) (str : Z) (byte_len : nat) : option nat :=
  if entry_matches (nth (ic_mru c) (ic_entries c) empty_entry) str byte_len
  then Some (ic_mru c)
  else find (fun i => negb (i =? ic_mru c)%nat &&
                      entry_matches (nth i (ic_entries c) empty_entry) str byte_len)
            (seq 0 UTF16_INDEX_WAYS).

Definition utf16_index_get (w : world) (str : Z) (byte_len : nat)
  : option utf16_index_entry_t * world :=
  if (byte_len <? UTF16_INDEX_MIN_BYTES)%nat || (UINT32_MAX <? Z.of_nat byte_len)
  then (None, w)
  else
    let w := utf16_index_sync_epoch w in
    let c := w_index w in
    match utf16_index_find c str byte_len with
    | None =>
        let v := ic_victim c in
        let v' := if (S v =? UTF16_INDEX_WAYS)%nat then 0%nat else S v in
        (None, with_index w (IndexCache (ic_epoch c) v' v
                 (<[v := IndexEntry str byte_len None]> (ic_entries c))))
    | Some i =>
        let e := nth i (ic_entries c) empty_entry in
        let c := IndexCache (ic_epoch c) (ic_victim c) i (ic_entries c) in
        match ie_points e with
        | Some _ => (Some e, with_index w c)
        | None =>
            match utf16_index_build e (w_bytes w str) byte_len with
            | Some e' => (Some e', with_index w (IndexCache (ic_epoch c) (ic_victim c)
                           (ic_mru c) (<[i := e']> (ic_entries c))))
            | None => (None, with_index w c)
            end
        end
    end.

(** The loop [while (point > 0 && points[point].utf16_pos > target) point--]. *)
Fixpoint utf16_index_seek_point (points : list (nat * nat)) (target point : nat) : nat :=
  match point with
  | O => O
  | S k => if (target <? (nth point points (0, 0)).2)%nat
           then utf16_index_seek_point points target k else point
  end.

Definition utf16_index_seek (e : utf16_index_entry_t) (cur : utf16_scan_cursor_t) (target : nat)
  : utf16_scan_cursor_t :=
  let points := match ie_points e with Some p => p | None => [] end in
  let point := (target / UTF16_INDEX_CHUNK)%nat in
  let point := if (length points <=? point)%nat then (length points - 1)%nat else point in
  let point := utf16_index_seek_point points target point in
  let checkpoint := nth point points (0%nat, 0%nat) in
  if (checkpoint.2 <=? cu_utf16_pos cur)%nat then cur
  else cursor_at cur checkpoint.1 checkpoint.2.

Definition utf16_scan_cursor_resume_indexed (w : world) (cur : utf16_scan_cursor_t)
  (target : nat) : utf16_scan_cursor_t * world :=
  let cur := utf16_scan_cursor_resume_utf16 w cur target in
  if (target <=? cu_utf16_pos cur)%nat
     || (target - cu_utf16_pos cur <=? UTF16_INDEX_CHUNK)%nat
  then (cur, w)
  else
    let '(index, w) := utf16_index_get w (cu_str cur) (cu_byte_len cur) in
    match index with
    | Some e => (utf16_index_seek e cur target, w)
    | None => (cur, w)
    end.

(** ** The accessors *)

(** [while (p < end && utf16_pos < target) advance]. *)
Fixpoint advance_until (fuel : nat) (s : list Z) (cur : utf16_scan_cursor_t) (target : nat)
  : utf16_scan_cursor_t :=
  match fuel with
  | O => cur
  | S fuel =>
      if (cu_p cur <? cu_byte_len cur)%nat && (cu_utf16_pos cur <? target)%nat
      then advance_until fuel s (utf16_scan_cursor_advance s cur (cu_byte_len cur)).2 target
      else cur
  end.

(** [utf16_index_to_byte_offset]: the returned [int] and what is written to
    [*out_char_bytes], if anything. *)
Definition utf16_index_to_byte_offset (w : world) (str : Z) (byte_len utf16_idx : nat)
  : (Z * option nat) * world :=
  let '(ascii, w) := w_is_ascii w str in
  if ascii then
    if (byte_len <? utf16_idx)%nat then ((-1, None), w)
    else ((to_i32 (Z.of_nat utf16_idx), Some (if (utf16_idx <? byte_len)%nat then 1%nat else 0%nat)), w)
  else
    let s := w_bytes w str in
    let '(cur, w) := utf16_scan_cursor_init w str byte_len in
    let '(cur, w) := utf16_scan_cursor_resume_indexed w cur utf16_idx in
    let cur := advance_until (S byte_len) s cur utf16_idx in
    if (cu_byte_len cur <=? cu_p cur)%nat then
      if (cu_utf16_pos cur =? utf16_idx)%nat
      then ((to_i32 (Z.of_nat byte_len), Some 0%nat), utf16_scan_cursor_store w cur)
      else ((-1, None), utf16_scan_cursor_store w cur)
    else
      let d := utf16_scan_decode s (cu_p cur) (cu_byte_len cur) false in
      ((to_i32 (Z.of_nat (cu_p cur)), Some (slen d)), utf16_scan_cursor_store w cur).

(** The loop of [utf16_index_to_byte_offset_floor]. *)
Fixpoint floor_loop (fuel : nat) (s : list Z) (cur : utf16_scan_cursor_t) (utf16_idx : nat)
  : utf16_scan_cursor_t :=
  match fuel with
  | O => cur
  | S fuel =>
      if (cu_p cur <? cu_byte_len cur)%nat && (cu_utf16_pos cur <? utf16_idx)%nat then
        let d := utf16_scan_decode s (cu_p cur) (cu_byte_len cur) false in
        if (utf16_idx <? cu_utf16_pos cur + units d)%nat then cur
        else floor_loop fuel s
               (cursor_at cur (cu_p cur + slen d) (cu_utf16_pos cur + units d)) utf16_idx
      else cur
  end.

Definition utf16_index_to_byte_offset_floor (w : world) (str : Z) (byte_len utf16_idx : nat)
  : nat * world :=
  let '(ascii, w) := w_is_ascii w str in
  if ascii then ((if (byte_len <? utf16_idx)%nat then byte_len else utf16_idx), w)
  else
    let s := w_bytes w str in
    let '(cur, w) := utf16_scan_cursor_init w str byte_len in
    let cur := utf16_scan_cursor_resume_utf16 w cur utf16_idx in
    let cur := floor_loop (S byte_len) s cur utf16_idx in
    (cu_p cur, utf16_scan_cursor_store w cur).

(** First loop of [utf16_range_to_byte_range]: up to [utf16_start]; a start in
    the middle of a pair leaves its low surrogate behind. *)
Fixpoint range_start_loop (fuel : nat) (s : list Z) (cur : utf16_scan_cursor_t)
  (utf16_start : nat) (prefix : Z) : utf16_scan_cursor_t * Z :=
  match fuel with
  | O => (cur, prefix)
  | S fuel =>
      if (cu_p cur <? cu_byte_len cur)%nat && (cu_utf16_pos cur <? utf16_start)%nat then
        let d := utf16_scan_decode s (cu_p cur) (cu_byte_len cur) false in
        if (units d =? 2)%nat && (cu_utf16_pos cur + 1 =? utf16_start)%nat then
          let d := utf16_scan_decode s (cu_p cur) (cu_byte_len cur) true in
          (cursor_at cur (cu_p cur + slen d) (cu_utf16_pos cur + units d),
           u16 (0xDC00 + (u32 (scp d - 0x10000) .& 0x3FF)))
        else range_start_loop fuel s
               (cursor_at cur (cu_p cur + slen d) (cu_utf16_pos cur + units d)) utf16_start prefix
      else (cur, prefix)
  end.

(** Second loop: up to [utf16_end]; an end in the middle of a pair takes its
    high surrogate. *)
Fixpoint range_end_loop (fuel : nat) (s : list Z) (cur : utf16_scan_cursor_t)
  (utf16_end : nat) : utf16_scan_cursor_t * Z :=
  match fuel with
  | O => (cur, 0)
  | S fuel =>
      if (cu_p cur <? cu_byte_len cur)%nat && (cu_utf16_pos cur <? utf16_end)%nat then
        let d := utf16_scan_decode s (cu_p cur) (cu_byte_len cur) false in
        if (units d =? 2)%nat && (cu_utf16_pos cur + 1 =? utf16_end)%nat then
          let d := utf16_scan_decode s (cu_p cur) (cu_byte_len cur) true in
          (cur, u16 (0xD800 + (u32 (scp d - 0x10000) .>> 10)))
        else range_end_loop fuel s
               (cursor_at cur (cu_p cur + slen d) (cu_utf16_pos cur + units d)) utf16_end
      else (cur, 0)
  end.

(** [utf16_range_splits_t] and the two out parameters. *)
Record byte_range := ByteRange {
  prefix_surrogate : Z; suffix_surrogate : Z; byte_start : nat; byte_end : nat }.

Definition utf16_range_to_byte_range (w : world) (str : Z) (byte_len utf16_start utf16_end : nat)
  : byte_range * world :=
  if (utf16_end <=? utf16_start)%nat then (ByteRange 0 0 0 0, w)
  else
    let '(ascii, w) := w_is_ascii w str in
    if ascii then
      (ByteRange 0 0 (if (utf16_start <=? byte_len)%nat then utf16_start else byte_len)
                     (if (utf16_end <=? byte_len)%nat then utf16_end else byte_len), w)
    else
      let s := w_bytes w str in
      let '(cur, w) := utf16_scan_cursor_init w str byte_len in
      let '(cur, w) := utf16_scan_cursor_resume_indexed w cur utf16_start in
      let '(cur, prefix) := range_start_loop (S byte_len) s cur utf16_start 0 in
      let start := cu_p cur in
      let '(cur, suffix) := range_end_loop (S byte_len) s cur utf16_end in
      (ByteRange prefix suffix start (cu_p cur), utf16_scan_cursor_store w cur).

(** The loop of [byte_offset_to_utf16] and its [ended_on_boundary]. *)
Fixpoint byte_offset_loop (fuel : nat) (s : list Z) (cur : utf16_scan_cursor_t) (bound_end : nat)
  : utf16_scan_cursor_t * bool :=
  match fuel with
  | O => (cur, true)
  | S fuel =>
      if (cu_p cur <? bound_end)%nat then
        let '(inside, cur) := utf16_scan_cursor_advance s cur bound_end in
        if inside then byte_offset_loop fuel s cur bound_end else (cur, false)
      else (cur, true)
  end.

Definition byte_offset_to_utf16 (w : world) (str : Z) (byte_off : nat) : nat * world :=
  let '(ascii, w) := w_is_ascii w str in
  if ascii then (byte_off, w)
  else
    let s := w_bytes w str in
    let '(cur, w) := utf16_scan_cursor_init w str byte_off in
    let cur := utf16_scan_cursor_resume_byte w cur byte_off in
    let '(cur, ended_on_boundary) := byte_offset_loop (S byte_off) s cur byte_off in
    (cu_utf16_pos cur, if ended_on_boundary then utf16_scan_cursor_store w cur else w).

Definition NO_UNIT : Z := 0xFFFFFFFF.

(** The loop shared by [utf16_code_unit_at] and [utf16_codepoint_at]: they
    differ in what they return at a character's first unit. *)
Fixpoint unit_loop (fuel : nat) (s : list Z) (at_first : scan_out -> Z)
  (cur : utf16_scan_cursor_t) (utf16_idx : nat) : Z * utf16_scan_cursor_t :=
  match fuel with
  | O => (NO_UNIT, cur)
  | S fuel =>
      if (cu_p cur <? cu_byte_len cur)%nat then
        let d := utf16_scan_decode s (cu_p cur) (cu_byte_len cur) true in
        if (cu_utf16_pos cur =? utf16_idx)%nat then (at_first d, cur)
        else if (units d =? 2)%nat && (cu_utf16_pos cur + 1 =? utf16_idx)%nat
        then (0xDC00 + (u32 (scp d - 0x10000) .& 0x3FF), cur)
        else unit_loop fuel s at_first
               (cursor_at cur (cu_p cur + slen d) (cu_utf16_pos cur + units d)) utf16_idx
      else (NO_UNIT, cur)
  end.

Definition utf16_code_unit_at (w : world) (str : Z) (byte_len utf16_idx : nat) : Z * world :=
  let '(ascii, w) := w_is_ascii w str in
  if ascii then ((if (byte_len <=? utf16_idx)%nat then NO_UNIT else rd (w_bytes w str) utf16_idx), w)
  else
    let s := w_bytes w str in
    let '(cur, w) := utf16_scan_cursor_init w str byte_len in
    let cur := utf16_scan_cursor_resume_utf16 w cur utf16_idx in
    let '(cur, w) :=
      if (cu_utf16_pos cur <? utf16_idx)%nat
         && (UTF16_INDEX_CHUNK <? utf16_idx - cu_utf16_pos cur)%nat then
        let '(index, w) := utf16_index_get w str byte_len in
        match index with Some e => (utf16_index_seek e cur utf16_idx, w) | None => (cur, w) end
      else (cur, w) in
    let '(r, cur) := unit_loop (S byte_len) s
      (fun d => if (units d =? 2)%nat then 0xD800 + (u32 (scp d - 0x10000) .>> 10) else scp d)
      cur utf16_idx in
    (r, utf16_scan_cursor_store w cur).

Definition utf16_codepoint_at (w : world) (str : Z) (byte_len utf16_idx : nat) : Z * world :=
  let '(ascii, w) := w_is_ascii w str in
  if ascii then ((if (byte_len <=? utf16_idx)%nat then NO_UNIT else rd (w_bytes w str) utf16_idx), w)
  else
    let s := w_bytes w str in
    let '(cur, w) := utf16_scan_cursor_init w str byte_len in
    let '(cur, w) := utf16_scan_cursor_resume_indexed w cur utf16_idx in
    let '(r, cur) := unit_loop (S byte_len) s scp cur utf16_idx in
    (r, utf16_scan_cursor_store w cur).

(** [utf16_strlen] with the epoch check its cursor does. *)
Definition w_utf16_strlen (w : world) (str : Z) (byte_len : nat) : nat * world :=
  (utf16_strlen (w_bytes w str) byte_len, utf16_scan_cache_sync_epoch w).

(** ** Invariant of the state *)

Definition cursor_ok (s : list Z) (cur : utf16_scan_cursor_t) : Prop :=
  boundary s (cu_p cur) (cu_utf16_pos cur).

(** The checkpoints of one index entry. *)
Definition points_ok (s : list Z) (pts : list (nat * nat)) : Prop :=
  head pts = Some (0%nat, 0%nat) /\ Forall (fun pt => boundary s pt.1 pt.2) pts.

Definition entry_ok (w : world) (e : utf16_index_entry_t) : Prop :=
  forall pts, ie_points e = Some pts -> points_ok (w_bytes w (ie_str e)) pts.

Definition heap_ok (h : gmap Z flat) : Prop :=
  forall a f, h !! a = Some f -> a <> NULL /\ meta_ok f /\ scan_wf (fl_bytes f) = true.

Record world_ok (w : world) : Prop := {
  wo_heap : heap_ok (w_heap w);
  wo_scan_epoch : sc_epoch (w_scan w) <= w_epoch w;
  wo_scan : sc_epoch (w_scan w) = w_epoch w -> sc_str (w_scan w) <> NULL ->
            boundary (w_bytes w (sc_str (w_scan w)))
                     (sc_byte_pos (w_scan w)) (sc_utf16_pos (w_scan w));
  wo_index_epoch : ic_epoch (w_index w) <= w_epoch w;
  wo_index : ic_epoch (w_index w) = w_epoch w -> Forall (entry_ok w) (ic_entries (w_index w));
  wo_ways : length (ic_entries (w_index w)) = UTF16_INDEX_WAYS;
  wo_mru : (ic_mru (w_index w) < UTF16_INDEX_WAYS)%nat;
  wo_victim : (ic_victim (w_index w) < UTF16_INDEX_WAYS)%nat
}.

(** Operations leave the strings and the epoch alone. *)
Definition frame (w w' : world) : Prop :=
  w_epoch w' = w_epoch w /\ (forall a, w_bytes w' a = w_bytes w a) /\
  dom (w_heap w') = dom (w_heap w).

Lemma frame_refl w : frame w w.
Proof. repeat split. Qed.

Lemma frame_trans w1 w2 w3 : frame w1 w2 -> frame w2 w3 -> frame w1 w3.
Proof.
  intros (E1 & B1 & D1) (E2 & B2 & D2). split; [congruence|]. split; [|congruence].
  intros a. rewrite B2. apply B1.
Qed.

#[local] Hint Resolve frame_refl frame_trans : fant.

Lemma w_bytes_lookup w str f : w_heap w !! str = Some f -> w_bytes w str = fl_bytes f.
Proof. intros H. unfold w_bytes. rewrite H. reflexivity. Qed.

Lemma w_is_ascii_spec w str f :
  world_ok w -> w_heap w !! str = Some f ->
  exists w', w_is_ascii w str = (all_ascii (fl_bytes f), w') /\ world_ok w' /\ frame w w' /\
             w_scan w' = w_scan w /\ w_index w' = w_index w.
Proof.
  intros Hw Hf. unfold w_is_ascii. rewrite Hf.
  destruct (wo_heap w Hw str f Hf) as (Hn & Hm & Hs).
  pose proof (str_is_ascii_spec f Hm) as Ha. destruct (str_is_ascii f) as [r f'].
  destruct Ha as (-> & Hb & Hm' & _).
  assert (Hbytes : forall a, w_bytes (with_heap w (<[str:=f']> (w_heap w))) a = w_bytes w a).
  { intros a. unfold w_bytes, with_heap; cbn [w_heap].
    destruct (decide (str = a)) as [<-|Hne].
    - rewrite lookup_insert_eq, Hf. exact Hb.
    - rewrite lookup_insert_ne by exact Hne. reflexivity. }
  eexists. split; [reflexivity|]. split; [|split; [|split; reflexivity]].
  - destruct Hw. split; cbn [with_heap w_epoch w_scan w_index w_heap]; auto.
    + intros a g Hg. destruct (decide (str = a)) as [<-|Hne].
      * rewrite lookup_insert_eq in Hg. injection Hg as <-. rewrite Hb. auto.
      * rewrite lookup_insert_ne in Hg by exact Hne. eauto.
    + intros. rewrite Hbytes. auto.
    + intros H. specialize (wo_index0 H). eapply Forall_impl; [exact wo_index0|].
      intros e He pts Hp. rewrite Hbytes. auto.
  - split; [reflexivity|]. split; [exact Hbytes|]. cbn [with_heap w_heap].
    apply dom_insert_lookup_L. eauto.
Qed.

(** *** The scan cache *)

Lemma scan_sync_ok w :
  world_ok w -> let w' := utf16_scan_cache_sync_epoch w in
  world_ok w' /\ frame w w' /\ sc_epoch (w_scan w') = w_epoch w' /\ w_index w' = w_index w.
Proof.
  intros Hw. unfold utf16_scan_cache_sync_epoch.
  destruct (Z.eqb_spec (sc_epoch (w_scan w)) (w_epoch w)) as [E|E].
  - auto with fant.
  - split; [|repeat split]. destruct Hw. split; cbn; auto; lia || congruence.
Qed.

Lemma resume_utf16_ok w str byte_len target :
  world_ok w -> sc_epoch (w_scan w) = w_epoch w -> str <> NULL ->
  let cur := utf16_scan_cursor_resume_utf16 w (Cursor str byte_len 0 0) target in
  cu_str cur = str /\ cu_byte_len cur = byte_len /\ cursor_ok (w_bytes w str) cur /\
  (cu_utf16_pos cur <= target)%nat.
Proof.
  intros Hw He Hs. unfold utf16_scan_cursor_resume_utf16, utf16_scan_cache_matches, cursor_ok.
  cbn. destruct (_ && _) eqn:M; cbn; [|repeat split; auto using boundary_start; lia].
  boolprop. destruct (Nat.ltb_spec target (sc_utf16_pos (w_scan w))); cbn;
    repeat split; auto using boundary_start; try lia.
  subst str. apply (wo_scan w Hw); auto.
Qed.

Lemma resume_byte_ok w str byte_off :
  world_ok w -> sc_epoch (w_scan w) = w_epoch w -> str <> NULL ->
  let cur := utf16_scan_cursor_resume_byte w (Cursor str byte_off 0 0) byte_off in
  cu_str cur = str /\ cu_byte_len cur = byte_off /\ cursor_ok (w_bytes w str) cur /\
  (cu_p cur <= byte_off)%nat.
Proof.
  intros Hw He Hs. unfold utf16_scan_cursor_resume_byte, utf16_scan_cache_matches, cursor_ok.
  cbn. destruct (_ && _) eqn:M; cbn; [|repeat split; auto using boundary_start; lia].
  boolprop. destruct (Nat.ltb_spec byte_off (sc_byte_pos (w_scan w))); cbn;
    repeat split; auto using boundary_start; try lia.
  subst str. apply (wo_scan w Hw); auto.
Qed.

Lemma store_ok w cur :
  world_ok w -> sc_epoch (w_scan w) = w_epoch w -> cursor_ok (w_bytes w (cu_str cur)) cur ->
  world_ok (utf16_scan_cursor_store w cur) /\ frame w (utf16_scan_cursor_store w cur).
Proof.
  intros [] He Hc. split; [|repeat split]. split; cbn; auto.
Qed.

(** *** The index cache *)

Lemma cast_u32_id n : Z.of_nat n <= UINT32_MAX -> cast_u32 n = n.
Proof. intros H. unfold cast_u32, UINT32_MAX in *. rewrite wrap_small by lia. lia. Qed.

Lemma points_ok_snoc s pts p u :
  points_ok s pts -> boundary s p u -> points_ok s (pts ++ [(p, u)]).
Proof.
  intros [Hh Hf] Hb. split; [destruct pts; [discriminate|exact Hh]|].
  apply Forall_app. auto.
Qed.

Lemma index_build_loop_ok s : scan_wf s = true -> Z.of_nat (length s) <= UINT32_MAX ->
  forall fuel p u pts, boundary s p u -> points_ok s pts ->
  points_ok s (utf16_index_build_loop fuel s (length s) p u pts).
Proof.
  intros Hwf Hlen. induction fuel as [|fuel IH]; intros p u pts Hb Hp; [exact Hp|].
  cbn [utf16_index_build_loop]. destruct (Nat.ltb_spec p (length s)) as [Hlt|]; [|exact Hp].
  destruct (boundary_advance s p u (utf16_scan_decode s p (length s) false) Hwf Hb Hlt)
    as (Hb' & _); [eauto|].
  destruct (boundary_view s p u Hwf Hb) as (Hle & _ & Hu & _).
  pose proof (wtf16_length_le s).
  apply IH; [exact Hb'|]. case_if; [|exact Hp].
  rewrite !cast_u32_id by lia. apply points_ok_snoc; auto.
Qed.

Lemma index_points_ok s : scan_wf s = true -> Z.of_nat (length s) <= UINT32_MAX ->
  points_ok s (utf16_index_points s (length s)).
Proof.
  intros. apply index_build_loop_ok; auto using boundary_start.
  split; [reflexivity|]. repeat constructor.
Qed.

Lemma index_find_spec c str byte_len i :
  (ic_mru c < UTF16_INDEX_WAYS)%nat -> utf16_index_find c str byte_len = Some i ->
  (i < UTF16_INDEX_WAYS)%nat /\
  entry_matches (nth i (ic_entries c) empty_entry) str byte_len = true.
Proof.
  intros Hm. unfold utf16_index_find. case_if.
  - intros [= <-]. auto.
  - intros H. apply List.find_some in H as [Hi H]. apply in_seq in Hi.
    apply andb_true_iff in H as [_ H]. split; [lia|exact H].
Qed.

Lemma index_sync_ok w :
  world_ok w -> let w' := utf16_index_sync_epoch w in
  world_ok w' /\ frame w w' /\ ic_epoch (w_index w') = w_epoch w' /\ w_scan w' = w_scan w.
Proof.
  intros Hw. unfold utf16_index_sync_epoch.
  destruct (Z.eqb_spec (ic_epoch (w_index w)) (w_epoch w)) as [E|E]; [auto with fant|].
  split; [|repeat split]. destruct Hw.
  split; cbn; auto; try lia; [|unfold UTF16_INDEX_WAYS; lia..].
  intros _. repeat constructor; discriminate.
Qed.

(** Replacing the ways by ways that are right keeps the state right. *)
Lemma with_index_ok w v m es :
  world_ok w -> (v < UTF16_INDEX_WAYS)%nat -> (m < UTF16_INDEX_WAYS)%nat ->
  length es = UTF16_INDEX_WAYS -> Forall (entry_ok w) es ->
  world_ok (with_index w (IndexCache (ic_epoch (w_index w)) v m es)).
Proof. intros [] Hv Hm Hl He. split; cbn; auto. Qed.

Lemma insert_entry_ok w i e es :
  Forall (entry_ok w) es -> entry_ok w e -> Forall (entry_ok w) (<[i := e]> es).
Proof. intros. apply Forall_insert; auto. Qed.

Lemma index_get_ok w str f :
  world_ok w -> w_heap w !! str = Some f ->
  let '(r, w') := utf16_index_get w str (length (fl_bytes f)) in
  world_ok w' /\ frame w w' /\ w_scan w' = w_scan w /\
  forall e, r = Some e -> exists pts, ie_points e = Some pts /\ points_ok (fl_bytes f) pts.
Proof.
  intros Hw Hf. unfold utf16_index_get. destruct (_ || _) eqn:G.
  { split; [exact Hw|]. split; [apply frame_refl|]. split; [reflexivity|discriminate]. }
  boolprop. destruct (index_sync_ok w Hw) as (Hw1 & Hfr & He & Hsc).
  set (w1 := utf16_index_sync_epoch w) in *.
  pose proof (wo_index w1 Hw1 He) as Hents. pose proof (wo_ways w1 Hw1) as Hways.
  assert (Hb1 : w_bytes w1 str = fl_bytes f).
  { destruct Hfr as (_ & B & _). rewrite B. apply w_bytes_lookup. exact Hf. }
  destruct (wo_heap w Hw str f Hf) as (Hnn & _ & Hwf).
  destruct (utf16_index_find (w_index w1) str (length (fl_bytes f))) as [i|] eqn:F.
  - apply index_find_spec in F as [Hi Hm]; [|apply (wo_mru w1 Hw1)].
    unfold entry_matches in Hm. boolprop.
    assert (Hent : entry_ok w1 (nth i (ic_entries (w_index w1)) empty_entry)).
    { eapply Forall_nth in Hents; [exact Hents|lia]. }
    destruct (ie_points (nth i _ empty_entry)) as [pts|] eqn:P.
    + split; [apply with_index_ok; auto; apply Hw1|]. split; [exact Hfr|]. split; [exact Hsc|].
      intros e [= <-]. exists pts. split; [exact P|]. rewrite <- Hb1, <- H1. apply Hent. exact P.
    + unfold utf16_index_build. destruct (malloc_ok _).
      * assert (Hpts : points_ok (fl_bytes f) (utf16_index_points (w_bytes w1 str) (length (fl_bytes f)))).
        { rewrite Hb1. apply index_points_ok; auto. }
        split; [|split; [exact Hfr|split; [exact Hsc|]]].
        -- apply with_index_ok; auto; [apply Hw1|rewrite length_insert; auto|].
           apply insert_entry_ok; auto. intros pts [= <-]. cbn. rewrite H1, Hb1 at 1. exact Hpts.
        -- intros e [= <-]. eauto.
      * split; [apply with_index_ok; auto; apply Hw1|].
        split; [exact Hfr|]. split; [exact Hsc|discriminate].
  - split; [|split; [exact Hfr|split; [exact Hsc|discriminate]]].
    pose proof (wo_victim w1 Hw1). apply with_index_ok; auto.
    + case_ifs; unfold UTF16_INDEX_WAYS in *; lia.
    + rewrite length_insert. exact Hways.
    + apply insert_entry_ok; auto. discriminate.
Qed.

Lemma seek_point_le pts target k :
  head pts = Some (0%nat, 0%nat) ->
  ((nth (utf16_index_seek_point pts target k) pts (0, 0)).2 <= target)%nat /\
  (utf16_index_seek_point pts target k <= k)%nat.
Proof.
  intros Hh. induction k as [|k [IH1 IH2]]; cbn [utf16_index_seek_point].
  - destruct pts as [|x pts]; [discriminate|]. injection Hh as ->. cbn. lia.
  - case_if; boolprop; lia.
Qed.

Lemma index_seek_ok s e pts cur target :
  ie_points e = Some pts -> points_ok s pts -> cursor_ok s cur ->
  (cu_utf16_pos cur <= target)%nat ->
  let cur' := utf16_index_seek e cur target in
  cu_str cur' = cu_str cur /\ cu_byte_len cur' = cu_byte_len cur /\ cursor_ok s cur' /\
  (cu_utf16_pos cur' <= target)%nat.
Proof.
  intros Hp [Hh Hall] Hc Hle. unfold utf16_index_seek. rewrite Hp.
  set (k0 := if (length pts <=? target / UTF16_INDEX_CHUNK)%nat
             then (length pts - 1)%nat else (target / UTF16_INDEX_CHUNK)%nat).
  assert (Hk0 : (k0 < length pts)%nat).
  { destruct pts as [|x pts]; [discriminate|]. subst k0. cbn [length]. case_ifs; cbn [length] in *; lia. }
  clearbody k0. destruct (seek_point_le pts target k0 Hh) as [H1 H2].
  set (k := utf16_index_seek_point pts target k0) in *.
  destruct (_ <=? _)%nat; [auto|]. cbn. repeat split; auto.
  unfold cursor_ok; cbn. eapply Forall_nth in Hall; [exact Hall|lia].
Qed.

Lemma resume_indexed_ok w str f target :
  world_ok w -> sc_epoch (w_scan w) = w_epoch w -> w_heap w !! str = Some f ->
  let '(cur, w') := utf16_scan_cursor_resume_indexed w (Cursor str (length (fl_bytes f)) 0 0) target in
  world_ok w' /\ frame w w' /\ sc_epoch (w_scan w') = w_epoch w' /\ cu_str cur = str /\
  cu_byte_len cur = length (fl_bytes f) /\ cursor_ok (fl_bytes f) cur /\
  (cu_utf16_pos cur <= target)%nat.
Proof.
  intros Hw He Hf. destruct (wo_heap w Hw str f Hf) as (Hnn & _).
  pose proof (w_bytes_lookup w str f Hf) as Hb.
  destruct (resume_utf16_ok w str (length (fl_bytes f)) target Hw He Hnn) as (H1 & H2 & H3 & H4).
  unfold utf16_scan_cursor_resume_indexed.
  set (cur := utf16_scan_cursor_resume_utf16 _ _ _) in *. rewrite Hb in H3.
  destruct (_ || _); [auto 10 with fant|].
  pose proof (index_get_ok w str f Hw Hf) as Hg. rewrite H1, H2.
  destruct (utf16_index_get w str _) as [[e|] w']; destruct Hg as (Hw' & Hfr & Hs & Hp).
  - destruct (Hp e eq_refl) as (pts & P1 & P2).
    destruct (index_seek_ok (fl_bytes f) e pts cur target P1 P2 H3 H4) as (S1 & S2 & S3 & S4).
    assert (sc_epoch (w_scan w') = w_epoch w') by (rewrite Hs; destruct Hfr as [-> _]; exact He).
    rewrite S1, S2. auto 10.
  - assert (sc_epoch (w_scan w') = w_epoch w') by (rewrite Hs; destruct Hfr as [-> _]; exact He).
    auto 10.
Qed.

(** *** Loops, on the bytes [s] of one well-formed string *)

Section loops.
Context (s : list Z) (Hwf : scan_wf s = true).

Lemma cursor_step cur d :
  cursor_ok s cur -> (cu_p cur < length s)%nat ->
  d = utf16_scan_decode s (cu_p cur) (length s) true \/
    (exists e, d = utf16_scan_decode s (cu_p cur) e false) ->
  cursor_ok s (cursor_at cur (cu_p cur + slen d) (cu_utf16_pos cur + units d)) /\
  (cu_p cur + slen d <= length s)%nat /\ (1 <= slen d)%nat /\ (1 <= units d <= 2)%nat /\
  units d = units (utf16_scan_decode s (cu_p cur) (length s) true) /\
  slen d = slen (utf16_scan_decode s (cu_p cur) (length s) true).
Proof using Hwf.
  intros Hc Hlt Hd.
  destruct (boundary_advance s (cu_p cur) (cu_utf16_pos cur) d Hwf Hc Hlt Hd)
    as (H1 & H2 & H3 & H4).
  pose proof (scan_decode_slen_pos s (cu_p cur) (length s) true).
  pose proof (scan_decode_units s (cu_p cur) (length s) true).
  rewrite H3, H4 in *. repeat split; auto; lia.
Qed.

Lemma cursor_le cur : cursor_ok s cur -> (cu_p cur <= length s)%nat.
Proof using Hwf. intros H. apply (boundary_view s _ _ Hwf H). Qed.

Lemma advance_until_ok target : forall fuel cur,
  cursor_ok s cur -> cu_byte_len cur = length s -> (length s - cu_p cur < fuel)%nat ->
  ((cu_utf16_pos cur <= target)%nat \/
   (cu_utf16_pos cur = S target /\ ~ exists p, boundary s p target)) ->
  let cur' := advance_until fuel s cur target in
  cursor_ok s cur' /\ cu_byte_len cur' = length s /\ cu_str cur' = cu_str cur /\
  (cu_utf16_pos cur' = target \/
   (cu_p cur' = length s /\ (cu_utf16_pos cur' < target)%nat) \/
   (cu_utf16_pos cur' = S target /\ ~ exists p, boundary s p target)).
Proof using Hwf.
  induction fuel as [|fuel IH]; intros cur Hc Hl Hf Hu; [lia|].
  cbn [advance_until]. pose proof (cursor_le cur Hc). rewrite Hl.
  destruct (_ && _) eqn:T.
  - boolprop. unfold utf16_scan_cursor_advance. rewrite Hl.
    destruct (cursor_step cur (utf16_scan_decode s (cu_p cur) (length s) false) Hc)
      as (H1' & H2' & H3' & H4' & _); [lia|eauto|].
    case_ifs; [lia|]. cbn [snd].
    refine (IH (cursor_at _ _ _) _ _ _ _); cbn; auto; try lia.
    destruct (Nat.leb_spec (cu_utf16_pos cur + units (utf16_scan_decode s (cu_p cur) (length s) false)) target);
      [auto|right]. split; [lia|].
    replace target with (cu_utf16_pos cur + 1)%nat by lia.
    apply (boundary_no_inside s (cu_p cur)); [exact Hc|lia].
  - splits; auto. destruct Hu as [Hu|Hu]; [|auto].
    apply andb_false_iff in T as [T|T]; boolprop; [|left; lia].
    destruct (Nat.eq_dec (cu_utf16_pos cur) target); [auto|right; left; lia].
Qed.

Lemma floor_loop_ok target : forall fuel cur,
  cursor_ok s cur -> cu_byte_len cur = length s -> (length s - cu_p cur < fuel)%nat ->
  (cu_utf16_pos cur <= target)%nat ->
  let cur' := floor_loop fuel s cur target in
  cursor_ok s cur' /\ cu_str cur' = cu_str cur /\ (cu_utf16_pos cur' <= target)%nat /\
  (cu_p cur' = length s \/
   (target < cu_utf16_pos cur' + units (utf16_scan_decode s (cu_p cur') (length s) true))%nat).
Proof using Hwf.
  induction fuel as [|fuel IH]; intros cur Hc Hl Hf Hu; [lia|].
  cbn [floor_loop]. pose proof (cursor_le cur Hc). rewrite Hl.
  destruct (_ && _) eqn:T; boolprop.
  - destruct (cursor_step cur (utf16_scan_decode s (cu_p cur) (length s) false) Hc)
      as (H1' & H2' & H3' & H4' & H5' & _); [lia|eauto|].
    case_ifs.
    + repeat split; auto. right. rewrite <- H5'. lia.
    + refine (IH (cursor_at _ _ _) _ _ _ _); cbn; auto; lia.
  - repeat split; auto. apply andb_false_iff in T as [T|T]; boolprop; [left; lia|right].
    pose proof (scan_decode_units s (cu_p cur) (length s) true). lia.
Qed.

(** The unit at [idx] when the cursor has not passed it: [at_first] is what
    the caller returns at the first unit of a character. *)
Lemma unit_loop_ok at_first idx : forall fuel cur,
  cursor_ok s cur -> cu_byte_len cur = length s -> (length s - cu_p cur < fuel)%nat ->
  (cu_utf16_pos cur <= idx)%nat ->
  let '(r, cur') := unit_loop fuel s at_first cur idx in
  cursor_ok s cur' /\ cu_str cur' = cu_str cur /\
  ((r = NO_UNIT /\ (length (wtf16 s) <= idx)%nat) \/
   (exists p u, boundary s p u /\ (p < length s)%nat /\
      let d := utf16_scan_decode s p (length s) true in
      (u = idx /\ r = at_first d) \/
      (units d = 2%nat /\ S u = idx /\ r = low_surrogate (scp d)))).
Proof using Hwf.
  induction fuel as [|fuel IH]; intros cur Hc Hl Hf Hu; [lia|].
  cbn [unit_loop]. pose proof (cursor_le cur Hc) as Hple. rewrite Hl.
  destruct (Nat.ltb_spec (cu_p cur) (length s)) as [Hlt|Hge].
  2:{ repeat split; auto. left. split; auto.
      assert (E : cu_p cur = length s) by lia. unfold cursor_ok in Hc. rewrite E in Hc.
      rewrite <- (boundary_end s _ Hwf Hc). exact Hu. }
  destruct (cursor_step cur (utf16_scan_decode s (cu_p cur) (length s) true) Hc Hlt)
    as (H1 & H2 & H3 & H4 & _); [auto|].
  destruct (Nat.eqb_spec (cu_utf16_pos cur) idx) as [E|E].
  { repeat split; auto. right. exists (cu_p cur), (cu_utf16_pos cur). auto. }
  destruct (_ && _) eqn:T; boolprop.
  { repeat split; auto. right. exists (cu_p cur), (cu_utf16_pos cur).
    repeat split; auto. right. repeat split; auto. lia. }
  refine (IH (cursor_at _ _ _) _ _ _ _); cbn; auto; try lia.
  apply andb_false_iff in T as [T|T]; boolprop; lia.
Qed.

(** Scanner steps from one position to another. *)
Inductive scan_path : nat -> nat -> nat -> nat -> Prop :=
| path_nil p u : scan_path p u p u
| path_step p u p' u' :
    (p < length s)%nat ->
    let d := utf16_scan_decode s p (length s) true in
    scan_path (p + slen d) (u + units d) p' u' -> scan_path p u p' u'.

(** A character's bytes denote its units whatever follows them. *)
Lemma wtf16_char p t :
  scan_wf (drop p s) = true -> (p < length s)%nat ->
  let d := utf16_scan_decode s p (length s) true in
  wtf16 (take (slen d) (drop p s) ++ t) = char_units d ++ wtf16 t.
Proof using Type.
  intros Hw Hp. rewrite (drop_cons_rd s p Hp) in *. cbn [scan_wf] in *.
  unfold utf16_scan_decode, is_lead2, is_lead3, is_lead4 in *.
  destruct (rd s p <? 0x80) eqn:E1; [cbn; rewrite E1; reflexivity|].
  destruct (rd s p .& 0xE0 =? 0xC0) eqn:E2.
  { drop_next s (S p).
    replace (p + 1 <? length s)%nat with true by (symmetry; apply Nat.ltb_lt; lia).
    cbn. unfold is_lead2, cp2. rewrite E1, E2, Nat.add_1_r. reflexivity. }
  destruct (rd s p .& 0xF0 =? 0xE0) eqn:E3.
  { drop_next s (S p). drop_next s (S (S p)).
    replace (p + 2 <? length s)%nat with true by (symmetry; apply Nat.ltb_lt; lia).
    cbn. unfold is_lead2, is_lead3, cp3. rewrite E1, E2, E3, Nat.add_1_r.
    replace (p + 2)%nat with (S (S p)) by lia. reflexivity. }
  destruct (rd s p .& 0xF8 =? 0xF0) eqn:E4.
  { drop_next s (S p). drop_next s (S (S p)). drop_next s (S (S (S p))).
    replace (p + 3 <? length s)%nat with true by (symmetry; apply Nat.ltb_lt; lia).
    cbn. unfold is_lead2, is_lead3, is_lead4, cp4. rewrite E1, E2, E3, E4, Nat.add_1_r.
    replace (p + 2)%nat with (S (S p)) by lia.
    replace (p + 3)%nat with (S (S (S p))) by lia. reflexivity. }
  cbn. unfold is_lead2, is_lead3, is_lead4. rewrite E1, E2, E3, E4. reflexivity.
Qed.

(** The bytes between two positions denote the units between them. *)
Lemma path_view p u p' u' :
  boundary s p u -> scan_path p u p' u' ->
  boundary s p' u' /\ (p <= p')%nat /\ (u <= u')%nat /\
  wtf16 (take (p' - p) (drop p s)) = take (u' - u) (drop u (wtf16 s)).
Proof using Hwf.
  intros Hb Hp. induction Hp as [p u|p u p' u' Hlt d Hp IH].
  { rewrite !Nat.sub_diag, !take_0. auto. }
  destruct (boundary_view s p u Hwf Hb) as (_ & Hw & _ & Hv).
  destruct (scan_step s p Hw Hlt) as (_ & _ & _ & _ & Hstep).
  destruct (boundary_advance s p u d Hwf Hb Hlt) as (Hb' & _); [auto|].
  destruct (IH Hb') as (H1 & H2 & H3 & H4). subst d.
  set (d := utf16_scan_decode s p (length s) true) in *.
  split; [exact H1|]. split; [lia|]. split; [lia|].
  replace (p' - p)%nat with (slen d + (p' - (p + slen d)))%nat by lia.
  rewrite <- take_take_drop, drop_drop, (wtf16_char p) by auto. fold d.
  rewrite H4, <- drop_drop, Hv, Hstep. fold d.
  replace (u' - u)%nat with (length (char_units d) + (u' - (u + units d)))%nat
    by (unfold d; rewrite char_units_length; fold d; lia).
  replace (units d) with (length (char_units d)) at 2 by (unfold d; apply char_units_length).
  rewrite drop_app_length, take_app_add. reflexivity.
Qed.

Lemma range_start_ok start : forall fuel cur,
  cursor_ok s cur -> cu_byte_len cur = length s -> (length s - cu_p cur < fuel)%nat ->
  (cu_utf16_pos cur <= start)%nat ->
  let '(cur', prefix) := range_start_loop fuel s cur start 0 in
  cursor_ok s cur' /\ cu_byte_len cur' = length s /\ cu_str cur' = cu_str cur /\
  ((prefix = 0 /\ (cu_utf16_pos cur' = start \/
                   (cu_p cur' = length s /\ (cu_utf16_pos cur' <= start)%nat))) \/
   (cu_utf16_pos cur' = S start /\ exists x, wtf16 s !! start = Some x /\ prefix = u16 x)).
Proof using Hwf.
  induction fuel as [|fuel IH]; intros cur Hc Hl Hf Hu; [lia|].
  cbn [range_start_loop]. pose proof (cursor_le cur Hc) as Hple. rewrite Hl.
  destruct (_ && _) eqn:T.
  2:{ repeat split; auto. left. split; auto.
      apply andb_false_iff in T as [T|T]; boolprop; [right|left]; lia. }
  boolprop. rename H into Hlt, H0 into Hlt'.
  destruct (cursor_step cur (utf16_scan_decode s (cu_p cur) (length s) false) Hc)
    as (S1 & S2 & S3 & S4 & S5 & S6); [lia|eauto|].
  destruct (_ && _) eqn:T.
  - boolprop. rewrite S5, S6 in S1. repeat split; auto. right. split; [cbn; lia|].
    exists (low_surrogate (scp (utf16_scan_decode s (cu_p cur) (length s) true))).
    split; [|reflexivity].
    replace start with (cu_utf16_pos cur + 1)%nat by lia.
    rewrite (boundary_units s (cu_p cur) (cu_utf16_pos cur) 1 Hwf Hc) by lia.
    unfold char_units. rewrite <- S5, H. reflexivity.
  - refine (IH (cursor_at _ _ _) _ _ _ _); cbn; auto; try lia.
    apply andb_false_iff in T as [T|T]; boolprop; lia.
Qed.

Lemma range_end_ok stop : forall fuel cur,
  cursor_ok s cur -> cu_byte_len cur = length s -> (length s - cu_p cur < fuel)%nat ->
  (cu_utf16_pos cur <= stop)%nat ->
  let '(cur', suffix) := range_end_loop fuel s cur stop in
  cursor_ok s cur' /\ cu_str cur' = cu_str cur /\
  scan_path (cu_p cur) (cu_utf16_pos cur) (cu_p cur') (cu_utf16_pos cur') /\
  ((suffix = 0 /\ (cu_utf16_pos cur' = stop \/
                   (cu_p cur' = length s /\ (cu_utf16_pos cur' <= stop)%nat))) \/
   (S (cu_utf16_pos cur') = stop /\ exists x, wtf16 s !! cu_utf16_pos cur' = Some x /\ suffix = u16 x)).
Proof using Hwf.
  induction fuel as [|fuel IH]; intros cur Hc Hl Hf Hu; [lia|].
  cbn [range_end_loop]. pose proof (cursor_le cur Hc) as Hple. rewrite Hl.
  destruct (_ && _) eqn:T.
  2:{ repeat split; auto; [constructor|]. left. split; auto.
      apply andb_false_iff in T as [T|T]; boolprop; [right|left]; lia. }
  boolprop. rename H into Hlt, H0 into Hlt'.
  destruct (cursor_step cur (utf16_scan_decode s (cu_p cur) (length s) false) Hc)
    as (S1 & S2 & S3 & S4 & S5 & S6); [lia|eauto|].
  destruct (_ && _) eqn:T.
  - boolprop. repeat split; auto; [constructor|]. right. split; [lia|].
    exists (high_surrogate (scp (utf16_scan_decode s (cu_p cur) (length s) true))).
    split; [|reflexivity].
    rewrite <- (Nat.add_0_r (cu_utf16_pos cur)).
    rewrite (boundary_units s (cu_p cur) (cu_utf16_pos cur) 0 Hwf Hc) by lia.
    unfold char_units. rewrite <- S5, H. reflexivity.
  - pose proof (IH (cursor_at cur (cu_p cur + slen (utf16_scan_decode s (cu_p cur) (length s) false))
      (cu_utf16_pos cur + units (utf16_scan_decode s (cu_p cur) (length s) false)))) as IH'.
    cbn [cursor_at cu_p cu_utf16_pos cu_byte_len cu_str] in IH'.
    destruct (range_end_loop fuel s _ stop) as [cur' suf].
    destruct IH' as (R1 & R2 & R3 & R4); auto; try lia.
    { apply andb_false_iff in T as [T|T]; boolprop; lia. }
    repeat split; auto. apply path_step; auto. rewrite <- S5, <- S6. exact R3.
Qed.

Lemma byte_offset_loop_ok byte_off : (byte_off <= length s)%nat -> forall fuel cur,
  cursor_ok s cur -> (byte_off - cu_p cur < fuel)%nat -> (cu_p cur <= byte_off)%nat ->
  let '(cur', ended) := byte_offset_loop fuel s cur byte_off in
  cu_str cur' = cu_str cur /\ (ended = true -> cursor_ok s cur') /\
  exists p u, boundary s p u /\
    ((p = byte_off /\ cu_utf16_pos cur' = u) \/
     let d := utf16_scan_decode s p (length s) true in
     ((p < byte_off < p + slen d)%nat /\ cu_utf16_pos cur' = (u + units d)%nat)).
Proof using Hwf.
  intros Hoff. induction fuel as [|fuel IH]; intros cur Hc Hf Hle; [lia|].
  cbn [byte_offset_loop]. destruct (Nat.ltb_spec (cu_p cur) byte_off) as [Hlt|Hge].
  2:{ repeat split; auto. exists (cu_p cur), (cu_utf16_pos cur). split; [exact Hc|]. left. lia. }
  unfold utf16_scan_cursor_advance.
  destruct (cursor_step cur (utf16_scan_decode s (cu_p cur) (cu_byte_len cur) false) Hc)
    as (S1 & S2 & S3 & S4 & S5 & S6); [lia|eauto|].
  case_ifs.
  - repeat split; auto; [discriminate|]. exists (cu_p cur), (cu_utf16_pos cur).
    split; [exact Hc|]. right. rewrite <- S5, <- S6. cbn. lia.
  - refine (IH (cursor_at _ _ _) _ _ _); cbn; auto; lia.
Qed.
End loops.

(** *** Each accessor keeps the state right and answers from the bytes *)

Lemma frame_lookup w w' str f :
  frame w w' -> w_heap w !! str = Some f ->
  exists f', w_heap w' !! str = Some f' /\ fl_bytes f' = fl_bytes f.
Proof.
  intros (_ & B & D) Hf.
  assert (is_Some (w_heap w' !! str)) as [f' Hf'].
  { apply elem_of_dom. rewrite D. apply elem_of_dom. eauto. }
  exists f'. split; auto. specialize (B str). unfold w_bytes in B. rewrite Hf, Hf' in B. exact B.
Qed.

Lemma enter_ok w str f :
  world_ok w -> w_heap w !! str = Some f ->
  exists w1, w_is_ascii w str = (all_ascii (fl_bytes f), w1) /\ world_ok w1 /\ frame w w1 /\
    w_bytes w1 str = fl_bytes f /\
    let w2 := utf16_scan_cache_sync_epoch w1 in
    world_ok w2 /\ frame w w2 /\ sc_epoch (w_scan w2) = w_epoch w2 /\
    w_bytes w2 str = fl_bytes f /\
    exists f2, w_heap w2 !! str = Some f2 /\ fl_bytes f2 = fl_bytes f.
Proof.
  intros Hw Hf. destruct (w_is_ascii_spec w str f Hw Hf) as (w1 & E & Hw1 & Hfr & _).
  exists w1. destruct (scan_sync_ok w1 Hw1) as (Hw2 & Hfr2 & He & _).
  assert (Hfr3 : frame w (utf16_scan_cache_sync_epoch w1)) by eauto using frame_trans.
  pose proof (w_bytes_lookup w str f Hf) as Hb.
  repeat (split; [solve [auto | destruct Hfr as (_ & B & _); rewrite B; exact Hb]|]).
  cbv zeta. repeat (split; [solve [auto | destruct Hfr3 as (_ & B & _); rewrite B; exact Hb]|]).
  eapply frame_lookup; eauto.
Qed.

Lemma store_frame_ok w0 w cur s :
  world_ok w -> sc_epoch (w_scan w) = w_epoch w -> frame w0 w ->
  w_bytes w (cu_str cur) = s -> cursor_ok s cur ->
  world_ok (utf16_scan_cursor_store w cur) /\ frame w0 (utf16_scan_cursor_store w cur).
Proof.
  intros Hw He Hfr <- Hc. destruct (store_ok w cur Hw He Hc). eauto using frame_trans.
Qed.

Lemma ascii_boundary s i :
  all_ascii s = true -> (i <= length s)%nat -> boundary s i i.
Proof.
  intros Ha. induction i as [|i IH]; intros Hi; [constructor|].
  assert (Hd : utf16_scan_decode s i (length s) false = ScanOut 1 1 (rd s i)).
  { unfold utf16_scan_decode. replace (rd s i <? 0x80) with true; [reflexivity|].
    unfold all_ascii in Ha. rewrite forallb_forall in Ha. symmetry. apply Ha.
    unfold rd. apply nth_In. lia. }
  pose proof (boundary_next s i i (IH ltac:(lia)) ltac:(lia)) as H. rewrite Hd in H.
  cbn in H. rewrite !Nat.add_1_r in H. exact H.
Qed.

(** What [utf16_code_unit_at] must return. *)
Definition unit_or_none (s : list Z) (idx : nat) : Z :=
  match wtf16 s !! idx with Some x => x | None => NO_UNIT end.

Lemma unit_or_none_ascii s idx :
  all_ascii s = true ->
  (if (length s <=? idx)%nat then NO_UNIT else rd s idx) = unit_or_none s idx.
Proof.
  intros Ha. unfold unit_or_none. rewrite wtf16_ascii by exact Ha.
  destruct (Nat.leb_spec (length s) idx) as [H|H].
  - rewrite lookup_ge_None_2; auto.
  - destruct (lookup_lt_is_Some_2 s idx H) as [x Hx]. rewrite Hx. apply rd_lookup. exact Hx.
Qed.

(** The position and character a unit index falls on. *)
Definition at_unit (s : list Z) (idx : nat) (at_first : scan_out -> Z) (r : Z) : Prop :=
  (r = NO_UNIT /\ (length (wtf16 s) <= idx)%nat) \/
  exists p u, boundary s p u /\ (p < length s)%nat /\
    let d := utf16_scan_decode s p (length s) true in
    (u = idx /\ r = at_first d) \/ (units d = 2%nat /\ S u = idx /\ r = low_surrogate (scp d)).

Lemma at_unit_code_unit s idx r :
  scan_wf s = true ->
  at_unit s idx (fun d => if (units d =? 2)%nat
                          then 0xD800 + (u32 (scp d - 0x10000) .>> 10) else scp d) r ->
  r = unit_or_none s idx.
Proof.
  intros Hwf [[-> Hge]|(p & u & Hb & Hlt & Hd)]; unfold unit_or_none.
  { rewrite lookup_ge_None_2 by exact Hge. reflexivity. }
  pose proof (scan_decode_units s p (length s) true) as Hu. destruct Hd as [[<- ->]|(H2 & <- & ->)].
  - rewrite <- (Nat.add_0_r u), (boundary_units s p u 0 Hwf Hb Hlt) by lia.
    unfold char_units, high_surrogate. destruct (Nat.eqb_spec (units (utf16_scan_decode s p (length s) true)) 2); reflexivity.
  - rewrite <- Nat.add_1_r, (boundary_units s p u 1 Hwf Hb Hlt) by lia.
    unfold char_units. rewrite H2. reflexivity.
Qed.

Lemma code_unit_at_ok w str f idx :
  world_ok w -> w_heap w !! str = Some f ->
  let '(r, w') := utf16_code_unit_at w str (length (fl_bytes f)) idx in
  world_ok w' /\ frame w w' /\ r = unit_or_none (fl_bytes f) idx.
Proof.
  intros Hw Hf. destruct (wo_heap w Hw str f Hf) as (Hnn & _ & Hwf).
  destruct (enter_ok w str f Hw Hf) as (w1 & E & Hw1 & Hfr1 & Hb1 & Hw2 & Hfr2 & He2 & Hb2 & f2 & Hf2 & Hbf).
  unfold utf16_code_unit_at. rewrite E, Hb1. destruct (all_ascii (fl_bytes f)) eqn:A.
  { rewrite unit_or_none_ascii by exact A. auto. }
  unfold utf16_scan_cursor_init. set (w2 := utf16_scan_cache_sync_epoch w1) in *.
  destruct (resume_utf16_ok w2 str (length (fl_bytes f)) idx Hw2 He2 Hnn) as (R1 & R2 & R3 & R4).
  set (cur := utf16_scan_cursor_resume_utf16 _ _ _) in *. rewrite Hb2 in R3.
  pose proof (index_get_ok w2 str f2 Hw2 Hf2) as Hg. rewrite Hbf in Hg.
  assert (exists cur' w3, (if (cu_utf16_pos cur <? idx)%nat && (UTF16_INDEX_CHUNK <? idx - cu_utf16_pos cur)%nat
     then let '(index, w) := utf16_index_get w2 str (length (fl_bytes f)) in
          match index with Some e => (utf16_index_seek e cur idx, w) | None => (cur, w) end
     else (cur, w2)) = (cur', w3) /\ world_ok w3 /\ frame w w3 /\ sc_epoch (w_scan w3) = w_epoch w3 /\
     cu_str cur' = str /\ cu_byte_len cur' = length (fl_bytes f) /\ cursor_ok (fl_bytes f) cur' /\
     (cu_utf16_pos cur' <= idx)%nat)
    as (cur' & w3 & -> & Hw3 & Hfr3 & He3 & C1 & C2 & C3 & C4).
  { destruct (_ && _); [|eauto 15].
    destruct (utf16_index_get w2 str _) as [r w3]. destruct Hg as (G1 & G2 & G3 & G4).
    assert (He' : sc_epoch (w_scan w3) = w_epoch w3).
    { rewrite G3. destruct G2 as [-> _]. exact He2. }
    destruct r as [e|].
    - destruct (G4 e eq_refl) as (pts & P1 & P2).
      destruct (index_seek_ok (fl_bytes f) e pts cur idx P1 P2 R3 R4) as (S1 & S2 & S3 & S4).
      exists (utf16_index_seek e cur idx), w3. rewrite S1, S2. splits; eauto using frame_trans.
    - exists cur, w3. splits; eauto using frame_trans. }
  pose proof (unit_loop_ok (fl_bytes f) Hwf (fun d => if (units d =? 2)%nat
     then 0xD800 + (u32 (scp d - 0x10000) .>> 10) else scp d) idx (S (length (fl_bytes f))) cur'
     C3 C2 ltac:(lia) C4) as HL.
  destruct (unit_loop _ _ _ _ _) as [r cur2]. destruct HL as (L1 & L2 & L3).
  assert (Hs : w_bytes w3 (cu_str cur2) = fl_bytes f).
  { rewrite L2, C1. destruct Hfr3 as (_ & B & _). rewrite B. apply w_bytes_lookup. exact Hf. }
  destruct (store_frame_ok w w3 cur2 _ Hw3 He3 Hfr3 Hs L1) as [F1 F2].
  splits; auto. apply at_unit_code_unit; auto.
Qed.

(** Entering an accessor on a string that is not ASCII, up to the cursor that
    [utf16_scan_cursor_resume_indexed] leaves. *)
Lemma enter_indexed_ok w w1 str f target :
  world_ok w -> w_heap w !! str = Some f -> w_is_ascii w str = (all_ascii (fl_bytes f), w1) ->
  exists cur w3,
    utf16_scan_cursor_resume_indexed (utf16_scan_cache_sync_epoch w1)
      (Cursor str (length (fl_bytes f)) 0 0) target = (cur, w3) /\
    world_ok w3 /\ frame w w3 /\ sc_epoch (w_scan w3) = w_epoch w3 /\ cu_str cur = str /\
    cu_byte_len cur = length (fl_bytes f) /\ cursor_ok (fl_bytes f) cur /\
    (cu_utf16_pos cur <= target)%nat.
Proof.
  intros Hw Hf E.
  destruct (enter_ok w str f Hw Hf) as (w1' & E' & _ & _ & _ & Hw2 & Hfr2 & He2 & Hb2 & f2 & Hf2 & Hbf).
  rewrite E in E'. injection E' as <-.
  pose proof (resume_indexed_ok _ str f2 target Hw2 He2 Hf2) as H. rewrite Hbf in H.
  destruct (utf16_scan_cursor_resume_indexed _ _ _) as [cur w3].
  destruct H as (H1 & H2 & H3 & H4 & H5 & H6 & H7).
  exists cur, w3. splits; eauto using frame_trans.
Qed.

Lemma frame_bytes w w' str f :
  frame w w' -> w_heap w !! str = Some f -> w_bytes w' str = fl_bytes f.
Proof. intros (_ & B & _) Hf. rewrite B. apply w_bytes_lookup. exact Hf. Qed.

(** Open an accessor: case on the ASCII flag and name the resumed cursor. *)
Ltac enter_accessor w str f target Hw Hf :=
  let w1 := fresh "w1" in let E := fresh "E" in let A := fresh "A" in
  let Hw1 := fresh "Hw1" in let Hfr1 := fresh "Hfr1" in let Hb1 := fresh "Hb1" in
  let He := fresh "Hent" in
  destruct (enter_ok w str f Hw Hf) as (w1 & E & Hw1 & Hfr1 & Hb1 & _);
  pose proof (enter_indexed_ok w w1 str f target Hw Hf E) as He;
  rewrite E, ?Hb1; destruct (all_ascii (fl_bytes f)) eqn:A;
  [clear He | unfold utf16_scan_cursor_init;
   destruct He as (cur & w3 & -> & Hw3 & Hfr3 & He3 & C1 & C2 & C3 & C4)].

Lemma codepoint_at_ok w str f idx :
  world_ok w -> w_heap w !! str = Some f ->
  let '(r, w') := utf16_codepoint_at w str (length (fl_bytes f)) idx in
  world_ok w' /\ frame w w' /\ at_unit (fl_bytes f) idx scp r.
Proof.
  intros Hw Hf. destruct (wo_heap w Hw str f Hf) as (Hnn & _ & Hwf).
  unfold utf16_codepoint_at. enter_accessor w str f idx Hw Hf.
  - splits; auto. unfold at_unit. rewrite wtf16_ascii by exact A.
    destruct (Nat.leb_spec (length (fl_bytes f)) idx); [auto|right].
    exists idx, idx. splits; auto; [apply ascii_boundary; auto; lia|].
    left. split; auto. unfold utf16_scan_decode.
    replace (rd (fl_bytes f) idx <? 0x80) with true; [reflexivity|].
    unfold all_ascii in A. rewrite forallb_forall in A. symmetry. apply A.
    unfold rd. apply nth_In. lia.
  - pose proof (unit_loop_ok (fl_bytes f) Hwf scp idx (S (length (fl_bytes f))) cur
      C3 C2 ltac:(lia) C4) as HL.
    destruct (unit_loop _ _ _ _ _) as [r cur2]. destruct HL as (L1 & L2 & L3).
    destruct (store_frame_ok w w3 cur2 (fl_bytes f) Hw3 He3 Hfr3) as [F1 F2]; auto.
    rewrite L2, C1. eapply frame_bytes; eauto.
Qed.

(** Specification of [utf16_index_to_byte_offset]: the offset of the first
    character that starts at or after the unit [idx], unless there is none or
    [idx] splits the last character. *)
Definition byte_offset_spec (s : list Z) (idx : nat) (r : Z) (char_bytes : option nat) : Prop :=
  (r = -1 /\ ((length (wtf16 s) < idx)%nat \/
              (S idx = length (wtf16 s) /\ ~ exists p, boundary s p idx))) \/
  exists p u, boundary s p u /\ (u = idx \/ (u = S idx /\ ~ exists p', boundary s p' idx)) /\
    r = Z.of_nat p /\
    char_bytes = Some (if (p <? length s)%nat
                       then slen (utf16_scan_decode s p (length s) false) else 0%nat).

Lemma index_to_byte_offset_ok w str f idx :
  world_ok w -> w_heap w !! str = Some f -> Z.of_nat (length (fl_bytes f)) < 2 ^ 31 ->
  let '((r, cb), w') := utf16_index_to_byte_offset w str (length (fl_bytes f)) idx in
  world_ok w' /\ frame w w' /\ byte_offset_spec (fl_bytes f) idx r cb.
Proof.
  intros Hw Hf Hlen. destruct (wo_heap w Hw str f Hf) as (Hnn & _ & Hwf).
  unfold utf16_index_to_byte_offset. enter_accessor w str f idx Hw Hf.
  - destruct (Nat.ltb_spec (length (fl_bytes f)) idx) as [Hi|Hi].
    { splits; auto. left. rewrite wtf16_ascii; auto. }
    splits; auto. right. exists idx, idx. splits; auto; [apply ascii_boundary; auto; lia| |].
    + rewrite to_i32_small; lia.
    + destruct (Nat.ltb_spec idx (length (fl_bytes f))); [|reflexivity].
      unfold utf16_scan_decode. replace (rd (fl_bytes f) idx <? 0x80) with true; [reflexivity|].
      unfold all_ascii in A. rewrite forallb_forall in A. symmetry. apply A.
      unfold rd. apply nth_In. lia.
  - destruct (advance_until_ok (fl_bytes f) Hwf idx (S (length (fl_bytes f))) cur C3 C2)
      as (A1 & A2 & A3 & A4); [lia|auto|].
    set (cur2 := advance_until _ _ _ _) in *.
    pose proof (cursor_le _ Hwf cur2 A1) as Hle.
    destruct (store_frame_ok w w3 cur2 (fl_bytes f) Hw3 He3 Hfr3) as [F1 F2]; auto.
    { rewrite A3, C1. eapply frame_bytes; eauto. }
    rewrite A2. destruct (Nat.leb_spec (length (fl_bytes f)) (cu_p cur2)) as [Hp|Hp].
    + assert (Ep : cu_p cur2 = length (fl_bytes f)) by lia.
      unfold cursor_ok in A1. rewrite Ep in A1.
      pose proof (boundary_end _ _ Hwf A1) as Eu.
      destruct (Nat.eqb_spec (cu_utf16_pos cur2) idx) as [Ei|Ei]; splits; auto.
      * right. exists (length (fl_bytes f)), idx. rewrite <- Ei. splits; auto.
        -- rewrite to_i32_small; lia.
        -- rewrite Nat.ltb_irrefl. reflexivity.
      * left. split; [reflexivity|]. rewrite <- Eu.
        destruct A4 as [?|[[_ ?]|[? ?]]]; [lia|lia|right; split; [lia|auto]].
    + splits; auto. right. exists (cu_p cur2), (cu_utf16_pos cur2). splits; auto.
      * destruct A4 as [?|[[? _]|?]]; [auto|lia|auto].
      * rewrite to_i32_small; lia.
      * destruct (Nat.ltb_spec (cu_p cur2) (length (fl_bytes f))); [reflexivity|lia].
Qed.

(** Specification of [utf16_index_to_byte_offset_floor]: the start of the
    character the unit [idx] belongs to, or the end of the string. *)
Definition byte_floor_spec (s : list Z) (idx p : nat) : Prop :=
  exists u, boundary s p u /\ (u <= idx)%nat /\
    (p = length s \/ (idx < u + units (utf16_scan_decode s p (length s) true))%nat).

Lemma index_floor_ok w str f idx :
  world_ok w -> w_heap w !! str = Some f ->
  let '(p, w') := utf16_index_to_byte_offset_floor w str (length (fl_bytes f)) idx in
  world_ok w' /\ frame w w' /\ byte_floor_spec (fl_bytes f) idx p.
Proof.
  intros Hw Hf. destruct (wo_heap w Hw str f Hf) as (Hnn & _ & Hwf).
  destruct (enter_ok w str f Hw Hf) as (w1 & E & Hw1 & Hfr1 & Hb1 & Hw2 & Hfr2 & He2 & Hb2 & _).
  unfold utf16_index_to_byte_offset_floor. rewrite E, Hb1.
  destruct (all_ascii (fl_bytes f)) eqn:A.
  - splits; auto. destruct (Nat.ltb_spec (length (fl_bytes f)) idx) as [Hi|Hi].
    + exists (length (fl_bytes f)). splits; auto; [apply ascii_boundary; auto|lia].
    + exists idx. splits; auto; [apply ascii_boundary; auto|].
      pose proof (scan_decode_units (fl_bytes f) idx (length (fl_bytes f)) true). right. lia.
  - unfold utf16_scan_cursor_init.
    destruct (resume_utf16_ok _ str (length (fl_bytes f)) idx Hw2 He2 Hnn) as (R1 & R2 & R3 & R4).
    set (cur := utf16_scan_cursor_resume_utf16 _ _ _) in *. rewrite Hb2 in R3.
    destruct (floor_loop_ok (fl_bytes f) Hwf idx (S (length (fl_bytes f))) cur R3 R2)
      as (L1 & L2 & L3 & L4); [lia|auto|].
    set (cur2 := floor_loop _ _ _ _) in *.
    destruct (store_frame_ok w _ cur2 (fl_bytes f) Hw2 He2 Hfr2) as [F1 F2]; auto.
    { rewrite L2, R1. exact Hb2. }
    splits; auto. exists (cu_utf16_pos cur2). auto.
Qed.

(** *** Slices *)

(** Specification of [utf16_range_to_byte_range]: the units of the range are
    those of the byte range, between the two halves of the pairs the range
    cuts in two. *)
Definition half_pair (l : list Z) (surrogate : Z) : Prop :=
  (l = [] /\ surrogate = 0) \/ exists x, l = [x] /\ surrogate = u16 x.

Definition range_spec (s : list Z) (start stop : nat) (r : byte_range) : Prop :=
  (byte_start r <= byte_end r <= length s)%nat /\
  exists pre suf, half_pair pre (prefix_surrogate r) /\ half_pair suf (suffix_surrogate r) /\
    take (stop - start) (drop start (wtf16 s)) =
    pre ++ wtf16 (take (byte_end r - byte_start r) (drop (byte_start r) s)) ++ suf.

Lemma slice_tail (W : list Z) us ue stop suf :
  (us <= ue)%nat ->
  ((suf = [] /\ (ue = stop \/ (ue = length W /\ (ue <= stop)%nat))) \/
   (exists x, S ue = stop /\ W !! ue = Some x /\ suf = [x])) ->
  take (stop - us) (drop us W) = take (ue - us) (drop us W) ++ suf.
Proof.
  intros Hle [[-> [->|[-> Hs]]]|(x & <- & Hx & ->)]; rewrite ?app_nil_r; auto.
  - rewrite !take_ge; rewrite ?length_drop; auto; lia.
  - rewrite Nat.sub_succ_l by lia. apply take_S_r. rewrite lookup_drop.
    replace (us + (ue - us))%nat with ue by lia. exact Hx.
Qed.

Lemma all_ascii_sub s n m : all_ascii s = true -> all_ascii (take n (drop m s)) = true.
Proof.
  unfold all_ascii. rewrite !forallb_forall. intros H x Hx. apply H.
  rewrite <- (take_drop m s), in_app_iff. right.
  rewrite <- (take_drop n (drop m s)), in_app_iff. left. exact Hx.
Qed.

Lemma range_ascii s start stop : all_ascii s = true -> (start < stop)%nat ->
  range_spec s start stop
    (ByteRange 0 0 (if (start <=? length s)%nat then start else length s)
                   (if (stop <=? length s)%nat then stop else length s)).
Proof.
  intros Ha Hlt. split; cbn; [case_ifs; lia|].
  exists [], []. split; [left; auto|]. split; [left; auto|].
  rewrite (wtf16_ascii s) by exact Ha. rewrite wtf16_ascii by (apply all_ascii_sub; exact Ha).
  rewrite app_nil_r. cbn.
  destruct (Nat.leb_spec start (length s)); destruct (Nat.leb_spec stop (length s)).
  - reflexivity.
  - rewrite !take_ge; rewrite ?length_drop; auto; lia.
  - lia.
  - rewrite (drop_ge s start) by lia. rewrite drop_all, !take_nil. reflexivity.
Qed.

Lemma range_ok w str f start stop :
  world_ok w -> w_heap w !! str = Some f ->
  let '(r, w') := utf16_range_to_byte_range w str (length (fl_bytes f)) start stop in
  world_ok w' /\ frame w w' /\ range_spec (fl_bytes f) start stop r.
Proof.
  intros Hw Hf. destruct (wo_heap w Hw str f Hf) as (Hnn & _ & Hwf).
  unfold utf16_range_to_byte_range. destruct (Nat.leb_spec stop start) as [Hss|Hss].
  { splits; auto with fant. split; [cbn; lia|]. exists [], []. cbn.
    replace (stop - start)%nat with 0%nat by lia. rewrite take_0.
    splits; [left; auto|left; auto|reflexivity]. }
  enter_accessor w str f start Hw Hf.
  { splits; auto. apply range_ascii; auto. }
  pose proof (range_start_ok (fl_bytes f) Hwf start (S (length (fl_bytes f))) cur C3 C2
    ltac:(lia) C4) as HS.
  destruct (range_start_loop _ _ _ _ _) as [cur2 prefix]. destruct HS as (S1 & S2 & S3 & S4).
  pose proof (range_end_ok (fl_bytes f) Hwf stop (S (length (fl_bytes f))) cur2 S1 S2
    ltac:(lia) ltac:(lia)) as HE.
  destruct (range_end_loop _ _ _ _) as [cur3 suffix]. destruct HE as (E1 & E2 & E3 & E4).
  destruct (path_view _ Hwf _ _ _ _ S1 E3) as (P1 & P2 & P3 & P4).
  pose proof (cursor_le _ Hwf cur3 E1) as Hle3.
  destruct (store_frame_ok w w3 cur3 (fl_bytes f) Hw3 He3 Hfr3) as [F1 F2]; auto.
  { rewrite E2, S3, C1. eapply frame_bytes; eauto. }
  splits; auto. split; [cbn; lia|]. cbn.
  set (W := wtf16 (fl_bytes f)) in *.
  assert (exists suf, half_pair suf suffix /\
    take (stop - cu_utf16_pos cur2) (drop (cu_utf16_pos cur2) W) =
    take (cu_utf16_pos cur3 - cu_utf16_pos cur2) (drop (cu_utf16_pos cur2) W) ++ suf) as (suf & Hsuf & Htail).
  { destruct E4 as [[-> Hst]|(Hst & x & Hx & ->)].
    - exists []. split; [left; auto|]. apply slice_tail; [lia|]. left. split; auto.
      destruct Hst as [?|[Hp ?]]; [auto|right]. split; auto. unfold cursor_ok in E1.
      rewrite Hp in E1. apply (boundary_end _ _ Hwf E1).
    - exists [x]. split; [right; eauto|]. apply slice_tail; [lia|]. right. eauto. }
  rewrite P4. destruct S4 as [[-> [Hst|[Hp Hst]]]|(Hst & x & Hx & ->)].
  - exists [], suf. splits; auto; [left; auto|]. rewrite <- Hst. exact Htail.
  - assert (Hend : cu_utf16_pos cur2 = length W).
    { unfold cursor_ok in S1. rewrite Hp in S1. apply (boundary_end _ _ Hwf S1). }
    exists [], suf. splits; auto; [left; auto|].
    rewrite (drop_ge W start) by lia. rewrite Hend, drop_all, !take_nil in *. cbn. exact Htail.
  - exists [x], suf. splits; auto; [right; eauto|].
    replace (stop - start)%nat with (S (stop - S start)) by lia.
    rewrite (drop_S W x start Hx). cbn. rewrite <- Hst, Htail. reflexivity.
Qed.

(** Specification of [byte_offset_to_utf16]: the units before [byte_off]; a
    character that [byte_off] cuts counts in full. *)
Definition utf16_count_spec (s : list Z) (byte_off r : nat) : Prop :=
  exists p u, boundary s p u /\
    ((p = byte_off /\ r = u) \/
     let d := utf16_scan_decode s p (length s) true in
     ((p < byte_off < p + slen d)%nat /\ r = (u + units d)%nat)).

Lemma byte_offset_ok w str f byte_off :
  world_ok w -> w_heap w !! str = Some f -> (byte_off <= length (fl_bytes f))%nat ->
  let '(r, w') := byte_offset_to_utf16 w str byte_off in
  world_ok w' /\ frame w w' /\ utf16_count_spec (fl_bytes f) byte_off r.
Proof.
  intros Hw Hf Hoff. destruct (wo_heap w Hw str f Hf) as (Hnn & _ & Hwf).
  destruct (enter_ok w str f Hw Hf) as (w1 & E & Hw1 & Hfr1 & Hb1 & Hw2 & Hfr2 & He2 & Hb2 & _).
  unfold byte_offset_to_utf16. rewrite E, Hb1. destruct (all_ascii (fl_bytes f)) eqn:A.
  { splits; auto. exists byte_off, byte_off. split; [apply ascii_boundary|]; auto. }
  unfold utf16_scan_cursor_init.
  destruct (resume_byte_ok _ str byte_off Hw2 He2 Hnn) as (R1 & R2 & R3 & R4).
  set (cur := utf16_scan_cursor_resume_byte _ _ _) in *. rewrite Hb2 in R3.
  pose proof (byte_offset_loop_ok (fl_bytes f) Hwf byte_off Hoff (S byte_off) cur R3
    ltac:(lia) R4) as HL.
  destruct (byte_offset_loop _ _ _ _) as [cur2 ended]. destruct HL as (L1 & L2 & L3).
  destruct ended; [|splits; auto].
  destruct (store_frame_ok w _ cur2 (fl_bytes f) Hw2 He2 Hfr2) as [F1 F2]; auto.
  { rewrite L1, R1. exact Hb2. }
Qed.
End index.

(** ** Histories of the runtime

    Strings are allocated at addresses not in use, a sweep drops any part of
    the heap and moves the epoch, and between those the accessors are called
    on live strings, each with its own allocator behaviour. *)

Definition init_world : world :=
  World ∅ 1 (ScanCache 0 NULL 0 0 0)
    (IndexCache 0 0 0 (replicate UTF16_INDEX_WAYS empty_entry)).

Inductive step (w : world) : world -> Prop :=
| step_alloc a f :
    a <> NULL -> w_heap w !! a = None -> meta_ok f -> scan_wf (fl_bytes f) = true ->
    step w (with_heap w (<[a := f]> (w_heap w)))
| step_sweep h' :
    h' ⊆ w_heap w -> w_epoch w + 1 < 2 ^ 64 ->
    step w (World h' (w_epoch w + 1) (w_scan w) (w_index w))
| step_index_to_byte_offset m str f idx :
    w_heap w !! str = Some f -> Z.of_nat (length (fl_bytes f)) < 2 ^ 31 ->
    step w (utf16_index_to_byte_offset m w str (length (fl_bytes f)) idx).2
| step_index_to_byte_offset_floor str f idx :
    w_heap w !! str = Some f ->
    step w (utf16_index_to_byte_offset_floor w str (length (fl_bytes f)) idx).2
| step_range_to_byte_range m str f start stop :
    w_heap w !! str = Some f ->
    step w (utf16_range_to_byte_range m w str (length (fl_bytes f)) start stop).2
| step_byte_offset_to_utf16 str f off :
    w_heap w !! str = Some f -> (off <= length (fl_bytes f))%nat ->
    step w (byte_offset_to_utf16 w str off).2
| step_code_unit_at m str f idx :
    w_heap w !! str = Some f ->
    step w (utf16_code_unit_at m w str (length (fl_bytes f)) idx).2
| step_codepoint_at m str f idx :
    w_heap w !! str = Some f ->
    step w (utf16_codepoint_at m w str (length (fl_bytes f)) idx).2
| step_strlen str f :
    w_heap w !! str = Some f ->
    step w (w_utf16_strlen w str (length (fl_bytes f))).2.

Definition reachable (w : world) : Prop := rtc step init_world w.

Lemma init_world_ok : world_ok init_world.
Proof.
  unfold init_world. split; cbn; unfold UTF16_INDEX_WAYS;
    try lia; try discriminate; reflexivity.
Qed.

Lemma boundary_nil p u : boundary [] p u -> p = 0%nat /\ u = 0%nat.
Proof. destruct 1 as [|p u H Hlt]; [auto|]. cbn in Hlt. lia. Qed.

Lemma points_ok_nil pts s : points_ok [] pts -> points_ok s pts.
Proof.
  intros [Hh Hp]. split; [exact Hh|]. eapply Forall_impl; [exact Hp|].
  intros pt Hb. apply boundary_nil in Hb as [-> ->]. constructor.
Qed.

Lemma alloc_ok w a f :
  world_ok w -> a <> NULL -> w_heap w !! a = None -> meta_ok f ->
  scan_wf (fl_bytes f) = true -> world_ok (with_heap w (<[a := f]> (w_heap w))).
Proof.
  intros [] Ha Hn Hm Hs.
  assert (Hb : forall b, w_bytes (with_heap w (<[a := f]> (w_heap w))) b =
                         if decide (b = a) then fl_bytes f else w_bytes w b).
  { intros b. unfold w_bytes, with_heap; cbn [w_heap]. destruct (decide (b = a)) as [->|].
    - rewrite lookup_insert_eq. reflexivity.
    - rewrite lookup_insert_ne by congruence. reflexivity. }
  assert (Ha0 : w_bytes w a = []) by (unfold w_bytes; rewrite Hn; reflexivity).
  split; cbn [with_heap w_epoch w_scan w_index w_heap]; auto.
  - intros b g Hg. destruct (decide (a = b)) as [<-|Hne].
    + rewrite lookup_insert_eq in Hg. injection Hg as <-. auto.
    + rewrite lookup_insert_ne in Hg by exact Hne. eauto.
  - intros He Hnn. specialize (wo_scan0 He Hnn). rewrite Hb.
    destruct (decide _) as [E|]; [|exact wo_scan0].
    rewrite E, Ha0 in wo_scan0. apply boundary_nil in wo_scan0 as [-> ->]. constructor.
  - intros He. eapply Forall_impl; [exact (wo_index0 He)|]. intros e Hok pts Hp.
    specialize (Hok pts Hp). rewrite Hb. destruct (decide _) as [E|]; [|exact Hok].
    rewrite E, Ha0 in Hok. apply points_ok_nil. exact Hok.
Qed.

Lemma sweep_ok w h' :
  world_ok w -> h' ⊆ w_heap w ->
  world_ok (World h' (w_epoch w + 1) (w_scan w) (w_index w)).
Proof.
  intros [] Hsub. split; cbn; auto; try lia.
  intros a f Hf. eapply wo_heap0, lookup_weaken; eauto.
Qed.

Lemma step_ok w w' : world_ok w -> step w w' -> world_ok w'.
Proof.
  intros Hw Hs. destruct Hs as [| |m str f idx Hf Hl|str f idx Hf|m str f i j Hf
    |str f off Hf Ho|m str f idx Hf|m str f idx Hf|str f Hf].
  - apply alloc_ok; assumption.
  - apply sweep_ok; assumption.
  - pose proof (index_to_byte_offset_ok m w str f idx Hw Hf Hl) as H.
    destruct (utf16_index_to_byte_offset _ _ _ _ _) as [[] ?]. apply H.
  - pose proof (index_floor_ok w str f idx Hw Hf) as H.
    destruct (utf16_index_to_byte_offset_floor _ _ _ _). apply H.
  - pose proof (range_ok m w str f i j Hw Hf) as H.
    destruct (utf16_range_to_byte_range _ _ _ _ _ _). apply H.
  - pose proof (byte_offset_ok w str f off Hw Hf Ho) as H.
    destruct (byte_offset_to_utf16 _ _ _). apply H.
  - pose proof (code_unit_at_ok m w str f idx Hw Hf) as H.
    destruct (utf16_code_unit_at _ _ _ _ _). apply H.
  - pose proof (codepoint_at_ok m w str f idx Hw Hf) as H.
    destruct (utf16_codepoint_at _ _ _ _ _). apply H.
  - apply scan_sync_ok. exact Hw.
Qed.

Lemma reachable_ok w : reachable w -> world_ok w.
Proof.
  unfold reachable. revert w. apply rtc_ind_r; [apply init_world_ok|].
  intros; eauto using step_ok.
Qed.

(** ** Checkpoints fit the buffer that is allocated for them *)

Lemma index_build_loop_length s byte_len fuel p u pts :
  (u <= p)%nat -> ((length pts - 1) * UTF16_INDEX_CHUNK <= u)%nat ->
  (1 <= length pts <= byte_len / UTF16_INDEX_CHUNK + 2)%nat ->
  (length (utf16_index_build_loop fuel s byte_len p u pts)
   <= byte_len / UTF16_INDEX_CHUNK + 2)%nat.
Proof.
  unfold UTF16_INDEX_CHUNK.
  revert p u pts. induction fuel as [|fuel IH]; intros p u pts Hu Hc Hl; cbn [utf16_index_build_loop]; [lia|].
  destruct (Nat.ltb_spec p byte_len) as [Hlt|]; [|lia].
  pose proof (scan_decode_units s p byte_len false) as [? ?].
  pose proof (Nat.div_mod_eq byte_len 64). pose proof (Nat.mod_upper_bound byte_len 64).
  unfold UTF16_INDEX_CHUNK.
  case_if; boolprop; apply IH; rewrite ?length_app; cbn [length]; lia.
Qed.

(** ** The accessors answer as the UTF-16 view does *)



(** [utf16_codepoint_at] returns the code point of the character whose
    first unit is at the index, the low surrogate when the index is the second
    unit of a pair, and the out-of-range marker past the end. *)
Theorem codepoint_at_correct malloc_ok w str f idx :
  reachable w -> w_heap w !! str = Some f ->
  let '(r, w') := utf16_codepoint_at malloc_ok w str (length (fl_bytes f)) idx in
  at_unit (fl_bytes f) idx scp r /\ frame w w'.
Proof.
  intros Hw Hf. pose proof (codepoint_at_ok malloc_ok w str f idx (reachable_ok w Hw) Hf) as H.
  destruct (utf16_codepoint_at _ _ _ _ _). tauto.
Qed.

(** [utf16_index_to_byte_offset] returns the byte offset of the first
    character starting at or after the index with its byte length, and -1 when
    the index is past the end or splits the last character. *)
Theorem index_to_byte_offset_correct malloc_ok w str f idx :
  reachable w -> w_heap w !! str = Some f -> Z.of_nat (length (fl_bytes f)) < 2 ^ 31 ->
  let '((r, char_bytes), w') :=
    utf16_index_to_byte_offset malloc_ok w str (length (fl_bytes f)) idx in
  byte_offset_spec (fl_bytes f) idx r char_bytes /\ frame w w'.
Proof.
  intros Hw Hf Hl.
  pose proof (index_to_byte_offset_ok malloc_ok w str f idx (reachable_ok w Hw) Hf Hl) as H.
  destruct (utf16_index_to_byte_offset _ _ _ _ _) as [[] ?]. tauto.
Qed.

(** [utf16_index_to_byte_offset_floor] returns the start of the character
    the unit belongs to, clamped to the end of the string. *)
Theorem index_floor_correct w str f idx :
  reachable w -> w_heap w !! str = Some f ->
  let '(p, w') := utf16_index_to_byte_offset_floor w str (length (fl_bytes f)) idx in
  byte_floor_spec (fl_bytes f) idx p /\ frame w w'.
Proof.
  intros Hw Hf. pose proof (index_floor_ok w str f idx (reachable_ok w Hw) Hf) as H.
  destruct (utf16_index_to_byte_offset_floor _ _ _ _). tauto.
Qed.

(** [utf16_range_to_byte_range] denotes exactly the requested slice: the
    units of the byte range, between the surrogate halves of pairs the slice
    cuts, are the units [start, stop) of the string. *)
Theorem range_to_byte_range_correct malloc_ok w str f start stop :
  reachable w -> w_heap w !! str = Some f ->
  let '(r, w') := utf16_range_to_byte_range malloc_ok w str (length (fl_bytes f)) start stop in
  range_spec (fl_bytes f) start stop r /\ frame w w'.
Proof.
  intros Hw Hf. pose proof (range_ok malloc_ok w str f start stop (reachable_ok w Hw) Hf) as H.
  destruct (utf16_range_to_byte_range _ _ _ _ _ _). tauto.
Qed.

(** [byte_offset_to_utf16] counts the units before a byte offset. *)
Theorem byte_offset_correct w str f byte_off :
  reachable w -> w_heap w !! str = Some f -> (byte_off <= length (fl_bytes f))%nat ->
  let '(r, w') := byte_offset_to_utf16 w str byte_off in
  utf16_count_spec (fl_bytes f) byte_off r /\ frame w w'.
Proof.
  intros Hw Hf Ho. pose proof (byte_offset_ok w str f byte_off (reachable_ok w Hw) Hf Ho) as H.
  destruct (byte_offset_to_utf16 _ _ _). tauto.
Qed.

(** [utf16_index_build] never writes past its allocation: the checkpoints
    of any byte array, well formed or not, fit in [byte_len / 64 + 2] slots. *)
Theorem index_points_fit s byte_len :
  (length (utf16_index_points s byte_len) <= utf16_index_max_points byte_len)%nat.
Proof.
  apply index_build_loop_length; cbn [length]; unfold UTF16_INDEX_CHUNK; lia.
Qed.

(** *** A concrete history: one string holding e-acute and an emoji, and a read *)

Definition demo_bytes : list Z := [0x61; 0xC3; 0xA9; 0xF0; 0x9F; 0x98; 0x80].
Definition demo_flat : flat :=
  str_flat_init_meta (Flat demo_bytes 0) (str_detect_ascii_bytes demo_bytes).
Definition demo_world1 : world := with_heap init_world (<[16 := demo_flat]> ∅).
Definition demo_world : world :=
  (utf16_code_unit_at (fun _ => true) demo_world1 16 (length (fl_bytes demo_flat)) 2).2.

Lemma demo_reachable : reachable demo_world.
Proof.
  eapply rtc_l; [|eapply rtc_l; [|apply rtc_refl]].
  - apply (step_alloc init_world 16 demo_flat); try reflexivity; [discriminate|].
    exact (init_meta_ok (Flat demo_bytes 0)).
  - apply (step_code_unit_at demo_world1 (fun _ => true) 16 demo_flat 2). reflexivity.
Qed.

Lemma demo_lookup : w_heap demo_world !! 16 = Some demo_flat.
Proof. vm_compute. reflexivity. Qed.



Lemma codepoint_at_correct_witness :
  (utf16_codepoint_at (fun _ => true) demo_world 16 7 2).1 = 0x1F600 /\
  at_unit demo_bytes 2 scp 0x1F600.
Proof.
  split; [vm_compute; reflexivity|].
  exact (proj1 (codepoint_at_correct (fun _ => true) demo_world 16 demo_flat 2
    demo_reachable demo_lookup)).
Defined.

Lemma index_to_byte_offset_correct_witness :
  (utf16_index_to_byte_offset (fun _ => true) demo_world 16 7 2).1 = (3, Some 4%nat) /\
  byte_offset_spec demo_bytes 2 3 (Some 4%nat).
Proof.
  split; [vm_compute; reflexivity|].
  exact (proj1 (index_to_byte_offset_correct (fun _ => true) demo_world 16 demo_flat 2
    demo_reachable demo_lookup ltac:(vm_compute; reflexivity))).
Defined.

Lemma index_floor_correct_witness :
  (utf16_index_to_byte_offset_floor demo_world 16 7 3).1 = 3%nat /\
  byte_floor_spec demo_bytes 3 3.
Proof.
  split; [vm_compute; reflexivity|].
  exact (proj1 (index_floor_correct demo_world 16 demo_flat 3 demo_reachable demo_lookup)).
Defined.

Lemma range_to_byte_range_correct_witness :
  (utf16_range_to_byte_range (fun _ => true) demo_world 16 7 1 3).1 = ByteRange 0 0xD83D 1 3 /\
  range_spec demo_bytes 1 3 (ByteRange 0 0xD83D 1 3).
Proof.
  split; [vm_compute; reflexivity|].
  exact (proj1 (range_to_byte_range_correct (fun _ => true) demo_world 16 demo_flat 1 3
    demo_reachable demo_lookup)).
Defined.

Lemma byte_offset_correct_witness :
  (byte_offset_to_utf16 demo_world 16 7).1 = 4%nat /\ utf16_count_spec demo_bytes 7 4.
Proof.
  split; [vm_compute; reflexivity|].
  exact (proj1 (byte_offset_correct demo_world 16 demo_flat 7 demo_reachable demo_lookup
    ltac:(vm_compute; lia))).
Defined.
