(* ===== verification/Rope.v ===== *)
(** * Strings of the heap: flat strings, ropes and builders

    The string operations of [src/src/ant.c].  A string value points to a flat
    string, to a rope (a node with two parts, which is flattened on demand and
    then keeps the flat string), or to a string builder, whose operations are in
    [Builder].  The heap keeps the three kinds of objects by address, in order of
    allocation; the addresses stand for pointers and the constructor of a value
    for the tag in their low bits.  [grant k] says whether the [k]-th request for
    memory of a run is granted, [junk] is what a byte of fresh memory holds.  A
    computation runs [None] for a failed assertion, a dangling pointer or an
    access outside an object.  The collector is not part of the model: it is
    called inside the allocations and keeps what is reachable. *)

From S2P Require Import Prelude Utf8Scan FlatString.

(** ** The code *)

(** [ant_value_t] as far as strings need it. *)
Inductive val :=
| VUndef
| VNum (n : Z)
| VBool (b : bool)
| VFlat (a : nat)
| VRope (a : nat)
| VBuilder (a : nat).

#[global] Instance val_eq_dec : EqDecision val.
Proof. solve_decision. Defined.

(** [ant_rope_heap_t] without the collector's fields. *)
Record rope := Rope {
  rp_len : Z;
  rp_depth : Z;
  rp_left : val;
  rp_right : val;
  rp_cached : val
}.

(** [ant_string_builder_t]: the list of chunks from [head] to [chunk_tail], and
    the first [tail_len] bytes of [tail]. *)
Record builder := StrBuilder {
  bd_len : Z;
  bd_snapshot : val;
  bd_chunks : list val;
  bd_cached : val;
  bd_tail : list Z;
  bd_ascii : Z
}.

Record heap := Heap {
  hp_flats : list flat;
  hp_ropes : list rope;
  hp_builders : list builder;
  hp_asked : nat
}.

(** Computations on the heap. *)
Definition M (A : Type) : Type := heap -> option (result A * heap).

Definition ret {A} (a : A) : M A := fun h => Some (Ok a, h).
Definition mkerr {A} (msg : string) : M A := fun h => Some (js_mkerr msg, h).
Definition crash {A} : M A := fun _ => None.
Definition bind {A B} (m : M A) (f : A -> M B) : M B := fun h =>
  match m h with
  | Some (Ok a, h) => f a h
  | Some (Err k msg, h) => Some (Err k msg, h)
  | None => None
  end.
(** The result with its [is_err] flag, for callers that look at it. *)
Definition catch {A} (m : M A) : M (result A) := fun h =>
  match m h with Some (r, h) => Some (Ok r, h) | None => None end.

Declare Scope heap_scope.
Delimit Scope heap_scope with heap.
Notation "'let*' x ':=' m 'in' k" := (bind m (fun x => k))
  (at level 10, x pattern, m at level 100, k at level 200) : heap_scope.
Notation "m ';;;' k" := (bind m (fun _ => k))
  (at level 100, k at level 200, right associativity) : heap_scope.
#[local] Open Scope heap_scope.

Definition of_option {A} (o : option A) : M A :=
  fun h => match o with Some a => Some (Ok a, h) | None => None end.

Definition get_flat (a : nat) : M flat := fun h => of_option (hp_flats h !! a) h.
Definition get_rope (a : nat) : M rope := fun h => of_option (hp_ropes h !! a) h.
Definition get_builder (a : nat) : M builder := fun h => of_option (hp_builders h !! a) h.
Definition set_flat (a : nat) (f : flat) : M unit := fun h =>
  Some (Ok tt, Heap (<[a := f]> (hp_flats h)) (hp_ropes h) (hp_builders h) (hp_asked h)).
Definition set_rope (a : nat) (r : rope) : M unit := fun h =>
  Some (Ok tt, Heap (hp_flats h) (<[a := r]> (hp_ropes h)) (hp_builders h) (hp_asked h)).
Definition set_builder (a : nat) (b : builder) : M unit := fun h =>
  Some (Ok tt, Heap (hp_flats h) (hp_ropes h) (<[a := b]> (hp_builders h)) (hp_asked h)).
Definition new_flat (f : flat) : M val := fun h =>
  Some (Ok (VFlat (length (hp_flats h))),
        Heap (hp_flats h ++ [f]) (hp_ropes h) (hp_builders h) (hp_asked h)).
Definition new_rope (r : rope) : M val := fun h =>
  Some (Ok (VRope (length (hp_ropes h))),
        Heap (hp_flats h) (hp_ropes h ++ [r]) (hp_builders h) (hp_asked h)).
Definition new_builder (b : builder) : M val := fun h =>
  Some (Ok (VBuilder (length (hp_builders h))),
        Heap (hp_flats h) (hp_ropes h) (hp_builders h ++ [b]) (hp_asked h)).

Definition is_str (v : val) : bool :=
  match v with VFlat _ | VRope _ | VBuilder _ => true | _ => false end.
Definition str_is_heap_rope (v : val) : bool := match v with VRope _ => true | _ => false end.
Definition str_is_heap_builder (v : val) : bool := match v with VBuilder _ => true | _ => false end.

Definition ANT_ROPE_DEPTH_SATURATED : Z := 65535.
Definition STR_SHORT_CONS_THRESHOLD : Z := 13.
Definition ROPE_UTF16_LOCAL_FRAMES : Z := 64.

(** [memcpy] of [src] to offset [pos] of an object of [length dest] bytes. *)
Definition memcpy (dest : list Z) (pos : Z) (src : list Z) : option (list Z) :=
  if (0 <=? pos) && (pos + zlen src <=? zlen dest) then
    Some (take (Z.to_nat pos) dest ++ src ++ drop (Z.to_nat (pos + zlen src)) dest)
  else None.

(** [tov((double)n)] and the double sum of two numbers. *)
Definition tov_int (n : Z) : val := VNum (round53 n).

Inductive string_op :=
| TOK_PLUS | TOK_EQ | TOK_NE | TOK_LT | TOK_LE | TOK_GT | TOK_GE.

(** [memcmp(a, b, n)] where both have [n] bytes: its sign. *)
Fixpoint memcmp (a b : list Z) (n : nat) : Z :=
  match n, a, b with
  | S n, x :: a, y :: b => if x =? y then memcmp a b n else if x <? y then -1 else 1
  | _, _, _ => 0
  end.

Section code.
Context (grant : nat -> bool) (junk : Z).

(** One request for memory. *)
Definition request : M bool := fun h =>
  Some (Ok (grant (hp_asked h)),
        Heap (hp_flats h) (hp_ropes h) (hp_builders h) (S (hp_asked h))).

(** The bytes of a fresh string: [len] bytes of fresh memory. *)
Definition fresh_bytes (len : Z) : list Z := replicate (Z.to_nat len) junk.

(** [js_mkstr(js, s, length s)]. *)
Definition js_mkstr (s : list Z) : M val :=
  let* ok := request in
  if negb ok then mkerr "oom"
  else new_flat (str_flat_init_meta (Flat s 0) (str_detect_ascii_bytes s)).

(** [js_mkstr(js, NULL, len)]: the bytes the caller fills in.  Nothing refers to
    the string before the caller returns it, so it joins the heap, with
    [new_flat], when it is complete. *)
Definition js_mkstr_null (len : Z) : M (list Z) :=
  let* ok := request in
  if negb ok then mkerr "oom" else ret (fresh_bytes len).

Definition js_mkrope (lft rgt : val) (total_len depth : Z) : M val :=
  let* ok := request in
  if negb ok then mkerr "oom"
  else new_rope (Rope total_len depth lft rgt VUndef).

(** [assert_flat_string_len]: the bytes of a flat string. *)
Definition assert_flat_string (v : val) : M (list Z) :=
  match v with
  | VFlat a => let* f := get_flat a in ret (fl_bytes f)
  | _ => crash
  end.

(** [ant_value_stack_push_with_spill]: the new capacity, or a refusal. *)
Definition stack_push (cap : Z) (stack : list val) (v : val) : M (option (list val * Z)) :=
  if Z.of_nat (length stack) =? cap then
    let* ok := request in
    ret (if ok then Some (v :: stack, cap * 2) else None)
  else ret (Some (v :: stack, cap)).

(** What the loop of [rope_flatten_into] does with the current value: descend
    into the right part of a rope, or copy the bytes of a flat string. *)
Inductive next_step := Descend (lft rgt : val) | Copy (leaf : val).

Definition rope_visit (current : val) : M next_step :=
  match current with
  | VRope a =>
      let* r := get_rope a in
      if is_str (rp_cached r) && negb (str_is_heap_rope (rp_cached r))
      then ret (Copy (rp_cached r))
      else ret (Descend (rp_left r) (rp_right r))
  | v => ret (Copy v)
  end.

(** The loop: it fills [dest] from the end, [pos] bytes are still missing. *)
Fixpoint flatten_loop (fuel : nat) (current : val) (stack : list val) (cap pos : Z) (dest : list Z) : M (bool * list Z) :=
  match fuel with
  | O => crash
  | S fuel =>
      let* v := rope_visit current in
      match v with
      | Descend lft rgt =>
          let* pushed := stack_push cap stack lft in
          match pushed with
          | None => ret (false, dest)
          | Some (stack, cap) => flatten_loop fuel rgt stack cap pos dest
          end
      | Copy leaf =>
          let* src := assert_flat_string leaf in
          if pos <? zlen src then ret (false, dest)
          else
            let pos := pos - zlen src in
            let* dest := of_option (memcpy dest pos src) in
            match stack with
            | [] => ret (pos =? 0, dest)
            | v :: stack => flatten_loop fuel v stack cap pos dest
            end
      end
  end.

Definition rope_flatten_into (str : val) (dest : list Z) (total_len : Z) : M (bool * list Z) :=
  flatten_loop (Z.to_nat (2 * total_len)) str [] 32 total_len dest.

Definition rope_canonicalize_flat (a : nat) (flat : val) : M unit :=
  let* r := get_rope a in
  set_rope a (Rope (rp_len r) 0 VUndef VUndef flat).

Definition rope_flatten (v : val) : M val :=
  match v with
  | VRope a =>
      let* r := get_rope a in
      if is_str (rp_cached r) && negb (str_is_heap_rope (rp_cached r)) then ret (rp_cached r)
      else
        let total_len := rp_len r in
        let* dest := js_mkstr_null total_len in
        let* (ok, bytes) := rope_flatten_into v dest total_len in
        if negb ok then mkerr "string flatten failed"
        else
          let f := str_flat_init_meta (Flat bytes 0) (str_detect_ascii_bytes bytes) in
          let* flat := new_flat (match rp_cached r with VNum n => str_flat_set_utf16_len f n | _ => f end) in
          rope_canonicalize_flat a flat ;;;
          ret flat
  | v => ret v
  end.

(** The chunks of a builder, copied one after the other from [cursor] on. *)
Fixpoint copy_chunks (materialize : val -> M val) (chunks : list val) (dest : list Z) (cursor : Z) : M (list Z * Z) :=
  match chunks with
  | [] => ret (dest, cursor)
  | v :: chunks =>
      let* v := if str_is_heap_rope v || str_is_heap_builder v then materialize v else ret v in
      let* src := assert_flat_string v in
      let* dest := of_option (memcpy dest cursor src) in
      copy_chunks materialize chunks dest (cursor + zlen src)
  end.

Definition builder_flatten (materialize : val -> M val) (v : val) : M val :=
  match v with
  | VBuilder a =>
      let* bd := get_builder a in
      let cached := bd_cached bd in
      if is_str cached && negb (str_is_heap_rope cached) && negb (str_is_heap_builder cached)
      then ret cached
      else
        let* dest := js_mkstr_null (bd_len bd) in
        let* (dest, cursor) :=
          if is_str (bd_snapshot bd) then
            let* snapshot := materialize (bd_snapshot bd) in
            let* src := assert_flat_string snapshot in
            let* dest := of_option (memcpy dest 0 src) in
            ret (dest, zlen src)
          else ret (dest, 0) in
        let* (dest, cursor) := copy_chunks materialize (bd_chunks bd) dest cursor in
        let* dest := of_option (memcpy dest cursor (bd_tail bd)) in
        let f := str_flat_init_meta (Flat dest 0) (bd_ascii bd) in
        let* flat := new_flat (match cached with VNum n => str_flat_set_utf16_len f n | _ => f end) in
        set_builder a (StrBuilder (bd_len bd) flat [] flat [] (bd_ascii bd)) ;;;
        ret flat
  | v => ret v
  end.

(** [str_materialize] and [builder_flatten] call each other; the snapshot of a
    builder is no builder. *)
Fixpoint materialize (fuel : nat) (v : val) : M val :=
  match v with
  | VRope _ => rope_flatten v
  | VBuilder _ =>
      match fuel with
      | O => crash
      | S fuel => builder_flatten (materialize fuel) v
      end
  | v => ret v
  end.
Definition str_materialize : val -> M val := materialize 1.

(** [vstr]: the bytes of a string; a refusal of memory fails its assertion. *)
Definition vstr (v : val) : M (list Z) :=
  let* v := if str_is_heap_rope v || str_is_heap_builder v then
              let* flat := catch (str_materialize v) in
              match flat with Ok flat => ret flat | Err _ _ => crash end
            else ret v in
  assert_flat_string v.

(** ** Lengths *)

Definition str_len_fast (v : val) : M Z :=
  match v with
  | VRope a => let* r := get_rope a in ret (rp_len r)
  | VBuilder a => let* bd := get_builder a in ret (bd_len bd)
  | VFlat a => let* f := get_flat a in ret (zlen (fl_bytes f))
  | _ => ret 0
  end.

(** [flat_utf16_len] on a string of the heap, whose metadata it fills in. *)
Definition flat_utf16_len_at (a : nat) : M Z :=
  let* f := get_flat a in
  let '(n, f) := flat_utf16_len f in
  set_flat a f ;;; ret n.

(** [rope_utf16_frame_t]: a rope being measured; [None] is
    [STR_UTF16_LEN_UNKNOWN], the left part not yet measured. *)
Record rope_utf16_frame_t := Frame { fr_rope : nat; fr_left_len : Z }.

(** The inner loop: finished frames are popped, and the result goes to the
    first one that still waits for its left part; its right part is next. *)
Fixpoint unwind (result : Z) (frames : list rope_utf16_frame_t) : M (Z * option (val * list rope_utf16_frame_t)) :=
  match frames with
  | [] => ret (result, None)
  | fr :: rest =>
      let* r := get_rope (fr_rope fr) in
      if fr_left_len fr =? STR_UTF16_LEN_UNKNOWN then
        ret (result, Some (rp_right r, Frame (fr_rope fr) result :: rest))
      else
        let result := u64 (result + fr_left_len fr) in
        set_rope (fr_rope fr)
          (Rope (rp_len r) (rp_depth r) (rp_left r) (rp_right r) (tov_int result)) ;;;
        unwind result rest
  end.

(** The length of the flattened root; 0 when it cannot be flattened. *)
Definition flattened_utf16_len (root : val) : M Z :=
  let* flat := catch (rope_flatten root) in
  match flat with
  | Ok (VFlat b) => flat_utf16_len_at b
  | Ok _ => crash
  | Err _ _ => ret 0
  end.

(** What is known about the current value without descending into it. *)
Definition measured (utf16_len : val -> M Z) (current : val) : M (option Z) :=
  match current with
  | VRope a =>
      let* r := get_rope a in
      match rp_cached r with
      | VNum n => ret (Some n)
      | c => if is_str c then let* n := utf16_len c in ret (Some n) else ret None
      end
  | v => let* n := utf16_len v in ret (Some n)
  end.

Fixpoint measure_loop (utf16_len : val -> M Z) (root : val) (fuel : nat) (current : val) (frames : list rope_utf16_frame_t) (frame_cap : Z) : M Z :=
  match fuel with
  | O => crash
  | S fuel =>
      let* known := measured utf16_len current in
      match known, current with
      | None, VRope a =>
          let* cap := if Z.of_nat (length frames) =? frame_cap then
                        let* ok := request in ret (if ok then Some (frame_cap * 2) else None)
                      else ret (Some frame_cap) in
          match cap with
          | None => flattened_utf16_len root
          | Some cap =>
              let* r := get_rope a in
              measure_loop utf16_len root fuel (rp_left r) (Frame a STR_UTF16_LEN_UNKNOWN :: frames) cap
          end
      | None, _ => crash
      | Some result, _ =>
          let* next := unwind result frames in
          match next with
          | (result, None) => ret result
          | (_, Some (current, frames)) => measure_loop utf16_len root fuel current frames frame_cap
          end
      end
  end.

Definition rope_utf16_len_lazy (utf16_len : val -> M Z) (a : nat) : M Z :=
  let* r := get_rope a in
  if rp_depth r =? ANT_ROPE_DEPTH_SATURATED then flattened_utf16_len (VRope a)
  else measure_loop utf16_len (VRope a) (Z.to_nat (2 * rp_len r)) (VRope a) [] ROPE_UTF16_LOCAL_FRAMES.

Fixpoint sum_utf16_len (utf16_len : val -> M Z) (chunks : list val) (total : Z) : M Z :=
  match chunks with
  | [] => ret total
  | v :: chunks =>
      let* n := utf16_len v in
      sum_utf16_len utf16_len chunks (u64 (total + n))
  end.

Definition builder_utf16_len_lazy (utf16_len : val -> M Z) (a : nat) : M Z :=
  let* bd := get_builder a in
  match bd_cached bd with
  | VNum n => ret n
  | c =>
      if is_str c then utf16_len c
      else
        let* total :=
          if bd_ascii bd =? STR_ASCII_YES then ret (bd_len bd)
          else
            let* total := if is_str (bd_snapshot bd) then utf16_len (bd_snapshot bd) else ret 0 in
            let* total := sum_utf16_len utf16_len (bd_chunks bd) total in
            ret (u64 (total + Z.of_nat (utf16_strlen (bd_tail bd) (length (bd_tail bd))))) in
        let* bd := get_builder a in
        set_builder a (StrBuilder (bd_len bd) (bd_snapshot bd) (bd_chunks bd) (tov_int total)
                         (bd_tail bd) (bd_ascii bd)) ;;;
        ret total
  end.

(** [str_utf16_len]: a builder leads to a rope or a flat string, a rope to a
    flat string. *)
Fixpoint utf16_len (fuel : nat) (v : val) : M Z :=
  match fuel with
  | O => crash
  | S fuel =>
      match v with
      | VRope a =>
          let* r := get_rope a in
          match rp_cached r with
          | VNum n => ret n
          | c => if is_str c then utf16_len fuel c else rope_utf16_len_lazy (utf16_len fuel) a
          end
      | VBuilder a => builder_utf16_len_lazy (utf16_len fuel) a
      | VFlat a => flat_utf16_len_at a
      | _ => ret 0
      end
  end.
Definition str_utf16_len : val -> M Z := utf16_len 3.

(** ** Concatenation and comparison *)

Definition rope_depth (v : val) : M Z :=
  match v with VRope a => let* r := get_rope a in ret (rp_depth r) | _ => ret 0 end.

(** Concatenation of strings that are not builders. *)
Definition concat_strings (l r : val) : M val :=
  let* n1 := str_len_fast l in
  let* n2 := str_len_fast r in
  let total_len := u64 (n1 + n2) in
  if n2 =? 0 then ret l
  else if n1 =? 0 then ret r
  else if (total_len <? STR_SHORT_CONS_THRESHOLD) && negb (str_is_heap_rope l) && negb (str_is_heap_rope r) then
    let* dest := js_mkstr_null total_len in
    let* lft := assert_flat_string l in
    let* rgt := assert_flat_string r in
    let* dest := of_option (memcpy dest 0 lft) in
    let* dest := of_option (memcpy dest n1 rgt) in
    new_flat (str_flat_init_meta (Flat dest 0) (str_detect_ascii_bytes dest))
  else
    let* left_depth := rope_depth l in
    let* right_depth := rope_depth r in
    let new_depth := Z.max left_depth right_depth + 1 in
    js_mkrope l r total_len (Z.min new_depth ANT_ROPE_DEPTH_SATURATED).

Definition string_plus (l r : val) : M val :=
  let* l := if str_is_heap_builder l then str_materialize l else ret l in
  let* r := if str_is_heap_builder r then str_materialize r else ret r in
  concat_strings l r.

Definition compare_bytes (op : string_op) (a b : list Z) : M val :=
  let n1 := zlen a in let n2 := zlen b in
  match op with
  | TOK_PLUS => mkerr "bad str op"
  | TOK_EQ => ret (VBool ((n1 =? n2) && (memcmp a b (Z.to_nat n1) =? 0)))
  | TOK_NE => ret (VBool (negb ((n1 =? n2) && (memcmp a b (Z.to_nat n1) =? 0))))
  | _ =>
      let cmp := memcmp a b (Z.to_nat (Z.min n1 n2)) in
      if (cmp =? 0) && (n1 =? n2) then
        ret (VBool (match op with TOK_LE | TOK_GE => true | _ => false end))
      else
        let cmp := if cmp =? 0 then (if n1 <? n2 then -1 else 1) else cmp in
        ret (VBool (match op with
                    | TOK_LT => cmp <? 0 | TOK_LE => cmp <=? 0
                    | TOK_GT => 0 <? cmp | _ => 0 <=? cmp end))
  end.

Definition do_string_op (op : string_op) (l r : val) : M val :=
  match op with
  | TOK_PLUS => string_plus l r
  | _ =>
      let* a := vstr l in
      let* b := vstr r in
      compare_bytes op a b
  end.

(** [sv_strcmp] of [silver/ops/comparison.h], behind the relational operators,
    and the string case of [strict_eq_values]. *)
Definition sv_strcmp (l r : val) : M Z :=
  let* a := vstr l in
  let* b := vstr r in
  let n1 := zlen a in let n2 := zlen b in
  let cmp := memcmp a b (Z.to_nat (Z.min n1 n2)) in
  ret (if cmp =? 0 then (if n1 <? n2 then -1 else if n2 <? n1 then 1 else 0)
       else if cmp <? 0 then -1 else 1).

Definition strict_eq_strings (l r : val) : M bool :=
  let* a := vstr l in
  let* b := vstr r in
  ret ((zlen a =? zlen b) && (memcmp a b (Z.to_nat (zlen a)) =? 0)).

End code.

(** ** Joining strings

    A string whose last character is complete can be followed by any other. *)

Lemma scan_wf_app a b : scan_wf a = true -> scan_wf b = true -> scan_wf (a ++ b) = true.
Proof.
  enough (H : forall n a, (length a < n)%nat -> scan_wf a = true -> scan_wf b = true -> scan_wf (a ++ b) = true) by eauto.
  clear a. induction n as [|n IH]; intros a Hn Ha Hb; [lia|].
  destruct a as [|c t]; [exact Hb|]. cbn [app scan_wf length] in *.
  case_ifs; try (apply IH; (exact Ha || exact Hb || lia)).
  all: repeat (match type of Ha with (match ?t with _ => _ end) = _ => destruct t; try discriminate end; cbn [length app] in *).
  all: apply IH; (exact Ha || exact Hb || lia).
Qed.

Lemma wtf16_app a b : scan_wf a = true -> wtf16 (a ++ b) = wtf16 a ++ wtf16 b.
Proof.
  enough (H : forall n a, (length a < n)%nat -> scan_wf a = true -> wtf16 (a ++ b) = wtf16 a ++ wtf16 b) by eauto.
  clear a. induction n as [|n IH]; intros a Hn Ha; [lia|].
  destruct a as [|c t]; [reflexivity|]. cbn [app scan_wf wtf16 length] in *.
  case_ifs; try (rewrite IH by (exact Ha || lia); reflexivity).
  all: repeat (match type of Ha with (match ?t with _ => _ end) = _ => destruct t; try discriminate end; cbn [length app] in *).
  all: rewrite IH by (exact Ha || lia); reflexivity.
Qed.

Lemma detect_ascii_app a b : str_detect_ascii_bytes (a ++ b) =
  if str_detect_ascii_bytes a =? STR_ASCII_YES then str_detect_ascii_bytes b else STR_ASCII_NO.
Proof.
  unfold str_detect_ascii_bytes. rewrite existsb_app. destruct (existsb _ a); [reflexivity|]. reflexivity.
Qed.

Lemma zlen_wtf16 a : 0 <= zlen (wtf16 a) <= zlen a.
Proof. pose proof (wtf16_length_le a). unfold zlen. lia. Qed.

(** ** What a value denotes *)

(** Lengths are kept as doubles: exact below 2^53. *)
Definition MAX_LEN : Z := 2 ^ 53.

Record flat_ok (f : flat) : Prop := {
  fo_meta : meta_ok f;
  fo_scan : scan_wf (fl_bytes f) = true;
  fo_len : zlen (fl_bytes f) < MAX_LEN
}.

(** The bytes of an immutable string: of a flat one, of a rope by its parts, of
    a flattened rope by its flat string.  A rope's cached number is its length
    in UTF-16 units. *)
Inductive str_of (h : heap) : val -> list Z -> Prop :=
| str_flat a f : hp_flats h !! a = Some f -> flat_ok f -> str_of h (VFlat a) (fl_bytes f)
| str_node a r s1 s2 : hp_ropes h !! a = Some r ->
    str_of h (rp_left r) s1 -> str_of h (rp_right r) s2 -> s1 <> [] -> s2 <> [] ->
    rp_len r = zlen (s1 ++ s2) -> zlen (s1 ++ s2) < MAX_LEN ->
    (rp_cached r = VUndef \/ rp_cached r = VNum (zlen (wtf16 (s1 ++ s2)))) ->
    str_of h (VRope a) (s1 ++ s2)
| str_done a r b f : hp_ropes h !! a = Some r -> rp_cached r = VFlat b ->
    hp_flats h !! b = Some f -> flat_ok f -> fl_bytes f <> [] -> rp_len r = zlen (fl_bytes f) ->
    str_of h (VRope a) (fl_bytes f).

Lemma str_of_facts h v s : str_of h v s -> scan_wf s = true /\ zlen s < MAX_LEN /\ is_str v = true /\
  str_is_heap_builder v = false /\ (str_is_heap_rope v = true -> s <> []).
Proof.
  induction 1 as [a f Hf []|a r s1 s2 Hr H1 IH1 H2 IH2 N1 N2 Hl Hb Hc|a r b f Hr Hc Hf [] Hn Hl];
    splits; auto; try discriminate.
  - apply scan_wf_app; [apply IH1|apply IH2].
  - intros _ E. apply app_eq_nil in E. tauto.
Qed.

Lemma str_of_det h v s : str_of h v s -> forall t, str_of h v t -> s = t.
Proof.
  induction 1 as [a f Hf Ho|a r s1 s2 Hr H1 IH1 H2 IH2 N1 N2 Hl Hb Hc|a r b f Hr Hc Hf Ho Hn Hl]; intros t Ht; inversion Ht; subst; simplify_eq.
  - reflexivity.
  - f_equal; [apply IH1|apply IH2]; assumption.
  - destruct Hc; congruence.
  - match goal with H : rp_cached _ = VUndef \/ _ |- _ => destruct H; congruence end.
  - congruence.
Qed.

(** ** Heaps that grow *)

(** Strings keep their meaning when flat strings are added or refined. *)
Lemma str_of_flats h h' : hp_ropes h' = hp_ropes h ->
  (forall a f, hp_flats h !! a = Some f -> flat_ok f ->
     exists f', hp_flats h' !! a = Some f' /\ flat_ok f' /\ fl_bytes f' = fl_bytes f) ->
  forall v s, str_of h v s -> str_of h' v s.
Proof.
  intros Hr Hf v s. induction 1 as [a f Ha Ho|a r s1 s2 Ha H1 IH1 H2 IH2 N1 N2 Hl Hb Hc|a r b f Ha Hc Hb Ho Hn Hl].
  - destruct (Hf _ _ Ha Ho) as (f' & ? & ? & <-). constructor; assumption.
  - apply str_node with r; auto. rewrite Hr. exact Ha.
  - destruct (Hf _ _ Hb Ho) as (f' & ? & ? & E). rewrite <- E in *. apply str_done with r b; auto. rewrite Hr. exact Ha.
Qed.

(** ... when ropes are added, learn their length, or are flattened. *)
Definition rope_refines (h h' : heap) (r r' : rope) (s : list Z) : Prop :=
  (rp_left r' = rp_left r /\ rp_right r' = rp_right r /\ rp_len r' = rp_len r /\
   (rp_cached r' = rp_cached r \/ (is_str (rp_cached r) = false /\ rp_cached r' = VNum (zlen (wtf16 s))))) \/
  (exists b f, rp_cached r' = VFlat b /\ hp_flats h' !! b = Some f /\ flat_ok f /\ fl_bytes f = s /\ rp_len r' = zlen s).

Lemma str_of_ropes h h' : hp_flats h' = hp_flats h ->
  (forall a r s, hp_ropes h !! a = Some r -> str_of h (VRope a) s ->
     exists r', hp_ropes h' !! a = Some r' /\ rope_refines h h' r r' s) ->
  forall v s, str_of h v s -> str_of h' v s.
Proof.
  intros Hf Hr v s H. pose proof H as H0.
  induction H as [a f Ha Ho|a r s1 s2 Ha H1 IH1 H2 IH2 N1 N2 Hl Hb Hc|a r b f Ha Hc Hb Ho Hn Hl].
  - constructor; [rewrite Hf; exact Ha|exact Ho].
  - destruct (Hr _ _ _ Ha H0) as (r' & Hr' & [(El & Er & En & Ec)|(b & f & Ec & Hb' & Hok & Es & En)]).
    + apply str_node with r'; auto; try congruence.
      * rewrite El. auto.
      * rewrite Er. auto.
      * destruct Ec as [->|[_ ->]]; auto.
    + rewrite <- Es in *. apply str_done with r' b; auto. intros E. rewrite E in Es.
      symmetry in Es. apply app_eq_nil in Es. tauto.
  - destruct (Hr _ _ _ Ha H0) as (r' & Hr' & [(El & Er & En & Ec)|(b' & f' & Ec & Hb' & Hok & Es & En)]).
    + destruct Ec as [Ec|[Hs _]]; [|rewrite Hc in Hs; discriminate].
      apply str_done with r' b; auto; try congruence.
    + rewrite <- Es in *. apply str_done with r' b'; auto.
Qed.

(** ** Runs

    What a computation may do to the heap, [R], and what it returns, [Q].  An
    error is reported only when a request of the run was refused. *)

Section runs.
Context (grant : nat -> bool).

Definition refused (h h' : heap) : Prop :=
  exists k, (hp_asked h <= k < hp_asked h')%nat /\ grant k = false.

(** [E] excuses an error that an earlier refusal explains. *)
Definition runs {A} (E : Prop) (R : heap -> heap -> Prop) (m : M A) (h : heap) (Q : A -> heap -> Prop) : Prop :=
  match m h with
  | Some (Ok a, h') => R h h' /\ Q a h'
  | Some (Err k _, h') => R h h' /\ k = JS_ERR_TYPE /\ (E \/ refused h h')
  | None => False
  end.

(** Effects can be chained, and requests are never taken back. *)
Class Effect (R : heap -> heap -> Prop) := {
  eff_refl : forall h, R h h;
  eff_trans : forall h1 h2 h3, R h1 h2 -> R h2 h3 -> R h1 h3;
  eff_asked : forall h h', R h h' -> (hp_asked h <= hp_asked h')%nat
}.

(** Only the counter of requests moves. *)
Definition asks (h h' : heap) : Prop :=
  hp_flats h' = hp_flats h /\ hp_ropes h' = hp_ropes h /\ hp_builders h' = hp_builders h /\
  (hp_asked h <= hp_asked h')%nat.

(** Strings keep their meaning and no builder changes. *)
Record grows (h h' : heap) : Prop := {
  gr_asked : (hp_asked h <= hp_asked h')%nat;
  gr_builders : hp_builders h' = hp_builders h;
  gr_str : forall v s, str_of h v s -> str_of h' v s
}.

#[global] Instance asks_effect : Effect asks.
Proof.
  split; unfold asks; intros; [splits; auto| |tauto].
  destruct H as (? & ? & ? & ?), H0 as (? & ? & ? & ?). splits; try congruence. lia.
Qed.

#[global] Instance grows_effect : Effect grows.
Proof.
  split; [split; auto| |intros ? ? []; assumption].
  intros h1 h2 h3 [A1 B1 S1] [A2 B2 S2]. split; [lia|congruence|auto].
Qed.

Lemma asks_str h h' : asks h h' -> forall v s, str_of h v s -> str_of h' v s.
Proof.
  intros (Hf & Hr & _ & _). apply str_of_flats; [exact Hr|]. intros a f Ha Ho. rewrite Hf. eauto.
Qed.

Lemma asks_grows h h' : asks h h' -> grows h h'.
Proof. intros H. split; [apply H|apply H|apply asks_str; exact H]. Qed.

Lemma refused_mono h0 h h' h1 : (hp_asked h0 <= hp_asked h)%nat -> (hp_asked h' <= hp_asked h1)%nat ->
  refused h h' -> refused h0 h1.
Proof. intros H0 H1 (k & Hk & G). exists k. split; [lia|exact G]. Qed.

Section rules.
Context (R : heap -> heap -> Prop) `{HR : !Effect R}.

Lemma runs_ret {A} E (a : A) h (Q : A -> heap -> Prop) : Q a h -> runs E R (ret a) h Q.
Proof using HR. intros H. split; [apply eff_refl|exact H]. Qed.

Lemma runs_err {A} (E : Prop) msg h (Q : A -> heap -> Prop) : E -> runs E R (mkerr msg) h Q.
Proof using HR. intros H. split; [apply eff_refl|]. auto. Qed.

Lemma runs_bind {A B} (E : Prop) (m : M A) (f : A -> M B) h (P : A -> heap -> Prop) (Q : B -> heap -> Prop) :
  runs E R m h P ->
  (forall a h1, R h h1 -> P a h1 -> runs (E \/ refused h h1) R (f a) h1 (fun b h2 => R h h2 -> Q b h2)) ->
  runs E R (bind m f) h Q.
Proof using HR.
  intros Hm Hf. unfold runs, bind in *. destruct (m h) as [[[a|e msg] h1]|]; [|exact Hm|exact Hm].
  destruct Hm as [H1 HP]. specialize (Hf a h1 H1 HP). pose proof (eff_asked _ _ H1) as Hk.
  destruct (f a h1) as [[[b|e msg] h2]|]; [| |exact Hf].
  - destruct Hf as [H2 HQ]. pose proof (eff_trans _ _ _ H1 H2). auto.
  - destruct Hf as (H2 & -> & Href). pose proof (eff_asked _ _ H2). split; [eapply eff_trans; eassumption|].
    split; [reflexivity|].
    destruct Href as [[HE|Href]|Href]; [left; exact HE|right|right]; eapply refused_mono; try exact Href; lia.
Qed.

(** A first step that is known to succeed without an effect. *)
Lemma runs_step {A B} E (m : M A) (f : A -> M B) h a Q :
  m h = Some (Ok a, h) -> runs E R (f a) h Q -> runs E R (bind m f) h Q.
Proof. intros Em. unfold runs, bind. rewrite Em. auto. Qed.

Lemma runs_post {A} (E : Prop) (m : M A) h (P Q : A -> heap -> Prop) :
  runs E R m h P -> (forall a h', R h h' -> P a h' -> Q a h') -> runs E R m h Q.
Proof. unfold runs. intros H HPQ. destruct (m h) as [[[a|e msg] h1]|]; [|exact H|exact H]. destruct H. auto. Qed.

End rules.

Lemma runs_effect {A} E (R R' : heap -> heap -> Prop) (m : M A) h Q :
  runs E R m h Q -> (forall h', R h h' -> R' h h') -> runs E R' m h Q.
Proof.
  unfold runs. intros H HR. destruct (m h) as [[[a|e msg] h1]|]; [| |exact H]; destruct H; auto.
Qed.

Lemma request_runs E h : runs E asks (request grant) h (fun b h' => b = false -> refused h h').
Proof.
  split; [unfold asks; splits; try reflexivity; cbn; lia|].
  intros G. exists (hp_asked h). cbn. split; [lia|exact G].
Qed.

End runs.

(** ** Steps of a run *)

Section steps.
Context (grant : nat -> bool) (junk : Z).

(** [v] is a flat string with these bytes. *)
Definition flat_of (h : heap) (v : val) (s : list Z) : Prop := (exists b, v = VFlat b) /\ str_of h v s.

Lemma memcpy_ok a b c src : zlen b = zlen src -> memcpy (a ++ b ++ c) (zlen a) src = Some (a ++ src ++ c).
Proof.
  intros Hl. unfold memcpy. rewrite !zlen_app. pose proof (zlen_nonneg a). pose proof (zlen_nonneg c).
  replace ((0 <=? zlen a) && (zlen a + zlen src <=? zlen a + (zlen b + zlen c))) with true
    by (symmetry; apply andb_true_iff; rewrite !Z.leb_le; lia).
  unfold zlen in *. rewrite Nat2Z.id, take_app_length. do 3 f_equal.
  rewrite app_assoc. apply drop_app_length'. rewrite length_app. lia.
Qed.

(** Filling an object from the left. *)
Lemma memcpy_next a rest src : zlen src <= zlen rest ->
  exists rest', memcpy (a ++ rest) (zlen a) src = Some ((a ++ src) ++ rest') /\ zlen rest' = zlen rest - zlen src.
Proof.
  intros Hl. exists (drop (length src) rest). split; [|unfold zlen in *; rewrite length_drop; lia].
  rewrite <- (take_drop (length src) rest) at 1. rewrite memcpy_ok; [rewrite app_assoc; reflexivity|].
  unfold zlen in *. rewrite length_take. lia.
Qed.

Lemma memcpy_first d src : zlen src <= zlen d ->
  exists rest', memcpy d 0 src = Some (src ++ rest') /\ zlen rest' = zlen d - zlen src.
Proof. intros Hl. exact (memcpy_next [] d src Hl). Qed.

Lemma fresh_bytes_len n : 0 <= n -> zlen (fresh_bytes junk n) = n.
Proof. intros. unfold zlen, fresh_bytes. rewrite length_replicate. lia. Qed.

Lemma flat_of_string h v s : flat_of h v s -> assert_flat_string v h = Some (Ok s, h).
Proof.
  intros [[b ->] H]. inversion H; subst. cbn. unfold bind, get_flat, of_option.
  match goal with E : _ !! _ = Some _ |- _ => rewrite E end. reflexivity.
Qed.

Lemma mkstr_null_ok E h len : 0 <= len ->
  runs grant E asks (js_mkstr_null grant junk len) h (fun d h' => zlen d = len).
Proof.
  intros Hlen. apply (runs_bind grant asks) with (P := fun b h' => b = false -> refused grant h h'); [apply request_runs|].
  intros [|] h1 H1 HP; cbn [negb].
  - apply (runs_ret grant asks). intros _. apply fresh_bytes_len. exact Hlen.
  - apply (runs_err grant asks). auto.
Qed.

(** The heap after each kind of update. *)
Lemma grows_new_flat h f :
  grows h (Heap (hp_flats h ++ [f]) (hp_ropes h) (hp_builders h) (hp_asked h)).
Proof.
  split; [cbn; lia|reflexivity|]. apply str_of_flats; [reflexivity|]. intros a f0 Ha Ho. cbn.
  exists f0. splits; auto. apply lookup_app_l_Some. exact Ha.
Qed.

Lemma grows_set_flat h a f f' : hp_flats h !! a = Some f ->
  (flat_ok f -> flat_ok f' /\ fl_bytes f' = fl_bytes f) ->
  grows h (Heap (<[a := f']> (hp_flats h)) (hp_ropes h) (hp_builders h) (hp_asked h)).
Proof.
  intros Ha Hf. split; [cbn; lia|reflexivity|]. apply str_of_flats; [reflexivity|]. intros b f0 Hb Ho. cbn.
  destruct (decide (a = b)) as [<-|Hne].
  - rewrite Ha in Hb. injection Hb as <-. exists f'. rewrite list_lookup_insert_eq by (eapply lookup_lt_Some; eassumption).
    destruct (Hf Ho). auto.
  - exists f0. rewrite list_lookup_insert_ne by exact Hne. auto.
Qed.

Lemma grows_new_rope h r :
  grows h (Heap (hp_flats h) (hp_ropes h ++ [r]) (hp_builders h) (hp_asked h)).
Proof.
  split; [cbn; lia|reflexivity|]. apply str_of_ropes; [reflexivity|]. intros a r0 s Ha Hs. cbn.
  exists r0. split; [apply lookup_app_l_Some; exact Ha|]. left. auto.
Qed.

Lemma grows_set_rope h a r r' s : hp_ropes h !! a = Some r -> str_of h (VRope a) s ->
  rope_refines h h r r' s ->
  grows h (Heap (hp_flats h) (<[a := r']> (hp_ropes h)) (hp_builders h) (hp_asked h)).
Proof.
  intros Ha Hs Href. split; [cbn; lia|reflexivity|]. apply str_of_ropes; [reflexivity|]. intros b r0 t Hb Ht. cbn.
  destruct (decide (a = b)) as [<-|Hne].
  - rewrite Ha in Hb. injection Hb as <-. exists r'. rewrite list_lookup_insert_eq by (eapply lookup_lt_Some; eassumption).
    rewrite (str_of_det _ _ _ Ht _ Hs). split; [reflexivity|exact Href].
  - exists r0. rewrite list_lookup_insert_ne by exact Hne. split; [exact Hb|]. left. auto.
Qed.

(** The metadata of a new string. *)
Lemma new_flat_ok s : scan_wf s = true -> zlen s < MAX_LEN ->
  flat_ok (str_flat_init_meta (Flat s 0) (str_detect_ascii_bytes s)).
Proof. intros Hw Hl. split; [apply (init_meta_ok (Flat s 0))|exact Hw|exact Hl]. Qed.

Lemma with_len_ok f n : flat_ok f -> n = zlen (wtf16 (fl_bytes f)) -> flat_ok (str_flat_set_utf16_len f n).
Proof.
  intros [Hm Hs Hl] ->. split; [|exact Hs|exact Hl]. apply set_len_ok; [exact Hm|].
  pose proof (wtf16_length_le (fl_bytes f)). unfold zlen, MAX_LEN in *. lia.
Qed.

Lemma cached_flat_ok s c : scan_wf s = true -> zlen s < MAX_LEN ->
  (forall n, c = VNum n -> n = zlen (wtf16 s)) ->
  let f := str_flat_init_meta (Flat s 0) (str_detect_ascii_bytes s) in
  let f' := match c with VNum n => str_flat_set_utf16_len f n | _ => f end in
  flat_ok f' /\ fl_bytes f' = s.
Proof.
  intros Hw Hl Hc f f'. pose proof (new_flat_ok s Hw Hl) as Hok.
  destruct c; try (split; [exact Hok|reflexivity]). split; [|reflexivity].
  apply with_len_ok; [exact Hok|]. apply Hc. reflexivity.
Qed.

(** ** Flattening a rope *)

Lemma rope_visit_ok h v s : str_of h v s ->
  (exists b f, rope_visit v h = Some (Ok (Copy (VFlat b)), h) /\ hp_flats h !! b = Some f /\ fl_bytes f = s) \/
  (exists l r s1 s2, rope_visit v h = Some (Ok (Descend l r), h) /\ str_of h l s1 /\ str_of h r s2 /\
     s = s1 ++ s2 /\ s1 <> [] /\ s2 <> []).
Proof.
  destruct 1 as [a f Ha Ho|a r s1 s2 Ha H1 H2 N1 N2 Hl Hb Hc|a r b f Ha Hc Hb Ho Hn Hl].
  - left. exists a, f. auto.
  - right. exists (rp_left r), (rp_right r), s1, s2. splits; auto.
    unfold rope_visit, bind, get_rope, of_option. rewrite Ha. destruct Hc as [-> | ->]; reflexivity.
  - left. exists b, f. splits; auto. unfold rope_visit, bind, get_rope, of_option. rewrite Ha, Hc. reflexivity.
Qed.

(** What is left of the current value, in front of what is copied. *)
Fixpoint before (ss : list (list Z)) : list Z :=
  match ss with [] => [] | s :: ss => before ss ++ s end.

(** The steps left: each part has fewer nodes than twice its bytes. *)
Fixpoint cost (ss : list (list Z)) : Z :=
  match ss with [] => 0 | s :: ss => 2 * zlen s - 1 + cost ss end.

Lemma cost_nonneg ss : Forall (fun s => s <> []) ss -> 0 <= cost ss.
Proof. induction 1 as [|s ss Hs _ IH]; cbn; [lia|]. pose proof (zlen_pos s Hs). lia. Qed.

Lemma flatten_loop_ok fuel : forall E h current stack cap junk1 s ss tl,
  str_of h current s -> s <> [] ->
  Forall2 (str_of h) stack ss -> Forall (fun s => s <> []) ss ->
  zlen junk1 = zlen (before ss ++ s) -> cost (s :: ss) < Z.of_nat fuel ->
  runs grant E asks (flatten_loop grant fuel current stack cap (zlen junk1) (junk1 ++ tl)) h
    (fun r h' => if r.1 then r.2 = before ss ++ s ++ tl else refused grant h h').
Proof.
  induction fuel as [|fuel IH]; intros E h current stack cap j s ss tl Hcur Hne Hst Hss Hj Hf.
  { exfalso. pose proof (cost_nonneg (s :: ss) ltac:(constructor; assumption)). lia. }
  cbn [flatten_loop].
  destruct (rope_visit_ok _ _ _ Hcur) as [(b & f & Ev & Hb & Es)|(l & r & s1 & s2 & Ev & H1 & H2 & -> & N1 & N2)];
    (eapply runs_step; [exact Ev|]); cbv beta iota.
  - assert (Ea : assert_flat_string (VFlat b) h = Some (Ok s, h)).
    { cbn. unfold bind, get_flat, of_option. rewrite Hb, Es. reflexivity. }
    eapply runs_step; [exact Ea|]. cbv beta. rewrite zlen_app in Hj. pose proof (zlen_nonneg (before ss)).
    destruct (Z.ltb_spec (zlen j) (zlen s)); [lia|].
    set (j1 := take (length (before ss)) j). set (j2 := drop (length (before ss)) j).
    assert (Ej : j = j1 ++ j2) by (symmetry; apply take_drop).
    assert (Hj1 : zlen j1 = zlen (before ss)) by (unfold j1, zlen in *; rewrite length_take; lia).
    assert (Hj2 : zlen j2 = zlen s) by (rewrite Ej, zlen_app in Hj; lia).
    replace (zlen j - zlen s) with (zlen j1) by lia. rewrite Ej, <- app_assoc, (memcpy_ok j1 j2 tl s Hj2).
    eapply runs_step; [reflexivity|]. cbv beta.
    destruct Hst as [|v s' stack ss Hv Hst].
    + apply (runs_ret grant asks). change (zlen (before [])) with 0 in Hj1.
      clearbody j1 j2. rewrite Hj1. apply zlen_zero in Hj1. subst j1. reflexivity.
    + apply Forall_cons in Hss as [Hs' Hss]. eapply runs_post; [apply (IH E h v stack cap j1 s' ss (s ++ tl))|]; auto.
      * pose proof (zlen_pos s Hne). cbn [cost] in *. lia.
      * intros [ok d] h' _. cbn [fst snd before]. destruct ok; [|auto]. rewrite <- !app_assoc. auto.
  - unfold stack_push. eapply (runs_bind grant asks) with
      (P := fun r h' => match r with Some (st, c) => st = l :: stack | None => refused grant h h' end).
    { destruct (Z.of_nat (length stack) =? cap); [|apply (runs_ret grant asks); reflexivity].
      eapply (runs_bind grant asks); [apply request_runs|]. intros [|] h1 H3 Hr; apply (runs_ret grant asks); auto. }
    intros [[st c]|] h1 H3 Hp; [subst st|apply (runs_ret grant asks); intros _; exact Hp].
    pose proof (asks_str _ _ H3) as Hmono.
    eapply runs_post; [apply (IH _ h1 r (l :: stack) c j s2 (s1 :: ss) tl)|]; auto.
    + constructor; [auto|]. eapply Forall2_impl; [exact Hst|]. auto.
    + cbn [before]. rewrite <- app_assoc. exact Hj.
    + cbn [cost] in *. rewrite zlen_app in Hf. lia.
    + intros [ok d] h' Ha. cbn [fst snd before]. destruct ok; [rewrite <- !app_assoc; auto|].
      intros Href _. eapply refused_mono; [|apply Nat.le_refl|exact Href]. apply H3.
Qed.
End steps.

Section ropes.
Context (grant : nat -> bool) (junk : Z).

Lemma flat_mono h h' v s : grows h h' -> flat_of h v s -> flat_of h' v s.
Proof. intros Hg [Hv Hs]. split; [exact Hv|]. apply (gr_str _ _ Hg). exact Hs. Qed.

Lemma get_rope_ok h a r : hp_ropes h !! a = Some r -> get_rope a h = Some (Ok r, h).
Proof. intros Ha. unfold get_rope, of_option. rewrite Ha. reflexivity. Qed.

Lemma asks_runs {A} E (m : M A) h Q : runs grant E asks m h Q -> runs grant E grows m h (fun a h' => asks h h' /\ Q a h').
Proof.
  unfold runs. destruct (m h) as [[[a|e msg] h1]|]; [| |auto].
  - intros [H HQ]. split; [apply asks_grows; exact H|]. auto.
  - intros (H & HE). split; [apply asks_grows; exact H|exact HE].
Qed.

(** A new flat string with these bytes. *)
Lemma new_flat_runs E h f : flat_ok f -> runs grant E grows (new_flat f) h (fun v h' => hp_ropes h' = hp_ropes h /\
  flat_of h' v (fl_bytes f)).
Proof.
  intros Hf. split; [apply grows_new_flat|]. split; [reflexivity|]. split; [eauto|].
  constructor; [|exact Hf]. cbn. rewrite lookup_app_r, Nat.sub_diag by lia. reflexivity.
Qed.

Lemma mkstr_ok E h s : scan_wf s = true -> zlen s < MAX_LEN ->
  runs grant E grows (js_mkstr grant s) h (fun v h' => flat_of h' v s).
Proof.
  intros Hw Hl. eapply (runs_bind grant grows); [apply asks_runs, request_runs|].
  intros [|] h1 Hg [Ha Href]; cbn [negb]; [|apply (runs_err grant grows); auto].
  eapply (runs_post grant grows); [apply new_flat_runs, new_flat_ok; assumption|]. intros v h' _ [_ Hv] _. exact Hv.
Qed.

Lemma canonicalize_ok E h a r v s : hp_ropes h !! a = Some r -> str_of h (VRope a) s -> flat_of h v s -> rp_len r = zlen s ->
  runs grant E grows (rope_canonicalize_flat a v) h (fun _ h' => flat_of h' v s).
Proof.
  intros Ha Hs [[b ->] Hv] Hl.
  assert (Hg : grows h (Heap (hp_flats h) (<[a := Rope (rp_len r) 0 VUndef VUndef (VFlat b)]> (hp_ropes h)) (hp_builders h) (hp_asked h))).
  { eapply grows_set_rope; [exact Ha|exact Hs|]. right. inversion Hv; subst. eauto 10. }
  unfold rope_canonicalize_flat. eapply runs_step; [apply get_rope_ok; exact Ha|]. split; [exact Hg|].
  apply (flat_mono _ _ _ _ Hg). split; eauto.
Qed.

Lemma rope_flatten_into_ok E h v s d : str_of h v s -> s <> [] -> zlen d = zlen s ->
  runs grant E asks (rope_flatten_into grant v d (zlen s)) h (fun r h' => if r.1 then r.2 = s else refused grant h h').
Proof.
  intros Hs Hne Hd. unfold rope_flatten_into.
  pose proof (flatten_loop_ok grant (Z.to_nat (2 * zlen s)) E h v [] 32 d s [] [] Hs Hne) as H.
  rewrite app_nil_r in H. cbn [before app] in H. rewrite app_nil_r, <- Hd in H. rewrite <- Hd. apply H; auto.
  cbn [cost]. pose proof (zlen_pos s Hne). lia.
Qed.

Lemma rope_flatten_ok E h v s : str_of h v s ->
  runs grant E grows (rope_flatten grant junk v) h (fun fl h' => flat_of h' fl s).
Proof.
  intros Hs. pose proof (str_of_facts _ _ _ Hs) as (Hw & Hlt & _). pose proof Hs as Hs0.
  destruct Hs as [a f Ha Ho|a r s1 s2 Ha H1 H2 N1 N2 Hl Hb Hc|a r b f Ha Hc Hb Ho Hn Hl]; cbn [rope_flatten].
  - apply (runs_ret grant grows). split; [eauto|exact Hs0].
  - set (s := s1 ++ s2) in *. assert (Hne : s <> []) by (unfold s; destruct s1; [congruence|discriminate]).
    eapply runs_step; [apply get_rope_ok; exact Ha|]. cbv beta.
    replace (is_str (rp_cached r)) with false by (destruct Hc as [-> | ->]; reflexivity). cbn [andb].
    eapply (runs_bind grant grows); [apply asks_runs, mkstr_null_ok; rewrite Hl; apply zlen_nonneg|].
    intros d h1 Hg1 [Ha1 Hd]. pose proof (asks_str _ _ Ha1 _ _ Hs0) as Hs1.
    eapply (runs_bind grant grows).
    { rewrite Hl. apply asks_runs, rope_flatten_into_ok; [exact Hs1|exact Hne|lia]. }
    intros [[|] bytes] h2 Hg2 [Ha2 Hbytes]; cbn [fst snd negb] in *; [subst bytes|apply (runs_err grant grows); auto].
    destruct (cached_flat_ok s (rp_cached r) Hw Hlt) as [Hok Hfb]; [intros n En; destruct Hc; congruence|].
    eapply (runs_bind grant grows); [apply new_flat_runs, Hok|]. rewrite Hfb. intros fl h3 Hg3 [Er3 Hfl].
    eapply (runs_bind grant grows).
    { apply canonicalize_ok with (r := r) (s := s); auto.
      - rewrite Er3. destruct Ha1 as (_ & Er1 & _), Ha2 as (_ & Er2 & _). congruence.
      - apply (gr_str _ _ Hg3), (gr_str _ _ Hg2). exact Hs1. }
    intros [] h4 Hg4 Hfl4. apply (runs_ret grant grows). auto.
  - eapply runs_step; [apply get_rope_ok; exact Ha|]. cbv beta. rewrite Hc. cbn [is_str str_is_heap_rope andb negb].
    apply (runs_ret grant grows). split; [eauto|]. constructor; assumption.
Qed.

(** ** The bytes and the lengths of a string *)

Lemma materialize_ok E h v s fuel : str_of h v s ->
  runs grant E grows (materialize grant junk fuel v) h (fun fl h' => flat_of h' fl s).
Proof.
  intros Hs. destruct (str_of_facts _ _ _ Hs) as (_ & _ & Hi & Hb & _). destruct v; try discriminate; destruct fuel; cbn [materialize].
  1, 2: apply (runs_ret grant grows); split; eauto.
  all: apply rope_flatten_ok; exact Hs.
Qed.

Lemma str_len_fast_ok h v s : str_of h v s -> str_len_fast v h = Some (Ok (zlen s), h).
Proof.
  intros [a f Ha Ho|a r s1 s2 Ha H1 H2 N1 N2 Hl Hb Hc|a r b f Ha Hc Hb Ho Hn Hl];
    cbn; unfold bind, get_flat, get_rope, of_option; rewrite Ha; unfold ret; congruence.
Qed.

Lemma flat_len_run h a s : str_of h (VFlat a) s ->
  exists h', flat_utf16_len_at a h = Some (Ok (zlen (wtf16 s)), h') /\ grows h h' /\ hp_ropes h' = hp_ropes h.
Proof.
  intros Hs. inversion Hs as [a' f Ha Ho| |]; subst. unfold flat_utf16_len_at, bind, get_flat, of_option. rewrite Ha.
  pose proof (fo_len _ Ho) as Hl. unfold zlen, MAX_LEN in Hl.
  pose proof (flat_utf16_len_spec f (fo_meta _ Ho) (fo_scan _ Ho) ltac:(lia)) as H.
  destruct (flat_utf16_len f) as [n f']. destruct H as (-> & Hb & Hm). cbn.
  eexists. split; [reflexivity|]. split; [|reflexivity]. apply grows_set_flat with (f := f); [exact Ha|]. intros _.
  split; [|exact Hb]. split; rewrite ?Hb; [exact Hm|apply Ho|apply Ho].
Qed.

Lemma flat_utf16_len_at_ok E h a s : str_of h (VFlat a) s ->
  runs grant E grows (flat_utf16_len_at a) h (fun n h' => n = zlen (wtf16 s) /\ hp_ropes h' = hp_ropes h).
Proof.
  intros Hs. destruct (flat_len_run h a s Hs) as (h' & Er & Hg & Hr). unfold runs. rewrite Er. auto.
Qed.
End ropes.

(** ** The UTF-16 length of a string *)

Section measuring.
Context (grant : nat -> bool) (junk : Z).

(** Measuring fills in numbers and leaves the shape of ropes alone. *)
Definition measures (h h' : heap) : Prop :=
  grows h h' /\
  forall a r, hp_ropes h !! a = Some r -> exists r', hp_ropes h' !! a = Some r' /\
    rp_left r' = rp_left r /\ rp_right r' = rp_right r /\ rp_len r' = rp_len r /\
    (rp_cached r' = rp_cached r \/ is_str (rp_cached r') = false).

#[local] Instance measures_effect : Effect measures.
Proof.
  split.
  - intros h. split; [apply eff_refl|]. intros a r Ha. exists r. auto 10.
  - intros h1 h2 h3 [G1 H1] [G2 H2]. split; [eapply eff_trans; eassumption|]. intros a r Ha.
    destruct (H1 _ _ Ha) as (r2 & Ha2 & L2 & R2 & N2 & C2). destruct (H2 _ _ Ha2) as (r3 & Ha3 & L3 & R3 & N3 & C3).
    exists r3. splits; try congruence. destruct C3 as [C3|C3]; [|auto]. destruct C2 as [C2|C2]; [left|right]; congruence.
  - intros h h' [G _]. apply G.
Qed.

(** An earlier or a later refusal. *)
Lemma excuse_chain (E : Prop) h h1 h2 : (hp_asked h <= hp_asked h1 <= hp_asked h2)%nat ->
  (E \/ refused grant h h1) \/ refused grant h1 h2 -> E \/ refused grant h h2.
Proof. intros Hk [[?|H]|H]; [auto|right|right]; eapply refused_mono; try exact H; lia. Qed.

Lemma catch_ok {A} E R `{!Effect R} (m : M A) h Q : runs grant E R m h Q ->
  runs grant E R (catch m) h (fun r h' => match r with Ok a => Q a h' | Err _ _ => E \/ refused grant h h' end).
Proof. unfold runs, catch. destruct (m h) as [[[a|e msg] h1]|]; tauto. Qed.

(** A length, or 0 after a refusal. *)
Definition len_or_zero (E : Prop) (h : heap) (s : list Z) (n : Z) (h' : heap) : Prop :=
  n = zlen (wtf16 s) \/ (n = 0 /\ (E \/ refused grant h h')).

Lemma len_or_zero_chain E h h1 h' s n : (hp_asked h <= hp_asked h1)%nat -> (hp_asked h1 <= hp_asked h')%nat ->
  len_or_zero (E \/ refused grant h h1) h1 s n h' -> len_or_zero E h s n h'.
Proof.
  intros H1 H2 [Hn|[Hn Hx]]; [left; exact Hn|right]. split; [exact Hn|]. eapply excuse_chain; [|exact Hx]. lia.
Qed.

Lemma flattened_utf16_len_ok E h root s : str_of h root s ->
  runs grant E grows (flattened_utf16_len grant junk root) h (len_or_zero E h s).
Proof.
  intros Hs. eapply (runs_bind grant grows); [apply catch_ok; [exact _|]; apply rope_flatten_ok; exact Hs|].
  intros [fl|k msg] h1 H1 Hp.
  - destruct Hp as [[b ->] Hb]. eapply (runs_post grant grows); [apply flat_utf16_len_at_ok; exact Hb|].
    intros n h' _ [-> _] _. left. reflexivity.
  - apply (runs_ret grant grows). intros _. right. auto.
Qed.

(** The ropes being measured.  The current string is the left part of the
    innermost one, or the right part of one whose left part is measured; [s] is
    the current string, [t] that of the root, [c] bounds the steps still to do
    in the right parts. *)
Inductive frames_ok (h : heap) : list rope_utf16_frame_t -> list Z -> list Z -> Z -> Prop :=
| frames_nil s : frames_ok h [] s s 0
| frames_left a r rest s s2 t c : hp_ropes h !! a = Some r -> str_of h (VRope a) (s ++ s2) ->
    is_str (rp_cached r) = false -> str_of h (rp_right r) s2 -> s2 <> [] ->
    frames_ok h rest (s ++ s2) t c ->
    frames_ok h (Frame a STR_UTF16_LEN_UNKNOWN :: rest) s t (2 * zlen s2 - 1 + c)
| frames_right a r rest s1 s t c : hp_ropes h !! a = Some r -> str_of h (VRope a) (s1 ++ s) ->
    is_str (rp_cached r) = false -> scan_wf s1 = true -> frames_ok h rest (s1 ++ s) t c ->
    frames_ok h (Frame a (zlen (wtf16 s1)) :: rest) s t c.

Lemma frames_mono h h' frames s t c : measures h h' -> frames_ok h frames s t c -> frames_ok h' frames s t c.
Proof.
  intros [[_ _ Hg] Hm]. assert (Hcase : forall a r, hp_ropes h !! a = Some r -> is_str (rp_cached r) = false ->
    exists r', hp_ropes h' !! a = Some r' /\ rp_right r' = rp_right r /\ is_str (rp_cached r') = false).
  { intros a r Ha Hc. destruct (Hm _ _ Ha) as (r' & Ha' & _ & Er & _ & [Ec|Ec]); exists r'; splits; auto. congruence. }
  induction 1 as [s|a r rest s s2 t c Ha Hs Hc H2 N2 _ IH|a r rest s1 s t c Ha Hs Hc Hw1 _ IH]; [constructor| |];
    destruct (Hcase _ _ Ha Hc) as (r' & Ha' & Er & Hc').
  - apply frames_left with r'; auto. rewrite Er. auto.
  - apply frames_right with r'; auto.
Qed.

(** A rope that learns its length. *)
Lemma measures_set h a r s : hp_ropes h !! a = Some r -> str_of h (VRope a) s -> is_str (rp_cached r) = false ->
  measures h (Heap (hp_flats h) (<[a := Rope (rp_len r) (rp_depth r) (rp_left r) (rp_right r) (tov_int (zlen (wtf16 s)))]> (hp_ropes h))
                (hp_builders h) (hp_asked h)).
Proof.
  intros Ha Hs Hc. destruct (str_of_facts _ _ _ Hs) as (_ & Hlt & _). pose proof (zlen_wtf16 s). unfold MAX_LEN in Hlt.
  unfold tov_int. rewrite round53_small by lia. split.
  - eapply grows_set_rope; [exact Ha|exact Hs|]. left. cbn. splits; auto.
  - intros b r0 Hb. cbn. destruct (decide (a = b)) as [<-|Hne].
    + rewrite Ha in Hb. injection Hb as <-. eexists. rewrite list_lookup_insert_eq by (eapply lookup_lt_Some; eassumption). cbn. splits; auto.
    + exists r0. rewrite list_lookup_insert_ne by exact Hne. splits; auto.
Qed.

Lemma unwind_ok frames : forall E h s t c, frames_ok h frames s t c -> scan_wf s = true -> zlen s < MAX_LEN ->
  runs grant E measures (unwind (zlen (wtf16 s)) frames) h (fun p h' =>
    match p.2 with
    | None => p.1 = zlen (wtf16 t)
    | Some (cur, fr) => exists s' c', str_of h' cur s' /\ s' <> [] /\ frames_ok h' fr s' t c' /\ 2 * zlen s' - 1 + c' = c
    end).
Proof.
  induction frames as [|fr frames IH]; intros E h s t c Hf Hws Hlt; inversion Hf; subst; cbn [unwind fr_rope fr_left_len].
  - apply (runs_ret grant measures). reflexivity.
  - eapply runs_step; [apply get_rope_ok; eassumption|]. cbv beta. rewrite Z.eqb_refl.
    apply (runs_ret grant measures). exists s2, c0. splits; auto. apply frames_right with r; auto.
  - eapply runs_step; [apply get_rope_ok; eassumption|]. cbv beta.
    match goal with H : str_of h (VRope a) _ |- _ => rename H into Hs end.
    pose proof (str_of_facts _ _ _ Hs) as (Hw & Hl & _). pose proof (zlen_wtf16 s1) as B1. pose proof (zlen_wtf16 s) as B2.
    pose proof (zlen_nonneg s). rewrite zlen_app in Hl. unfold MAX_LEN in Hl, Hlt.
    destruct (Z.eqb_spec (zlen (wtf16 s1)) STR_UTF16_LEN_UNKNOWN) as [Eu|_].
    { exfalso. change STR_UTF16_LEN_UNKNOWN with (2 ^ 56 - 1) in Eu. lia. }
    assert (Hsum : u64 (zlen (wtf16 s) + zlen (wtf16 s1)) = zlen (wtf16 (s1 ++ s))).
    { rewrite wrap_small by lia. rewrite wtf16_app by assumption. rewrite zlen_app. lia. }
    rewrite Hsum. eapply (runs_bind grant measures) with (P := fun _ h' => frames_ok h' frames (s1 ++ s) t c).
    { pose proof (measures_set h a r (s1 ++ s) ltac:(assumption) Hs ltac:(assumption)) as Hm.
      split; [exact Hm|]. eapply frames_mono; eassumption. }
    intros [] h1 Hm1 Hf1. eapply (runs_post grant measures); [apply IH; [exact Hf1|exact Hw|]|].
    { rewrite zlen_app. unfold MAX_LEN. lia. }
    intros p h' _ Hp _. exact Hp.
Qed.

Lemma flat_measures E h a s : str_of h (VFlat a) s ->
  runs grant E measures (flat_utf16_len_at a) h (fun n _ => n = zlen (wtf16 s)).
Proof.
  intros Hs. destruct (flat_len_run h a s Hs) as (h' & Er & Hg & Hr). unfold runs. rewrite Er. split; [|reflexivity].
  split; [exact Hg|]. intros b r Hb. rewrite Hr. exists r. splits; auto.
Qed.

Ltac asked := repeat match goal with H : grows _ _ |- _ => apply gr_asked in H end; lia.
Ltac zero_twice Hx :=
  eapply len_or_zero_chain; [| |eapply len_or_zero_chain; [| |exact Hx]]; asked.

Section loop.
Context (rec : val -> M Z)
  (Hrec : forall E h a s, str_of h (VFlat a) s -> runs grant E measures (rec (VFlat a)) h (fun n _ => n = zlen (wtf16 s))).

Lemma measured_ok E h v s : str_of h v s ->
  runs grant E measures (measured rec v) h (fun known h' =>
    match known with
    | Some n => n = zlen (wtf16 s)
    | None => h' = h /\ exists a r s1 s2, v = VRope a /\ hp_ropes h !! a = Some r /\ is_str (rp_cached r) = false /\
        s = s1 ++ s2 /\ str_of h (rp_left r) s1 /\ str_of h (rp_right r) s2 /\ s1 <> [] /\ s2 <> []
    end).
Proof using Hrec.
  intros [a f Ha Ho|a r s1 s2 Ha H1 H2 N1 N2 Hl Hb Hc|a r b f Ha Hc Hb Ho Hn Hl]; cbn [measured].
  - eapply (runs_bind grant measures); [apply Hrec; constructor; eassumption|]. intros n h1 _ ->.
    apply (runs_ret grant measures). auto.
  - eapply runs_step; [apply get_rope_ok; exact Ha|]. cbv beta. destruct Hc as [Hc|Hc]; rewrite Hc; cbn [is_str].
    + apply (runs_ret grant measures). split; [reflexivity|]. exists a, r, s1, s2. rewrite Hc. splits; auto.
    + apply (runs_ret grant measures). reflexivity.
  - eapply runs_step; [apply get_rope_ok; exact Ha|]. cbv beta. rewrite Hc. cbn [is_str].
    eapply (runs_bind grant measures); [apply Hrec; constructor; eassumption|]. intros n h1 _ ->.
    apply (runs_ret grant measures). auto.
Qed.

Lemma measures_runs {A} E (m : M A) h Q : runs grant E measures m h Q ->
  runs grant E grows m h (fun a h' => measures h h' /\ Q a h').
Proof.
  unfold runs. destruct (m h) as [[[a|e msg] h1]|]; [| |auto].
  - intros [H HQ]. split; [apply H|]. auto.
  - intros (H & HE). split; [apply H|exact HE].
Qed.

Lemma asks_measures h h' : asks h h' -> measures h h'.
Proof.
  intros Ha. split; [apply asks_grows; exact Ha|]. destruct Ha as (_ & Er & _). intros a r Hr. rewrite Er. exists r. splits; auto.
Qed.

Lemma measure_loop_ok root t fuel : forall E h v s frames c cap,
  str_of h v s -> s <> [] -> frames_ok h frames s t c -> str_of h root t -> 2 * zlen s - 1 + c < Z.of_nat fuel ->
  runs grant E grows (measure_loop grant junk rec root fuel v frames cap) h (len_or_zero E h t).
Proof using Hrec.
  induction fuel as [|fuel IH]; intros E h v s frames c cap Hs Hne Hf Ht Hfuel.
  { exfalso. pose proof (zlen_pos s Hne). assert (0 <= c); [|lia]. clear -Hf.
    induction Hf as [| ? ? ? ? s2 ? ? ? ? ? ? N2 ? IH|]; [lia| |assumption]. pose proof (zlen_pos s2 N2). lia. }
  cbn [measure_loop]. destruct (str_of_facts _ _ _ Hs) as (Hw & Hlt & _).
  eapply (runs_bind grant grows); [apply measures_runs, measured_ok; exact Hs|].
  intros known h1 Hg1 [Hm1 Hk]. destruct known as [n|].
  - subst n. eapply (runs_bind grant grows).
    { apply measures_runs, unwind_ok; [eapply frames_mono; eassumption|exact Hw|exact Hlt]. }
    intros [n [[v' fr]|]] h2 Hg2 [Hm2 Hp]; cbn [fst snd] in Hp.
    + destruct Hp as (s' & c' & Hs' & N' & Hf' & <-).
      eapply (runs_post grant grows); [apply IH with (s := s') (c := c'); auto|].
      * apply (gr_str _ _ Hg2), (gr_str _ _ Hg1). exact Ht.
      * pose proof (zlen_pos s Hne). lia.
      * intros n' h3 Hg3 Hx _ _. zero_twice Hx.
    + apply (runs_ret grant grows). intros _ _. left. exact Hp.
  - destruct Hk as (-> & a & r & s1 & s2 & -> & Ha & Hc & -> & H1 & H2 & N1 & N2).
    eapply (runs_bind grant grows) with (P := fun cap h' => asks h h' /\ (cap = None -> refused grant h h')).
    { apply asks_runs. destruct (Z.of_nat (length frames) =? cap).
      - eapply (runs_bind grant asks); [apply request_runs|]. intros b h2 _ Hb. apply (runs_ret grant asks).
        intros Ha2. destruct b; [discriminate|]. auto.
      - apply (runs_ret grant asks). discriminate. }
    intros ncap h2 Hg2 [Ha2 Href]. pose proof (asks_measures _ _ Ha2) as Hm2. destruct ncap as [ncap|].
    + eapply runs_step; [apply get_rope_ok; destruct Ha2 as (_ & -> & _); exact Ha|].
      eapply (runs_post grant grows).
      { apply IH with (s := s1) (c := 2 * zlen s2 - 1 + c).
        - apply (gr_str _ _ Hg2). exact H1.
        - exact N1.
        - apply (frames_mono h); [exact Hm2|]. apply frames_left with r; auto.
        - apply (gr_str _ _ Hg2). exact Ht.
        - rewrite zlen_app in Hfuel. lia. }
      intros n' h3 Hg3 Hx _ _. zero_twice Hx.
    + eapply (runs_post grant grows); [apply flattened_utf16_len_ok, (gr_str _ _ Hg2); exact Ht|].
      intros n' h3 Hg3 Hx _ _. zero_twice Hx.
Qed.
End loop.
End measuring.

(** ** Length, concatenation and comparison *)

Section strings.
Context (grant : nat -> bool) (junk : Z).

Lemma rope_utf16_len_lazy_ok E h rec a r s :
  (forall E h a s, str_of h (VFlat a) s -> runs grant E measures (rec (VFlat a)) h (fun n _ => n = zlen (wtf16 s))) ->
  hp_ropes h !! a = Some r -> rp_len r = zlen s -> str_of h (VRope a) s ->
  runs grant E grows (rope_utf16_len_lazy grant junk rec a) h (len_or_zero grant E h s).
Proof.
  intros Hrec Ha Hl Hs. unfold rope_utf16_len_lazy. eapply runs_step; [apply get_rope_ok; exact Ha|]. cbv beta.
  destruct (rp_depth r =? ANT_ROPE_DEPTH_SATURATED); [apply flattened_utf16_len_ok; exact Hs|].
  destruct (str_of_facts _ _ _ Hs) as (_ & _ & _ & _ & Hne). rewrite Hl.
  apply measure_loop_ok with (s := s) (c := 0); auto; [constructor|]. pose proof (zlen_nonneg s). lia.
Qed.

Lemma utf16_len_ok E h v s fuel : (2 <= fuel)%nat -> str_of h v s ->
  runs grant E grows (utf16_len grant junk fuel v) h (len_or_zero grant E h s).
Proof.
  intros Hfuel Hs. destruct fuel as [|[|fuel]]; try lia. clear Hfuel.
  assert (Hflat : forall n E h a s, str_of h (VFlat a) s ->
    runs grant E measures (utf16_len grant junk (S n) (VFlat a)) h (fun n _ => n = zlen (wtf16 s)))
    by (intros; apply flat_measures; assumption).
  assert (Hweak : forall b, str_of h (VFlat b) s -> forall n, runs grant E grows (utf16_len grant junk (S n) (VFlat b)) h (len_or_zero grant E h s)).
  { intros b Hb n. eapply (runs_post grant grows); [apply measures_runs, Hflat; exact Hb|]. intros m h' _ [_ ->]. left. reflexivity. }
  pose proof Hs as Hs0. destruct Hs as [a f Ha Ho|a r s1 s2 Ha H1 H2 N1 N2 Hl Hb Hc|a r b f Ha Hc Hb Ho Hn Hl].
  - apply Hweak. exact Hs0.
  - remember (S fuel) as n. cbn [utf16_len]. eapply runs_step; [apply get_rope_ok; exact Ha|]. cbv beta.
    destruct Hc as [-> | ->]; cbn [is_str].
    + apply rope_utf16_len_lazy_ok with (r := r); auto. subst n. intros. apply Hflat. assumption.
    + apply (runs_ret grant grows). left. reflexivity.
  - remember (S fuel) as n. cbn [utf16_len]. eapply runs_step; [apply get_rope_ok; exact Ha|]. cbv beta. rewrite Hc. cbn [is_str].
    subst n. apply Hweak. constructor; assumption.
Qed.

Lemma mkrope_ok E h l r s1 s2 depth : str_of h l s1 -> str_of h r s2 -> s1 <> [] -> s2 <> [] -> zlen (s1 ++ s2) < MAX_LEN ->
  runs grant E grows (js_mkrope grant l r (zlen (s1 ++ s2)) depth) h (fun v h' => str_of h' v (s1 ++ s2)).
Proof.
  intros H1 H2 N1 N2 Hlt. eapply (runs_bind grant grows); [apply asks_runs, request_runs|].
  intros [|] h1 Hg [Ha Href]; cbn [negb]; [|apply (runs_err grant grows); auto].
  pose proof (grows_new_rope h1 (Rope (zlen (s1 ++ s2)) depth l r VUndef)) as Hg2. split; [exact Hg2|]. intros _.
  pose proof (gr_str _ _ Hg2) as Hm2. pose proof (gr_str _ _ Hg) as Hm1.
  eapply str_node; cbn [hp_ropes rp_left rp_right rp_len rp_cached]; [rewrite lookup_app_r, Nat.sub_diag by lia; reflexivity|..];
    cbn [rp_left rp_right rp_len rp_cached]; auto.
Qed.

Lemma rope_depth_ok h v s : str_of h v s -> exists d, rope_depth v h = Some (Ok d, h).
Proof.
  intros [a f Ha Ho|a r s1 s2 Ha H1 H2 N1 N2 Hl Hb Hc|a r b f Ha Hc Hb Ho Hn Hl];
    cbn; unfold bind, get_rope, of_option; rewrite ?Ha; unfold ret; eauto.
Qed.

Lemma flat_of_not_rope h v s : str_of h v s -> str_is_heap_rope v = false -> flat_of h v s.
Proof.
  intros Hs Hr. split; [|exact Hs]. destruct (str_of_facts _ _ _ Hs) as (_ & _ & Hi & Hb & _). destruct v; try discriminate; eauto.
Qed.

Lemma concat_strings_ok E h l r s1 s2 : str_of h l s1 -> str_of h r s2 -> zlen (s1 ++ s2) < MAX_LEN ->
  runs grant E grows (concat_strings grant junk l r) h (fun v h' => str_of h' v (s1 ++ s2)).
Proof.
  intros H1 H2 Hlt. unfold concat_strings.
  destruct (str_of_facts _ _ _ H1) as (W1 & _). destruct (str_of_facts _ _ _ H2) as (W2 & _).
  eapply runs_step; [apply str_len_fast_ok; exact H1|]. cbv beta. eapply runs_step; [apply str_len_fast_ok; exact H2|]. cbv beta zeta.
  pose proof (zlen_nonneg s1). pose proof (zlen_nonneg s2). rewrite <- zlen_app, wrap_small by (unfold MAX_LEN in Hlt; rewrite zlen_app in *; lia).
  destruct (Z.eqb_spec (zlen s2) 0) as [E2|N2]; [|destruct (Z.eqb_spec (zlen s1) 0) as [E1|N1]].
  - apply zlen_zero in E2. subst s2. rewrite app_nil_r. apply (runs_ret grant grows). exact H1.
  - apply zlen_zero in E1. subst s1. apply (runs_ret grant grows). exact H2.
  - assert (s1 <> []) by (intros ->; apply N1; reflexivity). assert (s2 <> []) by (intros ->; apply N2; reflexivity).
    destruct ((zlen (s1 ++ s2) <? STR_SHORT_CONS_THRESHOLD) && negb (str_is_heap_rope l) && negb (str_is_heap_rope r)) eqn:Es.
    + boolprop. eapply (runs_bind grant grows); [apply asks_runs, mkstr_null_ok; rewrite zlen_app; lia|].
      intros d h1 Hg1 [Ha Hd].
      eapply runs_step; [apply flat_of_string, (flat_mono _ _ _ _ Hg1), flat_of_not_rope; eassumption|]. cbv beta.
      eapply runs_step; [apply flat_of_string, (flat_mono _ _ _ _ Hg1), flat_of_not_rope; eassumption|]. cbv beta.
      rewrite zlen_app in Hd. destruct (memcpy_first d s1 ltac:(lia)) as (rest & -> & Hrest).
      eapply runs_step; [reflexivity|]. cbv beta.
      destruct (memcpy_next s1 rest s2 ltac:(lia)) as (rest' & -> & Hrest').
      rewrite (zlen_zero rest') by lia. rewrite app_nil_r. eapply runs_step; [reflexivity|]. cbv beta.
      eapply (runs_post grant grows); [apply new_flat_runs, new_flat_ok; [apply scan_wf_app; assumption|exact Hlt]|].
      intros v h' _ [_ [_ Hv]] _. exact Hv.
    + destruct (rope_depth_ok _ _ _ H1) as [d1 D1], (rope_depth_ok _ _ _ H2) as [d2 D2].
      eapply runs_step; [exact D1|]. eapply runs_step; [exact D2|]. cbv beta zeta.
      apply mkrope_ok; assumption.
Qed.

Lemma string_plus_ok E h l r s1 s2 : str_of h l s1 -> str_of h r s2 -> zlen (s1 ++ s2) < MAX_LEN ->
  runs grant E grows (string_plus grant junk l r) h (fun v h' => str_of h' v (s1 ++ s2)).
Proof.
  intros H1 H2 Hlt. unfold string_plus.
  destruct (str_of_facts _ _ _ H1) as (_ & _ & _ & -> & _). destruct (str_of_facts _ _ _ H2) as (_ & _ & _ & -> & _).
  do 2 (eapply runs_step; [reflexivity|]; cbv beta). apply concat_strings_ok; assumption.
Qed.

(** A run that is refused nothing. *)
Lemma vstr_ok E h v s : (forall k, grant k = true) -> str_of h v s ->
  runs grant E grows (vstr grant junk v) h (fun b _ => b = s).
Proof.
  intros Hg Hs. unfold vstr. destruct (str_of_facts _ _ _ Hs) as (_ & _ & _ & Hb & _). rewrite Hb, orb_false_r.
  destruct (str_is_heap_rope v) eqn:Hr.
  - pose proof (materialize_ok grant junk False h v s 1 Hs) as Hm. unfold str_materialize.
    unfold runs, bind, catch in *. destruct (materialize _ _ _ _ _) as [[[fl|k msg] h1]|]; [| |exact Hm].
    + destruct Hm as [G1 Hfl]. cbn. rewrite (flat_of_string _ _ _ Hfl). auto.
    + destruct Hm as (_ & _ & [[]|(k' & _ & Hk)]). congruence.
  - eapply runs_step; [reflexivity|]. cbv beta. unfold runs.
    rewrite (flat_of_string _ _ _ (flat_of_not_rope _ _ _ Hs Hr)). split; [apply eff_refl|reflexivity].
Qed.

End strings.

(** The order of two byte strings. *)
Fixpoint bytes_compare (a b : list Z) : comparison :=
  match a, b with
  | [], [] => Eq
  | [], _ => Lt
  | _, [] => Gt
  | x :: a, y :: b => match x ?= y with Eq => bytes_compare a b | c => c end
  end.

Definition compare_spec (op : string_op) (c : comparison) : bool :=
  match op, c with
  | TOK_EQ, Eq | TOK_LE, Eq | TOK_GE, Eq => true
  | TOK_NE, Lt | TOK_NE, Gt => true
  | TOK_LT, Lt | TOK_LE, Lt | TOK_GT, Gt | TOK_GE, Gt => true
  | _, _ => false
  end.

Lemma bytes_compare_eq a b : bytes_compare a b = Eq <-> a = b.
Proof.
  revert b. induction a as [|x a IH]; intros [|y b]; cbn; try (split; congruence).
  destruct (Z.compare_spec x y) as [->|Hlt|Hlt]; [rewrite IH; split; congruence| |]; split; try discriminate; intros [= ? ?]; lia.
Qed.

Definition sign_of (c : comparison) : Z := match c with Eq => 0 | Lt => -1 | Gt => 1 end.

Lemma memcmp_sign a : forall b,
  let cmp := memcmp a b (Nat.min (length a) (length b)) in
  (if cmp =? 0 then (if zlen a <? zlen b then -1 else if zlen b <? zlen a then 1 else 0)
   else if cmp <? 0 then -1 else 1) = sign_of (bytes_compare a b).
Proof.
  induction a as [|x a IH]; intros [|y b]; try reflexivity. cbn [length Nat.min memcmp bytes_compare].
  destruct (Z.compare_spec x y) as [->|Hlt|Hlt].
  - rewrite Z.eqb_refl. rewrite <- IH. unfold zlen. cbn [length].
    replace (Z.of_nat (S (length a)) <? Z.of_nat (S (length b))) with (Z.of_nat (length a) <? Z.of_nat (length b))
      by (destruct (Z.ltb_spec (Z.of_nat (length a)) (Z.of_nat (length b))); symmetry; rewrite ?Z.ltb_lt, ?Z.ltb_ge; lia).
    replace (Z.of_nat (S (length b)) <? Z.of_nat (S (length a))) with (Z.of_nat (length b) <? Z.of_nat (length a))
      by (destruct (Z.ltb_spec (Z.of_nat (length b)) (Z.of_nat (length a))); symmetry; rewrite ?Z.ltb_lt, ?Z.ltb_ge; lia).
    reflexivity.
  - destruct (Z.eqb_spec x y); [lia|]. destruct (Z.ltb_spec x y); [reflexivity|lia].
  - destruct (Z.eqb_spec x y); [lia|]. destruct (Z.ltb_spec x y); [lia|reflexivity].
Qed.

Lemma memcmp_equal a : forall b, length a = length b ->
  (memcmp a b (length a) =? 0) = match bytes_compare a b with Eq => true | _ => false end.
Proof.
  induction a as [|x a IH]; intros [|y b] Hl; try discriminate; [reflexivity|]. cbn [length memcmp bytes_compare].
  destruct (Z.compare_spec x y) as [->|Hlt|Hlt].
  - rewrite Z.eqb_refl. apply IH. cbn in Hl. lia.
  - destruct (Z.eqb_spec x y); [lia|]. destruct (Z.ltb_spec x y); [reflexivity|lia].
  - destruct (Z.eqb_spec x y); [lia|]. destruct (Z.ltb_spec x y); [lia|reflexivity].
Qed.

Lemma equal_test a b : (zlen a =? zlen b) && (memcmp a b (Z.to_nat (zlen a)) =? 0) =
  match bytes_compare a b with Eq => true | _ => false end.
Proof.
  unfold zlen. rewrite Nat2Z.id. destruct (Z.eqb_spec (Z.of_nat (length a)) (Z.of_nat (length b))) as [Hl|Hl].
  - apply memcmp_equal. lia.
  - cbn [andb]. destruct (bytes_compare a b) eqn:Ec; [|reflexivity|reflexivity].
    apply bytes_compare_eq in Ec. subst b. lia.
Qed.

Lemma strict_eq_value a b : (zlen a =? zlen b) && (memcmp a b (Z.to_nat (zlen a)) =? 0) = bool_decide (a = b).
Proof.
  rewrite equal_test. pose proof (bytes_compare_eq a b) as He.
  destruct (bytes_compare a b); symmetry; [apply bool_decide_eq_true_2, He; reflexivity|apply bool_decide_eq_false_2..];
    intros E1; apply He in E1; discriminate.
Qed.

Lemma min_len a b : Z.to_nat (Z.min (zlen a) (zlen b)) = Nat.min (length a) (length b).
Proof. unfold zlen. lia. Qed.

Lemma compare_bytes_ok op a b h : op <> TOK_PLUS ->
  compare_bytes op a b h = Some (Ok (VBool (compare_spec op (bytes_compare a b))), h).
Proof.
  intros Hop. unfold compare_bytes. rewrite min_len, equal_test. pose proof (memcmp_sign a b) as Hs. cbv zeta in Hs.
  set (cmp := memcmp a b _) in *. clearbody cmp.
  assert (Hz : (cmp =? 0) && (zlen a =? zlen b) = true <-> bytes_compare a b = Eq).
  { split.
    - intros H. apply andb_true_iff in H as [H1 H2]. apply Z.eqb_eq in H2. rewrite H1, H2, Z.ltb_irrefl in Hs.
      destruct (bytes_compare a b); [reflexivity|discriminate|discriminate].
    - intros Ec. rewrite Ec in Hs. cbn in Hs. destruct (Z.eqb_spec cmp 0); [|destruct (cmp <? 0); discriminate].
      destruct (Z.ltb_spec (zlen a) (zlen b)); [discriminate|]. destruct (Z.ltb_spec (zlen b) (zlen a)); [discriminate|].
      apply andb_true_iff. split; [reflexivity|]. apply Z.eqb_eq. lia. }
  destruct op; try congruence.
  1, 2: destruct (bytes_compare a b); reflexivity.
  all: destruct ((cmp =? 0) && (zlen a =? zlen b)) eqn:Et.
  all: try (rewrite (proj1 Hz eq_refl); reflexivity).
  all: assert (Hne : bytes_compare a b <> Eq) by (intros Ec; apply Hz in Ec; congruence).
  all: unfold ret; do 4 f_equal; destruct (bytes_compare a b); try congruence; cbn in Hs |- *.
  all: destruct (Z.eqb_spec cmp 0); [destruct (Z.ltb_spec (zlen a) (zlen b)), (Z.ltb_spec (zlen b) (zlen a)); try discriminate; try reflexivity|].
  all: cbn [andb] in Et; try (apply Z.eqb_neq in Et; lia).
  all: destruct (Z.ltb_spec cmp 0); try discriminate.
  all: rewrite ?Z.ltb_lt, ?Z.ltb_ge, ?Z.leb_le, ?Z.leb_gt; lia.
Qed.

Section comparing.
Context (grant : nat -> bool) (junk : Z) (Hgrant : forall k, grant k = true).

Lemma sv_strcmp_ok E h l r s t : str_of h l s -> str_of h r t ->
  runs grant E grows (sv_strcmp grant junk l r) h (fun n _ => n = sign_of (bytes_compare s t)).
Proof using Hgrant.
  intros Hl Hr. unfold sv_strcmp. eapply (runs_bind grant grows); [apply vstr_ok; [exact Hgrant|exact Hl]|]. intros a h1 Hg1 ->.
  eapply (runs_bind grant grows); [apply vstr_ok; [exact Hgrant|apply (gr_str _ _ Hg1); exact Hr]|]. intros b h2 Hg2 ->.
  apply (runs_ret grant grows). intros _ _. rewrite min_len. apply memcmp_sign.
Qed.

Lemma strict_eq_ok E h l r s t : str_of h l s -> str_of h r t ->
  runs grant E grows (strict_eq_strings grant junk l r) h (fun b _ => b = bool_decide (s = t)).
Proof using Hgrant.
  intros Hl Hr. unfold strict_eq_strings. eapply (runs_bind grant grows); [apply vstr_ok; [exact Hgrant|exact Hl]|]. intros a h1 Hg1 ->.
  eapply (runs_bind grant grows); [apply vstr_ok; [exact Hgrant|apply (gr_str _ _ Hg1); exact Hr]|]. intros b h2 Hg2 ->.
  apply (runs_ret grant grows). intros _ _. apply strict_eq_value.
Qed.

(** The comparison operators of [do_string_op]. *)
Lemma do_compare_ok E h op l r s t : op <> TOK_PLUS -> str_of h l s -> str_of h r t ->
  runs grant E grows (do_string_op grant junk op l r) h (fun v _ => v = VBool (compare_spec op (bytes_compare s t))).
Proof using Hgrant.
  intros Hop Hl Hr. replace (do_string_op grant junk op l r) with
    (let* a := vstr grant junk l in let* b := vstr grant junk r in compare_bytes op a b) by (destruct op; [congruence|reflexivity..]).
  eapply (runs_bind grant grows); [apply vstr_ok; [exact Hgrant|exact Hl]|]. intros a h1 Hg1 ->.
  eapply (runs_bind grant grows); [apply vstr_ok; [exact Hgrant|apply (gr_str _ _ Hg1); exact Hr]|]. intros b h2 Hg2 ->.
  unfold runs. rewrite (compare_bytes_ok op s t h2 Hop). split; [apply eff_refl|auto].
Qed.

(** Without refusals a run succeeds. *)
Lemma runs_granted {A} R (m : M A) h Q : runs grant False R m h Q -> exists a h', m h = Some (Ok a, h') /\ R h h' /\ Q a h'.
Proof using Hgrant.
  unfold runs. destruct (m h) as [[[a|k msg] h']|]; [| |contradiction].
  - intros [HR HQ]. eauto.
  - intros (_ & _ & [[]|(j & _ & Hj)]). congruence.
Qed.

Lemma len_granted s h h' n : len_or_zero grant False h s n h' -> n = zlen (wtf16 s).
Proof using Hgrant. intros [H|(_ & [[]|(j & _ & Hj)])]; [exact H|congruence]. Qed.
End comparing.

(** ** What the operations promise *)

Section promises.
Context (grant : nat -> bool) (junk : Z).

(** Concatenation of two strings denotes the concatenation of their bytes,
    as a copy, one of the operands or a rope, and changes no other string; it
    fails only when memory is refused.  Without refusals the comparison
    operators decide equality and the order of the bytes. *)
Theorem string_concat_correct h l r s t : str_of h l s -> str_of h r t -> zlen (s ++ t) < MAX_LEN ->
  runs grant False grows (do_string_op grant junk TOK_PLUS l r) h (fun v h' => str_of h' v (s ++ t)) /\
  ((forall k, grant k = true) ->
   (forall op, op <> TOK_PLUS ->
      runs grant False grows (do_string_op grant junk op l r) h (fun v _ => v = VBool (compare_spec op (bytes_compare s t)))) /\
   runs grant False grows (sv_strcmp grant junk l r) h (fun n _ => n = sign_of (bytes_compare s t)) /\
   runs grant False grows (strict_eq_strings grant junk l r) h (fun b _ => b = bool_decide (s = t))).
Proof.
  intros Hl Hr Hlt. split; [apply string_plus_ok; assumption|]. intros Hg. splits.
  - intros op Hop. apply do_compare_ok; assumption.
  - apply sv_strcmp_ok; assumption.
  - apply strict_eq_ok; assumption.
Qed.
End promises.

(** A heap with two flat strings and a rope of both. *)
Module Example.
Definition hello : list Z := [72; 101; 108; 108; 111; 44; 32; 119].
Definition smile : list Z := [0xF0; 0x9F; 0x98; 0x80; 111; 114; 108; 100].
Definition flat_str (s : list Z) : flat := str_flat_init_meta (Flat s 0) (str_detect_ascii_bytes s).
Definition start : heap :=
  Heap [flat_str hello; flat_str smile] [Rope 16 1 (VFlat 0) (VFlat 1) VUndef] [] 0.

Lemma start_hello : str_of start (VFlat 0) hello.
Proof. apply (str_flat start 0 (flat_str hello)); [reflexivity|apply new_flat_ok; reflexivity]. Qed.
Lemma start_smile : str_of start (VFlat 1) smile.
Proof. apply (str_flat start 1 (flat_str smile)); [reflexivity|apply new_flat_ok; reflexivity]. Qed.
Lemma start_rope : str_of start (VRope 0) (hello ++ smile).
Proof.
  eapply (str_node start 0); [reflexivity|apply start_hello|apply start_smile|discriminate|discriminate|reflexivity|reflexivity|].
  left. reflexivity.
Qed.

Lemma string_concat_correct_witness :
  exists v h', do_string_op (fun _ => true) 7 TOK_PLUS (VRope 0) (VFlat 0) start = Some (Ok v, h') /\
    str_of h' v ((hello ++ smile) ++ hello).
Proof.
  destruct (string_concat_correct (fun _ => true) 7 start (VRope 0) (VFlat 0) (hello ++ smile) hello start_rope start_hello) as (H & _);
    [reflexivity|].
  assert (Hg : forall k, (fun _ : nat => true) k = true) by reflexivity.
  destruct (runs_granted _ Hg _ _ _ _ H) as (v & h' & E & _ & Hv). eauto.
Defined.

(** The order of bytes is that of code points, not of code units: U+10000 comes
    after U+FFFF, although its first code unit is smaller.  And the two halves
    of a pair, joined, are not the bytes of the character they denote. *)
Lemma byte_order_differs :
  let a := [0xF0; 0x90; 0x80; 0x80] in let b := [0xEF; 0xBF; 0xBF] in
  bytes_compare a b = Gt /\ wtf16 a = [0xD800; 0xDC00] /\ wtf16 b = [0xFFFF].
Proof. intros a b. splits; reflexivity. Qed.

Lemma joined_halves_differ :
  let joined := [0xED; 0xA0; 0xBD] ++ [0xED; 0xB8; 0x80] in let pair := [0xF0; 0x9F; 0x98; 0x80] in
  wtf16 joined = wtf16 pair /\ bool_decide (joined = pair) = false.
Proof. intros joined pair. split; reflexivity. Qed.

(** Nothing bounds the length of a string: 64 doublings wrap it to 0. *)
Lemma length_wraps :
  let r := Rope (2 ^ 63) 63 (VRope 0) (VRope 0) VUndef in
  let h := Heap [] [r] [] 0 in
  exists h', do_string_op (fun _ => true) 7 TOK_PLUS (VRope 0) (VRope 0) h = Some (Ok (VRope 1), h') /\
    str_len_fast (VRope 1) h' = Some (Ok 0, h').
Proof. eexists. split; vm_compute; reflexivity. Qed.
End Example.
