(* ===== verification/Builder.v ===== *)
(** * String builders and string variables

    The string builders of [src/src/silver/engine.c]: a local variable that is
    appended to holds a builder, which collects the pieces in chunks and in a
    tail of 256 bytes and becomes a rope or a flat string when it is read.  The
    operations on slots are given for strings: [coerce_to_str_concat] and
    [sv_add_to_primitive] return a string unchanged.  Types recorded for the
    compiler and the collector's set of remembered builders are not modelled. *)

From S2P Require Import Prelude Utf8Scan FlatString Rope.
#[local] Open Scope heap_scope.

(** ** The code *)

Definition STR_BUILDER_TAIL_CAP : Z := 256.

Section code.
Context (grant : nat -> bool) (junk : Z).

(** [sv_builder_chunk_ascii_state]. *)
Definition sv_builder_chunk_ascii_state (a : nat) : M Z :=
  let* f := get_flat a in
  let state := str_flat_ascii_state f in
  if state =? STR_ASCII_UNKNOWN then
    let state := str_detect_ascii_bytes (fl_bytes f) in
    set_flat a (str_flat_init_meta f state) ;;; ret state
  else ret state.

Definition sv_builder_note_ascii (builder_state state : Z) : Z :=
  if state =? STR_ASCII_NO then STR_ASCII_NO
  else if negb (builder_state =? STR_ASCII_NO) && (state =? STR_ASCII_YES) then STR_ASCII_YES
  else builder_state.

(** [sv_builder_record_flat(js, builder, value, flat)]: [value] is the flat
    string at [f]. *)
Definition sv_builder_record_flat (a f : nat) : M unit :=
  let* bd := get_builder a in
  let* flat := get_flat f in
  let len := u64 (bd_len bd + zlen (fl_bytes flat)) in
  let* cached := match bd_cached bd with
                 | VNum n => let* k := str_utf16_len grant junk (VFlat f) in ret (tov_int (n + round53 k))
                 | _ => ret VUndef
                 end in
  let* state := sv_builder_chunk_ascii_state f in
  set_builder a (StrBuilder len (bd_snapshot bd) (bd_chunks bd) cached (bd_tail bd)
                   (sv_builder_note_ascii (bd_ascii bd) state)).

Definition sv_builder_normalize_chunk (v : val) : M val :=
  if is_str v then str_materialize grant junk v
  else mkerr "string builder expects string chunk".

(** A node at the end of the list of chunks. *)
Definition sv_builder_push_chunk_value (a : nat) (chunk : val) : M unit :=
  let* ok := request grant in
  if negb ok then mkerr "string builder chunk allocation failed"
  else
    let* bd := get_builder a in
    set_builder a (StrBuilder (bd_len bd) (bd_snapshot bd) (bd_chunks bd ++ [chunk]) (bd_cached bd)
                     (bd_tail bd) (bd_ascii bd)).

Definition sv_builder_flush_tail (a : nat) : M unit :=
  let* bd := get_builder a in
  match bd_tail bd with
  | [] => ret tt
  | _ =>
      let* tail := js_mkstr grant (bd_tail bd) in
      sv_builder_push_chunk_value a tail ;;;
      let* bd := get_builder a in
      set_builder a (StrBuilder (bd_len bd) (bd_snapshot bd) (bd_chunks bd) (bd_cached bd) [] (bd_ascii bd))
  end.

Definition sv_builder_append_flat (a : nat) (chunk : val) : M unit :=
  match chunk with
  | VFlat f =>
      let* flat := get_flat f in
      let len := zlen (fl_bytes flat) in
      if len =? 0 then ret tt
      else
        let* bd := get_builder a in
        if (len <=? STR_BUILDER_TAIL_CAP) && (zlen (bd_tail bd) + len <=? STR_BUILDER_TAIL_CAP) then
          set_builder a (StrBuilder (bd_len bd) (bd_snapshot bd) (bd_chunks bd) (bd_cached bd)
                           (bd_tail bd ++ fl_bytes flat) (bd_ascii bd)) ;;;
          sv_builder_record_flat a f
        else
          sv_builder_flush_tail a ;;;
          sv_builder_push_chunk_value a chunk ;;;
          sv_builder_record_flat a f
  | _ => mkerr "string builder received non-flat string"
  end.

Definition sv_string_builder_new : M val :=
  let* ok := request grant in
  if negb ok then mkerr "string builder allocation failed"
  else new_builder (StrBuilder 0 VUndef [] VUndef [] STR_ASCII_YES).

(** [result] followed by the chunks of the builder. *)
Fixpoint join_chunks (result : val) (chunks : list val) : M val :=
  match chunks with
  | [] => ret result
  | piece :: chunks =>
      let* result := if is_str result then do_string_op grant junk TOK_PLUS result piece else ret piece in
      join_chunks result chunks
  end.

(** The snapshot, the chunks and the tail in one string. *)
Definition join_pieces (bd : builder) : M val :=
  let* result := join_chunks (bd_snapshot bd) (bd_chunks bd) in
  let* result :=
    match bd_tail bd with
    | [] => ret result
    | tail =>
        let* tail := js_mkstr grant tail in
        if is_str result then do_string_op grant junk TOK_PLUS result tail else ret tail
    end in
  if is_str result then ret result else js_mkstr grant [].

Definition sv_string_builder_snapshot (v : val) : M val :=
  match v with
  | VBuilder a =>
      let* bd := get_builder a in
      let idle := match bd_chunks bd, bd_tail bd with [], [] => true | _, _ => false end in
      let cached := bd_cached bd in
      if idle && is_str (bd_snapshot bd) then ret (bd_snapshot bd)
      else if idle && is_str cached && negb (str_is_heap_rope cached) && negb (str_is_heap_builder cached) then ret cached
      else
        let* result := join_pieces bd in
        let* bd := get_builder a in
        set_builder a (StrBuilder (bd_len bd) result []
                         (if str_is_heap_rope result then bd_cached bd else result) [] (bd_ascii bd)) ;;;
        ret result
  | v => ret v
  end.

Definition sv_string_builder_read_value (v : val) : M val :=
  if str_is_heap_builder v then sv_string_builder_snapshot v else ret v.

(** The new value of the slot. *)
Definition sv_string_builder_flush_slot (slot : val) : M val :=
  if str_is_heap_builder slot then str_materialize grant junk slot else ret slot.

(** A new builder with two pieces. *)
Definition build_two (lhs rhs : val) : M val :=
  let* lhs := sv_builder_normalize_chunk lhs in
  let* rhs := sv_builder_normalize_chunk rhs in
  let* value := sv_string_builder_new in
  match value with
  | VBuilder a => sv_builder_append_flat a lhs ;;; sv_builder_append_flat a rhs ;;; ret value
  | _ => crash
  end.

Definition sv_string_builder_append_slot (slot rhs : val) : M val :=
  match slot with
  | VBuilder a =>
      let* rhs := sv_builder_normalize_chunk rhs in
      sv_builder_append_flat a rhs ;;; ret slot
  | lhs => build_two lhs rhs
  end.

Definition sv_string_builder_append_snapshot_slot (slot lhs rhs : val) : M val :=
  if decide (slot = lhs) then sv_string_builder_append_slot slot rhs else build_two lhs rhs.

End code.

(** ** What a builder denotes *)

(** The pieces of a builder: the snapshot, the chunks and the tail. *)
Record built (h : heap) (bd : builder) (s : list Z) : Prop := {
  bt_text : exists s0 ss,
    ((bd_snapshot bd = VUndef /\ s0 = []) \/ str_of h (bd_snapshot bd) s0) /\
    Forall2 (flat_of h) (bd_chunks bd) ss /\ s = s0 ++ concat ss ++ bd_tail bd;
  bt_tail : scan_wf (bd_tail bd) = true /\ zlen (bd_tail bd) <= STR_BUILDER_TAIL_CAP;
  bt_len : bd_len bd = zlen s /\ zlen s < MAX_LEN;
  bt_ascii : bd_ascii bd = str_detect_ascii_bytes s;
  bt_cached : bd_cached bd = VUndef \/ bd_cached bd = VNum (zlen (wtf16 s)) \/ flat_of h (bd_cached bd) s
}.

Definition builder_of (h : heap) (a : nat) (s : list Z) : Prop :=
  exists bd, hp_builders h !! a = Some bd /\ built h bd s.

(** What any string value denotes. *)
Definition den (h : heap) (v : val) (s : list Z) : Prop :=
  str_of h v s \/ exists a, v = VBuilder a /\ builder_of h a s.

Lemma chunks_wf h vs ss : Forall2 (flat_of h) vs ss -> scan_wf (concat ss) = true.
Proof.
  induction 1 as [|v s vs ss [_ Hs] _ IH]; [reflexivity|]. cbn. apply scan_wf_app; [|exact IH].
  destruct (str_of_facts _ _ _ Hs) as (Hw & _). exact Hw.
Qed.

Lemma built_wf h bd s : built h bd s -> scan_wf s = true.
Proof.
  intros [(s0 & ss & H0 & Hc & ->) [Ht _] _ _ _]. apply scan_wf_app; [|apply scan_wf_app; [eapply chunks_wf; eassumption|exact Ht]].
  destruct H0 as [[_ ->]|H0]; [reflexivity|]. destruct (str_of_facts _ _ _ H0) as (Hw & _). exact Hw.
Qed.

Lemma not_str_undef h s : ~ str_of h VUndef s.
Proof. inversion 1. Qed.

Lemma chunks_det h vs ss : Forall2 (flat_of h) vs ss -> forall ts, Forall2 (flat_of h) vs ts -> ss = ts.
Proof.
  induction 1 as [|v s vs ss [_ Hs] _ IH]; intros ts Ht; inversion Ht as [|? t ? ? [_ Hv]]; subst; [reflexivity|].
  f_equal; [eapply str_of_det; eassumption|auto].
Qed.

Lemma built_det h bd s t : built h bd s -> built h bd t -> s = t.
Proof.
  intros [(s0 & ss & H0 & Hc & ->) _ _ _ _] [(t0 & ts & H0' & Hc' & ->) _ _ _ _]. f_equal; [|f_equal; f_equal; eapply chunks_det; eassumption].
  destruct H0 as [[E ->]|H0], H0' as [[E' ->]|H0']; [reflexivity| | |eapply str_of_det; eassumption].
  - rewrite E in H0'. destruct (not_str_undef _ _ H0').
  - rewrite E' in H0. destruct (not_str_undef _ _ H0).
Qed.

Lemma built_mono h h' bd s : (forall v s, str_of h v s -> str_of h' v s) -> built h bd s -> built h' bd s.
Proof.
  intros Hm [(s0 & ss & H0 & Hc & Hs) Ht Hl Ha Hk].
  assert (Hfl : forall v t, flat_of h v t -> flat_of h' v t) by (intros v t [? ?]; split; auto).
  split; auto.
  - exists s0, ss. splits; auto; [destruct H0; auto|]. eapply Forall2_impl; [exact Hc|]. auto.
  - destruct Hk as [?|[?|?]]; auto.
Qed.

(** ** Effects on builders *)

(** Every string value keeps its meaning. *)
Record keeps (h h' : heap) : Prop := {
  kp_asked : (hp_asked h <= hp_asked h')%nat;
  kp_str : forall v s, str_of h v s -> str_of h' v s;
  kp_builders : forall a s, builder_of h a s -> builder_of h' a s
}.

#[global] Instance keeps_effect : Effect keeps.
Proof.
  split; [split; auto| |intros ? ? []; assumption].
  intros h1 h2 h3 [A1 S1 B1] [A2 S2 B2]. split; [lia|auto|auto].
Qed.

Lemma grows_keeps h h' : grows h h' -> keeps h h'.
Proof.
  intros [Ha Hb Hs]. split; auto. intros a s (bd & Hl & Hbt). exists bd. rewrite Hb. split; [exact Hl|]. eapply built_mono; eassumption.
Qed.

Lemma keeps_den h h' v s : keeps h h' -> den h v s -> den h' v s.
Proof. intros [_ Hs Hb] [H|(a & -> & H)]; [left; auto|right; eauto]. Qed.

(** Every string value but the builder [a] keeps its meaning. *)
Record changes (a : nat) (h h' : heap) : Prop := {
  ch_asked : (hp_asked h <= hp_asked h')%nat;
  ch_str : forall v s, str_of h v s -> str_of h' v s;
  ch_builders : forall b s, b <> a -> builder_of h b s -> builder_of h' b s
}.

Lemma keeps_changes a h h' : keeps h h' -> changes a h h'.
Proof. intros [A S B]. split; auto. Qed.

#[global] Instance changes_effect a : Effect (changes a).
Proof.
  split; [split; auto| |intros ? ? []; assumption].
  intros h1 h2 h3 [A1 S1 B1] [A2 S2 B2]. split; [lia|auto|auto].
Qed.

(** One builder is replaced and the strings are as before or better known. *)
Definition rebuilt (a : nat) (bd : builder) (h h' : heap) : Prop :=
  (hp_asked h <= hp_asked h')%nat /\ (forall v s, str_of h v s -> str_of h' v s) /\
  hp_builders h' = <[a := bd]> (hp_builders h).

Lemma rebuilt_changes a bd h h' : rebuilt a bd h h' -> changes a h h'.
Proof.
  intros (Ha & Hs & Hb). split; auto. intros b s Hne (bd' & Hl & Hbt). exists bd'. rewrite Hb.
  split; [|eapply built_mono; eassumption]. rewrite list_lookup_insert_ne by congruence. exact Hl.
Qed.

Lemma rebuilt_of a bd h h' s bd0 : rebuilt a bd h h' -> hp_builders h !! a = Some bd0 -> built h' bd s -> builder_of h' a s.
Proof.
  intros (_ & _ & Hb) Hl Hbt. exists bd. split; [|exact Hbt]. rewrite Hb.
  apply list_lookup_insert_eq. eapply lookup_lt_Some. exact Hl.
Qed.

Lemma rebuilt_keeps a bd h h' s : rebuilt a bd h h' -> builder_of h a s -> built h' bd s -> keeps h h'.
Proof.
  intros Hr (bd0 & Hl & Hbt0) Hbt. pose proof (rebuilt_changes _ _ _ _ Hr) as [Ha Hs Hb]. split; auto.
  intros b t Ht. destruct (decide (b = a)) as [->|Hne]; [|auto].
  destruct Ht as (bd1 & Hl1 & Hbt1). assert (bd1 = bd0) as -> by congruence.
  rewrite (built_det _ _ _ _ Hbt1 Hbt0). eapply rebuilt_of; eassumption.
Qed.

Lemma set_rebuilt a bd h : rebuilt a bd h (Heap (hp_flats h) (hp_ropes h) (<[a := bd]> (hp_builders h)) (hp_asked h)).
Proof.
  unfold rebuilt. splits; auto. apply str_of_flats; [reflexivity|]. intros b f Hb Ho. exists f. auto.
Qed.

Lemma get_builder_ok h a bd : hp_builders h !! a = Some bd -> get_builder a h = Some (Ok bd, h).
Proof. intros Ha. unfold get_builder, of_option. rewrite Ha. reflexivity. Qed.

(** ** Appending *)

Section builders.
Context (grant : nat -> bool) (junk : Z).

(** The builder after [sv_builder_record_flat] of a string [t]. *)
Definition recorded (bd : builder) (t : list Z) : builder :=
  StrBuilder (bd_len bd + zlen t) (bd_snapshot bd) (bd_chunks bd)
    (match bd_cached bd with VNum n => VNum (n + zlen (wtf16 t)) | _ => VUndef end)
    (bd_tail bd) (sv_builder_note_ascii (bd_ascii bd) (str_detect_ascii_bytes t)).

Lemma chunk_ascii_run h f t : str_of h (VFlat f) t ->
  exists h', sv_builder_chunk_ascii_state f h = Some (Ok (str_detect_ascii_bytes t), h') /\ grows h h'.
Proof.
  intros Hs. inversion Hs as [a' fl Ha Ho| |]; subst. unfold sv_builder_chunk_ascii_state, bind, get_flat, of_option. rewrite Ha. cbn.
  destruct (Z.eqb_spec (str_flat_ascii_state fl) STR_ASCII_UNKNOWN) as [Eu|Nu].
  - eexists. split; [reflexivity|]. apply grows_set_flat with (f := fl); [exact Ha|]. intros _. split; [|reflexivity].
    split; [apply init_meta_ok|apply Ho|apply Ho].
  - exists h. destruct (mo_ascii _ (fo_meta _ Ho)) as [H|H]; [congruence|]. rewrite H. split; [reflexivity|apply eff_refl].
Qed.

Lemma record_flat_run h a f bd t : hp_builders h !! a = Some bd -> str_of h (VFlat f) t ->
  0 <= bd_len bd -> bd_len bd + zlen t < MAX_LEN ->
  (forall n, bd_cached bd = VNum n -> 0 <= n <= bd_len bd) ->
  exists h', sv_builder_record_flat grant junk a f h = Some (Ok tt, h') /\ rebuilt a (recorded bd t) h h'.
Proof.
  intros Ha Ht H0 Hlt Hn. pose proof (zlen_nonneg t). pose proof (zlen_wtf16 t). unfold MAX_LEN in Hlt.
  assert (Hf : exists fl, get_flat f h = Some (Ok fl, h) /\ fl_bytes fl = t).
  { inversion Ht as [a' fl Hl Ho| |]; subst. exists fl. unfold get_flat, of_option. rewrite Hl. auto. }
  destruct Hf as (fl & Ef & Efb).
  assert (Hc : exists c h1, (match bd_cached bd with
      | VNum n => let* k := str_utf16_len grant junk (VFlat f) in ret (tov_int (n + round53 k))
      | _ => ret VUndef end) h = Some (Ok c, h1) /\ grows h h1 /\
      c = match bd_cached bd with VNum n => VNum (n + zlen (wtf16 t)) | _ => VUndef end).
  { destruct (bd_cached bd) eqn:Ec; try (exists VUndef, h; splits; [reflexivity|apply eff_refl|reflexivity]).
    destruct (flat_len_run h f t Ht) as (h1 & E1 & G1 & _). unfold str_utf16_len, utf16_len, bind. rewrite E1.
    eexists _, h1. splits; [reflexivity|exact G1|]. pose proof (Hn n eq_refl). unfold tov_int. rewrite !round53_small by (rewrite ?round53_small; lia). reflexivity. }
  destruct Hc as (c & h1 & E1 & G1 & Ec).
  destruct (chunk_ascii_run h1 f t) as (h2 & E2 & G2); [apply (gr_str _ _ G1); exact Ht|].
  pose proof (eff_trans _ _ _ G1 G2) as G.
  exists (Heap (hp_flats h2) (hp_ropes h2) (<[a := recorded bd t]> (hp_builders h2)) (hp_asked h2)). split.
  - unfold sv_builder_record_flat. unfold bind at 1. rewrite (get_builder_ok _ _ _ Ha). unfold bind at 1. rewrite Ef. cbv zeta.
    unfold bind at 1. rewrite E1. unfold bind at 1. rewrite E2. unfold set_builder, recorded. rewrite Efb, wrap_small, Ec by lia. reflexivity.
  - destruct (set_rebuilt a (recorded bd t) h2) as (Hk & Hs & Hb). unfold rebuilt. splits.
    + etransitivity; [apply (gr_asked _ _ G)|exact Hk].
    + intros v s Hv. apply Hs, (gr_str _ _ G). exact Hv.
    + rewrite Hb, (gr_builders _ _ G). reflexivity.
Qed.

Lemma note_ascii_app s t :
  sv_builder_note_ascii (str_detect_ascii_bytes s) (str_detect_ascii_bytes t) = str_detect_ascii_bytes (s ++ t).
Proof.
  rewrite detect_ascii_app. unfold str_detect_ascii_bytes, sv_builder_note_ascii.
  destruct (existsb _ s), (existsb _ t); reflexivity.
Qed.

(** What is recorded of a longer builder. *)
Lemma recorded_facts h bd s t : built h bd s -> scan_wf t = true -> zlen (s ++ t) < MAX_LEN ->
  bd_len (recorded bd t) = zlen (s ++ t) /\ bd_ascii (recorded bd t) = str_detect_ascii_bytes (s ++ t) /\
  (bd_cached (recorded bd t) = VUndef \/ bd_cached (recorded bd t) = VNum (zlen (wtf16 (s ++ t)))).
Proof.
  intros Hb Ht Hlt. pose proof (built_wf _ _ _ Hb) as Hw. destruct Hb as [_ _ [Hl _] Ha Hc]. cbn. splits.
  - rewrite Hl, zlen_app. reflexivity.
  - rewrite Ha. apply note_ascii_app.
  - destruct Hc as [-> |[-> |[[b ->] _]]]; [auto| |auto]. right. rewrite wtf16_app, zlen_app by exact Hw. reflexivity.
Qed.

(** The builder with a longer tail, and with one more chunk. *)
Definition with_tail (bd : builder) (tail : list Z) : builder :=
  StrBuilder (bd_len bd) (bd_snapshot bd) (bd_chunks bd) (bd_cached bd) tail (bd_ascii bd).
Definition with_chunk (bd : builder) (v : val) : builder :=
  StrBuilder (bd_len bd) (bd_snapshot bd) (bd_chunks bd ++ [v]) (bd_cached bd) (bd_tail bd) (bd_ascii bd).

Lemma built_tail h bd s t : built h bd s -> scan_wf t = true -> zlen (s ++ t) < MAX_LEN ->
  zlen (bd_tail bd) + zlen t <= STR_BUILDER_TAIL_CAP ->
  built h (recorded (with_tail bd (bd_tail bd ++ t)) t) (s ++ t).
Proof.
  intros Hb Ht Hlt Hcap. pose proof (recorded_facts h bd s t Hb Ht Hlt) as (Hl & Ha & Hc).
  destruct Hb as [(s0 & ss & H0 & Hch & ->) [Hw _] _ _ _]. split; cbn in *; auto.
  - exists s0, ss. splits; auto. rewrite <- !app_assoc. reflexivity.
  - split; [apply scan_wf_app; assumption|]. rewrite zlen_app. exact Hcap.
  - tauto.
Qed.

Lemma built_chunk h bd s v t : built h bd s -> bd_tail bd = [] -> flat_of h v t -> zlen (s ++ t) < MAX_LEN ->
  built h (recorded (with_chunk bd v) t) (s ++ t).
Proof.
  intros Hb Hnil Hv Hlt. destruct (str_of_facts _ _ _ (proj2 Hv)) as (Ht & _).
  pose proof (recorded_facts h bd s t Hb Ht Hlt) as (Hl & Ha & Hc).
  destruct Hb as [(s0 & ss & H0 & Hch & ->) Hw _ _ _]. rewrite Hnil in *. split; cbn in *; auto.
  - exists s0, (ss ++ [t]). splits; auto; [apply Forall2_app; auto|]. rewrite Hnil, concat_app. cbn. rewrite !app_nil_r, <- !app_assoc. reflexivity.
  - rewrite Hnil. exact Hw.
  - tauto.
Qed.

Lemma built_flushed h bd s v : built h bd s -> flat_of h v (bd_tail bd) ->
  built h (with_tail (with_chunk bd v) []) s.
Proof.
  intros [(s0 & ss & H0 & Hch & Hs) [Hw _] Hl Ha Hc] Hv. split; cbn; auto.
  - exists s0, (ss ++ [bd_tail bd]). splits; auto; [apply Forall2_app; auto|]. rewrite concat_app. cbn. rewrite !app_nil_r. exact Hs.
  - split; [reflexivity|]. unfold STR_BUILDER_TAIL_CAP, zlen. cbn. lia.
Qed.

Lemma rebuilt_trans a b1 b2 h h1 h2 : rebuilt a b1 h h1 -> rebuilt a b2 h1 h2 -> rebuilt a b2 h h2.
Proof.
  intros (A1 & S1 & B1) (A2 & S2 & B2). unfold rebuilt. splits; [lia|auto|]. rewrite B2, B1. apply list_insert_insert_eq.
Qed.

Lemma rebuilt_lookup a bd bd0 h h' : rebuilt a bd h h' -> hp_builders h !! a = Some bd0 -> hp_builders h' !! a = Some bd.
Proof. intros (_ & _ & ->) Hl. apply list_lookup_insert_eq. eapply lookup_lt_Some. exact Hl. Qed.

Lemma push_run h a bd v : hp_builders h !! a = Some bd ->
  (exists h', sv_builder_push_chunk_value grant a v h = Some (Ok tt, h') /\ rebuilt a (with_chunk bd v) h h') \/
  (exists h' msg, sv_builder_push_chunk_value grant a v h = Some (Err JS_ERR_TYPE msg, h') /\ asks h h' /\ refused grant h h').
Proof.
  intros Ha. destruct (request_runs grant False h) as [Hask Href].
  set (h1 := Heap (hp_flats h) (hp_ropes h) (hp_builders h) (S (hp_asked h))) in *.
  assert (Er : request grant h = Some (Ok (grant (hp_asked h)), h1)) by reflexivity.
  destruct (grant (hp_asked h)); [left|right].
  - assert (Ha1 : hp_builders h1 !! a = Some bd) by exact Ha.
    eexists. unfold sv_builder_push_chunk_value, bind. rewrite Er. cbn [negb]. rewrite (get_builder_ok _ _ _ Ha1). split; [reflexivity|].
    pose proof (set_rebuilt a (with_chunk bd v) h1) as (A & S & B). unfold rebuilt. splits.
    + cbn in *. lia.
    + intros w s Hw. apply S, (asks_str _ _ Hask). exact Hw.
    + exact B.
  - exists h1, "string builder chunk allocation failed"%string. splits; auto.
    unfold sv_builder_push_chunk_value, bind. rewrite Er. reflexivity.
Qed.

Lemma builder_bounds h bd s : built h bd s -> 0 <= bd_len bd /\ (forall n, bd_cached bd = VNum n -> 0 <= n <= bd_len bd).
Proof.
  intros [_ _ [-> _] _ Hc]. pose proof (zlen_nonneg s). pose proof (zlen_wtf16 s). split; [assumption|]. intros n Hn.
  destruct Hc as [Hc|[Hc|[[b Hc] _]]]; rewrite Hc in Hn; [discriminate| |discriminate]. injection Hn as <-. lia.
Qed.

Lemma grows_runs_keeps {A} E (m : M A) h Q : runs grant E grows m h Q -> runs grant E keeps m h Q.
Proof. intros H. eapply runs_effect; [exact H|]. apply grows_keeps. Qed.

Lemma flush_tail_ok E h a s : builder_of h a s ->
  runs grant E keeps (sv_builder_flush_tail grant a) h
    (fun _ h' => exists bd, hp_builders h' !! a = Some bd /\ built h' bd s /\ bd_tail bd = []).
Proof.
  intros (bd & Ha & Hb). pose proof (ex_intro _ bd (conj Ha Hb) : builder_of h a s) as Hof. unfold sv_builder_flush_tail.
  eapply runs_step; [apply get_builder_ok; exact Ha|]. cbv beta.
  destruct (bd_tail bd) as [|c tail] eqn:Et; [apply (runs_ret grant keeps); eauto|]. rewrite <- Et.
  assert (Hw : scan_wf (bd_tail bd) = true) by apply Hb.
  assert (Hl : zlen (bd_tail bd) < MAX_LEN) by (destruct Hb as [_ [_ Hcap] _ _ _]; unfold STR_BUILDER_TAIL_CAP in Hcap; unfold MAX_LEN; lia).
  eapply (runs_bind grant keeps).
  { eapply runs_effect; [apply (runs_post grant grows) with (P := fun v h' => flat_of h' v (bd_tail bd))|apply grows_keeps].
    - apply mkstr_ok; assumption.
    - intros v h' Hg Hv. exact (conj Hg Hv). }
  intros v h1 Hk1 [Hg1 Hv].
  assert (Ha1 : hp_builders h1 !! a = Some bd) by (rewrite (gr_builders _ _ Hg1); exact Ha).
  pose proof (built_mono _ _ _ _ (gr_str _ _ Hg1) Hb) as Hb1.
  destruct (push_run h1 a bd v Ha1) as [(h2 & Ep & Hr)|(h2 & msg & Ep & Hask & Href)]; unfold runs, bind at 1; rewrite Ep.
  - pose proof (rebuilt_lookup _ _ _ _ _ Hr Ha1) as Ha2. unfold bind. rewrite (get_builder_ok _ _ _ Ha2). cbn [set_builder].
    pose proof (rebuilt_trans _ _ _ _ _ _ Hr (set_rebuilt a (with_tail (with_chunk bd v) []) h2)) as Hr2.
    pose proof (built_flushed _ _ _ _ Hb1 Hv) as Hbf. pose proof Hr2 as (_ & Hm & _).
    pose proof (built_mono _ _ _ _ Hm Hbf) as Hbf2. split.
    + eapply rebuilt_keeps; [exact Hr2|exists bd; split; eassumption|exact Hbf2].
    + intros _. exists (with_tail (with_chunk bd v) []). splits; [|exact Hbf2|reflexivity]. eapply rebuilt_lookup; eassumption.
  - split; [apply grows_keeps, asks_grows; exact Hask|]. auto.
Qed.

(** What an append does: on success the builder alone is longer; after an error
    every string is as it was. *)
Definition tries {A} (E : Prop) (a : nat) (m : M A) (h : heap) (Q : A -> heap -> Prop) : Prop :=
  match m h with
  | Some (Ok x, h') => changes a h h' /\ Q x h'
  | Some (Err k _, h') => keeps h h' /\ k = JS_ERR_TYPE /\ (E \/ refused grant h h')
  | None => False
  end.

Lemma tries_bind {A B} E a (m : M A) (f : A -> M B) h P Q : runs grant E keeps m h P ->
  (forall x h1, keeps h h1 -> P x h1 -> tries (E \/ refused grant h h1) a (f x) h1 (fun y h2 => changes a h h2 -> Q y h2)) ->
  tries E a (bind m f) h Q.
Proof.
  intros Hm Hf. unfold runs, tries, bind in *. destruct (m h) as [[[x|k msg] h1]|]; [|exact Hm|exact Hm].
  destruct Hm as [H1 HP]. specialize (Hf x h1 H1 HP). destruct (f x h1) as [[[y|k msg] h2]|]; [| |exact Hf].
  - destruct Hf as [H2 HQ]. pose proof (eff_trans _ _ _ (keeps_changes a _ _ H1) H2). auto.
  - destruct Hf as (H2 & -> & Hx). split; [eapply eff_trans; eassumption|]. split; [reflexivity|].
    eapply excuse_chain; [|exact Hx]. pose proof (eff_asked _ _ H1). pose proof (eff_asked _ _ H2). lia.
Qed.

(** The last steps of an append: the builder has the piece, and records it. *)
Lemma record_appended h0 h a bd f s t : rebuilt a bd h0 h -> builder_of h0 a s ->
  0 <= bd_len bd -> bd_len bd + zlen t < MAX_LEN -> (forall n, bd_cached bd = VNum n -> 0 <= n <= bd_len bd) ->
  str_of h (VFlat f) t -> built h (recorded bd t) (s ++ t) ->
  exists h', sv_builder_record_flat grant junk a f h = Some (Ok tt, h') /\ changes a h0 h' /\ builder_of h' a (s ++ t).
Proof.
  intros Hr (bd0 & Ha0 & _) H0 Hlt Hn Ht Hb.
  destruct (record_flat_run h a f bd t) as (h' & Er & Hr'); auto; [eapply rebuilt_lookup; eassumption|].
  exists h'. split; [exact Er|]. pose proof (rebuilt_trans _ _ _ _ _ _ Hr Hr') as Hrr. split; [eapply rebuilt_changes; exact Hrr|].
  eapply rebuilt_of; [exact Hrr|exact Ha0|]. eapply built_mono; [apply Hr'|exact Hb].
Qed.

Lemma append_flat_ok E h a v s t : builder_of h a s -> flat_of h v t -> zlen (s ++ t) < MAX_LEN ->
  tries E a (sv_builder_append_flat grant junk a v) h (fun _ h' => builder_of h' a (s ++ t)).
Proof.
  intros Hof [[f ->] Ht] Hlt. destruct (str_of_facts _ _ _ Ht) as (Hw & _). cbn [sv_builder_append_flat].
  assert (Hf : exists fl, get_flat f h = Some (Ok fl, h) /\ fl_bytes fl = t).
  { inversion Ht as [a' fl Hl Ho| |]; subst. exists fl. unfold get_flat, of_option. rewrite Hl. auto. }
  destruct Hf as (fl & Ef & Efb). unfold tries. unfold bind at 1. rewrite Ef, Efb. cbv zeta.
  destruct (Z.eqb_spec (zlen t) 0) as [E0|N0].
  { apply zlen_zero in E0. rewrite E0, app_nil_r. split; [apply eff_refl|exact Hof]. }
  destruct Hof as (bd & Ha & Hb). pose proof (ex_intro _ bd (conj Ha Hb) : builder_of h a s) as Hof.
  destruct (builder_bounds _ _ _ Hb) as [Hlen0 Hnum]. destruct (bt_len _ _ _ Hb) as [Hlen _]. rewrite zlen_app in Hlt.
  unfold bind at 1. rewrite (get_builder_ok _ _ _ Ha).
  destruct ((zlen t <=? STR_BUILDER_TAIL_CAP) && (zlen (bd_tail bd) + zlen t <=? STR_BUILDER_TAIL_CAP)) eqn:Ec.
  - boolprop. unfold bind at 1. cbn [set_builder].
    pose proof (set_rebuilt a (with_tail bd (bd_tail bd ++ t)) h) as Hr. pose proof Hr as (_ & Hm & _).
    destruct (record_appended _ _ a _ f s t Hr Hof) as (h' & Er & Hch & Hof'); auto.
    + cbn. rewrite Hlen. exact Hlt.
    + eapply built_mono; [exact Hm|]. apply built_tail; auto. rewrite zlen_app. exact Hlt.
    + unfold with_tail in Er. rewrite Er. auto.
  - change (tries E a (let* _ := sv_builder_flush_tail grant a in let* _ := sv_builder_push_chunk_value grant a (VFlat f) in
      sv_builder_record_flat grant junk a f) h (fun _ h' => builder_of h' a (s ++ t))).
    eapply tries_bind; [apply flush_tail_ok; exact Hof|]. intros [] h1 Hk1 (bd1 & Ha1 & Hb1 & Hnil).
    pose proof (kp_str _ _ Hk1 _ _ Ht) as Ht1. destruct (builder_bounds _ _ _ Hb1) as [L1 N1]. destruct (bt_len _ _ _ Hb1) as [Hl1 _].
    destruct (push_run h1 a bd1 (VFlat f) Ha1) as [(h2 & Ep & Hr)|(h2 & msg & Ep & Hask & Href)]; unfold tries, bind; rewrite Ep.
    + pose proof Hr as (_ & Hm & _). destruct (record_appended _ _ a _ f s t Hr (ex_intro _ bd1 (conj Ha1 Hb1))) as (h' & Er & Hch & Hof'); auto.
      * cbn. rewrite Hl1. exact Hlt.
      * eapply built_mono; [exact Hm|]. apply built_chunk; auto; [split; eauto|]. rewrite zlen_app. exact Hlt.
      * rewrite Er. auto.
    + split; [apply grows_keeps, asks_grows; exact Hask|]. auto.
Qed.
End builders.

(** ** Reading a builder *)

Section reading.
Context (grant : nat -> bool) (junk : Z).

(** A value of the code that stands for nothing yet, or for a string. *)
Definition piece_of (h : heap) (v : val) (s : list Z) : Prop := (v = VUndef /\ s = []) \/ str_of h v s.

Lemma piece_mono h h' v s : (forall v s, str_of h v s -> str_of h' v s) -> piece_of h v s -> piece_of h' v s.
Proof. intros Hm [H|H]; [left; exact H|right; auto]. Qed.

Lemma piece_is_str h v s : piece_of h v s -> if is_str v then str_of h v s else v = VUndef /\ s = [].
Proof.
  intros [[-> ->]|H]; [cbn; auto|]. destruct (str_of_facts _ _ _ H) as (_ & _ & -> & _). exact H.
Qed.

(** [result], or nothing, followed by one more string. *)
Lemma join_one_ok E h result piece s t : piece_of h result s -> str_of h piece t -> zlen (s ++ t) < MAX_LEN ->
  runs grant E grows (if is_str result then do_string_op grant junk TOK_PLUS result piece else ret piece) h
    (fun v h' => str_of h' v (s ++ t)).
Proof.
  intros Hr Ht Hlt. apply piece_is_str in Hr. destruct (is_str result).
  - apply string_plus_ok; assumption.
  - destruct Hr as [_ ->]. apply (runs_ret grant grows). exact Ht.
Qed.

Lemma join_chunks_ok E chunks : forall h result s ss, piece_of h result s -> Forall2 (flat_of h) chunks ss ->
  zlen (s ++ concat ss) < MAX_LEN ->
  runs grant E grows (join_chunks grant junk result chunks) h (fun v h' => piece_of h' v (s ++ concat ss)).
Proof.
  revert E. induction chunks as [|v chunks IH]; intros E h result s ss Hr Hc Hlt; inversion Hc as [|? t ? ss' [_ Hv] Hc']; subst; cbn [join_chunks concat] in *.
  - apply (runs_ret grant grows). rewrite app_nil_r. exact Hr.
  - rewrite app_assoc in Hlt |- *. eapply (runs_bind grant grows).
    { apply join_one_ok; [exact Hr|exact Hv|]. rewrite zlen_app in Hlt. pose proof (zlen_nonneg (concat ss')). lia. }
    intros v' h1 Hg Hv'. eapply (runs_post grant grows).
    + apply IH; [right; exact Hv'| |exact Hlt]. eapply Forall2_impl; [exact Hc'|]. intros w u Hw. eapply flat_mono; eassumption.
    + intros w h' _ Hw _. exact Hw.
Qed.

(** The builder that [s] has been read from. *)
Lemma built_read h bd v c s : built h bd s -> str_of h v s ->
  (c = bd_cached bd \/ (c = v /\ str_is_heap_rope v = false)) ->
  built h (StrBuilder (bd_len bd) v [] c [] (bd_ascii bd)) s.
Proof.
  intros [_ _ Hl Ha Hk] Hv Hc. split; cbn; auto.
  - exists s, []. splits; auto. cbn. rewrite app_nil_r. reflexivity.
  - split; [reflexivity|]. unfold STR_BUILDER_TAIL_CAP, zlen. cbn. lia.
  - destruct Hc as [-> |[-> Hr]]; [exact Hk|]. right. right. apply flat_of_not_rope; assumption.
Qed.

Lemma join_pieces_ok E h bd s : built h bd s ->
  runs grant E grows (join_pieces grant junk bd) h (fun v h' => str_of h' v s).
Proof.
  intros [(s0 & ss & H0 & Hc & Hs) [Htw Htl] [Hl Hlt] _ _]. rewrite Hs, app_assoc in Hlt |- *. clear Hs s Hl.
  pose proof (zlen_nonneg (bd_tail bd)). set (t := s0 ++ concat ss) in *.
  eapply (runs_bind grant grows); [apply join_chunks_ok; [exact H0|exact Hc|]|]. { rewrite zlen_app in Hlt. fold t. lia. }
  intros v1 h1 Hg1 Hv1. fold t in Hv1.
  eapply (runs_bind grant grows) with (P := fun v h' => piece_of h' v (t ++ bd_tail bd)).
  { destruct (bd_tail bd) as [|c0 tl0] eqn:Et; [apply (runs_ret grant grows); rewrite app_nil_r; auto|]. rewrite <- Et in *.
    eapply (runs_bind grant grows); [apply mkstr_ok; [exact Htw|unfold MAX_LEN, STR_BUILDER_TAIL_CAP in *; lia]|].
    intros v2 h2 Hg2 [_ Hv2]. eapply (runs_post grant grows).
    - apply join_one_ok; [eapply piece_mono; [apply (gr_str _ _ Hg2)|exact Hv1]|exact Hv2|exact Hlt].
    - intros v h' _ Hv _ . right. exact Hv. }
  intros v3 h3 _ Hv3. apply piece_is_str in Hv3. destruct (is_str v3).
  - apply (runs_ret grant grows). auto.
  - destruct Hv3 as [_ Hnil]. rewrite Hnil. eapply (runs_post grant grows); [apply mkstr_ok; reflexivity|].
    intros v h' _ [_ Hv] _ _. exact Hv.
Qed.

Lemma set_read_ok E h a bd s v c : hp_builders h !! a = Some bd -> built h bd s -> str_of h v s ->
  (c = bd_cached bd \/ (c = v /\ str_is_heap_rope v = false)) ->
  runs grant E keeps (set_builder a (StrBuilder (bd_len bd) v [] c [] (bd_ascii bd)) ;;; ret v) h
    (fun w h' => w = v /\ str_of h' v s).
Proof.
  intros Ha Hb Hv Hc. set (bd' := StrBuilder _ _ _ _ _ _).
  assert (Hb' : built h bd' s) by (apply built_read; assumption).
  pose proof (set_rebuilt a bd' h) as Hr. pose proof Hr as (_ & Hm & _). split.
  - eapply rebuilt_keeps; [exact Hr|exists bd; split; eassumption|]. eapply built_mono; [exact Hm|exact Hb'].
  - split; [reflexivity|]. apply Hm. exact Hv.
Qed.

Lemma snapshot_ok E h a s : builder_of h a s ->
  runs grant E keeps (sv_string_builder_snapshot grant junk (VBuilder a)) h (fun v h' => str_of h' v s).
Proof.
  intros (bd & Ha & Hb). pose proof Hb as [(s0 & ss & H0 & Hc & Hs) _ _ _ Hk]. cbn [sv_string_builder_snapshot].
  eapply runs_step; [apply get_builder_ok; exact Ha|]. cbv beta zeta.
  set (idle := match bd_chunks bd, bd_tail bd with [], [] => true | _, _ => false end).
  assert (Hidle : idle = true -> s = s0).
  { unfold idle. rewrite Hs. destruct (bd_chunks bd); [|discriminate]. destruct (bd_tail bd); [|discriminate]. intros _.
    inversion Hc; subst. cbn. apply app_nil_r. }
  destruct (idle && is_str (bd_snapshot bd)) eqn:E1.
  { apply andb_true_iff in E1 as [Ei Es]. rewrite (Hidle Ei). apply (runs_ret grant keeps).
    destruct H0 as [[H0 _]|H0]; [rewrite H0 in Es; discriminate|exact H0]. }
  destruct (idle && is_str (bd_cached bd) && _ && _) eqn:E2.
  { boolprop. apply (runs_ret grant keeps).
    destruct Hk as [Hk|[Hk|[_ Hk]]]; [rewrite Hk in *; discriminate..|exact Hk]. }
  clear idle Hidle E1 E2.
  eapply (runs_bind grant keeps).
  { eapply runs_effect; [eapply (runs_post grant grows); [apply join_pieces_ok; exact Hb|]|apply grows_keeps].
    intros v h' Hg Hv. exact (conj Hg Hv). }
  intros v h1 _ [Hg Hv]. assert (Ha1 : hp_builders h1 !! a = Some bd) by (rewrite (gr_builders _ _ Hg); exact Ha).
  pose proof (built_mono _ _ _ _ (gr_str _ _ Hg) Hb) as Hb1.
  eapply runs_step; [apply get_builder_ok; exact Ha1|]. cbv beta.
  eapply (runs_post grant keeps); [apply set_read_ok with (s := s); auto|].
  - destruct (str_is_heap_rope v); auto.
  - intros w h' _ [-> Hw] _. exact Hw.
Qed.

(** ** Flattening a builder *)

Lemma copy_chunks_run h mat chunks : forall done rest ss, Forall2 (flat_of h) chunks ss -> zlen (concat ss) <= zlen rest ->
  exists rest', copy_chunks mat chunks (done ++ rest) (zlen done) h =
    Some (Ok ((done ++ concat ss) ++ rest', zlen (done ++ concat ss)), h) /\ zlen rest' = zlen rest - zlen (concat ss).
Proof.
  induction chunks as [|v chunks IH]; intros done rest ss Hc Hl; inversion Hc as [|? t ? ss' [[b ->] Hv] Hc']; subst; cbn [copy_chunks concat] in *.
  - exists rest. rewrite app_nil_r. split; [reflexivity|]. change (zlen []) with 0. lia.
  - rewrite zlen_app in Hl. pose proof (zlen_nonneg (concat ss')).
    destruct (memcpy_next done rest t ltac:(lia)) as (rest1 & Em & Hr1).
    destruct (IH (done ++ t) rest1 ss' Hc' ltac:(lia)) as (rest2 & Ec & Hr2).
    exists rest2. split; [|rewrite zlen_app; lia]. cbn [str_is_heap_rope str_is_heap_builder orb].
    unfold bind at 1, ret at 1. unfold bind at 1. rewrite (flat_of_string h (VFlat b) t) by (split; eauto).
    unfold bind, of_option. rewrite Em. rewrite <- zlen_app, Ec, app_assoc. reflexivity.
Qed.

Lemma builder_flatten_ok E h a s n : builder_of h a s ->
  runs grant E keeps (builder_flatten grant junk (materialize grant junk n) (VBuilder a)) h (fun v h' => flat_of h' v s).
Proof.
  intros (bd & Ha & Hb). pose proof Hb as [(s0 & ss & H0 & Hc & Hs) [Htw Htl] [Hl Hlt] Hasc Hk]. cbn [builder_flatten].
  pose proof (built_wf _ _ _ Hb) as Hw.
  eapply runs_step; [apply get_builder_ok; exact Ha|]. cbv beta zeta.
  destruct (is_str (bd_cached bd) && _ && _) eqn:E1.
  { boolprop. apply (runs_ret grant keeps). destruct Hk as [Hk|[Hk|Hk]]; [rewrite Hk in *; discriminate..|exact Hk]. }
  assert (Hnum : forall k, bd_cached bd = VNum k -> k = zlen (wtf16 s)).
  { intros k Ek. destruct Hk as [Hk|[Hk|[[b Hk] _]]]; rewrite Hk in *; congruence. }
  destruct (cached_flat_ok s (bd_cached bd) Hw Hlt Hnum) as [Hok Hfb]. rewrite <- Hasc in Hok, Hfb.
  assert (Hz : zlen s = zlen s0 + zlen (concat ss) + zlen (bd_tail bd)) by (rewrite Hs, !zlen_app; lia).
  pose proof (zlen_nonneg s0). pose proof (zlen_nonneg (concat ss)). pose proof (zlen_nonneg (bd_tail bd)).
  eapply (runs_bind grant keeps); [apply grows_runs_keeps, asks_runs, mkstr_null_ok; rewrite Hl; lia|].
  intros d h1 Hk1 [Ha1 Hd]. rewrite Hl in Hd.
  eapply (runs_bind grant keeps) with (P := fun p h' => grows h h' /\ exists rest, p = (s0 ++ rest, zlen s0) /\ zlen rest = zlen s - zlen s0).
  { pose proof (asks_grows _ _ Ha1) as Hg1. destruct H0 as [[H0 ->]|H0].
    - rewrite H0. cbn [is_str]. apply (runs_ret grant keeps). split; [exact Hg1|]. exists d. split; [reflexivity|]. change (zlen []) with 0. lia.
    - destruct (str_of_facts _ _ _ H0) as (_ & _ & -> & _). eapply runs_effect; [|apply grows_keeps].
      eapply (runs_bind grant grows); [apply materialize_ok, (gr_str _ _ Hg1); exact H0|]. intros v h2 Hg2 Hv.
      eapply runs_step; [apply flat_of_string; exact Hv|]. cbv beta.
      destruct (memcpy_first d s0 ltac:(lia)) as (rest & -> & Hrest). eapply runs_step; [reflexivity|]. cbv beta.
      apply (runs_ret grant grows). intros _. split; [eapply eff_trans; eassumption|]. exists rest. split; [reflexivity|]. lia. }
  intros [d2 cur] h2 Hk2 [Hg2 (rest & E2 & Hrest)]. injection E2 as -> ->.
  assert (Hc2 : Forall2 (flat_of h2) (bd_chunks bd) ss) by (eapply Forall2_impl; [exact Hc|]; intros ? ?; apply flat_mono; exact Hg2).
  destruct (copy_chunks_run h2 (materialize grant junk n) _ s0 rest ss Hc2 ltac:(lia)) as (rest2 & E3 & Hrest2).
  eapply runs_step; [exact E3|]. cbv beta iota.
  destruct (memcpy_next (s0 ++ concat ss) rest2 (bd_tail bd) ltac:(lia)) as (rest3 & E4 & Hrest3). rewrite E4.
  eapply runs_step; [reflexivity|]. cbv beta zeta. rewrite (zlen_zero rest3) by lia. rewrite app_nil_r, <- app_assoc, <- Hs.
  eapply (runs_bind grant keeps).
  { apply grows_runs_keeps. eapply (runs_post grant grows); [apply new_flat_runs; exact Hok|]. intros v h' Hg [_ Hv]. exact (conj Hg Hv). }
  intros v h3 _ [Hg3 Hv]. rewrite Hfb in Hv. pose proof (eff_trans _ _ _ Hg2 Hg3) as Hg.
  assert (Ha3 : hp_builders h3 !! a = Some bd) by (rewrite (gr_builders _ _ Hg); exact Ha).
  pose proof (built_mono _ _ _ _ (gr_str _ _ Hg) Hb) as Hb3.
  eapply (runs_post grant keeps); [apply set_read_ok with (s := s); [exact Ha3|exact Hb3|apply Hv|]|].
  - right. split; [reflexivity|]. destruct Hv as [[b ->] _]. reflexivity.
  - intros w h' _ [-> Hfin] _ _ _. split; [apply Hv|exact Hfin].
Qed.
End reading.

(** ** Strings of every kind *)

Section values.
Context (grant : nat -> bool) (junk : Z).

Lemma den_str h v s : den h v s -> str_is_heap_builder v = false -> str_of h v s.
Proof. intros [H|(a & -> & _)]; [auto|discriminate]. Qed.

Lemma den_builder h a s : den h (VBuilder a) s -> builder_of h a s.
Proof. intros [H|(b & [= <-] & H)]; [inversion H|exact H]. Qed.

Lemma den_is_str h v s : den h v s -> is_str v = true.
Proof. intros [H|(a & -> & _)]; [|reflexivity]. destruct (str_of_facts _ _ _ H) as (_ & _ & Hi & _). exact Hi. Qed.

Lemma den_wf h v s : den h v s -> scan_wf s = true /\ zlen s < MAX_LEN.
Proof.
  intros [H|(a & -> & bd & _ & Hb)].
  - destruct (str_of_facts _ _ _ H) as (? & ? & _). auto.
  - split; [eapply built_wf; exact Hb|apply Hb].
Qed.

Lemma flat_den h v s : flat_of h v s -> str_of h v s.
Proof. intros [_ H]. exact H. Qed.

Lemma materialize_den E h v s : den h v s ->
  runs grant E keeps (str_materialize grant junk v) h (fun fl h' => flat_of h' fl s).
Proof.
  intros [H|(a & -> & H)].
  - apply grows_runs_keeps, materialize_ok. exact H.
  - apply builder_flatten_ok. exact H.
Qed.

Lemma read_value_ok E h v s : den h v s ->
  runs grant E keeps (sv_string_builder_read_value grant junk v) h (fun w h' => str_of h' w s).
Proof.
  intros H. unfold sv_string_builder_read_value. destruct (str_is_heap_builder v) eqn:Eb.
  - destruct v; try discriminate. apply snapshot_ok, den_builder. exact H.
  - apply (runs_ret grant keeps). apply den_str; assumption.
Qed.

Lemma flush_slot_ok E h v s : den h v s ->
  runs grant E keeps (sv_string_builder_flush_slot grant junk v) h (fun w h' => str_of h' w s).
Proof.
  intros H. unfold sv_string_builder_flush_slot. destruct (str_is_heap_builder v) eqn:Eb.
  - eapply (runs_post grant keeps); [apply materialize_den; exact H|]. intros w h' _. apply flat_den.
  - apply (runs_ret grant keeps). apply den_str; assumption.
Qed.

(** A value as it enters a concatenation: builders are flattened first. *)
Lemma unbuilt_ok E h v s : den h v s ->
  runs grant E keeps (if str_is_heap_builder v then str_materialize grant junk v else ret v) h (fun w h' => str_of h' w s).
Proof. exact (flush_slot_ok E h v s). Qed.

Lemma plus_den E h l r s t : den h l s -> den h r t -> zlen (s ++ t) < MAX_LEN ->
  runs grant E keeps (do_string_op grant junk TOK_PLUS l r) h (fun v h' => str_of h' v (s ++ t)).
Proof.
  intros Hl Hr Hlt. cbn [do_string_op]. unfold string_plus.
  eapply (runs_bind grant keeps); [apply unbuilt_ok; exact Hl|]. intros l1 h1 Hk1 Hl1.
  eapply (runs_bind grant keeps); [apply unbuilt_ok, (keeps_den _ _ _ _ Hk1); exact Hr|]. intros r1 h2 Hk2 Hr1.
  eapply (runs_post grant keeps).
  - apply grows_runs_keeps, concat_strings_ok; [apply (kp_str _ _ Hk2); exact Hl1|exact Hr1|exact Hlt].
  - intros v h' _ Hv _ _. exact Hv.
Qed.

Lemma normalize_ok E h v s : den h v s ->
  runs grant E keeps (sv_builder_normalize_chunk grant junk v) h (fun w h' => flat_of h' w s).
Proof.
  intros H. unfold sv_builder_normalize_chunk. rewrite (den_is_str _ _ _ H). apply materialize_den. exact H.
Qed.

(** A new builder is empty and nobody else's. *)
Lemma new_builder_ok E h : let a := length (hp_builders h) in
  runs grant E (changes a) (sv_string_builder_new grant) h (fun v h' => v = VBuilder a /\ builder_of h' a []).
Proof.
  intros a. eapply (runs_bind grant (changes a)) with (P := fun b h' => asks h h' /\ (b = false -> refused grant h h')).
  { eapply runs_effect; [eapply (runs_post grant asks); [apply request_runs|]|intros h' Ha; apply keeps_changes, grows_keeps, asks_grows; exact Ha].
    intros b h' Ha Hb. auto. }
  intros [|] h1 _ [Ha Href]; cbn [negb]; [|apply (runs_err grant (changes a)); auto].
  assert (El : length (hp_builders h1) = a) by (destruct Ha as (_ & _ & -> & _); reflexivity).
  assert (Hs : forall v s, str_of h1 v s -> str_of (Heap (hp_flats h1) (hp_ropes h1)
    (hp_builders h1 ++ [StrBuilder 0 VUndef [] VUndef [] STR_ASCII_YES]) (hp_asked h1)) v s).
  { apply str_of_flats; [reflexivity|]. intros b f Hb Ho. exists f. auto. }
  split; [split; [cbn; lia|exact Hs|]|intros _; split; [rewrite El; reflexivity|]].
  - intros b s Hne (bd & Hl & Hb). exists bd. cbn. split; [apply lookup_app_l_Some; exact Hl|eapply built_mono; [exact Hs|exact Hb]].
  - exists (StrBuilder 0 VUndef [] VUndef [] STR_ASCII_YES). cbn [hp_builders]. rewrite <- El, lookup_app_r, Nat.sub_diag by lia.
    split; [reflexivity|]. split; cbn; auto.
    + exists [], []. cbn. auto.
    + split; [reflexivity|]. unfold STR_BUILDER_TAIL_CAP, zlen. cbn. lia.
    + split; [reflexivity|]. unfold MAX_LEN, zlen. cbn. lia.
Qed.

Lemma tries_changes {A} E a (m : M A) h Q : tries grant E a m h Q -> runs grant E (changes a) m h Q.
Proof.
  unfold tries, runs. destruct (m h) as [[[x|k msg] h1]|]; auto. intros (Hk & Hx). split; [apply keeps_changes; exact Hk|exact Hx].
Qed.

Lemma changes_fresh a h h' : hp_builders h !! a = None -> changes a h h' -> keeps h h'.
Proof.
  intros Hn [Ha Hs Hb]. split; auto. intros b s Hof. apply Hb; [|exact Hof]. intros ->.
  destruct Hof as (bd & Hl & _). congruence.
Qed.

Lemma build_two_ok E h l r s t : den h l s -> den h r t -> zlen (s ++ t) < MAX_LEN ->
  runs grant E keeps (build_two grant junk l r) h
    (fun v h' => exists a, v = VBuilder a /\ builder_of h' a (s ++ t) /\ forall b u, builder_of h b u -> b <> a).
Proof.
  intros Hl Hr Hlt. unfold build_two.
  eapply (runs_bind grant keeps); [apply normalize_ok; exact Hl|]. intros l1 h1 Hk1 Hl1.
  eapply (runs_bind grant keeps); [apply normalize_ok, (keeps_den _ _ _ _ Hk1); exact Hr|]. intros r1 h2 Hk2 Hr1.
  assert (Hl2 : flat_of h2 l1 s) by (destruct Hl1; split; [assumption|apply (kp_str _ _ Hk2); assumption]).
  set (a := length (hp_builders h2)). assert (Hn : hp_builders h2 !! a = None) by (apply lookup_ge_None_2; reflexivity).
  eapply runs_effect; [|intros h'; apply changes_fresh; exact Hn].
  eapply (runs_bind grant (changes a)); [apply new_builder_ok|]. intros v h3 Hc3 [-> Hof]. fold a.
  assert (Hmono : forall h h' v s, changes a h h' -> flat_of h v s -> flat_of h' v s)
    by (intros ? ? ? ? Hc [? ?]; split; [assumption|apply (ch_str _ _ _ Hc); assumption]).
  assert (Hls : zlen ([] ++ s) < MAX_LEN) by (rewrite zlen_app in Hlt; pose proof (zlen_nonneg t); cbn [app]; lia).
  eapply (runs_bind grant (changes a)); [apply tries_changes, append_flat_ok; [exact Hof|apply (Hmono h2 h3); [exact Hc3|exact Hl2]|exact Hls]|].
  intros [] h4 Hc4 Hof4. cbn [app] in Hof4.
  eapply (runs_bind grant (changes a)); [apply tries_changes, append_flat_ok; [exact Hof4|apply (Hmono h3 h4), (Hmono h2 h3); [exact Hc4|exact Hc3|exact Hr1]|exact Hlt]|].
  intros [] h5 Hc5 Hof5. apply (runs_ret grant (changes a)). intros _ _ _ _ _. exists a. splits; auto.
  intros b u (bd & Hb & Hbt) ->. destruct (kp_builders _ _ Hk2 a u (kp_builders _ _ Hk1 a u (ex_intro _ bd (conj Hb Hbt)))) as (bd' & Hb' & _).
  congruence.
Qed.

(** Appending to a slot: it holds the longer string, in its own builder or in a
    new one, and nothing else changes. *)
Definition appended (h : heap) (slot v : val) (h' : heap) (s : list Z) : Prop :=
  exists a, v = VBuilder a /\ builder_of h' a s /\ changes a h h' /\
    (slot = v \/ forall b u, builder_of h b u -> b <> a).

Lemma append_slot_ok E h slot rhs s t : den h slot s -> den h rhs t -> zlen (s ++ t) < MAX_LEN ->
  match sv_string_builder_append_slot grant junk slot rhs h with
  | Some (Ok v, h') => appended h slot v h' (s ++ t)
  | Some (Err k _, h') => keeps h h' /\ k = JS_ERR_TYPE /\ (E \/ refused grant h h')
  | None => False
  end.
Proof.
  intros Hs Ht Hlt. destruct (str_is_heap_builder slot) eqn:Eb.
  - destruct slot as [| | | | |a]; try discriminate.
    assert (H : tries grant E a (sv_string_builder_append_slot grant junk (VBuilder a) rhs) h
      (fun v h' => v = VBuilder a /\ builder_of h' a (s ++ t))).
    { eapply tries_bind; [apply normalize_ok; exact Ht|]. intros r h1 Hk1 Hr1.
      pose proof (append_flat_ok grant junk (E \/ refused grant h h1) h1 a r s t
        (kp_builders _ _ Hk1 _ _ (den_builder _ _ _ Hs)) Hr1 Hlt) as Ha.
      unfold tries, bind in *. destruct (sv_builder_append_flat _ _ _ _ _) as [[[[]|k msg] h2]|]; [|exact Ha|exact Ha].
      destruct Ha as [Hc Hof]. split; [exact Hc|]. auto. }
    unfold tries in H. destruct (sv_string_builder_append_slot _ _ _ _ _) as [[[v|k msg] h']|]; [|exact H|exact H].
    destruct H as (Hc & -> & Hof). exists a. auto.
  - replace (sv_string_builder_append_slot grant junk slot rhs) with (build_two grant junk slot rhs) by (destruct slot; try discriminate; reflexivity).
    pose proof (build_two_ok E h slot rhs s t Hs Ht Hlt) as H. unfold runs in H.
    destruct (build_two _ _ _ _ _) as [[[v|k msg] h']|]; [|exact H|exact H].
    destruct H as (Hk & a & -> & Hof & Hfresh). exists a. splits; auto. apply keeps_changes. exact Hk.
Qed.
End values.

(** ** Lengths of a string of any kind *)

Section measuring.
Context (grant : nat -> bool) (junk : Z).

Lemma den_len_fast h v s : den h v s -> str_len_fast v h = Some (Ok (zlen s), h).
Proof.
  intros [H|(a & -> & bd & Ha & Hb)]; [apply str_len_fast_ok; exact H|].
  cbn [str_len_fast]. unfold bind. rewrite (get_builder_ok _ _ _ Ha). rewrite (proj1 (bt_len _ _ _ Hb)). reflexivity.
Qed.

Lemma sum_flats_run n chunks : forall h total ss, Forall2 (flat_of h) chunks ss -> 0 <= total -> total + zlen (concat ss) < 2 ^ 64 ->
  exists h', sum_utf16_len (utf16_len grant junk (S n)) chunks total h = Some (Ok (total + zlen (wtf16 (concat ss))), h') /\ grows h h'.
Proof.
  induction chunks as [|v chunks IH]; intros h total ss Hc H0 Hlt; inversion Hc as [|? s ? ss' [[b ->] Hv] Hc']; subst; cbn [sum_utf16_len concat] in *.
  - exists h. change (zlen (wtf16 [])) with 0. rewrite Z.add_0_r. split; [reflexivity|apply eff_refl].
  - destruct (flat_len_run h b s Hv) as (h1 & E1 & G1 & _). change (utf16_len grant junk (S n) (VFlat b)) with (flat_utf16_len_at b). unfold bind. rewrite E1.
    rewrite zlen_app in Hlt. pose proof (zlen_wtf16 s). pose proof (zlen_nonneg (concat ss')). rewrite wrap_small by lia.
    destruct (IH h1 (total + zlen (wtf16 s)) ss') as (h2 & E2 & G2); [|lia|lia|].
    { eapply Forall2_impl; [exact Hc'|]. intros w t. apply flat_mono. exact G1. }
    exists h2. rewrite E2. split; [|eapply eff_trans; eassumption].
    destruct (str_of_facts _ _ _ Hv) as (Hw & _). rewrite wtf16_app, zlen_app by exact Hw. do 3 f_equal. lia.
Qed.

(** What a measured string promises: the exact length, or, after a refusal, some
    length; that of a flat string or a rope is then 0. *)
Definition measured_as (h : heap) (v : val) (s : list Z) (r : option (result Z * heap)) : Prop :=
  match r with
  | Some (Ok n, h') => (n = zlen (wtf16 s) /\ keeps h h') \/
      (refused grant h h' /\ (str_of h v s -> n = 0 /\ keeps h h') /\ forall w t, w <> v -> den h w t -> den h' w t)
  | Some (Err k _, h') => k = JS_ERR_TYPE /\ refused grant h h' /\ keeps h h'
  | None => False
  end.

Lemma keeps_others h h' v : keeps h h' -> forall w t, w <> v -> den h w t -> den h' w t.
Proof. intros Hk w t _. apply keeps_den. exact Hk. Qed.

Lemma measured_weak h v s (m : M Z) : runs grant False grows m h (len_or_zero grant False h s) -> measured_as h v s (m h).
Proof.
  unfold runs, measured_as. destruct (m h) as [[[n|k msg] h']|]; [| |auto].
  - intros [Hg [->|[-> [[]|Hr]]]]; pose proof (grows_keeps _ _ Hg) as Hk; [left; auto|right].
    splits; [exact Hr|auto|apply keeps_others; exact Hk].
  - intros (Hg & Hk & [[]|Hr]). splits; auto. apply grows_keeps. exact Hg.
Qed.

(** The total of the pieces, in which the snapshot may count for 0. *)
Lemma total_run h bd s : built h bd s -> bd_ascii bd <> STR_ASCII_YES ->
  match (let* total := if is_str (bd_snapshot bd) then utf16_len grant junk 2 (bd_snapshot bd) else ret 0 in
         let* total := sum_utf16_len (utf16_len grant junk 2) (bd_chunks bd) total in
         ret (u64 (total + Z.of_nat (utf16_strlen (bd_tail bd) (length (bd_tail bd)))))) h with
  | Some (Ok n, h') => grows h h' /\ (n = zlen (wtf16 s) \/ refused grant h h')
  | Some (Err k _, h') => grows h h' /\ k = JS_ERR_TYPE /\ refused grant h h'
  | None => False
  end.
Proof.
  intros [(s0 & ss & H0 & Hc & Hs) [Htw Htl] [_ Hlt] _ _] _.
  assert (Hz : zlen s = zlen s0 + zlen (concat ss) + zlen (bd_tail bd)) by (rewrite Hs, !zlen_app; lia).
  pose proof (zlen_nonneg s0). pose proof (zlen_nonneg (concat ss)). pose proof (zlen_nonneg (bd_tail bd)).
  pose proof (zlen_wtf16 s0). pose proof (zlen_wtf16 (concat ss)). pose proof (zlen_wtf16 (bd_tail bd)).
  assert (Hw : zlen (wtf16 s) = zlen (wtf16 s0) + zlen (wtf16 (concat ss)) + zlen (wtf16 (bd_tail bd))).
  { assert (scan_wf s0 = true) by (destruct H0 as [[_ ->]|H0]; [reflexivity|apply (str_of_facts _ _ _ H0)]).
    rewrite Hs, !wtf16_app, !zlen_app by (assumption || (eapply chunks_wf; eassumption)). lia. }
  assert (Htail : Z.of_nat (utf16_strlen (bd_tail bd) (length (bd_tail bd))) = zlen (wtf16 (bd_tail bd))).
  { rewrite utf16_strlen_wtf16 by exact Htw. reflexivity. }
  assert (Hsnap : runs grant False grows (if is_str (bd_snapshot bd) then utf16_len grant junk 2 (bd_snapshot bd) else ret 0) h (len_or_zero grant False h s0)).
  { destruct H0 as [[-> ->]|H0]; [apply (runs_ret grant grows); left; reflexivity|].
    destruct (str_of_facts _ _ _ H0) as (_ & _ & -> & _). apply utf16_len_ok; [lia|exact H0]. }
  set (m0 := if is_str (bd_snapshot bd) then utf16_len grant junk 2 (bd_snapshot bd) else ret 0) in *.
  unfold MAX_LEN in Hlt. unfold bind at 1. unfold runs in Hsnap.
  destruct (m0 h) as [[[n0|k msg] h1]|]; [|destruct Hsnap as (? & ? & [[]|?]); auto|exact Hsnap].
  destruct Hsnap as [G1 Hn0]. assert (0 <= n0 <= zlen s0) by (destruct Hn0 as [->|[-> _]]; lia).
  destruct (sum_flats_run 1 (bd_chunks bd) h1 n0 ss) as (h2 & E2 & G2); [|lia|lia|].
  { eapply Forall2_impl; [exact Hc|]. intros w t. apply flat_mono. exact G1. }
  unfold bind. rewrite E2. unfold ret. rewrite Htail, wrap_small by lia. split; [eapply eff_trans; eassumption|].
  destruct Hn0 as [->|[_ [[]|Hr]]]; [left; lia|right]. eapply refused_mono; [| |exact Hr]; [lia|apply (gr_asked _ _ G2)].
Qed.

(** A builder that has been measured. *)
Lemma built_measured h bd s : built h bd s ->
  built h (StrBuilder (bd_len bd) (bd_snapshot bd) (bd_chunks bd) (tov_int (zlen (wtf16 s))) (bd_tail bd) (bd_ascii bd)) s.
Proof.
  intros [Ht Hw Hl Ha _]. pose proof (zlen_wtf16 s). destruct Hl as [Hl Hlt]. split; auto.
  right. left. cbn. unfold tov_int. rewrite round53_small by (unfold MAX_LEN in Hlt; lia). reflexivity.
Qed.

Lemma cached_text (bd : builder) h s : built h bd s -> is_str (bd_cached bd) = true -> flat_of h (bd_cached bd) s.
Proof. intros [_ _ _ _ [E|[E|E]]] Hs; [rewrite E in Hs; discriminate..|exact E]. Qed.

(** The end of the measuring of a builder: the total is kept in it. *)
Lemma keep_total h h1 a bd s n : hp_builders h !! a = Some bd -> built h bd s -> grows h h1 -> n = zlen (wtf16 s) \/ refused grant h h1 ->
  measured_as h (VBuilder a) s
    ((let* bd := get_builder a in
      set_builder a (StrBuilder (bd_len bd) (bd_snapshot bd) (bd_chunks bd) (tov_int n) (bd_tail bd) (bd_ascii bd)) ;;; ret n) h1).
Proof.
  intros Ha Hb Hg Hn. assert (Ha1 : hp_builders h1 !! a = Some bd) by (rewrite (gr_builders _ _ Hg); exact Ha).
  pose proof (built_mono _ _ _ _ (gr_str _ _ Hg) Hb) as Hb1.
  unfold bind at 1. rewrite (get_builder_ok _ _ _ Ha1). unfold bind, set_builder, ret, measured_as.
  set (bd' := StrBuilder _ _ _ _ _ _). set (h2 := Heap _ _ _ _). pose proof (set_rebuilt a bd' h1) as Hr. fold h2 in Hr.
  destruct Hn as [->|Href]; [left; split; [reflexivity|]|right].
  - eapply eff_trans; [apply grows_keeps; exact Hg|]. eapply rebuilt_keeps; [exact Hr|exists bd; eauto|].
    eapply built_mono; [apply Hr|]. apply built_measured. exact Hb1.
  - splits; [eapply refused_mono; [| |exact Href]; [lia|apply Hr]|intros H; inversion H|].
    intros w t Hw Ht. apply (keeps_den _ _ _ _ (grows_keeps _ _ Hg)) in Ht. destruct (rebuilt_changes _ _ _ _ Hr) as [_ Hs Hbs].
    destruct Ht as [Ht|(b & -> & Ht)]; [left; auto|right]. exists b. split; [reflexivity|]. apply Hbs; [congruence|exact Ht].
Qed.

Lemma builder_measured h a s : builder_of h a s -> measured_as h (VBuilder a) s (str_utf16_len grant junk (VBuilder a) h).
Proof.
  intros (bd & Ha & Hb). unfold str_utf16_len. remember 2%nat as two eqn:E2. cbn [utf16_len]. subst two. unfold builder_utf16_len_lazy.
  unfold bind at 1. rewrite (get_builder_ok _ _ _ Ha).
  assert (Hlazy : is_str (bd_cached bd) = false -> measured_as h (VBuilder a) s
    ((let* total := if bd_ascii bd =? STR_ASCII_YES then ret (bd_len bd)
        else let* total := if is_str (bd_snapshot bd) then utf16_len grant junk 2 (bd_snapshot bd) else ret 0 in
             let* total := sum_utf16_len (utf16_len grant junk 2) (bd_chunks bd) total in
             ret (u64 (total + Z.of_nat (utf16_strlen (bd_tail bd) (length (bd_tail bd))))) in
      let* bd := get_builder a in
      set_builder a (StrBuilder (bd_len bd) (bd_snapshot bd) (bd_chunks bd) (tov_int total) (bd_tail bd) (bd_ascii bd)) ;;; ret total) h)).
  { intros _. destruct (Z.eqb_spec (bd_ascii bd) STR_ASCII_YES) as [Ey|Ny].
    - unfold bind at 1, ret at 1. apply keep_total with (bd := bd); auto; [apply eff_refl|left].
      rewrite (proj1 (bt_len _ _ _ Hb)). rewrite wtf16_ascii; [reflexivity|]. rewrite <- detect_ascii_spec, <- (bt_ascii _ _ _ Hb), Ey. reflexivity.
    - pose proof (total_run h bd s Hb Ny) as H. unfold bind at 1.
      match type of H with match ?m with _ => _ end => destruct m as [[[n|k msg] h1]|]; [| |exact H] end.
      + destruct H as [Hg Hn]. apply keep_total with (bd := bd); assumption.
      + destruct H as (Hg & Hk & Hr). unfold measured_as. splits; auto. apply grows_keeps. exact Hg. }
  destruct (bd_cached bd) as [|n|b|b|b|b] eqn:Ec; try (apply Hlazy; reflexivity).
  - unfold ret, measured_as. left. split; [|apply eff_refl]. destruct (bt_cached _ _ _ Hb) as [E|[E|[[? E] _]]]; rewrite Ec in E; congruence.
  - cbn [is_str]. assert (Hf : flat_of h (VFlat b) s) by (rewrite <- Ec; apply cached_text with (bd := bd); [exact Hb|rewrite Ec; reflexivity]).
    destruct (flat_len_run h b s (proj2 Hf)) as (h1 & E1 & G1 & _). change (utf16_len grant junk 2 (VFlat b)) with (flat_utf16_len_at b). rewrite E1.
    left. split; [reflexivity|apply grows_keeps; exact G1].
  - destruct (cached_text bd h s Hb) as [[b' E] _]; [rewrite Ec; reflexivity|congruence].
  - destruct (cached_text bd h s Hb) as [[b' E] _]; [rewrite Ec; reflexivity|congruence].
Qed.

(** C5: a well-formed string can be flattened and measured whatever its shape,
    a flat string, a rope or a string builder: the loops end within their fuel,
    no assertion fails and no access leaves an object; flattening gives a flat
    string with the same bytes, or an error when memory is refused, and the
    byte length is exact. So is the length in UTF-16 units, which is that of
    the decoded string, as long as no allocation is refused while it is
    computed. After a refusal the length of a flat string or a rope may be 0,
    and that of a builder anything. Every string keeps its meaning, whatever is
    cached on the way, but for a builder whose measuring was refused memory:
    the wrong length stays in it. *)
Theorem string_flatten_correct h v s : den h v s ->
  runs grant False keeps (str_materialize grant junk v) h (fun fl h' => flat_of h' fl s) /\
  str_len_fast v h = Some (Ok (zlen s), h) /\
  measured_as h v s (str_utf16_len grant junk v h).
Proof.
  intros Hv. splits; [apply materialize_den; exact Hv|apply den_len_fast; exact Hv|].
  destruct Hv as [Hv|(a & -> & Hv)]; [apply measured_weak, utf16_len_ok; [lia|exact Hv]|apply builder_measured; exact Hv].
Qed.
End measuring.

(** ** Programs over string variables

    Local variables that hold strings, and what a program does with them:
    [x += y], [x = y + z], [x = y], a variable that leaves its builder, the
    length of a string and the two comparisons.  Reading a variable goes through
    [sv_string_builder_read_value]. *)

Inductive stmt :=
| SAppend (x y : nat)
| SConcat (x y z : nat)
| SMove (x y : nat)
| SFlush (x : nat)
| SLength (x : nat)
| SEqual (x y : nat)
| SCompare (x y : nat).

Inductive obs := ONone | ONum (n : Z) | OBool (b : bool).

Section programs.
Context (grant : nat -> bool) (junk : Z).

Definition read_var (env : list val) (x : nat) : M val :=
  let* v := of_option (env !! x) in sv_string_builder_read_value grant junk v.

Definition exec1 (env : list val) (c : stmt) : M (list val * obs) :=
  match c with
  | SAppend x y =>
      let* rhs := read_var env y in
      let* slot := of_option (env !! x) in
      let* v := sv_string_builder_append_slot grant junk slot rhs in
      ret (<[x := v]> env, ONone)
  | SConcat x y z =>
      let* l := read_var env y in
      let* r := read_var env z in
      let* v := do_string_op grant junk TOK_PLUS l r in
      ret (<[x := v]> env, ONone)
  | SMove x y => let* v := read_var env y in ret (<[x := v]> env, ONone)
  | SFlush x =>
      let* slot := of_option (env !! x) in
      let* v := sv_string_builder_flush_slot grant junk slot in
      ret (<[x := v]> env, ONone)
  | SLength x => let* v := read_var env x in let* n := str_utf16_len grant junk v in ret (env, ONum n)
  | SEqual x y =>
      let* l := read_var env x in
      let* r := read_var env y in
      let* b := strict_eq_strings grant junk l r in ret (env, OBool b)
  | SCompare x y =>
      let* l := read_var env x in
      let* r := read_var env y in
      let* n := sv_strcmp grant junk l r in ret (env, ONum n)
  end.

Fixpoint exec (env : list val) (prog : list stmt) : M (list val * list obs) :=
  match prog with
  | [] => ret (env, [])
  | c :: prog =>
      let* (env, o) := exec1 env c in
      let* (env, os) := exec env prog in
      ret (env, o :: os)
  end.

End programs.

(** The same program over byte strings; [None] for a variable that does not
    exist or a string that is too long. *)
Definition short (s : list Z) : option (list Z) := if zlen s <? MAX_LEN then Some s else None.

Definition spec1 (env : list (list Z)) (c : stmt) : option (list (list Z) * obs) :=
  match c with
  | SAppend x y =>
      s ← env !! x; t ← env !! y; u ← short (s ++ t); Some (<[x := u]> env, ONone)
  | SConcat x y z =>
      _ ← env !! x; s ← env !! y; t ← env !! z; u ← short (s ++ t); Some (<[x := u]> env, ONone)
  | SMove x y => _ ← env !! x; s ← env !! y; Some (<[x := s]> env, ONone)
  | SFlush x => _ ← env !! x; Some (env, ONone)
  | SLength x => s ← env !! x; Some (env, ONum (zlen (wtf16 s)))
  | SEqual x y => s ← env !! x; t ← env !! y; Some (env, OBool (bool_decide (s = t)))
  | SCompare x y => s ← env !! x; t ← env !! y; Some (env, ONum (sign_of (bytes_compare s t)))
  end.

Fixpoint spec (env : list (list Z)) (prog : list stmt) : option (list (list Z) * list obs) :=
  match prog with
  | [] => Some (env, [])
  | c :: prog =>
      '(env, o) ← spec1 env c; '(env, os) ← spec env prog; Some (env, o :: os)
  end.

(** The variables hold these strings, and no builder is shared. *)
Record vars_ok (h : heap) (env : list val) (ss : list (list Z)) : Prop := {
  vo_den : Forall2 (den h) env ss;
  vo_own : forall i j a, env !! i = Some (VBuilder a) -> env !! j = Some (VBuilder a) -> i = j
}.

Section refinement.
Context (grant : nat -> bool) (junk : Z).

(** A run that may also end in a failed assertion when memory was refused, as
    [vstr] does. *)
Definition attempts {A} (R : heap -> heap -> Prop) (m : M A) (h : heap) (Q : A -> heap -> Prop) : Prop :=
  match m h with
  | Some (Ok a, h') => R h h' /\ Q a h'
  | Some (Err k _, h') => R h h' /\ k = JS_ERR_TYPE /\ refused grant h h'
  | None => exists k, grant k = false
  end.

Lemma attempts_runs {A} R (m : M A) h Q : runs grant False R m h Q -> attempts R m h Q.
Proof. unfold runs, attempts. destruct (m h) as [[[a|k msg] h']|]; [auto| |contradiction]. intros (HR & Hk & [[]|Hr]). auto. Qed.

Lemma attempts_effect {A} (R R' : heap -> heap -> Prop) (m : M A) h Q :
  attempts R m h Q -> (forall h', R h h' -> R' h h') -> attempts R' m h Q.
Proof. unfold attempts. intros H HR. destruct (m h) as [[[a|k msg] h']|]; [| |exact H]; destruct H; auto. Qed.

Lemma attempts_ret {A} R `{!Effect R} (a : A) h (Q : A -> heap -> Prop) : Q a h -> attempts R (ret a) h Q.
Proof. intros H. split; [apply eff_refl|exact H]. Qed.

Lemma attempts_bind {A B} R `{!Effect R} (m : M A) (f : A -> M B) h (P : A -> heap -> Prop) (Q : B -> heap -> Prop) :
  attempts R m h P -> (forall a h1, R h h1 -> P a h1 -> attempts R (f a) h1 (fun b h2 => R h1 h2 -> Q b h2)) -> attempts R (bind m f) h Q.
Proof.
  intros Hm Hf. unfold attempts, bind in *. destruct (m h) as [[[a|k msg] h1]|]; [|exact Hm|exact Hm].
  destruct Hm as [H1 HP]. specialize (Hf a h1 H1 HP). destruct (f a h1) as [[[b|k msg] h2]|]; [| |exact Hf].
  - destruct Hf as [H2 HQ]. split; [eapply eff_trans; eassumption|auto].
  - destruct Hf as (H2 & Hk & Hr). splits; [eapply eff_trans; eassumption|exact Hk|].
    eapply refused_mono; [| |exact Hr]; [eapply eff_asked; exact H1|lia].
Qed.

Lemma attempts_post {A} R (m : M A) h (P Q : A -> heap -> Prop) : attempts R m h P -> (forall a h', P a h' -> Q a h') -> attempts R m h Q.
Proof. unfold attempts. intros H HPQ. destruct (m h) as [[[a|k msg] h']|]; [|exact H|exact H]. destruct H. auto. Qed.

Lemma attempts_step {A B} R (m : M A) (f : A -> M B) h a Q : m h = Some (Ok a, h) -> attempts R (f a) h Q -> attempts R (bind m f) h Q.
Proof. intros Em. unfold attempts, bind. rewrite Em. auto. Qed.

Lemma vstr_attempts h v s : str_of h v s -> attempts grows (vstr grant junk v) h (fun b _ => b = s).
Proof.
  intros Hs. unfold vstr. destruct (str_of_facts _ _ _ Hs) as (_ & _ & _ & Hb & _). rewrite Hb, orb_false_r.
  destruct (str_is_heap_rope v) eqn:Hr.
  - pose proof (materialize_ok grant junk False h v s 1 Hs) as Hm. unfold str_materialize.
    unfold runs, attempts, bind, catch in *. destruct (materialize _ _ _ _ _) as [[[fl|k msg] h1]|]; [| |contradiction].
    + destruct Hm as [G1 Hfl]. cbn. rewrite (flat_of_string _ _ _ Hfl). auto.
    + destruct Hm as (_ & _ & [[]|(k' & _ & Hk)]). cbn. eauto.
  - eapply attempts_step; [reflexivity|]. unfold attempts.
    rewrite (flat_of_string _ _ _ (flat_of_not_rope _ _ _ Hs Hr)). split; [apply eff_refl|reflexivity].
Qed.

(** The bytes of two strings, and what is made of them. *)
Lemma two_bytes_attempts {B} (f : list Z -> list Z -> B) h l r s t : str_of h l s -> str_of h r t ->
  attempts grows (let* a := vstr grant junk l in let* b := vstr grant junk r in ret (f a b)) h (fun x _ => x = f s t).
Proof.
  intros Hl Hr. eapply attempts_bind; [exact _|apply vstr_attempts; exact Hl|]. intros a h1 G1 ->.
  eapply attempts_bind; [exact _|apply vstr_attempts, (gr_str _ _ G1); exact Hr|]. intros b h2 G2 ->.
  apply attempts_ret; [exact _|]. auto.
Qed.

Lemma strict_eq_attempts h l r s t : str_of h l s -> str_of h r t ->
  attempts grows (strict_eq_strings grant junk l r) h (fun b _ => b = bool_decide (s = t)).
Proof.
  intros Hl Hr. eapply attempts_post; [apply (two_bytes_attempts (fun a b => (zlen a =? zlen b) && (memcmp a b (Z.to_nat (zlen a)) =? 0)) h l r s t Hl Hr)|].
  intros b h' ->. apply strict_eq_value.
Qed.

Lemma strcmp_attempts h l r s t : str_of h l s -> str_of h r t ->
  attempts grows (sv_strcmp grant junk l r) h (fun n _ => n = sign_of (bytes_compare s t)).
Proof.
  intros Hl Hr. eapply attempts_post.
  - apply (two_bytes_attempts (fun a b => let n1 := zlen a in let n2 := zlen b in let cmp := memcmp a b (Z.to_nat (Z.min n1 n2)) in
      if cmp =? 0 then (if n1 <? n2 then -1 else if n2 <? n1 then 1 else 0) else if cmp <? 0 then -1 else 1) h l r s t Hl Hr).
  - intros n h' ->. cbv zeta. rewrite min_len. apply memcmp_sign.
Qed.

Lemma vars_lookup h env ss x s : vars_ok h env ss -> ss !! x = Some s -> exists v, env !! x = Some v /\ den h v s.
Proof.
  intros [Hd _] Hs. destruct (Forall2_lookup_r _ _ _ _ _ Hd Hs) as (v & Hv & H). eauto.
Qed.

Lemma vars_keeps h h' env ss : keeps h h' -> vars_ok h env ss -> vars_ok h' env ss.
Proof.
  intros Hk [Hd Ho]. split; [|exact Ho]. eapply Forall2_impl; [exact Hd|]. intros v s. apply keeps_den. exact Hk.
Qed.

(** A variable is assigned a string that is no builder. *)
Lemma vars_assign h env ss x v s : vars_ok h env ss -> str_of h v s -> vars_ok h (<[x := v]> env) (<[x := s]> ss).
Proof.
  intros [Hd Ho] Hv. destruct (str_of_facts _ _ _ Hv) as (_ & _ & _ & Hb & _). split.
  - apply Forall2_insert; [exact Hd|]. left. exact Hv.
  - intros i j a Hi Hj. apply list_lookup_insert_Some in Hi as [(_ & E & _)|[_ Hi]]; [subst v; discriminate|].
    apply list_lookup_insert_Some in Hj as [(_ & E & _)|[_ Hj]]; [subst v; discriminate|]. eauto.
Qed.

(** A variable is appended to. *)
Lemma vars_append h h' env ss x slot v s : vars_ok h env ss -> env !! x = Some slot -> appended h slot v h' s ->
  vars_ok h' (<[x := v]> env) (<[x := s]> ss).
Proof.
  intros [Hd Ho] Hx (a & -> & Hof & Hc & Hslot).
  assert (Hne : forall i b, i <> x -> env !! i = Some (VBuilder b) -> b <> a).
  { intros i b Hix Hi. destruct Hslot as [->|Hfresh].
    - intros ->. apply Hix. eapply Ho; eassumption.
    - destruct (Forall2_lookup_l _ _ _ _ _ Hd Hi) as (u & _ & Hu). apply (Hfresh b u), den_builder. exact Hu. }
  split.
  - apply Forall2_same_length_lookup. rewrite !length_insert. split; [eapply Forall2_length; exact Hd|].
    intros i w u Hw Hu. apply list_lookup_insert_Some in Hw as [(-> & <- & Hlt)|[Hix Hw]].
    + rewrite list_lookup_insert_eq in Hu by (rewrite <- (Forall2_length _ _ _ Hd); exact Hlt). injection Hu as <-. right. eauto.
    + rewrite list_lookup_insert_ne in Hu by exact Hix.
      destruct (Forall2_lookup_lr _ _ _ _ _ _ Hd Hw Hu) as [H|(b & -> & H)]; [left; apply (ch_str _ _ _ Hc); exact H|].
      right. exists b. split; [reflexivity|]. apply (ch_builders _ _ _ Hc); [|exact H]. apply (Hne i); [congruence|exact Hw].
  - intros i j b Hi Hj. apply list_lookup_insert_Some in Hi as [(<- & [= <-] & _)|[Hix Hi]];
      apply list_lookup_insert_Some in Hj as [(<- & E & _)|[Hjx Hj]]; [reflexivity| | |eauto].
    + destruct (Hne j a); auto.
    + injection E as ->. destruct (Hne i b); auto.
Qed.

Lemma read_attempts h env ss x s : vars_ok h env ss -> ss !! x = Some s ->
  attempts keeps (read_var grant junk env x) h (fun v h' => str_of h' v s).
Proof.
  intros Hv Hs. destruct (vars_lookup _ _ _ _ _ Hv Hs) as (v & Hx & Hd). apply attempts_runs.
  unfold read_var. rewrite Hx. eapply runs_step; [reflexivity|]. apply read_value_ok. exact Hd.
Qed.

Lemma short_ok s u : short s = Some u -> u = s /\ zlen s < MAX_LEN.
Proof. unfold short. destruct (Z.ltb_spec (zlen s) MAX_LEN); [intros [= <-]; auto|discriminate]. Qed.

(** The answer of a statement: a length can be 0 when memory was refused. *)
Definition answered (h h' : heap) (c : stmt) (o o' : obs) : Prop :=
  o' = o \/ ((exists x, c = SLength x) /\ o' = ONum 0 /\ refused grant h h').

(** What a statement leaves behind. *)
Definition stmt_ok (h : heap) (env : list val) (ss : list (list Z)) (c : stmt) (ss' : list (list Z)) (o : obs) : Prop :=
  match exec1 grant junk env c h with
  | Some (Ok (env', o'), h') => (hp_asked h <= hp_asked h')%nat /\ vars_ok h' env' ss' /\ answered h h' c o o'
  | Some (Err k _, h') => vars_ok h' env ss /\ k = JS_ERR_TYPE /\ refused grant h h'
  | None => exists k, grant k = false
  end.

Ltac spec_step H x Hx := apply bind_Some in H as (x & Hx & H).

Lemma append_exec h env ss x y ss' o : vars_ok h env ss -> spec1 ss (SAppend x y) = Some (ss', o) -> stmt_ok h env ss (SAppend x y) ss' o.
Proof.
  intros Hv Hs. unfold stmt_ok. cbn [spec1 exec1] in *. spec_step Hs s Hx. spec_step Hs t Hy. spec_step Hs u Hu. injection Hs as <- <-.
  apply short_ok in Hu as [-> Hlt]. pose proof (read_attempts _ _ _ _ _ Hv Hy) as Hr. unfold attempts in Hr. unfold bind at 1.
  destruct (read_var grant junk env y h) as [[[r|k msg] h1]|]; [| |exact Hr].
  2: { destruct Hr as (Hk & Ek & Href). splits; [eapply vars_keeps; eassumption|exact Ek|exact Href]. }
  destruct Hr as [Hk1 Hr]. pose proof (vars_keeps _ _ _ _ Hk1 Hv) as Hv1. pose proof (kp_asked _ _ Hk1) as Ha1.
  destruct (vars_lookup _ _ _ _ _ Hv1 Hx) as (slot & Ex & Hd). rewrite Ex. unfold bind at 1, of_option at 1. unfold bind at 1.
  pose proof (append_slot_ok grant junk False h1 slot r s t Hd (or_introl Hr) Hlt) as Ha.
  destruct (sv_string_builder_append_slot grant junk slot r h1) as [[[v|k msg] h2]|] eqn:Ea; [| |contradiction].
  - unfold ret. assert (Hc : exists a, changes a h1 h2) by (destruct Ha as (a & _ & _ & Hc & _); eauto). destruct Hc as [a Hc].
    splits; [pose proof (ch_asked _ _ _ Hc); lia|eapply vars_append; eassumption|left; reflexivity].
  - destruct Ha as (Hk2 & Ek & [[]|Href]). splits; [eapply vars_keeps; eassumption|exact Ek|].
    eapply refused_mono; [| |exact Href]; lia.
Qed.

(** The other statements keep every string and assign at most one variable. *)
Lemma stmt_attempts h env ss c ss' o : vars_ok h env ss ->
  attempts keeps (exec1 grant junk env c) h (fun r h' => vars_ok h' r.1 ss' /\ answered h h' c o r.2) -> stmt_ok h env ss c ss' o.
Proof.
  intros Hv. unfold attempts, stmt_ok. destruct (exec1 grant junk env c h) as [[[[env' o']|k msg] h']|]; [| |auto].
  - intros (Hk & H1 & H2). splits; [apply (kp_asked _ _ Hk)|exact H1|exact H2].
  - intros (Hk & Ek & Hr). splits; [eapply vars_keeps; eassumption|exact Ek|exact Hr].
Qed.

Lemma exec1_ok h env ss c ss' o : vars_ok h env ss -> spec1 ss c = Some (ss', o) -> stmt_ok h env ss c ss' o.
Proof.
  intros Hv Hs. destruct c as [x y|x y z|x y|x|x|x y|x y]; [exact (append_exec _ _ _ _ _ _ _ Hv Hs)| | | | | |];
    (apply stmt_attempts; [exact Hv|]); cbn [spec1 exec1] in *.
  - spec_step Hs s0 H0. spec_step Hs s Hy. spec_step Hs t Hz. spec_step Hs u Hu. injection Hs as <- <-. apply short_ok in Hu as [-> Hlt].
    eapply attempts_bind; [exact _|apply read_attempts with (ss := ss) (s := s); assumption|]. intros l h1 Hk1 Hl. pose proof (vars_keeps _ _ _ _ Hk1 Hv) as Hv1.
    eapply attempts_bind; [exact _|apply read_attempts with (ss := ss) (s := t); assumption|]. intros r h2 Hk2 Hr. pose proof (vars_keeps _ _ _ _ Hk2 Hv1) as Hv2.
    eapply attempts_bind; [exact _|apply attempts_runs, plus_den; [left; apply (kp_str _ _ Hk2); exact Hl|left; exact Hr|exact Hlt]|].
    intros v h3 Hk3 Hv3. apply attempts_ret; [exact _|]. intros _ _ _. split; [|left; reflexivity].
    apply vars_assign; [eapply vars_keeps; eassumption|exact Hv3].
  - spec_step Hs s0 H0. spec_step Hs s Hy. injection Hs as <- <-.
    eapply attempts_bind; [exact _|apply read_attempts with (ss := ss) (s := s); assumption|]. intros v h1 Hk1 Hr.
    apply attempts_ret; [exact _|]. intros _. split; [|left; reflexivity]. apply vars_assign; [eapply vars_keeps; eassumption|exact Hr].
  - spec_step Hs s Hx. injection Hs as <- <-. destruct (vars_lookup _ _ _ _ _ Hv Hx) as (slot & Ex & Hd).
    rewrite Ex. eapply attempts_step; [reflexivity|].
    eapply attempts_bind; [exact _|apply attempts_runs, flush_slot_ok; exact Hd|]. intros v h1 Hk Hv1.
    apply attempts_ret; [exact _|]. intros _. split; [|left; reflexivity].
    rewrite <- (list_insert_id ss x s Hx). apply vars_assign; [eapply vars_keeps; eassumption|exact Hv1].
  - spec_step Hs s Hx. injection Hs as <- <-.
    eapply attempts_bind; [exact _|apply read_attempts with (ss := ss) (s := s); assumption|]. intros v h1 Hk1 Hr.
    eapply attempts_bind; [exact _|eapply attempts_effect; [apply attempts_runs, utf16_len_ok; [lia|exact Hr]|apply grows_keeps]|].
    intros n h2 Hk2 Hn. apply attempts_ret; [exact _|]. intros _ _. split.
    + eapply vars_keeps; [exact Hk2|]. eapply vars_keeps; eassumption.
    + destruct Hn as [->|[-> [[]|Href]]]; [left; reflexivity|right]. splits; [eauto|reflexivity|].
      eapply refused_mono; [| |exact Href]; [apply (kp_asked _ _ Hk1)|lia].
  - spec_step Hs s Hx. spec_step Hs t Hy. injection Hs as <- <-.
    eapply attempts_bind; [exact _|apply read_attempts with (ss := ss) (s := s); assumption|]. intros l h1 Hk1 Hl. pose proof (vars_keeps _ _ _ _ Hk1 Hv) as Hv1.
    eapply attempts_bind; [exact _|apply read_attempts with (ss := ss) (s := t); assumption|]. intros r h2 Hk2 Hr.
    eapply attempts_bind; [exact _|eapply attempts_effect; [apply strict_eq_attempts; [apply (kp_str _ _ Hk2); exact Hl|exact Hr]|apply grows_keeps]|].
    intros b h3 Hk3 ->. apply attempts_ret; [exact _|]. intros _ _ _. split; [|left; reflexivity].
    eapply vars_keeps; [exact Hk3|]. eapply vars_keeps; eassumption.
  - spec_step Hs s Hx. spec_step Hs t Hy. injection Hs as <- <-.
    eapply attempts_bind; [exact _|apply read_attempts with (ss := ss) (s := s); assumption|]. intros l h1 Hk1 Hl. pose proof (vars_keeps _ _ _ _ Hk1 Hv) as Hv1.
    eapply attempts_bind; [exact _|apply read_attempts with (ss := ss) (s := t); assumption|]. intros r h2 Hk2 Hr.
    eapply attempts_bind; [exact _|eapply attempts_effect; [apply strcmp_attempts; [apply (kp_str _ _ Hk2); exact Hl|exact Hr]|apply grows_keeps]|].
    intros n h3 Hk3 ->. apply attempts_ret; [exact _|]. intros _ _ _. split; [|left; reflexivity].
    eapply vars_keeps; [exact Hk3|]. eapply vars_keeps; eassumption.
Qed.

(** What a program leaves behind; after an error, the strings are those that
    the statements before the failing one make. *)
Definition program_ok (h : heap) (env : list val) (ss : list (list Z)) (prog : list stmt) (ss' : list (list Z)) (os : list obs) : Prop :=
  match exec grant junk env prog h with
  | Some (Ok (env', os'), h') => vars_ok h' env' ss' /\ Forall3 (answered h h') prog os os'
  | Some (Err k _, h') => k = JS_ERR_TYPE /\ refused grant h h' /\
      exists n env1 ss1 os1, (n < length prog)%nat /\ spec ss (take n prog) = Some (ss1, os1) /\ vars_ok h' env1 ss1
  | None => exists k, grant k = false
  end.

Lemma answered_mono h0 h h' h1 c o o' : (hp_asked h0 <= hp_asked h)%nat -> (hp_asked h' <= hp_asked h1)%nat ->
  answered h h' c o o' -> answered h0 h1 c o o'.
Proof. intros H0 H1 [->|(Hc & Ho & Hr)]; [left; reflexivity|right]. splits; auto. eapply refused_mono; eassumption. Qed.

Lemma exec_asked prog : forall h env ss ss' os, vars_ok h env ss -> spec ss prog = Some (ss', os) ->
  program_ok h env ss prog ss' os /\ match exec grant junk env prog h with Some (_, h') => (hp_asked h <= hp_asked h')%nat | None => True end.
Proof.
  induction prog as [|c prog IH]; intros h env ss ss' os Hv Hs; unfold program_ok; cbn [spec exec] in *.
  { injection Hs as <- <-. unfold ret. splits; [exact Hv|constructor|lia]. }
  apply bind_Some in Hs as ([ss1 o] & H1 & Hs). apply bind_Some in Hs as ([ss2 os2] & H2 & Hs). injection Hs as <- <-.
  pose proof (exec1_ok _ _ _ _ _ _ Hv H1) as Hc. unfold stmt_ok in Hc. unfold bind at 1 3.
  destruct (exec1 grant junk env c h) as [[[[env1 o1]|k msg] h1]|]; [| |auto].
  2: { destruct Hc as (Hv1 & Ek & Hr). assert (hp_asked h <= hp_asked h1)%nat by (destruct Hr as (j & Hj & _); lia).
       splits; auto. exists 0%nat, env, ss, []. splits; [cbn; lia|reflexivity|exact Hv1]. }
  destruct Hc as (Ha & Hv1 & Ho). destruct (IH h1 env1 ss1 ss2 os2 Hv1 H2) as [Hp Ha2]. unfold program_ok in Hp. unfold bind.
  destruct (exec grant junk env1 prog h1) as [[[[env2 os3]|k msg] h2]|]; [| |auto].
  - destruct Hp as [Hv2 Hos]. unfold ret. splits; [exact Hv2| |lia]. constructor.
    + eapply answered_mono; [| |exact Ho]; lia.
    + eapply Forall3_impl; [exact Hos|]. intros ? ? ?. apply answered_mono; lia.
  - destruct Hp as (Ek & Hr & n & env3 & ss3 & os3 & Hn & Hsp & Hv3). splits; [exact Ek| | |lia].
    + eapply refused_mono; [| |exact Hr]; lia.
    + exists (S n), env3, ss3, (o :: os3). splits; [cbn; lia| |exact Hv3]. cbn [take spec]. rewrite H1. cbn. rewrite Hsp. reflexivity.
Qed.

Lemma answered_all h h' prog os os' : (forall k, grant k = true) -> Forall3 (answered h h') prog os os' -> os' = os.
Proof.
  intros Hg. induction 1 as [|c o o' prog os os' [->|(_ & _ & j & _ & Hj)] _ IH]; [reflexivity|congruence|]. rewrite Hg in Hj. discriminate.
Qed.

End refinement.

(** C4: [x += s] makes the variable denote the longer string, in the builder it
    holds or in a new one of its own, and changes no other string; when memory is
    refused it reports an error and every string, the variable's own included,
    is as before. *)
Theorem builder_append_correct grant junk h slot rhs s t :
  den h slot s -> den h rhs t -> zlen (s ++ t) < MAX_LEN ->
  match sv_string_builder_append_slot grant junk slot rhs h with
  | Some (Ok v, h') => appended h slot v h' (s ++ t)
  | Some (Err k _, h') => keeps h h' /\ k = JS_ERR_TYPE /\ refused grant h h'
  | None => False
  end.
Proof.
  intros Hs Ht Hlt. pose proof (append_slot_ok grant junk False h slot rhs s t Hs Ht Hlt) as H.
  destruct (sv_string_builder_append_slot _ _ _ _ _) as [[[v|k msg] h']|]; [exact H| |exact H]. tauto.
Qed.

Module Example.
Import Rope.Example.

Lemma start_vars : vars_ok start [VFlat 0; VFlat 1] [hello; smile].
Proof.
  split; [repeat constructor; [apply start_hello|apply start_smile]|].
  intros [|[|i]] [|[|j]] a Hi Hj; try reflexivity; discriminate.
Qed.

(** [x += y; y = x; x += y; x.length; x < y]. *)
Definition prog : list stmt := [SAppend 0 1; SMove 1 0; SAppend 0 1; SLength 0; SCompare 0 1].


Lemma string_flatten_correct_witness :
  (exists fl h', str_materialize (fun _ => true) 7 (VRope 0) start = Some (Ok fl, h') /\ flat_of h' fl (hello ++ smile)) /\
  (exists h', str_utf16_len (fun _ => true) 7 (VRope 0) start = Some (Ok 14, h')).
Proof.
  destruct (string_flatten_correct (fun _ => true) 7 start (VRope 0) (hello ++ smile) (or_introl start_rope)) as (H1 & _ & H2).
  assert (Hg : forall k, (fun _ : nat => true) k = true) by reflexivity. split.
  - destruct (runs_granted _ Hg _ _ _ _ H1) as (fl & h' & E & _ & Hfl). eauto.
  - unfold measured_as in H2. revert H2. destruct (str_utf16_len (fun _ => true) 7 (VRope 0) start) as [[[n|k msg] h']|]; intros H2; [| |contradiction].
    + exists h'. destruct H2 as [[Hn _]|(Hr & _)]; [|destruct Hr as (j & _ & Hj); discriminate Hj].
      assert (E : zlen (wtf16 (hello ++ smile)) = 14) by (vm_compute; reflexivity). rewrite Hn, E. reflexivity.
    + destruct H2 as (_ & Hr & _). destruct Hr as (j & _ & Hj). discriminate Hj.
Defined.

(** A builder whose snapshot is too deep a rope to be measured in parts: when
    memory is refused, the rope counts for 0, and the wrong length stays. *)
Definition deep : heap :=
  Heap [flat_str hello; flat_str smile] [Rope 16 ANT_ROPE_DEPTH_SATURATED (VFlat 0) (VFlat 1) VUndef]
    [StrBuilder 17 (VRope 0) [] VUndef [33] STR_ASCII_NO] 0.
Definition refuses_first : nat -> bool := fun k => negb (k =? 0)%nat.
Definition measured_twice (grant : nat -> bool) : option (Z * Z) :=
  match str_utf16_len grant 7 (VBuilder 0) deep with
  | Some (Ok n, h1) => match str_utf16_len grant 7 (VBuilder 0) h1 with Some (Ok m, _) => Some (n, m) | _ => None end
  | _ => None
  end.
Lemma wrong_length_stays : measured_twice refuses_first = Some (1, 1) /\ measured_twice (fun _ => true) = Some (15, 15).
Proof. split; vm_compute; reflexivity. Qed.

Lemma builder_append_correct_witness :
  exists v h', sv_string_builder_append_slot (fun _ => true) 7 (VRope 0) (VFlat 0) start = Some (Ok v, h') /\
    appended start (VRope 0) v h' ((hello ++ smile) ++ hello).
Proof.
  pose proof (builder_append_correct (fun _ => true) 7 start (VRope 0) (VFlat 0) (hello ++ smile) hello
    (or_introl start_rope) (or_introl start_hello) eq_refl) as H.
  destruct (sv_string_builder_append_slot _ _ _ _ _) as [[[v|k msg] h']|]; [eauto| |contradiction].
  destruct H as (_ & _ & j & _ & Hj). discriminate.
Defined.
End Example.
