(* ===== verification/Utf8Codec.v ===== *)
(** * UTF-8 encodings of runtime strings

    The conversions of [src/src/utf8.c] and [src/include/utf8.h] between byte
    encodings: Latin-1, strict UTF-8 validation, and the export of WTF-8 to
    UTF-8 that [TextEncoder] and [Buffer] use.  [utf8proc_encode_char] and
    [utf8proc_iterate] belong to the utf8proc library, which is not part of the
    repository: they are the methods of the class [Utf8proc], with their
    documented behaviour as the laws of [Utf8procSpec], and a reference
    implementation shows that the laws can hold. *)

From S2P Require Import Prelude Utf8Scan FlatString.

(** ** UTF-8 as the Unicode standard defines it *)

(** Scalar values: code points that are not surrogates. *)
Definition is_scalar (cp : Z) : bool :=
  (0 <=? cp) && (cp <? 0xD800) || (0xE000 <=? cp) && (cp <? 0x110000).

(** The encoding of a code point, surrogates included. *)
Definition utf8_enc (cp : Z) : list Z :=
  if cp <? 0x80 then [cp]
  else if cp <? 0x800 then [0xC0 + cp / 64; 0x80 + cp mod 64]
  else if cp <? 0x10000 then [0xE0 + cp / 4096; 0x80 + (cp / 64) mod 64; 0x80 + cp mod 64]
  else [0xF0 + cp / 262144; 0x80 + (cp / 4096) mod 64; 0x80 + (cp / 64) mod 64; 0x80 + cp mod 64].

Definition utf8_of (cps : list Z) : list Z := concat (map utf8_enc cps).

Definition valid_utf8 (s : list Z) : Prop :=
  exists cps, Forall (fun cp => is_scalar cp = true) cps /\ s = utf8_of cps.

(** ** The utf8proc interface *)

Class Utf8proc := {
  (** bytes written for a code point *)
  utf8proc_encode_char : Z -> list Z;
  (** bytes read and the code point; [None] is a result that is not positive *)
  utf8proc_iterate : list Z -> option (nat * Z)
}.

Class Utf8procSpec (U : Utf8proc) := {
  encode_char_spec cp : 0 <= cp < 0x110000 -> utf8proc_encode_char cp = utf8_enc cp;
  iterate_spec l n cp : bytes l ->
    utf8proc_iterate l = Some (n, cp) <->
    is_scalar cp = true /\ n = length (utf8_enc cp) /\ take n l = utf8_enc cp
}.

(** [utf8_encode] of utf8.h. *)
Definition utf8_encode `{Utf8proc} (cp : Z) : list Z := utf8proc_encode_char cp.

(** [utf8_next] of utf8.h: the number of bytes to skip. *)
Definition utf8_next `{Utf8proc} (p : list Z) : nat :=
  match utf8proc_iterate p with Some (n, _) => n | None => 1%nat end.

(** ** The head of a byte string *)

(** Length of the strict UTF-8 sequence a byte string starts with. *)
Definition valid_head (l : list Z) : option nat :=
  match l with
  | [] => None
  | c :: _ =>
      if c <? 0x80 then Some 1%nat
      else match utf8_lead_class c with
      | None => None
      | Some (cont, lo, hi) =>
          if (length l <=? cont)%nat then None
          else if (rd l 1 <? lo) || (hi <? rd l 1) then None
          else if existsb (fun i => (rd l i <? 0x80) || (0xbf <? rd l i)) (seq 2 (cont - 1))
          then None else Some (S cont)
      end
  end.

Definition head_cp (l : list Z) : Z :=
  let c := rd l 0 in
  if c <? 0x80 then c
  else if c <? 0xE0 then (c - 0xC0) * 64 + (rd l 1 - 0x80)
  else if c <? 0xF0 then (c - 0xE0) * 4096 + (rd l 1 - 0x80) * 64 + (rd l 2 - 0x80)
  else (c - 0xF0) * 262144 + (rd l 1 - 0x80) * 4096 + (rd l 2 - 0x80) * 64 + (rd l 3 - 0x80).

(** The reference implementation of the library. *)
#[export] Instance utf8proc_ref : Utf8proc := {
  utf8proc_encode_char := utf8_enc;
  utf8proc_iterate l :=
    match valid_head l with Some n => Some (n, head_cp l) | None => None end
}.

Ltac lead_cases :=
  repeat match goal with
  | |- context [(?a <=? ?b)%Z] => destruct (Z.leb_spec a b); try lia
  | |- context [(?a <? ?b)%Z] => destruct (Z.ltb_spec a b); try lia
  | |- context [(?a =? ?b)%Z] => destruct (Z.eqb_spec a b); try lia
  end.

Lemma utf8_enc_length cp : (1 <= length (utf8_enc cp) <= 4)%nat.
Proof. unfold utf8_enc. case_ifs; cbn; lia. Qed.

(** The lead byte table, by sequence length. *)
Lemma lead_class_inv c cont lo hi :
  utf8_lead_class c = Some (cont, lo, hi) ->
  (cont = 1%nat /\ 0xC2 <= c <= 0xDF /\ lo = 0x80 /\ hi = 0xBF) \/
  (cont = 2%nat /\ 0xE0 <= c <= 0xEF /\ lo = (if c =? 0xE0 then 0xA0 else 0x80) /\
   hi = (if c =? 0xED then 0x9F else 0xBF)) \/
  (cont = 3%nat /\ 0xF0 <= c <= 0xF4 /\ lo = (if c =? 0xF0 then 0x90 else 0x80) /\
   hi = (if c =? 0xF4 then 0x8F else 0xBF)).
Proof.
  unfold utf8_lead_class.
  repeat match goal with |- context [if ?b then Some _ else _] =>
    destruct b eqn:?; [intros [= <- <- <-]|] end; try discriminate;
  repeat match goal with H : _ || _ = true |- _ => apply orb_true_iff in H as [H|H] end;
  boolprop; subst; lead_cases;
  first [left; repeat split; lia | right; left; repeat split; lia | right; right; repeat split; lia].
Qed.

Lemma lead_class_none c : utf8_lead_class c = None <-> c < 0xC2 \/ 0xF4 < c.
Proof.
  unfold utf8_lead_class. split.
  - case_ifs; try discriminate.
    repeat match goal with H : _ && _ = false |- _ => apply andb_false_iff in H end.
    intros _. boolprop. lia.
  - intros H. lead_cases; reflexivity.
Qed.

Lemma enc1 c : 0 <= c < 0x80 -> is_scalar c = true /\ utf8_enc c = [c].
Proof. intros. unfold is_scalar, utf8_enc. lead_cases. auto. Qed.

Lemma enc2 c c1 : 0xC2 <= c <= 0xDF -> 0x80 <= c1 <= 0xBF ->
  let cp := (c - 0xC0) * 64 + (c1 - 0x80) in is_scalar cp = true /\ utf8_enc cp = [c; c1].
Proof.
  intros H H1 cp. unfold is_scalar, utf8_enc, cp. lead_cases. split; [reflexivity|].
  repeat f_equal; Z.to_euclidean_division_equations; lia.
Qed.

Lemma enc3 c c1 c2 : 0xE0 <= c <= 0xEF ->
  (if c =? 0xE0 then 0xA0 else 0x80) <= c1 <= (if c =? 0xED then 0x9F else 0xBF) ->
  0x80 <= c2 <= 0xBF ->
  let cp := (c - 0xE0) * 4096 + (c1 - 0x80) * 64 + (c2 - 0x80) in
  is_scalar cp = true /\ utf8_enc cp = [c; c1; c2].
Proof.
  intros Hc Hc1 Hc2 cp. revert Hc1. unfold is_scalar, utf8_enc, cp.
  lead_cases; intros Hc1; try lia;
  (split; [reflexivity|]; repeat f_equal; Z.to_euclidean_division_equations; lia).
Qed.

Lemma enc4 c c1 c2 c3 : 0xF0 <= c <= 0xF4 ->
  (if c =? 0xF0 then 0x90 else 0x80) <= c1 <= (if c =? 0xF4 then 0x8F else 0xBF) ->
  0x80 <= c2 <= 0xBF -> 0x80 <= c3 <= 0xBF ->
  let cp := (c - 0xF0) * 262144 + (c1 - 0x80) * 4096 + (c2 - 0x80) * 64 + (c3 - 0x80) in
  is_scalar cp = true /\ utf8_enc cp = [c; c1; c2; c3].
Proof.
  intros Hc Hc1 Hc2 Hc3 cp. revert Hc1. unfold is_scalar, utf8_enc, cp.
  lead_cases; intros Hc1; try lia;
  (split; [reflexivity|]; repeat f_equal; Z.to_euclidean_division_equations; lia).
Qed.

Lemma valid_head_inv c t n :
  valid_head (c :: t) = Some n ->
  (c < 0x80 /\ n = 1%nat) \/
  exists cont lo hi, 0x80 <= c /\ utf8_lead_class c = Some (cont, lo, hi) /\ n = S cont /\
    (cont <= length t)%nat /\ lo <= rd (c :: t) 1 <= hi /\
    (forall i, (2 <= i <= cont)%nat -> 0x80 <= rd (c :: t) i <= 0xbf).
Proof.
  unfold valid_head. destruct (Z.ltb_spec c 0x80); [intros [= <-]; auto|].
  destruct (utf8_lead_class c) as [[[cont lo] hi]|] eqn:E; [|discriminate].
  case_if; boolprop; [discriminate|]. case_if; boolprop; [discriminate|].
  case_if; [discriminate|]. intros [= <-]. right. exists cont, lo, hi.
  cbn [length] in *. splits; auto; try lia.
  intros i Hi. destruct (Z.ltb_spec (rd (c :: t) i) 0x80) as [G|G];
    [|destruct (Z.ltb_spec 0xbf (rd (c :: t) i)) as [G'|G']; [|lia]].
  all: enough (existsb (fun i => (rd (c :: t) i <? 0x80) || (0xbf <? rd (c :: t) i))
         (seq 2 (cont - 1)) = true) by congruence.
  all: apply existsb_exists; exists i; split; [apply in_seq; lia|].
  all: apply orb_true_iff; rewrite !Z.ltb_lt; lia.
Qed.

Lemma valid_head_sound l n :
  bytes l -> valid_head l = Some n ->
  is_scalar (head_cp l) = true /\ n = length (utf8_enc (head_cp l)) /\
  take n l = utf8_enc (head_cp l).
Proof.
  intros Hb. destruct l as [|c t]; [discriminate|]. inversion_clear Hb as [|? ? [Hb1 Hb2] _].
  intros H. apply valid_head_inv in H as [[Hc ->]|(cont & lo & hi & Hc & E & -> & Hl & H1 & Hi)].
  { unfold head_cp. change (rd (c :: t) 0) with c. destruct (Z.ltb_spec c 0x80); [|lia].
    destruct (enc1 c) as [-> ->]; [lia|auto]. }
  apply lead_class_inv in E as [(-> & Hl0 & -> & ->)|[(-> & Hl0 & -> & ->)|(-> & Hl0 & -> & ->)]].
  - destruct t as [|c1 t]; cbn in Hl; [lia|].
    destruct (enc2 c c1 Hl0 H1) as [E1 E2]. unfold head_cp. cbn [rd nth].
    destruct (Z.ltb_spec c 0x80), (Z.ltb_spec c 0xE0); try lia. cbn in *. rewrite E1, E2. auto.
  - destruct t as [|c1 [|c2 t]]; cbn in Hl; try lia.
    destruct (enc3 c c1 c2 Hl0 H1 (Hi 2%nat ltac:(lia))) as [E1 E2].
    unfold head_cp. cbn [rd nth].
    destruct (Z.ltb_spec c 0x80), (Z.ltb_spec c 0xE0), (Z.ltb_spec c 0xF0); try lia.
    cbn [rd nth] in *. rewrite E1, E2. auto.
  - destruct t as [|c1 [|c2 [|c3 t]]]; cbn in Hl; try lia.
    destruct (enc4 c c1 c2 c3 Hl0 H1 (Hi 2%nat ltac:(lia)) (Hi 3%nat ltac:(lia))) as [E1 E2].
    unfold head_cp. cbn [rd nth].
    destruct (Z.ltb_spec c 0x80), (Z.ltb_spec c 0xE0), (Z.ltb_spec c 0xF0); try lia.
    cbn [rd nth] in *. rewrite E1, E2. auto.
Qed.

Lemma scalar_range cp : is_scalar cp = true ->
  0 <= cp < 0x110000 /\ ~ (0xD800 <= cp < 0xE000).
Proof. unfold is_scalar. intros H. apply orb_true_iff in H as [H|H]; boolprop; lia. Qed.

(** Every scalar value's encoding is accepted, whatever follows it. *)
Lemma valid_head_complete cp t :
  is_scalar cp = true ->
  valid_head (utf8_enc cp ++ t) = Some (length (utf8_enc cp)) /\
  head_cp (utf8_enc cp ++ t) = cp.
Proof.
  intros Hs. apply scalar_range in Hs as [Hr Hn]. unfold utf8_enc, head_cp, valid_head.
  destruct (Z.ltb_spec cp 0x80) as [H1|H1].
  { cbn. destruct (Z.ltb_spec cp 0x80); [auto|lia]. }
  destruct (Z.ltb_spec cp 0x800) as [H2|H2].
  { cbn -[Z.add Z.mul Z.div Z.modulo Z.sub]. set (q := cp / 64). set (r := cp mod 64).
    assert (cp = q * 64 + r /\ 0 <= r < 64) as [Hcp Hr0]
      by (unfold q, r; Z.to_euclidean_division_equations; lia).
    unfold utf8_lead_class. lead_cases. cbn. lead_cases. split; [reflexivity|]. lia. }
  destruct (Z.ltb_spec cp 0x10000) as [H3|H3].
  { cbn -[Z.add Z.mul Z.div Z.modulo Z.sub].
    set (q := cp / 4096). set (m := (cp / 64) mod 64). set (r := cp mod 64).
    assert (cp = q * 4096 + m * 64 + r /\ 0 <= r < 64 /\ 0 <= m < 64) as (Hcp & Hr0 & Hm)
      by (unfold q, r, m; Z.to_euclidean_division_equations; lia).
    unfold utf8_lead_class. lead_cases; cbn; lead_cases; (split; [reflexivity|]; lia). }
  cbn -[Z.add Z.mul Z.div Z.modulo Z.sub].
  set (q := cp / 262144). set (m := (cp / 4096) mod 64).
  set (m2 := (cp / 64) mod 64). set (r := cp mod 64).
  assert (cp = q * 262144 + m * 4096 + m2 * 64 + r /\ 0 <= r < 64 /\ 0 <= m < 64 /\ 0 <= m2 < 64)
    as (Hcp & Hr0 & Hm & Hm2) by (unfold q, r, m, m2; Z.to_euclidean_division_equations; lia).
  unfold utf8_lead_class. lead_cases; cbn; lead_cases; (split; [reflexivity|]; lia).
Qed.

#[export] Instance utf8proc_ref_spec : Utf8procSpec utf8proc_ref.
Proof.
  split; [reflexivity|]. intros l n cp Hb. cbn [utf8proc_ref utf8proc_iterate].
  destruct (valid_head l) as [m|] eqn:E; split; intros H.
  - injection H as <- <-. apply valid_head_sound; auto.
  - destruct H as (Hs & -> & Ht). pose proof (take_drop (length (utf8_enc cp)) l) as D.
    rewrite Ht in D.
    destruct (valid_head_complete cp (drop (length (utf8_enc cp)) l) Hs) as [E1 E2].
    rewrite D in E1, E2. rewrite E1 in E. injection E as <-. rewrite E2. reflexivity.
  - discriminate.
  - destruct H as (Hs & -> & Ht). pose proof (take_drop (length (utf8_enc cp)) l) as D.
    rewrite Ht in D.
    destruct (valid_head_complete cp (drop (length (utf8_enc cp)) l) Hs) as [E1 _].
    rewrite D in E1. congruence.
Qed.

(** What the laws say of [utf8proc_iterate] in terms of [valid_head]. *)
Lemma iterate_valid_head {U : Utf8proc} {HU : Utf8procSpec U} l :
  bytes l ->
  utf8proc_iterate l = match valid_head l with Some n => Some (n, head_cp l) | None => None end.
Proof.
  intros Hb. destruct (utf8proc_iterate l) as [[n cp]|] eqn:E.
  - apply iterate_spec in E; auto.
    pose proof (proj2 (iterate_spec (U := utf8proc_ref) l n cp Hb) E) as E'.
    symmetry. exact E'.
  - destruct (valid_head l) as [n|] eqn:V; [|reflexivity].
    rewrite <- E. apply iterate_spec; auto. apply valid_head_sound; auto.
Qed.

(** ** Validation *)

Lemma validate_step fuel s p :
  (p < length s)%nat ->
  utf8_validate_loop (S fuel) s (length s) p =
  match valid_head (drop p s) with
  | Some n => utf8_validate_loop fuel s (length s) (p + n)
  | None => false
  end.
Proof.
  intros Hp. cbn [utf8_validate_loop]. destruct (Nat.ltb_spec p (length s)); [|lia].
  unfold valid_head. rewrite (drop_cons_rd s p) by lia.
  destruct (rd s p <? 0x80); [rewrite Nat.add_1_r; reflexivity|].
  destruct (utf8_lead_class (rd s p)) as [[[cont lo] hi]|]; [|reflexivity].
  rewrite <- (drop_cons_rd s p) by lia. rewrite length_drop, rd_drop.
  rewrite (existsb_ext (fun i => (rd (drop p s) i <? 0x80) || (0xbf <? rd (drop p s) i))
                       (fun i => (rd s (p + i) <? 0x80) || (0xbf <? rd s (p + i))))
    by (intros; rewrite rd_drop; reflexivity).
  case_ifs; try reflexivity. f_equal. lia.
Qed.

Lemma utf8_of_app a b : utf8_of (a ++ b) = utf8_of a ++ utf8_of b.
Proof. unfold utf8_of. rewrite map_app, concat_app. reflexivity. Qed.

Lemma valid_utf8_cons cp s : is_scalar cp = true -> valid_utf8 s -> valid_utf8 (utf8_enc cp ++ s).
Proof. intros Hc (cps & Hs & ->). exists (cp :: cps). split; [constructor; auto|reflexivity]. Qed.

Lemma valid_utf8_app a b : valid_utf8 a -> valid_utf8 b -> valid_utf8 (a ++ b).
Proof.
  intros (ca & Ha & ->) (cb & Hb & ->). exists (ca ++ cb).
  split; [apply Forall_app; auto|]. symmetry. apply utf8_of_app.
Qed.

Lemma valid_utf8_nil : valid_utf8 [].
Proof. exists []. split; [constructor|reflexivity]. Qed.

Lemma valid_head_bounds l n : valid_head l = Some n -> (1 <= n <= length l)%nat.
Proof.
  destruct l as [|c t]; [discriminate|]. intros H.
  apply valid_head_inv in H as [[_ ->]|(cont & lo & hi & _ & _ & -> & Hl & _)]; cbn; lia.
Qed.

(** Valid strings, one sequence at a time. *)
Lemma valid_utf8_view l : bytes l ->
  valid_utf8 l <-> l = [] \/ exists n, valid_head l = Some n /\ valid_utf8 (drop n l).
Proof.
  intros Hb. split.
  - intros ([|cp cps] & Hs & ->); [auto|]. right. inversion_clear Hs.
    exists (length (utf8_enc cp)). unfold utf8_of. cbn [map concat].
    split; [apply valid_head_complete; auto|]. rewrite drop_app_length. exists cps. auto.
  - intros [->|(n & Hn & Hv)]; [apply valid_utf8_nil|].
    destruct (valid_head_sound l n Hb Hn) as (Hs & _ & Ht).
    rewrite <- (take_drop n l), Ht. apply valid_utf8_cons; auto.
Qed.

Lemma validate_loop_spec s fuel p :
  bytes s -> (length s - p < fuel)%nat ->
  utf8_validate_loop fuel s (length s) p = true <-> valid_utf8 (drop p s).
Proof.
  intros Hb. revert p. induction fuel as [|fuel IH]; intros p Hf; [lia|].
  destruct (Nat.lt_ge_cases p (length s)) as [Hp|Hp].
  - rewrite validate_step by lia. rewrite valid_utf8_view by (apply Forall_drop; auto).
    destruct (valid_head (drop p s)) as [n|] eqn:E.
    + pose proof (valid_head_bounds _ _ E). rewrite length_drop in *.
      rewrite IH by lia. rewrite <- drop_drop. split; [eauto|].
      intros [Hd|(m & [= <-] & Hv)]; [rewrite Hd in E; discriminate|exact Hv].
    + split; [discriminate|]. intros [Hd|(m & Hm & _)]; [|discriminate].
      rewrite (drop_cons_rd s p) in Hd by lia. discriminate.
  - cbn [utf8_validate_loop]. destruct (Nat.ltb_spec p (length s)); [lia|].
    rewrite drop_ge by lia. split; auto using valid_utf8_nil.
Qed.

Lemma validate_spec s : bytes s -> utf8_validate_bytes s (length s) = true <-> valid_utf8 s.
Proof. intros Hb. unfold utf8_validate_bytes. rewrite validate_loop_spec by (auto; lia). reflexivity. Qed.

(** [utf8_validate_bytes] accepts a byte string exactly when it is the
    UTF-8 encoding of some sequence of Unicode scalar values: overlong forms,
    surrogates, values above U+10FFFF and truncated sequences are rejected. *)
Theorem validate_bytes_correct s :
  bytes s -> utf8_validate_bytes s (length s) = true <-> valid_utf8 s.
Proof. apply validate_spec. Qed.

Lemma validate_bytes_correct_witness :
  valid_utf8 [0xE2; 0x82; 0xAC] /\ ~ valid_utf8 [0xED; 0xA0; 0x80].
Proof.
  split.
  - apply (validate_bytes_correct [0xE2; 0x82; 0xAC]); [|vm_compute; reflexivity].
    repeat constructor; vm_compute; discriminate.
  - intros H. apply validate_bytes_correct in H; [vm_compute in H; discriminate|].
    repeat constructor; vm_compute; discriminate.
Defined.

(** ** Latin-1 *)

(** The outcome of [utf8_to_latin1]: NULL without and with [*is_latin1]
    cleared, or the bytes. *)
Inductive latin1_result := Latin1Oom | NotLatin1 | Latin1 (out : list Z).

(** The loop of [latin1_to_utf8]. *)
Definition latin1_expand (src : list Z) : list Z :=
  concat (map (fun byte => if byte <? 0x80 then [byte]
                           else [0xc0 .| (byte .>> 6); 0x80 .| (byte .& 0x3f)]) src).

(** The loop of [utf8_to_latin1]. *)
Fixpoint latin1_shrink (src : list Z) : option (list Z) :=
  match src with
  | [] => Some []
  | first :: t =>
      if first <? 0x80 then option_map (cons first) (latin1_shrink t)
      else match t with
      | c1 :: t1 =>
          if ((first =? 0xc2) || (first =? 0xc3)) && (c1 .& 0xc0 =? 0x80)
          then option_map (cons (u8 (((first .& 0x1f) .<< 6) .| (c1 .& 0x3f)))) (latin1_shrink t1)
          else None
      | [] => None
      end
  end.

Section latin1.
(** Whether [malloc] grants a request of this many bytes. *)
Context (malloc_ok : Z -> bool) (SIZE_MAX : Z).

Definition latin1_to_utf8 (src : list Z) : option (list Z) :=
  let len := Z.of_nat (length src) in
  if SIZE_MAX / 2 <? len then None
  else if negb (malloc_ok (if len =? 0 then 1 else len * 2)) then None
  else Some (latin1_expand src).

Definition utf8_to_latin1 (src : list Z) : latin1_result :=
  let len := Z.of_nat (length src) in
  if negb (malloc_ok (if len =? 0 then 1 else len)) then Latin1Oom
  else match latin1_shrink src with Some out => Latin1 out | None => NotLatin1 end.
End latin1.

Lemma latin1_byte_enc b : is_byte b ->
  (if b <? 0x80 then [b] else [0xc0 .| (b .>> 6); 0x80 .| (b .& 0x3f)]) = utf8_enc b.
Proof.
  intros Hb. by_bytes b (fun b => bool_decide
    ((if b <? 0x80 then [b] else [0xc0 .| (b .>> 6); 0x80 .| (b .& 0x3f)]) = utf8_enc b)).
  apply bool_decide_eq_true in Hbyte. exact Hbyte.
Qed.

Lemma latin1_expand_spec src : bytes src -> latin1_expand src = utf8_of src.
Proof.
  intros Hb. unfold latin1_expand, utf8_of. f_equal. apply map_ext_Forall.
  eapply Forall_impl; [exact Hb|]. apply latin1_byte_enc.
Qed.

Lemma latin1_expand_length src : (length (latin1_expand src) <= 2 * length src)%nat.
Proof.
  unfold latin1_expand. induction src as [|b src IH]; cbn [map concat length]; [lia|].
  rewrite length_app. case_if; cbn [length]; lia.
Qed.

(** Two-byte sequences of lead 0xC2 and 0xC3 are the encodings of 0x80..0xFF. *)
Definition latin1_pair_check (first c1 : Z) : bool :=
  let b := u8 (((first .& 0x1f) .<< 6) .| (c1 .& 0x3f)) in
  negb (c1 .& 0xc0 =? 0x80) ||
  (0 <=? b) && (b <? 256) && bool_decide (utf8_enc b = [first; c1]).

Lemma latin1_pair first c1 : is_byte c1 ->
  ((first =? 0xc2) || (first =? 0xc3)) && (c1 .& 0xc0 =? 0x80) = true ->
  let b := u8 (((first .& 0x1f) .<< 6) .| (c1 .& 0x3f)) in
  is_byte b /\ utf8_enc b = [first; c1].
Proof.
  intros Hc H b. apply andb_true_iff in H as [H1 H2].
  assert (Hgen : latin1_pair_check first c1 = true).
  { apply orb_true_iff in H1 as [H1|H1]; apply Z.eqb_eq in H1 as ->.
    - by_bytes c1 (latin1_pair_check 0xc2). exact Hbyte.
    - by_bytes c1 (latin1_pair_check 0xc3). exact Hbyte. }
  unfold latin1_pair_check in Hgen. rewrite H2 in Hgen. fold b in Hgen.
  cbn [negb orb] in Hgen. apply andb_true_iff in Hgen as [Hr Hd].
  apply bool_decide_eq_true in Hd. boolprop. unfold is_byte. auto.
Qed.

(** [latin1_shrink] on the encoding of a byte. *)
Lemma latin1_shrink_enc b t : is_byte b ->
  latin1_shrink (utf8_enc b ++ t) = option_map (cons b) (latin1_shrink t).
Proof.
  intros Hb. rewrite <- latin1_byte_enc by exact Hb.
  destruct (b <? 0x80) eqn:E; cbn [app latin1_shrink]; [rewrite E; reflexivity|].
  by_bytes b (fun b => (b <? 0x80) || (negb ((0xc0 .| (b .>> 6)) <? 0x80) &&
    (((0xc0 .| (b .>> 6) =? 0xc2) || (0xc0 .| (b .>> 6) =? 0xc3)) &&
      ((0x80 .| (b .& 0x3f)) .& 0xc0 =? 0x80)) &&
    (u8 ((((0xc0 .| (b .>> 6)) .& 0x1f) .<< 6) .| ((0x80 .| (b .& 0x3f)) .& 0x3f)) =? b))).
  rewrite E in Hbyte. cbn [orb] in Hbyte. apply andb_true_iff in Hbyte as [Hbyte H3].
  apply andb_true_iff in Hbyte as [H1 H2]. apply negb_true_iff in H1. apply Z.eqb_eq in H3.
  rewrite H1, H2, H3. reflexivity.
Qed.

Lemma latin1_shrink_complete out : bytes out -> latin1_shrink (utf8_of out) = Some out.
Proof.
  intros Hb. induction Hb as [|b out Hb _ IH]; [reflexivity|].
  change (utf8_of (b :: out)) with (utf8_enc b ++ utf8_of out).
  rewrite latin1_shrink_enc, IH by exact Hb. reflexivity.
Qed.

Lemma latin1_shrink_sound n : forall src out, (length src < n)%nat -> bytes src ->
  latin1_shrink src = Some out -> bytes out /\ src = utf8_of out.
Proof.
  induction n as [|n IH]; intros src out Hn Hb; [lia|].
  destruct src as [|first t]; cbn [latin1_shrink]; [intros [= <-]; split; [constructor|reflexivity]|].
  inversion_clear Hb as [|? ? Hf Ht]. cbn [length] in Hn.
  destruct (first <? 0x80) eqn:E.
  - destruct (latin1_shrink t) as [o|] eqn:Et; [|discriminate]. intros [= <-].
    destruct (IH t o) as [Ho ->]; auto; [lia|]. split; [constructor; auto|].
    boolprop. destruct Hf. destruct (enc1 first) as [_ He]; [lia|].
    unfold utf8_of at 2. cbn [map concat]. rewrite He. reflexivity.
  - destruct t as [|c1 t1]; [discriminate|]. inversion_clear Ht as [|? ? Hc Ht1].
    destruct (_ && _) eqn:C; [|discriminate].
    destruct (latin1_shrink t1) as [o|] eqn:Et; [|discriminate]. intros [= <-].
    cbn [length] in Hn. destruct (IH t1 o) as [Ho ->]; auto; [lia|].
    destruct (latin1_pair first c1 Hc C) as [Hb He]. split; [constructor; auto|].
    unfold utf8_of at 2. cbn [map concat]. rewrite He. reflexivity.
Qed.

(** The Latin-1 conversions are inverse: [latin1_to_utf8] yields the UTF-8
    encoding of the bytes taken as code points, within the buffer it
    allocates; [utf8_to_latin1] undoes it and reports "not Latin-1" exactly on
    the byte strings that are no such encoding. *)
Theorem latin1_roundtrip malloc_ok SIZE_MAX src :
  bytes src -> Z.of_nat (length src) <= SIZE_MAX / 2 -> (forall n, malloc_ok n = true) ->
  latin1_to_utf8 malloc_ok SIZE_MAX src = Some (utf8_of src) /\
  (length (utf8_of src) <= 2 * length src)%nat /\
  utf8_to_latin1 malloc_ok (utf8_of src) = Latin1 src /\
  (forall s, bytes s -> utf8_to_latin1 malloc_ok s = NotLatin1 <->
                        ~ exists out, bytes out /\ s = utf8_of out).
Proof.
  intros Hb Hl Hm. unfold latin1_to_utf8, utf8_to_latin1. cbv zeta. rewrite !Hm. cbn [negb].
  destruct (Z.ltb_spec (SIZE_MAX / 2) (Z.of_nat (length src))); [lia|].
  rewrite latin1_expand_spec, latin1_shrink_complete by exact Hb. splits; auto.
  - rewrite <- latin1_expand_spec by exact Hb. apply latin1_expand_length.
  - intros s Hs. rewrite Hm. cbn [negb]. destruct (latin1_shrink s) as [o|] eqn:E.
    + split; [discriminate|]. intros []. exists o. eapply latin1_shrink_sound; eauto.
    + split; [|reflexivity]. intros _ (o & Ho & ->).
      rewrite latin1_shrink_complete in E by exact Ho. discriminate.
Qed.

Lemma latin1_roundtrip_witness :
  latin1_to_utf8 (fun _ => true) (2 ^ 64 - 1) [0x41; 0xE9] = Some [0x41; 0xC3; 0xA9].
Proof.
  exact (proj1 (latin1_roundtrip (fun _ => true) (2 ^ 64 - 1) [0x41; 0xE9]
    ltac:(repeat constructor; vm_compute; discriminate)
    ltac:(vm_compute; discriminate) (fun _ => eq_refl))).
Defined.

(** ** Export of WTF-8 to UTF-8 *)

(** [utf8_wtf8_surrogate_at]: the surrogate encoded at [pos], if any. *)
Definition utf8_wtf8_surrogate_at (s : list Z) (len pos : nat) : option Z :=
  if (len <=? pos + 2)%nat || negb (rd s pos =? 0xed)
     || negb (rd s (pos + 1) .& 0xe0 =? 0xa0) || negb (rd s (pos + 2) .& 0xc0 =? 0x80)
  then None
  else
    let out := u16 (((rd s pos .& 0x0f) .<< 12) .| ((rd s (pos + 1) .& 0x3f) .<< 6)
                    .| (rd s (pos + 2) .& 0x3f)) in
    if (0xd800 <=? out) && (out <=? 0xdfff) then Some out else None.

Definition FFFD : list Z := [0xef; 0xbf; 0xbd].

Section export.
Context {U : Utf8proc}.

(** One round of the loop of [utf8_export_wtf8]: [piece] with its
    [encoded_len] bytes, [consumed] and [units]. *)
Definition export_piece (s : list Z) (str_len pos : nat) : list Z * nat * nat :=
  match utf8_wtf8_surrogate_at s str_len pos with
  | Some first =>
      match (if first <=? 0xdbff then utf8_wtf8_surrogate_at s str_len (pos + 3) else None) with
      | Some second =>
          if 0xdc00 <=? second then
            (utf8_encode (u32 (0x10000 + (u32 (first - 0xd800) .<< 10) + u32 (second - 0xdc00))),
             6%nat, 2%nat)
          else (FFFD, 3%nat, 1%nat)
      | None => (FFFD, 3%nat, 1%nat)
      end
  | None =>
      match utf8proc_iterate (take (str_len - pos) (drop pos s)) with
      | Some (n, cp) => (take n (drop pos s), n, if 0x10000 <=? cp then 2%nat else 1%nat)
      | None => (FFFD, 1%nat, 1%nat)
      end
  end.

(** The loop; [out] holds the [written] bytes. *)
Fixpoint export_loop (fuel : nat) (s : list Z) (str_len : nat) (dst_len : Z) (pos : nat)
  (out : list Z) (read_units : nat) : list Z * nat :=
  match fuel with
  | O => (out, read_units)
  | S fuel =>
      if (pos <? str_len)%nat then
        let '(piece, consumed, units) := export_piece s str_len pos in
        if dst_len - Z.of_nat (length out) <? Z.of_nat (length piece) then (out, read_units)
        else export_loop fuel s str_len dst_len (pos + consumed) (out ++ piece)
               (read_units + units)
      else (out, read_units)
  end.

(** [utf8_export_wtf8]: the bytes written and [*out_read_units]. *)
Definition utf8_export_wtf8 (s : list Z) (str_len : nat) (dst_len : Z) : list Z * nat :=
  export_loop (S str_len) s str_len dst_len 0 [] 0.

Context (SIZE_MAX : Z).

(** [utf8_export_length_slow] and [utf8_export_length] on a flat string. *)
Definition utf8_export_length_slow (f : flat) : Z * flat :=
  let str_len := length (fl_bytes f) in
  let '(valid, f) := str_is_valid_utf8 f in
  if valid then (Z.of_nat str_len, f)
  else
    let len := length (utf8_export_wtf8 (fl_bytes f) str_len SIZE_MAX).1 in
    if (len =? str_len)%nat
    then (Z.of_nat len, str_flat_set_utf_valid_state f STR_UTF_INVALID_SAME_LENGTH)
    else (Z.of_nat len, f).

Definition utf8_export_length (f : flat) : Z * flat :=
  let str_len := length (fl_bytes f) in
  if (str_len =? 0)%nat then (0, f)
  else
    let state := str_flat_utf_valid_state f in
    if (state =? STR_UTF_VALID) || (state =? STR_UTF_INVALID_SAME_LENGTH)
    then (Z.of_nat str_len, f)
    else if state =? STR_UTF_UNKNOWN then
      let '(ascii, f) := str_is_ascii f in
      if ascii then (Z.of_nat str_len, f) else utf8_export_length_slow f
    else utf8_export_length_slow f.

(** [while (len > 0 && (str[len] & 0xc0) == 0x80) len--]. *)
Fixpoint back_to_lead (s : list Z) (len : nat) : nat :=
  match len with
  | O => O
  | S n => if rd s len .& 0xc0 =? 0x80 then back_to_lead s n else len
  end.

(** [utf8_export_into]: the bytes written and [*out_read_units]. *)
Definition utf8_export_into (f : flat) (dst_len : Z) : (list Z * nat) * flat :=
  let str_len := length (fl_bytes f) in
  if (str_len =? 0)%nat then (([], 0%nat), f)
  else
    let '(valid, f) := str_is_valid_utf8 f in
    if negb valid then (utf8_export_wtf8 (fl_bytes f) str_len dst_len, f)
    else
      let len := if Z.of_nat str_len <? dst_len then str_len else Z.to_nat dst_len in
      let len := if (len <? str_len)%nat then back_to_lead (fl_bytes f) len else len in
      ((take len (fl_bytes f), utf16_strlen (fl_bytes f) len), f).
End export.

(** ** Encodings and the UTF-16 view *)

Definition is_cp (cp : Z) : Prop := 0 <= cp < 0x110000.

(** UTF-16 encoding of a code point. *)
Definition cp_units (cp : Z) : list Z :=
  if cp <? 0x10000 then [cp] else [high_surrogate cp; low_surrogate cp].

Lemma land_low a k m : 0 <= k -> 0 <= m < 2 ^ k -> (a * 2 ^ k + m) .& (2 ^ k - 1) = m.
Proof.
  intros Hk Hm. rewrite land_ones_mod by lia. rewrite Z.add_comm, Z.mod_add by lia.
  apply Z.mod_small. lia.
Qed.

Lemma cont_bits r : 0 <= r < 64 -> (0x80 + r) .& 0x3F = r.
Proof. intros. apply (land_low 2 6); lia. Qed.

Lemma cp2_enc q r : 0 <= q < 32 -> 0 <= r < 64 -> cp2 (0xC0 + q) (0x80 + r) = q * 64 + r.
Proof.
  intros. unfold cp2. rewrite cont_bits by lia.
  replace ((0xC0 + q) .& 0x1F) with q by (symmetry; apply (land_low 6 5); lia).
  apply lor_shiftl_add; lia.
Qed.

Lemma cp3_enc q m r : 0 <= q < 16 -> 0 <= m < 64 -> 0 <= r < 64 ->
  cp3 (0xE0 + q) (0x80 + m) (0x80 + r) = q * 4096 + m * 64 + r.
Proof.
  intros. unfold cp3. rewrite !cont_bits by lia.
  replace ((0xE0 + q) .& 0x0F) with q by (symmetry; apply (land_low 14 4); lia).
  rewrite <- Z.lor_assoc, (lor_shiftl_add m r) by lia.
  rewrite (lor_shiftl_add q _ 12) by lia. lia.
Qed.

Lemma cp4_enc q m m2 r : 0 <= q < 8 -> 0 <= m < 64 -> 0 <= m2 < 64 -> 0 <= r < 64 ->
  cp4 (0xF0 + q) (0x80 + m) (0x80 + m2) (0x80 + r) = q * 262144 + m * 4096 + m2 * 64 + r.
Proof.
  intros. unfold cp4. rewrite !cont_bits by lia.
  replace ((0xF0 + q) .& 0x07) with q by (symmetry; apply (land_low 30 3); lia).
  rewrite <- !Z.lor_assoc, (lor_shiftl_add m2 r) by lia.
  rewrite (lor_shiftl_add m _ 12) by lia. rewrite (lor_shiftl_add q _ 18) by lia. lia.
Qed.

(** Lead bytes of the three lengths. *)
Lemma lead_ranges c : is_byte c ->
  is_lead2 c = (0xC0 <=? c) && (c <? 0xE0) /\ is_lead3 c = (0xE0 <=? c) && (c <? 0xF0) /\
  is_lead4 c = (0xF0 <=? c) && (c <? 0xF8).
Proof.
  intros Hc. by_bytes c (fun c => Bool.eqb (is_lead2 c) ((0xC0 <=? c) && (c <? 0xE0)) &&
    Bool.eqb (is_lead3 c) ((0xE0 <=? c) && (c <? 0xF0)) &&
    Bool.eqb (is_lead4 c) ((0xF0 <=? c) && (c <? 0xF8))).
  apply andb_true_iff in Hbyte as [Hbyte H3]. apply andb_true_iff in Hbyte as [H1 H2].
  rewrite !eqb_true_iff in *. auto.
Qed.

Lemma enc_bytes cp : is_cp cp -> bytes (utf8_enc cp).
Proof.
  unfold is_cp, utf8_enc, is_byte. intros H.
  case_ifs; repeat constructor; try lia; (Z.to_euclidean_division_equations; lia).
Qed.

Lemma wtf16_enc cp t : is_cp cp -> wtf16 (utf8_enc cp ++ t) = cp_units cp ++ wtf16 t.
Proof.
  intros Hcp. pose proof (enc_bytes cp Hcp) as Hb. revert Hb. unfold is_cp in Hcp.
  unfold utf8_enc, cp_units.
  destruct (Z.ltb_spec cp 0x80) as [H1|H1].
  { intros _. destruct (Z.ltb_spec cp 0x10000); [|lia]. cbn [app wtf16].
    destruct (Z.ltb_spec cp 0x80); [reflexivity|lia]. }
  destruct (Z.ltb_spec cp 0x800) as [H2|H2].
  { intros Hb. inversion_clear Hb as [|? ? Hb0 _]. destruct (Z.ltb_spec cp 0x10000); [|lia].
    destruct (lead_ranges _ Hb0) as (L2 & _ & _). cbn [app wtf16]. rewrite L2.
    assert (0 <= cp / 64 < 32 /\ cp = cp / 64 * 64 + cp mod 64 /\ 0 <= cp mod 64 < 64)
      as (Hq & Hcp' & Hr) by (Z.to_euclidean_division_equations; lia).
    rewrite cp2_enc by lia. lead_cases. cbn. f_equal. lia. }
  destruct (Z.ltb_spec cp 0x10000) as [H3|H3].
  { intros Hb. inversion_clear Hb as [|? ? Hb0 _].
    destruct (lead_ranges _ Hb0) as (L2 & L3 & _). cbn [app wtf16]. rewrite L2, L3.
    assert (cp = cp / 4096 * 4096 + (cp / 64) mod 64 * 64 + cp mod 64 /\ 0 <= cp mod 64 < 64 /\
            0 <= (cp / 64) mod 64 < 64 /\ 0 <= cp / 4096 < 16)
      as (Hcp' & Hr & Hm & Hq) by (Z.to_euclidean_division_equations; lia).
    rewrite cp3_enc by lia. lead_cases. cbn. f_equal. lia. }
  intros Hb. inversion_clear Hb as [|? ? Hb0 _].
  destruct (lead_ranges _ Hb0) as (L2 & L3 & L4). cbn [app wtf16]. rewrite L2, L3, L4.
  assert (cp = cp / 262144 * 262144 + (cp / 4096) mod 64 * 4096 + (cp / 64) mod 64 * 64
               + cp mod 64 /\ 0 <= cp mod 64 < 64 /\
          0 <= (cp / 64) mod 64 < 64 /\ 0 <= (cp / 4096) mod 64 < 64 /\ 0 <= cp / 262144 < 8)
    as (Hcp' & Hr & Hm & Hm2 & Hq) by (Z.to_euclidean_division_equations; lia).
  rewrite cp4_enc, <- Hcp' by lia. lead_cases. reflexivity.
Qed.

Lemma utf8_of_bytes cps : Forall is_cp cps -> bytes (utf8_of cps).
Proof.
  unfold utf8_of. induction 1; [constructor|]. cbn [map concat].
  apply Forall_app. split; [apply enc_bytes|]; assumption.
Qed.

Lemma wtf16_utf8_of cps :
  Forall is_cp cps -> wtf16 (utf8_of cps) = concat (map cp_units cps).
Proof.
  induction 1 as [|cp cps Hcp _ IH]; [reflexivity|].
  change (utf8_of (cp :: cps)) with (utf8_enc cp ++ utf8_of cps).
  rewrite wtf16_enc, IH by exact Hcp. reflexivity.
Qed.

Lemma scan_wf_enc cp t : is_cp cp -> scan_wf (utf8_enc cp ++ t) = scan_wf t.
Proof.
  intros Hcp. pose proof (enc_bytes cp Hcp) as Hb. revert Hb. unfold is_cp in Hcp.
  assert (0 <= cp / 262144 < 8) by (Z.to_euclidean_division_equations; lia).
  unfold utf8_enc. case_ifs; intros Hb; inversion_clear Hb as [|? ? Hb0 _];
    destruct (lead_ranges _ Hb0) as (L2 & L3 & L4).
  - cbn [app scan_wf]. destruct (Z.ltb_spec cp 0x80); [reflexivity|lia].
  - assert (0 <= cp / 64 < 32) by (Z.to_euclidean_division_equations; lia).
    assert (H1 : (0xC0 + cp / 64 <? 0x80) = false) by lia.
    assert (H2 : is_lead2 (0xC0 + cp / 64) = true) by (rewrite L2; lia).
    cbn [app scan_wf]. rewrite H1, H2. reflexivity.
  - assert (0 <= cp / 4096 < 16) by (Z.to_euclidean_division_equations; lia).
    assert (H1 : (0xE0 + cp / 4096 <? 0x80) = false) by lia.
    assert (H2 : is_lead2 (0xE0 + cp / 4096) = false) by (rewrite L2; lia).
    assert (H3 : is_lead3 (0xE0 + cp / 4096) = true) by (rewrite L3; lia).
    cbn [app scan_wf]. rewrite H1, H2, H3. reflexivity.
  - assert (H1 : (0xF0 + cp / 262144 <? 0x80) = false) by lia.
    assert (H2 : is_lead2 (0xF0 + cp / 262144) = false) by (rewrite L2; lia).
    assert (H3 : is_lead3 (0xF0 + cp / 262144) = false) by (rewrite L3; lia).
    assert (H4 : is_lead4 (0xF0 + cp / 262144) = true) by (rewrite L4; lia).
    cbn [app scan_wf]. rewrite H1, H2, H3, H4. reflexivity.
Qed.

Lemma scan_wf_utf8_of cps : Forall is_cp cps -> scan_wf (utf8_of cps) = true.
Proof.
  induction 1 as [|cp cps Hcp _ IH]; [reflexivity|].
  change (utf8_of (cp :: cps)) with (utf8_enc cp ++ utf8_of cps).
  rewrite scan_wf_enc by exact Hcp. exact IH.
Qed.

Lemma scalars_are_cps cps : Forall (fun cp => is_scalar cp = true) cps -> Forall is_cp cps.
Proof.
  intros H. eapply Forall_impl; [exact H|]. intros cp Hc. apply scalar_range in Hc. apply Hc.
Qed.

Lemma valid_utf8_scan_wf s : valid_utf8 s -> scan_wf s = true.
Proof. intros (cps & H & ->). apply scan_wf_utf8_of, scalars_are_cps, H. Qed.

(** ** Correctness of the export *)

Definition is_high (cp : Z) : bool := (0xD800 <=? cp) && (cp <=? 0xDBFF).
Definition is_low (cp : Z) : bool := (0xDC00 <=? cp) && (cp <=? 0xDFFF).
Definition combine_pair (hi lo : Z) : Z := 0x10000 + (hi - 0xD800) * 1024 + (lo - 0xDC00).

(** Conversion to scalar values: pairs of surrogates combine, lone ones become
    U+FFFD. *)
Fixpoint usv (cps : list Z) : list Z :=
  match cps with
  | [] => []
  | cp :: t =>
      if is_high cp then
        match t with
        | cp2 :: t2 => if is_low cp2 then combine_pair cp cp2 :: usv t2 else 0xFFFD :: usv t
        | [] => [0xFFFD]
        end
      else if is_low cp then 0xFFFD :: usv t
      else cp :: usv t
  end.

Definition surrogate_check (c1 : Z) : bool :=
  forallb (fun c2 =>
    negb ((c1 .& 0xe0 =? 0xa0) && (c2 .& 0xc0 =? 0x80)) ||
    (0xa0 <=? c1) && (c1 <=? 0xbf) && (0x80 <=? c2) && (c2 <=? 0xbf) &&
    (u16 (((0xed .& 0x0f) .<< 12) .| ((c1 .& 0x3f) .<< 6) .| (c2 .& 0x3f))
     =? 0xD000 + (c1 - 0x80) * 64 + (c2 - 0x80))) all_bytes.

Lemma surrogate_value c1 c2 : is_byte c1 -> is_byte c2 ->
  (c1 .& 0xe0 =? 0xa0) = true -> (c2 .& 0xc0 =? 0x80) = true ->
  0xa0 <= c1 <= 0xbf /\ 0x80 <= c2 <= 0xbf /\
  u16 (((0xed .& 0x0f) .<< 12) .| ((c1 .& 0x3f) .<< 6) .| (c2 .& 0x3f))
  = 0xD000 + (c1 - 0x80) * 64 + (c2 - 0x80).
Proof.
  intros H1 H2 E1 E2. by_bytes c1 surrogate_check. unfold surrogate_check in Hbyte.
  rewrite forallb_forall in Hbyte. specialize (Hbyte c2 (byte_in_all c2 H2)).
  cbv beta in Hbyte. rewrite E1, E2 in Hbyte. cbn [andb negb orb] in Hbyte. boolprop. auto.
Qed.

Lemma surrogate_at_shift s p k : (p <= length s)%nat ->
  utf8_wtf8_surrogate_at s (length s) (p + k) =
  utf8_wtf8_surrogate_at (drop p s) (length (drop p s)) k.
Proof.
  intros Hp. unfold utf8_wtf8_surrogate_at. rewrite !rd_drop, length_drop, !Nat.add_assoc.
  destruct (Nat.leb_spec (length s) (p + k + 2)), (Nat.leb_spec (length s - p) (k + 2));
    try lia; reflexivity.
Qed.

Lemma surrogate_at_sound l x : bytes l ->
  utf8_wtf8_surrogate_at l (length l) 0 = Some x ->
  0xD800 <= x <= 0xDFFF /\ exists t, l = utf8_enc x ++ t.
Proof.
  intros Hb. unfold utf8_wtf8_surrogate_at.
  case_if; boolprop; [discriminate|]. cbn [Nat.add] in *.
  destruct l as [|c0 [|c1 [|c2 t]]]; cbn [length] in *; try lia.
  repeat match goal with H : bytes (_ :: _) |- _ => inversion_clear H end.
  cbn [rd nth] in *. boolprop. subst c0.
  destruct (surrogate_value c1 c2) as (R1 & R2 & ->); try apply Z.eqb_eq; auto.
  case_if; [|discriminate]. boolprop. intros [= <-]. split; [lia|]. exists t.
  set (x := 0xD000 + (c1 - 0x80) * 64 + (c2 - 0x80)) in *.
  assert (utf8_enc x = [0xed; c1; c2]) as ->; [|reflexivity].
  unfold utf8_enc. lead_cases. unfold x.
  repeat f_equal; Z.to_euclidean_division_equations; lia.
Qed.

Lemma enc_surrogate x : 0xD800 <= x <= 0xDFFF ->
  exists c1 c2, utf8_enc x = [0xed; c1; c2] /\ 0xa0 <= c1 <= 0xbf /\ 0x80 <= c2 <= 0xbf /\
    x = 0xD000 + (c1 - 0x80) * 64 + (c2 - 0x80).
Proof.
  intros Hx. unfold utf8_enc. lead_cases.
  exists (0x80 + (x / 64) mod 64), (0x80 + x mod 64). splits;
    try (repeat f_equal; Z.to_euclidean_division_equations; lia).
Qed.

Lemma surrogate_at_complete x t : 0xD800 <= x <= 0xDFFF ->
  utf8_wtf8_surrogate_at (utf8_enc x ++ t) (length (utf8_enc x ++ t)) 0 = Some x.
Proof.
  intros Hx. destruct (enc_surrogate x Hx) as (c1 & c2 & -> & H1 & H2 & ->).
  unfold utf8_wtf8_surrogate_at. cbn [app length Nat.add rd nth].
  assert (B1 : is_byte c1) by (unfold is_byte; lia).
  assert (B2 : is_byte c2) by (unfold is_byte; lia).
  by_bytes c1 (fun c => negb ((0xa0 <=? c) && (c <=? 0xbf)) || (c .& 0xe0 =? 0xa0)).
  by_bytes c2 (fun c => negb ((0x80 <=? c) && (c <=? 0xbf)) || (c .& 0xc0 =? 0x80)).
  assert (E1 : (c1 .& 0xe0 =? 0xa0) = true) by lia.
  assert (E2 : (c2 .& 0xc0 =? 0x80) = true) by lia.
  rewrite E1, E2. destruct (Nat.leb_spec (S (S (S (length t)))) 2); [lia|].
  cbn [orb negb Z.eqb]. rewrite Z.eqb_refl. cbn [negb orb].
  destruct (surrogate_value c1 c2 B1 B2 E1 E2) as (_ & _ & ->).
  lead_cases. reflexivity.
Qed.

Lemma valid_head_surrogate x t : 0xD800 <= x <= 0xDFFF -> valid_head (utf8_enc x ++ t) = None.
Proof.
  intros Hx. destruct (enc_surrogate x Hx) as (c1 & c2 & -> & H1 & H2 & _).
  unfold valid_head. cbn [app]. change (utf8_lead_class 0xed) with (Some (2%nat, 0x80, 0x9f)).
  change (0xed <? 0x80) with false. cbn [length rd nth].
  case_ifs; auto; lia.
Qed.

Lemma surrogate_at_valid l n : bytes l -> valid_head l = Some n ->
  utf8_wtf8_surrogate_at l (length l) 0 = None.
Proof.
  intros Hb Hn. destruct (utf8_wtf8_surrogate_at l (length l) 0) as [x|] eqn:E; [|reflexivity].
  apply surrogate_at_sound in E as (Hx & t & ->); auto.
  rewrite valid_head_surrogate in Hn by exact Hx. discriminate.
Qed.

Section export_proofs.
Context {U : Utf8proc} {HU : Utf8procSpec U}.

Lemma export_piece_shift s p : (p <= length s)%nat ->
  export_piece s (length s) p = export_piece (drop p s) (length (drop p s)) 0.
Proof.
  intros Hp. unfold export_piece.
  pose proof (surrogate_at_shift s p 0 Hp) as E0. rewrite Nat.add_0_r in E0. rewrite E0.
  rewrite (surrogate_at_shift s p 3 Hp), drop_0, Nat.sub_0_r, length_drop.
  reflexivity.
Qed.

Lemma pair_cp hi lo : 0xD800 <= hi <= 0xDBFF -> 0xDC00 <= lo <= 0xDFFF ->
  u32 (0x10000 + (u32 (hi - 0xd800) .<< 10) + u32 (lo - 0xdc00)) = combine_pair hi lo /\
  0x10000 <= combine_pair hi lo < 0x110000.
Proof.
  intros H1 H2. unfold combine_pair. rewrite !(wrap_small 32 (_ - _)) by lia.
  rewrite Z.shiftl_mul_pow2 by lia. rewrite wrap_small by lia. lia.
Qed.

(** Each round on a non-empty string makes progress and emits the encoding of
    one scalar value, at most three bytes per byte consumed. *)
Lemma export_piece_ok l : bytes l -> (1 <= length l)%nat ->
  let '(piece, consumed, units) := export_piece l (length l) 0 in
  (exists cp, is_scalar cp = true /\ piece = utf8_enc cp) /\
  (1 <= consumed <= length l)%nat /\ (length piece <= 3 * consumed)%nat.
Proof using HU.
  intros Hb Hpos. unfold export_piece. change FFFD with (utf8_enc 0xFFFD).
  destruct (utf8_wtf8_surrogate_at l (length l) 0) as [hi|] eqn:E.
  - apply surrogate_at_sound in E as (Hx & t & Ht); auto.
    assert (Hl : (3 <= length l)%nat).
    { rewrite Ht, length_app. destruct (enc_surrogate hi Hx) as (? & ? & -> & _). cbn; lia. }
    assert (Hlone : (exists cp, is_scalar cp = true /\ utf8_enc 0xFFFD = utf8_enc cp) /\
                    (1 <= 3 <= length l)%nat /\ (length (utf8_enc 0xFFFD) <= 3 * 3)%nat).
    { splits; [exists 0xFFFD; auto|lia|lia|vm_compute; lia]. }
    destruct (Z.leb_spec hi 0xdbff); [|exact Hlone].
    change (0 + 3)%nat with (3 + 0)%nat. rewrite (surrogate_at_shift l 3 0) by lia.
    destruct (utf8_wtf8_surrogate_at (drop 3 l) _ 0) as [lo|] eqn:E2; [|exact Hlone].
    apply surrogate_at_sound in E2 as (Hy & t2 & Ht2); [|apply Forall_drop; auto].
    destruct (Z.leb_spec 0xdc00 lo); [|exact Hlone].
    destruct (pair_cp hi lo) as [-> Hr]; [lia|lia|].
    unfold utf8_encode. rewrite encode_char_spec by lia. splits.
    + exists (combine_pair hi lo). split; [|reflexivity]. unfold is_scalar. lia.
    + lia.
    + apply (f_equal length) in Ht2. rewrite length_drop, length_app in Ht2.
      destruct (enc_surrogate lo Hy) as (? & ? & E3 & _). rewrite E3 in Ht2. cbn in Ht2. lia.
    + pose proof (utf8_enc_length (combine_pair hi lo)). lia.
  - rewrite drop_0, take_ge, iterate_valid_head by (auto; lia).
    destruct (valid_head l) as [n|] eqn:V.
    + destruct (valid_head_sound l n Hb V) as (Hs & Hn & Ht). pose proof (valid_head_bounds l n V).
      splits; [eauto|lia|lia|rewrite length_take; lia].
    + splits; [exists 0xFFFD; auto|lia|lia|vm_compute; lia].
Qed.
Lemma export_loop_shift fuel : forall s d p out u, bytes s -> (p <= length s)%nat ->
  export_loop fuel s (length s) d p out u =
  export_loop fuel (drop p s) (length (drop p s)) d 0 out u.
Proof using HU.
  induction fuel as [|fuel IH]; intros s d p out u Hb Hp; [reflexivity|].
  cbn [export_loop]. rewrite (export_piece_shift s p Hp), length_drop.
  replace (0 <? length s - p)%nat with (p <? length s)%nat
    by (destruct (Nat.ltb_spec p (length s)), (Nat.ltb_spec 0 (length s - p)); lia).
  destruct (Nat.ltb_spec p (length s)) as [Hlt|]; [|reflexivity].
  pose proof (export_piece_ok (drop p s) ltac:(apply Forall_drop; auto)) as Hok.
  rewrite length_drop in Hok.
  destruct (export_piece _ _ _) as [[piece c] n].
  destruct Hok as (_ & Hc & _); [lia|]. case_if; [reflexivity|].
  rewrite IH by (auto; lia). rewrite <- length_drop, (IH (drop p s)), drop_drop; auto.
  - apply Forall_drop. auto.
  - rewrite length_drop. lia.
Qed.

(** The output stays in the buffer and is valid UTF-8, for any bytes. *)
Lemma export_loop_safe fuel : forall s d p out u, bytes s -> (p <= length s)%nat ->
  Z.of_nat (length out) <= d -> valid_utf8 out ->
  let '(o, _) := export_loop fuel s (length s) d p out u in
  Z.of_nat (length o) <= d /\ valid_utf8 o.
Proof using HU.
  induction fuel as [|fuel IH]; intros s d p out u Hb Hp Hd Hv; cbn [export_loop]; [auto|].
  destruct (Nat.ltb_spec p (length s)) as [Hlt|]; [|auto].
  rewrite (export_piece_shift s p Hp).
  pose proof (export_piece_ok (drop p s) ltac:(apply Forall_drop; auto)) as Hok.
  destruct (export_piece _ _ _) as [[piece c] n]. rewrite length_drop in Hok.
  destruct Hok as ((cp & Hs & ->) & Hc & _); [lia|]. case_if; boolprop; [auto|].
  apply IH; auto; [lia|rewrite length_app; lia|].
  apply valid_utf8_app; auto. rewrite <- (app_nil_r (utf8_enc cp)).
  apply valid_utf8_cons; auto using valid_utf8_nil.
Qed.

Lemma export_loop_extends fuel s n d : forall p out u,
  out `prefix_of` (export_loop fuel s n d p out u).1.
Proof.
  induction fuel as [|fuel IH]; intros p out u; cbn [export_loop]; [reflexivity|].
  case_if; [|reflexivity]. destruct (export_piece s n p) as [[piece c] k].
  case_if; [reflexivity|]. etrans; [|apply IH]. apply prefix_app_r. reflexivity.
Qed.

(** A smaller buffer receives a prefix of what a larger one does. *)
Lemma export_loop_mono fuel s n d d' : d <= d' -> forall p out u,
  (export_loop fuel s n d p out u).1 `prefix_of` (export_loop fuel s n d' p out u).1.
Proof.
  intros Hd. induction fuel as [|fuel IH]; intros p out u; cbn [export_loop]; [reflexivity|].
  case_if; [|reflexivity]. destruct (export_piece s n p) as [[piece c] k].
  destruct (Z.ltb_spec (d - Z.of_nat (length out)) (Z.of_nat (length piece)));
  destruct (Z.ltb_spec (d' - Z.of_nat (length out)) (Z.of_nat (length piece))); try lia.
  - reflexivity.
  - cbn [fst]. etrans; [|apply export_loop_extends]. apply prefix_app_r. reflexivity.
  - apply IH.
Qed.

Lemma surrogate_at_cps cps : Forall is_cp cps ->
  utf8_wtf8_surrogate_at (utf8_of cps) (length (utf8_of cps)) 0 =
  match cps with
  | cp :: _ => if (0xD800 <=? cp) && (cp <=? 0xDFFF) then Some cp else None
  | [] => None
  end.
Proof.
  intros H. destruct H as [|cp cps Hcp Hcps]; [reflexivity|].
  change (utf8_of (cp :: cps)) with (utf8_enc cp ++ utf8_of cps).
  case_if; boolprop; [apply surrogate_at_complete; lia|].
  assert (Hs : is_scalar cp = true) by (unfold is_cp in Hcp; unfold is_scalar; lia).
  eapply surrogate_at_valid; [|apply valid_head_complete; exact Hs].
  apply Forall_app. split; [apply enc_bytes|apply utf8_of_bytes]; assumption.
Qed.

(** What one round does on an encoded code point sequence. *)
Definition usv_step (cps : list Z) : (Z * nat * nat * list Z) :=
  match cps with
  | [] => (0, 0%nat, 0%nat, [])
  | cp :: t =>
      if is_high cp then
        match t with
        | cp2 :: t2 => if is_low cp2 then (combine_pair cp cp2, 6%nat, 2%nat, t2)
                       else (0xFFFD, 3%nat, 1%nat, t)
        | [] => (0xFFFD, 3%nat, 1%nat, t)
        end
      else if is_low cp then (0xFFFD, 3%nat, 1%nat, t)
      else (cp, length (utf8_enc cp), length (cp_units cp), t)
  end.

Lemma usv_step_usv cps : cps <> [] ->
  let '(cp, c, n, t) := usv_step cps in
  usv cps = cp :: usv t /\ (length t < length cps)%nat.
Proof.
  intros Hne. destruct cps as [|cp t]; [congruence|]. unfold usv_step. cbn [usv].
  destruct (is_high cp).
  - destruct t as [|cp2 t2]; [|destruct (is_low cp2)]; split; auto; cbn; lia.
  - destruct (is_low cp); split; auto; cbn; lia.
Qed.

Lemma surrogate_enc_length cp : 0xD800 <= cp <= 0xDFFF -> length (utf8_enc cp) = 3%nat.
Proof. intros H. destruct (enc_surrogate cp H) as (? & ? & -> & _). reflexivity. Qed.

Lemma surrogate_units cp : 0xD800 <= cp <= 0xDFFF -> length (cp_units cp) = 1%nat.
Proof. intros H. unfold cp_units. destruct (Z.ltb_spec cp 0x10000); [reflexivity|lia]. Qed.

Lemma usv_step_drop cps : Forall is_cp cps -> cps <> [] ->
  let '(cp, c, n, t) := usv_step cps in
  Forall is_cp t /\ drop c (utf8_of cps) = utf8_of t /\ (c <= length (utf8_of cps))%nat /\
  length (concat (map cp_units cps)) = (n + length (concat (map cp_units t)))%nat.
Proof.
  intros H Hne. destruct H as [|cp t Hcp Ht]; [congruence|].
  assert (Hgen : Forall is_cp t /\ drop (length (utf8_enc cp)) (utf8_of (cp :: t)) = utf8_of t /\
    (length (utf8_enc cp) <= length (utf8_of (cp :: t)))%nat /\
    length (concat (map cp_units (cp :: t))) =
    (length (cp_units cp) + length (concat (map cp_units t)))%nat).
  { unfold utf8_of. cbn [map concat]. rewrite !length_app, drop_app_length. splits; auto; lia. }
  unfold usv_step, is_high, is_low in *. case_ifs; boolprop;
    try rewrite (surrogate_enc_length cp), (surrogate_units cp) in Hgen by lia; auto.
  destruct Ht as [|cp2 t2 Hcp2 Ht2]; auto. case_ifs; boolprop; auto.
  unfold utf8_of in *. cbn [map concat] in *. rewrite !length_app in *.
  rewrite (surrogate_enc_length cp2), (surrogate_units cp2) in * by lia.
  rewrite (surrogate_enc_length cp), (surrogate_units cp) in * by lia.
  splits; auto; try lia. destruct Hgen as (_ & Hd & _).
  rewrite <- (drop_drop _ 3 3), Hd. rewrite <- (surrogate_enc_length cp2), drop_app_length; auto; lia.
Qed.

(** Exporting encoded code points never needs more room than they take. *)
Lemma usv_step_shrinks cps : cps <> [] ->
  let '(cp, c, _, _) := usv_step cps in (length (utf8_enc cp) <= c)%nat.
Proof.
  intros Hne. destruct cps as [|cp t]; [congruence|]. unfold usv_step.
  pose proof (utf8_enc_length (combine_pair cp (hd 0 t))) as H. cbn [hd] in H.
  assert (length (utf8_enc 0xFFFD) = 3%nat) by reflexivity.
  destruct (is_high cp); [destruct t as [|cp2 t2]; [|destruct (is_low cp2)]|destruct (is_low cp)];
    cbn [hd] in H; lia.
Qed.

Lemma export_scalar cp t : is_scalar cp = true -> Forall is_cp t ->
  match utf8proc_iterate (take (length (utf8_of (cp :: t)) - 0) (drop 0 (utf8_of (cp :: t)))) with
  | Some (n, c) =>
      (take n (drop 0 (utf8_of (cp :: t))), n, if 0x10000 <=? c then 2%nat else 1%nat)
  | None => (utf8_enc 0xFFFD, 1%nat, 1%nat)
  end = (utf8_enc cp, length (utf8_enc cp), length (cp_units cp)).
Proof using HU.
  intros Hs Ht. rewrite Nat.sub_0_r, drop_0, take_ge by lia.
  assert (Hcp : is_cp cp) by (apply scalar_range in Hs; apply Hs).
  rewrite iterate_valid_head by (apply utf8_of_bytes; constructor; auto).
  change (utf8_of (cp :: t)) with (utf8_enc cp ++ utf8_of t).
  destruct (valid_head_complete cp (utf8_of t) Hs) as [-> ->]. rewrite take_app_length.
  unfold cp_units. destruct (Z.leb_spec 0x10000 cp), (Z.ltb_spec cp 0x10000); try lia; reflexivity.
Qed.

Lemma export_piece_cps cps : Forall is_cp cps -> cps <> [] ->
  export_piece (utf8_of cps) (length (utf8_of cps)) 0 =
  let '(cp, c, n, _) := usv_step cps in (utf8_enc cp, c, n).
Proof using HU.
  intros H Hne. unfold export_piece. rewrite surrogate_at_cps by exact H.
  destruct H as [|cp t Hcp Ht]; [congruence|]. change FFFD with (utf8_enc 0xFFFD).
  unfold usv_step, is_high, is_low. unfold is_cp in Hcp.
  destruct (Z.leb_spec 0xD800 cp); destruct (Z.leb_spec cp 0xDFFF); cbn [andb].
  - destruct (Z.leb_spec cp 0xDBFF); cbn [andb].
    + change (0 + 3)%nat with (3 + 0)%nat.
      pose proof (surrogate_enc_length cp ltac:(lia)) as H3.
      change (utf8_of (cp :: t)) with (utf8_enc cp ++ utf8_of t).
      rewrite surrogate_at_shift by (rewrite length_app; lia).
      rewrite <- H3, drop_app_length, H3, surrogate_at_cps by exact Ht.
      destruct Ht as [|cp2 t2 Hcp2 Ht2]; [reflexivity|].
      destruct (Z.leb_spec 0xDC00 cp2) as [L|L], (Z.leb_spec cp2 0xDFFF) as [L'|L'];
        destruct (Z.leb_spec 0xD800 cp2); cbn [andb]; try lia; try reflexivity;
        try (destruct (Z.leb_spec 0xDC00 cp2); [lia|reflexivity]).
      destruct (pair_cp cp cp2) as [-> Hr]; [lia|lia|].
      unfold utf8_encode. rewrite encode_char_spec by lia.
      destruct (Z.leb_spec 0xDC00 cp2); [reflexivity|lia].
    + destruct (Z.leb_spec 0xDC00 cp); cbn [andb]; [reflexivity|lia].
  - rewrite export_scalar by (exact Ht || unfold is_scalar; lia). destruct (Z.leb_spec cp 0xDBFF); [lia|].
    destruct (Z.leb_spec 0xDC00 cp); reflexivity.
  - rewrite export_scalar by (exact Ht || unfold is_scalar; lia).
    destruct (Z.leb_spec 0xDC00 cp); [lia|reflexivity].
  - lia.
Qed.

Lemma export_loop_cps k : forall cps fuel out u d,
  (length cps < k)%nat -> Forall is_cp cps -> (length (utf8_of cps) < fuel)%nat ->
  Z.of_nat (length out) + Z.of_nat (length (utf8_of cps)) <= d ->
  export_loop fuel (utf8_of cps) (length (utf8_of cps)) d 0 out u =
  (out ++ utf8_of (usv cps), (u + length (concat (map cp_units cps)))%nat).
Proof using HU.
  induction k as [|k IH]; intros cps fuel out u d Hk Hc Hf Hd; [lia|].
  destruct fuel as [|fuel]; [lia|].
  destruct (decide (cps = [])) as [->|Hne].
  { cbn. rewrite app_nil_r, Nat.add_0_r. reflexivity. }
  assert (Hpos : (1 <= length (utf8_of cps))%nat).
  { destruct cps as [|cp t]; [congruence|]. unfold utf8_of. cbn [map concat].
    rewrite length_app. pose proof (utf8_enc_length cp). lia. }
  cbn [export_loop]. destruct (Nat.ltb_spec 0 (length (utf8_of cps))); [|lia].
  pose proof (export_piece_ok (utf8_of cps) (utf8_of_bytes cps Hc) Hpos) as Hok.
  rewrite (export_piece_cps cps Hc Hne) in *.
  pose proof (usv_step_usv cps Hne) as Hu. pose proof (usv_step_drop cps Hc Hne) as Hs.
  pose proof (usv_step_shrinks cps Hne) as H2.
  destruct (usv_step cps) as [[[cp c] n] t].
  destruct Hok as (_ & H1 & _), Hu as (-> & Hlt), Hs as (Ht & Hdr & Hle & ->).
  destruct (Z.ltb_spec (d - Z.of_nat (length out)) (Z.of_nat (length (utf8_enc cp)))); [lia|].
  rewrite export_loop_shift by (auto using utf8_of_bytes). cbn [Nat.add]. rewrite Hdr.
  assert (Hlen : (length (utf8_of t) = length (utf8_of cps) - c)%nat).
  { rewrite <- Hdr, length_drop. reflexivity. }
  rewrite IH; auto; try lia.
  - change (utf8_of (cp :: usv t)) with (utf8_enc cp ++ utf8_of (usv t)).
    rewrite <- app_assoc, Nat.add_assoc. reflexivity.
  - rewrite length_app. lia.
Qed.

Lemma export_cps cps d :
  Forall is_cp cps -> Z.of_nat (length (utf8_of cps)) <= d ->
  utf8_export_wtf8 (utf8_of cps) (length (utf8_of cps)) d =
  (utf8_of (usv cps), length (wtf16 (utf8_of cps))).
Proof using HU.
  intros Hc Hd. unfold utf8_export_wtf8.
  rewrite (export_loop_cps (S (length cps))) by (auto; cbn [length]; lia).
  rewrite wtf16_utf8_of by exact Hc. reflexivity.
Qed.

Lemma usv_scalars cps : Forall (fun cp => is_scalar cp = true) cps -> usv cps = cps.
Proof.
  induction 1 as [|cp cps Hs _ IH]; [reflexivity|]. cbn [usv]. apply scalar_range in Hs.
  unfold is_high, is_low. case_ifs; boolprop; try lia. rewrite IH. reflexivity.
Qed.

(** [utf8_export_wtf8], given a destination as long as the source, turns WTF-8 into the UTF-8 encoding of
    the string's scalar values: surrogate pairs encoded as two sequences are
    joined, lone surrogates become U+FFFD, everything else is kept; the unit
    count is the string's UTF-16 length. *)
Theorem export_wtf8_correct cps d :
  Forall is_cp cps -> Z.of_nat (length (utf8_of cps)) <= d ->
  utf8_export_wtf8 (utf8_of cps) (length (utf8_of cps)) d =
  (utf8_of (usv cps), length (wtf16 (utf8_of cps))).
Proof using HU. apply export_cps. Qed.

(** For any bytes at all and any destination size, [utf8_export_wtf8]
    writes at most [dst_len] bytes, what it writes is valid UTF-8, and it is a
    prefix of what a larger destination would receive. *)
Theorem export_wtf8_safe s d d' :
  bytes s -> 0 <= d <= d' ->
  let out := (utf8_export_wtf8 s (length s) d).1 in
  Z.of_nat (length out) <= d /\ valid_utf8 out /\
  out `prefix_of` (utf8_export_wtf8 s (length s) d').1.
Proof using HU.
  intros Hb Hd. cbv zeta. unfold utf8_export_wtf8.
  pose proof (export_loop_safe (S (length s)) s d 0 [] 0 Hb ltac:(lia)
    ltac:(cbn; lia) valid_utf8_nil) as H.
  pose proof (export_loop_mono (S (length s)) s (length s) d d' ltac:(lia) 0 [] 0) as Hm.
  destruct (export_loop _ _ _ d _ _ _). destruct H. auto.
Qed.
End export_proofs.

Lemma export_wtf8_correct_witness :
  utf8_export_wtf8 [0xED; 0xA0; 0xBD; 0xED; 0xB8; 0x80; 0xED; 0xA0; 0x80] 9 9 =
  (utf8_of (usv [0xD83D; 0xDE00; 0xD800]), 3%nat).
Proof.
  apply (export_wtf8_correct [0xD83D; 0xDE00; 0xD800] 9);
    [repeat constructor; vm_compute; discriminate|vm_compute; discriminate].
Defined.

Lemma export_wtf8_safe_witness :
  valid_utf8 (utf8_export_wtf8 [0xFF; 0x41; 0xC3; 0xA9] 4 5).1.
Proof.
  exact (proj1 (proj2 (export_wtf8_safe [0xFF; 0x41; 0xC3; 0xA9] 5 8
    ltac:(repeat constructor; vm_compute; discriminate) ltac:(lia)))).
Defined.

(** *** Cached export length *)

Section export_cache.
Context {U : Utf8proc} {HU : Utf8procSpec U} (SIZE_MAX : Z).

Definition full_export (s : list Z) : list Z := (utf8_export_wtf8 s (length s) SIZE_MAX).1.

(** The metadata is right, the "same length" state included. *)
Definition export_ok (f : flat) : Prop :=
  meta_ok f /\ (str_flat_utf_valid_state f = STR_UTF_INVALID_SAME_LENGTH ->
                length (full_export (fl_bytes f)) = length (fl_bytes f)).

Lemma str_is_ascii_state f :
  let '(_, f') := str_is_ascii f in
  str_flat_utf_valid_state f' = STR_UTF_INVALID_SAME_LENGTH ->
  str_flat_utf_valid_state f = STR_UTF_INVALID_SAME_LENGTH.
Proof.
  unfold str_is_ascii. case_if; [|auto].
  rewrite init_meta_valid by (pose proof (detect_ascii_range (fl_bytes f)); lia). discriminate.
Qed.

Lemma str_is_ascii_export f : export_ok f ->
  let '(r, f') := str_is_ascii f in
  r = all_ascii (fl_bytes f) /\ fl_bytes f' = fl_bytes f /\ export_ok f'.
Proof.
  intros [Hm He]. pose proof (str_is_ascii_spec f Hm) as Ha. pose proof (str_is_ascii_state f) as Hs.
  destruct (str_is_ascii f) as [r f']. destruct Ha as (-> & Hb & Hm' & _).
  unfold export_ok. rewrite Hb. splits; auto.
Qed.

Lemma str_is_valid_export f : export_ok f ->
  let '(r, f') := str_is_valid_utf8 f in
  r = all_ascii (fl_bytes f) || utf8_validate_bytes (fl_bytes f) (length (fl_bytes f)) /\
  fl_bytes f' = fl_bytes f /\ export_ok f'.
Proof.
  intros [Hm He]. pose proof (str_is_valid_utf8_spec f Hm) as Hv.
  assert (Hs : str_flat_utf_valid_state (str_is_valid_utf8 f).2 = STR_UTF_INVALID_SAME_LENGTH ->
               str_flat_utf_valid_state f = STR_UTF_INVALID_SAME_LENGTH).
  { unfold str_is_valid_utf8. pose proof (str_is_ascii_state f) as Hs.
    destruct (str_is_ascii f) as [r f']. destruct r; [exact Hs|]. case_if; [|exact Hs].
    cbn [snd]. rewrite set_valid_valid by (case_if; unfold STR_UTF_VALID, STR_UTF_INVALID; lia).
    case_if; discriminate. }
  destruct (str_is_valid_utf8 f) as [r f']. destruct Hv as (-> & Hb & Hm').
  unfold export_ok. rewrite Hb. splits; auto.
Qed.

Lemma full_export_valid s : valid_utf8 s -> Z.of_nat (length s) <= SIZE_MAX ->
  full_export s = s.
Proof using HU.
  intros (cps & Hs & ->) Hd. unfold full_export.
  rewrite export_cps by (auto using scalars_are_cps). cbn [fst]. rewrite usv_scalars; auto.
Qed.

Lemma all_ascii_valid s : bytes s -> all_ascii s = true -> valid_utf8 s.
Proof.
  intros Hb. induction Hb as [|b s Hb _ IH]; intros Ha; [apply valid_utf8_nil|].
  unfold all_ascii in Ha. cbn [forallb] in Ha. apply andb_true_iff in Ha as [H1 H2].
  boolprop. destruct Hb. destruct (enc1 b) as [Hs He]; [lia|].
  change (b :: s) with ([b] ++ s). rewrite <- He. apply valid_utf8_cons; auto.
Qed.

Lemma export_length_slow_ok f : export_ok f -> bytes (fl_bytes f) ->
  Z.of_nat (length (fl_bytes f)) <= SIZE_MAX ->
  let '(n, f') := utf8_export_length_slow SIZE_MAX f in
  n = Z.of_nat (length (full_export (fl_bytes f))) /\ fl_bytes f' = fl_bytes f /\ export_ok f'.
Proof using HU.
  intros Hok Hb Hd. unfold utf8_export_length_slow.
  pose proof (str_is_valid_export f Hok) as Hv. destruct (str_is_valid_utf8 f) as [r f'].
  destruct Hv as (-> & Hb' & Hok'). destruct (_ || _) eqn:V.
  - rewrite full_export_valid; auto. apply orb_true_iff in V as [V|V];
      [apply all_ascii_valid|apply validate_spec]; auto.
  - apply orb_false_iff in V as [_ V]. rewrite Hb'. fold (full_export (fl_bytes f)).
    destruct (Nat.eqb_spec (length (full_export (fl_bytes f))) (length (fl_bytes f))) as [E|E];
      splits; auto.
    destruct Hok' as [Hm' He']. split.
    + apply set_valid_ok; auto; unfold STR_UTF_INVALID_SAME_LENGTH; [lia|discriminate|].
      rewrite Hb'. auto.
    + intros _. cbn. rewrite Hb'. exact E.
Qed.

Lemma export_length_ok f : export_ok f -> bytes (fl_bytes f) ->
  Z.of_nat (length (fl_bytes f)) <= SIZE_MAX ->
  let '(n, f') := utf8_export_length SIZE_MAX f in
  n = Z.of_nat (length (full_export (fl_bytes f))) /\ fl_bytes f' = fl_bytes f /\ export_ok f'.
Proof using HU.
  intros Hok Hb Hd. unfold utf8_export_length.
  destruct (Nat.eqb_spec (length (fl_bytes f)) 0) as [E|E].
  { splits; auto. destruct (fl_bytes f); [reflexivity|discriminate]. }
  destruct (_ || _) eqn:St.
  { splits; auto. apply orb_true_iff in St as [St|St]; apply Z.eqb_eq in St.
    - destruct Hok as [Hm _]. rewrite full_export_valid; auto.
      apply validate_spec; auto. apply (mo_valid_yes f Hm St).
    - destruct Hok as [_ He]. rewrite (He St). reflexivity. }
  destruct (_ =? STR_UTF_UNKNOWN); [|apply export_length_slow_ok; auto].
  pose proof (str_is_ascii_export f Hok) as Ha. destruct (str_is_ascii f) as [r f'].
  destruct Ha as (-> & Hb' & Hok'). destruct (all_ascii (fl_bytes f)) eqn:A.
  - rewrite full_export_valid; auto using all_ascii_valid.
  - rewrite <- Hb'. apply export_length_slow_ok; rewrite ?Hb'; auto.
Qed.
End export_cache.

(** *** Truncation at a character boundary *)

Definition is_cont (b : Z) : bool := b .& 0xc0 =? 0x80.

Lemma is_cont_range b : is_byte b -> is_cont b = (0x80 <=? b) && (b <? 0xc0).
Proof.
  intros Hb. by_bytes b (fun b => Bool.eqb (is_cont b) ((0x80 <=? b) && (b <? 0xc0))).
  apply eqb_true_iff. exact Hbyte.
Qed.

Lemma enc_shape cp : is_cp cp ->
  exists c t, utf8_enc cp = c :: t /\ is_cont c = false /\ Forall (fun b => is_cont b = true) t.
Proof.
  intros Hcp. pose proof (enc_bytes cp Hcp) as Hb. unfold is_cp in Hcp. revert Hb.
  unfold utf8_enc. case_ifs; intros Hb;
    repeat match goal with H : bytes (_ :: _) |- _ => inversion_clear H end;
    eexists _, _; (split; [reflexivity|]); (split; [|repeat constructor]);
    rewrite is_cont_range by assumption; unfold is_byte in *;
    try (Z.to_euclidean_division_equations; lia).
Qed.

Lemma back_to_lead_in a r n : Forall (fun b => is_cont b = true) a ->
  forall c, (n <= length a)%nat -> back_to_lead (c :: a ++ r) n = 0%nat.
Proof.
  intros Ha c Hn. induction n as [|n IH]; [reflexivity|]. cbn [back_to_lead].
  assert (Hlt : (n < length a)%nat) by lia. destruct (lookup_lt_is_Some_2 a n Hlt) as [b Hb].
  assert (Hc : is_cont (rd (c :: a ++ r) (S n)) = true).
  { rewrite (rd_lookup _ _ b); [|change ((a ++ r) !! n = Some b); rewrite lookup_app_l by lia; exact Hb].
    eapply Forall_lookup_1 in Ha; eauto. }
  unfold is_cont in Hc. rewrite Hc. apply IH. lia.
Qed.

Lemma back_to_lead_app a r m : (0 < length a)%nat -> is_cont (rd r 0) = false ->
  back_to_lead (a ++ r) (length a + m) = (length a + back_to_lead r m)%nat.
Proof.
  intros Ha H0.
  assert (Hrd : forall i, rd (a ++ r) (length a + i) = rd r i).
  { intros i. unfold rd. rewrite app_nth2_plus. reflexivity. }
  induction m as [|m IH].
  - rewrite Nat.add_0_r. cbn [back_to_lead]. destruct (length a) as [|k] eqn:E; [lia|].
    cbn [back_to_lead]. specialize (Hrd 0%nat). rewrite Nat.add_0_r in Hrd. rewrite Hrd.
    unfold is_cont in H0. rewrite H0. lia.
  - rewrite Nat.add_succ_r. cbn [back_to_lead]. rewrite <- Nat.add_succ_r, Hrd.
    case_if; [exact IH|reflexivity].
Qed.

Lemma utf8_of_head cps : Forall is_cp cps -> cps <> [] -> is_cont (rd (utf8_of cps) 0) = false.
Proof.
  intros H Hne. destruct H as [|cp cps Hcp _]; [congruence|].
  destruct (enc_shape cp Hcp) as (c & a & E & Hc & _). unfold utf8_of. cbn [map concat].
  rewrite E. exact Hc.
Qed.

(** Where the loop of [utf8_export_into] stops. *)
Lemma back_to_lead_spec cps : Forall is_cp cps -> forall n, (n < length (utf8_of cps))%nat ->
  exists cps1 cp cps2, cps = cps1 ++ cp :: cps2 /\
    back_to_lead (utf8_of cps) n = length (utf8_of cps1) /\
    (length (utf8_of cps1) <= n < length (utf8_of cps1) + length (utf8_enc cp))%nat.
Proof.
  induction 1 as [|cp t Hcp Ht IH]; intros n Hn; [cbn in Hn; lia|].
  change (utf8_of (cp :: t)) with (utf8_enc cp ++ utf8_of t) in *. rewrite length_app in Hn.
  destruct (Nat.lt_ge_cases n (length (utf8_enc cp))) as [Hlt|Hge].
  - exists [], cp, t. cbn [utf8_of map concat length]. splits; auto; [|lia].
    destruct (enc_shape cp Hcp) as (c & a & E & _ & Ha). rewrite E in *. cbn [length app] in *.
    apply back_to_lead_in; auto. lia.
  - destruct (IH (n - length (utf8_enc cp))%nat) as (cps1 & cp' & cps2 & -> & Hb & Hr); [lia|].
    exists (cp :: cps1), cp', cps2. change (utf8_of (cp :: cps1)) with (utf8_enc cp ++ utf8_of cps1).
    rewrite length_app. splits; auto; try lia. rewrite <- Hb.
    replace n with (length (utf8_enc cp) + (n - length (utf8_enc cp)))%nat at 1 by lia.
    pose proof (utf8_enc_length cp). apply back_to_lead_app; [lia|].
    apply utf8_of_head; [exact Ht|]. destruct cps1; discriminate.
Qed.

Lemma utf16_strlen_take s n : (n <= length s)%nat -> utf16_strlen s n = utf16_strlen (take n s) n.
Proof.
  intros Hn. unfold utf16_strlen.
  enough (H : forall fuel p u, utf16_strlen_loop fuel s n p u =
                               utf16_strlen_loop fuel (take n s) n p u) by apply H.
  induction fuel as [|fuel IH]; intros p u; [reflexivity|]. cbn [utf16_strlen_loop].
  destruct (Nat.ltb_spec p n) as [Hp|]; [|reflexivity].
  assert (E : utf16_scan_decode s p n false = utf16_scan_decode (take n s) p n false).
  { unfold utf16_scan_decode. cbn [andb negb].
    replace (rd (take n s) p) with (rd s p); [reflexivity|].
    rewrite <- (take_drop n s) at 1. apply rd_app_l. rewrite length_take. lia. }
  rewrite E. apply IH.
Qed.

(** The result of [utf8_export_into] on a valid string: the longest prefix of
    whole characters that fits. *)
Definition whole_prefix (s : list Z) (dst_len : Z) (out : list Z) : Prop :=
  exists cps1 cps2, Forall (fun cp => is_scalar cp = true) (cps1 ++ cps2) /\
    s = utf8_of (cps1 ++ cps2) /\ out = utf8_of cps1 /\ Z.of_nat (length out) <= dst_len /\
    match cps2 with
    | [] => True
    | cp :: _ => dst_len < Z.of_nat (length out) + Z.of_nat (length (utf8_enc cp))
    end.

Lemma truncate_ok s dst_len : valid_utf8 s -> 0 <= dst_len ->
  let len := if Z.of_nat (length s) <? dst_len then length s else Z.to_nat dst_len in
  let len := if (len <? length s)%nat then back_to_lead s len else len in
  whole_prefix s dst_len (take len s) /\ (len <= length s)%nat.
Proof.
  intros (cps & Hs & ->) Hd. cbv zeta.
  set (len := if Z.of_nat (length (utf8_of cps)) <? dst_len then _ else _).
  assert (Hlen : Z.of_nat len = Z.min (Z.of_nat (length (utf8_of cps))) dst_len)
    by (unfold len; case_if; boolprop; lia).
  destruct (Nat.ltb_spec len (length (utf8_of cps))) as [Hlt|Hge].
  - destruct (back_to_lead_spec cps (scalars_are_cps cps Hs) len Hlt)
      as (cps1 & cp & cps2 & -> & -> & Hr).
    rewrite utf8_of_app, take_app_length, length_app in *. split; [|lia].
    exists cps1, (cp :: cps2). rewrite utf8_of_app. splits; auto; lia.
  - rewrite take_ge by lia. split; [|lia]. exists cps, []. rewrite app_nil_r. splits; auto. lia.
Qed.

Lemma whole_prefix_valid s d out : whole_prefix s d out -> valid_utf8 out /\ out `prefix_of` s.
Proof.
  intros (cps1 & cps2 & Hs & -> & -> & _). split.
  - exists cps1. split; [|reflexivity]. apply Forall_app in Hs. tauto.
  - rewrite utf8_of_app. apply prefix_app_r. reflexivity.
Qed.

Section export_into_proofs.
Context {U : Utf8proc} {HU : Utf8procSpec U} (SIZE_MAX : Z).

Lemma export_into_ok f dst_len :
  export_ok SIZE_MAX f -> bytes (fl_bytes f) -> Z.of_nat (length (fl_bytes f)) <= SIZE_MAX ->
  0 <= dst_len <= SIZE_MAX ->
  let '((out, units), f') := utf8_export_into f dst_len in
  Z.of_nat (length out) <= dst_len /\ valid_utf8 out /\
  out `prefix_of` full_export SIZE_MAX (fl_bytes f) /\
  (valid_utf8 (fl_bytes f) ->
   whole_prefix (fl_bytes f) dst_len out /\ units = length (wtf16 out)) /\
  fl_bytes f' = fl_bytes f /\ export_ok SIZE_MAX f'.
Proof using HU.
  intros Hok Hb Hs Hd. unfold utf8_export_into.
  destruct (Nat.eqb_spec (length (fl_bytes f)) 0) as [E|E].
  { destruct (fl_bytes f) eqn:Ef; [|discriminate]. cbn [length].
    splits; auto; try exact valid_utf8_nil; try apply prefix_nil; try (cbn; lia).
    intros _. split; [|reflexivity]. exists [], []. splits; auto. cbn. lia. }
  pose proof (str_is_valid_export SIZE_MAX f Hok) as Hv. destruct (str_is_valid_utf8 f) as [r f'].
  destruct Hv as (-> & Hb' & Hok'). rewrite Hb'. destruct (_ || _) eqn:V; cbn [negb].
  - assert (Hval : valid_utf8 (fl_bytes f)).
    { apply orb_true_iff in V as [V|V]; [apply all_ascii_valid|apply validate_spec]; auto. }
    destruct (truncate_ok (fl_bytes f) dst_len Hval ltac:(lia)) as [Hw Hle].
    cbv zeta in *. set (len := if (_ <? length _)%nat then _ else _) in *.
    destruct (whole_prefix_valid _ _ _ Hw) as [Hwv Hp].
    rewrite full_export_valid by auto. splits; auto.
    + destruct Hw as (? & ? & ? & ? & ? & ? & ?). auto.
    + intros _. split; [exact Hw|]. rewrite utf16_strlen_take by lia.
      rewrite <- (utf16_strlen_wtf16 (take len (fl_bytes f))) by (apply valid_utf8_scan_wf; auto).
      rewrite length_take_le by lia. reflexivity.
  - pose proof (export_loop_safe (S (length (fl_bytes f))) (fl_bytes f) dst_len 0 [] 0 Hb
      ltac:(lia) ltac:(cbn; lia) valid_utf8_nil) as Hsafe.
    pose proof (export_loop_mono (S (length (fl_bytes f))) (fl_bytes f) (length (fl_bytes f))
      dst_len SIZE_MAX ltac:(lia) 0 [] 0) as Hm.
    unfold full_export, utf8_export_wtf8.
    destruct (export_loop _ _ _ dst_len _ _ _) as [out u]. destruct Hsafe. splits; auto.
    intros Hval. apply validate_spec in Hval; auto. apply orb_false_iff in V as [_ V]. congruence.
Qed.
End export_into_proofs.

(** [utf8_export_length] is the number of bytes the export writes, from
    whatever state the string's metadata is in; the cached validity states it
    trusts and the "same length" state it records stay right. *)
Theorem export_length_correct {U : Utf8proc} {HU : Utf8procSpec U} SIZE_MAX f :
  export_ok SIZE_MAX f -> bytes (fl_bytes f) ->
  Z.of_nat (length (fl_bytes f)) <= SIZE_MAX ->
  let '(n, f') := utf8_export_length SIZE_MAX f in
  n = Z.of_nat (length (full_export SIZE_MAX (fl_bytes f))) /\
  fl_bytes f' = fl_bytes f /\ export_ok SIZE_MAX f'.
Proof. apply export_length_ok. Qed.

(** [utf8_export_into] never overruns the destination and always writes
    valid UTF-8 that is a prefix of the full export; on a valid string it
    writes the longest prefix of whole characters that fits and reports its
    UTF-16 length. *)
Theorem export_into_correct {U : Utf8proc} {HU : Utf8procSpec U} SIZE_MAX f dst_len :
  export_ok SIZE_MAX f -> bytes (fl_bytes f) ->
  Z.of_nat (length (fl_bytes f)) <= SIZE_MAX -> 0 <= dst_len <= SIZE_MAX ->
  let '((out, units), f') := utf8_export_into f dst_len in
  Z.of_nat (length out) <= dst_len /\ valid_utf8 out /\
  out `prefix_of` full_export SIZE_MAX (fl_bytes f) /\
  (valid_utf8 (fl_bytes f) ->
   whole_prefix (fl_bytes f) dst_len out /\ units = length (wtf16 out)) /\
  fl_bytes f' = fl_bytes f /\ export_ok SIZE_MAX f'.
Proof. apply export_into_ok. Qed.

Definition euro_flat (s : list Z) : flat :=
  str_flat_init_meta (Flat s 0) (str_detect_ascii_bytes s).

Lemma euro_flat_ok s : export_ok (2 ^ 64 - 1) (euro_flat s).
Proof.
  split; [apply (init_meta_ok (Flat s 0))|]. unfold euro_flat.
  rewrite init_meta_valid by (pose proof (detect_ascii_range s); lia). discriminate.
Qed.

Lemma export_length_correct_witness :
  (utf8_export_length (2 ^ 64 - 1) (euro_flat [0xED; 0xA0; 0x80])).1 =
  Z.of_nat (length (full_export (2 ^ 64 - 1) [0xED; 0xA0; 0x80])).
Proof.
  pose proof (export_length_correct (2 ^ 64 - 1) (euro_flat [0xED; 0xA0; 0x80])
    (euro_flat_ok _) ltac:(repeat constructor; vm_compute; discriminate)
    ltac:(vm_compute; discriminate)) as H.
  destruct (utf8_export_length _ _). apply H.
Defined.

Lemma export_into_correct_witness :
  (utf8_export_into (euro_flat [0xE2; 0x82; 0xAC; 0x41]) 2).1 = ([], 0%nat) /\
  (utf8_export_into (euro_flat [0x41; 0xE2; 0x82; 0xAC]) 3).1 = ([0x41], 1%nat) /\
  Z.of_nat (length (utf8_export_into (euro_flat [0x41; 0xE2; 0x82; 0xAC]) 3).1.1) <= 3.
Proof.
  split; [vm_compute; reflexivity|]. split; [vm_compute; reflexivity|].
  pose proof (export_into_correct (2 ^ 64 - 1) (euro_flat [0x41; 0xE2; 0x82; 0xAC]) 3
    (euro_flat_ok _) ltac:(repeat constructor; vm_compute; discriminate)
    ltac:(vm_compute; discriminate) ltac:(lia)) as H.
  destruct (utf8_export_into _ _) as [[]]. apply H.
Defined.
