(* ===== verification/JsonQuote.v ===== *)
(** * JSON quoting

    [utf8_json_quote] of [src/src/utf8.c], the string half of
    [JSON.stringify]: WTF-8 bytes to a quoted JSON string in a growing buffer,
    with the buffer helpers [utf8_json_quote_reserve] and
    [utf8_json_quote_append], [hex_char] of [src/src/utils.c] and the lenient
    decoder [wtf8_decode_at].  The reference is a reader of JSON strings
    (RFC 8259): reading back what the quoter wrote yields the UTF-16 code units
    of the source string, lone surrogates included. *)

From S2P Require Import Prelude Utf8Scan FlatString Utf8Codec.

(** ** The code *)

(** [hex_char] of utils.c: an index into a table. *)
Definition hex_digits : list Z := [48;49;50;51;52;53;54;55;56;57;97;98;99;100;101;102].
Definition hex_char (v : Z) : Z := rd hex_digits (Z.to_nat (v .& 0x0f)).

(** The body of the loop of [wtf8_decode_at] for byte [i + k]. *)
Definition wtf8_decode_more (s : list Z) (i : nat) (acc : option (nat * Z)) (k : nat)
  : option (nat * Z) :=
  match acc with
  | None => None
  | Some (n, cp) =>
      if negb (rd s (i + k) .& 0xC0 =? 0x80) then None
      else Some (n, u32 (cp .<< 6) .| (rd s (i + k) .& 0x3F))
  end.

(** [wtf8_decode_at]: bytes read and code point; [None] is a return of 0. *)
Definition wtf8_decode_at (s : list Z) (byte_len i : nat) : option (nat * Z) :=
  let c := rd s i in
  if c <? 0x80 then Some (1%nat, c)
  else
    let n := if c <? 0xC0 then 0%nat else if c <? 0xE0 then 2%nat
             else if c <? 0xF0 then 3%nat else 4%nat in
    if (n =? 0)%nat || (byte_len <? i + n)%nat then None
    else
      fold_left (wtf8_decode_more s i) (seq 1 (n - 1)) (Some (n, c .& (0x7F .>> Z.of_nat n))).

Definition wtf8_is_high_surrogate (cp : Z) : bool := (0xD800 <=? cp) && (cp <=? 0xDBFF).
Definition wtf8_is_low_surrogate (cp : Z) : bool := (0xDC00 <=? cp) && (cp <=? 0xDFFF).

(** [json_ascii_escape_action]: 0, ['u'] or the letter of a short escape. *)
Definition json_ascii_escape_action (c : Z) : Z :=
  if c =? 0x22 then 0x22 else if c =? 0x5C then 0x5C
  else if c =? 0x08 then 0x62 else if c =? 0x0C then 0x66 else if c =? 0x0A then 0x6E
  else if c =? 0x0D then 0x72 else if c =? 0x09 then 0x74
  else if c <? 0x20 then 0x75 else 0.

(** The buffer: contents ([raw_len] is their length) and capacity. *)
Record json_buf := JsonBuf { raw : list Z; raw_cap : Z }.

Section quote.
(** Whether [malloc]/[realloc] grant a request of this many bytes. *)
Context (realloc_ok : Z -> bool).
Context {U : Utf8proc}.

(** [while (next < need) next *= 2]. *)
Fixpoint reserve_grow (fuel : nat) (next need : Z) : Z :=
  match fuel with
  | O => next
  | S fuel => if next <? need then reserve_grow fuel (u64 (next * 2)) need else next
  end.

(** [utf8_json_quote_reserve]: the new capacity. *)
Definition utf8_json_quote_reserve (cap need : Z) : option Z :=
  if need <=? cap then Some cap
  else
    let next := reserve_grow 64 (if cap =? 0 then 64 else u64 (cap * 2)) need in
    if realloc_ok next then Some next else None.

Definition utf8_json_quote_append (b : json_buf) (src : list Z) : option json_buf :=
  match utf8_json_quote_reserve (raw_cap b)
          (u64 (Z.of_nat (length (raw b)) + Z.of_nat (length src) + 1)) with
  | None => None
  | Some cap => Some (JsonBuf (raw b ++ src) cap)
  end.

Definition utf8_json_quote_append_char (b : json_buf) (ch : Z) : option json_buf :=
  utf8_json_quote_append b [ch].

Definition u_escape (code_unit : Z) : list Z :=
  [0x5C; 0x75; hex_char (code_unit .>> 12); hex_char (code_unit .>> 8);
   hex_char (code_unit .>> 4); hex_char code_unit].

Definition utf8_json_quote_append_u_escape (b : json_buf) (code_unit : Z) : option json_buf :=
  utf8_json_quote_append b (u_escape code_unit).

(** One round of the loop at [i]: what is appended and how far [i] moves;
    [None] is the jump to [oom] on a failed encoding. *)
Definition json_quote_step (s : list Z) (byte_len i : nat) : option (list Z * nat) :=
  let c := rd s i in
  if c <? 0x80 then
    let action := json_ascii_escape_action c in
    if action =? 0 then Some ([c], 1%nat)
    else if action =? 0x75 then Some (u_escape c, 1%nat)
    else Some ([0x5C; action], 1%nat)
  else match wtf8_decode_at s byte_len i with
  | None => Some ([c], 1%nat)
  | Some (n, cp) =>
      match (if wtf8_is_high_surrogate cp && (i + n <? byte_len)%nat then
               match wtf8_decode_at s byte_len (i + n) with
               | Some (n2, cp2) => if wtf8_is_low_surrogate cp2 then Some (n2, cp2) else None
               | None => None
               end
             else None) with
      | Some (n2, cp2) =>
          let full := u32 (0x10000 + (u32 (cp - 0xD800) .<< 10) + u32 (cp2 - 0xDC00)) in
          let enc := utf8_encode full in
          if (length enc =? 0)%nat then None else Some (enc, (n + n2)%nat)
      | None =>
          if wtf8_is_high_surrogate cp || wtf8_is_low_surrogate cp then Some (u_escape cp, n)
          else Some (take n (drop i s), n)
      end
  end.

Fixpoint json_quote_loop (fuel : nat) (s : list Z) (byte_len i : nat) (b : json_buf)
  : option json_buf :=
  match fuel with
  | O => Some b
  | S fuel =>
      if (i <? byte_len)%nat then
        match json_quote_step s byte_len i with
        | None => None
        | Some (src, n) =>
            match utf8_json_quote_append b src with
            | None => None
            | Some b => json_quote_loop fuel s byte_len (i + n) b
            end
        end
      else Some b
  end.

(** [utf8_json_quote]: the buffer, or NULL. *)
Definition utf8_json_quote (s : list Z) (byte_len : nat) : option json_buf :=
  let raw_cap := Z.of_nat byte_len + 12 in
  if negb (realloc_ok raw_cap) then None
  else match utf8_json_quote_append_char (JsonBuf [] raw_cap) 0x22 with
  | None => None
  | Some b =>
      match json_quote_loop (S byte_len) s byte_len 0 b with
      | None => None
      | Some b => utf8_json_quote_append_char b 0x22
      end
  end.
End quote.

(** ** The reference reader of JSON strings *)

Definition hex_value (c : Z) : option Z :=
  if (0x30 <=? c) && (c <=? 0x39) then Some (c - 0x30)
  else if (0x61 <=? c) && (c <=? 0x66) then Some (c - 0x57)
  else if (0x41 <=? c) && (c <=? 0x46) then Some (c - 0x37)
  else None.

Definition short_escape (c : Z) : option Z :=
  if c =? 0x22 then Some 0x22 else if c =? 0x5C then Some 0x5C else if c =? 0x2F then Some 0x2F
  else if c =? 0x62 then Some 0x08 else if c =? 0x66 then Some 0x0C
  else if c =? 0x6E then Some 0x0A else if c =? 0x72 then Some 0x0D
  else if c =? 0x74 then Some 0x09 else None.

(** One character of the string body: its code units and how many bytes. *)
Definition json_char (l : list Z) : option (list Z * nat) :=
  match l with
  | [] => None
  | c :: t =>
      if c =? 0x5C then
        match t with
        | 0x75 :: h3 :: h2 :: h1 :: h0 :: _ =>
            match hex_value h3, hex_value h2, hex_value h1, hex_value h0 with
            | Some d3, Some d2, Some d1, Some d0 =>
                Some ([((d3 * 16 + d2) * 16 + d1) * 16 + d0], 6%nat)
            | _, _, _, _ => None
            end
        | e :: _ => match short_escape e with Some u => Some ([u], 2%nat) | None => None end
        | [] => None
        end
      else if (c =? 0x22) || (c <? 0x20) then None
      else match valid_head l with
      | Some n => Some (cp_units (head_cp l), n)
      | None => None
      end
  end.

(** The body up to the closing quote, which must be last. *)
Fixpoint json_body (fuel : nat) (l : list Z) : option (list Z) :=
  match fuel with
  | O => None
  | S fuel =>
      if decide (l = [0x22]) then Some []
      else match json_char l with
      | None => None
      | Some (us, n) => option_map (app us) (json_body fuel (drop n l))
      end
  end.

(** The code units a JSON string text denotes. *)
Definition json_read (l : list Z) : option (list Z) :=
  match l with
  | 0x22 :: t => json_body (S (length t)) t
  | _ => None
  end.

(** ** Decoding *)

Lemma decode_at_shift s i k : (i <= length s)%nat ->
  wtf8_decode_at s (length s) (i + k) = wtf8_decode_at (drop i s) (length (drop i s)) k.
Proof.
  intros Hi. unfold wtf8_decode_at. rewrite rd_drop, length_drop.
  destruct (rd s (i + k) <? 0x80); [reflexivity|].
  set (n := if rd s (i + k) <? 0xC0 then _ else _).
  assert (E : (length s <? i + k + n)%nat = (length s - i <? k + n)%nat).
  { destruct (Nat.ltb_spec (length s) (i + k + n)), (Nat.ltb_spec (length s - i) (k + n)); lia. }
  rewrite E. case_if; [reflexivity|]. generalize (Some (n, rd s (i + k) .& (0x7F .>> Z.of_nat n))).
  induction (seq 1 (n - 1)) as [|j js IH]; intros acc; [reflexivity|]. cbn [fold_left].
  replace (wtf8_decode_more (drop i s) k acc j) with (wtf8_decode_more s (i + k) acc j);
    [apply IH|]. unfold wtf8_decode_more. rewrite rd_drop, Nat.add_assoc. reflexivity.
Qed.

Lemma cont_byte r : 0 <= r < 64 -> (0x80 + r) .& 0xC0 = 0x80.
Proof.
  intros Hr. assert (Hb : is_byte (0x80 + r)) by (unfold is_byte; lia).
  pose proof (is_cont_range _ Hb) as H. unfold is_cont in H. apply Z.eqb_eq. rewrite H. lia.
Qed.

Lemma decode_push cp r : 0 <= cp < 2 ^ 26 -> 0 <= r < 64 -> u32 (cp .<< 6) .| r = cp * 64 + r.
Proof.
  intros Hc Hr. rewrite wrap_small by (rewrite Z.shiftl_mul_pow2; lia).
  apply (lor_shiftl_add cp r 6); lia.
Qed.

Lemma decode_at_enc cp t : is_cp cp ->
  wtf8_decode_at (utf8_enc cp ++ t) (length (utf8_enc cp ++ t)) 0 =
  Some (length (utf8_enc cp), cp).
Proof.
  intros Hcp. unfold is_cp in Hcp. unfold wtf8_decode_at, utf8_enc.
  destruct (Z.ltb_spec cp 0x80) as [H1|H1].
  { cbn [app length rd nth]. destruct (Z.ltb_spec cp 0x80); [reflexivity|lia]. }
  destruct (Z.ltb_spec cp 0x800) as [H2|H2].
  { assert (0 <= cp / 64 < 32 /\ cp = cp / 64 * 64 + cp mod 64 /\ 0 <= cp mod 64 < 64)
      as (Hq & Hcp' & Hr) by (Z.to_euclidean_division_equations; lia).
    cbn [app rd nth length]. lead_cases. cbn [Nat.eqb Nat.sub seq fold_left orb].
    unfold wtf8_decode_more. cbn [Nat.add].
    destruct (Nat.ltb_spec (S (S (length t))) 2); [lia|]. cbn [orb rd nth].
    rewrite cont_byte, cont_bits by lia. change (0x80 =? 0x80) with true. cbn [negb].
    change (0x7F .>> Z.of_nat 2) with (2 ^ 5 - 1).
    replace (0xC0 + cp / 64) with (6 * 2 ^ 5 + cp / 64) by lia.
    rewrite land_low, decode_push by lia. rewrite <- Hcp'. reflexivity. }
  destruct (Z.ltb_spec cp 0x10000) as [H3|H3].
  { assert (cp = (cp / 4096 * 64 + (cp / 64) mod 64) * 64 + cp mod 64 /\ 0 <= cp mod 64 < 64 /\
            0 <= (cp / 64) mod 64 < 64 /\ 0 <= cp / 4096 < 16)
      as (Hcp' & Hr & Hm & Hq) by (Z.to_euclidean_division_equations; lia).
    cbn [app rd nth length]. lead_cases. cbn [Nat.eqb Nat.sub seq fold_left orb].
    unfold wtf8_decode_more. cbn [Nat.add].
    destruct (Nat.ltb_spec (S (S (S (length t)))) 3); [lia|]. cbn [orb rd nth].
    rewrite !cont_byte, !cont_bits by lia. change (0x80 =? 0x80) with true. cbn [negb].
    change (0x7F .>> Z.of_nat 3) with (2 ^ 4 - 1).
    replace (0xE0 + cp / 4096) with (14 * 2 ^ 4 + cp / 4096) by lia.
    rewrite land_low by lia. rewrite (decode_push (cp / 4096)) by lia.
    rewrite decode_push by lia. rewrite <- Hcp'. reflexivity. }
  assert (cp = ((cp / 262144 * 64 + (cp / 4096) mod 64) * 64 + (cp / 64) mod 64) * 64
               + cp mod 64 /\ 0 <= cp mod 64 < 64 /\
          0 <= (cp / 64) mod 64 < 64 /\ 0 <= (cp / 4096) mod 64 < 64 /\ 0 <= cp / 262144 < 8)
    as (Hcp' & Hr & Hm & Hm2 & Hq) by (Z.to_euclidean_division_equations; lia).
  cbn [app rd nth length]. lead_cases. cbn [Nat.eqb Nat.sub seq fold_left orb].
    unfold wtf8_decode_more. cbn [Nat.add].
  destruct (Nat.ltb_spec (S (S (S (S (length t))))) 4); [lia|]. cbn [orb rd nth].
  rewrite !cont_byte, !cont_bits by lia. change (0x80 =? 0x80) with true. cbn [negb].
  change (0x7F .>> Z.of_nat 4) with (2 ^ 3 - 1).
  replace (0xF0 + cp / 262144) with (30 * 2 ^ 3 + cp / 262144) by lia.
  rewrite land_low by lia. rewrite (decode_push (cp / 262144)) by lia.
  rewrite (decode_push (cp / 262144 * 64 + _)) by lia. rewrite decode_push by lia. rewrite <- Hcp'. reflexivity.
Qed.

(** ** The buffer *)

Lemma reserve_grow_ok fuel : forall next need,
  1 <= next < 2 ^ 64 -> need <= 2 ^ 63 -> need <= next * 2 ^ Z.of_nat fuel ->
  need <= reserve_grow fuel next need < 2 ^ 64.
Proof.
  induction fuel as [|fuel IH]; intros next need Hn H63 Hd; cbn [reserve_grow].
  { change (2 ^ Z.of_nat 0) with 1 in Hd. lia. }
  rewrite Nat2Z.inj_succ, Z.pow_succ_r in Hd by lia.
  destruct (Z.ltb_spec next need); [|lia]. rewrite wrap_small by lia. apply IH; lia.
Qed.

(** The doubling loop ends with enough room, so every copy is in bounds. *)
Lemma reserve_ok realloc_ok cap need cap' :
  0 <= cap < 2 ^ 63 -> need <= 2 ^ 63 ->
  utf8_json_quote_reserve realloc_ok cap need = Some cap' -> need <= cap' < 2 ^ 64.
Proof.
  intros Hc Hn. unfold utf8_json_quote_reserve.
  destruct (Z.leb_spec need cap); [intros [= <-]; lia|].
  set (r := reserve_grow _ _ _). destruct (realloc_ok r); [|discriminate].
  intros [= <-]. unfold r. apply reserve_grow_ok; auto.
  - destruct (Z.eqb_spec cap 0); [lia|]. rewrite wrap_small; lia.
  - change (2 ^ Z.of_nat 64) with (2 ^ 64).
    destruct (Z.eqb_spec cap 0); [lia|]. rewrite wrap_small; lia.
Qed.

(** Capacities never pass twice the largest request. *)
Lemma reserve_grow_le fuel : forall next need,
  0 <= next -> next <= 2 * need -> need <= 2 ^ 62 -> reserve_grow fuel next need <= 2 * need.
Proof.
  induction fuel as [|fuel IH]; intros next need Hn H2 H62; cbn [reserve_grow]; [lia|].
  destruct (Z.ltb_spec next need); [|lia]. rewrite wrap_small by lia. apply IH; lia.
Qed.

Lemma reserve_le realloc_ok cap need cap' M :
  0 <= cap <= M -> 2 * need <= M -> 64 <= M -> M <= 2 ^ 62 ->
  utf8_json_quote_reserve realloc_ok cap need = Some cap' -> cap' <= M.
Proof.
  intros Hc Hn Hm Hm2. unfold utf8_json_quote_reserve.
  destruct (Z.leb_spec need cap); [intros [= <-]; lia|].
  set (r := reserve_grow _ _ _). destruct (realloc_ok r); [|discriminate].
  intros [= <-]. unfold r. destruct (Z.eqb_spec cap 0).
  - destruct (Z.leb_spec 64 (2 * need)).
    + pose proof (reserve_grow_le 64 64 need). lia.
    + cbn [reserve_grow]. destruct (Z.ltb_spec 64 need); [lia|]. lia.
  - rewrite wrap_small by lia. pose proof (reserve_grow_le 64 (cap * 2) need). lia.
Qed.

(** Contents and terminator fit, and capacities stay below [M]. *)
Definition buf_ok (M : Z) (b : json_buf) : Prop :=
  Z.of_nat (length (raw b)) + 1 <= raw_cap b <= M.

Section append.
Context (realloc_ok : Z -> bool) (M : Z) (HM : 64 <= M <= 2 ^ 62).

Lemma append_ok b src b' :
  0 <= raw_cap b <= M -> 2 * (Z.of_nat (length (raw b) + length src) + 1) <= M ->
  utf8_json_quote_append realloc_ok b src = Some b' ->
  raw b' = raw b ++ src /\ buf_ok M b'.
Proof using HM.
  intros Hc Hn. unfold utf8_json_quote_append. rewrite wrap_small by lia.
  destruct (utf8_json_quote_reserve _ _ _) as [cap|] eqn:E; [|discriminate]. intros [= <-].
  split; [reflexivity|]. unfold buf_ok. cbn [raw raw_cap]. rewrite length_app.
  pose proof (fun A B => reserve_ok _ _ _ _ A B E) as H1.
  pose proof (fun A B C D => reserve_le _ _ _ _ M A B C D E) as H2. lia.
Qed.

Lemma append_some b src : (forall n, realloc_ok n = true) ->
  exists b', utf8_json_quote_append realloc_ok b src = Some b'.
Proof.
  intros Hr. unfold utf8_json_quote_append, utf8_json_quote_reserve. case_if; [eauto|].
  rewrite Hr. eauto.
Qed.
End append.

(** ** One round on an encoded string *)

Definition json_escape (c : Z) : list Z :=
  let action := json_ascii_escape_action c in
  if action =? 0 then [c] else if action =? 0x75 then u_escape c else [0x5C; action].

(** What is appended, the bytes consumed, the units denoted, and the rest. *)
Definition quote_item (cps : list Z) : list Z * nat * list Z * list Z :=
  match cps with
  | [] => ([], 0%nat, [], [])
  | cp :: t =>
      if cp <? 0x80 then (json_escape cp, 1%nat, [cp], t)
      else if is_high cp then
        match t with
        | cp2 :: t2 => if is_low cp2 then (utf8_enc (combine_pair cp cp2), 6%nat, [cp; cp2], t2)
                       else (u_escape cp, 3%nat, [cp], t)
        | [] => (u_escape cp, 3%nat, [cp], t)
        end
      else if is_low cp then (u_escape cp, 3%nat, [cp], t)
      else (utf8_enc cp, length (utf8_enc cp), cp_units cp, t)
  end.

Lemma quote_item_drop cps : Forall is_cp cps -> cps <> [] ->
  let '(src, c, us, t) := quote_item cps in
  Forall is_cp t /\ drop c (utf8_of cps) = utf8_of t /\ (c <= length (utf8_of cps))%nat /\
  concat (map cp_units cps) = us ++ concat (map cp_units t) /\ (length t < length cps)%nat.
Proof.
  intros H Hne. pose proof (usv_step_drop cps H Hne) as Hs.
  pose proof (usv_step_usv cps Hne) as Hu.
  destruct H as [|cp t Hcp Ht]; [congruence|]. unfold usv_step, quote_item in *.
  assert (Hsur : forall x, 0xD800 <= x <= 0xDFFF -> cp_units x = [x]).
  { intros x Hx. unfold cp_units. destruct (Z.ltb_spec x 0x10000); [reflexivity|lia]. }
  destruct (Z.ltb_spec cp 0x80).
  { unfold is_high, is_low, cp_units in Hs. destruct (enc1 cp) as [_ He]; [unfold is_cp in Hcp; lia|].
    rewrite He in Hs. destruct (Z.leb_spec 0xD800 cp), (Z.leb_spec 0xDC00 cp); try lia.
    cbn [andb length] in Hs. destruct Hs as (? & ? & ? & _). splits; auto.
    unfold cp_units. cbn [map concat]. destruct (Z.ltb_spec cp 0x10000); [reflexivity|lia]. }
  unfold is_high, is_low in *.
  destruct ((0xD800 <=? cp) && (cp <=? 0xDBFF)) eqn:Eh.
  - boolprop. destruct t as [|cp2 t2].
    + destruct Hs as (? & ? & ? & _), Hu. splits; auto. cbn [map concat]. rewrite (Hsur cp) by lia.
      reflexivity.
    + destruct ((0xDC00 <=? cp2) && (cp2 <=? 0xDFFF)) eqn:El; destruct Hs as (? & ? & ? & _), Hu;
        splits; auto; cbn [map concat]; boolprop; rewrite ?(Hsur cp), ?(Hsur cp2) by lia; reflexivity.
  - destruct ((0xDC00 <=? cp) && (cp <=? 0xDFFF)) eqn:El; destruct Hs as (? & ? & ? & _), Hu;
      splits; auto; cbn [map concat]; boolprop; rewrite ?(Hsur cp) by lia; reflexivity.
Qed.

Lemma quote_step_shift {U : Utf8proc} s i : (i <= length s)%nat ->
  json_quote_step s (length s) i = json_quote_step (drop i s) (length (drop i s)) 0.
Proof.
  intros Hi. unfold json_quote_step.
  pose proof (decode_at_shift s i 0 Hi) as E0. rewrite Nat.add_0_r in E0.
  rewrite E0, rd_drop, Nat.add_0_r, drop_drop, Nat.add_0_r.
  destruct (rd s i <? 0x80); [reflexivity|].
  destruct (wtf8_decode_at (drop i s) _ 0) as [[n cp]|]; [|reflexivity].
  rewrite (decode_at_shift s i n Hi). cbn [Nat.add].
  replace (n <? length (drop i s))%nat with (i + n <? length s)%nat; [reflexivity|].
  rewrite length_drop. destruct (Nat.ltb_spec (i + n) (length s)), (Nat.ltb_spec n (length s - i)); lia.
Qed.

Lemma decode_at_cps cps : Forall is_cp cps ->
  wtf8_decode_at (utf8_of cps) (length (utf8_of cps)) 0 =
  match cps with cp :: _ => Some (length (utf8_enc cp), cp) | [] => Some (1%nat, 0) end.
Proof.
  intros H. destruct H as [|cp cps Hcp _]; [reflexivity|].
  apply (decode_at_enc cp (utf8_of cps) Hcp).
Qed.

(** The first byte tells whether a code point is ASCII. *)
Lemma enc_first cp t : is_cp cp ->
  (rd (utf8_enc cp ++ t) 0 <? 0x80) = (cp <? 0x80) /\ (cp < 0x80 -> rd (utf8_enc cp ++ t) 0 = cp).
Proof.
  unfold is_cp, utf8_enc. intros H.
  case_ifs; cbn [app rd nth]; (split; [|try lia]); lead_cases;
    try (Z.to_euclidean_division_equations; lia).
Qed.

Lemma quote_step_cps {U : Utf8proc} {HU : Utf8procSpec U} cps : Forall is_cp cps -> cps <> [] ->
  json_quote_step (utf8_of cps) (length (utf8_of cps)) 0 =
  let '(src, c, _, _) := quote_item cps in Some (src, c).
Proof.
  intros H Hne. unfold json_quote_step. rewrite (decode_at_cps cps H).
  destruct H as [|cp t Hcp Ht]; [congruence|].
  change (utf8_of (cp :: t)) with (utf8_enc cp ++ utf8_of t).
  destruct (enc_first cp (utf8_of t) Hcp) as [-> E1]. unfold quote_item.
  destruct (Z.ltb_spec cp 0x80) as [Hlt|Hge].
  { rewrite E1 by exact Hlt. unfold json_escape. case_ifs; reflexivity. }
  unfold wtf8_is_high_surrogate, wtf8_is_low_surrogate. fold (is_high cp) (is_low cp).
  rewrite drop_0, take_app_length, length_app. cbn [Nat.add].
  assert (Hlast : forall r, (if is_high cp || is_low cp then Some (u_escape cp, length (utf8_enc cp))
     else Some (utf8_enc cp, length (utf8_enc cp))) = r -> is_high cp || is_low cp = true ->
     r = Some (u_escape cp, 3%nat)).
  { intros r <- Hs. rewrite Hs, surrogate_enc_length; [reflexivity|].
    unfold is_high, is_low in Hs. lia. }
  destruct (is_high cp) eqn:Eh; cbn [andb].
  - destruct (Nat.ltb_spec (length (utf8_enc cp)) (length (utf8_enc cp) + length (utf8_of t))) as [Hl|Hl].
    + pose proof (decode_at_shift (utf8_enc cp ++ utf8_of t) (length (utf8_enc cp)) 0
        ltac:(rewrite length_app; lia)) as Hnext.
      rewrite drop_app_length, decode_at_cps, length_app, Nat.add_0_r in Hnext by exact Ht.
      rewrite Hnext.
      destruct Ht as [|cp2 t2 Hcp2 Ht2]; [cbn in Hl; lia|]. fold (is_low cp2).
      destruct (is_low cp2) eqn:El; [|apply (Hlast _ eq_refl); reflexivity].
      unfold is_high, is_low in *. boolprop.
      destruct (pair_cp cp cp2) as [-> Hr]; [lia|lia|].
      unfold utf8_encode. rewrite encode_char_spec by lia.
      pose proof (utf8_enc_length (combine_pair cp cp2)).
      destruct (Nat.eqb_spec (length (utf8_enc (combine_pair cp cp2))) 0); [lia|].
      rewrite !surrogate_enc_length by lia. reflexivity.
    + assert (t = []) as ->.
      { destruct t as [|x t]; [reflexivity|]. unfold utf8_of in Hl. cbn [map concat] in Hl.
        rewrite length_app in Hl. pose proof (utf8_enc_length x). lia. }
      apply (Hlast _ eq_refl). reflexivity.
  - cbn [orb] in *. destruct (is_low cp) eqn:El; [apply (Hlast _ eq_refl); reflexivity|reflexivity].
Qed.

(** ** Reading back *)

Lemma hex_value_char v : hex_value (hex_char v) = Some (v mod 16).
Proof.
  unfold hex_char. replace (v .& 0x0f) with (v mod 16) by (symmetry; apply (land_ones_mod v 4); lia).
  pose proof (Z.mod_pos_bound v 16 ltac:(lia)) as H. set (d := v mod 16) in *. clearbody d.
  assert (d = 0 \/ d = 1 \/ d = 2 \/ d = 3 \/ d = 4 \/ d = 5 \/ d = 6 \/ d = 7 \/ d = 8 \/ d = 9 \/
          d = 10 \/ d = 11 \/ d = 12 \/ d = 13 \/ d = 14 \/ d = 15) as Hd by lia.
  repeat destruct Hd as [->|Hd]; try (rewrite Hd); reflexivity.
Qed.

Lemma json_char_escape u rest : 0 <= u < 2 ^ 16 -> json_char (u_escape u ++ rest) = Some ([u], 6%nat).
Proof.
  intros Hu. unfold u_escape, json_char. cbn [app].
  change (0x5C =? 0x5C) with true. cbn match. rewrite !hex_value_char.
  rewrite !Z.shiftr_div_pow2 by lia. repeat f_equal.
  change (2 ^ 12) with 4096. change (2 ^ 8) with 256. change (2 ^ 4) with 16.
  Z.to_euclidean_division_equations; lia.
Qed.

Lemma json_char_ascii c rest : 0 <= c < 0x80 ->
  json_char (json_escape c ++ rest) = Some ([c], length (json_escape c)).
Proof.
  intros Hc.
  assert (Hin : In c (map Z.of_nat (seq 0 128))).
  { apply in_map_iff. exists (Z.to_nat c). split; [lia|]. apply in_seq. lia. }
  cbn in Hin. repeat destruct Hin as [<-|Hin]; [vm_compute; reflexivity..|contradiction].
Qed.

Lemma json_char_scalar cp rest : is_scalar cp = true -> 0x80 <= cp ->
  json_char (utf8_enc cp ++ rest) = Some (cp_units cp, length (utf8_enc cp)).
Proof.
  intros Hs Hge. destruct (valid_head_complete cp rest Hs) as [E1 E2].
  destruct (enc_first cp rest) as [Hf _]; [apply scalar_range in Hs; apply Hs|].
  unfold json_char. destruct (utf8_enc cp ++ rest) as [|c t] eqn:E; [discriminate|].
  change (rd (c :: t) 0) with c in Hf.
  destruct (Z.ltb_spec cp 0x80); [lia|]. apply Z.ltb_ge in Hf.
  destruct (Z.eqb_spec c 0x5C); [lia|]. destruct (Z.eqb_spec c 0x22); [lia|].
  destruct (Z.ltb_spec c 0x20); [lia|]. cbn [orb]. rewrite E1, E2. reflexivity.
Qed.

Lemma pair_units hi lo : 0xD800 <= hi <= 0xDBFF -> 0xDC00 <= lo <= 0xDFFF ->
  cp_units (combine_pair hi lo) = [hi; lo].
Proof.
  intros Hh Hl. unfold cp_units, combine_pair, high_surrogate, low_surrogate.
  destruct (Z.ltb_spec (0x10000 + (hi - 0xD800) * 1024 + (lo - 0xDC00)) 0x10000); [lia|].
  rewrite !wrap_small by lia. rewrite Z.shiftr_div_pow2 by lia.
  change 0x3FF with (2 ^ 10 - 1). rewrite land_ones_mod by lia.
  change (2 ^ 10) with 1024. repeat f_equal; Z.to_euclidean_division_equations; lia.
Qed.

Lemma json_char_item cps rest : Forall is_cp cps -> cps <> [] ->
  let '(src, _, us, _) := quote_item cps in json_char (src ++ rest) = Some (us, length src).
Proof.
  intros H Hne. destruct H as [|cp t Hcp Ht]; [congruence|]. unfold quote_item.
  unfold is_cp in Hcp. destruct (Z.ltb_spec cp 0x80) as [Hlt|Hge]; [apply json_char_ascii; lia|].
  unfold is_high, is_low.
  destruct ((0xD800 <=? cp) && (cp <=? 0xDBFF)) eqn:Eh; boolprop.
  - destruct t as [|cp2 t2]; [apply json_char_escape; lia|].
    destruct ((0xDC00 <=? cp2) && (cp2 <=? 0xDFFF)) eqn:El; boolprop; [|apply json_char_escape; lia].
    rewrite <- (pair_units cp cp2) by lia.
    destruct (pair_cp cp cp2) as [_ Hr]; [lia|lia|].
    apply json_char_scalar; [unfold is_scalar; lia|lia].
  - destruct ((0xDC00 <=? cp) && (cp <=? 0xDFFF)) eqn:El; boolprop; [apply json_char_escape; lia|].
    apply json_char_scalar; [unfold is_scalar; lia|lia].
Qed.

(** The item's text, whatever the string, is short. *)
Lemma quote_item_length cps : Forall is_cp cps -> cps <> [] ->
  let '(src, c, _, _) := quote_item cps in (1 <= length src <= 6)%nat /\ (1 <= c)%nat.
Proof.
  intros H Hne. destruct cps as [|cp t]; [congruence|]. unfold quote_item.
  pose proof (utf8_enc_length cp). unfold json_escape.
  case_ifs; cbn [length u_escape]; try lia.
  destruct t as [|cp2 t2]; cbn [length u_escape]; [lia|].
  pose proof (utf8_enc_length (combine_pair cp cp2)).
  case_ifs; cbn [length u_escape]; lia.
Qed.

Lemma json_body_step fuel src rest us :
  json_char (src ++ rest) = Some (us, length src) ->
  json_body (S fuel) (src ++ rest) = option_map (app us) (json_body fuel rest).
Proof.
  intros H. cbn [json_body]. destruct (decide (src ++ rest = [0x22])) as [E|_].
  { rewrite E in H. discriminate. }
  rewrite H, drop_app_length. reflexivity.
Qed.

(** ** The loop *)

Lemma decode_fold_len s i js : forall acc n cp,
  fold_left (wtf8_decode_more s i) js acc = Some (n, cp) ->
  exists cp0, acc = Some (n, cp0).
Proof.
  induction js as [|j js IH]; intros acc n cp H; cbn [fold_left] in H; [eauto|].
  apply IH in H as [cp0 H]. destruct acc as [[m c]|]; [|discriminate].
  cbn [wtf8_decode_more] in H. destruct (negb _); [discriminate|]. injection H as <- _. eauto.
Qed.

Lemma decode_at_bounds s len i n cp : (i < len)%nat ->
  wtf8_decode_at s len i = Some (n, cp) -> (i + n <= len)%nat /\ (1 <= n <= 4)%nat.
Proof.
  intros Hi. unfold wtf8_decode_at. case_if; [intros [= <- _]; lia|].
  match goal with |- context [(?m =? 0)%nat] => set (k := m) end.
  assert (Hk : (k <= 4)%nat) by (unfold k; case_ifs; lia).
  destruct ((k =? 0)%nat || (len <? i + k)%nat) eqn:E; [discriminate|].
  intros H. apply decode_fold_len in H as [cp0 H]. injection H as <- _. boolprop. lia.
Qed.

Lemma quote_step_bounds {U : Utf8proc} {HU : Utf8procSpec U} s i src n :
  (i < length s)%nat -> json_quote_step s (length s) i = Some (src, n) ->
  (i + n <= length s)%nat /\ (1 <= n)%nat /\ (length src <= 6)%nat.
Proof.
  intros Hi. unfold json_quote_step.
  destruct (rd s i <? 0x80).
  { case_ifs; intros [= <- <-]; cbn [length u_escape]; lia. }
  destruct (wtf8_decode_at s (length s) i) as [[k cp]|] eqn:E1;
    [|intros [= <- <-]; cbn; lia].
  apply decode_at_bounds in E1 as [B1 B2]; [|exact Hi].
  match goal with |- context [match ?x with Some _ => _ | None => _ end] => destruct x as [[k2 cp2]|] eqn:E2 end.
  - destruct (wtf8_is_high_surrogate cp) eqn:Hh; [|discriminate]. cbn [andb] in E2.
    destruct (Nat.ltb_spec (i + k) (length s)) as [Hl|]; [|discriminate].
    destruct (wtf8_decode_at s (length s) (i + k)) as [[m c]|] eqn:E3; [|discriminate].
    apply decode_at_bounds in E3 as [B3 B4]; [|exact Hl].
    destruct (wtf8_is_low_surrogate c) eqn:Hlo; [|discriminate]. injection E2 as -> ->.
    unfold wtf8_is_high_surrogate, wtf8_is_low_surrogate in *. boolprop.
    destruct (pair_cp cp cp2) as [-> Hr]; [lia|lia|]. unfold utf8_encode.
    rewrite encode_char_spec by lia. pose proof (utf8_enc_length (combine_pair cp cp2)).
    case_if; [discriminate|]. intros [= <- <-]. lia.
  - case_if; intros [= <- <-]; cbn [length u_escape]; [lia|]. rewrite length_take. lia.
Qed.

Lemma quote_loop_shift {U : Utf8proc} {HU : Utf8procSpec U} realloc_ok fuel : forall s i b,
  (i <= length s)%nat ->
  json_quote_loop realloc_ok fuel s (length s) i b =
  json_quote_loop realloc_ok fuel (drop i s) (length (drop i s)) 0 b.
Proof.
  induction fuel as [|fuel IH]; intros s i b Hi; [reflexivity|]. cbn [json_quote_loop].
  rewrite (quote_step_shift s i Hi), length_drop.
  replace (0 <? length s - i)%nat with (i <? length s)%nat
    by (destruct (Nat.ltb_spec i (length s)), (Nat.ltb_spec 0 (length s - i)); lia).
  destruct (Nat.ltb_spec i (length s)) as [Hlt|]; [|reflexivity].
  rewrite <- length_drop.
  destruct (json_quote_step (drop i s) _ 0) as [[src n]|] eqn:E; [|reflexivity].
  apply quote_step_bounds in E as (B & _); [|rewrite length_drop; lia].
  rewrite length_drop in B.
  destruct (utf8_json_quote_append realloc_ok b src) as [b'|]; [|reflexivity].
  rewrite IH by lia. rewrite (IH (drop i s)) by (rewrite length_drop; lia).
  rewrite drop_drop. reflexivity.
Qed.

Lemma quote_item_valid cps : Forall is_cp cps -> cps <> [] ->
  let '(src, _, _, _) := quote_item cps in valid_utf8 src.
Proof.
  intros H Hne.
  assert (Ha : forall u, valid_utf8 (u_escape u)).
  { intros u. apply all_ascii_valid; unfold u_escape.
    - assert (Hx : forall v, is_byte (hex_char v)).
      { intros v. apply rd_byte. repeat constructor; vm_compute; discriminate. }
      repeat constructor; try (vm_compute; discriminate); apply Hx.
    - assert (Hx : forall v, (hex_char v <? 0x80) = true).
      { intros v. pose proof (hex_value_char v) as Hv. unfold hex_value in Hv.
        revert Hv. case_ifs; intros Hv; try discriminate; lia. }
      unfold all_ascii. cbn [forallb]. rewrite !Hx. reflexivity. }
  assert (He : forall cp, is_scalar cp = true -> valid_utf8 (utf8_enc cp)).
  { intros cp Hs. rewrite <- (app_nil_r (utf8_enc cp)).
    apply valid_utf8_cons; auto using valid_utf8_nil. }
  destruct H as [|cp t Hcp Ht]; [congruence|]. unfold quote_item. unfold is_cp in Hcp.
  destruct (Z.ltb_spec cp 0x80) as [Hlt|Hge].
  { unfold json_escape, json_ascii_escape_action.
    case_ifs; auto; apply all_ascii_valid; try (repeat constructor; lia);
    unfold all_ascii; cbn [forallb]; lia. }
  destruct (is_high cp) eqn:Eh.
  - destruct t as [|cp2 t2]; auto. destruct (is_low cp2) eqn:El; auto.
    unfold is_high, is_low in *. boolprop.
    destruct (pair_cp cp cp2) as [_ Hr]; [lia|lia|]. apply He. unfold is_scalar. lia.
  - destruct (is_low cp) eqn:El; auto. apply He. unfold is_scalar, is_high, is_low in *. lia.
Qed.

Section quote_proofs.
Context {U : Utf8proc} {HU : Utf8procSpec U} (realloc_ok : Z -> bool).

(** No run of the loop, on any bytes and with any allocator, leaves the buffer. *)
Lemma quote_loop_bounds M fuel : forall s i b b', 64 <= M <= 2 ^ 62 -> (i <= length s)%nat ->
  buf_ok M b -> 2 * (Z.of_nat (length (raw b)) + 6 * Z.of_nat (length s - i) + 1) <= M ->
  json_quote_loop realloc_ok fuel s (length s) i b = Some b' ->
  buf_ok M b' /\ (length (raw b') <= length (raw b) + 6 * (length s - i))%nat.
Proof using HU.
  induction fuel as [|fuel IH]; intros s i b b' HM Hi Hb Hn; cbn [json_quote_loop];
    [intros [= <-]; split; [exact Hb|lia]|].
  destruct (Nat.ltb_spec i (length s)) as [Hlt|]; [|intros [= <-]; split; [exact Hb|lia]].
  destruct (json_quote_step s (length s) i) as [[src n]|] eqn:E; [|discriminate].
  apply quote_step_bounds in E as (B1 & B2 & B3); [|exact Hlt].
  destruct (utf8_json_quote_append realloc_ok b src) as [b1|] eqn:A; [|discriminate].
  apply (append_ok realloc_ok M HM) in A as [A1 A2]; [|unfold buf_ok in Hb; lia|lia].
  intros H. assert (Hl : length (raw b1) = (length (raw b) + length src)%nat)
    by (rewrite A1, length_app; reflexivity).
  apply IH in H as [H1 H2]; auto; try lia. split; [exact H1|lia].
Qed.

(** On an encoded string with a willing allocator: the loop appends a text
    that reads back as the string's code units. *)
Lemma quote_loop_cps (Hr : forall n, realloc_ok n = true) M k : 64 <= M <= 2 ^ 62 ->
  forall cps fuel b,
  (length cps < k)%nat -> Forall is_cp cps -> (length (utf8_of cps) < fuel)%nat -> buf_ok M b ->
  2 * (Z.of_nat (length (raw b)) + 6 * Z.of_nat (length (utf8_of cps)) + 1) <= M ->
  exists body b',
    json_quote_loop realloc_ok fuel (utf8_of cps) (length (utf8_of cps)) 0 b = Some b' /\
    raw b' = raw b ++ body /\ valid_utf8 body /\
    forall fuel', (length body < fuel')%nat ->
      json_body fuel' (body ++ [0x22]) = Some (concat (map cp_units cps)).
Proof using HU.
  intros HM. induction k as [|k IH]; intros cps fuel b Hk Hc Hf Hb Hn; [lia|].
  destruct fuel as [|fuel]; [lia|]. destruct (decide (cps = [])) as [->|Hne].
  { exists [], b. rewrite app_nil_r. splits; auto using valid_utf8_nil.
    intros [|f] Hf'; [lia|]. reflexivity. }
  pose proof (quote_item_drop cps Hc Hne) as Hd. pose proof (quote_item_length cps Hc Hne) as Hl.
  pose proof (fun rest => json_char_item cps rest Hc Hne) as Hj.
  pose proof (quote_item_valid cps Hc Hne) as Hv.
  cbn [json_quote_loop]. rewrite (quote_step_cps cps Hc Hne).
  destruct (quote_item cps) as [[[src c] us] t].
  destruct Hd as (Ht & Hdr & Hle & Hu & Hlt), Hl as (Hl1 & Hl2).
  destruct (Nat.ltb_spec 0 (length (utf8_of cps))); [|lia].
  destruct (append_some realloc_ok b src Hr) as [b1 A]. rewrite A.
  apply (append_ok realloc_ok M HM) in A as [A1 A2]; [|unfold buf_ok in Hb; lia|lia].
  rewrite quote_loop_shift by lia. cbn [Nat.add]. rewrite Hdr.
  assert (Hlen : (length (utf8_of t) = length (utf8_of cps) - c)%nat).
  { rewrite <- Hdr, length_drop. reflexivity. }
  assert (Hlen1 : length (raw b1) = (length (raw b) + length src)%nat)
    by (rewrite A1, length_app; reflexivity).
  destruct (IH t fuel b1) as (body & b' & E1 & E2 & E3 & E4); auto; try lia.
  exists (src ++ body), b'. splits; auto using valid_utf8_app.
  - rewrite E2, A1, <- app_assoc. reflexivity.
  - intros [|f] Hf'; [lia|]. rewrite length_app in Hf'.
    rewrite <- app_assoc, (json_body_step f src _ us) by apply Hj.
    rewrite E4 by lia. cbn [option_map]. rewrite Hu. reflexivity.
Qed.
End quote_proofs.

(** The text [utf8_json_quote] returns for a string that short. *)
Definition json_size_bound (s : list Z) : Prop := Z.of_nat (length s) < 2 ^ 57.

(** C34: [utf8_json_quote] is faithful: with memory available it returns, for
    every WTF-8 string, a valid UTF-8 text that a JSON reader reads back as
    exactly the string's UTF-16 code units, lone surrogates included. *)
Theorem json_quote_roundtrip {U : Utf8proc} {HU : Utf8procSpec U} realloc_ok cps :
  Forall is_cp cps -> json_size_bound (utf8_of cps) -> (forall n, realloc_ok n = true) ->
  exists b, utf8_json_quote realloc_ok (utf8_of cps) (length (utf8_of cps)) = Some b /\
    valid_utf8 (raw b) /\ json_read (raw b) = Some (wtf16 (utf8_of cps)).
Proof.
  intros Hc Hs Hr. unfold utf8_json_quote, utf8_json_quote_append_char, json_size_bound in *.
  rewrite Hr. cbn [negb]. set (n := length (utf8_of cps)) in *.
  assert (HM : 64 <= 2 ^ 61 <= 2 ^ 62) by lia.
  destruct (append_some realloc_ok (JsonBuf [] (Z.of_nat n + 12)) [0x22] Hr) as [b0 A0].
  rewrite A0. apply (append_ok realloc_ok (2 ^ 61) HM) in A0 as [R0 B0]; [|cbn; lia|cbn; lia].
  destruct (quote_loop_cps realloc_ok Hr (2 ^ 61) (S (length cps)) HM cps (S n) b0)
    as (body & b1 & E1 & E2 & E3 & E4); auto; [fold n; rewrite R0; cbn; lia|].
  fold n in E1. rewrite E1.
  destruct (append_some realloc_ok b1 [0x22] Hr) as [b2 A2]. rewrite A2. exists b2.
  assert (R2 : raw b2 = raw b1 ++ [0x22]).
  { unfold utf8_json_quote_append in A2. destruct (utf8_json_quote_reserve _ _ _); [|discriminate].
    injection A2 as <-. reflexivity. }
  assert (Hq : valid_utf8 [0x22]) by (exists [0x22]; split; [repeat constructor|reflexivity]).
  rewrite R2, E2, R0. cbn [raw app]. splits; auto.
  - change (0x22 :: body ++ [0x22]) with ([0x22] ++ body ++ [0x22]).
    auto using valid_utf8_app.
  - unfold json_read. rewrite E4 by (rewrite length_app; cbn; lia).
    rewrite wtf16_utf8_of by exact Hc. reflexivity.
Qed.

Lemma json_quote_roundtrip_witness :
  exists b, utf8_json_quote (fun _ => true) [0x41; 0x0A; 0xED; 0xA0; 0x80] 5 = Some b /\
    valid_utf8 (raw b) /\ json_read (raw b) = Some [0x41; 0x0A; 0xD800].
Proof.
  apply (json_quote_roundtrip (fun _ => true) [0x41; 0x0A; 0xD800]).
  - repeat constructor; vm_compute; discriminate.
  - vm_compute. reflexivity.
  - reflexivity.
Defined.

(** [utf8_json_quote] never writes outside its buffer: for any bytes and
    any allocator, every returned buffer has room for its contents and the
    terminating NUL, and is at most six bytes per input byte plus the quotes. *)
Theorem json_quote_in_bounds {U : Utf8proc} {HU : Utf8procSpec U} realloc_ok s b :
  json_size_bound s -> utf8_json_quote realloc_ok s (length s) = Some b ->
  Z.of_nat (length (raw b)) + 1 <= raw_cap b /\ (length (raw b) <= 6 * length s + 2)%nat.
Proof.
  unfold json_size_bound, utf8_json_quote, utf8_json_quote_append_char. intros Hs.
  assert (HM : 64 <= 2 ^ 61 <= 2 ^ 62) by lia.
  destruct (negb _); [discriminate|].
  destruct (utf8_json_quote_append _ _ _) as [b0|] eqn:A0; [|discriminate].
  apply (append_ok realloc_ok (2 ^ 61) HM) in A0 as [R0 B0]; [|cbn; lia|cbn; lia].
  destruct (json_quote_loop _ _ _ _ _ _) as [b1|] eqn:L; [|discriminate].
  apply (quote_loop_bounds realloc_ok (2 ^ 61)) in L as [B1 L1]; auto; [|lia|rewrite R0; cbn; lia].
  rewrite R0 in L1. cbn [raw app length] in L1. intros A2.
  apply (append_ok realloc_ok (2 ^ 61) HM) in A2 as [R2 B2];
    [|unfold buf_ok in B1; lia|cbn; lia].
  unfold buf_ok in B2. rewrite R2, length_app in *. cbn [length] in *. lia.
Qed.

Lemma json_quote_in_bounds_witness :
  exists b, utf8_json_quote (fun _ => true) [0xFF; 0x22] 2 = Some b /\
    Z.of_nat (length (raw b)) + 1 <= raw_cap b.
Proof.
  exists (JsonBuf [0x22; 0xFF; 0x5C; 0x22; 0x22] 14). split; [vm_compute; reflexivity|].
  apply (json_quote_in_bounds (fun _ => true) [0xFF; 0x22]); vm_compute; reflexivity.
Defined.
