(* ===== verification/WhatwgDecode.v ===== *)
(** * The WHATWG UTF-8 decoder

    [utf8_whatwg_decode] of [src/src/utf8.c]: a decoder written with computed
    gotos, which [TextDecoder] and [string_decoder] run on one chunk at a time.
    Its state [utf8_dec_t] carries the byte-order-mark flags and the bytes of a
    sequence that the end of a chunk cut off.  One iteration of the model is
    one jump through the dispatch table; the loop [cont] is [whatwg_cont]. *)

From S2P Require Import Prelude Utf8Scan FlatString Utf8Codec.

(** ** The code *)

Record utf8_dec_t := Utf8Dec {
  ignore_bom : bool; bom_seen : bool; pend_buf : list Z; pend_pos : nat }.

Definition set_bom_seen (d : utf8_dec_t) (b : bool) : utf8_dec_t :=
  Utf8Dec (ignore_bom d) b (pend_buf d) (pend_pos d).

(** [pend_pos = pp; memcpy(pend_buf, pb, pp)]. *)
Definition set_pending (d : utf8_dec_t) (pb : list Z) : utf8_dec_t :=
  Utf8Dec (ignore_bom d) (bom_seen d) (pb ++ drop (length pb) (pend_buf d)) (length pb).

(** The dispatch table [tbl] with the setup at each label. *)
Inductive label :=
| L_ASCII | L_BAD | L_cont (bc : nat) (lo hi cp : Z).

Definition whatwg_tbl (b : Z) : label :=
  if b <=? 0x7F then L_ASCII
  else if b <=? 0xC1 then L_BAD
  else if b <=? 0xDF then L_cont 1 0x80 0xBF (b .& 0x1F)
  else if b =? 0xE0 then L_cont 2 0xA0 0xBF (b .& 0x0F)
  else if b <=? 0xEC then L_cont 2 0x80 0xBF (b .& 0x0F)
  else if b =? 0xED then L_cont 2 0x80 0x9F (b .& 0x0F)
  else if b <=? 0xEF then L_cont 2 0x80 0xBF (b .& 0x0F)
  else if b =? 0xF0 then L_cont 3 0x90 0xBF (b .& 0x07)
  else if b <=? 0xF3 then L_cont 3 0x80 0xBF (b .& 0x07)
  else if b =? 0xF4 then L_cont 3 0x80 0x8F (b .& 0x07)
  else L_BAD.

(** How the loop at [cont] ends: the sequence is complete, the input ends
    with [pb] read, or the byte at [i] does not continue it. *)
Inductive cont_end :=
| C_done (cp : Z) (i : nat) | C_trunc (pb : list Z) | C_bad (i : nat).

Fixpoint whatwg_cont (bc : nat) (lo hi cp : Z) (src : list Z) (len i : nat) (pb : list Z)
  : cont_end :=
  match bc with
  | O => C_done cp i
  | S bc =>
      if (len <=? i)%nat then C_trunc pb
      else
        let b := rd src i in
        if (b <? lo) || (hi <? b) then C_bad i
        else whatwg_cont bc 0x80 0xBF ((cp .<< 6) .| (b .& 0x3F)) src len (S i) (pb ++ [b])
  end.

Section decode.
Context {U : Utf8proc} (fatal stream : bool).

(** From the dispatch on [src[i]] to the return; [None] is -1. *)
Fixpoint whatwg_loop (fuel : nat) (dec : utf8_dec_t) (src : list Z) (len i : nat) (out : list Z)
  : option (list Z) * utf8_dec_t :=
  match fuel with
  | O => (Some out, dec)
  | S fuel =>
      if (i <? len)%nat then
        match whatwg_tbl (rd src i) with
        | L_ASCII => whatwg_loop fuel (set_bom_seen dec true) src len (S i) (out ++ [rd src i])
        | L_BAD =>
            if fatal then (None, dec)
            else whatwg_loop fuel (set_bom_seen dec true) src len (S i) (out ++ FFFD)
        | L_cont bc lo hi cp =>
            match whatwg_cont bc lo hi cp src len (S i) [rd src i] with
            | C_trunc pb =>
                if stream then (Some out, set_pending dec pb)
                else if fatal then (None, dec)
                else (Some (out ++ FFFD), dec)
            | C_bad j =>
                if fatal then (None, dec)
                else whatwg_loop fuel (set_bom_seen dec true) src len j (out ++ FFFD)
            | C_done cp j =>
                if negb (bom_seen dec) && (cp =? 0xFEFF) && negb (ignore_bom dec)
                then whatwg_loop fuel (set_bom_seen dec true) src len j out
                else whatwg_loop fuel (set_bom_seen dec true) src len j
                       (out ++ utf8proc_encode_char cp)
            end
        end
      else (Some out, dec)
  end.

Definition utf8_whatwg_decode (dec : utf8_dec_t) (src : list Z) (len : nat)
  : option (list Z) * utf8_dec_t :=
  whatwg_loop (S len) dec src len 0 [].
End decode.

(** ** One jump, as a function of the remaining input *)

Inductive jump :=
| J_ascii (b : Z) | J_char (cp : Z) (n : nat) | J_bad (n : nat) | J_trunc.

Definition jump_at (l : list Z) : jump :=
  match l with
  | [] => J_trunc
  | c :: _ =>
      match whatwg_tbl c with
      | L_ASCII => J_ascii c
      | L_BAD => J_bad 1
      | L_cont bc lo hi cp =>
          match whatwg_cont bc lo hi cp l (length l) 1 [c] with
          | C_trunc _ => J_trunc
          | C_bad j => J_bad j
          | C_done cp j => J_char cp j
          end
      end
  end.

Definition jump_len (j : jump) : nat :=
  match j with J_ascii _ => 1%nat | J_char _ n | J_bad n => n | J_trunc => 0%nat end.

(** What a jump function promises to the decoder built on it: a jump that does
    not run out of input consumes some of it, and does not depend on what
    comes after. *)
Class JumpSpec (jf : list Z -> jump) := {
  jump_bounds l : l <> [] -> jf l <> J_trunc -> (1 <= jump_len (jf l) <= length l)%nat;
  jump_stable a b : a <> [] -> jf a <> J_trunc -> jf (a ++ b) = jf a
}.

(** Positions are relative: reading at [p + i] of [s] is reading at [i] of
    [drop p s]. *)
Definition move_end (p : nat) (e : cont_end) : cont_end :=
  match e with
  | C_done cp i => C_done cp (p + i) | C_trunc pb => C_trunc pb | C_bad i => C_bad (p + i)
  end.

Lemma cont_shift bc : forall lo hi cp s p i pb,
  whatwg_cont bc lo hi cp s (length s) (p + i) pb =
  move_end p (whatwg_cont bc lo hi cp (drop p s) (length (drop p s)) i pb).
Proof.
  induction bc as [|bc IH]; intros; [reflexivity|]. cbn [whatwg_cont].
  rewrite rd_drop, length_drop.
  destruct (Nat.leb_spec (length s) (p + i)), (Nat.leb_spec (length s - p) i); try lia; auto.
  case_if; [reflexivity|]. rewrite <- Nat.add_succ_r, IH, length_drop. reflexivity.
Qed.

(** What the loop of [cont] has read when it ends. *)
Lemma cont_bounds bc : forall lo hi cp l i pb, (i <= length l)%nat ->
  match whatwg_cont bc lo hi cp l (length l) i pb with
  | C_done _ j => j = (i + bc)%nat /\ (j <= length l)%nat
  | C_bad j => (i <= j < i + bc)%nat /\ (j < length l)%nat
  | C_trunc pb' => pb' = pb ++ drop i l /\ (length l < i + bc)%nat
  end.
Proof.
  induction bc as [|bc IH]; intros lo hi cp l i pb Hi; cbn [whatwg_cont]; [lia|].
  destruct (Nat.leb_spec (length l) i) as [Hl|Hl].
  { rewrite drop_ge, app_nil_r by lia. split; [reflexivity|lia]. }
  case_if; [lia|].
  specialize (IH 0x80 0xBF ((cp .<< 6) .| (rd l i .& 0x3F)) l (S i) (pb ++ [rd l i]) ltac:(lia)).
  destruct (whatwg_cont _ _ _ _ _ _ _ _); [lia| |lia].
  destruct IH as [-> ?]. split; [|lia].
  rewrite (drop_cons_rd l i), <- app_assoc by lia. reflexivity.
Qed.

(** More input after a jump that did not run out changes nothing. *)
Lemma cont_app bc : forall lo hi cp a b i pb,
  match whatwg_cont bc lo hi cp a (length a) i pb with
  | C_trunc _ => True
  | r => whatwg_cont bc lo hi cp (a ++ b) (length (a ++ b)) i pb = r
  end.
Proof.
  induction bc as [|bc IH]; intros; cbn [whatwg_cont]; [reflexivity|].
  destruct (Nat.leb_spec (length a) i) as [Hl|Hl]; [exact I|].
  destruct (Nat.leb_spec (length (a ++ b)) i) as [Hl'|Hl']; [rewrite length_app in Hl'; lia|].
  rewrite rd_app_l by lia. case_if; [reflexivity|]. apply IH.
Qed.

Lemma jump_app a b : a <> [] -> jump_at a <> J_trunc -> jump_at (a ++ b) = jump_at a.
Proof.
  intros Ha. destruct a as [|c t]; [congruence|]. unfold jump_at. cbn [app].
  destruct (whatwg_tbl c) as [| |bc lo hi cp]; auto.
  pose proof (cont_app bc lo hi cp (c :: t) b 1 [c]) as H. cbn [app] in H.
  destruct (whatwg_cont bc lo hi cp (c :: t) (length (c :: t)) 1 [c]); rewrite ?H; congruence.
Qed.

Lemma tbl_cont_bc c bc lo hi cp : whatwg_tbl c = L_cont bc lo hi cp -> (1 <= bc <= 3)%nat.
Proof. unfold whatwg_tbl. case_ifs; intros [= <- _ _ _] || intros [=]; lia. Qed.

Lemma jump_len_bounds l : l <> [] -> jump_at l <> J_trunc ->
  (1 <= jump_len (jump_at l) <= length l)%nat.
Proof.
  intros Hl. destruct l as [|c t]; [congruence|]. unfold jump_at.
  destruct (whatwg_tbl c) as [| |bc lo hi cp] eqn:E; cbn [jump_len length]; try lia.
  pose proof (cont_bounds bc lo hi cp (c :: t) 1 [c] ltac:(cbn; lia)) as H.
  apply tbl_cont_bc in E.
  destruct (whatwg_cont _ _ _ _ _ _ _ _); cbn [jump_len length] in *; try congruence; lia.
Qed.

(** ** The decoder as a run over the remaining input *)

#[export] Instance utf8_jump_spec : JumpSpec jump_at.
Proof. split; [apply jump_len_bounds|apply jump_app]. Qed.

Section run.
Context {U : Utf8proc} (jf : list Z -> jump) (eof : list Z -> list Z).
Context (fatal stream ignore : bool).

(** Result, whether a first character has been seen, and the bytes held back. *)
Fixpoint run (fuel : nat) (bom : bool) (l out : list Z) : option (list Z) * bool * list Z :=
  match fuel with
  | O => (Some out, bom, [])
  | S fuel =>
      if decide (l = []) then (Some out, bom, [])
      else match jf l with
      | J_ascii b => run fuel true (drop 1 l) (out ++ [b])
      | J_bad n => if fatal then (None, bom, []) else run fuel true (drop n l) (out ++ FFFD)
      | J_char cp n =>
          run fuel true (drop n l)
            (if negb bom && (cp =? 0xFEFF) && negb ignore then out
             else out ++ utf8proc_encode_char cp)
      | J_trunc =>
          if stream then (Some out, bom, l)
          else if fatal then (None, bom, []) else (Some (out ++ eof l), bom, [])
      end
  end.
End run.

(** The end of input inside a UTF-8 sequence is one error. *)
Definition utf8_eof (l : list Z) : list Z := FFFD.

(** The visible part of a decoder state after a run. *)
Definition dec_shows (d : utf8_dec_t) (ignore bom : bool) (pend : list Z) : Prop :=
  ignore_bom d = ignore /\ bom_seen d = bom /\ pend_pos d = length pend /\
  take (pend_pos d) (pend_buf d) = pend /\ length (pend_buf d) = 3%nat.

Lemma jump_trunc_length l : jump_at l = J_trunc -> (length l <= 3)%nat.
Proof.
  unfold jump_at. destruct l as [|c t]; [cbn; lia|].
  destruct (whatwg_tbl c) as [| |bc lo hi cp] eqn:E; try discriminate.
  pose proof (cont_bounds bc lo hi cp (c :: t) 1 [c] ltac:(cbn; lia)) as H. apply tbl_cont_bc in E.
  destruct (whatwg_cont _ _ _ _ _ _ _ _); try discriminate. lia.
Qed.

Lemma set_pending_shows d l : length (pend_buf d) = 3%nat -> (length l <= 3)%nat ->
  dec_shows (set_pending d l) (ignore_bom d) (bom_seen d) l.
Proof.
  intros Hb Hl. unfold dec_shows, set_pending. cbn. splits; auto.
  - apply take_app_length.
  - rewrite length_app, length_drop. lia.
Qed.

Lemma idle_shows d : pend_pos d = 0%nat -> length (pend_buf d) = 3%nat ->
  dec_shows d (ignore_bom d) (bom_seen d) [].
Proof. intros Hp Hb. unfold dec_shows. rewrite Hp. splits; auto. Qed.

(** Where a jump of the code lands, in terms of [jump_at]. *)
Lemma jump_of_cont s i bc lo hi cp : (i < length s)%nat ->
  whatwg_tbl (rd s i) = L_cont bc lo hi cp ->
  match whatwg_cont bc lo hi cp s (length s) (S i) [rd s i] with
  | C_done c j => exists n, jump_at (drop i s) = J_char c n /\ j = (i + n)%nat
  | C_bad j => exists n, jump_at (drop i s) = J_bad n /\ j = (i + n)%nat
  | C_trunc pb => jump_at (drop i s) = J_trunc /\ pb = drop i s
  end.
Proof.
  intros Hi E. rewrite <- Nat.add_1_r, cont_shift. unfold jump_at.
  rewrite (drop_cons_rd s i) by exact Hi. rewrite E.
  pose proof (cont_bounds bc lo hi cp (rd s i :: drop (S i) s) 1 [rd s i] ltac:(cbn; lia)) as H.
  destruct (whatwg_cont bc lo hi cp _ _ 1 _); cbn [move_end]; eauto.
  split; [reflexivity|]. destruct H as [-> _]. reflexivity.
Qed.

Section run_loop.
Context {U : Utf8proc} (fatal stream : bool).

Lemma loop_run fuel : forall dec s i out,
  (i <= length s)%nat -> pend_pos dec = 0%nat -> length (pend_buf dec) = 3%nat ->
  let '(r, d) := whatwg_loop fatal stream fuel dec s (length s) i out in
  let '(r', bom, pend) := run jump_at utf8_eof fatal stream (ignore_bom dec) fuel (bom_seen dec) (drop i s) out in
  r = r' /\ dec_shows d (ignore_bom dec) bom pend.
Proof.
  induction fuel as [|fuel IH]; intros dec s i out Hi Hp Hb.
  { split; [reflexivity|]. apply idle_shows; auto. }
  pose proof (idle_shows dec Hp Hb) as Hsame.
  cbn [whatwg_loop run]. destruct (Nat.ltb_spec i (length s)) as [Hlt|Hge].
  2: { rewrite drop_ge by lia. destruct (decide _); [auto|congruence]. }
  destruct (decide (drop i s = [])) as [E|_].
  { rewrite (drop_cons_rd s i) in E by exact Hlt. discriminate. }
  assert (Hnext : forall n o, (i + n <= length s)%nat ->
    let '(r, d) := whatwg_loop fatal stream fuel (set_bom_seen dec true) s (length s) (i + n) o in
    let '(r', bom, pend) := run jump_at utf8_eof fatal stream (ignore_bom dec) fuel true (drop n (drop i s)) o in
    r = r' /\ dec_shows d (ignore_bom dec) bom pend).
  { intros n o Hn. rewrite drop_drop. apply (IH (set_bom_seen dec true) s (i + n)%nat o); auto. }
  assert (Hne : drop i s <> []) by (rewrite (drop_cons_rd s i) by exact Hlt; discriminate).
  pose proof (jump_len_bounds (drop i s) Hne) as Hjl. rewrite length_drop in Hjl.
  destruct (whatwg_tbl (rd s i)) as [| |bc lo hi cp] eqn:E.
  - assert (J : jump_at (drop i s) = J_ascii (rd s i)).
    { unfold jump_at. rewrite (drop_cons_rd s i), E by exact Hlt. reflexivity. }
    rewrite J. rewrite <- Nat.add_1_r. apply Hnext. lia.
  - assert (J : jump_at (drop i s) = J_bad 1).
    { unfold jump_at. rewrite (drop_cons_rd s i), E by exact Hlt. reflexivity. }
    rewrite J. destruct fatal; [auto|]. rewrite <- Nat.add_1_r. apply Hnext. lia.
  - pose proof (jump_of_cont s i bc lo hi cp Hlt E) as J.
    destruct (whatwg_cont bc lo hi cp s (length s) (S i) [rd s i]) as [c j|pb|j].
    + destruct J as (n & J & ->). rewrite J in *. cbn [jump_len] in Hjl.
      specialize (Hjl ltac:(discriminate)). case_if; apply Hnext; lia.
    + destruct J as [J ->]. rewrite J. destruct stream; [|destruct fatal; auto].
      split; [reflexivity|]. apply set_pending_shows; [exact Hb|]. apply jump_trunc_length. exact J.
    + destruct J as (n & J & ->). rewrite J in *. cbn [jump_len] in Hjl.
      specialize (Hjl ltac:(discriminate)). destruct fatal; [auto|]. apply Hnext. lia.
Qed.

Lemma decode_run dec s :
  pend_pos dec = 0%nat -> length (pend_buf dec) = 3%nat ->
  let '(r, d) := utf8_whatwg_decode fatal stream dec s (length s) in
  let '(r', bom, pend) := run jump_at utf8_eof fatal stream (ignore_bom dec) (S (length s)) (bom_seen dec) s [] in
  r = r' /\ dec_shows d (ignore_bom dec) bom pend.
Proof.
  intros Hp Hb. pose proof (loop_run (S (length s)) dec s 0 [] ltac:(lia) Hp Hb) as H.
  rewrite drop_0 in H. exact H.
Qed.

End run_loop.

Section run_any.
Context {U : Utf8proc} (jf : list Z -> jump) (eof : list Z -> list Z) {HJ : JumpSpec jf}.

Lemma run_fuel fatal stream ignore fuel : forall fuel' bom l out,
  (length l < fuel)%nat -> (length l < fuel')%nat ->
  run jf eof fatal stream ignore fuel bom l out = run jf eof fatal stream ignore fuel' bom l out.
Proof using HJ.
  induction fuel as [|fuel IH]; intros fuel' bom l out H1 H2; [lia|].
  destruct fuel' as [|fuel']; [lia|]. cbn [run]. destruct (decide (l = [])); [reflexivity|].
  pose proof (jump_bounds l n) as Hj.
  destruct (jf l) as [b|cp k|k|]; cbn [jump_len] in Hj; try reflexivity;
    specialize (Hj ltac:(discriminate)).
  - apply IH; rewrite length_drop; lia.
  - apply IH; rewrite length_drop; lia.
  - destruct fatal; [reflexivity|]. apply IH; rewrite length_drop; lia.
Qed.

(** What has been written stays written. *)
Lemma run_out fatal stream ignore fuel : forall bom l out,
  run jf eof fatal stream ignore fuel bom l out =
  let '(r, b, p) := run jf eof fatal stream ignore fuel bom l [] in (option_map (app out) r, b, p).
Proof.
  induction fuel as [|fuel IH]; intros bom l out; cbn [run].
  { cbn. rewrite app_nil_r. reflexivity. }
  destruct (decide (l = [])); [cbn; rewrite app_nil_r; reflexivity|].
  destruct (jf l) as [b|cp k|k|].
  - rewrite IH, (IH _ _ ([] ++ [b])). destruct (run _ _ _ _ _ _ _) as [[[r|] ?] ?]; cbn;
      rewrite <- ?app_assoc; reflexivity.
  - case_if.
    + apply IH.
    + rewrite IH, (IH _ _ ([] ++ _)). destruct (run _ _ _ _ _ _ _) as [[[r|] ?] ?]; cbn;
        rewrite <- ?app_assoc; reflexivity.
  - destruct fatal; [reflexivity|].
    rewrite IH, (IH _ _ ([] ++ _)). destruct (run _ _ _ _ _ _ _) as [[[r|] ?] ?]; cbn;
      rewrite <- ?app_assoc; reflexivity.
  - destruct stream; [cbn; rewrite app_nil_r; reflexivity|]. destruct fatal; reflexivity.
Qed.

(** ** The run from the start, and its equation *)

Definition run0 (fatal stream ignore bom : bool) (l : list Z) : option (list Z) * bool * list Z :=
  run jf eof fatal stream ignore (S (length l)) bom l [].

(** Put [o] in front of a run's output. *)
Definition pre (o : list Z) (r : option (list Z) * bool * list Z) : option (list Z) * bool * list Z :=
  let '(r, b, p) := r in (option_map (app o) r, b, p).

Lemma pre_nil r : pre [] r = r.
Proof. destruct r as [[[r|] b] p]; reflexivity. Qed.

Lemma pre_pre a b r : pre a (pre b r) = pre (a ++ b) r.
Proof. destruct r as [[[r|] c] p]; cbn; rewrite <- ?app_assoc; reflexivity. Qed.

Lemma run_run0 fatal stream ignore fuel bom l out : (length l < fuel)%nat ->
  run jf eof fatal stream ignore fuel bom l out = pre out (run0 fatal stream ignore bom l).
Proof using HJ.
  intros H. rewrite run_out. unfold run0.
  rewrite (run_fuel fatal stream ignore fuel (S (length l))) by lia. reflexivity.
Qed.

Lemma run0_step fatal stream ignore bom l :
  run0 fatal stream ignore bom l =
  if decide (l = []) then (Some [], bom, [])
  else match jf l with
  | J_ascii b => pre [b] (run0 fatal stream ignore true (drop 1 l))
  | J_bad n => if fatal then (None, bom, []) else pre FFFD (run0 fatal stream ignore true (drop n l))
  | J_char cp n =>
      pre (if negb bom && (cp =? 0xFEFF) && negb ignore then [] else utf8proc_encode_char cp)
          (run0 fatal stream ignore true (drop n l))
  | J_trunc =>
      if stream then (Some [], bom, l)
      else if fatal then (None, bom, []) else (Some (eof l), bom, [])
  end.
Proof using HJ.
  unfold run0 at 1. cbn [run]. destruct (decide (l = [])); [reflexivity|].
  pose proof (jump_bounds l n) as Hj.
  destruct (jf l) as [b|cp k|k|]; cbn [jump_len] in Hj; try reflexivity;
    specialize (Hj ltac:(discriminate)).
  - apply run_run0. rewrite length_drop. lia.
  - rewrite run_run0 by (rewrite length_drop; lia). case_if; reflexivity.
  - destruct fatal; [reflexivity|]. apply run_run0. rewrite length_drop. lia.
Qed.

(** Decoding a chunk and then the held back bytes with the rest is decoding
    the whole. *)
Lemma run0_split fatal stream ignore b : forall n a bom, (length a < n)%nat ->
  run0 fatal stream ignore bom (a ++ b) =
  match run0 fatal true ignore bom a with
  | (Some o, bom', pend) => pre o (run0 fatal stream ignore bom' (pend ++ b))
  | r => r
  end.
Proof using HJ.
  induction n as [|n IH]; intros a bom Hn; [lia|]. rewrite (run0_step fatal true).
  destruct (decide (a = [])) as [->|Ha]; [rewrite pre_nil; reflexivity|].
  pose proof (jump_bounds a Ha) as Hj. pose proof (jump_stable a b Ha) as Happ.
  assert (Hne : a ++ b <> []) by (destruct a; [congruence|discriminate]).
  rewrite run0_step. destruct (decide (a ++ b = [])) as [|_]; [congruence|].
  assert (Hgo : forall k o, (1 <= k <= length a)%nat ->
    pre o (run0 fatal stream ignore true (drop k (a ++ b))) =
    match pre o (run0 fatal true ignore true (drop k a)) with
    | (Some o, bom', pend) => pre o (run0 fatal stream ignore bom' (pend ++ b))
    | r => r
    end).
  { intros k o Hk. rewrite drop_app_le by lia. rewrite IH by (rewrite length_drop; lia).
    destruct (run0 fatal true ignore true (drop k a)) as [[[r|] b1] p1]; cbn [pre option_map];
      rewrite ?pre_pre; reflexivity. }
  destruct (jf a) as [c|cp k|k|] eqn:J; cbn [jump_len] in Hj;
    try (rewrite Happ by discriminate; specialize (Hj ltac:(discriminate))).
  - apply Hgo. lia.
  - apply Hgo. lia.
  - destruct fatal; [reflexivity|]. apply Hgo. lia.
  - rewrite pre_nil, (run0_step fatal stream ignore bom (a ++ b)).
    destruct (decide (a ++ b = [])); [congruence|reflexivity].
Qed.
End run_any.

(** ** Jumps and strict UTF-8 *)

#[global] Instance label_eq_dec : EqDecision label.
Proof. solve_decision. Defined.

Definition lead_mask (cont : nat) : Z :=
  match cont with 1%nat => 0x1F | 2%nat => 0x0F | _ => 0x07 end.

(** The dispatch table and the table of [utf8_validate_bytes] agree. *)
Lemma tbl_lead_class b : is_byte b ->
  whatwg_tbl b =
  if b <? 0x80 then L_ASCII
  else match utf8_lead_class b with
  | Some (cont, lo, hi) => L_cont cont lo hi (b .& lead_mask cont)
  | None => L_BAD
  end.
Proof.
  intros Hb. by_bytes b (fun b => bool_decide (whatwg_tbl b =
    if b <? 0x80 then L_ASCII
    else match utf8_lead_class b with
    | Some (cont, lo, hi) => L_cont cont lo hi (b .& lead_mask cont)
    | None => L_BAD
    end)).
  apply bool_decide_eq_true in Hbyte. exact Hbyte.
Qed.

Lemma cont_done_inv bc : forall lo hi cp l i pb c j,
  whatwg_cont bc lo hi cp l (length l) i pb = C_done c j ->
  j = (i + bc)%nat /\ (bc = 0%nat \/ (i + bc <= length l)%nat /\ lo <= rd l i <= hi) /\
  (forall k, (1 <= k < bc)%nat -> 0x80 <= rd l (i + k) <= 0xBF).
Proof.
  induction bc as [|bc IH]; intros lo hi cp l i pb c j; cbn [whatwg_cont].
  { intros [= _ <-]. splits; [lia|auto|lia]. }
  destruct (Nat.leb_spec (length l) i); [discriminate|].
  case_if; [discriminate|]. boolprop. intros W. apply IH in W as (-> & Hb & Hk). splits; [lia| |].
  - right. destruct Hb as [->|[Hb _]]; lia.
  - intros k Hk'. destruct (Nat.eq_dec k 1) as [->|].
    + destruct Hb as [->|[_ Hb]]; [lia|]. rewrite Nat.add_1_r. lia.
    + replace (i + k)%nat with (S i + (k - 1))%nat by lia. apply Hk. lia.
Qed.

Lemma jump_char_valid l cp n : bytes l -> jump_at l = J_char cp n -> valid_head l = Some n.
Proof.
  intros Hb. destruct l as [|c t]; [discriminate|]. unfold jump_at, valid_head.
  inversion_clear Hb as [|? ? Hc _]. rewrite (tbl_lead_class c Hc).
  destruct (c <? 0x80); [discriminate|].
  destruct (utf8_lead_class c) as [[[cont lo] hi]|] eqn:E; [|discriminate].
  destruct (whatwg_cont _ _ _ _ _ _ _ _) as [c' j| |] eqn:W; try discriminate. intros [= <- <-].
  apply cont_done_inv in W as (-> & Hw & Hk).
  assert (1 <= cont)%nat by (apply lead_class_inv in E; lia).
  destruct Hw as [->|[Hl H1]]; [lia|].
  destruct (Nat.leb_spec (length (c :: t)) cont); [lia|].
  destruct (Z.ltb_spec (rd (c :: t) 1) lo), (Z.ltb_spec hi (rd (c :: t) 1)); try lia. cbn [orb].
  destruct (existsb _ _) eqn:X; [|reflexivity]. apply existsb_exists in X as (i & Hi & X).
  apply in_seq in Hi. specialize (Hk (i - 1)%nat ltac:(lia)).
  replace (1 + (i - 1))%nat with i in Hk by lia. apply orb_true_iff in X. rewrite !Z.ltb_lt in X. lia.
Qed.

Lemma shift_push cp r : 0 <= r < 64 -> (cp .<< 6) .| r = cp * 64 + r.
Proof. intros. apply (lor_shiftl_add cp r 6); lia. Qed.

(** A well-formed sequence takes one jump, which yields its code point. *)
Lemma jump_enc cp t : is_scalar cp = true ->
  jump_at (utf8_enc cp ++ t) =
  if cp <? 0x80 then J_ascii cp else J_char cp (length (utf8_enc cp)).
Proof.
  intros Hs. apply scalar_range in Hs as [Hr Hn]. unfold utf8_enc, jump_at.
  destruct (Z.ltb_spec cp 0x80) as [H1|H1].
  { cbn [app]. unfold whatwg_tbl. destruct (Z.leb_spec cp 0x7F); [reflexivity|lia]. }
  destruct (Z.ltb_spec cp 0x800) as [H2|H2].
  { assert (0 <= cp / 64 < 32 /\ cp = cp / 64 * 64 + cp mod 64 /\ 0 <= cp mod 64 < 64)
      as (Hq & Hcp' & Hm) by (Z.to_euclidean_division_equations; lia).
    cbn [app]. unfold whatwg_tbl. lead_cases. cbn [whatwg_cont length].
    destruct (Nat.leb_spec (S (S (length t))) 1); [lia|]. cbn [rd nth]. lead_cases. cbn [orb].
    rewrite cont_bits, shift_push by lia.
    replace ((0xC0 + cp / 64) .& 0x1F) with (cp / 64) by (symmetry; apply (land_low 6 5); lia).
    rewrite <- Hcp'. reflexivity. }
  destruct (Z.ltb_spec cp 0x10000) as [H3|H3].
  { assert (cp = (cp / 4096 * 64 + (cp / 64) mod 64) * 64 + cp mod 64 /\ 0 <= cp mod 64 < 64 /\
            0 <= (cp / 64) mod 64 < 64 /\ 0 <= cp / 4096 < 16)
      as (Hcp' & Hm & Hm2 & Hq) by (Z.to_euclidean_division_equations; lia).
    cbn [app]. unfold whatwg_tbl. lead_cases; cbn [whatwg_cont length];
    (destruct (Nat.leb_spec (S (S (S (length t)))) 1); [lia|]);
    (destruct (Nat.leb_spec (S (S (S (length t)))) 2); [lia|]); cbn [rd nth]; lead_cases; cbn [orb];
    rewrite !cont_bits, !shift_push by lia;
    (replace ((0xE0 + cp / 4096) .& 0x0F) with (cp / 4096) by (symmetry; apply (land_low 14 4); lia));
    rewrite <- Hcp'; reflexivity. }
  assert (cp = ((cp / 262144 * 64 + (cp / 4096) mod 64) * 64 + (cp / 64) mod 64) * 64
               + cp mod 64 /\ 0 <= cp mod 64 < 64 /\
          0 <= (cp / 64) mod 64 < 64 /\ 0 <= (cp / 4096) mod 64 < 64 /\ 0 <= cp / 262144 < 8)
    as (Hcp' & Hm & Hm2 & Hm3 & Hq) by (Z.to_euclidean_division_equations; lia).
  cbn [app]. unfold whatwg_tbl. lead_cases; cbn [whatwg_cont length];
  (destruct (Nat.leb_spec (S (S (S (S (length t))))) 1); [lia|]);
  (destruct (Nat.leb_spec (S (S (S (S (length t))))) 2); [lia|]);
  (destruct (Nat.leb_spec (S (S (S (S (length t))))) 3); [lia|]); cbn [rd nth]; lead_cases; cbn [orb];
  rewrite !cont_bits, !shift_push by lia;
  (replace ((0xF0 + cp / 262144) .& 0x07) with (cp / 262144) by (symmetry; apply (land_low 30 3); lia));
  rewrite <- Hcp'; reflexivity.
Qed.

Lemma jump_char_enc l cp n : bytes l -> jump_at l = J_char cp n ->
  is_scalar cp = true /\ l = utf8_enc cp ++ drop n l /\ n = length (utf8_enc cp).
Proof.
  intros Hb J. pose proof (jump_char_valid l cp n Hb J) as V.
  destruct (valid_head_sound l n Hb V) as (Hs & Hn & Ht).
  assert (E : l = utf8_enc (head_cp l) ++ drop n l) by (rewrite <- Ht, take_drop; reflexivity).
  pose proof (jump_enc (head_cp l) (drop n l) Hs) as J2. rewrite <- E, J in J2.
  destruct (head_cp l <? 0x80); [discriminate|]. injection J2 as -> _. auto.
Qed.

Lemma jump_ascii_enc l b : bytes l -> jump_at l = J_ascii b ->
  is_scalar b = true /\ utf8_enc b = [b] /\ l = b :: drop 1 l.
Proof.
  intros Hb. unfold jump_at. destruct l as [|c t]; [discriminate|].
  inversion_clear Hb as [|? ? [H1 H2] _].
  destruct (whatwg_tbl c) as [| |bc lo hi cp] eqn:E.
  - intros [= <-]. unfold whatwg_tbl in E. revert E. destruct (Z.leb_spec c 0x7F); [intros _|].
    + destruct (enc1 c) as [Hs He]; [lia|]. auto.
    + case_ifs; discriminate.
  - discriminate.
  - destruct (whatwg_cont _ _ _ _ _ _ _ _); discriminate.
Qed.

(** The byte-order mark a decoder drops. *)
Definition strip_bom (ignore bom : bool) (cps : list Z) : list Z :=
  match cps with
  | cp :: t => if negb bom && (cp =? 0xFEFF) && negb ignore then t else cps
  | [] => []
  end.

Section run_facts.
Context {U : Utf8proc} {HU : Utf8procSpec U}.

Lemma run0_valid fatal stream ignore cps : forall bom,
  Forall (fun cp => is_scalar cp = true) cps ->
  run0 jump_at utf8_eof fatal stream ignore bom (utf8_of cps) =
  (Some (utf8_of (strip_bom ignore bom cps)), match cps with [] => bom | _ => true end, []).
Proof using HU.
  induction cps as [|cp cps IH]; intros bom H; [reflexivity|]. inversion_clear H as [|? ? Hs Ht].
  rewrite (run0_step jump_at utf8_eof). change (utf8_of (cp :: cps)) with (utf8_enc cp ++ utf8_of cps).
  pose proof (utf8_enc_length cp).
  destruct (decide _) as [E|_]; [apply (f_equal length) in E; rewrite length_app in E; cbn in E; lia|].
  assert (Hrest : forall o, pre o (run0 jump_at utf8_eof fatal stream ignore true (utf8_of cps)) =
                            (Some (o ++ utf8_of cps), true, [])).
  { intros o. rewrite IH by exact Ht. cbn [pre option_map].
    replace (strip_bom ignore true cps) with cps by (destruct cps; reflexivity).
    destruct cps; reflexivity. }
  rewrite (jump_enc cp _ Hs). destruct (Z.ltb_spec cp 0x80) as [Hl|Hl].
  - destruct (enc1 cp) as [_ He]; [apply scalar_range in Hs; lia|]. rewrite He. cbn [app drop].
    rewrite drop_0. rewrite Hrest. unfold strip_bom.
    destruct (Z.eqb_spec cp 0xFEFF); [lia|]. rewrite andb_false_r. cbn [andb].
    unfold utf8_of. cbn [map concat]. rewrite He. reflexivity.
  - rewrite drop_app_length, Hrest. unfold strip_bom.
    rewrite encode_char_spec by (apply scalar_range in Hs; lia).
    destruct (_ && _ && _); reflexivity.
Qed.

(** A fatal decoder accepts valid strings only. *)
Lemma run0_fatal_some ignore n : forall l bom o b p, (length l < n)%nat -> bytes l ->
  run0 jump_at utf8_eof true false ignore bom l = (Some o, b, p) -> valid_utf8 l.
Proof.
  induction n as [|n IH]; intros l bom o b p Hn Hb; [lia|]. rewrite (run0_step jump_at utf8_eof).
  destruct (decide (l = [])) as [->|Hne]; [intros _; apply valid_utf8_nil|].
  pose proof (jump_len_bounds l Hne) as Hj.
  destruct (jump_at l) as [c|cp k|k|] eqn:J; cbn [jump_len] in Hj; try discriminate;
    specialize (Hj ltac:(discriminate)).
  - destruct (jump_ascii_enc l c Hb J) as (Hs & He & E).
    destruct (run0 jump_at utf8_eof true false ignore true (drop 1 l)) as [[[r|] b1] p1] eqn:R; [|discriminate].
    intros _. apply IH in R; [|rewrite length_drop; lia|apply Forall_drop; exact Hb].
    rewrite E. change (c :: drop 1 l) with ([c] ++ drop 1 l). rewrite <- He.
    apply valid_utf8_cons; auto.
  - destruct (jump_char_enc l cp k Hb J) as (Hs & E & Hk).
    destruct (run0 jump_at utf8_eof true false ignore true (drop k l)) as [[[r|] b1] p1] eqn:R; [|discriminate].
    intros _. apply IH in R; [|rewrite length_drop; lia|apply Forall_drop; exact Hb].
    rewrite E. apply valid_utf8_cons; auto.
Qed.

End run_facts.

(** What a jump function promises about its output: characters are scalar
    values and take at most three bytes of UTF-8 per byte read. *)
Class JumpSound (jf : list Z -> jump) (eof : list Z -> list Z) := {
  sound_ascii l b : bytes l -> jf l = J_ascii b -> is_scalar b = true /\ utf8_enc b = [b];
  sound_char l cp n : bytes l -> jf l = J_char cp n ->
    is_scalar cp = true /\ (length (utf8_enc cp) <= 3 * n)%nat;
  sound_eof l : l <> [] -> jf l = J_trunc ->
    valid_utf8 (eof l) /\ (length (eof l) <= 3 * length l)%nat
}.

Lemma valid_FFFD : valid_utf8 FFFD.
Proof. exists [0xFFFD]. split; [repeat constructor|reflexivity]. Qed.

Lemma valid_enc cp : is_scalar cp = true -> valid_utf8 (utf8_enc cp).
Proof.
  intros Hs. rewrite <- (app_nil_r (utf8_enc cp)). apply valid_utf8_cons; auto using valid_utf8_nil.
Qed.

#[export] Instance utf8_jump_sound : JumpSound jump_at utf8_eof.
Proof.
  split.
  - intros l b Hb J. destruct (jump_ascii_enc l b Hb J) as (? & ? & _). auto.
  - intros l cp n Hb J. destruct (jump_char_enc l cp n Hb J) as (? & _ & ->). split; [auto|lia].
  - intros l Hne _. split; [apply valid_FFFD|]. destruct l; [congruence|cbn; lia].
Qed.

(** Whatever the flags, a decoder fails only when fatal, writes valid UTF-8,
    and never more than three bytes per input byte. *)
Lemma run0_sound {U : Utf8proc} {HU : Utf8procSpec U} jf eof {HJ : JumpSpec jf}
  {HS : JumpSound jf eof} fatal stream ignore n : forall l bom, (length l < n)%nat -> bytes l ->
  match run0 jf eof fatal stream ignore bom l with
  | (Some o, _, _) => valid_utf8 o /\ (length o <= 3 * length l)%nat
  | (None, _, _) => fatal = true
  end.
Proof.
  induction n as [|n IH]; intros l bom Hn Hb; [lia|]. rewrite (run0_step jf eof).
  destruct (decide (l = [])) as [->|Hne]; [split; [apply valid_utf8_nil|cbn; lia]|].
  pose proof (jump_bounds l Hne) as Hj.
  assert (Hgo : forall x k, valid_utf8 x -> (length x <= 3 * k)%nat -> (1 <= k <= length l)%nat ->
    match pre x (run0 jf eof fatal stream ignore true (drop k l)) with
    | (Some o, _, _) => valid_utf8 o /\ (length o <= 3 * length l)%nat
    | (None, _, _) => fatal = true
    end).
  { intros x k Hx Hlx Hk. specialize (IH (drop k l) true).
    rewrite length_drop in IH. specialize (IH ltac:(lia) ltac:(apply Forall_drop; exact Hb)).
    destruct (run0 jf eof fatal stream ignore true (drop k l)) as [[[o|] b] p]; cbn [pre option_map];
      [|exact IH]. destruct IH as [Ho Hlo].
    split; [apply valid_utf8_app; auto|]. rewrite length_app. lia. }
  destruct (jf l) as [c|cp k|k|] eqn:J; cbn [jump_len] in Hj; try specialize (Hj ltac:(discriminate)).
  - destruct (sound_ascii (eof := eof) l c Hb J) as [Hs He]. apply Hgo; [|cbn; lia|lia].
    rewrite <- He. apply valid_enc. exact Hs.
  - destruct (sound_char (eof := eof) l cp k Hb J) as [Hs Hk].
    rewrite encode_char_spec by (apply scalar_range in Hs; lia). apply Hgo; [| |lia].
    + case_if; [apply valid_utf8_nil|apply valid_enc; exact Hs].
    + case_if; [cbn; lia|exact Hk].
  - destruct fatal; [reflexivity|]. apply Hgo; [apply valid_FFFD|cbn; lia|lia].
  - destruct stream; [split; [apply valid_utf8_nil|cbn; lia]|].
    destruct fatal; [reflexivity|]. apply sound_eof; auto.
Qed.
