(* ===== verification/TextCodec.v ===== *)
(** * TextDecoder and TextEncoder

    [src/src/modules/textcodec.c] with its state [td_state_t]
    ([src/include/modules/textcodec.h]): label resolution, the single-byte
    tables, the UTF-16 decoder, the driver [td_decode] that joins the bytes
    held back from the previous chunk with the new chunk and picks a decoder,
    and [te_encode].  The JavaScript object plumbing of the module (argument
    coercion, prototypes, getters) is not modelled. *)

From S2P Require Import Prelude Utf8Scan FlatString Utf8Codec WhatwgDecode.

(** ** Data *)

Inductive td_encoding_t :=
| TD_ENC_UTF8 | TD_ENC_UTF16LE | TD_ENC_UTF16BE | TD_ENC_WINDOWS_1252 | TD_ENC_ISO_8859_2.

#[global] Instance td_encoding_eq_dec : EqDecision td_encoding_t.
Proof. solve_decision. Defined.

Record td_state_t := TdState {
  td_encoding : td_encoding_t; pending : list Z; pending_len : nat;
  td_fatal : bool; td_ignore_bom : bool; td_bom_seen : bool }.

Definition set_td (st : td_state_t) (pend : list Z) (n : nat) (bom : bool) : td_state_t :=
  TdState (td_encoding st) pend n (td_fatal st) (td_ignore_bom st) bom.

(** [td_state_new] with memory available. *)
Definition td_state_new (enc : td_encoding_t) (fatal ignore : bool) : td_state_t :=
  TdState enc [0; 0; 0; 0] 0 fatal ignore false.

(** [memcpy(pending, pb, len(pb))]. *)
Definition set_pend (st : td_state_t) (pb : list Z) : td_state_t :=
  set_td st (pb ++ drop (length pb) (pending st)) (length pb) (td_bom_seen st).

(** ** Labels *)

(** The rows of [map] in [resolve_encoding]: label, [len] column, encoding. *)
Definition label_map : list (string * nat * td_encoding_t) :=
  [("unicode-1-1-utf-8", 17%nat, TD_ENC_UTF8); ("unicode11utf8", 13%nat, TD_ENC_UTF8);
   ("unicode20utf8", 13%nat, TD_ENC_UTF8); ("utf-8", 5%nat, TD_ENC_UTF8);
   ("utf8", 4%nat, TD_ENC_UTF8); ("x-unicode20utf8", 17%nat, TD_ENC_UTF8);
   ("ansi_x3.4-1968", 14%nat, TD_ENC_WINDOWS_1252); ("ascii", 5%nat, TD_ENC_WINDOWS_1252);
   ("cp1252", 6%nat, TD_ENC_WINDOWS_1252); ("cp819", 5%nat, TD_ENC_WINDOWS_1252);
   ("csisolatin1", 11%nat, TD_ENC_WINDOWS_1252); ("ibm819", 6%nat, TD_ENC_WINDOWS_1252);
   ("iso-8859-1", 10%nat, TD_ENC_WINDOWS_1252); ("iso-ir-100", 10%nat, TD_ENC_WINDOWS_1252);
   ("iso8859-1", 9%nat, TD_ENC_WINDOWS_1252); ("iso88591", 8%nat, TD_ENC_WINDOWS_1252);
   ("iso_8859-1", 10%nat, TD_ENC_WINDOWS_1252); ("iso_8859-1:1987", 15%nat, TD_ENC_WINDOWS_1252);
   ("l1", 2%nat, TD_ENC_WINDOWS_1252); ("latin1", 6%nat, TD_ENC_WINDOWS_1252);
   ("us-ascii", 8%nat, TD_ENC_WINDOWS_1252); ("windows-1252", 12%nat, TD_ENC_WINDOWS_1252);
   ("x-cp1252", 8%nat, TD_ENC_WINDOWS_1252); ("unicodefffe", 11%nat, TD_ENC_UTF16BE);
   ("utf-16be", 8%nat, TD_ENC_UTF16BE); ("csunicode", 9%nat, TD_ENC_UTF16LE);
   ("iso-10646-ucs-2", 16%nat, TD_ENC_UTF16LE); ("ucs-2", 5%nat, TD_ENC_UTF16LE);
   ("unicode", 7%nat, TD_ENC_UTF16LE); ("unicodefeff", 11%nat, TD_ENC_UTF16LE);
   ("utf-16", 6%nat, TD_ENC_UTF16LE); ("utf-16le", 8%nat, TD_ENC_UTF16LE);
   ("iso-8859-2", 10%nat, TD_ENC_ISO_8859_2)]%string.

Definition label_hit (s : list Z) (row : string * nat * td_encoding_t) : bool :=
  (length s =? row.1.2)%nat && strncasecmp_eq (length s) s (str_bytes row.1.1).

(** [resolve_encoding(s, len)]; [None] is -1. *)
Definition resolve_encoding (s : list Z) : option td_encoding_t :=
  option_map snd (find (label_hit s) label_map).

Definition encoding_name (enc : td_encoding_t) : string :=
  match enc with
  | TD_ENC_UTF16LE => "utf-16le" | TD_ENC_UTF16BE => "utf-16be"
  | TD_ENC_WINDOWS_1252 => "windows-1252" | TD_ENC_ISO_8859_2 => "iso-8859-2"
  | TD_ENC_UTF8 => "utf-8"
  end.

(** The two loops of [trim_label]. *)
Fixpoint trim_left (s : list Z) : list Z :=
  match s with c :: t => if c <=? 0x20 then trim_left t else s | [] => [] end.

Fixpoint trim_right_len (s : list Z) (len : nat) : nat :=
  match len with
  | O => O
  | S n => if rd s n <=? 0x20 then trim_right_len s n else len
  end.

Definition trim_label (s : list Z) : list Z :=
  let s := trim_left s in take (trim_right_len s (length s)) s.

(** ** Single-byte encodings *)

Definition specials_1252 : list Z :=
  [0x20AC; 0x0081; 0x201A; 0x0192; 0x201E; 0x2026; 0x2020; 0x2021;
   0x02C6; 0x2030; 0x0160; 0x2039; 0x0152; 0x008D; 0x017D; 0x008F;
   0x0090; 0x2018; 0x2019; 0x201C; 0x201D; 0x2022; 0x2013; 0x2014;
   0x02DC; 0x2122; 0x0161; 0x203A; 0x0153; 0x009D; 0x017E; 0x0178].

Definition decode_windows_1252_byte (byte : Z) : Z :=
  if byte <? 0x80 then byte
  else if byte <? 0xA0 then rd specials_1252 (Z.to_nat (byte - 0x80))
  else byte.

Definition upper_8859_2 : list Z :=
  [0x00A0; 0x0104; 0x02D8; 0x0141; 0x00A4; 0x013D; 0x015A; 0x00A7;
   0x00A8; 0x0160; 0x015E; 0x0164; 0x0179; 0x00AD; 0x017D; 0x017B;
   0x00B0; 0x0105; 0x02DB; 0x0142; 0x00B4; 0x013E; 0x015B; 0x02C7;
   0x00B8; 0x0161; 0x015F; 0x0165; 0x017A; 0x02DD; 0x017E; 0x017C;
   0x0154; 0x00C1; 0x00C2; 0x0102; 0x00C4; 0x0139; 0x0106; 0x00C7;
   0x010C; 0x00C9; 0x0118; 0x00CB; 0x011A; 0x00CD; 0x00CE; 0x010E;
   0x0110; 0x0143; 0x0147; 0x00D3; 0x00D4; 0x0150; 0x00D6; 0x00D7;
   0x0158; 0x016E; 0x00DA; 0x0170; 0x00DC; 0x00DD; 0x0162; 0x00DF;
   0x0155; 0x00E1; 0x00E2; 0x0103; 0x00E4; 0x013A; 0x0107; 0x00E7;
   0x010D; 0x00E9; 0x0119; 0x00EB; 0x011B; 0x00ED; 0x00EE; 0x010F;
   0x0111; 0x0144; 0x0148; 0x00F3; 0x00F4; 0x0151; 0x00F6; 0x00F7;
   0x0159; 0x016F; 0x00FA; 0x0171; 0x00FC; 0x00FD; 0x0163; 0x02D9].

Definition decode_iso_8859_2_byte (byte : Z) : Z :=
  if byte <? 0xA0 then byte else rd upper_8859_2 (Z.to_nat (byte - 0xA0)).

(** [u16_read]. *)
Definition u16_read (src : list Z) (i : nat) (be : bool) : Z :=
  if be then u16 ((rd src i .<< 8) .| rd src (S i))
  else u16 ((rd src (S i) .<< 8) .| rd src i).

Definition U16_IS_HIGH (cu : Z) : bool := (0xD800 <=? cu) && (cu <=? 0xDBFF).
Definition U16_IS_LOW (cu : Z) : bool := (0xDC00 <=? cu) && (cu <=? 0xDFFF).
Definition U16_PAIR (hi lo : Z) : Z := u32 (0x10000 + (u32 (hi - 0xD800) .<< 10) + (lo - 0xDC00)).

Section codec.
Context {U : Utf8proc}.

Definition decode_single_byte (st : td_state_t) (src : list Z) : list Z :=
  concat (map (fun b => utf8proc_encode_char
    (if decide (td_encoding st = TD_ENC_WINDOWS_1252)
     then decode_windows_1252_byte b else decode_iso_8859_2_byte b)) src).

(** ** UTF-16 *)

(** The label [pend_tail] with the [break] after it. *)
Definition utf16_pend_tail (st : td_state_t) (src : list Z) (i : nat) (out : list Z) (stream : bool)
  : option (list Z) * td_state_t :=
  if stream then (Some out, set_pend st [rd src i])
  else if td_fatal st then (None, st)
  else (Some (out ++ FFFD), st).

(** The label [pend_hi]; [i] is past the high surrogate. *)
Definition utf16_pend_hi (st : td_state_t) (src : list Z) (len i : nat) (out : list Z) (stream : bool)
  : option (list Z) * td_state_t :=
  if stream then (Some out, set_pend st (take (len - (i - 2)) (drop (i - 2) src)))
  else if td_fatal st then (None, st)
  else (Some (out ++ FFFD ++ (if (len - i =? 1)%nat then FFFD else [])), st).

Fixpoint utf16_loop (fuel : nat) (st : td_state_t) (be : bool) (src : list Z) (len i : nat)
  (out : list Z) (stream : bool) : option (list Z) * td_state_t :=
  match fuel with
  | O => (Some out, st)
  | S fuel =>
      if (i <? len)%nat then
        if (len - i <? 2)%nat then utf16_pend_tail st src i out stream
        else
          let cu := u16_read src i be in
          let i := (i + 2)%nat in
          let err := if td_fatal st then (None, st)
                     else utf16_loop fuel st be src len i (out ++ FFFD) stream in
          if negb (U16_IS_HIGH cu) && negb (U16_IS_LOW cu)
          then utf16_loop fuel st be src len i (out ++ utf8proc_encode_char cu) stream
          else if U16_IS_LOW cu then err
          else if (len - i <? 2)%nat then utf16_pend_hi st src len i out stream
          else
            let lo := u16_read src i be in
            if U16_IS_LOW lo
            then utf16_loop fuel st be src len (i + 2)
                   (out ++ utf8proc_encode_char (U16_PAIR cu lo)) stream
            else err
      else (Some out, st)
  end.

Definition utf16_decode (st : td_state_t) (src : list Z) (len : nat) (stream : bool)
  : option (list Z) * td_state_t :=
  let be := if decide (td_encoding st = TD_ENC_UTF16BE) then true else false in
  if negb (td_bom_seen st) then
    if (len <? 2)%nat then utf16_pend_tail st src 0 [] stream
    else
      let i := if (u16_read src 0 be =? 0xFEFF) && negb (td_ignore_bom st) then 2%nat else 0%nat in
      utf16_loop (S len) (set_td st (pending st) (pending_len st) true) be src len i [] stream
  else utf16_loop (S len) st be src len 0 [] stream.

(** ** The driver *)

Context (malloc_ok : Z -> bool).

Definition td_decode (st : td_state_t) (input : list Z) (stream_mode : bool)
  : result (list Z) * td_state_t :=
  let total := (pending_len st + length input)%nat in
  if (total =? 0)%nat then
    (Ok [], if stream_mode then st else set_td st (pending st) (pending_len st) false)
  else if (0 <? pending_len st)%nat && negb (malloc_ok (Z.of_nat total))
  then (js_mkerr "out of memory", st)
  else
    let src := take (pending_len st) (pending st) ++ input in
    let st := set_td st (pending st) 0 (td_bom_seen st) in
    if negb (malloc_ok (Z.of_nat total * 3 + 1)) then (js_mkerr "out of memory", st)
    else
      let '(n, st) :=
        match td_encoding st with
        | TD_ENC_UTF16LE | TD_ENC_UTF16BE => utf16_decode st src total stream_mode
        | TD_ENC_WINDOWS_1252 | TD_ENC_ISO_8859_2 =>
            (Some (decode_single_byte st src), set_td st (pending st) 0 false)
        | TD_ENC_UTF8 =>
            let dec := Utf8Dec (td_ignore_bom st) (td_bom_seen st) [0; 0; 0] 0 in
            let '(n, dec) := utf8_whatwg_decode (td_fatal st) stream_mode dec src total in
            (n, set_td st (take (pend_pos dec) (pend_buf dec) ++ drop (pend_pos dec) (pending st))
                  (pend_pos dec) (if stream_mode then bom_seen dec else false))
        end in
      match n with
      | None => (Err JS_ERR_TYPE "The encoded data was not valid.", st)
      | Some out =>
          (Ok out,
           if decide (td_encoding st <> TD_ENC_UTF8) then
             if stream_mode then st else set_td st (pending st) (pending_len st) false
           else st)
      end.

(** [te_encode]: the bytes of the [Uint8Array]. *)
Definition te_encode (f : flat) : result (list Z) * flat :=
  let str_len := length (fl_bytes f) in
  if negb (malloc_ok (Z.of_nat str_len)) then (js_mkerr "out of memory", f)
  else
    let '((written, _), f) := utf8_export_into f (Z.of_nat str_len) in (Ok written, f).
End codec.

(** ** UTF-16 as jumps *)

Definition read2 (be : bool) (x y : Z) : Z :=
  if be then u16 ((x .<< 8) .| y) else u16 ((y .<< 8) .| x).

Definition ujump (be : bool) (l : list Z) : jump :=
  match l with
  | x :: y :: t =>
      let cu := read2 be x y in
      if negb (U16_IS_HIGH cu) && negb (U16_IS_LOW cu) then J_char cu 2
      else if U16_IS_LOW cu then J_bad 2
      else match t with
      | z :: w :: _ => let lo := read2 be z w in
                       if U16_IS_LOW lo then J_char (U16_PAIR cu lo) 4 else J_bad 2
      | _ => J_trunc
      end
  | _ => J_trunc
  end.

(** What the end of input inside a character costs. *)
Definition ueof (l : list Z) : list Z := if (length l =? 3)%nat then FFFD ++ FFFD else FFFD.

#[export] Instance utf16_jump_spec be : JumpSpec (ujump be).
Proof.
  split.
  - intros l Hne. destruct l as [|x [|y t]]; cbn [ujump]; try congruence.
    destruct (negb _ && _); [cbn; lia|]. destruct (U16_IS_LOW _); [cbn; lia|].
    destruct t as [|z [|w t]]; try congruence. destruct (U16_IS_LOW _); cbn; lia.
  - intros a b Hne. destruct a as [|x [|y t]]; cbn [ujump app]; try congruence.
    destruct (negb _ && _); [reflexivity|]. destruct (U16_IS_LOW _); [reflexivity|].
    destruct t as [|z [|w t]]; cbn [app]; congruence.
Qed.

Lemma read2_u16 s i be : u16_read s i be = read2 be (rd s i) (rd s (S i)).
Proof. unfold u16_read, read2. destruct be; reflexivity. Qed.

(** The state after a UTF-16 run. *)
Definition after_utf16 (st : td_state_t) (pend : list Z) : td_state_t :=
  match pend with [] => st | _ => set_pend st pend end.

Section utf16_run.
Context {U : Utf8proc} (be stream ignore : bool).

Lemma utf16_loop_run fuel : forall st s i out, (i <= length s)%nat ->
  let '(r, _, pend) := run (ujump be) ueof (td_fatal st) stream ignore fuel true (drop i s) out in
  utf16_loop fuel st be s (length s) i out stream = (r, after_utf16 st pend).
Proof.
  induction fuel as [|fuel IH]; intros st s i out Hi; [reflexivity|].
  cbn [run utf16_loop]. destruct (Nat.ltb_spec i (length s)) as [Hlt|Hge].
  2: { rewrite drop_ge by lia. destruct (decide _); [reflexivity|congruence]. }
  destruct (decide (drop i s = [])) as [E|_].
  { rewrite (drop_cons_rd s i) in E by exact Hlt. discriminate. }
  assert (Hnext : forall n o, (i + n <= length s)%nat ->
    let '(r, _, pend) := run (ujump be) ueof (td_fatal st) stream ignore fuel true
                           (drop n (drop i s)) o in
    utf16_loop fuel st be s (length s) (i + n) o stream = (r, after_utf16 st pend)).
  { intros n o Hn. rewrite drop_drop. apply IH. lia. }
  destruct (Nat.ltb_spec (length s - i) 2) as [H1|H1].
  { assert (E : drop i s = [rd s i]).
    { rewrite (drop_cons_rd s i), drop_ge by lia. reflexivity. }
    rewrite E. cbn [ujump]. unfold utf16_pend_tail, ueof. cbn [length].
    destruct stream; [reflexivity|]. destruct (td_fatal st); reflexivity. }
  assert (E : drop i s = rd s i :: rd s (S i) :: drop (i + 2) s).
  { rewrite (drop_cons_rd s i), (drop_cons_rd s (S i)) by lia.
    replace (i + 2)%nat with (S (S i)) by lia. reflexivity. }
  assert (J : ujump be (drop i s) = ujump be (rd s i :: rd s (S i) :: drop (i + 2) s))
    by (rewrite E; reflexivity).
  rewrite J. cbn [ujump]. rewrite read2_u16. set (cu := read2 be _ _).
  destruct (negb (U16_IS_HIGH cu) && negb (U16_IS_LOW cu)).
  { cbn match. cbn [negb andb]. apply (Hnext 2%nat). lia. }
  destruct (U16_IS_LOW cu); [destruct (td_fatal st) eqn:Ef; [reflexivity|]; apply (Hnext 2%nat); lia|].
  destruct (Nat.ltb_spec (length s - (i + 2)) 2) as [H2|H2].
  { unfold utf16_pend_hi. replace (i + 2 - 2)%nat with i by lia.
    rewrite (take_ge (drop i s)) by (rewrite length_drop; lia).
    destruct (drop (i + 2) s) as [|z [|w t]] eqn:D.
    - cbn match. destruct stream; [rewrite E; reflexivity|]. destruct (td_fatal st); [reflexivity|].
      apply (f_equal length) in D. rewrite length_drop in D. cbn in D.
      destruct (Nat.eqb_spec (length s - (i + 2)) 1); [lia|].
      unfold ueof. rewrite length_drop. destruct (Nat.eqb_spec (length s - i) 3); [lia|].
      rewrite app_nil_r. reflexivity.
    - cbn match. destruct stream; [rewrite E; reflexivity|]. destruct (td_fatal st); [reflexivity|].
      apply (f_equal length) in D. rewrite length_drop in D. cbn in D.
      destruct (Nat.eqb_spec (length s - (i + 2)) 1); [|lia].
      unfold ueof. rewrite length_drop. destruct (Nat.eqb_spec (length s - i) 3); [reflexivity|lia].
    - apply (f_equal length) in D. rewrite length_drop in D. cbn in D. lia. }
  rewrite (drop_cons_rd s (i + 2)), (drop_cons_rd s (S (i + 2))) by lia. rewrite read2_u16.
  destruct (U16_IS_LOW (read2 be (rd s (i + 2)) (rd s (S (i + 2))))).
  - cbn match. cbn [negb andb]. rewrite <- Nat.add_assoc. apply (Hnext 4%nat). lia.
  - cbn match. destruct (td_fatal st) eqn:Ef; [reflexivity|]. apply (Hnext 2%nat). lia.
Qed.
End utf16_run.

(** ** The abstract decoder

    One function from the undecoded bytes to the output, the byte-order-mark
    flag and the bytes held back; [td_decode] implements it. *)

Definition is_be (enc : td_encoding_t) : bool :=
  if decide (enc = TD_ENC_UTF16BE) then true else false.

Section adec.
Context {U : Utf8proc}.

(** One code point per byte, for the two table encodings. *)
Definition byte_cp (enc : td_encoding_t) (b : Z) : Z :=
  if decide (enc = TD_ENC_WINDOWS_1252) then decode_windows_1252_byte b
  else decode_iso_8859_2_byte b.

Definition adec (enc : td_encoding_t) (fatal stream ignore bom : bool) (l : list Z)
  : option (list Z) * bool * list Z :=
  match enc with
  | TD_ENC_UTF8 => run0 jump_at utf8_eof fatal stream ignore bom l
  | TD_ENC_UTF16LE | TD_ENC_UTF16BE =>
      match l with
      | [] => (Some [], bom, [])
      | x :: t =>
          if bom then run0 (ujump (is_be enc)) ueof fatal stream ignore true l
          else match t with
          | [] => if stream then (Some [], false, l)
                  else if fatal then (None, false, []) else (Some FFFD, false, [])
          | y :: t2 =>
              run0 (ujump (is_be enc)) ueof fatal stream ignore true
                (if (read2 (is_be enc) x y =? 0xFEFF) && negb ignore then t2 else l)
          end
      end
  | TD_ENC_WINDOWS_1252 | TD_ENC_ISO_8859_2 =>
      (Some (concat (map (fun b => utf8proc_encode_char (byte_cp enc b)) l)), bom, [])
  end.

Lemma run_bom_true jf eof fatal stream ignore fuel : forall l out,
  (run jf eof fatal stream ignore fuel true l out).1.2 = true.
Proof.
  induction fuel as [|fuel IH]; intros l out; cbn [run]; [reflexivity|].
  destruct (decide _); [reflexivity|]. destruct (jf l); auto.
  - destruct fatal; auto.
  - destruct stream; [|destruct fatal]; reflexivity.
Qed.

Lemma adec_utf16_true enc fatal stream ignore l :
  enc = TD_ENC_UTF16LE \/ enc = TD_ENC_UTF16BE ->
  adec enc fatal stream ignore true l =
  run0 (ujump (is_be enc)) ueof fatal stream ignore true l.
Proof. intros [-> | ->]; cbn [adec]; destruct l; reflexivity. Qed.

Lemma adec_utf16_split enc fatal stream ignore bom a b :
  enc = TD_ENC_UTF16LE \/ enc = TD_ENC_UTF16BE ->
  adec enc fatal stream ignore bom (a ++ b) =
  match adec enc fatal true ignore bom a with
  | (Some o, bom', pend) => pre o (adec enc fatal stream ignore bom' (pend ++ b))
  | r => r
  end.
Proof.
  intros He.
  assert (Hsplit : forall a, run0 (ujump (is_be enc)) ueof fatal stream ignore true (a ++ b) =
    match run0 (ujump (is_be enc)) ueof fatal true ignore true a with
    | (Some o, bom', pend) => pre o (adec enc fatal stream ignore bom' (pend ++ b))
    | r => r
    end).
  { intros l. rewrite (run0_split _ _ fatal stream ignore b (S (length l))) by lia.
    pose proof (run_bom_true (ujump (is_be enc)) ueof fatal true ignore (S (length l)) l []) as Hb.
    fold (run0 (ujump (is_be enc)) ueof fatal true ignore true l) in Hb.
    destruct (run0 _ _ fatal true ignore true l) as [[[o|] bom'] pend]; [|reflexivity].
    cbn in Hb. subst bom'. rewrite (adec_utf16_true enc _ _ _ _ He). reflexivity. }
  destruct bom.
  { rewrite !adec_utf16_true by exact He. apply Hsplit. }
  destruct a as [|x [|y t]].
  - destruct He as [-> | ->]; cbn [adec app]; rewrite pre_nil; reflexivity.
  - destruct He as [-> | ->]; cbn [adec app]; rewrite pre_nil; reflexivity.
  - destruct He as [-> | ->]; cbn [adec app]; case_if; apply Hsplit || apply (Hsplit (x :: y :: t)).
Qed.

(** Decoding is insensitive to where the input is cut. *)
Lemma adec_split enc fatal stream ignore bom a b :
  adec enc fatal stream ignore bom (a ++ b) =
  match adec enc fatal true ignore bom a with
  | (Some o, bom', pend) => pre o (adec enc fatal stream ignore bom' (pend ++ b))
  | r => r
  end.
Proof.
  destruct enc; try (apply adec_utf16_split; solve [auto]).
  - cbn [adec]. apply (run0_split _ _ fatal stream ignore b (S (length a))). lia.
  - cbn [adec pre option_map app]. rewrite map_app, concat_app. reflexivity.
  - cbn [adec pre option_map app]. rewrite map_app, concat_app. reflexivity.
Qed.

(** ** [td_decode] implements it *)

Definition is_table (enc : td_encoding_t) : bool :=
  match enc with TD_ENC_WINDOWS_1252 | TD_ENC_ISO_8859_2 => true | _ => false end.

(** State invariant: the held back bytes fit the array; table encodings hold
    nothing back. *)
Definition td_ok (st : td_state_t) : Prop :=
  length (pending st) = 4%nat /\ (pending_len st <= 3)%nat /\
  (is_table (td_encoding st) = true -> td_bom_seen st = false /\ pending_len st = 0%nat).

Definition td_pend (st : td_state_t) : list Z := take (pending_len st) (pending st).

Definition same_config (st st' : td_state_t) : Prop :=
  td_encoding st' = td_encoding st /\ td_fatal st' = td_fatal st /\
  td_ignore_bom st' = td_ignore_bom st.

Lemma pend_fits (old p : list Z) : length old = 4%nat -> (length p <= 3)%nat ->
  length (p ++ drop (length p) old) = 4%nat /\ take (length p) (p ++ drop (length p) old) = p.
Proof. intros Ho Hp. rewrite length_app, length_drop, take_app_length. split; [lia|reflexivity]. Qed.

Lemma ujump_trunc_length be l : ujump be l = J_trunc -> (length l <= 3)%nat.
Proof.
  destruct l as [|x [|y [|z [|w t]]]]; cbn [ujump length]; try lia.
  destruct (negb _ && _); [discriminate|]. destruct (U16_IS_LOW (read2 be x y)); [discriminate|].
  destruct (U16_IS_LOW (read2 be z w)); discriminate.
Qed.

Lemma run_pend jf eof fatal stream ignore fuel : (forall l, jf l = J_trunc -> (length l <= 3)%nat) ->
  forall bom l out, (length (run jf eof fatal stream ignore fuel bom l out).2 <= 3)%nat /\
    (stream = false -> (run jf eof fatal stream ignore fuel bom l out).2 = []).
Proof.
  intros Hj. induction fuel as [|fuel IH]; intros bom l out; cbn [run]; [cbn; auto with lia|].
  destruct (decide _); [cbn; auto with lia|]. destruct (jf l) eqn:J; auto.
  - destruct fatal; [cbn; auto with lia|auto].
  - destruct stream; [cbn; split; [auto|discriminate]|]. destruct fatal; cbn; auto with lia.
Qed.
End adec.

Section td_decode_proofs.
Context {U : Utf8proc} (malloc_ok : Z -> bool) (Hm : forall n, malloc_ok n = true).

Definition td_result (r : option (list Z)) : result (list Z) :=
  match r with
  | Some o => Ok o
  | None => Err JS_ERR_TYPE "The encoded data was not valid."
  end.

(** What one call of [td_decode] does, in terms of the abstract decoder. *)
Definition td_decode_spec (st : td_state_t) (input : list Z) (stream : bool) : Prop :=
  let '(r, bom', p) := adec (td_encoding st) (td_fatal st) stream (td_ignore_bom st)
                         (td_bom_seen st) (td_pend st ++ input) in
  let '(res, st') := td_decode malloc_ok st input stream in
  res = td_result r /\ same_config st st' /\ td_ok st' /\
  (stream = true -> r <> None -> td_bom_seen st' = bom' /\ td_pend st' = p) /\
  (stream = false -> r <> None -> td_bom_seen st' = false /\ td_pend st' = []).

Lemma td_src_length st input : td_ok st ->
  length (td_pend st ++ input) = (pending_len st + length input)%nat.
Proof.
  intros (H4 & Hl & _). unfold td_pend. rewrite length_app, length_take. lia.
Qed.

Lemma adec_nil enc fatal stream ignore bom : adec enc fatal stream ignore bom [] = (Some [], bom, []).
Proof. destruct enc; reflexivity. Qed.

Lemma td_decode_empty st input stream : td_ok st -> (pending_len st + length input = 0)%nat ->
  td_decode_spec st input stream.
Proof.
  intros Hok H0. unfold td_decode_spec, td_decode.
  destruct (Nat.eqb_spec (pending_len st + length input) 0); [|lia].
  assert (td_pend st = []) as Hp by (unfold td_pend; replace (pending_len st) with 0%nat by lia; reflexivity).
  assert (input = []) as -> by (destruct input; [reflexivity|cbn in H0; lia]).
  rewrite Hp, adec_nil. destruct Hok as (H4 & Hl & Ht).
  destruct stream; unfold same_config, td_ok, td_pend in *; cbn; splits; auto; try discriminate.
  intros H. split; [reflexivity|]. apply Ht. exact H.
Qed.

Lemma td_decode_table st input stream : td_ok st -> is_table (td_encoding st) = true ->
  td_decode_spec st input stream.
Proof using Hm.
  intros Hok Ht. destruct (Nat.eq_dec (pending_len st + length input) 0) as [E|E];
    [apply td_decode_empty; auto|].
  destruct Hok as (H4 & Hl & Hb). destruct (Hb Ht) as [Hb1 Hb2].
  unfold td_decode_spec, td_decode. rewrite !Hm. cbn [negb andb]. rewrite andb_false_r.
  destruct (Nat.eqb_spec (pending_len st + length input) 0); [lia|].
  destruct st as [enc pend k fatal ign bom]. cbn in H4, Hl, Hb1, Hb2, Ht. subst k bom.
  unfold td_pend, same_config, td_ok. cbn [td_encoding set_td pending pending_len td_bom_seen].
  destruct enc; try discriminate; destruct stream; cbn; splits; auto; lia || discriminate.
Qed.

Lemma td_decode_utf8 st input stream : td_ok st -> td_encoding st = TD_ENC_UTF8 ->
  td_decode_spec st input stream.
Proof using Hm.
  intros Hok He. destruct (Nat.eq_dec (pending_len st + length input) 0) as [E|E];
    [apply td_decode_empty; auto|].
  pose proof (td_src_length st input Hok) as Hlen. destruct Hok as (H4 & Hl & _).
  unfold td_decode_spec, td_decode. rewrite !Hm. cbn [negb andb]. rewrite andb_false_r.
  destruct (Nat.eqb_spec (pending_len st + length input) 0); [lia|].
  cbn [td_encoding set_td td_fatal td_ignore_bom td_bom_seen]. rewrite He. cbn [adec].
  fold (td_pend st). rewrite <- Hlen.
  pose proof (decode_run (td_fatal st) stream (Utf8Dec (td_ignore_bom st) (td_bom_seen st) [0;0;0] 0)
    (td_pend st ++ input) eq_refl eq_refl) as HD. cbn [ignore_bom bom_seen] in HD.
  fold (run0 jump_at utf8_eof (td_fatal st) stream (td_ignore_bom st) (td_bom_seen st)
    (td_pend st ++ input)) in HD.
  pose proof (run_pend jump_at utf8_eof (td_fatal st) stream (td_ignore_bom st)
    (S (length (td_pend st ++ input))) jump_trunc_length (td_bom_seen st)
    (td_pend st ++ input) []) as HP.
  fold (run0 jump_at utf8_eof (td_fatal st) stream (td_ignore_bom st) (td_bom_seen st)
    (td_pend st ++ input)) in HP.
  destruct (utf8_whatwg_decode _ _ _ _ _) as [res dec].
  destruct (run0 jump_at _ _ _ _ _ _) as [[r bom'] p]. cbn in HP. destruct HP as [HP1 HP2].
  destruct HD as [-> (_ & HD2 & HD3 & HD4 & _)]. rewrite HD4, HD3.
  destruct (pend_fits (pending st) p H4 HP1) as [F1 F2].
  destruct r as [o|]; cbn [td_encoding set_td]; [destruct (decide _) as [Hd|_]; [congruence|]|];
    unfold same_config, td_ok, td_pend; cbn; rewrite ?He; splits; auto; try congruence; try discriminate.
  - intros -> _. auto.
  - intros -> _. rewrite F2. auto.
Qed.

Lemma after_utf16_ok st p : length (pending st) = 4%nat -> pending_len st = 0%nat ->
  (length p <= 3)%nat ->
  let st' := after_utf16 st p in
  length (pending st') = 4%nat /\ pending_len st' = length p /\ td_pend st' = p /\
  td_bom_seen st' = td_bom_seen st /\ same_config st st'.
Proof.
  intros H4 H0 Hp. unfold after_utf16, same_config, td_pend. destruct p as [|x p].
  - rewrite H0. splits; auto.
  - cbn [set_pend set_td pending pending_len td_bom_seen td_encoding td_fatal td_ignore_bom].
    destruct (pend_fits (pending st) (x :: p) H4 Hp) as [F1 F2]. splits; auto.
Qed.

Lemma utf16_decode_ok st l stream :
  length (pending st) = 4%nat -> pending_len st = 0%nat -> l <> [] ->
  td_encoding st = TD_ENC_UTF16LE \/ td_encoding st = TD_ENC_UTF16BE ->
  let '(r, bom', p) := adec (td_encoding st) (td_fatal st) stream (td_ignore_bom st)
                         (td_bom_seen st) l in
  exists b, utf16_decode st l (length l) stream =
            (r, after_utf16 (set_td st (pending st) 0 b) p) /\
            (r <> None -> b = bom') /\ (length p <= 3)%nat /\ (stream = false -> p = []).
Proof.
  intros H4 H0 Hne He. set (be := is_be (td_encoding st)).
  assert (Hst : set_td st (pending st) 0 (td_bom_seen st) = st) by (destruct st; cbn in *; subst; auto).
  assert (Hgo : forall st0 fuel i, td_fatal st0 = td_fatal st -> (i <= length l)%nat ->
    (length (drop i l) < fuel)%nat ->
    let '(r, bom', p) := run0 (ujump be) ueof (td_fatal st) stream (td_ignore_bom st) true (drop i l) in
    utf16_loop fuel st0 be l (length l) i [] stream = (r, after_utf16 st0 p) /\ bom' = true /\
    (length p <= 3)%nat /\ (stream = false -> p = [])).
  { intros st0 fuel i Hf Hi Hfu.
    pose proof (utf16_loop_run be stream (td_ignore_bom st) fuel st0 l i [] Hi) as HL. rewrite Hf in HL.
    rewrite (run_run0 (ujump be) ueof) in HL by exact Hfu. rewrite pre_nil in HL.
    pose proof (run_bom_true (ujump be) ueof (td_fatal st) stream (td_ignore_bom st)
      (S (length (drop i l))) (drop i l) []) as HB.
    pose proof (run_pend (ujump be) ueof (td_fatal st) stream (td_ignore_bom st)
      (S (length (drop i l))) (ujump_trunc_length be) true (drop i l) []) as HP.
    fold (run0 (ujump be) ueof (td_fatal st) stream (td_ignore_bom st) true (drop i l)) in HB, HP.
    destruct (run0 _ _ _ _ _ _ _) as [[r bom'] p]. cbn in HB, HP. tauto. }
  unfold utf16_decode. fold (is_be (td_encoding st)). fold be.
  destruct (td_bom_seen st) eqn:Hb; cbn [negb].
  - rewrite adec_utf16_true by exact He. fold be.
    specialize (Hgo st (S (length l)) 0%nat eq_refl ltac:(lia) ltac:(rewrite drop_0; lia)). rewrite drop_0 in Hgo.
    destruct (run0 _ _ _ _ _ _ _) as [[r bom'] p]. destruct Hgo as (HG & -> & HG2 & HG3).
    exists true. rewrite Hst. auto.
  - destruct l as [|x [|y t]]; [congruence| |].
    + assert (Ea : adec (td_encoding st) (td_fatal st) stream (td_ignore_bom st) false [x] =
        if stream then (Some [], false, [x])
        else if td_fatal st then (None, false, []) else (Some FFFD, false, []))
        by (destruct He as [-> | ->]; reflexivity).
      rewrite Ea. unfold utf16_pend_tail. cbn [length].
      destruct stream; [|destruct (td_fatal st)]; exists false; rewrite Hst; cbn; splits; auto;
        try lia; discriminate.
    + set (i := if (u16_read (x :: y :: t) 0 be =? 0xFEFF) && negb (td_ignore_bom st)
                then 2%nat else 0%nat).
      assert (Ea : adec (td_encoding st) (td_fatal st) stream (td_ignore_bom st) false (x :: y :: t) =
        run0 (ujump be) ueof (td_fatal st) stream (td_ignore_bom st) true (drop i (x :: y :: t))).
      { unfold i. rewrite read2_u16. unfold be. cbn [rd nth].
        destruct He as [-> | ->]; cbn [adec]; case_if; reflexivity. }
      rewrite Ea. destruct (Nat.ltb_spec (length (x :: y :: t)) 2) as [Hx|_]; [cbn in Hx; lia|].
      assert (Hi : (i <= length (x :: y :: t))%nat) by (unfold i; case_if; cbn; lia).
      specialize (Hgo (set_td st (pending st) (pending_len st) true) (S (length (x :: y :: t))) i
        eq_refl Hi ltac:(rewrite length_drop; lia)).
      destruct (run0 _ _ _ _ _ _ _) as [[r bom'] p]. destruct Hgo as (HG & -> & HG2 & HG3).
      exists true. rewrite HG, H0. auto.
Qed.

Lemma td_decode_utf16 st input stream : td_ok st ->
  td_encoding st = TD_ENC_UTF16LE \/ td_encoding st = TD_ENC_UTF16BE ->
  td_decode_spec st input stream.
Proof using Hm.
  intros Hok He. destruct (Nat.eq_dec (pending_len st + length input) 0) as [E|E];
    [apply td_decode_empty; auto|].
  pose proof (td_src_length st input Hok) as Hlen. destruct Hok as (H4 & Hl & _).
  unfold td_decode_spec, td_decode. rewrite !Hm. cbn [negb andb]. rewrite andb_false_r.
  destruct (Nat.eqb_spec (pending_len st + length input) 0); [lia|].
  cbn [td_encoding set_td]. fold (td_pend st). rewrite <- Hlen.
  set (st0 := set_td st (pending st) 0 (td_bom_seen st)).
  assert (Hm2 : match td_encoding st with
    | TD_ENC_UTF16LE | TD_ENC_UTF16BE => utf16_decode st0 (td_pend st ++ input) (length (td_pend st ++ input)) stream
    | TD_ENC_WINDOWS_1252 | TD_ENC_ISO_8859_2 =>
        (Some (decode_single_byte st0 (td_pend st ++ input)), set_td st0 (pending st0) 0 false)
    | TD_ENC_UTF8 =>
        let '(n, dec) := utf8_whatwg_decode (td_fatal st0) stream
          (Utf8Dec (td_ignore_bom st0) (td_bom_seen st0) [0; 0; 0] 0) (td_pend st ++ input)
          (length (td_pend st ++ input)) in
        (n, set_td st0 (take (pend_pos dec) (pend_buf dec) ++ drop (pend_pos dec) (pending st0))
              (pend_pos dec) (if stream then bom_seen dec else false))
    end = utf16_decode st0 (td_pend st ++ input) (length (td_pend st ++ input)) stream)
    by (destruct He as [-> | ->]; reflexivity).
  rewrite Hm2.
  assert (Hne : td_pend st ++ input <> []).
  { intros X. apply (f_equal length) in X. cbn in X. lia. }
  pose proof (utf16_decode_ok st0 (td_pend st ++ input) stream H4 eq_refl Hne He) as HU.
  change (td_encoding st0) with (td_encoding st) in HU.
  change (td_fatal st0) with (td_fatal st) in HU.
  change (td_ignore_bom st0) with (td_ignore_bom st) in HU.
  change (td_bom_seen st0) with (td_bom_seen st) in HU.
  destruct (adec _ _ _ _ _ _) as [[r bom'] p]. destruct HU as (b & -> & HU1 & HU2 & HU3).
  destruct (after_utf16_ok (set_td st0 (pending st0) 0 b) p H4 eq_refl HU2)
    as (A1 & A2 & A3 & A4 & (A5 & A6 & A7)).
  set (st1 := after_utf16 _ p) in *. cbn in A4, A5, A6, A7.
  assert (Htab : is_table (td_encoding st) = false) by (destruct He as [-> | ->]; reflexivity).
  destruct r as [o|].
  - destruct (decide (td_encoding st1 <> TD_ENC_UTF8)) as [_|X];
      [|exfalso; apply X; rewrite A5; destruct He as [-> | ->]; discriminate].
    specialize (HU1 ltac:(discriminate)). subst bom'.
    destruct stream; unfold same_config, td_ok; cbn; splits; auto; try discriminate; try lia;
      try (rewrite A5, Htab; discriminate).
    intros _ _. split; [reflexivity|]. unfold td_pend. cbn. fold (td_pend st1).
    rewrite A3. apply HU3. reflexivity.
  - unfold same_config, td_ok; cbn; splits; auto; try discriminate; try lia; try congruence.
Qed.

Lemma td_decode_ok st input stream : td_ok st -> td_decode_spec st input stream.
Proof using Hm.
  intros Hok. destruct (td_encoding st) eqn:E.
  - apply td_decode_utf8; auto.
  - apply td_decode_utf16; auto.
  - apply td_decode_utf16; auto.
  - apply td_decode_table; [auto|rewrite E; reflexivity].
  - apply td_decode_table; [auto|rewrite E; reflexivity].
Qed.
End td_decode_proofs.

(** ** Output *)

Lemma read2_range be x y : 0 <= read2 be x y < 2 ^ 16.
Proof. unfold read2. destruct be; apply wrap_range; lia. Qed.

Lemma u16_pair_combine hi lo : U16_IS_HIGH hi = true -> U16_IS_LOW lo = true ->
  U16_PAIR hi lo = combine_pair hi lo /\ 0x10000 <= combine_pair hi lo < 0x110000.
Proof.
  unfold U16_IS_HIGH, U16_IS_LOW. intros H1 H2. boolprop.
  destruct (pair_cp hi lo) as [E R]; [lia|lia|]. split; [|exact R]. rewrite <- E.
  unfold U16_PAIR. rewrite (wrap_small 32 (lo - 0xDC00)) by lia. reflexivity.
Qed.

Lemma unit_scalar cu : 0 <= cu < 2 ^ 16 -> U16_IS_HIGH cu = false -> U16_IS_LOW cu = false ->
  is_scalar cu = true /\ (length (utf8_enc cu) <= 3)%nat.
Proof.
  unfold U16_IS_HIGH, U16_IS_LOW. intros Hr H1 H2. split; [unfold is_scalar; lia|].
  unfold utf8_enc. case_ifs; cbn; lia.
Qed.

#[export] Instance utf16_jump_sound be : JumpSound (ujump be) ueof.
Proof.
  split.
  - intros l b _. destruct l as [|x [|y t]]; cbn [ujump]; try discriminate.
    destruct (negb _ && _); [discriminate|]. destruct (U16_IS_LOW _); [discriminate|].
    destruct t as [|z [|w t]]; try discriminate. destruct (U16_IS_LOW _); discriminate.
  - intros l cp n _. destruct l as [|x [|y t]]; cbn [ujump]; try discriminate.
    pose proof (read2_range be x y) as Hr. set (cu := read2 be x y) in *.
    destruct (U16_IS_HIGH cu) eqn:Hh, (U16_IS_LOW cu) eqn:Hl; cbn [negb andb]; try discriminate.
    + destruct t as [|z [|w t]]; try discriminate. destruct (U16_IS_LOW (read2 be z w)) eqn:Hl2;
        [|discriminate]. destruct (u16_pair_combine cu (read2 be z w) Hh Hl2) as [-> R].
      intros [= <- <-]. pose proof (utf8_enc_length (combine_pair cu (read2 be z w))).
      split; [unfold is_scalar; lia|lia].
    + intros [= <- <-]. destruct (unit_scalar cu Hr Hh Hl). split; [auto|lia].
  - intros l Hne J. apply ujump_trunc_length in J. unfold ueof.
    destruct (Nat.eqb_spec (length l) 3) as [E|].
    + split; [apply valid_utf8_app; apply valid_FFFD|]. rewrite E. cbn. lia.
    + split; [apply valid_FFFD|]. destruct l; [congruence|cbn; lia].
Qed.

(** Every byte of a table encoding is a character of the basic plane. *)
Lemma byte_cp_scalar enc b : is_byte b ->
  is_scalar (byte_cp enc b) = true /\ (length (utf8_enc (byte_cp enc b)) <= 3)%nat.
Proof.
  intros Hb. unfold byte_cp. destruct (decide _).
  - by_bytes b (fun b => is_scalar (decode_windows_1252_byte b) &&
      (length (utf8_enc (decode_windows_1252_byte b)) <=? 3)%nat). boolprop. auto.
  - by_bytes b (fun b => is_scalar (decode_iso_8859_2_byte b) &&
      (length (utf8_enc (decode_iso_8859_2_byte b)) <=? 3)%nat). boolprop. auto.
Qed.

Section output.
Context {U : Utf8proc} {HU : Utf8procSpec U}.

Lemma table_out_spec enc l : bytes l ->
  concat (map (fun b => utf8proc_encode_char (byte_cp enc b)) l) = utf8_of (map (byte_cp enc) l).
Proof using HU.
  intros Hb. unfold utf8_of. rewrite map_map. f_equal. apply map_ext_Forall.
  eapply Forall_impl; [exact Hb|]. intros b Hx. apply encode_char_spec.
  destruct (byte_cp_scalar enc b Hx) as [Hs _]. apply scalar_range in Hs. lia.
Qed.

Lemma adec_sound enc fatal stream ignore bom l : bytes l ->
  match adec enc fatal stream ignore bom l with
  | (Some o, _, _) => valid_utf8 o /\ (length o <= 3 * length l)%nat
  | (None, _, _) => fatal = true
  end.
Proof using HU.
  intros Hb.
  assert (H16 : forall be l bom, bytes l ->
    match run0 (ujump be) ueof fatal stream ignore bom l with
    | (Some o, _, _) => valid_utf8 o /\ (length o <= 3 * length l)%nat
    | (None, _, _) => fatal = true
    end).
  { intros be l0 b0 Hb0. apply (run0_sound (ujump be) ueof fatal stream ignore (S (length l0))); auto. }
  assert (Hu : enc = TD_ENC_UTF16LE \/ enc = TD_ENC_UTF16BE ->
    match adec enc fatal stream ignore bom l with
    | (Some o, _, _) => valid_utf8 o /\ (length o <= 3 * length l)%nat
    | (None, _, _) => fatal = true
    end).
  { intros He. assert (match l with [] => True | x :: t => bytes t end) as Ht by (inversion Hb; auto).
    destruct l as [|x [|y t]].
    - destruct He as [-> | ->]; cbn; auto using valid_utf8_nil.
    - destruct bom; [rewrite adec_utf16_true by exact He; apply H16; exact Hb|].
      destruct He as [-> | ->]; cbn [adec]; destruct stream, fatal; auto using valid_utf8_nil;
        split; auto using valid_utf8_nil, valid_FFFD; cbn; lia.
    - destruct bom; [rewrite adec_utf16_true by exact He; apply H16; exact Hb|].
      set (l2 := if (read2 (is_be enc) x y =? 0xFEFF) && negb ignore then t else x :: y :: t).
      assert (Hs : bytes l2) by (unfold l2; case_if; [inversion Ht; auto|exact Hb]).
      assert (Hl : (length l2 <= length (x :: y :: t))%nat) by (unfold l2; case_if; cbn; lia).
      specialize (H16 (is_be enc) l2 true Hs).
      assert (Ea : adec enc fatal stream ignore false (x :: y :: t) =
                   run0 (ujump (is_be enc)) ueof fatal stream ignore true l2)
        by (unfold l2; destruct He as [-> | ->]; reflexivity).
      rewrite Ea. destruct (run0 _ _ _ _ _ _ _) as [[[o|] b] p]; auto. destruct H16. split; auto. lia. }
  assert (Htab : valid_utf8 (concat (map (fun b => utf8proc_encode_char (byte_cp enc b)) l)) /\
    (length (concat (map (fun b => utf8proc_encode_char (byte_cp enc b)) l)) <= 3 * length l)%nat).
  { rewrite table_out_spec by exact Hb. split.
    - exists (map (byte_cp enc) l). split; [|reflexivity]. apply Forall_map.
      eapply Forall_impl; [exact Hb|]. intros b Hx. apply byte_cp_scalar. exact Hx.
    - clear - Hb. unfold utf8_of. induction Hb as [|b l Hx _ IH]; [cbn; lia|].
      cbn [map concat length]. rewrite length_app. destruct (byte_cp_scalar enc b Hx). lia. }
  destruct enc; [|apply Hu; auto|apply Hu; auto|exact Htab|exact Htab].
  apply (run0_sound jump_at utf8_eof fatal stream ignore (S (length l))); auto.
Qed.
End output.

(** ** UTF-16 input *)

(** The bytes of a sequence of code units. *)
Definition unit_bytes (be : bool) (u : Z) : list Z :=
  if be then [u / 256; u mod 256] else [u mod 256; u / 256].
Definition utf16_bytes (be : bool) (us : list Z) : list Z := concat (map (unit_bytes be) us).

Definition is_unit (u : Z) : Prop := 0 <= u < 2 ^ 16.

(** No surrogate stands alone. *)
Fixpoint paired (us : list Z) : bool :=
  match us with
  | [] => true
  | u :: t =>
      if is_high u then match t with v :: t2 => is_low v && paired t2 | [] => false end
      else if is_low u then false
      else paired t
  end.

Lemma read2_unit be u t : is_unit u ->
  exists x y, unit_bytes be u ++ t = x :: y :: t /\ read2 be x y = u.
Proof.
  unfold is_unit. intros Hu.
  assert (E : u16 (((u / 256) .<< 8) .| (u mod 256)) = u).
  { rewrite (lor_shiftl_add (u / 256) (u mod 256) 8) by (try apply Z.mod_pos_bound; lia).
    change (2 ^ 8) with 256. rewrite wrap_small; Z.to_euclidean_division_equations; lia. }
  destruct be; eexists _, _; (split; [reflexivity|exact E]).
Qed.

Lemma run0_units {U : Utf8proc} {HU : Utf8procSpec U} be fatal ignore n : forall us,
  (length us < n)%nat -> Forall is_unit us ->
  run0 (ujump be) ueof fatal false ignore true (utf16_bytes be us) =
  if fatal && negb (paired us) then (None, true, []) else (Some (utf8_of (usv us)), true, []).
Proof.
  induction n as [|n IH]; intros us Hn Hus; [lia|]. rewrite (run0_step (ujump be) ueof).
  destruct Hus as [|u t Hu Ht]; [rewrite andb_false_r; reflexivity|]. cbn [length] in Hn.
  unfold utf16_bytes. cbn [map concat]. fold (utf16_bytes be t).
  destruct (read2_unit be u (utf16_bytes be t) Hu) as (x & y & -> & Hr).
  destruct (decide _) as [|_]; [congruence|]. cbn [ujump]. rewrite Hr.
  unfold is_unit in Hu. cbn [paired usv].
  change (U16_IS_HIGH u) with (is_high u). change (U16_IS_LOW u) with (is_low u).
  assert (Hcons : forall cp us', utf8_of (cp :: us') = utf8_enc cp ++ utf8_of us') by reflexivity.
  assert (Herr : (if fatal then (None, true, [])
                  else pre FFFD (run0 (ujump be) ueof fatal false ignore true (utf16_bytes be t))) =
                 if fatal && true then (None, true, []) else (Some (utf8_of (0xFFFD :: usv t)), true, [])).
  { destruct fatal; [reflexivity|]. rewrite IH by (auto; lia). cbn [andb]. reflexivity. }
  destruct (is_high u) eqn:Hh.
  - assert (Hlow : is_low u = false) by (unfold is_high, is_low in *; lia).
    rewrite Hlow. cbn [negb andb].
    destruct Ht as [|v t Hv Ht].
    { cbn. unfold ueof. cbn. destruct fatal; reflexivity. }
    unfold utf16_bytes. cbn [map concat]. fold (utf16_bytes be t).
    destruct (read2_unit be v (utf16_bytes be t) Hv) as (z & w & E & Hr2). rewrite E, Hr2.
    change (U16_IS_LOW v) with (is_low v). destruct (is_low v) eqn:Hlv.
    + cbn [drop andb]. destruct (u16_pair_combine u v Hh Hlv) as [-> R].
      rewrite encode_char_spec by lia. rewrite drop_0. cbn [length] in Hn.
      rewrite IH by (auto; lia).
      destruct (fatal && negb (paired t)); [reflexivity|]. rewrite Hcons. reflexivity.
    + cbn [drop andb negb]. rewrite <- E. exact Herr.
  - destruct (is_low u) eqn:Hl; cbn [negb andb drop]; rewrite ?drop_0; [exact Herr|].
    rewrite encode_char_spec by lia. rewrite IH by (auto; lia).
    destruct (fatal && negb (paired t)); [reflexivity|]. rewrite Hcons. reflexivity.
Qed.

(** ** Streams of chunks *)

(** A sequence of [decode(chunk, {stream: true})] calls and a last call
    without the flag, concatenating the outputs. *)
Fixpoint td_stream {U : Utf8proc} (malloc_ok : Z -> bool) (st : td_state_t) (chunks : list (list Z))
  (last : list Z) : result (list Z) * td_state_t :=
  match chunks with
  | [] => td_decode malloc_ok st last false
  | c :: cs =>
      match td_decode malloc_ok st c true with
      | (Ok o, st) =>
          match td_stream malloc_ok st cs last with
          | (Ok o2, st) => (Ok (o ++ o2), st)
          | r => r
          end
      | r => r
      end
  end.

Lemma td_stream_adec {U : Utf8proc} malloc_ok last chunks :
  (forall n, malloc_ok n = true) -> forall st, td_ok st ->
  (td_stream malloc_ok st chunks last).1 =
  td_result (adec (td_encoding st) (td_fatal st) false (td_ignore_bom st) (td_bom_seen st)
               (td_pend st ++ concat chunks ++ last)).1.1.
Proof.
  intros Hm. induction chunks as [|c cs IH]; intros st Hok; cbn [td_stream concat app].
  - pose proof (td_decode_ok malloc_ok Hm st last false Hok) as H. unfold td_decode_spec in H.
    destruct (adec _ _ _ _ _ _) as [[r bom'] p]. destruct (td_decode _ _ _ _) as [res st'].
    apply H.
  - pose proof (td_decode_ok malloc_ok Hm st c true Hok) as H. unfold td_decode_spec in H.
    rewrite <- app_assoc, app_assoc, adec_split.
    destruct (adec _ _ true _ _ _) as [[r bom'] p]. destruct (td_decode _ _ c true) as [res st'].
    destruct H as (-> & (C1 & C2 & C3) & Hok' & Hst & _). destruct r as [o|]; [|reflexivity].
    destruct (Hst eq_refl ltac:(discriminate)) as [B1 B2]. cbn [td_result].
    specialize (IH st' Hok'). rewrite C1, C2, C3, B1, B2 in IH.
    destruct (adec _ _ false _ bom' _) as [[r2 b2] p2].
    destruct (td_stream malloc_ok st' cs last) as [res2 st2]. cbn in IH. subst res2.
    destruct r2; reflexivity.
Qed.

(** C32: splitting the input into chunks does not change what [TextDecoder]
    produces, when memory is granted: for every encoding, every well-formed
    decoder state and every way of cutting the bytes, the concatenated outputs
    of the streaming calls, or the error, equal those of one call on the whole
    input. *)
Theorem chunked_decode {U : Utf8proc} malloc_ok st chunks last :
  (forall n, malloc_ok n = true) -> td_ok st ->
  (td_stream malloc_ok st chunks last).1 =
  (td_decode malloc_ok st (concat chunks ++ last) false).1.
Proof.
  intros Hm Hok. rewrite td_stream_adec by assumption.
  pose proof (td_decode_ok malloc_ok Hm st (concat chunks ++ last) false Hok) as H.
  unfold td_decode_spec in H. destruct (adec _ _ _ _ _ _) as [[r bom'] p].
  destruct (td_decode _ _ _ _) as [res st']. symmetry. apply H.
Qed.

Lemma td_state_new_ok enc fatal ignore : td_ok (td_state_new enc fatal ignore).
Proof. unfold td_ok. cbn. splits; auto. Qed.

Lemma chunked_decode_witness :
  (td_stream (fun _ => true) (td_state_new TD_ENC_UTF8 false false) [[0xE2]; [0x82]] [0xAC; 0xFF]).1 =
  Ok [0xE2; 0x82; 0xAC; 0xEF; 0xBF; 0xBD].
Proof.
  rewrite (chunked_decode (fun _ => true) (td_state_new TD_ENC_UTF8 false false) [[0xE2]; [0x82]]
    [0xAC; 0xFF] (fun _ => eq_refl) (td_state_new_ok _ _ _)).
  vm_compute. reflexivity.
Defined.

(** [td_decode] never writes past its buffer of [3 * total + 1] bytes and
    never returns bytes that are not valid UTF-8, whatever the input, encoding
    and flags; it fails only in fatal mode; its state stays well formed. *)
Theorem td_decode_output {U : Utf8proc} {HU : Utf8procSpec U} malloc_ok st input stream :
  (forall n, malloc_ok n = true) -> td_ok st -> bytes (td_pend st ++ input) ->
  let '(res, st') := td_decode malloc_ok st input stream in
  td_ok st' /\
  match res with
  | Ok out => valid_utf8 out /\ (length out <= 3 * (pending_len st + length input))%nat
  | Err k _ => k = JS_ERR_TYPE /\ td_fatal st = true
  end.
Proof.
  intros Hm Hok Hb. pose proof (td_decode_ok malloc_ok Hm st input stream Hok) as H.
  unfold td_decode_spec in H. rewrite <- (td_src_length st input Hok).
  pose proof (adec_sound (td_encoding st) (td_fatal st) stream (td_ignore_bom st) (td_bom_seen st)
    (td_pend st ++ input) Hb) as HS.
  destruct (adec _ _ _ _ _ _) as [[r bom'] p]. destruct (td_decode _ _ _ _) as [res st'].
  destruct H as (-> & _ & Hok' & _). split; [exact Hok'|]. destruct r; cbn; auto.
Qed.

Lemma td_decode_output_witness :
  (td_decode (fun _ => true) (td_state_new TD_ENC_UTF16LE false false) [0x3D; 0xD8; 0x41] false).1 =
    Ok [0xEF; 0xBF; 0xBD; 0xEF; 0xBF; 0xBD] /\
  valid_utf8 [0xEF; 0xBF; 0xBD; 0xEF; 0xBF; 0xBD].
Proof.
  split; [vm_compute; reflexivity|].
  exact (proj1 (proj2 (td_decode_output (fun _ => true) (td_state_new TD_ENC_UTF16LE false false)
    [0x3D; 0xD8; 0x41] false (fun _ => eq_refl) (td_state_new_ok _ _ _)
    ltac:(repeat constructor; vm_compute; discriminate)))).
Defined.

(** A UTF-8 [TextDecoder] returns valid input unchanged, less a leading
    byte-order mark unless [ignoreBOM]; in fatal mode it reports a TypeError
    exactly on invalid input. *)
Theorem utf8_decode_correct {U : Utf8proc} {HU : Utf8procSpec U} malloc_ok fatal ignore s :
  (forall n, malloc_ok n = true) -> bytes s ->
  let st := td_state_new TD_ENC_UTF8 fatal ignore in
  (forall cps, Forall (fun cp => is_scalar cp = true) cps -> s = utf8_of cps ->
     (td_decode malloc_ok st s false).1 = Ok (utf8_of (strip_bom ignore false cps))) /\
  (fatal = true ->
     (td_decode malloc_ok st s false).1 = Err JS_ERR_TYPE "The encoded data was not valid." <->
     ~ valid_utf8 s).
Proof.
  intros Hm Hb st. pose proof (td_decode_ok malloc_ok Hm st s false (td_state_new_ok _ _ _)) as H.
  unfold td_decode_spec in H. cbn [td_encoding td_fatal td_ignore_bom td_bom_seen st td_state_new
    td_pend pending pending_len take app adec] in H.
  assert (Hval : forall cps, Forall (fun cp => is_scalar cp = true) cps -> s = utf8_of cps ->
     (td_decode malloc_ok st s false).1 = Ok (utf8_of (strip_bom ignore false cps))).
  { intros cps Hs ->. rewrite run0_valid in H by exact Hs.
    destruct (td_decode malloc_ok _ _ _) as [res st']. destruct H as (-> & _). reflexivity. }
  split; [exact Hval|]. intros ->.
  destruct (run0 _ _ _ _ _ _ _) as [[r bom'] p] eqn:R.
  destruct (td_decode malloc_ok _ _ _) as [res st']. destruct H as (-> & _). cbn [fst] in *.
  destruct r as [o|]; cbn [td_result].
  - split; [discriminate|]. intros []. eapply run0_fatal_some; eauto.
  - split; [|reflexivity]. intros _ (cps & Hs & E). specialize (Hval cps Hs E). discriminate.
Qed.

Lemma utf8_decode_correct_witness :
  (td_decode (fun _ => true) (td_state_new TD_ENC_UTF8 true false) [0xEF; 0xBB; 0xBF; 0x41] false).1
  = Ok [0x41].
Proof.
  apply (proj1 (utf8_decode_correct (fun _ => true) true false [0xEF; 0xBB; 0xBF; 0x41]
    (fun _ => eq_refl) ltac:(repeat constructor; vm_compute; discriminate)) [0xFEFF; 0x41]);
    [repeat constructor|reflexivity].
Defined.

(** A UTF-16 [TextDecoder] returns the UTF-8 encoding of the code units'
    scalar values, pairs joined and lone surrogates replaced, less a leading
    byte-order mark; in fatal mode it fails exactly when a surrogate is lone. *)
Theorem utf16_decode_correct {U : Utf8proc} {HU : Utf8procSpec U} malloc_ok (be fatal ignore : bool) us :
  (forall n, malloc_ok n = true) -> Forall is_unit us ->
  let st := td_state_new (if be then TD_ENC_UTF16BE else TD_ENC_UTF16LE) fatal ignore in
  let us' := strip_bom ignore false us in
  (td_decode malloc_ok st (utf16_bytes be us) false).1 =
  if fatal && negb (paired us') then Err JS_ERR_TYPE "The encoded data was not valid."
  else Ok (utf8_of (usv us')).
Proof.
  intros Hm Hus st us'.
  pose proof (td_decode_ok malloc_ok Hm st (utf16_bytes be us) false (td_state_new_ok _ _ _)) as H.
  unfold td_decode_spec in H.
  assert (Ha : (adec (td_encoding st) (td_fatal st) false (td_ignore_bom st) (td_bom_seen st)
                 (td_pend st ++ utf16_bytes be us)).1.1 =
    if fatal && negb (paired us') then None else Some (utf8_of (usv us'))).
  { change (td_pend st ++ utf16_bytes be us) with (utf16_bytes be us).
    change (td_encoding st) with (if be then TD_ENC_UTF16BE else TD_ENC_UTF16LE).
    cbn [td_fatal td_ignore_bom td_bom_seen st td_state_new]. unfold us'.
    destruct Hus as [|u t Hu Ht].
    { destruct be; cbn; rewrite andb_false_r; reflexivity. }
    unfold utf16_bytes. cbn [map concat]. fold (utf16_bytes be t).
    destruct (read2_unit be u (utf16_bytes be t) Hu) as (x & y & E & Hr).
    pose proof (run0_units be fatal ignore (S (length (u :: t))) (u :: t) ltac:(lia)
      ltac:(constructor; auto)) as R1.
    pose proof (run0_units be fatal ignore (S (length t)) t ltac:(lia) Ht) as R2.
    unfold utf16_bytes in R1. cbn [map concat] in R1. fold (utf16_bytes be t) in R1.
    rewrite E in *. cbn [strip_bom negb andb].
    destruct be; cbn [adec]; change (is_be TD_ENC_UTF16BE) with true;
      change (is_be TD_ENC_UTF16LE) with false; rewrite Hr;
      destruct ((u =? 0xFEFF) && negb ignore); rewrite ?R1, ?R2; case_if; reflexivity. }
  destruct (adec _ _ _ _ _ _) as [[r bom'] p]. destruct (td_decode _ _ _ _) as [res st'].
  destruct H as (-> & _). cbn in Ha. rewrite Ha. cbn [fst]. case_if; reflexivity.
Qed.

Lemma utf16_decode_correct_witness :
  (td_decode (fun _ => true) (td_state_new TD_ENC_UTF16LE false false)
     (utf16_bytes false [0xFEFF; 0xD83D; 0xDE00; 0xDC00]) false).1
  = Ok (utf8_of [0x1F600; 0xFFFD]).
Proof.
  apply (utf16_decode_correct (fun _ => true) false false false [0xFEFF; 0xD83D; 0xDE00; 0xDC00]);
    [reflexivity|repeat constructor; vm_compute; discriminate].
Defined.

(** After a successful call without [stream] the decoder is as good as
    new: the next call behaves as on a fresh decoder of the same settings. *)
Theorem decoder_reusable {U : Utf8proc} malloc_ok st input out st' next stream :
  (forall n, malloc_ok n = true) -> td_ok st ->
  td_decode malloc_ok st input false = (Ok out, st') ->
  (td_decode malloc_ok st' next stream).1 =
  (td_decode malloc_ok (td_state_new (td_encoding st) (td_fatal st) (td_ignore_bom st)) next stream).1.
Proof.
  intros Hm Hok E. pose proof (td_decode_ok malloc_ok Hm st input false Hok) as H.
  unfold td_decode_spec in H. rewrite E in H.
  destruct (adec _ _ _ _ _ _) as [[r bom'] p]. destruct H as (Hr & (C1 & C2 & C3) & Hok' & _ & Hf).
  destruct r as [o|]; [|discriminate]. destruct (Hf eq_refl ltac:(discriminate)) as [B1 B2].
  pose proof (td_decode_ok malloc_ok Hm st' next stream Hok') as H1.
  pose proof (td_decode_ok malloc_ok Hm
    (td_state_new (td_encoding st) (td_fatal st) (td_ignore_bom st)) next stream
    (td_state_new_ok _ _ _)) as H2.
  unfold td_decode_spec in H1, H2. rewrite C1, C2, C3, B1, B2 in H1.
  change (td_pend (td_state_new (td_encoding st) (td_fatal st) (td_ignore_bom st))) with (@nil Z) in H2.
  cbn [td_encoding td_fatal td_ignore_bom td_bom_seen td_state_new] in H2.
  destruct (adec _ _ _ _ _ _) as [[r2 b2] p2].
  destruct (td_decode malloc_ok st' next stream), (td_decode malloc_ok (td_state_new _ _ _) next stream).
  destruct H1 as (-> & _), H2 as (-> & _). reflexivity.
Qed.

Lemma decoder_reusable_witness :
  (td_decode (fun _ => true)
     (td_decode (fun _ => true) (td_state_new TD_ENC_UTF8 false false) [0x41; 0xC3] false).2
     [0xEF; 0xBB; 0xBF; 0x42] false).1 = Ok [0x42].
Proof.
  rewrite (decoder_reusable (fun _ => true) (td_state_new TD_ENC_UTF8 false false) [0x41; 0xC3]
    [0x41; 0xEF; 0xBF; 0xBD]
    (td_decode (fun _ => true) (td_state_new TD_ENC_UTF8 false false) [0x41; 0xC3] false).2
    [0xEF; 0xBB; 0xBF; 0x42] false (fun _ => eq_refl)
    (td_state_new_ok _ _ _) ltac:(vm_compute; reflexivity)).
  vm_compute. reflexivity.
Defined.

(** A failed call does not reset a UTF-16 decoder: it keeps the flag that the
    byte-order mark was seen, so the next input's mark is not removed. *)
Lemma utf16_fatal_error_keeps_bom_seen :
  let st := td_state_new TD_ENC_UTF16LE true false in
  let '(r1, st1) := td_decode (fun _ => true) st [0x00; 0xDC] false in
  r1 = Err JS_ERR_TYPE "The encoded data was not valid." /\ td_bom_seen st1 = true /\
  (td_decode (fun _ => true) st1 [0xFF; 0xFE; 0x41; 0x00] false).1 = Ok [0xEF; 0xBB; 0xBF; 0x41] /\
  (td_decode (fun _ => true) st [0xFF; 0xFE; 0x41; 0x00] false).1 = Ok [0x41].
Proof. vm_compute. auto. Qed.

(** ** Labels *)

Lemma resolve_lower s : resolve_encoding (map tolower s) = resolve_encoding s.
Proof.
  unfold resolve_encoding. f_equal. generalize label_map as rows.
  induction rows as [|row rows IH]; [reflexivity|]. cbn [find].
  unfold label_hit at 1 3. rewrite length_map, strncasecmp_lower, IH. reflexivity.
Qed.

Lemma trim_left_spec s : exists a, s = a ++ trim_left s /\ Forall (fun c => c <= 0x20) a /\
  (forall c t, trim_left s = c :: t -> 0x20 < c).
Proof.
  induction s as [|c s (a & E & Ha & Hc)]; cbn [trim_left].
  { exists []. splits; auto; discriminate. }
  destruct (Z.leb_spec c 0x20).
  - exists (c :: a). splits; [rewrite E at 1; reflexivity|constructor; auto|exact Hc].
  - exists []. splits; auto. intros c' t' [= <- _]. lia.
Qed.

Lemma trim_right_spec s n : (n <= length s)%nat ->
  let k := trim_right_len s n in
  (k <= n)%nat /\ (forall i, (k <= i < n)%nat -> rd s i <= 0x20) /\
  (forall i, k = S i -> 0x20 < rd s i).
Proof.
  induction n as [|n IH]; intros Hn; cbn [trim_right_len]; [splits; lia|].
  destruct (Z.leb_spec (rd s n) 0x20) as [H|H].
  - destruct (IH ltac:(lia)) as (H1 & H2 & H3). cbv zeta. splits; [lia| |exact H3].
    intros i Hi. destruct (Nat.eq_dec i n) as [->|]; [exact H|apply H2; lia].
  - cbv zeta. splits; [lia|lia|]. intros i [= <-]. exact H.
Qed.

(** Label lookup ignores case and surrounding whitespace: [trim_label]
    strips exactly the control characters and blanks at both ends, and
    [resolve_encoding] gives a label and its lower-case form the same answer. *)
Theorem label_lookup s :
  resolve_encoding (map tolower (trim_label s)) = resolve_encoding (trim_label s) /\
  exists a b, s = a ++ trim_label s ++ b /\
    Forall (fun c => c <= 0x20) a /\ (forall i, (i < length b)%nat -> rd b i <= 0x20) /\
    (forall c t, trim_label s = c :: t -> 0x20 < c) /\
    (trim_label s <> [] -> 0x20 < rd (trim_label s) (length (trim_label s) - 1)).
Proof.
  split; [apply resolve_lower|]. destruct (trim_left_spec s) as (a & E & Ha & Hc).
  unfold trim_label. set (l := trim_left s) in *.
  destruct (trim_right_spec l (length l) ltac:(lia)) as (H1 & H2 & H3).
  set (k := trim_right_len l (length l)) in *.
  exists a, (drop k l). rewrite take_drop. splits; auto.
  - intros i Hi. rewrite length_drop in Hi. rewrite rd_drop. apply H2. lia.
  - intros c t Et. destruct l as [|c' l']; [rewrite take_nil in Et; discriminate|].
    destruct k; [discriminate|]. injection Et as <- _. eapply Hc. reflexivity.
  - intros Hne. rewrite length_take_le by lia.
    destruct k as [|k'] eqn:Ek; [rewrite take_0 in Hne; congruence|].
    replace (S k' - 1)%nat with k' by lia. specialize (H3 k' eq_refl).
    replace (rd (take (S k') l) k') with (rd l k'); [exact H3|].
    rewrite <- (take_drop (S k') l) at 1. apply rd_app_l. rewrite length_take. lia.
Qed.

(** Two rows give the wrong length for their label and can never match. *)
Lemma unreachable_labels :
  resolve_encoding (str_bytes "x-unicode20utf8") = None /\
  resolve_encoding (str_bytes "iso-10646-ucs-2") = None /\
  In ("x-unicode20utf8"%string, 17%nat, TD_ENC_UTF8) label_map /\
  In ("iso-10646-ucs-2"%string, 16%nat, TD_ENC_UTF16LE) label_map.
Proof. splits; [vm_compute; reflexivity..|cbn; tauto|cbn; tauto]. Qed.

(** ** TextEncoder *)

(** [TextEncoder.encode] returns the UTF-8 encoding of the string's scalar
    values in full: the buffer of [str_len] bytes it allocates is never too
    small for a WTF-8 string. *)
Theorem te_encode_correct {U : Utf8proc} {HU : Utf8procSpec U} malloc_ok SIZE_MAX f cps :
  (forall n, malloc_ok n = true) -> Forall is_cp cps -> fl_bytes f = utf8_of cps ->
  export_ok SIZE_MAX f -> Z.of_nat (length (fl_bytes f)) <= SIZE_MAX ->
  (te_encode malloc_ok f).1 = Ok (utf8_of (usv cps)).
Proof.
  intros Hm Hc Hf Hok Hs. unfold te_encode. rewrite Hm. cbn [negb].
  assert (Hb : bytes (fl_bytes f)) by (rewrite Hf; apply utf8_of_bytes; exact Hc).
  unfold utf8_export_into. destruct (Nat.eqb_spec (length (fl_bytes f)) 0) as [E|E].
  { destruct Hc as [|cp cps Hcp _]; [reflexivity|]. exfalso. rewrite Hf in E. unfold utf8_of in E.
    cbn [map concat] in E. rewrite length_app in E. pose proof (utf8_enc_length cp). lia. }
  pose proof (str_is_valid_export SIZE_MAX f Hok) as Hv. destruct (str_is_valid_utf8 f) as [r f'].
  destruct Hv as (-> & Hb' & _). rewrite Hb'. destruct (_ || _) eqn:V; cbn [negb].
  - assert (Hval : valid_utf8 (fl_bytes f)).
    { apply orb_true_iff in V as [V|V]; [apply all_ascii_valid|apply validate_spec]; auto. }
    rewrite Z.ltb_irrefl, Nat2Z.id, Nat.ltb_irrefl, take_ge by lia. cbn [fst].
    pose proof (full_export_valid SIZE_MAX _ Hval Hs) as He. unfold full_export in He.
    rewrite Hf, (export_cps cps SIZE_MAX Hc) in He by (rewrite <- Hf; exact Hs).
    cbn [fst] in He. rewrite He, Hf. reflexivity.
  - rewrite Hf, export_cps by (auto; lia). reflexivity.
Qed.

Lemma te_encode_correct_witness :
  (te_encode (fun _ => true) (euro_flat [0xED; 0xA0; 0xBD; 0xED; 0xB8; 0x80; 0x41])).1 =
  Ok (utf8_of [0x1F600; 0x41]).
Proof.
  apply (te_encode_correct (fun _ => true) (2 ^ 64 - 1)
    (euro_flat [0xED; 0xA0; 0xBD; 0xED; 0xB8; 0x80; 0x41]) [0xD83D; 0xDE00; 0x41]).
  - reflexivity.
  - repeat constructor; vm_compute; discriminate.
  - vm_compute. reflexivity.
  - apply euro_flat_ok.
  - vm_compute. discriminate.
Defined.
