(* ===== verification/Limbs.v ===== *)
(** * Magnitudes of BigInt values

    The limb arithmetic of [src/src/modules/bigint.c]: magnitudes are arrays of
    32-bit limbs, least significant first.  Loops that run upwards are
    recursions along the list; loops that run downwards recurse first and work
    on the way back.  The [uint64_t] intermediates keep their width ([u64]);
    that none of them ever wraps is part of what is proved.  [lv] is the
    number an array denotes. *)

From S2P Require Import Prelude.

(** ** Denotation and well-formedness *)

Definition B : Z := 2 ^ 32.

Fixpoint lv (l : list Z) : Z :=
  match l with [] => 0 | x :: t => x + B * lv t end.

Definition is_limb (x : Z) : Prop := 0 <= x < B.
Abbreviation limbs := (Forall is_limb).

(** No leading zero limb, and at least one limb. *)
Definition normal (l : list Z) : Prop :=
  l <> [] /\ ((1 < length l)%nat -> rd l (length l - 1) <> 0).

(** ** The code *)

(** [bigint_normalize_limbs]: [while (count > 1 && limbs[count-1] == 0) count--]. *)
Fixpoint norm_count (l : list Z) (count : nat) : nat :=
  match count with
  | S (S _ as n) => if rd l n =? 0 then norm_count l n else count
  | _ => count
  end.

Definition bigint_normalize_limbs (l : list Z) : list Z := take (norm_count l (length l)) l.

Definition limbs_is_zero (l : list Z) : bool := (length l =? 1)%nat && (rd l 0 =? 0).

(** The loop of [bigint_cmp_abs_limbs] from [i] down. *)
Fixpoint cmp_from (a b : list Z) (i : nat) : Z :=
  match i with
  | O => 0
  | S i => if negb (rd a i =? rd b i) then (if rd b i <? rd a i then 1 else -1)
           else cmp_from a b i
  end.

Definition bigint_cmp_abs_limbs (a b : list Z) : Z :=
  let alen := norm_count a (length a) in
  let blen := norm_count b (length b) in
  if negb (alen =? blen)%nat then (if (blen <? alen)%nat then 1 else -1)
  else cmp_from a b alen.

(** [bigint_add_abs_limbs]: [n] limbs from index [i] on, and the last carry. *)
Fixpoint add_loop (n : nat) (a b : list Z) (carry : Z) : list Z * Z :=
  match n with
  | O => ([], carry)
  | S n =>
      let sum := u64 (rd a 0 + rd b 0 + carry) in
      let '(r, c) := add_loop n (drop 1 a) (drop 1 b) (sum .>> 32) in
      (u32 sum :: r, c)
  end.

(** [result] holds one limb more than the returned count when the carry is 0. *)
Definition bigint_add_abs_limbs (a b : list Z) : list Z :=
  let maxlen := if (length b <? length a)%nat then length a else length b in
  let '(r, carry) := add_loop maxlen a b 0 in
  if carry =? 0 then r else r ++ [u32 carry].

(** The loop of [bigint_add_u32_inplace]. *)
Fixpoint add_u32_loop (l : list Z) (carry : Z) : list Z * Z :=
  match l with
  | [] => ([], carry)
  | x :: t =>
      if carry =? 0 then (l, 0)
      else
        let sum := u64 (x + carry) in
        let '(r, c) := add_u32_loop t (sum .>> 32) in
        (u32 sum :: r, c)
  end.

Definition bigint_add_u32_inplace (l : list Z) (capacity : nat) (value : Z) : list Z :=
  let '(r, carry) := add_u32_loop l value in
  bigint_normalize_limbs
    (if negb (carry =? 0) && (length l <? capacity)%nat then r ++ [u32 carry] else r).

(** [bigint_sub_abs_limbs]. *)
Fixpoint sub_loop (a b : list Z) (borrow : Z) : list Z :=
  match a with
  | [] => []
  | da :: a =>
      let subtrahend := u64 (rd b 0 + borrow) in
      if da <? subtrahend
      then u32 (u64 (B + da - subtrahend)) :: sub_loop a (drop 1 b) 1
      else u32 (u64 (da - subtrahend)) :: sub_loop a (drop 1 b) 0
  end.

Definition bigint_sub_abs_limbs (a b : list Z) : list Z := sub_loop a b 0.

(** [bigint_mul_abs_limbs]: the loop [while (carry != 0)] on [result + k]. *)
Fixpoint mul_carry (res : list Z) (carry : Z) : list Z :=
  match res with
  | [] => []
  | r :: res' =>
      if carry =? 0 then res
      else
        let cur := u64 (r + (carry .& 0xffffffff)) in
        u32 cur :: mul_carry res' (u64 ((carry .>> 32) + (cur .>> 32)))
  end.

(** The loop over [j] on [result + i + j], then the carry loop. *)
Fixpoint mul_row (ai : Z) (b res : list Z) (carry : Z) : list Z :=
  match b with
  | [] => mul_carry res carry
  | bj :: b =>
      match res with
      | [] => []
      | r :: res =>
          let prod := u64 (ai * bj) in
          let lo := u64 (r + (prod .& 0xffffffff) + (carry .& 0xffffffff)) in
          u32 lo :: mul_row ai b res (u64 ((prod .>> 32) + (carry .>> 32) + (lo .>> 32)))
      end
  end.

(** The loop over [i] on [result + i]. *)
Fixpoint mul_rows (a b res : list Z) : list Z :=
  match a with
  | [] => res
  | ai :: a =>
      match mul_row ai b res 0 with
      | [] => []
      | r :: res => r :: mul_rows a b res
      end
  end.

Definition bigint_mul_abs_limbs (a b : list Z) : list Z :=
  if (length a =? 1)%nat && (length b =? 1)%nat then
    let product := u64 (rd a 0 * rd b 0) in
    if u32 (product .>> 32) =? 0 then [u32 product] else [u32 product; u32 (product .>> 32)]
  else mul_rows a b (replicate (length a + length b + 1) 0).

(** The limb loop of [bigint_shift_left_abs], also used by the division. *)
Fixpoint shl_loop (l : list Z) (bit_shift carry : Z) : list Z * Z :=
  match l with
  | [] => ([], carry)
  | x :: t =>
      let cur := u64 (x .<< bit_shift) .| carry in
      let '(r, c) := shl_loop t bit_shift (u32 (cur .>> 32)) in
      (u32 cur :: r, c)
  end.

Definition bigint_shift_left_abs (l : list Z) (shift : Z) : list Z :=
  let limb_shift := Z.to_nat (shift .>> 5) in
  let bit_shift := shift .& 31 in
  bigint_normalize_limbs
    (replicate limb_shift 0 ++
     (if bit_shift =? 0 then l
      else let '(r, carry) := shl_loop l bit_shift 0 in r ++ [carry])).

(** The limb loop of [bigint_shift_right_abs], from the top limb down; the
    second result is [cur & mask] of the lowest limb. *)
Fixpoint shr_loop (l : list Z) (bit_shift : Z) : list Z * Z :=
  match l with
  | [] => ([], 0)
  | cur :: t =>
      let '(r, carry) := shr_loop t bit_shift in
      ((cur .>> bit_shift) .| u32 (carry .<< (32 - bit_shift)) :: r,
       cur .& (u32 (1 .<< bit_shift) - 1))
  end.

Definition any_nonzero (l : list Z) : bool := existsb (fun x => negb (x =? 0)) l.

(** [bigint_shift_right_abs]: the limbs and [*truncated]. *)
Definition bigint_shift_right_abs (l : list Z) (shift : Z) : list Z * bool :=
  let limb_shift := shift .>> 5 in
  let bit_shift := shift .& 31 in
  if Z.of_nat (length l) <=? limb_shift then ([0], any_nonzero l)
  else
    let n := Z.to_nat limb_shift in
    let lost := any_nonzero (take n l) in
    if bit_shift =? 0 then (bigint_normalize_limbs (drop n l), lost)
    else
      let lost := lost || negb (rd l n .& (u32 (1 .<< bit_shift) - 1) =? 0) in
      (bigint_normalize_limbs (shr_loop (drop n l) bit_shift).1, lost).

(** [bigint_div_small_inplace]: quotient limbs and remainder. *)
Fixpoint bigint_div_small_inplace (l : list Z) (divisor : Z) : list Z * Z :=
  match l with
  | [] => ([], 0)
  | x :: t =>
      let '(q, rem) := bigint_div_small_inplace t divisor in
      let cur := u64 (rem .<< 32) .| x in
      (u32 (cur / divisor) :: q, cur mod divisor)
  end.

(** [bigint_twos_complement_limb] for the indices from 0 to [width - 1]. *)
Fixpoint twos_complement (width : nat) (l : list Z) (negative : bool) (carry : Z) : list Z :=
  match width with
  | O => []
  | S n =>
      let limb := rd l 0 in
      if negb negative then limb :: twos_complement n (drop 1 l) negative carry
      else
        let cur := u64 ((B - 1 - limb) + carry) in
        u32 cur :: twos_complement n (drop 1 l) negative (cur .>> 32)
  end.

(** [bigint_twos_complement_to_magnitude]: the limbs and [*negative_out]. *)
Definition bigint_twos_complement_to_magnitude (l : list Z) : list Z * bool :=
  let width := length l in
  let negative := negb (rd l (width - 1) .& 0x80000000 =? 0) in
  let l := if negative then twos_complement width l true 1 else l in
  let l := bigint_normalize_limbs l in
  (l, if limbs_is_zero l then false else negative).

(** [__builtin_clz] on a non-zero word, and [bigint_abs_bitlen_limbs]. *)
Definition clz32_nonzero (v : Z) : Z := 31 - Z.log2 v.

Definition bigint_abs_bitlen_limbs (l : list Z) : Z :=
  let count := norm_count l (length l) in
  if (count =? 1)%nat && (rd l 0 =? 0) then 0
  else (Z.of_nat count - 1) * 32 + (32 - clz32_nonzero (rd l (count - 1))).

(** ** Values *)

Lemma B_pos : 0 < B.
Proof. reflexivity. Qed.

Lemma B_pow n : B ^ Z.of_nat (S n) = B * B ^ Z.of_nat n.
Proof. rewrite Nat2Z.inj_succ, Z.pow_succ_r by lia. reflexivity. Qed.

Lemma B_pow_pos n : 0 < B ^ Z.of_nat n.
Proof. apply Z.pow_pos_nonneg; [reflexivity|lia]. Qed.

Lemma lv_app a b : lv (a ++ b) = lv a + B ^ Z.of_nat (length a) * lv b.
Proof.
  induction a as [|x a IH]; [cbn [app lv length]; change (B ^ Z.of_nat 0) with 1; lia|].
  cbn [app lv length]. rewrite IH, B_pow. ring.
Qed.

Lemma lv_range l : limbs l -> 0 <= lv l < B ^ Z.of_nat (length l).
Proof.
  induction 1 as [|x l [H1 H2] _ IH]; [cbn; change (B ^ 0) with 1; lia|].
  cbn [lv length]. rewrite B_pow. pose proof B_pos. nia.
Qed.

(** A list as its first limb (0 past the end) and the rest. *)
Lemma lv_head l : lv l = rd l 0 + B * lv (drop 1 l).
Proof. destruct l; cbn; [lia|]. rewrite drop_0. reflexivity. Qed.

Lemma limbs_head l : limbs l -> is_limb (rd l 0).
Proof. intros H. destruct H; [unfold is_limb; pose proof B_pos; cbn; lia|auto]. Qed.

Lemma limbs_drop n l : limbs l -> limbs (drop n l).
Proof. apply Forall_drop. Qed.

Lemma rd_limb l i : limbs l -> is_limb (rd l i).
Proof.
  intros H. unfold rd. rewrite nth_lookup. destruct (l !! i) eqn:E; cbn.
  - eapply Forall_lookup_1; eauto.
  - unfold is_limb. pose proof B_pos. lia.
Qed.

Lemma u32_limb x : is_limb (u32 x).
Proof. unfold is_limb, B. apply wrap_range. lia. Qed.

Lemma lv_replicate n : lv (replicate n 0) = 0.
Proof. induction n as [|n IH]; cbn [replicate lv]; [reflexivity|]. rewrite IH. lia. Qed.

Lemma limbs_replicate n : limbs (replicate n 0).
Proof. apply Forall_replicate. unfold is_limb. pose proof B_pos. lia. Qed.

(** Splitting a sum into limb and carry. *)
Lemma split_carry x : 0 <= x < 2 ^ 64 -> u32 (u64 x) + B * (u64 x .>> 32) = x.
Proof.
  intros Hx. rewrite (wrap_small 64) by lia. rewrite Z.shiftr_div_pow2 by lia.
  unfold wrap, B. pose proof (Z.div_mod x (2 ^ 32) ltac:(lia)). lia.
Qed.

Lemma carry_div x : 0 <= x < 2 ^ 64 -> u64 x .>> 32 = x / B.
Proof. intros Hx. rewrite wrap_small by lia. apply Z.shiftr_div_pow2. lia. Qed.

Lemma low_high x : 0 <= x -> (x .& 0xffffffff) + B * (x .>> 32) = x.
Proof.
  intros Hx. change 0xffffffff with (2 ^ 32 - 1). rewrite land_ones_mod by lia.
  rewrite Z.shiftr_div_pow2 by lia. unfold B. pose proof (Z.div_mod x (2 ^ 32) ltac:(lia)). lia.
Qed.

Lemma low_range x : 0 <= x .& 0xffffffff < B.
Proof.
  change 0xffffffff with (2 ^ 32 - 1). rewrite land_ones_mod by lia.
  unfold B. apply Z.mod_pos_bound. lia.
Qed.

(** *** Normalisation *)

Lemma norm_count_le l n : (norm_count l n <= n)%nat.
Proof.
  induction n as [|n IH]; cbn [norm_count]; [lia|]. destruct n; [lia|]. case_if; lia.
Qed.

Lemma norm_count_pos l n : (1 <= n)%nat -> (1 <= norm_count l n)%nat.
Proof.
  intros Hn. induction n as [|n IH]; [lia|]. cbn [norm_count].
  destruct n as [|n]; [lia|]. case_if; [apply IH|]; lia.
Qed.

Lemma take_snoc_rd (l : list Z) n : (n < length l)%nat -> take (S n) l = take n l ++ [rd l n].
Proof.
  intros H. destruct (lookup_lt_is_Some_2 l n H) as [x Hx].
  rewrite (take_S_r _ _ _ Hx), (rd_lookup _ _ _ Hx). reflexivity.
Qed.

Lemma norm_count_lv l n : (n <= length l)%nat -> lv (take (norm_count l n) l) = lv (take n l).
Proof.
  induction n as [|n IH]; intros Hn; [reflexivity|]. cbn [norm_count].
  destruct n as [|n]; [reflexivity|].
  destruct (Z.eqb_spec (rd l (S n)) 0) as [E|]; [|reflexivity].
  rewrite IH by lia. rewrite (take_snoc_rd l (S n)), lv_app, E by lia. cbn. lia.
Qed.

Lemma normalize_lv l : lv (bigint_normalize_limbs l) = lv l.
Proof.
  unfold bigint_normalize_limbs. rewrite norm_count_lv, firstn_all by lia. reflexivity.
Qed.

Lemma normalize_limbs l : limbs l -> limbs (bigint_normalize_limbs l).
Proof. apply Forall_take. Qed.

Lemma normalize_length l : (length (bigint_normalize_limbs l) <= length l)%nat.
Proof. unfold bigint_normalize_limbs. rewrite length_take. lia. Qed.

Lemma rd_take (l : list Z) n i : (i < n)%nat -> rd (take n l) i = rd l i.
Proof.
  intros H. unfold rd. rewrite !nth_lookup, lookup_take_lt by exact H. reflexivity.
Qed.

Lemma norm_count_top l n : (1 < norm_count l n)%nat -> rd l (norm_count l n - 1) <> 0.
Proof.
  induction n as [|n IH]; cbn [norm_count]; [lia|]. destruct n as [|n]; [lia|].
  destruct (Z.eqb_spec (rd l (S n)) 0); [exact IH|]. intros _.
  replace (S (S n) - 1)%nat with (S n) by lia. assumption.
Qed.

Lemma normalize_normal l : l <> [] -> normal (bigint_normalize_limbs l).
Proof.
  intros Hl. assert (Hp : (1 <= length l)%nat) by (destruct l; [congruence|cbn; lia]).
  pose proof (norm_count_le l (length l)). pose proof (norm_count_pos l (length l) Hp).
  unfold normal, bigint_normalize_limbs. rewrite length_take_le by lia. split.
  - intros E. apply (f_equal length) in E. rewrite length_take_le in E by lia. cbn in E. lia.
  - intros H1. rewrite rd_take by lia. apply norm_count_top. exact H1.
Qed.

Lemma norm_count_normal l : normal l -> norm_count l (length l) = length l.
Proof.
  intros [Hne Hn]. destruct (length l) as [|[|n]] eqn:E; [reflexivity..|].
  cbn [norm_count]. specialize (Hn ltac:(lia)). replace (S (S n) - 1)%nat with (S n) in Hn by lia.
  destruct (Z.eqb_spec (rd l (S n)) 0); congruence.
Qed.

Lemma normalize_id l : normal l -> bigint_normalize_limbs l = l.
Proof. intros H. unfold bigint_normalize_limbs. rewrite norm_count_normal by exact H. apply firstn_all. Qed.

(** The top limb bounds a normal magnitude from below. *)
Lemma lv_snoc l x : lv (l ++ [x]) = lv l + B ^ Z.of_nat (length l) * x.
Proof. rewrite lv_app. cbn. lia. Qed.

Lemma list_snoc (l : list Z) : l <> [] -> l = take (length l - 1) l ++ [rd l (length l - 1)].
Proof.
  intros H. assert (1 <= length l)%nat by (destruct l; [congruence|cbn; lia]).
  rewrite <- take_snoc_rd by lia. replace (S (length l - 1)) with (length l) by lia.
  symmetry. apply firstn_all.
Qed.

Lemma lv_top l : limbs l -> l <> [] ->
  let n := (length l - 1)%nat in
  rd l n * B ^ Z.of_nat n <= lv l < (rd l n + 1) * B ^ Z.of_nat n.
Proof.
  intros Hl Hne n. pose proof (list_snoc l Hne) as E. fold n in E.
  assert (1 <= length l)%nat by (destruct l; [congruence|cbn; lia]).
  rewrite E at 2 3. rewrite lv_snoc, length_take_le by (unfold n; lia).
  pose proof (lv_range (take n l) ltac:(apply Forall_take; exact Hl)) as R.
  rewrite length_take_le in R by (unfold n; lia). lia.
Qed.

Lemma is_zero_lv l : limbs l -> normal l -> limbs_is_zero l = (lv l =? 0).
Proof.
  intros Hl Hn. unfold limbs_is_zero. destruct Hn as [Hne Htop].
  destruct (Nat.eqb_spec (length l) 1) as [E|E].
  - destruct l as [|x [|y t]]; try discriminate. cbn. f_equal. lia.
  - cbn [andb]. symmetry. apply Z.eqb_neq.
    assert (1 < length l)%nat by (destruct l as [|? [|? ?]]; cbn in *; [congruence|lia|lia]).
    pose proof (lv_top l Hl Hne) as T. cbv zeta in T. pose proof (B_pow_pos (length l - 1)).
    pose proof (rd_limb l (length l - 1) Hl) as [? ?]. specialize (Htop ltac:(lia)). nia.
Qed.

(** *** Comparison *)

Ltac cmp_close :=
  repeat match goal with
  | |- context [?x =? ?y] => destruct (Z.eqb_spec x y)
  | |- context [?x <? ?y] => destruct (Z.ltb_spec x y)
  end; lia.

(** The comparison result as the code encodes it. *)
Definition sgn_cmp (x y : Z) : Z := if x =? y then 0 else if y <? x then 1 else -1.

Lemma cmp_from_spec a b n : limbs a -> limbs b -> (n <= length a)%nat -> (n <= length b)%nat ->
  cmp_from a b n = sgn_cmp (lv (take n a)) (lv (take n b)).
Proof.
  intros Ha Hb. induction n as [|n IH]; intros H1 H2; [reflexivity|]. cbn [cmp_from].
  rewrite !take_snoc_rd, !lv_snoc by lia. rewrite !length_take_le by lia.
  pose proof (lv_range (take n a) ltac:(apply Forall_take; exact Ha)) as Ra.
  pose proof (lv_range (take n b) ltac:(apply Forall_take; exact Hb)) as Rb.
  rewrite !length_take_le in * by lia.
  set (P := B ^ Z.of_nat n) in *. unfold sgn_cmp in *.
  destruct (Z.eqb_spec (rd a n) (rd b n)) as [E|E]; cbn [negb].
  - rewrite IH, E by lia.
    destruct (Z.eqb_spec (lv (take n a)) (lv (take n b))), (Z.ltb_spec (lv (take n b)) (lv (take n a)));
    destruct (Z.eqb_spec (lv (take n a) + P * rd b n) (lv (take n b) + P * rd b n)),
      (Z.ltb_spec (lv (take n b) + P * rd b n) (lv (take n a) + P * rd b n)); lia.
  - destruct (Z.eqb_spec (lv (take n a) + P * rd a n) (lv (take n b) + P * rd b n)) as [E2|E2];
    destruct (Z.ltb_spec (lv (take n b) + P * rd b n) (lv (take n a) + P * rd a n)) as [L|L];
    destruct (Z.ltb_spec (rd b n) (rd a n)) as [L2|L2]; try reflexivity; exfalso; nia.
Qed.

Lemma lv_normal_lower l : limbs l -> normal l -> (1 < length l)%nat ->
  B ^ Z.of_nat (length l - 1) <= lv l.
Proof.
  intros Hl [Hne Ht] H1. pose proof (lv_top l Hl Hne) as T. cbv zeta in T.
  pose proof (B_pow_pos (length l - 1)). pose proof (rd_limb l (length l - 1) Hl) as [? ?].
  specialize (Ht H1). nia.
Qed.

(** A longer normal magnitude is a larger one. *)
Lemma normal_longer a b : limbs a -> limbs b -> normal a -> b <> [] ->
  (length b < length a)%nat -> lv b < lv a.
Proof.
  intros Ha Hb Hn Hne Hl. assert (1 <= length b)%nat by (destruct b; [congruence|cbn; lia]).
  pose proof (lv_normal_lower a Ha Hn ltac:(lia)). pose proof (lv_range b Hb) as [_ R].
  assert (B ^ Z.of_nat (length b) <= B ^ Z.of_nat (length a - 1))
    by (apply Z.pow_le_mono_r; [reflexivity|lia]). lia.
Qed.

Lemma cmp_abs_spec a b : limbs a -> limbs b -> a <> [] -> b <> [] ->
  bigint_cmp_abs_limbs a b = sgn_cmp (lv a) (lv b).
Proof.
  intros Ha Hb Hna Hnb. unfold bigint_cmp_abs_limbs.
  pose proof (norm_count_le a (length a)). pose proof (norm_count_le b (length b)).
  assert (Ea : lv (take (norm_count a (length a)) a) = lv a) by apply normalize_lv.
  assert (Eb : lv (take (norm_count b (length b)) b) = lv b) by apply normalize_lv.
  destruct (Nat.eqb_spec (norm_count a (length a)) (norm_count b (length b))) as [E|E]; cbn [negb].
  - rewrite cmp_from_spec by (auto; lia). rewrite Ea, E, Eb. reflexivity.
  - pose proof (normalize_normal a Hna) as Na. pose proof (normalize_normal b Hnb) as Nb.
    pose proof (normal_longer (bigint_normalize_limbs a) (bigint_normalize_limbs b)
      (normalize_limbs a Ha) (normalize_limbs b Hb) Na (proj1 Nb)) as La.
    pose proof (normal_longer (bigint_normalize_limbs b) (bigint_normalize_limbs a)
      (normalize_limbs b Hb) (normalize_limbs a Ha) Nb (proj1 Na)) as Lb.
    rewrite !normalize_lv in La, Lb. unfold bigint_normalize_limbs in La, Lb.
    rewrite !length_take_le in La, Lb by lia. unfold sgn_cmp.
    destruct (Nat.ltb_spec (norm_count b (length b)) (norm_count a (length a))).
    + specialize (La ltac:(lia)). cmp_close.
    + specialize (Lb ltac:(lia)). cmp_close.
Qed.

(** *** Addition and subtraction *)

Lemma add_loop_spec n : forall a b carry, limbs a -> limbs b -> 0 <= carry <= 1 ->
  (length a <= n)%nat -> (length b <= n)%nat ->
  let '(r, c) := add_loop n a b carry in
  length r = n /\ limbs r /\ 0 <= c <= 1 /\ lv r + B ^ Z.of_nat n * c = lv a + lv b + carry.
Proof.
  induction n as [|n IH]; intros a b carry Ha Hb Hc La Lb.
  { destruct a, b; cbn in *; try lia. rewrite Z.pow_0_r. splits; auto; lia. }
  cbn [add_loop]. pose proof (limbs_head a Ha) as Ra. pose proof (limbs_head b Hb) as Rb.
  unfold is_limb, B in Ra, Rb.
  set (x := rd a 0 + rd b 0 + carry) in *. assert (Hx : 0 <= x < 2 ^ 64) by (unfold x; lia).
  pose proof (split_carry x Hx) as S. pose proof (carry_div x Hx) as D.
  specialize (IH (drop 1 a) (drop 1 b) (u64 x .>> 32) (limbs_drop 1 a Ha) (limbs_drop 1 b Hb)).
  rewrite !length_drop in IH.
  assert (Hc' : 0 <= u64 x .>> 32 <= 1).
  { rewrite D. unfold x, B. split; [apply Z.div_pos; lia|].
    assert ((rd a 0 + rd b 0 + carry) / 2 ^ 32 < 2) by (apply Z.div_lt_upper_bound; lia). lia. }
  specialize (IH Hc' ltac:(lia) ltac:(lia)).
  destruct (add_loop n (drop 1 a) (drop 1 b) (u64 x .>> 32)) as [r c].
  destruct IH as (Hl & Hr & Hcc & Hv). cbn [length lv]. splits; auto; try lia.
  - constructor; [apply u32_limb|exact Hr].
  - rewrite B_pow, (lv_head a), (lv_head b). apply (f_equal (Z.mul B)) in Hv. unfold x in *. lia.
Qed.

Lemma add_abs_spec a b : limbs a -> limbs b ->
  let r := bigint_add_abs_limbs a b in
  limbs r /\ lv r = lv a + lv b /\ (Nat.max (length a) (length b) <= length r)%nat /\
  (length r <= Nat.max (length a) (length b) + 1)%nat.
Proof.
  intros Ha Hb. unfold bigint_add_abs_limbs.
  set (n := if (length b <? length a)%nat then length a else length b).
  assert (Hn : n = Nat.max (length a) (length b)) by (unfold n; case_if; boolprop; lia).
  pose proof (add_loop_spec n a b 0 Ha Hb ltac:(lia) ltac:(lia) ltac:(lia)) as H.
  destruct (add_loop n a b 0) as [r c]. destruct H as (Hl & Hr & Hc & Hv). cbv zeta.
  destruct (Z.eqb_spec c 0) as [->|Hne].
  - splits; auto; lia.
  - assert (c = 1) as -> by lia. change (u32 1) with 1. splits.
    + apply Forall_app. split; [exact Hr|]. repeat constructor; vm_compute; congruence.
    + rewrite lv_snoc, Hl. lia.
    + rewrite length_app. lia.
    + rewrite length_app. cbn. lia.
Qed.

Lemma add_u32_loop_spec l : forall carry, limbs l -> 0 <= carry < B ->
  let '(r, c) := add_u32_loop l carry in
  length r = length l /\ limbs r /\ 0 <= c < B /\
  lv r + B ^ Z.of_nat (length l) * c = lv l + carry /\ (l <> [] -> c <= 1).
Proof.
  induction l as [|x l IH]; intros carry Hl Hc.
  { cbn. rewrite Z.pow_0_r. splits; auto; try lia. congruence. }
  inversion_clear Hl as [|? ? Hx Hl']. cbn [add_u32_loop].
  destruct (Z.eqb_spec carry 0) as [->|Hne].
  { splits; auto; try lia. }
  unfold is_limb, B in *. assert (Hs : 0 <= x + carry < 2 ^ 64) by lia.
  pose proof (split_carry _ Hs) as S. pose proof (carry_div _ Hs) as D.
  assert (Hc' : 0 <= u64 (x + carry) .>> 32 <= 1).
  { rewrite D. unfold B. split; [apply Z.div_pos; lia|].
    assert ((x + carry) / 2 ^ 32 < 2) by (apply Z.div_lt_upper_bound; lia). lia. }
  specialize (IH (u64 (x + carry) .>> 32) Hl' ltac:(lia)).
  destruct (add_u32_loop l (u64 (x + carry) .>> 32)) as [r c] eqn:E.
  destruct IH as (H1 & H2 & H3 & H4 & H5). cbn [length lv]. fold B in *. splits; auto; try lia.
  - constructor; [apply u32_limb|exact H2].
  - rewrite B_pow. apply (f_equal (Z.mul B)) in H4. lia.
  - intros _. destruct l as [|y l]; [|apply H5; discriminate].
    cbn in E. injection E as _ <-. lia.
Qed.

Lemma sub_loop_spec a : forall b borrow, limbs a -> limbs b -> 0 <= borrow <= 1 ->
  (length b <= length a)%nat ->
  exists c, 0 <= c <= 1 /\ limbs (sub_loop a b borrow) /\
    length (sub_loop a b borrow) = length a /\
    lv (sub_loop a b borrow) = lv a - lv b - borrow + c * B ^ Z.of_nat (length a).
Proof.
  induction a as [|x a IH]; intros b borrow Ha Hb Hc Hl.
  { destruct b; [|cbn in Hl; lia]. exists borrow. cbn. rewrite Z.pow_0_r. splits; auto; lia. }
  inversion_clear Ha as [|? ? Hx Ha']. pose proof (limbs_head b Hb) as Rb.
  unfold is_limb, B in Hx, Rb. cbn [sub_loop]. rewrite (wrap_small 64 (rd b 0 + borrow)) by lia.
  rewrite (lv_head b). cbn [lv length]. cbn [length] in Hl.
  destruct (Z.ltb_spec x (rd b 0 + borrow)) as [Hlt|Hge].
  - destruct (IH (drop 1 b) 1 Ha' (limbs_drop 1 b Hb) ltac:(lia)) as (c & Hc' & Hr & Hlen & Hv);
      [rewrite length_drop; lia|].
    exists c. rewrite (wrap_small 64), (wrap_small 32) by (unfold B; lia).
    cbn [lv length]. rewrite Hv, Hlen, B_pow. splits; try lia.
    constructor; [unfold is_limb, B; lia|exact Hr].
  - destruct (IH (drop 1 b) 0 Ha' (limbs_drop 1 b Hb) ltac:(lia)) as (c & Hc' & Hr & Hlen & Hv);
      [rewrite length_drop; lia|].
    exists c. rewrite (wrap_small 64), (wrap_small 32) by (unfold B; lia).
    cbn [lv length]. rewrite Hv, Hlen, B_pow. splits; try lia.
    constructor; [unfold is_limb, B; lia|exact Hr].
Qed.

Lemma sub_abs_spec a b : limbs a -> limbs b -> (length b <= length a)%nat -> lv b <= lv a ->
  let r := bigint_sub_abs_limbs a b in
  limbs r /\ lv r = lv a - lv b /\ length r = length a.
Proof.
  intros Ha Hb Hl Hle. cbv zeta. unfold bigint_sub_abs_limbs.
  destruct (sub_loop_spec a b 0 Ha Hb ltac:(lia) Hl) as (c & Hc & Hr & Hlen & Hv).
  splits; auto. pose proof (lv_range _ Hr) as R. rewrite Hlen in R.
  pose proof (lv_range a Ha). pose proof (lv_range b Hb). assert (c = 0 \/ c = 1) as [->| ->] by lia; lia.
Qed.

(** *** Multiplication *)

Lemma mul_carry_spec res : forall carry, limbs res -> 0 <= carry < 2 ^ 33 ->
  lv res + carry < B ^ Z.of_nat (length res) ->
  limbs (mul_carry res carry) /\ length (mul_carry res carry) = length res /\
  lv (mul_carry res carry) = lv res + carry.
Proof.
  induction res as [|r res IH]; intros carry Hr Hc Hb.
  { cbn in *. rewrite Z.pow_0_r in Hb. splits; auto. lia. }
  inversion_clear Hr as [|? ? Hx Hr']. cbn [mul_carry].
  destruct (Z.eqb_spec carry 0) as [->|Hne].
  { splits; [constructor; auto|reflexivity|lia]. }
  pose proof (low_range carry) as HL. pose proof (low_high carry ltac:(lia)) as HH.
  unfold is_limb, B in Hx, HL. set (lo := carry .& 0xffffffff) in *. set (hi := carry .>> 32) in *.
  assert (Hs : 0 <= r + lo < 2 ^ 64) by lia.
  pose proof (split_carry _ Hs) as S. pose proof (carry_div _ Hs) as D.
  set (c := u64 (r + lo) .>> 32) in *.
  assert (Hhi : 0 <= hi <= 1).
  { unfold hi. rewrite Z.shiftr_div_pow2 by lia. split; [apply Z.div_pos; lia|].
    assert (carry / 2 ^ 32 < 2) by (apply Z.div_lt_upper_bound; lia). lia. }
  assert (Hc1 : 0 <= c <= 1).
  { rewrite D. unfold B. split; [apply Z.div_pos; lia|].
    assert ((r + lo) / 2 ^ 32 < 2) by (apply Z.div_lt_upper_bound; lia). lia. }
  cbn [lv length] in *. rewrite B_pow in Hb.
  rewrite (wrap_small 64 (hi + c)) by lia.
  destruct (IH (hi + c) Hr' ltac:(lia)) as (I1 & I2 & I3).
  { pose proof B_pos. pose proof (u32_limb (u64 (r + lo))) as [? ?]. nia. }
  splits.
  - constructor; [apply u32_limb|exact I1].
  - lia.
  - rewrite I3. lia.
Qed.

(** One row adds [ai * b + carry] to the window of [result] it works on. *)
Lemma mul_row_spec b : forall ai res carry, is_limb ai -> limbs b -> limbs res ->
  0 <= carry < 2 ^ 33 -> (length b <= length res)%nat ->
  lv res + ai * lv b + carry < B ^ Z.of_nat (length res) ->
  limbs (mul_row ai b res carry) /\ length (mul_row ai b res carry) = length res /\
  lv (mul_row ai b res carry) = lv res + ai * lv b + carry.
Proof.
  induction b as [|bj b IH]; intros ai res carry Hai Hb Hr Hc Hl Hv.
  { cbn [mul_row lv] in *. destruct (mul_carry_spec res carry Hr Hc) as (I1 & I2 & I3); [lia|].
    splits; auto. lia. }
  destruct res as [|r res]; [cbn in Hl; lia|]. inversion_clear Hb as [|? ? Hbj Hb'].
  inversion_clear Hr as [|? ? Hx Hr']. cbn [mul_row length lv] in *. rewrite B_pow in Hv.
  unfold is_limb, B in Hai, Hbj, Hx.
  assert (Hp : 0 <= ai * bj <= (2 ^ 32 - 1) * (2 ^ 32 - 1)) by nia.
  rewrite (wrap_small 64 (ai * bj)) by lia.
  pose proof (low_range (ai * bj)) as PL. pose proof (low_high (ai * bj) ltac:(lia)) as PH.
  pose proof (low_range carry) as CL. pose proof (low_high carry ltac:(lia)) as CH.
  assert (Hph : 0 <= (ai * bj) .>> 32 <= 2 ^ 32 - 2).
  { rewrite Z.shiftr_div_pow2 by lia. split; [apply Z.div_pos; lia|].
    assert (ai * bj / 2 ^ 32 < 2 ^ 32 - 1) by (apply Z.div_lt_upper_bound; lia). lia. }
  assert (Hch : 0 <= carry .>> 32 <= 1).
  { rewrite Z.shiftr_div_pow2 by lia. split; [apply Z.div_pos; lia|].
    assert (carry / 2 ^ 32 < 2) by (apply Z.div_lt_upper_bound; lia). lia. }
  set (pl := (ai * bj) .& 0xffffffff) in *. set (ph := (ai * bj) .>> 32) in *.
  set (cl := carry .& 0xffffffff) in *. set (ch := carry .>> 32) in *.
  unfold B in PL, CL. assert (Hs : 0 <= r + pl + cl < 2 ^ 64) by lia.
  pose proof (split_carry _ Hs) as S. pose proof (carry_div _ Hs) as D.
  set (c := u64 (r + pl + cl) .>> 32) in *.
  assert (Hc1 : 0 <= c <= 2).
  { rewrite D. unfold B. split; [apply Z.div_pos; lia|].
    assert ((r + pl + cl) / 2 ^ 32 < 3) by (apply Z.div_lt_upper_bound; lia). lia. }
  rewrite (wrap_small 64 (ph + ch + c)) by lia.
  destruct (IH ai res (ph + ch + c)) as (I1 & I2 & I3); auto; try lia.
  { pose proof B_pos. pose proof (u32_limb (u64 (r + pl + cl))) as [? ?]. nia. }
  splits.
  - constructor; [apply u32_limb|exact I1].
  - lia.
  - rewrite I3. lia.
Qed.

Lemma mul_rows_spec a : forall b res, limbs a -> limbs b -> limbs res ->
  (length a + length b <= length res)%nat ->
  lv res + lv a * lv b < B ^ Z.of_nat (length res) ->
  limbs (mul_rows a b res) /\ length (mul_rows a b res) = length res /\
  lv (mul_rows a b res) = lv res + lv a * lv b.
Proof.
  induction a as [|ai a IH]; intros b res Ha Hb Hr Hl Hv; cbn [mul_rows lv length] in *.
  { splits; auto. lia. }
  inversion_clear Ha as [|? ? Hai Ha'].
  pose proof (lv_range a Ha'). pose proof (lv_range b Hb). pose proof B_pos.
  assert (Hstep : lv res + ai * lv b + 0 < B ^ Z.of_nat (length res)) by nia.
  destruct (mul_row_spec b ai res 0 Hai Hb Hr ltac:(lia) ltac:(lia) Hstep) as (I1 & I2 & I3).
  destruct (mul_row ai b res 0) as [|r0 rest]; [cbn in I2; lia|].
  inversion_clear I1 as [|? ? Hr0 Hrest]. cbn [length lv] in *.
  destruct (IH b rest Ha' Hb Hrest ltac:(lia)) as (J1 & J2 & J3).
  { rewrite <- I2, B_pow in Hv. unfold is_limb in Hr0. nia. }
  splits.
  - constructor; auto.
  - lia.
  - rewrite J3. lia.
Qed.

Lemma mul_abs_spec a b : limbs a -> limbs b -> a <> [] -> b <> [] ->
  let r := bigint_mul_abs_limbs a b in
  limbs r /\ r <> [] /\ lv r = lv a * lv b /\ (length r <= length a + length b + 1)%nat.
Proof.
  intros Ha Hb Hna Hnb. unfold bigint_mul_abs_limbs.
  assert (Hgen : let r := mul_rows a b (replicate (length a + length b + 1) 0) in
    limbs r /\ r <> [] /\ lv r = lv a * lv b /\ (length r <= length a + length b + 1)%nat).
  { cbv zeta. pose proof (lv_range a Ha) as [A1 A2]. pose proof (lv_range b Hb) as [B1 B2].
    destruct (mul_rows_spec a b (replicate (length a + length b + 1) 0) Ha Hb
      (limbs_replicate _)) as (I1 & I2 & I3).
    - rewrite length_replicate. lia.
    - rewrite lv_replicate, length_replicate, !Nat2Z.inj_add, !Z.pow_add_r by lia.
      pose proof (B_pow_pos (length a)). pose proof (B_pow_pos (length b)).
      change (B ^ Z.of_nat 1) with B. pose proof B_pos. rewrite Z.add_0_l.
      apply Z.lt_le_trans with (B ^ Z.of_nat (length a) * B ^ Z.of_nat (length b));
        [apply Z.mul_lt_mono_nonneg; lia|nia].
    - rewrite length_replicate in I2. rewrite I3, I2, lv_replicate. splits; auto.
      intros E. rewrite E in I2. cbn in I2. lia. }
  destruct (Nat.eqb_spec (length a) 1) as [E1|E1]; [destruct (Nat.eqb_spec (length b) 1) as [E2|E2]|];
    cbn [andb].
  - destruct a as [|x [|]]; try discriminate. destruct b as [|y [|]]; try discriminate.
    inversion_clear Ha as [|? ? Hx _]. inversion_clear Hb as [|? ? Hy _].
    unfold is_limb, B in Hx, Hy. cbn [rd nth lv length]. cbv zeta.
    assert (Hp : 0 <= x * y < 2 ^ 64) by nia.
    pose proof (split_carry _ Hp) as S. pose proof (carry_div _ Hp) as D.
    assert (Hh : 0 <= u64 (x * y) .>> 32 < 2 ^ 32).
    { rewrite D. unfold B. split; [apply Z.div_pos; lia|apply Z.div_lt_upper_bound; lia]. }
    rewrite (wrap_small 32 (u64 (x * y) .>> 32)) by lia.
    destruct (Z.eqb_spec (u64 (x * y) .>> 32) 0) as [E|E]; cbn [lv length].
    + splits; [repeat constructor; apply u32_limb|discriminate|lia|lia].
    + splits; [repeat constructor; try apply u32_limb; unfold B; lia|discriminate|lia|lia].
  - exact Hgen.
  - exact Hgen.
Qed.

(** *** Shifts *)

Lemma shift_parts shift : 0 <= shift ->
  0 <= shift .& 31 < 32 /\ 0 <= shift .>> 5 /\ shift = 32 * (shift .>> 5) + (shift .& 31).
Proof.
  intros H. change 31 with (2 ^ 5 - 1). rewrite land_ones_mod, Z.shiftr_div_pow2 by lia.
  change (2 ^ 5) with 32. pose proof (Z.div_mod shift 32 ltac:(lia)).
  pose proof (Z.mod_pos_bound shift 32 ltac:(lia)). pose proof (Z.div_pos shift 32). lia.
Qed.

Lemma B_split s : 0 <= s <= 32 -> B = 2 ^ s * 2 ^ (32 - s).
Proof. intros H. rewrite <- Z.pow_add_r by lia. unfold B. f_equal. lia. Qed.

Lemma shl_loop_spec l : forall s carry, limbs l -> 0 <= s < 32 -> 0 <= carry < 2 ^ s ->
  let '(r, c) := shl_loop l s carry in
  limbs r /\ length r = length l /\ 0 <= c < 2 ^ s /\
  lv r + B ^ Z.of_nat (length l) * c = lv l * 2 ^ s + carry.
Proof.
  induction l as [|x l IH]; intros s carry Hl Hs Hc.
  { cbn. rewrite Z.pow_0_r. splits; auto; lia. }
  inversion_clear Hl as [|? ? Hx Hl']. cbn [shl_loop]. unfold is_limb in Hx.
  pose proof (B_split s ltac:(lia)) as HB. pose proof (Z.pow_pos_nonneg 2 s ltac:(lia) ltac:(lia)).
  pose proof (Z.pow_pos_nonneg 2 (32 - s) ltac:(lia) ltac:(lia)).
  assert (H2s : 2 ^ s <= 2 ^ 31) by (apply Z.pow_le_mono_r; lia).
  assert (Hx2 : 0 <= x * 2 ^ s <= 2 ^ s * (B - 1)) by nia.
  assert (Hcur : u64 (x .<< s) .| carry = x * 2 ^ s + carry).
  { rewrite wrap_small by (rewrite Z.shiftl_mul_pow2; unfold B in *; lia).
    apply lor_shiftl_add; lia. }
  rewrite Hcur. set (cur := x * 2 ^ s + carry) in *.
  assert (Hcr : 0 <= cur < 2 ^ s * B) by (unfold cur; lia).
  assert (Hd : cur .>> 32 = cur / B) by (apply Z.shiftr_div_pow2; lia).
  assert (Hdr : 0 <= cur / B < 2 ^ s).
  { pose proof B_pos. split; [apply Z.div_pos; lia|apply Z.div_lt_upper_bound; lia]. }
  rewrite Hd, (wrap_small 32 (cur / B)) by lia.
  specialize (IH s (cur / B) Hl' Hs Hdr). destruct (shl_loop l s (cur / B)) as [r c].
  destruct IH as (I1 & I2 & I3 & I4). cbn [length lv]. rewrite B_pow. splits; try lia.
  - constructor; [apply u32_limb|exact I1].
  - apply (f_equal (Z.mul B)) in I4. unfold wrap at 1. fold B.
    pose proof (Z.div_mod cur B ltac:(pose proof B_pos; lia)). unfold cur in *. lia.
Qed.

Lemma shift_left_abs_spec l shift : limbs l -> l <> [] -> 0 <= shift ->
  let r := bigint_shift_left_abs l shift in
  limbs r /\ normal r /\ lv r = lv l * 2 ^ shift /\
  Z.of_nat (length r) <= Z.of_nat (length l) + (shift .>> 5) + 1.
Proof.
  intros Hl Hne Hs. unfold bigint_shift_left_abs.
  destruct (shift_parts shift Hs) as (Hb & Hw & E).
  set (w := shift .>> 5) in *. set (s := shift .& 31) in *.
  assert (Hpow : B ^ Z.of_nat (Z.to_nat w) * 2 ^ s = 2 ^ shift).
  { rewrite Z2Nat.id by lia. unfold B. rewrite <- Z.pow_mul_r, <- Z.pow_add_r by lia. f_equal. lia. }
  assert (Hmid : exists m, limbs m /\ m <> [] /\ lv m = lv l * 2 ^ s /\
    (length m <= length l + 1)%nat /\
    (if s =? 0 then l else let '(r, carry) := shl_loop l s 0 in r ++ [carry]) = m).
  { destruct (Z.eqb_spec s 0) as [->|Hs0].
    - exists l. rewrite Z.pow_0_r. splits; auto; lia.
    - pose proof (shl_loop_spec l s 0 Hl Hb) as H. specialize (H ltac:(pose proof (Z.pow_pos_nonneg 2 s); lia)).
      destruct (shl_loop l s 0) as [r c]. destruct H as (I1 & I2 & I3 & I4).
      exists (r ++ [c]). rewrite lv_snoc, length_app, I2. cbn [length]. splits; auto; try lia.
      + apply Forall_app. split; [exact I1|]. repeat constructor; [lia|].
        assert (2 ^ s <= 2 ^ 31) by (apply Z.pow_le_mono_r; lia). unfold B. lia.
      + destruct r; discriminate. }
  destruct Hmid as (m & M1 & M2 & M3 & M4 & ->). cbv zeta.
  assert (Hne2 : replicate (Z.to_nat w) 0 ++ m <> []).
  { intros X. apply app_eq_nil in X as [_ X]. contradiction. }
  splits.
  - apply normalize_limbs, Forall_app. split; [apply limbs_replicate|exact M1].
  - apply normalize_normal. exact Hne2.
  - rewrite normalize_lv, lv_app, lv_replicate, length_replicate, M3, <- Hpow. ring.
  - pose proof (normalize_length (replicate (Z.to_nat w) 0 ++ m)) as L.
    rewrite length_app, length_replicate in L. lia.
Qed.

Lemma shr_loop_spec l : forall s, limbs l -> 0 < s < 32 ->
  let '(r, c) := shr_loop l s in
  limbs r /\ length r = length l /\ lv r = lv l / 2 ^ s /\ c = lv l mod 2 ^ s.
Proof.
  induction l as [|x l IH]; intros s Hl Hs.
  { cbn. rewrite Z.mod_0_l, Z.div_0_l by (apply Z.pow_nonzero; lia). auto. }
  inversion_clear Hl as [|? ? Hx Hl']. cbn [shr_loop]. unfold is_limb in Hx.
  pose proof (B_split s ltac:(lia)) as HB. pose proof (Z.pow_pos_nonneg 2 s ltac:(lia) ltac:(lia)) as P1.
  pose proof (Z.pow_pos_nonneg 2 (32 - s) ltac:(lia) ltac:(lia)) as P2.
  specialize (IH s Hl' Hs). destruct (shr_loop l s) as [r c]. destruct IH as (I1 & I2 & I3 & I4).
  pose proof (Z.mod_pos_bound (lv l) (2 ^ s) P1) as Hc. rewrite <- I4 in Hc.
  pose proof (Z.div_mod (lv l) (2 ^ s) ltac:(lia)) as Hdm. rewrite <- I3, <- I4 in Hdm.
  assert (H2s : 2 ^ s <= 2 ^ 31) by (apply Z.pow_le_mono_r; lia).
  assert (Hq : 0 <= x / 2 ^ s < 2 ^ (32 - s)).
  { split; [apply Z.div_pos; lia|apply Z.div_lt_upper_bound; lia]. }
  assert (Hcs : 0 <= c * 2 ^ (32 - s) <= (2 ^ s - 1) * 2 ^ (32 - s)) by nia.
  assert (Hout : (x .>> s) .| u32 (c .<< (32 - s)) = c * 2 ^ (32 - s) + x / 2 ^ s).
  { rewrite Z.lor_comm, Z.shiftr_div_pow2 by lia.
    rewrite wrap_small by (rewrite Z.shiftl_mul_pow2; unfold B in HB; lia).
    apply lor_shiftl_add; lia. }
  rewrite Hout. cbn [length lv]. splits.
  - constructor; [unfold is_limb; lia|exact I1].
  - lia.
  - rewrite Hdm at 1. rewrite HB at 2.
    replace (x + 2 ^ s * 2 ^ (32 - s) * (2 ^ s * lv r + c))
      with (x + (2 ^ (32 - s) * (2 ^ s * lv r + c)) * 2 ^ s) by ring.
    rewrite Z.div_add by lia. rewrite HB. ring.
  - replace (u32 (1 .<< s) - 1) with (2 ^ s - 1).
    + rewrite land_ones_mod by lia. rewrite HB.
      replace (x + 2 ^ s * 2 ^ (32 - s) * lv l) with (x + (2 ^ (32 - s) * lv l) * 2 ^ s) by ring.
      rewrite Z.mod_add by lia. reflexivity.
    + rewrite Z.shiftl_mul_pow2, Z.mul_1_l, wrap_small by lia. reflexivity.
Qed.

Lemma any_nonzero_spec l : limbs l -> any_nonzero l = negb (lv l =? 0).
Proof.
  induction 1 as [|x l Hx Hl IH]; [reflexivity|]. unfold any_nonzero in *. cbn [existsb lv].
  rewrite IH. pose proof (lv_range l Hl). unfold is_limb in Hx. pose proof B_pos.
  destruct (Z.eqb_spec x 0), (Z.eqb_spec (lv l) 0), (Z.eqb_spec (x + B * lv l) 0); cbn; nia.
Qed.

Lemma limbs_one x : 0 <= x < 2 ^ 32 -> limbs [x].
Proof. intros H. constructor; [exact H|constructor]. Qed.

Lemma normal_one x : normal [x].
Proof. split; [discriminate|]. cbn. lia. Qed.

Lemma lv_split n l : (n <= length l)%nat ->
  lv l = lv (take n l) + B ^ Z.of_nat n * lv (drop n l).
Proof.
  intros H. rewrite <- (take_drop n l) at 1. rewrite lv_app, length_take_le by exact H. reflexivity.
Qed.

Lemma shift_right_abs_spec l shift : limbs l -> l <> [] -> 0 <= shift ->
  let '(r, lost) := bigint_shift_right_abs l shift in
  limbs r /\ normal r /\ lv r = lv l / 2 ^ shift /\ lost = negb (lv l mod 2 ^ shift =? 0) /\
  (length r <= length l)%nat.
Proof.
  intros Hl Hne Hs. unfold bigint_shift_right_abs.
  destruct (shift_parts shift Hs) as (Hb & Hw & E).
  set (w := shift .>> 5) in *. set (s := shift .& 31) in *.
  assert (Hpos : (1 <= length l)%nat) by (destruct l; [congruence|cbn; lia]).
  assert (Hbw : forall k, 0 <= k -> B ^ k = 2 ^ (32 * k)).
  { intros k Hk. unfold B. rewrite <- Z.pow_mul_r by lia. reflexivity. }
  pose proof (lv_range l Hl) as R.
  destruct (Z.leb_spec (Z.of_nat (length l)) w) as [Hbig|Hsmall].
  - assert (Hlt : lv l < 2 ^ shift).
    { eapply Z.lt_le_trans; [apply R|]. rewrite Hbw by lia. apply Z.pow_le_mono_r; lia. }
    rewrite any_nonzero_spec by exact Hl. rewrite Z.div_small, Z.mod_small by lia. splits; auto.
    + apply limbs_one. lia.
    + apply normal_one.
  - set (n := Z.to_nat w).
    assert (Hn : (n < length l)%nat) by (unfold n; lia).
    pose proof (lv_split n l ltac:(lia)) as Sp.
    pose proof (lv_range (take n l) ltac:(apply Forall_take; exact Hl)) as Rt.
    rewrite length_take_le in Rt by lia.
    assert (Hd : limbs (drop n l)) by (apply limbs_drop; exact Hl).
    assert (Hdn : drop n l <> []) by (rewrite (drop_cons_rd l n) by lia; discriminate).
    rewrite any_nonzero_spec by (apply Forall_take; exact Hl).
    set (T := lv (take n l)) in *. set (D := lv (drop n l)) in *. set (P := B ^ Z.of_nat n) in *.
    assert (HP : P = 2 ^ (32 * w)) by (unfold P, n; rewrite Z2Nat.id, Hbw by lia; reflexivity).
    assert (Hsh : 2 ^ shift = P * 2 ^ s) by (rewrite HP, <- Z.pow_add_r by lia; f_equal; lia).
    pose proof (Z.pow_pos_nonneg 2 s ltac:(lia) ltac:(lia)) as Ps.
    assert (Hdiv : lv l / 2 ^ shift = D / 2 ^ s).
    { rewrite Hsh, <- Z.div_div by lia. f_equal. rewrite Sp, Z.add_comm, Z.mul_comm.
      rewrite Z.div_add_l by lia. rewrite Z.div_small by lia. lia. }
    assert (Hmod : lv l mod 2 ^ shift = T + P * (D mod 2 ^ s)).
    { pose proof (Z.div_mod (lv l) (2 ^ shift) ltac:(lia)) as M1. rewrite Hdiv in M1.
      pose proof (Z.div_mod D (2 ^ s) ltac:(lia)) as M2. apply (f_equal (Z.mul P)) in M2.
      rewrite Hsh in *. lia. }
    destruct (Z.eqb_spec s 0) as [E0|E0].
    + rewrite E0, Z.pow_0_r, Z.div_1_r in Hdiv. rewrite E0, Z.pow_0_r, Z.mod_1_r in Hmod.
      rewrite Hmod, Hdiv. splits.
      * apply normalize_limbs. exact Hd.
      * apply normalize_normal. exact Hdn.
      * apply normalize_lv.
      * do 2 f_equal. lia.
      * pose proof (normalize_length (drop n l)) as L. rewrite length_drop in L. lia.
    + pose proof (shr_loop_spec (drop n l) s Hd ltac:(lia)) as H.
      assert (Hlow : rd l n .& (u32 (1 .<< s) - 1) = D mod 2 ^ s).
      { pose proof (drop_cons_rd l n Hn) as Ed. rewrite Ed in H. cbn [shr_loop] in H.
        destruct (shr_loop (drop (S n) l) s) as [r c]. destruct H as (_ & _ & _ & H).
        rewrite H, <- Ed. reflexivity. }
      destruct (shr_loop (drop n l) s) as [r c]. destruct H as (I1 & I2 & I3 & I4).
      rewrite Hlow, Hdiv, Hmod. cbn [fst]. fold D in I3.
      pose proof (Z.mod_pos_bound D (2 ^ s) Ps) as MB.
      assert (0 < P) by (rewrite HP; apply Z.pow_pos_nonneg; lia). splits.
      * apply normalize_limbs. exact I1.
      * apply normalize_normal. intros X. rewrite X in I2. rewrite length_drop in I2. cbn in I2. lia.
      * rewrite normalize_lv. exact I3.
      * destruct (Z.eqb_spec T 0), (Z.eqb_spec (D mod 2 ^ s) 0), (Z.eqb_spec (T + P * (D mod 2 ^ s)) 0);
          cbn; try reflexivity; exfalso; nia.
      * pose proof (normalize_length r) as L. rewrite I2, length_drop in L. lia.
Qed.

(** *** Division by one limb *)

Lemma div_small_spec l d : limbs l -> 0 < d < B ->
  let '(q, r) := bigint_div_small_inplace l d in
  limbs q /\ length q = length l /\ 0 <= r < d /\ lv l = d * lv q + r.
Proof.
  intros Hl Hd. induction Hl as [|x l Hx Hl IH]; [cbn; splits; auto; lia|].
  cbn [bigint_div_small_inplace]. destruct (bigint_div_small_inplace l d) as [q r].
  destruct IH as (I1 & I2 & I3 & I4). unfold is_limb in Hx.
  assert (Hcur : u64 (r .<< 32) .| x = r * B + x).
  { rewrite wrap_small by (rewrite Z.shiftl_mul_pow2; unfold B in *; lia).
    unfold B in *. apply lor_shiftl_add; lia. }
  rewrite Hcur. pose proof (Z.div_mod (r * B + x) d ltac:(lia)) as M.
  pose proof (Z.mod_pos_bound (r * B + x) d ltac:(lia)) as MB.
  assert (Hq : 0 <= (r * B + x) / d < B).
  { split; [apply Z.div_pos; nia|apply Z.div_lt_upper_bound; nia]. }
  rewrite wrap_small by exact Hq. cbn [lv length]. splits; try lia.
  - constructor; auto.
Qed.

(** *** Two's complement *)

Lemma twos_complement_pos n : forall l, limbs l -> (length l <= n)%nat ->
  let r := twos_complement n l false 1 in limbs r /\ length r = n /\ lv r = lv l.
Proof.
  induction n as [|n IH]; intros l Hl Hn; cbv zeta.
  { destruct l; [|cbn in Hn; lia]. splits; auto. }
  cbn [twos_complement negb]. destruct (IH (drop 1 l) (limbs_drop 1 l Hl)) as (I1 & I2 & I3);
    [rewrite length_drop; lia|].
  splits.
  - constructor; [apply limbs_head|]; auto.
  - cbn. lia.
  - cbn [lv]. rewrite I3, <- lv_head. reflexivity.
Qed.

Lemma twos_complement_neg n : forall l carry, limbs l -> (length l <= n)%nat -> 0 <= carry <= 1 ->
  let r := twos_complement n l true carry in
  limbs r /\ length r = n /\ lv r = (carry - 1 - lv l) mod B ^ Z.of_nat n.
Proof.
  induction n as [|n IH]; intros l carry Hl Hn Hc; cbv zeta.
  { destruct l; [|cbn in Hn; lia]. cbn. rewrite Z.pow_0_r, Z.mod_1_r. splits; auto. }
  cbn [twos_complement negb]. pose proof (limbs_head l Hl) as Hx. unfold is_limb in Hx.
  set (x := rd l 0) in *.
  assert (Hs : 0 <= (B - 1 - x) + carry < 2 ^ 64) by (unfold B in *; lia).
  pose proof (split_carry _ Hs) as S. pose proof (carry_div _ Hs) as D.
  set (c := u64 (B - 1 - x + carry) .>> 32) in *.
  assert (Hc1 : 0 <= c <= 1).
  { rewrite D. pose proof B_pos. split; [apply Z.div_pos; lia|].
    assert ((B - 1 - x + carry) / B < 2) by (apply Z.div_lt_upper_bound; lia). lia. }
  destruct (IH (drop 1 l) c (limbs_drop 1 l Hl)) as (I1 & I2 & I3); [rewrite length_drop; lia|auto|].
  splits.
  - constructor; [apply u32_limb|exact I1].
  - cbn. lia.
  - cbn [lv]. rewrite I3, B_pow, (lv_head l). fold x. pose proof (B_pow_pos n) as P. pose proof B_pos.
    set (Q := B ^ Z.of_nat n) in *. set (T := lv (drop 1 l)) in *.
    pose proof (u32_limb (u64 (B - 1 - x + carry))) as HU. unfold is_limb in HU.
    set (u := u32 (u64 (B - 1 - x + carry))) in *.
    apply Z.mod_unique_pos with (q := (c - 1 - T) / Q).
    + pose proof (Z.mod_pos_bound (c - 1 - T) Q P). nia.
    + pose proof (Z.div_mod (c - 1 - T) Q ltac:(lia)) as M. apply (f_equal (Z.mul B)) in M. lia.
Qed.

(** Both signs at once: the [width]-limb two's complement of a signed value. *)
Lemma twos_complement_spec n l neg : limbs l -> (length l <= n)%nat ->
  let r := twos_complement n l neg 1 in
  limbs r /\ length r = n /\ lv r = (if neg then - lv l else lv l) mod B ^ Z.of_nat n.
Proof.
  intros Hl Hn. destruct neg; cbv zeta.
  - destruct (twos_complement_neg n l 1 Hl Hn ltac:(lia)) as (H1 & H2 & H3).
    rewrite H3. splits; auto; f_equal; lia.
  - destruct (twos_complement_pos n l Hl Hn) as (H1 & H2 & H3). splits; auto.
    rewrite H3. symmetry. apply Z.mod_small. pose proof (lv_range l Hl).
    assert (B ^ Z.of_nat (length l) <= B ^ Z.of_nat n) by (apply Z.pow_le_mono_r; [reflexivity|lia]).
    lia.
Qed.

Lemma top_bit x : is_limb x -> negb (x .& 0x80000000 =? 0) = (2 ^ 31 <=? x).
Proof.
  unfold is_limb, B. intros Hx. change 0x80000000 with (2 ^ 31). rewrite land_pow2 by lia.
  rewrite Z.testbit_eqb by lia.
  destruct (Z.leb_spec (2 ^ 31) x) as [H|H].
  - replace (x / 2 ^ 31) with 1; [reflexivity|].
    apply Z.div_unique with (r := x - 2 ^ 31); lia.
  - rewrite Z.div_small by lia. reflexivity.
Qed.

(** The signed reading of [n] limbs. *)
Definition signed (n : nat) (v : Z) : Z :=
  if v <? B ^ Z.of_nat n / 2 then v else v - B ^ Z.of_nat n.

Lemma half_pow n : (1 <= n)%nat -> B ^ Z.of_nat n / 2 = 2 ^ 31 * B ^ Z.of_nat (n - 1).
Proof.
  intros Hn. replace n with (S (n - 1)) at 1 by lia. rewrite B_pow.
  replace (B * B ^ Z.of_nat (n - 1)) with (2 ^ 31 * B ^ Z.of_nat (n - 1) * 2)
    by (unfold B; lia). apply Z.div_mul. lia.
Qed.

Lemma to_magnitude_spec l : limbs l -> l <> [] ->
  let '(m, neg) := bigint_twos_complement_to_magnitude l in
  limbs m /\ normal m /\ (if neg then - lv m else lv m) = signed (length l) (lv l) /\
  (neg = true -> lv m <> 0) /\ (length m <= length l)%nat.
Proof.
  intros Hl Hne. unfold bigint_twos_complement_to_magnitude.
  assert (Hpos : (1 <= length l)%nat) by (destruct l; [congruence|cbn; lia]).
  pose proof (lv_top l Hl Hne) as T. pose proof (lv_range l Hl) as R.
  pose proof (rd_limb l (length l - 1) Hl) as Ht. rewrite (top_bit _ Ht). cbv zeta in T.
  pose proof (half_pow (length l) Hpos) as HH. pose proof (B_pow_pos (length l - 1)) as P.
  set (n := length l) in *. set (W := B ^ Z.of_nat n) in *. set (t := rd l (n - 1)) in *.
  set (P1 := B ^ Z.of_nat (n - 1)) in *. unfold signed. fold W. rewrite HH.
  assert (HW : W = 2 * (2 ^ 31 * P1)).
  { unfold W. replace n with (S (n - 1)) by lia. rewrite B_pow. fold P1. unfold B. lia. }
  destruct (Z.leb_spec (2 ^ 31) t) as [Hneg|Hpos2].
  - assert (2 ^ 31 * P1 <= lv l) by nia. destruct (Z.ltb_spec (lv l) (2 ^ 31 * P1)); [lia|].
    destruct (twos_complement_neg n l 1 Hl ltac:(lia) ltac:(lia)) as (I1 & I2 & I3).
    set (c := twos_complement n l true 1) in *.
    assert (E : lv c = W - lv l).
    { rewrite I3. fold W. symmetry. apply Z.mod_unique_pos with (q := -1); lia. }
    assert (Hcn : c <> []) by (intros X; rewrite X in I2; cbn in I2; lia).
    rewrite is_zero_lv by (auto using normalize_limbs, normalize_normal).
    rewrite normalize_lv, E. destruct (Z.eqb_spec (W - lv l) 0); [lia|].
    splits; auto using normalize_limbs, normalize_normal; try (rewrite normalize_lv); try lia.
    pose proof (normalize_length c). lia.
  - assert (lv l < 2 ^ 31 * P1) by nia. destruct (Z.ltb_spec (lv l) (2 ^ 31 * P1)); [|lia].
    splits; auto using normalize_limbs, normalize_normal.
    + case_if; rewrite normalize_lv; reflexivity.
    + case_if; discriminate.
    + apply normalize_length.
Qed.

(** *** Bit length *)

Lemma bitlen_spec l : limbs l -> l <> [] ->
  bigint_abs_bitlen_limbs l = if lv l =? 0 then 0 else Z.log2 (lv l) + 1.
Proof.
  intros Hl Hne. unfold bigint_abs_bitlen_limbs.
  set (m := bigint_normalize_limbs l).
  assert (Hm : normal m) by (apply normalize_normal; exact Hne).
  assert (Hml : limbs m) by (apply normalize_limbs; exact Hl).
  pose proof (norm_count_le l (length l)) as Hc.
  assert (Hlen : norm_count l (length l) = length m)
    by (unfold m, bigint_normalize_limbs; rewrite length_take_le by lia; reflexivity).
  assert (Hpos : (1 <= length m)%nat).
  { rewrite <- Hlen. apply norm_count_pos. destruct l; [congruence|cbn; lia]. }
  assert (Hrd : forall i, (i < length m)%nat -> rd l i = rd m i).
  { intros i Hi. unfold m, bigint_normalize_limbs. rewrite rd_take by lia. reflexivity. }
  rewrite Hlen, (Hrd 0%nat), (Hrd (length m - 1)%nat), <- (normalize_lv l) by lia. fold m.
  fold (limbs_is_zero m). rewrite is_zero_lv by auto.
  destruct (Z.eqb_spec (lv m) 0) as [|Hnz]; [reflexivity|].
  pose proof (lv_top m Hml (proj1 Hm)) as T. cbv zeta in T.
  set (k := (length m - 1)%nat) in *. set (t := rd m k) in *.
  pose proof (rd_limb m k Hml) as [Ht1 Ht2]. fold t in Ht1, Ht2.
  assert (Ht : 0 < t).
  { destruct (Nat.eq_dec (length m) 1) as [E1|E1].
    - unfold t, k. rewrite E1. destruct m as [|x [|]]; try discriminate. cbn in *.
      pose proof (lv_range [x] Hml). cbn in *. lia.
    - destruct Hm as [_ Hm]. specialize (Hm ltac:(lia)). fold k t in Hm. lia. }
  unfold clz32_nonzero. replace (Z.of_nat (length m) - 1) with (Z.of_nat k) by (unfold k; lia).
  enough (Z.log2 (lv m) = Z.of_nat k * 32 + Z.log2 t) by lia.
  assert (HB : B ^ Z.of_nat k = 2 ^ (32 * Z.of_nat k)).
  { unfold B. rewrite <- Z.pow_mul_r by lia. reflexivity. }
  rewrite HB in T. pose proof (Z.log2_spec t Ht) as [L1 L2]. pose proof (Z.log2_nonneg t).
  apply Z.log2_unique; [lia|].
  replace (Z.of_nat k * 32 + Z.log2 t) with (Z.log2 t + 32 * Z.of_nat k) by lia.
  rewrite <- Z.add_succ_l, !Z.pow_add_r by lia.
  pose proof (Z.pow_pos_nonneg 2 (32 * Z.of_nat k) ltac:(lia) ltac:(lia)). nia.
Qed.
