(* ===== verification/Alloc.v ===== *)
(** * Fallible computations

    The runtime functions that allocate ([malloc], [calloc], [realloc],
    [js_type_alloc], [gc_push_root]) may be refused memory at any point.  They
    are computations in a small monad: [grant k] says whether the [k]-th
    request of a run is granted, the counter is threaded as state, and an
    outcome is a result, an error value, or [Fault], a write outside the
    buffer the code works in. *)

From S2P Require Import Prelude.

Inductive outcome (A : Type) :=
| Done (r : result A)
| Fault.
Arguments Done {A} _.
Arguments Fault {A}.

Definition M (A : Type) : Type := nat -> outcome A * nat.

Definition ret {A} (a : A) : M A := fun k => (Done (Ok a), k).
Definition throw {A} (e : err_kind) (msg : string) : M A := fun k => (Done (Err e msg), k).
Definition throw_oom {A} : M A := throw JS_ERR_TYPE "oom".

Definition mbind_ {A B} (m : M A) (f : A -> M B) : M B := fun k =>
  match m k with
  | (Done (Ok a), k) => f a k
  | (Done (Err e s), k) => (Done (Err e s), k)
  | (Fault, k) => (Fault, k)
  end.

Declare Scope alloc_scope.
Delimit Scope alloc_scope with alloc.
Notation "'let*' x ':=' m 'in' k" := (mbind_ m (fun x => k))
  (at level 10, x pattern, m at level 100, k at level 200) : alloc_scope.
Notation "m ';;;' k" := (mbind_ m (fun _ => k))
  (at level 100, k at level 200, right associativity) : alloc_scope.
#[global] Open Scope alloc_scope.

(** One request; the callers turn a refusal into the error ["oom"]. *)
Definition request (grant : nat -> bool) : M unit := fun k =>
  ((if grant k then Done (Ok tt) else Done (Err JS_ERR_TYPE "oom")), S k).

(** The first [extent] cells of a buffer of [capacity] cells are written. *)
Definition write_extent (extent capacity : Z) : M unit := fun k =>
  (if extent <=? capacity then Done (Ok tt) else Fault, k).

(** What a run yields: no fault, and a result with [P]; the only error is
    ["oom"], and only when a request was refused or the excuse [E] holds. *)
Definition starved (grant : nat -> bool) : Prop := exists k, grant k = false.

Definition yields {A} (grant : nat -> bool) (E : Prop) (m : M A) (P : A -> Prop) : Prop :=
  forall k, match (m k).1 with
            | Done (Ok a) => P a
            | Done (Err e s) => e = JS_ERR_TYPE /\ s = "oom"%string /\ (E \/ starved grant)
            | Fault => False
            end.

Section Rules.
Context (grant : nat -> bool) (E : Prop).

Lemma yields_ret {A} (a : A) (P : A -> Prop) : P a -> yields grant E (ret a) P.
Proof. intros H k. exact H. Qed.

Lemma yields_bind {A B} (m : M A) (f : A -> M B) P Q :
  yields grant E m P -> (forall a, P a -> yields grant E (f a) Q) ->
  yields grant E (let* a := m in f a) Q.
Proof.
  intros Hm Hf k. unfold mbind_. specialize (Hm k). destruct (m k) as [[[a|e s]|] k']; cbn in *.
  - apply Hf. exact Hm.
  - exact Hm.
  - exact Hm.
Qed.

Lemma yields_request : yields grant E (request grant) (fun _ => True).
Proof.
  intros k. unfold request. cbn. destruct (grant k) eqn:G; [exact I|].
  splits; auto. right. exists k. exact G.
Qed.

Lemma yields_extent n c : n <= c -> yields grant E (write_extent n c) (fun _ => True).
Proof.
  intros H k. unfold write_extent. cbn. destruct (Z.leb_spec n c); [exact I|lia].
Qed.

Lemma yields_oom {A} (P : A -> Prop) : E -> yields grant E throw_oom P.
Proof. intros H k. cbn. auto. Qed.

Lemma yields_weaken {A} (E' : Prop) (m : M A) (P Q : A -> Prop) :
  yields grant E' m P -> (E' -> E) -> (forall a, P a -> Q a) -> yields grant E m Q.
Proof.
  intros H HE HP k. specialize (H k). destruct (m k).1 as [[a|e s]|]; auto.
  destruct H as (? & ? & [?|?]); auto.
Qed.

End Rules.

(** With every request granted and no excuse the run succeeds. *)
Lemma yields_total {A} grant E (m : M A) P :
  yields grant E m P -> ~ E -> (forall k, grant k = true) ->
  forall k, exists a, (m k).1 = Done (Ok a) /\ P a.
Proof.
  intros H HE Hg k. specialize (H k). destruct (m k).1 as [[a|e s]|]; [eauto| |contradiction].
  destruct H as (_ & _ & [?|[k' Hk]]); [contradiction|]. congruence.
Qed.

Create HintDb yields discriminated.
#[export] Hint Resolve yields_request : yields.

(** Step through a bind whose first computation has a known specification. *)
Ltac ystep H := eapply yields_bind; [eapply H|cbv beta].
Ltac yext := eapply yields_bind; [apply yields_extent|intros [] _].
Ltac yreq := eapply yields_bind; [apply yields_request|intros [] _].
