(* ===== verification/LimbDiv.v ===== *)
(** * Long division of magnitudes

    [bigint_divmod_abs_limbs] of [src/src/modules/bigint.c]: schoolbook long
    division with a two-limb estimate of each quotient digit and at most one
    correction (Knuth's algorithm D), in 64-bit arithmetic.  The estimate's
    test shifts the partial remainder left by 32 bits, which wraps when that
    remainder has reached 2^32: [divmod_abs_spec] proves the division right
    for every divisor whose two leading normalised limbs add up to less than
    2^32 (in particular all one-limb divisors and all powers of two), and
    [divmod_abs_counterexample] exhibits a division that goes wrong. *)

From S2P Require Import Prelude Limbs Alloc.

(** ** The code *)

(** [while (qhat * vn[n-2] > ((rhat << 32) | un[j+n-2]))]: after two rounds
    [rhat] has grown past 2^32, because the top limb is at least 2^31. *)
Fixpoint qhat_loop (fuel : nat) (v1 v2 u0 qhat rhat : Z) : Z :=
  match fuel with
  | O => qhat
  | S fuel =>
      if (u64 (rhat .<< 32) .| u0) <? u64 (qhat * v2) then
        let qhat := u64 (qhat - 1) in
        let rhat := u64 (rhat + v1) in
        if B <=? rhat then qhat else qhat_loop fuel v1 v2 u0 qhat rhat
      else qhat
  end.

(** The estimate of one quotient digit from the window [w = un + j]. *)
Definition qhat_estimate (vn w : list Z) : Z :=
  let n := length vn in
  let v1 := rd vn (n - 1) in
  let numerator := u64 (rd w n .<< 32) .| rd w (n - 1) in
  let qhat := numerator / v1 in
  let rhat := numerator mod v1 in
  let '(qhat, rhat) :=
    if B <=? qhat then (B - 1, u64 (numerator - u64 ((B - 1) * v1))) else (qhat, rhat) in
  if (1 <? n)%nat then qhat_loop 2 v1 (rd vn (n - 2)) (rd w (n - 2)) qhat rhat else qhat.

(** Multiply and subtract; the second result is [k]. *)
Fixpoint mulsub (vn w : list Z) (qhat k : Z) : list Z * Z :=
  match vn with
  | [] => (w, k)
  | v :: vn =>
      let p := u64 (u64 (qhat * v) + k) in
      let k := p .>> 32 in
      let plow := u32 p in
      let x := rd w 0 in
      if x <? plow then
        let '(r, k) := mulsub vn (drop 1 w) qhat (u64 (k + 1)) in
        (u32 (u64 (x + B - plow)) :: r, k)
      else
        let '(r, k) := mulsub vn (drop 1 w) qhat k in
        (u32 (x - plow) :: r, k)
  end.

(** Add the divisor back; the second result is [carry]. *)
Fixpoint addback (vn w : list Z) (carry : Z) : list Z * Z :=
  match vn with
  | [] => (w, carry)
  | v :: vn =>
      let sum := u64 (rd w 0 + v + carry) in
      let '(r, c) := addback vn (drop 1 w) (sum .>> 32) in
      (u32 sum :: r, c)
  end.

(** One round of the loop over [j]: [un + j] before and after, and [q[j]]. *)
Definition div_step (vn w : list Z) : list Z * Z :=
  let n := length vn in
  let qhat := qhat_estimate vn w in
  let '(w, k) := mulsub vn w qhat 0 in
  let borrow := rd w n <? k in
  let w := <[n := u32 (u64 (rd w n - k))]> w in
  if borrow then
    let '(w, carry) := addback vn w 0 in
    (<[n := u32 (u64 (rd w n + carry))]> w, u32 (u64 (qhat - 1)))
  else (w, u32 qhat).

(** [for (size_t j = m + 1; j-- > 0;)]: the final [un] and the limbs of [q]. *)
Fixpoint div_loop (j : nat) (vn un : list Z) : list Z * list Z :=
  match j with
  | O => (un, [])
  | S j =>
      let '(w, qj) := div_step vn (drop j un) in
      let '(un, q) := div_loop j vn (take j un ++ w) in
      (un, q ++ [qj])
  end.

(** The arithmetic of the multi-limb case. *)
Definition div_long (num den : list Z) : list Z * list Z :=
  let n := length den in
  let m := (length num - n)%nat in
  let shift := clz32_nonzero (rd den (n - 1)) in
  let vn := if shift =? 0 then den else (shl_loop den shift 0).1 in
  let un := if shift =? 0 then num ++ [0]
            else let '(r, carry) := shl_loop num shift 0 in r ++ [carry] in
  let '(un, q) := div_loop (m + 1) vn un in
  (bigint_normalize_limbs q,
   bigint_normalize_limbs
     (if shift =? 0 then take n un else (shr_loop (take n un) shift).1)).

(** [bigint_divmod_abs_limbs]; [want_q] and [want_r] say which of [q_out] and
    [r_out] are given.  Both callers turn its [false] into ["oom"]. *)
Definition bigint_divmod_abs_limbs (grant : nat -> bool) (num den : list Z)
  (want_q want_r : bool) : M (list Z * list Z) :=
  if (length den =? 1)%nat && (rd den 0 =? 0) then throw_oom
  else if bigint_cmp_abs_limbs num den <? 0 then
    (if want_q then request grant else ret tt);;;
    (if want_r then request grant else ret tt);;;
    ret ([0], bigint_normalize_limbs num)
  else if (length den =? 1)%nat then
    request grant;;;
    let '(q, rem) := bigint_div_small_inplace num (rd den 0) in
    (if want_r then request grant else ret tt);;;
    ret (bigint_normalize_limbs q, [u32 rem])
  else
    request grant;;; request grant;;; request grant;;;
    (if want_r then request grant else ret tt);;;
    ret (div_long num den).

(** ** Multiply-subtract and add-back *)

Lemma drop_add (w : list Z) a b : drop a (drop b w) = drop (b + a) w.
Proof. apply drop_drop. Qed.

Lemma mulsub_spec vn : forall w qhat k, limbs vn -> limbs w -> (length vn <= length w)%nat ->
  0 <= qhat < B -> 0 <= k < B ->
  let '(r, k') := mulsub vn w qhat k in
  let n := length vn in
  limbs r /\ length r = length w /\ drop n r = drop n w /\ 0 <= k' < B /\
  lv (take n r) = lv (take n w) - qhat * lv vn - k + B ^ Z.of_nat n * k'.
Proof.
  induction vn as [|v vn IH]; intros w qhat k Hv Hw Hl Hq Hk; cbn [mulsub].
  { cbn [length]. rewrite !take_0, !drop_0. splits; auto; try lia.
    change (B ^ Z.of_nat 0) with 1. cbn [lv]. lia. }
  inversion_clear Hv as [|? ? Hv0 Hvn]. destruct w as [|x w]; [cbn in Hl; lia|].
  inversion_clear Hw as [|? ? Hx Hw']. unfold is_limb, B in Hv0, Hx, Hq, Hk. cbn [length] in Hl.
  change (rd (x :: w) 0) with x. change (drop 1 (x :: w)) with (drop 0 w). rewrite drop_0.
  assert (Hp : 0 <= qhat * v + k <= B * (B - 1)) by (unfold B; nia).
  rewrite (wrap_small 64 (qhat * v)) by (unfold B in Hp; nia).
  rewrite (wrap_small 64 (qhat * v + k)) by (unfold B in Hp; lia).
  set (p := qhat * v + k) in *.
  pose proof (Z.div_mod p B ltac:(discriminate)) as Dm.
  pose proof (Z.mod_pos_bound p B ltac:(reflexivity)) as Mb.
  assert (Ep : u32 p = p mod B) by reflexivity.
  assert (Ek : p .>> 32 = p / B) by (apply Z.shiftr_div_pow2; lia).
  rewrite Ep, Ek. set (ph := p / B) in *. set (pl := p mod B) in *.
  assert (Hph : 0 <= ph <= B - 1) by (unfold B in *; lia).
  destruct (Z.ltb_spec x pl) as [Hlt|Hge].
  - assert (ph < B - 1) by (unfold B in *; lia).
    rewrite (wrap_small 64 (ph + 1)) by (unfold B in *; lia).
    specialize (IH w qhat (ph + 1) Hvn Hw' ltac:(lia) Hq ltac:(lia)).
    destruct (mulsub vn w qhat (ph + 1)) as [r k'].
    destruct IH as (I1 & I2 & I3 & I4 & I5). cbn [length take drop lv].
    rewrite (wrap_small 64), (wrap_small 32) by (unfold B in *; lia).
    splits; auto; try lia.
    + constructor; [unfold is_limb; lia|exact I1].
    + rewrite B_pow. apply (f_equal (Z.mul B)) in I5. unfold p in *. lia.
  - specialize (IH w qhat ph Hvn Hw' ltac:(lia) Hq ltac:(lia)).
    destruct (mulsub vn w qhat ph) as [r k'].
    destruct IH as (I1 & I2 & I3 & I4 & I5). cbn [length take drop lv].
    rewrite (wrap_small 32) by (unfold B in *; lia).
    splits; auto; try lia.
    + constructor; [unfold is_limb, B in *; lia|exact I1].
    + rewrite B_pow. apply (f_equal (Z.mul B)) in I5. unfold p in *. lia.
Qed.

Lemma addback_spec vn : forall w carry, limbs vn -> limbs w -> (length vn <= length w)%nat ->
  0 <= carry <= 1 ->
  let '(r, c) := addback vn w carry in
  let n := length vn in
  limbs r /\ length r = length w /\ drop n r = drop n w /\ 0 <= c <= 1 /\
  lv (take n r) + B ^ Z.of_nat n * c = lv (take n w) + lv vn + carry.
Proof.
  induction vn as [|v vn IH]; intros w carry Hv Hw Hl Hc; cbn [addback].
  { cbn [length]. rewrite !take_0, !drop_0. splits; auto; try lia.
    change (B ^ Z.of_nat 0) with 1. cbn [lv]. lia. }
  inversion_clear Hv as [|? ? Hv0 Hvn]. destruct w as [|x w]; [cbn in Hl; lia|].
  inversion_clear Hw as [|? ? Hx Hw']. unfold is_limb, B in Hv0, Hx. cbn [length] in Hl.
  change (rd (x :: w) 0) with x. change (drop 1 (x :: w)) with (drop 0 w). rewrite drop_0.
  set (s := x + v + carry) in *. assert (Hs : 0 <= s < 2 ^ 64) by (unfold s; lia).
  pose proof (split_carry s Hs) as S. pose proof (carry_div s Hs) as D.
  assert (Hc' : 0 <= u64 s .>> 32 <= 1).
  { rewrite D. unfold s, B. split; [apply Z.div_pos; lia|].
    assert ((x + v + carry) / 2 ^ 32 < 2) by (apply Z.div_lt_upper_bound; lia). lia. }
  specialize (IH w (u64 s .>> 32) Hvn Hw' ltac:(lia) Hc').
  destruct (addback vn w (u64 s .>> 32)) as [r c].
  destruct IH as (I1 & I2 & I3 & I4 & I5). cbn [length take drop lv]. splits; auto; try lia.
  - constructor; [apply u32_limb|exact I1].
  - rewrite B_pow. apply (f_equal (Z.mul B)) in I5. unfold s in *. lia.
Qed.

(** ** The quotient digit *)

(** The leading limbs of divisor and window, and what lies below them. *)
Section Digit.
Context (v1 v2 vl u2 u1 u0 wl P V W : Z).
Context (HP : 0 < P) (Hvl : 0 <= vl < P) (Hwl : 0 <= wl < P).
Context (Hv1 : 2 ^ 31 <= v1 < B) (Hv2 : 0 <= v2 < B).
Context (Hu2 : 0 <= u2 < B) (Hu1 : 0 <= u1 < B) (Hu0 : 0 <= u0 < B).
Context (HV : V = vl + P * (v2 + B * v1)).
Context (HW : W = wl + P * (u0 + B * (u1 + B * u2))).

(** A digit that passes the test is at most one too large. *)
Lemma digit_upper q : 0 <= q < B -> q * (v1 * B + v2) <= (u2 * B + u1) * B + u0 -> q * V < W + V.
Proof using Type*.
  intros Hq Ht.
  assert (H1 : P * (q * (v1 * B + v2)) <= P * ((u2 * B + u1) * B + u0)) by (apply Z.mul_le_mono_nonneg_l; lia).
  assert (H2 : q * vl <= (B - 1) * vl) by (apply Z.mul_le_mono_nonneg_r; lia).
  assert (H3 : P * B <= P * (B * v1)) by (apply Z.mul_le_mono_nonneg_l; unfold B in *; lia).
  assert (H4 : 0 <= P * v2) by (apply Z.mul_nonneg_nonneg; lia).
  assert ((B - 1) * vl <= (B - 1) * P) by (apply Z.mul_le_mono_nonneg_l; unfold B; lia).
  rewrite HV, HW. lia.
Qed.

(** A digit that fails it is too large. *)
Lemma digit_lower q : 0 <= q < B -> (u2 * B + u1) * B + u0 < q * (v1 * B + v2) -> W < q * V.
Proof using Type*.
  intros Hq Ht.
  assert (H1 : P * ((u2 * B + u1) * B + u0 + 1) <= P * (q * (v1 * B + v2)))
    by (apply Z.mul_le_mono_nonneg_l; lia).
  assert (H2 : 0 <= q * vl) by (apply Z.mul_nonneg_nonneg; lia).
  rewrite HV, HW. lia.
Qed.

Lemma qhat_loop_spec fuel : forall q r, 0 <= q < B -> 0 <= r < B ->
  u2 * B + u1 = q * v1 + r -> W < (q + 1) * V -> B <= r + Z.of_nat fuel * v1 ->
  let q' := qhat_loop fuel v1 v2 u0 q r in 0 <= q' < B /\ W < (q' + 1) * V /\ q' * V < W + V.
Proof using Type*.
  induction fuel as [|fuel IH]; intros q r Hq Hr E Hw Hf; [lia|]. cbn [qhat_loop].
  assert (Hsh : u64 (r .<< 32) .| u0 = r * B + u0).
  { rewrite wrap_small by (rewrite Z.shiftl_mul_pow2; unfold B in *; lia).
    unfold B in *. apply lor_shiftl_add; lia. }
  rewrite Hsh, (wrap_small 64 (q * v2)) by (unfold B in *; nia).
  destruct (Z.ltb_spec (r * B + u0) (q * v2)) as [Ht|Ht]; cbv zeta.
  - assert (1 <= q) by nia.
    rewrite (wrap_small 64 (q - 1)), (wrap_small 64 (r + v1)) by (unfold B in *; lia).
    assert (Hw1 : W < (q - 1 + 1) * V).
    { replace (q - 1 + 1) with q by lia. apply digit_lower; [lia|]. rewrite E. lia. }
    destruct (Z.leb_spec B (r + v1)) as [Hb|Hb].
    + splits; try lia. apply digit_upper; [lia|]. rewrite E. nia.
    + apply IH; try lia.
  - splits; try lia. apply digit_upper; [lia|]. rewrite E. lia.
Qed.

(** The estimate, from the leading limbs alone. *)
Definition digit_guess : Z :=
  let numerator := u2 * B + u1 in
  let '(q, r) := if B <=? numerator / v1 then (B - 1, numerator - (B - 1) * v1)
                 else (numerator / v1, numerator mod v1) in
  qhat_loop 2 v1 v2 u0 q r.

Lemma digit_guess_spec : W < B * V -> v1 + v2 < B ->
  0 <= digit_guess < B /\ W < (digit_guess + 1) * V /\ digit_guess * V < W + V.
Proof using Type*.
  intros HB Hs. unfold digit_guess. cbv zeta.
  pose proof (Z.div_mod (u2 * B + u1) v1 ltac:(lia)) as Dm.
  pose proof (Z.mod_pos_bound (u2 * B + u1) v1 ltac:(lia)) as Mb.
  assert (Hn : 0 <= u2 * B + u1) by (unfold B in *; lia).
  destruct (Z.leb_spec B ((u2 * B + u1) / v1)) as [Hb|Hb].
  - assert (B * v1 <= u2 * B + u1) by nia.
    assert (Hle : (u2 * B + u1) * P * B < (v1 * B + v2 + 1) * P * B).
    { rewrite HV, HW in HB. pose proof B_pos.
      assert (0 <= P * u0) by (apply Z.mul_nonneg_nonneg; lia).
      assert (B * vl <= B * (P - 1)) by (apply Z.mul_le_mono_nonneg_l; lia). lia. }
    assert (u2 * B + u1 < v1 * B + v2 + 1).
    { pose proof B_pos. apply (Z.mul_lt_mono_pos_r (P * B)); [apply Z.mul_pos_pos; lia|]. lia. }
    apply qhat_loop_spec; unfold B in *; try lia.
  - assert (0 <= (u2 * B + u1) / v1) by (apply Z.div_pos; lia).
    apply qhat_loop_spec; try (unfold B in *; lia).
    assert (Hlt : u2 * B + u1 + 1 <= ((u2 * B + u1) / v1 + 1) * v1) by lia.
    set (q := (u2 * B + u1) / v1) in *. pose proof B_pos.
    assert (P * B * (u2 * B + u1 + 1) <= P * B * ((q + 1) * v1))
      by (apply Z.mul_le_mono_nonneg_l; [apply Z.mul_nonneg_nonneg; lia|lia]).
    assert (0 <= (q + 1) * (vl + P * v2)).
    { apply Z.mul_nonneg_nonneg; [lia|]. apply Z.add_nonneg_nonneg; [lia|]. apply Z.mul_nonneg_nonneg; lia. }
    assert (P * (u0 + 1) <= P * B) by (apply Z.mul_le_mono_nonneg_l; lia).
    rewrite HV, HW. lia.
Qed.

End Digit.

(** ** One round *)

Lemma lv_at n w : (n < length w)%nat ->
  lv w = lv (take n w) + B ^ Z.of_nat n * (rd w n + B * lv (drop (S n) w)).
Proof. intros H. rewrite (lv_split n w) by lia. rewrite (drop_cons_rd w n H). reflexivity. Qed.

Lemma lv_at3 n w : (2 <= n)%nat -> (n < length w)%nat ->
  lv w = lv (take (n - 2) w) + B ^ Z.of_nat (n - 2) *
    (rd w (n - 2) + B * (rd w (n - 1) + B * (rd w n + B * lv (drop (S n) w)))).
Proof.
  intros H2 H. rewrite (lv_split (n - 2) w) by lia. rewrite (drop_cons_rd w (n - 2)) by lia.
  replace (S (n - 2)) with (n - 1)%nat by lia. rewrite (drop_cons_rd w (n - 1)) by lia.
  replace (S (n - 1)) with n by lia. rewrite (drop_cons_rd w n) by lia. reflexivity.
Qed.

Lemma lv_insert n w t : (n < length w)%nat ->
  lv (<[n := t]> w) = lv w + B ^ Z.of_nat n * (t - rd w n).
Proof.
  intros H. rewrite (lv_at n w H). rewrite (lv_at n) by (rewrite length_insert; exact H).
  rewrite take_insert_ge, drop_insert_lt by lia.
  rewrite (rd_lookup _ n t) by (apply list_lookup_insert_eq; exact H). ring.
Qed.

Lemma limbs_insert n w t : limbs w -> is_limb t -> limbs (<[n := t]> w).
Proof. intros. apply Forall_insert; auto. Qed.

(** The value of an array whose lowest [n] limbs changed. *)
Lemma lv_low n r w : (n <= length w)%nat -> length r = length w -> drop n r = drop n w ->
  lv r = lv w + (lv (take n r) - lv (take n w)).
Proof.
  intros H L D. rewrite (lv_split n w) by lia. rewrite (lv_split n r) by lia. rewrite D. ring.
Qed.

Lemma rd_same_drop (r w : list Z) n : drop n r = drop n w -> rd r n = rd w n.
Proof. intros D. pose proof (rd_drop r n 0) as H1. pose proof (rd_drop w n 0) as H2.
  rewrite Nat.add_0_r in *. congruence. Qed.

Definition divisor_ok (vn : list Z) : Prop :=
  limbs vn /\ (2 <= length vn)%nat /\ 2 ^ 31 <= rd vn (length vn - 1) /\
  rd vn (length vn - 1) + rd vn (length vn - 2) < B.

Section Round.
Context (vn w : list Z).
Abbreviation n := (length vn).
Abbreviation V := (lv vn).
Context (Hv : divisor_ok vn) (Hw : limbs w) (Hn : (n < length w)%nat) (HB : lv w < B * V).

Lemma window_top : lv (drop (S n) w) = 0.
Proof using Type*.
  destruct Hv as (Hvl & _). pose proof (lv_range vn Hvl) as [_ R].
  pose proof (lv_at n w Hn) as E. pose proof (lv_range _ (limbs_drop (S n) w Hw)) as [R1 _].
  pose proof (lv_range (take n w) ltac:(apply Forall_take; exact Hw)) as [R2 _].
  pose proof (rd_limb w n Hw) as [R3 _]. pose proof (B_pow_pos n). pose proof B_pos.
  assert (B * V < B * B ^ Z.of_nat n) by (apply Z.mul_lt_mono_pos_l; lia).
  destruct (Z.eq_dec (lv (drop (S n) w)) 0) as [|Hne]; [assumption|exfalso].
  assert (B ^ Z.of_nat n * (B * 1) <= B ^ Z.of_nat n * (B * lv (drop (S n) w))).
  { apply Z.mul_le_mono_nonneg_l; [lia|]. apply Z.mul_le_mono_nonneg_l; lia. }
  assert (0 <= B ^ Z.of_nat n * rd w n) by (apply Z.mul_nonneg_nonneg; lia). lia.
Qed.

Lemma qhat_estimate_spec : let q := qhat_estimate vn w in
  0 <= q < B /\ lv w < (q + 1) * V /\ q * V < lv w + V.
Proof using Type*.
  pose proof window_top as T. destruct Hv as (Hvl & H2 & Htop & Hsum).
  pose proof (rd_limb vn (n - 1) Hvl) as L1. pose proof (rd_limb vn (n - 2) Hvl) as L2.
  pose proof (rd_limb w n Hw) as L3. pose proof (rd_limb w (n - 1) Hw) as L4.
  pose proof (rd_limb w (n - 2) Hw) as L5. unfold is_limb in *.
  pose proof (lv_at3 n w H2 Hn) as EW. rewrite T, Z.mul_0_r, Z.add_0_r in EW.
  assert (EV : V = lv (take (n - 2) vn) + B ^ Z.of_nat (n - 2) * (rd vn (n - 2) + B * rd vn (n - 1))).
  { rewrite (lv_split (n - 2) vn) at 1 by lia. rewrite (drop_cons_rd vn (n - 2)) by lia.
    replace (S (n - 2)) with (n - 1)%nat by lia. rewrite (drop_cons_rd vn (n - 1)) by lia.
    replace (S (n - 1)) with n by lia. rewrite drop_all. cbn [lv]. ring. }
  pose proof (lv_range (take (n - 2) vn) ltac:(apply Forall_take; exact Hvl)) as R1.
  pose proof (lv_range (take (n - 2) w) ltac:(apply Forall_take; exact Hw)) as R2.
  rewrite length_take_le in R1, R2 by lia.
  pose proof (digit_guess_spec _ _ _ _ _ _ _ _ _ _ (B_pow_pos (n - 2)) R1 R2
    (conj Htop (proj2 L1)) L2 L3 L4 L5 EV EW HB Hsum) as G.
  assert (Hnum : u64 (rd w n .<< 32) .| rd w (n - 1) = rd w n * B + rd w (n - 1)).
  { rewrite wrap_small by (rewrite Z.shiftl_mul_pow2; unfold B in *; lia).
    unfold B in *. apply lor_shiftl_add; lia. }
  unfold qhat_estimate. rewrite Hnum. cbv zeta. unfold digit_guess in G. cbv zeta in G.
  destruct (Nat.ltb_spec 1 n); [|lia].
  destruct (Z.leb_spec B ((rd w n * B + rd w (n - 1)) / rd vn (n - 1))) as [Hb|Hb]; [|exact G].
  rewrite (wrap_small 64 ((B - 1) * _)) by (unfold B in *; nia).
  rewrite wrap_small; [exact G|]. unfold B in *. pose proof (Z.mul_div_le
    (rd w n * 2 ^ 32 + rd w (n - 1)) (rd vn (n - 1)) ltac:(lia)). nia.
Qed.

Lemma div_step_spec : let '(w', q) := div_step vn w in
  limbs w' /\ length w' = length w /\ is_limb q /\ lv w = q * V + lv w' /\ 0 <= lv w' < V.
Proof using Type*.
  pose proof qhat_estimate_spec as (Hq & Q1 & Q2). pose proof window_top as T.
  destruct Hv as (Hvl & _). unfold div_step. set (q := qhat_estimate vn w) in *.
  pose proof (mulsub_spec vn w q 0 Hvl Hw ltac:(lia) Hq ltac:(unfold B; lia)) as M.
  destruct (mulsub vn w q 0) as [w1 k]. cbv zeta in M. destruct M as (M1 & M2 & M3 & M4 & M5).
  pose proof (lv_low n w1 w ltac:(lia) M2 M3) as E1. rewrite M5 in E1.
  pose proof (rd_same_drop w1 w n M3) as Etop. rewrite Etop.
  pose proof (rd_limb w n Hw) as Lt. unfold is_limb in Lt.
  assert (Hn1 : (n < length w1)%nat) by lia.
  pose proof (lv_at n w Hn) as EW. rewrite T, Z.mul_0_r, Z.add_0_r in EW.
  pose proof (lv_range (take n w) ltac:(apply Forall_take; exact Hw)) as R.
  pose proof (lv_range (take n w1) ltac:(apply Forall_take; exact M1)) as R1.
  rewrite length_take_le in R, R1 by lia. rewrite M5 in R1.
  pose proof (B_pow_pos n) as BP. pose proof (lv_range vn Hvl) as RV.
  destruct (Z.ltb_spec (rd w n) k) as [Hlt|Hge].
  - set (t := u32 (u64 (rd w n - k))).
    assert (Ht : t = rd w n - k + B).
    { unfold t, wrap, B in *. rewrite <- (Zmod_unique (rd w n - k) (2 ^ 64) (-1) (rd w n - k + 2 ^ 64)) by lia.
      rewrite <- (Zmod_unique (rd w n - k + 2 ^ 64) (2 ^ 32) (2 ^ 32 - 1) (rd w n - k + 2 ^ 32)) by lia.
      reflexivity. }
    assert (Lt2 : is_limb t) by apply u32_limb.
    pose proof (addback_spec vn (<[n:=t]> w1) 0 Hvl (limbs_insert n w1 t M1 Lt2)
      ltac:(rewrite length_insert; lia) ltac:(lia)) as A.
    destruct (addback vn (<[n:=t]> w1) 0) as [w2 c]. cbv zeta in A. destruct A as (A1 & A2 & A3 & A4 & A5).
    pose proof (lv_low n w2 (<[n:=t]> w1) ltac:(rewrite length_insert; lia) A2 A3) as E2.
    rewrite take_insert_ge in A5, E2 by lia. rewrite lv_insert, Etop in E2 by lia.
    pose proof (rd_same_drop w2 (<[n:=t]> w1) n A3) as Et2.
    rewrite (rd_lookup (<[n:=t]> w1) n t) in Et2 by (apply list_lookup_insert_eq; lia).
    rewrite length_insert in A2. rewrite Et2.
    assert (Hneg : lv w < q * V) by nia.
    assert (Hq1 : 1 <= q) by nia.
    pose proof (lv_range (take n w2) ltac:(apply Forall_take; exact A1)) as R2.
    rewrite length_take_le in R2 by lia.
    (* the corrected remainder is at least 0, so the last carry leaves the top limb *)
    assert (Hc : t + c = B).
    { unfold is_limb in Lt2. clear Hq. nia. }
    rewrite (wrap_small 64 (t + c)) by (unfold B in *; lia).
    rewrite Hc. change (u32 B) with 0.
    rewrite (wrap_small 64 (q - 1)), (wrap_small 32 (q - 1)) by (unfold B in *; lia). splits.
    + apply limbs_insert; [exact A1|]. unfold is_limb, B. lia.
    + rewrite length_insert. lia.
    + unfold is_limb. lia.
    + rewrite lv_insert, Et2 by lia. nia.
    + apply lv_range, limbs_insert; [exact A1|]. unfold is_limb, B. lia.
    + rewrite lv_insert, Et2 by lia. nia.
  - rewrite (wrap_small 64 (rd w n - k)), (wrap_small 32 (rd w n - k)), (wrap_small 32 q)
      by (unfold B in *; lia). splits.
    + apply limbs_insert; [exact M1|]. unfold is_limb. lia.
    + rewrite length_insert. lia.
    + exact Hq.
    + rewrite lv_insert, Etop by lia. lia.
    + apply lv_range, limbs_insert; [exact M1|]. unfold is_limb. lia.
    + rewrite lv_insert, Etop by lia. lia.
Qed.

End Round.

(** ** The whole division *)

Lemma div_loop_spec vn (Hv : divisor_ok vn) j : forall un, limbs un ->
  (j + length vn <= length un)%nat -> lv (drop j un) < lv vn ->
  let '(un', q) := div_loop j vn un in
  limbs un' /\ length un' = length un /\ limbs q /\ length q = j /\
  lv un = lv q * lv vn + lv un' /\ lv un' < lv vn.
Proof.
  induction j as [|j IH]; intros un Hu Hl Hd; cbn [div_loop].
  { rewrite drop_0 in Hd. cbn [lv length]. splits; auto; lia. }
  pose proof (lv_range _ (limbs_drop (S j) un Hu)) as [Rd _].
  pose proof (rd_limb un j Hu) as Rj. unfold is_limb in Rj.
  assert (Hwin : lv (drop j un) < B * lv vn).
  { rewrite (drop_cons_rd un j) by lia. cbn [lv]. pose proof B_pos. nia. }
  pose proof (div_step_spec vn (drop j un) Hv (limbs_drop j un Hu)
    ltac:(rewrite length_drop; lia) Hwin) as S.
  destruct (div_step vn (drop j un)) as [w qj]. destruct S as (S1 & S2 & S3 & S4 & S5).
  rewrite length_drop in S2.
  specialize (IH (take j un ++ w)). rewrite length_app, length_take_le in IH by lia.
  rewrite drop_app_length' in IH by (rewrite length_take_le; lia).
  destruct (div_loop j vn (take j un ++ w)) as [un' q].
  destruct IH as (I1 & I2 & I3 & I4 & I5 & I6); try lia.
  { apply Forall_app. split; [apply Forall_take; exact Hu|exact S1]. }
  splits; auto; try lia.
  - apply Forall_app. auto using Forall_cons, Forall_nil.
  - rewrite length_app. cbn. lia.
  - rewrite lv_app, length_take_le in I5 by lia. rewrite lv_snoc, I4.
    rewrite (lv_split j un) by lia. rewrite S4. lia.
Qed.

Lemma clz_spec v : 0 < v < B -> let s := clz32_nonzero v in 0 <= s < 32 /\ 2 ^ 31 <= v * 2 ^ s < B.
Proof.
  intros Hv. unfold clz32_nonzero. pose proof (Z.log2_spec v ltac:(lia)) as [L1 L2].
  pose proof (Z.log2_nonneg v). assert (Z.log2 v < 32) by (apply Z.log2_lt_pow2; unfold B in *; lia).
  rewrite <- Z.add_1_r, Z.pow_add_r in L2 by lia. change (2 ^ 1) with 2 in L2.
  set (s := Z.log2 v) in *. assert (P : 2 ^ s * 2 ^ (31 - s) = 2 ^ 31).
  { rewrite <- Z.pow_add_r by lia. f_equal. lia. }
  pose proof (Z.pow_pos_nonneg 2 (31 - s) ltac:(lia) ltac:(lia)).
  cbv zeta. unfold B. splits; try lia; nia.
Qed.

(** The divisor as the loop sees it: shifted so that its top bit is set. *)
Definition den_shift (den : list Z) : Z := clz32_nonzero (rd den (length den - 1)).
Definition den_normalised (den : list Z) : list Z :=
  if den_shift den =? 0 then den else (shl_loop den (den_shift den) 0).1.

(** The divisors for which the digit test cannot wrap. *)
Definition den_safe (den : list Z) : bool :=
  let vn := den_normalised den in
  (length den =? 1)%nat || (rd vn (length den - 1) + rd vn (length den - 2) <? B).

(** The dividend with its extra limb, shifted alike. *)
Lemma num_shifted_spec num s : limbs num -> 0 <= s < 32 ->
  let un := if s =? 0 then num ++ [0]
            else let '(r, carry) := shl_loop num s 0 in r ++ [carry] in
  limbs un /\ length un = (length num + 1)%nat /\ lv un = lv num * 2 ^ s.
Proof.
  intros Hnum Hs. cbv zeta. destruct (Z.eqb_spec s 0) as [->|E].
  - rewrite length_app, lv_snoc, Z.pow_0_r. cbn [length]. splits; try lia.
    apply Forall_app. split; [exact Hnum|]. apply limbs_one. lia.
  - pose proof (shl_loop_spec num s 0 Hnum Hs ltac:(pose proof (Z.pow_pos_nonneg 2 s); lia)) as H.
    destruct (shl_loop num s 0) as [r c]. destruct H as (I1 & I2 & I3 & I4).
    rewrite length_app, lv_snoc, I2. cbn [length]. splits; try lia.
    apply Forall_app. split; [exact I1|]. apply limbs_one.
    assert (2 ^ s <= 2 ^ 31) by (apply Z.pow_le_mono_r; lia). lia.
Qed.

(** Undoing the shift on the remainder. *)
Lemma rem_unshift s un r : 0 <= s < 32 -> limbs un -> lv un = r * 2 ^ s ->
  let l := if s =? 0 then un else (shr_loop un s).1 in
  limbs l /\ length l = length un /\ lv l = r.
Proof.
  intros Hs Hu E. cbv zeta. destruct (Z.eqb_spec s 0) as [E0|E0].
  - rewrite E0, Z.pow_0_r in E. splits; auto. lia.
  - pose proof (shr_loop_spec un s Hu ltac:(lia)) as H. destruct (shr_loop un s) as [l c].
    destruct H as (I1 & I2 & I3 & _). cbn [fst]. splits; auto.
    rewrite I3, E. apply Z.div_mul. apply Z.pow_nonzero; lia.
Qed.

Section Long.
Context (num den : list Z).
Context (Hnum : limbs num) (Hden : limbs den) (Hn : normal den) (H2 : (2 <= length den)%nat).

Lemma den_top : 0 < rd den (length den - 1) < B.
Proof using Type*.
  destruct Hn as [_ Ht]. pose proof (rd_limb den (length den - 1) Hden) as [? ?].
  specialize (Ht ltac:(lia)). lia.
Qed.

Lemma den_normalised_spec : let s := den_shift den in let vn := den_normalised den in
  limbs vn /\ length vn = length den /\ lv vn = lv den * 2 ^ s /\ 2 ^ 31 <= rd vn (length den - 1).
Proof using Type*.
  pose proof (clz_spec _ den_top) as [S1 S2]. unfold den_normalised.
  change (clz32_nonzero (rd den (length den - 1))) with (den_shift den) in S1, S2.
  set (s := den_shift den) in *. cbv zeta.
  assert (Hne : den <> []) by (destruct den; cbn in *; [lia|discriminate]).
  destruct (Z.eqb_spec s 0) as [E|E].
  { rewrite E, Z.pow_0_r, Z.mul_1_r in *. splits; auto. lia. }
  pose proof (shl_loop_spec den s 0 Hden S1 ltac:(pose proof (Z.pow_pos_nonneg 2 s); lia)) as H.
  destruct (shl_loop den s 0) as [r c]. cbn [fst]. destruct H as (I1 & I2 & I3 & I4).
  pose proof (lv_top den Hden Hne) as T. cbv zeta in T.
  set (n := length den) in *. set (t := rd den (n - 1)) in *.
  pose proof (B_pow_pos (n - 1)) as BP.
  assert (EB : B ^ Z.of_nat n = B * B ^ Z.of_nat (n - 1)) by (rewrite <- B_pow; do 2 f_equal; lia).
  pose proof (Z.pow_pos_nonneg 2 s ltac:(lia) ltac:(lia)) as Ps.
  set (P := B ^ Z.of_nat (n - 1)) in *.
  (* (t + 1) * 2^s <= B because both sides are multiples of 2^s *)
  assert (Hup : (t + 1) * 2 ^ s <= B).
  { pose proof (B_split s ltac:(lia)) as EBs.
    assert (t < 2 ^ (32 - s)) by (apply (Z.mul_lt_mono_pos_r (2 ^ s)); lia).
    rewrite EBs, Z.mul_comm. apply Z.mul_le_mono_nonneg_l; lia. }
  assert (L1 : lv den * 2 ^ s < P * B) by nia.
  pose proof (lv_range r I1) as R. rewrite I2, EB in R.
  assert (c = 0) by (rewrite EB in I4; nia). subst c.
  assert (Hrne : r <> []) by (destruct r; cbn in *; [unfold n in *; lia|discriminate]).
  pose proof (lv_top r I1 Hrne) as Tr. cbv zeta in Tr. rewrite I2 in Tr. fold P in Tr.
  splits; auto; try lia. nia.
Qed.


Lemma div_long_spec : (length den <= length num)%nat -> den_safe den = true ->
  let '(q, r) := div_long num den in
  limbs q /\ normal q /\ lv q = lv num / lv den /\ (length q <= length num)%nat /\
  limbs r /\ normal r /\ lv r = lv num mod lv den /\ (length r <= length den)%nat.
Proof using Type*.
  intros Hlen Hsafe. pose proof (clz_spec _ den_top) as [S1 _].
  pose proof den_normalised_spec as (V1 & V2 & V3 & V4). cbv zeta in V3.
  unfold div_long. fold (den_shift den). set (s := den_shift den) in *.
  change (if s =? 0 then den else (shl_loop den s 0).1) with (den_normalised den).
  change (clz32_nonzero (rd den (length den - 1))) with s in S1.
  pose proof (num_shifted_spec num s Hnum S1) as (U1 & U2 & U3).
  set (vn := den_normalised den) in *. set (un := if s =? 0 then num ++ [0] else _) in *.
  pose proof (Z.pow_pos_nonneg 2 s ltac:(lia) ltac:(lia)) as Ps.
  pose proof (lv_normal_lower den Hden Hn ltac:(lia)) as Lden.
  pose proof (B_pow_pos (length den - 1)) as BPd.
  assert (Hdiv : divisor_ok vn).
  { unfold den_safe in Hsafe. fold vn in Hsafe. apply orb_true_iff in Hsafe as [X|X]; boolprop; [lia|].
    unfold divisor_ok. rewrite V2. splits; auto. }
  set (m := (length num - length den)%nat).
  assert (Hhigh : lv (drop (m + 1) un) < lv vn).
  { pose proof (lv_split (m + 1) un ltac:(unfold m; lia)) as E.
    pose proof (lv_range (take (m + 1) un) ltac:(apply Forall_take; exact U1)) as [Rt _].
    pose proof (lv_range num Hnum) as [_ Rn]. pose proof (B_pow_pos (m + 1)) as BPm.
    assert (EB : B ^ Z.of_nat (length num) = B ^ Z.of_nat (m + 1) * B ^ Z.of_nat (length den - 1)).
    { rewrite <- Z.pow_add_r by lia. f_equal. unfold m. lia. }
    apply (Z.mul_lt_mono_pos_l (B ^ Z.of_nat (m + 1))); [exact BPm|].
    apply Z.le_lt_trans with (lv num * 2 ^ s); [lia|].
    apply Z.lt_le_trans with (B ^ Z.of_nat (length num) * 2 ^ s); [apply Z.mul_lt_mono_pos_r; lia|].
    rewrite EB, V3, <- Z.mul_assoc. apply Z.mul_le_mono_nonneg_l; [lia|].
    apply Z.mul_le_mono_nonneg_r; lia. }
  pose proof (div_loop_spec vn Hdiv (m + 1) un U1 ltac:(unfold m; lia) Hhigh) as L.
  destruct (div_loop (m + 1) vn un) as [un' q]. destruct L as (L1 & L2 & L3 & L4 & L5 & L6).
  pose proof (lv_range un' L1) as [Ru _].
  assert (Hdrop : lv un' = lv (take (length den) un')).
  { pose proof (lv_split (length den) un' ltac:(unfold m in *; lia)) as E.
    pose proof (lv_range _ (limbs_drop (length den) un' L1)) as [R0 _].
    pose proof (lv_range (take (length den) un') ltac:(apply Forall_take; exact L1)) as [R1 _].
    pose proof (lv_range vn V1) as [_ R2]. rewrite V2 in R2. pose proof (B_pow_pos (length den)).
    assert (lv (drop (length den) un') = 0) by nia. nia. }
  set (d := lv den) in *. set (r := lv num - lv q * d) in *.
  assert (Er : lv un' = r * 2 ^ s) by (unfold r; lia).
  assert (Hr : 0 <= r < d) by (split; nia).
  pose proof (rem_unshift s (take (length den) un') r S1 ltac:(apply Forall_take; exact L1)
    ltac:(lia)) as (M1 & M2 & M3).
  set (rl := if s =? 0 then take (length den) un' else _) in *.
  rewrite length_take_le in M2 by (unfold m in *; lia).
  assert (Hq : lv num / d = lv q) by (symmetry; apply Z.div_unique with r; unfold r in *; lia).
  assert (Hm : lv num mod d = r) by (symmetry; apply Z.mod_unique with (lv q); unfold r in *; lia).
  rewrite Hq, Hm, !normalize_lv. splits; auto using normalize_limbs.
  - apply normalize_normal. intros X. rewrite X in L4. cbn in L4. lia.
  - pose proof (normalize_length q). unfold m in *. lia.
  - apply normalize_normal. intros X. rewrite X in M2. cbn in M2. lia.
  - pose proof (normalize_length rl). lia.
Qed.

End Long.

(** What the division promises to its callers. *)
Definition divmod_post (num den : list Z) (qr : list Z * list Z) : Prop :=
  let '(q, r) := qr in
  limbs q /\ normal q /\ lv q = lv num / lv den /\ (length q <= length num)%nat /\
  limbs r /\ normal r /\ lv r = lv num mod lv den /\ (length r <= length num)%nat.

Lemma normal_pos l : normal l -> (1 <= length l)%nat.
Proof. intros [H _]. destruct l; cbn; [congruence|lia]. Qed.

Lemma yields_optional grant E b :
  yields grant E (if b : bool then request grant else ret tt) (fun _ => True).
Proof. destruct b; [apply yields_request|apply yields_ret; exact I]. Qed.

Ltac yopt := eapply yields_bind; [apply yields_optional|intros [] _].

Lemma divmod_abs_spec grant num den want_q want_r :
  limbs num -> limbs den -> normal num -> normal den -> lv den <> 0 ->
  den_safe den = true \/ lv num < lv den ->
  yields grant False (bigint_divmod_abs_limbs grant num den want_q want_r) (divmod_post num den).
Proof.
  intros Hnum Hden Nn Nd Hz Hs. unfold bigint_divmod_abs_limbs.
  pose proof (normal_pos _ Nn) as Ln. pose proof (normal_pos _ Nd) as Ld.
  pose proof (lv_range num Hnum) as [Rn _]. pose proof (lv_range den Hden) as [Rd _].
  fold (limbs_is_zero den). rewrite (is_zero_lv den Hden Nd).
  destruct (Z.eqb_spec (lv den) 0) as [|_]; [contradiction|].
  rewrite (cmp_abs_spec num den Hnum Hden (proj1 Nn) (proj1 Nd)). unfold sgn_cmp.
  assert (Hlt : ((if lv num =? lv den then 0 else if lv den <? lv num then 1 else -1) <? 0)
                = (lv num <? lv den)).
  { destruct (Z.eqb_spec (lv num) (lv den)), (Z.ltb_spec (lv den) (lv num)),
      (Z.ltb_spec (lv num) (lv den)); try reflexivity; lia. }
  rewrite Hlt. clear Hlt. destruct (Z.ltb_spec (lv num) (lv den)) as [Hlt|Hge].
  - yopt. yopt. apply yields_ret. unfold divmod_post.
    rewrite Z.div_small, Z.mod_small, normalize_lv by lia. splits; auto using normalize_limbs, normal_one.
    + apply limbs_one. lia.
    + apply normalize_normal, Nn.
    + apply normalize_length.
  - destruct Hs as [Hs|]; [|lia].
    destruct (Nat.eqb_spec (length den) 1) as [E1|E1].
    + destruct den as [|d [|]]; try discriminate. cbn [lv rd nth] in *. rewrite Z.mul_0_r, Z.add_0_r in *.
      inversion_clear Hden as [|? ? Hd _]. unfold is_limb in Hd. yreq.
      pose proof (div_small_spec num d Hnum ltac:(lia)) as S.
      destruct (bigint_div_small_inplace num d) as [q r]. destruct S as (S1 & S2 & S3 & S4).
      yopt. apply yields_ret. unfold divmod_post. cbn [lv length].
      rewrite wrap_small by (unfold B in *; lia). rewrite normalize_lv, Z.mul_0_r, !Z.add_0_r.
      assert (lv num / d = lv q) by (symmetry; apply Z.div_unique with r; lia).
      assert (lv num mod d = r) by (symmetry; apply Z.mod_unique with (lv q); lia).
      splits; auto using normalize_limbs, normal_one; try lia.
      * apply normalize_normal. intros ->. cbn in S2. lia.
      * pose proof (normalize_length q). lia.
      * apply limbs_one. unfold B in *. lia.
    + yreq. yreq. yreq. yopt. apply yields_ret.
      assert (Hlen : (length den <= length num)%nat).
      { destruct (Nat.le_gt_cases (length den) (length num)); [assumption|].
        pose proof (normal_longer den num Hden Hnum Nd (proj1 Nn) ltac:(lia)). lia. }
      pose proof (div_long_spec num den Hnum Hden Nd ltac:(lia) Hlen Hs) as D.
      unfold divmod_post. destruct (div_long num den) as [q r].
      destruct D as (D1 & D2 & D3 & D4 & D5 & D6 & D7 & D8). splits; auto. lia.
Qed.

(** Powers of two are divided by correctly. *)
Lemma shl_loop_zeros k x s : (shl_loop (replicate k 0 ++ [x]) s 0).1 = replicate k 0 ++ [u32 (u64 (x .<< s))].
Proof.
  induction k as [|k IH]; cbn [replicate app shl_loop].
  - rewrite Z.lor_0_r. reflexivity.
  - rewrite Z.shiftl_0_l. change (u64 0 .| 0) with 0. change (u32 (0 .>> 32)) with 0.
    destruct (shl_loop (replicate k 0 ++ [x]) s 0). cbn in *. rewrite IH. reflexivity.
Qed.

Lemma rd_zeros k x i : (i < k)%nat -> rd (replicate k 0 ++ [x]) i = 0.
Proof.
  intros H. rewrite rd_app_l by (rewrite length_replicate; exact H).
  apply rd_lookup, lookup_replicate_2. exact H.
Qed.

Lemma rd_last (l : list Z) x : rd (l ++ [x]) (length l) = x.
Proof. unfold rd. rewrite app_nth2, Nat.sub_diag by lia. reflexivity. Qed.

Lemma den_safe_pow2 k x : is_limb x -> den_safe (replicate k 0 ++ [x]) = true.
Proof.
  intros Hx. destruct k as [|k]; [reflexivity|]. unfold den_safe. apply orb_true_intro. right.
  unfold den_normalised. set (s := den_shift _).
  rewrite length_app, length_replicate. cbn [length].
  replace (S k + 1 - 1)%nat with (S k) by lia. replace (S k + 1 - 2)%nat with k by lia.
  assert (H : forall y, is_limb y ->
    (rd (replicate (S k) 0 ++ [y]) (S k) + rd (replicate (S k) 0 ++ [y]) k <? B) = true).
  { intros y [Hy1 Hy2]. rewrite (rd_zeros (S k) y k) by lia.
    pose proof (rd_last (replicate (S k) 0) y) as L. rewrite length_replicate in L. rewrite L.
    apply Z.ltb_lt. lia. }
  destruct (s =? 0); [apply H; exact Hx|]. rewrite shl_loop_zeros. apply H, u32_limb.
Qed.

(** A division by a two-limb divisor outside [den_safe] that the code gets
    wrong: the quotient is one too small and the remainder is not less than
    the divisor would allow. *)
Lemma divmod_abs_counterexample :
  let num := [0; 2 ^ 32 - 2; 2 ^ 32 - 1] in
  let den := [2 ^ 32 - 1; 2 ^ 32 - 1] in
  div_long num den = ([2 ^ 32 - 2], [2 ^ 32 - 2; 2 ^ 32 - 2]) /\
  lv num / lv den = 2 ^ 32 - 1 /\ lv num mod lv den = 2 ^ 64 - 2 ^ 32 - 1 /\
  den_safe den = false.
Proof. vm_compute. auto. Qed.
