(* ===== verification/BigInt.v ===== *)
(** * BigInt values

    The arithmetic of [src/src/modules/bigint.c] on whole values: a payload is
    a sign and a normalised magnitude.  Operations whose result fits 32 limbs
    work in a stack array and allocate the exact payload afterwards; larger
    ones allocate the payload first and work in it.  Both paths are modelled,
    with the extent of every write checked against the buffer in use.
    [size_t] is 64 bits wide. *)

From S2P Require Import Prelude Limbs Alloc LimbDiv.

(** ** Payloads *)

Record bigint := BigInt { sign : bool; blimbs : list Z }.

#[global] Instance bigint_eq_dec : EqDecision bigint.
Proof. solve_decision. Defined.

Definition UINT32_MAX : Z := 2 ^ 32 - 1.
Definition SIZE_MAX : Z := 2 ^ 64 - 1.
Definition BIGINT_LIMB_SIZE : Z := 32.

(** The integer a payload denotes. *)
Definition bval (v : bigint) : Z := if sign v then - lv (blimbs v) else lv (blimbs v).

(** Every payload of the runtime: limbs in range, no leading zero limb, no
    negative zero, and a count that fits [uint32_t]. *)
Definition bigint_ok (v : bigint) : Prop :=
  limbs (blimbs v) /\ normal (blimbs v) /\ (sign v = true -> lv (blimbs v) <> 0) /\
  zlen (blimbs v) <= UINT32_MAX.

Definition bigint_is_negative (v : bigint) : bool := sign v.

Definition bigint_is_zero (v : bigint) : bool := limbs_is_zero (blimbs v).

Definition bigint_finish_payload (l : list Z) (negative : bool) : bigint :=
  let l := bigint_normalize_limbs l in
  BigInt (if (length l =? 1)%nat && (rd l 0 =? 0) then false else negative) l.

Section Code.
Context (grant : nat -> bool).

Definition bigint_alloc_payload (capacity : Z) : M unit :=
  let capacity := if capacity =? 0 then 1 else capacity in
  if UINT32_MAX <? capacity then throw_oom
  else if SIZE_MAX / capacity <? 4 then throw_oom
  else if SIZE_MAX - capacity * 4 <? 8 then throw_oom
  else request grant.

(** Two, respectively one, calls of [gc_push_root] before the allocation. *)
Definition bigint_alloc_binary_payload (capacity : Z) : M unit :=
  request grant;;; request grant;;; bigint_alloc_payload capacity.

Definition bigint_alloc_unary_payload (capacity : Z) : M unit :=
  request grant;;; bigint_alloc_payload capacity.

Definition js_mkbigint_limbs (l : list Z) (negative : bool) : M bigint :=
  let l := match l with [] => [0] | _ => l end in
  let l := bigint_normalize_limbs l in
  bigint_alloc_payload (zlen l);;;
  write_extent (zlen l) (zlen l);;;
  ret (bigint_finish_payload l negative).

(** The common frame of the operations: work in [stack_limbs] when
    [capacity] fits it, in a fresh payload otherwise.  [extent] limbs are
    written, of which [l] are counted. *)
Definition in_buffer (alloc : Z -> M unit) (capacity extent : Z) (l : list Z)
  (negative : bool) : M bigint :=
  if BIGINT_LIMB_SIZE <? capacity then
    alloc capacity;;;
    write_extent extent capacity;;;
    ret (bigint_finish_payload l negative)
  else
    write_extent extent BIGINT_LIMB_SIZE;;;
    js_mkbigint_limbs l negative.

(** ** Addition, subtraction, multiplication *)

(** The written extent of [bigint_add_abs_limbs] includes the carry limb. *)
Definition bigint_add (a b : bigint) : M bigint :=
  let aneg := bigint_is_negative a in
  let bneg := bigint_is_negative b in
  let ad := blimbs a in
  let bd := blimbs b in
  let longest := if zlen bd <? zlen ad then zlen ad else zlen bd in
  if eqb aneg bneg then
    in_buffer bigint_alloc_binary_payload (longest + 1) (longest + 1)
      (bigint_add_abs_limbs ad bd) aneg
  else if 0 <=? bigint_cmp_abs_limbs ad bd then
    in_buffer bigint_alloc_binary_payload (zlen ad) (zlen ad) (bigint_sub_abs_limbs ad bd) aneg
  else
    in_buffer bigint_alloc_binary_payload (zlen bd) (zlen bd) (bigint_sub_abs_limbs bd ad) bneg.

Definition bigint_sub (a b : bigint) : M bigint :=
  let aneg := bigint_is_negative a in
  let bneg := bigint_is_negative b in
  let ad := blimbs a in
  let bd := blimbs b in
  let longest := if zlen bd <? zlen ad then zlen ad else zlen bd in
  if negb (eqb aneg bneg) then
    in_buffer bigint_alloc_binary_payload (longest + 1) (longest + 1)
      (bigint_add_abs_limbs ad bd) aneg
  else if 0 <=? bigint_cmp_abs_limbs ad bd then
    in_buffer bigint_alloc_binary_payload (zlen ad) (zlen ad) (bigint_sub_abs_limbs ad bd) aneg
  else
    in_buffer bigint_alloc_binary_payload (zlen bd) (zlen bd) (bigint_sub_abs_limbs bd ad) (negb aneg).

(** [bigint_mul_abs_limbs] clears all of its [alen + blen + 1] limbs, except
    in the one-limb case, which writes two. *)
Definition bigint_mul (a b : bigint) : M bigint :=
  let ad := blimbs a in
  let bd := blimbs b in
  let capacity := zlen ad + zlen bd + 1 in
  in_buffer bigint_alloc_binary_payload capacity capacity (bigint_mul_abs_limbs ad bd)
    (negb (eqb (bigint_is_negative a) (bigint_is_negative b))).

(** ** Division *)

Definition bigint_div (a b : bigint) : M bigint :=
  let ad := blimbs a in
  let bd := blimbs b in
  if (length bd =? 1)%nat && (rd bd 0 =? 0) then throw JS_ERR_TYPE "Division by zero"
  else
    let* (quot, _) := bigint_divmod_abs_limbs grant ad bd true false in
    let qneg := negb (eqb (bigint_is_negative a) (bigint_is_negative b)) &&
                negb ((length quot =? 1)%nat && (rd quot 0 =? 0)) in
    js_mkbigint_limbs quot qneg.

Definition bigint_mod (a b : bigint) : M bigint :=
  let ad := blimbs a in
  let bd := blimbs b in
  if (length bd =? 1)%nat && (rd bd 0 =? 0) then throw JS_ERR_TYPE "Division by zero"
  else
    let* (_, rem) := bigint_divmod_abs_limbs grant ad bd false true in
    let rneg := bigint_is_negative a && negb ((length rem =? 1)%nat && (rd rem 0 =? 0)) in
    js_mkbigint_limbs rem rneg.

Definition bigint_neg (a : bigint) : M bigint :=
  let l := blimbs a in
  bigint_alloc_unary_payload (zlen l);;;
  write_extent (zlen l) (zlen l);;;
  ret (bigint_finish_payload l (negb (bigint_is_negative a))).

(** ** Shifts *)

Definition bigint_shift_left (value : bigint) (shift : Z) : M bigint :=
  let l := blimbs value in
  if shift =? 0 then ret value
  else if limbs_is_zero l then ret value
  else
    let limb_shift := shift .>> 5 in
    if SIZE_MAX - zlen l - 1 <? limb_shift then throw_oom
    else
      let capacity := zlen l + limb_shift + 1 in
      in_buffer bigint_alloc_unary_payload capacity capacity
        (bigint_shift_left_abs l shift) (bigint_is_negative value).

(** The limbs written: the shifted ones, and the one the increment may add. *)
Definition bigint_shift_right (value : bigint) (shift : Z) : M bigint :=
  let l := blimbs value in
  if shift =? 0 then ret value
  else if limbs_is_zero l then ret value
  else
    let neg := bigint_is_negative value in
    let limb_shift := shift .>> 5 in
    let capacity := if zlen l <=? limb_shift then 1
                    else zlen l - limb_shift + (if neg then 1 else 0) in
    let '(q, truncated) := bigint_shift_right_abs l shift in
    let r := if neg && truncated then bigint_add_u32_inplace q (Z.to_nat capacity) 1 else q in
    in_buffer bigint_alloc_unary_payload capacity (Z.max (zlen q) (zlen r)) r
      (neg && negb (limbs_is_zero r)).

Definition bigint_shift_right_logical (value : bigint) (shift : Z) : M bigint :=
  throw JS_ERR_TYPE "BigInts have no unsigned right shift, use >> instead".

(** ** Bitwise operations *)

Inductive bigint_bitop_t := BIGINT_BAND | BIGINT_BOR | BIGINT_BXOR.

Definition bitop_limb (op : bigint_bitop_t) (x y : Z) : Z :=
  match op with
  | BIGINT_BAND => x .& y
  | BIGINT_BOR => x .| y
  | BIGINT_BXOR => x .^ y
  end.

(** Number of limbs of the two's complement: [(bits + 1 + 31) / 32]. *)
Definition twos_width (bits : Z) : Z :=
  let width := (bits + 1 + 31) / 32 in if width =? 0 then 1 else width.

Definition bigint_bitwise_binary (op : bigint_bitop_t) (a b : bigint) : M bigint :=
  let ad := blimbs a in
  let bd := blimbs b in
  let abit := bigint_abs_bitlen_limbs ad in
  let bbit := bigint_abs_bitlen_limbs bd in
  let width := twos_width (if bbit <? abit then abit else bbit) in
  let at_ := twos_complement (Z.to_nat width) ad (bigint_is_negative a) 1 in
  let bt := twos_complement (Z.to_nat width) bd (bigint_is_negative b) 1 in
  let '(m, negative) := bigint_twos_complement_to_magnitude (zip_with (bitop_limb op) at_ bt) in
  in_buffer bigint_alloc_binary_payload width width m negative.

Definition bigint_bitand := bigint_bitwise_binary BIGINT_BAND.
Definition bigint_bitor := bigint_bitwise_binary BIGINT_BOR.
Definition bigint_bitxor := bigint_bitwise_binary BIGINT_BXOR.

Definition bigint_bitnot (value : bigint) : M bigint :=
  let l := blimbs value in
  let width := twos_width (bigint_abs_bitlen_limbs l) in
  let t := twos_complement (Z.to_nat width) l (bigint_is_negative value) 1 in
  let '(m, negative) := bigint_twos_complement_to_magnitude (map (fun x => B - 1 - x) t) in
  in_buffer bigint_alloc_unary_payload width width m negative.

(** ** Comparison, powers *)

Definition bigint_compare (a b : bigint) : Z :=
  let aneg := bigint_is_negative a in
  let bneg := bigint_is_negative b in
  if aneg && negb bneg then -1
  else if negb aneg && bneg then 1
  else
    let cmp := bigint_cmp_abs_limbs (blimbs a) (blimbs b) in
    if aneg then - cmp else cmp.

Definition bigint_is_odd (v : bigint) : bool := negb (rd (blimbs v) 0 .& 1 =? 0).

Definition bigint_pow2 (bits : Z) : M bigint :=
  let limb_index := bits .>> 5 in
  if SIZE_MAX - 1 <? limb_index then throw_oom
  else
    request grant;;;
    js_mkbigint_limbs (replicate (Z.to_nat limb_index) 0 ++ [u32 (1 .<< (bits .& 31))]) false.

End Code.

(** ** Correctness *)

(** [makes grant E m x]: run [m] and get a well-formed payload of value [x];
    otherwise the run ends in ["oom"] with a refused request or [E]. *)
Definition makes (grant : nat -> bool) (E : Prop) (m : M bigint) (x : Z) : Prop :=
  yields grant E m (fun v => bigint_ok v /\ bval v = x).

Lemma makes_weaken grant (E E' : Prop) m x y :
  makes grant E m x -> (E -> E') -> x = y -> makes grant E' m y.
Proof. intros H HE ->. eapply yields_weaken; [exact H|exact HE|auto]. Qed.

Lemma ok_limbs v : bigint_ok v -> limbs (blimbs v).
Proof. intros H. apply H. Qed.
Lemma ok_normal v : bigint_ok v -> normal (blimbs v).
Proof. intros H. apply H. Qed.
Lemma ok_nonempty v : bigint_ok v -> blimbs v <> [].
Proof. intros H. apply H. Qed.
#[export] Hint Resolve ok_limbs ok_normal ok_nonempty : fant.

(** The sign and the magnitude are determined by the value. *)
Lemma bval_sign v : bigint_ok v -> sign v = (bval v <? 0).
Proof.
  intros (Hl & Hn & Hs & _). unfold bval. pose proof (lv_range _ Hl) as [R _].
  destruct (sign v); destruct (Z.ltb_spec (lv (blimbs v)) 0), (Z.ltb_spec (- lv (blimbs v)) 0); try lia.
Qed.

Lemma bval_abs v : bigint_ok v -> lv (blimbs v) = Z.abs (bval v).
Proof.
  intros (Hl & _). unfold bval. pose proof (lv_range _ Hl) as [R _]. destruct (sign v); lia.
Qed.

Lemma bval_zero v : bigint_ok v -> bigint_is_zero v = (bval v =? 0).
Proof.
  intros Hv. unfold bigint_is_zero. rewrite is_zero_lv by auto with fant.
  rewrite bval_abs by exact Hv. destruct (Z.eqb_spec (Z.abs (bval v)) 0), (Z.eqb_spec (bval v) 0); lia.
Qed.

(** A magnitude is determined by its value. *)
Lemma lv_inj a : forall b, limbs a -> limbs b -> length a = length b -> lv a = lv b -> a = b.
Proof.
  induction a as [|x a IH]; intros [|y b] Ha Hb Hl E; try discriminate; [reflexivity|].
  inversion_clear Ha as [|? ? Hx Ha']. inversion_clear Hb as [|? ? Hy Hb']. cbn [lv] in E.
  unfold is_limb in *. injection Hl as Hl.
  destruct (Z.div_mod_unique B (lv a) (lv b) x y ltac:(lia) ltac:(lia) ltac:(lia)) as [E2 ->].
  f_equal. apply IH; auto.
Qed.

Lemma bval_inj a b : bigint_ok a -> bigint_ok b -> bval a = bval b -> a = b.
Proof.
  intros Ha Hb E. pose proof (bval_sign a Ha) as Sa. pose proof (bval_sign b Hb) as Sb.
  pose proof (bval_abs a Ha) as La. pose proof (bval_abs b Hb) as Lb.
  assert (Hs : sign a = sign b) by congruence. assert (Hv : lv (blimbs a) = lv (blimbs b)) by congruence.
  destruct Ha as (La1 & Na & _), Hb as (Lb1 & Nb & _).
  assert (Hlen : length (blimbs a) = length (blimbs b)).
  { destruct (Nat.lt_trichotomy (length (blimbs a)) (length (blimbs b))) as [H|[H|H]]; [|exact H|].
    - pose proof (normal_longer _ _ Lb1 La1 Nb (proj1 Na) H). lia.
    - pose proof (normal_longer _ _ La1 Lb1 Na (proj1 Nb) H). lia. }
  pose proof (lv_inj _ _ La1 Lb1 Hlen Hv). destruct a, b; cbn in *; congruence.
Qed.

Lemma finish_spec l neg : limbs l -> l <> [] -> zlen (bigint_normalize_limbs l) <= UINT32_MAX ->
  let v := bigint_finish_payload l neg in
  bigint_ok v /\ bval v = if neg then - lv l else lv l.
Proof.
  intros Hl Hne Hlen. unfold bigint_finish_payload. set (m := bigint_normalize_limbs l) in *.
  assert (Hm : limbs m) by (apply normalize_limbs; exact Hl).
  assert (Hn : normal m) by (apply normalize_normal; exact Hne).
  fold (limbs_is_zero m). rewrite (is_zero_lv m Hm Hn). unfold bigint_ok, bval. cbn [sign blimbs].
  assert (E : lv m = lv l) by apply normalize_lv. rewrite E.
  destruct (Z.eqb_spec (lv l) 0) as [E0|E0]; splits; auto; try congruence.
  destruct neg; lia.
Qed.

Section Proofs.
Context (grant : nat -> bool).

Lemma alloc_payload_spec capacity (E : Prop) : 0 <= capacity -> (UINT32_MAX < capacity -> E) ->
  yields grant E (bigint_alloc_payload grant capacity) (fun _ => capacity <= UINT32_MAX).
Proof.
  intros Hc HE. unfold bigint_alloc_payload.
  assert (Hc' : exists c, (if capacity =? 0 then 1 else capacity) = c /\ 1 <= c /\
    (UINT32_MAX < c <-> UINT32_MAX < capacity)).
  { destruct (Z.eqb_spec capacity 0); eexists; splits; try reflexivity; unfold UINT32_MAX; lia. }
  destruct Hc' as (c & -> & H1 & H2). destruct (Z.ltb_spec UINT32_MAX c) as [Hlt|Hge].
  - apply yields_oom. tauto.
  - unfold UINT32_MAX, SIZE_MAX in *.
    assert (4 <= (2 ^ 64 - 1) / c) by (apply Z.div_le_lower_bound; lia).
    destruct (Z.ltb_spec ((2 ^ 64 - 1) / c) 4); [lia|].
    destruct (Z.ltb_spec (2 ^ 64 - 1 - c * 4) 8); [lia|].
    eapply (yields_weaken grant E E); [apply yields_request|tauto|]. cbv beta. intros _ _. lia.
Qed.

Lemma binary_payload_spec capacity (E : Prop) : 0 <= capacity -> (UINT32_MAX < capacity -> E) ->
  yields grant E (bigint_alloc_binary_payload grant capacity) (fun _ => capacity <= UINT32_MAX).
Proof. intros. unfold bigint_alloc_binary_payload. yreq. yreq. apply alloc_payload_spec; auto. Qed.

Lemma unary_payload_spec capacity (E : Prop) : 0 <= capacity -> (UINT32_MAX < capacity -> E) ->
  yields grant E (bigint_alloc_unary_payload grant capacity) (fun _ => capacity <= UINT32_MAX).
Proof. intros. unfold bigint_alloc_unary_payload. yreq. apply alloc_payload_spec; auto. Qed.

Lemma mkbigint_limbs_spec l neg (E : Prop) : limbs l -> l <> [] ->
  (UINT32_MAX < zlen (bigint_normalize_limbs l) -> E) ->
  makes grant E (js_mkbigint_limbs grant l neg) (if neg then - lv l else lv l).
Proof.
  intros Hl Hne HE. unfold js_mkbigint_limbs. destruct l as [|x t]; [congruence|].
  set (l := x :: t) in *. set (m := bigint_normalize_limbs l) in *.
  assert (Hm : limbs m) by (apply normalize_limbs; exact Hl).
  assert (Hn : normal m) by (apply normalize_normal; exact Hne).
  eapply yields_bind; [apply alloc_payload_spec; [unfold zlen; lia|exact HE]|]. intros [] Hc.
  yext; [lia|]. apply yields_ret.
  destruct (finish_spec m neg Hm (proj1 Hn)) as [H1 H2].
  { rewrite normalize_id by exact Hn. exact Hc. }
  split; [exact H1|]. rewrite H2. unfold m. rewrite normalize_lv. reflexivity.
Qed.

Lemma in_buffer_spec alloc capacity extent l neg (E : Prop) :
  (forall E : Prop, (UINT32_MAX < capacity -> E) ->
    yields grant E (alloc capacity) (fun _ => capacity <= UINT32_MAX)) ->
  limbs l -> l <> [] -> extent <= capacity -> zlen (bigint_normalize_limbs l) <= capacity ->
  (UINT32_MAX < capacity -> E) ->
  makes grant E (in_buffer grant alloc capacity extent l neg) (if neg then - lv l else lv l).
Proof.
  intros Ha Hl Hne Hx Hc HE. unfold in_buffer, BIGINT_LIMB_SIZE.
  destruct (Z.ltb_spec 32 capacity) as [Hbig|Hsmall].
  - eapply yields_bind; [apply Ha; exact HE|]. intros [] Hcap. yext; [exact Hx|].
    apply yields_ret. apply finish_spec; auto. lia.
  - yext; [lia|]. apply mkbigint_limbs_spec; auto. unfold UINT32_MAX. lia.
Qed.

Lemma zlen_normalize l : zlen (bigint_normalize_limbs l) <= zlen l.
Proof. unfold zlen. pose proof (normalize_length l). lia. Qed.

(** *** Addition and subtraction *)

Definition longest (a b : bigint) : Z := Z.max (zlen (blimbs a)) (zlen (blimbs b)).

Lemma longest_eq a b :
  (if zlen (blimbs b) <? zlen (blimbs a) then zlen (blimbs a) else zlen (blimbs b)) = longest a b.
Proof. unfold longest. case_if; boolprop; lia. Qed.

(** Same signs: the magnitudes are added in [longest + 1] limbs. *)
Lemma buffer_add a b neg : bigint_ok a -> bigint_ok b ->
  makes grant (UINT32_MAX < longest a b + 1)
    (in_buffer grant (bigint_alloc_binary_payload grant) (longest a b + 1) (longest a b + 1)
       (bigint_add_abs_limbs (blimbs a) (blimbs b)) neg)
    (if neg then - (lv (blimbs a) + lv (blimbs b)) else lv (blimbs a) + lv (blimbs b)).
Proof.
  intros Ha Hb. destruct (add_abs_spec (blimbs a) (blimbs b)) as (H1 & H2 & H3 & H4); auto with fant.
  pose proof (zlen_pos _ (ok_nonempty a Ha)) as La.
  rewrite <- H2. apply in_buffer_spec; auto; unfold longest in *.
  - intros E HE. apply binary_payload_spec; [unfold zlen; lia|exact HE].
  - intros X. rewrite X in H3. unfold zlen in La. cbn in H3. lia.
  - lia.
  - pose proof (zlen_normalize (bigint_add_abs_limbs (blimbs a) (blimbs b))). unfold zlen in *. lia.
Qed.

(** Opposite signs: the smaller magnitude is taken from the larger. *)
Lemma buffer_sub a b neg : bigint_ok a -> bigint_ok b -> lv (blimbs b) <= lv (blimbs a) ->
  makes grant False
    (in_buffer grant (bigint_alloc_binary_payload grant) (zlen (blimbs a)) (zlen (blimbs a))
       (bigint_sub_abs_limbs (blimbs a) (blimbs b)) neg)
    (if neg then - (lv (blimbs a) - lv (blimbs b)) else lv (blimbs a) - lv (blimbs b)).
Proof.
  intros Ha Hb Hle. pose proof (ok_nonempty a Ha) as Na.
  assert (Hlen : (length (blimbs b) <= length (blimbs a))%nat).
  { destruct (Nat.le_gt_cases (length (blimbs b)) (length (blimbs a))); [assumption|].
    pose proof (normal_longer (blimbs b) (blimbs a)). specialize (H0 ltac:(auto with fant) ltac:(auto with fant)
      ltac:(auto with fant) Na ltac:(lia)). lia. }
  destruct (sub_abs_spec (blimbs a) (blimbs b)) as (H1 & H3 & H2); auto with fant.
  rewrite <- H3. apply in_buffer_spec; auto.
  - intros E HE. apply binary_payload_spec; [unfold zlen; lia|exact HE].
  - intros X. rewrite X in H2. cbn in H2. pose proof (zlen_pos _ Na). unfold zlen in *. lia.
  - lia.
  - pose proof (zlen_normalize (bigint_sub_abs_limbs (blimbs a) (blimbs b))). unfold zlen in *. lia.
  - destruct Ha as (_ & _ & _ & Ha). lia.
Qed.


Lemma cmp_nonneg a b : bigint_ok a -> bigint_ok b ->
  (0 <=? bigint_cmp_abs_limbs (blimbs a) (blimbs b)) = (lv (blimbs b) <=? lv (blimbs a)).
Proof.
  intros Ha Hb. rewrite cmp_abs_spec by auto with fant. unfold sgn_cmp.
  destruct (Z.eqb_spec (lv (blimbs a)) (lv (blimbs b))), (Z.ltb_spec (lv (blimbs b)) (lv (blimbs a))),
    (Z.leb_spec (lv (blimbs b)) (lv (blimbs a))); try reflexivity; lia.
Qed.

(** Close [makes] with a value that agrees up to the signs. *)
Ltac by_sign H :=
  eapply makes_weaken; [apply H; auto; lia|tauto|];
  unfold bval, bigint_is_negative in *;
  repeat match goal with |- context [sign ?x] => destruct (sign x) end; cbn in *; try discriminate; lia.

Lemma add_spec a b : bigint_ok a -> bigint_ok b ->
  makes grant (UINT32_MAX < longest a b + 1) (bigint_add grant a b) (bval a + bval b).
Proof.
  intros Ha Hb. unfold bigint_add. rewrite longest_eq, cmp_nonneg by auto.
  destruct (eqb (bigint_is_negative a) (bigint_is_negative b)) eqn:Es; [by_sign buffer_add|].
  destruct (Z.leb_spec (lv (blimbs b)) (lv (blimbs a))); by_sign buffer_sub.
Qed.

Lemma sub_spec a b : bigint_ok a -> bigint_ok b ->
  makes grant (UINT32_MAX < longest a b + 1) (bigint_sub grant a b) (bval a - bval b).
Proof.
  intros Ha Hb. unfold bigint_sub. rewrite longest_eq, cmp_nonneg by auto.
  destruct (eqb (bigint_is_negative a) (bigint_is_negative b)) eqn:Es; cbn [negb]; [|by_sign buffer_add].
  destruct (Z.leb_spec (lv (blimbs b)) (lv (blimbs a))); by_sign buffer_sub.
Qed.

Lemma mul_spec a b : bigint_ok a -> bigint_ok b ->
  makes grant (UINT32_MAX < zlen (blimbs a) + zlen (blimbs b) + 1) (bigint_mul grant a b)
    (bval a * bval b).
Proof.
  intros Ha Hb. unfold bigint_mul.
  destruct (mul_abs_spec (blimbs a) (blimbs b)) as (H1 & H2 & H3 & H4); auto with fant.
  eapply makes_weaken; [apply in_buffer_spec|..].
  - intros E HE. apply binary_payload_spec; [unfold zlen; lia|exact HE].
  - exact H1.
  - exact H2.
  - lia.
  - pose proof (zlen_normalize (bigint_mul_abs_limbs (blimbs a) (blimbs b))). unfold zlen in *. lia.
  - intros X. exact X.
  - auto.
  - rewrite H3. unfold bval, bigint_is_negative. destruct (sign a), (sign b); cbn; lia.
Qed.

Lemma neg_spec a : bigint_ok a -> makes grant False (bigint_neg grant a) (- bval a).
Proof.
  intros Ha. unfold bigint_neg. eapply yields_bind.
  - apply unary_payload_spec; [unfold zlen; lia|]. destruct Ha as (_ & _ & _ & Ha). lia.
  - intros [] Hc. yext; [lia|]. apply yields_ret.
    destruct (finish_spec (blimbs a) (negb (bigint_is_negative a))) as [H1 H2]; auto with fant.
    + rewrite normalize_id by auto with fant. exact Hc.
    + split; [exact H1|]. rewrite H2. unfold bval, bigint_is_negative. destruct (sign a); cbn; lia.
Qed.

(** *** Division *)

Lemma div_spec a b : bigint_ok a -> bigint_ok b -> bval b <> 0 ->
  den_safe (blimbs b) = true \/ Z.abs (bval a) < Z.abs (bval b) ->
  makes grant False (bigint_div grant a b) (Z.quot (bval a) (bval b)).
Proof.
  intros Ha Hb Hz Hs. unfold bigint_div. fold (limbs_is_zero (blimbs b)).
  fold (bigint_is_zero b). rewrite bval_zero by exact Hb.
  destruct (Z.eqb_spec (bval b) 0); [contradiction|].
  rewrite <- !bval_abs in Hs by assumption.
  eapply yields_bind; [apply divmod_abs_spec; auto with fant; rewrite bval_abs by exact Hb; lia|].
  intros [q r] (Q1 & Q2 & Q3 & Q4 & _). fold (limbs_is_zero q).
  eapply (makes_weaken grant False); [apply mkbigint_limbs_spec; [exact Q1|apply Q2|]|tauto|].
  - pose proof (zlen_normalize q). destruct Ha as (_ & _ & _ & Ha). unfold zlen in *. lia.
  - rewrite (is_zero_lv q Q1 Q2), Q3. unfold bigint_is_negative.
    pose proof (bval_sign a Ha) as Sa. pose proof (bval_sign b Hb) as Sb.
    pose proof (bval_abs a Ha) as Ea. pose proof (bval_abs b Hb) as Eb.
    pose proof (Z.quot_abs (bval a) (bval b) ltac:(assumption)) as Eq.
    rewrite Z.quot_div_nonneg in Eq by lia. rewrite <- Ea, <- Eb in Eq. rewrite Eq.
    rewrite Sa, Sb. destruct (Z.ltb_spec (bval a) 0), (Z.ltb_spec (bval b) 0); cbn [eqb negb andb].
    + rewrite Z.abs_eq; [lia|]. rewrite <- Z.quot_opp_opp by lia. apply Z.quot_pos; lia.
    + assert (Z.quot (bval a) (bval b) <= 0).
      { pose proof (Z.quot_pos (- bval a) (bval b) ltac:(lia) ltac:(lia)). rewrite Z.quot_opp_l in * by lia. lia. }
      rewrite Z.abs_neq by lia. destruct (Z.eqb_spec (- Z.quot (bval a) (bval b)) 0); cbn; lia.
    + assert (Z.quot (bval a) (bval b) <= 0).
      { pose proof (Z.quot_pos (bval a) (- bval b) ltac:(lia) ltac:(lia)). rewrite Z.quot_opp_r in * by lia. lia. }
      rewrite Z.abs_neq by lia. destruct (Z.eqb_spec (- Z.quot (bval a) (bval b)) 0); cbn; lia.
    + rewrite Z.abs_eq; [lia|]. apply Z.quot_pos; lia.
Qed.

Lemma mod_spec a b : bigint_ok a -> bigint_ok b -> bval b <> 0 ->
  den_safe (blimbs b) = true \/ Z.abs (bval a) < Z.abs (bval b) ->
  makes grant False (bigint_mod grant a b) (Z.rem (bval a) (bval b)).
Proof.
  intros Ha Hb Hz Hs. unfold bigint_mod. fold (limbs_is_zero (blimbs b)).
  fold (bigint_is_zero b). rewrite bval_zero by exact Hb.
  destruct (Z.eqb_spec (bval b) 0); [contradiction|].
  rewrite <- !bval_abs in Hs by assumption.
  eapply yields_bind; [apply divmod_abs_spec; auto with fant; rewrite bval_abs by exact Hb; lia|].
  intros [q r] (_ & _ & _ & _ & R1 & R2 & R3 & R4). fold (limbs_is_zero r).
  eapply (makes_weaken grant False); [apply mkbigint_limbs_spec; [exact R1|apply R2|]|tauto|].
  - pose proof (zlen_normalize r). destruct Ha as (_ & _ & _ & Ha). unfold zlen in *. lia.
  - rewrite (is_zero_lv r R1 R2), R3. unfold bigint_is_negative.
    pose proof (bval_sign a Ha) as Sa.
    pose proof (bval_abs a Ha) as Ea. pose proof (bval_abs b Hb) as Eb.
    pose proof (Z.rem_abs (bval a) (bval b) ltac:(assumption)) as Er.
    rewrite Z.rem_mod_nonneg in Er by lia. rewrite <- Ea, <- Eb in Er. rewrite Er, Sa.
    destruct (Z.ltb_spec (bval a) 0); cbn [andb].
    + pose proof (Z.rem_nonpos (bval a) (bval b) ltac:(assumption) ltac:(lia)).
      rewrite Z.abs_neq by lia. destruct (Z.eqb_spec (- Z.rem (bval a) (bval b)) 0); cbn; lia.
    + pose proof (Z.rem_nonneg (bval a) (bval b) ltac:(assumption) ltac:(lia)). lia.
Qed.


(** *** Shifts *)

Lemma shift_left_spec v shift : bigint_ok v -> 0 <= shift < 2 ^ 64 ->
  makes grant (UINT32_MAX < zlen (blimbs v) + (shift .>> 5) + 1) (bigint_shift_left grant v shift)
    (bval v * 2 ^ shift).
Proof.
  intros Hv Hs. unfold bigint_shift_left.
  destruct (Z.eqb_spec shift 0) as [->|Hs0].
  { apply yields_ret. rewrite Z.pow_0_r, Z.mul_1_r. auto. }
  fold (bigint_is_zero v). rewrite bval_zero by exact Hv.
  destruct (Z.eqb_spec (bval v) 0) as [E|E]; [apply yields_ret; rewrite E; auto|].
  assert (0 <= shift .>> 5) by (apply Z.shiftr_nonneg; lia).
  destruct (Z.ltb_spec (SIZE_MAX - zlen (blimbs v) - 1) (shift .>> 5)) as [Hb|Hb].
  { apply yields_oom. unfold UINT32_MAX, SIZE_MAX in *. lia. }
  destruct (shift_left_abs_spec (blimbs v) shift) as (H1 & H2 & H3 & H4); [auto with fant..|lia|].
  eapply makes_weaken; [apply in_buffer_spec|..].
  - intros E' HE. apply unary_payload_spec; [unfold zlen; lia|exact HE].
  - exact H1.
  - apply H2.
  - lia.
  - rewrite normalize_id by exact H2. exact H4.
  - intros X. exact X.
  - auto.
  - rewrite H3. unfold bval, bigint_is_negative. destruct (sign v); lia.
Qed.

Lemma add_u32_inplace_spec l capacity x : limbs l -> l <> [] -> 0 <= x < B ->
  (length l < capacity)%nat \/ lv l + x < B ^ zlen l ->
  let r := bigint_add_u32_inplace l capacity x in
  limbs r /\ normal r /\ lv r = lv l + x /\ (length r <= Nat.max (length l) capacity)%nat.
Proof.
  intros Hl Hne Hx Hc. unfold bigint_add_u32_inplace, zlen in *.
  pose proof (add_u32_loop_spec l x Hl Hx) as H. destruct (add_u32_loop l x) as [r c].
  destruct H as (H1 & H2 & H3 & H4 & _). pose proof (lv_range r H2) as [R1 R2]. rewrite H1 in R2.
  assert (Hrne : r <> []) by (intros ->; destruct l; [congruence|discriminate]).
  destruct (Z.eqb_spec c 0) as [->|Hc0]; cbn [negb andb].
  - rewrite normalize_lv. splits; auto using normalize_limbs, normalize_normal; try lia.
    pose proof (normalize_length r). lia.
  - destruct Hc as [Hc|Hc]; [|exfalso; pose proof (B_pow_pos (length l)); nia].
    destruct (Nat.ltb_spec (length l) capacity); [|lia].
    rewrite normalize_lv, lv_snoc, H1, wrap_small by (unfold B in *; lia).
    assert (r ++ [c] <> []) by (destruct r; discriminate).
    splits; auto using normalize_normal; try lia.
    + apply normalize_limbs, Forall_app. split; [exact H2|]. apply limbs_one. unfold B in *; lia.
    + pose proof (normalize_length (r ++ [c])) as L. rewrite length_app in L. cbn in L. lia.
Qed.

(** The right shift writes no more limbs than the source has left. *)
Lemma shift_right_length l shift : limbs l -> 0 <= shift ->
  let q := (bigint_shift_right_abs l shift).1 in
  if zlen l <=? shift .>> 5 then q = [0] else zlen q <= zlen l - (shift .>> 5).
Proof.
  intros Hl Hs. unfold bigint_shift_right_abs, zlen.
  assert (0 <= shift .>> 5) by (apply Z.shiftr_nonneg; lia).
  destruct (Z.leb_spec (Z.of_nat (length l)) (shift .>> 5)); [reflexivity|].
  set (n := Z.to_nat (shift .>> 5)). cbv zeta.
  destruct (Z.eqb_spec (shift .& 31) 0); cbn [fst].
  - pose proof (normalize_length (drop n l)) as L. rewrite length_drop in L. unfold n in *. lia.
  - destruct (shift_parts shift Hs) as (Hb & _).
    pose proof (shr_loop_spec (drop n l) (shift .& 31) (limbs_drop n l Hl) ltac:(lia)) as H'.
    destruct (shr_loop (drop n l) (shift .& 31)) as [r c]. destruct H' as (_ & H' & _). cbn [fst].
    pose proof (normalize_length r) as L. rewrite length_drop in H'. unfold n in *. lia.
Qed.

Lemma neg_div x y : 0 < y -> (- x) / y = - (if x mod y =? 0 then x / y else x / y + 1).
Proof.
  intros Hy. destruct (Z.eqb_spec (x mod y) 0) as [E|E].
  - rewrite Z.div_opp_l_z by lia. lia.
  - rewrite Z.div_opp_l_nz by lia. lia.
Qed.

Lemma shift_right_spec v shift : bigint_ok v -> 0 <= shift ->
  makes grant (sign v = true /\ UINT32_MAX < zlen (blimbs v) + 1) (bigint_shift_right grant v shift)
    (bval v / 2 ^ shift).
Proof.
  intros Hv Hs. unfold bigint_shift_right.
  destruct (Z.eqb_spec shift 0) as [->|Hs0].
  { apply yields_ret. rewrite Z.pow_0_r, Z.div_1_r. auto. }
  fold (bigint_is_zero v). rewrite bval_zero by exact Hv.
  destruct (Z.eqb_spec (bval v) 0) as [E|E]; [apply yields_ret; rewrite E, Z.div_0_l by (apply Z.pow_nonzero; lia); auto|].
  pose proof (Z.pow_pos_nonneg 2 shift ltac:(lia) ltac:(lia)) as Ps.
  set (l := blimbs v) in *. set (w := shift .>> 5) in *.
  assert (Hw : 0 <= w) by (apply Z.shiftr_nonneg; lia).
  pose proof (shift_right_abs_spec l shift (ok_limbs v Hv) (ok_nonempty v Hv) Hs) as H.
  pose proof (shift_right_length l shift (ok_limbs v Hv) Hs) as L. fold w in L.
  destruct (bigint_shift_right_abs l shift) as [q lost]. cbv zeta in L. cbn [fst] in L.
  destruct H as (Q1 & Q2 & Q3 & Q4 & _).
  set (cap := if zlen l <=? w then 1 else _) in *.
  assert (Hz : 1 <= zlen q) by (apply zlen_pos, Q2).
  assert (Hcap : q = [0] /\ cap = 1 \/ zlen q + (if sign v then 1 else 0) <= cap).
  { unfold cap, bigint_is_negative. destruct (Z.leb_spec (zlen l) w); [auto|right; lia]. }
  (* the magnitude after the optional increment, and that it fits *)
  assert (HR : exists r,
    (if bigint_is_negative v && lost then bigint_add_u32_inplace q (Z.to_nat cap) 1 else q) = r /\
    limbs r /\ normal r /\ zlen r <= cap /\ zlen q <= cap /\
    lv r = lv q + (if bigint_is_negative v && lost then 1 else 0)).
  { unfold bigint_is_negative.
    assert (Hq : zlen q <= cap) by (destruct Hcap as [[-> ->]|]; [unfold zlen; cbn; lia|destruct (sign v); lia]).
    destruct (sign v && lost) eqn:Es; eexists; (split; [reflexivity|]); [|splits; auto; lia].
    apply andb_true_iff in Es as [Es _]. rewrite Es in *.
    destruct (add_u32_inplace_spec q (Z.to_nat cap) 1 Q1 (proj1 Q2) ltac:(unfold B; lia)) as (A1 & A2 & A3 & A4).
    - destruct Hcap as [[-> ->]|]; [right; reflexivity|left; unfold zlen in *; lia].
    - splits; auto. unfold zlen in *. lia. }
  destruct HR as (r & -> & R1 & R2 & R3 & R4 & R5).
  eapply (makes_weaken grant (UINT32_MAX < cap)); [apply in_buffer_spec|..].
  - intros E' HE. apply unary_payload_spec; [lia|exact HE].
  - exact R1.
  - apply R2.
  - lia.
  - rewrite normalize_id by exact R2. exact R3.
  - auto.
  - destruct Hv as (_ & _ & _ & Hv). fold l in Hv. unfold cap, bigint_is_negative, UINT32_MAX in *.
    destruct (Z.leb_spec (zlen l) w); [lia|]. destruct (sign v); split; auto; lia.
  - rewrite (is_zero_lv r R1 R2), R5, Q3. unfold bval, bigint_is_negative in *. fold l in E |- *.
    destruct (sign v); cbn [andb].
    + rewrite neg_div by lia. rewrite Q4. destruct (Z.eqb_spec (lv l mod 2 ^ shift) 0); cbn [negb];
      case_if; boolprop; lia.
    + lia.
Qed.


(** *** Bitwise operations *)

Lemma bitop_bits op x y n : 0 <= n -> Z.testbit (bitop_limb op x y) n =
  match op with
  | BIGINT_BAND => Z.testbit x n && Z.testbit y n
  | BIGINT_BOR => Z.testbit x n || Z.testbit y n
  | BIGINT_BXOR => xorb (Z.testbit x n) (Z.testbit y n)
  end.
Proof.
  intros Hn. destruct op; cbn [bitop_limb]; [apply Z.land_spec|apply Z.lor_spec|apply Z.lxor_spec].
Qed.

Lemma bitop_shiftr op x y k : 0 <= k ->
  bitop_limb op x y .>> k = bitop_limb op (x .>> k) (y .>> k).
Proof.
  intros Hk. apply Z.bits_inj'. intros n Hn. rewrite bitop_bits, !Z.shiftr_spec, bitop_bits by lia.
  reflexivity.
Qed.

Lemma bitop_mod op x y k : 0 <= k ->
  bitop_limb op (x mod 2 ^ k) (y mod 2 ^ k) = bitop_limb op x y mod 2 ^ k.
Proof.
  intros Hk. apply Z.bits_inj'. intros n Hn. rewrite bitop_bits by lia.
  destruct (Z.ltb_spec n k).
  - rewrite !Z.mod_pow2_bits_low, bitop_bits by lia. reflexivity.
  - rewrite !Z.mod_pow2_bits_high by lia. destruct op; reflexivity.
Qed.

(** Ranges in terms of what a right shift leaves. *)
Lemma range_shiftr x k : 0 <= k -> (- 2 ^ k <= x < 2 ^ k <-> x .>> k = 0 \/ x .>> k = -1).
Proof.
  intros Hk. rewrite Z.shiftr_div_pow2 by lia. pose proof (Z.pow_pos_nonneg 2 k ltac:(lia) Hk).
  pose proof (Z.div_mod x (2 ^ k) ltac:(lia)). pose proof (Z.mod_pos_bound x (2 ^ k) ltac:(lia)).
  split; intros Hx.
  - assert (-1 <= x / 2 ^ k) by (apply Z.div_le_lower_bound; lia).
    assert (x / 2 ^ k < 1) by (apply Z.div_lt_upper_bound; lia). lia.
  - destruct Hx as [E|E]; rewrite E in *; lia.
Qed.

Lemma bitop_range op x y k : 0 <= k -> - 2 ^ k <= x < 2 ^ k -> - 2 ^ k <= y < 2 ^ k ->
  - 2 ^ k <= bitop_limb op x y < 2 ^ k.
Proof.
  intros Hk Hx Hy. rewrite range_shiftr in * by lia. rewrite bitop_shiftr by lia.
  destruct Hx as [-> | ->], Hy as [-> | ->]; destruct op; cbn; auto.
Qed.

Lemma bitop_limb_range op x y : is_limb x -> is_limb y -> is_limb (bitop_limb op x y).
Proof.
  unfold is_limb, B. intros Hx Hy. rewrite <- (Z.mod_small x (2 ^ 32)), <- (Z.mod_small y (2 ^ 32)) by lia.
  rewrite bitop_mod by lia. apply Z.mod_pos_bound. lia.
Qed.

Lemma cons_bits x t n : is_limb x -> 0 <= n ->
  Z.testbit (x + B * t) n = if n <? 32 then Z.testbit x n else Z.testbit t (n - 32).
Proof.
  intros Hx Hn. unfold is_limb, B in *. replace (x + 2 ^ 32 * t) with (t * 2 ^ 32 + x) by lia.
  rewrite <- lor_shiftl_add, Z.lor_spec, Z.shiftl_spec by lia.
  destruct (Z.ltb_spec n 32).
  - rewrite Z.testbit_neg_r by lia. reflexivity.
  - rewrite (testbit_small x 32) by lia. apply orb_false_r.
Qed.

(** Limb by limb is bit by bit on the whole. *)
Lemma zip_bitop op x : forall y, limbs x -> limbs y -> length x = length y ->
  let r := zip_with (bitop_limb op) x y in
  limbs r /\ length r = length x /\ lv r = bitop_limb op (lv x) (lv y).
Proof.
  induction x as [|a x IH]; intros [|b y] Hx Hy Hlen; try discriminate.
  { cbn. splits; auto. destruct op; reflexivity. }
  inversion_clear Hx as [|? ? Ha Hx']. inversion_clear Hy as [|? ? Hb Hy'].
  injection Hlen as Hlen. destruct (IH y Hx' Hy' Hlen) as (I1 & I2 & I3).
  cbn [zip_with length lv]. pose proof (bitop_limb_range op a b Ha Hb) as Hr. splits; auto.
  rewrite I3. apply Z.bits_inj'. intros n Hn. rewrite bitop_bits, !cons_bits by auto.
  destruct (Z.ltb_spec n 32); rewrite bitop_bits by lia; reflexivity.
Qed.

Lemma map_not t : limbs t -> let r := map (fun x => B - 1 - x) t in
  limbs r /\ length r = length t /\ lv r = B ^ zlen t - 1 - lv t.
Proof.
  induction 1 as [|x t Hx Ht IH]; [cbn; splits; auto|]. destruct IH as (I1 & I2 & I3).
  cbn [map length lv] in *. unfold is_limb, zlen in *. cbn [length]. rewrite B_pow. splits; auto.
  - constructor; auto. unfold is_limb. lia.
  - rewrite I3. lia.
Qed.

(** The chosen width holds every value of the bit length, with its sign. *)
Lemma twos_width_spec bits : 0 <= bits -> let w := twos_width bits in
  1 <= w /\ bits + 1 <= 32 * w /\ 32 * w <= bits + 32.
Proof.
  intros Hb. unfold twos_width. pose proof (Z.div_mod (bits + 1 + 31) 32 ltac:(lia)).
  pose proof (Z.mod_pos_bound (bits + 1 + 31) 32 ltac:(lia)).
  destruct (Z.eqb_spec ((bits + 1 + 31) / 32) 0); cbv zeta; lia.
Qed.

Lemma bitlen_bound l : limbs l -> l <> [] ->
  0 <= bigint_abs_bitlen_limbs l <= 32 * zlen l /\ lv l < 2 ^ bigint_abs_bitlen_limbs l.
Proof.
  intros Hl Hne. rewrite bitlen_spec by auto. pose proof (lv_range l Hl) as [R1 R2].
  pose proof (zlen_pos l Hne). destruct (Z.eqb_spec (lv l) 0) as [E|E].
  - rewrite E. lia.
  - pose proof (Z.log2_spec (lv l) ltac:(lia)) as [L1 L2]. pose proof (Z.log2_nonneg (lv l)).
    assert (Z.log2 (lv l) < 32 * zlen l).
    { apply Z.log2_lt_pow2; [lia|]. unfold B in R2. rewrite <- Z.pow_mul_r in R2 by lia. exact R2. }
    rewrite <- Z.add_1_r in L2. lia.
Qed.

(** A width of [n] limbs is enough for [v]: the two's complement of its
    limbs is [v] modulo [2^(32 n)]. *)
Definition fits (n : Z) (x : Z) : Prop := - 2 ^ (32 * n - 1) <= x < 2 ^ (32 * n - 1).

Lemma B_pow2 n : 0 <= n -> B ^ n = 2 ^ (32 * n).
Proof. intros Hn. unfold B. rewrite <- Z.pow_mul_r by lia. reflexivity. Qed.

Lemma fits_width v bits w : bigint_ok v -> bigint_abs_bitlen_limbs (blimbs v) <= bits ->
  1 <= w -> bits + 1 <= 32 * w ->
  fits w (bval v) /\
  let t := twos_complement (Z.to_nat w) (blimbs v) (bigint_is_negative v) 1 in
  limbs t /\ zlen t = w /\ lv t = bval v mod 2 ^ (32 * w).
Proof.
  intros Hv Hb Hw1 Hw2. pose proof (ok_limbs v Hv) as Hl. pose proof (ok_nonempty v Hv) as Hne.
  destruct (bitlen_bound (blimbs v) Hl Hne) as [B1 B2].
  assert (Hlt : lv (blimbs v) < 2 ^ (32 * w - 1)).
  { eapply Z.lt_le_trans; [exact B2|]. apply Z.pow_le_mono_r; lia. }
  pose proof (lv_range (blimbs v) Hl) as [R1 R2].
  split; [unfold fits, bval; destruct (sign v); lia|].
  assert (Hlen : zlen (blimbs v) <= w).
  { destruct (Z.eq_dec (zlen (blimbs v)) 1); [lia|]. pose proof (zlen_pos _ Hne).
    pose proof (lv_normal_lower (blimbs v) Hl (ok_normal v Hv) ltac:(unfold zlen in *; lia)) as L.
    rewrite B_pow2 in L by lia. destruct (Z.le_gt_cases (zlen (blimbs v)) w); [assumption|].
    assert (2 ^ (32 * w - 1) <= 2 ^ (32 * Z.of_nat (length (blimbs v) - 1))).
    { apply Z.pow_le_mono_r; unfold zlen in *; lia. } lia. }
  destruct (twos_complement_spec (Z.to_nat w) (blimbs v) (bigint_is_negative v)) as (T1 & T2 & T3);
    [exact Hl|unfold zlen in *; lia|].
  cbv zeta. splits; auto; [unfold zlen; lia|]. rewrite T3, Z2Nat.id, B_pow2 by lia. reflexivity.
Qed.

Lemma signed_fits w x : 1 <= w -> fits w x -> signed (Z.to_nat w) (x mod 2 ^ (32 * w)) = x.
Proof.
  intros Hw Hx. unfold signed, fits in *. rewrite Z2Nat.id, B_pow2 by lia.
  assert (E : 2 ^ (32 * w) = 2 * 2 ^ (32 * w - 1)).
  { rewrite <- (Z.pow_1_r 2) at 2. rewrite <- Z.pow_add_r by lia. f_equal. lia. }
  assert (H2 : 2 ^ (32 * w) / 2 = 2 ^ (32 * w - 1)) by (rewrite E, Z.mul_comm; apply Z.div_mul; lia).
  rewrite H2. destruct (Z.lt_ge_cases x 0).
  - rewrite <- (Z.mod_unique_pos x (2 ^ (32 * w)) (-1) (x + 2 ^ (32 * w))) by lia.
    destruct (Z.ltb_spec (x + 2 ^ (32 * w)) (2 ^ (32 * w - 1))); lia.
  - rewrite Z.mod_small by lia. destruct (Z.ltb_spec x (2 ^ (32 * w - 1))); lia.
Qed.

(** From a two's complement to the payload. *)
Lemma from_twos alloc t w x (E : Prop) : 1 <= w -> limbs t -> zlen t = w ->
  lv t = x mod 2 ^ (32 * w) -> fits w x ->
  (forall E : Prop, (UINT32_MAX < w -> E) -> yields grant E (alloc w) (fun _ => w <= UINT32_MAX)) ->
  (UINT32_MAX < w -> E) ->
  makes grant E (let '(m, negative) := bigint_twos_complement_to_magnitude t in
                 in_buffer grant alloc w w m negative) x.
Proof.
  intros Hw Ht Hlen Hv Hf Ha HE.
  assert (Hne : t <> []) by (intros ->; unfold zlen in Hlen; cbn in Hlen; lia).
  pose proof (to_magnitude_spec t Ht Hne) as H.
  destruct (bigint_twos_complement_to_magnitude t) as [m neg]. destruct H as (M1 & M2 & M3 & M4 & M5).
  eapply (makes_weaken grant E); [apply in_buffer_spec; auto|auto|].
  - apply M2.
  - lia.
  - rewrite normalize_id by exact M2. unfold zlen in *. lia.
  - rewrite M3, Hv. replace (length t) with (Z.to_nat w) by (unfold zlen in Hlen; lia).
    apply signed_fits; assumption.
Qed.

Lemma bitwise_spec op a b : bigint_ok a -> bigint_ok b ->
  makes grant (UINT32_MAX < longest a b + 1) (bigint_bitwise_binary grant op a b)
    (bitop_limb op (bval a) (bval b)).
Proof.
  intros Ha Hb. unfold bigint_bitwise_binary.
  destruct (bitlen_bound (blimbs a)) as [A1 _]; auto with fant.
  destruct (bitlen_bound (blimbs b)) as [B1 _]; auto with fant.
  set (abit := bigint_abs_bitlen_limbs (blimbs a)) in *.
  set (bbit := bigint_abs_bitlen_limbs (blimbs b)) in *.
  assert (Hbits : (if bbit <? abit then abit else bbit) = Z.max abit bbit) by (case_if; boolprop; lia).
  rewrite Hbits. destruct (twos_width_spec (Z.max abit bbit) ltac:(lia)) as (W1 & W2 & W3).
  set (w := twos_width (Z.max abit bbit)) in *.
  destruct (fits_width a (Z.max abit bbit) w Ha ltac:(lia) W1 W2) as (FA & TA1 & TA2 & TA3).
  destruct (fits_width b (Z.max abit bbit) w Hb ltac:(lia) W1 W2) as (FB & TB1 & TB2 & TB3).
  destruct (zip_bitop op _ _ TA1 TB1 ltac:(unfold zlen in *; lia)) as (Z1 & Z2 & Z3).
  apply from_twos; auto.
  - unfold zlen in *. lia.
  - rewrite Z3, TA3, TB3. apply bitop_mod. lia.
  - apply bitop_range; [lia|assumption..].
  - intros E HE. apply binary_payload_spec; [lia|exact HE].
  - unfold longest in *. lia.
Qed.

Lemma bitnot_spec v : bigint_ok v ->
  makes grant (UINT32_MAX < zlen (blimbs v) + 1) (bigint_bitnot grant v) (Z.lnot (bval v)).
Proof.
  intros Hv. unfold bigint_bitnot.
  destruct (bitlen_bound (blimbs v)) as [A1 _]; auto with fant.
  set (bits := bigint_abs_bitlen_limbs (blimbs v)) in *.
  destruct (twos_width_spec bits ltac:(lia)) as (W1 & W2 & W3). set (w := twos_width bits) in *.
  destruct (fits_width v bits w Hv ltac:(unfold bits; lia) W1 W2) as (F & T1 & T2 & T3).
  destruct (map_not _ T1) as (N1 & N2 & N3).
  apply from_twos; auto.
  - unfold zlen in *. lia.
  - rewrite N3, T2, T3, B_pow2 by lia. unfold Z.lnot.
    pose proof (Z.div_mod (bval v) (2 ^ (32 * w)) ltac:(apply Z.pow_nonzero; lia)) as D.
    pose proof (Z.mod_pos_bound (bval v) (2 ^ (32 * w)) ltac:(apply Z.pow_pos_nonneg; lia)).
    apply Z.mod_unique_pos with (q := - (bval v / 2 ^ (32 * w)) - 1); lia.
  - unfold fits, Z.lnot in *. lia.
  - intros E HE. apply unary_payload_spec; [lia|exact HE].
  - lia.
Qed.

(** *** Comparison and powers of two *)

Lemma compare_spec a b : bigint_ok a -> bigint_ok b ->
  bigint_compare a b = sgn_cmp (bval a) (bval b).
Proof.
  intros Ha Hb. unfold bigint_compare, bigint_is_negative. rewrite cmp_abs_spec by auto with fant.
  pose proof (lv_range _ (ok_limbs a Ha)) as [Ra _]. pose proof (lv_range _ (ok_limbs b Hb)) as [Rb _].
  destruct Ha as (_ & _ & Sa & _), Hb as (_ & _ & Sb & _). unfold bval, sgn_cmp.
  destruct (sign a), (sign b); cbn [andb negb]; try specialize (Sa eq_refl); try specialize (Sb eq_refl);
    repeat match goal with
    | |- context [?x =? ?y] => destruct (Z.eqb_spec x y)
    | |- context [?x <? ?y] => destruct (Z.ltb_spec x y)
    end; lia.
Qed.

Lemma pow2_limbs bits : 0 <= bits ->
  let l := replicate (Z.to_nat (bits .>> 5)) 0 ++ [u32 (1 .<< (bits .& 31))] in
  limbs l /\ normal l /\ lv l = 2 ^ bits /\ zlen l = (bits .>> 5) + 1.
Proof.
  intros Hb. destruct (shift_parts bits Hb) as (H1 & H2 & H3). cbv zeta.
  rewrite Z.shiftl_mul_pow2, Z.mul_1_l by lia.
  assert (P : 2 ^ (bits .& 31) <= 2 ^ 31) by (apply Z.pow_le_mono_r; lia).
  pose proof (Z.pow_pos_nonneg 2 (bits .& 31) ltac:(lia) ltac:(lia)).
  rewrite wrap_small by lia. set (x := 2 ^ (bits .& 31)) in *. set (n := Z.to_nat (bits .>> 5)) in *.
  splits.
  - apply Forall_app. split; [apply limbs_replicate|]. apply limbs_one. lia.
  - split; [intros X; apply app_eq_nil in X as [_ X]; discriminate|]. intros _.
    rewrite length_app. cbn [length]. rewrite Nat.add_sub, rd_last. lia.
  - rewrite lv_snoc, lv_replicate, length_replicate. unfold n. rewrite Z2Nat.id, B_pow2 by lia.
    unfold x. rewrite Z.add_0_l, <- Z.pow_add_r by lia. f_equal. lia.
  - unfold zlen. rewrite length_app, length_replicate. cbn. unfold n. lia.
Qed.

Lemma pow2_spec bits (E : Prop) : 0 <= bits < 2 ^ 64 -> (UINT32_MAX < (bits .>> 5) + 1 -> E) ->
  yields grant E (bigint_pow2 grant bits)
    (fun v => bigint_ok v /\ bval v = 2 ^ bits /\ den_safe (blimbs v) = true /\
              zlen (blimbs v) = (bits .>> 5) + 1).
Proof.
  intros Hb HE. unfold bigint_pow2. destruct (pow2_limbs bits ltac:(lia)) as (H1 & H2 & H3 & H4).
  assert ((bits .>> 5) < 2 ^ 59).
  { rewrite Z.shiftr_div_pow2 by lia. apply Z.div_lt_upper_bound; lia. }
  destruct (Z.ltb_spec (SIZE_MAX - 1) (bits .>> 5)); [unfold SIZE_MAX in *; lia|].
  yreq. set (l := replicate (Z.to_nat (bits .>> 5)) 0 ++ [u32 (1 .<< (bits .& 31))]) in *.
  unfold js_mkbigint_limbs. destruct l as [|x t] eqn:El; [destruct H2; congruence|]. rewrite <- El in *.
  rewrite (normalize_id l H2).
  eapply yields_bind; [apply alloc_payload_spec; [unfold zlen; lia|rewrite H4; exact HE]|]. intros [] Hc.
  yext; [lia|]. apply yields_ret.
  assert (Hd : den_safe l = true) by (apply den_safe_pow2, u32_limb).
  destruct (finish_spec l false H1 (proj1 H2)) as [F1 F2]; [rewrite normalize_id by exact H2; exact Hc|].
  split; [exact F1|]. rewrite F2, H3. unfold bigint_finish_payload. cbn [blimbs].
  rewrite (normalize_id l H2). auto.
Qed.

End Proofs.

(** ** The properties *)

(** C33: [bigint_add], [bigint_sub], [bigint_mul] and [bigint_neg] are exact
    integer arithmetic: on well-formed payloads each returns a well-formed
    payload of the exact result, writes only inside its buffer, and can only
    fail with "oom", when an allocation is refused or the result's buffer
    would exceed 2^32 - 1 limbs. *)
Theorem bigint_arithmetic_exact grant a b : bigint_ok a -> bigint_ok b ->
  makes grant (UINT32_MAX < longest a b + 1) (bigint_add grant a b) (bval a + bval b) /\
  makes grant (UINT32_MAX < longest a b + 1) (bigint_sub grant a b) (bval a - bval b) /\
  makes grant (UINT32_MAX < zlen (blimbs a) + zlen (blimbs b) + 1) (bigint_mul grant a b)
    (bval a * bval b) /\
  makes grant False (bigint_neg grant a) (- bval a).
Proof. intros Ha Hb. splits; auto using add_spec, sub_spec, mul_spec, neg_spec. Qed.

Definition big_one : bigint := BigInt false [1].
Definition big_sample : bigint := BigInt true [2 ^ 32 - 1; 2 ^ 32 - 1].
Definition plenty : nat -> bool := fun _ => true.

Lemma limbs_dec l : forallb (fun x => (0 <=? x) && (x <? B)) l = true -> limbs l.
Proof.
  intros H. rewrite forallb_forall in H. apply Forall_forall. intros x Hx.
  apply list_elem_of_In, H in Hx. boolprop. unfold is_limb. lia.
Qed.

(** Well-formedness is decidable: concrete payloads check by evaluation. *)
Definition bigint_okb (v : bigint) : bool :=
  let l := blimbs v in
  forallb (fun x => (0 <=? x) && (x <? B)) l && negb (length l =? 0)%nat &&
  ((length l <=? 1)%nat || negb (rd l (length l - 1) =? 0)) &&
  (negb (sign v) || negb (lv l =? 0)) && (zlen l <=? UINT32_MAX).

Lemma bigint_okb_ok v : bigint_okb v = true -> bigint_ok v.
Proof.
  unfold bigint_okb. intros H. boolprop. unfold bigint_ok. splits; auto.
  - apply limbs_dec. assumption.
  - split; [intros E; rewrite E in *; cbn in *; lia|]. intros Hl.
    match goal with H : _ || _ = true |- _ => apply orb_true_iff in H as [H|H]; boolprop; [lia|assumption] end.
  - intros Hs. rewrite Hs in *. cbn in *. boolprop. assumption.
Qed.

Lemma bigint_arithmetic_exact_witness :
  makes plenty (UINT32_MAX < longest big_sample big_one + 1) (bigint_add plenty big_sample big_one)
    (- 2 ^ 64 + 2).
Proof.
  destruct (bigint_arithmetic_exact plenty big_sample big_one) as (H & _);
    [apply bigint_okb_ok; reflexivity..|].
  eapply makes_weaken; [exact H|auto|reflexivity].
Defined.

(** C38: [bigint_div] and [bigint_mod] are truncated division: a zero divisor
    is the error "Division by zero", and every divisor that is one limb long,
    whose two leading normalised limbs add up to less than 2^32, or that
    exceeds the dividend gives quotient and remainder exactly as
    [Z.quot] and [Z.rem] do. *)
Theorem bigint_division_correct grant a b : bigint_ok a -> bigint_ok b ->
  (bval b = 0 -> bigint_div grant a b = throw JS_ERR_TYPE "Division by zero" /\
                 bigint_mod grant a b = throw JS_ERR_TYPE "Division by zero") /\
  (bval b <> 0 -> den_safe (blimbs b) = true \/ Z.abs (bval a) < Z.abs (bval b) ->
   makes grant False (bigint_div grant a b) (Z.quot (bval a) (bval b)) /\
   makes grant False (bigint_mod grant a b) (Z.rem (bval a) (bval b))).
Proof.
  intros Ha Hb. split; [intros Hz|intros Hz Hs; auto using div_spec, mod_spec].
  unfold bigint_div, bigint_mod. fold (limbs_is_zero (blimbs b)). fold (bigint_is_zero b).
  rewrite bval_zero, Hz by exact Hb. split; reflexivity.
Qed.

Lemma bigint_division_correct_witness :
  den_safe [7; 2 ^ 31] = true /\
  makes plenty False (bigint_div plenty big_sample (BigInt false [7; 2 ^ 31])) (-1).
Proof.
  split; [reflexivity|].
  destruct (bigint_division_correct plenty big_sample (BigInt false [7; 2 ^ 31])) as (_ & H);
    [apply bigint_okb_ok; reflexivity..|].
  destruct H as [H _]; [discriminate|left; reflexivity|].
  eapply makes_weaken; [exact H|auto|reflexivity].
Defined.

(** The shifts are multiplication and flooring division by a power of
    two, for both signs (a negative value that loses bits is rounded down). *)
Theorem bigint_shifts_correct grant v shift : bigint_ok v -> 0 <= shift < 2 ^ 64 ->
  makes grant (UINT32_MAX < zlen (blimbs v) + (shift .>> 5) + 1) (bigint_shift_left grant v shift)
    (bval v * 2 ^ shift) /\
  makes grant (sign v = true /\ UINT32_MAX < zlen (blimbs v) + 1) (bigint_shift_right grant v shift)
    (bval v / 2 ^ shift).
Proof. intros Hv Hs. split; [apply shift_left_spec|apply shift_right_spec]; auto; lia. Qed.

Lemma bigint_shifts_correct_witness :
  makes plenty (sign big_sample = true /\ UINT32_MAX < 3) (bigint_shift_right plenty big_sample 40)
    (- 2 ^ 24).
Proof.
  destruct (bigint_shifts_correct plenty big_sample 40) as (_ & H);
    [apply bigint_okb_ok; reflexivity|lia|].
  eapply makes_weaken; [exact H|auto|reflexivity].
Defined.

(** The bitwise operators act on the infinite two's complement of signed
    values: the chosen limb width never cuts off a bit. *)
Theorem bigint_bitwise_correct grant a b : bigint_ok a -> bigint_ok b ->
  makes grant (UINT32_MAX < longest a b + 1) (bigint_bitand grant a b) (Z.land (bval a) (bval b)) /\
  makes grant (UINT32_MAX < longest a b + 1) (bigint_bitor grant a b) (Z.lor (bval a) (bval b)) /\
  makes grant (UINT32_MAX < longest a b + 1) (bigint_bitxor grant a b) (Z.lxor (bval a) (bval b)) /\
  makes grant (UINT32_MAX < zlen (blimbs a) + 1) (bigint_bitnot grant a) (Z.lnot (bval a)).
Proof.
  intros Ha Hb. splits; [apply (bitwise_spec grant BIGINT_BAND)|apply (bitwise_spec grant BIGINT_BOR)|
    apply (bitwise_spec grant BIGINT_BXOR)|apply bitnot_spec]; auto.
Qed.

Lemma bigint_bitwise_correct_witness :
  makes plenty (UINT32_MAX < 3) (bigint_bitxor plenty big_sample big_one) (- 2 ^ 64).
Proof.
  destruct (bigint_bitwise_correct plenty big_sample big_one) as (_ & _ & H & _);
    [apply bigint_okb_ok; reflexivity..|].
  eapply makes_weaken; [exact H|auto|reflexivity].
Defined.

(** [bigint_compare] orders payloads by value: it returns 0 exactly on
    equal values, which are then the same payload, and otherwise the sign of
    the difference. *)
Theorem bigint_compare_correct a b : bigint_ok a -> bigint_ok b ->
  bigint_compare a b = sgn_cmp (bval a) (bval b) /\ (bigint_compare a b = 0 <-> a = b).
Proof.
  intros Ha Hb. rewrite (compare_spec a b Ha Hb). split; [reflexivity|]. unfold sgn_cmp. split.
  - destruct (Z.eqb_spec (bval a) (bval b)) as [E|E]; [|case_if; discriminate]. intros _.
    apply bval_inj; assumption.
  - intros ->. rewrite Z.eqb_refl. reflexivity.
Qed.

Lemma bigint_compare_correct_witness : bigint_compare big_sample big_one = -1.
Proof.
  rewrite (proj1 (bigint_compare_correct big_sample big_one
    (bigint_okb_ok big_sample eq_refl) (bigint_okb_ok big_one eq_refl))). reflexivity.
Defined.
