(* ===== verification/BigIntText.v ===== *)
(** * BigInt text

    Reading and printing of BigInt values in [src/src/modules/bigint.c]:
    literals in base 2, 8, 10 and 16 with digit separators
    ([bigint_from_string_digits]), decimal output in groups of nine digits
    ([bigint_abs_to_decimal_string]), output in any radix from 2 to 36
    ([bigint_abs_to_radix_string]), the C-string export [strbigint] and
    [BigInt.prototype.toString]. *)

From S2P Require Import Prelude Limbs Alloc LimbDiv BigInt.

Definition BIGINT_DEC_GROUP_BASE : Z := 1000000000.

Section Code.
Context (grant : nat -> bool).

(** ** Reading *)

(** The doubled capacity. *)
Definition grow_u32_buffer (cap : Z) : M Z :=
  if (cap =? 0) || (SIZE_MAX / 2 <? cap) then throw_oom
  else request grant;;; ret (cap * 2).

(** [while (carry != 0)]: a 64-bit carry fills at most two limbs. *)
Fixpoint append_carry (fuel : nat) (l : list Z) (cap carry : Z) : M (list Z * Z) :=
  match fuel with
  | O => ret (l, cap)
  | S fuel =>
      if carry =? 0 then ret (l, cap)
      else
        let* cap := (if zlen l =? cap then grow_u32_buffer cap else ret cap) in
        write_extent (zlen l + 1) cap;;;
        append_carry fuel (l ++ [u32 carry]) cap (carry .>> 32)
  end.
Definition append_carry_limbs := append_carry 2.

(** [limbs * base + digit]. *)
Fixpoint muladd_loop (l : list Z) (base carry : Z) : list Z * Z :=
  match l with
  | [] => ([], carry)
  | x :: t =>
      let cur := u64 (u64 (x * base) + carry) in
      let '(r, c) := muladd_loop t base (cur .>> 32) in
      (u32 cur :: r, c)
  end.

Definition not_a_bigint {A} : M A := throw JS_ERR_TYPE "Cannot convert string to BigInt".

(** The loop over the characters; it ends with the limbs and the two flags. *)
Fixpoint digits_loop (base : Z) (allow_separators : bool) (s : list Z)
  (l : list Z) (cap : Z) (has_digit prev_sep : bool) : M (list Z * bool * bool) :=
  match s with
  | [] => ret (l, has_digit, prev_sep)
  | ch :: s =>
      if ch =? 95 then
        if negb allow_separators || negb has_digit || prev_sep then not_a_bigint
        else digits_loop base allow_separators s l cap has_digit true
      else
        let digit := hex_digit ch in
        if (digit <? 0) || (base <=? digit) then not_a_bigint
        else
          let '(l, carry) := muladd_loop l base digit in
          let* (l, cap) := (if carry =? 0 then ret (l, cap) else append_carry_limbs l cap carry) in
          digits_loop base allow_separators s l cap true false
  end.

(** The base and the start of the digits. *)
Definition literal_base (digits : list Z) : Z * nat :=
  if (2 <=? length digits)%nat && (rd digits 0 =? 48) then
    let p := rd digits 1 .| 0x20 in
    if p =? 120 then (16, 2%nat)
    else if p =? 111 then (8, 2%nat)
    else if p =? 98 then (2, 2%nat)
    else (10, 0%nat)
  else (10, 0%nat).

Definition bigint_from_string_digits (digits : list Z) (negative allow_separators : bool) : M bigint :=
  if (length digits =? 0)%nat then js_mkbigint_limbs grant [0] false
  else
    let '(base, start) := literal_base digits in
    if (length digits <=? start)%nat then not_a_bigint
    else
      let cap := zlen digits / 8 + 2 in
      let cap := if cap <? 4 then 4 else cap in
      request grant;;;
      let* (l, has_digit, prev_sep) :=
        digits_loop base allow_separators (drop start digits) [0] cap false false in
      if negb has_digit || prev_sep then not_a_bigint
      else js_mkbigint_limbs grant l negative.

Definition js_mkbigint (digits : list Z) (negative : bool) : M bigint :=
  bigint_from_string_digits digits negative true.

(** ** Printing *)

Definition fmt_09u (n : Z) : list Z :=
  let s := fmt_u n in replicate (9 - length s) 48 ++ s.

Definition u32_dec_len (v : Z) : nat :=
  if 1000000000 <=? v then 10
  else if 100000000 <=? v then 9
  else if 10000000 <=? v then 8
  else if 1000000 <=? v then 7
  else if 100000 <=? v then 6
  else if 10000 <=? v then 5
  else if 1000 <=? v then 4
  else if 100 <=? v then 3
  else if 10 <=? v then 2
  else 1.

(** The groups of nine digits, lowest first; [n] of them are already out. *)
Fixpoint dec_groups (fuel : nat) (l : list Z) (n cap : Z) : M (list Z) :=
  match fuel with
  | O => ret []
  | S fuel =>
      if limbs_is_zero l then ret []
      else
        let* cap := (if n =? cap then grow_u32_buffer cap else ret cap) in
        let '(q, rem) := bigint_div_small_inplace l BIGINT_DEC_GROUP_BASE in
        write_extent (n + 1) cap;;;
        let* groups := dec_groups fuel (bigint_normalize_limbs q) (n + 1) cap in
        ret (u32 rem :: groups)
  end.

(** The text is cut off at the computed length, as [snprintf] would. *)
Definition dec_text (groups : list Z) : list Z :=
  let last := rd groups (length groups - 1) in
  let len := (u32_dec_len last + (length groups - 1) * 9)%nat in
  take len (fmt_u last ++ concat (map fmt_09u (rev (take (length groups - 1) groups)))).

Definition bigint_abs_to_decimal_string (l : list Z) : M (list Z) :=
  if limbs_is_zero l then request grant;;; ret [48]
  else
    request grant;;; request grant;;;
    let* groups := dec_groups (2 * length l + 1) l 0 (zlen l * 2 + 1) in
    request grant;;;
    ret (dec_text groups).

Definition digit_map (d : Z) : Z := if d <? 10 then 48 + d else 87 + d.

(** The digits, lowest first; [pos] of them are already out. *)
Fixpoint radix_digits (fuel : nat) (l : list Z) (radix pos cap : Z) : M (list Z) :=
  match fuel with
  | O => ret []
  | S fuel =>
      if limbs_is_zero l then ret []
      else
        let* cap := (if cap <=? pos + 1 then request grant;;; ret (cap * 2) else ret cap) in
        let '(q, rem) := bigint_div_small_inplace l radix in
        write_extent (pos + 2) cap;;;
        let* out := radix_digits fuel (bigint_normalize_limbs q) radix (pos + 1) cap in
        ret (digit_map (u32 rem) :: out)
  end.

Definition bigint_abs_to_radix_string (l : list Z) (radix : Z) : M (list Z) :=
  if limbs_is_zero l then request grant;;; ret [48]
  else
    request grant;;; request grant;;;
    let* out := radix_digits (32 * length l + 1) l radix 0 (zlen l * 32 + 2) in
    ret (rev out).

(** 0 stands for a failed conversion. *)
Definition bigint_digits_len (v : bigint) : nat -> Z := fun k =>
  match (bigint_abs_to_decimal_string (blimbs v) k).1 with
  | Done (Ok s) => zlen s
  | _ => 0
  end.

(** [strbigint]: the returned length and [buf] afterwards; [len] is the size
    of [buf]. *)
Definition strbigint_text (neg : bool) (digits : list Z) (buf : list Z) : Z * list Z :=
  let len := length buf in
  let dlen := length digits in
  let total := Z.of_nat dlen + (if neg then 1 else 0) in
  if (len =? 0)%nat then (total, buf)
  else
    let buf := if neg && (0 <? len - 1)%nat then <[0%nat := 45]> buf else buf in
    let n := if neg then 1%nat else 0%nat in
    let avail := if (n <? len)%nat then (len - n - 1)%nat else 0%nat in
    let copy_len := if (dlen <? avail)%nat then dlen else avail in
    let buf := take n buf ++ take copy_len digits ++ drop (n + copy_len) buf in
    let term := (n + copy_len)%nat in
    let term := if (len <=? term)%nat then (len - 1)%nat else term in
    (total, <[term := 0]> buf).

Definition strbigint (v : bigint) (buf : list Z) : nat -> Z * list Z := fun k =>
  match (bigint_abs_to_decimal_string (blimbs v) k).1 with
  | Done (Ok digits) => strbigint_text (bigint_is_negative v) digits buf
  | _ => (0, buf)
  end.

(** [BigInt.prototype.toString] on a BigInt receiver; [radix] is the first
    argument as [int], when it is a number.  [js_mkstr] copies the bytes. *)
Definition builtin_bigint_toString (val : bigint) (radix : option Z) : M (list Z) :=
  let radix := default 10 radix in
  if (radix <? 2) || (36 <? radix) then throw JS_ERR_TYPE "radix must be between 2 and 36"
  else
    let* digits := (if radix =? 10 then bigint_abs_to_decimal_string (blimbs val)
                    else bigint_abs_to_radix_string (blimbs val) radix) in
    if negb (bigint_is_negative val) then request grant;;; ret digits
    else request grant;;; request grant;;; ret (45 :: digits).

End Code.

(** ** Literals *)

(** The numeric literals in a base: digits, with single separators between
    two digits where they are allowed. *)
Definition is_digit (base c : Z) : Prop := 0 <= hex_digit c < base.

Inductive literal (base : Z) (sep : bool) : list Z -> Z -> Prop :=
| lit_digit c : is_digit base c -> literal base sep [c] (hex_digit c)
| lit_more s v c : literal base sep s v -> is_digit base c ->
    literal base sep (s ++ [c]) (v * base + hex_digit c)
| lit_sep s v c : sep = true -> literal base sep s v -> is_digit base c ->
    literal base sep (s ++ [95; c]) (v * base + hex_digit c).

(** The loop over the characters with an integer in place of the limbs. *)
Fixpoint scan (base : Z) (sep : bool) (s : list Z) (acc : Z) (has prev : bool) : option (Z * bool * bool) :=
  match s with
  | [] => Some (acc, has, prev)
  | ch :: s =>
      if ch =? 95 then
        if negb sep || negb has || prev then None else scan base sep s acc has true
      else if (hex_digit ch <? 0) || (base <=? hex_digit ch) then None
      else scan base sep s (acc * base + hex_digit ch) true false
  end.

Lemma digit_not_sep base c : is_digit base c -> (c =? 95) = false.
Proof. intros [H _]. destruct (Z.eqb_spec c 95) as [->|]; [exfalso; apply H; reflexivity|reflexivity]. Qed.

Lemma digit_test base c : (hex_digit c <? 0) || (base <=? hex_digit c) = false <-> is_digit base c.
Proof.
  unfold is_digit. rewrite orb_false_iff, Z.ltb_ge, Z.leb_gt. tauto.
Qed.

Lemma scan_app base sep s t : forall acc has prev,
  scan base sep (s ++ t) acc has prev =
  match scan base sep s acc has prev with
  | Some (a, h, p) => scan base sep t a h p
  | None => None
  end.
Proof.
  induction s as [|c s IH]; intros acc has prev; [reflexivity|]. cbn [app scan].
  destruct (c =? 95); [destruct (negb sep || negb has || prev); auto|].
  destruct ((hex_digit c <? 0) || (base <=? hex_digit c)); auto.
Qed.

Lemma scan_digit base sep c acc has prev : is_digit base c ->
  scan base sep [c] acc has prev = Some (acc * base + hex_digit c, true, false).
Proof.
  intros Hc. cbn. rewrite (digit_not_sep base c Hc). apply digit_test in Hc. rewrite Hc. reflexivity.
Qed.

Lemma literal_scan base sep s v : literal base sep s v -> scan base sep s 0 false false = Some (v, true, false).
Proof.
  induction 1 as [c Hc|s v c _ IH Hc|s v c Hs _ IH Hc].
  - rewrite scan_digit by exact Hc. reflexivity.
  - rewrite scan_app, IH. apply scan_digit. exact Hc.
  - rewrite scan_app, IH. cbn [scan]. rewrite Hs. cbn. change (95 =? 95) with true. cbv iota.
    apply (scan_digit base true c v true true Hc).
Qed.

(** What the flags say about the text read so far. *)
Definition scanned (base : Z) (sep : bool) (p : list Z) (acc : Z) (has prev : bool) : Prop :=
  match has, prev with
  | false, _ => p = [] /\ acc = 0 /\ prev = false
  | true, false => literal base sep p acc
  | true, true => sep = true /\ exists q, p = q ++ [95] /\ literal base sep q acc
  end.

Lemma scan_sound base sep s : forall p acc has prev a h q,
  scanned base sep p acc has prev -> scan base sep s acc has prev = Some (a, h, q) ->
  scanned base sep (p ++ s) a h q.
Proof.
  induction s as [|c s IH]; intros p acc has prev a h q Hp Hs; cbn [scan] in Hs.
  { injection Hs as <- <- <-. rewrite app_nil_r. exact Hp. }
  replace (p ++ c :: s) with ((p ++ [c]) ++ s) by (rewrite <- app_assoc; reflexivity).
  destruct (Z.eqb_spec c 95) as [->|Hc].
  - destruct sep, has, prev; try discriminate Hs. eapply IH; [|exact Hs]. cbn in *. split; [reflexivity|].
    exists p. auto.
  - destruct ((hex_digit c <? 0) || (base <=? hex_digit c)) eqn:E; [discriminate|].
    apply digit_test in E. eapply IH; [|exact Hs]. cbn. unfold scanned in Hp. destruct has; [destruct prev|].
    + destruct Hp as (-> & x & -> & Hx). rewrite <- app_assoc. apply lit_sep; auto.
    + apply lit_more; assumption.
    + destruct Hp as (-> & -> & _). apply (lit_digit base sep c E).
Qed.

Lemma scan_literal base sep s v : scan base sep s 0 false false = Some (v, true, false) <-> literal base sep s v.
Proof.
  split; [|apply literal_scan]. intros H.
  apply (scan_sound base sep s [] 0 false false v true false); [cbn; auto|exact H].
Qed.

(** *** The limbs follow the integer *)

Lemma muladd_spec l : forall base carry, limbs l -> 0 < base <= 36 -> 0 <= carry < base ->
  let '(r, c) := muladd_loop l base carry in
  limbs r /\ length r = length l /\ 0 <= c < base /\
  lv r + B ^ zlen l * c = lv l * base + carry.
Proof.
  induction l as [|x l IH]; intros base carry Hl Hb Hc; cbn [muladd_loop].
  { cbn. splits; auto; try lia. change (B ^ zlen []) with 1. lia. }
  inversion_clear Hl as [|? ? Hx Hl']. unfold is_limb, B in Hx.
  rewrite (wrap_small 64 (x * base)) by nia.
  assert (Hs : 0 <= x * base + carry < 2 ^ 64) by nia.
  pose proof (split_carry _ Hs) as S. pose proof (carry_div _ Hs) as D.
  assert (Hc' : 0 <= u64 (x * base + carry) .>> 32 < base).
  { rewrite D. unfold B. split; [apply Z.div_pos; lia|apply Z.div_lt_upper_bound; nia]. }
  specialize (IH base (u64 (x * base + carry) .>> 32) Hl' Hb Hc').
  destruct (muladd_loop l base (u64 (x * base + carry) .>> 32)) as [r c].
  destruct IH as (I1 & I2 & I3 & I4). cbn [length lv]. unfold zlen in *. cbn [length]. rewrite B_pow.
  splits; auto; try lia.
  constructor; [apply u32_limb|exact I1].
Qed.

(** [m] ends in the error [s], or in "oom" with an excuse. *)
Definition throws {A} (grant : nat -> bool) (E : Prop) (m : M A) (e : err_kind) (s : string) : Prop :=
  forall k, (m k).1 = Done (Err e s) \/
            (m k).1 = Done (Err JS_ERR_TYPE "oom") /\ (E \/ starved grant).

Lemma throws_bind {A C} grant E (m : M A) (f : A -> M C) P e s :
  yields grant E m P -> (forall a, P a -> throws grant E (f a) e s) ->
  throws grant E (let* a := m in f a) e s.
Proof.
  intros Hm Hf k. unfold mbind_. specialize (Hm k). destruct (m k) as [[[a|e' s']|] k']; cbn in *.
  - apply Hf. exact Hm.
  - destruct Hm as (-> & -> & Hm). right. auto.
  - contradiction.
Qed.

Lemma throws_bind_l {A C} grant E (m : M A) (f : A -> M C) e s :
  throws grant E m e s -> throws grant E (let* a := m in f a) e s.
Proof.
  intros Hm k. unfold mbind_. specialize (Hm k). destruct (m k) as [o k']. cbn in *.
  destruct Hm as [-> | [-> Hm]]; cbn; auto.
Qed.

Lemma throws_throw {A} grant E e s : throws grant E (throw e s : M A) e s.
Proof. intros k. left. reflexivity. Qed.

Section Reading.
Context (grant : nat -> bool).

Lemma grow_spec cap E : 0 < cap <= SIZE_MAX / 2 ->
  yields grant E (grow_u32_buffer grant cap) (fun c => c = cap * 2).
Proof.
  intros Hc. unfold grow_u32_buffer. destruct (Z.eqb_spec cap 0); [lia|].
  destruct (Z.ltb_spec (SIZE_MAX / 2) cap); [lia|]. cbn [orb]. yreq. apply yields_ret. reflexivity.
Qed.

Lemma append_carry_spec l cap carry E : 0 < carry < B -> 0 < zlen l <= cap -> zlen l <= SIZE_MAX / 2 ->
  yields grant E (append_carry_limbs grant l cap carry)
    (fun '(r, cap') => r = l ++ [carry] /\ zlen l + 1 <= cap').
Proof.
  intros Hc Hl Hs. unfold append_carry_limbs. cbn [append_carry].
  destruct (Z.eqb_spec carry 0); [lia|].
  eapply (yields_bind _ _ _ _ (fun c => zlen l + 1 <= c)).
  - destruct (Z.eqb_spec (zlen l) cap) as [E1|E1].
    + eapply (yields_weaken _ _ E); [apply grow_spec; lia|tauto|]. cbv beta. intros a ->. lia.
    + apply yields_ret. lia.
  - intros c Hcc. yext; [exact Hcc|]. cbn [append_carry].
    replace (carry .>> 32) with 0.
    + change (0 =? 0) with true. cbv iota. apply yields_ret. rewrite wrap_small by (unfold B in *; lia). auto.
    + rewrite Z.shiftr_div_pow2, Z.div_small by (unfold B in *; lia). reflexivity.
Qed.

(** One digit. *)
Lemma digit_step l cap base d E : limbs l -> l <> [] -> 0 < base <= 36 -> 0 <= d < base ->
  zlen l <= cap -> zlen l <= SIZE_MAX / 2 ->
  yields grant E
    (let '(l, carry) := muladd_loop l base d in
     if carry =? 0 then ret (l, cap) else append_carry_limbs grant l cap carry)
    (fun '(r, cap') => limbs r /\ r <> [] /\ lv r = lv l * base + d /\ zlen r <= cap' /\
                       zlen r <= zlen l + 1).
Proof.
  intros Hl Hne Hb Hd Hc Hs. pose proof (muladd_spec l base d Hl Hb Hd) as H.
  pose proof (zlen_pos l Hne). destruct (muladd_loop l base d) as [r c]. destruct H as (H1 & H2 & H3 & H4).
  assert (Hr : zlen r = zlen l) by (unfold zlen; lia).
  assert (Hrne : r <> []) by (intros ->; destruct l; [congruence|discriminate]).
  destruct (Z.eqb_spec c 0) as [->|Hc0].
  - apply yields_ret. splits; auto; lia.
  - eapply (yields_weaken _ _ E); [apply append_carry_spec; unfold B; lia|tauto|].
    intros [r' cap'] [-> Hcap]. rewrite lv_snoc. unfold zlen in *. rewrite length_app. cbn [length].
    splits; auto; try lia.
    + apply Forall_app. split; [exact H1|]. apply limbs_one. lia.
    + destruct r; discriminate.
    + rewrite H2. exact H4.
Qed.

Lemma digits_loop_spec base sep (Hb : 0 < base <= 36) s : forall l cap has prev E,
  limbs l -> l <> [] -> zlen l <= cap -> zlen l + zlen s <= SIZE_MAX / 2 ->
  match scan base sep s (lv l) has prev with
  | Some (v, h, p) =>
      yields grant E (digits_loop grant base sep s l cap has prev)
        (fun '(r, h', p') => limbs r /\ r <> [] /\ lv r = v /\ zlen r <= zlen l + zlen s /\ h' = h /\ p' = p)
  | None =>
      throws grant E (digits_loop grant base sep s l cap has prev) JS_ERR_TYPE "Cannot convert string to BigInt"
  end.
Proof.
  induction s as [|c s IH]; intros l cap has prev E Hl Hne Hc Hs; cbn [scan digits_loop].
  { apply yields_ret. unfold zlen. cbn. splits; auto. lia. }
  assert (Ez : zlen (c :: s) = zlen s + 1) by (unfold zlen; cbn; lia). rewrite Ez in *.
  destruct (c =? 95).
  - destruct (negb sep || negb has || prev); [apply throws_throw|].
    specialize (IH l cap has true E Hl Hne Hc ltac:(lia)).
    destruct (scan base sep s (lv l) has true) as [[[v h] p]|]; [|exact IH].
    eapply (yields_weaken _ _ E); [exact IH|tauto|]. intros [[r h'] p'] (? & ? & ? & ? & ? & ?). splits; auto. lia.
  - destruct ((hex_digit c <? 0) || (base <=? hex_digit c)) eqn:Ed; [apply throws_throw|].
    apply digit_test in Ed.
    pose proof (digit_step l cap base (hex_digit c) E Hl Hne Hb Ed Hc ltac:(unfold zlen in *; lia)) as Hstep.
    destruct (muladd_loop l base (hex_digit c)) as [l1 carry].
    assert (Hrec : forall a, (let '(r, cap') := a in limbs r /\ r <> [] /\ lv r = lv l * base + hex_digit c /\
        zlen r <= cap' /\ zlen r <= zlen l + 1) ->
      match scan base sep s (lv l * base + hex_digit c) true false with
      | Some (v, h, p) =>
          yields grant E (let '(l, cap) := a in digits_loop grant base sep s l cap true false)
            (fun '(r, h', p') => limbs r /\ r <> [] /\ lv r = v /\ zlen r <= zlen l + (zlen s + 1) /\ h' = h /\ p' = p)
      | None => throws grant E (let '(l, cap) := a in digits_loop grant base sep s l cap true false)
                  JS_ERR_TYPE "Cannot convert string to BigInt"
      end).
    { intros [r cap'] (R1 & R2 & R3 & R4 & R5). rewrite <- R3.
      specialize (IH r cap' true false E R1 R2 R4 ltac:(lia)).
      destruct (scan base sep s (lv r) true false) as [[[v h] p]|]; [|exact IH].
      eapply (yields_weaken _ _ E); [exact IH|tauto|]. intros [[r' h'] p'] (? & ? & ? & ? & ? & ?). splits; auto. lia. }
    destruct (scan base sep s (lv l * base + hex_digit c) true false) as [[[v h] p]|].
    + eapply yields_bind; [exact Hstep|]. exact Hrec.
    + eapply throws_bind; [exact Hstep|]. exact Hrec.
Qed.

Lemma literal_base_range digits : let '(base, start) := literal_base digits in
  (base = 2 \/ base = 8 \/ base = 10 \/ base = 16) /\ (start = 0%nat \/ start = 2%nat).
Proof. unfold literal_base. repeat case_if; auto 6. Qed.

(** The value of a text, when it is a literal of the base its prefix selects. *)
Definition text_value (digits : list Z) (sep : bool) (v : Z) : Prop :=
  let '(base, start) := literal_base digits in literal base sep (drop start digits) v.

Lemma from_string_spec digits negative sep : digits <> [] -> zlen digits < UINT32_MAX ->
  (forall v, text_value digits sep v ->
     makes grant False (bigint_from_string_digits grant digits negative sep) (if negative then - v else v)) /\
  ((forall v, ~ text_value digits sep v) ->
     throws grant False (bigint_from_string_digits grant digits negative sep)
       JS_ERR_TYPE "Cannot convert string to BigInt").
Proof.
  intros Hne Hsmall. unfold bigint_from_string_digits, text_value.
  assert (H0 : (length digits =? 0)%nat = false) by (destruct digits; [congruence|reflexivity]). rewrite H0.
  pose proof (literal_base_range digits) as HB. destruct (literal_base digits) as [base start].
  assert (Hb : 0 < base <= 36) by lia.
  destruct (Nat.leb_spec (length digits) start) as [Hlen|Hlen].
  { rewrite drop_ge by exact Hlen. split; [|intros _; apply throws_throw].
    intros v Hv. apply literal_scan in Hv. discriminate. }
  set (cap := if zlen digits / 8 + 2 <? 4 then 4 else zlen digits / 8 + 2).
  assert (Hcap : zlen [0] <= cap) by (unfold cap, zlen; cbn [length]; case_if; boolprop; lia).
  set (s := drop start digits).
  assert (Hzs : zlen s <= zlen digits) by (unfold s, zlen; rewrite length_drop; lia).
  pose proof (digits_loop_spec base sep Hb s [0] cap false false False ltac:(apply limbs_one; lia)
    ltac:(discriminate) Hcap) as L.
  specialize (L ltac:(change (SIZE_MAX / 2) with (2 ^ 63 - 1); unfold UINT32_MAX, zlen in *; cbn [length]; lia)).
  change (lv [0]) with 0 in L. split.
  - intros v Hv. apply literal_scan in Hv. rewrite Hv in L. yreq.
    eapply yields_bind; [exact L|]. intros [[r h] p] (R1 & R2 & R3 & R4 & -> & ->). cbn [negb orb].
    rewrite <- R3. apply mkbigint_limbs_spec; auto.
    pose proof (zlen_normalize r). unfold zlen in *. cbn [length] in *. lia.
  - intros Hv. eapply throws_bind; [apply yields_request|]. intros [] _.
    destruct (scan base sep s 0 false false) as [[[v h] p]|] eqn:Es; [|apply throws_bind_l; exact L].
    eapply throws_bind; [exact L|]. intros [[r h'] p'] (R1 & R2 & R3 & R4 & -> & ->).
    destruct (negb h || p) eqn:Ef; [apply throws_throw|]. exfalso. boolprop. subst h p.
    apply (Hv v), scan_literal. exact Es.
Qed.

End Reading.

(** ** Numerals *)

Definition digit_val (c : Z) : Z := if c <=? 57 then c - 48 else c - 87.

Definition horner (radix : Z) (s : list Z) : Z := fold_left (fun a c => a * radix + digit_val c) s 0.

(** [c] is a digit of the radix as the code prints it. *)
Definition numeral_digit (radix c : Z) : Prop := exists d, 0 <= d < radix /\ c = digit_map d.

(** [s] is the numeral of [v] in the radix: digits, no leading zero, and the
    value of the digits is [v]. *)
Definition numeral (radix : Z) (s : list Z) (v : Z) : Prop :=
  s <> [] /\ Forall (numeral_digit radix) s /\ horner radix s = v /\ (rd s 0 = 48 -> length s = 1%nat).

Lemma digit_val_map d : 0 <= d < 36 -> digit_val (digit_map d) = d.
Proof.
  intros Hd. unfold digit_val, digit_map. destruct (Z.ltb_spec d 10).
  - destruct (Z.leb_spec (48 + d) 57); lia.
  - destruct (Z.leb_spec (87 + d) 57); lia.
Qed.

Lemma digit_map_zero d : 0 <= d -> digit_map d = 48 -> d = 0.
Proof. unfold digit_map. destruct (Z.ltb_spec d 10); lia. Qed.

Lemma horner_snoc radix s c : horner radix (s ++ [c]) = horner radix s * radix + digit_val c.
Proof. unfold horner. rewrite fold_left_app. reflexivity. Qed.

Lemma horner_app radix s t : 0 <= radix -> horner radix (s ++ t) = horner radix s * radix ^ zlen t + horner radix t.
Proof.
  intros Hr. induction t as [|c t IH] using rev_ind.
  { rewrite app_nil_r. change (radix ^ zlen []) with 1. unfold horner at 3. cbn. lia. }
  rewrite app_assoc, !horner_snoc, IH. unfold zlen. rewrite length_app, Nat2Z.inj_add. cbn [length].
  rewrite Z.pow_add_r, Z.pow_1_r by lia. ring.
Qed.

Lemma rd_rev_0 l : rd (rev l) 0 = rd l (length l - 1).
Proof.
  destruct l as [|x l] using rev_ind; [reflexivity|]. rewrite rev_app_distr, length_app. cbn [rev app length].
  rewrite Nat.add_sub, rd_last. reflexivity.
Qed.

(** *** ["%u"] *)

Lemma dec_lsb_text f : forall n, 0 <= n < 10 ^ Z.of_nat f -> (1 <= f)%nat ->
  let s := dec_lsb f n in
  s <> [] /\ Forall (numeral_digit 10) s /\ horner 10 (rev s) = n /\
  (rd s (length s - 1) = 48 -> length s = 1%nat) /\ (length s <= f)%nat.
Proof.
  induction f as [|f IH]; intros n Hn Hf; [lia|]. cbn [dec_lsb].
  assert (Hdig : forall d, 0 <= d < 10 -> 48 + d = digit_map d).
  { intros d Hd. unfold digit_map. destruct (Z.ltb_spec d 10); lia. }
  destruct (Z.ltb_spec n 10) as [Hs|Hs]; cbv zeta.
  - splits; [discriminate| | |auto|cbn; lia].
    + constructor; [exists n; split; [lia|apply Hdig; lia]|constructor].
    + rewrite Hdig by lia. cbn [rev app]. unfold horner. cbn. apply digit_val_map. lia.
  - pose proof (Z.mod_pos_bound n 10 ltac:(lia)). pose proof (Z.div_mod n 10 ltac:(lia)) as Dm.
    rewrite Nat2Z.inj_succ, Z.pow_succ_r in Hn by lia.
    assert (Hq : 0 <= n / 10 < 10 ^ Z.of_nat f).
    { split; [apply Z.div_pos; lia|apply Z.div_lt_upper_bound; lia]. }
    assert (1 <= n / 10) by (apply Z.div_le_lower_bound; lia).
    assert (1 <= f)%nat by (destruct f; [cbn in Hq; lia|lia]).
    destruct (IH (n / 10) Hq ltac:(lia)) as (I1 & I2 & I3 & I4 & I5).
    set (t := dec_lsb f (n / 10)) in *. assert (Ht : (1 <= length t)%nat) by (destruct t; cbn; [congruence|lia]).
    splits.
    + discriminate.
    + constructor; auto. exists (n mod 10). split; [lia|apply Hdig; lia].
    + cbn [rev]. rewrite horner_snoc, I3, Hdig, digit_val_map by lia. lia.
    + cbn [length]. replace (S (length t) - 1)%nat with (S (length t - 1)) by lia.
      change (rd (48 + n mod 10 :: t) (S (length t - 1))) with (rd t (length t - 1)). intros E.
      exfalso. specialize (I4 E). destruct t as [|c [|]]; try discriminate. cbn in E, I3.
      unfold horner in I3. cbn in I3. subst c. cbn in I3. change (digit_val 48) with 0 in I3. lia.
    + cbn [length]. lia.
Qed.

Lemma fmt_u_numeral n : 0 <= n < 2 ^ 32 -> numeral 10 (fmt_u n) n.
Proof.
  intros Hn. destruct (dec_lsb_text 10 n ltac:(lia) ltac:(lia)) as (H1 & H2 & H3 & H4 & _).
  unfold numeral, fmt_u. rewrite rd_rev_0, length_rev. splits; auto.
  - intros E. apply H1. rewrite <- (rev_involutive (dec_lsb 10 n)), E. reflexivity.
  - apply Forall_rev. exact H2.
Qed.

(** The number of digits is determined by the value. *)
Lemma dec_lsb_length f : forall n k, (1 <= k <= f)%nat -> n < 10 ^ Z.of_nat k ->
  (k = 1%nat \/ 10 ^ Z.of_nat (k - 1) <= n) -> length (dec_lsb f n) = k.
Proof.
  induction f as [|f IH]; intros n k Hk Hn Hl; [lia|]. cbn [dec_lsb].
  destruct (Z.ltb_spec n 10) as [Hs|Hs].
  - destruct Hl as [->|Hl]; [reflexivity|]. destruct (Nat.eq_dec k 1) as [->|]; [reflexivity|].
    assert (10 ^ 1 <= 10 ^ Z.of_nat (k - 1)) by (apply Z.pow_le_mono_r; lia). lia.
  - destruct (Nat.eq_dec k 1) as [->|Hk1]; [change (10 ^ Z.of_nat 1) with 10 in Hn; lia|].
    cbn [length]. destruct Hl as [|Hl]; [lia|]. rewrite (IH (n / 10) (k - 1)%nat); [lia|lia|..].
    + replace k with (S (k - 1)) in Hn by lia. rewrite Nat2Z.inj_succ, Z.pow_succ_r in Hn by lia.
      apply Z.div_lt_upper_bound; lia.
    + destruct (Nat.eq_dec (k - 1) 1) as [|Hk2]; [auto|]. right.
      replace (k - 1)%nat with (S (k - 1 - 1)) in Hl by lia. rewrite Nat2Z.inj_succ, Z.pow_succ_r in Hl by lia.
      apply Z.div_le_lower_bound; lia.
Qed.

Lemma u32_dec_len_spec v : 0 <= v < 2 ^ 32 -> u32_dec_len v = length (fmt_u v).
Proof.
  intros Hv. unfold u32_dec_len, fmt_u. rewrite length_rev. symmetry.
  repeat match goal with |- context [?x <=? v] => destruct (Z.leb_spec x v) end;
    apply dec_lsb_length; try lia; try (vm_compute; lia);
    match goal with
    | |- v < ?p => let q := eval vm_compute in p in change p with q; lia
    | |- _ \/ ?p <= v => let q := eval vm_compute in p in change p with q; lia
    end.
Qed.

(** *** ["%09u"] and the groups *)

Lemma horner_zeros k : horner 10 (replicate k 48) = 0.
Proof.
  induction k as [|k IH]; [reflexivity|]. rewrite replicate_S_end, horner_snoc, IH. reflexivity.
Qed.

Lemma zero_digit : numeral_digit 10 48.
Proof. exists 0. split; [lia|reflexivity]. Qed.

Lemma fmt_09u_spec g : 0 <= g < BIGINT_DEC_GROUP_BASE ->
  length (fmt_09u g) = 9%nat /\ Forall (numeral_digit 10) (fmt_09u g) /\ horner 10 (fmt_09u g) = g.
Proof.
  unfold BIGINT_DEC_GROUP_BASE. intros Hg. unfold fmt_09u.
  destruct (fmt_u_numeral g ltac:(lia)) as (H1 & H2 & H3 & _).
  assert (Hlen : (length (fmt_u g) <= 9)%nat).
  { rewrite <- u32_dec_len_spec by lia. unfold u32_dec_len. repeat case_if; boolprop; lia. }
  splits.
  - rewrite length_app, length_replicate. lia.
  - apply Forall_app. split; [|exact H2]. apply Forall_replicate, zero_digit.
  - rewrite horner_app, horner_zeros, H3 by lia. lia.
Qed.

Fixpoint gval (gs : list Z) : Z :=
  match gs with [] => 0 | g :: t => g + BIGINT_DEC_GROUP_BASE * gval t end.

Definition is_group (g : Z) : Prop := 0 <= g < BIGINT_DEC_GROUP_BASE.

Lemma gval_snoc gs g : gval (gs ++ [g]) = gval gs + BIGINT_DEC_GROUP_BASE ^ zlen gs * g.
Proof.
  induction gs as [|x gs IH]; [change (BIGINT_DEC_GROUP_BASE ^ zlen []) with 1; cbn [app gval]; lia|]. cbn [app gval]. rewrite IH. unfold zlen. cbn [length].
  rewrite Nat2Z.inj_succ, Z.pow_succ_r by lia. ring.
Qed.

Lemma groups_text gs : Forall is_group gs ->
  let s := concat (map fmt_09u (rev gs)) in
  length s = (length gs * 9)%nat /\ Forall (numeral_digit 10) s /\ horner 10 s = gval gs.
Proof.
  induction 1 as [|g gs Hg Hgs IH]; [splits; auto|]. destruct IH as (I1 & I2 & I3).
  destruct (fmt_09u_spec g Hg) as (F1 & F2 & F3). cbn [rev]. rewrite map_app, concat_app. cbn [map concat].
  rewrite app_nil_r. cbv zeta. splits.
  - rewrite length_app, I1, F1. cbn. lia.
  - apply Forall_app. auto.
  - rewrite horner_app, I3, F3 by lia. unfold zlen. rewrite F1. cbn [gval].
    change (10 ^ Z.of_nat 9) with BIGINT_DEC_GROUP_BASE. lia.
Qed.

Lemma dec_text_spec gs : Forall is_group gs -> gs <> [] -> rd gs (length gs - 1) <> 0 ->
  numeral 10 (dec_text gs) (gval gs).
Proof.
  intros Hg Hne Hl. pose proof (list_snoc gs Hne) as E. unfold dec_text.
  set (last := rd gs (length gs - 1)) in *. set (init := take (length gs - 1) gs) in *.
  assert (Hinit : Forall is_group init) by (apply Forall_take; exact Hg).
  assert (Hlen : (length gs - 1)%nat = length init) by (unfold init; rewrite length_take; lia).
  assert (Hlast : is_group last) by (rewrite E in Hg; apply Forall_app in Hg as [_ Hg]; inversion Hg; auto).
  assert (H32 : 0 <= last < 2 ^ 32) by (unfold is_group, BIGINT_DEC_GROUP_BASE in Hlast; lia).
  destruct (groups_text init Hinit) as (T1 & T2 & T3). destruct (fmt_u_numeral last H32) as (N1 & N2 & N3 & N4).
  set (t := concat (map fmt_09u (rev init))) in *.
  rewrite firstn_all2 by (rewrite length_app, T1, Hlen, u32_dec_len_spec by exact H32; lia).
  assert (Hp : (1 <= length (fmt_u last))%nat) by (destruct (fmt_u last); cbn; [congruence|lia]).
  assert (Hz : rd (fmt_u last) 0 <> 48).
  { intros X. specialize (N4 X). destruct (fmt_u last) as [|c [|]]; try discriminate. cbn in X. subst c.
    apply Hl. rewrite <- N3. reflexivity. }
  unfold numeral. splits.
  - destruct (fmt_u last); [congruence|cbn; discriminate].
  - apply Forall_app. auto.
  - rewrite horner_app, N3, T3 by lia. rewrite E, gval_snoc. unfold zlen. rewrite T1.
    replace (10 ^ Z.of_nat (length init * 9)) with (BIGINT_DEC_GROUP_BASE ^ Z.of_nat (length init)); [lia|].
    change BIGINT_DEC_GROUP_BASE with (10 ^ 9). rewrite <- Z.pow_mul_r by lia. f_equal. lia.
  - rewrite rd_app_l by lia. contradiction.
Qed.

(** ** The printing loops *)

Section Printing.
Context (grant : nat -> bool).

(** One division step of either loop. *)
Lemma div_step_small l d : limbs l -> normal l -> 0 < d < B ->
  let '(q, rem) := bigint_div_small_inplace l d in
  let q := bigint_normalize_limbs q in
  limbs q /\ normal q /\ lv q = lv l / d /\ u32 rem = lv l mod d.
Proof.
  intros Hl Hn Hd. pose proof (div_small_spec l d Hl Hd) as S.
  destruct (bigint_div_small_inplace l d) as [q r]. destruct S as (S1 & S2 & S3 & S4). cbv zeta.
  rewrite normalize_lv, wrap_small by (unfold B in *; lia). splits; auto using normalize_limbs.
  - apply normalize_normal. intros ->. pose proof (normal_pos _ Hn). cbn in S2. lia.
  - apply Z.div_unique with r; lia.
  - apply Z.mod_unique with (lv q); lia.
Qed.

Lemma div_fits x d f : 0 < d -> x < d ^ Z.of_nat (S f) -> x / d < d ^ Z.of_nat f.
Proof.
  intros Hd H. rewrite Nat2Z.inj_succ, Z.pow_succ_r in H by lia. apply Z.div_lt_upper_bound; lia.
Qed.

(** The number of groups fits the buffer, which is never grown. *)
Lemma dec_groups_spec f : forall l n cap, limbs l -> normal l ->
  lv l < BIGINT_DEC_GROUP_BASE ^ Z.of_nat f -> n + Z.of_nat f <= cap ->
  yields grant False (dec_groups grant f l n cap)
    (fun gs => Forall is_group gs /\ gval gs = lv l /\
               (lv l = 0 -> gs = []) /\
               (lv l <> 0 -> gs <> [] /\ rd gs (length gs - 1) <> 0)).
Proof.
  induction f as [|f IH]; intros l n cap Hl Hn Hv Hc; cbn [dec_groups];
    pose proof (lv_range l Hl) as [R _].
  { apply yields_ret. change (BIGINT_DEC_GROUP_BASE ^ Z.of_nat 0) with 1 in Hv. cbn. splits; auto; lia. }
  rewrite is_zero_lv by assumption. destruct (Z.eqb_spec (lv l) 0) as [E|E].
  { apply yields_ret. rewrite E. cbn. splits; auto; lia. }
  destruct (Z.eqb_spec n cap); [lia|].
  eapply yields_bind; [apply (yields_ret _ _ cap (fun c => c = cap)); reflexivity|]. intros ? ->.
  pose proof (div_step_small l BIGINT_DEC_GROUP_BASE Hl Hn ltac:(unfold BIGINT_DEC_GROUP_BASE, B; lia)) as S.
  destruct (bigint_div_small_inplace l BIGINT_DEC_GROUP_BASE) as [q rem]. destruct S as (S1 & S2 & S3 & S4).
  yext; [lia|].
  eapply yields_bind; [apply IH; auto; [rewrite S3; apply div_fits; [reflexivity|exact Hv]|lia]|].
  intros gs (G1 & G2 & G0 & G3). apply yields_ret. rewrite S4, S3 in *.
  pose proof (Z.div_mod (lv l) BIGINT_DEC_GROUP_BASE ltac:(discriminate)) as Dm.
  pose proof (Z.mod_pos_bound (lv l) BIGINT_DEC_GROUP_BASE ltac:(reflexivity)). splits.
  - constructor; auto.
  - cbn [gval]. rewrite G2. lia.
  - contradiction.
  - intros _. split; [discriminate|]. cbn [length].
    destruct (Z.eq_dec (lv l / BIGINT_DEC_GROUP_BASE) 0) as [E0|E0].
    + rewrite (G0 E0). cbn. rewrite E0 in Dm. lia.
    + destruct (G3 E0) as [Gn Gl]. destruct gs as [|g gs]; [congruence|].
      cbn [length] in *. replace (S (S (length gs)) - 1)%nat with (S (S (length gs) - 1)) by lia. exact Gl.
Qed.

Lemma numeral_zero radix : 0 < radix -> numeral radix [48] 0.
Proof.
  intros Hr. unfold numeral. splits; [discriminate| |reflexivity|reflexivity].
  constructor; [|constructor]. exists 0. split; [lia|reflexivity].
Qed.

(** Two groups hold a limb, so [2 * count + 1] rounds are enough. *)
Lemma decimal_spec l : limbs l -> normal l ->
  yields grant False (bigint_abs_to_decimal_string grant l) (fun s => numeral 10 s (lv l)).
Proof.
  intros Hl Hn. unfold bigint_abs_to_decimal_string. rewrite is_zero_lv by assumption.
  destruct (Z.eqb_spec (lv l) 0) as [E|E].
  { yreq. apply yields_ret. rewrite E. apply numeral_zero. lia. }
  yreq. yreq. eapply yields_bind; [apply dec_groups_spec; auto|].
  - pose proof (lv_range l Hl) as [_ R]. eapply Z.lt_le_trans; [exact R|].
    apply Z.le_trans with ((BIGINT_DEC_GROUP_BASE ^ 2) ^ Z.of_nat (length l)).
    + apply Z.pow_le_mono_l. split; vm_compute; discriminate.
    + rewrite <- Z.pow_mul_r by lia. apply Z.pow_le_mono_r; [reflexivity|lia].
  - unfold zlen. lia.
  - intros gs (G1 & G2 & _ & G3). destruct (G3 E) as [Gn Gl]. yreq. apply yields_ret.
    rewrite <- G2. apply dec_text_spec; assumption.
Qed.

Lemma radix_digits_spec radix f : 2 <= radix <= 36 -> forall l pos cap, limbs l -> normal l ->
  lv l < radix ^ Z.of_nat f -> pos + Z.of_nat f + 1 <= cap -> 0 <= pos ->
  yields grant False (radix_digits grant f l radix pos cap)
    (fun s => Forall (numeral_digit radix) s /\ horner radix (rev s) = lv l /\
              (lv l = 0 -> s = []) /\ (lv l <> 0 -> s <> [] /\ rd s (length s - 1) <> 48)).
Proof.
  intros Hr. induction f as [|f IH]; intros l pos cap Hl Hn Hv Hc Hp; cbn [radix_digits];
    pose proof (lv_range l Hl) as [R _].
  { apply yields_ret. change (radix ^ Z.of_nat 0) with 1 in Hv. unfold horner. cbn. splits; auto; lia. }
  rewrite is_zero_lv by assumption. destruct (Z.eqb_spec (lv l) 0) as [E|E].
  { apply yields_ret. rewrite E. unfold horner. cbn. splits; auto; lia. }
  destruct (Z.leb_spec cap (pos + 1)); [lia|].
  eapply yields_bind; [apply (yields_ret _ _ cap (fun c => c = cap)); reflexivity|]. intros ? ->.
  pose proof (div_step_small l radix Hl Hn ltac:(unfold B; lia)) as S.
  destruct (bigint_div_small_inplace l radix) as [q rem]. destruct S as (S1 & S2 & S3 & S4).
  yext; [lia|].
  eapply yields_bind; [apply IH; auto; [rewrite S3; apply div_fits; [lia|exact Hv]|lia..]|].
  intros s (G1 & G2 & G0 & G3). apply yields_ret. rewrite S4, S3 in *.
  pose proof (Z.div_mod (lv l) radix ltac:(lia)) as Dm. pose proof (Z.mod_pos_bound (lv l) radix ltac:(lia)).
  splits.
  - constructor; auto. exists (lv l mod radix). auto.
  - cbn [rev]. rewrite horner_snoc, G2, digit_val_map by lia. lia.
  - contradiction.
  - intros _. split; [discriminate|]. cbn [length].
    destruct (Z.eq_dec (lv l / radix) 0) as [E0|E0].
    + rewrite (G0 E0). cbn. intros X. apply digit_map_zero in X; [|lia]. rewrite E0 in Dm. lia.
    + destruct (G3 E0) as [Gn Gl]. destruct s as [|g s]; [congruence|].
      cbn [length] in *. replace (S (S (length s)) - 1)%nat with (S (S (length s) - 1)) by lia. exact Gl.
Qed.

(** A radix of at least two uses up a bit per digit. *)
Lemma radix_spec l radix : limbs l -> normal l -> 2 <= radix <= 36 ->
  yields grant False (bigint_abs_to_radix_string grant l radix) (fun s => numeral radix s (lv l)).
Proof.
  intros Hl Hn Hr. unfold bigint_abs_to_radix_string. rewrite is_zero_lv by assumption.
  destruct (Z.eqb_spec (lv l) 0) as [E|E].
  { yreq. apply yields_ret. rewrite E. apply numeral_zero. lia. }
  yreq. yreq. eapply yields_bind; [apply radix_digits_spec; auto|].
  - pose proof (lv_range l Hl) as [_ R]. eapply Z.lt_le_trans; [exact R|].
    rewrite B_pow2 by lia. apply Z.le_trans with (2 ^ Z.of_nat (32 * length l + 1)).
    + apply Z.pow_le_mono_r; lia.
    + apply Z.pow_le_mono_l. lia.
  - unfold zlen. lia.
  - lia.
  - intros s (G1 & G2 & _ & G3). destruct (G3 E) as [Gn Gl]. apply yields_ret. unfold numeral.
    rewrite rd_rev_0, length_rev. splits; auto.
    + intros X. apply Gn. rewrite <- (rev_involutive s), X. reflexivity.
    + apply Forall_rev. exact G1.
    + contradiction.
Qed.

(** The text of a signed value: the numeral, after a minus sign. *)
Definition signed_numeral (radix : Z) (s : list Z) (v : Z) : Prop :=
  if v <? 0 then exists t, s = 45 :: t /\ numeral radix t (- v) else numeral radix s v.

Lemma toString_spec v radix : bigint_ok v -> 2 <= default 10 radix <= 36 ->
  yields grant False (builtin_bigint_toString grant v radix)
    (fun s => signed_numeral (default 10 radix) s (bval v)).
Proof.
  intros Hv Hr. unfold builtin_bigint_toString. set (r := default 10 radix) in *.
  destruct (Z.ltb_spec r 2); [lia|]. destruct (Z.ltb_spec 36 r); [lia|]. cbn [orb].
  eapply (yields_bind _ _ _ _ (fun s => numeral r s (lv (blimbs v)))).
  { destruct (Z.eqb_spec r 10) as [->|]; [apply decimal_spec|apply radix_spec]; auto with fant. }
  intros s Hs. unfold signed_numeral, bigint_is_negative. rewrite <- (bval_sign v Hv).
  unfold bval. destruct (sign v); cbn [negb].
  - yreq. yreq. apply yields_ret. exists s. split; [reflexivity|]. rewrite Z.opp_involutive. exact Hs.
  - yreq. apply yields_ret. exact Hs.
Qed.

End Printing.

(** ** A number has one numeral *)

Lemma digit_val_range radix c : radix <= 36 -> numeral_digit radix c -> 0 <= digit_val c < radix /\ c = digit_map (digit_val c).
Proof. intros Hr (d & Hd & ->). rewrite digit_val_map by lia. auto. Qed.
Lemma horner_range radix s : 0 < radix <= 36 -> Forall (numeral_digit radix) s -> 0 <= horner radix s < radix ^ zlen s.
Proof.
  intros Hr. induction s as [|c s IH] using rev_ind; [change (radix ^ zlen []) with 1; unfold horner; cbn; lia|]. intros H. apply Forall_app in H as [Hs Hc]. apply Forall_cons in Hc as [Hc _]. destruct (digit_val_range radix c ltac:(lia) Hc) as [D _]. specialize (IH Hs).
  rewrite horner_snoc. unfold zlen in *. rewrite length_app, Nat2Z.inj_add. cbn [length]. rewrite Z.pow_add_r by lia. nia.
Qed.
Lemma horner_inj radix s : 0 < radix <= 36 -> Forall (numeral_digit radix) s -> forall t, Forall (numeral_digit radix) t -> length s = length t -> horner radix s = horner radix t -> s = t.
Proof.
  intros Hr. induction s as [|c s IH] using rev_ind; intros Hs t Ht Hl E; [destruct t; [reflexivity|discriminate]|]. destruct t as [|d t _] using rev_ind; [rewrite length_app in Hl; cbn in Hl; lia|].
  apply Forall_app in Hs as [Hs Hc], Ht as [Ht Hd]. apply Forall_cons in Hc as [Hc _], Hd as [Hd _]. destruct (digit_val_range radix c ltac:(lia) Hc) as [C1 C2], (digit_val_range radix d ltac:(lia) Hd) as [D1 D2].
  rewrite !horner_snoc in E. rewrite !length_app in Hl. cbn [length] in Hl. assert (E1 : horner radix s = horner radix t) by nia. assert (E2 : digit_val c = digit_val d) by (rewrite E1 in E; lia).
  rewrite (IH Hs t Ht ltac:(lia) E1), C2, D2, E2. reflexivity.
Qed.
(** A number without leading zeros has as many digits as it is large. *)
Lemma numeral_large radix s v : 2 <= radix <= 36 -> numeral radix s v -> (v = 0 /\ s = [48]) \/ radix ^ (zlen s - 1) <= v.
Proof.
  intros Hr (Hne & Hs & <- & H0). destruct s as [|c s]; [contradiction|]. apply Forall_cons in Hs as [Hc Hs]. destruct (digit_val_range radix c ltac:(lia) Hc) as [C1 C2]. destruct (horner_range radix s ltac:(lia) Hs) as [R1 _].
  change (c :: s) with ([c] ++ s). rewrite horner_app by lia. unfold zlen. rewrite length_app, Nat2Z.inj_add. cbn [length]. replace (Z.of_nat 1 + Z.of_nat (length s) - 1) with (zlen s) by (unfold zlen; lia). unfold horner at 1 3. cbn [fold_left]. rewrite Z.add_0_l.
  destruct (Z.eq_dec (digit_val c) 0) as [E|E]; [left|right; pose proof (Z.pow_nonneg radix (zlen s) ltac:(lia)); unfold zlen in *; nia].
  assert (c = 48) as -> by (rewrite C2, E; reflexivity). specialize (H0 eq_refl). destruct s; [|discriminate]. rewrite E. auto.
Qed.
Lemma numeral_unique radix s t v : 2 <= radix <= 36 -> numeral radix s v -> numeral radix t v -> s = t.
Proof.
  intros Hr Hs Ht. pose proof (numeral_large radix s v Hr Hs) as Ls. pose proof (numeral_large radix t v Hr Ht) as Lt. destruct Hs as (Ns & Ds & Es & Zs), Ht as (Nt & Dt & Et & Zt). pose proof (horner_range radix s ltac:(lia) Ds) as Rs. pose proof (horner_range radix t ltac:(lia) Dt) as Rt.
  assert (Hp : forall u : list Z, u <> [] -> 0 < radix ^ (zlen u - 1)) by (intros [|? u] Hu; [contradiction|]; apply Z.pow_pos_nonneg; unfold zlen; cbn [length]; lia). specialize (Hp s Ns) as Ps. specialize (Hp t Nt) as Pt.
  destruct Ls as [[Vs Es']|Ls], Lt as [[Vt Et']|Lt]; [congruence|lia|lia|].
  apply (horner_inj radix s ltac:(lia) Ds t Dt); [|congruence]. assert (zlen s - 1 < zlen t) by (apply (Z.pow_lt_mono_r_iff radix); unfold zlen in *; lia). assert (zlen t - 1 < zlen s) by (apply (Z.pow_lt_mono_r_iff radix); unfold zlen in *; lia). unfold zlen in *. lia.
Qed.

(** ** [strbigint] *)

(** The buffer keeps its size, holds as much of the text as fits, and is
    NUL-terminated inside its bounds. *)
Lemma strbigint_text_spec (neg : bool) digits buf : let text := (if neg then [45] else []) ++ digits in
  let '(total, out) := strbigint_text neg digits buf in
  total = zlen text /\ length out = length buf /\
  (buf <> [] -> (1 < length buf)%nat ->
   let n := Nat.min (length text) (length buf - 1) in
   take n out = take n text /\ rd out n = 0).
Proof.
  cbv zeta. unfold strbigint_text. unfold zlen.
  destruct (Nat.eqb_spec (length buf) 0) as [E|E].
  { destruct buf; [|discriminate]. splits; auto; [|congruence]. destruct neg; cbn; lia. }
  set (n := if neg then 1%nat else 0%nat).
  set (buf1 := if neg && (0 <? length buf - 1)%nat then <[0%nat := 45]> buf else buf).
  assert (L1 : length buf1 = length buf).
  { unfold buf1. destruct (neg && (0 <? length buf - 1)%nat); [apply length_insert|reflexivity]. }
  set (avail := if (n <? length buf)%nat then (length buf - n - 1)%nat else 0%nat).
  set (c := if (length digits <? avail)%nat then length digits else avail).
  assert (Hn : (n <= 1)%nat) by (unfold n; destruct neg; lia).
  assert (Hc : c = Nat.min (length digits) avail) by (unfold c; case_if; boolprop; lia).
  assert (Ha : avail = (length buf - n - 1)%nat) by (unfold avail; case_if; boolprop; lia).
  set (term := if (length buf <=? n + c)%nat then (length buf - 1)%nat else (n + c)%nat).
  assert (L2 : length (take n buf1 ++ take c digits ++ drop (n + c) buf1) = length buf).
  { rewrite !length_app, length_take, length_take, length_drop. lia. }
  rewrite length_insert. splits; auto.
  { rewrite length_app. unfold n. destruct neg; cbn; lia. }
  intros Hne H1.
  assert (Hterm : term = (n + c)%nat) by (unfold term; case_if; boolprop; lia).
  assert (Hlt : length ((if neg then [45] else []) ++ digits) = (n + length digits)%nat).
  { rewrite length_app. unfold n. destruct neg; reflexivity. }
  replace (Nat.min (length ((if neg then [45] else []) ++ digits)) (length buf - 1)) with term by lia.
  assert (Hpre : take n buf1 = if neg then [45] else []).
  { unfold n, buf1. destruct neg; [|reflexivity]. destruct (Nat.ltb_spec 0 (length buf - 1)); [|lia].
    destruct buf; [congruence|]. cbn. rewrite take_0. reflexivity. }
  split.
  - rewrite take_insert_ge by lia. rewrite Hterm, Hpre, app_assoc, take_app_le.
    2: { rewrite length_app, length_take. unfold n. destruct neg; cbn; lia. }
    unfold n. destruct neg; cbn [app Nat.add take]; rewrite take_take; do 2 f_equal; lia.
  - apply rd_lookup, list_lookup_insert_eq. rewrite L2. lia.
Qed.

(** ** The properties *)

(** [bigint_from_string_digits] accepts exactly the literals of the base
    their prefix selects, with separators only where they are allowed, and
    returns their value with the given sign; every other text is the error
    "Cannot convert string to BigInt". *)
Theorem bigint_parse_correct grant digits negative sep : digits <> [] -> zlen digits < UINT32_MAX ->
  (forall v, text_value digits sep v ->
     makes grant False (bigint_from_string_digits grant digits negative sep) (if negative then - v else v)) /\
  ((forall v, ~ text_value digits sep v) ->
     throws grant False (bigint_from_string_digits grant digits negative sep)
       JS_ERR_TYPE "Cannot convert string to BigInt").
Proof. apply from_string_spec. Qed.

(** ["0xFF_f"]. *)
Definition hex_sample : list Z := [48; 120; 70; 70; 95; 102].

Lemma bigint_parse_correct_witness :
  makes plenty False (bigint_from_string_digits plenty hex_sample true true) (- 4095).
Proof.
  destruct (bigint_parse_correct plenty hex_sample true true) as [H _]; [discriminate|reflexivity|].
  apply (H 4095). apply scan_literal. reflexivity.
Defined.

(** [BigInt.prototype.toString] prints the numeral of the value in every
    radix from 2 to 36: a minus sign for negative values, digits of the radix
    without leading zeros, whose positional value is the magnitude. *)
Theorem bigint_toString_correct grant v radix : bigint_ok v ->
  (2 <= default 10 radix <= 36 ->
   yields grant False (builtin_bigint_toString grant v radix)
     (fun s => signed_numeral (default 10 radix) s (bval v))) /\
  (~ 2 <= default 10 radix <= 36 ->
   builtin_bigint_toString grant v radix = throw JS_ERR_TYPE "radix must be between 2 and 36").
Proof.
  intros Hv. split; [intros Hr; apply toString_spec; assumption|]. intros Hr.
  unfold builtin_bigint_toString. destruct (Z.ltb_spec (default 10 radix) 2); [reflexivity|].
  destruct (Z.ltb_spec 36 (default 10 radix)); [reflexivity|]. lia.
Qed.

Lemma bigint_toString_correct_witness :
  exists s, (builtin_bigint_toString plenty big_sample (Some 36) 0%nat).1 = Done (Ok s) /\
            signed_numeral 36 s (1 - 2 ^ 64).
Proof.
  destruct (bigint_toString_correct plenty big_sample (Some 36)) as [H _];
    [apply bigint_okb_ok; reflexivity|].
  destruct (yields_total _ _ _ _ (H ltac:(cbn; lia)) (fun x => x) (fun _ => eq_refl) 0%nat) as (s & E & Hs).
  exists s. split; [exact E|exact Hs].
Defined.

(** [strbigint] is safe on every buffer and reports the length of the
    whole text: it keeps to the buffer's bounds, and a buffer of at least two
    bytes receives as much of the text as fits, NUL-terminated. *)
Theorem strbigint_correct grant v buf k : bigint_ok v -> (forall k, grant k = true) ->
  exists text, signed_numeral 10 text (bval v) /\
    let '(total, out) := strbigint grant v buf k in
    total = zlen text /\ length out = length buf /\
    ((1 < length buf)%nat ->
     let n := Nat.min (length text) (length buf - 1) in
     take n out = take n text /\ rd out n = 0).
Proof.
  intros Hv Hg. unfold strbigint.
  destruct (yields_total grant False _ _ (decimal_spec grant (blimbs v) (ok_limbs v Hv) (ok_normal v Hv))
    (fun x => x) Hg k) as (s & -> & Hs).
  exists ((if bigint_is_negative v then [45] else []) ++ s). split.
  - unfold signed_numeral, bigint_is_negative. rewrite <- (bval_sign v Hv). unfold bval.
    destruct (sign v); [|exact Hs]. exists s. rewrite Z.opp_involutive. auto.
  - pose proof (strbigint_text_spec (bigint_is_negative v) s buf) as H. cbv zeta in H.
    destruct (strbigint_text (bigint_is_negative v) s buf) as [total out].
    destruct H as (H1 & H2 & H3). splits; auto. intros Hb. apply H3; [|exact Hb].
    intros ->. cbn in Hb. lia.
Qed.

Lemma strbigint_correct_witness :
  strbigint plenty big_sample [9; 9; 9; 9] 0 = (21, [45; 49; 56; 0]) /\
  exists text, signed_numeral 10 text (1 - 2 ^ 64) /\ zlen text = 21.
Proof.
  split; [vm_compute; reflexivity|].
  destruct (strbigint_correct plenty big_sample [9; 9; 9; 9] 0) as (text & H1 & H2);
    [apply bigint_okb_ok; reflexivity|reflexivity|].
  exists text. split; [exact H1|].
  replace (strbigint plenty big_sample [9; 9; 9; 9] 0) with (21, [45; 49; 56; 0]) in H2 by (vm_compute; reflexivity).
  destruct H2 as [H2 _]. symmetry. exact H2.
Defined.
