(* ===== verification/BigIntOps.v ===== *)
(** * BigInt conversions and built-ins

    The rest of [src/src/modules/bigint.c]: exponentiation, [BigInt.asIntN] and
    [BigInt.asUintN], conversions from and to 64-bit integers and doubles, and
    the [BigInt] function.  A double is given by its 64 bits; the result of
    [bigint_to_double] is given by significand and exponent. *)

From S2P Require Import Prelude Limbs Alloc LimbDiv BigInt BigIntText.

(** ** Doubles *)

Definition dbl_sign (bits : Z) : bool := Z.testbit bits 63.
Definition dbl_exp (bits : Z) : Z := (bits .>> 52) .& 0x7ff.
Definition dbl_frac (bits : Z) : Z := bits .& 0x000fffffffffffff.

Definition isfinite (bits : Z) : bool := negb (dbl_exp bits =? 0x7ff).

(** The magnitude of a finite double, as a multiple of 2^-1074. *)
Definition dbl_scaled (bits : Z) : Z :=
  if dbl_exp bits =? 0 then dbl_frac bits
  else (2 ^ 52 + dbl_frac bits) * 2 ^ (dbl_exp bits - 1).

(** [floor(value) == value], and the integer a double then is. *)
Definition dbl_integral (bits : Z) : bool := dbl_scaled bits mod 2 ^ 1074 =? 0.
Definition dbl_abs (bits : Z) : Z := dbl_scaled bits / 2 ^ 1074.
Definition dbl_int (bits : Z) : Z := if dbl_sign bits then - dbl_abs bits else dbl_abs bits.

(** A computed double: [±m * 2^e], or an infinity. *)
Inductive double := Finite (neg : bool) (m e : Z) | Infinite (neg : bool).

(** ** To a double *)

Definition bigint_extract_u64 (l : list Z) (bit_offset : Z) : Z :=
  let word := Z.to_nat (bit_offset / 32) in
  let shift := bit_offset mod 32 in
  let count := length l in
  let value := rd l word .>> shift in
  let value := if (word + 1 <? count)%nat
               then value .| u64 (rd l (word + 1) .<< (32 - shift)) else value in
  if negb (shift =? 0) && (word + 2 <? count)%nat
  then value .| u64 (rd l (word + 2) .<< (64 - shift)) else value.

Definition bigint_test_bit (l : list Z) (bit : Z) : bool :=
  let word := bit / 32 in
  if zlen l <=? word then false
  else negb ((rd l (Z.to_nat word) .>> (bit mod 32)) .& 1 =? 0).

Definition bigint_any_bits_below (l : list Z) (bit_count : Z) : bool :=
  let full_words := bit_count / 32 in
  if any_nonzero (take (Z.to_nat full_words) l) then true
  else
    let remaining := bit_count mod 32 in
    if (remaining =? 0) || (zlen l <=? full_words) then false
    else negb (rd l (Z.to_nat full_words) .& (u32 (1 .<< remaining) - 1) =? 0).

Definition bigint_should_round_up (l : list Z) (discarded_bits significand : Z) : bool :=
  let halfway_bit := discarded_bits - 1 in
  if negb (bigint_test_bit l halfway_bit) then false
  else
    let above_halfway := bigint_any_bits_below l halfway_bit in
    let odd_significand := negb (significand .& 1 =? 0) in
    above_halfway || odd_significand.

Definition BIGINT_DOUBLE_PRECISION : Z := 53.
Definition DBL_MAX_EXP : Z := 1024.

Definition bigint_to_double (v : bigint) : double :=
  let l := blimbs v in
  let bit_length := bigint_abs_bitlen_limbs l in
  if bit_length =? 0 then Finite false 0 0
  else
    let discarded_bits := if BIGINT_DOUBLE_PRECISION <? bit_length
                          then bit_length - BIGINT_DOUBLE_PRECISION else 0 in
    let significand := bigint_extract_u64 l discarded_bits in
    let '(significand, bit_length) :=
      if negb (discarded_bits =? 0) && bigint_should_round_up l discarded_bits significand then
        let significand := u64 (significand + 1) in
        if significand =? 1 .<< BIGINT_DOUBLE_PRECISION
        then (significand .>> 1, bit_length + 1) else (significand, bit_length)
      else (significand, bit_length) in
    let neg := bigint_is_negative v in
    if bit_length <=? BIGINT_DOUBLE_PRECISION then Finite neg significand 0
    else if DBL_MAX_EXP <? bit_length then Infinite neg
    else Finite neg significand (bit_length - BIGINT_DOUBLE_PRECISION).

(** ** To 64-bit integers *)

Definition bigint_low_u64 (v : bigint) : Z :=
  let l := blimbs v in
  let out := if (0 <? length l)%nat then rd l 0 else 0 in
  if (1 <? length l)%nat then out .| u64 (rd l 1 .<< 32) else out.

Definition bigint_to_uint64_wrapping (v : bigint) : Z :=
  let low := bigint_low_u64 v in
  if bigint_is_negative v then u64 (0 - low) else low.

Definition bigint_to_int64_wrapping (v : bigint) : Z :=
  let bits := bigint_to_uint64_wrapping v in
  if bits <? 2 ^ 63 then bits else bits - 2 ^ 64.

Definition bigint_parse_u64 (v : bigint) : option Z :=
  if bigint_is_negative v then None
  else
    let l := blimbs v in
    if (2 <? length l)%nat then None
    else
      let acc := rd l 0 in
      Some (if (length l =? 2)%nat then acc .| u64 (rd l 1 .<< 32) else acc).

(** ** From numbers *)

Section Code.
Context (grant : nat -> bool).

Definition bigint_from_uint64 (value : Z) : M bigint :=
  let lo := u32 (value .& 0xffffffff) in
  let hi := u32 (value .>> 32) in
  js_mkbigint_limbs grant (if hi =? 0 then [lo] else [lo; hi]) false.

Definition bigint_from_int64 (value : Z) : M bigint :=
  let magnitude := if value <? 0 then u64 (u64 (- (value + 1)) + 1) else u64 value in
  let lo := u32 (magnitude .& 0xffffffff) in
  let hi := u32 (magnitude .>> 32) in
  js_mkbigint_limbs grant (if hi =? 0 then [lo] else [lo; hi]) (value <? 0).

Definition DOUBLE_LIMB_CAP : nat := 33.

(** One round of the loop over [parts]; [None] is "BigInt is too large". *)
Definition place_part (l : list Z) (part : Z) (dst : nat) (bit_shift : Z) : option (list Z) :=
  if part =? 0 then Some l
  else if (DOUBLE_LIMB_CAP <=? dst)%nat then None
  else
    let l := <[dst := rd l dst .| u32 (part .<< bit_shift)]> l in
    if bit_shift =? 0 then Some l
    else if (DOUBLE_LIMB_CAP <=? dst + 1)%nat then None
    else Some (<[(dst + 1)%nat := rd l (dst + 1) .| part .>> (32 - bit_shift)]> l).

Definition bigint_from_integral_double (bits : Z) : M bigint :=
  if negb (isfinite bits) || negb (dbl_integral bits)
  then throw JS_ERR_TYPE "Cannot convert non-integral double to BigInt"
  else
    let negative := dbl_sign bits in
    if dbl_scaled bits =? 0 then bigint_from_uint64 0
    else
      let exp_bits := u32 ((bits .>> 52) .& 0x7ff) in
      if exp_bits =? 0 then bigint_from_uint64 0
      else
        let mantissa := (bits .& 0x000fffffffffffff) .| (1 .<< 52) in
        let exp := exp_bits - 1023 in
        if exp <? 52 then
          let magnitude := mantissa .>> (52 - exp) in
          let lo := u32 (magnitude .& 0xffffffff) in
          let hi := u32 (magnitude .>> 32) in
          js_mkbigint_limbs grant (if UINT32_MAX <? magnitude then [lo; hi] else [lo]) negative
        else
          let shift := exp - 52 in
          let word_shift := Z.to_nat (shift / 32) in
          let bit_shift := shift mod 32 in
          let p0 := u32 (mantissa .& 0xffffffff) in
          let p1 := u32 (mantissa .>> 32) in
          let limbs0 := replicate DOUBLE_LIMB_CAP 0 in
          match place_part limbs0 p0 word_shift bit_shift with
          | None => throw JS_ERR_TYPE "BigInt is too large"
          | Some l =>
              match place_part l p1 (word_shift + 1) bit_shift with
              | None => throw JS_ERR_TYPE "BigInt is too large"
              | Some l => js_mkbigint_limbs grant (bigint_normalize_limbs l) negative
              end
          end.

(** ** Exponentiation *)

(** One round per bit of the exponent. *)
Fixpoint exp_loop (fuel : nat) (result b e : bigint) : M bigint :=
  match fuel with
  | O => ret result
  | S fuel =>
      if bigint_is_zero e then ret result
      else
        let* result := (if bigint_is_odd e then bigint_mul grant result b else ret result) in
        let* b := bigint_mul grant b b in
        let* e := bigint_shift_right grant e 1 in
        exp_loop fuel result b e
  end.

Definition bigint_exp (base exp : bigint) : M bigint :=
  if bigint_is_negative exp then throw JS_ERR_TYPE "Exponent must be positive"
  else if bigint_is_zero exp then js_mkbigint grant [49] false
  else
    let* result := js_mkbigint grant [49] false in
    exp_loop (32 * length (blimbs exp) + 1) result base exp.

(** ** JavaScript values *)

(** The values the built-ins distinguish; [VOther] stands for the rest. *)
Inductive jsval :=
| VBigInt (v : bigint) | VNum (bits : Z) | VStr (s : list Z) | VBool (b : bool) | VOther.

(** [is_space] of the lexer: the entries of [char_type] with [CHAR_WS]. *)
Definition is_space (c : Z) : bool := (c =? 9) || (c =? 10) || (c =? 13) || (c =? 32).

Fixpoint skip_space (s : list Z) : list Z :=
  match s with
  | c :: t => if is_space c then skip_space t else s
  | [] => []
  end.

(** The decimal digits of an integer, as [snprintf] with ["%.0f"] prints an
    integral double; a number has at most as many digits as bits. *)
Definition fmt_f0 (n : Z) : list Z := rev (dec_lsb (Z.to_nat (Z.log2 n) + 1) n).

Definition bigint_from_value (arg : jsval) : M bigint :=
  match arg with
  | VBigInt v => ret v
  | VNum d =>
      if negb (isfinite d) then throw JS_ERR_TYPE "Cannot convert Infinity or NaN to BigInt"
      else if negb (dbl_integral d) then throw JS_ERR_TYPE "Cannot convert non-integer to BigInt"
      else
        let neg := dbl_sign d && negb (dbl_abs d =? 0) in
        request grant;;;
        js_mkbigint grant (fmt_f0 (dbl_abs d)) neg
  | VStr str =>
      let s := skip_space str in
      let s := rev (skip_space (rev s)) in
      match s with
      | [] => js_mkbigint grant [48] false
      | c :: t =>
          let '(neg, t) := if c =? 45 then (true, t) else if c =? 43 then (false, t) else (false, s) in
          if (length t =? 0)%nat then throw JS_ERR_TYPE "Cannot convert string to BigInt"
          else bigint_from_string_digits grant t neg false
      end
  | VBool b => js_mkbigint grant (if b then [49] else [48]) false
  | VOther => throw JS_ERR_TYPE "Cannot convert to BigInt"
  end.

Definition builtin_BigInt (is_new : bool) (args : list jsval) : M bigint :=
  if is_new then throw JS_ERR_TYPE "BigInt is not a constructor"
  else match args with
       | [] => js_mkbigint grant [48] false
       | arg :: _ => bigint_from_value arg
       end.

(** ** [BigInt.asIntN] and [BigInt.asUintN] *)

(** [js_to_number] of the argument, and what the conversion of 2^64 to
    [uint64_t] (undefined in C) gives. *)
Context (js_to_number : jsval -> Z) (u64_of_2_64 : Z).

Definition bigint_to_u64 (v : bigint) : M Z :=
  match bigint_parse_u64 v with
  | Some x => ret x
  | None => throw JS_ERR_RANGE "Invalid bits"
  end.

Definition bigint_asint_bits (arg : jsval) : M Z :=
  match arg with
  | VBigInt v => bigint_to_u64 v
  | _ =>
      let bits := js_to_number arg in
      if negb (isfinite bits) || (dbl_sign bits && negb (dbl_scaled bits =? 0)) || negb (dbl_integral bits)
      then throw JS_ERR_RANGE "Invalid bits"
      else if 2 ^ 64 <? dbl_abs bits then throw JS_ERR_RANGE "Invalid bits"
      else ret (if dbl_abs bits =? 2 ^ 64 then u64_of_2_64 else dbl_abs bits)
  end.

Definition builtin_BigInt_asIntN (args : list jsval) : M bigint :=
  match args with
  | a0 :: a1 :: _ =>
      let* bits := bigint_asint_bits a0 in
      match a1 with
      | VBigInt v =>
          if bits =? 0 then js_mkbigint grant [48] false
          else
            let* md := bigint_pow2 grant bits in
            let* res := bigint_mod grant v md in
            let* res := (if bigint_is_negative res then bigint_add grant res md else ret res) in
            let* threshold := bigint_pow2 grant (bits - 1) in
            if 0 <=? bigint_compare res threshold then bigint_sub grant res md else ret res
      | _ => throw JS_ERR_TYPE "Cannot convert to BigInt"
      end
  | _ => throw JS_ERR_TYPE "BigInt.asIntN requires 2 arguments"
  end.

Definition builtin_BigInt_asUintN (args : list jsval) : M bigint :=
  match args with
  | a0 :: a1 :: _ =>
      let* bits := bigint_asint_bits a0 in
      match a1 with
      | VBigInt v =>
          if bits =? 0 then js_mkbigint grant [48] false
          else
            let* md := bigint_pow2 grant bits in
            let* res := bigint_mod grant v md in
            if bigint_is_negative res then bigint_add grant res md else ret res
      | _ => throw JS_ERR_TYPE "Cannot convert to BigInt"
      end
  | _ => throw JS_ERR_TYPE "BigInt.asUintN requires 2 arguments"
  end.

End Code.

(** ** Exponentiation *)

Lemma zlen_bound v n : bigint_ok v -> 1 <= n -> Z.abs (bval v) < B ^ n -> zlen (blimbs v) <= n.
Proof.
  intros Hv Hn H. rewrite <- bval_abs in H by exact Hv. unfold zlen.
  destruct (Z.le_gt_cases (Z.of_nat (length (blimbs v))) n) as [|Hgt]; [assumption|].
  pose proof (lv_normal_lower (blimbs v) (ok_limbs v Hv) (ok_normal v Hv) ltac:(lia)) as L.
  assert (B ^ n <= B ^ Z.of_nat (length (blimbs v) - 1)) by (apply Z.pow_le_mono_r; [reflexivity|lia]). lia.
Qed.

Lemma is_odd_spec v : bigint_ok v -> bigint_is_odd v = Z.odd (bval v).
Proof.
  intros Hv. unfold bigint_is_odd. change 1 with (2 ^ 1 - 1). rewrite land_ones_mod by lia. change (2 ^ 1) with 2.
  rewrite Zmod_odd. transitivity (Z.odd (lv (blimbs v))).
  - rewrite (lv_head (blimbs v)), Z.odd_add, Z.odd_mul. change (Z.odd B) with false.
    cbn [andb]. rewrite xorb_false_r. destruct (Z.odd (rd (blimbs v) 0)); reflexivity.
  - rewrite bval_abs by exact Hv. destruct (Z.abs_eq_or_opp (bval v)) as [-> | ->]; [|apply Z.odd_opp]; reflexivity.
Qed.

(** A power of a value of [L] limbs. *)
Lemma pow_limbs base a : bigint_ok base -> 1 <= a ->
  Z.abs (bval base ^ a) < B ^ (zlen (blimbs base) * a).
Proof.
  intros Hb Ha. rewrite Z.abs_pow, <- bval_abs, Z.pow_mul_r by (auto; unfold zlen; lia).
  pose proof (lv_range _ (ok_limbs base Hb)) as R. apply Z.pow_lt_mono_l; [lia|exact R].
Qed.

Section Exp.
Context (grant : nat -> bool) (base : bigint) (e : Z) (E : Prop).
Context (Hbase : bigint_ok base) (He : 0 <= e).
Context (HE : UINT32_MAX < 2 * zlen (blimbs base) * e + 2 -> E).

Lemma base_len : 1 <= zlen (blimbs base).
Proof using Hbase. apply zlen_pos, ok_nonempty, Hbase. Qed.

(** Squaring once more than needed is still within the bound. *)
Lemma square_spec b p : bigint_ok b -> bval b = bval base ^ p -> 1 <= p <= e ->
  makes grant E (bigint_mul grant b b) (bval base ^ (2 * p)).
Proof using Hbase He HE.
  intros Hb Hv Hp. pose proof base_len as HL.
  assert (Hl : zlen (blimbs b) <= zlen (blimbs base) * p).
  { apply zlen_bound; [exact Hb|nia|]. rewrite Hv. apply pow_limbs; [exact Hbase|lia]. }
  eapply makes_weaken; [apply mul_spec; assumption|intros X; apply HE; nia|].
  rewrite Hv, <- Z.pow_add_r by lia. f_equal. lia.
Qed.

Lemma accumulate_spec r b a p : bigint_ok r -> bigint_ok b -> bval r = bval base ^ a ->
  bval b = bval base ^ p -> 0 <= a -> 1 <= p -> a + p <= e ->
  makes grant E (bigint_mul grant r b) (bval base ^ (a + p)).
Proof using Hbase He HE.
  intros Hr Hb Vr Vb Ha Hp Hs. pose proof base_len as HL.
  assert (Hl : zlen (blimbs b) <= zlen (blimbs base) * p).
  { apply zlen_bound; [exact Hb|nia|]. rewrite Vb. apply pow_limbs; [exact Hbase|lia]. }
  assert (Hl2 : zlen (blimbs r) <= zlen (blimbs base) * a + 1).
  { apply zlen_bound; [exact Hr|nia|]. destruct (Z.eq_dec a 0) as [E0|E0].
    - rewrite Vr, E0, Z.pow_0_r, Z.mul_0_r. reflexivity.
    - rewrite Vr. eapply Z.lt_le_trans; [apply pow_limbs; [exact Hbase|lia]|].
      apply Z.pow_le_mono_r; [reflexivity|lia]. }
  eapply makes_weaken; [apply mul_spec; assumption|intros X; apply HE; nia|].
  rewrite Vr, Vb, <- Z.pow_add_r by lia. reflexivity.
Qed.

Lemma exp_loop_spec fuel : forall r b x a p, bigint_ok r -> bigint_ok b -> bigint_ok x ->
  bval r = bval base ^ a -> bval b = bval base ^ p -> 0 <= a -> 1 <= p -> 0 <= bval x ->
  a + p * bval x = e -> bval x < 2 ^ Z.of_nat fuel ->
  makes grant E (exp_loop grant fuel r b x) (bval base ^ e).
Proof using Hbase He HE.
  induction fuel as [|fuel IH]; intros r b x a p Hr Hb Hx Vr Vb Ha Hp Px Hsum Hf; cbn [exp_loop].
  { change (2 ^ Z.of_nat 0) with 1 in Hf. apply yields_ret. split; [exact Hr|]. rewrite Vr. f_equal. nia. }
  rewrite bval_zero by exact Hx. destruct (Z.eqb_spec (bval x) 0) as [E0|E0].
  { apply yields_ret. split; [exact Hr|]. rewrite Vr. f_equal. rewrite E0 in Hsum. lia. }
  rewrite is_odd_spec by exact Hx.
  pose proof (Z.div_mod (bval x) 2 ltac:(lia)) as Dm. rewrite Zmod_odd in Dm.
  assert (Hap : a + p <= e) by nia.
  set (o := if Z.odd (bval x) then p else 0).
  eapply (yields_bind _ _ _ _ (fun r => bigint_ok r /\ bval r = bval base ^ (a + o))).
  { unfold o. destruct (Z.odd (bval x)).
    - apply accumulate_spec; assumption.
    - apply yields_ret. rewrite Z.add_0_r. auto. }
  intros r' [Hr' Vr'].
  eapply yields_bind; [apply (square_spec b p Hb Vb); lia|]. intros b' [Hb' Vb'].
  eapply yields_bind.
  { eapply (yields_weaken _ E); [apply (shift_right_spec grant x 1 Hx ltac:(lia))| |intros v Hv; exact Hv].
    intros [Hs _]. exfalso. rewrite bval_sign in Hs by exact Hx. boolprop. lia. }
  intros x' [Hx' Vx']. change (2 ^ 1) with 2 in Vx'.
  apply (IH r' b' x' (a + o) (2 * p)); auto; try lia.
  - unfold o. destruct (Z.odd (bval x)); lia.
  - rewrite Vx'. apply Z.div_pos; lia.
  - rewrite Vx'. unfold o. destruct (Z.odd (bval x)); nia.
  - rewrite Vx'. rewrite Nat2Z.inj_succ, Z.pow_succ_r in Hf by lia. apply Z.div_lt_upper_bound; lia.
Qed.

End Exp.

(** Texts with a single decimal digit. *)
Lemma mkbigint_digit grant c : 48 <= c <= 57 ->
  makes grant False (js_mkbigint grant [c] false) (c - 48).
Proof.
  intros Hc. destruct (from_string_spec grant [c] false true ltac:(discriminate) ltac:(reflexivity)) as [H _].
  apply (H (c - 48)). unfold text_value. cbn [literal_base length drop]. change (2 <=? 1)%nat with false.
  assert (Hd : hex_digit c = c - 48).
  { unfold hex_digit. destruct (Z.eq_dec c 48) as [->|]; [reflexivity|].
    destruct (Z.leb_spec 49 c), (Z.leb_spec c 57); try lia. cbn [andb].
    destruct (Z.eqb_spec (c - 48) 0); [lia|reflexivity]. }
  cbn [andb]. change (literal_base [c]) with (10, 0%nat). cbv iota beta. rewrite drop_0.
  rewrite <- Hd. apply lit_digit. unfold is_digit. lia.
Qed.

Lemma exp_spec grant base exp : bigint_ok base -> bigint_ok exp -> 0 <= bval exp ->
  makes grant (UINT32_MAX < 2 * zlen (blimbs base) * bval exp + 2) (bigint_exp grant base exp)
    (bval base ^ bval exp).
Proof.
  intros Hb He Hp. unfold bigint_exp, bigint_is_negative. rewrite bval_sign, bval_zero by exact He.
  destruct (Z.ltb_spec (bval exp) 0); [lia|].
  destruct (Z.eqb_spec (bval exp) 0) as [E|E].
  { eapply makes_weaken; [apply mkbigint_digit; lia|tauto|]. rewrite E. reflexivity. }
  eapply yields_bind.
  { eapply (yields_weaken _ _ False); [apply (mkbigint_digit grant 49); lia|tauto|intros v Hv; exact Hv]. }
  intros r [Hr Vr].
  apply (exp_loop_spec grant base (bval exp) _ Hb Hp (fun H => H) _ r base exp 0 1); auto; try lia.
  pose proof (lv_range _ (ok_limbs exp He)) as [_ R]. rewrite bval_abs in R by exact He.
  rewrite B_pow2 in R by lia. rewrite Z.abs_eq in R by lia. eapply Z.lt_le_trans; [exact R|].
  apply Z.pow_le_mono_r; lia.
Qed.

(** ** [asIntN] and [asUintN] *)

Lemma limb_pair l : limbs l -> (length l <= 2)%nat -> l <> [] ->
  (if (length l =? 2)%nat then rd l 0 .| u64 (rd l 1 .<< 32) else rd l 0) = lv l.
Proof.
  intros Hl Hn Hne. destruct l as [|x [|y [|]]]; cbn [length] in *; try lia; try congruence; cbn [lv rd nth].
  - change (1 =? 2)%nat with false. cbv iota. lia.
  - change (2 =? 2)%nat with true. cbv iota. inversion_clear Hl as [|? ? Hx Hl']. inversion_clear Hl' as [|? ? Hy _]. unfold is_limb, B in *.
    rewrite wrap_small by (rewrite Z.shiftl_mul_pow2; lia). rewrite Z.lor_comm, lor_shiftl_add by lia. lia.
Qed.

Lemma parse_u64_spec v : bigint_ok v ->
  bigint_parse_u64 v = if (0 <=? bval v) && (bval v <? 2 ^ 64) then Some (bval v) else None.
Proof.
  intros Hv. unfold bigint_parse_u64, bigint_is_negative. rewrite bval_sign by exact Hv.
  destruct (Z.ltb_spec (bval v) 0), (Z.leb_spec 0 (bval v)); try lia; [reflexivity|]. cbn [andb].
  pose proof (bval_abs v Hv) as Ha. rewrite Z.abs_eq in Ha by lia.
  pose proof (lv_range _ (ok_limbs v Hv)) as [_ R].
  destruct (Nat.ltb_spec 2 (length (blimbs v))) as [Hl|Hl].
  - pose proof (lv_normal_lower _ (ok_limbs v Hv) (ok_normal v Hv) ltac:(lia)) as L.
    assert (B ^ 2 <= B ^ Z.of_nat (length (blimbs v) - 1)) by (apply Z.pow_le_mono_r; [reflexivity|lia]).
    change (B ^ 2) with (2 ^ 64) in *. destruct (Z.ltb_spec (bval v) (2 ^ 64)); [lia|reflexivity].
  - assert (B ^ Z.of_nat (length (blimbs v)) <= B ^ 2) by (apply Z.pow_le_mono_r; [reflexivity|lia]).
    change (B ^ 2) with (2 ^ 64) in *. destruct (Z.ltb_spec (bval v) (2 ^ 64)); [|lia].
    rewrite (limb_pair _ (ok_limbs v Hv) Hl (ok_nonempty v Hv)). congruence.
Qed.

Section AsN.
Context (grant : nat -> bool) (js_to_number : jsval -> Z) (u64_of_2_64 : Z).

Definition too_wide (bits : Z) : Prop := UINT32_MAX < (bits .>> 5) + 2.

(** The remainder modulo a power of two, made non-negative. *)
Lemma mod_pow2_spec v md bits : bigint_ok v -> bigint_ok md -> bval md = 2 ^ bits ->
  den_safe (blimbs md) = true -> zlen (blimbs md) = (bits .>> 5) + 1 -> 0 < bits ->
  yields grant (too_wide bits)
    (let* res := bigint_mod grant v md in
     if bigint_is_negative res then bigint_add grant res md else ret res)
    (fun r => bigint_ok r /\ bval r = bval v mod 2 ^ bits).
Proof.
  intros Hv Hm Vm Hs Hlen Hb. pose proof (Z.pow_pos_nonneg 2 bits ltac:(lia) ltac:(lia)) as P.
  eapply yields_bind.
  { eapply (yields_weaken _ _ False); [apply mod_spec; auto; lia|tauto|intros a Ha; exact Ha]. }
  intros res [Hr Vr]. unfold bigint_is_negative. rewrite bval_sign, Vr, Vm by exact Hr.
  pose proof (Z.quot_rem' (bval v) (2 ^ bits)) as QR.
  pose proof (Z.rem_bound_abs (bval v) (2 ^ bits) ltac:(lia)) as RB. rewrite (Z.abs_eq (2 ^ bits)) in RB by lia.
  destruct (Z.ltb_spec (Z.rem (bval v) (2 ^ bits)) 0) as [Hneg|Hpos].
  - assert (Hzl : zlen (blimbs res) <= (bits .>> 5) + 1).
    { apply zlen_bound; [exact Hr|pose proof (Z.shiftr_nonneg bits 5); lia|]. rewrite Vr, Vm.
      eapply Z.lt_trans; [exact RB|]. destruct (shift_parts bits ltac:(lia)) as (S1 & S2 & S3).
      rewrite B_pow2 by lia. apply Z.pow_lt_mono_r; lia. }
    eapply makes_weaken; [apply add_spec; assumption|unfold too_wide, longest; lia|].
    rewrite Vr, Vm. apply Z.mod_unique_pos with (q := Z.quot (bval v) (2 ^ bits) - 1); lia.
  - apply yields_ret. split; [exact Hr|]. rewrite Vr, Vm.
    apply Z.mod_unique_pos with (q := Z.quot (bval v) (2 ^ bits)); lia.
Qed.

Lemma yields_same_bind {A C} E (m : M A) (f : A -> M C) a Q :
  m = ret a -> yields grant E (f a) Q -> yields grant E (let* x := m in f x) Q.
Proof. intros -> H k. apply H. Qed.

Lemma asUintN_spec a0 v bits rest : bigint_ok v -> 0 <= bits < 2 ^ 64 ->
  bigint_asint_bits js_to_number u64_of_2_64 a0 = ret bits ->
  makes grant (too_wide bits)
    (builtin_BigInt_asUintN grant js_to_number u64_of_2_64 (a0 :: VBigInt v :: rest)) (bval v mod 2 ^ bits).
Proof.
  intros Hv Hb Ha. unfold builtin_BigInt_asUintN. eapply yields_same_bind; [exact Ha|].
  destruct (Z.eqb_spec bits 0) as [->|Hne].
  { eapply makes_weaken; [apply (mkbigint_digit grant 48); lia|tauto|].
    rewrite Z.pow_0_r, Z.mod_1_r. reflexivity. }
  eapply yields_bind; [apply (pow2_spec grant bits (too_wide bits)); [exact Hb|unfold too_wide; lia]|].
  intros md (M1 & M2 & M3 & M4). apply mod_pow2_spec; auto. lia.
Qed.

(** The signed reading of the low [bits] bits. *)
Definition sign_extend (bits x : Z) : Z := (x + 2 ^ (bits - 1)) mod 2 ^ bits - 2 ^ (bits - 1).

Lemma sign_extend_mod bits x : 0 < bits -> let m := x mod 2 ^ bits in
  sign_extend bits x = if 2 ^ (bits - 1) <=? m then m - 2 ^ bits else m.
Proof.
  intros Hb. unfold sign_extend. cbv zeta.
  pose proof (Z.pow_pos_nonneg 2 (bits - 1) ltac:(lia) ltac:(lia)) as P.
  assert (E : 2 ^ bits = 2 * 2 ^ (bits - 1)).
  { rewrite <- (Z.pow_1_r 2) at 2. rewrite <- Z.pow_add_r by lia. f_equal. lia. }
  pose proof (Z.mod_pos_bound x (2 ^ bits) ltac:(lia)). pose proof (Z.div_mod x (2 ^ bits) ltac:(lia)).
  destruct (Z.leb_spec (2 ^ (bits - 1)) (x mod 2 ^ bits)).
  - rewrite <- (Z.mod_unique_pos _ (2 ^ bits) (x / 2 ^ bits + 1) (x mod 2 ^ bits - 2 ^ (bits - 1))); lia.
  - rewrite <- (Z.mod_unique_pos _ (2 ^ bits) (x / 2 ^ bits) (x mod 2 ^ bits + 2 ^ (bits - 1))); lia.
Qed.

Lemma asIntN_spec a0 v bits rest : bigint_ok v -> 0 < bits < 2 ^ 64 ->
  bigint_asint_bits js_to_number u64_of_2_64 a0 = ret bits ->
  makes grant (too_wide bits)
    (builtin_BigInt_asIntN grant js_to_number u64_of_2_64 (a0 :: VBigInt v :: rest))
    (sign_extend bits (bval v)).
Proof.
  intros Hv Hb Ha. unfold builtin_BigInt_asIntN. eapply yields_same_bind; [exact Ha|].
  destruct (Z.eqb_spec bits 0); [lia|].
  eapply yields_bind; [apply (pow2_spec grant bits (too_wide bits)); [lia|unfold too_wide; lia]|].
  intros md (M1 & M2 & M3 & M4).
  pose proof (mod_pow2_spec v md bits Hv M1 M2 M3 M4 ltac:(lia)) as Hm.
  assert (Hrest : forall res, bigint_ok res /\ bval res = bval v mod 2 ^ bits ->
    makes grant (too_wide bits)
      (let* threshold := bigint_pow2 grant (bits - 1) in
       if 0 <=? bigint_compare res threshold then bigint_sub grant res md else ret res)
      (sign_extend bits (bval v))).
  { intros res [Hr Vr]. eapply yields_bind.
    { apply (pow2_spec grant (bits - 1) (too_wide bits)); [lia|]. unfold too_wide.
      rewrite !Z.shiftr_div_pow2 by lia. pose proof (Z.div_le_mono (bits - 1) bits (2 ^ 5) ltac:(lia) ltac:(lia)). lia. }
    intros th (T1 & T2 & _). rewrite (compare_spec res th Hr T1), T2, Vr.
    rewrite sign_extend_mod by lia. cbv zeta. set (m := bval v mod 2 ^ bits) in *.
    assert (Hc : (0 <=? sgn_cmp m (2 ^ (bits - 1))) = (2 ^ (bits - 1) <=? m)).
    { unfold sgn_cmp. destruct (Z.eqb_spec m (2 ^ (bits - 1))), (Z.ltb_spec (2 ^ (bits - 1)) m),
        (Z.leb_spec (2 ^ (bits - 1)) m); try reflexivity; lia. }
    rewrite Hc. destruct (2 ^ (bits - 1) <=? m); [|apply yields_ret; auto].
    pose proof (Z.pow_pos_nonneg 2 bits ltac:(lia) ltac:(lia)) as P.
    assert (Hzl : zlen (blimbs res) <= (bits .>> 5) + 1).
    { apply zlen_bound; [exact Hr|pose proof (Z.shiftr_nonneg bits 5); lia|]. rewrite Vr.
      pose proof (Z.mod_pos_bound (bval v) (2 ^ bits) P). rewrite Z.abs_eq by (unfold m; lia).
      eapply Z.lt_trans; [unfold m; apply H|]. destruct (shift_parts bits ltac:(lia)) as (S1 & S2 & S3).
      rewrite B_pow2 by lia. apply Z.pow_lt_mono_r; lia. }
    eapply makes_weaken; [apply sub_spec; assumption|unfold too_wide, longest; lia|]. rewrite Vr, M2. reflexivity. }
  intros k. specialize (Hm k). unfold mbind_ in Hm |- *.
  destruct (bigint_mod grant v md k) as [[[res|e s]|] k']; [|exact Hm..].
  destruct ((if bigint_is_negative res then bigint_add grant res md else ret res) k')
    as [[[r|e s]|] k'']; [|exact Hm..].
  apply (Hrest r Hm).
Qed.

End AsN.

(** ** To a double *)

Lemma lv_testbit l : forall n, limbs l -> 0 <= n ->
  Z.testbit (lv l) n = Z.testbit (rd l (Z.to_nat (n / 32))) (n mod 32).
Proof.
  induction l as [|x l IH]; intros n Hl Hn.
  { cbn [lv]. unfold rd. destruct (Z.to_nat (n / 32)); cbn; rewrite !Z.bits_0; reflexivity. }
  inversion_clear Hl as [|? ? Hx Hl']. cbn [lv]. rewrite cons_bits by auto.
  destruct (Z.ltb_spec n 32) as [H|H].
  - rewrite Z.div_small, Z.mod_small by lia. reflexivity.
  - rewrite IH by (auto; lia). replace (n / 32) with ((n - 32) / 32 + 1).
    + rewrite Z2Nat.inj_add by (try apply Z.div_pos; lia). rewrite Nat.add_1_r. cbn [rd nth].
      f_equal. rewrite <- (Z.mod_add (n - 32) 1 32) by lia. f_equal. lia.
    + rewrite <- Z.div_add by lia. f_equal. lia.
Qed.

Lemma bit_word n k : 0 <= n -> 0 <= k -> n mod 32 + k < 32 ->
  (n + k) / 32 = n / 32 /\ (n + k) mod 32 = n mod 32 + k.
Proof.
  intros Hn Hk H. pose proof (Z.div_mod n 32 ltac:(lia)). pose proof (Z.mod_pos_bound n 32 ltac:(lia)).
  split; [symmetry; apply Z.div_unique with (n mod 32 + k)|symmetry; apply Z.mod_unique with (n / 32)]; lia.
Qed.

Lemma test_bit_spec l bit : limbs l -> 0 <= bit -> bigint_test_bit l bit = Z.testbit (lv l) bit.
Proof.
  intros Hl Hb. unfold bigint_test_bit. rewrite lv_testbit by assumption.
  pose proof (Z.div_pos bit 32 ltac:(lia) ltac:(lia)). pose proof (Z.mod_pos_bound bit 32 ltac:(lia)).
  destruct (Z.leb_spec (zlen l) (bit / 32)) as [H1|H1].
  - unfold rd. rewrite nth_overflow by (unfold zlen in *; lia). rewrite Z.bits_0. reflexivity.
  - set (x := rd l (Z.to_nat (bit / 32))). change 1 with (2 ^ 0) at 1. rewrite land_pow2 by lia.
    rewrite Z.shiftr_spec by lia. rewrite Z.add_0_l. destruct (Z.testbit x (bit mod 32)); reflexivity.
Qed.

Lemma any_bits_below_spec l k : limbs l -> l <> [] -> 0 <= k ->
  bigint_any_bits_below l k = negb (lv l mod 2 ^ k =? 0).
Proof.
  intros Hl Hne Hk. pose proof (shift_right_abs_spec l k Hl Hne Hk) as S.
  unfold bigint_shift_right_abs in S. unfold bigint_any_bits_below.
  assert (E1 : k .>> 5 = k / 32) by (apply Z.shiftr_div_pow2; lia).
  assert (E2 : k .& 31 = k mod 32) by (change 31 with (2 ^ 5 - 1); apply land_ones_mod; lia).
  rewrite E1, E2 in S. fold (zlen l) in S. pose proof (Z.div_pos k 32 ltac:(lia) ltac:(lia)).
  destruct (Z.leb_spec (zlen l) (k / 32)) as [H1|H1].
  - destruct S as (_ & _ & _ & S & _). rewrite <- S, orb_true_r.
    rewrite take_ge by (unfold zlen in *; lia). destruct (any_nonzero l); reflexivity.
  - destruct (Z.eqb_spec (k mod 32) 0); destruct S as (_ & _ & _ & S & _); rewrite <- S; cbn [orb];
      destruct (any_nonzero (take (Z.to_nat (k / 32)) l)); reflexivity.
Qed.

(** The 64 bits from [d] on. *)
Lemma extract_spec l d : limbs l -> 0 <= d -> d / 32 < zlen l ->
  bigint_extract_u64 l d = (lv l / 2 ^ d) mod 2 ^ 64.
Proof.
  intros Hl Hd Hw. rewrite <- Z.shiftr_div_pow2 by lia. unfold bigint_extract_u64.
  pose proof (Z.div_pos d 32 ltac:(lia) ltac:(lia)) as Hp. pose proof (Z.mod_pos_bound d 32 ltac:(lia)) as Hm.
  pose proof (Z.div_mod d 32 ltac:(lia)) as Dm.
  set (w := Z.to_nat (d / 32)) in *. set (s := d mod 32) in *.
  assert (Hlimb : forall i k, 32 <= k -> Z.testbit (rd l i) k = false).
  { intros i k Hk. apply (testbit_small _ 32); [apply rd_limb; exact Hl|exact Hk]. }
  assert (Hout : forall i, (length l <= i)%nat -> rd l i = 0) by (intros i Hi; apply nth_overflow; lia).
  (* a missing limb reads as zero, so the guards do not matter *)
  assert (Hg1 : (if (w + 1 <? length l)%nat then (rd l w .>> s) .| u64 (rd l (w + 1) .<< (32 - s))
                 else rd l w .>> s) = (rd l w .>> s) .| u64 (rd l (w + 1) .<< (32 - s))).
  { destruct (Nat.ltb_spec (w + 1) (length l)); [reflexivity|]. rewrite (Hout (w + 1)%nat) by lia.
    rewrite Z.shiftl_0_l. change (u64 0) with 0. rewrite Z.lor_0_r. reflexivity. }
  rewrite Hg1. set (v1 := (rd l w .>> s) .| u64 (rd l (w + 1) .<< (32 - s))).
  assert (Hg2 : (if negb (s =? 0) && (w + 2 <? length l)%nat then v1 .| u64 (rd l (w + 2) .<< (64 - s)) else v1)
                = v1 .| u64 (rd l (w + 2) .<< (64 - s))).
  { destruct (Z.eqb_spec s 0) as [E|E]; cbn [negb andb].
    - rewrite E. replace (u64 (rd l (w + 2) .<< (64 - 0))) with 0; [rewrite Z.lor_0_r; reflexivity|].
      unfold wrap. rewrite Z.shiftl_mul_pow2, Z.mod_mul by lia. reflexivity.
    - destruct (Nat.ltb_spec (w + 2) (length l)); [reflexivity|]. rewrite (Hout (w + 2)%nat) by lia.
      rewrite Z.shiftl_0_l. change (u64 0) with 0. rewrite Z.lor_0_r. reflexivity. }
  rewrite Hg2. unfold v1. apply Z.bits_inj'. intros n Hn. rewrite !Z.lor_spec, Z.shiftr_spec by lia.
  unfold wrap. destruct (Z.ltb_spec n 64) as [H64|H64].
  2:{ rewrite !Z.mod_pow2_bits_high, Hlimb by lia. reflexivity. }
  rewrite !Z.mod_pow2_bits_low, Z.shiftr_spec, !Z.shiftl_spec by lia. rewrite lv_testbit by (auto; lia).
  assert (Hcase : exists j r, 0 <= j <= 2 /\ 0 <= r < 32 /\ n + s = 32 * j + r).
  { exists ((n + s) / 32), ((n + s) mod 32). pose proof (Z.div_mod (n + s) 32 ltac:(lia)).
    pose proof (Z.mod_pos_bound (n + s) 32 ltac:(lia)). split; [|lia]. lia. }
  destruct Hcase as (j & r & Hj & Hr & E).
  assert (E1 : (n + d) / 32 = d / 32 + j) by (symmetry; apply Z.div_unique with r; lia).
  assert (E2 : (n + d) mod 32 = r) by (symmetry; apply Z.mod_unique with (d / 32 + j); lia).
  rewrite E1, E2, Z2Nat.inj_add by lia. fold w.
  assert (j = 0 \/ j = 1 \/ j = 2) as [-> | [-> | ->]] by lia.
  - rewrite Nat.add_0_r, (Z.testbit_neg_r _ (n - (32 - s))), (Z.testbit_neg_r _ (n - (64 - s))) by lia.
    rewrite !orb_false_r. f_equal. lia.
  - rewrite (Hlimb w), (Z.testbit_neg_r _ (n - (64 - s))) by lia. rewrite orb_false_r. cbn [orb]. f_equal. lia.
  - rewrite (Hlimb w), (Hlimb (w + 1)%nat) by lia. cbn [orb]. f_equal. lia.
Qed.

(** [m * 2^e] is a nearest multiple of [2^e] to [x], the even one of two. *)
Definition nearest_even (x m e : Z) : Prop :=
  2 * Z.abs (x - m * 2 ^ e) <= 2 ^ e /\ (2 * Z.abs (x - m * 2 ^ e) = 2 ^ e -> Z.even m = true).

(** The rounding decision: [q] and [q + 1] are the candidates. *)
Lemma round_even x d : 0 < d -> 0 <= x ->
  let q := x / 2 ^ d in
  nearest_even x (if Z.testbit x (d - 1) && (negb (x mod 2 ^ (d - 1) =? 0) || Z.odd q) then q + 1 else q) d.
Proof.
  intros Hd Hx. cbv zeta. set (q := x / 2 ^ d).
  pose proof (Z.pow_pos_nonneg 2 (d - 1) ltac:(lia) ltac:(lia)) as P.
  assert (E : 2 ^ d = 2 * 2 ^ (d - 1)).
  { rewrite <- (Z.pow_1_r 2) at 2. rewrite <- Z.pow_add_r by lia. f_equal. lia. }
  set (h := 2 ^ (d - 1)) in *.
  pose proof (Z.div_mod x (2 ^ d) ltac:(lia)) as D1. pose proof (Z.mod_pos_bound x (2 ^ d) ltac:(lia)) as D2.
  fold q in D1. pose proof (Z.div_mod x h ltac:(lia)) as D3. pose proof (Z.mod_pos_bound x h ltac:(lia)) as D4.
  rewrite Z.testbit_odd, Z.shiftr_div_pow2 by lia. fold h.
  (* x = (2 q + b) h + r with b the halfway bit *)
  assert (Hb : exists b, (b = 0 \/ b = 1) /\ x / h = 2 * q + b).
  { exists (x / h - 2 * q). split; [|lia].
    assert (0 <= x / h - 2 * q) by nia. assert (x / h - 2 * q < 2) by nia. lia. }
  destruct Hb as (b & Hb & Eb). rewrite Eb in *. set (r := x mod h) in *.
  rewrite Z.odd_add, Z.odd_mul. cbn [Z.odd andb]. unfold nearest_even.
  replace (2 ^ d) with (2 * h) by lia. destruct Hb as [-> | ->]; cbn [Z.odd xorb andb].
  - assert (Ex : x - q * (2 * h) = r) by lia. rewrite Ex. split; lia.
  - assert (Ex : x - q * (2 * h) = h + r) by lia. destruct (Z.eqb_spec r 0) as [Er|Er]; cbn [negb orb].
    + destruct (Z.odd q) eqn:Eo.
      * replace (x - (q + 1) * (2 * h)) with (- h) by lia. split; [lia|]. intros _.
        rewrite Z.add_1_r, Z.even_succ. exact Eo.
      * rewrite Ex, Er. split; [lia|]. intros _. rewrite <- Z.negb_odd, Eo. reflexivity.
    + replace (x - (q + 1) * (2 * h)) with (r - h) by lia. split; lia.
Qed.

Definition double_post (v : bigint) (r : double) : Prop :=
  match r with
  | Finite neg m e =>
      neg = (bval v <? 0) /\ 0 <= m < 2 ^ 53 /\ 0 <= e <= 971 /\ (0 < e -> 2 ^ 52 <= m) /\
      nearest_even (Z.abs (bval v)) m e
  | Infinite neg => neg = (bval v <? 0) /\ 2 ^ 1024 - 2 ^ 970 <= Z.abs (bval v)
  end.

Lemma exact_nearest x : nearest_even x x 0.
Proof. unfold nearest_even. change (2 ^ 0) with 1. split; lia. Qed.

(** A significand that rounded up to 2^53 is halved and the exponent raised. *)
Lemma nearest_carry x d : nearest_even x (2 ^ 53) d -> 0 <= d -> nearest_even x (2 ^ 52) (d + 1).
Proof.
  unfold nearest_even. intros [H _] Hd. rewrite Z.pow_add_r by lia. change (2 ^ 1) with 2.
  change (2 ^ 53) with (2 ^ 52 * 2) in H. replace (2 ^ 52 * (2 ^ d * 2)) with (2 ^ 52 * 2 * 2 ^ d) by ring.
  pose proof (Z.pow_pos_nonneg 2 d ltac:(lia) Hd). split; lia.
Qed.

Lemma should_round_up_spec l d q : limbs l -> l <> [] -> 0 < d ->
  bigint_should_round_up l d q =
  Z.testbit (lv l) (d - 1) && (negb (lv l mod 2 ^ (d - 1) =? 0) || Z.odd q).
Proof.
  intros Hl Hne Hd. unfold bigint_should_round_up.
  rewrite test_bit_spec, any_bits_below_spec by (auto; lia).
  assert (Ho : negb (q .& 1 =? 0) = Z.odd q).
  { change 1 with (2 ^ 0). rewrite land_pow2, Z.bit0_odd by lia. destruct (Z.odd q); reflexivity. }
  rewrite Ho. destruct (Z.testbit (lv l) (d - 1)); reflexivity.
Qed.

Lemma to_double_spec v : bigint_ok v -> double_post v (bigint_to_double v).
Proof.
  intros Hv. unfold bigint_to_double. pose proof (ok_limbs v Hv) as Hl. pose proof (ok_nonempty v Hv) as Hne.
  rewrite bitlen_spec by assumption. unfold bigint_is_negative. rewrite bval_sign by exact Hv.
  pose proof (bval_abs v Hv) as Ha. pose proof (lv_range _ Hl) as [R1 R2].
  set (l := blimbs v) in *. set (x := lv l) in *.
  destruct (Z.eqb_spec x 0) as [E|E].
  { change (0 =? 0) with true. cbv iota. unfold double_post. rewrite <- Ha, E.
    destruct (Z.ltb_spec (bval v) 0); [lia|]. splits; auto; try lia. apply exact_nearest. }
  pose proof (Z.log2_spec x ltac:(lia)) as [L1 L2]. pose proof (Z.log2_nonneg x) as L0.
  rewrite <- Z.add_1_r in L2. set (n := Z.log2 x + 1) in *.
  destruct (Z.eqb_spec n 0); [lia|]. unfold BIGINT_DOUBLE_PRECISION, DBL_MAX_EXP.
  assert (Hn32 : n <= 32 * zlen l).
  { assert (Z.log2 x < 32 * zlen l); [|lia]. apply Z.log2_lt_pow2; [lia|].
    unfold zlen. rewrite <- B_pow2 by lia. exact R2. }
  destruct (Z.ltb_spec 53 n) as [Hbig|Hsmall].
  - (* bits are discarded *)
    set (d := n - 53) in *. assert (Hd : 0 < d) by lia.
    pose proof (Z.pow_pos_nonneg 2 d ltac:(lia) ltac:(lia)) as Pd.
    assert (En : 2 ^ n = 2 ^ 53 * 2 ^ d) by (rewrite <- Z.pow_add_r by lia; f_equal; lia).
    assert (En1 : 2 ^ Z.log2 x = 2 ^ 52 * 2 ^ d) by (rewrite <- Z.pow_add_r by lia; f_equal; lia).
    assert (Hq : 2 ^ 52 <= x / 2 ^ d < 2 ^ 53).
    { split; [apply Z.div_le_lower_bound; lia|apply Z.div_lt_upper_bound; lia]. }
    assert (Hsig : bigint_extract_u64 l d = x / 2 ^ d).
    { rewrite extract_spec; [apply Z.mod_small; fold x; lia|exact Hl|lia|].
      apply Z.div_lt_upper_bound; lia. }
    rewrite Hsig, should_round_up_spec by assumption. fold x.
    pose proof (round_even x d Hd ltac:(lia)) as HR. cbv zeta in HR.
    set (q := x / 2 ^ d) in *.
    destruct (Z.eqb_spec d 0); [lia|]. cbn [negb andb].
    assert (Hfin : forall m, nearest_even x m d -> 2 ^ 52 <= m < 2 ^ 53 ->
      double_post v (if n <=? 53 then Finite (bval v <? 0) m 0 else if 1024 <? n then Infinite (bval v <? 0)
                     else Finite (bval v <? 0) m (n - 53))).
    { intros m Hm Hm2. destruct (Z.leb_spec n 53); [lia|]. unfold double_post. fold d. rewrite <- Ha.
      destruct (Z.ltb_spec 1024 n); splits; auto; try lia.
      assert (2 ^ 1024 <= 2 ^ Z.log2 x) by (apply Z.pow_le_mono_r; lia). lia. }
    destruct (Z.testbit x (d - 1) && (negb (x mod 2 ^ (d - 1) =? 0) || Z.odd q)); [|apply Hfin; auto].
    rewrite wrap_small by lia. change (1 .<< 53) with (2 ^ 53).
    destruct (Z.eqb_spec (q + 1) (2 ^ 53)) as [Ec|Ec]; [|apply Hfin; auto; lia].
    rewrite Ec in HR. change (q + 1 .>> 1) with ((q + 1) .>> 1). rewrite Ec. change (2 ^ 53 .>> 1) with (2 ^ 52).
    destruct (Z.leb_spec (n + 1) 53); [lia|]. unfold double_post. rewrite <- Ha.
    destruct (Z.ltb_spec 1024 (n + 1)) as [Hinf|Hok].
    + split; [reflexivity|]. destruct HR as [HR _].
      assert (2 ^ 971 <= 2 ^ d) by (apply Z.pow_le_mono_r; lia).
      assert (Eh2 : 2 ^ d = 2 * 2 ^ (d - 1)) by (rewrite <- Z.pow_succ_r by lia; f_equal; lia).
      assert (2 ^ 970 <= 2 ^ (d - 1)) by (apply Z.pow_le_mono_r; lia). lia.
    + apply nearest_carry in HR; [|lia]. replace (n + 1 - 53) with (d + 1) by lia. splits; auto; lia.
  - change (0 =? 0) with true. cbn [negb andb].
    assert (Hsig : bigint_extract_u64 l 0 = x).
    { rewrite extract_spec; [|exact Hl|lia|change (0 / 32) with 0; lia]. fold x.
      rewrite Z.pow_0_r, Z.div_1_r. apply Z.mod_small.
      assert (2 ^ n <= 2 ^ 53) by (apply Z.pow_le_mono_r; lia). lia. }
    rewrite Hsig. destruct (Z.leb_spec n 53); [|lia]. unfold double_post. rewrite <- Ha.
    assert (2 ^ n <= 2 ^ 53) by (apply Z.pow_le_mono_r; lia).
    splits; auto using exact_nearest; lia.
Qed.

(** ** 64-bit integers *)

Lemma u64_limbs x : 0 <= x < 2 ^ 64 ->
  let lo := u32 (x .& 0xffffffff) in
  let hi := u32 (x .>> 32) in
  let l := if hi =? 0 then [lo] else [lo; hi] in
  is_limb lo /\ is_limb hi /\ x = lo + B * hi /\ limbs l /\ l <> [] /\ lv l = x /\ zlen l <= 2.
Proof.
  intros Hx. cbv zeta. pose proof (low_high x ltac:(lia)) as E. pose proof (low_range x) as L.
  rewrite (Z.shiftr_div_pow2 x 32) in * by lia.
  assert (Hh : 0 <= x / 2 ^ 32 < B).
  { unfold B. split; [apply Z.div_pos; lia|apply Z.div_lt_upper_bound; lia]. }
  rewrite (wrap_small 32 (x .& 0xffffffff)), (wrap_small 32 (x / 2 ^ 32)) by (unfold B in *; lia).
  unfold is_limb. destruct (Z.eqb_spec (x / 2 ^ 32) 0) as [E0|E0]; unfold zlen; cbn [length lv].
  - splits; auto; try lia; try discriminate; repeat constructor; lia.
  - splits; auto; try lia; try discriminate; repeat constructor; lia.
Qed.

Lemma from_uint64_spec grant x : 0 <= x < 2 ^ 64 -> makes grant False (bigint_from_uint64 grant x) x.
Proof.
  intros Hx. unfold bigint_from_uint64. destruct (u64_limbs x Hx) as (_ & _ & _ & H1 & H2 & H3 & H4).
  set (l := if u32 (x .>> 32) =? 0 then _ else _) in *.
  eapply makes_weaken; [apply (mkbigint_limbs_spec grant l false False H1 H2)|tauto|exact H3].
  pose proof (zlen_normalize l). unfold UINT32_MAX. lia.
Qed.

Lemma from_int64_spec grant x : - 2 ^ 63 <= x < 2 ^ 63 -> makes grant False (bigint_from_int64 grant x) x.
Proof.
  intros Hx. unfold bigint_from_int64.
  set (m := if x <? 0 then u64 (u64 (- (x + 1)) + 1) else u64 x).
  assert (Hm : m = Z.abs x).
  { unfold m. destruct (Z.ltb_spec x 0); rewrite !wrap_small by (rewrite ?wrap_small by lia; lia); lia. }
  rewrite Hm. destruct (u64_limbs (Z.abs x) ltac:(lia)) as (_ & _ & _ & H1 & H2 & H3 & H4).
  set (l := if u32 (Z.abs x .>> 32) =? 0 then _ else _) in *.
  eapply makes_weaken; [apply (mkbigint_limbs_spec grant l _ False H1 H2)|tauto|].
  - pose proof (zlen_normalize l). unfold UINT32_MAX. lia.
  - rewrite H3. destruct (Z.ltb_spec x 0); lia.
Qed.

Lemma low_u64_spec v : bigint_ok v -> bigint_low_u64 v = lv (blimbs v) mod 2 ^ 64.
Proof.
  intros Hv. unfold bigint_low_u64. pose proof (ok_limbs v Hv) as Hl. pose proof (ok_nonempty v Hv) as Hne.
  destruct (blimbs v) as [|x [|y t]]; [congruence|..]; cbn [length rd nth lv].
  - inversion_clear Hl as [|? ? Hx _]. unfold is_limb, B in Hx.
    change (0 <? 1)%nat with true. change (1 <? 1)%nat with false. cbv iota. rewrite Z.mod_small; lia.
  - inversion_clear Hl as [|? ? Hx Hl']. inversion_clear Hl' as [|? ? Hy Ht]. unfold is_limb, B in *.
    change (0 <? S (S (length t)))%nat with true. change (1 <? S (S (length t)))%nat with true. cbv iota.
    rewrite wrap_small by (rewrite Z.shiftl_mul_pow2; lia). rewrite Z.lor_comm, lor_shiftl_add by lia.
    apply Z.mod_unique_pos with (q := lv t); lia.
Qed.

Lemma to_uint64_spec v : bigint_ok v -> bigint_to_uint64_wrapping v = bval v mod 2 ^ 64.
Proof.
  intros Hv. unfold bigint_to_uint64_wrapping, bigint_is_negative. rewrite low_u64_spec by exact Hv.
  unfold bval. destruct (sign v); [|reflexivity]. unfold wrap. rewrite Z.sub_0_l.
  rewrite <- (Z.sub_0_l (_ mod _)), Zminus_mod_idemp_r, Z.sub_0_l. reflexivity.
Qed.

(** ** From a double *)

(** Adding a limb that was zero in the bits it sets. *)
Lemma insert_or l dst x y : limbs l -> (dst < length l)%nat -> rd l dst .| x = rd l dst + y ->
  is_limb (rd l dst + y) ->
  let r := <[dst := rd l dst .| x]> l in
  limbs r /\ length r = length l /\ lv r = lv l + B ^ Z.of_nat dst * y /\
  rd r dst = rd l dst + y /\ (forall i, i <> dst -> rd r i = rd l i).
Proof.
  intros Hl Hd E Hr. cbv zeta. rewrite E. splits.
  - apply limbs_insert; assumption.
  - apply length_insert.
  - rewrite lv_insert by exact Hd. lia.
  - apply rd_lookup, list_lookup_insert_eq. exact Hd.
  - intros i Hi. unfold rd. rewrite !nth_lookup, list_lookup_insert_ne by auto. reflexivity.
Qed.

Lemma place_part_spec l p dst s : limbs l -> length l = DOUBLE_LIMB_CAP -> is_limb p -> 0 <= s < 32 ->
  (dst + 1 < DOUBLE_LIMB_CAP)%nat -> rd l dst < 2 ^ s -> rd l (dst + 1) = 0 ->
  exists r, place_part l p dst s = Some r /\ limbs r /\ length r = DOUBLE_LIMB_CAP /\
    lv r = lv l + B ^ Z.of_nat dst * (p * 2 ^ s) /\ rd r (dst + 1) < 2 ^ s /\
    (forall i, (dst + 2 <= i)%nat -> rd r i = rd l i).
Proof.
  intros Hl Hlen Hp Hs Hd Hlow Hnext. unfold place_part.
  pose proof (Z.pow_pos_nonneg 2 s ltac:(lia) ltac:(lia)) as Ps.
  destruct (Z.eqb_spec p 0) as [->|Hp0].
  { exists l. splits; auto; lia. }
  destruct (Nat.leb_spec DOUBLE_LIMB_CAP dst); [lia|]. destruct (Nat.leb_spec DOUBLE_LIMB_CAP (dst + 1)); [lia|].
  pose proof (B_split s ltac:(lia)) as EB. pose proof (Z.pow_pos_nonneg 2 (32 - s) ltac:(lia) ltac:(lia)) as Pt.
  unfold is_limb in Hp. pose proof (rd_limb l dst Hl) as Hx. unfold is_limb in Hx.
  set (x := rd l dst) in *. set (T := 2 ^ (32 - s)) in *.
  pose proof (Z.div_mod p T ltac:(lia)) as Dp. pose proof (Z.mod_pos_bound p T ltac:(lia)) as Mp.
  assert (Hhi : 0 <= p / T < 2 ^ s) by (split; [apply Z.div_pos; lia|apply Z.div_lt_upper_bound; lia]).
  (* the part of [p] that stays in this limb *)
  assert (Hlo : u32 (p .<< s) = (p mod T) .<< s).
  { rewrite !Z.shiftl_mul_pow2 by lia. unfold wrap. symmetry. change (2 ^ 32) with B.
    apply Z.mod_unique_pos with (q := p / T); nia. }
  assert (Hsum : x .| u32 (p .<< s) = x + (p mod T) * 2 ^ s).
  { rewrite Hlo, Z.lor_comm, lor_shiftl_add by lia. lia. }
  destruct (insert_or l dst (u32 (p .<< s)) ((p mod T) * 2 ^ s) Hl ltac:(lia) Hsum) as (I1 & I2 & I3 & I4 & I5).
  { unfold is_limb. fold x. nia. }
  fold x in I1, I2, I3, I4, I5. set (l1 := <[dst := x .| u32 (p .<< s)]> l) in *.
  destruct (Z.eqb_spec s 0) as [E0|E0].
  - exists l1. rewrite E0, Z.pow_0_r in *. unfold T in *. change (2 ^ (32 - 0)) with B in *.
    rewrite Z.mod_small in I3 by lia. splits; auto; try lia.
    + rewrite I5 by lia. lia.
    + intros i Hi. apply I5. lia.
  - assert (Hz : rd l1 (dst + 1) = 0) by (rewrite I5 by lia; exact Hnext).
    destruct (insert_or l1 (dst + 1) (p .>> (32 - s)) (p / T) I1 ltac:(lia)) as (J1 & J2 & J3 & J4 & J5).
    { rewrite Hz, Z.lor_0_l, Z.shiftr_div_pow2 by lia. reflexivity. }
    { rewrite Hz. unfold is_limb. nia. }
    eexists. split; [reflexivity|]. splits; auto; try lia.
    + rewrite J3, I3. replace (dst + 1)%nat with (S dst) by lia. rewrite B_pow, EB. rewrite Dp at 3. ring.
    + intros i Hi. rewrite J5, I5 by lia. reflexivity.
Qed.

Lemma dbl_parts bits : 0 <= bits < 2 ^ 64 ->
  0 <= dbl_exp bits < 2048 /\ 0 <= dbl_frac bits < 2 ^ 52 /\
  dbl_frac bits .| (1 .<< 52) = 2 ^ 52 + dbl_frac bits.
Proof.
  intros Hb. unfold dbl_exp, dbl_frac. change 0x7ff with (2 ^ 11 - 1). change 0x000fffffffffffff with (2 ^ 52 - 1).
  rewrite !land_ones_mod by lia. change 2048 with (2 ^ 11).
  pose proof (Z.mod_pos_bound (bits .>> 52) (2 ^ 11) ltac:(lia)).
  pose proof (Z.mod_pos_bound bits (2 ^ 52) ltac:(lia)). splits; try lia.
  rewrite Z.lor_comm, lor_shiftl_add by lia. lia.
Qed.

(** The scaled magnitude divided back: a right shift below 2^52, a left shift above. *)
Lemma dbl_abs_small m e : 0 <= m -> 0 <= e -> e <= 1074 -> m * 2 ^ e / 2 ^ 1074 = m .>> (1074 - e).
Proof.
  intros Hm He H. rewrite Z.shiftr_div_pow2 by lia.
  replace (2 ^ 1074) with (2 ^ (1074 - e) * 2 ^ e) by (rewrite <- Z.pow_add_r by lia; f_equal; lia).
  apply Z.div_mul_cancel_r; apply Z.pow_nonzero; lia.
Qed.

Lemma dbl_abs_large m e : 0 <= m -> 1074 <= e -> m * 2 ^ e / 2 ^ 1074 = m * 2 ^ (e - 1074).
Proof.
  intros Hm He. replace (2 ^ e) with (2 ^ (e - 1074) * 2 ^ 1074) by (rewrite <- Z.pow_add_r by lia; f_equal; lia).
  rewrite Z.mul_assoc. apply Z.div_mul. apply Z.pow_nonzero; lia.
Qed.

Lemma from_double_spec grant bits : 0 <= bits < 2 ^ 64 -> isfinite bits = true -> dbl_integral bits = true ->
  makes grant False (bigint_from_integral_double grant bits) (dbl_int bits).
Proof.
  intros Hb Hf Hi. unfold bigint_from_integral_double. rewrite Hf, Hi. cbn [negb orb].
  destruct (dbl_parts bits Hb) as (P1 & P2 & P3). unfold isfinite in Hf. boolprop.
  fold (dbl_exp bits) (dbl_frac bits). rewrite P3, (wrap_small 32 (dbl_exp bits)) by lia.
  assert (Hzero : dbl_abs bits = 0 -> makes grant False (bigint_from_uint64 grant 0) (dbl_int bits)).
  { intros Z0. eapply makes_weaken; [apply from_uint64_spec; lia|auto|].
    unfold dbl_int. rewrite Z0. destruct (dbl_sign bits); reflexivity. }
  destruct (Z.eqb_spec (dbl_scaled bits) 0) as [E|E].
  { apply Hzero. unfold dbl_abs. rewrite E. reflexivity. }
  unfold dbl_int, dbl_abs, dbl_integral, dbl_scaled in *.
  destruct (Z.eqb_spec (dbl_exp bits) 0) as [Ee|Ee].
  { apply Hzero. apply Z.div_small. split; [lia|]. apply Z.lt_le_trans with (2 ^ 52); [lia|apply Z.pow_le_mono_r; lia]. }
  set (m := 2 ^ 52 + dbl_frac bits) in *. set (eb := dbl_exp bits) in *.
  assert (Hm : 2 ^ 52 <= m < 2 ^ 53) by (unfold m; lia).
  destruct (Z.ltb_spec (eb - 1023) 52) as [Hsm|Hlg].
  - rewrite dbl_abs_small by lia. replace (1074 - (eb - 1)) with (52 - (eb - 1023)) by lia.
    set (mag := m .>> (52 - (eb - 1023))).
    assert (Hmag : 0 <= mag < 2 ^ 64).
    { unfold mag. rewrite Z.shiftr_div_pow2 by lia. pose proof (Z.pow_pos_nonneg 2 (52 - (eb - 1023)) ltac:(lia) ltac:(lia)).
      split; [apply Z.div_pos; lia|apply Z.div_lt_upper_bound; nia]. }
    destruct (u64_limbs mag Hmag) as (L1 & L2 & L3 & H1 & H2 & H3 & H4).
    set (lo := u32 (mag .& 0xffffffff)) in *. set (hi := u32 (mag .>> 32)) in *.
    assert (Hsame : (if UINT32_MAX <? mag then [lo; hi] else [lo]) = if hi =? 0 then [lo] else [lo; hi]).
    { unfold is_limb, B, UINT32_MAX in *. destruct (Z.ltb_spec (2 ^ 32 - 1) mag), (Z.eqb_spec hi 0); try reflexivity; lia. }
    rewrite Hsame. set (l := if hi =? 0 then [lo] else [lo; hi]) in *.
    eapply makes_weaken; [apply (mkbigint_limbs_spec grant l _ False H1 H2)|tauto|rewrite H3; reflexivity].
    pose proof (zlen_normalize l). unfold UINT32_MAX. lia.
  - rewrite dbl_abs_large by lia. replace (eb - 1 - 1074) with (eb - 1023 - 52) by lia.
    set (shift := eb - 1023 - 52) in *. assert (Hshift : 0 <= shift <= 971) by (unfold shift; lia).
    pose proof (Z.div_mod shift 32 ltac:(lia)) as Ds. pose proof (Z.mod_pos_bound shift 32 ltac:(lia)) as Ms.
    pose proof (Z.div_pos shift 32 ltac:(lia) ltac:(lia)) as Ws.
    set (w := Z.to_nat (shift / 32)). set (s := shift mod 32) in *.
    assert (Hw : (w + 2 < DOUBLE_LIMB_CAP)%nat).
    { unfold w, DOUBLE_LIMB_CAP. assert (shift / 32 <= 30) by (apply Z.lt_succ_r, Z.div_lt_upper_bound; lia). lia. }
    destruct (u64_limbs m ltac:(lia)) as (L1 & L2 & L3 & _).
    set (p0 := u32 (m .& 0xffffffff)) in *. set (p1 := u32 (m .>> 32)) in *.
    pose proof (Z.pow_pos_nonneg 2 s ltac:(lia) ltac:(lia)) as Ps.
    assert (Hz : forall i, rd (replicate DOUBLE_LIMB_CAP 0) i = 0).
    { intros i. unfold rd. rewrite nth_lookup.
      destruct (replicate DOUBLE_LIMB_CAP 0 !! i) eqn:El; [|reflexivity]. apply lookup_replicate in El as [-> _]. reflexivity. }
    destruct (place_part_spec (replicate DOUBLE_LIMB_CAP 0) p0 w s (limbs_replicate _) (length_replicate _ _) L1 Ms
      ltac:(lia) ltac:(rewrite Hz; lia) (Hz _)) as (r & -> & R1 & R2 & R3 & R4 & R5).
    destruct (place_part_spec r p1 (w + 1) s R1 R2 L2 Ms ltac:(lia) R4
      ltac:(rewrite R5 by lia; apply Hz)) as (r2 & -> & Q1 & Q2 & Q3 & _).
    assert (Hne : r2 <> []) by (intros ->; discriminate Q2).
    eapply makes_weaken; [apply (mkbigint_limbs_spec grant (bigint_normalize_limbs r2) _ False)|tauto|].
    + apply normalize_limbs. exact Q1.
    + apply normalize_normal. exact Hne.
    + pose proof (zlen_normalize (bigint_normalize_limbs r2)). pose proof (zlen_normalize r2).
      unfold UINT32_MAX, zlen, DOUBLE_LIMB_CAP in *. lia.
    + rewrite normalize_lv, Q3, R3, lv_replicate. replace (w + 1)%nat with (S w) by lia. rewrite B_pow.
      assert (Epow : 2 ^ shift = B ^ Z.of_nat w * 2 ^ s).
      { unfold w. rewrite Z2Nat.id, B_pow2, <- Z.pow_add_r by lia. f_equal. lia. }
      assert (Ev : 0 + B ^ Z.of_nat w * (p0 * 2 ^ s) + B * B ^ Z.of_nat w * (p1 * 2 ^ s) = m * 2 ^ shift).
      { rewrite Epow, L3. ring. }
      rewrite Ev. reflexivity.
Qed.

(** ** Texts of values *)

Lemma hex_digit_map d : 0 <= d < 10 -> hex_digit (digit_map d) = d.
Proof.
  intros Hd. unfold digit_map. destruct (Z.ltb_spec d 10); [|lia]. unfold hex_digit.
  destruct (Z.eq_dec d 0) as [->|]; [reflexivity|].
  destruct (Z.leb_spec 49 (48 + d)), (Z.leb_spec (48 + d) 57); try lia. cbn [andb].
  destruct (Z.eqb_spec (48 + d - 48) 0); [lia|]. cbn [negb]. lia.
Qed.

(** A decimal numeral reads back as its value. *)
Lemma digits_literal sep s : Forall (numeral_digit 10) s -> s <> [] -> literal 10 sep s (horner 10 s).
Proof.
  induction s as [|c s IH] using rev_ind; intros Hs Hne; [congruence|].
  apply Forall_app in Hs as [Hs Hc]. inversion_clear Hc as [|? ? (d & Hd & ->) _].
  pose proof (hex_digit_map d Hd) as Eh. rewrite horner_snoc, digit_val_map by lia.
  assert (Hdig : is_digit 10 (digit_map d)) by (unfold is_digit; lia).
  destruct s as [|c0 s].
  - unfold horner. cbn [app fold_left]. rewrite Z.mul_0_l, Z.add_0_l.
    pose proof (lit_digit 10 sep (digit_map d) Hdig) as L. rewrite Eh in L. exact L.
  - pose proof (lit_more 10 sep (c0 :: s) (horner 10 (c0 :: s)) (digit_map d)
      (IH Hs ltac:(discriminate)) Hdig) as L. rewrite Eh in L. exact L.
Qed.

Lemma numeral_text sep s v : numeral 10 s v -> text_value s sep v.
Proof.
  intros (H1 & H2 & H3 & H4). unfold text_value.
  assert (Hb : literal_base s = (10, 0%nat)).
  { unfold literal_base. destruct (Nat.leb_spec 2 (length s)); [|reflexivity].
    destruct (Z.eqb_spec (rd s 0) 48) as [E|E]; [|reflexivity]. specialize (H4 E). lia. }
  rewrite Hb, drop_0, <- H3. apply digits_literal; assumption.
Qed.

Lemma numeral_char c : numeral_digit 10 c -> 48 <= c <= 57.
Proof. intros (d & Hd & ->). unfold digit_map. destruct (Z.ltb_spec d 10); lia. Qed.

Lemma horner_nonneg s : Forall (numeral_digit 10) s -> 0 <= horner 10 s.
Proof.
  induction s as [|c s IH] using rev_ind; intros Hs; [unfold horner; cbn; lia|].
  apply Forall_app in Hs as [Hs Hc]. inversion_clear Hc as [|? ? (d & Hd & ->) _].
  rewrite horner_snoc, digit_val_map by lia. specialize (IH Hs). lia.
Qed.

(** A numeral is no longer than the number of bits allows. *)
Lemma numeral_length s v n : numeral 10 s v -> 0 <= n -> v < 2 ^ n -> zlen s <= n + 1.
Proof.
  intros (H1 & H2 & H3 & H4) Hn Hv. destruct s as [|c [|c2 t]]; [congruence|unfold zlen; cbn; lia|].
  set (u := c2 :: t) in *. inversion_clear H2 as [|? ? Hc Hu]. destruct Hc as (d & Hd & ->).
  assert (Hd1 : 1 <= d).
  { destruct (Z.eq_dec d 0) as [->|]; [|lia]. specialize (H4 eq_refl). discriminate. }
  change (digit_map d :: u) with ([digit_map d] ++ u) in H3. rewrite horner_app in H3 by lia.
  unfold horner at 1 in H3. cbn [fold_left] in H3. rewrite digit_val_map in H3 by lia.
  pose proof (horner_nonneg u Hu). pose proof (Z.pow_pos_nonneg 10 (zlen u) ltac:(lia) ltac:(unfold zlen; lia)).
  assert (10 ^ zlen u <= v) by nia.
  assert (2 ^ zlen u <= 10 ^ zlen u) by (apply Z.pow_le_mono_l; lia).
  assert (zlen u < n).
  { destruct (Z.lt_ge_cases (zlen u) n); [assumption|]. assert (2 ^ n <= 2 ^ zlen u) by (apply Z.pow_le_mono_r; lia). lia. }
  unfold zlen in *. cbn [length] in *. lia.
Qed.

Lemma skip_space_id c t : is_space c = false -> skip_space (c :: t) = c :: t.
Proof. intros H. cbn [skip_space]. rewrite H. reflexivity. Qed.

Lemma digit_no_space c : 45 <= c <= 57 -> is_space c = false.
Proof.
  intros H. unfold is_space. destruct (Z.eqb_spec c 9), (Z.eqb_spec c 10), (Z.eqb_spec c 13), (Z.eqb_spec c 32); lia || reflexivity.
Qed.

(** Trimming leaves a signed numeral alone. *)
Lemma trim_numeral s : s <> [] -> Forall (fun c => 45 <= c <= 57) s ->
  rev (skip_space (rev (skip_space s))) = s.
Proof.
  intros Hne Hs.
  assert (H : forall l, Forall (fun c => 45 <= c <= 57) l -> skip_space l = l).
  { intros [|c t] Hl; [reflexivity|]. apply skip_space_id, digit_no_space. inversion Hl. assumption. }
  rewrite (H s) by exact Hs. rewrite H by (apply Forall_rev; exact Hs). apply rev_involutive.
Qed.

Section FromValue.
Context (grant : nat -> bool).

Lemma from_text_spec s v : signed_numeral 10 s v -> zlen s < UINT32_MAX ->
  makes grant False (bigint_from_value grant (VStr s)) v.
Proof.
  intros Hs Hlen. unfold bigint_from_value, signed_numeral in *. destruct (Z.ltb_spec v 0) as [Hv|Hv].
  - destruct Hs as (t & -> & Ht). destruct Ht as (T1 & T2 & T3 & T4). pose proof (conj T1 (conj T2 (conj T3 T4))) as Ht.
    rewrite trim_numeral; [|discriminate|].
    2:{ constructor; [lia|]. eapply Forall_impl; [exact T2|]. intros c Hc. apply numeral_char in Hc. lia. }
    change (45 =? 45) with true. cbv iota beta zeta.
    destruct (Nat.eqb_spec (length t) 0) as [E|E]; [destruct t; [congruence|discriminate]|].
    destruct (from_string_spec grant t true false T1 ltac:(unfold zlen in *; cbn [length] in Hlen; lia)) as [H _].
    eapply makes_weaken; [apply (H (- v)), numeral_text; exact Ht|tauto|lia].
  - destruct Hs as (T1 & T2 & T3 & T4). pose proof (conj T1 (conj T2 (conj T3 T4))) as Ht.
    rewrite trim_numeral; [|exact T1|].
    2:{ eapply Forall_impl; [exact T2|]. intros c Hc. apply numeral_char in Hc. lia. }
    destruct s as [|c t]; [congruence|]. inversion T2 as [|? ? Hc _]. apply numeral_char in Hc.
    destruct (Z.eqb_spec c 45); [lia|]. destruct (Z.eqb_spec c 43); [lia|].
    cbn [length]. change (S (length t) =? 0)%nat with false. cbv iota.
    destruct (from_string_spec grant (c :: t) false false T1 Hlen) as [H' _].
    apply (H' v), numeral_text. exact Ht.
Qed.

Lemma fmt_f0_numeral n : 0 <= n -> numeral 10 (fmt_f0 n) n.
Proof.
  intros Hn. unfold fmt_f0. pose proof (Z.log2_nonneg n) as L0.
  destruct (dec_lsb_text (Z.to_nat (Z.log2 n) + 1) n) as (H1 & H2 & H3 & H4 & _); [|lia|].
  - split; [lia|]. replace (Z.of_nat (Z.to_nat (Z.log2 n) + 1)) with (Z.log2 n + 1) by lia.
    apply Z.lt_le_trans with (2 ^ (Z.log2 n + 1)); [|apply Z.pow_le_mono_l; lia].
    destruct (Z.eq_dec n 0) as [->|]; [reflexivity|]. pose proof (Z.log2_spec n ltac:(lia)). rewrite Z.add_1_r. lia.
  - unfold numeral. rewrite rd_rev_0, length_rev. splits; auto.
    + intros E. apply H1. rewrite <- (rev_involutive (dec_lsb _ n)), E. reflexivity.
    + apply Forall_rev. exact H2.
Qed.

Lemma dbl_abs_range bits : 0 <= bits < 2 ^ 64 -> isfinite bits = true -> 0 <= dbl_abs bits < 2 ^ 1024.
Proof.
  intros Hb Hf. destruct (dbl_parts bits Hb) as (P1 & P2 & _). unfold isfinite in Hf. boolprop.
  unfold dbl_abs, dbl_scaled. destruct (Z.eqb_spec (dbl_exp bits) 0).
  - split; [apply Z.div_pos; lia|]. apply Z.div_lt_upper_bound; [lia|].
    apply Z.lt_le_trans with (2 ^ 52); [lia|]. rewrite <- Z.pow_add_r by lia. apply Z.pow_le_mono_r; lia.
  - pose proof (Z.pow_pos_nonneg 2 (dbl_exp bits - 1) ltac:(lia) ltac:(lia)).
    split; [apply Z.div_pos; [nia|lia]|]. apply Z.div_lt_upper_bound; [lia|].
    apply Z.lt_le_trans with (2 ^ 53 * 2 ^ (dbl_exp bits - 1)); [apply Z.mul_lt_mono_pos_r; lia|].
    rewrite <- !Z.pow_add_r by lia. apply Z.pow_le_mono_r; lia.
Qed.

Lemma from_number_spec bits : 0 <= bits < 2 ^ 64 -> isfinite bits = true -> dbl_integral bits = true ->
  makes grant False (bigint_from_value grant (VNum bits)) (dbl_int bits).
Proof.
  intros Hb Hf Hi. unfold bigint_from_value. rewrite Hf, Hi. cbn [negb].
  pose proof (dbl_abs_range bits Hb Hf) as R. pose proof (fmt_f0_numeral (dbl_abs bits) ltac:(lia)) as N.
  yreq. unfold js_mkbigint.
  destruct (from_string_spec grant (fmt_f0 (dbl_abs bits)) (dbl_sign bits && negb (dbl_abs bits =? 0)) true) as [H _].
  - apply N.
  - pose proof (numeral_length _ _ 1024 N ltac:(lia) ltac:(lia)). unfold UINT32_MAX. lia.
  - eapply makes_weaken; [apply (H (dbl_abs bits)), numeral_text; exact N|tauto|].
    unfold dbl_int. destruct (dbl_sign bits), (Z.eqb_spec (dbl_abs bits) 0); cbn [negb andb]; lia.
Qed.

End FromValue.

(** ** The properties *)

(** [bigint_exp] computes the power by repeated squaring, for every
    non-negative exponent and with one round per exponent bit; a negative
    exponent is the error "Exponent must be positive". *)
Theorem bigint_exp_correct grant base exp : bigint_ok base -> bigint_ok exp ->
  (bval exp < 0 -> bigint_exp grant base exp = throw JS_ERR_TYPE "Exponent must be positive") /\
  (0 <= bval exp ->
   makes grant (UINT32_MAX < 2 * zlen (blimbs base) * bval exp + 2) (bigint_exp grant base exp)
     (bval base ^ bval exp)).
Proof.
  intros Hb He. split; [|apply exp_spec; assumption]. intros Hn.
  unfold bigint_exp, bigint_is_negative. rewrite bval_sign by exact He.
  destruct (Z.ltb_spec (bval exp) 0); [reflexivity|lia].
Qed.

Lemma bigint_exp_correct_witness :
  makes plenty (UINT32_MAX < 14) (bigint_exp plenty big_sample (BigInt false [3]))
    ((1 - 2 ^ 64) ^ 3).
Proof.
  destruct (bigint_exp_correct plenty big_sample (BigInt false [3])) as [_ H];
    [apply bigint_okb_ok; reflexivity..|].
  eapply makes_weaken; [apply H; vm_compute; discriminate|auto|reflexivity].
Defined.

(** [BigInt.asUintN] and [BigInt.asIntN] reduce modulo 2^bits and read the
    low bits as unsigned, respectively signed, for every BigInt and every
    width; the divisor they build is always one the long division handles. *)
Theorem bigint_asN_correct grant to_number u a0 v bits rest :
  bigint_ok v -> 0 < bits < 2 ^ 64 -> bigint_asint_bits to_number u a0 = ret bits ->
  makes grant (too_wide bits) (builtin_BigInt_asUintN grant to_number u (a0 :: VBigInt v :: rest))
    (bval v mod 2 ^ bits) /\
  makes grant (too_wide bits) (builtin_BigInt_asIntN grant to_number u (a0 :: VBigInt v :: rest))
    (sign_extend bits (bval v)).
Proof. intros Hv Hb Ha. split; [apply asUintN_spec|apply asIntN_spec]; auto; lia. Qed.

Lemma bigint_asN_correct_witness :
  makes plenty (too_wide 33)
    (builtin_BigInt_asIntN plenty (fun _ => 0) 0 [VBigInt (BigInt false [33]); VBigInt big_sample]) 1.
Proof.
  destruct (bigint_asN_correct plenty (fun _ => 0) 0 (VBigInt (BigInt false [33])) big_sample 33 []) as [_ H];
    [apply bigint_okb_ok; reflexivity|lia|reflexivity|].
  eapply makes_weaken; [exact H|auto|reflexivity].
Defined.

(** C39: [bigint_to_double] rounds to the nearest double, ties to even: the
    53-bit significand and exponent it returns are the nearest ones to the
    magnitude, the sign is kept, and infinity is returned only for
    magnitudes that round to 2^1024 or more. *)
Theorem bigint_to_double_nearest v : bigint_ok v -> double_post v (bigint_to_double v).
Proof. apply to_double_spec. Qed.

Lemma bigint_to_double_nearest_witness :
  bigint_to_double big_sample = Finite true (2 ^ 52) 12 /\ nearest_even (2 ^ 64 - 1) (2 ^ 52) 12.
Proof.
  pose proof (bigint_to_double_nearest big_sample (bigint_okb_ok big_sample eq_refl)) as H.
  assert (E : bigint_to_double big_sample = Finite true (2 ^ 52) 12) by (vm_compute; reflexivity).
  split; [exact E|]. rewrite E in H. destruct H as (_ & _ & _ & _ & H). exact H.
Defined.

(** A finite integral double becomes the BigInt of exactly its value, by
    [bigint_from_integral_double] and by [BigInt(number)]; the fixed array of
    33 limbs is always large enough. *)
Theorem bigint_from_double_exact grant bits : 0 <= bits < 2 ^ 64 ->
  isfinite bits = true -> dbl_integral bits = true ->
  makes grant False (bigint_from_integral_double grant bits) (dbl_int bits) /\
  makes grant False (bigint_from_value grant (VNum bits)) (dbl_int bits).
Proof. intros Hb Hf Hi. split; [apply from_double_spec|apply from_number_spec]; assumption. Qed.

(** -2^60, as a double. *)
Lemma bigint_from_double_exact_witness :
  makes plenty False (bigint_from_integral_double plenty 0xC3B0000000000000) (- 2 ^ 60).
Proof.
  destruct (bigint_from_double_exact plenty 0xC3B0000000000000) as [H _]; [lia|vm_compute; reflexivity..|].
  eapply makes_weaken; [exact H|auto|vm_compute; reflexivity].
Defined.

(** Conversions with 64-bit integers: both constructors are exact, and
    the wrapping conversions reduce modulo 2^64, so that a 64-bit value
    survives the trip through a BigInt. *)
Theorem bigint_int64_roundtrip grant x v : - 2 ^ 63 <= x < 2 ^ 63 -> bigint_ok v ->
  makes grant False (bigint_from_int64 grant x) x /\
  makes grant False (bigint_from_uint64 grant (x mod 2 ^ 64)) (x mod 2 ^ 64) /\
  bigint_to_uint64_wrapping v = bval v mod 2 ^ 64 /\
  (bval v = x -> bigint_to_int64_wrapping v = x).
Proof.
  intros Hx Hv. pose proof (Z.mod_pos_bound x (2 ^ 64) ltac:(lia)).
  splits; auto using from_int64_spec, from_uint64_spec, to_uint64_spec.
  intros E. unfold bigint_to_int64_wrapping. rewrite to_uint64_spec, E by exact Hv.
  destruct (Z.lt_ge_cases x 0).
  - rewrite <- (Z.mod_unique_pos x (2 ^ 64) (-1) (x + 2 ^ 64)) by lia.
    destruct (Z.ltb_spec (x + 2 ^ 64) (2 ^ 63)); lia.
  - rewrite Z.mod_small by lia. destruct (Z.ltb_spec x (2 ^ 63)); lia.
Qed.

Lemma bigint_int64_roundtrip_witness :
  bigint_to_int64_wrapping (BigInt true [0; 2 ^ 31]) = - 2 ^ 63.
Proof.
  destruct (bigint_int64_roundtrip plenty (- 2 ^ 63) (BigInt true [0; 2 ^ 31])) as (_ & _ & _ & H);
    [lia|apply bigint_okb_ok; reflexivity|].
  apply H. reflexivity.
Defined.

(** Printing and reading are inverse: [BigInt(v.toString())] is [v], the
    very same payload. *)
Theorem bigint_text_roundtrip grant v : bigint_ok v -> 32 * zlen (blimbs v) + 2 < UINT32_MAX ->
  yields grant False
    (let* s := builtin_bigint_toString grant v None in bigint_from_value grant (VStr s))
    (fun r => r = v).
Proof.
  intros Hv Hlen. eapply yields_bind; [apply toString_spec; [exact Hv|cbn; lia]|].
  cbn [default]. intros s Hs.
  assert (Hb : Z.abs (bval v) < 2 ^ (32 * zlen (blimbs v))).
  { pose proof (lv_range _ (ok_limbs v Hv)) as [_ R]. rewrite bval_abs in R by exact Hv.
    unfold zlen. rewrite <- B_pow2 by lia. exact R. }
  eapply (yields_weaken _ False False); [apply (from_text_spec grant s (bval v) Hs)|tauto|].
  - unfold signed_numeral in Hs. destruct (Z.ltb_spec (bval v) 0).
    + destruct Hs as (t & -> & Ht).
      pose proof (numeral_length t _ (32 * zlen (blimbs v)) Ht ltac:(unfold zlen; lia) ltac:(lia)) as L.
      unfold zlen in *. cbn [length]. lia.
    + pose proof (numeral_length s _ (32 * zlen (blimbs v)) Hs ltac:(unfold zlen; lia) ltac:(lia)). lia.
  - intros r [Hr Vr]. apply bval_inj; assumption.
Qed.

Lemma bigint_text_roundtrip_witness :
  exists r, ((let* s := builtin_bigint_toString plenty big_sample None in
              bigint_from_value plenty (VStr s)) 0%nat).1 = Done (Ok r) /\ r = big_sample.
Proof.
  apply (yields_total plenty False _ _ (bigint_text_roundtrip plenty big_sample
    (bigint_okb_ok big_sample eq_refl) eq_refl) (fun x => x) (fun _ => eq_refl) 0%nat).
Defined.
