(* ===== verification/WebSocket.v ===== *)
(** * WebSocket framing

    [src/src/http/websocket.c]: reading and writing of frames, scanning of
    comma-separated header values, and the opening handshake.  The width of
    [size_t] is a parameter, because the arithmetic on payload lengths depends
    on it; an access outside a buffer is the outcome [WS_FAULT].  libbase64,
    the SHA-1 of OpenSSL and [uv_random] are parameters. *)

From S2P Require Import Prelude.

(** ** Frames *)

Definition ANT_WS_OPCODE_CONTINUATION : Z := 0x0.
Definition ANT_WS_OPCODE_TEXT : Z := 0x1.
Definition ANT_WS_OPCODE_BINARY : Z := 0x2.
Definition ANT_WS_OPCODE_CLOSE : Z := 0x8.
Definition ANT_WS_OPCODE_PING : Z := 0x9.
Definition ANT_WS_OPCODE_PONG : Z := 0xA.

Record ant_ws_frame_t := WsFrame {
  payload : list Z; payload_len : Z; consumed_len : Z; opcode : Z;
  mask : list Z; fin : bool; rsv1 : bool; masked : bool }.

Inductive ws_result :=
| ANT_WS_FRAME_INCOMPLETE
| ANT_WS_FRAME_OK (f : ant_ws_frame_t)
| ANT_WS_FRAME_PROTOCOL_ERROR
| WS_FAULT.

Definition bit_set (b m : Z) : bool := negb (b .& m =? 0).

(** [ant_ws_read_u64_be]. *)
Definition ant_ws_read_u64_be (data : list Z) : Z :=
  fold_left (fun value b => u64 (value .<< 8) .| b) (take 8 data) 0.

(** [out->payload[i] ^= out->mask[i % 4]]. *)
Definition xor_mask (key data : list Z) : list Z :=
  imap (fun i b => b .^ rd key (i mod 4)) data.

Section Frames.
Context (size_bits : Z).
Definition sz (x : Z) : Z := wrap size_bits x.
Definition SIZE_MAX : Z := 2 ^ size_bits - 1.

(** The part of [ant_ws_parse_frame] after the length fields: [pos] is the
    offset reached. *)
Definition parse_body (malloc_ok : Z -> bool) (data : list Z) (is_masked : bool)
  (plen pos : Z) : ws_result :=
  let len := zlen data in
  if SIZE_MAX <? plen then ANT_WS_FRAME_PROTOCOL_ERROR
  else if is_masked && (len <? pos + 4) then ANT_WS_FRAME_INCOMPLETE
  else
    let key := if is_masked then take 4 (drop (Z.to_nat pos) data) else [0; 0; 0; 0] in
    let pos := if is_masked then pos + 4 else pos in
    if len <? sz (pos + sz plen) then ANT_WS_FRAME_INCOMPLETE
    else
      let size := sz (sz plen + 1) in
      if negb (malloc_ok size) then ANT_WS_FRAME_PROTOCOL_ERROR
      else if (size <? plen + 1) || (len <? pos + plen) then WS_FAULT
      else
        let body := take (Z.to_nat plen) (drop (Z.to_nat pos) data) in
        let d0 := rd data 0 in
        ANT_WS_FRAME_OK
          (WsFrame (if is_masked then xor_mask key body else body) (sz plen) (sz (pos + sz plen))
             (d0 .& 0x0f) key (bit_set d0 0x80) (bit_set d0 0x40) is_masked).

Definition ant_ws_parse_frame (malloc_ok : Z -> bool) (data : list Z)
  (require_mask allow_rsv1 : bool) : ws_result :=
  let len := zlen data in
  if len <? 2 then ANT_WS_FRAME_INCOMPLETE
  else
    let d0 := rd data 0 in
    let d1 := rd data 1 in
    let op := d0 .& 0x0f in
    let is_masked := bit_set d1 0x80 in
    let plen := d1 .& 0x7f in
    if bit_set d0 0x30 then ANT_WS_FRAME_PROTOCOL_ERROR
    else if bit_set d0 0x40 && negb allow_rsv1 then ANT_WS_FRAME_PROTOCOL_ERROR
    else if require_mask && negb is_masked then ANT_WS_FRAME_PROTOCOL_ERROR
    else if (8 <=? op) && (negb (bit_set d0 0x80) || (125 <? plen)) then ANT_WS_FRAME_PROTOCOL_ERROR
    else if (8 <=? op) && bit_set d0 0x40 then ANT_WS_FRAME_PROTOCOL_ERROR
    else if plen =? 126 then
      if len <? 4 then ANT_WS_FRAME_INCOMPLETE
      else parse_body malloc_ok data is_masked ((rd data 2 .<< 8) .| rd data 3) 4
    else if plen =? 127 then
      if len <? 10 then ANT_WS_FRAME_INCOMPLETE
      else
        let plen := ant_ws_read_u64_be (drop 2 data) in
        if bit_set plen (1 .<< 63) then ANT_WS_FRAME_PROTOCOL_ERROR
        else parse_body malloc_ok data is_masked plen 10
    else parse_body malloc_ok data is_masked plen 2.

(** [ant_ws_write_u64_be]: the bytes from the last one backwards. *)
Fixpoint write_be (n : nat) (value : Z) (acc : list Z) : list Z :=
  match n with
  | O => acc
  | S n => write_be n (value .>> 8) (value .& 0xff :: acc)
  end.
Definition ant_ws_write_u64_be (value : Z) : list Z := write_be 8 value [].

Inductive enc_result := EncNull | EncFault | EncOk (out : list Z).

(** The first bytes of a frame. *)
Definition encode_header (op plen : Z) (with_mask with_rsv1 : bool) : list Z :=
  let m := if with_mask then 0x80 else 0 in
  (0x80 .| (if with_rsv1 then 0x40 else 0)) .| u8 op ::
  (if plen <? 126 then [m .| u8 plen]
   else if plen <=? 65535 then [m .| 126; u8 (plen .>> 8); u8 (plen .& 0xff)]
   else m .| 127 :: ant_ws_write_u64_be plen).

(** [ant_ws_encode_frame]; a NULL payload is sent as zeros. *)
Definition ant_ws_encode_frame (malloc_ok : Z -> bool) (uv_random : option (list Z))
  (op : Z) (data : option (list Z)) (plen : Z) (with_mask with_rsv1 : bool) : enc_result :=
  let header_len := if 65535 <? plen then 10 else if 126 <=? plen then 4 else 2 in
  let mask_len := if with_mask then 4 else 0 in
  let size := sz (header_len + mask_len + plen) in
  if negb (malloc_ok size) then EncNull
  else
    let header := encode_header op plen with_mask with_rsv1 in
    let body := match data with Some d => take (Z.to_nat plen) d | None => replicate (Z.to_nat plen) 0 end in
    if with_mask then
      match uv_random with
      | None => EncNull
      | Some key =>
          let out := header ++ key ++ xor_mask key body in
          if size <? zlen header + 4 + plen then EncFault else EncOk out
      end
    else if size <? zlen header + plen then EncFault else EncOk (header ++ body).

(** [ant_ws_encode_close_frame]; [reason] is a C string. *)
Definition ant_ws_encode_close_frame (malloc_ok : Z -> bool) (uv_random : option (list Z))
  (code : Z) (reason : list Z) (with_mask : bool) : enc_result :=
  let reason_len := if 123 <? zlen reason then 123 else zlen reason in
  let body := u8 (code .>> 8) :: u8 (code .& 0xff) :: take (Z.to_nat reason_len) reason in
  ant_ws_encode_frame malloc_ok uv_random ANT_WS_OPCODE_CLOSE (Some body) (2 + reason_len) with_mask false.

End Frames.

(** ** Header values *)

Definition is_blank (c : Z) : bool := (c =? 32) || (c =? 9).

Fixpoint skip_while (f : Z -> bool) (s : list Z) : list Z :=
  match s with
  | c :: t => if f c then skip_while f t else s
  | [] => []
  end.
Fixpoint take_while (f : Z -> bool) (s : list Z) : list Z :=
  match s with
  | c :: t => if f c then c :: take_while f t else []
  | [] => []
  end.

(** [while (end > start && (end[-1] == ' ' || end[-1] == '\t')) end--]. *)
Definition rtrim (s : list Z) : list Z := rev (skip_while is_blank (rev s)).

(** The loops of [ant_ws_header_contains_token] ([semi] false) and
    [ant_ws_header_contains_extension] ([semi] true, which ends an item at
    [';'] and skips its parameters), from the suffix [p] on. *)
Fixpoint header_scan (semi : bool) (fuel : nat) (p token : list Z) : bool :=
  match fuel with
  | O => false
  | S fuel =>
      match p with
      | [] => false
      | _ =>
          let start := skip_while (fun c => is_blank c || (c =? 44)) p in
          let item := take_while (fun c => negb (semi && (c =? 59)) && negb (c =? 44)) start in
          let rest := skip_while (fun c => negb (c =? 44)) (drop (length item) start) in
          if (length (rtrim item) =? length token)%nat && strncasecmp_eq (length token) start token then true
          else header_scan semi fuel (match rest with 44 :: t => t | _ => rest end) token
      end
  end.

Definition ant_ws_header_contains_token (value token : option (list Z)) : bool :=
  match value, token with
  | Some v, Some t => if (length t =? 0)%nat then false else header_scan false (length v) v t
  | _, _ => false
  end.

Definition ant_ws_header_contains_extension (value extension : option (list Z)) : bool :=
  match value, extension with
  | Some v, Some t => if (length t =? 0)%nat then false else header_scan true (length v) v t
  | _, _ => false
  end.

(** ** Handshake *)

(** [strcasecmp(a, b) == 0] on C strings. *)
Definition strcasecmp_eq (a b : list Z) : bool :=
  (length a =? length b)%nat && strncasecmp_eq (length a) a b.

Definition ant_http_header_t : Type := option (list Z) * option (list Z).

Fixpoint ant_ws_find_header (headers : list ant_http_header_t) (name : list Z) : option (list Z) :=
  match headers with
  | [] => None
  | (Some n, value) :: rest => if strcasecmp_eq n name then value else ant_ws_find_header rest name
  | (None, _) :: rest => ant_ws_find_header rest name
  end.

Section Handshake.
(** libbase64 and the SHA-1 digest of OpenSSL. *)
Context (base64_decode : list Z -> option (list Z)) (base64_encode : list Z -> list Z).
Context (sha1 : list Z -> option (list Z)) (malloc_ok : Z -> bool).

Definition ant_base64_decode (data : list Z) : option (list Z) :=
  if negb (malloc_ok (zlen data / 4 * 3 + 3)) then None else base64_decode data.

Definition ant_base64_encode (data : list Z) : option (list Z) :=
  if negb (malloc_ok (4 * ((zlen data + 2) / 3) + 1)) then None else Some (base64_encode data).

(** [*key_out] when the handshake is valid. *)
Definition ant_ws_validate_client_handshake (headers : list ant_http_header_t) : option (list Z) :=
  let upgrade := ant_ws_find_header headers (str_bytes "upgrade") in
  let connection := ant_ws_find_header headers (str_bytes "connection") in
  let version := ant_ws_find_header headers (str_bytes "sec-websocket-version") in
  let key := ant_ws_find_header headers (str_bytes "sec-websocket-key") in
  match upgrade with
  | None => None
  | Some u =>
      if negb (strcasecmp_eq u (str_bytes "websocket")) then None
      else if negb (ant_ws_header_contains_token connection (Some (str_bytes "upgrade"))) then None
      else match version with
      | None => None
      | Some v =>
          if negb (bool_decide (v = str_bytes "13")) then None
          else match key with
          | None => None
          | Some k =>
              if (length k <? 16)%nat then None
              else match ant_base64_decode k with
                   | None => None
                   | Some d => if negb (length d =? 16)%nat then None else Some k
                   end
          end
      end
  end.

Definition ANT_WS_GUID : list Z := str_bytes "258EAFA5-E914-47DA-95CA-C5AB0DC85B11".

Definition ant_ws_accept_key (client_key : option (list Z)) : option (list Z) :=
  let key_len := match client_key with Some k => zlen k | None => 0 end in
  match client_key with
  | None => None
  | Some k =>
      if negb (malloc_ok (key_len + zlen ANT_WS_GUID)) then None
      else match sha1 (k ++ ANT_WS_GUID) with
           | None => None
           | Some digest => ant_base64_encode digest
           end
  end.

End Handshake.

(** ** Big-endian lengths *)

Definition be_val (l : list Z) (a : Z) : Z := fold_left (fun a b => a * 256 + b) l a.

Lemma be_val_range l : bytes l -> forall a, 0 <= a ->
  a * 256 ^ zlen l <= be_val l a < (a + 1) * 256 ^ zlen l.
Proof.
  intros H. unfold zlen. induction H as [|b l Hb Hl IH]; intros a Ha; [cbn; lia|].
  unfold is_byte in Hb. unfold be_val in *. cbn [fold_left length].
  rewrite Nat2Z.inj_succ, Z.pow_succ_r by lia. specialize (IH (a * 256 + b) ltac:(lia)).
  pose proof (Z.pow_pos_nonneg 256 (Z.of_nat (length l)) ltac:(lia) ltac:(lia)). nia.
Qed.

(** The shifts and ors of the reader compute the positional value. *)
Lemma read_be l : bytes l -> forall a, 0 <= a -> (a + 1) * 256 ^ zlen l <= 2 ^ 64 ->
  fold_left (fun value b => u64 (value .<< 8) .| b) l a = be_val l a.
Proof.
  intros H. unfold zlen. induction H as [|b l Hb Hl IH]; intros a Ha Hw; [reflexivity|].
  unfold is_byte in Hb. cbn [fold_left length] in *.
  rewrite Nat2Z.inj_succ, Z.pow_succ_r in Hw by lia.
  pose proof (Z.pow_pos_nonneg 256 (Z.of_nat (length l)) ltac:(lia) ltac:(lia)).
  assert (E : u64 (a .<< 8) .| b = a * 256 + b).
  { rewrite wrap_small by (rewrite Z.shiftl_mul_pow2 by lia; nia). rewrite lor_shiftl_add by lia. reflexivity. }
  rewrite E. rewrite IH by nia. reflexivity.
Qed.

Lemma write_be_spec n : forall v l, 0 <= v -> bytes l ->
  bytes (write_be n v l) /\ length (write_be n v l) = (n + length l)%nat /\
  (v < 256 ^ Z.of_nat n -> forall a, be_val (write_be n v l) a = be_val l (a * 256 ^ Z.of_nat n + v)).
Proof.
  induction n as [|n IH]; intros v l Hv Hl; cbn [write_be].
  { splits; auto. intros H a. change (256 ^ Z.of_nat 0) with 1 in *. f_equal. lia. }
  assert (Hb : is_byte (v .& 0xff)).
  { change 0xff with (2 ^ 8 - 1). rewrite land_ones_mod by lia. apply Z.mod_pos_bound. lia. }
  assert (Hs : v .>> 8 = v / 256) by (apply Z.shiftr_div_pow2; lia).
  assert (Hm : v .& 0xff = v mod 256) by (change 0xff with (2 ^ 8 - 1); apply land_ones_mod; lia).
  destruct (IH (v .>> 8) (v .& 0xff :: l)) as (I1 & I2 & I3);
    [rewrite Hs; apply Z.div_pos; lia|constructor; assumption|].
  splits; auto; [rewrite I2; cbn; lia|]. intros Hlt a.
  rewrite Nat2Z.inj_succ, Z.pow_succ_r in Hlt |- * by lia.
  rewrite I3 by (rewrite Hs; apply Z.div_lt_upper_bound; lia).
  unfold be_val. cbn [fold_left]. f_equal. rewrite Hs, Hm.
  pose proof (Z.div_mod v 256 ltac:(lia)). lia.
Qed.

Lemma be_roundtrip v : 0 <= v < 2 ^ 64 -> ant_ws_read_u64_be (ant_ws_write_u64_be v) = v /\
  bytes (ant_ws_write_u64_be v) /\ length (ant_ws_write_u64_be v) = 8%nat.
Proof.
  intros Hv. unfold ant_ws_read_u64_be, ant_ws_write_u64_be.
  destruct (write_be_spec 8 v [] ltac:(lia) ltac:(constructor)) as (H1 & H2 & H3). splits; auto.
  rewrite firstn_all2 by (rewrite H2; cbn; lia). rewrite read_be; auto; [|lia|].
  - rewrite H3 by (cbn; lia). cbn. lia.
  - unfold zlen. rewrite H2. reflexivity || (cbn; lia).
Qed.

Lemma read_range l : bytes l -> (8 <= length l)%nat -> 0 <= ant_ws_read_u64_be l < 2 ^ 64.
Proof.
  intros Hl Hn. unfold ant_ws_read_u64_be. assert (Ht : bytes (take 8 l)) by (apply Forall_take; exact Hl).
  assert (Hz : zlen (take 8 l) = 8) by (unfold zlen; rewrite length_take; lia).
  rewrite read_be; [|exact Ht|lia|rewrite Hz; reflexivity || (cbn; lia)].
  pose proof (be_val_range _ Ht 0 ltac:(lia)) as R. rewrite Hz in R. lia.
Qed.

(** ** Parsing with a 64-bit [size_t] *)

(** A receive buffer: bytes, and less of them than memory can hold. *)
Definition buffer (data : list Z) : Prop := bytes data /\ zlen data < 2 ^ 62.

Definition mask_end (m : bool) (pos : Z) : Z := if m then pos + 4 else pos.

(** The frame whose header ends at [pos]. *)
Definition frame_at (data : list Z) (m : bool) (plen pos : Z) : ant_ws_frame_t :=
  let key := if m then take 4 (drop (Z.to_nat pos) data) else [0; 0; 0; 0] in
  let body := take (Z.to_nat plen) (drop (Z.to_nat (mask_end m pos)) data) in
  let d0 := rd data 0 in
  WsFrame (if m then xor_mask key body else body) plen (mask_end m pos + plen)
    (d0 .& 0x0f) key (bit_set d0 0x80) (bit_set d0 0x40) m.

Lemma body64 malloc_ok data m plen pos : zlen data < 2 ^ 62 -> 0 <= plen < 2 ^ 63 -> 0 <= pos <= 10 ->
  parse_body 64 malloc_ok data m plen pos =
  if zlen data <? mask_end m pos + plen then ANT_WS_FRAME_INCOMPLETE
  else if negb (malloc_ok (plen + 1)) then ANT_WS_FRAME_PROTOCOL_ERROR
  else ANT_WS_FRAME_OK (frame_at data m plen pos).
Proof.
  intros Hd Hp Hpos. unfold parse_body, SIZE_MAX, sz, mask_end, frame_at.
  destruct (Z.ltb_spec (2 ^ 64 - 1) plen); [lia|].
  rewrite (wrap_small 64 plen) by lia. rewrite (wrap_small 64 (plen + 1)) by lia.
  destruct (Z.ltb_spec (plen + 1) (plen + 1)); [lia|]. cbn [orb].
  destruct m; cbn [andb]; rewrite wrap_small by lia; unfold mask_end.
  - destruct (Z.ltb_spec (zlen data) (pos + 4)).
    + destruct (Z.ltb_spec (zlen data) (pos + 4 + plen)); [reflexivity|lia].
    + destruct (Z.ltb_spec (zlen data) (pos + 4 + plen)); reflexivity.
  - destruct (Z.ltb_spec (zlen data) (pos + plen)); reflexivity.
Qed.

Lemma take_drop_app (a b : list Z) n k : (k + n <= length a)%nat ->
  take n (drop k (a ++ b)) = take n (drop k a).
Proof.
  intros H. rewrite drop_app_le by lia. apply take_app_le. rewrite length_drop. lia.
Qed.

Lemma frame_at_app data more m plen pos : 0 <= plen -> 0 <= pos -> (1 <= length data)%nat ->
  mask_end m pos + plen <= zlen data -> frame_at (data ++ more) m plen pos = frame_at data m plen pos.
Proof.
  intros Hp Hpos H1 Hlen. unfold frame_at, mask_end, zlen in *. rewrite rd_app_l by lia.
  destruct m; rewrite !take_drop_app by lia; reflexivity.
Qed.

Lemma body_app malloc_ok data more m plen pos : zlen (data ++ more) < 2 ^ 62 -> 0 <= plen < 2 ^ 63 ->
  0 <= pos <= 10 -> (1 <= length data)%nat ->
  parse_body 64 malloc_ok data m plen pos <> ANT_WS_FRAME_INCOMPLETE ->
  parse_body 64 malloc_ok (data ++ more) m plen pos = parse_body 64 malloc_ok data m plen pos.
Proof.
  intros Hd Hp Hpos H1. pose proof (zlen_app data more) as E. assert (0 <= zlen more) by (unfold zlen; lia).
  rewrite !body64 by lia.
  destruct (Z.ltb_spec (zlen data) (mask_end m pos + plen)); [congruence|]. intros _.
  destruct (Z.ltb_spec (zlen (data ++ more)) (mask_end m pos + plen)); [lia|].
  rewrite frame_at_app by lia. reflexivity.
Qed.

Lemma short_len d1 : is_byte d1 -> 0 <= d1 .& 0x7f < 128.
Proof. intros H. change 0x7f with (2 ^ 7 - 1). rewrite land_ones_mod by lia. apply Z.mod_pos_bound. lia. Qed.

Lemma len16_range a b : is_byte a -> is_byte b -> 0 <= (a .<< 8) .| b < 65536.
Proof. unfold is_byte. intros Ha Hb. rewrite lor_shiftl_add by lia. lia. Qed.

Lemma bit_set_pow2 x k : 0 <= k -> bit_set x (2 ^ k) = Z.testbit x k.
Proof.
  intros Hk. unfold bit_set.
  rewrite land_pow2 by exact Hk. pose proof (Z.pow_pos_nonneg 2 k ltac:(lia) Hk).
  destruct (Z.testbit x k); [destruct (Z.eqb_spec (2 ^ k) 0); [lia|reflexivity]|reflexivity].
Qed.

Lemma len64_range x : 0 <= x < 2 ^ 64 -> bit_set x (1 .<< 63) = false -> x < 2 ^ 63.
Proof.
  intros Hx H. change (1 .<< 63) with (2 ^ 63) in H. rewrite bit_set_pow2 in H by lia.
  destruct (Z.lt_ge_cases x (2 ^ 63)); [assumption|]. exfalso.
  rewrite Z.testbit_eqb in H by lia. rewrite <- (Z.div_unique x (2 ^ 63) 1 (x - 2 ^ 63)) in H by lia.
  discriminate.
Qed.

Section Parse.
Context (malloc_ok : Z -> bool) (require_mask allow_rsv1 : bool).
Abbreviation parse := (fun data => ant_ws_parse_frame 64 malloc_ok data require_mask allow_rsv1).

(** Every answer but "incomplete" stands when more bytes arrive. *)
Lemma parse_app data more : buffer data -> buffer (data ++ more) ->
  parse data <> ANT_WS_FRAME_INCOMPLETE -> parse (data ++ more) = parse data.
Proof.
  intros [Hb _] [Hb2 Hl]. pose proof (zlen_app data more) as E. assert (0 <= zlen more) by (unfold zlen; lia).
  unfold ant_ws_parse_frame. destruct (Z.ltb_spec (zlen data) 2) as [|H2]; [congruence|].
  destruct (Z.ltb_spec (zlen (data ++ more)) 2); [lia|].
  assert (Hlen : (2 <= length data)%nat) by (unfold zlen in *; lia).
  rewrite !(rd_app_l data more 0), !(rd_app_l data more 1) by lia.
  pose proof (short_len (rd data 1) (rd_byte data 1 Hb)) as Hs.
  case_if; [reflexivity|]. case_if; [reflexivity|]. case_if; [reflexivity|]. case_if; [reflexivity|].
  case_if; [reflexivity|]. destruct (Z.eqb_spec (rd data 1 .& 0x7f) 126).
  - destruct (Z.ltb_spec (zlen data) 4); [congruence|]. destruct (Z.ltb_spec (zlen (data ++ more)) 4); [lia|].
    rewrite (rd_app_l data more 2), (rd_app_l data more 3) by (unfold zlen in *; lia).
    apply body_app; try lia. pose proof (len16_range (rd data 2) (rd data 3) (rd_byte _ _ Hb) (rd_byte _ _ Hb)). lia.
  - destruct (Z.eqb_spec (rd data 1 .& 0x7f) 127); [|apply body_app; lia].
    destruct (Z.ltb_spec (zlen data) 10); [congruence|]. destruct (Z.ltb_spec (zlen (data ++ more)) 10); [lia|].
    assert (Er : ant_ws_read_u64_be (drop 2 (data ++ more)) = ant_ws_read_u64_be (drop 2 data)).
    { unfold ant_ws_read_u64_be. rewrite take_drop_app by (unfold zlen in *; lia). reflexivity. }
    rewrite Er. destruct (bit_set (ant_ws_read_u64_be (drop 2 data)) (1 .<< 63)) eqn:Eb; [reflexivity|].
    pose proof (read_range (drop 2 data) ltac:(apply Forall_drop; exact Hb)
      ltac:(rewrite length_drop; unfold zlen in *; lia)) as R.
    pose proof (len64_range _ R Eb). apply body_app; lia.
Qed.

(** The answer never is a fault, and a frame lies inside the buffer. *)
Definition frame_inside (data : list Z) (r : ws_result) : Prop :=
  match r with
  | WS_FAULT => False
  | ANT_WS_FRAME_OK f =>
      consumed_len f <= zlen data /\ payload_len f = zlen (payload f) /\ payload_len f < consumed_len f
  | _ => True
  end.

Lemma xor_mask_length key d : length (xor_mask key d) = length d.
Proof. unfold xor_mask. apply length_imap. Qed.

Lemma body_inside data m plen pos : zlen data < 2 ^ 62 -> 0 <= plen < 2 ^ 63 -> 2 <= pos <= 10 ->
  frame_inside data (parse_body 64 malloc_ok data m plen pos).
Proof.
  intros Hd Hp Hpos. rewrite body64 by lia. unfold frame_at.
  destruct (Z.ltb_spec (zlen data) (mask_end m pos + plen)); [exact I|].
  destruct (malloc_ok (plen + 1)); [|exact I]. cbn [negb frame_inside consumed_len payload_len payload].
  assert (Hm : pos <= mask_end m pos) by (unfold mask_end; destruct m; lia). splits; [lia| |lia].
  assert (Hl : length (take (Z.to_nat plen) (drop (Z.to_nat (mask_end m pos)) data)) = Z.to_nat plen).
  { rewrite length_take, length_drop. unfold zlen in *. lia. }
  unfold zlen. destruct m; rewrite ?xor_mask_length, Hl; lia.
Qed.

Lemma parse_inside data : buffer data -> frame_inside data (parse data).
Proof.
  intros [Hb Hl]. unfold ant_ws_parse_frame. destruct (Z.ltb_spec (zlen data) 2); [exact I|].
  pose proof (short_len (rd data 1) (rd_byte data 1 Hb)) as Hs.
  case_if; [exact I|]. case_if; [exact I|]. case_if; [exact I|]. case_if; [exact I|].
  case_if; [exact I|]. destruct (Z.eqb_spec (rd data 1 .& 0x7f) 126).
  - case_if; [exact I|]. apply body_inside; try lia.
    pose proof (len16_range (rd data 2) (rd data 3) (rd_byte _ _ Hb) (rd_byte _ _ Hb)). lia.
  - destruct (Z.eqb_spec (rd data 1 .& 0x7f) 127); [|apply body_inside; lia].
    destruct (Z.ltb_spec (zlen data) 10); [exact I|].
    destruct (bit_set (ant_ws_read_u64_be (drop 2 data)) (1 .<< 63)) eqn:Eb; [exact I|].
    pose proof (read_range (drop 2 data) ltac:(apply Forall_drop; exact Hb)
      ltac:(rewrite length_drop; unfold zlen in *; lia)) as R.
    pose proof (len64_range _ R Eb). apply body_inside; lia.
Qed.

End Parse.

(** ** Encoding, then parsing *)

Lemma small_cases (P : Z -> bool) n x : forallb P (map Z.of_nat (seq 0 n)) = true ->
  0 <= x < Z.of_nat n -> P x = true.
Proof.
  intros H Hx. rewrite forallb_forall in H. apply H, in_map_iff. exists (Z.to_nat x).
  split; [lia|]. apply in_seq. lia.
Qed.

Lemma first_byte op r : 0 <= op < 16 -> let d := (0x80 .| (if r : bool then 0x40 else 0)) .| u8 op in
  is_byte d /\ d .& 0x0f = op /\ bit_set d 0x30 = false /\ bit_set d 0x40 = r /\ bit_set d 0x80 = true.
Proof.
  intros Hop. cbv zeta.
  pose (P := fun op => let d := (0x80 .| (if r then 0x40 else 0)) .| u8 op in
    (0 <=? d) && (d <? 256) && (d .& 0x0f =? op) && negb (bit_set d 0x30) && eqb (bit_set d 0x40) r && bit_set d 0x80).
  assert (H : P op = true) by (apply (small_cases P 16); [destruct r; vm_compute; reflexivity|lia]).
  unfold P in H. boolprop. unfold is_byte. splits; auto; try lia.
  match goal with H : eqb _ _ = true |- _ => apply eqb_prop in H; exact H end.
Qed.

Lemma second_byte (m : bool) x : 0 <= x < 128 -> let d := (if m then 0x80 else 0) .| x in
  is_byte d /\ d .& 0x7f = x /\ bit_set d 0x80 = m.
Proof.
  intros Hx. cbv zeta.
  pose (P := fun x => let d := (if m then 0x80 else 0) .| x in
    (0 <=? d) && (d <? 256) && (d .& 0x7f =? x) && eqb (bit_set d 0x80) m).
  assert (H : P x = true) by (apply (small_cases P 128); [destruct m; vm_compute; reflexivity|lia]).
  unfold P in H. boolprop. unfold is_byte. splits; auto; try lia.
  match goal with H : eqb _ _ = true |- _ => apply eqb_prop in H; exact H end.
Qed.

(** Masking twice is the identity. *)
Lemma xor_mask_twice key d : xor_mask key (xor_mask key d) = d.
Proof.
  unfold xor_mask. apply list_eq. intros i. rewrite !list_lookup_imap.
  destruct (d !! i) as [x|] eqn:E; cbn; [|reflexivity].
  rewrite Z.lxor_assoc, Z.lxor_nilpotent, Z.lxor_0_r. reflexivity.
Qed.

(** Where the header written for a payload length ends. *)
Definition header_end (plen : Z) : Z := if 65535 <? plen then 10 else if 126 <=? plen then 4 else 2.

Section Roundtrip.
Context (malloc_ok : Z -> bool) (Hmalloc : forall n, malloc_ok n = true).
Context (op : Z) (m r : bool) (plen : Z).
Context (Hop : 0 <= op < 16) (Hplen : 0 <= plen < 2 ^ 61).
Context (Hctl : 8 <= op -> plen <= 125 /\ r = false).
Context (require_mask allow_rsv1 : bool) (Hmask : require_mask = true -> m = true) (Hrsv : r = true -> allow_rsv1 = true).

Lemma header_length : zlen (encode_header op plen m r) = header_end plen.
Proof using Hplen.
  unfold encode_header, header_end, zlen. destruct (be_roundtrip plen ltac:(lia)) as (_ & _ & L).
  destruct (Z.ltb_spec plen 126), (Z.leb_spec plen 65535), (Z.ltb_spec 65535 plen), (Z.leb_spec 126 plen);
    try lia; cbn [length]; rewrite ?L; reflexivity.
Qed.

(** A buffer that starts with the header is parsed past it. *)
Lemma parse_header rest : bytes rest -> zlen rest < 2 ^ 61 ->
  ant_ws_parse_frame 64 malloc_ok (encode_header op plen m r ++ rest) require_mask allow_rsv1 =
  parse_body 64 malloc_ok (encode_header op plen m r ++ rest) m plen (header_end plen).
Proof using Type*.
  intros Hr Hlen. pose proof (first_byte op r Hop) as (F0 & F1 & F2 & F3 & F4).
  pose proof (zlen_app (encode_header op plen m r) rest) as EL. rewrite header_length in EL.
  assert (0 <= zlen rest) by (unfold zlen; lia).
  assert (Hhe : 2 <= header_end plen <= 10) by (unfold header_end; repeat case_if; lia).
  set (data := encode_header op plen m r ++ rest) in *.
  assert (R0 : rd data 0 = (0x80 .| (if r then 0x40 else 0)) .| u8 op) by reflexivity.
  set (x := if plen <? 126 then plen else if plen <=? 65535 then 126 else 127).
  assert (Hx : 0 <= x < 128) by (unfold x; case_ifs; lia).
  assert (R1 : rd data 1 = (if m then 0x80 else 0) .| x).
  { unfold data, encode_header, x. destruct (Z.ltb_spec plen 126); [|destruct (plen <=? 65535); reflexivity].
    cbn. rewrite wrap_small by lia. reflexivity. }
  pose proof (second_byte m x Hx) as (_ & S1 & S2).
  unfold ant_ws_parse_frame. destruct (Z.ltb_spec (zlen data) 2); [lia|].
  rewrite R0, R1, F1, F2, F3, F4, S1, S2. cbn [negb orb].
  assert (G1 : r && negb allow_rsv1 = false) by (destruct r; [rewrite Hrsv by reflexivity|]; reflexivity).
  assert (G2 : require_mask && negb m = false).
  { destruct require_mask; [rewrite (Hmask eq_refl)|]; reflexivity. }
  assert (G3 : (8 <=? op) && (125 <? x) = false).
  { destruct (Z.leb_spec 8 op) as [H8|]; [|reflexivity]. destruct (Hctl H8) as [H125 _]. cbn [andb].
    unfold x. case_ifs; lia. }
  assert (G4 : (8 <=? op) && r = false).
  { destruct (Z.leb_spec 8 op) as [H8|]; [|reflexivity]. destruct (Hctl H8) as [_ ->]. reflexivity. }
  rewrite G1, G2, G3, G4. unfold x, header_end in *.
  destruct (Z.ltb_spec plen 126) as [Hs|Hs].
  { destruct (Z.eqb_spec plen 126); [lia|]. destruct (Z.eqb_spec plen 127); [lia|].
    destruct (Z.ltb_spec 65535 plen); [lia|]. destruct (Z.leb_spec 126 plen); [lia|]. reflexivity. }
  destruct (Z.leb_spec 126 plen); [|lia].
  destruct (Z.leb_spec plen 65535) as [Hm|Hm]; destruct (Z.ltb_spec 65535 plen); try lia.
  - change (126 =? 126) with true. cbv iota. destruct (Z.ltb_spec (zlen data) 4); [lia|]. f_equal.
    unfold data, encode_header. destruct (Z.ltb_spec plen 126); [lia|]. destruct (Z.leb_spec plen 65535); [|lia].
    cbn [app rd nth].
    rewrite Z.shiftr_div_pow2 by lia. change 0xff with (2 ^ 8 - 1) at 1. rewrite land_ones_mod by lia.
    pose proof (Z.div_mod plen 256 ltac:(lia)). pose proof (Z.mod_pos_bound plen 256 ltac:(lia)).
    change (2 ^ 8) with 256. rewrite (wrap_small 8 (plen / 256)).
    2:{ split; [apply Z.div_pos; lia|apply Z.div_lt_upper_bound; lia]. }
    rewrite (wrap_small 8 (plen mod 256)) by lia. rewrite lor_shiftl_add by lia. lia.
  - change (127 =? 126) with false. change (127 =? 127) with true. cbv iota.
    destruct (Z.ltb_spec (zlen data) 10); [lia|].
    destruct (be_roundtrip plen ltac:(lia)) as (W1 & W2 & W3).
    assert (Er : ant_ws_read_u64_be (drop 2 data) = plen).
    { unfold data, encode_header. destruct (Z.ltb_spec plen 126); [lia|]. destruct (Z.leb_spec plen 65535); [lia|].
      cbn [app drop]. rewrite drop_0. rewrite <- W1 at 2. unfold ant_ws_read_u64_be. f_equal. }
    rewrite Er. change (1 .<< 63) with (2 ^ 63). rewrite bit_set_pow2, (testbit_small plen 63) by lia. reflexivity.
Qed.

End Roundtrip.

Lemma take_app_exact (a b : list Z) n : length a = n -> take n (a ++ b) = a.
Proof. intros <-. rewrite take_app_le, firstn_all by lia. reflexivity. Qed.

Lemma drop_app_exact (a b : list Z) n : length a = n -> drop n (a ++ b) = b.
Proof. intros <-. rewrite drop_app_le, drop_all by lia. reflexivity. Qed.

(** What is written after the header. *)
Definition wire_body (m : bool) (key d : list Z) : list Z := if m then key ++ xor_mask key d else d.

Lemma encode_spec malloc_ok key op d m r : (forall n, malloc_ok n = true) -> zlen d < 2 ^ 61 ->
  ant_ws_encode_frame 64 malloc_ok (Some key) op (Some d) (zlen d) m r =
  EncOk (encode_header op (zlen d) m r ++ wire_body m key d).
Proof.
  intros Hm Hd. assert (0 <= zlen d) by (unfold zlen; lia). unfold ant_ws_encode_frame, wire_body.
  assert (Eb : take (Z.to_nat (zlen d)) d = d) by (unfold zlen; rewrite Nat2Z.id; apply firstn_all).
  rewrite Hm, Eb. cbn [negb]. fold (header_end (zlen d)).
  rewrite (header_length op m r (zlen d)) by lia. unfold sz.
  assert (Hhe : 2 <= header_end (zlen d) <= 10) by (unfold header_end; repeat case_if; lia).
  destruct m; rewrite wrap_small by lia.
  - destruct (Z.ltb_spec (header_end (zlen d) + 4 + zlen d) (header_end (zlen d) + 4 + zlen d)); [lia|reflexivity].
  - rewrite Z.add_0_r. destruct (Z.ltb_spec (header_end (zlen d) + zlen d) (header_end (zlen d) + zlen d)); [lia|reflexivity].
Qed.

Lemma xor_byte a b : is_byte a -> is_byte b -> is_byte (a .^ b).
Proof.
  unfold is_byte. intros Ha Hb. assert (0 <= a .^ b) by (apply Z.lxor_nonneg; lia). split; [assumption|].
  destruct (Z.eq_dec (a .^ b) 0); [lia|]. change 256 with (2 ^ 8). apply Z.log2_lt_pow2; [lia|].
  eapply Z.le_lt_trans; [apply Z.log2_lxor; lia|].
  destruct (Z.eq_dec a 0) as [->|], (Z.eq_dec b 0) as [->|]; apply Z.max_lub_lt;
    try (cbn; lia); apply Z.log2_lt_pow2; lia.
Qed.

Lemma xor_mask_bytes key d : bytes key -> bytes d -> bytes (xor_mask key d).
Proof.
  intros Hk Hd. unfold xor_mask. apply Forall_lookup. intros i x. rewrite list_lookup_imap.
  destruct (d !! i) as [y|] eqn:E; cbn; [|discriminate]. intros [= <-].
  apply xor_byte; [eapply Forall_lookup_1; eauto|apply rd_byte; exact Hk].
Qed.

(** ** The properties *)

(** C35: frames survive the wire. With memory and a random mask key to hand,
    for any 4-bit opcode and a payload of less than 2^61 - 100 bytes, for
    control frames (opcode 8 and above) at most 125 bytes and no RSV1 flag,
    what [ant_ws_encode_frame] writes, whatever follows it in the receive
    buffer, is parsed by [ant_ws_parse_frame] as one complete frame with the
    same opcode, flags and payload (unmasked again), consuming exactly the
    bytes written, by a parser that accepts such frames: if it requires a mask
    the frame is masked, and if the frame has the RSV1 flag it allows it. *)
Theorem ws_frame_roundtrip malloc_ok key op d m r require_mask allow_rsv1 rest :
  (forall n, malloc_ok n = true) -> bytes key -> length key = 4%nat -> bytes d -> zlen d < 2 ^ 61 - 100 ->
  0 <= op < 16 -> (8 <= op -> zlen d <= 125 /\ r = false) ->
  (require_mask = true -> m = true) -> (r = true -> allow_rsv1 = true) ->
  bytes rest -> zlen rest + zlen d < 2 ^ 61 - 100 ->
  exists out, ant_ws_encode_frame 64 malloc_ok (Some key) op (Some d) (zlen d) m r = EncOk out /\
    ant_ws_parse_frame 64 malloc_ok (out ++ rest) require_mask allow_rsv1 =
    ANT_WS_FRAME_OK (WsFrame d (zlen d) (zlen out) op (if m then key else [0; 0; 0; 0]) true r m).
Proof.
  intros Hm Hk Hkl Hd Hdl Hop Hctl Hrm Hrsv Hr Hrl. assert (0 <= zlen d) by (unfold zlen; lia).
  assert (0 <= zlen rest) by (unfold zlen; lia).
  eexists. split; [apply encode_spec; auto; lia|].
  set (h := encode_header op (zlen d) m r). set (w := wire_body m key d). set (he := header_end (zlen d)).
  assert (Hw : zlen w = (if m then 4 else 0) + zlen d).
  { unfold w, wire_body, zlen. destruct m; [|reflexivity]. rewrite length_app, xor_mask_length. lia. }
  assert (Hwb : bytes w).
  { unfold w, wire_body. destruct m; [|exact Hd]. apply Forall_app. split; [exact Hk|apply xor_mask_bytes; assumption]. }
  pose proof (header_length op m r (zlen d) ltac:(lia)) as Hh. fold h he in Hh.
  assert (Hhe : 2 <= he <= 10) by (unfold he, header_end; repeat case_if; lia).
  rewrite <- app_assoc.
  pose proof (parse_header malloc_ok Hm op m r (zlen d) Hop ltac:(lia) Hctl require_mask allow_rsv1 Hrm Hrsv
    (w ++ rest) ltac:(apply Forall_app; auto) ltac:(rewrite zlen_app, Hw; destruct m; lia)) as Hp.
  fold h he in Hp. rewrite Hp. clear Hp.
  rewrite body64 by (rewrite ?zlen_app, ?Hh, ?Hw; destruct m; lia).
  rewrite Hm. cbn [negb].
  assert (Hend : mask_end m he + zlen d = zlen (h ++ w)).
  { rewrite zlen_app, Hh, Hw. unfold mask_end. destruct m; lia. }
  destruct (Z.ltb_spec (zlen (h ++ w ++ rest)) (mask_end m he + zlen d)) as [Hlt|_].
  { rewrite !zlen_app in *. lia. }
  f_equal. unfold frame_at. rewrite Hend.
  assert (Hhl : length h = Z.to_nat he) by (unfold zlen in Hh; lia).
  pose proof (first_byte op r Hop) as (_ & F1 & _ & F3 & F4).
  assert (R0 : rd (h ++ w ++ rest) 0 = (0x80 .| (if r then 0x40 else 0)) .| u8 op) by reflexivity.
  rewrite R0, F1, F3, F4. rewrite (drop_app_exact h (w ++ rest)) by exact Hhl.
  assert (Hnat : Z.to_nat (zlen d) = length d) by (unfold zlen; lia). rewrite Hnat.
  unfold w, wire_body, mask_end. destruct m.
  - rewrite <- app_assoc, (take_app_exact key) by exact Hkl.
    replace (drop (Z.to_nat (he + 4)) (h ++ key ++ xor_mask key d ++ rest)) with (xor_mask key d ++ rest).
    + rewrite take_app_exact, xor_mask_twice by apply xor_mask_length. reflexivity.
    + rewrite app_assoc, drop_app_exact; [reflexivity|]. rewrite length_app. lia.
  - rewrite (drop_app_exact h) by exact Hhl. rewrite take_app_exact by reflexivity. reflexivity.
Qed.

Definition all_memory : Z -> bool := fun _ => true.

Lemma ws_frame_roundtrip_witness :
  exists out, ant_ws_encode_frame 64 all_memory (Some [1; 2; 3; 4]) 1 (Some [72; 105]) 2 true false = EncOk out /\
    ant_ws_parse_frame 64 all_memory (out ++ [0x89; 0]) true false =
    ANT_WS_FRAME_OK (WsFrame [72; 105] 2 (zlen out) 1 [1; 2; 3; 4] true false true).
Proof.
  apply (ws_frame_roundtrip all_memory [1; 2; 3; 4] 1 [72; 105] true false true false [0x89; 0]);
    try reflexivity; try lia; try discriminate;
    repeat constructor; vm_compute; congruence.
Defined.

(** Frames are cut out of the stream at the right place, and parsing is
    safe: on any buffer the parser stays inside it; a parsed frame lies
    inside the buffer, every shorter prefix is "incomplete", and neither a
    frame nor a protocol error changes when more bytes arrive. *)
Theorem ws_parse_stream malloc_ok require_mask allow_rsv1 data more :
  buffer data -> buffer (data ++ more) ->
  let parse d := ant_ws_parse_frame 64 malloc_ok d require_mask allow_rsv1 in
  frame_inside data (parse data) /\
  (parse data <> ANT_WS_FRAME_INCOMPLETE -> parse (data ++ more) = parse data) /\
  (forall f n, parse data = ANT_WS_FRAME_OK f -> Z.of_nat n < consumed_len f ->
     parse (take n data) = ANT_WS_FRAME_INCOMPLETE).
Proof.
  intros Hb Hb2 parse. splits.
  - apply parse_inside. exact Hb.
  - apply parse_app; assumption.
  - intros f n Hf Hn.
    assert (Hpre : buffer (take n data)).
    { destruct Hb as [Hb Hl]. split; [apply Forall_take; exact Hb|]. unfold zlen in *. rewrite length_take. lia. }
    destruct (parse (take n data)) eqn:Ep; [reflexivity|exfalso..].
    all: pose proof (parse_app malloc_ok require_mask allow_rsv1 (take n data) (drop n data) Hpre) as Ha;
      rewrite take_drop in Ha; specialize (Ha Hb); cbv beta in Ha; fold (parse data) (parse (take n data)) in Ha;
      rewrite Ep in Ha; specialize (Ha ltac:(discriminate)); rewrite Hf in Ha; try discriminate.
    injection Ha as <-. pose proof (parse_inside malloc_ok require_mask allow_rsv1 (take n data) Hpre) as Hi.
    cbv beta in Hi. fold (parse (take n data)) in Hi. rewrite Ep in Hi. destruct Hi as (Hi & _).
    unfold zlen in Hi. rewrite length_take in Hi. lia.
Qed.

Lemma ws_parse_stream_witness :
  ant_ws_parse_frame 64 all_memory [0x82; 2; 9] false false = ANT_WS_FRAME_INCOMPLETE.
Proof.
  destruct (ws_parse_stream all_memory false false [0x82; 2; 9; 8] []) as (_ & _ & H).
  - split; [repeat constructor; vm_compute; congruence|reflexivity].
  - split; [repeat constructor; vm_compute; congruence|reflexivity].
  - apply (H (WsFrame [9; 8] 2 4 2 [0; 0; 0; 0] true false false) 3%nat); reflexivity.
Defined.

(** With a 32-bit [size_t] a frame of declared length 2^32 - 1 passes every
    check and makes the parser write far outside a one-byte buffer: the sums
    [pos + payload_len] and [payload_len + 1] wrap. *)
Lemma ws_parse_32bit_fault :
  ant_ws_parse_frame 32 all_memory [0x82; 127; 0; 0; 0; 0; 255; 255; 255; 255] false false = WS_FAULT.
Proof. vm_compute. reflexivity. Qed.

(** ** Header values: the specification *)

(** The items between commas. *)
Fixpoint split_commas (s : list Z) : list (list Z) :=
  match s with
  | [] => [[]]
  | c :: t =>
      if c =? 44 then [] :: split_commas t
      else match split_commas t with
           | i :: rest => (c :: i) :: rest
           | [] => [[c]]
           end
  end.

Definition trim (s : list Z) : list Z := rtrim (skip_while is_blank s).
Definition before_semicolon (s : list Z) : list Z := take_while (fun c => negb (c =? 59)) s.
Definition same_text (a b : list Z) : bool := bool_decide (map tolower a = map tolower b).

Definition item_matches (semi : bool) (token item : list Z) : bool :=
  same_text (trim (if semi then before_semicolon item else item)) token.

(** C strings have no NUL inside. *)
Definition c_string (s : list Z) : Prop := Forall (fun c => 0 < c) s.

Lemma split_nonempty s : split_commas s <> [].
Proof. destruct s as [|c t]; cbn; [discriminate|]. destruct (c =? 44); [discriminate|]. destruct (split_commas t); discriminate. Qed.

Lemma split_no_comma a t : Forall (fun c => c <> 44) a ->
  split_commas (a ++ 44 :: t) = a :: split_commas t.
Proof.
  induction 1 as [|c a Hc Ha IH]; [reflexivity|]. cbn [app split_commas].
  destruct (Z.eqb_spec c 44); [contradiction|]. rewrite IH. reflexivity.
Qed.

Lemma split_no_comma_end a : Forall (fun c => c <> 44) a -> split_commas a = [a].
Proof.
  induction 1 as [|c a Hc Ha IH]; [reflexivity|]. cbn [split_commas].
  destruct (Z.eqb_spec c 44); [contradiction|]. rewrite IH. reflexivity.
Qed.

Lemma take_skip f s : take_while f s ++ skip_while f s = s.
Proof. induction s as [|c s IH]; [reflexivity|]. cbn. destruct (f c); cbn; congruence. Qed.

Lemma take_while_all f s : Forall (fun c => f c = true) (take_while f s).
Proof. induction s as [|c s IH]; [constructor|]. cbn. destruct (f c) eqn:E; constructor; auto. Qed.

Lemma skip_while_head f s c t : skip_while f s = c :: t -> f c = false.
Proof. induction s as [|d s IH]; cbn; [discriminate|]. destruct (f d) eqn:E; [exact IH|]. intros [= <- _]. exact E. Qed.

Lemma strncasecmp_same n : forall s t, length t = n -> c_string s -> c_string t -> (n <= length s)%nat ->
  strncasecmp_eq n s t = same_text (take n s) t.
Proof.
  induction n as [|n IH]; intros s t Ht Hs Hc Hn.
  { destruct t; [|discriminate]. rewrite take_0. unfold same_text. symmetry. apply bool_decide_eq_true. reflexivity. }
  destruct s as [|a s]; [cbn in Hn; lia|]. destruct t as [|b t]; [discriminate|].
  inversion_clear Hs as [|? ? Ha Hs']. inversion_clear Hc as [|? ? Hb Hc']. injection Ht as Ht.
  cbn [strncasecmp_eq rd nth drop take]. rewrite !drop_0. cbn [length] in Hn. rewrite IH by (auto; lia).
  destruct (Z.eqb_spec a 0); [lia|]. unfold same_text. cbn [map].
  destruct (Z.eqb_spec (tolower a) (tolower b)) as [E|E]; cbn [negb].
  - apply bool_decide_ext. rewrite E. split; [congruence|]. intros X. injection X as X. exact X.
  - symmetry. apply bool_decide_eq_false. intros X. injection X as X _. contradiction.
Qed.

Lemma same_text_length a b : same_text a b = true -> length a = length b.
Proof.
  unfold same_text. rewrite bool_decide_eq_true. intros H. apply (f_equal length) in H.
  rewrite !length_map in H. exact H.
Qed.

Lemma skip_while_prefix f s : exists a, s = a ++ skip_while f s /\ Forall (fun c => f c = true) a.
Proof. exists (take_while f s). split; [symmetry; apply take_skip|apply take_while_all]. Qed.

Lemma rtrim_prefix s : exists b, s = rtrim s ++ b.
Proof.
  unfold rtrim. destruct (skip_while_prefix is_blank (rev s)) as (a & E & _). exists (rev a).
  rewrite <- rev_app_distr, <- E, rev_involutive. reflexivity.
Qed.

(** Leading blanks and empty items never match. *)
Lemma skip_items semi token : token <> [] -> forall p,
  existsb (item_matches semi token) (split_commas p) =
  existsb (item_matches semi token) (split_commas (skip_while (fun c => is_blank c || (c =? 44)) p)).
Proof.
  intros Hne. induction p as [|c p IH]; [reflexivity|]. cbn [skip_while].
  destruct (is_blank c || (c =? 44)) eqn:E; [|reflexivity]. rewrite <- IH. cbn [split_commas].
  destruct (Z.eqb_spec c 44) as [->|Hc].
  - cbn [existsb]. replace (item_matches semi token []) with false; [reflexivity|]. symmetry.
    unfold item_matches, same_text. apply bool_decide_eq_false. destruct token; [congruence|]. destruct semi; discriminate.
  - rewrite orb_false_r in E. destruct (split_commas p) as [|i rest] eqn:Es; [destruct (split_nonempty p Es)|].
    cbn [existsb]. f_equal. unfold item_matches, trim, before_semicolon. destruct semi.
    + cbn [take_while]. assert (H59 : (c =? 59) = false).
      { unfold is_blank in E. destruct (Z.eqb_spec c 59) as [->|]; [discriminate|reflexivity]. }
      rewrite H59. cbn [negb skip_while]. rewrite E. reflexivity.
    + cbn [skip_while]. rewrite E. reflexivity.
Qed.

Abbreviation not_comma := (fun c => negb (c =? 44)).

(** The item the code cuts out of the full one. *)
Lemma item_of_segment semi s :
  take_while (fun c => negb (semi && (c =? 59)) && negb (c =? 44)) s =
  (if semi then before_semicolon (take_while not_comma s) else take_while not_comma s).
Proof.
  unfold before_semicolon. induction s as [|c s IH]; [destruct semi; reflexivity|]. cbn [take_while].
  destruct (Z.eqb_spec c 44) as [->|]; cbn [negb andb].
  - rewrite andb_false_r. destruct semi; reflexivity.
  - rewrite andb_true_r. destruct semi; cbn [andb].
    + cbn [take_while]. destruct (Z.eqb_spec c 59); cbn [negb]; [reflexivity|]. f_equal; exact IH.
    + cbn [negb]. f_equal; exact IH.
Qed.

Lemma rest_of_segment (semi : bool) s :
  let item := if semi then before_semicolon (take_while not_comma s) else take_while not_comma s in
  skip_while not_comma (drop (length item) s) = skip_while not_comma s.
Proof.
  assert (H : forall a t, Forall (fun c => not_comma c = true) a -> skip_while not_comma (a ++ t) = skip_while not_comma t).
  { induction 1 as [|c a Hc Ha IH]; [reflexivity|]. cbn [app skip_while]. rewrite Hc. exact IH. }
  cbv zeta. set (seg := take_while not_comma s). set (rest := skip_while not_comma s).
  assert (Es : s = seg ++ rest) by (symmetry; apply take_skip).
  assert (Hseg : Forall (fun c => not_comma c = true) seg) by apply take_while_all.
  assert (Hr : skip_while not_comma rest = rest).
  { destruct rest as [|c t] eqn:Er; [reflexivity|]. cbn [skip_while]. rewrite (skip_while_head _ _ _ _ Er). reflexivity. }
  destruct semi.
  - unfold before_semicolon. set (f := fun c => negb (c =? 59)).
    pose proof (take_skip f seg) as Ef.
    assert (Es2 : s = take_while f seg ++ (skip_while f seg ++ rest)) by (rewrite app_assoc, Ef; exact Es).
    replace (drop (length (take_while f seg)) s) with (skip_while f seg ++ rest);
      [|rewrite Es2 at 1; rewrite drop_app_exact; reflexivity]. rewrite H; [exact Hr|].
    rewrite <- Ef in Hseg. apply Forall_app in Hseg. apply Hseg.
  - replace (drop (length seg) s) with rest; [exact Hr|].
    rewrite Es at 1. rewrite drop_app_exact by reflexivity. reflexivity.
Qed.

(** One item: the code's comparison against the specification's. *)
Lemma item_test (semi : bool) start token : c_string start -> c_string token -> token <> [] ->
  (forall c t, start = c :: t -> is_blank c = false) ->
  let seg := take_while not_comma start in
  let item := if semi then before_semicolon seg else seg in
  (length (rtrim item) =? length token)%nat && strncasecmp_eq (length token) start token =
  item_matches semi token seg.
Proof.
  intros Hs Ht Hne Hblank. cbv zeta. set (seg := take_while not_comma start).
  set (item := if semi then before_semicolon seg else seg).
  assert (Hpre : exists b, start = item ++ b).
  { pose proof (take_skip not_comma start) as E1. fold seg in E1. unfold item. destruct semi; [|eauto].
    pose proof (take_skip (fun c => negb (c =? 59)) seg) as E2. unfold before_semicolon.
    eexists. rewrite <- E1 at 1. rewrite <- E2 at 1. rewrite <- app_assoc. reflexivity. }
  destruct Hpre as (b & Eb). destruct (rtrim_prefix item) as (b2 & Eb2).
  assert (Htrim : trim item = rtrim item).
  { unfold trim. f_equal. destruct item as [|c t]; [reflexivity|]. cbn [skip_while].
    rewrite (Hblank c (t ++ b)); [reflexivity|]. rewrite Eb. reflexivity. }
  unfold item_matches. fold item. rewrite Htrim.
  destruct (Nat.eqb_spec (length (rtrim item)) (length token)) as [E|E]; cbn [andb].
  - assert (Hst : start = rtrim item ++ (b2 ++ b)) by (rewrite app_assoc, <- Eb2; exact Eb).
    rewrite strncasecmp_same; auto.
    + rewrite Hst at 1. rewrite take_app_exact by exact E. reflexivity.
    + rewrite Hst, length_app. lia.
  - destruct (same_text (rtrim item) token) eqn:Em; [|reflexivity].
    apply same_text_length in Em. contradiction.
Qed.

Lemma c_string_skip f s : c_string s -> c_string (skip_while f s).
Proof.
  intros H. destruct (skip_while_prefix f s) as (a & E & _). rewrite E in H. apply Forall_app in H. apply H.
Qed.

Lemma skip_length f s : (length (skip_while f s) <= length s)%nat.
Proof. destruct (skip_while_prefix f s) as (a & E & _). rewrite E at 2. rewrite length_app. lia. Qed.

Lemma header_scan_spec (semi : bool) token : c_string token -> token <> [] -> forall fuel p,
  c_string p -> (length p <= fuel)%nat ->
  header_scan semi fuel p token = existsb (item_matches semi token) (split_commas p).
Proof.
  intros Ht Hne. assert (Hempty : item_matches semi token [] = false).
  { unfold item_matches, same_text. apply bool_decide_eq_false. destruct token; [congruence|]. destruct semi; discriminate. }
  induction fuel as [|fuel IH]; intros p Hp Hl.
  { destruct p; [|cbn in Hl; lia]. cbn. rewrite Hempty. reflexivity. }
  cbn [header_scan]. destruct p as [|c0 p0]; [cbn; rewrite Hempty; reflexivity|].
  set (p := c0 :: p0) in *. rewrite (skip_items semi token Hne p).
  set (start := skip_while (fun c => is_blank c || (c =? 44)) p).
  assert (Hsc : c_string start) by (apply c_string_skip; exact Hp).
  assert (Hstart : forall c t, start = c :: t -> is_blank c = false /\ c <> 44).
  { intros c t E. apply skip_while_head in E. boolprop. auto. }
  pose proof (skip_length (fun c => is_blank c || (c =? 44)) p) as Hsl. fold start in Hsl.
  rewrite item_of_segment, rest_of_segment.
  rewrite (item_test semi start token Hsc Ht Hne (fun c t E => proj1 (Hstart c t E))).
  set (seg := take_while not_comma start). set (rest := skip_while not_comma start).
  assert (Es : start = seg ++ rest) by (symmetry; apply take_skip).
  assert (Hseg : Forall (fun c => c <> 44) seg).
  { eapply Forall_impl; [apply take_while_all|]. cbv beta. intros c Hc. boolprop. assumption. }
  assert (Hrc : c_string rest) by (apply c_string_skip; exact Hsc).
  destruct rest as [|c t] eqn:Er.
  - rewrite app_nil_r in Es. rewrite Es, split_no_comma_end by exact Hseg. cbn [existsb].
    rewrite IH by (auto; cbn; lia). cbn. rewrite Hempty. destruct (item_matches semi token seg); reflexivity.
  - assert (c = 44) as ->.
    { pose proof (skip_while_head not_comma start c t Er) as Hc. cbv beta in Hc. boolprop. assumption. }
    assert (Hlt : (length t < length p)%nat).
    { rewrite Es, length_app in Hsl. cbn [length] in *. lia. }
    inversion_clear Hrc as [|? ? _ Htc].
    rewrite IH by (auto; lia). rewrite Es, split_no_comma by exact Hseg. cbn [existsb].
    destruct (item_matches semi token seg); reflexivity.
Qed.

(** The header scanners implement the comma-separated list syntax: a
    token (an extension name) is found exactly when some item between commas,
    trimmed of blanks (and cut at its first [';']), equals it up to letter
    case. *)
Theorem ws_header_tokens_correct value token : c_string value -> c_string token -> token <> [] ->
  ant_ws_header_contains_token (Some value) (Some token) =
    existsb (fun item => same_text (trim item) token) (split_commas value) /\
  ant_ws_header_contains_extension (Some value) (Some token) =
    existsb (fun item => same_text (trim (before_semicolon item)) token) (split_commas value).
Proof.
  intros Hv Ht Hne. unfold ant_ws_header_contains_token, ant_ws_header_contains_extension.
  destruct (Nat.eqb_spec (length token) 0) as [E|E]; [destruct token; [congruence|discriminate]|].
  rewrite !header_scan_spec by auto. split; reflexivity.
Qed.

Lemma ws_header_tokens_correct_witness :
  ant_ws_header_contains_extension (Some (str_bytes "foo , Permessage-Deflate ; a=b"))
    (Some (str_bytes "permessage-deflate")) = true.
Proof.
  rewrite (proj2 (ws_header_tokens_correct (str_bytes "foo , Permessage-Deflate ; a=b")
    (str_bytes "permessage-deflate") ltac:(repeat constructor) ltac:(repeat constructor) ltac:(discriminate))).
  vm_compute. reflexivity.
Defined.
