(* ===== verification/Uri.v ===== *)
(** * URI encoding

    [src/src/modules/uri.c]: [encodeURI], [encodeURIComponent], [decodeURI],
    [decodeURIComponent], [escape] and [unescape].  The functions work on the
    bytes of the argument up to its first NUL ([js_getstr] and [strlen]) and
    write into a buffer sized from the input length; the extent of what they
    write is checked against it. *)

From S2P Require Import Prelude Utf8Scan FlatString Utf8Codec.

(** ** Tables *)

(** The entries above 127 are 0. *)
Definition uri_unreserved : list Z :=
  [0; 0; 0; 0; 0; 0; 0; 0; 0; 0; 0; 0; 0; 0; 0; 0;
   0; 0; 0; 0; 0; 0; 0; 0; 0; 0; 0; 0; 0; 0; 0; 0;
   0; 1; 0; 0; 0; 0; 0; 1; 1; 1; 1; 0; 0; 1; 1; 0;
   1; 1; 1; 1; 1; 1; 1; 1; 1; 1; 0; 0; 0; 0; 0; 0;
   0; 1; 1; 1; 1; 1; 1; 1; 1; 1; 1; 1; 1; 1; 1; 1;
   1; 1; 1; 1; 1; 1; 1; 1; 1; 1; 1; 0; 0; 0; 0; 1;
   0; 1; 1; 1; 1; 1; 1; 1; 1; 1; 1; 1; 1; 1; 1; 1;
   1; 1; 1; 1; 1; 1; 1; 1; 1; 1; 1; 0; 0; 0; 1; 0].

Definition uri_reserved : list Z :=
  [0; 0; 0; 0; 0; 0; 0; 0; 0; 0; 0; 0; 0; 0; 0; 0;
   0; 0; 0; 0; 0; 0; 0; 0; 0; 0; 0; 0; 0; 0; 0; 0;
   0; 0; 0; 1; 1; 0; 1; 0; 0; 0; 0; 1; 1; 0; 0; 1;
   0; 0; 0; 0; 0; 0; 0; 0; 0; 0; 1; 1; 0; 1; 0; 1;
   1; 0; 0; 0; 0; 0; 0; 0; 0; 0; 0; 0; 0; 0; 0; 0;
   0; 0; 0; 0; 0; 0; 0; 0; 0; 0; 0; 0; 0; 0; 0; 0;
   0; 0; 0; 0; 0; 0; 0; 0; 0; 0; 0; 0; 0; 0; 0; 0;
   0; 0; 0; 0; 0; 0; 0; 0; 0; 0; 0; 0; 0; 0; 0; 0].

Definition is_uri_unreserved (c : Z) : bool := negb (rd uri_unreserved (Z.to_nat (u8 c)) =? 0).
Definition is_uri_reserved (c : Z) : bool := negb (rd uri_reserved (Z.to_nat (u8 c)) =? 0).

Definition is_valid_continuation (c : Z) : bool := c .& 0xC0 =? 0x80.

Definition is_lone_surrogate (s : list Z) (seq_len : Z) : bool :=
  if negb (seq_len =? 3) then false
  else if negb (rd s 0 =? 0xED) then false
  else (0xA0 <=? rd s 1) && (rd s 1 <=? 0xBF).

(** [snprintf] with ["%%%02X"]. *)
Definition hex_upper (d : Z) : Z := if d <? 10 then 48 + d else 55 + d.
Definition pct (b : Z) : list Z := [37; hex_upper (b .>> 4); hex_upper (b .& 15)].

(** What a call ends in; [Overrun] is a write outside the buffer. *)
Inductive uri_result := UriOk (out : list Z) | UriMalformed | UriOom | Overrun.

(** The terminated output against the capacity. *)
Definition store (capacity : Z) (out : list Z) : uri_result :=
  if zlen out + 1 <=? capacity then UriOk out else Overrun.

(** The arguments of a call, each with what [js_getstr] makes of it: the bytes
    of a string, or [None] (NULL) for any other value. *)
Definition js_args : Type := list (option (list Z)).

(** The prologue of every function: no argument, no string, or [f]. *)
Definition with_string (no_string : list Z) (f : list Z -> uri_result) (args : js_args) : uri_result :=
  match args with
  | [] => UriOk (str_bytes "undefined")
  | None :: _ => UriOk no_string
  | Some s :: _ => f s
  end.

(** ** Encoding *)

(** The loop of [js_encodeURIComponent] and [js_encodeURI] on the rest of the
    string; [keep] is the test that copies a character. *)
Fixpoint encode_loop (keep : Z -> bool) (fuel : nat) (s : list Z) : option (list Z) :=
  match fuel with
  | O => Some []
  | S fuel =>
      match s with
      | [] => Some []
      | c :: t =>
          if keep c then option_map (cons c) (encode_loop keep fuel t)
          else
            let seq_len := utf8_sequence_length c in
            if seq_len <? 0 then None
            else if zlen s <? seq_len then None
            else
              let seq := take (Z.to_nat seq_len) s in
              if existsb (fun b => negb (is_valid_continuation b)) (drop 1 seq) then None
              else if is_lone_surrogate s seq_len then None
              else option_map (app (concat (map pct seq))) (encode_loop keep fuel (drop (Z.to_nat seq_len) s))
      end
  end.

Definition encode_with (keep : Z -> bool) (malloc_ok : Z -> bool) (arg : list Z) : uri_result :=
  let str := c_str arg in
  let out_cap := u64 (zlen str * 12 + 1) in
  if negb (malloc_ok out_cap) then UriOom
  else match encode_loop keep (length str) str with
       | Some out => store out_cap out
       | None => UriMalformed
       end.

Definition js_encodeURIComponent (malloc_ok : Z -> bool) (args : js_args) : uri_result :=
  with_string [] (encode_with is_uri_unreserved malloc_ok) args.
Definition js_encodeURI (malloc_ok : Z -> bool) (args : js_args) : uri_result :=
  with_string [] (encode_with (fun c => is_uri_unreserved c || is_uri_reserved c) malloc_ok) args.

(** ** Decoding *)

(** [decode_escape_sequence] at the head of [s]: the byte and the rest. *)
Definition decode_escape_sequence (s : list Z) : option (Z * list Z) :=
  if zlen s <=? 2 then None
  else if negb (rd s 0 =? 37) then None
  else
    let high := hex_digit (rd s 1) in
    let low := hex_digit (rd s 2) in
    if (high <? 0) || (low <? 0) then None
    else Some (u8 ((high .<< 4) .| low), drop 3 s).

(** [n] escaped continuation bytes. *)
Fixpoint decode_conts (n : nat) (s : list Z) : option (list Z * list Z) :=
  match n with
  | O => Some ([], s)
  | S n =>
      match decode_escape_sequence s with
      | None => None
      | Some (b, s) =>
          if negb (is_valid_continuation b) then None
          else match decode_conts n s with
               | Some (bs, s) => Some (b :: bs, s)
               | None => None
               end
      end
  end.

(** The loop of [js_decodeURIComponent] ([reserved] false) and [js_decodeURI]
    ([reserved] true, which leaves escapes of reserved characters alone). *)
Fixpoint decode_loop (reserved : bool) (fuel : nat) (s : list Z) : option (list Z) :=
  match fuel with
  | O => Some []
  | S fuel =>
      match s with
      | [] => Some []
      | c :: t =>
          if negb (c =? 37) then option_map (cons c) (decode_loop reserved fuel t)
          else match decode_escape_sequence s with
          | None => None
          | Some (first_byte, rest) =>
              if reserved && (first_byte <? 128) && is_uri_reserved first_byte
              then option_map (app (take 3 s)) (decode_loop reserved fuel rest)
              else
                let seq_len := utf8_sequence_length first_byte in
                if seq_len <? 0 then None
                else match decode_conts (Z.to_nat (seq_len - 1)) rest with
                     | None => None
                     | Some (bs, rest) =>
                         option_map (fun out => first_byte :: bs ++ out) (decode_loop reserved fuel rest)
                     end
          end
      end
  end.

Definition decode_with (reserved : bool) (malloc_ok : Z -> bool) (arg : list Z) : uri_result :=
  let str := c_str arg in
  let out_cap := u64 (zlen str + 1) in
  if negb (malloc_ok out_cap) then UriOom
  else match decode_loop reserved (length str) str with
       | Some out => store out_cap out
       | None => UriMalformed
       end.

Definition js_decodeURIComponent (malloc_ok : Z -> bool) (args : js_args) : uri_result :=
  with_string [] (decode_with false malloc_ok) args.
Definition js_decodeURI (malloc_ok : Z -> bool) (args : js_args) : uri_result :=
  with_string [] (decode_with true malloc_ok) args.

(** ** [escape] and [unescape] *)

Definition is_escape_unreserved (c : Z) : bool :=
  ((65 <=? c) && (c <=? 90)) || ((97 <=? c) && (c <=? 122)) || ((48 <=? c) && (c <=? 57)) ||
  (c =? 64) || (c =? 42) || (c =? 95) || (c =? 43) || (c =? 45) || (c =? 46) || (c =? 47).

Definition js_escape (malloc_ok : Z -> bool) (args : js_args) : uri_result :=
  with_string (str_bytes "undefined") (fun arg =>
  let str := c_str arg in
  let out_cap := u64 (zlen str * 6 + 1) in
  if negb (malloc_ok out_cap) then UriOom
  else store out_cap (concat (map (fun c => if is_escape_unreserved c then [c] else pct c) str))) args.

Fixpoint unescape_loop (fuel : nat) (s : list Z) : list Z :=
  match fuel with
  | O => []
  | S fuel =>
      match s with
      | [] => []
      | c :: t =>
          let high := hex_digit (rd s 1) in
          let low := hex_digit (rd s 2) in
          if (c =? 37) && (2 <? zlen s) && ((0 <=? high) && (0 <=? low))
          then u8 ((high .<< 4) .| low) :: unescape_loop fuel (drop 3 s)
          else c :: unescape_loop fuel t
      end
  end.

Definition js_unescape (malloc_ok : Z -> bool) (args : js_args) : uri_result :=
  with_string (str_bytes "undefined") (fun arg =>
  let str := c_str arg in
  let out_cap := u64 (zlen str + 1) in
  if negb (malloc_ok out_cap) then UriOom
  else store out_cap (unescape_loop (length str) str)) args.

(** ** Escapes *)

Lemma hex_upper_digit d : 0 <= d < 16 -> hex_digit (hex_upper d) = d.
Proof.
  intros Hd. assert (Hb : is_byte d) by (unfold is_byte; lia).
  by_bytes d (fun d => negb (d <? 16) || (hex_digit (hex_upper d) =? d)).
  destruct (Z.ltb_spec d 16); [|lia]. cbn [negb orb] in Hbyte. boolprop. exact Hbyte.
Qed.

Lemma pct_digits b : is_byte b -> hex_digit (hex_upper (b .>> 4)) = b .>> 4 /\
  hex_digit (hex_upper (b .& 15)) = b .& 15 /\ 0 <= b .>> 4 /\ 0 <= b .& 15 /\
  u8 (((b .>> 4) .<< 4) .| (b .& 15)) = b.
Proof.
  intros Hb. by_bytes b (fun b => (0 <=? b .>> 4) && (b .>> 4 <? 16) && (0 <=? b .& 15) && (b .& 15 <? 16) &&
    (u8 (((b .>> 4) .<< 4) .| (b .& 15)) =? b)).
  boolprop. splits; auto using hex_upper_digit.
Qed.

Lemma decode_pct b rest : is_byte b -> decode_escape_sequence (pct b ++ rest) = Some (b, rest).
Proof.
  intros Hb. unfold decode_escape_sequence, pct. cbn [app rd nth drop].
  destruct (pct_digits b Hb) as (-> & -> & H1 & H2 & ->).
  destruct (Z.leb_spec (zlen (37 :: hex_upper (b .>> 4) :: hex_upper (b .& 15) :: rest)) 2) as [H|_].
  { unfold zlen in H. cbn [length] in H. lia. }
  change (37 =? 37) with true. cbn [negb].
  destruct (Z.ltb_spec (b .>> 4) 0); [lia|]. destruct (Z.ltb_spec (b .& 15) 0); [lia|]. cbn [orb].
  rewrite drop_0. reflexivity.
Qed.

Lemma decode_conts_pct bs rest : bytes bs -> Forall (fun b => is_valid_continuation b = true) bs ->
  decode_conts (length bs) (concat (map pct bs) ++ rest) = Some (bs, rest).
Proof.
  induction bs as [|b bs IH]; intros Hb Hc; [reflexivity|].
  inversion_clear Hb. inversion_clear Hc as [|? ? Hv Hc']. cbn [length decode_conts map concat].
  rewrite <- app_assoc, decode_pct, Hv, IH by assumption. reflexivity.
Qed.

Lemma seq_len_cases c : is_byte c -> let n := utf8_sequence_length c in
  n = -1 \/ n = 1 \/ n = 2 \/ n = 3 \/ n = 4.
Proof. intros _. unfold utf8_sequence_length. repeat case_if; auto. Qed.

Lemma pct_nonzero b : is_byte b -> Forall (fun c => c <> 0) (pct b).
Proof.
  intros Hb. unfold pct. by_bytes b (fun b => negb (hex_upper (b .>> 4) =? 0) && negb (hex_upper (b .& 15) =? 0)).
  boolprop. repeat constructor; auto; lia.
Qed.

(** ** Encoding, then decoding *)

Section Inverse.
Context (keep : Z -> bool) (reserved : bool).
Context (Hkeep : forall c, keep c = true -> c <> 37).
Context (Hres : reserved = true -> forall c, is_byte c -> is_uri_reserved c = true -> keep c = true).

Lemma pct_length bs : length (concat (map pct bs)) = (3 * length bs)%nat.
Proof. induction bs as [|b bs IH]; [reflexivity|]. cbn [map concat]. rewrite length_app, IH. cbn [length pct]. lia. Qed.

Lemma encode_decode fuel : forall s out, bytes s -> Forall (fun c => c <> 0) s -> (length s <= fuel)%nat ->
  encode_loop keep fuel s = Some out ->
  (length out <= 3 * length s)%nat /\ Forall (fun c => c <> 0) out /\
  forall fuel2, (length out <= fuel2)%nat -> decode_loop reserved fuel2 out = Some s.
Proof using Type*.
  induction fuel as [|fuel IH]; intros s out Hb Hz Hl E; cbn [encode_loop] in E.
  { destruct s; [|cbn in Hl; lia]. injection E as <-. splits; auto. intros [|f] _; reflexivity. }
  destruct s as [|c t]; [injection E as <-; splits; auto; intros [|f] _; reflexivity|].
  pose proof Hb as Hb0. inversion_clear Hb as [|? ? Hc Ht]. inversion Hz as [|? ? Hc0 Ht0]. subst.
  cbn [length] in Hl.
  destruct (keep c) eqn:Ek.
  - destruct (encode_loop keep fuel t) as [o|] eqn:Eo; [|discriminate]. injection E as <-.
    destruct (IH t o Ht Ht0 ltac:(lia) Eo) as (I1 & I2 & I3). splits.
    + cbn [length]. lia.
    + constructor; assumption.
    + intros fuel2 H2. destruct fuel2 as [|f2]; [cbn in H2; lia|]. cbn [decode_loop].
      specialize (Hkeep c Ek). destruct (Z.eqb_spec c 37); [contradiction|]. cbn [negb].
      rewrite I3 by (cbn in H2; lia). reflexivity.
  - pose proof (seq_len_cases c Hc) as Hn. cbv zeta in Hn. set (n := utf8_sequence_length c) in *.
    destruct (Z.ltb_spec n 0); [discriminate|]. destruct (Z.ltb_spec (zlen (c :: t)) n) as [|Hlen]; [discriminate|].
    unfold zlen in Hlen. cbn [length] in Hlen.
    set (sq := take (Z.to_nat n) (c :: t)) in *. set (tl := drop (Z.to_nat n) (c :: t)) in *.
    assert (Esq : c :: t = sq ++ tl) by (symmetry; apply take_drop).
    assert (Hsq : exists cs, sq = c :: cs /\ length cs = Z.to_nat (n - 1)).
    { unfold sq. replace (Z.to_nat n) with (S (Z.to_nat (n - 1))) by lia. cbn [take]. eexists. split; [reflexivity|].
      rewrite length_take. lia. }
    destruct Hsq as (cs & Ecs & Lcs). rewrite Ecs in E. cbn [drop] in E. rewrite drop_0 in E.
    destruct (existsb (fun b => negb (is_valid_continuation b)) cs) eqn:Ex; [discriminate|].
    destruct (is_lone_surrogate (c :: t) n); [discriminate|].
    destruct (encode_loop keep fuel tl) as [o|] eqn:Eo; [|discriminate].
    assert (out = (pct c ++ concat (map pct cs)) ++ o) as -> by (injection E as E; symmetry; exact E). clear E.
    rewrite Ecs in Esq. cbn [app] in Esq. injection Esq as Et.
    assert (Hcs : bytes cs /\ bytes tl) by (rewrite Et in Ht; apply Forall_app in Ht; exact Ht).
    assert (Hz2 : Forall (fun c => c <> 0) tl) by (rewrite Et in Ht0; apply Forall_app in Ht0; apply Ht0).
    assert (Htl : (length t = length cs + length tl)%nat) by (rewrite Et, length_app; reflexivity).
    assert (Hval : Forall (fun b => is_valid_continuation b = true) cs).
    { apply Forall_forall. intros b Hin. destruct (is_valid_continuation b) eqn:Ev; [reflexivity|].
      exfalso. rewrite <- not_true_iff_false in Ex. apply Ex, existsb_exists. exists b.
      split; [apply list_elem_of_In; exact Hin|rewrite Ev; reflexivity]. }
    destruct (IH tl o (proj2 Hcs) Hz2 ltac:(lia) Eo) as (I1 & I2 & I3).
    splits.
    + rewrite !length_app, pct_length. cbn [length pct]. lia.
    + rewrite !Forall_app. splits; [apply pct_nonzero; exact Hc| |exact I2].
      clear - Hcs. destruct Hcs as [Hcs _]. induction Hcs; [constructor|]. cbn [map concat]. apply Forall_app.
      split; [apply pct_nonzero; assumption|assumption].
    + intros fuel2 H2. rewrite <- app_assoc. destruct fuel2 as [|f2]; [cbn in H2; lia|].
      rewrite !length_app, pct_length in H2. cbn [length pct] in H2.
      set (esc := concat (map pct cs) ++ o). change (pct c ++ esc) with (37 :: drop 1 (pct c ++ esc)).
      cbn [decode_loop]. change (37 :: drop 1 (pct c ++ esc)) with (pct c ++ esc).
      change (37 =? 37) with true. cbn [negb]. rewrite decode_pct by exact Hc. fold n.
      assert (Hr : reserved && (c <? 128) && is_uri_reserved c = false).
      { destruct reserved eqn:Er; [|reflexivity]. destruct (is_uri_reserved c) eqn:Eu; [|apply andb_false_r].
        rewrite (Hres eq_refl c Hc Eu) in Ek. discriminate. }
      rewrite Hr. destruct (Z.ltb_spec n 0); [lia|]. rewrite <- Lcs. unfold esc.
      rewrite decode_conts_pct by (try apply Hcs; assumption). rewrite I3 by lia. cbn [option_map].
      rewrite Et. reflexivity.
Qed.

End Inverse.

Lemma unreserved_byte c : is_uri_unreserved c = true -> u8 c = u8 37 -> False.
Proof. unfold is_uri_unreserved. intros H E. rewrite E in H. discriminate. Qed.

Lemma reserved_byte c : is_uri_reserved c = true -> u8 c = u8 37 -> False.
Proof. unfold is_uri_reserved. intros H E. rewrite E in H. discriminate. Qed.

(** ** [escape], then [unescape] *)

Lemma unescape_escape s : forall fuel, bytes s ->
  let e := concat (map (fun c => if is_escape_unreserved c then [c] else pct c) s) in
  (length e <= fuel)%nat -> unescape_loop fuel e = s.
Proof.
  induction s as [|c s IH]; intros fuel Hb; cbv zeta; intros Hf; [destruct fuel; reflexivity|].
  inversion_clear Hb as [|? ? Hc Hs]. cbn [map concat] in *. set (e := concat (map _ s)) in *.
  destruct (is_escape_unreserved c) eqn:Eu.
  - cbn [app length] in *. destruct fuel as [|fuel]; [lia|]. cbn [unescape_loop].
    destruct (Z.eqb_spec c 37) as [->|]; [discriminate|]. cbn [andb]. rewrite IH by (auto; lia). reflexivity.
  - rewrite length_app in Hf. cbn [length pct] in Hf. destruct fuel as [|fuel]; [lia|].
    unfold pct. cbn [app unescape_loop rd nth drop]. destruct (pct_digits c Hc) as (-> & -> & H1 & H2 & ->).
    destruct (Z.ltb_spec 2 (zlen (37 :: hex_upper (c .>> 4) :: hex_upper (c .& 15) :: e))) as [_|H].
    2:{ unfold zlen in H. cbn [length] in H. lia. }
    change (37 =? 37) with true. destruct (Z.leb_spec 0 (c .>> 4)); [|lia]. destruct (Z.leb_spec 0 (c .& 15)); [|lia].
    cbn [andb]. rewrite drop_0, IH by (auto; lia). reflexivity.
Qed.

Lemma escape_length s : (length (concat (map (fun c => if is_escape_unreserved c then [c] else pct c) s)) <= 3 * length s)%nat.
Proof.
  induction s as [|c s IH]; [cbn; lia|]. cbn [map concat length]. rewrite length_app.
  destruct (is_escape_unreserved c); cbn [length pct]; lia.
Qed.

Lemma escape_nonzero s : bytes s -> Forall (fun c => c <> 0) s ->
  Forall (fun c => c <> 0) (concat (map (fun c => if is_escape_unreserved c then [c] else pct c) s)).
Proof.
  induction s as [|c s IH]; intros Hb Hz; [constructor|]. inversion_clear Hb. inversion_clear Hz.
  cbn [map concat]. apply Forall_app. split; [|auto]. destruct (is_escape_unreserved c); [|apply pct_nonzero; assumption].
  repeat constructor. assumption.
Qed.

(** ** Bounds of the decoders *)

Lemma decode_escape_length s b rest : decode_escape_sequence s = Some (b, rest) ->
  (length rest + 3 = length s)%nat /\ rest = drop 3 s.
Proof.
  unfold decode_escape_sequence, zlen. destruct (Z.leb_spec (Z.of_nat (length s)) 2); [discriminate|].
  repeat case_if; try discriminate. intros [= _ <-]. rewrite length_drop. split; [lia|reflexivity].
Qed.

Lemma decode_conts_length n : forall s bs rest, decode_conts n s = Some (bs, rest) ->
  (length bs + length rest <= length s)%nat.
Proof.
  induction n as [|n IH]; intros s bs rest; cbn [decode_conts]; [intros [= <- <-]; cbn; lia|].
  destruct (decode_escape_sequence s) as [[b r]|] eqn:E; [|discriminate]. apply decode_escape_length in E as [E _].
  case_if; [discriminate|]. destruct (decode_conts n r) as [[bs' r']|] eqn:E2; [|discriminate].
  intros [= <- <-]. apply IH in E2. cbn [length]. lia.
Qed.

Lemma decode_length reserved fuel : forall s out, decode_loop reserved fuel s = Some out ->
  (length out <= length s)%nat.
Proof.
  induction fuel as [|fuel IH]; intros s out E; cbn [decode_loop] in E; [injection E as <-; cbn; lia|].
  destruct s as [|c t]; [injection E as <-; cbn; lia|]. destruct (negb (c =? 37)).
  - destruct (decode_loop reserved fuel t) as [o|] eqn:Eo; [|discriminate]. injection E as <-.
    apply IH in Eo. cbn [length]. lia.
  - set (s := c :: t) in *. destruct (decode_escape_sequence s) as [[b r]|] eqn:Ee; [|discriminate].
    apply decode_escape_length in Ee as [Ee _]. destruct (reserved && (b <? 128) && is_uri_reserved b).
    + destruct (decode_loop reserved fuel r) as [o|] eqn:Eo; [|discriminate].
      assert (out = take 3 s ++ o) as -> by (injection E as E; symmetry; exact E).
      apply IH in Eo. rewrite length_app, length_take. lia.
    + destruct (utf8_sequence_length b <? 0); [discriminate|].
      destruct (decode_conts (Z.to_nat (utf8_sequence_length b - 1)) r) as [[bs r']|] eqn:Ec; [|discriminate].
      destruct (decode_loop reserved fuel r') as [o|] eqn:Eo; [|discriminate]. injection E as <-.
      apply IH in Eo. apply decode_conts_length in Ec. cbn [length]. rewrite length_app. lia.
Qed.

Lemma unescape_length fuel : forall s, (length (unescape_loop fuel s) <= length s)%nat.
Proof.
  induction fuel as [|fuel IH]; intros s; cbn [unescape_loop]; [cbn; lia|]. destruct s as [|c t]; [cbn; lia|].
  set (s := c :: t). case_if.
  - boolprop. specialize (IH (drop 3 s)). rewrite length_drop in IH. unfold zlen in *. cbn [length]. lia.
  - specialize (IH t). unfold s; cbn [length]. lia.
Qed.

Lemma uri_store_ok capacity out : zlen out + 1 <= capacity -> store capacity out = UriOk out.
Proof. intros H. unfold store. destruct (Z.leb_spec (zlen out + 1) capacity); [reflexivity|lia]. Qed.

(** ** Encoding of text *)

Lemma seq_len_ranges c : is_byte c -> utf8_sequence_length c =
  if c <? 0x80 then 1 else if c <? 0xC0 then -1 else if c <? 0xE0 then 2 else if c <? 0xF0 then 3
  else if c <? 0xF8 then 4 else -1.
Proof.
  intros Hc. by_bytes c (fun c => utf8_sequence_length c =?
    if c <? 0x80 then 1 else if c <? 0xC0 then -1 else if c <? 0xE0 then 2 else if c <? 0xF0 then 3
    else if c <? 0xF8 then 4 else -1). boolprop. exact Hbyte.
Qed.

Lemma cont_valid r : 0 <= r < 64 -> is_valid_continuation (0x80 + r) = true.
Proof.
  intros Hr. assert (Hb : is_byte (0x80 + r)) by (unfold is_byte; lia).
  pose (P := fun c => negb ((0x80 <=? c) && (c <? 0xC0)) || is_valid_continuation c).
  assert (H : P (0x80 + r) = true) by (apply byte_forall; [vm_compute; reflexivity|exact Hb]).
  unfold P in H. destruct (Z.leb_spec 0x80 (0x80 + r)), (Z.ltb_spec (0x80 + r) 0xC0); try lia. exact H.
Qed.

Definition is_surrogate (cp : Z) : bool := (0xD800 <=? cp) && (cp <=? 0xDFFF).

(** What one code point becomes. *)
Definition uri_escape (keep : Z -> bool) (cp : Z) : list Z :=
  if (cp <? 0x80) && keep cp then [cp] else concat (map pct (utf8_enc cp)).

(** The facts about an encoding that the loop tests. *)
Lemma uri_enc_shape cp : is_cp cp -> exists c cs, utf8_enc cp = c :: cs /\ is_byte c /\
  (c <? 0x80) = (cp <? 0x80) /\ (cp < 0x80 -> c = cp) /\
  utf8_sequence_length c = zlen (c :: cs) /\ Forall (fun b => is_valid_continuation b = true) cs /\
  (forall t, is_lone_surrogate (c :: cs ++ t) (zlen (c :: cs)) = is_surrogate cp).
Proof.
  intros Hcp. pose proof (enc_bytes cp Hcp) as Hb. revert Hb. unfold is_cp in Hcp. unfold utf8_enc, is_surrogate, is_lone_surrogate.
  destruct (Z.ltb_spec cp 0x80) as [H1|H1].
  { intros Hb. inversion_clear Hb as [|? ? Hc _]. exists cp, []. rewrite (seq_len_ranges cp Hc).
    destruct (Z.ltb_spec cp 0x80); [|lia]. splits; auto. intros t. change (zlen [cp] =? 3) with false.
    destruct (Z.leb_spec 0xD800 cp); [lia|]. reflexivity. }
  destruct (Z.ltb_spec cp 0x800) as [H2|H2].
  { intros Hb. inversion_clear Hb as [|? ? Hc _]. do 2 eexists. split; [reflexivity|].
    assert (0 <= cp mod 64 < 64 /\ 2 <= cp / 64 < 32) by (Z.to_euclidean_division_equations; lia).
    rewrite (seq_len_ranges _ Hc). splits; auto; try lia.
    - destruct (Z.ltb_spec (0xC0 + cp / 64) 0x80), (Z.ltb_spec (0xC0 + cp / 64) 0xC0),
        (Z.ltb_spec (0xC0 + cp / 64) 0xE0); try lia. reflexivity.
    - constructor; [apply cont_valid; lia|constructor].
    - intros t. change (zlen [192 + cp / 64; 128 + cp mod 64] =? 3) with false.
      destruct (Z.leb_spec 0xD800 cp); [lia|]. reflexivity. }
  destruct (Z.ltb_spec cp 0x10000) as [H3|H3].
  { intros Hb. inversion_clear Hb as [|? ? Hc _]. do 2 eexists. split; [reflexivity|].
    assert (cp = cp / 4096 * 4096 + (cp / 64) mod 64 * 64 + cp mod 64 /\ 0 <= cp mod 64 < 64 /\
            0 <= (cp / 64) mod 64 < 64 /\ 0 <= cp / 4096 < 16)
      as (Hcp' & Hr & Hm & Hq) by (Z.to_euclidean_division_equations; lia).
    rewrite (seq_len_ranges _ Hc). splits; auto; try lia.
    - destruct (Z.ltb_spec (0xE0 + cp / 4096) 0x80), (Z.ltb_spec (0xE0 + cp / 4096) 0xC0),
        (Z.ltb_spec (0xE0 + cp / 4096) 0xE0), (Z.ltb_spec (0xE0 + cp / 4096) 0xF0); try lia. reflexivity.
    - repeat constructor; apply cont_valid; lia.
    - intros t. change (zlen [224 + cp / 4096; 128 + (cp / 64) mod 64; 128 + cp mod 64] =? 3) with true.
      cbn [rd nth negb app]. destruct (Z.eqb_spec (0xE0 + cp / 4096) 0xED); cbn [negb];
        destruct (Z.leb_spec 0xD800 cp), (Z.leb_spec cp 0xDFFF), (Z.leb_spec 0xA0 (0x80 + (cp / 64) mod 64)),
          (Z.leb_spec (0x80 + (cp / 64) mod 64) 0xBF); try lia; reflexivity. }
  intros Hb. inversion_clear Hb as [|? ? Hc _]. do 2 eexists. split; [reflexivity|].
  assert (0 <= cp mod 64 < 64 /\ 0 <= (cp / 64) mod 64 < 64 /\ 0 <= (cp / 4096) mod 64 < 64 /\ 0 <= cp / 262144 < 8)
    as (Hr & Hm & Hm2 & Hq) by (Z.to_euclidean_division_equations; lia).
  rewrite (seq_len_ranges _ Hc). splits; auto; try lia.
  - destruct (Z.ltb_spec (0xF0 + cp / 262144) 0x80), (Z.ltb_spec (0xF0 + cp / 262144) 0xC0),
      (Z.ltb_spec (0xF0 + cp / 262144) 0xE0), (Z.ltb_spec (0xF0 + cp / 262144) 0xF0),
      (Z.ltb_spec (0xF0 + cp / 262144) 0xF8); try lia. reflexivity.
  - repeat constructor; apply cont_valid; lia.
  - intros t. change (zlen [240 + cp / 262144; 128 + (cp / 4096) mod 64; 128 + (cp / 64) mod 64; 128 + cp mod 64] =? 3)
      with false. destruct (Z.leb_spec cp 0xDFFF); [lia|]. rewrite andb_false_r. reflexivity.
Qed.

Section EncodeText.
Context (keep : Z -> bool) (Hascii : forall c, is_byte c -> keep c = true -> c < 0x80).

Lemma encode_text fuel : forall cps, Forall is_cp cps -> (length (utf8_of cps) <= fuel)%nat ->
  encode_loop keep fuel (utf8_of cps) =
  if existsb is_surrogate cps then None else Some (concat (map (uri_escape keep) cps)).
Proof using Type*.
  induction fuel as [|fuel IH]; intros cps Hc Hl.
  { destruct cps as [|cp cps]; [reflexivity|]. exfalso. unfold utf8_of in Hl. cbn [map concat] in Hl.
    rewrite length_app in Hl. pose proof (utf8_enc_length cp). lia. }
  destruct cps as [|cp cps]; [reflexivity|]. inversion_clear Hc as [|? ? Hcp Hcs].
  change (utf8_of (cp :: cps)) with (utf8_enc cp ++ utf8_of cps) in *. rewrite length_app in Hl.
  specialize (IH cps Hcs). cbn [existsb map concat].
  destruct (uri_enc_shape cp Hcp) as (c & cs & E & Hb & E80 & Esmall & Elen & Hval & Hsur).
  unfold uri_escape at 1. rewrite E in *. cbn [app encode_loop]. cbn [length] in Hl.
  destruct (keep c) eqn:Ek.
  - pose proof (Hascii c Hb Ek) as H80.
    destruct (Z.ltb_spec cp 0x80) as [Hs|Hs]; destruct (Z.ltb_spec c 0x80); try discriminate; try lia.
    specialize (Esmall Hs). subst c. rewrite Ek. cbn [andb].
    assert (cs = []) as ->.
    { rewrite (seq_len_ranges cp Hb) in Elen. destruct (Z.ltb_spec cp 0x80); [|lia].
      unfold zlen in Elen. cbn [length] in Elen. destruct cs; [reflexivity|cbn in Elen; lia]. }
    assert (is_surrogate cp = false) as -> by (unfold is_surrogate; destruct (Z.leb_spec 0xD800 cp); [lia|reflexivity]).
    cbn [app orb]. rewrite IH by lia. destruct (existsb is_surrogate cps); reflexivity.
  - assert (Hk : (cp <? 0x80) && keep cp = false).
    { destruct (Z.ltb_spec cp 0x80) as [Hs|]; [|reflexivity]. rewrite <- (Esmall Hs), Ek. reflexivity. }
    rewrite Hk, Elen. set (n := zlen (c :: cs)) in *.
    assert (Hn : Z.to_nat n = length (c :: cs)) by (unfold n, zlen; lia).
    destruct (Z.ltb_spec n 0); [unfold n, zlen in *; lia|].
    destruct (Z.ltb_spec (zlen (c :: cs ++ utf8_of cps)) n) as [Hlt|_].
    { unfold n, zlen in Hlt. cbn [length] in Hlt. rewrite length_app in Hlt. lia. }
    change (c :: cs ++ utf8_of cps) with ((c :: cs) ++ utf8_of cps). rewrite Hn.
    rewrite take_app_length, drop_app_length. cbn [drop]. rewrite drop_0.
    assert (Hex : existsb (fun b => negb (is_valid_continuation b)) cs = false).
    { clear - Hval. induction Hval as [|b cs Hb _ IH]; [reflexivity|]. cbn. rewrite Hb. exact IH. }
    rewrite Hex. change ((c :: cs) ++ utf8_of cps) with (c :: cs ++ utf8_of cps). rewrite Hsur.
    destruct (is_surrogate cp); [reflexivity|]. cbn [orb]. rewrite IH by lia.
    destruct (existsb is_surrogate cps); reflexivity.
Qed.

End EncodeText.

(** ** The properties *)

Lemma keep_component c : is_uri_unreserved c = true -> c <> 37.
Proof. intros H ->. discriminate. Qed.

Lemma keep_uri c : is_uri_unreserved c || is_uri_reserved c = true -> c <> 37.
Proof. intros H ->. discriminate. Qed.

Lemma ascii_only (f : Z -> bool) : forallb (fun c => negb (f c) || (c <? 0x80)) all_bytes = true ->
  forall c, is_byte c -> f c = true -> c < 0x80.
Proof.
  intros H c Hc Hf. pose proof (byte_forall _ H c Hc) as E. cbv beta in E. rewrite Hf in E. cbn in E. boolprop. exact E.
Qed.

(** The strings whose output buffers a 64-bit [size_t] can size. *)
Definition uri_size (s : list Z) : Prop := zlen s < 2 ^ 58.

Lemma size_u64 n : 0 <= n < 2 ^ 64 -> u64 n = n.
Proof. apply Z.mod_small. Qed.

(** One encoder and the matching decoder. *)
Lemma with_roundtrip keep reserved malloc_ok s out : bytes s -> uri_size s -> (forall n, malloc_ok n = true) ->
  (forall c, keep c = true -> c <> 37) ->
  (reserved = true -> forall c, is_byte c -> is_uri_reserved c = true -> keep c = true) ->
  encode_with keep malloc_ok s = UriOk out -> decode_with reserved malloc_ok out = UriOk (c_str s).
Proof.
  intros Hb Hz Hm Hk Hr. unfold encode_with, decode_with. rewrite !Hm. cbn [negb].
  destruct (encode_loop keep (length (c_str s)) (c_str s)) as [o|] eqn:E; [|discriminate].
  pose proof (c_str_length s). unfold uri_size, zlen in Hz.
  destruct (encode_decode keep reserved Hk Hr _ _ _ (c_str_bytes s Hb) (c_str_nonzero s) (le_n _) E) as (H1 & H2 & H3).
  unfold store at 1. case_if; [|discriminate]. intros [= <-]. rewrite c_str_id by exact H2.
  rewrite H3 by lia. pose proof (decode_length reserved (length o) o (c_str s) (H3 _ (le_n _))).
  apply uri_store_ok. rewrite size_u64; unfold zlen; lia.
Qed.

(** C40: decoding undoes encoding, when memory is granted: for any string of
    bytes, [decodeURIComponent] and [decodeURI] return the bytes that
    [encodeURIComponent] and [encodeURI] encoded, and [unescape] those that
    [escape] did (up to the first NUL), inside the buffers they allocate. *)
Theorem uri_roundtrip malloc_ok s : bytes s -> uri_size s -> (forall n, malloc_ok n = true) ->
  (forall out, js_encodeURIComponent malloc_ok [Some s] = UriOk out ->
     js_decodeURIComponent malloc_ok [Some out] = UriOk (c_str s)) /\
  (forall out, js_encodeURI malloc_ok [Some s] = UriOk out ->
     js_decodeURI malloc_ok [Some out] = UriOk (c_str s)) /\
  (exists out, js_escape malloc_ok [Some s] = UriOk out /\
     js_unescape malloc_ok [Some out] = UriOk (c_str s)).
Proof.
  intros Hb Hz Hm. splits.
  - intros out. apply with_roundtrip; auto using keep_component. discriminate.
  - intros out. apply with_roundtrip; auto using keep_uri. intros _ c _ Hc. rewrite Hc. apply orb_true_r.
  - unfold js_escape, js_unescape, with_string. rewrite !Hm. cbn [negb].
    pose proof (c_str_length s). unfold uri_size, zlen in Hz.
    set (e := concat (map (fun c => if is_escape_unreserved c then [c] else pct c) (c_str s))).
    pose proof (escape_length (c_str s)) as Hl. fold e in Hl. exists e.
    rewrite uri_store_ok by (rewrite size_u64; unfold zlen; lia). split; [reflexivity|].
    rewrite c_str_id by (apply escape_nonzero; [apply c_str_bytes; exact Hb|apply c_str_nonzero]).
    pose proof (unescape_length (length e) e) as Hu.
    pose proof (unescape_escape (c_str s) (length e) (c_str_bytes s Hb) (le_n _)) as Hue. fold e in Hue.
    rewrite Hue in *. rewrite Hm. cbn [negb]. apply uri_store_ok. rewrite size_u64; unfold zlen; lia.
Qed.

Definition all_memory : Z -> bool := fun _ => true.

Lemma uri_roundtrip_witness :
  js_decodeURI all_memory [Some [37; 67; 51; 37; 65; 57; 35; 37; 50; 53]] = UriOk [0xC3; 0xA9; 35; 37].
Proof.
  destruct (uri_roundtrip all_memory [0xC3; 0xA9; 35; 37]) as (_ & H & _);
    [repeat constructor; vm_compute; congruence|reflexivity|reflexivity|].
  apply H. vm_compute. reflexivity.
Defined.

(** The encoders escape exactly what they should: on a string of code
    points without NUL they fail with a URI error exactly when there is a
    lone surrogate, and otherwise copy the characters of their set and write
    every other one as the escapes of its UTF-8 bytes, within the buffer. *)
Theorem uri_encode_correct malloc_ok cps : (forall n, malloc_ok n = true) -> uri_size (utf8_of cps) ->
  Forall is_cp cps -> Forall (fun c => c <> 0) (utf8_of cps) ->
  let expect keep := if existsb is_surrogate cps then UriMalformed
                     else UriOk (concat (map (uri_escape keep) cps)) in
  js_encodeURIComponent malloc_ok [Some (utf8_of cps)] = expect is_uri_unreserved /\
  js_encodeURI malloc_ok [Some (utf8_of cps)] = expect (fun c => is_uri_unreserved c || is_uri_reserved c).
Proof.
  intros Hm Hsz Hc Hz. unfold uri_size, zlen in Hsz.
  assert (H : forall keep, (forall c, is_byte c -> keep c = true -> c < 0x80) -> (forall c, keep c = true -> c <> 37) ->
    encode_with keep malloc_ok (utf8_of cps) =
    if existsb is_surrogate cps then UriMalformed else UriOk (concat (map (uri_escape keep) cps))).
  { intros keep Ha Hk. unfold encode_with. rewrite Hm, c_str_id by exact Hz. cbn [negb].
    pose proof (encode_text keep Ha (length (utf8_of cps)) cps Hc (le_n _)) as E.
    destruct (existsb is_surrogate cps); rewrite E; [reflexivity|].
    destruct (encode_decode keep false Hk ltac:(discriminate) _ _ _ (utf8_of_bytes cps Hc) Hz (le_n _) E) as (H1 & _).
    apply uri_store_ok. rewrite size_u64; unfold zlen; lia. }
  split; apply H; auto using keep_component, keep_uri; apply ascii_only; vm_compute; reflexivity.
Qed.

Lemma uri_encode_correct_witness :
  js_encodeURIComponent all_memory [Some (utf8_of [97; 0x20AC; 47])] =
  UriOk (97 :: concat (map pct [0xE2; 0x82; 0xAC; 47])).
Proof.
  destruct (uri_encode_correct all_memory [97; 0x20AC; 47]) as [H _]; [reflexivity|reflexivity| | |].
  - repeat constructor; vm_compute; congruence.
  - repeat constructor; vm_compute; congruence.
  - rewrite H. vm_compute. reflexivity.
Defined.

(** The part of a string after a NUL is lost, and an escaped overlong form
    of NUL is accepted. *)
Lemma uri_nul_truncates : js_encodeURIComponent all_memory [Some [97; 0; 98]] = UriOk [97].
Proof. reflexivity. Qed.

Lemma uri_overlong_accepted :
  js_decodeURIComponent all_memory [Some [37; 67; 48; 37; 56; 48]] = UriOk [0xC0; 0x80] /\
  utf8_validate_bytes [0xC0; 0x80] 2 = false.
Proof. vm_compute. auto. Qed.
