(* ===== verification/Shapes.v ===== *)
(** * Hidden classes: the property table of a shape

    [src/src/shapes.c] and [src/include/shapes.h].  A shape lists the
    properties of the objects that share it: an array of keys in insertion
    order, in which a deleted property leaves a tombstone, and a hash index
    from encoded keys to slots.  Inline caches remember a shape and a slot and
    are valid while the global counter [ant_ic_epoch_counter] has not moved.

    This file models the table half of [struct ant_shape] and every operation
    that works on one shape, with the globals they touch: the epoch counter,
    the byte count and the pool of index entries.  The transition tree between
    shapes and its collection are not modelled here. *)

From S2P Require Import Prelude.

(** ** Data *)

(** The tag [type] of a property with the member of the union it selects. *)
Inductive shape_key :=
| ANT_SHAPE_KEY_STRING (interned : Z)
| ANT_SHAPE_KEY_SYMBOL (sym_off : Z)
| ANT_SHAPE_KEY_DELETED.

#[global] Instance shape_key_eq_dec : EqDecision shape_key.
Proof. solve_decision. Defined.

Record ant_shape_prop_t := ShapeProp {
  pkey : shape_key; attrs : Z; has_getter : Z; has_setter : Z; getter : Z; setter : Z }.

(** [count] is the length of [props]; [index] is the uthash table. *)
Record ant_shape := Shape {
  ref_count : Z; cap : Z; deleted_count : Z; inobj_limit : Z; absence_guard_epoch : Z;
  props : list ant_shape_prop_t; index : gmap Z nat }.

(** [shape->count], a [uint32_t]. *)
Definition ant_shape_count (s : ant_shape) : Z := Z.of_nat (length (props s)).

(** The globals, and the number of allocation requests so far. *)
Record env := Env { ic_epoch : Z; shape_bytes : Z; entry_pool_len : Z; requests : nat }.

Definition set_props (s : ant_shape) ps := Shape (ref_count s) (cap s) (deleted_count s)
  (inobj_limit s) (absence_guard_epoch s) ps (index s).
Definition set_index (s : ant_shape) ix := Shape (ref_count s) (cap s) (deleted_count s)
  (inobj_limit s) (absence_guard_epoch s) (props s) ix.
Definition set_cap (s : ant_shape) c := Shape (ref_count s) c (deleted_count s)
  (inobj_limit s) (absence_guard_epoch s) (props s) (index s).
Definition set_deleted (s : ant_shape) d := Shape (ref_count s) (cap s) d
  (inobj_limit s) (absence_guard_epoch s) (props s) (index s).
Definition set_guard (s : ant_shape) g := Shape (ref_count s) (cap s) (deleted_count s)
  (inobj_limit s) g (props s) (index s).
Definition set_refs (s : ant_shape) r := Shape r (cap s) (deleted_count s)
  (inobj_limit s) (absence_guard_epoch s) (props s) (index s).

Definition add_bytes (e : env) (n : Z) :=
  Env (ic_epoch e) (u64 (shape_bytes e + n)) (entry_pool_len e) (requests e).
Definition set_pool (e : env) (n : Z) := Env (ic_epoch e) (shape_bytes e) n (requests e).

Definition ANT_INOBJ_MAX_SLOTS : Z := 4.
Definition SHAPE_ENTRY_POOL_MAX : Z := 1024.
Definition SHAPE_COMPACT_MIN_TOMBSTONES : Z := 32.
Definition ANT_PROP_ATTR_CONFIGURABLE : Z := 1 .<< 2.
Definition ANT_PROP_ATTR_DEFAULT : Z := 7.

(** ** Keys and the epoch *)

Definition shape_key_interned (interned : Z) : Z := u64 (interned .<< 1).
Definition shape_key_symbol (sym_off : Z) : Z := u64 (sym_off .<< 1) .| 1.

(** [type == ANT_SHAPE_KEY_SYMBOL ? shape_key_symbol(..) : shape_key_interned(..)]. *)
Definition key_code (k : shape_key) : Z :=
  match k with
  | ANT_SHAPE_KEY_SYMBOL sym_off => shape_key_symbol sym_off
  | ANT_SHAPE_KEY_STRING interned => shape_key_interned interned
  | ANT_SHAPE_KEY_DELETED => shape_key_interned 0
  end.

Definition is_deleted (p : ant_shape_prop_t) : bool :=
  match pkey p with ANT_SHAPE_KEY_DELETED => true | _ => false end.

Definition ant_ic_epoch_bump (e : env) : env :=
  let c := u32 (ic_epoch e + 1) in
  Env (if c =? 0 then 1 else c) (shape_bytes e) (entry_pool_len e) (requests e).

Definition shape_invalidate_guarded_absence (e : env) (s : ant_shape) : env * ant_shape :=
  if absence_guard_epoch s =? 0 then (e, s)
  else if negb (absence_guard_epoch s =? ic_epoch e) then (e, set_guard s 0)
  else (ant_ic_epoch_bump e, set_guard s 0).

Definition shape_clamp_inobj_limit (limit : Z) : Z :=
  if ANT_INOBJ_MAX_SLOTS <? limit then ANT_INOBJ_MAX_SLOTS else limit.

Section Code.
(** Which [malloc], [calloc] and [realloc] requests succeed, and the sizes
    of the C types. *)
Context (grant : nat -> bool) (sizeof_shape sizeof_prop sizeof_entry : Z).

Definition shape_request (e : env) : bool * env :=
  (grant (requests e), Env (ic_epoch e) (shape_bytes e) (entry_pool_len e) (S (requests e))).

Definition shape_entry_alloc (e : env) : bool * env :=
  if 0 <? entry_pool_len e then (true, set_pool e (entry_pool_len e - 1)) else shape_request e.

Definition shape_entry_free (e : env) : env :=
  if entry_pool_len e <? SHAPE_ENTRY_POOL_MAX then set_pool e (entry_pool_len e + 1) else e.

(** ** Operations on one shape *)

Definition shape_lookup (s : ant_shape) (key : Z) : option nat := index s !! key.

(** The loop of [shape_rebuild_index] from property [i] on. *)
Fixpoint rebuild_loop (e : env) (ps : list ant_shape_prop_t) (i : nat) (ix : gmap Z nat)
  : bool * env * gmap Z nat :=
  match ps with
  | [] => (true, e, ix)
  | p :: ps =>
      if is_deleted p then rebuild_loop e ps (S i) ix
      else
        let '(ok, e) := shape_entry_alloc e in
        if negb ok then (false, e, ix)
        else rebuild_loop (add_bytes e sizeof_entry) ps (S i) (<[key_code (pkey p) := i]> ix)
  end.

Definition shape_rebuild_index (e : env) (s : ant_shape) : bool * env * ant_shape :=
  let e := Nat.iter (size (index s)) shape_entry_free e in
  let '(ok, e, ix) := rebuild_loop e (props s) 0 ∅ in
  (ok, e, set_index s ix).

(** [while (new_cap < needed) new_cap *= 2]. *)
Fixpoint grow_cap (fuel : nat) (new_cap needed : Z) : Z :=
  match fuel with
  | O => new_cap
  | S fuel => if new_cap <? needed then grow_cap fuel (u32 (new_cap * 2)) needed else new_cap
  end.

Definition shape_ensure_capacity (e : env) (s : ant_shape) (needed : Z) : bool * env * ant_shape :=
  if needed <=? cap s then (true, e, s)
  else
    let new_cap := grow_cap 32 (if cap s =? 0 then 8 else u32 (cap s * 2)) needed in
    let '(ok, e) := shape_request e in
    if negb ok then (false, e, s)
    else (true, add_bytes e (u32 (new_cap - cap s) * sizeof_prop), set_cap s new_cap).

Definition set_attrs (a : Z) (p : ant_shape_prop_t) : ant_shape_prop_t :=
  ShapeProp (pkey p) a (has_getter p) (has_setter p) (getter p) (setter p).

(** [shape_add_key]: the slot, or [None] for [false]. *)
Definition shape_add_key (e : env) (s : ant_shape) (k : shape_key) (a : Z)
  : option nat * env * ant_shape :=
  match shape_lookup s (key_code k) with
  | Some slot => (Some slot, ant_ic_epoch_bump e, set_props s (alter (set_attrs a) slot (props s)))
  | None =>
      let '(ok, e, s) := shape_ensure_capacity e s (ant_shape_count s + 1) in
      if negb ok then (None, e, s)
      else
        let slot := length (props s) in
        let s := set_props s (props s ++ [ShapeProp k a 0 0 0 0]) in
        let '(ok, e) := shape_entry_alloc e in
        if negb ok then (None, e, s)
        else
          let e := add_bytes e sizeof_entry in
          let s := set_index s (<[key_code k := slot]> (index s)) in
          let '(e, s) := match k with
                         | ANT_SHAPE_KEY_STRING _ => shape_invalidate_guarded_absence e s
                         | _ => (e, s)
                         end in
          (Some slot, e, s)
  end.

Definition ant_shape_add_interned e s interned a := shape_add_key e s (ANT_SHAPE_KEY_STRING interned) a.
Definition ant_shape_add_symbol e s sym_off a := shape_add_key e s (ANT_SHAPE_KEY_SYMBOL sym_off) a.

(** [ant_shape_lookup_interned] and [ant_shape_lookup_symbol]: an [int32_t]. *)
Definition slot_result (r : option nat) : Z :=
  match r with Some slot => to_i32 (Z.of_nat slot) | None => -1 end.
Definition ant_shape_lookup_interned (s : ant_shape) (interned : Z) : Z :=
  slot_result (shape_lookup s (shape_key_interned interned)).
Definition ant_shape_lookup_symbol (s : ant_shape) (sym_off : Z) : Z :=
  slot_result (shape_lookup s (shape_key_symbol sym_off)).

Definition ant_shape_guard_absence (e : env) (s : ant_shape) : ant_shape := set_guard s (ic_epoch e).

(** What [memset] and the new tag leave in a removed slot. *)
Definition tombstone : ant_shape_prop_t := ShapeProp ANT_SHAPE_KEY_DELETED 0 0 0 0 0.

(** The trailing tombstones: properties from the last one on. *)
Fixpoint trailing (rps : list ant_shape_prop_t) : nat :=
  match rps with
  | p :: rps => if is_deleted p then S (trailing rps) else O
  | [] => O
  end.

(** [while (count > 0 && props[count - 1].type == DELETED)]. *)
Definition trim_tombstones (s : ant_shape) : ant_shape :=
  let n := trailing (rev (props s)) in
  set_deleted (set_props s (take (length (props s) - n) (props s)))
              (u32 (deleted_count s - Z.of_nat n)).

Definition ant_shape_remove_slot (e : env) (s : ant_shape) (slot : nat) : bool * env * ant_shape :=
  match props s !! slot with
  | None => (false, e, s)
  | Some dp =>
      if is_deleted dp then (false, e, s)
      else
        let del_key := key_code (pkey dp) in
        let '(e, s) := match shape_lookup s del_key with
                       | Some _ => (shape_entry_free e, set_index s (delete del_key (index s)))
                       | None => (e, s)
                       end in
        let s := set_deleted (set_props s (<[slot := tombstone]> (props s)))
                             (u32 (deleted_count s + 1)) in
        (true, ant_ic_epoch_bump e, trim_tombstones s)
  end.

Definition ant_shape_should_compact (s : ant_shape) : bool :=
  if deleted_count s <? SHAPE_COMPACT_MIN_TOMBSTONES then false
  else u32 (ant_shape_count s - deleted_count s) <=? deleted_count s.

(** The loop of [ant_shape_compact]: [kept] are the properties written below
    [dst], which never overtakes the source. *)
Fixpoint compact_loop (ps kept : list ant_shape_prop_t) (ix : gmap Z nat)
  : list ant_shape_prop_t * gmap Z nat :=
  match ps with
  | [] => (kept, ix)
  | p :: ps =>
      if is_deleted p then compact_loop ps kept ix
      else
        let key := key_code (pkey p) in
        let ix := match ix !! key with Some _ => <[key := length kept]> ix | None => ix end in
        compact_loop ps (kept ++ [p]) ix
  end.

Definition ant_shape_compact (s : ant_shape) : nat * ant_shape :=
  if deleted_count s =? 0 then (length (props s), s)
  else
    let '(kept, ix) := compact_loop (props s) [] (index s) in
    (length kept, set_deleted (set_index (set_props s kept) ix) 0).

Definition ant_shape_prop_at (s : ant_shape) (slot : nat) : option ant_shape_prop_t :=
  match props s !! slot with
  | Some p => if is_deleted p then None else Some p
  | None => None
  end.

Definition ant_shape_get_attrs (s : ant_shape) (slot : nat) : Z :=
  match ant_shape_prop_at s slot with Some p => attrs p | None => ANT_PROP_ATTR_DEFAULT end.

(** [ant_shape_set_attrs_interned] and [ant_shape_set_attrs_symbol]. *)
Definition set_attrs_at (e : env) (s : ant_shape) (slot a : Z) : bool * env * ant_shape :=
  if slot <? 0 then (false, e, s)
  else (true, ant_ic_epoch_bump e, set_props s (alter (set_attrs a) (Z.to_nat slot) (props s))).
Definition ant_shape_set_attrs_interned e s interned a :=
  set_attrs_at e s (ant_shape_lookup_interned s interned) a.
Definition ant_shape_set_attrs_symbol e s sym_off a :=
  set_attrs_at e s (ant_shape_lookup_symbol s sym_off) a.

Definition clear_accessor (p : ant_shape_prop_t) : ant_shape_prop_t :=
  ShapeProp (pkey p) (attrs p) 0 0 0 0.

Definition ant_shape_clear_accessor_slot (e : env) (s : ant_shape) (slot : nat)
  : bool * env * ant_shape :=
  match ant_shape_prop_at s slot with
  | None => (false, e, s)
  | Some _ => (true, ant_ic_epoch_bump e, set_props s (alter clear_accessor slot (props s)))
  end.

Definition ant_shape_is_shared (s : ant_shape) : bool := 1 <? ref_count s.
Definition ant_shape_retain (s : ant_shape) : ant_shape := set_refs s (u32 (ref_count s + 1)).

(** The last lines of [ant_shape_release]: an unreferenced shape without
    parent and children gives back its memory. *)
Definition shape_free_table (e : env) (s : ant_shape) : env :=
  let e := Nat.iter (size (index s))
             (fun e => shape_entry_free (add_bytes e (- sizeof_entry))) e in
  add_bytes (add_bytes e (- (cap s * sizeof_prop))) (- sizeof_shape).

(** [ant_shape_clone]: [calloc]ed, so with no guard, child or parent.  The
    partial copy is released on failure. *)
Definition ant_shape_clone (e : env) (s : ant_shape) : option ant_shape * env :=
  let '(ok, e) := shape_request e in
  if negb ok then (None, e)
  else
    let e := add_bytes e sizeof_shape in
    let copy := Shape 1 0 (deleted_count s) (shape_clamp_inobj_limit (inobj_limit s)) 0 [] ∅ in
    if (length (props s) =? 0)%nat then (Some copy, e)
    else
      let '(ok, e, copy) := shape_ensure_capacity e copy (ant_shape_count s) in
      if negb ok then (None, shape_free_table e copy)
      else
        let '(ok, e, copy) := shape_rebuild_index e (set_props copy (props s)) in
        if negb ok then (None, shape_free_table e copy) else (Some copy, e).

End Code.

(** ** Well-formed tables *)

Definition valid_key (k : shape_key) : Prop :=
  match k with
  | ANT_SHAPE_KEY_STRING x | ANT_SHAPE_KEY_SYMBOL x => 0 <= x < 2 ^ 63
  | ANT_SHAPE_KEY_DELETED => False
  end.

(** The index holds exactly the live properties, keys are unique, the
    tombstones are counted and never last, and the array has room. *)
Record table_ok (s : ant_shape) : Prop := {
  ok_index : forall c i, index s !! c = Some i <->
    exists p, props s !! i = Some p /\ is_deleted p = false /\ key_code (pkey p) = c;
  ok_keys : Forall (fun p => is_deleted p = false -> valid_key (pkey p)) (props s);
  ok_deleted : deleted_count s = Z.of_nat (length (List.filter is_deleted (props s)));
  ok_last : forall p, last (props s) = Some p -> is_deleted p = false;
  ok_cap : ant_shape_count s <= cap s < 2 ^ 32 }.

(** What a table means: its live properties in slot order. *)
Definition entries (s : ant_shape) : list ant_shape_prop_t :=
  List.filter (fun p => negb (is_deleted p)) (props s).

Definition has_key (k : shape_key) (p : ant_shape_prop_t) : bool := bool_decide (pkey p = k).

(** Insertion-ordered dictionaries: update in place or append. *)
Definition upsert (k : shape_key) (a : Z) (l : list ant_shape_prop_t) : list ant_shape_prop_t :=
  if existsb (has_key k) l then map (fun p => if has_key k p then set_attrs a p else p) l
  else l ++ [ShapeProp k a 0 0 0 0].
Definition without (k : shape_key) (l : list ant_shape_prop_t) : list ant_shape_prop_t :=
  List.filter (fun p => negb (has_key k p)) l.

Lemma code_string x : 0 <= x < 2 ^ 63 -> shape_key_interned x = 2 * x.
Proof.
  intros. unfold shape_key_interned. rewrite Z.shiftl_mul_pow2 by lia. rewrite wrap_small; lia.
Qed.

Lemma code_symbol x : 0 <= x < 2 ^ 63 -> shape_key_symbol x = 2 * x + 1.
Proof.
  intros. unfold shape_key_symbol. rewrite wrap_small.
  - rewrite lor_shiftl_add by lia. lia.
  - rewrite Z.shiftl_mul_pow2 by lia. lia.
Qed.

Lemma key_code_inj k k' : valid_key k -> valid_key k' -> key_code k = key_code k' -> k = k'.
Proof.
  destruct k, k'; cbn; intros H H'; try contradiction; rewrite ?code_string, ?code_symbol by assumption;
    intros; f_equal; lia.
Qed.

Lemma valid_live k a g h g' h' : valid_key k -> is_deleted (ShapeProp k a g h g' h') = false.
Proof. destruct k; cbn; tauto. Qed.

Lemma is_deleted_set_attrs a p : is_deleted (set_attrs a p) = is_deleted p.
Proof. reflexivity. Qed.

(** A table entry is found under its key and nowhere else. *)
Lemma lookup_spec s k i : table_ok s -> valid_key k ->
  shape_lookup s (key_code k) = Some i <-> exists p, props s !! i = Some p /\ pkey p = k.
Proof.
  intros Ht Hk. unfold shape_lookup. rewrite (ok_index s Ht). split.
  - intros (p & Hp & Hl & Hc). exists p. split; [exact Hp|].
    pose proof (Forall_lookup_1 _ _ _ _ (ok_keys s Ht) Hp Hl). apply key_code_inj; auto.
  - intros (p & Hp & <-). exists p. splits; auto. unfold is_deleted. destruct (pkey p); auto; contradiction.
Qed.

Lemma slot_unique s i j p q : table_ok s -> props s !! i = Some p -> props s !! j = Some q ->
  is_deleted p = false -> pkey p = pkey q -> i = j.
Proof.
  intros Ht Hp Hq Hl He.
  assert (index s !! key_code (pkey p) = Some i) as Hi by (apply (ok_index s Ht); eauto).
  assert (index s !! key_code (pkey p) = Some j) as Hj.
  { apply (ok_index s Ht). exists q. splits; auto; [|congruence]. unfold is_deleted in *. rewrite <- He. exact Hl. }
  congruence.
Qed.

Lemma entries_in s p : In p (entries s) <-> exists i, props s !! i = Some p /\ is_deleted p = false.
Proof.
  unfold entries. rewrite filter_In, <- list_elem_of_In, list_elem_of_lookup, negb_true_iff.
  split; [intros [[i Hi] Hd]|intros (i & Hi & Hd)]; eauto.
Qed.

(** ** Allocation and the epoch *)

Definition shape_starved (grant : nat -> bool) : Prop := exists k, grant k = false.

Lemma grow_cap_spec needed fuel : forall c, 0 < c < 2 ^ 31 -> needed <= 2 ^ 30 -> needed <= c * 2 ^ Z.of_nat fuel ->
  needed <= grow_cap fuel c needed /\ c <= grow_cap fuel c needed < 2 ^ 31.
Proof.
  induction fuel as [|fuel IH]; intros c Hc Hn Hf; cbn [grow_cap]; [lia|].
  destruct (Z.ltb_spec c needed); [|lia]. rewrite wrap_small by lia.
  rewrite Nat2Z.inj_succ, Z.pow_succ_r in Hf by lia. specialize (IH (c * 2)). lia.
Qed.

Lemma request_epoch grant e ok e' : shape_request grant e = (ok, e') ->
  ic_epoch e' = ic_epoch e /\ (ok = false -> shape_starved grant).
Proof. intros [= <- <-]. split; [reflexivity|]. intros H. exists (requests e). exact H. Qed.

Lemma entry_alloc_epoch grant e ok e' : shape_entry_alloc grant e = (ok, e') ->
  ic_epoch e' = ic_epoch e /\ (ok = false -> shape_starved grant).
Proof.
  unfold shape_entry_alloc. case_if; [|apply request_epoch]. intros [= <- <-]. split; [reflexivity|discriminate].
Qed.

Lemma entry_free_epoch e : ic_epoch (shape_entry_free e) = ic_epoch e.
Proof. unfold shape_entry_free. case_if; reflexivity. Qed.

Lemma ensure_capacity_spec grant sz e s needed ok e' s' :
  shape_ensure_capacity grant sz e s needed = (ok, e', s') ->
  ic_epoch e' = ic_epoch e /\ s' = set_cap s (cap s') /\ (ok = false -> s' = s /\ shape_starved grant) /\
  (ok = true -> 0 <= cap s < 2 ^ 32 -> 0 <= needed <= 2 ^ 30 -> needed <= cap s' < 2 ^ 32).
Proof.
  unfold shape_ensure_capacity. destruct (Z.leb_spec needed (cap s)).
  { intros [= <- <- <-]. splits; auto; [destruct s; reflexivity|discriminate|lia]. }
  remember (grow_cap 32 _ needed) as new_cap eqn:Hnew.
  destruct (shape_request grant e) as [ok1 e1] eqn:E. apply request_epoch in E as [He Ho].
  destruct ok1; cbn [negb]; intros [= <- <- <-].
  - splits; auto; [discriminate|]. intros _ Hc Hn. cbn [cap set_cap]. revert Hnew.
    generalize (eq_refl (if cap s =? 0 then 8 else u32 (cap s * 2))).
    generalize (if cap s =? 0 then 8 else u32 (cap s * 2)) at 1 3. intros c Ec ->.
    assert (0 < c < 2 ^ 31) by (subst c; case_if; boolprop; [lia|rewrite wrap_small; lia]).
    pose proof (grow_cap_spec needed 32 c). change (2 ^ Z.of_nat 32) with (2 ^ 32) in *. lia.
  - splits; auto; [destruct s; reflexivity|discriminate].
Qed.

(** ** Changing a property in place *)

Section Alter.
Context (f : ant_shape_prop_t -> ant_shape_prop_t) (Hf : forall p, pkey (f p) = pkey p).

Lemma alter_is_deleted p : is_deleted (f p) = is_deleted p.
Proof using Hf. unfold is_deleted. rewrite Hf. reflexivity. Qed.

Lemma alter_tombstones l : forall i,
  length (List.filter is_deleted (alter f i l)) = length (List.filter is_deleted l).
Proof using Hf.
  induction l as [|p l IH]; intros [|i]; cbn; auto.
  - rewrite alter_is_deleted. case_if; reflexivity.
  - case_if; cbn; auto.
Qed.

Lemma alter_lookup (i j : nat) (l : list ant_shape_prop_t) q : alter f i l !! j = Some q ->
  exists p, l !! j = Some p /\ q = (if decide (i = j) then f p else p).
Proof using Type.
  destruct (decide (i = j)) as [->|Hne].
  - rewrite list_lookup_alter_eq. destruct (l !! j); [|discriminate]. intros [= <-]. eauto.
  - rewrite list_lookup_alter_ne by exact Hne. eauto.
Qed.

Lemma alter_ok s i : table_ok s -> table_ok (set_props s (alter f i (props s))).
Proof using Hf.
  intros Ht. split; cbn [props index deleted_count cap set_props].
  - intros c j. rewrite (ok_index s Ht). split.
    + intros (p & Hp & Hd & Hc). destruct (decide (i = j)) as [->|Hne].
      * exists (f p). rewrite list_lookup_alter_eq, Hp, alter_is_deleted, Hf. auto.
      * exists p. rewrite list_lookup_alter_ne by exact Hne. auto.
    + intros (q & Hq & Hd & Hc). apply alter_lookup in Hq as (p & Hp & ->). exists p.
      case_decide; [rewrite alter_is_deleted in Hd; rewrite Hf in Hc|]; auto.
  - apply Forall_lookup. intros j q Hq. apply alter_lookup in Hq as (p & Hp & ->).
    pose proof (Forall_lookup_1 _ _ _ _ (ok_keys s Ht) Hp). case_decide; [rewrite alter_is_deleted, Hf|]; auto.
  - rewrite alter_tombstones. apply ok_deleted, Ht.
  - intros q. rewrite last_lookup, length_alter. intros Hq. apply alter_lookup in Hq as (p & Hp & ->).
    rewrite <- last_lookup in Hp. apply (ok_last s Ht) in Hp. case_decide; [rewrite alter_is_deleted|]; auto.
  - unfold ant_shape_count. cbn [props set_props]. rewrite length_alter. apply ok_cap, Ht.
Qed.

(** In the view by keys only the property itself changes. *)
Lemma alter_entries s i p : table_ok s -> props s !! i = Some p -> is_deleted p = false ->
  entries (set_props s (alter f i (props s))) =
  map (fun q => if has_key (pkey p) q then f q else q) (entries s).
Proof using Hf.
  intros Ht Hp Hl. unfold entries. cbn [props set_props].
  assert (E : alter f i (props s) = map (fun q => if has_key (pkey p) q then f q else q) (props s)).
  { apply list_eq. intros j. rewrite list_lookup_fmap. unfold has_key.
    destruct (decide (i = j)) as [<-|Hne].
    - rewrite list_lookup_alter_eq, Hp. cbn. rewrite bool_decide_eq_true_2; reflexivity.
    - rewrite list_lookup_alter_ne by exact Hne. destruct (props s !! j) as [q|] eqn:Hq; cbn; [|reflexivity].
      rewrite bool_decide_eq_false_2; [reflexivity|]. intros He. apply Hne. eapply slot_unique; eauto. }
  rewrite E. clear - Hf. induction (props s) as [|q l IH]; cbn; [reflexivity|].
  rewrite IH. destruct (has_key (pkey p) q) eqn:E; rewrite ?alter_is_deleted; case_if; cbn; rewrite ?E; reflexivity.
Qed.

End Alter.

(** ** Adding a key *)

Lemma entries_app s p : entries (set_props s (props s ++ [p])) =
  entries s ++ (if is_deleted p then [] else [p]).
Proof. unfold entries. cbn [props set_props]. rewrite List.filter_app. cbn. destruct (is_deleted p); reflexivity. Qed.

Lemma existsb_key s k : table_ok s -> valid_key k ->
  existsb (has_key k) (entries s) = bool_decide (is_Some (shape_lookup s (key_code k))).
Proof.
  intros Ht Hk. symmetry. destruct (existsb _ _) eqn:E.
  - apply bool_decide_eq_true_2. apply existsb_exists in E as (p & Hp & Hh). unfold has_key in Hh.
    apply bool_decide_eq_true_1 in Hh. apply entries_in in Hp as (i & Hi & _). exists i.
    apply lookup_spec; eauto.
  - apply bool_decide_eq_false_2. intros [i Hi]. apply lookup_spec in Hi as (p & Hp & Hh); auto.
    enough (existsb (has_key k) (entries s) = true) by congruence.
    apply existsb_exists. exists p. split; [|unfold has_key; apply bool_decide_eq_true_2; exact Hh].
    apply entries_in. exists i. split; [exact Hp|]. unfold is_deleted. rewrite Hh. destruct k; auto; contradiction.
Qed.

(** A new key at the end of the array. *)
Lemma append_table_ok s k a : table_ok s -> valid_key k -> shape_lookup s (key_code k) = None ->
  ant_shape_count s + 1 <= cap s < 2 ^ 32 ->
  let s1 := set_props s (props s ++ [ShapeProp k a 0 0 0 0]) in
  table_ok (set_index s1 (<[key_code k := length (props s)]> (index s))).
Proof.
  intros Ht Hk Hn Hc s1. unfold shape_lookup in Hn.
  split; cbn [props index deleted_count cap set_props set_index s1].
  - intros c i. destruct (decide (c = key_code k)) as [->|Hne].
    + rewrite lookup_insert_eq. split.
      * intros [= <-]. eexists. rewrite lookup_app_r, Nat.sub_diag by lia. splits; auto using valid_live.
      * intros (p & Hp & Hd & Hcode). destruct (decide (i < length (props s))%nat).
        -- rewrite lookup_app_l in Hp by lia. assert (index s !! key_code k = Some i) by (apply (ok_index s Ht); eauto).
           congruence.
        -- apply lookup_lt_Some in Hp. rewrite length_app in Hp. cbn in Hp. f_equal. lia.
    + rewrite lookup_insert_ne by congruence. rewrite (ok_index s Ht). split; intros (p & Hp & Hd & Hcode).
      * exists p. rewrite lookup_app_l by (eapply lookup_lt_Some; eauto). auto.
      * exists p. apply lookup_app_Some in Hp as [Hp|[Hi Hp]]; auto.
        destruct (i - length (props s))%nat; [|discriminate]. injection Hp as <-. cbn in Hcode. congruence.
  - apply Forall_app. split; [apply ok_keys, Ht|]. repeat constructor. intros _. exact Hk.
  - rewrite List.filter_app. cbn. rewrite (valid_live k) by exact Hk. rewrite app_nil_r. apply ok_deleted, Ht.
  - intros p. rewrite last_snoc. intros [= <-]. apply valid_live, Hk.
  - unfold ant_shape_count, s1 in *. cbn [props set_props set_index]. rewrite length_app. cbn [length]. lia.
Qed.

Lemma set_cap_ok s c : table_ok s -> ant_shape_count s <= c < 2 ^ 32 -> table_ok (set_cap s c).
Proof. intros [] Hc. split; auto. Qed.

Lemma set_guard_ok s g : table_ok s -> table_ok (set_guard s g).
Proof. intros []. split; auto. Qed.

Lemma set_refs_ok s n : table_ok s -> table_ok (set_refs s n).
Proof. intros []. split; auto. Qed.

Lemma invalidate_spec e s e' s' : shape_invalidate_guarded_absence e s = (e', s') ->
  exists g, s' = set_guard s g.
Proof.
  unfold shape_invalidate_guarded_absence. case_ifs; intros [= <- <-]; eauto.
  exists (absence_guard_epoch s). destruct s; reflexivity.
Qed.

Lemma shape_add_key_spec grant szp sze e s k a r e' s' :
  table_ok s -> valid_key k -> ant_shape_count s < 2 ^ 30 ->
  shape_add_key grant szp sze e s k a = (r, e', s') ->
  match r with
  | Some slot => table_ok s' /\ entries s' = upsert k a (entries s) /\
      exists p, props s' !! slot = Some p /\ pkey p = k /\ attrs p = a
  | None => shape_starved grant
  end.
Proof.
  intros Ht Hk Hsz. unfold shape_add_key. pose proof (existsb_key s k Ht Hk) as Hex.
  destruct (shape_lookup s (key_code k)) as [slot|] eqn:El.
  - intros [= <- <- <-]. apply lookup_spec in El as (p & Hp & Hpk); auto.
    assert (Hl : is_deleted p = false) by (unfold is_deleted; rewrite Hpk; destruct k; auto; contradiction).
    splits.
    + apply alter_ok; auto.
    + unfold upsert. rewrite Hex. cbn. subst k. apply alter_entries; auto.
    + exists (set_attrs a p). cbn [props set_props]. rewrite list_lookup_alter_eq, Hp. auto.
  - destruct (shape_ensure_capacity grant szp e s (ant_shape_count s + 1)) as [[ok e1] s1] eqn:Ec.
    apply ensure_capacity_spec in Ec as (_ & Es & Hf & Hcap). destruct ok; cbn [negb].
    2: { intros [= <- <- <-]. apply Hf; reflexivity. }
    assert (Hc : ant_shape_count s + 1 <= cap s1 < 2 ^ 32).
    { pose proof (ok_cap s Ht). apply Hcap; auto; unfold ant_shape_count in *; lia. }
    rewrite Es. cbn [props set_cap]. set (s2 := set_cap s (cap s1)).
    assert (Ht2 : table_ok s2) by (apply set_cap_ok; [exact Ht|lia]).
    destruct (shape_entry_alloc grant e1) as [ok e2] eqn:Ea. apply entry_alloc_epoch in Ea as [_ Ha].
    destruct ok; cbn [negb]; [|intros [= <- <- <-]; auto].
    set (s3 := set_index _ _).
    assert (Ht3 : table_ok s3) by (apply (append_table_ok s2 k a); auto).
    assert (He3 : entries s3 = upsert k a (entries s)).
    { unfold upsert. rewrite Hex. cbn.
      etransitivity; [exact (entries_app s (ShapeProp k a 0 0 0 0))|]. rewrite (valid_live k) by exact Hk. reflexivity. }
    assert (Hp3 : props s3 !! length (props s) = Some (ShapeProp k a 0 0 0 0)).
    { cbn. rewrite lookup_app_r, Nat.sub_diag by lia. reflexivity. }
    set (r3 := match k with ANT_SHAPE_KEY_STRING _ => _ | _ => _ end).
    assert (Hr : exists e4 g, r3 = (e4, set_guard s3 g)).
    { unfold r3. destruct k; try (exists (add_bytes e2 sze), (absence_guard_epoch s3); destruct s3; reflexivity).
      destruct (shape_invalidate_guarded_absence _ _) as [e4 s4] eqn:E. apply invalidate_spec in E as [g ->]. eauto. }
    destruct Hr as (e4 & g & ->). intros [= <- <- <-]. splits.
    + apply set_guard_ok, Ht3.
    + exact He3.
    + eexists. split; [exact Hp3|auto].
Qed.

(** ** Removing a slot *)

Lemma trim_split l : exists t, l = take (length l - trailing (rev l)) l ++ t /\
  Forall (fun p => is_deleted p = true) t /\ length t = trailing (rev l) /\
  forall p, last (take (length l - trailing (rev l)) l) = Some p -> is_deleted p = false.
Proof.
  induction l as [|p l IH] using rev_ind; [exists []; splits; auto; discriminate|].
  rewrite rev_unit. cbn [trailing]. rewrite length_app. cbn [length]. destruct (is_deleted p) eqn:Hp.
  - destruct IH as (t & El & Ht & Hl & Hlast). exists (t ++ [p]).
    replace (length l + 1 - S (trailing (rev l)))%nat with (length l - trailing (rev l))%nat by lia.
    assert (Htk : take (length l - trailing (rev l)) (l ++ [p]) = take (length l - trailing (rev l)) l).
    { apply take_app_le. lia. }
    rewrite Htk. splits; auto.
    + rewrite app_assoc, <- El. reflexivity.
    + apply Forall_app; auto.
    + rewrite length_app, Hl. cbn. lia.
  - exists []. rewrite Nat.sub_0_r, take_ge by (rewrite length_app; cbn; lia).
    splits; auto; [rewrite app_nil_r; reflexivity|]. intros q. rewrite last_snoc. intros [= <-]. exact Hp.
Qed.

Lemma live_prefix l1 t i p : Forall (fun p => is_deleted p = true) t -> is_deleted p = false ->
  (l1 ++ t) !! i = Some p <-> l1 !! i = Some p.
Proof.
  intros Ht Hp. rewrite lookup_app_Some. split; [|auto]. intros [H|[_ H]]; [exact H|].
  pose proof (Forall_lookup_1 _ _ _ _ Ht H). cbn in *. congruence.
Qed.

Lemma filter_all {A} (f : A -> bool) l : Forall (fun x => f x = true) l -> List.filter f l = l.
Proof. induction 1 as [|x l Hx _ IH]; cbn; [reflexivity|]. rewrite Hx, IH. reflexivity. Qed.

Lemma filter_none {A} (f : A -> bool) l : Forall (fun x => f x = false) l -> List.filter f l = [].
Proof. induction 1 as [|x l Hx _ IH]; cbn; [reflexivity|]. rewrite Hx. exact IH. Qed.

Lemma bury_count l : forall i p, l !! i = Some p -> is_deleted p = false ->
  length (List.filter is_deleted (<[i := tombstone]> l)) = S (length (List.filter is_deleted l)).
Proof.
  induction l as [|q l IH]; intros [|i] p; cbn; try discriminate.
  - intros [= ->] Hp. rewrite Hp. reflexivity.
  - intros Hi Hp. specialize (IH i p Hi Hp).
    case_if; [exact (f_equal S IH)|exact IH].
Qed.

Lemma bury_entries s i p : table_ok s -> props s !! i = Some p -> is_deleted p = false ->
  List.filter (fun q => negb (is_deleted q)) (<[i := tombstone]> (props s)) = without (pkey p) (entries s).
Proof.
  intros Ht Hp Hl.
  assert (E : <[i := tombstone]> (props s) = map (fun q => if has_key (pkey p) q then tombstone else q) (props s)).
  { apply list_eq. intros j. rewrite list_lookup_fmap. unfold has_key. destruct (decide (i = j)) as [<-|Hne].
    - rewrite list_lookup_insert_eq by (eapply lookup_lt_Some; eauto). rewrite Hp. cbn.
      rewrite bool_decide_eq_true_2; reflexivity.
    - rewrite list_lookup_insert_ne by exact Hne. destruct (props s !! j) as [q|] eqn:Hq; cbn; [|reflexivity].
      rewrite bool_decide_eq_false_2; [reflexivity|]. intros He. apply Hne. eapply slot_unique; eauto. }
  rewrite E. unfold entries, without. clear - Hl. induction (props s) as [|q l IH]; cbn; [reflexivity|].
  destruct (has_key (pkey p) q) eqn:Ek; cbn.
  - rewrite IH. case_if; cbn; rewrite ?Ek; reflexivity.
  - case_if; cbn; rewrite ?Ek, IH; reflexivity.
Qed.

(** The slots of the other keys do not move. *)
Lemma remove_slot_spec e s slot p e' b s' :
  table_ok s -> props s !! slot = Some p -> is_deleted p = false ->
  ant_shape_remove_slot e s slot = (b, e', s') ->
  b = true /\ table_ok s' /\ entries s' = without (pkey p) (entries s) /\
  (forall i q, is_deleted q = false -> props s' !! i = Some q <-> props s !! i = Some q /\ i <> slot) /\
  (length (props s') <= length (props s))%nat.
Proof.
  intros Ht Hp Hl. unfold ant_shape_remove_slot. rewrite Hp, Hl.
  assert (Hi : shape_lookup s (key_code (pkey p)) = Some slot) by (apply (ok_index s Ht); eauto).
  rewrite Hi. intros [= <- <- <-]. split; [reflexivity|].
  unfold trim_tombstones. cbn [props set_props set_index set_deleted deleted_count index].
  set (l := <[slot := tombstone]> (props s)). pose proof (bury_count _ _ _ Hp Hl) as Hcnt. fold l in Hcnt.
  pose proof (bury_entries s slot p Ht Hp Hl) as Hent. fold l in Hent.
  assert (Hslots : forall i q, is_deleted q = false -> l !! i = Some q <-> props s !! i = Some q /\ i <> slot).
  { intros i q Hq. unfold l. destruct (decide (slot = i)) as [<-|Hne].
    - rewrite list_lookup_insert_eq by (eapply lookup_lt_Some; eauto). split; [|tauto].
      intros [= <-]. discriminate.
    - rewrite list_lookup_insert_ne by exact Hne. split; [auto|tauto]. }
  destruct (trim_split l) as (t & El & Hdt & Hlen & Hlast).
  set (l1 := take (length l - trailing (rev l)) l) in *.
  assert (Hl1 : forall i q, is_deleted q = false -> l1 !! i = Some q <-> props s !! i = Some q /\ i <> slot).
  { intros i q Hq. rewrite <- Hslots by exact Hq. rewrite El. symmetry. apply live_prefix; auto. }
  assert (Hll : length l = length (props s)) by apply length_insert.
  assert (Hent1 : List.filter (fun q => negb (is_deleted q)) l1 = without (pkey p) (entries s)).
  { rewrite <- Hent, El, List.filter_app, (filter_none _ t), app_nil_r; [reflexivity|].
    eapply Forall_impl; [exact Hdt|]. cbn. intros q ->. reflexivity. }
  assert (Hcnt1 : length (List.filter is_deleted l) = (length (List.filter is_deleted l1) + trailing (rev l))%nat).
  { rewrite El at 1. rewrite List.filter_app, length_app, (filter_all _ t), Hlen by exact Hdt. reflexivity. }
  assert (Hl1len : (length l1 <= length (props s))%nat) by (unfold l1; rewrite length_take; lia).
  pose proof (ok_deleted s Ht). pose proof (ok_cap s Ht) as Hcap. unfold ant_shape_count in Hcap.
  assert (Hfl : (length (List.filter is_deleted l) <= length l)%nat) by apply List.filter_length_le.
  splits; [split|exact Hent1|exact Hl1|exact Hl1len]; cbn [props set_props set_index set_deleted deleted_count index cap].
  - intros c i. destruct (decide (c = key_code (pkey p))) as [->|Hne].
    + rewrite lookup_delete_eq. split; [discriminate|]. intros (q & Hq & Hqd & Hqc).
      apply Hl1 in Hq as [Hq Hn]; [|exact Hqd].
      assert (index s !! key_code (pkey p) = Some i) by (apply (ok_index s Ht); eauto).
      unfold shape_lookup in Hi. congruence.
    + rewrite lookup_delete_ne by congruence. rewrite (ok_index s Ht). split; intros (q & Hq & Hqd & Hqc).
      * exists q. splits; auto. apply Hl1; [exact Hqd|]. split; [exact Hq|]. intros ->. congruence.
      * exists q. apply Hl1 in Hq as [Hq _]; auto.
  - apply Forall_lookup. intros i q Hq Hqd. apply Hl1 in Hq as [Hq _]; [|exact Hqd].
    exact (Forall_lookup_1 _ _ _ _ (ok_keys s Ht) Hq Hqd).
  - rewrite (wrap_small 32 (deleted_count s + 1)) by lia. rewrite wrap_small; lia.
  - exact Hlast.
  - unfold ant_shape_count. cbn [props set_props set_deleted]. lia.
Qed.

(** ** Compaction *)

Definition codes (l : list ant_shape_prop_t) : list Z := map (fun p => key_code (pkey p)) l.

Lemma live_codes_nodup l :
  (forall i j p q, l !! i = Some p -> l !! j = Some q -> is_deleted p = false -> is_deleted q = false ->
     key_code (pkey p) = key_code (pkey q) -> i = j) ->
  NoDup (codes (List.filter (fun p => negb (is_deleted p)) l)).
Proof.
  induction l as [|p l IH]; intros H; cbn; [constructor|].
  assert (IH' : NoDup (codes (List.filter (fun p => negb (is_deleted p)) l))).
  { apply IH. intros i j q r Hq Hr ? ? Hc. enough (S i = S j) by lia. eapply (H (S i) (S j)); eauto. }
  case_if; [|exact IH']. apply negb_true_iff in Eif. cbn. constructor; [|exact IH'].
  intros Hin. apply list_elem_of_In, in_map_iff in Hin as (q & Hc & Hq).
  apply filter_In in Hq as [Hq Hd]. apply negb_true_iff in Hd.
  apply list_elem_of_In, list_elem_of_lookup in Hq as [j Hj].
  enough (O = S j) by lia. eapply (H O (S j)); eauto.
Qed.

Lemma entries_nodup s : table_ok s -> NoDup (codes (entries s)).
Proof.
  intros Ht. apply live_codes_nodup. intros i j p q Hp Hq Hpd Hqd Hc.
  assert (index s !! key_code (pkey p) = Some i) by (apply (ok_index s Ht); eauto).
  assert (index s !! key_code (pkey p) = Some j) by (apply (ok_index s Ht); rewrite Hc; eauto). congruence.
Qed.

Lemma compact_loop_spec ps : forall kept ix kept' ix',
  let live := List.filter (fun p => negb (is_deleted p)) ps in
  NoDup (codes live) -> Forall (fun c => is_Some (ix !! c)) (codes live) ->
  compact_loop ps kept ix = (kept', ix') ->
  kept' = kept ++ live /\
  (forall j p, live !! j = Some p -> ix' !! key_code (pkey p) = Some (length kept + j)%nat) /\
  (forall c, ~ In c (codes live) -> ix' !! c = ix !! c).
Proof.
  induction ps as [|p ps IH]; intros kept ix kept' ix'; cbn [List.filter compact_loop].
  - intros _ _ [= <- <-]. rewrite app_nil_r. splits; auto. discriminate.
  - destruct (is_deleted p); cbn [negb]; [apply IH|]. cbn [codes map]. intros Hnd Hall.
    inversion_clear Hnd as [|? ? Hni Hnd']. inversion_clear Hall as [|? ? Hs Hall'].
    destruct Hs as [i0 Hi0]. rewrite Hi0. intros E. fold (codes (List.filter (fun p => negb (is_deleted p)) ps)) in *.
    apply IH in E as (-> & Hlive & Hother); [|exact Hnd'|].
    2: { eapply Forall_impl; [exact Hall'|]. intros c [i Hi].
         destruct (decide (key_code (pkey p) = c)) as [<-|Hne].
         - rewrite lookup_insert_eq. eauto.
         - rewrite lookup_insert_ne by exact Hne. eauto. }
    rewrite length_app in Hlive. cbn [length] in Hlive. splits.
    + rewrite <- app_assoc. reflexivity.
    + intros [|j] q; cbn; intros Hq.
      * injection Hq as <-. rewrite Hother by (rewrite <- list_elem_of_In; exact Hni).
        rewrite lookup_insert_eq. f_equal. lia.
      * rewrite (Hlive j q Hq). f_equal. lia.
    + intros c Hc. cbn in Hc. rewrite Hother by tauto. apply lookup_insert_ne. tauto.
Qed.

Lemma live_all l : Forall (fun p => is_deleted p = false) (List.filter (fun p => negb (is_deleted p)) l).
Proof. apply List.Forall_forall. intros p Hp. apply filter_In in Hp as [_ Hp]. apply negb_true_iff, Hp. Qed.

Lemma no_tombstones l : length (List.filter is_deleted l) = O -> List.filter (fun p => negb (is_deleted p)) l = l.
Proof.
  induction l as [|p l IH]; cbn; [reflexivity|]. destruct (is_deleted p); cbn; [discriminate|].
  intros H. rewrite IH by exact H. reflexivity.
Qed.

(** Compaction is stable: afterwards slots are positions in the order. *)
Lemma compact_spec s n s' : table_ok s -> ant_shape_compact s = (n, s') ->
  table_ok s' /\ props s' = entries s /\ entries s' = entries s /\ n = length (props s') /\ deleted_count s' = 0.
Proof.
  intros Ht. unfold ant_shape_compact. pose proof (ok_deleted s Ht) as Hd.
  destruct (Z.eqb_spec (deleted_count s) 0) as [Hz|Hz].
  { intros [= <- <-]. assert (entries s = props s) by (apply no_tombstones; lia). splits; auto. }
  destruct (compact_loop (props s) [] (index s)) as [kept ix] eqn:E. intros [= <- <-].
  apply compact_loop_spec in E as (-> & Hlive & Hother).
  2: { apply entries_nodup, Ht. }
  2: { apply List.Forall_forall. intros c Hc. apply in_map_iff in Hc as (p & <- & Hp).
       apply entries_in in Hp as (i & Hi & Hp). exists i. apply (ok_index s Ht). eauto. }
  cbn [app props set_props set_index set_deleted deleted_count].
  change (List.filter (fun p => negb (is_deleted p)) (props s)) with (entries s) in *.
  assert (Hall : Forall (fun p => is_deleted p = false) (entries s)) by apply live_all.
  assert (Hff : List.filter (fun p => negb (is_deleted p)) (entries s) = entries s).
  { apply filter_all. eapply Forall_impl; [exact Hall|]. cbn. intros p ->. reflexivity. }
  splits; auto. split; cbn [props set_props set_index set_deleted deleted_count index cap].
  - intros c i. split.
    + intros Hi. destruct (in_dec Z.eq_dec c (codes (entries s))) as [Hc|Hc].
      * apply in_map_iff in Hc as (p & <- & Hp). apply list_elem_of_In, list_elem_of_lookup in Hp as [j Hj].
        rewrite (Hlive j p Hj) in Hi. injection Hi as <-. exists p. splits; auto.
        exact (Forall_lookup_1 _ _ _ _ Hall Hj).
      * rewrite Hother in Hi by exact Hc. apply (ok_index s Ht) in Hi as (p & Hp & Hpd & Hpc). exfalso. apply Hc.
        apply in_map_iff. exists p. split; [exact Hpc|]. apply entries_in. eauto.
    + intros (p & Hp & _ & <-). exact (Hlive i p Hp).
  - apply List.Forall_forall. intros p Hp Hpd. apply entries_in in Hp as (i & Hi & _).
    exact (Forall_lookup_1 _ _ _ _ (ok_keys s Ht) Hi Hpd).
  - rewrite filter_none by exact Hall. reflexivity.
  - intros p Hp. rewrite last_lookup in Hp. exact (Forall_lookup_1 _ _ _ _ Hall Hp).
  - pose proof (ok_cap s Ht). unfold ant_shape_count in *. cbn [props set_props set_index set_deleted].
    unfold entries. pose proof (List.filter_length_le (fun p => negb (is_deleted p)) (props s)). lia.
Qed.

(** ** Cloning *)

Lemma rebuild_loop_spec grant sze ps : forall e done ix ok e' ix',
  (forall i j p q, (done ++ ps) !! i = Some p -> (done ++ ps) !! j = Some q -> is_deleted p = false ->
     is_deleted q = false -> key_code (pkey p) = key_code (pkey q) -> i = j) ->
  (forall c i, ix !! c = Some i <-> exists p, done !! i = Some p /\ is_deleted p = false /\ key_code (pkey p) = c) ->
  rebuild_loop grant sze e ps (length done) ix = (ok, e', ix') ->
  ic_epoch e' = ic_epoch e /\ (ok = false -> shape_starved grant) /\
  (ok = true -> forall c i, ix' !! c = Some i <->
     exists p, (done ++ ps) !! i = Some p /\ is_deleted p = false /\ key_code (pkey p) = c).
Proof.
  induction ps as [|p ps IH]; intros e done ix ok e' ix' Hu Hix; cbn [rebuild_loop].
  { intros [= <- <- <-]. rewrite app_nil_r. splits; auto. discriminate. }
  replace (S (length done)) with (length (done ++ [p])) by (rewrite length_app; cbn; lia).
  assert (Ea : done ++ p :: ps = (done ++ [p]) ++ ps) by (rewrite <- app_assoc; reflexivity). rewrite Ea in Hu |- *.
  destruct (is_deleted p) eqn:Hp.
  - apply IH; [exact Hu|]. intros c i. rewrite Hix. split; intros (q & Hq & Hd & Hc); exists q; splits; auto.
    + rewrite lookup_app_l by (eapply lookup_lt_Some; eauto). exact Hq.
    + apply (live_prefix done [p] i q); auto.
  - destruct (shape_entry_alloc grant e) as [ok1 e1] eqn:Eal. apply entry_alloc_epoch in Eal as [He1 Hf].
    destruct ok1; cbn [negb].
    2: { intros [= <- <- <-]. splits; auto. discriminate. }
    intros E. apply IH in E as (He & Hs & Hok); [|exact Hu|].
    { splits; auto. etransitivity; [exact He|exact He1]. }
    intros c i. destruct (decide (key_code (pkey p) = c)) as [<-|Hne].
    + rewrite lookup_insert_eq. split.
      * intros [= <-]. exists p. rewrite lookup_app_r, Nat.sub_diag by lia. auto.
      * intros (q & Hq & Hd & Hc). f_equal. eapply (Hu _ i p q); auto.
        -- rewrite lookup_app_l by (rewrite length_app; cbn; lia).
           rewrite lookup_app_r, Nat.sub_diag by lia. reflexivity.
        -- rewrite lookup_app_l by (eapply lookup_lt_Some; eauto). exact Hq.
    + rewrite lookup_insert_ne by exact Hne. rewrite Hix. split; intros (q & Hq & Hd & Hc).
      * exists q. rewrite lookup_app_l by (eapply lookup_lt_Some; eauto). auto.
      * exists q. apply lookup_app_Some in Hq as [Hq|[_ Hq]]; auto.
        destruct (i - length done)%nat; [injection Hq as <-; congruence|discriminate].
Qed.

(** A clone has the same properties in the same slots and no other owner. *)
Lemma clone_spec grant szs szp sze e s r e' : table_ok s -> ant_shape_count s <= 2 ^ 30 ->
  ant_shape_clone grant szs szp sze e s = (r, e') ->
  match r with
  | Some c => table_ok c /\ props c = props s /\ ref_count c = 1 /\ absence_guard_epoch c = 0 /\
              ic_epoch e' = ic_epoch e
  | None => shape_starved grant
  end.
Proof.
  intros Ht Hsz. unfold ant_shape_clone.
  destruct (shape_request grant e) as [ok e1] eqn:Er. apply request_epoch in Er as [He1 Hf1].
  destruct ok; cbn [negb]; [|intros [= <- <-]; auto].
  pose proof (ok_deleted s Ht) as Hd. set (c0 := Shape _ _ _ _ _ _ _).
  destruct (Nat.eqb_spec (length (props s)) 0) as [Hz|Hz].
  { intros [= <- <-]. destruct (props s) eqn:Ep; [|discriminate]. splits; auto. split; cbn; auto; try discriminate.
    - intros c i. split; [discriminate|]. intros (p & Hp & _). discriminate.
    - unfold ant_shape_count. cbn. lia. }
  destruct (shape_ensure_capacity grant szp _ c0 _) as [[ok e2] c1] eqn:Ec.
  apply ensure_capacity_spec in Ec as (He2 & Ec1 & Hf2 & Hcap). destruct ok; cbn [negb].
  2: { intros [= <- <-]. apply Hf2. reflexivity. }
  unfold shape_rebuild_index. cbn [index set_props].
  assert (Eix : index c1 = ∅) by (rewrite Ec1; reflexivity). rewrite Eix, map_size_empty.
  change (Nat.iter 0 shape_entry_free e2) with e2. cbn [props set_props].
  destruct (rebuild_loop grant sze e2 (props s) 0 ∅) as [[ok e3] ix] eqn:Eb.
  apply (rebuild_loop_spec grant sze (props s) e2 []) in Eb as (He3 & Hf3 & Hix).
  2: { intros i j p q Hp Hq Hpd Hqd Hc. cbn in Hp, Hq.
       assert (index s !! key_code (pkey p) = Some i) by (apply (ok_index s Ht); eauto).
       assert (index s !! key_code (pkey p) = Some j) by (apply (ok_index s Ht); rewrite Hc; eauto). congruence. }
  2: { intros c i. rewrite lookup_empty. split; [discriminate|]. intros (p & Hp & _). discriminate. }
  destruct ok; cbn [negb]; intros [= <- <-]; [|auto].
  specialize (Hix eq_refl). cbn [app] in Hix. specialize (Hcap eq_refl ltac:(cbn; lia) ltac:(unfold ant_shape_count in *; lia)).
  splits; cbn [props set_props set_index ref_count absence_guard_epoch]; try (rewrite Ec1; reflexivity).
  - split; cbn [props set_props set_index index deleted_count cap]; auto.
    + apply ok_keys, Ht.
    + rewrite Ec1. exact Hd.
    + apply ok_last, Ht.
  - reflexivity.
  - rewrite He3, He2. exact He1.
Qed.

(** ** Inline caches

    A cache entry holds a reference to a shape (so that it is not freed), a
    slot or the knowledge that a string key is absent, and the epoch. *)

(** Deletion as the objects do it ([obj_delete_prop_slot] of [src/src/ant.c]):
    remove, then compact if it pays. *)
Definition delete_slot (e : env) (s : ant_shape) (slot : nat) : bool * env * ant_shape :=
  let '(ok, e, s) := ant_shape_remove_slot e s slot in
  if ok && ant_shape_should_compact s then (ok, e, (ant_shape_compact s).2) else (ok, e, s).

Section Steps.
Context (grant : nat -> bool) (sizeof_prop sizeof_entry : Z).

(** What can happen to a shape that stays alive. *)
Inductive shape_step : env * ant_shape -> env * ant_shape -> Prop :=
| step_add e s k a r e' s' : valid_key k ->
    shape_add_key grant sizeof_prop sizeof_entry e s k a = (r, e', s') -> shape_step (e, s) (e', s')
| step_set_attrs e s slot a ok e' s' :
    set_attrs_at e s slot a = (ok, e', s') -> shape_step (e, s) (e', s')
| step_clear_accessor e s slot ok e' s' :
    ant_shape_clear_accessor_slot e s slot = (ok, e', s') -> shape_step (e, s) (e', s')
| step_delete e s slot ok e' s' :
    delete_slot e s slot = (ok, e', s') -> shape_step (e, s) (e', s')
| step_guard e s : shape_step (e, s) (e, ant_shape_guard_absence e s)
| step_refs e s n : shape_step (e, s) (e, set_refs s n)
| step_other e s e' : ic_epoch e' = ic_epoch e -> shape_step (e, s) (e', s)
| step_bump e s : shape_step (e, s) (ant_ic_epoch_bump e, s).

End Steps.

(** The facts a cache may rely on. *)
Definition caches_slot (s : ant_shape) (c : Z) (i : nat) (p : ant_shape_prop_t) : Prop :=
  shape_lookup s c = Some i /\ props s !! i = Some p.
Definition caches_absence (e : env) (s : ant_shape) (interned : Z) : Prop :=
  absence_guard_epoch s = ic_epoch e /\ shape_lookup s (shape_key_interned interned) = None.

Definition epoch_ok (e : env) : Prop := 1 <= ic_epoch e < 2 ^ 32.
Definition next_epoch (c : Z) : Z := if c =? 2 ^ 32 - 1 then 1 else c + 1.

Lemma bump_next e : epoch_ok e -> ic_epoch (ant_ic_epoch_bump e) = next_epoch (ic_epoch e).
Proof.
  unfold epoch_ok, next_epoch, ant_ic_epoch_bump. cbn [ic_epoch]. intros He.
  destruct (Z.eqb_spec (ic_epoch e) (2 ^ 32 - 1)) as [->|Hne]; [reflexivity|].
  rewrite wrap_small by lia. destruct (Z.eqb_spec (ic_epoch e + 1) 0); lia.
Qed.

Lemma next_iter n c : 1 <= c < 2 ^ 32 ->
  Nat.iter n next_epoch c = (c - 1 + Z.of_nat n) mod (2 ^ 32 - 1) + 1.
Proof.
  intros Hc. induction n as [|n IH]; [cbn; rewrite Z.mod_small; lia|].
  cbn [Nat.iter nat_rect]. change (nat_rect _ c (fun _ => next_epoch) n) with (Nat.iter n next_epoch c).
  rewrite IH. unfold next_epoch. set (m := 2 ^ 32 - 1) in *. assert (Hm : m = 4294967295) by reflexivity.
  pose proof (Z.mod_pos_bound (c - 1 + Z.of_nat n) m ltac:(lia)) as Hb.
  destruct (Z.eqb_spec ((c - 1 + Z.of_nat n) mod m + 1) m) as [Heq|Hne].
  - assert (E : (c - 1 + Z.of_nat (S n)) mod m = 0); [|lia].
    replace (c - 1 + Z.of_nat (S n)) with (c - 1 + Z.of_nat n + 1) by lia.
    rewrite Z.add_mod by lia. replace ((c - 1 + Z.of_nat n) mod m) with (m - 1) by lia.
    rewrite (Z.mod_small 1) by lia. replace (m - 1 + 1) with m by lia. apply Z.mod_same. lia.
  - replace (c - 1 + Z.of_nat (S n)) with (c - 1 + Z.of_nat n + 1) by lia.
    rewrite (Z.add_mod _ 1), (Z.mod_small 1), (Z.mod_small (_ + 1)) by lia. lia.
Qed.

Definition keeps_caches (x y : env * ant_shape) : Prop :=
  ic_epoch y.1 = ic_epoch x.1 /\
  (forall c i p, caches_slot x.2 c i p -> caches_slot y.2 c i p) /\
  (forall q, 0 <= q < 2 ^ 63 -> caches_absence x.1 x.2 q -> caches_absence y.1 y.2 q).

Lemma keeps_refl x : keeps_caches x x.
Proof. unfold keeps_caches. auto. Qed.

Lemma keeps_trans x y z : keeps_caches x y -> keeps_caches y z -> keeps_caches x z.
Proof. intros (E1 & S1 & A1) (E2 & S2 & A2). unfold keeps_caches. splits; [congruence|auto|auto]. Qed.

Lemma keeps_same_table e s e' s' : ic_epoch e' = ic_epoch e -> props s' = props s -> index s' = index s ->
  (absence_guard_epoch s = ic_epoch e -> absence_guard_epoch s' = ic_epoch e) -> keeps_caches (e, s) (e', s').
Proof.
  intros He Hp Hi Hg. unfold keeps_caches, caches_slot, caches_absence, shape_lookup. cbn. rewrite He, Hp, Hi.
  splits; auto. intros q _ [H1 H2]. auto.
Qed.

Lemma invalidate_epoch e s e' s' : epoch_ok e -> shape_invalidate_guarded_absence e s = (e', s') ->
  ic_epoch e' = next_epoch (ic_epoch e) \/
  (ic_epoch e' = ic_epoch e /\ absence_guard_epoch s <> ic_epoch e).
Proof.
  intros He. unfold shape_invalidate_guarded_absence. case_ifs; intros [= <- <-].
  - right. split; [reflexivity|]. unfold epoch_ok in He. lia.
  - right. auto.
  - left. apply bump_next, He.
Qed.

(** A key appended to the table keeps every cached slot, and the absence of
    the other keys. *)
Lemma append_keeps s s1 k a : shape_lookup s (key_code k) = None ->
  props s1 = props s ++ [ShapeProp k a 0 0 0 0] ->
  index s1 = index s \/ index s1 = <[key_code k := length (props s)]> (index s) ->
  forall c i p, caches_slot s c i p -> caches_slot s1 c i p.
Proof.
  intros Hn Hp Hix c i p [Hl Hpi]. unfold caches_slot, shape_lookup in *. rewrite Hp. split.
  - destruct Hix as [Hix|Hix]; rewrite Hix; [exact Hl|]. rewrite lookup_insert_ne by congruence. exact Hl.
  - rewrite lookup_app_l by (eapply lookup_lt_Some; eauto). exact Hpi.
Qed.

Lemma add_keeps grant szp sze e s k a r e' s' : epoch_ok e -> valid_key k ->
  shape_add_key grant szp sze e s k a = (r, e', s') ->
  ic_epoch e' = next_epoch (ic_epoch e) \/ keeps_caches (e, s) (e', s').
Proof.
  intros He Hk. unfold shape_add_key. destruct (shape_lookup s (key_code k)) as [slot|] eqn:El.
  { intros [= <- <- <-]. left. apply bump_next, He. }
  destruct (shape_ensure_capacity grant szp e s _) as [[ok e1] s1] eqn:Ec.
  apply ensure_capacity_spec in Ec as (He1 & Es & Hf & _). destruct ok; cbn [negb].
  2: { intros [= <- <- <-]. right. destruct (Hf eq_refl) as [-> _]. apply keeps_same_table; auto. }
  rewrite Es. cbn [props set_cap set_props index set_index].
  destruct (shape_entry_alloc grant e1) as [ok e2] eqn:Ea. apply entry_alloc_epoch in Ea as [He2 _].
  assert (He12 : ic_epoch e2 = ic_epoch e) by congruence. destruct ok; cbn [negb].
  2: { intros [= <- <- <-]. right. unfold keeps_caches. splits; cbn; auto.
       - apply (append_keeps s _ k a); auto.
       - intros q _ [H1 H2]. split; [cbn in *; congruence|exact H2]. }
  set (s3 := set_index _ _).
  assert (Hslots : forall c i p, caches_slot s c i p -> caches_slot s3 c i p).
  { apply (append_keeps s _ k a); auto. }
  destruct k as [x|x|]; [| |contradiction].
  - destruct (shape_invalidate_guarded_absence _ s3) as [e4 s4] eqn:Ei. intros [= <- <- <-].
    assert (He' : epoch_ok (add_bytes e2 sze)) by (unfold epoch_ok in *; cbn; lia).
    destruct (invalidate_epoch _ _ _ _ He' Ei) as [Hn|[Hn Hg]].
    + left. cbn in Hn. congruence.
    + right. apply invalidate_spec in Ei as [g ->]. unfold keeps_caches. splits; [cbn in *; congruence|exact Hslots|].
      intros q _ [Hq _]. exfalso. cbn in Hq, Hg. congruence.
  - intros [= <- <- <-]. right. unfold keeps_caches. splits; [cbn; congruence|exact Hslots|].
    intros q Hq [H1 H2]. cbn in Hk. split; [cbn in *; congruence|].
    unfold shape_lookup, s3 in *. cbn [snd index set_index]. rewrite lookup_insert_ne; [exact H2|].
    cbn. rewrite code_string, code_symbol by assumption. lia.
Qed.

Lemma step_keeps grant szp sze x y : epoch_ok x.1 -> shape_step grant szp sze x y ->
  ic_epoch y.1 = next_epoch (ic_epoch x.1) \/ keeps_caches x y.
Proof.
  intros He H. destruct H as [e s k a r e' s' Hk E|e s slot a ok e' s' E|e s slot ok e' s' E|e s slot ok e' s' E
    |e s|e s n|e s e' E|e s]; cbn in He |- *.
  - eapply add_keeps; eauto.
  - revert E. unfold set_attrs_at. case_if; intros [= <- <- <-]; [right; apply keeps_refl|left; apply bump_next, He].
  - revert E. unfold ant_shape_clear_accessor_slot. destruct (ant_shape_prop_at s slot); intros [= <- <- <-];
      [left; apply bump_next, He|right; apply keeps_refl].
  - revert E. unfold delete_slot, ant_shape_remove_slot.
    destruct (props s !! slot) as [p|]; [|intros [= <- <- <-]; right; apply keeps_refl].
    destruct (is_deleted p); [intros [= <- <- <-]; right; apply keeps_refl|].
    destruct (shape_lookup s _); cbn [andb]; case_if; intros [= <- <- <-]; left;
      try (apply bump_next, He); rewrite bump_next; unfold epoch_ok in *; rewrite entry_free_epoch; auto.
  - right. apply keeps_same_table; auto.
  - right. apply keeps_same_table; auto.
  - right. apply keeps_same_table; auto.
  - left. apply bump_next, He.
Qed.

Lemma next_epoch_ok c : 1 <= c < 2 ^ 32 -> 1 <= next_epoch c < 2 ^ 32.
Proof. unfold next_epoch. case_if; boolprop; lia. Qed.

Lemma steps_keep grant szp sze n x y : nsteps (shape_step grant szp sze) n x y -> epoch_ok x.1 ->
  exists b, (b <= n)%nat /\ ic_epoch y.1 = Nat.iter b next_epoch (ic_epoch x.1) /\
  (b = O -> keeps_caches x y).
Proof.
  induction 1 as [x|n x y z Hxy Hyz IH]; intros He.
  { exists O. splits; auto using keeps_refl. }
  destruct (step_keeps _ _ _ _ _ He Hxy) as [Hb|Hk].
  - destruct IH as (b & Hle & Hz & _); [unfold epoch_ok in *; rewrite Hb; apply next_epoch_ok, He|].
    exists (S b). splits; [lia| |discriminate]. rewrite Nat.iter_succ_r, <- Hb. exact Hz.
  - destruct IH as (b & Hle & Hz & Hkz); [unfold epoch_ok in *; destruct Hk as [-> _]; exact He|].
    exists b. splits; [lia|destruct Hk as [<- _]; exact Hz|]. intros Hb. eapply keeps_trans; eauto.
Qed.

(** ** Every outcome of an operation *)

(** A failed addition leaves at most one property, which the index does not know. *)
Lemma failed_add_props grant szp sze e s k a e' s' : shape_add_key grant szp sze e s k a = (None, e', s') ->
  index s' = index s /\ (props s' = props s \/ props s' = props s ++ [ShapeProp k a 0 0 0 0]).
Proof.
  unfold shape_add_key. destruct (shape_lookup s (key_code k)); [discriminate|].
  destruct (shape_ensure_capacity _ _ _ _ _) as [[ok e1] s1] eqn:Ec. apply ensure_capacity_spec in Ec as (_ & Es & Hf & _).
  destruct ok; cbn [negb]; [|intros [= <- <-]; destruct (Hf eq_refl) as [-> _]; auto].
  rewrite Es. destruct (shape_entry_alloc grant e1) as [[|] e2]; cbn [negb]; [|intros [= <- <-]; cbn; auto].
  destruct k; try discriminate. destruct (shape_invalidate_guarded_absence _ _). discriminate.
Qed.

Lemma set_attrs_spec e s k a b e' s' : table_ok s -> ant_shape_count s < 2 ^ 30 -> valid_key k ->
  set_attrs_at e s (slot_result (shape_lookup s (key_code k))) a = (b, e', s') ->
  table_ok s' /\ b = existsb (has_key k) (entries s) /\ entries s' = if b then upsert k a (entries s) else entries s.
Proof.
  intros Ht Hsz Hk. pose proof (existsb_key s k Ht Hk) as Hex. unfold set_attrs_at, slot_result.
  destruct (shape_lookup s (key_code k)) as [i|] eqn:El; [|intros [= <- <- <-]; rewrite Hex; auto].
  pose proof El as El'. apply lookup_spec in El' as (p & Hp & Hpk); auto. pose proof (lookup_lt_Some _ _ _ Hp).
  unfold ant_shape_count in Hsz. rewrite to_i32_small by lia. destruct (Z.ltb_spec (Z.of_nat i) 0); [lia|].
  intros [= <- <- <-]. rewrite Nat2Z.id, Hex. splits; [apply alter_ok; auto|reflexivity|].
  assert (Hl : is_deleted p = false) by (unfold is_deleted; rewrite Hpk; destruct k; auto; contradiction).
  unfold upsert. rewrite Hex. cbn. subst k. apply alter_entries; auto.
Qed.

Lemma clear_accessor_spec e s slot b e' s' : table_ok s -> ant_shape_clear_accessor_slot e s slot = (b, e', s') ->
  match ant_shape_prop_at s slot with
  | Some p => b = true /\ table_ok s' /\
      entries s' = map (fun q => if has_key (pkey p) q then clear_accessor q else q) (entries s)
  | None => b = false /\ s' = s
  end.
Proof.
  intros Ht. unfold ant_shape_clear_accessor_slot. destruct (ant_shape_prop_at s slot) as [p|] eqn:Hp; intros [= <- <- <-]; [|auto].
  unfold ant_shape_prop_at in Hp. destruct (props s !! slot) as [q|] eqn:Hq; [|discriminate].
  destruct (is_deleted q) eqn:Hd; [discriminate|]. injection Hp as ->.
  splits; [reflexivity|apply alter_ok; auto|apply alter_entries; auto].
Qed.

Lemma remove_slot_cases e s slot b e' s' : table_ok s -> ant_shape_remove_slot e s slot = (b, e', s') ->
  match ant_shape_prop_at s slot with
  | Some p => b = true /\ table_ok s' /\ entries s' = without (pkey p) (entries s) /\
      forall i q, is_deleted q = false -> props s' !! i = Some q <-> props s !! i = Some q /\ i <> slot
  | None => b = false /\ s' = s
  end.
Proof.
  intros Ht E. unfold ant_shape_prop_at. destruct (props s !! slot) as [q|] eqn:Hq.
  - destruct (is_deleted q) eqn:Hd.
    + unfold ant_shape_remove_slot in E. rewrite Hq, Hd in E. injection E as <- <- <-. auto.
    + destruct (remove_slot_spec e s slot q e' b s' Ht Hq Hd E) as (H1 & H2 & H3 & H4 & _). auto.
  - unfold ant_shape_remove_slot in E. rewrite Hq in E. injection E as <- <- <-. auto.
Qed.

(** ** The properties *)

(** C6: a shape with a well-formed table of fewer than 2^30 properties is an
    insertion-ordered dictionary, and every operation on the table that
    succeeds keeps it well formed (the hash index, the count of deleted slots,
    the capacity). Adding a key updates its attributes in place or appends it;
    setting attributes and clearing an accessor change the entry of that key
    and no other, and do nothing when there is none; removing a slot takes out
    exactly its key and moves no other one, and refuses an empty slot;
    compaction keeps the order and leaves no holes; a clone has the same slots
    and a single owner. Adding and cloning fail only when memory is refused. A
    failed addition leaves every slot and the index as they were, but can leave
    one more property behind the last slot, which no lookup finds and which the
    other operations do not expect. *)
Theorem shape_table_refines grant szs szp sze e s : table_ok s -> ant_shape_count s < 2 ^ 30 ->
  (forall k a r e' s', valid_key k -> shape_add_key grant szp sze e s k a = (r, e', s') ->
     match r with
     | Some slot => table_ok s' /\ entries s' = upsert k a (entries s) /\
         exists p, props s' !! slot = Some p /\ pkey p = k /\ attrs p = a
     | None => shape_starved grant /\ index s' = index s /\
         (props s' = props s \/ props s' = props s ++ [ShapeProp k a 0 0 0 0])
     end) /\
  (forall k slot a b e' s', valid_key k -> slot = slot_result (shape_lookup s (key_code k)) ->
     set_attrs_at e s slot a = (b, e', s') ->
     table_ok s' /\ b = existsb (has_key k) (entries s) /\
     entries s' = if b then upsert k a (entries s) else entries s) /\
  (forall slot b e' s', ant_shape_clear_accessor_slot e s slot = (b, e', s') ->
     match ant_shape_prop_at s slot with
     | Some p => b = true /\ table_ok s' /\
         entries s' = map (fun q => if has_key (pkey p) q then clear_accessor q else q) (entries s)
     | None => b = false /\ s' = s
     end) /\
  (forall slot b e' s', ant_shape_remove_slot e s slot = (b, e', s') ->
     match ant_shape_prop_at s slot with
     | Some p => b = true /\ table_ok s' /\ entries s' = without (pkey p) (entries s) /\
         forall i q, is_deleted q = false -> props s' !! i = Some q <-> props s !! i = Some q /\ i <> slot
     | None => b = false /\ s' = s
     end) /\
  (forall n s', ant_shape_compact s = (n, s') ->
     table_ok s' /\ props s' = entries s /\ n = length (props s')) /\
  (forall r e', ant_shape_clone grant szs szp sze e s = (r, e') ->
     match r with
     | Some c => table_ok c /\ props c = props s /\ ref_count c = 1
     | None => shape_starved grant
     end).
Proof.
  intros Ht Hsz. splits.
  - intros k a r e' s' Hk E. pose proof (shape_add_key_spec _ _ _ _ _ _ _ _ _ _ Ht Hk Hsz E) as H.
    destruct r; [exact H|]. split; [exact H|]. eapply failed_add_props; exact E.
  - intros k slot a b e' s' Hk -> E. eapply set_attrs_spec; eauto.
  - intros slot b e' s' E. eapply clear_accessor_spec; eauto.
  - intros slot b e' s' E. eapply remove_slot_cases; eauto.
  - intros n s' E. apply compact_spec in E as (? & ? & ? & ? & ?); auto.
  - intros r e' E. apply clone_spec in E; [|exact Ht|lia]. destruct r as [c|]; [|exact E].
    destruct E as (? & ? & ? & _). auto.
Qed.


Definition env0 : env := Env 1 0 0 0.
Definition shape0 : ant_shape := Shape 1 0 0 4 0 [] ∅.

Lemma shape0_ok : table_ok shape0.
Proof.
  split; cbn; auto; try discriminate; [|unfold ant_shape_count; cbn; lia].
  intros c i. split; [discriminate|]. intros (p & Hp & _). discriminate.
Qed.

Definition grants : nat -> bool := fun _ => true.

Lemma shape_table_refines_witness :
  let '(r, e', s') := shape_add_key grants 40 64 env0 shape0 (ANT_SHAPE_KEY_STRING 16) 7 in
  r = Some O /\ table_ok s' /\ entries s' = [ShapeProp (ANT_SHAPE_KEY_STRING 16) 7 0 0 0 0].
Proof.
  destruct (shape_add_key grants 40 64 env0 shape0 (ANT_SHAPE_KEY_STRING 16) 7) as [[r e'] s'] eqn:E.
  assert (r = Some O) as -> by (vm_compute in E; congruence).
  destruct (shape_table_refines grants 100 40 64 env0 shape0 shape0_ok ltac:(reflexivity)) as (H & _).
  apply H in E as (H1 & H2 & _); [|cbn; lia]. split; [reflexivity|]. split; [exact H1|exact H2].
Defined.


(** Two faults of the code.  When the allocation of the index entry fails,
    [shape_add_key] reports failure but keeps the property it appended, which
    no lookup finds; and [ant_shape_remove_slot] gives an index entry back
    without taking its size off the byte count. *)
Definition refuses_second : nat -> bool := fun n => (n =? 0)%nat.

Lemma add_oom_leaves_property :
  let '(r, _, s') := shape_add_key refuses_second 40 64 env0 shape0 (ANT_SHAPE_KEY_STRING 16) 7 in
  r = None /\ ant_shape_count s' = 1 /\ ant_shape_lookup_interned s' 16 = -1.
Proof. vm_compute. auto. Qed.

Lemma remove_slot_keeps_bytes :
  let '(_, e1, s1) := shape_add_key grants 40 64 env0 shape0 (ANT_SHAPE_KEY_STRING 16) 7 in
  let '(_, e2, s2) := ant_shape_remove_slot e1 s1 0 in
  shape_bytes (shape_free_table 0 40 64 e2 s2) = 64.
Proof. vm_compute. reflexivity. Qed.
