(* ===== verification/Objects.v ===== *)
(** * Property storage of objects

    [src/include/object.h] and [src/src/ant.c]: the values of an object live
    in slots, the first few inside the object ([inobj]) and the rest in an
    array [overflow_prop] whose capacity is kept in a [uint8_t].  The object's
    shape (file [Shapes]) names the slots.  Modelled are slot access,
    [js_obj_ensure_prop_capacity], [js_obj_ensure_unique_shape] and the
    deletion of a property, which leaves a hole or compacts shape and values
    together.  An access outside the arrays is the value [None]. *)

From S2P Require Import Prelude Shapes.

(** ** Data *)

(** A NULL [overflow_prop] is the empty array. *)
Record ant_object := Obj {
  inobj : list Z; overflow_prop : list Z; overflow_cap : Z; prop_count : Z; o_inobj_limit : Z }.

Definition set_count (o : ant_object) (n : Z) : ant_object :=
  Obj (inobj o) (overflow_prop o) (overflow_cap o) n (o_inobj_limit o).
Definition set_overflow (o : ant_object) (l : list Z) (c : Z) : ant_object :=
  Obj (inobj o) l c (prop_count o) (o_inobj_limit o).

Definition ant_object_inobj_limit (o : ant_object) : Z :=
  if ANT_INOBJ_MAX_SLOTS <? o_inobj_limit o then ANT_INOBJ_MAX_SLOTS else o_inobj_limit o.

Definition ant_object_prop_get_unchecked (o : ant_object) (slot : Z) : option Z :=
  if slot <? ant_object_inobj_limit o then inobj o !! Z.to_nat slot
  else overflow_prop o !! Z.to_nat (slot - ant_object_inobj_limit o).

Definition put (l : list Z) (i : Z) (v : Z) : option (list Z) :=
  if (Z.to_nat i <? length l)%nat then Some (<[Z.to_nat i := v]> l) else None.

Definition ant_object_prop_set_unchecked (o : ant_object) (slot v : Z) : option ant_object :=
  if slot <? ant_object_inobj_limit o then
    match put (inobj o) slot v with
    | Some l => Some (Obj l (overflow_prop o) (overflow_cap o) (prop_count o) (o_inobj_limit o))
    | None => None
    end
  else
    match put (overflow_prop o) (slot - ant_object_inobj_limit o) v with
    | Some l => Some (set_overflow o l (overflow_cap o))
    | None => None
    end.

Section Code.
(** Which allocations succeed; [undef] is [js_mkundef()], [junk] what fresh
    memory holds; the sizes are those of the shape structures. *)
Context (grant : nat -> bool) (undef junk : Z) (sizeof_shape sizeof_prop sizeof_entry : Z).

(** [js_prop_load] and the store of [js_prop_store] (without the write
    barrier and the prototype invalidation). *)
Definition js_prop_load (o : ant_object) (slot : Z) : option Z :=
  if prop_count o <=? slot then Some undef else ant_object_prop_get_unchecked o slot.
Definition js_prop_store (o : ant_object) (slot v : Z) : option (bool * ant_object) :=
  if prop_count o <=? slot then Some (false, o)
  else option_map (pair true) (ant_object_prop_set_unchecked o slot v).

(** [for (i = from; ...; i++) set(i, undefined)], [n] times. *)
Fixpoint fill (n : nat) (i : Z) (o : ant_object) : option ant_object :=
  match n with
  | O => Some o
  | S n => match ant_object_prop_set_unchecked o i undef with
           | Some o => fill n (i + 1) o
           | None => None
           end
  end.

(** The reallocation inside [js_obj_ensure_prop_capacity]. *)
Definition reserve_overflow (e : env) (o : ant_object) (needed : Z) : bool * env * ant_object :=
  let inobj_limit := ant_object_inobj_limit o in
  if inobj_limit <? needed then
    let overflow_needed := u32 (needed - inobj_limit) in
    if overflow_cap o <? overflow_needed then
      let new_cap := grow_cap 32 (if overflow_cap o =? 0 then 4 else u32 (overflow_cap o * 2)) overflow_needed in
      let new_cap := if 255 <? new_cap then overflow_needed else new_cap in
      let '(ok, e) := shape_request grant e in
      if negb ok then (false, e, o)
      else (true, e, set_overflow o (resize (Z.to_nat new_cap) junk (overflow_prop o)) (u8 new_cap))
    else (true, e, o)
  else (true, e, match overflow_prop o with [] => o | _ => set_overflow o [] 0 end).

Definition js_obj_ensure_prop_capacity (e : env) (o : ant_object) (needed : Z)
  : option (bool * env * ant_object) :=
  let old_count := prop_count o in
  if needed <=? prop_count o then Some (true, e, o)
  else match reserve_overflow e o needed with
  | (false, e, o) => Some (false, e, o)
  | (true, e, o) =>
      match fill (Z.to_nat (needed - old_count)) old_count (set_count o needed) with
      | Some o => Some (true, e, o)
      | None => None
      end
  end.

(** The object's shape afterwards and, when it was shared, what is left of
    the old one; [None] is [false]. *)
Definition js_obj_ensure_unique_shape (e : env) (s : ant_shape)
  : option (ant_shape * option ant_shape) * env :=
  if negb (ant_shape_is_shared s) then (Some (s, None), e)
  else match ant_shape_clone grant sizeof_shape sizeof_prop sizeof_entry e s with
       | (Some copy, e) => (Some (copy, Some (set_refs s (ref_count s - 1))), e)
       | (None, e) => (None, e)
       end.

(** The loop of [obj_delete_prop_slot] that moves values down: [n] slots are
    left from [src] on. *)
Fixpoint move_down (s : ant_shape) (n : nat) (src dst : nat) (o : ant_object)
  : option (nat * ant_object) :=
  match n with
  | O => Some (dst, o)
  | S n =>
      match ant_shape_prop_at s src with
      | None => move_down s n (S src) dst o
      | Some _ =>
          if (dst =? src)%nat then move_down s n (S src) (S dst) o
          else match ant_object_prop_get_unchecked o (Z.of_nat src) with
               | None => None
               | Some v =>
                   match ant_object_prop_set_unchecked o (Z.of_nat dst) v with
                   | None => None
                   | Some o => move_down s n (S src) (S dst) o
                   end
               end
      end
  end.

Definition obj_delete_prop_slot (o : ant_object) (s : ant_shape) (slot : Z)
  : option (ant_object * ant_shape) :=
  if prop_count o <=? slot then Some (o, s)
  else match ant_object_prop_set_unchecked o slot undef with
  | None => None
  | Some o =>
      let shape_count := length (props s) in
      if negb (ant_shape_should_compact s) then Some (set_count o (Z.of_nat shape_count), s)
      else match move_down s shape_count 0 0 o with
      | None => None
      | Some (dst, o) =>
          match fill (Z.to_nat (prop_count o - Z.of_nat dst)) (Z.of_nat dst) o with
          | None => None
          | Some o =>
              let '(n, s) := ant_shape_compact s in
              Some (set_count o (Z.of_nat n), s)
          end
      end
  end.

(** What [js_delete_prop] and [js_delete_sym_prop] do with a configurable
    property at a slot.  [Oom] is the error, [Fault] an access out of bounds. *)
Inductive delete_result :=
| Deleted (e : env) (o : ant_object) (s : ant_shape) (shared : option ant_shape)
| Oom (e : env)
| Fault.

Definition delete_own_slot (e : env) (o : ant_object) (s : ant_shape) (slot : nat) : delete_result :=
  match js_obj_ensure_unique_shape e s with
  | (None, e) => Oom e
  | (Some (s, shared), e) =>
      match ant_shape_remove_slot e s slot with
      | (false, e, s) => Deleted e o s shared
      | (true, e, s) =>
          match obj_delete_prop_slot o s (Z.of_nat slot) with
          | Some (o, s) => Deleted e o s shared
          | None => Fault
          end
      end
  end.

End Code.

(** ** Slots as one array *)

Definition slots (o : ant_object) : list Z :=
  take (Z.to_nat (ant_object_inobj_limit o)) (inobj o) ++ overflow_prop o.

(** The object's own fields: the limit is the in-object array's, the 8-bit
    capacity never exceeds the real one, every counted slot exists. *)
Record storage_ok (o : ant_object) : Prop := {
  st_inobj : length (inobj o) = 4%nat;
  st_limit : 0 <= o_inobj_limit o;
  st_cap : 0 <= overflow_cap o <= zlen (overflow_prop o) /\ overflow_cap o < 256;
  st_count : 0 <= prop_count o <= zlen (slots o) }.

Lemma limit_range o : storage_ok o -> 0 <= ant_object_inobj_limit o <= 4.
Proof.
  intros Ho. pose proof (st_limit o Ho). unfold ant_object_inobj_limit, ANT_INOBJ_MAX_SLOTS. case_if; boolprop; lia.
Qed.

Lemma inobj_part o : storage_ok o ->
  length (take (Z.to_nat (ant_object_inobj_limit o)) (inobj o)) = Z.to_nat (ant_object_inobj_limit o).
Proof. intros Ho. pose proof (limit_range o Ho). rewrite length_take, (st_inobj o Ho). lia. Qed.

Lemma get_slots o i : storage_ok o -> 0 <= i -> ant_object_prop_get_unchecked o i = slots o !! Z.to_nat i.
Proof.
  intros Ho Hi. pose proof (limit_range o Ho). pose proof (inobj_part o Ho) as Hl.
  unfold ant_object_prop_get_unchecked, slots. destruct (Z.ltb_spec i (ant_object_inobj_limit o)).
  - rewrite lookup_app_l by lia. rewrite lookup_take_lt by lia. reflexivity.
  - rewrite lookup_app_r by lia. rewrite Hl. f_equal. lia.
Qed.

Lemma set_slots o i v : storage_ok o -> 0 <= i < zlen (slots o) ->
  exists o', ant_object_prop_set_unchecked o i v = Some o' /\ storage_ok o' /\
    slots o' = <[Z.to_nat i := v]> (slots o) /\ prop_count o' = prop_count o /\
    o_inobj_limit o' = o_inobj_limit o /\ overflow_cap o' = overflow_cap o.
Proof.
  intros Ho Hi. pose proof (limit_range o Ho). pose proof (inobj_part o Ho) as Hl. pose proof (st_inobj o Ho).
  unfold ant_object_prop_set_unchecked, put. unfold zlen, slots in Hi. rewrite length_app, Hl in Hi.
  destruct (Z.ltb_spec i (ant_object_inobj_limit o)).
  - destruct (Nat.ltb_spec (Z.to_nat i) (length (inobj o))); [|lia]. eexists. split; [reflexivity|].
    assert (Es : forall o', o' = Obj (<[Z.to_nat i:=v]> (inobj o)) (overflow_prop o) (overflow_cap o) (prop_count o) (o_inobj_limit o) ->
      slots o' = <[Z.to_nat i := v]> (slots o)).
    { intros o' ->. unfold slots, ant_object_inobj_limit in *. cbn [inobj overflow_prop o_inobj_limit] in *.
      rewrite insert_app_l by lia. f_equal. apply take_insert_lt. lia. }
    splits; [|auto|reflexivity..]. destruct Ho as [S1 S2 S3 S4].
    split; [cbn; rewrite length_insert; auto|auto|auto|]. rewrite (Es _ eq_refl). unfold zlen. rewrite length_insert. exact S4.
  - destruct (Nat.ltb_spec (Z.to_nat (i - ant_object_inobj_limit o)) (length (overflow_prop o))); [|lia].
    eexists. split; [reflexivity|].
    assert (Es : forall o', o' = set_overflow o (<[Z.to_nat (i - ant_object_inobj_limit o):=v]> (overflow_prop o)) (overflow_cap o) ->
      slots o' = <[Z.to_nat i := v]> (slots o)).
    { intros o' ->. unfold slots at 1. cbn [inobj overflow_prop o_inobj_limit set_overflow].
      unfold slots. rewrite insert_app_r_alt by lia. rewrite Hl.
      change (ant_object_inobj_limit (set_overflow o _ _)) with (ant_object_inobj_limit o). f_equal. f_equal. lia. }
    splits; [|auto|reflexivity..]. destruct Ho as [S1 S2 S3 S4].
    split; [auto|auto|cbn; unfold zlen in *; rewrite length_insert; auto|].
    rewrite (Es _ eq_refl). unfold zlen. rewrite length_insert. exact S4.
Qed.

Lemma fill_spec undef n : forall i o, storage_ok o -> 0 <= i -> i + Z.of_nat n <= zlen (slots o) ->
  exists o', fill undef n i o = Some o' /\ storage_ok o' /\ prop_count o' = prop_count o /\
    length (slots o') = length (slots o) /\
    forall j, slots o' !! j = if decide (i <= Z.of_nat j < i + Z.of_nat n) then Some undef else slots o !! j.
Proof.
  induction n as [|n IH]; intros i o Ho Hi Hn; cbn [fill].
  { exists o. splits; auto. intros j. rewrite decide_False by lia. reflexivity. }
  destruct (set_slots o i undef Ho) as (o1 & -> & Ho1 & Hs & Hp & _); [lia|].
  assert (Hlen : length (slots o1) = length (slots o)) by (rewrite Hs; apply length_insert).
  destruct (IH (i + 1) o1 Ho1) as (o' & -> & Ho' & Hp' & Hl' & Hj); [lia|unfold zlen in *; rewrite Hlen; lia|].
  exists o'. splits; [reflexivity|exact Ho'|congruence|congruence|]. intros j. rewrite Hj, Hs.
  destruct (decide (Z.to_nat i = j)) as [<-|Hne].
  - rewrite list_lookup_insert_eq by (unfold zlen in Hn; lia). rewrite (decide_False (P := i + 1 <= _ < _)) by lia.
    rewrite decide_True by lia. reflexivity.
  - rewrite list_lookup_insert_ne by exact Hne. destruct (decide (i + 1 <= Z.of_nat j < _)).
    + rewrite decide_True by lia. reflexivity.
    + rewrite decide_False by lia. reflexivity.
Qed.

Lemma set_count_ok o n : storage_ok o -> 0 <= n <= zlen (slots o) -> storage_ok (set_count o n).
Proof. intros [] Hn. split; auto. Qed.

Lemma slots_overflow o l c : slots (set_overflow o l c) = take (Z.to_nat (ant_object_inobj_limit o)) (inobj o) ++ l.
Proof. reflexivity. Qed.

Lemma resize_prefix (n k : nat) (junk : Z) (l : list Z) : (k <= n)%nat -> (k <= length l)%nat ->
  take k (resize n junk l) = take k l.
Proof.
  intros Hn Hl. apply list_eq. intros i. destruct (decide (i < k)%nat).
  - rewrite !lookup_take_lt by lia. rewrite lookup_resize by lia. reflexivity.
  - rewrite !lookup_take_ge by lia. reflexivity.
Qed.

Lemma reserve_spec grant junk e o needed : storage_ok o -> prop_count o < needed < 2 ^ 30 ->
  exists ok e1 o1, reserve_overflow grant junk e o needed = (ok, e1, o1) /\
  (ok = false -> o1 = o /\ shape_starved grant) /\
  (ok = true -> storage_ok o1 /\ needed <= zlen (slots o1) /\ prop_count o1 = prop_count o /\
     take (Z.to_nat (prop_count o)) (slots o1) = take (Z.to_nat (prop_count o)) (slots o)).
Proof.
  intros Ho Hn. pose proof (limit_range o Ho) as Hlim. pose proof (inobj_part o Ho) as Hin.
  destruct (st_cap o Ho) as [Hcap H256]. pose proof (st_count o Ho) as Hcnt.
  unfold zlen, slots in Hcnt. rewrite length_app, Hin in Hcnt. unfold zlen in Hcap. unfold reserve_overflow.
  destruct (Z.ltb_spec (ant_object_inobj_limit o) needed) as [Hbig|Hsmall].
  2: { do 3 eexists. split; [reflexivity|]. split; [discriminate|]. intros _.
       destruct (overflow_prop o) as [|v l] eqn:Eo.
       - splits; auto. unfold zlen, slots. rewrite length_app, Hin. lia.
       - rewrite slots_overflow, app_nil_r. splits; auto; [|unfold zlen; rewrite Hin; lia|].
         + destruct Ho as [S1 S2 S3 S4]. split; cbn; auto; [unfold zlen; cbn; lia|].
           change (slots (set_overflow o [] 0)) with (take (Z.to_nat (ant_object_inobj_limit o)) (inobj o) ++ []).
           rewrite app_nil_r. unfold zlen. rewrite Hin. lia.
         + unfold slots. rewrite take_app_le by lia. reflexivity. }
  cbv zeta. set (k := u32 (needed - ant_object_inobj_limit o)).
  assert (Hk : k = needed - ant_object_inobj_limit o) by (unfold k; rewrite wrap_small; lia). clearbody k.
  destruct (Z.ltb_spec (overflow_cap o) k) as [Hgrow|Hfit].
  2: { do 3 eexists. split; [reflexivity|]. split; [discriminate|]. intros _. splits; auto.
       unfold zlen, slots. rewrite length_app, Hin. lia. }
  set (g := grow_cap 32 _ k).
  assert (Hg : k <= (if 255 <? g then k else g) /\ (255 < g \/ g < 256)).
  { split; [|lia]. case_if; [lia|]. unfold g. pose proof (grow_cap_spec k 32 (if overflow_cap o =? 0 then 4 else u32 (overflow_cap o * 2))) as G.
    change (2 ^ Z.of_nat 32) with (2 ^ 32) in G.
    destruct (Z.eqb_spec (overflow_cap o) 0); [|rewrite wrap_small in G |- * by lia]; lia. }
  set (nc := if 255 <? g then k else g) in *. clearbody g nc.
  destruct (shape_request grant e) as [ok e1] eqn:Er. apply request_epoch in Er as [_ Hf].
  destruct ok; cbn [negb]; do 3 eexists; (split; [reflexivity|]); (split; [intros Hok; try discriminate; auto|]);
    intros Hok; [|discriminate].
  rewrite slots_overflow. unfold zlen. rewrite length_app, Hin, length_resize. splits; auto; [|lia|].
  - destruct Ho as [S1 S2 S3 S4]. split; cbn [inobj overflow_prop overflow_cap prop_count o_inobj_limit set_overflow]; auto.
    + unfold zlen. rewrite length_resize. pose proof (wrap_range 8 nc ltac:(lia)).
      split; [|lia]. split; [lia|]. unfold wrap. pose proof (Z.mod_le nc (2 ^ 8)). lia.
    + rewrite slots_overflow. unfold zlen. rewrite length_app, Hin, length_resize. lia.
  - unfold slots. rewrite !take_app. f_equal. rewrite Hin. apply resize_prefix; lia.
Qed.

Lemma ensure_prop_capacity_spec grant undef junk e o needed : storage_ok o -> 0 <= needed < 2 ^ 30 ->
  exists ok e1 o1, js_obj_ensure_prop_capacity grant undef junk e o needed = Some (ok, e1, o1) /\
  (ok = false -> shape_starved grant /\ o1 = o) /\
  (ok = true -> storage_ok o1 /\ prop_count o1 = Z.max needed (prop_count o) /\
     forall j, Z.of_nat j < prop_count o1 ->
       slots o1 !! j = if decide (Z.of_nat j < prop_count o) then slots o !! j else Some undef).
Proof.
  intros Ho Hn. unfold js_obj_ensure_prop_capacity. destruct (Z.leb_spec needed (prop_count o)).
  { do 3 eexists. split; [reflexivity|]. split; [discriminate|]. intros _. splits; auto; [lia|].
    intros j Hj. rewrite decide_True by lia. reflexivity. }
  destruct (reserve_spec grant junk e o needed Ho) as (ok & e1 & o1 & -> & Hf & Ht); [lia|].
  destruct ok.
  2: { do 3 eexists. split; [reflexivity|]. split; [intros _; destruct (Hf eq_refl); auto|discriminate]. }
  destruct (Ht eq_refl) as (Ho1 & Hlen & Hpc & Hpre). pose proof (st_count o Ho).
  destruct (fill_spec undef (Z.to_nat (needed - prop_count o)) (prop_count o) (set_count o1 needed))
    as (o' & -> & Ho' & Hp' & Hl' & Hj).
  { apply set_count_ok; [exact Ho1|lia]. }
  { lia. }
  { change (slots (set_count o1 needed)) with (slots o1). lia. }
  do 3 eexists. split; [reflexivity|]. split; [discriminate|]. intros _. cbn in Hp'. splits; [exact Ho'|lia|].
  intros j Hlt. rewrite Hj. change (slots (set_count o1 needed)) with (slots o1). destruct (decide (Z.of_nat j < prop_count o)).
  - rewrite decide_False by lia. pose proof (f_equal (fun l => l !! j) Hpre) as E. cbv beta in E.
    rewrite !lookup_take_lt in E by lia. exact E.
  - rewrite decide_True by lia. reflexivity.
Qed.

(** ** Objects as ordered maps *)

Definition obj_ok (o : ant_object) (s : ant_shape) : Prop :=
  storage_ok o /\ table_ok s /\ prop_count o = ant_shape_count s.

Definition live (q : ant_shape_prop_t * Z) : bool := negb (is_deleted q.1).

(** The properties with their values, in order. *)
Definition view (o : ant_object) (s : ant_shape) : list (ant_shape_prop_t * Z) :=
  List.filter live (zip (props s) (slots o)).

Lemma filter_live_cons p x r : List.filter live ((p, x) :: r) =
  if is_deleted p then List.filter live r else (p, x) :: List.filter live r.
Proof. cbn. unfold live at 1. cbn. destruct (is_deleted p); reflexivity. Qed.

Lemma live_zip_ext v : forall l l' : list ant_shape_prop_t,
  (forall i q, is_deleted q = false -> l !! i = Some q <-> l' !! i = Some q) ->
  List.filter live (zip l v) = List.filter live (zip l' v).
Proof.
  induction v as [|x v IH]; intros l l' H; [destruct l, l'; reflexivity|].
  assert (Htl : forall i q, is_deleted q = false -> drop 1 l !! i = Some q <-> drop 1 l' !! i = Some q).
  { intros i q Hq. rewrite !lookup_drop. apply H, Hq. }
  specialize (IH _ _ Htl).
  destruct l as [|p l], l' as [|p' l']; cbn [drop] in IH; rewrite ?drop_0 in IH; [reflexivity| | |].
  - change (zip (p' :: l') (x :: v)) with ((p', x) :: zip l' v). rewrite filter_live_cons.
    specialize (H O p'). cbn in H. destruct (is_deleted p'); [exact IH|].
    destruct (H eq_refl) as [_ H']. specialize (H' eq_refl). discriminate.
  - change (zip (p :: l) (x :: v)) with ((p, x) :: zip l v). rewrite filter_live_cons.
    specialize (H O p). cbn in H. destruct (is_deleted p); [rewrite IH; reflexivity|].
    destruct (H eq_refl) as [H' _]. specialize (H' eq_refl). discriminate.
  - change (zip (p :: l) (x :: v)) with ((p, x) :: zip l v).
    change (zip (p' :: l') (x :: v)) with ((p', x) :: zip l' v). rewrite !filter_live_cons, IH.
    pose proof (H O p) as Hp. pose proof (H O p') as Hp'. cbn in Hp, Hp'.
    destruct (is_deleted p) eqn:E, (is_deleted p') eqn:E'; [reflexivity| | |].
    + destruct (Hp' eq_refl) as [_ G]. specialize (G eq_refl). congruence.
    + destruct (Hp eq_refl) as [G _]. specialize (G eq_refl). congruence.
    + destruct (Hp eq_refl) as [G _]. specialize (G eq_refl). congruence.
Qed.

Lemma bury_view s i p u v : table_ok s -> props s !! i = Some p -> is_deleted p = false -> (i < length v)%nat ->
  List.filter live (zip (<[i := tombstone]> (props s)) (<[i := u]> v)) =
  List.filter (fun q => negb (has_key (pkey p) q.1)) (List.filter live (zip (props s) v)).
Proof.
  intros Ht Hp Hl Hv.
  assert (E : zip (<[i := tombstone]> (props s)) (<[i := u]> v) =
              map (fun q => if has_key (pkey p) q.1 then (tombstone, u) else q) (zip (props s) v)).
  { apply list_eq. intros j. rewrite list_lookup_fmap. rewrite !lookup_zip_with. unfold has_key.
    destruct (decide (i = j)) as [<-|Hne].
    - rewrite !list_lookup_insert_eq by (auto; eapply lookup_lt_Some; eauto). rewrite Hp.
      destruct (lookup_lt_is_Some_2 v i Hv) as [x ->]. cbn. rewrite bool_decide_eq_true_2; reflexivity.
    - rewrite !list_lookup_insert_ne by exact Hne. destruct (props s !! j) as [q|] eqn:Hq; cbn; [|reflexivity].
      destruct (v !! j) as [x|]; cbn; [|reflexivity].
      rewrite bool_decide_eq_false_2; [reflexivity|]. intros He. apply Hne. eapply slot_unique; eauto. }
  rewrite E. clear - Hl. induction (zip (props s) v) as [|q l IH]; cbn; [reflexivity|].
  rewrite IH. destruct (has_key (pkey p) q.1) eqn:Ek; cbn.
  - destruct (live q); cbn; rewrite ?Ek; reflexivity.
  - destruct (live q); cbn; rewrite ?Ek; reflexivity.
Qed.

Lemma entries_view s v : (length (props s) <= length v)%nat ->
  entries s = map fst (List.filter live (zip (props s) v)).
Proof.
  unfold entries. revert v. induction (props s) as [|p l IH]; intros [|x v] Hv; cbn in *; try reflexivity; [lia|].
  unfold live at 1. cbn. rewrite (IH v) by lia. destruct (is_deleted p); reflexivity.
Qed.

Lemma zip_fst_snd (l : list (ant_shape_prop_t * Z)) r : zip (map fst l) (map snd l ++ r) = l.
Proof. induction l as [|[p x] l IH]; cbn; [destruct r; reflexivity|]. f_equal. exact IH. Qed.

Lemma filter_take_le {A} (f : A -> bool) n l :
  (length (List.filter f (take n l)) <= Nat.min n (length l))%nat.
Proof. rewrite <- length_take. apply List.filter_length_le. Qed.

(** The values move down together with the properties. *)
Lemma move_down_spec s v n : forall src dst o,
  let w := zip (props s) v in
  storage_ok o -> length (slots o) = length v -> (length (props s) <= length v)%nat ->
  (src + n = length (props s))%nat ->
  take dst (slots o) = map snd (List.filter live (take src w)) -> dst = length (List.filter live (take src w)) ->
  (forall j, (src <= j)%nat -> slots o !! j = v !! j) ->
  exists o', move_down s n src dst o = Some (length (List.filter live w), o') /\ storage_ok o' /\
    prop_count o' = prop_count o /\ length (slots o') = length v /\
    take (length (List.filter live w)) (slots o') = map snd (List.filter live w).
Proof.
  induction n as [|n IH]; intros src dst o w Ho Hlen Hlv Hn Htk Hdst Hrest; cbn [move_down].
  - assert (Hw : take src w = w) by (apply take_ge; unfold w; rewrite length_zip_with; lia).
    rewrite Hw in *. subst dst. exists o. auto.
  - destruct (lookup_lt_is_Some_2 (props s) src ltac:(lia)) as [p Hp].
    destruct (lookup_lt_is_Some_2 v src ltac:(lia)) as [x Hx].
    assert (Hwx : w !! src = Some (p, x)) by (unfold w; rewrite lookup_zip_with, Hp, Hx; reflexivity).
    assert (Htake : List.filter live (take (S src) w) = List.filter live (take src w) ++ (if is_deleted p then [] else [(p, x)])).
    { rewrite (take_S_r _ _ _ Hwx), List.filter_app. cbn. unfold live at 2. cbn. destruct (is_deleted p); reflexivity. }
    pose proof (filter_take_le live src w) as Hle.
    unfold ant_shape_prop_at. rewrite Hp. destruct (is_deleted p).
    + rewrite app_nil_r in Htake. apply IH; auto; [lia|fold w; rewrite Htake; exact Htk|fold w; rewrite Htake; exact Hdst|
        intros j Hj; apply Hrest; lia].
    + assert (Hsnd : map snd (List.filter live (take (S src) w)) = map snd (List.filter live (take src w)) ++ [x]).
      { rewrite Htake, map_app. reflexivity. }
      assert (Hd' : S dst = length (List.filter live (take (S src) w))).
      { rewrite Htake, length_app. cbn. lia. }
      destruct (Nat.eqb_spec dst src) as [->|Hne].
      * apply IH; auto; [lia| |intros j Hj; apply Hrest; lia].
        fold w. rewrite Hsnd, <- Htk. apply take_S_r. rewrite Hrest by lia. exact Hx.
      * rewrite get_slots, Nat2Z.id, Hrest, Hx by (auto; lia).
        destruct (set_slots o (Z.of_nat dst) x Ho) as (o1 & -> & Ho1 & Hs1 & Hp1 & _).
        { unfold zlen. rewrite Hlen. lia. }
        rewrite Nat2Z.id in Hs1.
        destruct (IH (S src) (S dst) o1) as (o' & E & Ho' & Hp' & Hl' & Ht'); auto; [|lia| | |].
        -- rewrite Hs1, length_insert. exact Hlen.
        -- fold w. rewrite Hsnd, <- Htk, Hs1. rewrite (take_S_r _ dst x).
           ++ rewrite take_insert_ge by lia. reflexivity.
           ++ apply list_lookup_insert_eq. lia.
        -- intros j Hj. rewrite Hs1, list_lookup_insert_ne by lia. apply Hrest. lia.
        -- exists o'. rewrite E. splits; auto. congruence.
Qed.

(** ** Deletion *)

Lemma compact_view o s n s' : table_ok s -> ant_shape_compact s = (n, s') ->
  forall w, entries s = map fst w -> take (length w) (slots o) = map snd w -> view o s' = w.
Proof.
  intros Ht E w Hw Hv. apply compact_spec in E as (_ & Hp & _ & _ & _); [|exact Ht].
  unfold view. rewrite Hp, Hw, <- (take_drop (length w) (slots o)), Hv, zip_fst_snd.
  apply filter_all. apply List.Forall_forall. intros q Hq. unfold live.
  assert (Hin : In q.1 (entries s)) by (rewrite Hw; apply in_map, Hq).
  apply entries_in in Hin as (i & _ & ->). reflexivity.
Qed.

Lemma obj_delete_spec undef o o1 s slot : storage_ok o -> table_ok s ->
  prop_count o <= zlen (slots o) -> 0 <= slot < prop_count o -> ant_shape_count s <= prop_count o ->
  ant_object_prop_set_unchecked o slot undef = Some o1 ->
  exists o' s', obj_delete_prop_slot undef o s slot = Some (o', s') /\ obj_ok o' s' /\ view o' s' = view o1 s.
Proof.
  intros Ho Ht Hpc Hslot Hcnt E. unfold obj_delete_prop_slot. destruct (Z.leb_spec (prop_count o) slot); [lia|].
  rewrite E. destruct (set_slots o slot undef Ho) as (o2 & E2 & Ho1 & Hs1 & Hp1 & _); [lia|].
  rewrite E in E2. injection E2 as <-. unfold ant_shape_count in *.
  assert (Hl1 : length (slots o1) = length (slots o)) by (rewrite Hs1; apply length_insert).
  unfold zlen in Hpc. destruct (ant_shape_should_compact s) eqn:Ec; cbn [negb].
  2: { do 2 eexists. split; [reflexivity|]. split; [|reflexivity]. split; [|split; [exact Ht|reflexivity]].
       apply set_count_ok; [exact Ho1|]. unfold zlen. lia. }
  set (w := List.filter live (zip (props s) (slots o1))).
  destruct (move_down_spec s (slots o1) (length (props s)) 0 0 o1) as (o2 & E2 & Ho2 & Hp2 & Hl2 & Ht2); auto; [lia|].
  fold w in E2, Ht2. rewrite E2.
  assert (Hw : (length w <= length (props s))%nat).
  { unfold w. etransitivity; [apply List.filter_length_le|]. rewrite length_zip_with. lia. }
  destruct (fill_spec undef (Z.to_nat (prop_count o2 - Z.of_nat (length w))) (Z.of_nat (length w)) o2)
    as (o3 & E3 & Ho3 & Hp3 & Hl3 & Hj3); auto; [lia|unfold zlen; lia|].
  rewrite E3. destruct (ant_shape_compact s) as [n s'] eqn:Es. do 2 eexists. split; [reflexivity|].
  assert (Hent : entries s = map fst w) by (apply entries_view; lia).
  assert (Hval : take (length w) (slots o3) = map snd w).
  { rewrite <- Ht2. apply list_eq. intros j. destruct (decide (j < length w)%nat).
    - rewrite !lookup_take_lt by lia. rewrite Hj3, decide_False by lia. reflexivity.
    - rewrite !lookup_take_ge by lia. reflexivity. }
  pose proof (compact_spec s n s' Ht Es) as (Ht' & Hps & _ & Hn & _).
  assert (Hlen : length (props s') = length w) by (rewrite Hps, Hent; apply length_map).
  split.
  - split; [|split; [exact Ht'|cbn; unfold ant_shape_count; rewrite Hn; reflexivity]].
    apply set_count_ok; [exact Ho3|]. unfold zlen. lia.
  - change (view (set_count o3 (Z.of_nat n)) s') with (view o3 s'). apply (compact_view o3 s n s' Ht Es w Hent Hval).
Qed.

Lemma unique_spec grant szs szp sze e s r e' : table_ok s -> ant_shape_count s < 2 ^ 30 ->
  js_obj_ensure_unique_shape grant szs szp sze e s = (r, e') ->
  match r with
  | Some (s1, shared) => table_ok s1 /\ props s1 = props s /\ ic_epoch e' = ic_epoch e /\
      (ref_count s <= 1 -> s1 = s /\ shared = None) /\
      (1 < ref_count s -> ref_count s1 = 1 /\ shared = Some (set_refs s (ref_count s - 1)))
  | None => shape_starved grant
  end.
Proof.
  intros Ht Hsz. unfold js_obj_ensure_unique_shape, ant_shape_is_shared.
  destruct (Z.ltb_spec 1 (ref_count s)) as [Hs|Hs]; cbn [negb].
  - destruct (ant_shape_clone grant szs szp sze e s) as [[c|] e1] eqn:E; intros [= <- <-];
      apply clone_spec in E; auto; [|lia|lia].
    destruct E as (H1 & H2 & H3 & _ & H5). splits; auto; lia.
  - intros [= <- <-]. splits; auto; lia.
Qed.

(** Removing a slot from the shape and then from the object. *)
Lemma remove_and_move undef e o s slot p b e' s2 : obj_ok o s -> props s !! slot = Some p -> is_deleted p = false ->
  ant_shape_remove_slot e s slot = (b, e', s2) ->
  b = true /\ exists o' s', obj_delete_prop_slot undef o s2 (Z.of_nat slot) = Some (o', s') /\ obj_ok o' s' /\
    view o' s' = List.filter (fun q => negb (has_key (pkey p) q.1)) (view o s).
Proof.
  intros (Ho & Ht & Hc) Hq Hd Er.
  pose proof (remove_slot_spec e s slot p e' b s2 Ht Hq Hd Er) as (-> & Ht2 & _ & Hsl & Hlens). split; [reflexivity|].
  pose proof (lookup_lt_Some _ _ _ Hq) as Hlt. pose proof (st_count o Ho) as Hst. unfold ant_shape_count in *.
  destruct (set_slots o (Z.of_nat slot) undef Ho) as (o1 & E1 & Ho1 & Hs1 & Hp1 & _); [lia|].
  destruct (obj_delete_spec undef o o1 s2 (Z.of_nat slot)) as (o' & s' & E & Hok & Hview); auto; try lia.
  { unfold ant_shape_count. lia. }
  exists o', s'. splits; auto. rewrite Hview. unfold view at 1. rewrite Hs1, Nat2Z.id.
  rewrite (live_zip_ext _ (props s2) (<[slot := tombstone]> (props s))).
  - rewrite (bury_view s slot p) by (auto; unfold zlen in Hst; lia). reflexivity.
  - intros i r Hr. rewrite Hsl by exact Hr. destruct (decide (slot = i)) as [<-|Hne].
    + rewrite list_lookup_insert_eq by lia. split; [tauto|]. intros [= <-]. discriminate.
    + rewrite list_lookup_insert_ne by exact Hne. split; [tauto|]. auto.
Qed.

Lemma prop_at_live s slot p : ant_shape_prop_at s slot = Some p -> props s !! slot = Some p /\ is_deleted p = false.
Proof.
  unfold ant_shape_prop_at. destruct (props s !! slot) as [q|]; [|discriminate]. destruct (is_deleted q) eqn:Hd; [discriminate|].
  intros [= <-]. auto.
Qed.

Lemma delete_own_spec grant undef szs szp sze e o s slot p : obj_ok o s -> ant_shape_count s < 2 ^ 30 ->
  ant_shape_prop_at s slot = Some p ->
  match delete_own_slot grant undef szs szp sze e o s slot with
  | Deleted e' o' s' shared => obj_ok o' s' /\
      view o' s' = List.filter (fun q => negb (has_key (pkey p) q.1)) (view o s) /\
      (1 < ref_count s -> shared = Some (set_refs s (ref_count s - 1)))
  | Oom _ => shape_starved grant
  | Fault => False
  end.
Proof.
  intros (Ho & Ht & Hc) Hsz Hp. apply prop_at_live in Hp as [Hq Hd]. unfold delete_own_slot.
  destruct (js_obj_ensure_unique_shape grant szs szp sze e s) as [[[s1 shared]|] e1] eqn:Eu;
    apply unique_spec in Eu; auto. destruct Eu as (Ht1 & Hps & _ & _ & Hshared).
  rewrite <- Hps in Hq. destruct (ant_shape_remove_slot e1 s1 slot) as [[b e2] s2] eqn:Er.
  assert (Hok1 : obj_ok o s1) by (splits; auto; unfold obj_ok, ant_shape_count in *; rewrite Hps; auto).
  destruct (remove_and_move undef e1 o s1 slot p b e2 s2 Hok1 Hq Hd Er) as (-> & o' & s' & -> & Hok & Hview).
  splits; auto; [|intros Hr; apply Hshared; exact Hr]. rewrite Hview. unfold view. rewrite Hps. reflexivity.
Qed.

(** ** The properties *)

(** C28: objects store their properties safely: reserving slots never writes
    outside the arrays although the capacity field has only 8 bits, keeps
    every value and makes the new slots undefined; deleting a property never
    leaves the arrays, removes exactly that key with its value, keeps the
    others with their values in order (compacted or not), and leaves a shape
    that other objects share untouched but for its reference count. *)
Theorem object_storage_correct grant undef junk szs szp sze e o s : obj_ok o s -> ant_shape_count s < 2 ^ 30 ->
  (forall needed, 0 <= needed < 2 ^ 30 ->
     exists ok e1 o1, js_obj_ensure_prop_capacity grant undef junk e o needed = Some (ok, e1, o1) /\
     (ok = false -> shape_starved grant /\ o1 = o) /\
     (ok = true -> storage_ok o1 /\ prop_count o1 = Z.max needed (prop_count o) /\
        forall j, Z.of_nat j < prop_count o1 -> ant_object_prop_get_unchecked o1 (Z.of_nat j) =
          if decide (Z.of_nat j < prop_count o) then ant_object_prop_get_unchecked o (Z.of_nat j)
          else Some undef)) /\
  (forall slot p, ant_shape_prop_at s slot = Some p ->
     match delete_own_slot grant undef szs szp sze e o s slot with
     | Deleted e' o' s' shared => obj_ok o' s' /\
         view o' s' = List.filter (fun q => negb (has_key (pkey p) q.1)) (view o s) /\
         (1 < ref_count s -> shared = Some (set_refs s (ref_count s - 1)))
     | Oom _ => shape_starved grant
     | Fault => False
     end).
Proof.
  intros Hok Hsz. split.
  - intros needed Hn. destruct Hok as (Ho & _ & _).
    destruct (ensure_prop_capacity_spec grant undef junk e o needed Ho Hn) as (ok & e1 & o1 & E & Hf & Ht).
    exists ok, e1, o1. splits; auto. intros Hk. destruct (Ht Hk) as (H1 & H2 & H3). splits; auto.
    intros j Hj. rewrite !get_slots, Nat2Z.id by (auto; lia). apply H3, Hj.
  - intros slot p Hp. apply delete_own_spec; auto.
Qed.

(** An object with the properties 16 and 18, in slots 0 and 1. *)
Definition demo_shape : ant_shape :=
  (shape_add_key grants 40 64 env0
     (shape_add_key grants 40 64 env0 shape0 (ANT_SHAPE_KEY_STRING 16) 7).2
     (ANT_SHAPE_KEY_STRING 18) 7).2.
Definition demo_obj : ant_object := Obj [100; 200; 0; 0] [] 0 2 4.

Lemma demo_shape_ok : table_ok demo_shape.
Proof.
  unfold demo_shape.
  destruct (shape_add_key grants 40 64 env0 shape0 (ANT_SHAPE_KEY_STRING 16) 7) as [[r1 e1] s1] eqn:E1.
  pose proof (shape_add_key_spec grants 40 64 env0 shape0 (ANT_SHAPE_KEY_STRING 16) 7 r1 e1 s1 shape0_ok
    ltac:(cbn; lia) ltac:(reflexivity) E1) as H1.
  assert (r1 = Some O) as -> by (vm_compute in E1; congruence). destruct H1 as (H1 & _ & _). cbn [snd].
  destruct (shape_add_key grants 40 64 env0 s1 (ANT_SHAPE_KEY_STRING 18) 7) as [[r2 e2] s2] eqn:E2.
  assert (Hc : ant_shape_count s1 < 2 ^ 30) by (vm_compute in E1; injection E1 as _ <-; reflexivity).
  pose proof (shape_add_key_spec grants 40 64 env0 s1 (ANT_SHAPE_KEY_STRING 18) 7 r2 e2 s2 H1
    ltac:(cbn; lia) Hc E2) as H2.
  assert (r2 = Some 1%nat) as -> by (vm_compute in E1; injection E1 as _ <-; vm_compute in E2; congruence).
  apply H2.
Qed.

Lemma demo_obj_ok : obj_ok demo_obj demo_shape.
Proof.
  split; [|split; [exact demo_shape_ok|reflexivity]]. split; cbn; try lia; try reflexivity.
  - unfold zlen. cbn. lia.
  - vm_compute. split; discriminate.
Qed.

Lemma object_storage_correct_witness :
  match delete_own_slot grants 0 100 40 64 env0 demo_obj demo_shape 0 with
  | Deleted _ o' s' _ => view o' s' = [(ShapeProp (ANT_SHAPE_KEY_STRING 18) 7 0 0 0 0, 200)]
  | _ => False
  end.
Proof.
  destruct (object_storage_correct grants 0 0 100 40 64 env0 demo_obj demo_shape demo_obj_ok ltac:(reflexivity)) as [_ H].
  specialize (H O _ ltac:(reflexivity)). destruct (delete_own_slot _ _ _ _ _ _ _ _ _) as [e' o' s' sh|e'|] eqn:E.
  - destruct H as (_ & -> & _). vm_compute. reflexivity.
  - vm_compute in E. discriminate.
  - exact H.
Defined.
