(* ===== verification/ShapeTree.v ===== *)
(** * The transition tree of shapes

    [src/src/shapes.c]: shapes are reference counted and form trees.  Adding
    a property to a shape that is shared follows, or creates, an edge to a
    child shape, so that objects built the same way end in the same shape.
    The roots (one per in-object limit) are global.  A collection marks the
    shapes in use and prunes the leaves that are not.

    The heap of shapes is a finite map from addresses to nodes; addresses are
    never reused, and an access to an address that is not in the heap is the
    value [None], so that a use after free is visible.  Allocation can fail
    ([grant], as in [Shapes]). *)

From stdpp Require Import gmultiset.
From S2P Require Import Prelude Shapes.

(** ** Data *)

(** [tab] holds the fields of [struct ant_shape] that [Shapes] models. *)
Record node := Node {
  tab : ant_shape; children : list (Z * nat); parent : option nat; parent_key : Z; gc_mark : Z }.

(** The globals of [shapes.c] together with its heap. *)
Record forest := Forest {
  nodes : gmap nat node; next_node : nat; g_root_shapes : list (option nat);
  tenv : env; gc_shape_epoch : Z }.

Definition set_nodes (w : forest) h := Forest h (next_node w) (g_root_shapes w) (tenv w) (gc_shape_epoch w).
Definition set_tenv (w : forest) e := Forest (nodes w) (next_node w) (g_root_shapes w) e (gc_shape_epoch w).
Definition set_roots (w : forest) r := Forest (nodes w) (next_node w) r (tenv w) (gc_shape_epoch w).

Definition set_tab (n : node) (s : ant_shape) := Node s (children n) (parent n) (parent_key n) (gc_mark n).
Definition set_children (n : node) cs := Node (tab n) cs (parent n) (parent_key n) (gc_mark n).
Definition set_parent (n : node) p := Node (tab n) (children n) p (parent_key n) (gc_mark n).
Definition set_mark (n : node) m := Node (tab n) (children n) (parent n) (parent_key n) m.

(** A write through a pointer. *)
Definition update (l : nat) (f : node -> node) (w : forest) : option forest :=
  n ← nodes w !! l; Some (set_nodes w (<[l := f n]> (nodes w))).

(** A fresh shape without edges ([calloc]). *)
Definition alloc_node (s : ant_shape) (w : forest) : nat * forest :=
  let l := next_node w in
  (l, Forest (<[l := Node s [] None 0 0]> (nodes w)) (S l) (g_root_shapes w) (tenv w) (gc_shape_epoch w)).

Definition shape_child_key (prop_key attrs : Z) : Z := Z.lxor prop_key (u64 (attrs .<< 56)).

Fixpoint find_entry (k : Z) (cs : list (Z * nat)) : option nat :=
  match cs with
  | [] => None
  | (k', c) :: cs => if k' =? k then Some c else find_entry k cs
  end.
Definition del_entry (k : Z) (cs : list (Z * nat)) : list (Z * nat) :=
  List.filter (fun e => negb (e.1 =? k)) cs.

Definition shape_find_child (n : node) (ckey : Z) : option nat := find_entry ckey (children n).

Definition shape_is_in_tree (n : node) : bool :=
  (1 <? ref_count (tab n)) || match parent n with Some _ => true | None => false end.

(** [HASH_DEL] of the entry [k] of [p] and [shape_entry_free]. *)
Definition drop_child (p : nat) (k : Z) (w : forest) : option forest :=
  w ← update p (fun n => set_children n (del_entry k (children n))) w;
  Some (set_tenv w (shape_entry_free (tenv w))).

Definition shape_retain (l : nat) (w : forest) : option forest :=
  update l (fun n => set_tab n (ant_shape_retain (tab n))) w.

Section Code.
Context (grant : nat -> bool) (sizeof_shape sizeof_prop sizeof_entry : Z).

(** ** Releasing a reference *)

(** The loop over the children of a dying shape; [rel] is the recursive call. *)
Fixpoint release_children (rel : nat -> forest -> option forest) (l : nat) (cs : list (Z * nat))
  (w : forest) : option forest :=
  match cs with
  | [] => Some w
  | (k, c) :: cs =>
      w ← update c (fun n => set_parent n None) w;
      w ← rel c w;
      w ← drop_child l k w;
      release_children rel l cs w
  end.

(** The entry of [l] in its parent, if [l] has one, is removed. *)
Definition unlink_parent (l : nat) (n : node) (w : forest) : option forest :=
  match parent n with
  | None => Some w
  | Some p =>
      np ← nodes w !! p;
      w ← match find_entry (parent_key n) (children np) with
          | Some _ => drop_child p (parent_key n) w
          | None => Some w
          end;
      update l (fun n => set_parent n None) w
  end.

Fixpoint release (fuel : nat) (l : nat) (w : forest) : option forest :=
  match fuel with
  | O => None
  | S fuel =>
      n ← nodes w !! l;
      if ref_count (tab n) =? 0 then Some w
      else
        w ← update l (fun n => set_tab n (set_refs (tab n) (ref_count (tab n) - 1))) w;
        if negb (ref_count (tab n) - 1 =? 0) then Some w
        else
          w ← unlink_parent l n w;
          w ← release_children (release fuel) l (children n) w;
          n ← nodes w !! l;
          Some (set_nodes (set_tenv w (shape_free_table sizeof_shape sizeof_prop sizeof_entry (tenv w) (tab n)))
                  (delete l (nodes w)))
  end.

(** Children have larger addresses than their parent, so this fuel covers
    every nesting. *)
Definition shape_release (l : nat) (w : forest) : option forest := release (S (next_node w)) l w.

(** ** Transitions *)

Definition shape_record_child (p : nat) (ckey : Z) (child : nat) (w : forest) : option forest :=
  np ← nodes w !! p;
  match find_entry ckey (children np) with
  | Some _ => Some w
  | None =>
      let '(ok, e) := shape_entry_alloc grant (tenv w) in
      let w := set_tenv w e in
      if negb ok then Some w
      else
        w ← shape_retain child w;
        w ← update p (fun n => set_children n (children n ++ [(ckey, child)])) w;
        update child (fun n => Node (tab n) (children n) (Some p) ckey (gc_mark n)) w
  end.

(** A clone in a node of its own. *)
Definition shape_clone (l : nat) (w : forest) : option (option nat * forest) :=
  n ← nodes w !! l;
  match ant_shape_clone grant sizeof_shape sizeof_prop sizeof_entry (tenv w) (tab n) with
  | (None, e) => Some (None, set_tenv w e)
  | (Some s, e) => let '(c, w) := alloc_node s (set_tenv w e) in Some (Some c, w)
  end.

(** [shape_add_key] on a node. *)
Definition add_key_at (l : nat) (k : shape_key) (attrs : Z) (w : forest) : option (option nat * forest) :=
  n ← nodes w !! l;
  let '(r, e, s) := shape_add_key grant sizeof_prop sizeof_entry (tenv w) (tab n) k attrs in
  w ← update l (fun n => set_tab n s) (set_tenv w e);
  Some (r, w).

Definition invalidate_at (l : nat) (w : forest) : option forest :=
  n ← nodes w !! l;
  let '(e, s) := shape_invalidate_guarded_absence (tenv w) (tab n) in
  update l (fun n => set_tab n s) (set_tenv w e).

(** The slow half of a transition: a child is built and recorded, and the
    caller gets a copy of its own. *)
Definition grow_tree (l : nat) (k : shape_key) (attrs : Z) (w : forest)
  : option (option nat * nat * forest) :=
  r ← shape_clone l w;
  match r with
  | (None, w) => Some (None, l, w)
  | (Some shared, w) =>
      r ← add_key_at shared k attrs w;
      match r with
      | (None, w) => w ← shape_release shared w; Some (None, l, w)
      | (Some slot, w) =>
          w ← shape_record_child l (shape_child_key (key_code k) attrs) shared w;
          w ← shape_release shared w;
          r ← shape_clone shared w;
          match r with
          | (None, w) => Some (None, l, w)
          | (Some next, w) =>
              w ← invalidate_at l w;
              w ← shape_release l w;
              Some (Some slot, next, w)
          end
      end
  end.

(** [ant_shape_add_interned_tr] and [ant_shape_add_symbol_tr]: the slot (or
    failure) and the shape that takes the place of [l]. *)
Definition add_tr (l : nat) (k : shape_key) (attrs : Z) (w : forest)
  : option (option nat * nat * forest) :=
  n ← nodes w !! l;
  if negb (shape_is_in_tree n) then
    r ← add_key_at l k attrs w; Some (r.1, l, r.2)
  else
    match shape_find_child n (shape_child_key (key_code k) attrs) with
    | None => grow_tree l k attrs w
    | Some child =>
        nc ← nodes w !! child;
        match shape_lookup (tab nc) (key_code k) with
        | None => grow_tree l k attrs w
        | Some slot =>
            w ← invalidate_at l w;
            w ← shape_retain child w;
            w ← shape_release l w;
            Some (Some slot, child, w)
        end
    end.
Definition ant_shape_add_interned_tr l interned attrs w := add_tr l (ANT_SHAPE_KEY_STRING interned) attrs w.
Definition ant_shape_add_symbol_tr l sym_off attrs w := add_tr l (ANT_SHAPE_KEY_SYMBOL sym_off) attrs w.

(** The root for a limit, created on first use. *)
Definition ant_shape_new_with_inobj_limit (inobj_limit : Z) (w : forest) : option (option nat * forest) :=
  let clamped := shape_clamp_inobj_limit inobj_limit in
  let i := Z.to_nat clamped in
  match g_root_shapes w !! i with
  | None => None
  | Some (Some r) => w ← shape_retain r w; Some (Some r, w)
  | Some None =>
      let '(ok, e) := shape_request grant (tenv w) in
      if negb ok then Some (None, set_tenv w e)
      else
        let '(r, w) := alloc_node (Shape 1 0 0 clamped 0 [] ∅) (set_tenv w (add_bytes e sizeof_shape)) in
        w ← shape_retain r (set_roots w (<[i := Some r]> (g_root_shapes w)));
        Some (Some r, w)
  end.
Definition ant_shape_new (w : forest) := ant_shape_new_with_inobj_limit ANT_INOBJ_MAX_SLOTS w.

(** [js_obj_ensure_unique_shape] of [src/src/ant.c] on the heap. *)
Definition unique_shape (l : nat) (w : forest) : option (option nat * forest) :=
  n ← nodes w !! l;
  if negb (ant_shape_is_shared (tab n)) then Some (Some l, w)
  else
    r ← shape_clone l w;
    match r with
    | (None, w) => Some (None, w)
    | (Some copy, w) => w ← shape_release l w; Some (Some copy, w)
    end.

(** ** Collection *)

Definition ant_gc_shapes_begin (w : forest) : forest :=
  let e := wrap 16 (gc_shape_epoch w + 1) in
  Forest (nodes w) (next_node w) (g_root_shapes w) (tenv w) (if e =? 0 then 1 else e).

(** The walk to the root; it ends at a shape that is marked already. *)
Fixpoint mark_loop (fuel : nat) (l : option nat) (w : forest) : option forest :=
  match l, fuel with
  | None, _ => Some w
  | Some _, O => None
  | Some l, S fuel =>
      n ← nodes w !! l;
      if gc_mark n =? gc_shape_epoch w then Some w
      else
        w ← update l (fun n => set_mark n (gc_shape_epoch w)) w;
        mark_loop fuel (parent n) w
  end.
Definition ant_gc_shapes_mark (l : nat) (w : forest) : option forest := mark_loop (S (next_node w)) (Some l) w.

(** The loop of [shape_prune_dead_children] over the entries of [l]. *)
Fixpoint prune_children (prune : nat -> forest -> option (bool * forest)) (l : nat) (cs : list (Z * nat))
  (freed_any : bool) (w : forest) : option (bool * forest) :=
  match cs with
  | [] => Some (freed_any, w)
  | (k, c) :: cs =>
      r ← prune c w;
      let freed_any := r.1 || freed_any in
      let w := r.2 in
      nc ← nodes w !! c;
      if negb (gc_mark nc =? gc_shape_epoch w) && match children nc with [] => true | _ => false end then
        w ← update c (fun n => set_parent n None) w;
        w ← drop_child l k w;
        w ← shape_release c w;
        prune_children prune l cs true w
      else prune_children prune l cs freed_any w
  end.
Fixpoint prune (fuel : nat) (l : nat) (w : forest) : option (bool * forest) :=
  match fuel with
  | O => None
  | S fuel => n ← nodes w !! l; prune_children (prune fuel) l (children n) false w
  end.
Definition shape_prune_dead_children (l : nat) (w : forest) : option (bool * forest) :=
  prune (S (next_node w)) l w.

Definition shape_entry_pool_trim (e : env) : env := set_pool e (entry_pool_len e / 2).

Fixpoint sweep_roots (rs : list (option nat)) (freed_any : bool) (w : forest) : option (bool * forest) :=
  match rs with
  | [] => Some (freed_any, w)
  | None :: rs => sweep_roots rs freed_any w
  | Some r :: rs =>
      x ← shape_prune_dead_children r w;
      sweep_roots rs (x.1 || freed_any) x.2
  end.
Definition ant_gc_shapes_sweep (w : forest) : option (bool * forest) :=
  r ← sweep_roots (g_root_shapes w) false w;
  Some (r.1, set_tenv r.2 (shape_entry_pool_trim (tenv r.2))).

End Code.

(** ** Reference counts

    [ext] is the multiset of references held outside the tree (by objects and
    inline caches).  A shape's count is the number of those, plus one for the
    entry in its parent, plus one for a global root.  [D] holds the shapes
    that are being torn down; the entries they still have count as external
    references. *)

Definition root_refs (w : forest) (x : nat) : nat :=
  length (List.filter (fun r => bool_decide (r = Some x)) (g_root_shapes w)).
Definition edge_refs (D : gset nat) (n : node) : nat :=
  match parent n with Some p => if decide (p ∈ D) then 0%nat else 1%nat | None => 0%nat end.

Record node_ok (D : gset nat) (w : forest) (ext : gmultiset nat) (x : nat) (n : node) : Prop := {
  nk_fresh : (x < next_node w)%nat;
  nk_table : table_ok (tab n);
  nk_parent : forall p, parent n = Some p -> (p < x)%nat /\
    (p ∉ D -> exists np, nodes w !! p = Some np /\ In (parent_key n, x) (children np));
  nk_refs : x ∉ D -> 0 < ref_count (tab n) /\
    ref_count (tab n) = Z.of_nat (multiplicity x ext + edge_refs D n + root_refs w x);
  nk_keys : x ∉ D -> NoDup (map fst (children n));
  nk_children : x ∉ D -> forall k c, In (k, c) (children n) ->
    exists nc, nodes w !! c = Some nc /\ parent nc = Some x /\ parent_key nc = k }.

Record forest_ok (D : gset nat) (w : forest) (ext : gmultiset nat) : Prop := {
  fo_nodes : forall x n, nodes w !! x = Some n -> node_ok D w ext x n;
  fo_ext : forall x, x ∈ ext -> exists n, nodes w !! x = Some n /\ x ∉ D;
  fo_roots : forall r, In (Some r) (g_root_shapes w) ->
    exists n, nodes w !! r = Some n /\ (r ∉ D) /\ parent n = None;
  fo_dying : forall x, x ∈ D -> exists n, nodes w !! x = Some n /\ parent n = None;
  fo_len : length (g_root_shapes w) = 5%nat }.

(** What a release may change: shapes disappear, counts fall and the children
    of freed shapes lose their parent. *)
Record frame (D : gset nat) (w w' : forest) : Prop := {
  fr_next : next_node w' = next_node w;
  fr_roots : g_root_shapes w' = g_root_shapes w;
  fr_gc : gc_shape_epoch w' = gc_shape_epoch w;
  fr_ic : ic_epoch (tenv w') = ic_epoch (tenv w);
  fr_nodes : forall x n', nodes w' !! x = Some n' -> exists n, nodes w !! x = Some n /\
    tab n' = set_refs (tab n) (ref_count (tab n')) /\ parent_key n' = parent_key n /\
    gc_mark n' = gc_mark n /\ (parent n' = parent n \/ parent n' = None) /\
    (x ∉ D -> children n' = children n) }.

Lemma update_eq l f w n : nodes w !! l = Some n -> update l f w = Some (set_nodes w (<[l := f n]> (nodes w))).
Proof. intros H. unfold update. rewrite H. reflexivity. Qed.

Lemma set_refs_tab s : s = set_refs s (ref_count s).
Proof. destruct s. reflexivity. Qed.

Lemma heap_frame_refl D w : frame D w w.
Proof. split; auto. intros x n Hn. exists n. splits; auto using set_refs_tab. Qed.

Lemma heap_frame_trans D w1 w2 w3 : frame D w1 w2 -> frame D w2 w3 -> frame D w1 w3.
Proof.
  intros [] []. split; try congruence. intros x n3 H3.
  destruct (fr_nodes1 x n3 H3) as (n2 & H2 & T2 & P2 & G2 & A2 & C2).
  destruct (fr_nodes0 x n2 H2) as (n1 & H1 & T1 & P1 & G1 & A1 & C1).
  exists n1. splits; try congruence.
  - rewrite T2, T1. reflexivity.
  - destruct A2 as [->| ->]; auto.
  - intros Hx. rewrite C2, C1; auto.
Qed.

(** A change of nodes that keeps the edges of the shapes not being torn down. *)
Record same_edges (D : gset nat) (w : forest) (ext : gmultiset nat) (x : nat) (n n' : node) : Prop := {
  se_table : table_ok (tab n');
  se_key : parent_key n' = parent_key n;
  se_children : x ∉ D -> children n' = children n;
  se_parent : parent n' = parent n \/ (parent n' = None /\ forall p, parent n = Some p -> p ∈ D);
  se_refs : x ∉ D -> 0 < ref_count (tab n') /\
    ref_count (tab n') = Z.of_nat (multiplicity x ext + edge_refs D n + root_refs w x) }.

Lemma change_ok D w w' ext ext' : forest_ok D w ext ->
  next_node w' = next_node w -> g_root_shapes w' = g_root_shapes w ->
  (forall x n, nodes w !! x = Some n -> exists n', nodes w' !! x = Some n' /\ same_edges D w ext' x n n') ->
  (forall x, is_Some (nodes w' !! x) -> is_Some (nodes w !! x)) ->
  (forall x, x ∈ ext' -> is_Some (nodes w !! x) /\ x ∉ D) ->
  forest_ok D w' ext'.
Proof.
  intros [Hn He Hr Hd Hlen] Enext Eroots Hsame Hback Hext. split.
  - intros x m' Hx. destruct (Hback x) as [m Hm]; [eauto|].
    destruct (Hsame x m Hm) as (m1 & E1 & [Et Ek Ec Epar Eref]).
    assert (m1 = m') by congruence. subst m1. destruct (Hn x m Hm) as [K1 K2 K3 K4 K5 K6].
    split; auto.
    + rewrite Enext. exact K1.
    + intros p Hpp. destruct Epar as [Epar|[Epar _]]; [|congruence]. rewrite Epar in Hpp.
      destruct (K3 p Hpp) as [Hlt Hex]. split; [exact Hlt|]. intros HpD.
      destruct (Hex HpD) as (np & Hnp & Hin). destruct (Hsame p np Hnp) as (np' & F1 & F2).
      exists np'. rewrite Ek, (se_children _ _ _ _ _ _ F2) by auto. auto.
    + intros HD. destruct (Eref HD) as [L1 L2]. split; [exact L1|]. rewrite L2.
      unfold root_refs. rewrite Eroots. do 3 f_equal.
      unfold edge_refs. destruct Epar as [->|[-> HpD]]; [reflexivity|].
      destruct (parent m) as [p|]; [|reflexivity]. rewrite decide_True by auto. reflexivity.
    + intros HD. rewrite Ec by auto. auto.
    + intros HD k y. rewrite Ec by auto. intros Hy. destruct (K6 HD k y Hy) as (ny & Hny & P1 & P2).
      destruct (Hsame y ny Hny) as (ny' & F1 & [_ F4 _ [F5|[_ F5]] _]).
      * exists ny'. splits; congruence.
      * exfalso. apply HD, F5, P1.
  - intros x Hx. destruct (Hext x Hx) as [[m Hm] HD]. destruct (Hsame x m Hm) as (m' & Hm' & _). eauto.
  - rewrite Eroots. intros r Hir. destruct (Hr r Hir) as (m & Hm' & HD & Hpar).
    destruct (Hsame r m Hm') as (m' & Hm2 & [_ _ _ [E|[E _]] _]); exists m'; splits; auto; congruence.
  - intros x Hx. destruct (Hd x Hx) as (m & Hmx & Hpar).
    destruct (Hsame x m Hmx) as (m' & Hm' & [_ _ _ [E|[E _]] _]); exists m'; split; congruence.
  - congruence.
Qed.

(** An untouched node. *)
Lemma same_edges_refl D w ext ext' x n : node_ok D w ext x n -> multiplicity x ext' = multiplicity x ext ->
  same_edges D w ext' x n n.
Proof. intros [] E. split; auto. rewrite E. auto. Qed.

(** One node changes. *)
Lemma change_one D w ext ext' e l n n' : forest_ok D w ext -> nodes w !! l = Some n ->
  same_edges D w ext' l n n' -> (forall x, x <> l -> multiplicity x ext' = multiplicity x ext) ->
  (l ∈ ext' -> l ∉ D) ->
  forest_ok D (set_tenv (set_nodes w (<[l := n']> (nodes w))) e) ext'.
Proof.
  intros Hw Hl Hs Hm Hin. eapply change_ok; eauto; cbn [nodes set_tenv set_nodes].
  - intros x m Hx. destruct (decide (x = l)) as [->|Hxl].
    + exists n'. rewrite lookup_insert_eq. replace m with n by congruence. auto.
    + exists m. rewrite lookup_insert_ne by auto. split; [exact Hx|].
      eapply same_edges_refl; [apply (fo_nodes D w ext); eauto|auto].
  - intros x. destruct (decide (x = l)) as [->|Hxl]; [eauto|]. rewrite lookup_insert_ne by auto. auto.
  - intros x Hx. destruct (decide (x = l)) as [->|Hxl]; [eauto|].
    destruct (fo_ext D w ext Hw x) as (m & ? & ?); [|eauto].
    revert Hx. unfold elem_of, gmultiset_elem_of. rewrite Hm by auto. auto.
Qed.

(** Replacing a node by one with the same edges. *)
Lemma replace_ok D w ext ext' e l n n' :
  forest_ok D w ext -> nodes w !! l = Some n ->
  children n' = children n -> parent n' = parent n -> parent_key n' = parent_key n ->
  table_ok (tab n') -> (forall x, x <> l -> multiplicity x ext' = multiplicity x ext) ->
  (l ∈ ext' -> l ∉ D) ->
  (l ∉ D -> 0 < ref_count (tab n') /\
    ref_count (tab n') = Z.of_nat (multiplicity l ext' + edge_refs D n + root_refs w l)) ->
  forest_ok D (set_tenv (set_nodes w (<[l := n']> (nodes w))) e) ext'.
Proof. intros. eapply change_one; eauto. split; auto. Qed.

Lemma set_tenv_ok D w ext e : forest_ok D w ext -> forest_ok D (set_tenv w e) ext.
Proof. intros [Hn He Hr Hd Hlen]. split; auto. intros x n Hx. destruct (Hn x n Hx). split; auto. Qed.

(** A child of a dying shape forgets its parent. *)
Lemma detach_ok D w ext c n : forest_ok D w ext -> nodes w !! c = Some n ->
  (forall p, parent n = Some p -> p ∈ D) ->
  forest_ok D (set_nodes w (<[c := set_parent n None]> (nodes w))) ext.
Proof.
  intros Hw Hc Hp. apply (change_one D w ext ext (tenv w) c n); auto.
  - destruct (fo_nodes D w ext Hw c n Hc). split; cbn; auto.
  - intros H. destruct (fo_ext D w ext Hw c H) as (? & _ & ?). auto.
Qed.

(** The entries of a dying shape do not matter. *)
Lemma dying_children_ok D w ext l n cs : forest_ok D w ext -> nodes w !! l = Some n -> l ∈ D ->
  forest_ok D (set_nodes w (<[l := set_children n cs]> (nodes w))) ext.
Proof.
  intros Hw Hl HD. apply (change_one D w ext ext (tenv w) l n); auto.
  - destruct (fo_nodes D w ext Hw l n Hl). split; cbn; auto. tauto.
  - intros H. destruct (fo_ext D w ext Hw l H) as (? & _ & ?). auto.
Qed.

(** ** Releasing *)

Definition tokens (cs : list (Z * nat)) : gmultiset nat := list_to_set_disj (map snd cs).

Lemma mult_add (x y : nat) (ext : gmultiset nat) :
  multiplicity x (ext ⊎ {[+ y +]}) = (multiplicity x ext + (if decide (x = y) then 1 else 0))%nat.
Proof. rewrite multiplicity_disj_union, multiplicity_singleton. reflexivity. Qed.

Lemma mult_tokens cs x : NoDup (map snd cs) ->
  multiplicity x (tokens cs) = (if decide (x ∈ map snd cs) then 1 else 0)%nat.
Proof.
  unfold tokens. induction (map snd cs) as [|y l IH]; intros Hnd; [reflexivity|].
  - inversion Hnd as [|? ? Hy Hnd']; subst. rewrite list_to_set_disj_cons, multiplicity_disj_union, IH by auto.
    destruct (decide (x = y)) as [->|Hxy].
    + rewrite multiplicity_singleton_eq, decide_False, decide_True by (auto; constructor). reflexivity.
    + rewrite multiplicity_singleton_ne by auto. destruct (decide (x ∈ l)).
      * rewrite decide_True by (constructor; auto). reflexivity.
      * rewrite decide_False by (rewrite not_elem_of_cons; auto). reflexivity.
Qed.

Lemma in_add (x y : nat) (ext : gmultiset nat) : x ∈ ext ⊎ {[+ y +]} <-> x ∈ ext \/ x = y.
Proof. rewrite gmultiset_elem_of_disj_union, gmultiset_elem_of_singleton. reflexivity. Qed.

Lemma in_tokens cs x : x ∈ tokens cs <-> exists k, In (k, x) cs.
Proof.
  unfold tokens. rewrite elem_of_list_to_set_disj, list_elem_of_In, in_map_iff. split.
  - intros ([k y] & <- & H). eauto.
  - intros [k H]. exists (k, x). auto.
Qed.

Lemma not_dying (x l : nat) (D : gset nat) : x ∉ {[l]} ∪ D <-> x <> l /\ x ∉ D.
Proof. rewrite not_elem_of_union, not_elem_of_singleton. reflexivity. Qed.

Lemma children_nodup D w ext x n : forest_ok D w ext -> nodes w !! x = Some n -> x ∉ D ->
  NoDup (map snd (children n)).
Proof.
  intros Hw Hx HD. destruct (fo_nodes D w ext Hw x n Hx) as [_ _ _ _ Hk Hc]. specialize (Hk HD). specialize (Hc HD).
  revert Hk Hc. induction (children n) as [|[k c] cs IH]; cbn; intros Hk Hc; constructor.
  - rewrite list_elem_of_In, in_map_iff. intros ([k' c'] & Hcc & Hin). cbn in Hcc. subst c'.
    destruct (Hc k c) as (nc & H1 & _ & H2); [auto|]. destruct (Hc k' c) as (nc' & H3 & _ & H4); [auto|].
    inversion Hk as [|? ? Hni _]; subst. apply Hni. rewrite list_elem_of_In, in_map_iff.
    exists (parent_key nc', c). split; [cbn; congruence|exact Hin].
  - inversion Hk; subst. apply IH; auto.
Qed.

Lemma edge_refs_dying D l n : l ∉ D ->
  edge_refs D n = (edge_refs ({[l]} ∪ D) n + (if decide (parent n = Some l) then 1 else 0))%nat.
Proof.
  intros HlD. unfold edge_refs. destruct (parent n) as [p|]; [|reflexivity].
  destruct (decide (p = l)) as [->|Hpl].
  - rewrite decide_False, (decide_True (P := l ∈ _)), decide_True by (auto; apply elem_of_union_l, elem_of_singleton; auto).
    reflexivity.
  - rewrite (decide_False (P := Some p = Some l)) by congruence. destruct (decide (p ∈ D)).
    + rewrite decide_True by (apply elem_of_union_r; auto). reflexivity.
    + rewrite decide_False by (rewrite not_dying; auto). reflexivity.
Qed.

(** A shape whose last reference is gone turns its entries into tokens. *)
Lemma kill_ok D w ext l n : forest_ok D w (ext ⊎ {[+ l +]}) -> nodes w !! l = Some n -> parent n = None ->
  ref_count (tab n) = 1 ->
  forest_ok ({[l]} ∪ D) (set_nodes w (<[l := set_tab n (set_refs (tab n) 0)]> (nodes w)))
    (ext ⊎ tokens (children n)).
Proof.
  intros Hw Hl Hp Hr1.
  assert (HlD : l ∉ D) by (destruct (fo_ext _ _ _ Hw l) as (? & _ & ?); [rewrite in_add; auto|auto]).
  pose proof (children_nodup _ _ _ _ _ Hw Hl HlD) as Hnd.
  destruct Hw as [Hn He Hr Hd Hlen]. destruct (Hn l n Hl) as [_ Lt _ Lr _ Lc].
  destruct (Lr HlD) as [_ Lr1]. rewrite Hr1, mult_add, decide_True in Lr1 by auto.
  assert (Hlext : multiplicity l ext = 0%nat /\ root_refs w l = 0%nat) by lia. destruct Hlext as [Hlext Hlroot].
  assert (Hkid : forall x m, nodes w !! x = Some m -> parent m = Some l <-> x ∈ map snd (children n)).
  { intros x m Hx. split.
    - intros Hpx. destruct (nk_parent _ _ _ _ _ (Hn x m Hx) l Hpx) as [_ Hex]. destruct (Hex HlD) as (np & Hnp & Hin).
      rewrite list_elem_of_In, in_map_iff. exists (parent_key m, x). split; [auto|congruence].
    - rewrite list_elem_of_In, in_map_iff. intros ([k y] & <- & Hin). destruct (Lc HlD k y Hin) as (ny & Hny & Hpy & _).
      cbn in *. congruence. }
  set (h := <[l := _]> (nodes w)).
  assert (Hh : forall x m, nodes w !! x = Some m -> exists m', h !! x = Some m' /\ children m' = children m /\
     parent m' = parent m /\ parent_key m' = parent_key m /\ (x <> l -> m' = m)).
  { intros x m Hx. unfold h. destruct (decide (x = l)) as [->|Hxl].
    - rewrite lookup_insert_eq. eexists. split; [reflexivity|]. replace m with n by congruence. splits; auto. tauto.
    - rewrite lookup_insert_ne by auto. exists m. splits; auto. }
  assert (Hback : forall x m', h !! x = Some m' -> exists m, nodes w !! x = Some m).
  { intros x m'. unfold h. destruct (decide (x = l)) as [->|]; [eauto|]. rewrite lookup_insert_ne by auto. eauto. }
  split; cbn [nodes set_nodes g_root_shapes].
  - intros x m' Hx. destruct (Hback x m' Hx) as [m Hm]. destruct (Hh x m Hm) as (m1 & E1 & Ec & Ep & Ek & Eq).
    assert (m1 = m') by congruence. subst m1. destruct (Hn x m Hm) as [K1 K2 K3 K4 K5 K6].
    split; cbn [nodes set_nodes next_node]; auto.
    + destruct (decide (x = l)) as [->|]; [|rewrite Eq by auto; auto].
      unfold h in Hx. rewrite lookup_insert_eq in Hx. injection Hx as <-. apply set_refs_ok, Lt.
    + rewrite Ep, Ek. intros p Hpp. destruct (K3 p Hpp) as [Hlt Hex]. split; [exact Hlt|]. rewrite not_dying. intros [_ HpD].
      destruct (Hex HpD) as (np & Hnp & Hin). destruct (Hh p np Hnp) as (np' & F1 & F2 & _).
      exists np'. rewrite F2. auto.
    + rewrite not_dying. intros [Hxl HD]. rewrite Eq by auto. destruct (K4 HD) as [L1 L2].
      split; [exact L1|]. rewrite L2, mult_add, decide_False by auto. f_equal.
      rewrite multiplicity_disj_union, mult_tokens by exact Hnd. pose proof (Hkid x m Hm) as Hk.
      change (root_refs (set_nodes w h) x) with (root_refs w x).
      rewrite (edge_refs_dying D l m HlD). destruct (decide (x ∈ _)) as [Hx'|Hx'].
      * rewrite decide_True by (apply Hk, Hx'). lia.
      * rewrite decide_False by (rewrite Hk; exact Hx'). lia.
    + rewrite Ec. intros HD. apply not_dying in HD as [_ HD]. auto.
    + rewrite Ec. intros HD k y Hy. apply not_dying in HD as [_ HD]. destruct (K6 HD k y Hy) as (ny & Hny & P1 & P2).
      destruct (Hh y ny Hny) as (ny' & F1 & _ & F3 & F4 & _). exists ny'. splits; congruence.
  - intros x Hx. setoid_rewrite not_dying. rewrite gmultiset_elem_of_disj_union, in_tokens in Hx. destruct Hx as [Hx|[k Hx]].
    + assert (x <> l). { intros ->. unfold elem_of, gmultiset_elem_of in Hx. lia. }
      destruct (He x) as (m & Hm & HD); [rewrite in_add; auto|]. destruct (Hh x m Hm) as (m' & F & _). eauto.
    + destruct (Lc HlD k x Hx) as (nc & Hnc & Hpc & _). destruct (Hh x nc Hnc) as (m' & F & _). exists m'.
      split; [exact F|]. destruct (nk_parent _ _ _ _ _ (Hn x nc Hnc) l Hpc) as [Hlt _]. split; [lia|].
      intros HxD. destruct (Hd x HxD) as (m & Hm & Hpm). congruence.
  - intros r Hir. destruct (Hr r Hir) as (m & Hm & HD & Hpm). destruct (Hh r m Hm) as (m' & F & _ & E & _).
    exists m'. rewrite not_dying. splits; auto; [|congruence]. intros ->.
    unfold root_refs in Hlroot. apply length_zero_iff_nil in Hlroot.
    assert (In (Some l) (List.filter (fun r => bool_decide (r = Some l)) (g_root_shapes w))) as Hin.
    { apply filter_In. split; [exact Hir|]. apply bool_decide_eq_true. reflexivity. }
    rewrite Hlroot in Hin. exact Hin.
  - intros x Hx. apply elem_of_union in Hx as [Hx|Hx].
    + apply elem_of_singleton in Hx as ->. destruct (Hh l n Hl) as (m' & F & _ & E & _). exists m'. split; congruence.
    + destruct (Hd x Hx) as (m & Hm & Hpm). destruct (Hh x m Hm) as (m' & F & _ & E & _). exists m'. split; congruence.
  - exact Hlen.
Qed.

(** The last step of a teardown. *)
Lemma bury_ok D w ext l n : forest_ok ({[l]} ∪ D) w ext -> nodes w !! l = Some n -> l ∉ D ->
  (forall x m, nodes w !! x = Some m -> parent m <> Some l) ->
  forest_ok D (set_nodes w (delete l (nodes w))) ext.
Proof.
  intros [Hn He Hr Hd Hlen] Hl HlD Hkid.
  destruct (Hd l) as (n' & Hl' & Hlp); [apply elem_of_union_l, elem_of_singleton; reflexivity|].
  split; cbn [nodes set_nodes g_root_shapes].
  - intros x m Hx. apply lookup_delete_Some in Hx as [Hxl Hx]. destruct (Hn x m Hx) as [K1 K2 K3 K4 K5 K6].
    pose proof (Hkid x m Hx) as Hpm. assert (Hdy : x ∉ D -> x ∉ {[l]} ∪ D) by (rewrite not_dying; auto).
    split; cbn [nodes set_nodes next_node]; auto.
    + intros p Hp. destruct (K3 p Hp) as [Hlt Hex]. split; [exact Hlt|]. intros HpD.
      assert (p <> l) by congruence. destruct Hex as (np & Hnp & Hin); [rewrite not_dying; auto|].
      exists np. rewrite lookup_delete_ne by auto. auto.
    + intros HD. destruct (K4 (Hdy HD)) as [L1 L2]. split; [exact L1|]. rewrite L2, (edge_refs_dying D l m HlD).
      rewrite (decide_False (P := parent m = Some l)) by auto.
      rewrite Nat.add_0_r. reflexivity.
    + intros HD k c Hc. destruct (K6 (Hdy HD) k c Hc) as (nc & Hnc & P1 & P2). exists nc.
      assert (c <> l) by congruence. rewrite lookup_delete_ne by auto. auto.
  - intros x Hx. destruct (He x Hx) as (m & Hm & HD). apply not_dying in HD as [Hxl HD].
    exists m. rewrite lookup_delete_ne by auto. auto.
  - intros r Hir. destruct (Hr r Hir) as (m & Hm & HD & Hpm). apply not_dying in HD as [Hxl HD].
    exists m. rewrite lookup_delete_ne by auto. auto.
  - intros x Hx. destruct (Hd x) as (m & Hm & Hpm); [apply elem_of_union_r, Hx|]. exists m.
    rewrite lookup_delete_ne by congruence. auto.
  - exact Hlen.
Qed.

Section Release.
Context (sizeof_shape sizeof_prop sizeof_entry : Z).

(** What one call of [ant_shape_release] does with a reference to [l]. *)
Definition releases (rel : nat -> forest -> option forest) (N : nat) (D : gset nat) (l : nat) : Prop :=
  forall w ext, next_node w = N -> forest_ok D w (ext ⊎ {[+ l +]}) ->
  (forall n p, nodes w !! l = Some n -> parent n = Some p -> p ∉ D) ->
  exists w', rel l w = Some w' /\ forest_ok D w' ext /\ frame D w w'.

Lemma drop_child_dying D w ext l k : forest_ok D w ext -> l ∈ D ->
  exists w', drop_child l k w = Some w' /\ forest_ok D w' ext /\ frame D w w'.
Proof.
  intros Hw HD. destruct (fo_dying _ _ _ Hw l HD) as (n & Hl & _). unfold drop_child.
  rewrite (update_eq _ _ _ _ Hl). cbn [mbind option_bind]. eexists. split; [reflexivity|]. split.
  - apply set_tenv_ok, dying_children_ok; auto.
  - split; auto; [apply entry_free_epoch|]. cbn [nodes set_tenv set_nodes]. intros x n' Hx.
    destruct (decide (x = l)) as [->|Hxl].
    + rewrite lookup_insert_eq in Hx. injection Hx as <-. exists n. splits; auto using set_refs_tab. tauto.
    + rewrite lookup_insert_ne in Hx by auto. exists n'. splits; auto using set_refs_tab.
Qed.

Lemma detach_frame D w c n : nodes w !! c = Some n ->
  frame D w (set_nodes w (<[c := set_parent n None]> (nodes w))).
Proof.
  intros Hc. split; auto. cbn [nodes set_nodes]. intros x n' Hx. destruct (decide (x = c)) as [->|Hxl].
  - rewrite lookup_insert_eq in Hx. injection Hx as <-. exists n. splits; auto using set_refs_tab.
  - rewrite lookup_insert_ne in Hx by auto. exists n'. splits; auto using set_refs_tab.
Qed.

Lemma release_children_ok rel N D l cs : l ∈ D -> (forall c, In c (map snd cs) -> releases rel N D c) ->
  forall w ext, next_node w = N -> forest_ok D w (ext ⊎ tokens cs) ->
  (forall k c n, In (k, c) cs -> nodes w !! c = Some n -> parent n = Some l \/ parent n = None) ->
  exists w', release_children rel l cs w = Some w' /\ forest_ok D w' ext /\ frame D w w' /\
    (forall x n, nodes w' !! x = Some n -> parent n = Some l -> ~ In x (map snd cs)).
Proof.
  intros HlD. induction cs as [|[k c] cs IH]; intros Hrel w ext HN Hw Hpar; cbn [release_children].
  { exists w. splits; auto using heap_frame_refl. rewrite gmultiset_disj_union_right_id in Hw. exact Hw. }
  assert (Htok : ext ⊎ tokens ((k, c) :: cs) = (ext ⊎ tokens cs) ⊎ {[+ c +]}).
  { unfold tokens. cbn [map snd]. rewrite list_to_set_disj_cons. multiset_solver. }
  rewrite Htok in Hw. destruct (fo_ext _ _ _ Hw c) as (n & Hc & HcD); [rewrite in_add; auto|].
  rewrite (update_eq _ _ _ _ Hc). cbn [mbind option_bind].
  set (w1 := set_nodes w _).
  assert (Hw1 : forest_ok D w1 ((ext ⊎ tokens cs) ⊎ {[+ c +]})).
  { apply detach_ok; auto. intros p Hp. destruct (Hpar k c n) as [E|E]; cbn; auto; congruence. }
  assert (F1 : frame D w w1) by (apply detach_frame; exact Hc).
  destruct (Hrel c ltac:(cbn; auto) w1 (ext ⊎ tokens cs) HN Hw1) as (w2 & E2 & Hw2 & F2).
  { intros m p. cbn [w1 nodes set_nodes]. rewrite lookup_insert_eq. intros [= <-]. discriminate. }
  rewrite E2. cbn [mbind option_bind].
  destruct (drop_child_dying D w2 _ l k Hw2 HlD) as (w3 & E3 & Hw3 & F3). rewrite E3. cbn [mbind option_bind].
  assert (F : frame D w w3) by eauto using heap_frame_trans.
  destruct (IH ltac:(intros; apply Hrel; cbn; auto) w3 ext ltac:(rewrite (fr_next _ _ _ F); exact HN) Hw3) as (w4 & E4 & Hw4 & F4 & Hno).
  { intros k' c' m Hin Hm. destruct (fr_nodes _ _ _ F c' m Hm) as (m0 & Hm0 & _ & _ & _ & [E|E] & _); [|auto].
    rewrite E. eapply Hpar; [right; exact Hin|exact Hm0]. }
  exists w4. splits; auto; [eauto using heap_frame_trans|]. intros x m Hm Hp Hin. cbn [map snd In] in Hin.
  destruct Hin as [<-|Hin]; [|exact (Hno x m Hm Hp Hin)].
  assert (F14 : frame D w1 w4) by eauto using heap_frame_trans.
  destruct (fr_nodes _ _ _ F14 c m Hm) as (m0 & Hm0 & _ & _ & _ & Hor & _). cbn [w1 nodes set_nodes] in Hm0.
  rewrite lookup_insert_eq in Hm0. injection Hm0 as <-. cbn in Hor. destruct Hor; congruence.
Qed.

Lemma free_table_epoch e s : ic_epoch (shape_free_table sizeof_shape sizeof_prop sizeof_entry e s) = ic_epoch e.
Proof.
  unfold shape_free_table. cbn. induction (size (index s)) as [|m IH]; [reflexivity|].
  cbn [Nat.iter nat_rect]. rewrite entry_free_epoch. exact IH.
Qed.

Lemma refs_frame D w l n r : nodes w !! l = Some n ->
  frame D w (set_nodes w (<[l := set_tab n (set_refs (tab n) r)]> (nodes w))).
Proof.
  intros Hl. split; auto. cbn [nodes set_nodes]. intros x n' Hx. destruct (decide (x = l)) as [->|Hxl].
  - rewrite lookup_insert_eq in Hx. injection Hx as <-. exists n. splits; auto.
  - rewrite lookup_insert_ne in Hx by auto. exists n'. splits; auto using set_refs_tab.
Qed.

(** The teardown of [l], whose last reference is gone. *)
Lemma teardown_ok rel N D w ext l n : next_node w = N -> forest_ok D w (ext ⊎ {[+ l +]}) ->
  nodes w !! l = Some n -> parent n = None -> ref_count (tab n) = 1 ->
  (forall c, (l < c)%nat -> releases rel N ({[l]} ∪ D) c) ->
  exists w' m,
    release_children rel l (children n) (set_nodes w (<[l := set_tab n (set_refs (tab n) 0)]> (nodes w))) = Some w' /\
    nodes w' !! l = Some m /\
    let e := shape_free_table sizeof_shape sizeof_prop sizeof_entry (tenv w') (tab m) in
    forest_ok D (set_nodes (set_tenv w' e) (delete l (nodes w'))) ext /\
    frame D w (set_nodes (set_tenv w' e) (delete l (nodes w'))).
Proof.
  intros HN Hw Hl Hp Hr1 Hrel.
  destruct (fo_ext _ _ _ Hw l) as (n1 & Hn1 & HlD); [rewrite in_add; auto|].
  destruct (fo_nodes _ _ _ Hw l n Hl) as [_ _ _ _ _ Lc].
  pose proof (kill_ok D w ext l n Hw Hl Hp Hr1) as Hw1. set (w1 := set_nodes w _) in *.
  assert (Hw1l : forall x m, nodes w1 !! x = Some m -> exists m0, nodes w !! x = Some m0 /\ parent m = parent m0).
  { intros x m. cbn [w1 nodes set_nodes]. destruct (decide (x = l)) as [->|].
    - rewrite lookup_insert_eq. intros [= <-]. eauto.
    - rewrite lookup_insert_ne by auto. eauto. }
  assert (Hkid : forall k c m, In (k, c) (children n) -> nodes w1 !! c = Some m -> parent m = Some l).
  { intros k c m Hin Hm. destruct (Hw1l c m Hm) as (m0 & Hm0 & ->).
    destruct (Lc HlD k c Hin) as (nc & Hnc & Hpc & _). congruence. }
  destruct (release_children_ok rel N ({[l]} ∪ D) l (children n)) with (w := w1) (ext := ext)
    as (w2 & E2 & Hw2 & F2 & Hno); auto.
  { apply elem_of_union_l, elem_of_singleton. reflexivity. }
  { intros c Hc. apply in_map_iff in Hc as ([k c'] & <- & Hin). apply Hrel. cbn.
    destruct (Lc HlD k c' Hin) as (nc & Hnc & Hpc & _).
    apply (nk_parent _ _ _ _ _ (fo_nodes _ _ _ Hw c' nc Hnc) l Hpc). }
  { intros k c m Hin Hm. left. eauto. }
  destruct (fo_dying _ _ _ Hw2 l) as (m & Hm & _); [apply elem_of_union_l, elem_of_singleton; reflexivity|].
  exists w2, m. split; [exact E2|]. split; [exact Hm|]. cbv zeta. split.
  - unfold set_nodes, set_tenv. refine (set_tenv_ok D (set_nodes w2 (delete l (nodes w2))) ext
      (shape_free_table sizeof_shape sizeof_prop sizeof_entry (tenv w2) (tab m)) _). eapply bury_ok; eauto.
    intros x y Hy Hpy. destruct (fr_nodes _ _ _ F2 x y Hy) as (y1 & Hy1 & _ & _ & _ & Hor & _).
    destruct Hor as [Hor|Hor]; [|congruence]. destruct (Hw1l x y1 Hy1) as (y0 & Hy0 & Hpy0).
    destruct (nk_parent _ _ _ _ _ (fo_nodes _ _ _ Hw x y0 Hy0) l) as [_ Hex]; [congruence|].
    destruct (Hex HlD) as (np & Hnp & Hin). apply (Hno x y Hy Hpy), in_map_iff.
    exists (parent_key y0, x). split; [reflexivity|congruence].
  - pose proof (refs_frame D w l n 0 Hl) as F1. fold w1 in F1. destruct F1 as [G1 G2 G3 G4 G5], F2 as [H1 H2 H3 H4 H5].
    split; cbn [nodes set_nodes set_tenv next_node g_root_shapes gc_shape_epoch tenv]; try congruence.
    + rewrite free_table_epoch. congruence.
    + intros x y' Hy'. apply lookup_delete_Some in Hy' as [Hxl Hy'].
      destruct (H5 x y' Hy') as (y1 & Hy1 & T1 & P1 & M1 & A1 & C1).
      destruct (G5 x y1 Hy1) as (y & Hy & T & P & M & A & C). exists y. splits; try congruence.
      * rewrite T1, T. reflexivity.
      * destruct A1 as [->|]; auto.
      * intros HD. rewrite C1 by (rewrite not_dying; auto). auto.
Qed.

(** A release never touches freed memory, keeps the counts right and ends. *)
Lemma release_ok N fuel : forall D l, (N - l < fuel)%nat ->
  releases (release sizeof_shape sizeof_prop sizeof_entry fuel) N D l.
Proof.
  induction fuel as [|fuel IH]; intros D l Hf; [lia|]. intros w ext HN Hw Hpar.
  destruct (fo_ext _ _ _ Hw l) as (n & Hl & HlD); [rewrite in_add; auto|].
  destruct (fo_nodes _ _ _ Hw l n Hl) as [Kf Kt _ Kr _ _]. destruct (Kr HlD) as [Hpos Hrc].
  cbn [release]. rewrite Hl. cbn [mbind option_bind]. destruct (Z.eqb_spec (ref_count (tab n)) 0); [lia|].
  rewrite (update_eq _ _ _ _ Hl). cbn [mbind option_bind].
  rewrite mult_add, decide_True in Hrc by reflexivity.
  destruct (Z.eqb_spec (ref_count (tab n) - 1) 0) as [Hz|Hz]; cbn [negb].
  - assert (Hpn : parent n = None).
    { unfold edge_refs in Hrc. destruct (parent n) as [p|] eqn:Ep; [|reflexivity].
      rewrite decide_False in Hrc by (eapply Hpar; eauto). lia. }
    unfold unlink_parent. rewrite Hpn, Hz. cbn [mbind option_bind].
    destruct (teardown_ok (release sizeof_shape sizeof_prop sizeof_entry fuel) N D w ext l n)
      as (w' & m & E & Hm & Hok & Hfr); auto; [lia|intros; apply IH; lia|].
    rewrite E. cbn [mbind option_bind]. rewrite Hm. cbn [mbind option_bind]. eexists. split; [reflexivity|]. auto.
  - eexists. split; [reflexivity|]. split; [|apply refs_frame, Hl].
    apply (replace_ok D w (ext ⊎ {[+ l +]}) ext (tenv w) l n); auto; cbn [tab set_tab].
    + apply set_refs_ok, Kt.
    + intros x Hx. rewrite mult_add, decide_False by auto. lia.
    + cbn [ref_count set_refs]. intros _. lia.
Qed.

(** [ant_shape_release] by an owner. *)
Lemma shape_release_ok w ext l : forest_ok ∅ w (ext ⊎ {[+ l +]}) ->
  exists w', shape_release sizeof_shape sizeof_prop sizeof_entry l w = Some w' /\ forest_ok ∅ w' ext /\ frame ∅ w w'.
Proof.
  intros Hw. apply (release_ok (next_node w) (S (next_node w)) ∅ l); auto; [lia|].
  intros n p _ _. apply not_elem_of_empty.
Qed.

End Release.

(** ** Keys of edges *)

(** Pointers and symbol offsets leave the top byte of a key free. *)
Definition tree_key (k : shape_key) : Prop :=
  match k with
  | ANT_SHAPE_KEY_STRING x | ANT_SHAPE_KEY_SYMBOL x => 0 <= x < 2 ^ 55
  | ANT_SHAPE_KEY_DELETED => False
  end.

Lemma tree_key_valid k : tree_key k -> valid_key k.
Proof. destruct k; cbn; lia. Qed.
#[local] Hint Resolve tree_key_valid : core.

Lemma tree_key_code k : tree_key k -> 0 <= key_code k < 2 ^ 56.
Proof. destruct k; cbn; intros H; [rewrite code_string|rewrite code_symbol|]; lia. Qed.

Lemma child_key_add c a : 0 <= c < 2 ^ 56 -> 0 <= a < 256 -> shape_child_key c a = c + a * 2 ^ 56.
Proof.
  intros Hc Ha. unfold shape_child_key. rewrite wrap_small by (rewrite Z.shiftl_mul_pow2; lia).
  rewrite <- Z.add_nocarry_lxor; [rewrite Z.shiftl_mul_pow2; lia|].
  rewrite Z.land_comm. apply land_shiftl_small; lia.
Qed.

Lemma child_key_inj k a k' a' : tree_key k -> tree_key k' -> 0 <= a < 256 -> 0 <= a' < 256 ->
  shape_child_key (key_code k) a = shape_child_key (key_code k') a' -> k = k' /\ a = a'.
Proof.
  intros Hk Hk' Ha Ha'. pose proof (tree_key_code k Hk). pose proof (tree_key_code k' Hk').
  rewrite !child_key_add by assumption. intros E. assert (key_code k = key_code k' /\ a = a') as [E1 ->] by lia.
  split; [|reflexivity]. apply key_code_inj; auto.
Qed.

(** ** Adding a key, slot by slot *)

Lemma alter_map s k a slot : table_ok s -> valid_key k -> shape_lookup s (key_code k) = Some slot ->
  alter (set_attrs a) slot (props s) = map (fun p => if has_key k p then set_attrs a p else p) (props s).
Proof.
  intros Ht Hk El. pose proof El as El'. apply lookup_spec in El' as (p & Hp & Hpk); auto.
  apply list_eq. intros i. rewrite list_lookup_fmap. destruct (decide (i = slot)) as [->|Hi].
  - rewrite list_lookup_alter_eq, Hp. cbn. unfold has_key. rewrite bool_decide_eq_true_2 by auto. reflexivity.
  - rewrite list_lookup_alter_ne by auto. destruct (props s !! i) as [q|] eqn:Hq; [|reflexivity]. cbn.
    unfold has_key. rewrite bool_decide_eq_false_2; [reflexivity|]. intros Hqk. apply Hi. symmetry.
    eapply slot_unique; eauto; [|congruence]. unfold is_deleted. rewrite Hpk. destruct k; auto; contradiction.
Qed.

Lemma existsb_props s k : table_ok s -> valid_key k ->
  existsb (has_key k) (props s) = match shape_lookup s (key_code k) with Some _ => true | None => false end.
Proof.
  intros Ht Hk. destruct (shape_lookup s (key_code k)) as [i|] eqn:El.
  - apply lookup_spec in El as (p & Hp & Hpk); auto. apply existsb_exists. exists p.
    split; [apply list_elem_of_In, list_elem_of_lookup; eauto|]. apply bool_decide_eq_true. exact Hpk.
  - apply not_true_is_false. rewrite existsb_exists. intros (p & Hin & Hpk). apply bool_decide_eq_true in Hpk.
    apply list_elem_of_In, list_elem_of_lookup in Hin as [i Hi].
    assert (shape_lookup s (key_code k) = Some i) by (apply lookup_spec; eauto). congruence.
Qed.

Lemma add_key_props grant szp sze e s k a slot e' s' : table_ok s -> valid_key k ->
  shape_add_key grant szp sze e s k a = (Some slot, e', s') ->
  props s' = upsert k a (props s) /\ ref_count s' = ref_count s.
Proof.
  intros Ht Hk. unfold shape_add_key, upsert. rewrite existsb_props by auto.
  destruct (shape_lookup s (key_code k)) as [i|] eqn:El.
  - intros [= <- <- <-]. cbn. rewrite (alter_map s k a) by auto. auto.
  - destruct (shape_ensure_capacity grant szp e s (ant_shape_count s + 1)) as [[ok e1] s1] eqn:Ec.
    apply ensure_capacity_spec in Ec as (_ & Es & _). destruct ok; cbn [negb]; [|discriminate].
    destruct (shape_entry_alloc grant e1) as [ok e2]. destruct ok; cbn [negb]; [|discriminate].
    rewrite Es. cbn [props set_cap].
    match goal with |- (let '(_, _) := ?r in _) = _ -> _ => set (r3 := r) end.
    assert (Hr : exists e4 g, r3 = (e4, set_guard (set_index (set_props (set_cap s (cap s1))
       (props s ++ [ShapeProp k a 0 0 0 0])) (<[key_code k := length (props s)]> (index s))) g)).
    { unfold r3. set (s3 := set_index _ _).
      destruct k; try (eexists _, (absence_guard_epoch s3); destruct s3; reflexivity).
      destruct (shape_invalidate_guarded_absence _ _) as [e4 s4] eqn:E. apply invalidate_spec in E as [g ->]. eauto. }
    destruct Hr as (e4 & g & ->). intros [= <- <- <-]. auto.
Qed.

(** ** Coherent edges

    The child on the edge for a key and attributes has the parent's slots
    with that property added. *)

Definition edge_ok (np : node) (ckey : Z) (nc : node) : Prop :=
  exists k a, tree_key k /\ 0 <= a < 256 /\ ckey = shape_child_key (key_code k) a /\
    props (tab nc) = upsert k a (props (tab np)).

(** The weaker fact that the child has the key survives changes of the
    parent. *)
Definition edge_has (np : node) (ckey : Z) (nc : node) : Prop :=
  exists k a, tree_key k /\ 0 <= a < 256 /\ ckey = shape_child_key (key_code k) a /\
    existsb (has_key k) (props (tab nc)) = true.

Definition edges (R : node -> Z -> node -> Prop) (w : forest) : Prop := forall p np ckey c nc,
  nodes w !! p = Some np -> In (ckey, c) (children np) -> nodes w !! c = Some nc -> R np ckey nc.
Abbreviation coherent := (edges edge_ok).
Abbreviation labelled := (edges edge_has).

(** Relations that look at the slots only. *)
Definition on_props (R : node -> Z -> node -> Prop) : Prop := forall np ckey nc np' nc',
  R np ckey nc -> props (tab np') = props (tab np) -> props (tab nc') = props (tab nc) -> R np' ckey nc'.

Lemma edge_ok_props : on_props edge_ok.
Proof. intros np ckey nc np' nc' (k & a & K1 & K2 & K3 & K4) Ep Ec. exists k, a. rewrite Ep, Ec. auto. Qed.
Lemma edge_has_props : on_props edge_has.
Proof. intros np ckey nc np' nc' (k & a & K1 & K2 & K3 & K4) Ep Ec. exists k, a. rewrite Ec. auto. Qed.
#[local] Hint Resolve edge_ok_props edge_has_props : core.

Definition props_at (w : forest) (x : nat) : option (list ant_shape_prop_t) :=
  option_map (fun n => props (tab n)) (nodes w !! x).

Lemma frame_props D w w' x : frame D w w' -> is_Some (nodes w' !! x) -> props_at w' x = props_at w x.
Proof.
  intros F [n' Hn']. destruct (fr_nodes _ _ _ F x n' Hn') as (n & Hn & T & _).
  unfold props_at. rewrite Hn', Hn. cbn. rewrite T. reflexivity.
Qed.

Lemma frame_edges R w w' : on_props R -> frame ∅ w w' -> edges R w -> edges R w'.
Proof.
  intros HR F H p np k c nc Hp Hin Hc.
  destruct (fr_nodes _ _ _ F p np Hp) as (np0 & Hp0 & Tp & _ & _ & _ & Cp).
  destruct (fr_nodes _ _ _ F c nc Hc) as (nc0 & Hc0 & Tc & _).
  rewrite Cp in Hin by apply not_elem_of_empty.
  apply (HR np0 k nc0); [eapply H; eauto|rewrite Tp; reflexivity|rewrite Tc; reflexivity].
Qed.

(** Nobody's child. *)
Definition orphan (w : forest) (l : nat) : Prop :=
  forall p np k, nodes w !! p = Some np -> ~ In (k, l) (children np).

Lemma orphan_parent w ext l n : forest_ok ∅ w ext -> nodes w !! l = Some n -> parent n = None -> orphan w l.
Proof.
  intros Hw Hl Hp p np k Hnp Hin.
  destruct (nk_children _ _ _ _ _ (fo_nodes _ _ _ Hw p np Hnp) (not_elem_of_empty _) k l Hin) as (nc & Hnc & Hpc & _).
  congruence.
Qed.

(** A node changes, with the same children. *)
Lemma edges_set R w l n n' e : edges R w -> nodes w !! l = Some n -> children n' = children n ->
  orphan w l \/ (forall np k, R np k n -> R np k n') ->
  children n = [] \/ (forall k nc, R n k nc -> R n' k nc) ->
  edges R (set_tenv (set_nodes w (<[l := n']> (nodes w))) e).
Proof.
  intros Hco Hl Ec Hi Ho p np k c nc. cbn [nodes set_tenv set_nodes]. intros Hp Hin Hc.
  assert (Hpre : exists np0 nc0, nodes w !! p = Some np0 /\ nodes w !! c = Some nc0 /\ In (k, c) (children np0) /\
    (children np0 = [] \/ (forall k x, R np0 k x -> R np k x)) /\ (orphan w c \/ forall x k, R x k nc0 -> R x k nc)).
  { destruct (decide (p = l)) as [->|Hpl], (decide (c = l)) as [->|Hcl];
      rewrite ?lookup_insert_eq, ?lookup_insert_ne in Hp by auto;
      rewrite ?lookup_insert_eq, ?lookup_insert_ne in Hc by auto.
    - injection Hp as <-. injection Hc as <-. exists n, n. rewrite Ec in Hin. splits; auto.
    - injection Hp as <-. exists n, nc. rewrite Ec in Hin. splits; auto.
    - injection Hc as <-. exists np, n. splits; auto.
    - exists np, nc. splits; auto. }
  destruct Hpre as (np0 & nc0 & Hp0 & Hc0 & Hin0 & [Ep|Ep] & Hc'); [rewrite Ep in Hin0; destruct Hin0|].
  destruct Hc' as [Hor|Ec']; [exfalso; exact (Hor p np0 k Hp0 Hin0)|]. apply Ep, Ec'. eapply Hco; eauto.
Qed.

Lemma edges_same R w l n n' e : on_props R -> edges R w -> nodes w !! l = Some n -> children n' = children n ->
  props (tab n') = props (tab n) -> edges R (set_tenv (set_nodes w (<[l := n']> (nodes w))) e).
Proof. intros HR Hco Hl Ec Ep. eapply edges_set; eauto. Qed.

Lemma props_at_set w l n n' e x : nodes w !! l = Some n -> x <> l \/ props (tab n') = props (tab n) ->
  props_at (set_tenv (set_nodes w (<[l := n']> (nodes w))) e) x = props_at w x.
Proof.
  intros Hl Hor. unfold props_at. cbn [nodes set_tenv set_nodes]. destruct (decide (x = l)) as [->|].
  - rewrite lookup_insert_eq, Hl. cbn. destruct Hor; congruence.
  - rewrite lookup_insert_ne by auto. reflexivity.
Qed.

(** ** The operations of an owner *)

Lemma refs_bound w ext x n : forest_ok ∅ w ext -> nodes w !! x = Some n ->
  ref_count (tab n) <= Z.of_nat (size ext) + 1 + Z.of_nat (length (g_root_shapes w)).
Proof.
  intros Hw Hx. destruct (nk_refs _ _ _ _ _ (fo_nodes _ _ _ Hw x n Hx) (not_elem_of_empty _)) as [_ ->].
  assert (multiplicity x ext <= size ext)%nat.
  { pose proof (gmultiset_subseteq_size (multiplicity x ext *: {[+ x +]}) ext) as H.
    rewrite gmultiset_size_scalar_mul, gmultiset_size_singleton in H.
    rewrite Nat.mul_1_r in H. apply H. intros y. rewrite multiplicity_scalar_mul, multiplicity_singleton.
    case_decide; subst; lia. }
  assert (edge_refs ∅ n <= 1)%nat by (unfold edge_refs; destruct (parent n); [case_decide|]; lia).
  pose proof (List.filter_length_le (fun r => bool_decide (r = Some x)) (g_root_shapes w)).
  unfold root_refs. lia.
Qed.

Lemma root_refs_absent w ext x : forest_ok ∅ w ext -> nodes w !! x = None -> root_refs w x = 0%nat.
Proof.
  intros Hw Hx. unfold root_refs. destruct (List.filter _ _) as [|r l] eqn:E; [reflexivity|]. exfalso.
  assert (In r (r :: l)) as Hin by (left; reflexivity). rewrite <- E in Hin. apply filter_In in Hin as [Hin Hb].
  apply bool_decide_eq_true in Hb. subst r. destruct (fo_roots _ _ _ Hw x Hin) as (n & Hn & _). congruence.
Qed.

Lemma fresh_absent D w ext : forest_ok D w ext -> nodes w !! next_node w = None.
Proof.
  intros Hw. destruct (nodes w !! next_node w) as [n|] eqn:E; [|reflexivity].
  pose proof (nk_fresh _ _ _ _ _ (fo_nodes _ _ _ Hw _ n E)). lia.
Qed.

Lemma elem_mult (x : nat) (ext : gmultiset nat) : x ∈ ext <-> (0 < multiplicity x ext)%nat.
Proof. reflexivity. Qed.

Lemma alloc_node_ok w ext s : forest_ok ∅ w ext -> table_ok s -> ref_count s = 1 ->
  forest_ok ∅ (alloc_node s w).2 (ext ⊎ {[+ next_node w +]}).
Proof.
  intros Hw Ht Hr1. pose proof (fresh_absent _ _ _ Hw) as Hfr. set (c := next_node w) in *.
  pose proof (root_refs_absent _ _ _ Hw Hfr) as Hroot.
  assert (Hmc : multiplicity c ext = 0%nat).
  { destruct (multiplicity c ext) as [|m] eqn:E; [reflexivity|]. destruct (fo_ext _ _ _ Hw c) as (n & Hn & _); [|congruence].
    rewrite elem_mult. lia. }
  assert (Hold : forall x n, nodes w !! x = Some n -> <[c := Node s [] None 0 0]> (nodes w) !! x = Some n).
  { intros x n Hx. rewrite lookup_insert_ne by congruence. exact Hx. }
  destruct Hw as [Hn He Hrt Hd Hlen]. split; cbn [alloc_node snd nodes g_root_shapes]; auto.
  - intros x n Hx. destruct (decide (x = c)) as [->|Hxc].
    + rewrite lookup_insert_eq in Hx. injection Hx as <-. split; cbn; auto; try discriminate; try lia.
      * intros _. rewrite mult_add, decide_True, Hmc, Hr1 by auto. unfold root_refs in *. cbn. rewrite Hroot. cbn. lia.
      * intros _. constructor.
    + rewrite lookup_insert_ne in Hx by auto. destruct (Hn x n Hx) as [K1 K2 K3 K4 K5 K6].
      split; cbn [alloc_node snd nodes next_node]; auto.
      * intros p Hp. destruct (K3 p Hp) as [Hlt Hex]. split; [exact Hlt|]. intros HD. destruct (Hex HD) as (np & ? & ?). eauto.
      * intros HD. rewrite mult_add, decide_False by auto. destruct (K4 HD) as [L1 L2]. split; [exact L1|]. rewrite L2.
        unfold root_refs. cbn. lia.
      * intros HD k y Hy. destruct (K6 HD k y Hy) as (ny & ? & ? & ?). eauto 6.
  - intros x Hx. apply in_add in Hx as [Hx| ->].
    + destruct (He x Hx) as (n & Hx' & HD). eauto.
    + exists (Node s [] None 0 0). rewrite lookup_insert_eq. split; [reflexivity|apply not_elem_of_empty].
  - intros r Hr. destruct (Hrt r Hr) as (n & ? & ? & ?). eauto 6.
  - intros x Hx. apply not_elem_of_empty in Hx as [].
Qed.

Lemma alloc_edges R w ext s : forest_ok ∅ w ext -> edges R w -> edges R (alloc_node s w).2.
Proof.
  intros Hw He p np k c nc. cbn [alloc_node snd nodes]. intros Hp Hin Hc.
  rewrite lookup_insert_Some in Hp. destruct Hp as [[<- <-]|[Hpf Hp]]; [destruct Hin|].
  rewrite lookup_insert_Some in Hc. destruct Hc as [[<- <-]|[Hcf Hc]]; [|eapply He; eauto].
  destruct (nk_children _ _ _ _ _ (fo_nodes _ _ _ Hw p np Hp) (not_elem_of_empty _) k _ Hin) as (ny & Hny & _).
  rewrite (fresh_absent _ _ _ Hw) in Hny. discriminate.
Qed.

(** A shape in reach of its owner can be retained once more. *)
Lemma retain_ok w ext l n : forest_ok ∅ w ext -> nodes w !! l = Some n -> Z.of_nat (size ext) < 2 ^ 31 ->
  let n' := set_tab n (set_refs (tab n) (ref_count (tab n) + 1)) in
  shape_retain l w = Some (set_nodes w (<[l := n']> (nodes w))) /\
  forest_ok ∅ (set_nodes w (<[l := n']> (nodes w))) (ext ⊎ {[+ l +]}).
Proof.
  intros Hw Hl Hsz n'. pose proof (refs_bound w ext l n Hw Hl) as Hb. rewrite (fo_len _ _ _ Hw) in Hb.
  destruct (fo_nodes _ _ _ Hw l n Hl) as [_ Kt _ Kr _ _]. destruct (Kr (not_elem_of_empty _)) as [L1 L2].
  split.
  - unfold shape_retain, ant_shape_retain. rewrite (update_eq _ _ _ _ Hl). rewrite wrap_small by lia. reflexivity.
  - apply (replace_ok ∅ w ext (ext ⊎ {[+ l +]}) (tenv w) l n); auto.
    + apply set_refs_ok, Kt.
    + intros x Hx. rewrite mult_add, decide_False by auto. lia.
    + intros _. apply not_elem_of_empty.
    + intros _. rewrite mult_add, decide_True by auto. cbn. lia.
Qed.

Lemma find_entry_in k cs c : find_entry k cs = Some c -> In (k, c) cs.
Proof.
  induction cs as [|[k' c'] cs IH]; cbn; [discriminate|]. case_if; boolprop; [|auto].
  intros [= ->]. left. f_equal. lia.
Qed.
Lemma find_entry_none k cs : find_entry k cs = None -> k ∉ map fst cs.
Proof.
  induction cs as [|[k' c'] cs IH]; cbn [find_entry map fst]; intros H; [apply not_elem_of_nil|].
  destruct (Z.eqb_spec k' k); [discriminate|]. rewrite not_elem_of_cons. auto.
Qed.

(** The state after a new edge from [p] to [c]. *)
Definition linked (w : forest) (e : env) (p : nat) (np : node) (ckey : Z) (c : nat) (nc : node) : forest :=
  set_nodes (set_tenv w e)
    (<[c := Node (set_refs (tab nc) (ref_count (tab nc) + 1)) (children nc) (Some p) ckey (gc_mark nc)]>
    (<[p := set_children np (children np ++ [(ckey, c)])]> (nodes w))).

Lemma record_child_eq grant w p ckey c np nc : nodes w !! p = Some np -> nodes w !! c = Some nc -> p <> c ->
  find_entry ckey (children np) = None -> 0 <= ref_count (tab nc) < 2 ^ 32 - 1 ->
  shape_starved grant \/
  exists e, ic_epoch e = ic_epoch (tenv w) /\
    shape_record_child grant p ckey c w = Some (linked w e p np ckey c nc).
Proof.
  intros Hp Hc Hpc Hf Hr. unfold shape_record_child. rewrite Hp. cbn [mbind option_bind]. rewrite Hf.
  destruct (shape_entry_alloc grant (tenv w)) as [ok e] eqn:E. apply entry_alloc_epoch in E as [He Hs].
  destruct ok; cbn [negb]; [right|left; auto]. exists e. split; [exact He|].
  unfold shape_retain, update, ant_shape_retain. cbn [nodes set_tenv set_nodes]. rewrite Hc. cbn [mbind option_bind nodes set_nodes].
  rewrite lookup_insert_ne, Hp by auto. cbn [mbind option_bind nodes set_nodes].
  rewrite lookup_insert_ne, lookup_insert_eq by auto. cbn [mbind option_bind nodes set_nodes].
  unfold linked. f_equal. unfold set_nodes. f_equal. cbn [nodes set_tenv set_tab tab children gc_mark].
  rewrite wrap_small by lia. rewrite (insert_insert_ne _ p c) by auto. rewrite insert_insert_eq.
  rewrite (insert_insert_ne _ c p) by auto. reflexivity.
Qed.

Lemma linked_ok w ext e p np ckey c nc : forest_ok ∅ w ext -> nodes w !! p = Some np -> nodes w !! c = Some nc ->
  (p < c)%nat -> parent nc = None -> root_refs w c = 0%nat -> find_entry ckey (children np) = None ->
  forest_ok ∅ (linked w e p np ckey c nc) ext.
Proof.
  intros Hw Hp Hc Hlt Hpc Hroot Hf. apply find_entry_none in Hf.
  pose proof (not_elem_of_empty (C := gset nat)) as H0. destruct Hw as [Hn He Hr Hd Hlen].
  set (h := nodes (linked w e p np ckey c nc)).
  assert (Hh : forall x n, nodes w !! x = Some n -> exists n', h !! x = Some n' /\
     (x <> c -> tab n' = tab n /\ parent n' = parent n /\ parent_key n' = parent_key n) /\
     (x <> p -> children n' = children n) /\ incl (children n) (children n')).
  { intros x n Hx. unfold h. cbn [linked nodes set_nodes]. destruct (decide (x = c)) as [->|Hxc].
    - rewrite lookup_insert_eq. eexists. split; [reflexivity|]. replace n with nc by congruence.
      cbn. split; [tauto|]. split; [auto|]. apply incl_refl.
    - rewrite lookup_insert_ne by auto. destruct (decide (x = p)) as [->|Hxp].
      + rewrite lookup_insert_eq. eexists. split; [reflexivity|]. replace n with np by congruence.
        cbn. split; [auto|]. split; [tauto|]. apply incl_appl, incl_refl.
      + rewrite lookup_insert_ne by auto. exists n. split; [auto|]. split; [auto|]. split; [auto|]. apply incl_refl. }
  assert (Hhc : exists n', h !! c = Some n' /\ parent n' = Some p /\ parent_key n' = ckey).
  { unfold h. cbn [linked nodes set_nodes]. rewrite lookup_insert_eq. eauto. }
  assert (Hkids : forall x n k y, nodes w !! x = Some n -> In (k, y) (children n) ->
     exists ny', h !! y = Some ny' /\ parent ny' = Some x /\ parent_key ny' = k).
  { intros x n k y Hx Hy. destruct (nk_children _ _ _ _ _ (Hn x n Hx) (H0 x) k y Hy) as (ny & Hny & P1 & P2).
    destruct (Hh y ny Hny) as (ny' & E1 & E2 & _). assert (y <> c) as Hyc by congruence.
    destruct (E2 Hyc) as (_ & E3 & E4). exists ny'. splits; congruence. }
  split; change (nodes (linked w e p np ckey c nc)) with h; auto.
  - intros x n' Hx. unfold h in Hx. cbn [linked nodes set_nodes] in Hx.
    assert (Hpar : forall n q, nodes w !! x = Some n -> parent n = Some q -> (q < x)%nat /\
       (q ∉ (∅ : gset nat) -> exists nq, h !! q = Some nq /\ In (parent_key n, x) (children nq))).
    { intros n q Hxn Hq. destruct (nk_parent _ _ _ _ _ (Hn x n Hxn) q Hq) as [L1 L2]. split; [exact L1|]. intros HD.
      destruct (L2 HD) as (nq & Hnq & Hin). destruct (Hh q nq Hnq) as (nq' & E1 & _ & _ & E4). eauto. }
    destruct (decide (x = c)) as [->|Hxc]; [|destruct (decide (x = p)) as [->|Hxp]].
    + rewrite lookup_insert_eq in Hx. injection Hx as <-. destruct (Hn c nc Hc) as [K1 K2 K3 K4 K5 K6].
      split; cbn [parent parent_key children tab]; auto using set_refs_ok.
      * intros q [= <-]. split; [exact Hlt|]. intros _.
        change (nodes (linked w e p np ckey c nc)) with h. unfold h. cbn [linked nodes set_nodes].
        rewrite lookup_insert_ne, lookup_insert_eq by lia. eexists. split; [reflexivity|]. cbn.
        rewrite in_app_iff. right. left. reflexivity.
      * intros HD. destruct (K4 HD) as [L1 L2]. unfold edge_refs in *. cbn [parent]. rewrite Hpc in L2.
        rewrite decide_False by auto. cbn [ref_count set_refs]. split; [lia|]. rewrite L2. unfold root_refs. cbn. lia.
      * intros HD k y Hy. exact (Hkids c nc k y Hc Hy).
    + rewrite lookup_insert_ne, lookup_insert_eq in Hx by auto. injection Hx as <-. destruct (Hn p np Hp) as [K1 K2 K3 K4 K5 K6].
      split; cbn [parent parent_key children tab set_children]; auto.
      * intros HD. rewrite map_app. apply NoDup_app. splits; [auto| |apply NoDup_singleton].
        intros k Hk Hk'. cbn in Hk'. apply list_elem_of_singleton in Hk' as ->. exact (Hf Hk).
      * intros HD k y Hy. apply in_app_iff in Hy as [Hy|[[= <- <-]|[]]]; [exact (Hkids p np k y Hp Hy)|exact Hhc].
    + rewrite !lookup_insert_ne in Hx by auto. destruct (Hn x n' Hx) as [K1 K2 K3 K4 K5 K6].
      split; auto. intros HD k y Hy. exact (Hkids x n' k y Hx Hy).
  - intros x Hx. destruct (He x Hx) as (n & Hxn & HD). destruct (Hh x n Hxn) as (n' & E1 & _). eauto.
  - intros r Hir. destruct (Hr r Hir) as (n & Hrn & HD & Hpn). destruct (Hh r n Hrn) as (n' & E1 & E2 & _).
    exists n'. splits; auto. assert (r <> c) as Hrc.
    { intros ->. unfold root_refs in Hroot. apply length_zero_iff_nil in Hroot.
      assert (In (Some c) (List.filter (fun r => bool_decide (r = Some c)) (g_root_shapes w))) as Hin.
      { apply filter_In. split; [exact Hir|]. apply bool_decide_eq_true. reflexivity. }
      rewrite Hroot in Hin. exact Hin. }
    destruct (E2 Hrc) as (_ & -> & _). exact Hpn.
  - intros x Hx. apply not_elem_of_empty in Hx as [].
Qed.

Lemma linked_edges R w e p np ckey c nc : on_props R -> edges R w -> nodes w !! p = Some np -> nodes w !! c = Some nc ->
  p <> c -> R np ckey nc -> edges R (linked w e p np ckey c nc).
Proof.
  intros HR Hco Hp Hc Hpc Hnew q nq k y ny. cbn [linked nodes set_nodes]. intros Hq Hin Hy.
  assert (Hny : exists ny0, nodes w !! y = Some ny0 /\ props (tab ny) = props (tab ny0)).
  { rewrite lookup_insert_Some in Hy. destruct Hy as [[<- <-]|[_ Hy]]; [eauto|].
    rewrite lookup_insert_Some in Hy. destruct Hy as [[<- <-]|[_ Hy]]; eauto. }
  destruct Hny as (ny0 & Hy0 & Ey).
  rewrite lookup_insert_Some in Hq. destruct Hq as [[<- <-]|[_ Hq]].
  { cbn in Hin. apply (HR nc k ny0); [eapply Hco; eauto|reflexivity|exact Ey]. }
  rewrite lookup_insert_Some in Hq. destruct Hq as [[<- <-]|[_ Hq]].
  - cbn in Hin. apply in_app_iff in Hin as [Hin|[[= <- <-]|[]]].
    + apply (HR np k ny0); [eapply Hco; eauto|reflexivity|exact Ey].
    + apply (HR np ckey nc); [exact Hnew|reflexivity|]. congruence.
  - apply (HR nq k ny0); [eapply Hco; eauto|reflexivity|exact Ey].
Qed.

(** A node gets another table with the same reference count. *)
Lemma set_tab_ok w ext l n s e : forest_ok ∅ w ext -> nodes w !! l = Some n -> table_ok s ->
  ref_count s = ref_count (tab n) ->
  forest_ok ∅ (set_tenv (set_nodes w (<[l := set_tab n s]> (nodes w))) e) ext.
Proof.
  intros Hw Hl Ht Hr. eapply replace_ok; eauto.
  - intros _. apply not_elem_of_empty.
  - cbn. rewrite Hr. apply (nk_refs _ _ _ _ _ (fo_nodes _ _ _ Hw l n Hl)).
Qed.

Lemma props_at_alloc w s x : props_at (alloc_node s w).2 x =
  if decide (x = next_node w) then Some (props s) else props_at w x.
Proof.
  unfold props_at. cbn [alloc_node snd nodes]. destruct (decide (x = next_node w)) as [->|].
  - rewrite lookup_insert_eq. reflexivity.
  - rewrite lookup_insert_ne by auto. reflexivity.
Qed.

Lemma props_at_some w x n : nodes w !! x = Some n -> props_at w x = Some (props (tab n)).
Proof. unfold props_at. intros ->. reflexivity. Qed.

Lemma token_swap (ext : gmultiset nat) (l l' : nat) :
  (ext ⊎ {[+ l +]}) ⊎ {[+ l' +]} = (ext ⊎ {[+ l' +]}) ⊎ {[+ l +]}.
Proof. multiset_solver. Qed.

Section Ops.
Context (grant : nat -> bool) (sizeof_shape sizeof_prop sizeof_entry : Z).

Lemma clone_at_ok w ext l n : forest_ok ∅ w ext -> nodes w !! l = Some n -> ant_shape_count (tab n) <= 2 ^ 30 ->
  shape_starved grant \/
  exists s e, shape_clone grant sizeof_shape sizeof_prop sizeof_entry l w =
      Some (Some (next_node w), (alloc_node s (set_tenv w e)).2) /\
    table_ok s /\ props s = props (tab n) /\ ref_count s = 1 /\ ic_epoch e = ic_epoch (tenv w).
Proof.
  intros Hw Hl Hc. unfold shape_clone. rewrite Hl. cbn [mbind option_bind].
  destruct (ant_shape_clone grant _ _ _ (tenv w) (tab n)) as [r e] eqn:E.
  apply clone_spec in E; [|apply (nk_table _ _ _ _ _ (fo_nodes _ _ _ Hw l n Hl))|exact Hc].
  destruct r as [s|]; [|auto]. destruct E as (E1 & E2 & E3 & _ & E5). right. exists s, e. auto.
Qed.

Lemma add_key_at_ok w ext l n k a : forest_ok ∅ w ext -> nodes w !! l = Some n -> tree_key k ->
  ant_shape_count (tab n) < 2 ^ 30 ->
  shape_starved grant \/
  exists slot s e, add_key_at grant sizeof_prop sizeof_entry l k a w =
      Some (Some slot, set_tenv (set_nodes w (<[l := set_tab n s]> (nodes w))) e) /\
    table_ok s /\ props s = upsert k a (props (tab n)) /\ ref_count s = ref_count (tab n) /\
    exists p, props s !! slot = Some p /\ pkey p = k /\ attrs p = a.
Proof.
  intros Hw Hl Hk Hc. unfold add_key_at. rewrite Hl. cbn [mbind option_bind].
  pose proof (nk_table _ _ _ _ _ (fo_nodes _ _ _ Hw l n Hl)) as Ht.
  destruct (shape_add_key grant _ _ (tenv w) (tab n) k a) as [[r e] s] eqn:E.
  pose proof E as E'. apply shape_add_key_spec in E'; auto. destruct r as [slot|]; [right|auto].
  destruct E' as (Hs & _ & Hp). apply add_key_props in E as (E1 & E2); auto.
  exists slot, s, e. split; [|auto]. rewrite (update_eq l _ (set_tenv w e) n) by exact Hl. reflexivity.
Qed.

Lemma invalidate_at_ok w l n : nodes w !! l = Some n ->
  exists g e, invalidate_at l w = Some (set_tenv (set_nodes w (<[l := set_tab n (set_guard (tab n) g)]> (nodes w))) e).
Proof.
  intros Hl. unfold invalidate_at. rewrite Hl. cbn [mbind option_bind].
  destruct (shape_invalidate_guarded_absence (tenv w) (tab n)) as [e s] eqn:E. apply invalidate_spec in E as [g ->].
  exists g, e. rewrite (update_eq l _ (set_tenv w e) n) by exact Hl. reflexivity.
Qed.

(** A shape that may be changed in place has no children. *)
Definition clean (n : node) : Prop := shape_is_in_tree n = true \/ children n = [].
Definition clean_at (w : forest) (l : nat) : Prop := exists n, nodes w !! l = Some n /\ clean n.

(** The facts a transition establishes. *)
Record transition (w : forest) (ext : gmultiset nat) (k : shape_key) (slot l' : nat) (w' : forest) : Prop := {
  tr_ok : forest_ok ∅ w' (ext ⊎ {[+ l' +]});
  tr_labelled : labelled w';
  tr_slot : exists ps p, props_at w' l' = Some ps /\ ps !! slot = Some p /\ pkey p = k;
  tr_others : forall x, x ∈ ext -> props_at w' x = props_at w x }.

(** The end of a transition: the guard of the old shape is cleared and the
    reference to it given up. *)
Lemma leave_ok w ext l l' n : forest_ok ∅ w ((ext ⊎ {[+ l +]}) ⊎ {[+ l' +]}) -> nodes w !! l = Some n ->
  exists w1 w', invalidate_at l w = Some w1 /\ shape_release sizeof_shape sizeof_prop sizeof_entry l w1 = Some w' /\
    forest_ok ∅ w' (ext ⊎ {[+ l' +]}) /\
    (forall R, on_props R -> edges R w -> edges R w') /\
    (forall x, x ∈ ext ⊎ {[+ l' +]} -> props_at w' x = props_at w x) /\
    (forall x n0 n', x <> l -> nodes w !! x = Some n0 -> nodes w' !! x = Some n' -> children n' = children n0).
Proof.
  intros Hw Hl. destruct (invalidate_at_ok w l n Hl) as (g & e & E). set (w1 := set_tenv _ e) in E.
  assert (Hw1 : forest_ok ∅ w1 ((ext ⊎ {[+ l' +]}) ⊎ {[+ l +]})).
  { rewrite token_swap.
    apply set_tab_ok; auto. apply set_guard_ok, (nk_table _ _ _ _ _ (fo_nodes _ _ _ Hw l n Hl)). }
  destruct (shape_release_ok sizeof_shape sizeof_prop sizeof_entry _ _ _ Hw1) as (w' & E' & Hw' & F).
  exists w1, w'. split; [exact E|]. split; [exact E'|]. split; [exact Hw'|]. split.
  - intros R HR HE. eapply frame_edges; eauto. eapply edges_same; eauto.
  - split.
    + intros x Hx. rewrite (frame_props _ _ _ x F).
      * apply (props_at_set w l n); auto.
      * destruct (fo_ext _ _ _ Hw' x Hx) as (m & ? & _). eauto.
    + intros x n0 n' Hxl Hx Hx'. destruct (fr_nodes _ _ _ F x n' Hx') as (m & Hm & _ & _ & _ & _ & ->); [|apply not_elem_of_empty].
      cbn [w1 nodes set_tenv set_nodes] in Hm. rewrite lookup_insert_ne in Hm by auto. congruence.
Qed.

Lemma upsert_has k a l : existsb (has_key k) (upsert k a l) = true.
Proof.
  unfold upsert. destruct (existsb (has_key k) l) eqn:E.
  - apply existsb_exists in E as (p & Hin & Hp). apply existsb_exists. exists (set_attrs a p). split; [|exact Hp].
    apply in_map_iff. exists p. rewrite Hp. auto.
  - rewrite existsb_app. cbn. unfold has_key at 2. cbn. rewrite bool_decide_eq_true_2 by auto.
    rewrite orb_true_r. reflexivity.
Qed.

Lemma upsert_length k a l : (length (upsert k a l) <= S (length l))%nat.
Proof. unfold upsert. case_if; [rewrite length_map|rewrite length_app; cbn]; lia. Qed.

(** The child of a new edge is a copy with the property added. *)
Lemma build_child w ext l n k a (ckey := shape_child_key (key_code k) a) :
  forest_ok ∅ w (ext ⊎ {[+ l +]}) -> labelled w -> nodes w !! l = Some n ->
  tree_key k -> 0 <= a < 256 -> ant_shape_count (tab n) < 2 ^ 30 - 1 -> find_entry ckey (children n) = None ->
  shape_starved grant \/
  exists slot c w1 w2 w3,
    shape_clone grant sizeof_shape sizeof_prop sizeof_entry l w = Some (Some c, w1) /\
    add_key_at grant sizeof_prop sizeof_entry c k a w1 = Some (Some slot, w2) /\
    shape_record_child grant l ckey c w2 = Some w3 /\
    forest_ok ∅ w3 ((ext ⊎ {[+ l +]}) ⊎ {[+ c +]}) /\
    props_at w3 c = Some (upsert k a (props (tab n))) /\
    (exists p, upsert k a (props (tab n)) !! slot = Some p /\ pkey p = k) /\
    (exists n3, nodes w3 !! l = Some n3 /\ In (ckey, c) (children n3)) /\
    (forall x, x ∈ ext ⊎ {[+ l +]} -> props_at w3 x = props_at w x) /\
    labelled w3 /\ (coherent w -> coherent w3).
Proof.
  intros Hw Hlab Hl Hk Ha Hcnt Hf.
  destruct (clone_at_ok w _ l n Hw Hl ltac:(lia)) as [|(s1 & e1 & E1 & T1 & P1 & R1 & _)]; [auto|].
  set (c := next_node w) in *. set (w1 := (alloc_node s1 _).2) in E1.
  pose proof (fresh_absent _ _ _ Hw) as Hfresh. fold c in Hfresh.
  assert (Hlc : (l < c)%nat) by apply (nk_fresh _ _ _ _ _ (fo_nodes _ _ _ Hw l n Hl)).
  assert (Hw1 : forest_ok ∅ w1 ((ext ⊎ {[+ l +]}) ⊎ {[+ c +]})) by (apply (alloc_node_ok (set_tenv w e1)); auto using set_tenv_ok).
  assert (Hc1 : nodes w1 !! c = Some (Node s1 [] None 0 0)) by apply lookup_insert_eq.
  destruct (add_key_at_ok w1 _ c _ k a Hw1 Hc1 Hk) as [|(slot & s2 & e2 & E2 & T2 & P2 & R2 & Hslot)]; [|auto|].
  { cbn [tab]. unfold ant_shape_count in *. rewrite P1. lia. }
  cbn [tab] in P2, R2. rewrite P1 in P2. rewrite R1 in R2.
  set (nc2 := set_tab _ s2) in *. set (w2 := set_tenv _ e2) in *.
  assert (Hw2 : forest_ok ∅ w2 ((ext ⊎ {[+ l +]}) ⊎ {[+ c +]})).
  { apply set_tab_ok; auto. cbn [tab]. congruence. }
  assert (Hc2 : nodes w2 !! c = Some nc2) by apply lookup_insert_eq.
  assert (Hl2 : nodes w2 !! l = Some n).
  { cbn [w2 w1 nodes set_tenv set_nodes alloc_node snd]. rewrite !lookup_insert_ne by (unfold c in *; cbn; lia). exact Hl. }
  destruct (record_child_eq grant w2 l ckey c n nc2) as [|(e3 & _ & E3)]; auto; [lia|cbn; lia|].
  right. exists slot, c, w1, w2, (linked w2 e3 l n ckey c nc2). split; [exact E1|]. split; [exact E2|]. split; [exact E3|].
  assert (HE : forall R, on_props R -> R n ckey nc2 -> edges R w -> edges R (linked w2 e3 l n ckey c nc2)).
  { intros R HR Hnew He. apply linked_edges; auto; [|lia]. apply (edges_set R w1 c (Node s1 [] None 0 0)); auto.
    - apply (alloc_edges R (set_tenv w e1) (ext ⊎ {[+ l +]})); auto using set_tenv_ok.
    - left. apply (orphan_parent w1 _ c _ Hw1 Hc1). reflexivity. }
  split; [apply linked_ok; auto; exact (root_refs_absent _ _ _ Hw Hfresh)|].
  split; [unfold props_at; cbn [linked nodes set_nodes]; rewrite lookup_insert_eq; cbn; congruence|].
  split; [destruct Hslot as (p & Hp & Hpk & _); exists p; split; congruence|].
  split.
  { cbn [linked nodes set_nodes]. rewrite lookup_insert_ne, lookup_insert_eq by lia. eexists. split; [reflexivity|].
    apply in_app_iff. right. left. reflexivity. }
  split.
  { intros x Hx. destruct (fo_ext _ _ _ Hw x Hx) as (m & Hm & _).
    pose proof (nk_fresh _ _ _ _ _ (fo_nodes _ _ _ Hw x m Hm)).
    unfold props_at. cbn [linked w2 w1 nodes set_nodes set_tenv alloc_node snd].
    rewrite (lookup_insert_ne _ c x) by (unfold c; lia). destruct (decide (x = l)) as [->|].
    - rewrite lookup_insert_eq, Hl. reflexivity.
    - rewrite !lookup_insert_ne by (cbn; unfold c; lia). reflexivity. }
  split; [apply HE; auto|intros Hco; apply HE; auto]; exists k, a; cbn [tab set_tab nc2]; rewrite ?P2; auto using upsert_has.
Qed.

(** A new edge, and a private copy for the caller. *)
Lemma grow_tree_ok w ext l n k a : forest_ok ∅ w (ext ⊎ {[+ l +]}) -> labelled w -> nodes w !! l = Some n ->
  tree_key k -> 0 <= a < 256 -> ant_shape_count (tab n) < 2 ^ 30 - 1 ->
  find_entry (shape_child_key (key_code k) a) (children n) = None ->
  shape_starved grant \/
  exists slot l' w', grow_tree grant sizeof_shape sizeof_prop sizeof_entry l k a w = Some (Some slot, l', w') /\
    transition w ext k slot l' w' /\
    (coherent w -> coherent w' /\ props_at w' l' = Some (upsert k a (props (tab n))) /\ clean_at w' l').
Proof.
  intros Hw Hlab Hl Hk Ha Hcnt Hf. unfold grow_tree.
  destruct (build_child w ext l n k a) as [|(slot & c & w1 & w2 & w3 & E1 & E2 & E3 & Hw3 & P3 & Hslot & (n3 & Hl3 & Hin) & Hot & Hlab3 & Hco3)]; auto.
  rewrite E1. cbn [mbind option_bind]. rewrite E2. cbn [mbind option_bind]. rewrite E3. cbn [mbind option_bind].
  destruct (shape_release_ok sizeof_shape sizeof_prop sizeof_entry w3 _ c Hw3) as (w4 & E4 & Hw4 & F4).
  rewrite E4. cbn [mbind option_bind].
  (* the child lives on through its entry *)
  destruct (fo_ext _ _ _ Hw4 l) as (n4 & Hl4 & _); [rewrite in_add; auto|].
  assert (Hc4 : exists nc4, nodes w4 !! c = Some nc4).
  { destruct (fr_nodes _ _ _ F4 l n4 Hl4) as (n3' & Hl3' & _ & _ & _ & _ & C3).
    assert (n3' = n3) by congruence. subst n3'. rewrite <- C3 in Hin by apply not_elem_of_empty.
    destruct (nk_children _ _ _ _ _ (fo_nodes _ _ _ Hw4 l n4 Hl4) (not_elem_of_empty _) _ _ Hin) as (nc4 & ? & _). eauto. }
  destruct Hc4 as [nc4 Hc4].
  assert (P4 : props (tab nc4) = upsert k a (props (tab n))).
  { pose proof (frame_props _ _ _ c F4 ltac:(eauto)) as Hpc. rewrite P3, (props_at_some _ _ _ Hc4) in Hpc. congruence. }
  destruct (clone_at_ok w4 _ c nc4 Hw4 Hc4) as [|(s5 & e5 & E5 & T5 & P5 & R5 & _)]; [|auto|].
  { unfold ant_shape_count in *. rewrite P4. pose proof (upsert_length k a (props (tab n))). lia. }
  rewrite E5. cbn [mbind option_bind]. set (l' := next_node w4) in *. set (w5 := (alloc_node s5 _).2).
  assert (Hw5 : forest_ok ∅ w5 ((ext ⊎ {[+ l +]}) ⊎ {[+ l' +]})) by (apply (alloc_node_ok (set_tenv w4 e5)); auto using set_tenv_ok).
  assert (Hl5 : nodes w5 !! l = Some n4).
  { pose proof (nk_fresh _ _ _ _ _ (fo_nodes _ _ _ Hw4 l n4 Hl4)).
    cbn [w5 alloc_node snd nodes set_tenv]. rewrite lookup_insert_ne by (cbn; lia). exact Hl4. }
  destruct (leave_ok w5 ext l l' n4 Hw5 Hl5) as (w6 & w7 & E6 & E7 & Hw7 & HE7 & HP7 & HC7).
  rewrite E6. cbn [mbind option_bind]. rewrite E7. cbn [mbind option_bind].
  right. exists slot, l', w7. split; [reflexivity|].
  assert (HE : forall R, on_props R -> edges R w3 -> edges R w7).
  { intros R HR He. apply HE7; auto. apply (alloc_edges R (set_tenv w4 e5) (ext ⊎ {[+ l +]})); auto using set_tenv_ok.
    apply (frame_edges R w3 w4); auto. }
  assert (Hpl' : props_at w7 l' = Some (upsert k a (props (tab n)))).
  { rewrite HP7 by (rewrite in_add; auto). unfold w5. rewrite props_at_alloc, decide_True by reflexivity. congruence. }
  assert (Hcl : clean_at w7 l').
  { destruct (fo_ext _ _ _ Hw7 l') as (n7 & Hn7 & _); [rewrite in_add; auto|]. exists n7. split; [exact Hn7|]. right.
    pose proof (nk_fresh _ _ _ _ _ (fo_nodes _ _ _ Hw4 l n4 Hl4)).
    rewrite (HC7 l' (Node s5 [] None 0 0) n7); auto; [unfold l'; lia|apply lookup_insert_eq]. }
  split; [|auto]. split; auto.
  - destruct Hslot as (p & Hp & Hpk). eauto 6.
  - intros x Hx. assert (Hxl : x ∈ ext ⊎ {[+ l +]}) by (rewrite in_add; auto).
    rewrite HP7 by (rewrite in_add; auto). destruct (fo_ext _ _ _ Hw4 x Hxl) as (m4 & Hm4 & _).
    pose proof (nk_fresh _ _ _ _ _ (fo_nodes _ _ _ Hw4 x m4 Hm4)).
    unfold w5. rewrite props_at_alloc, decide_False by (cbn; lia).
    change (props_at (set_tenv w4 e5) x) with (props_at w4 x). rewrite (frame_props _ _ _ x F4) by eauto. auto.
Qed.

Lemma release_shared w l n w' : nodes w !! l = Some n -> 1 < ref_count (tab n) ->
  shape_release sizeof_shape sizeof_prop sizeof_entry l w = Some w' -> is_Some (nodes w' !! l).
Proof.
  intros Hl Hr. unfold shape_release. cbn [release]. rewrite Hl. cbn [mbind option_bind].
  destruct (Z.eqb_spec (ref_count (tab n)) 0); [lia|]. rewrite (update_eq _ _ _ _ Hl). cbn [mbind option_bind].
  destruct (Z.eqb_spec (ref_count (tab n) - 1) 0); [lia|]. cbn [negb]. intros [= <-]. cbn [nodes set_nodes].
  rewrite lookup_insert_eq. eauto.
Qed.

Lemma in_tree_refs w ext l n : forest_ok ∅ w (ext ⊎ {[+ l +]}) -> nodes w !! l = Some n -> shape_is_in_tree n = true ->
  1 < ref_count (tab n).
Proof.
  intros Hw Hl Ht. unfold shape_is_in_tree in Ht. apply orb_true_iff in Ht as [Ht|Ht]; [lia|].
  destruct (nk_refs _ _ _ _ _ (fo_nodes _ _ _ Hw l n Hl) (not_elem_of_empty _)) as [_ ->].
  unfold edge_refs. destruct (parent n); [|discriminate]. rewrite decide_False by apply not_elem_of_empty.
  rewrite mult_add, decide_True by reflexivity. lia.
Qed.

(** Following an edge. *)
Lemma follow_ok w ext l n c nc : forest_ok ∅ w (ext ⊎ {[+ l +]}) -> nodes w !! l = Some n -> nodes w !! c = Some nc ->
  c <> l -> Z.of_nat (size ext) < 2 ^ 31 - 1 ->
  exists w1 w2 w', invalidate_at l w = Some w1 /\ shape_retain c w1 = Some w2 /\
    shape_release sizeof_shape sizeof_prop sizeof_entry l w2 = Some w' /\ forest_ok ∅ w' (ext ⊎ {[+ c +]}) /\
    (forall R, on_props R -> edges R w -> edges R w') /\
    (forall x, x ∈ ext ⊎ {[+ c +]} -> props_at w' x = props_at w x) /\
    (1 < ref_count (tab n) -> exists n', nodes w' !! l = Some n' /\ children n' = children n).
Proof.
  intros Hw Hl Hc Hcl Hsz. destruct (invalidate_at_ok w l n Hl) as (g & e & E1). set (w1 := set_tenv _ e) in E1.
  assert (Hw1 : forest_ok ∅ w1 (ext ⊎ {[+ l +]})).
  { apply set_tab_ok; auto. apply set_guard_ok, (nk_table _ _ _ _ _ (fo_nodes _ _ _ Hw l n Hl)). }
  assert (Hc1 : nodes w1 !! c = Some nc) by (cbn [w1 nodes set_tenv set_nodes]; rewrite lookup_insert_ne by auto; exact Hc).
  destruct (retain_ok w1 _ c nc Hw1 Hc1) as (E2 & Hw2).
  { rewrite gmultiset_size_disj_union, gmultiset_size_singleton. lia. }
  set (w2 := set_nodes w1 _) in *. rewrite token_swap in Hw2.
  destruct (shape_release_ok sizeof_shape sizeof_prop sizeof_entry _ _ _ Hw2) as (w' & E3 & Hw' & F).
  exists w1, w2, w'. splits; auto.
  - intros R HR He. apply (frame_edges R w2); auto. apply (edges_same R w1 c nc _ (tenv w1)); auto.
    apply (edges_same R w l n); auto.
  - intros x Hx. destruct (fo_ext _ _ _ Hw' x Hx) as (m & Hm & _). rewrite (frame_props _ _ _ x F) by eauto.
    transitivity (props_at w1 x); [apply (props_at_set w1 c nc _ (tenv w1)); auto|apply (props_at_set w l n); auto].
  - intros Hr. assert (Hl2 : nodes w2 !! l = Some (set_tab n (set_guard (tab n) g))).
    { cbn [w2 w1 nodes set_tenv set_nodes]. rewrite lookup_insert_ne by auto. apply lookup_insert_eq. }
    destruct (release_shared w2 l _ w' Hl2 Hr E3) as [n' Hn']. exists n'. split; [exact Hn'|].
    destruct (fr_nodes _ _ _ F l n' Hn') as (m & Hm & _ & _ & _ & _ & ->); [|apply not_elem_of_empty].
    rewrite Hl2 in Hm. injection Hm as <-. reflexivity.
Qed.

(** Adding a property through the tree. *)
Lemma add_tr_ok w ext l n k a : forest_ok ∅ w (ext ⊎ {[+ l +]}) -> labelled w -> nodes w !! l = Some n ->
  tree_key k -> 0 <= a < 256 -> ant_shape_count (tab n) < 2 ^ 30 - 1 -> Z.of_nat (size ext) < 2 ^ 31 - 1 ->
  shape_starved grant \/
  exists slot l' w', add_tr grant sizeof_shape sizeof_prop sizeof_entry l k a w = Some (Some slot, l', w') /\
    transition w ext k slot l' w' /\
    (coherent w -> clean n ->
       coherent w' /\ props_at w' l' = Some (upsert k a (props (tab n))) /\ clean_at w' l').
Proof.
  intros Hw Hlab Hl Hk Ha Hcnt Hsz. unfold add_tr. rewrite Hl. cbn [mbind option_bind].
  destruct (shape_is_in_tree n) eqn:Htree; cbn [negb].
  2: { (* a private shape changes in place *)
    destruct (add_key_at_ok w _ l n k a Hw Hl Hk) as [|(slot & s & e & E & T & P & R & Hslot)]; [lia|auto|].
    rewrite E. cbn [mbind option_bind fst snd]. right. exists slot, l. eexists. split; [reflexivity|].
    unfold shape_is_in_tree in Htree. apply orb_false_iff in Htree as [Href Hpar].
    destruct (parent n) eqn:Hpn; [discriminate|]. pose proof (orphan_parent _ _ _ _ Hw Hl Hpn) as Horph.
    assert (Hpl : props_at (set_tenv (set_nodes w (<[l := set_tab n s]> (nodes w))) e) l = Some (upsert k a (props (tab n)))).
    { rewrite <- P. apply (props_at_some _ _ (set_tab n s)). apply lookup_insert_eq. }
    split; [split|].
    - apply set_tab_ok; auto.
    - apply (edges_set edge_has w l n); auto.
    - destruct Hslot as (p & Hp & Hpk & _). exists (upsert k a (props (tab n))), p. rewrite <- P at 2. auto.
    - intros x Hx. apply (props_at_set w l n); auto. left. intros ->.
      destruct (nk_refs _ _ _ _ _ (fo_nodes _ _ _ Hw l n Hl) (not_elem_of_empty _)) as [_ Hr].
      rewrite mult_add, decide_True in Hr by auto. rewrite elem_mult in Hx. apply Z.ltb_ge in Href. lia.
    - intros Hco Hcl. destruct Hcl as [Hcl|Hch]; [unfold shape_is_in_tree in Hcl; rewrite Href, Hpn in Hcl; discriminate|].
      split; [apply (edges_set edge_ok w l n); auto|]. split; [exact Hpl|]. exists (set_tab n s).
      split; [apply lookup_insert_eq|right; exact Hch]. }
  unfold shape_find_child. destruct (find_entry _ (children n)) as [c|] eqn:Hf.
  2: { destruct (grow_tree_ok w ext l n k a) as [|(slot & l' & w' & E & Ht & Hco)]; auto.
       right. exists slot, l', w'. auto. }
  apply find_entry_in in Hf.
  destruct (nk_children _ _ _ _ _ (fo_nodes _ _ _ Hw l n Hl) (not_elem_of_empty _) _ _ Hf) as (nc & Hc & Hpc & _).
  destruct (nk_parent _ _ _ _ _ (fo_nodes _ _ _ Hw c nc Hc) l Hpc) as [Hlt _].
  pose proof (nk_table _ _ _ _ _ (fo_nodes _ _ _ Hw c nc Hc)) as Htc.
  rewrite Hc. cbn [mbind option_bind]. destruct (Hlab l n _ c nc Hl Hf Hc) as (k0 & a0 & Hk0 & Ha0 & Eck & Hhas).
  apply child_key_inj in Eck as [<- <-]; auto. rewrite existsb_props in Hhas by auto.
  destruct (shape_lookup (tab nc) (key_code k)) as [slot|] eqn:Hlook; [|discriminate].
  destruct (follow_ok w ext l n c nc Hw Hl Hc ltac:(lia) Hsz) as (w1 & w2 & w' & E1 & E2 & E3 & Hw' & HE & HP & HL).
  rewrite E1. cbn [mbind option_bind]. rewrite E2. cbn [mbind option_bind]. rewrite E3. cbn [mbind option_bind].
  right. exists slot, c, w'. split; [reflexivity|].
  assert (Hpc' : props_at w' c = Some (props (tab nc))) by (rewrite HP by (rewrite in_add; auto); apply props_at_some, Hc).
  split; [split; auto|].
  - apply lookup_spec in Hlook as (p & Hp & Hpk); auto. eauto 6.
  - intros x Hx. apply HP. rewrite in_add. auto.
  - intros Hco _. split; [auto|]. split.
    + rewrite Hpc'. f_equal.
      destruct (Hco l n _ c nc Hl Hf Hc) as (k1 & a1 & Hk1 & Ha1 & Eck & ->). apply child_key_inj in Eck as [<- <-]; auto.
    + destruct (HL (in_tree_refs _ _ _ _ Hw Hl Htree)) as (n' & Hl' & Hch). rewrite <- Hch in Hf.
      destruct (nk_children _ _ _ _ _ (fo_nodes _ _ _ Hw' l n' Hl') (not_elem_of_empty _) _ _ Hf) as (nc' & Hc' & Hp' & _).
      exists nc'. split; [exact Hc'|]. left. unfold shape_is_in_tree. rewrite Hp'. apply orb_true_r.
Qed.

End Ops.

(** ** Collection *)

(** An entry of [l] is dropped and its reference handed to the caller. *)
Lemma del_entry_in k cs k' c : In (k', c) (del_entry k cs) <-> In (k', c) cs /\ k' <> k.
Proof. unfold del_entry. rewrite filter_In, negb_true_iff, Z.eqb_neq. reflexivity. Qed.

Lemma del_entry_keys k cs : NoDup (map fst cs) -> NoDup (map fst (del_entry k cs)).
Proof.
  induction cs as [|[k' c] cs IH]; cbn; intros H; [constructor|]. inversion H as [|? ? Hni Hnd]; subst.
  case_if; cbn; [|auto]. constructor; [|auto]. rewrite list_elem_of_In, in_map_iff. intros ([k2 c2] & E & Hin).
  apply del_entry_in in Hin as [Hin _]. apply Hni. rewrite list_elem_of_In, in_map_iff. exists (k2, c2). auto.
Qed.

Lemma unlink_ok w ext l nl k c nc : forest_ok ∅ w ext -> nodes w !! l = Some nl -> In (k, c) (children nl) ->
  nodes w !! c = Some nc ->
  forest_ok ∅ (set_nodes w (<[l := set_children nl (del_entry k (children nl))]> (<[c := set_parent nc None]> (nodes w))))
    (ext ⊎ {[+ c +]}).
Proof.
  intros Hw Hl Hin Hc. pose proof (not_elem_of_empty (C := gset nat)) as H0.
  destruct Hw as [Hn He Hr Hd Hlen]. destruct (Hn l nl Hl) as [_ _ _ _ Lk Lc].
  destruct (Lc (H0 l) k c Hin) as (nc' & Hc' & Hpc & Hkc). assert (nc' = nc) by congruence. subst nc'.
  destruct (nk_parent _ _ _ _ _ (Hn c nc Hc) l Hpc) as [Hlt _].
  set (h := <[l := _]> (<[c := _]> (nodes w))).
  assert (Hh : forall x n, nodes w !! x = Some n -> exists n', h !! x = Some n' /\ tab n' = tab n /\
     parent_key n' = parent_key n /\ (x <> c -> parent n' = parent n) /\ (x = c -> parent n' = None) /\
     (forall k' y, In (k', y) (children n') <-> In (k', y) (children n) /\ y <> c) /\
     NoDup (map fst (children n'))).
  { assert (Hone : forall x n k' y, nodes w !! x = Some n -> In (k', y) (children n) -> y = c -> x = l /\ k' = k).
    { intros x n k' y Hx Hy ->. destruct (nk_children _ _ _ _ _ (Hn x n Hx) (H0 x) k' c Hy) as (m & Hm & P1 & P2).
      split; congruence. }
    intros x n Hx. unfold h. destruct (decide (x = l)) as [->|Hxl].
    - rewrite lookup_insert_eq. eexists. split; [reflexivity|]. assert (n = nl) by congruence. subst n.
      cbn [tab set_children parent_key parent children]. splits; auto; [lia| |apply del_entry_keys; auto].
      intros k' y. rewrite del_entry_in. split.
      + intros [Hy Hk']. split; [exact Hy|]. intros ->. apply Hk'. apply (Hone l nl k' c Hl Hy). reflexivity.
      + intros [Hy Hyc]. split; [exact Hy|]. intros ->. apply Hyc.
        destruct (Lc (H0 l) k y Hy) as (m & Hm & _ & _).
        pose proof (Lk (H0 l)) as Hnd. apply list_elem_of_In, list_elem_of_lookup in Hin as [i Hi].
        apply list_elem_of_In, list_elem_of_lookup in Hy as [j Hj].
        assert (i = j) as -> by (eapply NoDup_lookup; [exact Hnd| |]; rewrite list_lookup_fmap, ?Hi, ?Hj; reflexivity).
        congruence.
    - rewrite lookup_insert_ne by auto.
      assert (Hnot : forall m, nodes w !! x = Some m -> forall k' y, In (k', y) (children m) <-> In (k', y) (children m) /\ y <> c).
      { intros m Hm k' y. split; [|tauto]. intros Hy. split; [exact Hy|]. intros ->.
        destruct (Hone x m k' c Hm Hy eq_refl). auto. }
      pose proof (nk_keys _ _ _ _ _ (Hn x n Hx) (H0 x)) as Hnd. pose proof (Hnot n Hx) as Hnot'.
      destruct (decide (x = c)) as [->|Hxc].
      + rewrite lookup_insert_eq. eexists. split; [reflexivity|]. assert (n = nc) by congruence. subst n.
        cbn [tab set_parent parent_key parent children]. splits; auto. tauto.
      + rewrite lookup_insert_ne by auto. exists n. splits; auto. tauto. }
  assert (Hback : forall x n', h !! x = Some n' -> exists n, nodes w !! x = Some n).
  { intros x n'. unfold h. rewrite lookup_insert_Some. intros [[<- _]|[_ Hx]]; [eauto|].
    rewrite lookup_insert_Some in Hx. destruct Hx as [[<- _]|[_ Hx]]; eauto. }
  split; cbn [nodes set_nodes g_root_shapes]; auto.
  - intros x n' Hx. destruct (Hback x n' Hx) as [n Hxn]. destruct (Hh x n Hxn) as (n1 & E1 & Et & Ek & Ep & Epc & Ec & End_).
    assert (n1 = n') by congruence. subst n1. destruct (Hn x n Hxn) as [K1 K2 K3 K4 K5 K6].
    split; cbn [nodes set_nodes next_node]; auto.
    + rewrite Et. exact K2.
    + intros p Hp. destruct (decide (x = c)) as [->|Hxc]; [rewrite Epc in Hp by auto; discriminate|].
      rewrite Ep in Hp by auto. destruct (K3 p Hp) as [Hlt' Hex]. split; [exact Hlt'|]. intros HD.
      destruct (Hex HD) as (np & Hnp & Hi). destruct (Hh p np Hnp) as (np' & F1 & _ & _ & _ & _ & F2 & _).
      exists np'. split; [exact F1|]. apply F2. rewrite Ek. auto.
    + intros HD. destruct (K4 HD) as [L1 L2]. rewrite Et. split; [exact L1|]. rewrite L2, mult_add.
      change (root_refs (set_nodes w h) x) with (root_refs w x). unfold edge_refs. destruct (decide (x = c)) as [->|Hxc].
      * rewrite Epc by auto. assert (n = nc) by congruence. subst n. rewrite Hpc, decide_False by auto. lia.
      * rewrite Ep by auto. lia.
    + intros HD k' y Hy. apply Ec in Hy as [Hy Hyc]. destruct (K6 HD k' y Hy) as (ny & Hny & P1 & P2).
      destruct (Hh y ny Hny) as (ny' & F1 & _ & F3 & F4 & _). exists ny'. rewrite F3, F4 by auto. auto.
  - intros x Hx. assert (exists n, nodes w !! x = Some n) as [n Hxn].
    { apply in_add in Hx as [Hx| ->]; [destruct (He x Hx) as (n & ? & _)|]; eauto. }
    destruct (Hh x n Hxn) as (n' & F & _). eauto.
  - intros r Hir. destruct (Hr r Hir) as (n & Hrn & HD & Hpn). destruct (Hh r n Hrn) as (n' & F1 & _ & _ & F2 & F3 & _).
    exists n'. splits; auto. destruct (decide (r = c)); [auto|]. rewrite F2 by auto. exact Hpn.
  - intros x Hx. apply not_elem_of_empty in Hx as [].
Qed.

Lemma del_entry_mid k c d cs : NoDup (map fst (d ++ (k, c) :: cs)) -> del_entry k (d ++ (k, c) :: cs) = d ++ cs.
Proof.
  rewrite map_app. cbn [map fst]. intros H. apply NoDup_app in H as (_ & Hd & Hcs). inversion Hcs as [|? ? Hk _]; subst.
  unfold del_entry. rewrite List.filter_app. cbn [List.filter fst]. rewrite Z.eqb_refl. cbn [negb].
  assert (Hkeep : forall l : list (Z * nat), k ∉ map fst l -> List.filter (fun e => negb (e.1 =? k)) l = l).
  { intros l Hl. apply filter_all, Forall_forall. intros [k' y] Hin. cbn.
    destruct (Z.eqb_spec k' k) as [->|]; [|reflexivity]. exfalso. apply Hl.
    rewrite list_elem_of_In, in_map_iff. exists (k, y). split; [reflexivity|]. apply list_elem_of_In, Hin. }
  rewrite !Hkeep; auto. intros Hin. apply (Hd k Hin). constructor.
Qed.

(** What pruning below [l] may change. *)
Record pruned (l : nat) (w w' : forest) : Prop := {
  pr_next : next_node w' = next_node w;
  pr_roots : g_root_shapes w' = g_root_shapes w;
  pr_gc : gc_shape_epoch w' = gc_shape_epoch w;
  pr_small : forall x, (x < l)%nat -> nodes w' !! x = nodes w !! x;
  pr_nodes : forall x n', nodes w' !! x = Some n' -> exists n, nodes w !! x = Some n /\
    props (tab n') = props (tab n) /\ gc_mark n' = gc_mark n /\ incl (children n') (children n);
  pr_marked : forall x n, nodes w !! x = Some n -> gc_mark n = gc_shape_epoch w ->
    exists n', nodes w' !! x = Some n' /\ parent n' = parent n }.

Lemma pruned_refl l w : pruned l w w.
Proof. split; auto; eauto. intros x n Hx. exists n. splits; auto. apply incl_refl. Qed.

Lemma pruned_trans l l' w1 w2 w3 : (l <= l')%nat -> pruned l' w1 w2 -> pruned l w2 w3 -> pruned l w1 w3.
Proof.
  intros Hl [A1 A2 A3 A4 A5 A6] [B1 B2 B3 B4 B5 B6]. split; try congruence.
  - intros x Hx. rewrite B4 by auto. apply A4. lia.
  - intros x n3 H3. destruct (B5 x n3 H3) as (n2 & H2 & P2 & G2 & C2). destruct (A5 x n2 H2) as (n1 & H1 & P1 & G1 & C1).
    exists n1. splits; auto; try congruence. eapply incl_tran; eauto.
  - intros x n Hx Hm. destruct (A6 x n Hx Hm) as (n2 & H2 & P2).
    destruct (A5 x n2 H2) as (n1 & H1 & _ & G1 & _). destruct (B6 x n2 H2) as (n3 & H3 & P3); [congruence|].
    exists n3. split; congruence.
Qed.

Lemma pruned_edges R l w w' : on_props R -> pruned l w w' -> edges R w -> edges R w'.
Proof.
  intros HR Hp He p np k c nc Hnp Hin Hnc. destruct (pr_nodes _ _ _ Hp p np Hnp) as (np0 & Hp0 & P1 & _ & C1).
  destruct (pr_nodes _ _ _ Hp c nc Hnc) as (nc0 & Hc0 & P2 & _). apply (HR np0 k nc0); auto. eapply He; eauto.
Qed.

Lemma pruned_props l w w' x : pruned l w w' -> is_Some (nodes w' !! x) -> props_at w' x = props_at w x.
Proof.
  intros Hp [n' Hn']. destruct (pr_nodes _ _ _ Hp x n' Hn') as (n & Hn & P & _). unfold props_at. rewrite Hn, Hn'. cbn. congruence.
Qed.

(** No shape is marked in this collection. *)
Definition unmarked (w : forest) : Prop := forall x n, nodes w !! x = Some n -> gc_mark n <> gc_shape_epoch w.

Lemma pruned_unmarked l w w' : pruned l w w' -> unmarked w -> unmarked w'.
Proof.
  intros Hp Hu x n' Hn'. destruct (pr_nodes _ _ _ Hp x n' Hn') as (n & Hn & _ & -> & _). rewrite (pr_gc _ _ _ Hp). eauto.
Qed.

Section Collect.
Context (sizeof_shape sizeof_prop sizeof_entry : Z).

(** Releasing a shape without children touches no other shape. *)
Lemma release_leaf w ext c n : forest_ok ∅ w (ext ⊎ {[+ c +]}) -> nodes w !! c = Some n -> children n = [] -> parent n = None ->
  exists w', shape_release sizeof_shape sizeof_prop sizeof_entry c w = Some w' /\ forest_ok ∅ w' ext /\ frame ∅ w w' /\
    forall x, x <> c -> nodes w' !! x = nodes w !! x.
Proof.
  intros Hw Hc Hch Hp. destruct (shape_release_ok sizeof_shape sizeof_prop sizeof_entry w ext c Hw) as (w' & E & Hw' & F).
  exists w'. split; [exact E|]. split; [exact Hw'|]. split; [exact F|]. intros x Hx.
  unfold shape_release in E. cbn [release] in E. rewrite Hc in E. cbn [mbind option_bind] in E.
  destruct (ref_count (tab n) =? 0); [injection E as <-; reflexivity|].
  rewrite (update_eq _ _ _ _ Hc) in E. cbn [mbind option_bind] in E.
  destruct (negb _); [injection E as <-; cbn [nodes set_nodes]; rewrite lookup_insert_ne by auto; reflexivity|].
  unfold unlink_parent in E. rewrite Hp, Hch in E. cbn [mbind option_bind release_children nodes set_nodes] in E.
  rewrite lookup_insert_eq in E. cbn [mbind option_bind] in E. injection E as <-. cbn [nodes set_nodes].
  rewrite lookup_delete_ne, lookup_insert_ne by auto. reflexivity.
Qed.

(** A dead leaf below [l] goes. *)
Lemma prune_leaf w ext l nl d k c nc cs : forest_ok ∅ w ext -> nodes w !! l = Some nl ->
  children nl = d ++ (k, c) :: cs -> nodes w !! c = Some nc -> (l < c)%nat -> children nc = [] ->
  gc_mark nc <> gc_shape_epoch w ->
  exists w1 w2 w', update c (fun n => set_parent n None) w = Some w1 /\ drop_child l k w1 = Some w2 /\
    shape_release sizeof_shape sizeof_prop sizeof_entry c w2 = Some w' /\
    forest_ok ∅ w' ext /\ pruned l w w' /\ nodes w' !! l = Some (set_children nl (d ++ cs)).
Proof.
  intros Hw Hl Hch Hc Hlc Hnc Hmark.
  assert (Hin : In (k, c) (children nl)) by (rewrite Hch; apply in_app_iff; right; left; reflexivity).
  pose proof (unlink_ok w ext l nl k c nc Hw Hl Hin Hc) as Hw2.
  pose proof (nk_keys _ _ _ _ _ (fo_nodes _ _ _ Hw l nl Hl) (not_elem_of_empty _)) as Hnd. rewrite Hch in Hnd.
  rewrite Hch, del_entry_mid in Hw2 by exact Hnd.
  set (nl' := set_children nl (d ++ cs)) in *. set (h := <[l := nl']> _) in Hw2.
  set (w2 := set_tenv (set_nodes w h) (shape_entry_free (tenv w))).
  assert (Hw2' : forest_ok ∅ w2 (ext ⊎ {[+ c +]})) by apply set_tenv_ok, Hw2.
  assert (Hc2 : nodes w2 !! c = Some (set_parent nc None)).
  { cbn [w2 nodes set_tenv set_nodes h]. unfold h. rewrite lookup_insert_ne, lookup_insert_eq by lia. reflexivity. }
  destruct (release_leaf w2 ext c _ Hw2' Hc2 Hnc eq_refl) as (w' & E & Hw' & F & Hsame).
  exists (set_nodes w (<[c := set_parent nc None]> (nodes w))), w2, w'. split; [exact (update_eq c (fun n => set_parent n None) w nc Hc)|].
  assert (Hl1 : nodes (set_nodes w (<[c := set_parent nc None]> (nodes w))) !! l = Some nl).
  { cbn [nodes set_nodes]. rewrite lookup_insert_ne by lia. exact Hl. }
  split. { unfold drop_child. rewrite (update_eq _ _ _ _ Hl1). cbn [mbind option_bind]. rewrite Hch, del_entry_mid by exact Hnd. reflexivity. }
  split; [exact E|]. split; [exact Hw'|].
  assert (Hlook : forall x, x <> c -> x <> l -> nodes w' !! x = nodes w !! x).
  { intros x H1 H2. rewrite Hsame by auto. cbn [w2 nodes set_tenv set_nodes]. unfold h. rewrite !lookup_insert_ne by auto. reflexivity. }
  assert (Hl' : nodes w' !! l = Some nl').
  { rewrite Hsame by lia. cbn [w2 nodes set_tenv set_nodes]. unfold h. apply lookup_insert_eq. }
  split; [|exact Hl']. split; try apply F.
  - intros x Hx. apply Hlook; lia.
  - intros x n' Hx. destruct (decide (x = l)) as [->|]; [|destruct (decide (x = c)) as [->|]].
    + exists nl. replace n' with nl' by congruence. splits; auto. cbn. rewrite Hch. intros y. rewrite !in_app_iff. cbn. tauto.
    + destruct (fr_nodes _ _ _ F c n' Hx) as (m & Hm & T & _ & G & _ & C). exists nc.
      replace m with (set_parent nc None) in * by congruence. splits; auto; [rewrite T; reflexivity|].
      rewrite C by apply not_elem_of_empty. apply incl_refl.
    + exists n'. rewrite Hlook in Hx by auto. splits; auto. apply incl_refl.
  - intros x n Hx Hm. destruct (decide (x = c)) as [->|]; [congruence|]. destruct (decide (x = l)) as [->|].
    + exists nl'. split; [exact Hl'|]. replace n with nl by congruence. reflexivity.
    + exists n. rewrite Hlook by auto. auto.
Qed.

(** One call of [shape_prune_dead_children]. *)
Definition prunes (P : nat -> forest -> option (bool * forest)) (N : nat) (l : nat) : Prop :=
  forall w ext n, next_node w = N -> forest_ok ∅ w ext -> nodes w !! l = Some n ->
  exists b w' n', P l w = Some (b, w') /\ forest_ok ∅ w' ext /\ pruned l w w' /\
    nodes w' !! l = Some n' /\ (unmarked w -> children n' = []).

Lemma prune_children_ok P N l cs : (forall c, (l < c)%nat -> prunes P N c) ->
  forall w ext n d b, next_node w = N -> forest_ok ∅ w ext -> nodes w !! l = Some n -> children n = d ++ cs ->
  exists b' w' n', prune_children sizeof_shape sizeof_prop sizeof_entry P l cs b w = Some (b', w') /\
    forest_ok ∅ w' ext /\ pruned l w w' /\ nodes w' !! l = Some n' /\ (unmarked w -> children n' = d).
Proof.
  intros HP. induction cs as [|[k c] cs IH]; intros w ext n d b HN Hw Hl Hch; cbn [prune_children].
  { exists b, w, n. rewrite app_nil_r in Hch. splits; auto using pruned_refl. }
  assert (Hkid : forall w, forest_ok ∅ w ext -> nodes w !! l = Some n ->
    exists nc, nodes w !! c = Some nc /\ (l < c)%nat).
  { intros w0 Hw0 Hl0. destruct (nk_children _ _ _ _ _ (fo_nodes _ _ _ Hw0 l n Hl0) (not_elem_of_empty _) k c) as (nc & Hc & Hpc & _).
    - rewrite Hch. apply in_app_iff. right. left. reflexivity.
    - exists nc. split; [exact Hc|]. apply (nk_parent _ _ _ _ _ (fo_nodes _ _ _ Hw0 c nc Hc) l Hpc). }
  destruct (Hkid w Hw Hl) as (nc0 & Hc0 & Hlc).
  destruct (HP c Hlc w ext nc0 HN Hw Hc0) as (b1 & w1 & nc & E1 & Hw1 & Hp1 & Hc1 & Hun1).
  rewrite E1. cbn [mbind option_bind fst snd]. rewrite Hc1. cbn [mbind option_bind].
  assert (Hl1 : nodes w1 !! l = Some n) by (rewrite (pr_small _ _ _ Hp1) by auto; exact Hl).
  assert (HN1 : next_node w1 = N) by (rewrite (pr_next _ _ _ Hp1); exact HN).
  destruct (negb (gc_mark nc =? gc_shape_epoch w1) && _) eqn:Hdead.
  - apply andb_true_iff in Hdead as [Hm Hnil]. apply negb_true_iff, Z.eqb_neq in Hm.
    assert (Hncc : children nc = []) by (destruct (children nc); [reflexivity|discriminate]).
    destruct (prune_leaf w1 ext l n d k c nc cs) as (w2 & w3 & w4 & E2 & E3 & E4 & Hw4 & Hp4 & Hl4); auto.
    rewrite E2. cbn [mbind option_bind]. rewrite E3. cbn [mbind option_bind]. rewrite E4. cbn [mbind option_bind].
    assert (HN4 : next_node w4 = N) by (rewrite (pr_next _ _ _ Hp4); exact HN1).
    assert (Hp : pruned l w w4) by (eapply pruned_trans; [|exact Hp1|exact Hp4]; lia).
    destruct (IH w4 ext _ d true HN4 Hw4 Hl4 eq_refl) as (b' & w' & n' & E & Hw' & Hp' & Hl' & Hun').
    exists b', w', n'. splits; auto; [eapply pruned_trans; [|exact Hp|exact Hp']; lia|].
    intros Hu. apply Hun'. eapply pruned_unmarked; eauto.
  - destruct (IH w1 ext n (d ++ [(k, c)]) (b1 || b) HN1 Hw1 Hl1) as (b' & w' & n' & E & Hw' & Hp' & Hl' & _).
    { rewrite <- app_assoc. exact Hch. }
    exists b', w', n'. splits; auto; [eapply pruned_trans; [|exact Hp1|exact Hp']; lia|].
    intros Hu. exfalso. rewrite (Hun1 Hu) in Hdead. apply andb_false_iff in Hdead as [Hdead|]; [|discriminate].
    apply negb_false_iff, Z.eqb_eq in Hdead. exact (pruned_unmarked _ _ _ Hp1 Hu c nc Hc1 Hdead).
Qed.

Lemma prune_ok N fuel : forall l, (N - l < fuel)%nat ->
  prunes (prune sizeof_shape sizeof_prop sizeof_entry fuel) N l.
Proof.
  induction fuel as [|fuel IH]; intros l Hf; [lia|]. intros w ext n HN Hw Hl. cbn [prune]. rewrite Hl. cbn [mbind option_bind].
  pose proof (nk_fresh _ _ _ _ _ (fo_nodes _ _ _ Hw l n Hl)).
  apply (prune_children_ok (prune sizeof_shape sizeof_prop sizeof_entry fuel) N l (children n)
    ltac:(intros c Hc; apply IH; lia) w ext n []); auto.
Qed.

Lemma sweep_roots_ok rs : forall w ext b, forest_ok ∅ w ext -> incl rs (g_root_shapes w) ->
  exists b' w', sweep_roots sizeof_shape sizeof_prop sizeof_entry rs b w = Some (b', w') /\ forest_ok ∅ w' ext /\
    pruned 0 w w' /\ (unmarked w -> forall r n', In (Some r) rs -> nodes w' !! r = Some n' -> children n' = []).
Proof.
  induction rs as [|[r|] rs IH]; intros w ext b Hw Hin; cbn [sweep_roots].
  - exists b, w. splits; auto using pruned_refl. intros _ r n' [].
  - apply incl_cons_inv in Hin as [Hr Hin]. destruct (fo_roots _ _ _ Hw r Hr) as (n & Hn & _).
    destruct (prune_ok (next_node w) (S (next_node w)) r ltac:(lia) w ext n eq_refl Hw Hn)
      as (b1 & w1 & n1 & E1 & Hw1 & Hp1 & Hr1 & Hun1).
    unfold shape_prune_dead_children. rewrite E1. cbn [mbind option_bind fst snd].
    destruct (IH w1 ext (b1 || b) Hw1) as (b' & w' & E' & Hw' & Hp' & Hun').
    { rewrite (pr_roots _ _ _ Hp1). exact Hin. }
    exists b', w'. splits; auto; [eapply pruned_trans; [|exact Hp1|exact Hp']; lia|].
    intros Hu r' n' [[= <-]|Hr'] Hn'.
    + destruct (pr_nodes _ _ _ Hp' r n' Hn') as (m & Hm & _ & _ & C). assert (m = n1) by congruence. subst m.
      rewrite (Hun1 Hu) in C. apply incl_l_nil in C. exact C.
    + eapply Hun'; eauto. eapply pruned_unmarked; eauto.
  - apply incl_cons_inv in Hin as [_ Hin]. destruct (IH w ext b Hw Hin) as (b' & w' & E' & Hw' & Hp' & Hun').
    exists b', w'. splits; auto. intros Hu r n' [|Hr] Hn'; [discriminate|eauto].
Qed.

End Collect.
