(* ===== verification/ShapeHeap.v ===== *)
(** * Owners of shapes

    The clients of [src/src/shapes.c] (objects, inline caches, object-literal
    sites and the collector of [src/src/gc/objects.c]) as a sequence of
    operations on the heap of [ShapeTree], with the multiset of the references
    they hold.  Theorems: no sequence of operations uses freed memory or loses
    count of a reference; a transition gives the owner the old slots with the
    new property added; a collection keeps what is owned or marked. *)

From stdpp Require Import gmultiset.
From S2P Require Import Prelude Shapes ShapeTree.

(** ** Operations of the owners *)

(** Changes of a shape in place, which the clients make after
    [js_obj_ensure_unique_shape]. *)
Inductive edit :=
| EditDelete (slot : nat)
| EditAttrs (slot a : Z)
| EditClear (slot : nat).

Definition edit_table (ed : edit) (e : env) (s : ant_shape) : env * ant_shape :=
  match ed with
  | EditDelete slot => let '(_, e, s) := delete_slot e s slot in (e, s)
  | EditAttrs slot a => let '(_, e, s) := set_attrs_at e s slot a in (e, s)
  | EditClear slot => let '(_, e, s) := ant_shape_clear_accessor_slot e s slot in (e, s)
  end.

Definition edit_at (l : nat) (ed : edit) (w : forest) : option forest :=
  n ← nodes w !! l;
  let '(e, s) := edit_table ed (tenv w) (tab n) in
  update l (fun n => set_tab n s) (set_tenv w e).

Fixpoint mark_all (ls : list nat) (w : forest) : option forest :=
  match ls with
  | [] => Some w
  | l :: ls => w ← ant_gc_shapes_mark l w; mark_all ls w
  end.

Inductive op :=
| OpNew (limit : Z)
| OpRetain (l : nat)
| OpRelease (l : nat)
| OpAdd (l : nat) (k : shape_key) (a : Z)
| OpEdit (l : nat) (ed : edit)
| OpCollect (live : list nat).

Section Run.
Context (grant : nat -> bool) (sizeof_shape sizeof_prop sizeof_entry : Z).

(** A reference to [l] becomes one to [l']. *)
Definition move_ref (ext : gmultiset nat) (l l' : nat) : gmultiset nat := (ext ∖ {[+ l +]}) ⊎ {[+ l' +]}.

(** An operation on the heap and the references; [None] is a fault. *)
Definition exec (o : op) (st : forest * gmultiset nat) : option (forest * gmultiset nat) :=
  let '(w, ext) := st in
  match o with
  | OpNew limit =>
      r ← ant_shape_new_with_inobj_limit grant sizeof_shape limit w;
      match r with
      | (Some l, w) => Some (w, ext ⊎ {[+ l +]})
      | (None, w) => Some (w, ext)
      end
  | OpRetain l => w ← shape_retain l w; Some (w, ext ⊎ {[+ l +]})
  | OpRelease l => w ← shape_release sizeof_shape sizeof_prop sizeof_entry l w; Some (w, ext ∖ {[+ l +]})
  | OpAdd l k a =>
      r ← add_tr grant sizeof_shape sizeof_prop sizeof_entry l k a w;
      let '(_, l', w) := r in Some (w, move_ref ext l l')
  | OpEdit l ed =>
      r ← unique_shape grant sizeof_shape sizeof_prop sizeof_entry l w;
      match r with
      | (None, w) => Some (w, ext)
      | (Some l', w) => w ← edit_at l' ed w; Some (w, move_ref ext l l')
      end
  | OpCollect live =>
      w ← mark_all live (ant_gc_shapes_begin w);
      r ← ant_gc_shapes_sweep sizeof_shape sizeof_prop sizeof_entry w;
      Some (r.2, ext)
  end.

(** Owners use references they hold; keys, attributes, slot counts and the
    number of references are in range. *)
Definition legal (o : op) (st : forest * gmultiset nat) : Prop :=
  let '(w, ext) := st in
  Z.of_nat (size ext) < 2 ^ 30 /\
  (forall x n, nodes w !! x = Some n -> ant_shape_count (tab n) < 2 ^ 30 - 1) /\
  match o with
  | OpNew limit => 0 <= limit < 256
  | OpRetain l | OpRelease l | OpEdit l _ => l ∈ ext
  | OpAdd l k a => l ∈ ext /\ tree_key k /\ 0 <= a < 256
  | OpCollect live => forall l, In l live -> l ∈ ext
  end.

Inductive heap_step : forest * gmultiset nat -> forest * gmultiset nat -> Prop :=
| heap_op o st st' : legal o st -> exec o st = Some st' -> heap_step st st'.

End Run.

Definition forest0 : forest := Forest ∅ 0 (replicate 5 None) env0 0.

(** ** Edits *)

Lemma compact_refs s : ref_count (ant_shape_compact s).2 = ref_count s.
Proof. unfold ant_shape_compact. case_if; [reflexivity|]. destruct (compact_loop _ _ _). reflexivity. Qed.

Lemma remove_slot_refs e s slot b e' s' : ant_shape_remove_slot e s slot = (b, e', s') -> ref_count s' = ref_count s.
Proof.
  unfold ant_shape_remove_slot. destruct (props s !! slot) as [p|]; [|intros [= _ _ <-]; reflexivity].
  case_if; [intros [= _ _ <-]; reflexivity|]. destruct (shape_lookup s _); intros [= _ _ <-]; reflexivity.
Qed.

Lemma remove_slot_ok e s slot b e' s' : table_ok s -> ant_shape_remove_slot e s slot = (b, e', s') -> table_ok s'.
Proof.
  intros Ht E. destruct (props s !! slot) as [p|] eqn:Hp.
  - destruct (is_deleted p) eqn:Hd.
    + unfold ant_shape_remove_slot in E. rewrite Hp, Hd in E. injection E as _ _ <-. exact Ht.
    + destruct (remove_slot_spec e s slot p e' b s' Ht Hp Hd E) as (_ & Ht' & _). exact Ht'.
  - unfold ant_shape_remove_slot in E. rewrite Hp in E. injection E as _ _ <-. exact Ht.
Qed.

Lemma edit_table_ok ed e s e' s' : table_ok s -> edit_table ed e s = (e', s') ->
  table_ok s' /\ ref_count s' = ref_count s.
Proof.
  intros Ht. destruct ed as [slot|slot a|slot]; cbn [edit_table].
  - unfold delete_slot. destruct (ant_shape_remove_slot e s slot) as [[b e1] s1] eqn:E.
    pose proof (remove_slot_refs _ _ _ _ _ _ E) as Hr. apply remove_slot_ok in E; auto.
    case_if; intros [= _ <-]; [|auto]. rewrite compact_refs. split; [|auto].
    destruct (ant_shape_compact s1) as [m s2] eqn:Ec. destruct (compact_spec s1 m s2 E Ec) as (Ht' & _). exact Ht'.
  - unfold set_attrs_at. case_if; intros [= _ <-]; [auto|]. split; [|reflexivity]. apply alter_ok; auto.
  - unfold ant_shape_clear_accessor_slot. destruct (ant_shape_prop_at s slot); intros [= _ <-]; [|auto].
    split; [|reflexivity]. apply alter_ok; auto.
Qed.

(** ** What the heap promises its owners *)

Definition heap_ok (st : forest * gmultiset nat) : Prop := forest_ok ∅ st.1 st.2 /\ labelled st.1.

Lemma take_ref (l : nat) (ext : gmultiset nat) : l ∈ ext -> ext = (ext ∖ {[+ l +]}) ⊎ {[+ l +]}.
Proof.
  intros H. rewrite gmultiset_disj_union_comm. apply gmultiset_disj_union_difference. rewrite gmultiset_singleton_subseteq_l. exact H.
Qed.

(** A reference becomes a global root. *)
Lemma root_refs_insert w i r x : g_root_shapes w !! i = Some None ->
  root_refs (set_roots w (<[i := Some r]> (g_root_shapes w))) x = (root_refs w x + (if decide (x = r) then 1 else 0))%nat.
Proof.
  unfold root_refs. cbn [g_root_shapes set_roots]. revert i. induction (g_root_shapes w) as [|y l IH]; intros [|i] Hi; try discriminate.
  - injection Hi as ->. cbn [insert list_insert List.filter].
    rewrite (bool_decide_eq_false_2 (None = Some x)) by discriminate. destruct (decide (x = r)) as [->|Hx].
    + rewrite bool_decide_eq_true_2 by auto. cbn [length]. lia.
    + rewrite bool_decide_eq_false_2 by congruence. lia.
  - cbn [insert list_insert List.filter]. specialize (IH i Hi).
    destruct (bool_decide (y = Some x)); cbn [length]; [rewrite Nat.add_succ_l; f_equal|]; exact IH.
Qed.

Lemma make_root_ok w ext i r n : forest_ok ∅ w (ext ⊎ {[+ r +]}) -> g_root_shapes w !! i = Some None ->
  nodes w !! r = Some n -> parent n = None ->
  forest_ok ∅ (set_roots w (<[i := Some r]> (g_root_shapes w))) ext.
Proof.
  intros [Hn He Hr Hd Hlen] Hi Hrn Hp. split; cbn [nodes set_roots g_root_shapes]; auto.
  - intros x m Hx. destruct (Hn x m Hx) as [K1 K2 K3 K4 K5 K6]. split; auto. intros HD.
    destruct (K4 HD) as [L1 L2]. split; [exact L1|]. rewrite L2, mult_add, root_refs_insert by exact Hi. lia.
  - intros x Hx. apply He. rewrite in_add. auto.
  - intros q Hq. apply list_elem_of_In, list_elem_of_lookup in Hq as [j Hj]. rewrite list_lookup_insert_Some in Hj.
    destruct Hj as [(<- & [= ->] & _)|(_ & Hj)].
    + exists n. splits; auto. apply not_elem_of_empty.
    + apply Hr, list_elem_of_In, list_elem_of_lookup. eauto.
  - rewrite length_insert. exact Hlen.
Qed.

Lemma empty_table_ok limit : table_ok (Shape 1 0 0 limit 0 [] ∅).
Proof. destruct shape0_ok as [H1 H2 H3 H4 H5]. split; assumption. Qed.

Lemma clamp_range limit : 0 <= limit -> (Z.to_nat (shape_clamp_inobj_limit limit) < 5)%nat.
Proof. intros. unfold shape_clamp_inobj_limit, ANT_INOBJ_MAX_SLOTS. case_if; boolprop; lia. Qed.

Section Ops.
Context (grant : nat -> bool) (sizeof_shape sizeof_prop sizeof_entry : Z).
#[local] Hint Resolve edge_ok_props edge_has_props tree_key_valid : core.

(** Each operation leaves a heap that is right for the new references, unless
    memory was refused. *)
Lemma new_ok w ext limit : heap_ok (w, ext) -> 0 <= limit -> Z.of_nat (size ext) < 2 ^ 30 ->
  shape_starved grant \/
  exists l w', ant_shape_new_with_inobj_limit grant sizeof_shape limit w = Some (Some l, w') /\
    heap_ok (w', ext ⊎ {[+ l +]}) /\ (forall R, on_props R -> edges R w -> edges R w') /\
    (forall x, x ∈ ext -> props_at w' x = props_at w x).
Proof.
  intros [Hw Hlab] Hlim Hsz. cbn [fst snd] in *. unfold ant_shape_new_with_inobj_limit. cbv zeta.
  pose proof (clamp_range limit Hlim) as Hi. set (i := Z.to_nat _) in *.
  destruct (g_root_shapes w !! i) as [[r|]|] eqn:Eroot.
  - destruct (fo_roots _ _ _ Hw r) as (n & Hr & _); [apply list_elem_of_In, list_elem_of_lookup; eauto|].
    destruct (retain_ok w ext r n Hw Hr ltac:(lia)) as [E Hw']. rewrite E. cbn [mbind option_bind].
    right. eexists _, _. split; [reflexivity|].
    assert (HE : forall R, on_props R -> edges R w -> edges R (set_nodes w (<[r := set_tab n (set_refs (tab n) (ref_count (tab n) + 1))]> (nodes w)))).
    { intros R HR He. apply (edges_same R w r n _ (tenv w)); auto. }
    splits; [split; cbn; auto|exact HE|]. intros x Hx. apply (props_at_set w r n _ (tenv w)); auto.
  - destruct (shape_request grant (tenv w)) as [ok e] eqn:Er. apply request_epoch in Er as [_ Hst].
    destruct ok; cbn [negb]; [|left; auto]. set (s := Shape 1 0 0 _ 0 [] ∅). set (e' := add_bytes _ _).
    destruct (alloc_node s (set_tenv w e')) as [r w1] eqn:Eal.
    pose proof (alloc_node_ok (set_tenv w e') ext s (set_tenv_ok _ _ _ _ Hw) (empty_table_ok _) eq_refl) as Hw1.
    pose proof (fresh_absent _ _ _ Hw) as Hfr.
    assert (E1 : w1 = (alloc_node s (set_tenv w e')).2) by (rewrite Eal; reflexivity).
    assert (E2 : r = next_node w) by (injection Eal; auto).
    assert (Hr1 : nodes w1 !! r = Some (Node s [] None 0 0)) by (subst r w1; apply lookup_insert_eq).
    assert (HE1 : forall R, on_props R -> edges R w -> edges R w1).
    { intros R HR He. rewrite E1. apply (alloc_edges R (set_tenv w e') ext); auto using set_tenv_ok. }
    assert (HP1 : forall x, x ∈ ext -> props_at w1 x = props_at w x).
    { intros x Hx. rewrite E1, props_at_alloc, decide_False; [reflexivity|]. cbn. intros ->.
      destruct (fo_ext _ _ _ Hw _ Hx) as (? & ? & _). congruence. }
    rewrite <- E1 in Hw1. cbn [next_node set_tenv] in Hw1. rewrite <- E2 in Hw1.
    assert (Er1 : g_root_shapes w1 !! i = Some None) by (rewrite E1; exact Eroot).
    pose proof (make_root_ok w1 ext i r _ Hw1 Er1 Hr1 eq_refl) as Hw2. set (w2 := set_roots w1 _) in *.
    destruct (retain_ok w2 ext r (Node s [] None 0 0) Hw2 Hr1 ltac:(lia)) as [E Hw3]. rewrite E. cbn [mbind option_bind].
    right. eexists _, _. split; [reflexivity|].
    assert (HE : forall R, on_props R -> edges R w -> edges R (set_nodes w2 (<[r := set_tab (Node s [] None 0 0) (set_refs s (1 + 1))]> (nodes w2)))).
    { intros R HR He. apply (edges_same R w2 r (Node s [] None 0 0) _ (tenv w2)); auto. apply HE1; auto. }
    splits; [split; cbn; auto|exact HE|]. intros x Hx. rewrite <- (HP1 x Hx).
    apply (props_at_set w2 r (Node s [] None 0 0) _ (tenv w2)); auto.
  - exfalso. apply lookup_ge_None in Eroot. rewrite (fo_len _ _ _ Hw) in Eroot. lia.
Qed.

(** After [js_obj_ensure_unique_shape] the owner has a shape nobody else
    refers to, with the same slots. *)
Lemma unique_ok w ext l n : forest_ok ∅ w (ext ⊎ {[+ l +]}) -> labelled w -> nodes w !! l = Some n ->
  ant_shape_count (tab n) < 2 ^ 30 ->
  shape_starved grant \/
  exists l' w' n', unique_shape grant sizeof_shape sizeof_prop sizeof_entry l w = Some (Some l', w') /\
    heap_ok (w', ext ⊎ {[+ l' +]}) /\ nodes w' !! l' = Some n' /\ props (tab n') = props (tab n) /\
    ref_count (tab n') = 1 /\ (coherent w -> coherent w') /\ (clean n -> children n' = []) /\
    (forall x, x ∈ ext -> props_at w' x = props_at w x).
Proof.
  intros Hw Hlab Hl Hcnt. unfold unique_shape. rewrite Hl. cbn [mbind option_bind].
  unfold ant_shape_is_shared. destruct (Z.ltb_spec 1 (ref_count (tab n))) as [Hsh|Hsh]; cbn [negb].
  2: { right. exists l, w, n. destruct (nk_refs _ _ _ _ _ (fo_nodes _ _ _ Hw l n Hl) (not_elem_of_empty _)) as [Hpos _].
       splits; auto; [split; auto|lia|]. intros [Hcl|Hcl]; [|exact Hcl].
       pose proof (in_tree_refs _ _ _ _ Hw Hl Hcl). lia. }
  destruct (clone_at_ok grant sizeof_shape sizeof_prop sizeof_entry w _ l n Hw Hl ltac:(lia)) as [|(s & e & E & T & P & R & _)]; [auto|].
  rewrite E. cbn [mbind option_bind]. pose proof (fresh_absent _ _ _ Hw) as Hfr.
  set (c := next_node w) in *. set (w1 := (alloc_node s _).2).
  assert (Hw1 : forest_ok ∅ w1 ((ext ⊎ {[+ c +]}) ⊎ {[+ l +]})).
  { rewrite token_swap. apply (alloc_node_ok (set_tenv w e)); auto using set_tenv_ok. }
  destruct (shape_release_ok sizeof_shape sizeof_prop sizeof_entry w1 _ l Hw1) as (w' & E' & Hw' & F).
  rewrite E'. cbn [mbind option_bind]. right.
  destruct (fo_ext _ _ _ Hw' c) as (n' & Hc & _); [rewrite in_add; auto|].
  assert (Hl0 : l <> c) by congruence. exists c, w', n'.
  assert (HE : forall R, on_props R -> edges R w -> edges R w').
  { intros Q HQ He. apply (frame_edges Q w1); auto. apply (alloc_edges Q (set_tenv w e) (ext ⊎ {[+ l +]})); auto using set_tenv_ok. }
  destruct (fr_nodes _ _ _ F c n' Hc) as (m & Hm & Tm & _ & _ & Hpm & Cm). cbn [w1 alloc_node snd nodes] in Hm.
  change (next_node (set_tenv w e)) with c in Hm. rewrite lookup_insert_eq in Hm. injection Hm as <-.
  splits; auto.
  - split; cbn; auto.
  - rewrite Tm. exact P.
  - assert (multiplicity c ext = 0%nat).
    { destruct (multiplicity c ext) as [|q] eqn:Eq; [reflexivity|].
      destruct (fo_ext _ _ _ Hw c) as (? & ? & _); [rewrite in_add, elem_mult; lia|congruence]. }
    destruct (nk_refs _ _ _ _ _ (fo_nodes _ _ _ Hw' c n' Hc) (not_elem_of_empty _)) as [_ Hr].
    assert (parent n' = None) as Hpn by (destruct Hpm as [Hpm|Hpm]; exact Hpm).
    unfold edge_refs in Hr. rewrite Hpn, mult_add, decide_True in Hr by auto.
    assert (root_refs w' c = 0%nat); [|lia]. unfold root_refs. rewrite (fr_roots _ _ _ F).
    exact (root_refs_absent _ _ _ Hw Hfr).
  - intros _. apply Cm, not_elem_of_empty.
  - intros x Hx. destruct (fo_ext _ _ _ Hw' x) as (mx & Hmx & _); [rewrite in_add; auto|].
    rewrite (frame_props _ _ _ x F) by eauto. unfold w1. rewrite props_at_alloc, decide_False; [reflexivity|].
    intros ->. destruct (fo_ext _ _ _ Hw (next_node (set_tenv w e))) as (? & ? & _); [rewrite in_add; auto|].
    cbn [next_node set_tenv] in *. fold c in H. congruence.
Qed.

Lemma edit_at_ok w ext l n ed : forest_ok ∅ w (ext ⊎ {[+ l +]}) -> labelled w -> nodes w !! l = Some n ->
  ref_count (tab n) = 1 ->
  exists w', edit_at l ed w = Some w' /\ heap_ok (w', ext ⊎ {[+ l +]}) /\
    nodes w' !! l = Some (set_tab n (edit_table ed (tenv w) (tab n)).2) /\
    (coherent w -> children n = [] -> coherent w') /\
    (forall x, x ∈ ext -> props_at w' x = props_at w x).
Proof.
  intros Hw Hlab Hl Hr1. unfold edit_at. rewrite Hl. cbn [mbind option_bind].
  destruct (fo_nodes _ _ _ Hw l n Hl) as [_ Kt _ Kr _ _]. destruct (Kr (not_elem_of_empty _)) as [_ Hr].
  rewrite mult_add, decide_True in Hr by auto.
  destruct (edit_table ed (tenv w) (tab n)) as [e s] eqn:E. destruct (edit_table_ok ed _ _ _ _ Kt E) as [Hs Hrs].
  exists (set_tenv (set_nodes w (<[l := set_tab n s]> (nodes w))) e).
  assert (Hpn : parent n = None).
  { unfold edge_refs in Hr. destruct (parent n) as [p|]; [|reflexivity]. rewrite decide_False in Hr by apply not_elem_of_empty. lia. }
  pose proof (orphan_parent _ _ _ _ Hw Hl Hpn) as Ho.
  splits.
  - exact (update_eq l (fun n => set_tab n s) (set_tenv w e) n Hl).
  - split; cbn [fst snd]; [apply set_tab_ok; auto|]. apply (edges_set edge_has w l n); auto.
  - apply lookup_insert_eq.
  - intros Hco Hch. apply (edges_set edge_ok w l n); auto.
  - intros x Hx. apply (props_at_set w l n); auto. left. intros ->. rewrite elem_mult in Hx. lia.
Qed.

End Ops.

(** Marking changes marks only. *)
Definition marks_only (w w' : forest) : Prop :=
  next_node w' = next_node w /\ g_root_shapes w' = g_root_shapes w /\ gc_shape_epoch w' = gc_shape_epoch w /\
  (forall x, nodes w' !! x = None <-> nodes w !! x = None) /\
  forall x n n', nodes w !! x = Some n -> nodes w' !! x = Some n' ->
    tab n' = tab n /\ children n' = children n /\ parent n' = parent n /\
    (gc_mark n = gc_shape_epoch w -> gc_mark n' = gc_shape_epoch w).

Lemma marks_refl w : marks_only w w.
Proof. unfold marks_only. splits; auto; try tauto. intros x n n' H1 H2. assert (n' = n) by congruence. subst. auto. Qed.

Lemma marks_trans w1 w2 w3 : marks_only w1 w2 -> marks_only w2 w3 -> marks_only w1 w3.
Proof.
  intros (A1 & A2 & A3 & A4 & A5) (B1 & B2 & B3 & B4 & B5). unfold marks_only. splits; try congruence.
  - intros x. rewrite B4. apply A4.
  - intros x n n3 H1 H3. destruct (nodes w2 !! x) as [n2|] eqn:H2; [|apply A4 in H2; congruence].
    destruct (A5 x n n2 H1 H2) as (T1 & C1 & P1 & M1). destruct (B5 x n2 n3 H2 H3) as (T2 & C2 & P2 & M2).
    splits; try congruence. intros HM. rewrite <- A3. apply M2. rewrite A3. auto.
Qed.

Lemma mark_loop_ok fuel : forall l w ext, forest_ok ∅ w ext ->
  (forall x, l = Some x -> is_Some (nodes w !! x) /\ (x < fuel)%nat) ->
  exists w', mark_loop fuel l w = Some w' /\ forest_ok ∅ w' ext /\ marks_only w w' /\
    (forall x, l = Some x -> exists n', nodes w' !! x = Some n' /\ gc_mark n' = gc_shape_epoch w).
Proof.
  induction fuel as [|fuel IH]; intros [l|] w ext Hw Hl; cbn [mark_loop].
  1: { destruct (Hl l eq_refl). lia. }
  1, 3: (exists w; splits; auto using marks_refl; discriminate).
  destruct (Hl l eq_refl) as [[n Hn] Hlt]. rewrite Hn. cbn [mbind option_bind].
  destruct (Z.eqb_spec (gc_mark n) (gc_shape_epoch w)) as [Hm|Hm].
  { exists w. splits; auto using marks_refl. intros x [= <-]. eauto. }
  rewrite (update_eq _ _ _ _ Hn). cbn [mbind option_bind]. set (w1 := set_nodes w _).
  assert (Hw1 : forest_ok ∅ w1 ext).
  { destruct (fo_nodes _ _ _ Hw l n Hn) as [_ Kt _ Kr _ _].
    apply (replace_ok ∅ w ext ext (tenv w) l n); auto. intros _. apply not_elem_of_empty. }
  assert (M1 : marks_only w w1).
  { unfold marks_only. splits; auto; cbn [w1 nodes set_nodes].
    - intros x. rewrite lookup_insert_None. split; [tauto|]. intros Hx. split; [exact Hx|congruence].
    - intros x m m' Hx. destruct (decide (x = l)) as [->|].
      + rewrite lookup_insert_eq. intros [= <-]. assert (m = n) by congruence. subst. auto.
      + rewrite lookup_insert_ne by auto. intros Hx'. assert (m' = m) by congruence. subst. auto. }
  destruct (IH (parent n) w1 ext Hw1) as (w' & E & Hw' & M' & _).
  { intros p Hp. destruct (nk_parent _ _ _ _ _ (fo_nodes _ _ _ Hw l n Hn) p Hp) as [Hpl Hex].
    destruct (Hex (not_elem_of_empty _)) as (np & Hnp & _). split; [|lia].
    cbn [w1 nodes set_nodes]. rewrite lookup_insert_ne by lia. eauto. }
  exists w'. splits; auto; [eapply marks_trans; eauto|]. intros x [= <-].
  destruct M' as (_ & _ & G & D' & M'). destruct (nodes w' !! l) as [n'|] eqn:Hn'.
  - exists n'. split; [reflexivity|]. assert (Hl1 : nodes w1 !! l = Some (set_mark n (gc_shape_epoch w))) by apply lookup_insert_eq.
    destruct (M' l _ n' Hl1 Hn') as (_ & _ & _ & Hmm). apply Hmm. reflexivity.
  - apply D' in Hn'. cbn [w1 nodes set_nodes] in Hn'. rewrite lookup_insert_eq in Hn'. discriminate.
Qed.


Lemma marks_edges R w w' : on_props R -> marks_only w w' -> edges R w -> edges R w'.
Proof.
  intros HR (_ & _ & _ & D & M) He p np k c nc Hp Hin Hc.
  destruct (nodes w !! p) as [np0|] eqn:Hp0; [|apply D in Hp0; congruence].
  destruct (nodes w !! c) as [nc0|] eqn:Hc0; [|apply D in Hc0; congruence].
  destruct (M p np0 np Hp0 Hp) as (T1 & C1 & _). destruct (M c nc0 nc Hc0 Hc) as (T2 & _).
  apply (HR np0 k nc0); [|congruence|congruence]. eapply He; eauto. congruence.
Qed.

Lemma marks_props w w' x : marks_only w w' -> props_at w' x = props_at w x.
Proof.
  intros (_ & _ & _ & D & M). unfold props_at. destruct (nodes w !! x) as [n|] eqn:Hn.
  - destruct (nodes w' !! x) as [n'|] eqn:Hn'; [|apply D in Hn'; congruence]. cbn.
    destruct (M x n n' Hn Hn') as (-> & _). reflexivity.
  - apply D in Hn. rewrite Hn. reflexivity.
Qed.

Lemma mark_all_ok ext ls : forall w, forest_ok ∅ w ext -> (forall l, In l ls -> l ∈ ext) ->
  exists w', mark_all ls w = Some w' /\ forest_ok ∅ w' ext /\ marks_only w w' /\
    (forall l, In l ls -> exists n, nodes w' !! l = Some n /\ gc_mark n = gc_shape_epoch w).
Proof.
  induction ls as [|l ls IH]; intros w Hw Hls; cbn [mark_all].
  { exists w. splits; auto using marks_refl. intros l []. }
  destruct (fo_ext _ _ _ Hw l) as (n & Hn & _); [apply Hls; left; reflexivity|].
  destruct (mark_loop_ok (S (next_node w)) (Some l) w ext Hw) as (w1 & E1 & Hw1 & M1 & Hm1).
  { intros x [= <-]. split; [eauto|]. pose proof (nk_fresh _ _ _ _ _ (fo_nodes _ _ _ Hw l n Hn)). lia. }
  unfold ant_gc_shapes_mark. rewrite E1. cbn [mbind option_bind].
  destruct (IH w1 Hw1) as (w' & E' & Hw' & M' & Hm'); [intros; apply Hls; right; auto|].
  pose proof M1 as (_ & _ & G1 & _). exists w'. splits; auto; [eapply marks_trans; eauto|].
  intros x [<-|Hx]; [|rewrite <- G1; auto].
  destruct (Hm1 l eq_refl) as (n1 & Hn1 & Hmk). destruct M' as (_ & _ & _ & D' & M').
  destruct (nodes w' !! l) as [n'|] eqn:Hn'; [|apply D' in Hn'; congruence]. exists n'. split; [reflexivity|].
  destruct (M' l n1 n' Hn1 Hn') as (_ & _ & _ & Hk). rewrite <- G1. apply Hk. congruence.
Qed.

Lemma begin_ok w ext : forest_ok ∅ w ext -> forest_ok ∅ (ant_gc_shapes_begin w) ext.
Proof. intros [Hn He Hr Hd Hlen]. split; auto. intros x n Hx. destruct (Hn x n Hx). split; auto. Qed.

(** A whole collection. *)
Lemma collect_ok szs szp sze w ext live : forest_ok ∅ w ext -> (forall l, In l live -> l ∈ ext) ->
  exists w1 b w', mark_all live (ant_gc_shapes_begin w) = Some w1 /\
    ant_gc_shapes_sweep szs szp sze w1 = Some (b, w') /\ forest_ok ∅ w' ext /\
    (forall R, on_props R -> edges R w -> edges R w') /\
    (forall x, x ∈ ext -> props_at w' x = props_at w x) /\
    marks_only (ant_gc_shapes_begin w) w1 /\ pruned 0 w1 w' /\
    (forall l, In l live -> exists n, nodes w1 !! l = Some n /\ gc_mark n = gc_shape_epoch w1) /\
    (unmarked w1 -> forall r n', In (Some r) (g_root_shapes w') -> nodes w' !! r = Some n' -> children n' = []).
Proof.
  intros Hw Hlive. destruct (mark_all_ok ext live _ (begin_ok w ext Hw) Hlive) as (w1 & E1 & Hw1 & M1 & Hm1).
  destruct (sweep_roots_ok szs szp sze (g_root_shapes w1) w1 ext false Hw1 (incl_refl _)) as (b & w2 & E2 & Hw2 & P2 & Hun).
  assert (P3 : pruned 0 w1 (set_tenv w2 (shape_entry_pool_trim (tenv w2)))) by (destruct P2; split; auto).
  exists w1, b, (set_tenv w2 (shape_entry_pool_trim (tenv w2))). split; [exact E1|].
  split. { unfold ant_gc_shapes_sweep. rewrite E2. reflexivity. }
  split; [apply set_tenv_ok, Hw2|]. split.
  { intros R HR He. apply (pruned_edges R 0 w1 _ HR P3), (marks_edges R (ant_gc_shapes_begin w)); auto. }
  split.
  { intros x Hx. destruct (fo_ext _ _ _ Hw2 x Hx) as (m & Hm & _).
    transitivity (props_at w2 x); [reflexivity|]. rewrite (pruned_props 0 w1 w2) by eauto. apply (marks_props _ _ x M1). }
  split; [exact M1|]. split; [exact P3|]. split.
  - intros l Hl. destruct M1 as (_ & _ & G & _). rewrite G. auto.
  - intros Hu r n' Hr. apply Hun; auto. cbn in Hr. rewrite (pr_roots _ _ _ P2) in Hr. exact Hr.
Qed.

(** ** Theorems *)

Lemma exec_ok grant szs szp sze o st : ~ shape_starved grant -> heap_ok st -> legal o st ->
  exists st', exec grant szs szp sze o st = Some st' /\ heap_ok st'.
Proof.
  intros Hmem Hst Hleg. destruct st as [w ext]. pose proof Hst as [Hw Hlab]. cbn [fst snd] in Hw, Hlab.
  destruct Hleg as (Hsz & Hcnt & Hop).
  assert (Hown : forall l, l ∈ ext -> exists n, nodes w !! l = Some n).
  { intros l Hl. destruct (fo_ext _ _ _ Hw l Hl) as (n & Hn & _). eauto. }
  assert (Hrest : forall l, l ∈ ext -> Z.of_nat (size (ext ∖ {[+ l +]})) < 2 ^ 30).
  { intros l Hl. pose proof (gmultiset_size_difference ext {[+ l +]}). rewrite gmultiset_singleton_subseteq_l in H.
    specialize (H Hl). lia. }
  destruct o as [limit|l|l|l k a|l ed|live]; cbn [exec].
  - destruct (new_ok grant szs w ext limit Hst ltac:(lia) Hsz) as [|(l & w' & E & H' & _)]; [tauto|].
    rewrite E. cbn [mbind option_bind]. eauto.
  - destruct (Hown l Hop) as [n Hn]. destruct (retain_ok w ext l n Hw Hn ltac:(lia)) as [E Hw'].
    rewrite E. cbn [mbind option_bind]. eexists. split; [reflexivity|]. split; [exact Hw'|].
    apply (edges_same edge_has w l n _ (tenv w)); auto using edge_has_props.
  - rewrite (take_ref l ext Hop) in Hw. destruct (shape_release_ok szs szp sze _ _ _ Hw) as (w' & E & Hw' & F).
    rewrite E. cbn [mbind option_bind]. eexists. split; [reflexivity|]. split; [exact Hw'|].
    eapply frame_edges; eauto using edge_has_props.
  - destruct Hop as (Hl & Hk & Ha). destruct (Hown l Hl) as [n Hn]. rewrite (take_ref l ext Hl) in Hw.
    destruct (add_tr_ok grant szs szp sze w _ l n k a Hw Hlab Hn Hk Ha) as [|(slot & l' & w' & E & T & _)];
      [eauto|specialize (Hrest l Hl); lia|tauto|].
    rewrite E. cbn [mbind option_bind]. eexists. split; [reflexivity|]. split; [apply T|apply T].
  - destruct (Hown l Hop) as [n Hn]. rewrite (take_ref l ext Hop) in Hw.
    destruct (unique_ok grant szs szp sze w _ l n Hw Hlab Hn) as [|(l' & w' & n' & E & [Hw' Hlab'] & Hn' & _ & Hr & _)];
      [specialize (Hcnt l n Hn); lia|tauto|].
    rewrite E. cbn [mbind option_bind]. destruct (edit_at_ok w' _ l' n' ed Hw' Hlab' Hn' Hr) as (w2 & E2 & H2 & _).
    rewrite E2. cbn [mbind option_bind]. eauto.
  - destruct (collect_ok szs szp sze w ext live Hw Hop) as (w1 & b & w' & E1 & E2 & Hw' & HE & _).
    rewrite E1. cbn [mbind option_bind]. rewrite E2. cbn [mbind option_bind snd]. eexists. split; [reflexivity|].
    split; [exact Hw'|]. apply HE; auto using edge_has_props.
Qed.

Lemma forest0_ok : heap_ok (forest0, ∅).
Proof.
  split.
  - split; cbn [fst snd forest0 nodes g_root_shapes]; [intros x n H|intros x H|intros r H|intros x H|reflexivity].
    + rewrite lookup_empty in H. discriminate.
    + apply gmultiset_not_elem_of_empty in H as [].
    + cbn in H. repeat destruct H as [H|H]; try discriminate. contradiction.
    + apply not_elem_of_empty in H as [].
  - intros p np k c nc H. cbn in H. rewrite lookup_empty in H. discriminate.
Qed.

(** C24: whatever sequence of operations the owners perform (create, retain,
    release, add a property, edit a shape they made unique, collect), with
    memory available, no operation touches a shape that was freed, every
    operation ends, and every shape's reference count is exactly the number of
    references held by owners, plus one for its entry in its parent and one
    for a global root, and is positive. *)
Theorem shape_heap_safe grant szs szp sze st : ~ shape_starved grant ->
  rtc (heap_step grant szs szp sze) (forest0, ∅) st ->
  (forall o, legal o st -> exists st', exec grant szs szp sze o st = Some st') /\
  (forall x n, nodes st.1 !! x = Some n ->
     0 < ref_count (tab n) /\
     ref_count (tab n) = Z.of_nat (multiplicity x st.2 + (match parent n with Some _ => 1 | None => 0 end) + root_refs st.1 x)) /\
  (forall x, x ∈ st.2 -> is_Some (nodes st.1 !! x)).
Proof.
  intros Hmem Hrun.
  assert (Hst : heap_ok st).
  { revert Hrun. apply (rtc_ind_r heap_ok); [apply forest0_ok|]. intros y z _ Hs Hy. destruct Hs as [o y z Hleg E].
    destruct (exec_ok grant szs szp sze o y Hmem Hy Hleg) as (z' & E' & Hz). congruence. }
  splits.
  - intros o Hleg. destruct (exec_ok grant szs szp sze o st Hmem Hst Hleg) as (st' & E & _). eauto.
  - intros x n Hx. destruct (nk_refs _ _ _ _ _ (fo_nodes _ _ _ (proj1 Hst) x n Hx) (not_elem_of_empty _)) as [H1 H2].
    split; [exact H1|]. rewrite H2. unfold edge_refs. destruct (parent n); [rewrite decide_False by apply not_elem_of_empty|]; reflexivity.
  - intros x Hx. destruct (fo_ext _ _ _ (proj1 Hst) x Hx) as (n & Hn & _). eauto.
Qed.

(** Adding a property, for an owner. *)
Lemma add_tr_spec grant szs szp sze w ext l n k a : heap_ok (w, ext ⊎ {[+ l +]}) -> coherent w ->
  nodes w !! l = Some n -> clean n ->
  tree_key k -> 0 <= a < 256 -> ant_shape_count (tab n) < 2 ^ 30 - 1 -> Z.of_nat (size ext) < 2 ^ 30 ->
  shape_starved grant \/
  exists slot l' w' n', add_tr grant szs szp sze l k a w = Some (Some slot, l', w') /\
    heap_ok (w', ext ⊎ {[+ l' +]}) /\ coherent w' /\ nodes w' !! l' = Some n' /\
    clean n' /\ props (tab n') = upsert k a (props (tab n)) /\ shape_lookup (tab n') (key_code k) = Some slot /\
    (forall x, x ∈ ext -> props_at w' x = props_at w x).
Proof.
  intros [Hw Hlab] Hco Hl Hor Hk Ha Hcnt Hsz. cbn [fst snd] in Hw, Hlab.
  destruct (add_tr_ok grant szs szp sze w ext l n k a Hw Hlab Hl Hk Ha Hcnt) as [|(slot & l' & w' & E & [T1 T2 T3 T4] & Hres)];
    [lia|auto|]. right. destruct (Hres Hco Hor) as (Hco' & Hp' & Hcl').
  destruct (fo_ext _ _ _ T1 l') as (n' & Hn' & _); [rewrite in_add; auto|]. exists slot, l', w', n'.
  rewrite (props_at_some _ _ _ Hn') in Hp', T3. destruct T3 as (ps & p & [= <-] & Hslot & Hpk).
  splits; auto; [split; auto|destruct Hcl' as (n2 & Hn2 & Hcl2); congruence|congruence|].
  apply lookup_spec; eauto using tree_key_valid. apply (nk_table _ _ _ _ _ (fo_nodes _ _ _ T1 l' n' Hn')).
Qed.

(** Adding a property through the transition tree gives the owner a shape
    with the old slots and the new property (an existing one gets the new
    attributes), and the slot reported is the one the new shape finds it in;
    no other owner's shape changes its slots; the edges of the tree stay
    coherent, so the next transition is right too.  It fails only when memory
    is refused.  A shape that is not in the tree must not have children, since
    it is changed in place. *)
Theorem transition_correct grant szs szp sze w ext l n k a : heap_ok (w, ext ⊎ {[+ l +]}) -> coherent w ->
  nodes w !! l = Some n -> clean n ->
  tree_key k -> 0 <= a < 256 -> ant_shape_count (tab n) < 2 ^ 30 - 1 -> Z.of_nat (size ext) < 2 ^ 30 ->
  shape_starved grant \/
  exists slot l' w' n', add_tr grant szs szp sze l k a w = Some (Some slot, l', w') /\
    heap_ok (w', ext ⊎ {[+ l' +]}) /\ coherent w' /\ nodes w' !! l' = Some n' /\
    clean n' /\ props (tab n') = upsert k a (props (tab n)) /\ shape_lookup (tab n') (key_code k) = Some slot /\
    (forall x, x ∈ ext -> props_at w' x = props_at w x).
Proof. apply add_tr_spec. Qed.

(** C25: a collection of a tree with exact counts and coherent edges, with some
    of the owners live, always runs to its end; every shape an owner refers to
    is still there with its slots, every marked shape is still there under the
    same parent, the edges stay coherent and the counts right; a shape without
    parent that is left is owned or a root; and if no shape was marked, nothing
    is left below the roots. *)
Theorem collection_correct szs szp sze w ext live : heap_ok (w, ext) -> coherent w ->
  (forall l, In l live -> l ∈ ext) ->
  exists w1 b w', mark_all live (ant_gc_shapes_begin w) = Some w1 /\
    ant_gc_shapes_sweep szs szp sze w1 = Some (b, w') /\ heap_ok (w', ext) /\ coherent w' /\
    (forall x, x ∈ ext -> is_Some (nodes w' !! x) /\ props_at w' x = props_at w x) /\
    (forall x n, nodes w1 !! x = Some n -> gc_mark n = gc_shape_epoch w1 ->
       exists n', nodes w' !! x = Some n' /\ parent n' = parent n) /\
    (forall l, In l live -> exists n, nodes w1 !! l = Some n /\ gc_mark n = gc_shape_epoch w1) /\
    (forall x n', nodes w' !! x = Some n' -> parent n' = None -> x ∈ ext \/ In (Some x) (g_root_shapes w')) /\
    (unmarked w1 -> forall r n', In (Some r) (g_root_shapes w') -> nodes w' !! r = Some n' -> children n' = []).
Proof.
  intros [Hw Hlab] Hco Hlive. cbn [fst snd] in Hw, Hlab.
  destruct (collect_ok szs szp sze w ext live Hw Hlive) as (w1 & b & w' & E1 & E2 & Hw' & HE & HP & M & P & Hm & Hun).
  exists w1, b, w'. splits; auto.
  - split; [exact Hw'|]. apply HE; auto using edge_has_props.
  - apply HE; auto using edge_ok_props.
  - intros x Hx. split; [|auto]. destruct (fo_ext _ _ _ Hw' x Hx) as (n & Hn & _). eauto.
  - apply P.
  - intros x n' Hn' Hp. destruct (nk_refs _ _ _ _ _ (fo_nodes _ _ _ Hw' x n' Hn') (not_elem_of_empty _)) as [H1 H2].
    unfold edge_refs in H2. rewrite Hp in H2. destruct (multiplicity x ext) as [|m] eqn:Em.
    + right. unfold root_refs in H2. destruct (List.filter _ (g_root_shapes w')) as [|r rs] eqn:Ef; [cbn in H2; lia|].
      assert (In r (r :: rs)) as Hin by (left; reflexivity). rewrite <- Ef in Hin. apply filter_In in Hin as [Hin Hb].
      apply bool_decide_eq_true in Hb. subst r. exact Hin.
    + left. rewrite elem_mult. lia.
Qed.

(** ** Scenarios *)

Definition run (grant : nat -> bool) (os : list op) : option (forest * gmultiset nat) :=
  foldl (fun st o => st ← st; exec grant 100 40 64 o st) (Some (forest0, ∅)) os.

Abbreviation key := ANT_SHAPE_KEY_STRING.

(** Two objects that get the property 16: the first has a private copy (2) of
    the recorded child (1), the second the child itself. *)
Definition two_objects : list op := [OpNew 4; OpNew 4; OpAdd 0 (key 16) 7; OpAdd 0 (key 16) 7].

Lemma two_objects_run : exists st, run grants two_objects = Some st /\ st.2 = {[+ 1%nat +]} ⊎ {[+ 2%nat +]} /\
  props_at st.1 1 = props_at st.1 2 /\ props_at st.1 0 = Some [].
Proof.
  eexists. split; [vm_compute; reflexivity|].
  splits; [apply (bool_decide_eq_true _); vm_compute; reflexivity|vm_compute; reflexivity..].
Qed.

(** Stale children.  A shape (2) is shared, gets a child (3) for the property
    18, and is then owned by one object only: a deletion changes it in place
    and keeps the child.  When the shape is shared again, adding 18 follows the
    old edge, and the deleted property 16 is back. *)
Definition stale : list op :=
  [OpNew 4; OpAdd 0 (key 16) 7; OpRetain 2; OpAdd 2 (key 18) 7; OpEdit 2 (EditDelete 0); OpRetain 2; OpAdd 2 (key 18) 7].

Lemma stale_child : match run grants stale with
  | Some (w, ext) => (2%nat ∈ ext) /\ (3%nat ∈ ext) /\ props_at w 2 = Some [] /\
      props_at w 3 = Some [ShapeProp (key 16) 7 0 0 0 0; ShapeProp (key 18) 7 0 0 0 0]
  | None => False
  end.
Proof.
  destruct (run grants stale) as [[w ext]|] eqn:E; [|vm_compute in E; discriminate].
  vm_compute in E. injection E as <- <-. splits; try reflexivity; rewrite elem_mult; vm_compute; lia.
Qed.

(** When the entry of a new edge cannot be allocated, the child is released
    and then cloned: a use after free. *)
Definition refuses_entry : nat -> bool := fun m => negb (m =? 4)%nat.

Lemma transition_oom_fault : run refuses_entry [OpNew 4] <> None /\
  run refuses_entry [OpNew 4; OpAdd 0 (key 16) 7] = None.
Proof. split; vm_compute; [discriminate|reflexivity]. Qed.

(** ** Witnesses *)

Lemma grants_not_starved : ~ shape_starved grants.
Proof. intros [k H]. discriminate. Qed.

Lemma shape_heap_safe_witness :
  let '(w, ext) := (forest0, ∅ : gmultiset nat) in
  exists st, exec grants 100 40 64 (OpNew 4) (w, ext) = Some st.
Proof.
  destruct (shape_heap_safe grants 100 40 64 (forest0, ∅) grants_not_starved (rtc_refl _ _)) as [H _].
  apply (H (OpNew 4)). split; [reflexivity|]. split; [|lia]. intros x n Hx. cbn in Hx. rewrite lookup_empty in Hx. discriminate.
Defined.

(** One object with the empty root shape. *)
Definition root_world : forest :=
  match ant_shape_new_with_inobj_limit grants 100 4 forest0 with Some (_, w) => w | None => forest0 end.

Lemma coherent0 : coherent forest0.
Proof. intros p np k c nc H. cbn in H. rewrite lookup_empty in H. discriminate. Qed.

Lemma root_world_ok : heap_ok (root_world, ∅ ⊎ {[+ 0%nat +]}) /\ coherent root_world.
Proof.
  destruct (new_ok grants 100 forest0 ∅ 4 forest0_ok ltac:(lia) ltac:(reflexivity)) as [H|(l & w & E & H & HE & _)].
  - destruct (grants_not_starved H).
  - assert (l = 0%nat) as -> by (vm_compute in E; congruence).
    assert (w = root_world) as -> by (unfold root_world; rewrite E; reflexivity).
    split; [exact H|]. apply HE; [apply edge_ok_props|apply coherent0].
Qed.

Lemma transition_correct_witness : exists slot l' w' n',
  add_tr grants 100 40 64 0 (key 16) 7 root_world = Some (Some slot, l', w') /\
  nodes w' !! l' = Some n' /\ props (tab n') = [ShapeProp (key 16) 7 0 0 0 0].
Proof.
  destruct root_world_ok as [H1 H2].
  destruct (transition_correct grants 100 40 64 root_world ∅ 0 _ (key 16) 7 H1 H2 ltac:(vm_compute; reflexivity)
    ltac:(left; vm_compute; reflexivity) ltac:(cbn; lia) ltac:(lia) ltac:(vm_compute; reflexivity) ltac:(reflexivity))
    as [H|(slot & l' & w' & n' & E & _ & _ & Hn & _ & Hp & _)].
  - destruct (grants_not_starved H).
  - exists slot, l', w', n'. split; [exact E|]. split; [exact Hn|]. rewrite Hp. reflexivity.
Defined.

Lemma collection_correct_witness : exists w1 b w',
  mark_all [0%nat] (ant_gc_shapes_begin root_world) = Some w1 /\ ant_gc_shapes_sweep 100 40 64 w1 = Some (b, w') /\
  is_Some (nodes w' !! 0%nat).
Proof.
  destruct root_world_ok as [H1 H2].
  destruct (collection_correct 100 40 64 root_world (∅ ⊎ {[+ 0%nat +]}) [0%nat] H1 H2) as (w1 & b & w' & E1 & E2 & _ & _ & Hx & _).
  - intros l [<-|[]]. rewrite in_add. auto.
  - exists w1, b, w'. split; [exact E1|]. split; [exact E2|]. apply Hx. rewrite in_add. auto.
Defined.
