(* ===== verification/PropStore.v ===== *)
(** * Properties of ordinary objects

    [src/src/ant.c]: definition ([mkprop_impl], [mkprop_interned_impl]),
    lookup ([lkp_interned_val], [lkp_interned], [lkp_sym]) and deletion
    ([js_delete_prop], [js_delete_sym_prop]) of the own properties of an
    ordinary object, on the slots of [Objects] and the heap of shapes of
    [ShapeTree].  The object is the pair of its shape's address and its slots.

    Not modelled: interning of names, the exposure of C functions, the write
    barrier, the invalidation of prototype caches, proxies, arrays with dense
    storage and dynamic deleters. *)

From stdpp Require Import gmultiset.
From S2P Require Import Prelude Shapes Objects ShapeTree ShapeHeap.

Section Code.
Context (grant : nat -> bool) (undef junk : Z) (sizeof_shape sizeof_prop sizeof_entry : Z).

(** [lkp_interned] and [lkp_sym]: the slot of an own property. *)
Definition lkp (k : shape_key) (l : nat) (w : forest) : option (option nat) :=
  n ← nodes w !! l; Some (shape_lookup (tab n) (key_code k)).

(** [lkp_interned_val]: the slot is read without a check. *)
Definition lkp_interned_val (k : shape_key) (l : nat) (o : ant_object) (w : forest) : option Z :=
  n ← nodes w !! l;
  match shape_lookup (tab n) (key_code k) with
  | None => Some undef
  | Some slot => ant_object_prop_get_unchecked o (Z.of_nat slot)
  end.

Inductive mk_result :=
| MkValue (l : nat) (o : ant_object) (w : forest)
| MkOom (l : nat) (o : ant_object) (w : forest).

(** [ant_shape_set_attrs_interned] or [_symbol] on the owner's shape. *)
Definition set_attrs_on (l : nat) (k : shape_key) (attrs : Z) (w : forest) : option forest :=
  n ← nodes w !! l; edit_at l (EditAttrs (slot_result (shape_lookup (tab n) (key_code k))) attrs) w.

(** [js_obj_ensure_prop_capacity], whose allocation is counted in [tenv]. *)
Definition ensure_capacity (o : ant_object) (needed : Z) (w : forest) : option (bool * ant_object * forest) :=
  r ← js_obj_ensure_prop_capacity grant undef junk (tenv w) o needed;
  let '(ok, e, o) := r in Some (ok, o, set_tenv w e).

(** The second half of [mkprop_impl]: room for the slot and the store. *)
Definition store_slot (added : bool) (slot : nat) (v : Z) (l : nat) (o : ant_object) (w : forest) : option mk_result :=
  n ← nodes w !! l;
  r ← (if added then ensure_capacity o (ant_shape_count (tab n)) w else Some (true, o, w));
  let '(ok, o, w) := r in
  if negb ok then Some (MkOom l o w)
  else
    r ← (if prop_count o <=? Z.of_nat slot then ensure_capacity o (Z.of_nat slot + 1) w else Some (true, o, w));
    let '(ok, o, w) := r in
    if negb ok then Some (MkOom l o w)
    else o ← ant_object_prop_set_unchecked o (Z.of_nat slot) v; Some (MkValue l o w).

Definition mkprop_impl (k : shape_key) (v attrs : Z) (default_attrs : bool) (l : nat) (o : ant_object) (w : forest)
  : option mk_result :=
  let attrs := if default_attrs && (attrs =? 0) then ANT_PROP_ATTR_DEFAULT else attrs in
  n ← nodes w !! l;
  match shape_lookup (tab n) (key_code k) with
  | Some slot =>
      r ← unique_shape grant sizeof_shape sizeof_prop sizeof_entry l w;
      match r with
      | (None, w) => Some (MkOom l o w)
      | (Some l, w) => w ← set_attrs_on l k attrs w; store_slot false slot v l o w
      end
  | None =>
      r ← add_tr grant sizeof_shape sizeof_prop sizeof_entry l k attrs w;
      match r with
      | (None, l, w) => Some (MkOom l o w)
      | (Some slot, l, w) => store_slot true slot v l o w
      end
  end.
Definition mkprop k v attrs l o w := mkprop_impl k v attrs true l o w.
Definition mkprop_exact_attrs k v attrs l o w := mkprop_impl k v attrs false l o w.
Definition mkprop_interned interned v attrs l o w := mkprop_impl (ANT_SHAPE_KEY_STRING interned) v attrs true l o w.

(** The object's flags and the caller's mode. *)
Record del_context := DelContext { frozen : bool; sealed : bool; is_strict : bool }.

Inductive del_result :=
| JsTrue (l : nat) (o : ant_object) (w : forest)
| JsFalse (l : nat) (o : ant_object) (w : forest)
| JsError (kind : option err_kind) (l : nat) (o : ant_object) (w : forest).

(** [check_frozen_sealed]: [None] is [undefined], otherwise the error or false. *)
Definition check_frozen_sealed (c : del_context) : option bool :=
  if frozen c then Some (is_strict c) else if sealed c then Some (is_strict c) else None.

(** The common body of [js_delete_sym_prop] and of [js_delete_prop] on an
    object that is neither an array nor exotic; [None] in [JsError] is the
    error "oom". *)
Definition delete_own_prop (c : del_context) (k : shape_key) (l : nat) (o : ant_object) (w : forest)
  : option del_result :=
  match check_frozen_sealed c with
  | Some true => Some (JsError (Some JS_ERR_TYPE) l o w)
  | Some false => Some (JsFalse l o w)
  | None =>
      n ← nodes w !! l;
      match shape_lookup (tab n) (key_code k) with
      | None => Some (JsTrue l o w)
      | Some slot =>
          if (ant_shape_get_attrs (tab n) slot .& ANT_PROP_ATTR_CONFIGURABLE =? 0) then
            Some (if is_strict c then JsError (Some JS_ERR_TYPE) l o w else JsFalse l o w)
          else
            r ← unique_shape grant sizeof_shape sizeof_prop sizeof_entry l w;
            match r with
            | (None, w) => Some (JsError None l o w)
            | (Some l, w) =>
                n ← nodes w !! l;
                match ant_shape_remove_slot (tenv w) (tab n) slot with
                | (false, e, s) => w ← update l (fun n => set_tab n s) (set_tenv w e); Some (JsTrue l o w)
                | (true, e, s) =>
                    r ← obj_delete_prop_slot undef o s (Z.of_nat slot);
                    let '(o, s) := r in
                    w ← update l (fun n => set_tab n s) (set_tenv w e); Some (JsTrue l o w)
                end
            end
      end
  end.
Definition js_delete_sym_prop c sym_off l o w := delete_own_prop c (ANT_SHAPE_KEY_SYMBOL sym_off) l o w.
Definition js_delete_prop c interned l o w := delete_own_prop c (ANT_SHAPE_KEY_STRING interned) l o w.

End Code.

(** ** Objects as maps from keys to values *)

Definition own (k : shape_key) (l : nat) (o : ant_object) (w : forest) : option Z :=
  n ← nodes w !! l; slot ← shape_lookup (tab n) (key_code k); slots o !! slot.

(** An object, one of the owners of its shape ([ext] are the others). *)
Record object_ok (w : forest) (ext : gmultiset nat) (l : nat) (o : ant_object) : Prop := {
  oo_heap : heap_ok (w, ext ⊎ {[+ l +]});
  oo_coherent : coherent w;
  oo_clean : clean_at w l;
  oo_storage : forall n, nodes w !! l = Some n -> obj_ok o (tab n) }.

Lemma upsert_lookup k a (ps : list ant_shape_prop_t) i q : pkey q <> k ->
  upsert k a ps !! i = Some q <-> ps !! i = Some q.
Proof.
  intros Hq. unfold upsert. destruct (existsb (has_key k) ps) eqn:E.
  - rewrite list_lookup_fmap. destruct (ps !! i) as [p|]; cbn; [|tauto].
    unfold has_key. destruct (bool_decide (pkey p = k)) eqn:Ek; [|tauto].
    apply bool_decide_eq_true in Ek. split; intros [= <-]; exfalso; apply Hq; exact Ek.
  - split.
    + intros Hl. apply lookup_app_Some in Hl as [|[_ Hl]]; [auto|]. apply list_lookup_singleton_Some in Hl as [_ <-].
      destruct Hq. reflexivity.
    + intros Hl. apply lookup_app_l_Some, Hl.
Qed.

(** The other keys stay in their slots. *)
Lemma lookup_other s s' k a k2 : table_ok s -> table_ok s' -> props s' = upsert k a (props s) -> valid_key k2 -> k2 <> k ->
  shape_lookup s' (key_code k2) = shape_lookup s (key_code k2).
Proof.
  intros Hs Hs' Hp Hk2 Hne.
  assert (Hiff : forall i, shape_lookup s' (key_code k2) = Some i <-> shape_lookup s (key_code k2) = Some i).
  { intros i. rewrite !lookup_spec by auto. rewrite Hp. split; intros (p & Hi & Hpk); exists p; (split; [|exact Hpk]);
      [rewrite upsert_lookup in Hi by congruence|rewrite upsert_lookup by congruence]; exact Hi. }
  destruct (shape_lookup s' (key_code k2)) as [i|] eqn:E1, (shape_lookup s (key_code k2)) as [j|] eqn:E2; auto.
  - symmetry. apply Hiff. reflexivity.
  - destruct (Hiff i) as [Hi _]. specialize (Hi eq_refl). discriminate.
  - destruct (Hiff j) as [_ Hi]. specialize (Hi eq_refl). discriminate.
Qed.

Lemma lookup_count s k slot : table_ok s -> valid_key k -> shape_lookup s (key_code k) = Some slot ->
  Z.of_nat slot < ant_shape_count s.
Proof.
  intros Hs Hk El. apply lookup_spec in El as (p & Hp & _); auto. apply lookup_lt_Some in Hp. unfold ant_shape_count. lia.
Qed.

Lemma upsert_count k a ps : Z.of_nat (length ps) <= Z.of_nat (length (upsert k a ps)) <= Z.of_nat (length ps) + 1.
Proof. unfold upsert. case_if; [rewrite length_map|rewrite length_app; cbn]; lia. Qed.

Section Proofs.
Context (grant : nat -> bool) (undef junk : Z) (szs szp sze : Z).

Lemma set_tenv_object w ext l o e : object_ok w ext l o -> object_ok (set_tenv w e) ext l o.
Proof. intros [[H1 H2] H3 H4 H5]. split; auto. split; [apply set_tenv_ok, H1|exact H2]. Qed.

(** Room for the slots of the shape, with the values kept. *)
Lemma ensure_ok o needed w : storage_ok o -> 0 <= needed < 2 ^ 30 ->
  shape_starved grant \/
  exists o1 e, ensure_capacity grant undef junk o needed w = Some (true, o1, set_tenv w e) /\ storage_ok o1 /\
    prop_count o1 = Z.max needed (prop_count o) /\
    forall j, Z.of_nat j < prop_count o1 -> slots o1 !! j = if decide (Z.of_nat j < prop_count o) then slots o !! j else Some undef.
Proof.
  intros Ho Hn. unfold ensure_capacity.
  destruct (ensure_prop_capacity_spec grant undef junk (tenv w) o needed Ho Hn) as (ok & e & o1 & E & Hf & Ht).
  rewrite E. cbn [mbind option_bind]. destruct ok; [|left; apply Hf; reflexivity].
  right. exists o1, e. destruct (Ht eq_refl) as (H1 & H2 & H3). auto.
Qed.

(** The second half of a definition. *)
Lemma store_slot_ok (added : bool) slot v l o w n k : nodes w !! l = Some n -> table_ok (tab n) -> storage_ok o -> valid_key k ->
  (if added then prop_count o <= ant_shape_count (tab n) else prop_count o = ant_shape_count (tab n)) ->
  ant_shape_count (tab n) < 2 ^ 30 - 1 -> shape_lookup (tab n) (key_code k) = Some slot ->
  shape_starved grant \/
  exists o' e, store_slot grant undef junk added slot v l o w = Some (MkValue l o' (set_tenv w e)) /\
    obj_ok o' (tab n) /\ slots o' !! slot = Some v /\
    (forall j, j <> slot -> Z.of_nat j < prop_count o -> slots o' !! j = slots o !! j).
Proof.
  intros Hl Ht Ho Hk Hcnt Hbig Hlook. pose proof (lookup_count _ _ _ Ht Hk Hlook) as Hs. unfold store_slot. rewrite Hl. cbn [mbind option_bind].
  assert (Hstep : shape_starved grant \/ exists o1 e, (if added then ensure_capacity grant undef junk o (ant_shape_count (tab n)) w else Some (true, o, w)) =
    Some (true, o1, set_tenv w e) /\ storage_ok o1 /\ prop_count o1 = ant_shape_count (tab n) /\
    forall j, Z.of_nat j < prop_count o -> slots o1 !! j = slots o !! j).
  { destruct added.
    - destruct (ensure_ok o (ant_shape_count (tab n)) w Ho) as [|(o1 & e & E & Ho1 & Hp & Hj)]; [unfold ant_shape_count in *; lia|auto|].
      right. exists o1, e. splits; auto; [lia|]. intros j Hlt. rewrite Hj, decide_True by lia. reflexivity.
    - right. exists o, (tenv w). splits; auto. destruct w; reflexivity. }
  destruct Hstep as [|(o1 & e & E & Ho1 & Hp1 & Hj1)]; [auto|]. rewrite E. cbn [mbind option_bind negb].
  destruct (Z.leb_spec (prop_count o1) (Z.of_nat slot)); [lia|]. cbn [mbind option_bind negb].
  pose proof (st_count o1 Ho1). destruct (set_slots o1 (Z.of_nat slot) v Ho1) as (o2 & E2 & Ho2 & Hs2 & Hp2 & _); [lia|].
  rewrite E2. cbn [mbind option_bind]. right. exists o2, e. split; [reflexivity|]. rewrite Nat2Z.id in Hs2. splits.
  - split; [exact Ho2|]. split; [exact Ht|]. lia.
  - rewrite Hs2. apply list_lookup_insert_eq. unfold zlen in *. lia.
  - intros j Hj Hlt. rewrite Hs2, list_lookup_insert_ne by auto. auto.
Qed.

(** Reading does not leave the arrays. *)
Lemma lkp_val_ok w ext l o k : object_ok w ext l o -> valid_key k ->
  lkp_interned_val undef k l o w = Some (match own k l o w with Some v => v | None => undef end).
Proof.
  intros [[Hw _] _ (n & Hn & _) Hst] Hk. cbn [fst snd] in Hw. destruct (Hst n Hn) as (Ho & Ht & Hc).
  unfold lkp_interned_val, own. rewrite Hn. cbn [mbind option_bind].
  destruct (shape_lookup (tab n) (key_code k)) as [slot|] eqn:E; [|reflexivity]. cbn [mbind option_bind].
  pose proof (lookup_count _ _ _ Ht Hk E). pose proof (st_count o Ho). rewrite get_slots, Nat2Z.id by (auto; lia).
  destruct (slots o !! slot) as [v|] eqn:Ev; [reflexivity|]. apply lookup_ge_None in Ev. unfold zlen in *. lia.
Qed.
Lemma own_at k l o w n : nodes w !! l = Some n -> own k l o w = (slot ← shape_lookup (tab n) (key_code k); slots o !! slot).
Proof. intros H. unfold own. rewrite H. reflexivity. Qed.

(** What a definition of [k] achieves. *)
Definition defines (k : shape_key) (v : Z) (w : forest) (ext : gmultiset nat) (l : nat) (o : ant_object)
  (l' : nat) (o' : ant_object) (w' : forest) : Prop :=
  object_ok w' ext l' o' /\ own k l' o' w' = Some v /\
  (forall k2, valid_key k2 -> k2 <> k -> own k2 l' o' w' = own k2 l o w) /\
  (forall x, x ∈ ext -> props_at w' x = props_at w x).

(** The store once the shape [l'] has the key. *)
Lemma store_defines (added : bool) slot v k a w ext l o n w' l' n' : object_ok w ext l o -> nodes w !! l = Some n -> tree_key k ->
  heap_ok (w', ext ⊎ {[+ l' +]}) -> coherent w' -> nodes w' !! l' = Some n' -> clean n' ->
  props (tab n') = upsert k a (props (tab n)) -> shape_lookup (tab n') (key_code k) = Some slot ->
  (added = false -> length (props (tab n')) = length (props (tab n))) ->
  (forall x, x ∈ ext -> props_at w' x = props_at w x) -> ant_shape_count (tab n) < 2 ^ 30 - 2 ->
  shape_starved grant \/
  exists o' w2, store_slot grant undef junk added slot v l' o w' = Some (MkValue l' o' w2) /\
    defines k v w ext l o l' o' w2.
Proof.
  intros Hobj Hn Hk Hh' Hco' Hn' Hcl' Hp Hlook Hadd Hkeep Hcnt. destruct (oo_storage _ _ _ _ Hobj n Hn) as (Ho & Ht & Hc).
  pose proof (tree_key_valid k Hk) as Hvk.
  assert (Ht' : table_ok (tab n')) by apply (nk_table _ _ _ _ _ (fo_nodes _ _ _ (proj1 Hh') l' n' Hn')).
  pose proof (upsert_count k a (props (tab n))) as Hcu. rewrite <- Hp in Hcu. unfold ant_shape_count in *.
  destruct (store_slot_ok added slot v l' o w' n' k) as [|(o' & e & E & Hok & Hv & Hoth)]; auto; unfold ant_shape_count; try lia.
  { destruct added; [lia|]. rewrite Hadd by reflexivity. lia. }
  right. exists o', (set_tenv w' e). split; [exact E|]. split; [|splits].
  - apply set_tenv_object. split; auto; [exists n'; auto|]. intros m Hm. replace m with n' by congruence. exact Hok.
  - rewrite (own_at k l' o' (set_tenv w' e) n') by exact Hn'. rewrite Hlook. exact Hv.
  - intros k2 Hk2 Hne. rewrite (own_at k2 l' o' (set_tenv w' e) n') by exact Hn'. rewrite (own_at k2 l o w n) by exact Hn.
    rewrite (lookup_other (tab n) (tab n') k a k2) by auto.
    destruct (shape_lookup (tab n) (key_code k2)) as [j|] eqn:Ej; [|reflexivity]. cbn [mbind option_bind].
    pose proof (lookup_count _ _ _ Ht Hk2 Ej) as Hj. unfold ant_shape_count in Hj. apply Hoth; [|lia]. intros ->.
    apply lookup_spec in Ej as (p & Hpj & Hpk); auto. apply lookup_spec in Hlook as (q & Hqj & Hqk); auto.
    rewrite Hp in Hqj. apply (upsert_lookup k a) in Hpj; [|congruence]. congruence.
  - exact Hkeep.
Qed.

Lemma lookup_same s s' k : table_ok s -> table_ok s' -> valid_key k -> props s' = props s ->
  shape_lookup s' (key_code k) = shape_lookup s (key_code k).
Proof.
  intros Hs Hs' Hk Hp. destruct (shape_lookup s (key_code k)) as [i|] eqn:E.
  - apply lookup_spec in E as H; auto. apply lookup_spec; auto. rewrite Hp. exact H.
  - destruct (shape_lookup s' (key_code k)) as [i|] eqn:E'; [|reflexivity]. apply lookup_spec in E'; auto.
    rewrite Hp in E'. apply lookup_spec in E'; auto. congruence.
Qed.

(** Defining an own property, old or new. *)
Lemma mkprop_ok k v attrs d w ext l o n : object_ok w ext l o -> nodes w !! l = Some n -> tree_key k -> 0 <= attrs < 256 ->
  ant_shape_count (tab n) < 2 ^ 30 - 2 -> Z.of_nat (size ext) < 2 ^ 30 ->
  shape_starved grant \/
  exists l' o' w', mkprop_impl grant undef junk szs szp sze k v attrs d l o w = Some (MkValue l' o' w') /\
    defines k v w ext l o l' o' w'.
Proof.
  intros Hobj Hn Hk Ha Hcnt Hsz. unfold mkprop_impl. rewrite Hn. cbn [mbind option_bind].
  set (a := if d && (attrs =? 0) then _ else _). assert (Ha' : 0 <= a < 256) by (unfold a, ANT_PROP_ATTR_DEFAULT; case_if; lia).
  pose proof Hobj as [Hh Hco (n0 & Hn0 & Hcl) Hst]. assert (n0 = n) by congruence. subst n0.
  pose proof Hh as [Hw Hlab]. cbn [fst snd] in Hw, Hlab. destruct (Hst n Hn) as (Ho & Ht & Hc). pose proof (tree_key_valid k Hk) as Hvk.
  destruct (shape_lookup (tab n) (key_code k)) as [slot|] eqn:Hlook.
  - destruct (unique_ok grant szs szp sze w ext l n Hw Hlab Hn ltac:(lia))
      as [|(l1 & w1 & n1 & E1 & [Hw1 Hlab1] & Hn1 & Hp1 & Hr1 & Hco1 & Hcl1 & Hk1)]; [auto|].
    rewrite E1. cbn [mbind option_bind]. unfold set_attrs_on. rewrite Hn1. cbn [mbind option_bind].
    assert (Ht1 : table_ok (tab n1)) by apply (nk_table _ _ _ _ _ (fo_nodes _ _ _ Hw1 l1 n1 Hn1)).
    pose proof (lookup_same _ _ k Ht Ht1 Hvk Hp1) as Hlook1. rewrite Hlook in Hlook1. rewrite Hlook1.
    pose proof (lookup_count _ _ _ Ht Hvk Hlook) as Hsl.
    destruct (edit_at_ok w1 ext l1 n1 (EditAttrs (slot_result (Some slot)) a) Hw1 Hlab1 Hn1 Hr1) as (w2 & E2 & Hh2 & Hn2 & Hco2 & Hk2).
    rewrite E2. cbn [mbind option_bind].
    assert (Es : slot_result (Some slot) = Z.of_nat slot) by (apply to_i32_small; lia).
    cbn [edit_table] in Hn2. rewrite Es in Hn2. unfold set_attrs_at in Hn2.
    destruct (Z.ltb_spec (Z.of_nat slot) 0); [lia|]. cbn [snd] in Hn2. rewrite Nat2Z.id in Hn2.
    rewrite (alter_map (tab n1) k a slot Ht1 Hvk Hlook1) in Hn2. set (n2 := set_tab n1 _) in Hn2.
    assert (Hp2 : props (tab n2) = upsert k a (props (tab n))).
    { cbn [n2 tab set_tab props set_props]. unfold upsert. rewrite existsb_props, Hlook by auto. rewrite Hp1. reflexivity. }
    assert (Hlook2 : shape_lookup (tab n2) (key_code k) = Some slot) by exact Hlook1.
    destruct (store_defines false slot v k a w ext l o n w2 l1 n2) as [|(o' & w3 & E3 & Hdef)]; auto.
    + right. apply Hcl1, Hcl.
    + intros _. rewrite Hp2. unfold upsert. rewrite existsb_props, Hlook by auto. apply length_map.
    + intros x Hx. rewrite Hk2, Hk1 by auto. reflexivity.
    + right. eauto.
  - destruct (add_tr_spec grant szs szp sze w ext l n k a Hh Hco Hn Hcl Hk Ha')
      as [|(slot & l' & w' & n' & E & Hh' & Hco' & Hn' & Hcl' & Hp' & Hl' & Hk')]; [lia|lia|auto|].
    rewrite E. cbn [mbind option_bind].
    destruct (store_defines true slot v k a w ext l o n w' l' n') as [|(o' & w3 & E3 & Hdef)]; auto; [discriminate|].
    right. eauto.
Qed.

(** The values by key are those of the object's view. *)
Lemma view_own o s k v : obj_ok o s -> valid_key k ->
  (exists p, In (p, v) (view o s) /\ pkey p = k) <->
  exists slot, shape_lookup s (key_code k) = Some slot /\ slots o !! slot = Some v.
Proof.
  intros (Ho & Ht & Hc) Hk. unfold view. split.
  - intros (p & Hin & Hpk). apply filter_In in Hin as [Hin Hlive].
    apply list_elem_of_In, list_elem_of_lookup in Hin as [i Hi]. apply lookup_zip_with_Some in Hi as (q & x & [= -> ->] & Hq & Hx).
    exists i. split; [|exact Hx]. apply lookup_spec; eauto.
  - intros (slot & El & Hv). apply lookup_spec in El as (p & Hp & Hpk); auto. exists p. split; [|exact Hpk].
    apply filter_In. split.
    + apply list_elem_of_In, list_elem_of_lookup. exists slot. rewrite lookup_zip_with, Hp. cbn. rewrite Hv. reflexivity.
    + unfold live. cbn. unfold is_deleted. rewrite Hpk. destruct k; auto; contradiction.
Qed.

Lemma own_view k l o w n v : nodes w !! l = Some n -> obj_ok o (tab n) -> valid_key k ->
  own k l o w = Some v <-> exists p, In (p, v) (view o (tab n)) /\ pkey p = k.
Proof.
  intros Hn Hok Hk. rewrite (own_at k l o w n Hn), view_own by auto.
  destruct (shape_lookup (tab n) (key_code k)) as [slot|]; cbn [mbind option_bind].
  - split; [eauto|]. intros (s' & [= <-] & H). exact H.
  - split; [discriminate|]. intros (s' & H & _). discriminate.
Qed.

Lemma own_filtered k l o w n l' o' w' n' : nodes w !! l = Some n -> obj_ok o (tab n) ->
  nodes w' !! l' = Some n' -> obj_ok o' (tab n') -> valid_key k ->
  view o' (tab n') = List.filter (fun q => negb (has_key k q.1)) (view o (tab n)) ->
  own k l' o' w' = None /\ forall k2, valid_key k2 -> k2 <> k -> own k2 l' o' w' = own k2 l o w.
Proof.
  intros Hn Hok Hn' Hok' Hk Hv.
  assert (Hiff : forall k2 v, valid_key k2 -> own k2 l' o' w' = Some v <-> own k2 l o w = Some v /\ k2 <> k).
  { intros k2 v Hk2. rewrite (own_view k2 l' o' w' n') by auto. rewrite (own_view k2 l o w n) by auto. rewrite Hv. split.
    - intros (p & Hin & Hpk). apply filter_In in Hin as [Hin Hne]. split; [eauto|]. intros ->.
      cbn in Hne. unfold has_key in Hne. rewrite bool_decide_eq_true_2 in Hne by auto. discriminate.
    - intros [(p & Hin & Hpk) Hne]. exists p. split; [|exact Hpk]. apply filter_In. split; [exact Hin|].
      cbn. unfold has_key. rewrite bool_decide_eq_false_2 by congruence. reflexivity. }
  split.
  - destruct (own k l' o' w') as [v|] eqn:E; [|reflexivity]. apply Hiff in E as [_ E]; auto. destruct E. reflexivity.
  - intros k2 Hk2 Hne. destruct (own k2 l o w) as [v|] eqn:E; [apply Hiff; auto|].
    destruct (own k2 l' o' w') as [v|] eqn:E'; [|reflexivity]. apply Hiff in E' as [E' _]; auto. congruence.
Qed.

(** Deleting a configurable own property. *)
Lemma delete_ok c k w ext l o n slot : object_ok w ext l o -> nodes w !! l = Some n -> valid_key k ->
  ant_shape_count (tab n) < 2 ^ 30 -> check_frozen_sealed c = None ->
  shape_lookup (tab n) (key_code k) = Some slot ->
  ant_shape_get_attrs (tab n) slot .& ANT_PROP_ATTR_CONFIGURABLE <> 0 ->
  shape_starved grant \/
  exists l' o' w', delete_own_prop grant undef szs szp sze c k l o w = Some (JsTrue l' o' w') /\
    object_ok w' ext l' o' /\ own k l' o' w' = None /\
    (forall k2, valid_key k2 -> k2 <> k -> own k2 l' o' w' = own k2 l o w) /\
    (forall x, x ∈ ext -> props_at w' x = props_at w x).
Proof.
  intros Hobj Hn Hk Hcnt Hfz Hlook Hconf. unfold delete_own_prop. rewrite Hfz, Hn. cbn [mbind option_bind]. rewrite Hlook.
  destruct (Z.eqb_spec (ant_shape_get_attrs (tab n) slot .& ANT_PROP_ATTR_CONFIGURABLE) 0) as [|_]; [contradiction|].
  pose proof Hobj as [Hh Hco (n0 & Hn0 & Hcl) Hst]. assert (n0 = n) by congruence. subst n0.
  destruct Hh as [Hw Hlab]. cbn [fst snd] in Hw, Hlab. pose proof (Hst n Hn) as Hok. pose proof Hok as (Ho & Ht & Hc).
  destruct (unique_ok grant szs szp sze w ext l n Hw Hlab Hn ltac:(lia))
    as [|(l1 & w1 & n1 & E1 & [Hw1 Hlab1] & Hn1 & Hp1 & Hr1 & Hco1 & Hcl1 & Hk1)]; [auto|].
  rewrite E1. cbn [mbind option_bind]. rewrite Hn1. cbn [mbind option_bind]. cbn [fst snd] in Hw1, Hlab1.
  assert (Ht1 : table_ok (tab n1)) by apply (nk_table _ _ _ _ _ (fo_nodes _ _ _ Hw1 l1 n1 Hn1)).
  assert (Hok1 : obj_ok o (tab n1)) by (splits; auto; unfold obj_ok, ant_shape_count in *; rewrite Hp1; auto).
  apply lookup_spec in Hlook as (p & Hp & Hpk); auto. rewrite <- Hp1 in Hp.
  assert (Hd : is_deleted p = false) by (unfold is_deleted; rewrite Hpk; destruct k; auto; contradiction).
  destruct (ant_shape_remove_slot (tenv w1) (tab n1) slot) as [[b e] s2] eqn:Er.
  pose proof (remove_slot_refs _ _ _ _ _ _ Er) as Hrr.
  destruct (remove_and_move undef (tenv w1) o (tab n1) slot p b e s2 Hok1 Hp Hd Er) as (-> & o' & s' & E & Hok' & Hv).
  rewrite E. cbn [mbind option_bind]. rewrite (update_eq l1 _ (set_tenv w1 e) n1) by exact Hn1. cbn [mbind option_bind].
  right. eexists l1, o', _. split; [reflexivity|].
  assert (Hrs : ref_count s' = 1).
  { unfold obj_delete_prop_slot in E. revert E. repeat case_match; intros; simplify_eq; auto; try congruence.
    match goal with H : ant_shape_compact _ = (_, _) |- _ => pose proof (compact_refs s2) as Hcr; rewrite H in Hcr end.
    cbn in Hcr. congruence. }
  change (set_nodes (set_tenv w1 e) _) with (set_tenv (set_nodes w1 (<[l1 := set_tab n1 s']> (nodes w1))) e).
  assert (Hn2 : nodes (set_tenv (set_nodes w1 (<[l1 := set_tab n1 s']> (nodes w1))) e) !! l1 = Some (set_tab n1 s')) by apply lookup_insert_eq.
  destruct (nk_refs _ _ _ _ _ (fo_nodes _ _ _ Hw1 l1 n1 Hn1) (not_elem_of_empty _)) as [_ Hrc].
  rewrite mult_add, decide_True in Hrc by auto.
  assert (Hpn : parent n1 = None).
  { unfold edge_refs in Hrc. destruct (parent n1) as [q|]; [|reflexivity]. rewrite decide_False in Hrc by apply not_elem_of_empty. lia. }
  pose proof (orphan_parent _ _ _ _ Hw1 Hn1 Hpn) as Horph.
  splits.
  - split.
    + split; cbn [fst snd]; [apply set_tab_ok; auto; [apply Hok'|congruence]|]. apply (edges_set edge_has w1 l1 n1); auto.
    + apply (edges_set edge_ok w1 l1 n1); auto.
    + exists (set_tab n1 s'). split; [exact Hn2|]. right. apply Hcl1, Hcl.
    + intros m Hm. rewrite Hn2 in Hm. injection Hm as <-. exact Hok'.
  - apply (own_filtered k l o w n l1 o' _ (set_tab n1 s')); auto. cbn [tab set_tab]. rewrite Hv, Hpk. unfold view. rewrite Hp1. reflexivity.
  - apply (own_filtered k l o w n l1 o' _ (set_tab n1 s')); auto. cbn [tab set_tab]. rewrite Hv, Hpk. unfold view. rewrite Hp1. reflexivity.
  - intros x Hx. rewrite <- Hk1 by auto. apply (props_at_set w1 l1 n1); auto. left. intros ->. rewrite elem_mult in Hx. lia.
Qed.

End Proofs.

(** ** Theorems *)

(** C23: defining an own property, under an interned key below 2^55 or a
    symbol, on an ordinary object (a new one or an old one, with a shared or a
    private shape) makes the unchecked read of that key return the value,
    leaves the value of every other key as it was and the shapes of all other
    owners untouched, and never accesses memory outside the object's arrays or
    a freed shape; it fails only when memory is refused. Before, the reference
    counts are exact, the tree of shapes is coherent (each child has its
    parent's properties and one more), the object's shape has no children
    unless it is part of the tree, and it has fewer than 2^30 - 2 properties
    and 2^30 other owners; the counts, the tree and the object's shape are so
    again afterwards. *)
Theorem property_define grant undef junk szs szp sze k v attrs d w ext l o n :
  object_ok w ext l o -> nodes w !! l = Some n -> tree_key k -> 0 <= attrs < 256 ->
  ant_shape_count (tab n) < 2 ^ 30 - 2 -> Z.of_nat (size ext) < 2 ^ 30 ->
  shape_starved grant \/
  exists l' o' w', mkprop_impl grant undef junk szs szp sze k v attrs d l o w = Some (MkValue l' o' w') /\
    object_ok w' ext l' o' /\ lkp_interned_val undef k l' o' w' = Some v /\
    (forall k2, valid_key k2 -> k2 <> k -> lkp_interned_val undef k2 l' o' w' = lkp_interned_val undef k2 l o w) /\
    (forall x, x ∈ ext -> props_at w' x = props_at w x).
Proof.
  intros Hobj Hn Hk Ha Hcnt Hsz.
  destruct (mkprop_ok grant undef junk szs szp sze k v attrs d w ext l o n) as [|(l' & o' & w' & E & Hobj' & Hv & Hoth & Hkeep)]; auto.
  right. exists l', o', w'. splits; auto.
  - rewrite (lkp_val_ok undef w' ext), Hv by auto using tree_key_valid. reflexivity.
  - intros k2 Hk2 Hne. rewrite (lkp_val_ok undef w' ext), (lkp_val_ok undef w ext), Hoth by auto. reflexivity.
Qed.

(** The reason a deletion is refused. *)
Definition undeletable (c : del_context) (n : node) (k : shape_key) : Prop :=
  frozen c = true \/ sealed c = true \/
  exists slot, shape_lookup (tab n) (key_code k) = Some slot /\
    ant_shape_get_attrs (tab n) slot .& ANT_PROP_ATTR_CONFIGURABLE = 0.

(** Deleting an own property returns true and then the key is absent, every
    other key has its value, and no other owner's shape has changed; a frozen
    or sealed object or a non-configurable property is left alone, with false
    in sloppy mode and a TypeError in strict mode, and only then; no access
    leaves the arrays or the heap. *)
Theorem property_delete grant undef szs szp sze c k w ext l o n :
  object_ok w ext l o -> nodes w !! l = Some n -> valid_key k -> ant_shape_count (tab n) < 2 ^ 30 ->
  shape_starved grant \/
  match delete_own_prop grant undef szs szp sze c k l o w with
  | Some (JsTrue l' o' w') => ~ undeletable c n k /\ object_ok w' ext l' o' /\ own k l' o' w' = None /\
      (forall k2, valid_key k2 -> k2 <> k -> own k2 l' o' w' = own k2 l o w) /\
      (forall x, x ∈ ext -> props_at w' x = props_at w x)
  | Some (JsFalse l' o' w') => undeletable c n k /\ is_strict c = false /\ (l', o', w') = (l, o, w)
  | Some (JsError kind l' o' w') => undeletable c n k /\ is_strict c = true /\ kind = Some JS_ERR_TYPE /\ (l', o', w') = (l, o, w)
  | None => False
  end.
Proof.
  intros Hobj Hn Hk Hcnt. destruct (check_frozen_sealed c) as [b|] eqn:Hfz.
  { right. unfold delete_own_prop. rewrite Hfz. unfold check_frozen_sealed in Hfz. unfold undeletable.
    destruct b; destruct (frozen c), (sealed c); try discriminate; injection Hfz as Hs; splits; auto. }
  assert (Hff : frozen c = false /\ sealed c = false).
  { unfold check_frozen_sealed in Hfz. destruct (frozen c); [discriminate|]. destruct (sealed c); [discriminate|auto]. }
  assert (Hund : undeletable c n k <-> exists slot, shape_lookup (tab n) (key_code k) = Some slot /\
    ant_shape_get_attrs (tab n) slot .& ANT_PROP_ATTR_CONFIGURABLE = 0).
  { unfold undeletable. destruct Hff as [-> ->]. split; [|auto]. intros [|[|H]]; [discriminate..|exact H]. }
  destruct (shape_lookup (tab n) (key_code k)) as [slot|] eqn:Hlook.
  - destruct (Z.eq_dec (ant_shape_get_attrs (tab n) slot .& ANT_PROP_ATTR_CONFIGURABLE) 0) as [Hz|Hz].
    + right. unfold delete_own_prop. rewrite Hfz, Hn. cbn [mbind option_bind]. rewrite Hlook, (proj2 (Z.eqb_eq _ 0) Hz).
      destruct (is_strict c); splits; auto; apply Hund; eauto.
    + destruct (delete_ok grant undef szs szp sze c k w ext l o n slot) as [|(l' & o' & w' & E & H1 & H2 & H3 & H4)]; auto.
      right. rewrite E. splits; auto. rewrite Hund. intros (s & [= <-] & H). contradiction.
  - right. unfold delete_own_prop. rewrite Hfz, Hn. cbn [mbind option_bind]. rewrite Hlook. splits; auto.
    + rewrite Hund. intros (s & H & _). discriminate.
    + rewrite (own_at k l o w n Hn), Hlook. reflexivity.
Qed.

(** A fresh object on the empty root shape. *)
Definition fresh_obj : ant_object := Obj [0; 0; 0; 0] [] 0 0 4.

Lemma fresh_object_ok : object_ok root_world ∅ 0 fresh_obj.
Proof.
  destruct root_world_ok as [H1 H2]. split; auto.
  - eexists. split; [vm_compute; reflexivity|]. left. vm_compute. reflexivity.
  - intros n Hn. split; [|split].
    + split; vm_compute; repeat split; discriminate.
    + apply (nk_table _ _ _ _ _ (fo_nodes _ _ _ (proj1 H1) 0%nat n Hn)).
    + vm_compute in Hn. injection Hn as <-. reflexivity.
Qed.

Lemma property_define_witness : exists l' o' w',
  mkprop_impl grants 0 0 100 40 64 (key 16) 77 0 true 0 fresh_obj root_world = Some (MkValue l' o' w') /\
  lkp_interned_val 0 (key 16) l' o' w' = Some 77.
Proof.
  destruct (property_define grants 0 0 100 40 64 (key 16) 77 0 true root_world ∅ 0 fresh_obj _ fresh_object_ok
    ltac:(vm_compute; reflexivity) ltac:(cbn; lia) ltac:(lia) ltac:(vm_compute; reflexivity) ltac:(reflexivity))
    as [H|(l' & o' & w' & E & _ & Hv & _)].
  - destruct (grants_not_starved H).
  - exists l', o', w'. auto.
Defined.

Lemma property_delete_witness :
  match delete_own_prop grants 0 100 40 64 (DelContext false true true) (key 16) 0 fresh_obj root_world with
  | Some (JsError kind _ _ _) => kind = Some JS_ERR_TYPE
  | _ => False
  end.
Proof.
  destruct (property_delete grants 0 100 40 64 (DelContext false true true) (key 16) root_world ∅ 0 fresh_obj _ fresh_object_ok
    ltac:(vm_compute; reflexivity) ltac:(cbn; lia) ltac:(vm_compute; reflexivity)) as [H|H].
  - destruct (grants_not_starved H).
  - cbn [delete_own_prop check_frozen_sealed frozen sealed is_strict] in *. apply H.
Defined.
