(* ===== verification/EventSource.v ===== *)
(** * Server-sent events

    [src/src/http/eventsource.c]: the parser of an event stream, fed with
    chunks of any size, and the formatting of events and comments.  A buffer is
    the list of the bytes written to it, with its capacity beside it; a write
    outside the capacity is the outcome [SseFault].  The callback is a
    parameter with a state of its own, and [malloc_ok n] says whether [n] bytes
    can be allocated. *)

From S2P Require Import Prelude.

Definition LF : Z := 10.
Definition CR : Z := 13.
Definition COLON : Z := 58.
Definition SPACE : Z := 32.

(** ** Data *)

(** [line] holds the first [line_len] bytes of the buffer; the strings are the
    bytes copied into them, read up to the first NUL. *)
Record ant_sse_parser_t := SseParser {
  sse_line : list Z; line_cap : Z;
  sse_data : option (list Z); sse_event : option (list Z); sse_id : option (list Z);
  last_event_id : option (list Z); sse_retry : Z; has_retry : bool }.

Record ant_sse_message_t := SseMessage {
  msg_data : list Z; msg_event : option (list Z); msg_id : option (list Z);
  msg_retry : Z; msg_has_retry : bool }.

Definition ant_sse_parser_init : ant_sse_parser_t := SseParser [] 0 None None None None 0 false.

(** Freeing leaves the parser as initialisation does. *)
Definition ant_sse_parser_free (p : ant_sse_parser_t) : ant_sse_parser_t := ant_sse_parser_init.

Definition with_line (p : ant_sse_parser_t) l c :=
  SseParser l c (sse_data p) (sse_event p) (sse_id p) (last_event_id p) (sse_retry p) (has_retry p).
Definition with_data (p : ant_sse_parser_t) d :=
  SseParser (sse_line p) (line_cap p) d (sse_event p) (sse_id p) (last_event_id p) (sse_retry p) (has_retry p).
Definition with_event (p : ant_sse_parser_t) v :=
  SseParser (sse_line p) (line_cap p) (sse_data p) v (sse_id p) (last_event_id p) (sse_retry p) (has_retry p).
Definition with_id (p : ant_sse_parser_t) v :=
  SseParser (sse_line p) (line_cap p) (sse_data p) (sse_event p) v (last_event_id p) (sse_retry p) (has_retry p).
Definition with_last_id (p : ant_sse_parser_t) v :=
  SseParser (sse_line p) (line_cap p) (sse_data p) (sse_event p) (sse_id p) v (sse_retry p) (has_retry p).
Definition with_retry (p : ant_sse_parser_t) r :=
  SseParser (sse_line p) (line_cap p) (sse_data p) (sse_event p) (sse_id p) (last_event_id p) r true.

Definition parser_reset_event (p : ant_sse_parser_t) : ant_sse_parser_t :=
  SseParser (sse_line p) (line_cap p) None None None (last_event_id p) (sse_retry p) (has_retry p).

(** [memchr]: the offset of the first [c]. *)
Fixpoint index_of (c : Z) (s : list Z) : option nat :=
  match s with
  | [] => None
  | x :: s => if x =? c then Some O else option_map S (index_of c s)
  end.

Fixpoint parse_retry_loop (s : list Z) (retry : Z) : option Z :=
  match s with
  | [] => Some retry
  | c :: s =>
      if (c <? 48) || (57 <? c) then None
      else
        let digit := c - 48 in
        if (2 ^ 32 - 1 - digit) / 10 <? retry then None
        else parse_retry_loop s (u32 (u32 (retry * 10) + digit))
  end.
Definition parse_retry (value : list Z) : option Z :=
  if (length value =? 0)%nat then None else parse_retry_loop value 0.

Section Parser.
Context (malloc_ok : Z -> bool) {St : Type} (cb : ant_sse_message_t -> St -> bool * St).

(** The outcome of a call: its result, the parser and the callback's state. *)
Inductive sse_outcome :=
| SseDone (ok : bool) (p : ant_sse_parser_t) (st : St)
| SseFault.

Definition set_string (value : list Z) : option (list Z) :=
  if malloc_ok (zlen value + 1) then Some value else None.

Definition append_data_field (p : ant_sse_parser_t) (value : list Z) : option ant_sse_parser_t :=
  let cur := match sse_data p with Some d => c_str d | None => [] end in
  if malloc_ok (zlen cur + zlen value + 2) then Some (with_data p (Some (cur ++ value ++ [LF]))) else None.

Definition strip_lf (d : list Z) : list Z :=
  match last d with Some c => if c =? LF then removelast d else d | None => d end.

Definition dispatch_event (p : ant_sse_parser_t) (st : St) : sse_outcome :=
  match sse_data p with
  | None => SseDone true (parser_reset_event p) st
  | Some d =>
      let data := strip_lf (c_str d) in
      let p := with_data p (Some data) in
      let message := SseMessage data (option_map c_str (sse_event p)) (option_map c_str (sse_id p)) (sse_retry p) (has_retry p) in
      match (match sse_id p with
             | None => Some p
             | Some i => option_map (fun i => with_last_id p (Some i)) (set_string (c_str i))
             end) with
      | None => SseDone false p st
      | Some p => let '(ok, st) := cb message st in SseDone ok (parser_reset_event p) st
      end
  end.

(** A failed allocation leaves the parser as it was. *)
Definition field_result (p : ant_sse_parser_t) (r : option ant_sse_parser_t) (st : St) : sse_outcome :=
  match r with Some p => SseDone true p st | None => SseDone false p st end.

Definition drop_cr (line : list Z) : list Z :=
  match last line with Some c => if c =? CR then removelast line else line | None => line end.

(** The field named [field] with its value. *)
Definition process_field (p : ant_sse_parser_t) (field value : list Z) (st : St) : sse_outcome :=
  if bool_decide (field = str_bytes "data") then field_result p (append_data_field p value) st
  else if bool_decide (field = str_bytes "event") then
    field_result p (option_map (fun v => with_event p (Some v)) (set_string value)) st
  else if bool_decide (field = str_bytes "id") then
    match index_of 0 value with
    | Some _ => SseDone true p st
    | None => field_result p (option_map (fun v => with_id p (Some v)) (set_string value)) st
    end
  else if bool_decide (field = str_bytes "retry") then
    SseDone true (match parse_retry value with Some r => with_retry p r | None => p end) st
  else SseDone true p st.

Definition parser_process_line (p : ant_sse_parser_t) (line : list Z) (st : St) : sse_outcome :=
  let line := drop_cr line in
  if (length line =? 0)%nat then dispatch_event p st
  else if rd line 0 =? COLON then SseDone true p st
  else
    let '(field, value) := match index_of COLON line with
                           | Some i => (take i line, drop (i + 1) line)
                           | None => (line, [])
                           end in
    let value := match value with c :: t => if c =? SPACE then t else value | [] => [] end in
    process_field p field value st.

(** Storing one character of a line. *)
Definition line_push (p : ant_sse_parser_t) (ch : Z) (st : St) : sse_outcome :=
  let len := zlen (sse_line p) in
  let grown :=
    if line_cap p <? len + 2 then
      let next_cap := if line_cap p =? 0 then 128 else u64 (line_cap p * 2) in
      if malloc_ok next_cap then Some next_cap else None
    else Some (line_cap p) in
  match grown with
  | None => SseDone false p st
  | Some cap => if cap <? len + 2 then SseFault else SseDone true (with_line p (sse_line p ++ [ch]) cap) st
  end.

Fixpoint ant_sse_parser_feed (p : ant_sse_parser_t) (chunk : list Z) (st : St) : sse_outcome :=
  match chunk with
  | [] => SseDone true p st
  | ch :: chunk =>
      match (if ch =? LF then
               match parser_process_line p (sse_line p) st with
               | SseDone true p st => SseDone true (with_line p [] (line_cap p)) st
               | r => r
               end
             else line_push p ch st) with
      | SseDone true p st => ant_sse_parser_feed p chunk st
      | r => r
      end
  end.

End Parser.
Arguments SseDone {St} ok p st.
Arguments SseFault {St}.

(** ** Formatting *)

Record sse_buf := SseBuf { buf_bytes : list Z; buf_cap : Z }.

Section Format.
Context (malloc_ok : Z -> bool).

Fixpoint grow_to (fuel : nat) (next needed : Z) : Z :=
  match fuel with
  | O => next
  | S fuel => if next <? needed then grow_to fuel (u64 (next * 2)) needed else next
  end.

(** [None] is failure; [Some None] a write outside the buffer. *)
Definition append_bytes (b : sse_buf) (data : list Z) : option (option sse_buf) :=
  let needed := zlen (buf_bytes b) + zlen data + 1 in
  let grown :=
    if buf_cap b <? needed then
      let next := grow_to 64 (if buf_cap b =? 0 then 64 else u64 (buf_cap b * 2)) needed in
      if malloc_ok next then Some next else None
    else Some (buf_cap b) in
  match grown with
  | None => None
  | Some cap => Some (if cap <? needed then None else Some (SseBuf (buf_bytes b ++ data) cap))
  end.

Definition bind_buf (r : option (option sse_buf)) (k : sse_buf -> option (option sse_buf)) : option (option sse_buf) :=
  match r with
  | None => None
  | Some None => Some None
  | Some (Some b) => k b
  end.

(** The lines [do ... while] walks through: each ends at a newline or at the
    end, and the walk stops at the end of the string. *)
Fixpoint split_lines (s : list Z) (cur : list Z) : list (list Z) :=
  match s with
  | [] => [cur]
  | c :: t => if c =? LF then cur :: match t with [] => [] | _ => split_lines t [] end else split_lines t (cur ++ [c])
  end.

Fixpoint append_lines (b : sse_buf) (prefix : list Z) (lines : list (list Z)) : option (option sse_buf) :=
  match lines with
  | [] => Some (Some b)
  | l :: lines =>
      bind_buf (append_bytes b prefix) (fun b =>
      bind_buf (append_bytes b (str_bytes ": ")) (fun b =>
      bind_buf (append_bytes b (drop_cr l)) (fun b =>
      bind_buf (append_bytes b [LF]) (fun b => append_lines b prefix lines))))
  end.
Definition append_field_lines (b : sse_buf) (field : list Z) (value : list Z) : option (option sse_buf) :=
  append_lines b field (split_lines (c_str value) []).

(** The arguments are C strings or NULL. *)
Definition non_empty (s : option (list Z)) : option (list Z) :=
  match s with Some s => if (length (c_str s) =? 0)%nat then None else Some s | None => None end.
Definition opt_field (b : sse_buf) (field : list Z) (value : option (list Z)) : option (option sse_buf) :=
  match value with Some v => append_field_lines b field v | None => Some (Some b) end.

Definition ant_sse_format_event (data event id retry : option (list Z)) : option (option sse_buf) :=
  bind_buf (opt_field (SseBuf [] 0) (str_bytes "event") (non_empty event)) (fun b =>
  bind_buf (opt_field b (str_bytes "id") id) (fun b =>
  bind_buf (opt_field b (str_bytes "retry") (non_empty retry)) (fun b =>
  bind_buf (append_field_lines b (str_bytes "data") (match data with Some d => d | None => [] end)) (fun b =>
  append_bytes b [LF])))).

(** A comment has no field name before the colon. *)
Fixpoint comment_lines (b : sse_buf) (lines : list (list Z)) : option (option sse_buf) :=
  match lines with
  | [] => Some (Some b)
  | l :: lines =>
      bind_buf (append_bytes b (str_bytes ": ")) (fun b =>
      bind_buf (append_bytes b (drop_cr l)) (fun b =>
      bind_buf (append_bytes b [LF]) (fun b => comment_lines b lines)))
  end.
Definition ant_sse_format_comment (comment : option (list Z)) : option (option sse_buf) :=
  bind_buf (comment_lines (SseBuf [] 0) (split_lines (c_str (match comment with Some c => c | None => [] end)) [])) (fun b =>
  append_bytes b [LF]).

End Format.

(** ** The parser *)

Section Feed.
Context (malloc_ok : Z -> bool) {St : Type} (cb : ant_sse_message_t -> St -> bool * St).
Abbreviation feed := (ant_sse_parser_feed malloc_ok cb).

(** Feeding continues where it stopped. *)
Lemma feed_app a : forall p b st, feed p (a ++ b) st =
  match feed p a st with SseDone true p st => feed p b st | r => r end.
Proof.
  induction a as [|c a IH]; intros p b st; cbn [app ant_sse_parser_feed]; [reflexivity|].
  set (r := if c =? LF then _ else _). destruct r as [[] p' st'|]; auto.
Qed.

(** The line buffer after [t] bytes of input. *)
Record line_ok (t : Z) (p : ant_sse_parser_t) : Prop := {
  lk_len : zlen (sse_line p) <= t;
  lk_cap : 0 <= line_cap p <= 128 + 4 * t;
  lk_null : line_cap p = 0 -> sse_line p = [];
  lk_room : line_cap p <> 0 -> 128 <= line_cap p /\ zlen (sse_line p) + 1 <= line_cap p }.

Lemma line_push_ok t p ch (st : St) : line_ok t p -> 0 <= t < 2 ^ 60 ->
  exists ok p', line_push malloc_ok p ch st = SseDone ok p' st /\ line_ok (t + 1) p' /\
    (ok = false -> exists n, malloc_ok n = false) /\
    (ok = true -> exists c, p' = with_line p (sse_line p ++ [ch]) c).
Proof.
  intros [Hl Hc Hn Hr] Ht. unfold line_push.
  assert (Hlen : zlen (sse_line p ++ [ch]) = zlen (sse_line p) + 1) by (unfold zlen; rewrite length_app; cbn; lia).
  assert (H0 : 0 <= zlen (sse_line p)) by (unfold zlen; lia).
  assert (Hz : line_cap p = 0 -> zlen (sse_line p) = 0) by (intros E; rewrite (Hn E); reflexivity).
  assert (Hkeep : line_ok (t + 1) p) by (split; auto; lia).
  destruct (Z.ltb_spec (line_cap p) (zlen (sse_line p) + 2)) as [Hg|Hg].
  - set (next := if line_cap p =? 0 then 128 else u64 (line_cap p * 2)).
    assert (Hnext : zlen (sse_line p) + 2 <= next <= 128 + 4 * (t + 1) /\ 128 <= next).
    { unfold next. destruct (Z.eqb_spec (line_cap p) 0) as [E|E]; [rewrite (Hz E); lia|]. rewrite wrap_small by lia. lia. }
    destruct (malloc_ok next) eqn:Em; [|exists false, p; splits; eauto; discriminate].
    destruct (Z.ltb_spec next (zlen (sse_line p) + 2)); [lia|]. eexists true, _. split; [reflexivity|].
    splits; [|discriminate|eauto]. split; cbn [sse_line line_cap with_line]; lia.
  - destruct (Z.ltb_spec (line_cap p) (zlen (sse_line p) + 2)); [lia|]. eexists true, _. split; [reflexivity|].
    splits; [|discriminate|eauto]. split; cbn [sse_line line_cap with_line]; try lia.
Qed.

(** Processing a line does not touch the line buffer. *)
Definition same_line (p p' : ant_sse_parser_t) : Prop := sse_line p' = sse_line p /\ line_cap p' = line_cap p.

Lemma dispatch_same p st : exists ok p' st', dispatch_event malloc_ok cb p st = SseDone ok p' st' /\ same_line p p'.
Proof.
  unfold dispatch_event. destruct (sse_data p) as [d|]; [|do 3 eexists; split; [reflexivity|split; reflexivity]].
  cbn zeta. destruct (sse_id (with_data p _)) as [i|].
  - destruct (set_string malloc_ok (c_str i)) as [i'|]; cbn [option_map].
    + destruct (cb _ st) as [ok st']. do 3 eexists. split; [reflexivity|split; reflexivity].
    + do 3 eexists. split; [reflexivity|split; reflexivity].
  - destruct (cb _ st) as [ok st']. do 3 eexists. split; [reflexivity|split; reflexivity].
Qed.

Lemma process_same p line st : exists ok p' st', parser_process_line malloc_ok cb p line st = SseDone ok p' st' /\ same_line p p'.
Proof.
  unfold parser_process_line. destruct (length (drop_cr line) =? 0)%nat; [apply dispatch_same|].
  destruct (match index_of COLON (drop_cr line) with Some _ => _ | None => _ end) as [field value].
  unfold process_field, append_data_field, set_string.
  repeat case_match; simplify_eq; cbn [field_result option_map]; do 3 eexists; (split; [reflexivity|split; reflexivity]).
Qed.

(** The buffer is never overrun, and failure means that memory was refused or
    that the callback said so. *)
Lemma feed_safe chunk : forall t p st, line_ok t p -> 0 <= t -> t + zlen chunk < 2 ^ 60 ->
  exists ok p' st', feed p chunk st = SseDone ok p' st' /\ (ok = true -> line_ok (t + zlen chunk) p').
Proof.
  induction chunk as [|c chunk IH]; intros t p st Hp Ht Hs; cbn [ant_sse_parser_feed].
  { exists true, p, st. split; [reflexivity|]. intros _. unfold zlen. cbn. rewrite Z.add_0_r. exact Hp. }
  assert (Hz : zlen (c :: chunk) = 1 + zlen chunk) by (unfold zlen; cbn; lia). assert (0 <= zlen chunk) by (unfold zlen; lia).
  destruct (Z.eqb_spec c LF).
  - destruct (process_same p (sse_line p) st) as (ok & p' & st' & E & Es1 & Es2). rewrite E.
    destruct ok; [|exists false, p', st'; split; [reflexivity|discriminate]].
    destruct (IH (t + 1) (with_line p' [] (line_cap p')) st') as (ok & p2 & st2 & E2 & H2); [|lia|lia|].
    { destruct Hp. split; cbn [sse_line line_cap with_line]; rewrite ?Es2; auto; unfold zlen in *; cbn; try lia. }
    exists ok, p2, st2. split; [exact E2|]. rewrite Hz. replace (t + (1 + zlen chunk)) with (t + 1 + zlen chunk) by lia. exact H2.
  - destruct (line_push_ok t p c st Hp ltac:(lia)) as (ok & p' & E & Hp' & _). rewrite E.
    destruct ok; [|exists false, p', st; split; [reflexivity|discriminate]].
    destruct (IH (t + 1) p' st Hp' ltac:(lia) ltac:(lia)) as (ok & p2 & st2 & E2 & H2). exists ok, p2, st2.
    split; [exact E2|]. rewrite Hz. replace (t + (1 + zlen chunk)) with (t + 1 + zlen chunk) by lia. exact H2.
Qed.

Lemma init_ok : line_ok 0 ant_sse_parser_init.
Proof. split; cbn; auto; try lia. unfold zlen. cbn. lia. Qed.

(** The chunks of a stream one after the other; a failed call ends it. *)
Fixpoint feed_all (p : ant_sse_parser_t) (chunks : list (list Z)) (st : St) : sse_outcome (St := St) :=
  match chunks with
  | [] => SseDone true p st
  | c :: chunks => match feed p c st with SseDone true p st => feed_all p chunks st | r => r end
  end.

Lemma feed_all_concat chunks : forall p st, feed_all p chunks st = feed p (concat chunks) st.
Proof.
  induction chunks as [|c chunks IH]; intros p st; cbn [feed_all concat]; [reflexivity|].
  rewrite feed_app. destruct (feed p c st) as [[] p' st'|]; auto.
Qed.

End Feed.

(** ** Formatting *)

Section Formatted.
Context (malloc_ok : Z -> bool) (Hmalloc : forall n, malloc_ok n = true).

Record buf_ok (b : sse_buf) : Prop := {
  bk_null : buf_cap b = 0 -> buf_bytes b = [];
  bk_room : buf_cap b <> 0 -> 64 <= buf_cap b /\ zlen (buf_bytes b) + 1 <= buf_cap b;
  bk_cap : 0 <= buf_cap b <= 64 + 4 * zlen (buf_bytes b) + 4 }.

Lemma grow_to_spec needed fuel : forall c, 0 < c < 2 ^ 63 -> needed < 2 ^ 62 -> needed <= c * 2 ^ Z.of_nat fuel ->
  needed <= grow_to fuel c needed /\ c <= grow_to fuel c needed <= Z.max c (2 * needed).
Proof.
  induction fuel as [|fuel IH]; intros c Hc Hn Hf; cbn [grow_to]; [lia|].
  destruct (Z.ltb_spec c needed); [|lia]. rewrite wrap_small by lia.
  rewrite Nat2Z.inj_succ, Z.pow_succ_r in Hf by lia. specialize (IH (c * 2)). lia.
Qed.

Lemma append_bytes_ok b data : buf_ok b -> zlen (buf_bytes b) + zlen data < 2 ^ 58 ->
  exists b', append_bytes malloc_ok b data = Some (Some b') /\ buf_ok b' /\ buf_bytes b' = buf_bytes b ++ data.
Proof using Hmalloc.
  intros [Hn Hr Hc] Hs. unfold append_bytes.
  assert (H1 : 0 <= zlen (buf_bytes b)) by (unfold zlen; lia). assert (H2 : 0 <= zlen data) by (unfold zlen; lia).
  assert (Hlen : zlen (buf_bytes b ++ data) = zlen (buf_bytes b) + zlen data) by (unfold zlen; rewrite length_app; lia).
  assert (Hz : buf_cap b = 0 -> zlen (buf_bytes b) = 0) by (intros E; rewrite (Hn E); reflexivity).
  set (needed := zlen (buf_bytes b) + zlen data + 1) in *. destruct (Z.ltb_spec (buf_cap b) needed) as [Hg|Hg].
  - set (c0 := if buf_cap b =? 0 then 64 else u64 (buf_cap b * 2)).
    assert (Hc0 : 64 <= c0 < 2 ^ 62 /\ c0 <= Z.max 64 (2 * needed)).
    { unfold c0. destruct (Z.eqb_spec (buf_cap b) 0); [lia|]. rewrite wrap_small by lia. lia. }
    destruct (grow_to_spec needed 64 c0) as [G1 G2]; [lia|lia|change (2 ^ Z.of_nat 64) with (2 ^ 64); lia|].
    cbv zeta. rewrite Hmalloc. destruct (Z.ltb_spec (grow_to 64 c0 needed) needed); [lia|].
    eexists. split; [reflexivity|]. split; [|reflexivity]. split; cbn [buf_bytes buf_cap]; rewrite ?Hlen; lia.
  - destruct (Z.ltb_spec (buf_cap b) needed); [lia|]. eexists. split; [reflexivity|]. split; [|reflexivity].
    split; cbn [buf_bytes buf_cap]; rewrite ?Hlen; lia.
Qed.

Definition line_text (prefix l : list Z) : list Z := prefix ++ str_bytes ": " ++ drop_cr l ++ [LF].
Definition field_text (prefix value : list Z) : list Z := concat (map (line_text prefix) (split_lines (c_str value) [])).

Lemma append_lines_ok prefix lines : forall b, buf_ok b ->
  zlen (buf_bytes b) + zlen (concat (map (line_text prefix) lines)) < 2 ^ 58 ->
  exists b', append_lines malloc_ok b prefix lines = Some (Some b') /\ buf_ok b' /\
    buf_bytes b' = buf_bytes b ++ concat (map (line_text prefix) lines).
Proof using Hmalloc.
  induction lines as [|l lines IH]; intros b Hb Hs; cbn [append_lines map concat].
  { exists b. rewrite app_nil_r. auto. }
  cbn [map concat] in Hs. unfold line_text at 1 in Hs. unfold zlen in Hs. rewrite !length_app in Hs.
  destruct (append_bytes_ok b prefix) as (b1 & E1 & K1 & B1); [assumption|unfold zlen; lia|]. rewrite E1. cbn [bind_buf].
  destruct (append_bytes_ok b1 (str_bytes ": ")) as (b2 & E2 & K2 & B2); [assumption|unfold zlen; rewrite B1, length_app; lia|].
  rewrite E2. cbn [bind_buf].
  destruct (append_bytes_ok b2 (drop_cr l)) as (b3 & E3 & K3 & B3); [assumption|unfold zlen; rewrite B2, B1, !length_app; lia|].
  rewrite E3. cbn [bind_buf].
  destruct (append_bytes_ok b3 [LF]) as (b4 & E4 & K4 & B4); [assumption|unfold zlen; rewrite B3, B2, B1, !length_app; lia|].
  rewrite E4. cbn [bind_buf].
  assert (Hb4 : buf_bytes b4 = buf_bytes b ++ line_text prefix l).
  { rewrite B4, B3, B2, B1. unfold line_text. rewrite <- !app_assoc. reflexivity. }
  destruct (IH b4 K4) as (b' & E & K & B).
  { rewrite Hb4. unfold line_text at 1, zlen. rewrite !length_app. lia. }
  exists b'. splits; auto. rewrite B, Hb4, <- app_assoc. reflexivity.
Qed.

Definition opt_text (prefix : list Z) (value : option (list Z)) : list Z :=
  match value with Some v => field_text prefix v | None => [] end.

Lemma opt_field_ok b prefix v : buf_ok b -> zlen (buf_bytes b) + zlen (opt_text prefix v) < 2 ^ 58 ->
  exists b', opt_field malloc_ok b prefix v = Some (Some b') /\ buf_ok b' /\ buf_bytes b' = buf_bytes b ++ opt_text prefix v.
Proof using Hmalloc.
  intros Hb Hs. destruct v as [v|]; cbn [opt_field opt_text] in *.
  - apply append_lines_ok; auto.
  - exists b. rewrite app_nil_r. auto.
Qed.

(** The text of an event. *)
Definition event_text (data event id retry : option (list Z)) : list Z :=
  opt_text (str_bytes "event") (non_empty event) ++ opt_text (str_bytes "id") id ++
  opt_text (str_bytes "retry") (non_empty retry) ++
  field_text (str_bytes "data") (match data with Some d => d | None => [] end) ++ [LF].

Lemma empty_buf_ok : buf_ok (SseBuf [] 0).
Proof. split; cbn; auto; try lia. unfold zlen. cbn. lia. Qed.

Lemma format_event_ok data event id retry : zlen (event_text data event id retry) < 2 ^ 58 ->
  exists b, ant_sse_format_event malloc_ok data event id retry = Some (Some b) /\
    buf_bytes b = event_text data event id retry.
Proof using Hmalloc.
  intros Hs. unfold event_text, zlen in Hs. rewrite !length_app in Hs. unfold ant_sse_format_event.
  destruct (opt_field_ok (SseBuf [] 0) (str_bytes "event") (non_empty event)) as (b1 & E1 & K1 & B1);
    [apply empty_buf_ok|unfold zlen; cbn [buf_bytes length]; lia|]. rewrite E1. cbn [bind_buf buf_bytes app] in *.
  destruct (opt_field_ok b1 (str_bytes "id") id) as (b2 & E2 & K2 & B2); [assumption|unfold zlen; rewrite B1; lia|].
  rewrite E2. cbn [bind_buf].
  destruct (opt_field_ok b2 (str_bytes "retry") (non_empty retry)) as (b3 & E3 & K3 & B3);
    [assumption|unfold zlen; rewrite B2, B1, !length_app; lia|]. rewrite E3. cbn [bind_buf].
  unfold append_field_lines.
  destruct (append_lines_ok (str_bytes "data") (split_lines (c_str (match data with Some d => d | None => [] end)) []) b3)
    as (b4 & E4 & K4 & B4); [assumption|unfold field_text in Hs; unfold zlen; rewrite B3, B2, B1, !length_app; lia|].
  rewrite E4. cbn [bind_buf].
  destruct (append_bytes_ok b4 [LF]) as (b5 & E5 & K5 & B5).
  { assumption. }
  { unfold field_text in Hs. unfold zlen. rewrite B4, B3, B2, B1, !length_app. lia. }
  exists b5. split; [exact E5|]. rewrite B5, B4, B3, B2, B1. unfold event_text, field_text. rewrite <- !app_assoc. reflexivity.
Qed.

End Formatted.

(** ** Parsing what was formatted *)

(** No NUL, no carriage return, no newline. *)
Definition plain (c : Z) : Prop := c <> 0 /\ c <> CR /\ c <> LF.

Lemma last_in {A} (l : list A) x : last l = Some x -> In x l.
Proof. intros H. apply last_Some in H as [l' ->]. apply in_app_iff. right. left. reflexivity. Qed.

Lemma drop_cr_id l : Forall (fun c => c <> CR) l -> drop_cr l = l.
Proof.
  intros H. unfold drop_cr. destruct (last l) as [c|] eqn:E; [|reflexivity]. apply last_in in E.
  rewrite List.Forall_forall in H. destruct (Z.eqb_spec c CR); [|reflexivity]. destruct (H c E). assumption.
Qed.

Section Parsed.
Context (malloc_ok : Z -> bool) (Hmalloc : forall n, malloc_ok n = true).
Context {St : Type} (cb : ant_sse_message_t -> St -> bool * St).
Abbreviation feed := (ant_sse_parser_feed malloc_ok cb).

(** The parser at the start of a line, after [t] bytes: [q] up to the buffer. *)
Definition at_line (t : Z) (q p : ant_sse_parser_t) : Prop := exists c, p = with_line q [] c /\ line_ok t p.

Lemma feed_text l : Forall (fun c => c <> LF) l -> forall t q ln c st, line_ok t (with_line q ln c) -> 0 <= t -> t + zlen l < 2 ^ 60 ->
  exists c', feed (with_line q ln c) l st = SseDone true (with_line q (ln ++ l) c') st /\ line_ok (t + zlen l) (with_line q (ln ++ l) c').
Proof using Hmalloc.
  induction 1 as [|x l Hx Hl IH]; intros t q ln c st Hp Ht Hs; cbn [ant_sse_parser_feed].
  { exists c. rewrite app_nil_r. unfold zlen. cbn. rewrite Z.add_0_r. auto. }
  assert (Hz : zlen (x :: l) = 1 + zlen l) by (unfold zlen; cbn; lia). assert (0 <= zlen l) by (unfold zlen; lia).
  destruct (Z.eqb_spec x LF); [contradiction|].
  destruct (line_push_ok malloc_ok t (with_line q ln c) x st Hp ltac:(lia)) as (ok & p' & E & Hp' & Hf & Htr). rewrite E.
  destruct ok; [|destruct (Hf eq_refl) as [m Hm]; rewrite Hmalloc in Hm; discriminate].
  destruct (Htr eq_refl) as [c1 ->]. cbn [sse_line with_line] in *.
  change (with_line (with_line q ln c) (ln ++ [x]) c1) with (with_line q (ln ++ [x]) c1) in *.
  destruct (IH (t + 1) q (ln ++ [x]) c1 st Hp' ltac:(lia) ltac:(lia)) as (c' & E' & H').
  exists c'. rewrite <- app_assoc in E', H'. cbn [app] in E', H'. split; [exact E'|]. rewrite Hz.
  replace (t + (1 + zlen l)) with (t + 1 + zlen l) by lia. exact H'.
Qed.

(** A whole line. *)
Lemma feed_line l t q q' p st : at_line t q p -> Forall (fun c => c <> LF) l -> 0 <= t -> t + zlen l + 1 < 2 ^ 60 ->
  (forall c, parser_process_line malloc_ok cb (with_line q l c) l st = SseDone true (with_line q' l c) st) ->
  exists p', feed p (l ++ [LF]) st = SseDone true p' st /\ at_line (t + zlen l + 1) q' p'.
Proof using Hmalloc.
  intros (c & -> & Hp) Hl Ht Hs Hline. rewrite feed_app.
  destruct (feed_text l Hl t q [] c st Hp Ht ltac:(lia)) as (c' & E & Hp'). cbn [app] in *. rewrite E.
  cbn [ant_sse_parser_feed]. rewrite Z.eqb_refl. cbn [sse_line with_line]. rewrite Hline.
  eexists. split; [reflexivity|]. exists c'. split; [reflexivity|].
  destruct Hp' as [H1 H2 H3 H4]. cbn [sse_line line_cap with_line] in *.
  split; cbn [sse_line line_cap with_line]; auto; try lia.
  - unfold zlen in *. cbn. lia.
  - intros H. destruct (H4 H). unfold zlen in *. cbn. lia.
Qed.

Lemma set_string_ok v : set_string malloc_ok v = Some v.
Proof using Hmalloc. unfold set_string. rewrite Hmalloc. reflexivity. Qed.

Definition data_bytes (q : ant_sse_parser_t) : list Z := match sse_data q with Some d => c_str d | None => [] end.

Lemma index_of_app c l r : Forall (fun x => x <> c) l -> index_of c (l ++ c :: r) = Some (length l).
Proof using Type.
  induction 1 as [|x l Hx Hl IH]; cbn; [rewrite Z.eqb_refl; reflexivity|].
  destruct (Z.eqb_spec x c); [contradiction|]. rewrite IH. reflexivity.
Qed.

Lemma index_of_none c l : Forall (fun x => x <> c) l -> index_of c l = None.
Proof using Type.
  induction 1 as [|x l Hx Hl IH]; cbn; [reflexivity|]. destruct (Z.eqb_spec x c); [contradiction|]. rewrite IH. reflexivity.
Qed.

(** Field names of the formatter. *)
Definition name_ok (name : list Z) : Prop := name <> [] /\ Forall (fun c => plain c /\ c <> COLON) name.

(** A formatted line names its field. *)
Lemma process_named p name v st : name_ok name -> Forall plain v ->
  parser_process_line malloc_ok cb p (name ++ str_bytes ": " ++ v) st = process_field malloc_ok p name v st.
Proof using Type.
  intros [Hne Hn] Hv. change (str_bytes ": " ++ v) with (COLON :: SPACE :: v). unfold parser_process_line. rewrite drop_cr_id.
  2: { apply Forall_app. split; [|repeat constructor; try discriminate].
       - eapply Forall_impl; [exact Hn|]. intros x ((_ & H & _) & _). exact H.
       - eapply Forall_impl; [exact Hv|]. intros x (_ & H & _). exact H. }
  assert (Hcol : Forall (fun c => c <> COLON) name) by (eapply Forall_impl; [exact Hn|]; intros x [_ H]; exact H).
  rewrite index_of_app by exact Hcol. rewrite take_app_length.
  replace (drop (length name + 1) (name ++ COLON :: SPACE :: v)) with (SPACE :: v).
  2: { rewrite drop_app_ge by lia. replace (length name + 1 - length name)%nat with 1%nat by lia. reflexivity. }
  rewrite Z.eqb_refl. destruct name as [|x name]; [contradiction|]. inversion Hcol; subst.
  cbn [length app rd nth]. destruct (Nat.eqb_spec (S (length (name ++ COLON :: SPACE :: v))) 0); [discriminate|].
  destruct (Z.eqb_spec x COLON); [contradiction|]. reflexivity.
Qed.

(** One formatted line. *)
Lemma feed_field name v t q q' p st : at_line t q p -> name_ok name -> Forall plain v -> 0 <= t ->
  t + zlen (line_text name v) < 2 ^ 60 ->
  (forall l c, process_field malloc_ok (with_line q l c) name v st = SseDone true (with_line q' l c) st) ->
  exists p', feed p (line_text name v) st = SseDone true p' st /\ at_line (t + zlen (line_text name v)) q' p'.
Proof using Hmalloc.
  intros Hp Hn Hv Ht Hs Hf. unfold line_text in *. rewrite drop_cr_id in *.
  2, 3: (eapply Forall_impl; [exact Hv|]; intros x (_ & H & _); exact H).
  assert (El : name ++ str_bytes ": " ++ v ++ [LF] = (name ++ str_bytes ": " ++ v) ++ [LF]) by (rewrite <- !app_assoc; reflexivity).
  rewrite El in *. set (l := name ++ str_bytes ": " ++ v) in *.
  assert (Hz : zlen (l ++ [LF]) = zlen l + 1) by (unfold zlen; rewrite length_app; cbn; lia). rewrite Hz in *.
  replace (t + (zlen l + 1)) with (t + zlen l + 1) by lia.
  apply (feed_line l t q q' p st); auto; [|lia|].
  - unfold l. apply Forall_app. split; [|repeat constructor; try discriminate].
    + eapply Forall_impl; [exact (proj2 Hn)|]. intros x ((_ & _ & H) & _). exact H.
    + eapply Forall_impl; [exact Hv|]. intros x (_ & _ & H). exact H.
  - intros c. unfold l at 2. rewrite process_named by auto. apply Hf.
Qed.

(** The effect of each field. *)
Lemma field_data p v (st : St) : process_field malloc_ok p (str_bytes "data") v st =
  SseDone true (with_data p (Some (data_bytes p ++ v ++ [LF]))) st.
Proof using Hmalloc. unfold process_field, append_data_field. rewrite Hmalloc. reflexivity. Qed.
Lemma field_event p v (st : St) : process_field malloc_ok p (str_bytes "event") v st = SseDone true (with_event p (Some v)) st.
Proof using Hmalloc. unfold process_field. rewrite set_string_ok. reflexivity. Qed.
Lemma field_id p v (st : St) : Forall plain v -> process_field malloc_ok p (str_bytes "id") v st = SseDone true (with_id p (Some v)) st.
Proof using Hmalloc.
  intros Hv. unfold process_field. rewrite set_string_ok, index_of_none; [reflexivity|].
  eapply Forall_impl; [exact Hv|]. intros x (H & _). exact H.
Qed.
Lemma field_retry p v (st : St) : process_field malloc_ok p (str_bytes "retry") v st =
  SseDone true (match parse_retry v with Some r => with_retry p r | None => p end) st.
Proof using Type. reflexivity. Qed.

(** The lines of the data field pile up. *)
Definition data_text (ls : list (list Z)) : list Z := concat (map (fun l => l ++ [LF]) ls).

Lemma feed_data ls : forall t q p st, at_line t q p -> Forall (Forall plain) ls -> 0 <= t ->
  t + zlen (concat (map (line_text (str_bytes "data")) ls)) < 2 ^ 60 -> Forall (fun c => c <> 0) (data_bytes q) -> ls <> [] ->
  exists p', feed p (concat (map (line_text (str_bytes "data")) ls)) st = SseDone true p' st /\
    at_line (t + zlen (concat (map (line_text (str_bytes "data")) ls))) (with_data q (Some (data_bytes q ++ data_text ls))) p'.
Proof using Hmalloc.
  induction ls as [|l ls IH]; intros t q p st Hp Hls Ht Hs Hq Hne; [contradiction|]. inversion Hls as [|? ? Hl Hls']; subst.
  cbn [map concat] in *. set (tail := concat (map (line_text (str_bytes "data")) ls)) in *.
  assert (Hz : zlen (line_text (str_bytes "data") l ++ tail) = zlen (line_text (str_bytes "data") l) + zlen tail)
    by (unfold zlen; rewrite length_app; lia). rewrite Hz in *. assert (0 <= zlen tail) by (unfold zlen; lia).
  assert (H0 : 0 <= zlen (line_text (str_bytes "data") l)) by (unfold zlen; lia).
  set (q1 := with_data q (Some (data_bytes q ++ l ++ [LF]))).
  destruct (feed_field (str_bytes "data") l t q q1 p st Hp) as (p1 & E1 & H1); auto; [|lia|intros; apply field_data|].
  { split; [discriminate|]. repeat constructor; discriminate. }
  rewrite feed_app, E1.
  assert (Hb1 : data_bytes q1 = data_bytes q ++ l ++ [LF]).
  { apply c_str_id. rewrite !Forall_app. split; [exact Hq|]. split; [|repeat constructor; discriminate].
    eapply Forall_impl; [exact Hl|]. intros x (Hx & _). exact Hx. }
  destruct ls as [|l2 ls].
  - exists p1. cbn [tail map concat ant_sse_parser_feed]. split; [reflexivity|].
    unfold data_text. cbn [map concat]. rewrite app_nil_r. change (zlen tail) with 0. rewrite Z.add_0_r. exact H1.
  - destruct (IH _ q1 p1 st H1 Hls' ltac:(lia)) as (p2 & E2 & H2); [lia| |discriminate|].
    { rewrite Hb1, !Forall_app. split; [exact Hq|]. split; [|repeat constructor; discriminate].
      eapply Forall_impl; [exact Hl|]. intros x (H' & _). exact H'. }
    exists p2. split; [exact E2|]. rewrite Hb1, <- app_assoc in H2.
    unfold data_text at 1. cbn [map concat]. fold (data_text (l2 :: ls)). rewrite <- app_assoc in H2 |- *.
    replace (t + (zlen (line_text (str_bytes "data") l) + zlen tail)) with (t + zlen (line_text (str_bytes "data") l) + zlen tail) by lia.
    exact H2.
Qed.

End Parsed.

Lemma split_lines_text s : forall cur, data_text (split_lines s cur) =
  cur ++ s ++ (if decide (last s = Some LF) then [] else [LF]).
Proof.
  induction s as [|c s IH]; intros cur; cbn [split_lines].
  { unfold data_text. cbn. rewrite decide_False by discriminate. rewrite app_nil_r. reflexivity. }
  destruct (Z.eqb_spec c LF) as [->|Hc].
  - unfold data_text. cbn [map concat]. destruct s as [|c2 s].
    + rewrite decide_True by reflexivity. cbn. rewrite app_nil_r. reflexivity.
    + fold (data_text (split_lines (c2 :: s) [])). rewrite IH. cbn [app]. rewrite <- app_assoc. cbn [app].
      change (last (LF :: c2 :: s)) with (last (c2 :: s)). reflexivity.
  - rewrite IH, <- app_assoc. cbn [app]. do 2 f_equal. destruct s as [|c2 s]; [|reflexivity].
    rewrite decide_False by discriminate. rewrite decide_False; [reflexivity|]. cbn. congruence.
Qed.

Lemma split_lines_plain s : Forall (fun c => c <> 0 /\ c <> CR) s -> forall cur, Forall plain cur -> Forall (Forall plain) (split_lines s cur).
Proof.
  induction 1 as [|c s [H0 H1] Hs IH]; intros cur Hcur; cbn [split_lines]; [repeat constructor; auto|].
  destruct (Z.eqb_spec c LF).
  - constructor; [exact Hcur|]. destruct s; [constructor|]. apply IH. constructor.
  - apply IH. apply Forall_app. split; [exact Hcur|]. repeat constructor; auto.
Qed.

Lemma split_lines_ne s cur : split_lines s cur <> [].
Proof. revert cur. induction s as [|c s IH]; intros cur; cbn; [discriminate|]. case_if; [discriminate|apply IH]. Qed.

Lemma split_lines_one s : Forall plain s -> forall cur, split_lines s cur = [cur ++ s].
Proof.
  induction 1 as [|c s (_ & _ & Hc) Hs IH]; intros cur; cbn [split_lines]; [rewrite app_nil_r; reflexivity|].
  destruct (Z.eqb_spec c LF); [contradiction|]. rewrite IH, <- app_assoc. reflexivity.
Qed.

Lemma strip_lf_snoc s : strip_lf (s ++ [LF]) = s.
Proof. unfold strip_lf. rewrite last_snoc, Z.eqb_refl. apply removelast_last. Qed.

Lemma strip_lf_text s : strip_lf (data_text (split_lines s [])) = strip_lf s.
Proof.
  rewrite split_lines_text. cbn [app]. destruct (decide (last s = Some LF)) as [H|H]; [rewrite app_nil_r; reflexivity|].
  rewrite strip_lf_snoc. unfold strip_lf. destruct (last s) as [c|]; [|reflexivity].
  destruct (Z.eqb_spec c LF); [congruence|reflexivity].
Qed.

(** ** A stream of events *)

(** The arguments of one call of the formatter, and the ones it can carry: the
    other fields are single lines. *)
Record sse_event_args := SseEvent { ev_data : list Z; ev_event : option (list Z); ev_id : option (list Z); ev_retry : option (list Z) }.

Definition opt_plain (v : option (list Z)) : Prop := match v with Some v => Forall plain v | None => True end.
Record event_ok (e : sse_event_args) : Prop := {
  eo_data : Forall (fun c => c <> 0 /\ c <> CR) (ev_data e);
  eo_event : opt_plain (ev_event e); eo_id : opt_plain (ev_id e); eo_retry : opt_plain (ev_retry e) }.

Definition text_of (e : sse_event_args) : list Z := event_text (Some (ev_data e)) (ev_event e) (ev_id e) (ev_retry e).

(** The reconnection time after the event: a valid [retry] replaces it. *)
Definition retry_after (r : Z * bool) (e : sse_event_args) : Z * bool :=
  match non_empty (ev_retry e) with
  | Some v => match parse_retry v with Some n => (n, true) | None => r end
  | None => r
  end.
Definition message_of (r : Z * bool) (e : sse_event_args) : ant_sse_message_t :=
  SseMessage (strip_lf (ev_data e)) (non_empty (ev_event e)) (ev_id e) (fst (retry_after r e)) (snd (retry_after r e)).
Fixpoint messages_of (r : Z * bool) (es : list sse_event_args) : list ant_sse_message_t :=
  match es with [] => [] | e :: es => message_of r e :: messages_of (retry_after r e) es end.

(** The parser between two events. *)
Definition idle (last : option (list Z)) (r : Z * bool) : ant_sse_parser_t := SseParser [] 0 None None None last (fst r) (snd r).
Definition last_after (last : option (list Z)) (e : sse_event_args) : option (list Z) :=
  match ev_id e with Some i => Some i | None => last end.

Lemma plain_no_nul v : Forall plain v -> Forall (fun c => c <> 0) v.
Proof. intros H. eapply Forall_impl; [exact H|]. intros x (Hx & _). exact Hx. Qed.

Lemma plain_c_str v : opt_plain v -> option_map c_str v = v.
Proof. destruct v as [v|]; cbn; [|reflexivity]. intros H. rewrite c_str_id by (apply plain_no_nul, H). reflexivity. Qed.

Lemma non_empty_plain v : opt_plain v -> opt_plain (non_empty v).
Proof. destruct v as [v|]; cbn; [|auto]. intros H. case_if; cbn; auto. Qed.

Lemma text_nonzero ls : Forall (Forall plain) ls -> Forall (fun c => c <> 0) (data_text ls).
Proof.
  induction 1 as [|l ls Hl Hls IH]; unfold data_text; cbn [map concat]; [constructor|].
  rewrite !Forall_app. splits; [apply plain_no_nul, Hl|repeat constructor; discriminate|exact IH].
Qed.

Section Stream.
Context (malloc_ok : Z -> bool) (Hmalloc : forall n, malloc_ok n = true).
Context {St : Type} (cb : ant_sse_message_t -> St -> bool * St).
Abbreviation feed := (ant_sse_parser_feed malloc_ok cb).

(** A field that may be missing. *)
Lemma feed_opt name v t q q' p st : at_line t q p -> name_ok name -> opt_plain v -> 0 <= t ->
  t + zlen (opt_text name v) < 2 ^ 60 ->
  match v with
  | Some v => forall l c, process_field malloc_ok (with_line q l c) name v st = SseDone true (with_line q' l c) st
  | None => q' = q
  end ->
  exists p', feed p (opt_text name v) st = SseDone true p' st /\ at_line (t + zlen (opt_text name v)) q' p'.
Proof using Hmalloc.
  destruct v as [v|]; cbn [opt_text opt_plain]; intros Hp Hn Hv Ht Hs Hf.
  - unfold field_text in *. rewrite c_str_id in * by (apply plain_no_nul, Hv). rewrite (split_lines_one v Hv []) in *.
    cbn [app map concat] in *. rewrite app_nil_r in *. apply (feed_field malloc_ok Hmalloc cb name v t q q' p st); auto.
  - subst q'. exists p. split; [reflexivity|]. change (zlen []) with 0. rewrite Z.add_0_r. exact Hp.
Qed.

(** The empty line hands the event over. *)
Lemma feed_dispatch d t q p st : at_line t q p -> sse_data q = Some d -> 0 <= t < 2 ^ 59 ->
  let m := SseMessage (strip_lf (c_str d)) (option_map c_str (sse_event q)) (option_map c_str (sse_id q)) (sse_retry q) (has_retry q) in
  exists p', feed p [LF] st = SseDone (fst (cb m st)) p' (snd (cb m st)) /\
    (fst (cb m st) = true -> at_line (t + 1)
       (parser_reset_event (match sse_id q with Some i => with_last_id q (Some (c_str i)) | None => q end)) p').
Proof using Hmalloc.
  intros (c & -> & Hp) Hd Ht m. cbn [ant_sse_parser_feed]. rewrite Z.eqb_refl.
  unfold parser_process_line. cbn [sse_line with_line drop_cr last length Nat.eqb].
  unfold dispatch_event. cbn [sse_data with_line]. rewrite Hd. cbn [sse_id with_data with_line sse_event sse_retry has_retry]. fold m.
  assert (Hl : line_ok (t + 1) (with_line q [] c)) by (destruct Hp; split; auto; lia).
  destruct (sse_id q) as [i|].
  - rewrite set_string_ok by assumption. cbn [option_map]. destruct (cb m st) as [[] st']; cbn [fst snd].
    + eexists. split; [reflexivity|]. intros _. exists c. split; [reflexivity|]. destruct Hl; split; auto.
    + eexists. split; [reflexivity|discriminate].
  - destruct (cb m st) as [[] st']; cbn [fst snd].
    + eexists. split; [reflexivity|]. intros _. exists c. split; [reflexivity|]. destruct Hl; split; auto.
    + eexists. split; [reflexivity|discriminate].
Qed.

(** The fields before the data. *)
Definition before_data (last : option (list Z)) (r : Z * bool) (e : sse_event_args) : ant_sse_parser_t :=
  SseParser [] 0 None (non_empty (ev_event e)) (ev_id e) last (fst (retry_after r e)) (snd (retry_after r e)).

Lemma feed_head last r e t p st : at_line t (idle last r) p -> event_ok e -> 0 <= t ->
  let s := opt_text (str_bytes "event") (non_empty (ev_event e)) ++ opt_text (str_bytes "id") (ev_id e) ++
           opt_text (str_bytes "retry") (non_empty (ev_retry e)) in
  t + zlen s < 2 ^ 60 ->
  exists p', feed p s st = SseDone true p' st /\ at_line (t + zlen s) (before_data last r e) p'.
Proof using Hmalloc.
  intros Hp [_ He Hi Hr] Ht s Hs. apply non_empty_plain in He, Hr. unfold s in *. clear s. unfold zlen in Hs. rewrite !length_app in Hs.
  destruct (feed_opt (str_bytes "event") (non_empty (ev_event e)) t _ (with_event (idle last r) (non_empty (ev_event e))) p st Hp)
    as (p1 & E1 & H1); [split; [discriminate|repeat constructor; discriminate]|exact He|exact Ht|unfold zlen; lia| |].
  { destruct (non_empty (ev_event e)); [|reflexivity]. intros. rewrite field_event by assumption. reflexivity. }
  rewrite feed_app, E1.
  destruct (feed_opt (str_bytes "id") (ev_id e) _ _ (with_id (with_event (idle last r) (non_empty (ev_event e))) (ev_id e)) p1 st H1)
    as (p2 & E2 & H2); [split; [discriminate|repeat constructor; discriminate]|exact Hi|unfold zlen; lia|unfold zlen; lia| |].
  { destruct (ev_id e); [|reflexivity]. intros. rewrite field_id by assumption. reflexivity. }
  rewrite feed_app, E2.
  destruct (feed_opt (str_bytes "retry") (non_empty (ev_retry e)) _ _ (before_data last r e) p2 st H2)
    as (p3 & E3 & H3); [split; [discriminate|repeat constructor; discriminate]|exact Hr|unfold zlen; lia|unfold zlen; lia| |].
  { unfold before_data, retry_after. destruct (non_empty (ev_retry e)) as [v|]; [|reflexivity].
    intros. rewrite field_retry. destruct (parse_retry v); reflexivity. }
  exists p3. split; [exact E3|]. unfold zlen in *. rewrite !length_app.
  replace (t + Z.of_nat _) with (t + Z.of_nat (length (opt_text (str_bytes "event") (non_empty (ev_event e)))) +
    Z.of_nat (length (opt_text (str_bytes "id") (ev_id e))) + Z.of_nat (length (opt_text (str_bytes "retry") (non_empty (ev_retry e))))) by lia.
  exact H3.
Qed.

(** One formatted event is one message. *)
Lemma feed_event last r e t p st : at_line t (idle last r) p -> event_ok e -> 0 <= t -> t + zlen (text_of e) < 2 ^ 59 ->
  exists p', feed p (text_of e) st = SseDone (fst (cb (message_of r e) st)) p' (snd (cb (message_of r e) st)) /\
    (fst (cb (message_of r e) st) = true -> at_line (t + zlen (text_of e)) (idle (last_after last e) (retry_after r e)) p').
Proof using Hmalloc.
  intros Hp He Ht Hs.
  set (h := opt_text (str_bytes "event") (non_empty (ev_event e)) ++ opt_text (str_bytes "id") (ev_id e) ++
            opt_text (str_bytes "retry") (non_empty (ev_retry e))).
  assert (Htext : text_of e = h ++ field_text (str_bytes "data") (ev_data e) ++ [LF])
    by (unfold text_of, event_text, h; rewrite <- !app_assoc; reflexivity).
  rewrite Htext in *. clear Htext.
  assert (Hnul : Forall (fun c => c <> 0) (ev_data e)) by (eapply Forall_impl; [exact (eo_data e He)|]; intros x [Hx _]; exact Hx).
  set (ls := split_lines (ev_data e) []).
  assert (Hls : Forall (Forall plain) ls) by (apply split_lines_plain; [exact (eo_data e He)|constructor]).
  set (d := concat (map (line_text (str_bytes "data")) ls)).
  replace (field_text (str_bytes "data") (ev_data e)) with d in * by (unfold field_text, d, ls; rewrite c_str_id by exact Hnul; reflexivity).
  unfold zlen in Hs. rewrite !length_app in Hs. cbn [length] in Hs.
  destruct (feed_head last r e t p st Hp He Ht) as (p1 & E1 & H1); [fold h; unfold zlen; lia|]. fold h in E1, H1.
  destruct (feed_data malloc_ok Hmalloc cb ls (t + zlen h) (before_data last r e) p1 st H1 Hls) as (p2 & E2 & H2);
    [unfold zlen; lia|fold d; unfold zlen; lia|constructor|apply split_lines_ne|]. fold d in E2, H2.
  destruct (feed_dispatch (data_text ls) _ _ p2 st H2 eq_refl) as (p3 & E3 & H3); [unfold zlen; lia|].
  cbn [with_data before_data sse_event sse_id sse_retry has_retry data_bytes sse_data app] in E3, H3.
  rewrite c_str_id in E3, H3 by (apply text_nonzero, Hls). unfold ls in E3, H3. rewrite strip_lf_text in E3, H3.
  rewrite !plain_c_str in E3, H3 by (try apply non_empty_plain; destruct He; assumption). fold (message_of r e) in E3, H3.
  rewrite feed_app, E1, feed_app, E2. exists p3. split; [exact E3|]. intros Hok. specialize (H3 Hok).
  replace (t + zlen (h ++ d ++ [LF])) with (t + zlen h + zlen d + 1) by (unfold zlen; rewrite !length_app; cbn; lia).
  destruct H3 as (c & Ep & Hl). exists c. split; [|exact Hl]. rewrite Ep. unfold last_after.
  destruct e as [dt ev [i|] rt]; [|reflexivity]. cbn. cbn in Ep.
  rewrite c_str_id by (apply plain_no_nul, (eo_id _ He)). reflexivity.
Qed.

End Stream.

(** A callback that keeps every message. *)
Definition collect (m : ant_sse_message_t) (ms : list ant_sse_message_t) : bool * list ant_sse_message_t := (true, ms ++ [m]).

Lemma feed_events malloc_ok es : (forall n, malloc_ok n = true) -> forall last r t p ms, at_line t (idle last r) p ->
  Forall event_ok es -> 0 <= t -> t + zlen (concat (map text_of es)) < 2 ^ 59 ->
  exists p', ant_sse_parser_feed malloc_ok collect p (concat (map text_of es)) ms = SseDone true p' (ms ++ messages_of r es).
Proof.
  intros Hm. induction es as [|e es IH]; intros last r t p ms Hp Hes Ht Hs; cbn [map concat messages_of].
  { exists p. rewrite app_nil_r. reflexivity. }
  inversion Hes as [|? ? He Hes']; subst. cbn [map concat] in Hs. unfold zlen in Hs. rewrite length_app in Hs.
  destruct (feed_event malloc_ok Hm collect last r e t p ms Hp He Ht) as (p1 & E1 & H1); [unfold zlen; lia|].
  rewrite feed_app, E1. cbn [collect fst snd] in *.
  destruct (IH _ _ _ p1 (ms ++ [message_of r e]) (H1 eq_refl) Hes') as (p2 & E2); [unfold zlen; lia|unfold zlen; lia|].
  exists p2. rewrite E2, <- app_assoc. reflexivity.
Qed.

Lemma format_events malloc_ok es : (forall n, malloc_ok n = true) -> zlen (concat (map text_of es)) < 2 ^ 58 ->
  exists bufs, Forall2 (fun e b => ant_sse_format_event malloc_ok (Some (ev_data e)) (ev_event e) (ev_id e) (ev_retry e) = Some (Some b)) es bufs /\
    concat (map buf_bytes bufs) = concat (map text_of es).
Proof.
  intros Hm. induction es as [|e es IH]; cbn [map concat]; intros Hs; [exists []; split; constructor|].
  unfold zlen in Hs. rewrite length_app in Hs. destruct IH as (bufs & H1 & H2); [unfold zlen; lia|].
  destruct (format_event_ok malloc_ok Hm (Some (ev_data e)) (ev_event e) (ev_id e) (ev_retry e)) as (b & E & B).
  { fold (text_of e). unfold zlen. lia. }
  exists (b :: bufs). split; [constructor; assumption|]. cbn [map concat]. rewrite B, H2. reflexivity.
Qed.

(** ** The reconnection time *)

Lemma parse_retry_loop_spec s : forall a n, 0 <= a < 2 ^ 32 ->
  parse_retry_loop s a = Some n <-> Forall digit s /\ n = dec_value s a /\ n < 2 ^ 32.
Proof.
  induction s as [|c s IH]; intros a n Ha; cbn [parse_retry_loop].
  { unfold dec_value. cbn. split; [intros [= ->]; splits; auto; lia|intros (_ & -> & _); reflexivity]. }
  destruct (Z.ltb_spec c 48); cbn [orb]; [split; [discriminate|intros (H' & _); inversion H'; unfold digit in *; lia]|].
  destruct (Z.ltb_spec 57 c); [split; [discriminate|intros (H' & _); inversion H'; unfold digit in *; lia]|].
  destruct (Z.ltb_spec ((2 ^ 32 - 1 - (c - 48)) / 10) a) as [Hov|Hov].
  - split; [discriminate|]. intros (Hd & -> & Hn). inversion Hd as [|? ? _ Hd']; subst.
    pose proof (dec_value_ge s Hd' (10 * a + (c - 48)) ltac:(lia)) as Hge. unfold dec_value in *. cbn [fold_left] in Hn.
    pose proof (Z.div_mod (2 ^ 32 - 1 - (c - 48)) 10 ltac:(lia)). pose proof (Z.mod_pos_bound (2 ^ 32 - 1 - (c - 48)) 10 ltac:(lia)). lia.
  - pose proof (Z.div_mod (2 ^ 32 - 1 - (c - 48)) 10 ltac:(lia)). pose proof (Z.mod_pos_bound (2 ^ 32 - 1 - (c - 48)) 10 ltac:(lia)).
    rewrite (wrap_small 32 (a * 10)), wrap_small by lia. rewrite IH by lia. unfold dec_value. cbn [fold_left].
    replace (a * 10 + (c - 48)) with (10 * a + (c - 48)) by lia.
    split; intros (Hd & Hn); (split; [|exact Hn]); [constructor; [unfold digit; lia|exact Hd]|inversion Hd; assumption].
Qed.

(** ** Theorems *)

(** For the parser the boundaries of the chunks do not exist: feeding the
    chunks of a stream one call after the other, stopping at the first failure,
    ends with the same result, the same parser and the same callback state as
    one call with all the bytes; and whatever allocation is refused and
    whatever the callback answers, no call writes outside the line buffer. *)
Theorem sse_chunking malloc_ok {St} (cb : ant_sse_message_t -> St -> bool * St) chunks st :
  zlen (concat chunks) < 2 ^ 60 ->
  exists ok p st', feed_all malloc_ok cb ant_sse_parser_init chunks st = SseDone ok p st' /\
    ant_sse_parser_feed malloc_ok cb ant_sse_parser_init (concat chunks) st = SseDone ok p st'.
Proof.
  intros Hs. destruct (feed_safe malloc_ok cb (concat chunks) 0 ant_sse_parser_init st init_ok) as (ok & p & st' & E & _); [lia|lia|].
  exists ok, p, st'. rewrite feed_all_concat. auto.
Qed.

Lemma sse_chunking_witness : exists ok p st',
  feed_all (fun n => n <? 100) collect ant_sse_parser_init [str_bytes "da"; str_bytes "ta: x"; [13; 10; 10]] [] = SseDone ok p st' /\
  ant_sse_parser_feed (fun n => n <? 100) collect ant_sse_parser_init (str_bytes "data: x" ++ [13; 10; 10]) [] = SseDone ok p st'.
Proof.
  apply (sse_chunking (fun n => n <? 100) collect [str_bytes "da"; str_bytes "ta: x"; [13; 10; 10]] []). reflexivity.
Defined.

(** C36: with memory to hand, what the formatter writes the parser reads back.
    For events whose data has no NUL and no carriage return and whose other
    fields are single lines, every call of the formatter succeeds, and the
    bytes it wrote, one event after the other and cut into chunks anywhere,
    reach the callback as exactly one message per event, in order: the data
    without one final newline, the event name unless it is empty, the id, and
    the reconnection time last set by a valid decimal number. *)
Theorem sse_stream_roundtrip malloc_ok es :
  (forall n, malloc_ok n = true) -> Forall event_ok es -> zlen (concat (map text_of es)) < 2 ^ 58 ->
  exists bufs,
    Forall2 (fun e b => ant_sse_format_event malloc_ok (Some (ev_data e)) (ev_event e) (ev_id e) (ev_retry e) = Some (Some b)) es bufs /\
    forall chunks, concat chunks = concat (map buf_bytes bufs) ->
      exists p, feed_all malloc_ok collect ant_sse_parser_init chunks [] = SseDone true p (messages_of (0, false) es).
Proof.
  intros Hm Hes Hs. destruct (format_events malloc_ok es Hm Hs) as (bufs & Hf & Hb). exists bufs. split; [exact Hf|].
  intros chunks Hc. rewrite feed_all_concat, Hc, Hb.
  apply (feed_events malloc_ok es Hm None (0, false) 0 ant_sse_parser_init []); auto; [|lia|lia].
  exists 0. split; [reflexivity|apply init_ok].
Qed.

Lemma sse_stream_roundtrip_witness :
  let es := [SseEvent (str_bytes "one" ++ [10] ++ str_bytes "two") (Some (str_bytes "tick")) None (Some (str_bytes "1500"));
             SseEvent [] None (Some (str_bytes "7")) None] in
  exists bufs,
    Forall2 (fun e b => ant_sse_format_event (fun _ => true) (Some (ev_data e)) (ev_event e) (ev_id e) (ev_retry e) = Some (Some b)) es bufs /\
    forall chunks, concat chunks = concat (map buf_bytes bufs) ->
      exists p, feed_all (fun _ => true) collect ant_sse_parser_init chunks [] = SseDone true p
        [SseMessage (str_bytes "one" ++ [10] ++ str_bytes "two") (Some (str_bytes "tick")) None 1500 true;
         SseMessage [] None (Some (str_bytes "7")) 1500 true].
Proof.
  intros es. apply (sse_stream_roundtrip (fun _ => true) es); [reflexivity| |reflexivity].
  repeat constructor; discriminate.
Defined.

(** The reconnection time is read exactly: a value is accepted if and only
    if it is a non-empty run of decimal digits whose number fits 32 bits, and
    then the number is its value; no longer run of digits wraps around. *)
Theorem sse_retry_exact value n :
  parse_retry value = Some n <-> value <> [] /\ Forall digit value /\ n = dec_value value 0 /\ n < 2 ^ 32.
Proof.
  unfold parse_retry. destruct value as [|c s]; cbn [length Nat.eqb].
  - split; [discriminate|intros [H _]; contradiction].
  - change (S (length s) =? 0)%nat with false. cbv iota. rewrite parse_retry_loop_spec by lia. split; [intros H; split; [discriminate|exact H]|intros [_ H]; exact H].
Qed.
