(* ===== verification/Pool.v ===== *)
(** * Block pools

    [src/src/pool.c] and [src/include/pool.h]: memory for bigints, symbols and
    strings is cut from blocks that the operating system maps.  A block is the
    address of its data with its fill level and capacity; the chains threaded
    through the block headers and through free memory are lists.  [mem] is the
    list of the mapped regions (address, size); [os_alloc] stands for the
    mapping call, with what the pools rely on as laws. *)

From S2P Require Import Prelude.

Abbreviation mem := (list (Z * Z)).

Definition disj (r1 r2 : Z * Z) : Prop := r1.1 + r1.2 <= r2.1 \/ r2.1 + r2.2 <= r1.1.

(** [mmap]: a new mapping is page-aligned, inside the 47-bit address space and
    apart from every other; [None] when the system refuses. *)
Class OsMap := {
  os_alloc : mem -> Z -> option Z;
  os_alloc_fresh : forall m n a, 0 < n -> os_alloc m n = Some a ->
    0 < a /\ a mod 4096 = 0 /\ a + n <= 2 ^ 47 /\ Forall (disj (a, n)) m }.

(** ** Sizes *)

Definition g_size_classes : list Z :=
  [16; 24; 32; 40; 48; 56; 64; 80; 96; 112; 128; 160; 192; 224; 256; 320;
   384; 448; 512; 640; 768; 896; 1024; 1280; 1536; 1792; 2048; 2560; 3072; 4096; 8192; 16384].
Definition ANT_POOL_SIZE_CLASS_COUNT : nat := 32.
Definition ANT_POOL_BIGINT_BLOCK_SIZE : Z := 64 * 1024.
Definition max_align : Z := 16.
Definition sizeof_pool_block : Z := 32.

Definition align_up_size (value align : Z) : Z :=
  if align =? 0 then value
  else let mask := align - 1 in u64 (value + mask) .& u64 (Z.lnot mask).

Fixpoint class_index_from (i : nat) (classes : list Z) (need : Z) : option nat :=
  match classes with
  | [] => None
  | c :: classes => if need <=? c then Some i else class_index_from (S i) classes need
  end.
Definition pool_size_class_index (need : Z) : option nat := class_index_from 0 g_size_classes need.

Definition pool_class_block_items (class_size : Z) : Z :=
  if class_size <=? 256 then 256 else if class_size <=? 1024 then 128 else if class_size <=? 4096 then 64 else 32.

Definition pool_chain_block_cap (block_size need : Z) : Z :=
  if (block_size =? 0) || (need <=? block_size) then (if block_size =? 0 then need else block_size)
  else u64 (u64 (need + block_size - 1) / block_size * block_size).

(** ** Blocks and pools *)

Record ant_pool_block_t := Block { b_data : Z; b_used : Z; b_cap : Z }.
Definition set_used (b : ant_pool_block_t) (u : Z) : ant_pool_block_t := Block (b_data b) u (b_cap b).
Definition region (b : ant_pool_block_t) : Z * Z := (b_data b - sizeof_pool_block, sizeof_pool_block + b_cap b).

Record ant_pool_t := Pool { pl_head : list ant_pool_block_t; pl_free : list ant_pool_block_t; pl_block_size : Z }.

(** [bk_current] is the data address of the current block. *)
Record ant_pool_bucket_t := Bucket {
  bk_head : list ant_pool_block_t; bk_current : option Z; bk_free : list ant_pool_block_t;
  slot_free : list Z; bk_block_size : Z; bk_cursor : Z; bk_end : Z; slot_stride : Z }.

Record ant_class_pool_t := ClassPool { cp_base : ant_pool_t; cp_classes : list ant_pool_bucket_t }.

Definition empty_bucket : ant_pool_bucket_t := Bucket [] None [] [] 0 0 0 0.
Definition class_pool_new : ant_class_pool_t := ClassPool (Pool [] [] 0) (replicate ANT_POOL_SIZE_CLASS_COUNT empty_bucket).

Definition set_head (b : ant_pool_bucket_t) h := Bucket h (bk_current b) (bk_free b) (slot_free b) (bk_block_size b) (bk_cursor b) (bk_end b) (slot_stride b).
Definition set_slots (b : ant_pool_bucket_t) s := Bucket (bk_head b) (bk_current b) (bk_free b) s (bk_block_size b) (bk_cursor b) (bk_end b) (slot_stride b).
Definition set_free (b : ant_pool_bucket_t) f := Bucket (bk_head b) (bk_current b) f (slot_free b) (bk_block_size b) (bk_cursor b) (bk_end b) (slot_stride b).
Definition set_size (b : ant_pool_bucket_t) n := Bucket (bk_head b) (bk_current b) (bk_free b) (slot_free b) n (bk_cursor b) (bk_end b) (slot_stride b).
Definition set_stride (b : ant_pool_bucket_t) n := Bucket (bk_head b) (bk_current b) (bk_free b) (slot_free b) (bk_block_size b) (bk_cursor b) (bk_end b) n.
(** The block becomes the head and the current one. *)
Definition start_block (b : ant_pool_bucket_t) (k : ant_pool_block_t) (free : list ant_pool_block_t) :=
  Bucket (k :: bk_head b) (Some (b_data k)) free (slot_free b) (bk_block_size b) (b_data k) (b_data k + b_cap k) (slot_stride b).

Section Alloc.
Context `{OsMap}.

Definition pool_block_alloc (m : mem) (cap : Z) : option (ant_pool_block_t * mem) :=
  let n := u64 (sizeof_pool_block + cap) in
  match os_alloc m n with
  | None => None
  | Some a => Some (Block (a + sizeof_pool_block) 0 cap, (a, n) :: m)
  end.
Definition pool_block_free (m : mem) (b : ant_pool_block_t) : mem := filter (fun r => r <> region b) m.

(** ** Buckets: slots of one size *)

Definition bucket_refill (m : mem) (b : ant_pool_bucket_t) : option (ant_pool_bucket_t * mem) :=
  match bk_free b with
  | reuse :: rest => Some (start_block b (set_used reuse 0) rest, m)
  | [] =>
      let cap := if bk_block_size b <? slot_stride b then slot_stride b else bk_block_size b in
      match pool_block_alloc m cap with
      | None => None
      | Some (block, m) => Some (start_block b block [], m)
      end
  end.

Definition bucket_bump (b : ant_pool_bucket_t) : ant_pool_bucket_t :=
  let cursor := bk_cursor b + slot_stride b in
  let head := match bk_current b with
              | Some c => map (fun k => if b_data k =? c then set_used k (cursor - c) else k) (bk_head b)
              | None => bk_head b
              end in
  Bucket head (bk_current b) (bk_free b) (slot_free b) (bk_block_size b) cursor (bk_end b) (slot_stride b).

Definition bucket_full (b : ant_pool_bucket_t) : bool :=
  match bk_current b with
  | None => true
  | Some _ => (bk_cursor b =? 0) || (bk_end b <? bk_cursor b + slot_stride b)
  end.

Definition pool_bucket_alloc_fast (m : mem) (b : ant_pool_bucket_t) (class_size align : Z) :
    option Z * ant_pool_bucket_t * mem :=
  if max_align <? align then (None, b, m)
  else
    let b := if slot_stride b =? 0 then set_stride b (align_up_size class_size max_align) else b in
    match slot_free b with
    | ptr :: next => (Some ptr, set_slots b next, m)
    | [] =>
        match (if bucket_full b then bucket_refill m b else Some (b, m)) with
        | None => (None, b, m)
        | Some (b, m) => (Some (bk_cursor b), bucket_bump b, m)
        end
    end.

(** ** Chains: pieces of any size *)

Definition pool_alloc_chain (m : mem) (head free : list ant_pool_block_t) (block_size size align : Z) :
    option Z * list ant_pool_block_t * list ant_pool_block_t * mem :=
  if size =? 0 then (None, head, free, m)
  else
    let align := if align =? 0 then 8 else align in
    let fresh m := pool_block_alloc m (pool_chain_block_cap block_size (u64 (size + align))) in
    match (match head with
           | block :: rest => Some (block, rest, m)
           | [] => option_map (fun '(block, m) => (block, [], m)) (fresh m)
           end) with
    | None => (None, head, free, m)
    | Some (block, rest, m) =>
        let start := align_up_size (b_used block) align in
        match (if b_cap block <? u64 (start + size) then
                 match free with
                 | k :: free => Some (set_used k 0, block :: rest, free, m)
                 | [] => option_map (fun '(k, m) => (k, block :: rest, [], m)) (fresh m)
                 end
               else Some (block, rest, free, m)) with
        | None => (None, block :: rest, free, m)
        | Some (block, rest, free, m) =>
            let start := align_up_size (b_used block) align in
            (Some (b_data block + start), set_used block (u64 (start + size)) :: rest, free, m)
        end
    end.

(** The block size of a bucket is settled by its first allocation. *)
Definition bucket_block_size (pool_block_size class_size : Z) : Z :=
  let min_block := class_size * pool_class_block_items class_size in
  if pool_block_size <? min_block then min_block else pool_block_size.

Definition bucket_alloc (m : mem) (b : ant_pool_bucket_t) (pool_block_size class_size size align : Z) :
    option Z * ant_pool_bucket_t * mem :=
  let b := if bk_block_size b =? 0 then set_size b (bucket_block_size pool_block_size class_size) else b in
  match pool_bucket_alloc_fast m b class_size align with
  | (Some p, b, m) => (Some p, b, m)
  | (None, b, m) =>
      let '(r, head, free, m) := pool_alloc_chain m (bk_head b) (bk_free b) (bk_block_size b) size align in
      (r, set_free (set_head b head) free, m)
  end.

(** The bigint branch of [js_type_alloc]. *)
Definition class_pool_alloc (m : mem) (cp : ant_class_pool_t) (size align : Z) : option Z * ant_class_pool_t * mem :=
  let pool := cp_base cp in
  let pool := if pl_block_size pool =? 0 then Pool (pl_head pool) (pl_free pool) ANT_POOL_BIGINT_BLOCK_SIZE else pool in
  let needed := u64 (size + (align - 1)) in
  match pool_size_class_index needed with
  | Some i =>
      let class_size := nth i g_size_classes 0 in
      let '(r, b, m) := bucket_alloc m (nth i (cp_classes cp) empty_bucket) (pl_block_size pool) class_size size align in
      (r, ClassPool pool (<[i := b]> (cp_classes cp)), m)
  | None =>
      let '(r, head, free, m) := pool_alloc_chain m (pl_head pool) (pl_free pool) (pl_block_size pool) size align in
      (r, ClassPool (Pool head free (pl_block_size pool)) (cp_classes cp), m)
  end.

(** ** Destruction and statistics *)

Definition js_pool_destroy (m : mem) (p : ant_pool_t) : ant_pool_t * mem :=
  (Pool [] [] 0, foldl pool_block_free (foldl pool_block_free m (pl_head p)) (pl_free p)).

Definition js_class_pool_destroy (m : mem) (cp : ant_class_pool_t) : ant_class_pool_t * mem :=
  let m := foldl (fun m b => foldl pool_block_free (foldl pool_block_free m (bk_head b)) (bk_free b)) m (cp_classes cp) in
  let '(base, m) := js_pool_destroy m (cp_base cp) in
  (ClassPool base (map (fun _ => empty_bucket) (cp_classes cp)), m).

End Alloc.

(** ** Alignment *)

Lemma align_up_spec v k : 0 <= k <= 60 -> 0 <= v < 2 ^ 62 ->
  let a := align_up_size v (2 ^ k) in v <= a < v + 2 ^ k /\ a mod 2 ^ k = 0.
Proof.
  intros Hk Hv a. unfold a, align_up_size. assert (Hp : 0 < 2 ^ k <= 2 ^ 60) by (split; [lia|apply Z.pow_le_mono_r; lia]).
  destruct (Z.eqb_spec (2 ^ k) 0); [lia|]. cbv zeta.
  rewrite (wrap_small 64 (v + _)) by lia. set (x := v + (2 ^ k - 1)).
  assert (E : x .& u64 (Z.lnot (2 ^ k - 1)) = x / 2 ^ k * 2 ^ k).
  { unfold wrap. rewrite <- (Z.land_ones _ 64), Z.land_comm, <- Z.land_assoc, (Z.land_comm (Z.ones 64)) by lia.
    rewrite Z.land_ones, (Z.mod_small x) by (unfold x; lia). rewrite Z.land_comm, <- Z.ldiff_land.
    replace (2 ^ k - 1) with (Z.ones k) by (rewrite Z.ones_equiv; lia).
    rewrite Z.ldiff_ones_r, Z.shiftl_mul_pow2, Z.shiftr_div_pow2 by lia. reflexivity. }
  rewrite E, Z.mod_mul by lia. pose proof (Z.div_mod x (2 ^ k) ltac:(lia)). pose proof (Z.mod_pos_bound x (2 ^ k) ltac:(lia)).
  unfold x in *. lia.
Qed.

(** The alignments of C types. *)
Definition c_align (align : Z) : Prop := exists k, 0 <= k <= 4 /\ align = 2 ^ k.

Lemma c_align_range a : c_align a -> 1 <= a <= 16 /\ (a | 16).
Proof.
  intros (k & Hk & ->). assert (Hc : k = 0 \/ k = 1 \/ k = 2 \/ k = 3 \/ k = 4) by lia.
  destruct Hc as [->|[->|[->|[->| ->]]]]; cbn; (split; [lia|]).
  - exists 16; reflexivity.
  - exists 8; reflexivity.
  - exists 4; reflexivity.
  - exists 2; reflexivity.
  - exists 1; reflexivity.
Qed.

Lemma class_index_spec classes : forall i need n, class_index_from i classes need = Some n ->
  exists c, (i <= n)%nat /\ classes !! (n - i)%nat = Some c /\ need <= c.
Proof.
  induction classes as [|c classes IH]; intros i need n; cbn [class_index_from]; [discriminate|].
  destruct (Z.leb_spec need c).
  - intros [= <-]. exists c. rewrite Nat.sub_diag. auto.
  - intros E. destruct (IH _ _ _ E) as (d & Hn & Hl & Hd). exists d. splits; [lia| |exact Hd].
    replace (n - i)%nat with (S (n - S i)) by lia. exact Hl.
Qed.

Lemma class_index_none classes : forall i need, class_index_from i classes need = None -> Forall (fun c => c < need) classes.
Proof.
  induction classes as [|c classes IH]; intros i need; cbn [class_index_from]; [constructor|].
  destruct (Z.leb_spec need c); [discriminate|]. intros E. constructor; eauto.
Qed.

(** What is used of the table of classes. *)
Definition class_sizes_ok (c : Z) : bool :=
  let s := align_up_size c 16 in
  (16 <=? c) && (c <=? 16384) && (c <=? s) && (s mod 16 =? 0) && (s <=? c * pool_class_block_items c) && (c * pool_class_block_items c <=? 2 ^ 20) &&
  (c + 16 <=? c * pool_class_block_items c).

Lemma class_size_spec i c : g_size_classes !! i = Some c -> class_sizes_ok c = true.
Proof.
  intros Hl. assert (Hall : forallb class_sizes_ok g_size_classes = true) by reflexivity.
  rewrite forallb_forall in Hall. apply Hall. apply list_elem_of_In. eapply list_elem_of_lookup_2; eauto.
Qed.

(** ** Regions *)

Definition separate (l : list (Z * Z)) : Prop :=
  NoDup l /\ forall r1 r2, r1 ∈ l -> r2 ∈ l -> r1 <> r2 -> disj r1 r2.
Definition region_ok (r : Z * Z) : Prop := 0 < r.1 /\ r.1 mod 16 = 0 /\ 0 < r.2 /\ r.1 + r.2 <= 2 ^ 47.
Record mem_ok (m : mem) : Prop := { mo_sep : separate m; mo_regions : Forall region_ok m }.

#[global] Instance mem_ok_perm : Proper (Permutation ==> iff) mem_ok.
Proof.
  assert (Hone : forall m m', m ≡ₚ m' -> mem_ok m -> mem_ok m').
  { intros m m' Hp [[Hn Hs] Hr]. split; [split|]; [rewrite <- Hp; exact Hn| |rewrite <- Hp; exact Hr].
    intros r1 r2 H1 H2. rewrite <- Hp in H1, H2. auto. }
  intros m m' Hp. split; apply Hone; [exact Hp|symmetry; exact Hp].
Qed.

Lemma mem_ok_cons m r : mem_ok m -> region_ok r -> Forall (disj r) m -> mem_ok (r :: m).
Proof.
  intros [[Hn Hs] Hr] Hok Hd. rewrite Forall_forall in Hd.
  split; [split|constructor; assumption].
  - constructor; [|exact Hn]. intros Hin. specialize (Hd r Hin). destruct Hok as (_ & _ & Hpos & _). unfold disj in Hd. lia.
  - intros r1 r2 H1 H2 Hne. apply elem_of_cons in H1 as [->|H1], H2 as [->|H2]; auto; [contradiction|].
    specialize (Hd r1 H1). unfold disj in *. lia.
Qed.

Lemma mem_ok_filter m P `{!forall r, Decision (P r)} : mem_ok m -> mem_ok (filter P m).
Proof.
  intros [[Hn Hs] Hr]. split; [split|].
  - apply NoDup_filter, Hn.
  - intros r1 r2 H1 H2. apply list_elem_of_filter in H1 as [_ H1], H2 as [_ H2]. auto.
  - rewrite Forall_forall in Hr |- *. intros r Hin. apply list_elem_of_filter in Hin as [_ Hin]. auto.
Qed.

(** Blocks and what lies in them. *)
Record block_ok (b : ant_pool_block_t) : Prop := {
  bl_data : b_data b mod 16 = 0; bl_addr : sizeof_pool_block < b_data b;
  bl_cap : 0 < b_cap b /\ b_data b + b_cap b <= 2 ^ 47; bl_used : 0 <= b_used b <= b_cap b }.

Definition inside (p n : Z) (b : ant_pool_block_t) : Prop := b_data b <= p /\ p + n <= b_data b + b_cap b.

Lemma inside_disj p n q k b c : disj (region b) (region c) -> inside p n b -> inside q k c -> p + n <= q \/ q + k <= p.
Proof. unfold disj, region, inside, sizeof_pool_block. cbn. lia. Qed.

(** ** Buckets *)

(** [p] is one of the slots that were handed out of the bucket's blocks. *)
Definition is_slot (b : ant_pool_bucket_t) (p : Z) : Prop :=
  exists k j, k ∈ bk_head b /\ 0 <= j /\ p = b_data k + j * slot_stride b /\ j * slot_stride b + slot_stride b <= b_used k.

Definition bucket_regions (b : ant_pool_bucket_t) : list (Z * Z) := map region (bk_head b ++ bk_free b).

Record bucket_ok (b : ant_pool_bucket_t) : Prop := {
  bo_stride : 0 <= slot_stride b <= 2 ^ 20 /\ slot_stride b mod 16 = 0;
  bo_fresh : slot_stride b = 0 -> bk_head b = [] /\ bk_free b = [];
  bo_size : 0 <= bk_block_size b <= 2 ^ 30;
  bo_blocks : Forall (fun k => block_ok k /\ slot_stride b <= b_cap k) (bk_head b ++ bk_free b);
  bo_head : Forall (fun k => (slot_stride b | b_used k)) (bk_head b);
  bo_cur : forall c, bk_current b = Some c ->
    exists k, k ∈ bk_head b /\ b_data k = c /\ bk_cursor b = c + b_used k /\ bk_end b = c + b_cap k;
  bo_slots : NoDup (slot_free b) /\ Forall (is_slot b) (slot_free b) }.

(** A slot that belongs to its owner. *)
Definition held (b : ant_pool_bucket_t) (p : Z) : Prop := is_slot b p /\ p ∉ slot_free b.

Lemma empty_bucket_ok : bucket_ok empty_bucket.
Proof. split; cbn; try (split; constructor); try constructor; try discriminate; lia. Qed.

(** Blocks of mapped memory with different regions have different addresses. *)
Lemma same_data m l k1 k2 fr : mem_ok m -> m ≡ₚ map region l ++ fr -> Forall block_ok l -> k1 ∈ l -> k2 ∈ l ->
  b_data k1 = b_data k2 -> b_cap k1 = b_cap k2.
Proof.
  intros Hm Hp Hl H1 H2 E. rewrite Hp in Hm. destruct Hm as [[_ Hs] _]. rewrite Forall_forall in Hl.
  destruct (decide (region k1 = region k2)) as [Hr|Hr]; [unfold region in Hr; injection Hr; lia|].
  assert (Hin : forall k, k ∈ l -> region k ∈ map region l ++ fr).
  { intros k Hk. apply elem_of_app. left. apply list_elem_of_In, in_map, list_elem_of_In, Hk. }
  specialize (Hs _ _ (Hin _ H1) (Hin _ H2) Hr). destruct (Hl _ H1), (Hl _ H2). unfold disj, region, sizeof_pool_block in *. cbn in *. lia.
Qed.

(** No two blocks of the list have the same address. *)
Lemma data_nodup m l fr : mem_ok m -> m ≡ₚ map region l ++ fr -> Forall block_ok l -> NoDup (map b_data l).
Proof.
  intros Hm Hp Hl. rewrite Hp in Hm. destruct Hm as [[Hn Hs] _]. apply NoDup_app in Hn as (Hn & _ & _).
  assert (Hs' : forall r1 r2, r1 ∈ map region l -> r2 ∈ map region l -> r1 <> r2 -> disj r1 r2)
    by (intros r1 r2 H1 H2; apply Hs; apply elem_of_app; left; assumption). clear Hs Hp.
  induction Hl as [|k l Hk Hl IH]; cbn [map] in *; [constructor|]. apply NoDup_cons in Hn as [Hk' Hn]. constructor.
  - intros Hin. apply list_elem_of_In, in_map_iff in Hin as (k2 & E & Hin).
    assert (Hin2 : region k2 ∈ map region l) by (apply list_elem_of_In, in_map, Hin).
    assert (Hd : disj (region k) (region k2)).
    { apply Hs'; [apply elem_of_cons; left; reflexivity|apply elem_of_cons; right; exact Hin2|]. intros E2. apply Hk'. rewrite E2. exact Hin2. }
    rewrite Forall_forall in Hl. assert (Hk2 : block_ok k2) by (apply Hl, list_elem_of_In, Hin). destruct Hk, Hk2.
    unfold disj, region, sizeof_pool_block in *. cbn in *. lia.
  - apply IH; [exact Hn|]. intros r1 r2 H1 H2. apply Hs'; apply elem_of_cons; right; assumption.
Qed.

(** Slots do not overlap. *)
Lemma slots_apart m b fr p q : mem_ok m -> m ≡ₚ bucket_regions b ++ fr -> bucket_ok b -> is_slot b p -> is_slot b q -> p <> q ->
  p + slot_stride b <= q \/ q + slot_stride b <= p.
Proof.
  intros Hm Hp Hb (k1 & j1 & H1 & Hj1 & -> & Hu1) (k2 & j2 & H2 & Hj2 & -> & Hu2) Hne.
  destruct Hb as [Hs _ _ Hbl _ _ _]. rewrite Forall_forall in Hbl.
  assert (Hin1 : k1 ∈ bk_head b ++ bk_free b) by (apply elem_of_app; auto).
  assert (Hin2 : k2 ∈ bk_head b ++ bk_free b) by (apply elem_of_app; auto).
  destruct (Hbl _ Hin1) as [B1 _], (Hbl _ Hin2) as [B2 _]. destruct (decide (region k1 = region k2)) as [Hr|Hr].
  - unfold region in Hr. injection Hr as Hd _. assert (b_data k1 = b_data k2) by lia.
    assert (j1 <> j2) by (intros ->; lia). nia.
  - rewrite Hp in Hm. destruct Hm as [[_ Hsep] _].
    assert (Hd : disj (region k1) (region k2)).
    { apply Hsep; [| |exact Hr]; apply elem_of_app; left; apply list_elem_of_In, in_map, list_elem_of_In; assumption. }
    destruct B1, B2. apply (inside_disj _ _ _ _ k1 k2 Hd); unfold inside; nia.
Qed.

Section BucketProofs.
Context `{Hos : OsMap}.

Lemma block_alloc_ok m cap k m' : mem_ok m -> 0 < cap <= 2 ^ 40 -> pool_block_alloc m cap = Some (k, m') ->
  block_ok k /\ b_used k = 0 /\ b_cap k = cap /\ m' = region k :: m /\ mem_ok m'.
Proof using Type.
  intros Hm Hc. unfold pool_block_alloc. cbv zeta. rewrite wrap_small by (unfold sizeof_pool_block; lia).
  change (sizeof_pool_block + cap) with (32 + cap). destruct (os_alloc m (32 + cap)) as [a|] eqn:E; [|discriminate]. intros [= <- <-].
  destruct (os_alloc_fresh m (32 + cap) a ltac:(lia) E) as (Ha & Hal & Hend & Hd).
  assert (H16 : a mod 16 = 0) by (apply Z.mod_divide; [lia|]; apply Z.mod_divide in Hal; [|lia]; destruct Hal as [x ->]; exists (x * 256); lia).
  assert (Er : region (Block (a + sizeof_pool_block) 0 cap) = (a, 32 + cap)).
  { unfold region, sizeof_pool_block. cbn. f_equal. lia. }
  splits; [|reflexivity|reflexivity|rewrite Er; reflexivity|].
  - split; unfold sizeof_pool_block; cbn; [rewrite Z.add_mod, H16 by lia; reflexivity|lia|lia|lia].
  - apply mem_ok_cons; [exact Hm| |exact Hd]. unfold region_ok. cbn. lia.
Qed.

(** A block without slots joins the bucket as its current one. *)
Lemma start_block_ok b k rest : bucket_ok b -> bk_free b = rest \/ (exists k0, bk_free b = k0 :: rest) ->
  block_ok k -> b_used k = 0 -> slot_stride b <= b_cap k -> 0 < slot_stride b ->
  let b' := start_block b k rest in
  bucket_ok b' /\ bucket_full b' = false /\ forall q, is_slot b' q <-> is_slot b q.
Proof using Type.
  intros [H1 H2 H3 H4 H5 H6 H7] Hf Hk Hu Hc Hs b'.
  assert (Hslot : forall q, is_slot b' q <-> is_slot b q).
  { intros q. unfold is_slot, b'. cbn. split; intros (x & j & Hx & Hj & E & Hle).
    - apply elem_of_cons in Hx as [->|Hx]; [lia|]. exists x, j. auto.
    - exists x, j. splits; auto. apply elem_of_cons. auto. }
  splits; [|destruct Hk; unfold bucket_full, b', sizeof_pool_block in *; cbn; destruct (Z.eqb_spec (b_data k) 0); [lia|]; apply Z.ltb_ge; lia|exact Hslot].
  split; cbn; auto.
  - lia.
  - constructor; [auto|]. apply Forall_app in H4 as [Hh Hfr]. apply Forall_app. split; [exact Hh|].
    destruct Hf as [<-|[k0 E]]; [exact Hfr|]. rewrite E in Hfr. inversion Hfr; assumption.
  - constructor; [|exact H5]. rewrite Hu. exists 0. lia.
  - intros c [= <-]. exists k. rewrite Hu, Z.add_0_r. splits; auto. apply elem_of_cons. auto.
  - split; [apply H7|]. eapply Forall_impl; [apply H7|]. intros q. apply Hslot.
Qed.

Lemma refill_ok m b fr b' m' : mem_ok m -> m ≡ₚ bucket_regions b ++ fr -> bucket_ok b -> 0 < slot_stride b ->
  bucket_refill m b = Some (b', m') ->
  mem_ok m' /\ m' ≡ₚ bucket_regions b' ++ fr /\ bucket_ok b' /\ bucket_full b' = false /\
  slot_stride b' = slot_stride b /\ slot_free b' = slot_free b /\ forall q, is_slot b' q <-> is_slot b q.
Proof using Type.
  intros Hm Hp Hb Hs. unfold bucket_refill. destruct (bk_free b) as [|k rest] eqn:Ef.
  - set (cap := if bk_block_size b <? slot_stride b then _ else _).
    assert (Hcap : slot_stride b <= cap <= 2 ^ 30).
    { unfold cap. destruct Hb as [? _ ? _ _ _ _]. destruct (Z.ltb_spec (bk_block_size b) (slot_stride b)); lia. }
    destruct (pool_block_alloc m cap) as [[k m1]|] eqn:Ea; [|discriminate]. intros [= <- <-].
    destruct (block_alloc_ok m cap k m1 Hm ltac:(lia) Ea) as (Hk & Hu & Hkc & -> & Hm1).
    destruct (start_block_ok b k [] Hb (or_introl Ef) Hk Hu) as (G1 & G2 & G3); [lia|lia|].
    splits; auto. unfold bucket_regions, start_block. cbn. rewrite Hp. unfold bucket_regions. rewrite Ef. reflexivity.
  - intros [= <- <-].
    assert (Hk : block_ok k /\ slot_stride b <= b_cap k).
    { pose proof (bo_blocks b Hb) as Hbl. rewrite Ef in Hbl. apply Forall_app in Hbl as [_ Hbl]. inversion Hbl; assumption. }
    destruct (start_block_ok b (set_used k 0) rest Hb) as (G1 & G2 & G3); auto.
    { right. eauto. }
    { destruct Hk as [[? ? ? ?] ?]. split; cbn; auto. lia. }
    { apply Hk. }
    splits; auto. rewrite Hp. unfold bucket_regions, start_block. rewrite Ef, !map_app. cbn.
    change (region (set_used k 0)) with (region k). rewrite <- Permutation_middle. reflexivity.
Qed.

Lemma bump_ok m b fr : mem_ok m -> m ≡ₚ bucket_regions b ++ fr -> bucket_ok b -> 0 < slot_stride b -> bucket_full b = false ->
  slot_free b = [] ->
  let b' := bucket_bump b in
  bucket_ok b' /\ bucket_regions b' = bucket_regions b /\ is_slot b' (bk_cursor b) /\ ~ is_slot b (bk_cursor b) /\
  forall q, is_slot b q -> is_slot b' q.
Proof using Type.
  intros Hm Hp Hb Hs Hf Hsf b'. pose proof Hb as [H1 H2 H3 H4 H5 H6 H7].
  unfold bucket_full in Hf. destruct (bk_current b) as [c|] eqn:Ec; [|discriminate].
  destruct (H6 c eq_refl) as (k & Hk & <- & Hcur & Hend). apply orb_false_iff in Hf as [_ Hf]. apply Z.ltb_ge in Hf.
  set (upd := fun x => if b_data x =? b_data k then set_used x (bk_cursor b + slot_stride b - b_data k) else x).
  assert (Hhead : bk_head b' = map upd (bk_head b)) by (unfold b', bucket_bump; rewrite Ec; reflexivity).
  assert (Hbl : Forall block_ok (bk_head b ++ bk_free b)) by (eapply Forall_impl; [exact H4|]; intros ? []; assumption).
  assert (Huniq : forall x, x ∈ bk_head b -> b_data x = b_data k -> x = k).
  { pose proof (data_nodup m _ fr Hm Hp Hbl) as Hnd. rewrite map_app in Hnd. apply NoDup_app in Hnd as (Hnd & _ & _).
    intros x Hx E. apply list_elem_of_lookup in Hx as [i Hi], Hk as [j Hj].
    assert (i = j) as ->; [|congruence]. eapply NoDup_lookup; [exact Hnd| |]; rewrite list_lookup_fmap.
    - rewrite Hi. reflexivity.
    - rewrite Hj. cbn. congruence. }
  rewrite Forall_forall in Hbl. assert (Hbk : block_ok k) by (apply Hbl, elem_of_app; auto).
  assert (Hupk : upd k = set_used k (b_used k + slot_stride b)).
  { unfold upd. rewrite Z.eqb_refl. f_equal. lia. }
  assert (Hin : forall x, x ∈ bk_head b' <-> (x = upd k \/ (x ∈ bk_head b /\ b_data x <> b_data k))).
  { intros x. rewrite Hhead, list_elem_of_fmap. split.
    - intros (y & -> & Hy). destruct (Z.eq_dec (b_data y) (b_data k)) as [E|E].
      + left. rewrite (Huniq y Hy E). reflexivity.
      + right. unfold upd. apply Z.eqb_neq in E as E'. rewrite E'. auto.
    - intros [->|[Hx E]]; [exists k; auto|]. exists x. split; [|exact Hx]. unfold upd. destruct (Z.eqb_spec (b_data x) (b_data k)); congruence. }
  assert (Hslot : forall q, is_slot b q -> is_slot b' q).
  { intros q (x & j & Hx & Hj & -> & Hle). change (slot_stride b') with (slot_stride b). destruct (Z.eq_dec (b_data x) (b_data k)) as [E|E].
    - exists (upd k), j. rewrite (Huniq x Hx E) in *. rewrite Hupk. cbn. splits; auto; [apply Hin; rewrite Hupk; auto|lia].
    - exists x, j. splits; auto. apply Hin. auto. }
  assert (Hk2 : upd k ∈ bk_head b') by (apply Hin; auto).
  assert (Hdiv : (slot_stride b | b_used k)) by (rewrite Forall_forall in H5; auto).
  splits; [|unfold bucket_regions; rewrite Hhead; change (bk_free b') with (bk_free b); rewrite !map_app, map_map; f_equal; apply map_ext;
            intros x; unfold upd; case_if; reflexivity| | |exact Hslot].
  - split; cbn [b' bucket_bump slot_stride bk_free bk_block_size slot_free bk_current]; auto.
    + intros E. lia.
    + rewrite Forall_forall in H4 |- *. intros x Hx. apply elem_of_app in Hx as [Hx|Hx]; [|apply H4, elem_of_app; auto].
      apply Hin in Hx as [->|[Hx _]]; [|apply H4, elem_of_app; auto]. rewrite Hupk.
      destruct (H4 k) as [[? ? ? ?] ?]; [apply elem_of_app; auto|]. split; [|assumption]. split; cbn; auto. lia.
    + rewrite Forall_forall in H5 |- *. intros x Hx. apply Hin in Hx as [->|[Hx _]]; [|auto]. rewrite Hupk. cbn. apply Z.divide_add_r; [auto|apply Z.divide_refl].
    + rewrite Ec. intros c [= <-]. exists (upd k). rewrite Hupk in *. cbn. splits; auto. lia.
    + rewrite Hsf. split; constructor.
  - destruct Hdiv as [j Hj]. exists (upd k), j. rewrite Hupk in *. change (slot_stride b') with (slot_stride b). cbn. destruct Hbk. splits; auto; nia.
  - intros (x & j & Hx & Hj & E & Hle). destruct (Z.eq_dec (b_data x) (b_data k)) as [E2|E2]; [rewrite (Huniq x Hx E2) in *; lia|].
    assert (Hd : disj (region x) (region k)).
    { rewrite Hp in Hm. destruct Hm as [[_ Hsep] _]. apply Hsep.
      1, 2: apply elem_of_app; left; apply list_elem_of_In, in_map, list_elem_of_In, elem_of_app; auto.
      unfold region. intros Er. injection Er. lia. }
    destruct (inside_disj (bk_cursor b) (slot_stride b) (bk_cursor b) (slot_stride b) x k Hd); unfold inside; [|destruct Hbk; lia|lia|lia].
    assert (block_ok x) as [] by (apply Hbl, elem_of_app; auto). lia.
Qed.

(** The first allocation settles the stride of a bucket. *)
Lemma set_stride_ok b s : bucket_ok b -> slot_stride b = 0 -> 0 < s <= 2 ^ 20 -> s mod 16 = 0 ->
  bucket_ok (set_stride b s) /\ slot_free b = [] /\ (forall q, ~ is_slot b q) /\ forall q, ~ is_slot (set_stride b s) q.
Proof using Type.
  intros [H1 H2 H3 H4 H5 H6 H7] E Hs Hm. destruct (H2 E) as [Eh Ef].
  assert (Hno : forall q, ~ is_slot b q) by (intros q (k & j & Hk & _); rewrite Eh in Hk; inversion Hk).
  assert (Esl : slot_free b = []).
  { destruct (slot_free b) as [|p l]; [reflexivity|]. destruct H7 as [_ H7]. inversion H7 as [|? ? Hp]; subst. destruct (Hno p Hp). }
  splits; [|exact Esl|exact Hno|intros q (k & j & Hk & _); cbn in Hk; rewrite Eh in Hk; inversion Hk].
  split; cbn; rewrite ?Eh, ?Ef, ?Esl; auto; try (split; constructor); try lia; try constructor.
  intros c Hc. destruct (H6 c Hc) as (k & Hk & _). rewrite Eh in Hk. inversion Hk.
Qed.

(** The stride of a bucket that serves a class. *)
Definition stride_for (class_size : Z) (b : ant_pool_bucket_t) : Prop :=
  slot_stride b = 0 \/ slot_stride b = align_up_size class_size max_align.

Lemma fast_ok m b fr class_size align : mem_ok m -> m ≡ₚ bucket_regions b ++ fr -> bucket_ok b -> stride_for class_size b ->
  class_sizes_ok class_size = true -> align <= 16 ->
  match pool_bucket_alloc_fast m b class_size align with
  | (Some p, b', m') => mem_ok m' /\ m' ≡ₚ bucket_regions b' ++ fr /\ bucket_ok b' /\ slot_stride b' = align_up_size class_size max_align /\
      held b' p /\ ~ held b p /\ forall q, held b q -> held b' q
  | (None, b', m') => m' = m /\ bucket_regions b' = bucket_regions b /\ bucket_ok b' /\ stride_for class_size b' /\
      (slot_stride b <= slot_stride b') /\ (forall q, held b q -> held b' q) /\
      exists n, 0 < n <= 2 ^ 31 /\ os_alloc m n = None
  end.
Proof using Type.
  intros Hm Hp Hb Hst Hcs Hal. unfold pool_bucket_alloc_fast. change max_align with 16 in *.
  destruct (Z.ltb_spec 16 align); [lia|]. unfold class_sizes_ok in Hcs. boolprop. set (s := align_up_size class_size 16) in *.
  set (b1 := if slot_stride b =? 0 then set_stride b s else b).
  assert (Hb1 : bucket_ok b1 /\ slot_stride b1 = s /\ bucket_regions b1 = bucket_regions b /\ slot_free b1 = slot_free b /\
                forall q, is_slot b1 q <-> is_slot b q).
  { unfold b1. destruct (Z.eqb_spec (slot_stride b) 0) as [E|E].
    - destruct (set_stride_ok b s Hb E) as (G1 & G2 & G3 & G4); [lia|assumption|]. splits; auto. intros q. split; intros Hq; [destruct (G4 q Hq)|destruct (G3 q Hq)].
    - splits; auto; destruct Hst as [Hst|Hst]; [contradiction|exact Hst]. }
  destruct Hb1 as (Hb1 & Hs1 & Hr1 & Hf1 & Hsl1). clearbody b1.
  assert (Hheld : forall q, held b q <-> held b1 q) by (intros q; unfold held; rewrite Hsl1, Hf1; reflexivity).
  rewrite <- Hr1 in Hp. assert (Hspos : 0 < slot_stride b1) by lia.
  destruct (slot_free b1) as [|p next] eqn:Esf.
  - assert (Hstep : forall b2 m2, mem_ok m2 -> m2 ≡ₚ bucket_regions b2 ++ fr -> bucket_ok b2 -> bucket_full b2 = false ->
        slot_stride b2 = slot_stride b1 -> slot_free b2 = [] -> (forall q, is_slot b2 q <-> is_slot b1 q) ->
        mem_ok m2 /\ m2 ≡ₚ bucket_regions (bucket_bump b2) ++ fr /\ bucket_ok (bucket_bump b2) /\ slot_stride (bucket_bump b2) = s /\
        held (bucket_bump b2) (bk_cursor b2) /\ ~ held b (bk_cursor b2) /\ forall q, held b q -> held (bucket_bump b2) q).
    { intros b2 m2 M2 P2 B2 F2 S2 L2 Q2. destruct (bump_ok m2 b2 fr M2 P2 B2 ltac:(lia) F2 L2) as (G1 & G2 & G3 & G4 & G5).
      assert (Hnil : slot_free (bucket_bump b2) = []) by exact L2.
      splits; auto.
      - rewrite G2. exact P2.
      - change (slot_stride b2 = s). lia.
      - split; [exact G3|rewrite Hnil; apply not_elem_of_nil].
      - intros [Hc _]. apply G4, Q2, Hsl1, Hc.
      - intros q [Hq _]. split; [apply G5, Q2, Hsl1, Hq|rewrite Hnil; apply not_elem_of_nil]. }
    destruct (bucket_full b1) eqn:Efull; [|apply Hstep; auto; reflexivity].
    destruct (bucket_refill m b1) as [[b2 m2]|] eqn:Er.
    + destruct (refill_ok m b1 fr b2 m2 Hm Hp Hb1 Hspos Er) as (G1 & G2 & G3 & G4 & G5 & G6 & G7). apply Hstep; auto. congruence.
    + splits; auto; [right; exact Hs1|destruct Hst as [E|E]; rewrite E; [lia|]; change (s <= slot_stride b1); lia|intros q; apply Hheld|].
      unfold bucket_refill in Er. destruct (bk_free b1); [|discriminate].
      unfold pool_block_alloc in Er. set (cap := if _ <? _ then _ else _) in Er.
      assert (0 < cap <= 2 ^ 30) by (unfold cap; destruct Hb1 as [? _ ? _ _ _ _]; case_if; boolprop; lia).
      rewrite wrap_small in Er by (unfold sizeof_pool_block; lia).
      exists (sizeof_pool_block + cap). split; [unfold sizeof_pool_block; lia|]. destruct (os_alloc m _); [discriminate|reflexivity].
  - pose proof Hb1 as [B1 B2 B3 B4 B5 B6 [B7 B8]]. rewrite Esf in B7, B8. apply NoDup_cons in B7 as [Hp1 Hp2]. inversion B8 as [|? ? Hs2 Hs3]; subst.
    splits; auto.
    + split; cbn; auto.
    + split; [exact Hs2|exact Hp1].
    + rewrite Hheld. intros [_ Hn]. apply Hn. rewrite Esf. apply elem_of_cons. auto.
    + intros q Hq. apply Hheld in Hq as [Hq1 Hq2]. split; [exact Hq1|]. cbn. intros Hin. apply Hq2. rewrite Esf. apply elem_of_cons. auto.
Qed.

(** ** Chains *)

(** A chain whose blocks all have the capacity [bs]. *)
Definition chain_ok (bs : Z) (head free : list ant_pool_block_t) : Prop :=
  Forall (fun k => block_ok k /\ b_cap k = bs) (head ++ free).
Definition in_block (p n : Z) (k : ant_pool_block_t) : Prop := b_data k <= p /\ p + n <= b_data k + b_used k.

Lemma align_up_small u align : c_align align -> 0 <= u < 2 ^ 61 -> let a := align_up_size u align in u <= a < u + align /\ a mod align = 0.
Proof using Type. intros (k & Hk & ->) Hu. apply align_up_spec; lia. Qed.

Lemma block_mod_align k align : block_ok k -> c_align align -> b_data k mod align = 0.
Proof using Type.
  intros [Hd _ _ _] Ha. destruct (c_align_range align Ha) as [Hr Hdiv]. apply Z.mod_divide; [lia|].
  apply Z.mod_divide in Hd; [|lia]. eapply Z.divide_trans; eassumption.
Qed.

(** The piece at the end of a block that has room for it. *)
Lemma take_piece m (head : list ant_pool_block_t) free fr k rest bs size align : mem_ok m -> m ≡ₚ map region ((k :: rest) ++ free) ++ fr ->
  chain_ok bs (k :: rest) free -> 0 < size < 2 ^ 60 -> c_align align -> bs <= 2 ^ 60 -> align_up_size (b_used k) align + size <= b_cap k ->
  (forall x, x ∈ head -> x = k \/ (x ∈ rest) \/ (b_data x = b_data k /\ b_cap x = b_cap k /\ b_used k = b_used x)) ->
  let start := align_up_size (b_used k) align in
  let p := b_data k + start in
  let head' := set_used k (u64 (start + size)) :: rest in
  m ≡ₚ map region (head' ++ free) ++ fr /\ chain_ok bs head' free /\ p mod align = 0 /\
  (exists x, x ∈ head' /\ in_block p size x) /\
  (forall x, x ∈ head -> exists x', x' ∈ head' /\ b_data x' = b_data x /\ b_used x <= b_used x') /\
  (forall x q n, x ∈ head -> in_block q n x -> p + size <= q \/ q + n <= p).
Proof using Type.
  intros Hm Hp Hc Hs Ha Hbs Hfit Hh start p head'. pose proof Hc as Hc'. unfold chain_ok in Hc. cbn [app] in Hc.
  apply Forall_cons in Hc as [[Hk Hkc] Hc]. pose proof Hk as [? ? ? ?].
  destruct (align_up_small (b_used k) align Ha ltac:(lia)) as [Hst Hmod]. fold start in Hst, Hmod, Hfit.
  assert (Hu : u64 (start + size) = start + size) by (apply wrap_small; lia).
  destruct (c_align_range align Ha) as [Hr _].
  unfold head'. rewrite Hu. splits.
  - exact Hp.
  - apply Forall_cons. split; [|exact Hc]. split; [split; cbn; auto; lia|exact Hkc].
  - unfold p. rewrite Z.add_mod, (block_mod_align k align Hk Ha), Hmod by lia. apply Z.mod_0_l. lia.
  - eexists. split; [apply elem_of_cons; left; reflexivity|]. unfold in_block, p. cbn. lia.
  - intros x Hx. destruct (Hh x Hx) as [->|[Hin|(E1 & E2 & E3)]].
    + eexists. split; [apply elem_of_cons; left; reflexivity|]. cbn. lia.
    + exists x. split; [apply elem_of_cons; right; exact Hin|]. lia.
    + eexists. split; [apply elem_of_cons; left; reflexivity|]. cbn. lia.
  - intros x q n Hx Hq. destruct (Hh x Hx) as [->|[Hin|(E1 & E2 & E3)]]; unfold in_block, p in *; [lia| |lia].
    assert (Hx2 : block_ok x) by (rewrite Forall_forall in Hc; apply Hc, elem_of_app; auto). pose proof Hx2 as [? ? ? ?].
    destruct (decide (region x = region k)) as [Er|Er].
    + unfold region in Er. injection Er as E1 E2.
      rewrite Hp in Hm. destruct Hm as [[Hn _] _]. cbn [app map] in Hn. apply NoDup_cons in Hn as [Hn _]. destruct Hn.
      apply elem_of_app. left. replace (region k) with (region x) by (unfold region; f_equal; lia).
      apply list_elem_of_In, in_map, list_elem_of_In, elem_of_app. auto.
    + assert (Hd : disj (region k) (region x)).
      { rewrite Hp in Hm. destruct Hm as [[_ Hsep] _]. apply Hsep; [| |congruence]; apply elem_of_app; left; cbn [app map].
        - apply elem_of_cons. auto.
        - apply elem_of_cons. right. apply list_elem_of_In, in_map, list_elem_of_In, elem_of_app. auto. }
      unfold disj, region, sizeof_pool_block in Hd. cbn in Hd. lia.
Qed.

Lemma chain_cap bs need : 0 < need <= bs -> pool_chain_block_cap bs need = bs.
Proof using Type.
  intros H. unfold pool_chain_block_cap. destruct (Z.eqb_spec bs 0); [lia|]. destruct (Z.leb_spec need bs); [reflexivity|lia].
Qed.

Lemma chain_alloc_ok m head free fr bs size align : mem_ok m -> m ≡ₚ map region (head ++ free) ++ fr ->
  chain_ok bs head free -> 0 < size -> c_align align -> size + align <= bs <= 2 ^ 40 ->
  match pool_alloc_chain m head free bs size align with
  | (None, head', free', m') => head' = head /\ free' = free /\ m' = m
  | (Some p, head', free', m') =>
      mem_ok m' /\ m' ≡ₚ map region (head' ++ free') ++ fr /\ chain_ok bs head' free' /\ p mod align = 0 /\
      (exists x, x ∈ head' /\ in_block p size x) /\
      (forall x, x ∈ head -> exists x', x' ∈ head' /\ b_data x' = b_data x /\ b_used x <= b_used x') /\
      (forall x q n, x ∈ head -> in_block q n x -> p + size <= q \/ q + n <= p)
  end.
Proof using Type.
  intros Hm Hp Hc Hs Ha Hbs. unfold pool_alloc_chain. destruct (Z.eqb_spec size 0); [lia|].
  destruct (c_align_range align Ha) as [Hr _]. destruct (Z.eqb_spec align 0); [lia|]. cbv zeta.
  rewrite (wrap_small 64 (size + align)), chain_cap by lia.
  assert (H0 : align_up_size 0 align = 0).
  { destruct (align_up_small 0 align Ha ltac:(lia)) as [G1 G2]. rewrite Z.mod_small in G2; lia. }
  destruct head as [|k rest].
  - destruct (pool_block_alloc m bs) as [[k m1]|] eqn:Ea; cbn [option_map]; [|auto].
    destruct (block_alloc_ok m bs k m1 Hm ltac:(lia) Ea) as (Hk & Hu & Hkc & -> & Hm1).
    rewrite Hu, H0, Hkc, (wrap_small 64 (0 + size)) by lia. destruct (Z.ltb_spec bs (0 + size)); [lia|].
    destruct (take_piece _ [] free fr k [] bs size align Hm1) as (G1 & G2 & G3 & G4 & G5 & G6).
    + cbn [app map]. rewrite Hp. reflexivity.
    + apply Forall_cons. auto.
    + lia.
    + exact Ha.
    + lia.
    + rewrite Hu, H0. lia.
    + intros x Hx. inversion Hx.
    + rewrite Hu, H0, (wrap_small 64 (0 + size)) in * by lia. splits; auto.
  - pose proof Hc as Hcf. apply Forall_cons in Hcf as [[Hk Hkc] Hcf]. pose proof Hk as [? ? ? ?].
    destruct (align_up_small (b_used k) align Ha ltac:(lia)) as [Hst Hmod].
    rewrite (wrap_small 64 (_ + size)) by lia. destruct (Z.ltb_spec (b_cap k) (align_up_size (b_used k) align + size)) as [Hfull|Hfit].
    + destruct free as [|f free].
      * destruct (pool_block_alloc m bs) as [[k1 m1]|] eqn:Ea; cbn [option_map]; [|auto].
        destruct (block_alloc_ok m bs k1 m1 Hm ltac:(lia) Ea) as (Hk1 & Hu & Hkc1 & -> & Hm1).
        destruct (take_piece _ (k :: rest) [] fr k1 (k :: rest) bs size align Hm1) as (G1 & G2 & G3 & G4 & G5 & G6);
          [cbn [app map] in *; rewrite Hp; reflexivity|apply Forall_cons; auto|lia|exact Ha|lia|rewrite Hu, H0; lia|auto|].
        splits; auto.
      * assert (Hf : block_ok f /\ b_cap f = bs) by (unfold chain_ok in Hc; rewrite Forall_forall in Hc; apply Hc, elem_of_app; right; apply elem_of_cons; auto).
        assert (Hperm : m ≡ₚ map region ((set_used f 0 :: k :: rest) ++ free) ++ fr).
        { rewrite Hp. rewrite !map_app. cbn [map app]. change (region (set_used f 0)) with (region f). rewrite <- !app_assoc.
          cbn [app]. rewrite Permutation_swap. constructor. rewrite <- Permutation_middle. reflexivity. }
        destruct (take_piece m (k :: rest) free fr (set_used f 0) (k :: rest) bs size align Hm Hperm) as (G1 & G2 & G3 & G4 & G5 & G6); auto.
        { apply Forall_cons. split; [destruct Hf as [[? ? ? ?] ?]; split; [split; cbn; auto; lia|assumption]|].
          unfold chain_ok in Hc. rewrite Forall_forall in Hc |- *. intros x Hx. apply Hc.
          change (x ∈ (k :: rest) ++ free) in Hx. apply elem_of_app in Hx as [Hx|Hx]; apply elem_of_app; [left|right; apply elem_of_cons; right]; exact Hx. }
        { lia. }
        { lia. }
        { cbn. rewrite H0. destruct Hf. lia. }
        splits; auto.
    + destruct (take_piece m (k :: rest) free fr k rest bs size align Hm Hp Hc) as (G1 & G2 & G3 & G4 & G5 & G6); auto; try lia.
      { intros x Hx. apply elem_of_cons in Hx as [->|Hx]; auto. }
      rewrite (wrap_small 64 (_ + size)) in * by lia. splits; auto.
Qed.

End BucketProofs.
