(* ===== verification/ClassPool.v ===== *)
(** * The class pool: who owns which memory

    The invariant of a pool with size classes ([ant_class_pool_t], the pool of
    bigints) and its preservation by allocation.  [live] maps the address of
    every piece that has been handed out and not collected to its size;
    [fr] is the memory that belongs to the rest of the program. *)

From S2P Require Import Prelude Pool.

Definition class_regions (cp : ant_class_pool_t) : list (Z * Z) :=
  concat (map bucket_regions (cp_classes cp)) ++ map region (pl_head (cp_base cp) ++ pl_free (cp_base cp)).

(** A piece lies in a slot of a bucket, or in a block of the base chain. *)
Definition in_bucket (cp : ant_class_pool_t) (p n : Z) : Prop :=
  exists i b, cp_classes cp !! i = Some b /\ held b p /\ n <= slot_stride b.
Definition in_base (cp : ant_class_pool_t) (p n : Z) : Prop := exists k, k ∈ pl_head (cp_base cp) /\ in_block p n k.

Definition class_ok (i : nat) (b : ant_pool_bucket_t) : Prop :=
  bucket_ok b /\ exists c, g_size_classes !! i = Some c /\ stride_for c b /\ (bk_block_size b = 0 \/ c + 16 <= bk_block_size b).

Record pool_ok (fr m : mem) (cp : ant_class_pool_t) (live : gmap Z Z) : Prop := {
  po_mem : mem_ok m;
  po_regions : m ≡ₚ class_regions cp ++ fr;
  po_length : length (cp_classes cp) = ANT_POOL_SIZE_CLASS_COUNT;
  po_classes : forall i b, cp_classes cp !! i = Some b -> class_ok i b;
  po_size : pl_block_size (cp_base cp) = 0 \/ pl_block_size (cp_base cp) = ANT_POOL_BIGINT_BLOCK_SIZE;
  po_base : chain_ok ANT_POOL_BIGINT_BLOCK_SIZE (pl_head (cp_base cp)) (pl_free (cp_base cp));
  po_live : forall p n, live !! p = Some n -> 0 < n /\ (in_bucket cp p n \/ in_base cp p n);
  po_apart : forall p q n k, live !! p = Some n -> live !! q = Some k -> p <> q -> p + n <= q \/ q + k <= p }.

(** ** Replacing one bucket *)

Definition set_bucket (cp : ant_class_pool_t) (i : nat) (b : ant_pool_bucket_t) : ant_class_pool_t :=
  ClassPool (cp_base cp) (<[i := b]> (cp_classes cp)).

(** The regions of one bucket and of everything else. *)
Definition other_regions (cp : ant_class_pool_t) (i : nat) : list (Z * Z) :=
  concat (map bucket_regions (take i (cp_classes cp) ++ drop (S i) (cp_classes cp))) ++
  map region (pl_head (cp_base cp) ++ pl_free (cp_base cp)).

Lemma class_regions_split cp i b : cp_classes cp !! i = Some b -> class_regions cp ≡ₚ bucket_regions b ++ other_regions cp i.
Proof.
  intros Hi. unfold class_regions, other_regions. rewrite <- (take_drop_middle _ _ _ Hi) at 1.
  rewrite !map_app. cbn [map]. rewrite !concat_app. cbn [concat]. rewrite <- !app_assoc, Permutation_app_swap_app. reflexivity.
Qed.

Lemma set_bucket_regions cp i b b' : cp_classes cp !! i = Some b -> class_regions (set_bucket cp i b') ≡ₚ bucket_regions b' ++ other_regions cp i.
Proof.
  intros Hi. assert (Hlt : (i < length (cp_classes cp))%nat) by (eapply lookup_lt_Some; eauto).
  assert (Hi' : cp_classes (set_bucket cp i b') !! i = Some b') by (cbn; apply list_lookup_insert_eq; exact Hlt).
  rewrite (class_regions_split _ i b' Hi'). unfold other_regions. cbn [set_bucket cp_classes cp_base].
  rewrite take_insert_ge, drop_insert_lt by lia. reflexivity.
Qed.

(** A block of another bucket is among the other regions. *)
Lemma other_bucket_region cp i j b k : cp_classes cp !! j = Some b -> j <> i -> k ∈ bk_head b -> region k ∈ other_regions cp i.
Proof.
  intros Hj Hne Hk. unfold other_regions. apply elem_of_app. left. apply list_elem_of_In, in_concat.
  exists (bucket_regions b). split.
  - apply in_map, list_elem_of_In, elem_of_app. destruct (decide (j < i)%nat) as [Hlt|Hge].
    + left. apply list_elem_of_lookup_2 with j. rewrite lookup_take_lt by exact Hlt. exact Hj.
    + right. apply list_elem_of_lookup_2 with (j - S i)%nat. rewrite lookup_drop. replace (S i + (j - S i))%nat with j by lia. exact Hj.
  - apply in_map, list_elem_of_In, elem_of_app. auto.
Qed.

Lemma base_region cp i k : k ∈ pl_head (cp_base cp) -> region k ∈ other_regions cp i.
Proof. intros Hk. unfold other_regions. apply elem_of_app. right. apply list_elem_of_In, in_map, list_elem_of_In, elem_of_app. auto. Qed.

(** Regions of the two sides of a split do not overlap. *)
Lemma split_disj m A C r1 r2 : mem_ok m -> m ≡ₚ A ++ C -> r1 ∈ A -> r2 ∈ C -> disj r1 r2.
Proof.
  intros Hm Hp H1 H2. rewrite Hp in Hm. destruct Hm as [[Hn Hs] _]. apply Hs; [apply elem_of_app; auto|apply elem_of_app; auto|].
  intros ->. apply NoDup_app in Hn as (_ & Hn & _). exact (Hn r2 H1 H2).
Qed.

Lemma slot_inside b p n : bucket_ok b -> is_slot b p -> n <= slot_stride b -> exists k, k ∈ bk_head b /\ inside p n k.
Proof.
  intros Hb (k & j & Hk & Hj & -> & Hle) Hn. exists k. split; [exact Hk|]. pose proof (bo_blocks b Hb) as Hbl. rewrite Forall_forall in Hbl.
  destruct (Hbl k) as [[? ? ? ?] _]; [apply elem_of_app; auto|]. destruct Hb as [[? _] _ _ _ _ _ _]. unfold inside. nia.
Qed.

Lemma piece_inside k p n : block_ok k -> in_block p n k -> inside p n k.
Proof. intros [? ? ? ?]. unfold in_block, inside. lia. Qed.

Section Update.
Context (fr m m' : mem) (cp : ant_class_pool_t) (live : gmap Z Z) (i : nat) (b b' : ant_pool_bucket_t).
Context (Hok : pool_ok fr m cp live) (Hi : cp_classes cp !! i = Some b).
Context (Hm' : mem_ok m') (Hp' : m' ≡ₚ bucket_regions b' ++ other_regions cp i ++ fr) (Hb' : class_ok i b').
Context (Hkeep : forall q n, live !! q = Some n -> held b q -> n <= slot_stride b -> held b' q /\ n <= slot_stride b').

(** A bucket may change as long as it keeps the slots that are in use. *)
Lemma set_bucket_ok : pool_ok fr m' (set_bucket cp i b') live.
Proof using All.
  destruct Hok as [H1 H2 H3 H4 H5 H6 H7 H8]. assert (Hlt : (i < length (cp_classes cp))%nat) by (eapply lookup_lt_Some; eauto).
  split; auto.
  - rewrite (set_bucket_regions cp i b b' Hi), <- app_assoc. exact Hp'.
  - cbn. rewrite length_insert. exact H3.
  - intros j x Hj. cbn in Hj. destruct (decide (i = j)) as [<-|Hne].
    + rewrite list_lookup_insert_eq in Hj by exact Hlt. congruence.
    + rewrite list_lookup_insert_ne in Hj by exact Hne. auto.
  - intros p n Hp. destruct (H7 p n Hp) as [Hn [(j & x & Hj & Hx & Hle)|Hb]]; split; auto. left.
    destruct (decide (i = j)) as [<-|Hne].
    + assert (x = b) as -> by congruence. destruct (Hkeep p n Hp Hx Hle). exists i, b'. cbn. rewrite list_lookup_insert_eq by exact Hlt. auto.
    + exists j, x. cbn. rewrite list_lookup_insert_ne by exact Hne. auto.
Qed.

(** A slot of the bucket that nobody held is apart from every piece in use. *)
Lemma new_slot_apart p n q k : held b' p -> ~ held b p -> n <= slot_stride b' -> live !! q = Some k -> p + n <= q \/ q + k <= p.
Proof using All.
  intros Hp Hnew Hn Hq. pose proof Hok as [H1 H2 H3 H4 H5 H6 H7 H8]. destruct Hb' as [Bok _].
  destruct (slot_inside b' p n Bok (proj1 Hp) Hn) as (kp & Hkp & Inp).
  assert (Rp : region kp ∈ bucket_regions b') by (apply list_elem_of_In, in_map, list_elem_of_In, elem_of_app; auto).
  assert (Hfar : forall kq, region kq ∈ other_regions cp i -> inside q k kq -> p + n <= q \/ q + k <= p).
  { intros kq Rq Inq. assert (Hd : disj (region kp) (region kq)).
    { apply (split_disj m' _ _ _ _ Hm' Hp' Rp). apply elem_of_app. auto. }
    eapply inside_disj; eassumption. }
  destruct (H7 q k Hq) as [_ [(j & x & Hj & Hx & Hle)|(kq & Hkq & Inq)]].
  - destruct (decide (i = j)) as [<-|Hne].
    + assert (x = b) as -> by congruence. destruct (Hkeep q k Hq Hx Hle) as [Hx' Hle'].
      assert (p <> q) by (intros ->; contradiction).
      destruct (slots_apart m' b' (other_regions cp i ++ fr) p q Hm' Hp' Bok (proj1 Hp) (proj1 Hx')); auto; lia.
    + destruct (H4 j x Hj) as [Xok _]. destruct (slot_inside x q k Xok (proj1 Hx) Hle) as (kq & Hkq & Inq).
      apply (Hfar kq); [|exact Inq]. eapply other_bucket_region; eauto.
  - apply (Hfar kq); [apply base_region, Hkq|]. apply piece_inside; [|exact Inq].
    unfold chain_ok in H6. rewrite Forall_forall in H6. apply H6, elem_of_app. auto.
Qed.
End Update.

(** A new piece, apart from the others, with a place of its own. *)
Lemma add_live fr m cp live p n : pool_ok fr m cp live -> 0 < n -> in_bucket cp p n \/ in_base cp p n ->
  (forall q k, live !! q = Some k -> p + n <= q \/ q + k <= p) -> pool_ok fr m cp (<[p := n]> live) /\ live !! p = None.
Proof.
  intros [H1 H2 H3 H4 H5 H6 H7 H8] Hn Hin Hd. split.
  - split; auto.
    + intros q k. rewrite lookup_insert_Some. intros [[<- <-]|[_ Hq]]; auto.
    + intros q r k l. rewrite !lookup_insert_Some. intros [[<- <-]|[_ Hq]] [[<- <-]|[_ Hr]] Hne; eauto; [contradiction|].
      destruct (Hd q k Hq); auto.
  - destruct (live !! p) as [k|] eqn:E; [|reflexivity]. destruct (H7 p k E) as [Hk _]. destruct (Hd p k E); lia.
Qed.

(** ** Allocation *)

Section Allocation.
Context `{Hos : OsMap}.

(** The system has memory for one more block. *)
Definition os_grants (m : mem) : Prop := forall n, 0 < n <= 2 ^ 31 -> os_alloc m n <> None.

Lemma block_alloc_none m cap : 0 < cap <= 2 ^ 30 -> pool_block_alloc m cap = None -> ~ os_grants m.
Proof using Type.
  intros Hc. unfold pool_block_alloc. cbv zeta. rewrite wrap_small by (unfold sizeof_pool_block; lia).
  destruct (os_alloc m (sizeof_pool_block + cap)) eqn:E; [discriminate|]. intros _ Hg. apply (Hg _) in E; [contradiction|unfold sizeof_pool_block; lia].
Qed.

(** A chain that fails has changed nothing, and the system had no memory. *)
Lemma chain_none m head free bs size align h f m' : mem_ok m -> 0 < size -> c_align align -> size + align <= bs <= 2 ^ 30 ->
  pool_alloc_chain m head free bs size align = (None, h, f, m') -> h = head /\ f = free /\ m' = m /\ ~ os_grants m.
Proof using Type.
  intros Hm Hs Ha Hbs. unfold pool_alloc_chain. destruct (Z.eqb_spec size 0); [lia|].
  destruct (c_align_range align Ha) as [Hr _]. destruct (Z.eqb_spec align 0); [lia|]. cbv zeta.
  rewrite (wrap_small 64 (size + align)), chain_cap by lia. destruct head as [|k rest].
  - destruct (pool_block_alloc m bs) as [[k m1]|] eqn:Ea; cbn [option_map].
    2: { intros [= <- <- <-]. splits; auto. apply (block_alloc_none m bs); [lia|exact Ea]. }
    destruct (block_alloc_ok m bs k m1 Hm ltac:(lia) Ea) as (Hk & Hu & Hkc & -> & Hm1).
    destruct (align_up_small 0 align Ha ltac:(lia)) as [G1 G2]. rewrite Z.mod_small in G2 by lia.
    rewrite Hu, G2, Hkc, (wrap_small 64 (0 + size)) by lia. destruct (Z.ltb_spec bs (0 + size)); [lia|discriminate].
  - case_if; [|discriminate]. destruct free; [|discriminate].
    destruct (pool_block_alloc m bs) as [[k1 m1]|] eqn:Ea; cbn [option_map]; [discriminate|].
    intros [= <- <- <-]. splits; auto. apply (block_alloc_none m bs); [lia|exact Ea].
Qed.

Lemma held_aligned b p align : bucket_ok b -> held b p -> c_align align -> p mod align = 0.
Proof using Type.
  intros Hb [(k & j & Hk & Hj & -> & Hle) _] Ha. destruct (c_align_range align Ha) as [Hr Hdiv].
  pose proof (bo_blocks b Hb) as Hbl. rewrite Forall_forall in Hbl. destruct (Hbl k) as [Hbk _]; [apply elem_of_app; auto|].
  pose proof (block_mod_align k align Hbk Ha) as Hd. destruct Hb as [[_ Hs] _ _ _ _ _ _].
  apply Z.mod_divide; [lia|]. apply Z.divide_add_r; [apply Z.mod_divide; [lia|exact Hd]|]. apply Z.divide_mul_r.
  eapply Z.divide_trans; [exact Hdiv|]. apply Z.mod_divide; [lia|exact Hs].
Qed.

(** One class: a slot nobody held, or nothing at all. *)
Lemma bucket_alloc_ok m i b fr class_size size align pool_bs : mem_ok m -> m ≡ₚ bucket_regions b ++ fr -> class_ok i b ->
  g_size_classes !! i = Some class_size -> 0 < size -> c_align align -> size + (align - 1) <= class_size -> 0 <= pool_bs <= 2 ^ 20 ->
  match bucket_alloc m b pool_bs class_size size align with
  | (Some p, b', m') => os_grants m ->
      mem_ok m' /\ m' ≡ₚ bucket_regions b' ++ fr /\ class_ok i b' /\ slot_stride b <= slot_stride b' /\ size <= slot_stride b' /\
      held b' p /\ ~ held b p /\ (forall q, held b q -> held b' q)
  | (None, b', m') => m' = m /\ bucket_regions b' = bucket_regions b /\ class_ok i b' /\ slot_stride b <= slot_stride b' /\
      (forall q, held b q -> held b' q) /\ ~ os_grants m
  end.
Proof using Type.
  intros Hm Hp [Hb (c & Hc & Hst & Hbs)] Hi Hs Ha Hfit Hpb. rewrite Hi in Hc. injection Hc as <-.
  pose proof (class_size_spec i class_size Hi) as Hcs. pose proof Hcs as Hcs'. unfold class_sizes_ok in Hcs'. boolprop.
  destruct (c_align_range align Ha) as [Hr _]. unfold bucket_alloc.
  set (b1 := if bk_block_size b =? 0 then _ else b).
  assert (Hb1 : bucket_ok b1 /\ bucket_regions b1 = bucket_regions b /\ slot_stride b1 = slot_stride b /\ (forall q, held b1 q <-> held b q) /\
                class_size + 16 <= bk_block_size b1).
  { unfold b1. destruct (Z.eqb_spec (bk_block_size b) 0) as [E|E]; [|splits; auto; destruct Hbs; [contradiction|assumption]].
    assert (Hsz : class_size + 16 <= bucket_block_size pool_bs class_size <= 2 ^ 20) by (unfold bucket_block_size; case_if; boolprop; lia).
    splits; auto; [|cbn; lia]. destruct Hb. split; cbn; auto. lia. }
  destruct Hb1 as (Hb1 & Hr1 & Hs1 & Hh1 & Hz1). rewrite <- Hr1 in Hp. clearbody b1.
  assert (Hst1 : stride_for class_size b1) by (unfold stride_for in *; rewrite Hs1; exact Hst).
  assert (Hle : forall b', slot_stride b' = align_up_size class_size max_align -> slot_stride b <= slot_stride b' /\ size <= slot_stride b').
  { intros b' E. rewrite E. change max_align with 16. destruct Hst as [E2|E2]; rewrite E2; [|change max_align with 16]; lia. }
  pose proof (fast_ok m b1 fr class_size align Hm Hp Hb1 Hst1 Hcs ltac:(lia)) as Hfast.
  destruct (pool_bucket_alloc_fast m b1 class_size align) as [[r b2] m2] eqn:Ef.
  assert (Hkeepbs : bk_block_size b2 = bk_block_size b1).
  { clear - Ef. unfold pool_bucket_alloc_fast in Ef. destruct (max_align <? align); [congruence|].
    destruct (slot_free _) in Ef; [|repeat case_match; injection Ef as <- <- <-; reflexivity].
    unfold bucket_refill in Ef. repeat case_match; simplify_eq; reflexivity. }
  destruct r as [p|].
  - intros _. destruct Hfast as (F1 & F2 & F3 & F4 & F5 & F6 & F7). destruct (Hle b2 F4). splits; auto.
    + split; [exact F3|]. exists class_size. splits; auto; [right; exact F4|right; lia].
    + intros Hq. apply F6, Hh1, Hq.
    + intros q Hq. apply F7, Hh1, Hq.
  - destruct Hfast as (-> & F2 & F3 & F4 & F5 & F6 & n & Hn & Hnone).
    destruct (pool_alloc_chain m (bk_head b2) (bk_free b2) (bk_block_size b2) size align) as [[[r h] f] m3] eqn:Ec.
    destruct r as [p|].
    { intros Hg. destruct (Hg n Hn Hnone). }
    apply chain_none in Ec as (-> & -> & -> & Hng); [|exact Hm|exact Hs|exact Ha|destruct F3 as [_ _ ? _ _ _ _]; lia].
    replace (set_free (set_head b2 (bk_head b2)) (bk_free b2)) with b2 by (destruct b2; reflexivity).
    splits; auto; [congruence| |lia|].
    + split; [exact F3|]. exists class_size. splits; auto. right. lia.
    + intros q Hq. apply F6, Hh1, Hq.
Qed.

(** The block size of the base pool is settled by the first allocation. *)
Definition settled (cp : ant_class_pool_t) : ant_class_pool_t :=
  ClassPool (Pool (pl_head (cp_base cp)) (pl_free (cp_base cp)) ANT_POOL_BIGINT_BLOCK_SIZE) (cp_classes cp).

Lemma settled_ok fr m cp live : pool_ok fr m cp live -> pool_ok fr m (settled cp) live.
Proof using Type. intros [H1 H2 H3 H4 H5 H6 H7 H8]. split; auto. Qed.

Lemma base_alloc_ok fr m cp live size align : pool_ok fr m cp live -> 0 < size -> c_align align -> size + align <= ANT_POOL_BIGINT_BLOCK_SIZE ->
  match pool_alloc_chain m (pl_head (cp_base cp)) (pl_free (cp_base cp)) ANT_POOL_BIGINT_BLOCK_SIZE size align with
  | (Some p, h, f, m') => pool_ok fr m' (ClassPool (Pool h f ANT_POOL_BIGINT_BLOCK_SIZE) (cp_classes cp)) (<[p := size]> live) /\
      live !! p = None /\ p mod align = 0
  | (None, h, f, m') => h = pl_head (cp_base cp) /\ f = pl_free (cp_base cp) /\ m' = m
  end.
Proof using Type.
  intros Hok Hs Ha Hfit. pose proof Hok as [H1 H2 H3 H4 H5 H6 H7 H8]. set (base := cp_base cp) in *.
  set (rest := concat (map bucket_regions (cp_classes cp))).
  assert (Hp : m ≡ₚ map region (pl_head base ++ pl_free base) ++ rest ++ fr).
  { rewrite H2. unfold class_regions. fold base rest. rewrite <- app_assoc, Permutation_app_swap_app. reflexivity. }
  pose proof (chain_alloc_ok m _ _ (rest ++ fr) ANT_POOL_BIGINT_BLOCK_SIZE size align H1 Hp H6 Hs Ha ltac:(unfold ANT_POOL_BIGINT_BLOCK_SIZE in *; lia)) as Hc.
  destruct (pool_alloc_chain _ _ _ _ _ _) as [[[[p|] h] f] m'] eqn:E; [|exact Hc].
  destruct Hc as (C1 & C2 & C3 & C4 & (x & Hx & Inx) & C6 & C7).
  set (cp' := ClassPool _ _). assert (Hbase : forall q n, in_base cp q n -> in_base cp' q n).
  { intros q n (k & Hk & Hq). destruct (C6 k Hk) as (k' & Hk' & Ed & Hu). exists k'. split; [exact Hk'|]. unfold in_block in *. lia. }
  assert (Hok' : pool_ok fr m' cp' live).
  { split; auto.
    - rewrite C2. unfold class_regions. cbn. fold rest. rewrite <- app_assoc, Permutation_app_swap_app. reflexivity.
    - intros q n Hq. destruct (H7 q n Hq) as [Hn [Hb|Hb]]; auto. }
  destruct (add_live fr m' cp' live p size Hok' Hs) as [A1 A2]; [right; exists x; auto| |auto].
  intros q n Hq. destruct (H7 q n Hq) as [_ [(j & b & Hj & Hb & Hle)|(k & Hk & Ink)]]; [|eauto].
  destruct (H4 j b Hj) as [Bok _]. destruct (slot_inside b q n Bok (proj1 Hb) Hle) as (kb & Hkb & Inb).
  assert (Hxok : block_ok x) by (unfold chain_ok in C3; rewrite Forall_forall in C3; apply C3, elem_of_app; auto).
  apply (inside_disj p size q n x kb); [|apply piece_inside; assumption|exact Inb].
  apply (split_disj m' _ _ _ _ C1 C2).
  - apply list_elem_of_In, in_map, list_elem_of_In, elem_of_app. auto.
  - apply elem_of_app. left. apply list_elem_of_In, in_concat. exists (bucket_regions b). split.
    + apply in_map, list_elem_of_In. eapply list_elem_of_lookup_2. exact Hj.
    + apply in_map, list_elem_of_In, elem_of_app. auto.
Qed.

(** Allocation from the class pool: a fresh, aligned piece apart from all
    others, or nothing and no change that matters. *)
Lemma class_alloc_ok fr m cp live size align : pool_ok fr m cp live -> 0 < size -> c_align align -> size + align <= ANT_POOL_BIGINT_BLOCK_SIZE ->
  match class_pool_alloc m cp size align with
  | (Some p, cp', m') => os_grants m -> pool_ok fr m' cp' (<[p := size]> live) /\ live !! p = None /\ p mod align = 0
  | (None, cp', m') => pool_ok fr m' cp' live /\ ~ os_grants m
  end.
Proof using Type.
  intros Hok0 Hs Ha Hfit. unfold class_pool_alloc.
  set (pool := if pl_block_size (cp_base cp) =? 0 then _ else cp_base cp).
  assert (Hpool : pool = cp_base (settled cp)).
  { unfold pool. destruct (Z.eqb_spec (pl_block_size (cp_base cp)) 0) as [E|E]; [reflexivity|].
    destruct (po_size _ _ _ _ Hok0) as [E2|E2]; [contradiction|]. unfold settled. cbn. rewrite <- E2. destruct (cp_base cp); reflexivity. }
  rewrite Hpool. clear pool Hpool. change (pl_block_size (cp_base (settled cp))) with ANT_POOL_BIGINT_BLOCK_SIZE.
  pose proof (settled_ok _ _ _ _ Hok0) as Hok. set (sp := settled cp) in *. change (cp_classes cp) with (cp_classes sp). clearbody sp. clear Hok0.
  destruct (c_align_range align Ha) as [Hr _]. assert (Hbs : ANT_POOL_BIGINT_BLOCK_SIZE = 65536) by reflexivity.
  rewrite (wrap_small 64 (size + _)) by lia.
  destruct (pool_size_class_index (size + (align - 1))) as [i|] eqn:Ei.
  - apply class_index_spec in Ei as (c & _ & Hc & Hneed). rewrite Nat.sub_0_r in Hc.
    assert (Hlt : (i < length (cp_classes sp))%nat) by (rewrite (po_length _ _ _ _ Hok); apply lookup_lt_Some in Hc; exact Hc).
    destruct (lookup_lt_is_Some_2 _ _ Hlt) as [b Hb]. rewrite (nth_lookup_Some _ _ _ _ Hb), (nth_lookup_Some _ _ _ _ Hc).
    pose proof (class_regions_split sp i b Hb) as Hsplit.
    assert (Hp : m ≡ₚ bucket_regions b ++ other_regions sp i ++ fr) by (rewrite (po_regions _ _ _ _ Hok), Hsplit, <- app_assoc; reflexivity).
    pose proof (bucket_alloc_ok m i b _ c size align ANT_POOL_BIGINT_BLOCK_SIZE (po_mem _ _ _ _ Hok) Hp (po_classes _ _ _ _ Hok i b Hb) Hc Hs Ha Hneed ltac:(lia)) as Hba.
    destruct (bucket_alloc m b ANT_POOL_BIGINT_BLOCK_SIZE c size align) as [[[p|] b'] m'].
    + intros Hg. destruct (Hba Hg) as (G1 & G2 & G3 & G4 & G5 & G6 & G7 & G8). change (ClassPool (cp_base sp) (<[i:=b']> (cp_classes sp))) with (set_bucket sp i b').
      assert (Hkeep : forall q n, live !! q = Some n -> held b q -> n <= slot_stride b -> held b' q /\ n <= slot_stride b') by (intros; split; [auto|lia]).
      pose proof (set_bucket_ok fr m m' sp live i b b' Hok Hb G1 G2 G3 Hkeep) as Hok'.
      destruct (add_live fr m' _ live p size Hok' Hs) as [A1 A2].
      * left. exists i, b'. cbn. rewrite list_lookup_insert_eq by exact Hlt. auto.
      * intros q n Hq. eapply (new_slot_apart fr m m' sp live i b b'); eauto.
      * splits; auto. apply (held_aligned b'); auto. apply G3.
    + destruct Hba as (-> & G2 & G3 & G4 & G5 & G6). split; [|exact G6]. apply (set_bucket_ok fr m m sp live i b b' Hok Hb (po_mem _ _ _ _ Hok)); auto; [rewrite G2; exact Hp|].
      intros. split; [auto|lia].
  - pose proof (base_alloc_ok fr m sp live size align Hok Hs Ha Hfit) as Hbase.
    destruct (pool_alloc_chain _ _ _ _ _ _) as [[[[p|] h] f] m'] eqn:E; [intros _; exact Hbase|].
    destruct Hbase as (-> & -> & ->). apply chain_none in E; [|apply Hok|exact Hs|exact Ha|lia].
    split; [|apply E]. destruct Hok as [H1 H2 H3 H4 H5 H6 H7 H8]. split; auto.
Qed.

End Allocation.
