(* ===== verification/BigIntGc.v ===== *)
(** * Collection of bigints

    [src/src/gc/bigints.c]: the table of blocks with their mark bits, the
    binary search that marks a pointer, and the sweep that returns slots and
    blocks to the class pool.  [malloc_ok n] says whether [n] bytes can be
    allocated for the table or for the mark bits of a block; a block that
    cannot be tracked is left out of the table. *)

From stdpp Require Import sorting.
From S2P Require Import Prelude Pool ClassPool.

Definition sizeof_gc_block : Z := 64.

(** [g_block] is the data address of the block, [g_bucket] the index of its
    size class ([None] in the base chain). *)
Record gc_bigint_block_t := GcBlock {
  g_base : Z; g_end : Z; g_block : Z; g_bucket : option nat; g_stride : Z; g_slot_count : Z;
  g_marks : list Z; g_block_live : bool }.

(** The global table with its capacity. *)
Record gc_table := GcTable { g_bigint_blocks : list gc_bigint_block_t; g_bigint_block_cap : Z }.

Definition by_base (x y : gc_bigint_block_t) : Prop := g_base x <= g_base y.
#[global] Instance by_base_dec : RelDecision by_base.
Proof. intros x y. unfold by_base. apply _. Defined.

(** ** Mark bits *)

Definition set_mark (marks : list Z) (slot : Z) : list Z :=
  alter (fun byte => u8 (byte .| (1 .<< (slot mod 8)))) (Z.to_nat (slot / 8)) marks.
Definition get_mark (marks : list Z) (slot : Z) : bool :=
  negb ((rd marks (Z.to_nat (slot / 8)) .>> (slot mod 8)) .& 1 =? 0).

Section Gc.
Context (malloc_ok : Z -> bool).

Fixpoint reserve_loop (fuel : nat) (cap need : Z) : Z :=
  match fuel with
  | O => cap
  | S fuel => if cap <? need then reserve_loop fuel (u64 (cap * 2)) need else cap
  end.

Definition bigint_blocks_reserve (count cap n : Z) : Z :=
  if count + n <=? cap then cap
  else
    let cap' := reserve_loop 64 (if cap =? 0 then 32 else u64 (cap * 2)) (count + n) in
    if malloc_ok (u64 (cap' * sizeof_gc_block)) then cap' else cap.

Definition bigint_block_add (t : gc_table) (k : ant_pool_block_t) (bucket : option nat) (stride : Z) : gc_table :=
  if b_used k =? 0 then t
  else
    let count := Z.of_nat (length (g_bigint_blocks t)) in
    let cap := bigint_blocks_reserve count (g_bigint_block_cap t) 1 in
    if cap <=? count then GcTable (g_bigint_blocks t) cap
    else
      let slot_count := if stride =? 0 then 0 else b_used k / stride in
      let mark_bytes := (slot_count + 7) / 8 in
      if negb (mark_bytes =? 0) && negb (malloc_ok mark_bytes) then GcTable (g_bigint_blocks t) cap
      else GcTable (g_bigint_blocks t ++
             [GcBlock (b_data k) (b_data k + b_used k) (b_data k) bucket stride slot_count (replicate (Z.to_nat mark_bytes) 0) false]) cap.

Definition add_bucket (t : gc_table) (ib : nat * ant_pool_bucket_t) : gc_table :=
  let '(i, b) := ib in
  if slot_stride b =? 0 then t
  else foldl (fun t k => bigint_block_add t k (Some i) (slot_stride b)) t (bk_head b).

Definition gc_bigints_begin (t : gc_table) (cp : ant_class_pool_t) : gc_table * ant_class_pool_t :=
  let t := GcTable [] (g_bigint_block_cap t) in
  let classes := map (fun b => set_slots b []) (cp_classes cp) in
  let t := foldl add_bucket t (zip (seq 0 (length classes)) classes) in
  let t := foldl (fun t k => bigint_block_add t k None 0) t (pl_head (cp_base cp)) in
  (GcTable (merge_sort by_base (g_bigint_blocks t)) (g_bigint_block_cap t), ClassPool (cp_base cp) classes).

(** The index of the entry the search stops at. *)
Fixpoint search_block (fuel : nat) (entries : list gc_bigint_block_t) (lo hi : nat) (value : Z) : option nat :=
  match fuel with
  | O => None
  | S fuel =>
      if (lo <? hi)%nat then
        let mid := (lo + (hi - lo) / 2)%nat in
        match entries !! mid with
        | None => None
        | Some entry =>
            if value <? g_base entry then search_block fuel entries lo mid value
            else if g_end entry <=? value then search_block fuel entries (mid + 1) hi value
            else Some mid
        end
      else None
  end.

Definition mark_entry (value : Z) (e : gc_bigint_block_t) : gc_bigint_block_t :=
  if g_stride e =? 0 then
    GcBlock (g_base e) (g_end e) (g_block e) (g_bucket e) (g_stride e) (g_slot_count e) (g_marks e) true
  else
    let offset := value - g_base e in
    if negb (offset mod g_stride e =? 0) then e
    else
      let slot := offset / g_stride e in
      if g_slot_count e <=? slot then e
      else GcBlock (g_base e) (g_end e) (g_block e) (g_bucket e) (g_stride e) (g_slot_count e) (set_mark (g_marks e) slot) (g_block_live e).

Definition gc_bigints_mark (entries : list gc_bigint_block_t) (value : Z) : list gc_bigint_block_t :=
  if (value =? 0) || (length entries =? 0)%nat then entries
  else match search_block (length entries) entries 0 (length entries) value with
       | Some mid => alter (mark_entry value) mid entries
       | None => entries
       end.

(** ** Sweep *)

(** [bigint_block_unlink] and [bigint_block_recycle] on a chain and its free list. *)
Definition bigint_block_unlink (d : Z) (head : list ant_pool_block_t) : list ant_pool_block_t :=
  filter (fun k => b_data k <> d) head.
Definition bigint_block_recycle (d : Z) (head free : list ant_pool_block_t) : list ant_pool_block_t :=
  map (fun k => set_used k 0) (filter (fun k => b_data k = d) head) ++ free.

Definition slots_of (e : gc_bigint_block_t) : list Z := map Z.of_nat (seq 0 (Z.to_nat (g_slot_count e))).
Definition any_live (e : gc_bigint_block_t) : bool := existsb (get_mark (g_marks e)) (slots_of e).
Definition free_slots (e : gc_bigint_block_t) (slots : list Z) : list Z :=
  foldl (fun sf slot => if get_mark (g_marks e) slot then sf else (g_base e + slot * g_stride e) :: sf) slots (slots_of e).

Definition sweep_bucket (e : gc_bigint_block_t) (b : ant_pool_bucket_t) : ant_pool_bucket_t :=
  if any_live e then set_slots b (free_slots e (slot_free b))
  else Bucket (bigint_block_unlink (g_block e) (bk_head b))
         (if bool_decide (bk_current b = Some (g_block e)) then None else bk_current b)
         (bigint_block_recycle (g_block e) (bk_head b) (bk_free b))
         (slot_free b) (bk_block_size b) (bk_cursor b) (bk_end b) (slot_stride b).

Definition sweep_entry (cp : ant_class_pool_t) (e : gc_bigint_block_t) : ant_class_pool_t :=
  if g_stride e =? 0 then
    if g_block_live e then cp
    else
      let pool := cp_base cp in
      ClassPool (Pool (bigint_block_unlink (g_block e) (pl_head pool)) (bigint_block_recycle (g_block e) (pl_head pool) (pl_free pool)) (pl_block_size pool))
        (cp_classes cp)
  else match g_bucket e with
       | Some i => ClassPool (cp_base cp) (alter (sweep_bucket e) i (cp_classes cp))
       | None => cp
       end.

(** Two blocks are kept, the rest is unmapped. *)
Definition bigint_free_list_trim (m : mem) (free : list ant_pool_block_t) : list ant_pool_block_t * mem :=
  (take 2 free, foldl pool_block_free m (drop 2 free)).

Definition trim_bucket (cm : ant_class_pool_t * mem) (i : nat) : ant_class_pool_t * mem :=
  let '(cp, m) := cm in
  match cp_classes cp !! i with
  | Some b => let '(f, m) := bigint_free_list_trim m (bk_free b) in (set_bucket cp i (set_free b f), m)
  | None => (cp, m)
  end.

Definition gc_bigints_sweep (entries : list gc_bigint_block_t) (cp : ant_class_pool_t) (m : mem) : ant_class_pool_t * mem :=
  let cp := foldl sweep_entry cp entries in
  let '(cp, m) := foldl trim_bucket (cp, m) (seq 0 (length (cp_classes cp))) in
  let '(f, m) := bigint_free_list_trim m (pl_free (cp_base cp)) in
  (ClassPool (Pool (pl_head (cp_base cp)) f (pl_block_size (cp_base cp))) (cp_classes cp), m).

(** One collection: the pointers of [roots] are marked. *)
Definition collect_bigints (t : gc_table) (cp : ant_class_pool_t) (m : mem) (roots : list Z) : gc_table * ant_class_pool_t * mem :=
  let '(t, cp) := gc_bigints_begin t cp in
  let entries := foldl gc_bigints_mark (g_bigint_blocks t) roots in
  let '(cp, m) := gc_bigints_sweep entries cp m in
  (GcTable [] (g_bigint_block_cap t), cp, m).

End Gc.

(** ** Mark bits *)

Lemma get_mark_bit marks slot : 0 <= slot -> get_mark marks slot = Z.testbit (rd marks (Z.to_nat (slot / 8))) (slot mod 8).
Proof.
  intros Hs. unfold get_mark. set (x := rd marks _). pose proof (Z.mod_pos_bound slot 8 ltac:(lia)).
  change 1 with (2 ^ 0). rewrite land_pow2 by lia. rewrite Z.shiftr_spec, Z.add_0_l by lia.
  destruct (Z.testbit x (slot mod 8)); reflexivity.
Qed.

Lemma rd_alter f i j l : (j < length l)%nat -> rd (alter f i l) j = if decide (i = j) then f (rd l j) else rd l j.
Proof.
  intros Hj. unfold rd. destruct (lookup_lt_is_Some_2 _ _ Hj) as [x Hx]. rewrite (nth_lookup_Some l _ _ _ Hx).
  destruct (decide (i = j)) as [<-|Hne].
  - erewrite nth_lookup_Some; [reflexivity|]. rewrite list_lookup_alter_eq, Hx. reflexivity.
  - erewrite nth_lookup_Some; [reflexivity|]. rewrite list_lookup_alter_ne by exact Hne. exact Hx.
Qed.

Lemma get_set_mark marks slot s : 0 <= slot -> 0 <= s -> s / 8 < zlen marks ->
  get_mark (set_mark marks slot) s = (s =? slot) || get_mark marks s.
Proof.
  intros Hs Hs' Hlen. rewrite !get_mark_bit by lia. unfold set_mark. pose proof (Z.div_pos s 8 Hs' ltac:(lia)). pose proof (Z.div_pos slot 8 Hs ltac:(lia)).
  rewrite rd_alter by (unfold zlen in Hlen; lia). pose proof (Z.mod_pos_bound s 8 ltac:(lia)). pose proof (Z.mod_pos_bound slot 8 ltac:(lia)).
  pose proof (Z.div_mod s 8 ltac:(lia)). pose proof (Z.div_mod slot 8 ltac:(lia)).
  destruct (decide (Z.to_nat (slot / 8) = Z.to_nat (s / 8))) as [E|E].
  - unfold wrap. rewrite Z.mod_pow2_bits_low, Z.lor_spec by lia. rewrite orb_comm. f_equal.
    rewrite Z.shiftl_spec by lia. destruct (Z.eqb_spec s slot) as [->|Hne].
    + rewrite Z.sub_diag. reflexivity.
    + destruct (Z.eq_dec (s mod 8) (slot mod 8)); [lia|]. destruct (decide (s mod 8 < slot mod 8)).
      * apply Z.testbit_neg_r. lia.
      * apply testbit_small with 1; lia.
  - destruct (Z.eqb_spec s slot) as [->|Hne]; [contradiction|reflexivity].
Qed.

Lemma get_mark_zero n s : 0 <= s -> get_mark (replicate n 0) s = false.
Proof.
  intros Hs. rewrite get_mark_bit by lia. replace (rd (replicate n 0) _) with 0; [apply Z.testbit_0_l|].
  unfold rd. symmetry. generalize (Z.to_nat (s / 8)). induction n as [|n IH]; intros [|i]; cbn; auto.
Qed.

(** ** Searching the table *)

(** The entries are in order and their ranges do not overlap. *)
Definition in_order (es : list gc_bigint_block_t) : Prop :=
  forall i j x y, es !! i = Some x -> es !! j = Some y -> (i < j)%nat -> g_end x <= g_base y.
Definition covers (e : gc_bigint_block_t) (p : Z) : Prop := g_base e <= p < g_end e.

Lemma search_found es p i e : in_order es -> Forall (fun e => g_base e < g_end e) es -> es !! i = Some e -> covers e p ->
  forall fuel lo hi, (lo <= i < hi)%nat -> (hi <= length es)%nat -> (hi - lo <= fuel)%nat -> search_block fuel es lo hi p = Some i.
Proof.
  intros Hord Hne Hi Hc. unfold covers in Hc. rewrite Forall_forall in Hne.
  induction fuel as [|fuel IH]; intros lo hi Hb Hh Hf; [lia|]. cbn [search_block].
  destruct (Nat.ltb_spec lo hi); [|lia]. cbv zeta. set (mid := (lo + (hi - lo) / 2)%nat).
  assert (Hmid : (lo <= mid < hi)%nat) by (unfold mid; pose proof (Nat.div_lt (hi - lo) 2); lia).
  destruct (lookup_lt_is_Some_2 es mid) as [x Hx]; [lia|]. rewrite Hx.
  assert (Hnx : g_base x < g_end x) by (apply Hne; eapply list_elem_of_lookup_2; eauto).
  destruct (lt_eq_lt_dec mid i) as [[Hlt|Heq]|Hgt].
  - pose proof (Hord mid i x e Hx Hi Hlt). destruct (Z.ltb_spec p (g_base x)); [lia|]. destruct (Z.leb_spec (g_end x) p); [|lia].
    apply IH; lia.
  - subst i. rewrite Hx in Hi. injection Hi as ->. destruct (Z.ltb_spec p (g_base e)); [lia|]. destruct (Z.leb_spec (g_end e) p); [lia|].
    f_equal.
  - pose proof (Hord i mid e x Hi Hx Hgt). destruct (Z.ltb_spec p (g_base x)); [|lia]. apply IH; lia.
Qed.

(** ** Marking *)

(** The shape of an entry is settled when it is built. *)
Definition entry_shape (e : gc_bigint_block_t) : Z * Z * Z * option nat * Z * Z * nat :=
  (g_base e, g_end e, g_block e, g_bucket e, g_stride e, g_slot_count e, length (g_marks e)).

(** The pointer is marked in the entry. *)
Definition marked (e : gc_bigint_block_t) (p : Z) : Prop :=
  if g_stride e =? 0 then g_block_live e = true
  else (p - g_base e) mod g_stride e = 0 -> (p - g_base e) / g_stride e < g_slot_count e ->
       get_mark (g_marks e) ((p - g_base e) / g_stride e) = true.

Lemma mark_shape p e : entry_shape (mark_entry p e) = entry_shape e.
Proof.
  unfold mark_entry. case_if; [reflexivity|]. cbv zeta. case_if; [reflexivity|]. case_if; [reflexivity|].
  unfold entry_shape. cbn. unfold set_mark. rewrite length_alter. reflexivity.
Qed.

Lemma gc_mark_shape es p : map entry_shape (gc_bigints_mark es p) = map entry_shape es.
Proof.
  unfold gc_bigints_mark. case_if; [reflexivity|]. destruct (search_block _ _ _ _ _) as [i|]; [|reflexivity].
  apply list_eq. intros j. rewrite !list_lookup_fmap. destruct (decide (i = j)) as [<-|Hne].
  - rewrite list_lookup_alter_eq. destruct (es !! i); cbn; [rewrite mark_shape; reflexivity|reflexivity].
  - rewrite list_lookup_alter_ne by exact Hne. reflexivity.
Qed.

Definition marks_fit (e : gc_bigint_block_t) : Prop :=
  0 <= g_stride e /\ 0 <= g_slot_count e <= 8 * zlen (g_marks e) /\ g_base e < g_end e.

Lemma mark_keeps q p e : marks_fit e -> g_base e <= p -> g_base e <= q -> marked e q -> marked (mark_entry p e) q.
Proof.
  intros (H1 & H2 & H3) Hp Hq. unfold marked, mark_entry. destruct (Z.eqb_spec (g_stride e) 0) as [E|E].
  - intros _. cbn [g_stride]. rewrite E. reflexivity.
  - cbv zeta. case_if; [apply Z.eqb_neq in E; rewrite E; auto|]. case_if; [apply Z.eqb_neq in E; rewrite E; auto|]. cbn [g_stride g_base g_marks g_slot_count].
    apply Z.eqb_neq in E as E'. rewrite E'. intros Hm Hz Hlt. assert (0 <= (q - g_base e) / g_stride e) by (apply Z.div_pos; lia).
    rewrite get_set_mark; [rewrite Hm by assumption; apply orb_true_r|apply Z.div_pos; lia|lia|].
    apply Z.div_lt_upper_bound; lia.
Qed.

Lemma mark_marks p e : marks_fit e -> g_base e <= p -> marked (mark_entry p e) p.
Proof.
  intros (H1 & H2 & H3) Hp. unfold marked, mark_entry. destruct (Z.eqb_spec (g_stride e) 0) as [E|E].
  - cbn [g_stride g_block_live]. rewrite E. reflexivity.
  - cbv zeta. case_if; boolprop; [apply Z.eqb_neq in E; rewrite E; intros; contradiction|].
    case_if; boolprop; [apply Z.eqb_neq in E; rewrite E; intros; lia|]. cbn [g_stride g_base g_marks g_slot_count].
    apply Z.eqb_neq in E as E'. rewrite E'. intros _ _. assert (0 <= (p - g_base e) / g_stride e) by (apply Z.div_pos; lia).
    rewrite get_set_mark, Z.eqb_refl; [reflexivity|lia|lia|]. apply Z.div_lt_upper_bound; lia.
Qed.

Definition table_ok (es : list gc_bigint_block_t) : Prop := in_order es /\ Forall marks_fit es.
(** Every entry that covers the pointer has it marked. *)
Definition all_marked (es : list gc_bigint_block_t) (p : Z) : Prop := forall i e, es !! i = Some e -> covers e p -> marked e p.

Lemma shape_lookup es es' i e' : map entry_shape es' = map entry_shape es -> es' !! i = Some e' ->
  exists e, es !! i = Some e /\ entry_shape e' = entry_shape e.
Proof.
  intros E Hi. assert (Hl : map entry_shape es !! i = Some (entry_shape e')) by (rewrite <- E, list_lookup_fmap, Hi; reflexivity).
  rewrite list_lookup_fmap in Hl. destruct (es !! i) as [e|]; [|discriminate]. exists e. cbn in Hl. split; [reflexivity|congruence].
Qed.

Lemma shape_table_ok es es' : map entry_shape es' = map entry_shape es -> table_ok es -> table_ok es'.
Proof.
  intros E [Ho Hf]. split.
  - intros i j x y Hi Hj Hlt. apply (shape_lookup _ _ _ _ E) in Hi as (x0 & Hx & Ex), Hj as (y0 & Hy & Ey).
    pose proof (Ho i j x0 y0 Hx Hy Hlt). unfold entry_shape in Ex, Ey. simplify_eq. lia.
  - apply Forall_lookup. intros i x Hi. apply (shape_lookup _ _ _ _ E) in Hi as (x0 & Hx & Ex).
    rewrite Forall_lookup in Hf. specialize (Hf i x0 Hx). unfold entry_shape in Ex. unfold marks_fit, zlen in *. simplify_eq. lia.
Qed.

Lemma mark_all_keeps es p q : table_ok es -> all_marked es q -> all_marked (gc_bigints_mark es p) q.
Proof.
  intros [Ho Hf] Hq. unfold gc_bigints_mark. case_if; [exact Hq|].
  destruct (search_block (length es) es 0 (length es) p) as [i|] eqn:Es; [|exact Hq].
  intros j e Hj Hc. destruct (decide (i = j)) as [<-|Hne]; [|rewrite list_lookup_alter_ne in Hj by exact Hne; eauto].
  rewrite list_lookup_alter_eq in Hj. destruct (es !! i) as [x|] eqn:Hx; [|discriminate]. cbn in Hj. injection Hj as <-.
  assert (Hcp : g_base x <= p).
  { clear - Es Hx. revert Es. generalize (length es) at 2 as hi, 0%nat as lo. induction (length es) as [|fuel IH]; intros hi lo; cbn [search_block]; [discriminate|].
    case_if; [|discriminate]. cbv zeta.
    generalize (lo + (hi - lo) / 2)%nat as mid. intros mid. destruct (es !! mid) as [y|] eqn:Hy; [|discriminate].
    case_if; [apply IH|]. case_if; [apply IH|]. intros [= ->]. rewrite Hx in Hy. injection Hy as <-. boolprop. lia. }
  rewrite Forall_lookup in Hf. pose proof (mark_shape p x) as Hsh. unfold covers in Hc. unfold entry_shape in Hsh. 
  assert (g_base (mark_entry p x) = g_base x /\ g_end (mark_entry p x) = g_end x) as [E1 E2] by (split; congruence).
  apply mark_keeps; [eapply Hf; eauto|exact Hcp|lia|]. eapply Hq; [exact Hx|]. unfold covers. lia.
Qed.

Lemma mark_all_marks es p : table_ok es -> p <> 0 -> all_marked (gc_bigints_mark es p) p.
Proof.
  intros [Ho Hf] Hp0 j e Hj Hc. pose proof (gc_mark_shape es p) as Hsh.
  destruct (shape_lookup _ _ _ _ Hsh Hj) as (x & Hx & Ex). unfold entry_shape in Ex.
  assert (Hcx : covers x p) by (unfold covers in *; assert (g_base e = g_base x /\ g_end e = g_end x) as [<- <-] by (split; congruence); exact Hc).
  assert (Hne : Forall (fun e => g_base e < g_end e) es) by (eapply Forall_impl; [exact Hf|]; intros y (_ & _ & Hy); exact Hy).
  unfold gc_bigints_mark in Hj. destruct (Z.eqb_spec p 0); [contradiction|].
  assert (Hlt : (j < length es)%nat) by (eapply lookup_lt_Some; eauto).
  destruct (Nat.eqb_spec (length es) 0); [lia|]. cbn [orb] in Hj.
  rewrite (search_found es p j x Ho Hne Hx Hcx) in Hj by lia. rewrite list_lookup_alter_eq, Hx in Hj. cbn in Hj. injection Hj as <-.
  apply mark_marks; [|apply Hcx]. rewrite Forall_lookup in Hf. eauto.
Qed.

Lemma marking_ok roots : forall es, table_ok es ->
  let es' := foldl gc_bigints_mark es roots in
  map entry_shape es' = map entry_shape es /\ table_ok es' /\
  (forall q, all_marked es q -> all_marked es' q) /\ (forall p, p ∈ roots -> p <> 0 -> all_marked es' p).
Proof.
  induction roots as [|r roots IH]; intros es Hes; cbn [foldl]; [splits; auto; intros p Hp; inversion Hp|].
  assert (Ht : table_ok (gc_bigints_mark es r)) by (eapply shape_table_ok; [apply gc_mark_shape|exact Hes]).
  destruct (IH _ Ht) as (E & G1 & G2 & G3). splits; auto.
  - rewrite E. apply gc_mark_shape.
  - intros q Hq. apply G2, mark_all_keeps; assumption.
  - intros p Hp Hp0. apply elem_of_cons in Hp as [->|Hp]; auto. apply G2, mark_all_marks; assumption.
Qed.

(** ** Building the table *)

(** The block an entry stands for. *)
Definition entry_block (cp : ant_class_pool_t) (e : gc_bigint_block_t) (k : ant_pool_block_t) : Prop :=
  0 < b_used k /\ g_base e = b_data k /\ g_end e = b_data k + b_used k /\ g_block e = b_data k /\
  ((g_stride e = 0 /\ g_bucket e = None /\ k ∈ pl_head (cp_base cp)) \/
   (exists i b, g_bucket e = Some i /\ cp_classes cp !! i = Some b /\ k ∈ bk_head b /\ g_stride e = slot_stride b /\ 0 < slot_stride b /\
      g_slot_count e = b_used k / slot_stride b)).
Definition entry_of (cp : ant_class_pool_t) (e : gc_bigint_block_t) : Prop := marks_fit e /\ exists k, entry_block cp e k.

Definition all_blocks (cp : ant_class_pool_t) : list ant_pool_block_t :=
  concat (map (fun b => bk_head b ++ bk_free b) (cp_classes cp)) ++ pl_head (cp_base cp) ++ pl_free (cp_base cp).

Lemma all_blocks_regions cp : class_regions cp = map region (all_blocks cp).
Proof. unfold class_regions, all_blocks. symmetry. rewrite map_app, concat_map, map_map. reflexivity. Qed.

Lemma bucket_in_all cp i b k : cp_classes cp !! i = Some b -> k ∈ bk_head b ++ bk_free b -> k ∈ all_blocks cp.
Proof.
  intros Hi Hk. unfold all_blocks. apply elem_of_app. left. apply list_elem_of_In, in_concat. exists (bk_head b ++ bk_free b).
  split; [|apply list_elem_of_In, Hk]. apply in_map_iff. exists b. split; [reflexivity|]. apply list_elem_of_In. eapply list_elem_of_lookup_2; eauto.
Qed.

Section Pools.
Context (fr m : mem) (cp : ant_class_pool_t) (live : gmap Z Z) (Hok : pool_ok fr m cp live).

Lemma all_blocks_ok : Forall block_ok (all_blocks cp).
Proof using Hok.
  unfold all_blocks. apply Forall_app. split.
  - apply Forall_concat, List.Forall_map, Forall_forall. intros b Hb. apply list_elem_of_lookup in Hb as [i Hb].
    destruct (po_classes _ _ _ _ Hok i b Hb) as [Bok _]. eapply Forall_impl; [apply (bo_blocks b Bok)|]. intros x []; assumption.
  - eapply Forall_impl; [apply (po_base _ _ _ _ Hok)|]. intros x []; assumption.
Qed.

Lemma all_data_nodup : NoDup (map b_data (all_blocks cp)).
Proof using Hok.
  apply (data_nodup m _ fr); [apply Hok| |apply all_blocks_ok]. rewrite <- all_blocks_regions. apply Hok.
Qed.

Lemma blocks_disj k1 k2 : k1 ∈ all_blocks cp -> k2 ∈ all_blocks cp -> b_data k1 <> b_data k2 -> disj (region k1) (region k2).
Proof using Hok.
  intros H1 H2 Hne. destruct Hok as [[[_ Hs] _] Hp _ _ _ _ _ _]. rewrite all_blocks_regions in Hp.
  apply Hs; [rewrite Hp; apply elem_of_app; left; apply list_elem_of_In, in_map, list_elem_of_In; assumption..|].
  unfold region. intros E. injection E. lia.
Qed.

Lemma same_block k1 k2 : k1 ∈ all_blocks cp -> k2 ∈ all_blocks cp -> b_data k1 = b_data k2 -> k1 = k2.
Proof using Hok.
  intros H1 H2 E. apply list_elem_of_lookup in H1 as [i Hi], H2 as [j Hj]. assert (i = j) as ->; [|congruence].
  eapply NoDup_lookup; [exact all_data_nodup| |]; rewrite list_lookup_fmap; [rewrite Hi; reflexivity|rewrite Hj; cbn; congruence].
Qed.

Lemma entry_in_all e k : entry_block cp e k -> k ∈ all_blocks cp.
Proof using Type.
  intros (_ & _ & _ & _ & [(_ & _ & Hk)|(i & b & _ & Hi & Hk & _)]).
  - unfold all_blocks. rewrite !elem_of_app. auto.
  - eapply bucket_in_all; [exact Hi|]. apply elem_of_app. auto.
Qed.

End Pools.

Section Build.
Context (malloc_ok : Z -> bool) (cp : ant_class_pool_t).

(** The table so far: entries of blocks of the pool, each at most once. *)
Definition built (t : gc_table) (datas : list Z) : Prop :=
  Forall (entry_of cp) (g_bigint_blocks t) /\ map g_base (g_bigint_blocks t) `sublist_of` datas.

Lemma built_more t datas x : built t datas -> built t (datas ++ [x]).
Proof. intros [H1 H2]. split; [exact H1|]. apply sublist_inserts_r, H2. Qed.

Lemma mark_bytes_enough n : 0 <= n -> 0 <= n <= 8 * zlen (replicate (Z.to_nat ((n + 7) / 8)) 0).
Proof.
  intros Hn. unfold zlen. rewrite length_replicate, Z2Nat.id by (apply Z.div_pos; lia).
  pose proof (Z.div_mod (n + 7) 8 ltac:(lia)). pose proof (Z.mod_pos_bound (n + 7) 8 ltac:(lia)). lia.
Qed.

Lemma block_add_built t datas k bucket stride : built t datas -> block_ok k -> 0 <= stride ->
  ((stride = 0 /\ bucket = None /\ k ∈ pl_head (cp_base cp)) \/
   (exists i b, bucket = Some i /\ cp_classes cp !! i = Some b /\ k ∈ bk_head b /\ stride = slot_stride b /\ 0 < slot_stride b)) ->
  built (bigint_block_add malloc_ok t k bucket stride) (datas ++ [b_data k]).
Proof.
  intros Hb Hk Hs Hfrom. unfold bigint_block_add. destruct (Z.eqb_spec (b_used k) 0) as [Eu|Eu]; [apply built_more, Hb|]. cbv zeta.
  destruct Hk as [? ? ? ?].
  set (n := if stride =? 0 then 0 else b_used k / stride).
  assert (Hn : 0 <= n) by (unfold n; destruct (Z.eqb_spec stride 0); [lia|apply Z.div_pos; lia]).
  case_if; [apply (built_more _ _ _ Hb)|]. case_if; [apply (built_more _ _ _ Hb)|].
  destruct Hb as [H1 H2]. split; cbn [g_bigint_blocks].
  - apply Forall_app. split; [exact H1|]. apply Forall_singleton. split.
    + unfold marks_fit. cbn. pose proof (mark_bytes_enough n Hn). splits; [exact Hs|lia|lia|lia].
    + exists k. unfold entry_block. cbn. splits; auto; [lia|]. destruct Hfrom as [Hl|(i & b & E1 & E2 & E3 & E4 & E5)]; [auto|right].
      exists i, b. splits; auto. unfold n. subst stride. destruct (Z.eqb_spec (slot_stride b) 0); [lia|reflexivity].
  - rewrite map_app. apply sublist_app; [exact H2|reflexivity].
Qed.

Lemma blocks_add_built ks bucket stride : forall t datas, built t datas -> Forall block_ok ks -> 0 <= stride ->
  (forall k, k ∈ ks -> (stride = 0 /\ bucket = None /\ k ∈ pl_head (cp_base cp)) \/
   (exists i b, bucket = Some i /\ cp_classes cp !! i = Some b /\ k ∈ bk_head b /\ stride = slot_stride b /\ 0 < slot_stride b)) ->
  built (foldl (fun t k => bigint_block_add malloc_ok t k bucket stride) t ks) (datas ++ map b_data ks).
Proof.
  induction ks as [|k ks IH]; intros t datas Ht Hks Hs Hfrom; cbn [foldl map]; [rewrite app_nil_r; exact Ht|].
  inversion Hks; subst. replace (datas ++ b_data k :: map b_data ks) with ((datas ++ [b_data k]) ++ map b_data ks) by (rewrite <- app_assoc; reflexivity).
  apply IH; auto.
  - apply block_add_built; auto. apply Hfrom, elem_of_cons. auto.
  - intros x Hx. apply Hfrom, elem_of_cons. auto.
Qed.

Lemma buckets_built l : (forall i b, (i, b) ∈ l -> cp_classes cp !! i = Some b /\ 0 <= slot_stride b /\ Forall block_ok (bk_head b)) ->
  forall t datas, built t datas ->
  built (foldl (add_bucket malloc_ok) t l) (datas ++ concat (map (fun ib => map b_data (bk_head ib.2 ++ bk_free ib.2)) l)).
Proof.
  induction l as [|[i b] l IH]; intros Hl t datas Ht; cbn [foldl map concat]; [rewrite app_nil_r; exact Ht|].
  rewrite app_assoc. apply IH; [intros j x Hx; apply Hl, elem_of_cons; auto|].
  destruct (Hl i b) as (Hi & Hs & Hk); [apply elem_of_cons; auto|].
  assert (Hmore : forall t' d, built t' (datas ++ d) -> forall x, built t' (datas ++ d ++ x)).
  { intros t' d [G1 G2] x. split; [exact G1|]. rewrite app_assoc. apply sublist_inserts_r, G2. }
  unfold add_bucket. destruct (Z.eqb_spec (slot_stride b) 0) as [E|E].
  - apply (Hmore t []). rewrite app_nil_r. exact Ht.
  - cbn [snd]. rewrite map_app. apply Hmore, blocks_add_built; auto. intros k Hkin. right. exists i, b. splits; auto. lia.
Qed.
End Build.

(** ** The start of a collection *)

Lemma clear_slots_ok b : bucket_ok b -> bucket_ok (set_slots b []).
Proof. intros [H1 H2 H3 H4 H5 H6 H7]. split; auto. split; constructor. Qed.

Definition cleared (cp : ant_class_pool_t) : ant_class_pool_t := ClassPool (cp_base cp) (map (fun b => set_slots b []) (cp_classes cp)).

Lemma cleared_lookup cp i b : cp_classes (cleared cp) !! i = Some b -> exists b0, cp_classes cp !! i = Some b0 /\ b = set_slots b0 [].
Proof.
  cbn. intros H. rewrite list_lookup_fmap in H. destruct (cp_classes cp !! i) as [b0|]; [|discriminate]. exists b0. cbn in H. split; [reflexivity|congruence].
Qed.

Lemma cleared_ok fr m cp live : pool_ok fr m cp live -> pool_ok fr m (cleared cp) live.
Proof.
  intros [H1 H2 H3 H4 H5 H6 H7 H8].
  assert (Hr : class_regions (cleared cp) = class_regions cp) by (unfold class_regions, cleared; cbn; rewrite map_map; reflexivity).
  split; auto.
  - rewrite Hr. exact H2.
  - cbn. rewrite length_map. exact H3.
  - intros i b Hi. destruct (cleared_lookup cp i b Hi) as (b0 & Hi0 & ->). destruct (H4 i b0 Hi0) as [Hb (c & Hc & Hst & Hsz)].
    split; [apply clear_slots_ok, Hb|]. exists c. auto.
  - intros p n Hp. destruct (H7 p n Hp) as [Hn [(i & b & Hi & [Hs _] & Hle)|Hb]]; split; auto. left.
    exists i, (set_slots b []). splits; auto; [cbn; rewrite list_lookup_fmap, Hi; reflexivity|].
    split; [exact Hs|apply not_elem_of_nil].
Qed.

Lemma sorted_lookup {A} (R : A -> A -> Prop) l i j x y : StronglySorted R l -> l !! i = Some x -> l !! j = Some y -> (i < j)%nat -> R x y.
Proof.
  intros Hs. revert i j. induction Hs as [|a l Hl IH Ha]; intros i j Hi Hj Hlt; [discriminate|].
  destruct j as [|j]; [lia|]. destruct i as [|i]; cbn in Hi, Hj; [injection Hi as <-|eapply IH; eauto; lia].
  rewrite List.Forall_forall in Ha. apply Ha, list_elem_of_In. eapply list_elem_of_lookup_2; eauto.
Qed.

#[local] Instance by_base_trans : Transitive by_base.
Proof. intros x y z. unfold by_base. lia. Qed.
#[local] Instance by_base_total : Total by_base.
Proof. intros x y. unfold by_base. lia. Qed.

Lemma gc_begin_ok malloc_ok t fr m cp live : pool_ok fr m cp live ->
  let '(t', cp') := gc_bigints_begin malloc_ok t cp in
  cp' = cleared cp /\ table_ok (g_bigint_blocks t') /\ Forall (entry_of cp') (g_bigint_blocks t') /\ NoDup (map g_base (g_bigint_blocks t')).
Proof.
  intros Hok0. pose proof (cleared_ok _ _ _ _ Hok0) as Hok. unfold gc_bigints_begin. cbv zeta.
  change (ClassPool (cp_base cp) (map (fun b => set_slots b []) (cp_classes cp))) with (cleared cp).
  change (map (fun b => set_slots b []) (cp_classes cp)) with (cp_classes (cleared cp)). change (cp_base cp) with (cp_base (cleared cp)).
  set (cp1 := cleared cp) in *. clearbody cp1. clear Hok0.
  pose proof (all_blocks_ok _ _ _ _ Hok) as Hbl. pose proof (all_data_nodup _ _ _ _ Hok) as Hnd.
  set (t1 := foldl (add_bucket malloc_ok) _ _).
  assert (H1 : built cp1 t1 (concat (map (fun b => map b_data (bk_head b ++ bk_free b)) (cp_classes cp1)))).
  { assert (Hz : forall i b, (i, b) ∈ zip (seq 0 (length (cp_classes cp1))) (cp_classes cp1) ->
      cp_classes cp1 !! i = Some b /\ 0 <= slot_stride b /\ Forall block_ok (bk_head b)).
    { intros i b Hin. apply list_elem_of_lookup in Hin as [j Hj]. apply lookup_zip_with_Some in Hj as (x & y & E & Hx & Hy).
      injection E as -> ->. apply lookup_seq in Hx as [-> _]. split; [exact Hy|].
      destruct (po_classes _ _ _ _ Hok _ _ Hy) as [Bok _]. split; [apply Bok|]. pose proof (bo_blocks _ Bok) as Hb. apply Forall_app in Hb as [Hb _].
      eapply Forall_impl; [exact Hb|]. intros x []; assumption. }
    pose proof (buckets_built malloc_ok cp1 _ Hz (GcTable [] (g_bigint_block_cap t)) []) as Hb. cbn [app] in Hb.
    replace (map (fun b => map b_data (bk_head b ++ bk_free b)) (cp_classes cp1)) with
      (map (fun ib : nat * ant_pool_bucket_t => map b_data (bk_head ib.2 ++ bk_free ib.2)) (zip (seq 0 (length (cp_classes cp1))) (cp_classes cp1))).
    - apply Hb. split; [constructor|reflexivity].
    - rewrite <- (map_map snd (fun b => map b_data (bk_head b ++ bk_free b))). f_equal. apply (snd_zip (seq 0 (length (cp_classes cp1)))). rewrite length_seq. lia. }
  set (t2 := foldl _ t1 _).
  assert (H2 : built cp1 t2 (concat (map (fun b => map b_data (bk_head b ++ bk_free b)) (cp_classes cp1)) ++ map b_data (pl_head (cp_base cp1)))).
  { apply blocks_add_built; auto; [|lia]. pose proof (po_base _ _ _ _ Hok) as Hb. apply Forall_app in Hb as [Hb _].
    eapply Forall_impl; [exact Hb|]. intros x []; assumption. }
  clearbody t2. destruct H2 as [Hent Hsub]. cbn [g_bigint_blocks].
  assert (Hnd2 : NoDup (map g_base (g_bigint_blocks t2))).
  { eapply sublist_NoDup; [|exact Hsub]. eapply sublist_NoDup; [exact Hnd|]. unfold all_blocks. rewrite !map_app, concat_map, map_map.
    apply sublist_app; [reflexivity|]. apply sublist_inserts_r. reflexivity. }
  pose proof (merge_sort_Permutation by_base (g_bigint_blocks t2)) as Hperm.
  pose proof (StronglySorted_merge_sort by_base (g_bigint_blocks t2)) as Hsort. set (es := merge_sort by_base (g_bigint_blocks t2)) in *.
  assert (Hent' : Forall (entry_of cp1) es) by (rewrite Hperm; exact Hent).
  assert (Hnd3 : NoDup (map g_base es)) by (rewrite Hperm; exact Hnd2).
  splits; auto. split; [|eapply Forall_impl; [exact Hent'|]; intros e [He _]; exact He].
  intros i j x y Hi Hj Hlt. pose proof (sorted_lookup by_base es i j x y Hsort Hi Hj Hlt) as Hle. unfold by_base in Hle.
  rewrite Forall_lookup in Hent'. destruct (Hent' i x Hi) as [_ (kx & Hkx)], (Hent' j y Hj) as [_ (ky & Hky)].
  assert (Hne : g_base x <> g_base y).
  { intros E. assert (i = j); [|lia]. eapply NoDup_lookup; [exact Hnd3| |]; rewrite list_lookup_fmap; [rewrite Hi; reflexivity|rewrite Hj; cbn; congruence]. }
  pose proof (entry_in_all cp1 x kx Hkx) as Inx. pose proof (entry_in_all cp1 y ky Hky) as Iny.
  destruct Hkx as (Ux & Bx & Ex & _), Hky as (Uy & By & Ey & _).
  pose proof (blocks_disj _ _ _ _ Hok kx ky Inx Iny ltac:(lia)) as Hd. rewrite Forall_forall in Hbl. destruct (Hbl kx Inx), (Hbl ky Iny).
  unfold disj, region, sizeof_pool_block in *. cbn in Hd. lia.
Qed.

(** ** Sweeping one block *)

Lemma filter_no {A} (P : A -> Prop) `{!forall x, Decision (P x)} (l : list A) : (forall y, y ∈ l -> ~ P y) -> filter P l = [].
Proof.
  induction l as [|x l IH]; intros Hl; [reflexivity|]. rewrite filter_cons_False by (apply Hl, elem_of_cons; auto).
  apply IH. intros y Hy. apply Hl, elem_of_cons. auto.
Qed.
Lemma filter_every {A} (P : A -> Prop) `{!forall x, Decision (P x)} (l : list A) : (forall y, y ∈ l -> P y) -> filter P l = l.
Proof.
  induction l as [|x l IH]; intros Hl; [reflexivity|]. rewrite filter_cons_True by (apply Hl, elem_of_cons; auto).
  f_equal. apply IH. intros y Hy. apply Hl, elem_of_cons. auto.
Qed.

Lemma unlink_one l k : NoDup (map b_data l) -> k ∈ l ->
  filter (fun x => b_data x = b_data k) l = [k] /\ l ≡ₚ k :: bigint_block_unlink (b_data k) l.
Proof.
  unfold bigint_block_unlink. induction l as [|x l IH]; intros Hn Hk; [inversion Hk|]. cbn [map] in Hn. apply NoDup_cons in Hn as [Hx Hn].
  assert (Hin : forall y, y ∈ l -> b_data y <> b_data x).
  { intros y Hy E. apply Hx. rewrite <- E. apply list_elem_of_In, in_map, list_elem_of_In, Hy. }
  apply elem_of_cons in Hk as [<-|Hk].
  - rewrite filter_cons_True, filter_cons_False by auto. split.
    + f_equal. apply filter_no. intros y Hy. auto.
    + f_equiv. rewrite filter_every; [reflexivity|]. auto.
  - destruct (IH Hn Hk) as [E1 E2]. assert (b_data x <> b_data k) by (intros E; apply (Hin k Hk); congruence).
    rewrite filter_cons_False, filter_cons_True by auto. split; [exact E1|]. rewrite E2 at 1. apply Permutation_swap.
Qed.

Lemma unlink_elem d l k : k ∈ bigint_block_unlink d l <-> k ∈ l /\ b_data k <> d.
Proof. unfold bigint_block_unlink. rewrite list_elem_of_filter. tauto. Qed.

(** A block without live slots leaves the bucket's chain for its free list. *)
Lemma recycle_bucket_ok m fr b k e : mem_ok m -> m ≡ₚ bucket_regions b ++ fr -> bucket_ok b -> k ∈ bk_head b -> g_block e = b_data k ->
  (forall p, p ∈ slot_free b -> ~ (b_data k <= p < b_data k + b_used k)) -> any_live e = false -> 0 < slot_stride b ->
  let b' := sweep_bucket e b in
  bucket_ok b' /\ bucket_regions b' ≡ₚ bucket_regions b /\ slot_stride b' = slot_stride b /\ bk_block_size b' = bk_block_size b /\ slot_free b' = slot_free b /\
  (forall x, x ∈ bk_head b' <-> x ∈ bk_head b /\ b_data x <> b_data k) /\
  (forall p, is_slot b p -> ~ (b_data k <= p < b_data k + b_used k) -> is_slot b' p).
Proof.
  intros Hm Hp Hb Hk He Hsf Hlive Hs b'. pose proof Hb as [H1 H2 H3 H4 H5 H6 H7]. unfold b', sweep_bucket. rewrite Hlive, He.
  assert (Hbl : Forall block_ok (bk_head b ++ bk_free b)) by (eapply Forall_impl; [exact H4|]; intros ? []; assumption).
  assert (Hnd : NoDup (map b_data (bk_head b))).
  { pose proof (data_nodup m _ fr Hm Hp Hbl) as Hnd. rewrite map_app in Hnd. apply NoDup_app in Hnd as (Hnd & _). exact Hnd. }
  destruct (unlink_one (bk_head b) k Hnd Hk) as [E1 E2]. unfold bigint_block_recycle. rewrite E1. cbn [map app].
  set (b1 := Bucket _ _ _ _ _ _ _ _).
  assert (Hslot : forall p, is_slot b p -> ~ (b_data k <= p < b_data k + b_used k) -> is_slot b1 p).
  { intros p (x & j & Hx & Hj & -> & Hle) Hn. exists x, j. splits; auto. cbn. apply unlink_elem. split; [exact Hx|].
    intros E. assert (x = k); [|subst x; apply Hn; nia].
    apply list_elem_of_lookup in Hx as [i Hi], Hk as [i2 Hi2]. assert (i = i2) as ->; [|congruence].
    eapply NoDup_lookup; [exact Hnd| |]; rewrite list_lookup_fmap; [rewrite Hi; reflexivity|rewrite Hi2; cbn; congruence]. }
  rewrite Forall_forall in H4. assert (Hkok : block_ok k /\ slot_stride b <= b_cap k) by (apply H4, elem_of_app; auto).
  splits; auto.
  - split; cbn; auto.
    + lia.
    + apply Forall_forall. intros x Hx. apply elem_of_app in Hx as [Hx|Hx].
      * apply unlink_elem in Hx as [Hx _]. apply H4, elem_of_app. auto.
      * apply elem_of_cons in Hx as [->|Hx]; [|apply H4, elem_of_app; auto]. destruct Hkok as [[? ? ? ?] ?]. split; [split; cbn; auto; lia|assumption].
    + rewrite Forall_forall in H5 |- *. intros x Hx. apply unlink_elem in Hx as [Hx _]. auto.
    + intros c Hc. case_bool_decide as Ec; [discriminate|]. destruct (H6 c Hc) as (x & Hx & Ex & Exc & Exe). exists x. splits; auto.
      apply unlink_elem. split; [exact Hx|]. congruence.
    + destruct H7 as [H7 H8]. split; [exact H7|]. rewrite Forall_forall in H8 |- *. intros p Hpin. apply Hslot; auto.
  - unfold bucket_regions, b1. cbn. rewrite !map_app. rewrite E2 at 2. cbn. change (region (set_used k 0)) with (region k).
    symmetry. apply Permutation_middle.
  - apply unlink_elem.
Qed.

Lemma free_slots_elem e p : forall sf, p ∈ free_slots e sf <->
  p ∈ sf \/ exists slot, 0 <= slot < g_slot_count e /\ get_mark (g_marks e) slot = false /\ p = g_base e + slot * g_stride e.
Proof.
  intros sf. unfold free_slots.
  assert (Hin : forall slot, slot ∈ slots_of e <-> 0 <= slot < g_slot_count e).
  { intros slot. unfold slots_of. rewrite list_elem_of_In, in_map_iff. split.
    - intros (x & <- & Hx). apply in_seq in Hx. lia.
    - intros Hsl. exists (Z.to_nat slot). split; [lia|]. apply in_seq. lia. }
  setoid_rewrite <- Hin. generalize (slots_of e). intros l. clear Hin. revert sf. induction l as [|x l IH]; intros sf; cbn [foldl].
  - split; [auto|]. intros [H|(s & Hs & _)]; [exact H|inversion Hs].
  - rewrite IH. setoid_rewrite elem_of_cons. destruct (get_mark (g_marks e) x) eqn:E; [|rewrite elem_of_cons]; split.
    + intros [H|(s & Hs & Hm)]; [auto|right; exists s; auto].
    + intros [H|(s & [->|Hs] & Hm & Hp)]; [auto|congruence|right; exists s; auto].
    + intros [[->|H]|(s & Hs & Hm)]; [right; exists x; auto|auto|right; exists s; auto].
    + intros [H|(s & [->|Hs] & Hm & Hp)]; [auto|auto|right; exists s; auto].
Qed.

Lemma free_slots_nodup e : 0 < g_stride e -> forall sf, NoDup sf ->
  (forall slot, 0 <= slot < g_slot_count e -> g_base e + slot * g_stride e ∉ sf) -> NoDup (free_slots e sf).
Proof.
  intros Hs. unfold free_slots.
  assert (Hin : forall slot, slot ∈ slots_of e -> 0 <= slot < g_slot_count e).
  { intros slot Hsl. unfold slots_of in Hsl. rewrite list_elem_of_In, in_map_iff in Hsl. destruct Hsl as (x & <- & Hx). apply in_seq in Hx. lia. }
  assert (Hnd : NoDup (slots_of e)).
  { unfold slots_of. apply NoDup_fmap_2; [intros x y; lia|apply NoDup_seq]. }
  intros sf Hsf Hout. assert (Hout' : forall slot, slot ∈ slots_of e -> g_base e + slot * g_stride e ∉ sf) by auto. clear Hout Hin.
  revert sf Hsf Hout'. induction Hnd as [|x l Hx Hnd IH]; intros sf Hsf Hout; cbn [foldl]; [exact Hsf|].
  destruct (get_mark (g_marks e) x); apply IH; auto.
  - intros slot Hsl. apply Hout, elem_of_cons. auto.
  - constructor; [apply Hout, elem_of_cons; auto|exact Hsf].
  - intros slot Hsl Hc. apply elem_of_cons in Hc as [E|Hc]; [assert (slot = x) by nia; subst; contradiction|].
    apply (Hout slot); [apply elem_of_cons; auto|exact Hc].
Qed.

(** ** The sweep of the table *)

Section Sweep.
Context (fr m : mem) (live : gmap Z Z).

Record sweep_inv (cp : ant_class_pool_t) (es : list gc_bigint_block_t) : Prop := {
  si_pool : pool_ok fr m cp live;
  si_entries : Forall (entry_of cp) es;
  si_nodup : NoDup (map g_base es);
  si_slots : forall e i b p, e ∈ es -> g_bucket e = Some i -> cp_classes cp !! i = Some b -> p ∈ slot_free b -> ~ covers e p }.

(** Only one block covers an address. *)
Lemma block_unique cp k1 k2 p : pool_ok fr m cp live -> k1 ∈ all_blocks cp -> k2 ∈ all_blocks cp ->
  b_data k1 <= p < b_data k1 + b_used k1 -> b_data k2 <= p < b_data k2 + b_cap k2 -> k1 = k2.
Proof.
  intros Hok H1 H2 C1 C2. apply (same_block _ _ _ _ Hok); auto. destruct (Z.eq_dec (b_data k1) (b_data k2)) as [E|E]; [exact E|].
  pose proof (blocks_disj _ _ _ _ Hok k1 k2 H1 H2 E) as Hd. pose proof (all_blocks_ok _ _ _ _ Hok) as Hbl. rewrite Forall_forall in Hbl.
  destruct (Hbl k1 H1), (Hbl k2 H2). unfold disj, region, sizeof_pool_block in Hd. cbn in Hd. lia.
Qed.

Lemma slot_of_block cp i b k q : pool_ok fr m cp live -> cp_classes cp !! i = Some b -> k ∈ bk_head b -> is_slot b q -> 0 < slot_stride b ->
  b_data k <= q < b_data k + b_used k -> exists j, 0 <= j /\ q = b_data k + j * slot_stride b /\ j * slot_stride b + slot_stride b <= b_used k.
Proof.
  intros Hok Hi Hk (x & j & Hx & Hj & -> & Hle) Hs Hc.
  assert (Hall : forall y, y ∈ bk_head b -> y ∈ all_blocks cp) by (intros y Hy; eapply bucket_in_all; [exact Hi|]; apply elem_of_app; auto).
  pose proof (all_blocks_ok _ _ _ _ Hok) as Hbl. rewrite Forall_forall in Hbl. destruct (Hbl x (Hall x Hx)).
  assert (k = x) as -> by (eapply block_unique; eauto; nia). exists j. auto.
Qed.

(** Entries of other blocks keep their block. *)
Lemma entry_kept cp cp' e e' k : entry_block cp e k -> entry_of cp e' -> g_base e' <> g_base e ->
  (forall x, x ∈ pl_head (cp_base cp) -> b_data x <> b_data k -> x ∈ pl_head (cp_base cp')) ->
  (forall i b, cp_classes cp !! i = Some b -> exists b', cp_classes cp' !! i = Some b' /\ slot_stride b' = slot_stride b /\
     forall x, x ∈ bk_head b -> b_data x <> b_data k -> x ∈ bk_head b') -> entry_of cp' e'.
Proof.
  intros (_ & Ek & _) [Hf (k' & Hu & B & E & Bl & Hd)] Hne Hbase Hcls. split; [exact Hf|]. exists k'. unfold entry_block. splits; auto.
  destruct Hd as [(E1 & E2 & Hin)|(i & b & E1 & E2 & Hin & E3 & E4 & E5)].
  - left. splits; auto. apply Hbase; [exact Hin|lia].
  - right. destruct (Hcls i b E2) as (b' & E2' & Es & Hh). exists i, b'. rewrite Es. splits; auto. apply Hh; [exact Hin|lia].
Qed.

Lemma entries_apart cp e es : sweep_inv cp (e :: es) -> forall x, x ∈ es -> g_base x <> g_base e.
Proof.
  intros [_ _ Hn _] x Hx E. cbn [map] in Hn. apply NoDup_cons in Hn as [Hn _]. apply Hn. rewrite <- E.
  apply list_elem_of_In, in_map, list_elem_of_In, Hx.
Qed.

(** A block of the base chain. *)
Lemma sweep_base cp e es k : sweep_inv cp (e :: es) -> entry_block cp e k -> g_stride e = 0 -> k ∈ pl_head (cp_base cp) ->
  (forall p n, live !! p = Some n -> covers e p -> marked e p) -> sweep_inv (sweep_entry cp e) es.
Proof.
  intros Hinv Hek Hs Hk Hmark. pose proof (entries_apart _ _ _ Hinv) as Hap. destruct Hinv as [Hok Hent Hnd Hsl].
  inversion Hent as [|? ? _ Hes]; subst. cbn [map] in Hnd. apply NoDup_cons in Hnd as [_ Hnd].
  assert (Hsl' : forall x i b p, x ∈ es -> g_bucket x = Some i -> cp_classes cp !! i = Some b -> p ∈ slot_free b -> ~ covers x p).
  { intros x i b p Hx. apply Hsl, elem_of_cons. auto. }
  unfold sweep_entry. destruct (Z.eqb_spec (g_stride e) 0); [|contradiction].
  destruct (g_block_live e) eqn:El; [split; auto|]. pose proof Hek as (Hu & Eb & Ee & Ebl & _). rewrite Ebl.
  set (cp' := ClassPool _ _). pose proof Hok as [H1 H2 H3 H4 H5 H6 H7 H8].
  assert (Hnd2 : NoDup (map b_data (pl_head (cp_base cp)))).
  { pose proof (all_data_nodup _ _ _ _ Hok) as Hn. unfold all_blocks in Hn. rewrite !map_app in Hn. apply NoDup_app in Hn as (_ & _ & Hn).
    apply NoDup_app in Hn as (Hn & _). exact Hn. }
  destruct (unlink_one _ k Hnd2 Hk) as [E1 E2].
  assert (Hall : forall y, y ∈ pl_head (cp_base cp) -> y ∈ all_blocks cp) by (intros y Hy; unfold all_blocks; rewrite !elem_of_app; auto).
  split; auto.
  - split; auto.
    + rewrite H2. unfold cp', class_regions. cbn. unfold bigint_block_recycle. rewrite E1. cbn [map app]. apply Permutation_app; [|reflexivity].
      apply Permutation_app; [reflexivity|]. rewrite !map_app. rewrite E2 at 1. cbn. change (region (set_used k 0)) with (region k). apply Permutation_middle.
    + unfold chain_ok in *. cbn. unfold bigint_block_recycle. rewrite E1. cbn [map app]. rewrite Forall_forall in H6 |- *. intros x Hx.
      apply elem_of_app in Hx as [Hx|Hx]; [apply unlink_elem in Hx as [Hx _]; apply H6, elem_of_app; auto|].
      apply elem_of_cons in Hx as [->|Hx]; [|apply H6, elem_of_app; auto].
      destruct (H6 k) as [[? ? ? ?] ?]; [apply elem_of_app; auto|]. split; [split; cbn; auto; lia|assumption].
    + intros p n Hp. destruct (H7 p n Hp) as [Hn [Hb|(x & Hx & Inx)]]; split; auto. right. exists x. split; [|exact Inx].
      cbn. apply unlink_elem. split; [exact Hx|]. intros E. assert (x = k) as -> by (apply (same_block _ _ _ _ Hok); auto).
      assert (Hm : marked e p) by (eapply Hmark; [exact Hp|]; unfold covers, in_block in *; lia).
      unfold marked in Hm. rewrite Hs in Hm. cbn in Hm. congruence.
  - rewrite Forall_forall in Hes |- *. intros x Hx. eapply entry_kept; [exact Hek|apply Hes, Hx|apply Hap, Hx| |].
    + intros y Hy Hne. cbn. apply unlink_elem. auto.
    + intros i b Hi. exists b. auto.
Qed.

(** The effect of the sweep on one bucket: the slots in use stay held, new
    free slots lie in the swept block, and other blocks are not touched. *)
Lemma sweep_bucket_ok cp e k i b : pool_ok fr m cp live -> entry_block cp e k -> cp_classes cp !! i = Some b -> k ∈ bk_head b ->
  g_stride e = slot_stride b -> 0 < slot_stride b -> g_slot_count e = b_used k / slot_stride b ->
  (forall p, p ∈ slot_free b -> ~ covers e p) -> (forall p n, live !! p = Some n -> covers e p -> marked e p) ->
  let b' := sweep_bucket e b in
  class_ok i b' /\ bucket_regions b' ≡ₚ bucket_regions b /\ slot_stride b' = slot_stride b /\
  (forall x, x ∈ bk_head b -> b_data x <> b_data k -> x ∈ bk_head b') /\
  (forall p, p ∈ slot_free b' -> p ∈ slot_free b \/ covers e p) /\
  (forall q n, live !! q = Some n -> held b q -> held b' q).
Proof.
  intros Hok (Hu & Eb & Ee & Ebl & _) Hi Hk Es Hs Ec Hsf Hmark b'.
  assert (Hcov : forall p, covers e p <-> b_data k <= p < b_data k + b_used k) by (intros p; unfold covers; rewrite Eb, Ee; reflexivity).
  destruct (po_classes _ _ _ _ Hok i b Hi) as [Hb (c & Hc & Hst & Hsz)].
  assert (Hm' : m ≡ₚ bucket_regions b ++ other_regions cp i ++ fr).
  { rewrite (po_regions _ _ _ _ Hok), (class_regions_split cp i b Hi), <- app_assoc. reflexivity. }
  assert (Hslot : forall j, 0 <= j < g_slot_count e -> j * slot_stride b + slot_stride b <= b_used k).
  { intros j Hj. rewrite Ec in Hj. pose proof (Z.mul_div_le (b_used k) (slot_stride b) Hs). nia. }
  (* a slot in use inside the block is marked *)
  assert (Hlive : forall q n, live !! q = Some n -> held b q -> covers e q ->
            exists j, 0 <= j < g_slot_count e /\ q = g_base e + j * g_stride e /\ get_mark (g_marks e) j = true).
  { intros q n Hq [Hqs _] Hcq. destruct (slot_of_block cp i b k q Hok Hi Hk Hqs Hs) as (j & Hj & Eq & Hle); [apply Hcov, Hcq|].
    specialize (Hmark q n Hq Hcq). unfold marked in Hmark. destruct (Z.eqb_spec (g_stride e) 0); [lia|].
    replace (q - g_base e) with (j * g_stride e) in Hmark by lia. rewrite Z.mod_mul, Z.div_mul in Hmark by lia.
    assert (Hjc : j < g_slot_count e) by (assert (j + 1 <= b_used k / slot_stride b) by (apply Z.div_le_lower_bound; [exact Hs|nia]); lia).
    exists j. splits; auto. rewrite Eb, Es. exact Eq. }
  destruct (any_live e) eqn:El.
  - unfold b', sweep_bucket. rewrite El. cbn. splits; auto.
    + split; [|exists c; auto]. pose proof Hb as [H1 H2 H3 H4 H5 H6 [H7 H8]]. split; cbn; auto. split.
      * apply free_slots_nodup; [lia|exact H7|]. intros j Hj Hin. apply (Hsf _ Hin). apply Hcov. specialize (Hslot j Hj). nia.
      * rewrite Forall_forall in H8 |- *. intros p Hp. apply free_slots_elem in Hp as [Hp|(j & Hj & _ & ->)]; [exact (H8 p Hp)|].
        exists k, j. cbn. splits; [exact Hk|lia|lia|apply Hslot, Hj].
    + intros p Hp. apply free_slots_elem in Hp as [Hp|(j & Hj & _ & ->)]; auto. right. apply Hcov. specialize (Hslot j Hj). nia.
    + intros q n Hq Hh. split; [apply Hh|]. cbn. intros Hp. apply free_slots_elem in Hp as [Hp|(j & Hj & Hm & E)]; [apply Hh, Hp|].
      assert (Hcq : covers e q) by (apply Hcov; rewrite E; specialize (Hslot j Hj); nia).
      destruct (Hlive q n Hq Hh Hcq) as (j2 & _ & E2 & Hm2). assert (j = j2) by nia. congruence.
  - destruct (recycle_bucket_ok m (other_regions cp i ++ fr) b k e (po_mem _ _ _ _ Hok) Hm' Hb Hk Ebl) as (G1 & G2 & G3 & G4 & G5 & G6 & G7); auto.
    { intros p Hp Hr. apply (Hsf p Hp), Hcov, Hr. }
    fold b' in G1, G2, G3, G4, G5, G6, G7. splits; auto.
    + split; [exact G1|]. exists c. unfold stride_for. rewrite G3, G4. auto.
    + intros x Hx Hne. apply G6. auto.
    + intros p. rewrite G5. auto.
    + intros q n Hq Hh. split; [|rewrite G5; apply Hh]. apply G7; [apply Hh|]. intros Hr.
      destruct (Hlive q n Hq Hh) as (j & Hj & _ & Hm); [apply Hcov, Hr|].
      assert (any_live e = true); [|congruence]. unfold any_live. apply existsb_exists. exists j. split; [|exact Hm].
      unfold slots_of. apply in_map_iff. exists (Z.to_nat j). split; [lia|]. apply in_seq. lia.
Qed.

Lemma sweep_class cp e es k i b : sweep_inv cp (e :: es) -> entry_block cp e k -> g_bucket e = Some i -> cp_classes cp !! i = Some b ->
  k ∈ bk_head b -> g_stride e = slot_stride b -> 0 < slot_stride b -> g_slot_count e = b_used k / slot_stride b ->
  (forall p n, live !! p = Some n -> covers e p -> marked e p) -> sweep_inv (sweep_entry cp e) es.
Proof.
  intros Hinv Hek Ei Hi Hk Es Hs Ec Hmark. pose proof (entries_apart _ _ _ Hinv) as Hap. destruct Hinv as [Hok Hent Hnd Hsl].
  inversion Hent as [|? ? _ Hes]; subst. cbn [map] in Hnd. apply NoDup_cons in Hnd as [_ Hnd].
  destruct (sweep_bucket_ok cp e k i b Hok Hek Hi Hk Es Hs Ec) as (G1 & G2 & G3 & G4 & G5 & G6); auto.
  { intros p Hp. apply (Hsl e i b p); auto. apply elem_of_cons. auto. }
  assert (Hlt : (i < length (cp_classes cp))%nat) by (eapply lookup_lt_Some; eauto).
  assert (Esw : sweep_entry cp e = set_bucket cp i (sweep_bucket e b)).
  { unfold sweep_entry, set_bucket. destruct (Z.eqb_spec (g_stride e) 0); [lia|]. rewrite Ei. f_equal.
    apply list_eq. intros j. destruct (decide (i = j)) as [<-|Hne].
    - rewrite list_lookup_alter_eq, Hi, list_lookup_insert_eq by exact Hlt. reflexivity.
    - rewrite list_lookup_alter_ne, list_lookup_insert_ne by exact Hne. reflexivity. }
  rewrite Esw. split; auto.
  - apply (set_bucket_ok fr m m cp live i b); auto; [apply Hok| |intros q n Hq Hh Hle; rewrite G3; eauto].
    rewrite G2, (po_regions _ _ _ _ Hok), (class_regions_split cp i b Hi), <- app_assoc. reflexivity.
  - rewrite Forall_forall in Hes |- *. intros x Hx. eapply entry_kept; [exact Hek|apply Hes, Hx|apply Hap, Hx|auto|].
    intros j y Hj. cbn. destruct (decide (i = j)) as [<-|Hne].
    + rewrite list_lookup_insert_eq by exact Hlt. assert (y = b) as -> by congruence. eexists. split; [reflexivity|]. auto.
    + rewrite list_lookup_insert_ne by exact Hne. exists y. auto.
  - intros x j y p Hx Ej Hj Hp Hcx. cbn in Hj. destruct (decide (i = j)) as [<-|Hne].
    + rewrite list_lookup_insert_eq in Hj by exact Hlt. injection Hj as <-. destruct (G5 p Hp) as [Hold|Hce].
      * eapply Hsl; [apply elem_of_cons; right; exact Hx|exact Ej|exact Hi|exact Hold|exact Hcx].
      * rewrite Forall_forall in Hes. destruct (Hes x Hx) as [_ (kx & Hkx)]. apply (Hap x Hx).
        pose proof (entry_in_all _ _ _ Hkx) as Inx. pose proof (entry_in_all _ _ _ Hek) as Ink.
        destruct Hkx as (_ & Bx & Ex & _), Hek as (_ & Bk & Ek & _). pose proof (all_blocks_ok _ _ _ _ Hok) as Hbl. rewrite Forall_forall in Hbl.
        destruct (Hbl k Ink). unfold covers in *. assert (kx = k) as -> by (eapply (block_unique cp kx k p Hok); auto; lia). congruence.
    + rewrite list_lookup_insert_ne in Hj by exact Hne. eapply Hsl; [apply elem_of_cons; right; exact Hx|exact Ej|exact Hj|exact Hp|exact Hcx].
Qed.

Lemma sweep_all es : forall cp, sweep_inv cp es -> (forall p n, live !! p = Some n -> all_marked es p) -> pool_ok fr m (foldl sweep_entry cp es) live.
Proof.
  induction es as [|e es IH]; intros cp Hinv Hmark; cbn [foldl]; [apply Hinv|].
  assert (He : forall p n, live !! p = Some n -> covers e p -> marked e p) by (intros p n Hp; apply (Hmark p n Hp O); reflexivity).
  apply IH; [|intros p n Hp j x Hj; apply (Hmark p n Hp (S j)); exact Hj].
  pose proof (si_entries _ _ Hinv) as Hent. inversion Hent as [|? ? [_ (k & Hek)] _]; subst.
  pose proof Hek as (_ & _ & _ & _ & [(Es & Eb & Hk)|(i & b & Ei & Hi & Hk & Es & Hs & Ec)]).
  - eapply sweep_base; eauto.
  - eapply sweep_class; eauto.
Qed.
End Sweep.

(** ** Giving blocks back *)

Lemma block_free_ok m k R : mem_ok m -> m ≡ₚ region k :: R -> mem_ok (pool_block_free m k) /\ pool_block_free m k ≡ₚ R.
Proof.
  intros Hm Hp. unfold pool_block_free. split; [apply mem_ok_filter, Hm|]. rewrite Hp in Hm. destruct Hm as [[Hn _] _]. apply NoDup_cons in Hn as [Hn _].
  rewrite Hp. rewrite filter_cons_False by auto. rewrite filter_every; [reflexivity|]. intros r Hr ->. contradiction.
Qed.

Lemma blocks_free_ok ks : forall m R, mem_ok m -> m ≡ₚ map region ks ++ R -> mem_ok (foldl pool_block_free m ks) /\ foldl pool_block_free m ks ≡ₚ R.
Proof.
  induction ks as [|k ks IH]; intros m R Hm Hp; cbn [foldl map app] in *; [auto|].
  destruct (block_free_ok m k _ Hm Hp) as [H1 H2]. apply IH; assumption.
Qed.

(** A bucket's free list is cut. *)
Lemma trim_bucket_ok fr cp m live i : pool_ok fr m cp live ->
  let '(cp', m') := trim_bucket (cp, m) i in pool_ok fr m' cp' live /\ length (cp_classes cp') = length (cp_classes cp) /\
    cp_base cp' = cp_base cp.
Proof.
  intros Hok. unfold trim_bucket. destruct (cp_classes cp !! i) as [b|] eqn:Hi; [|auto]. unfold bigint_free_list_trim.
  assert (Hp : m ≡ₚ map region (drop 2 (bk_free b)) ++ bucket_regions (set_free b (take 2 (bk_free b))) ++ other_regions cp i ++ fr).
  { rewrite (po_regions _ _ _ _ Hok), (class_regions_split cp i b Hi), <- app_assoc. rewrite !app_assoc. apply Permutation_app; [|reflexivity].
    apply Permutation_app; [|reflexivity]. unfold bucket_regions. cbn. rewrite <- (take_drop 2 (bk_free b)) at 1. rewrite !map_app, app_assoc.
    apply Permutation_app_comm. }
  destruct (blocks_free_ok _ _ _ (po_mem _ _ _ _ Hok) Hp) as [Hm' Hp'].
  split; [|split; [cbn; apply length_insert|reflexivity]].
  destruct (po_classes _ _ _ _ Hok i b Hi) as [Hb Hc].
  apply (set_bucket_ok fr m _ cp live i b); auto. split; [|exact Hc].
  destruct Hb as [H1 H2 H3 H4 H5 H6 H7]. split; cbn; auto.
  - intros E. destruct (H2 E) as [-> ->]. auto.
  - rewrite Forall_app in H4 |- *. destruct H4 as [H4 H4']. split; [exact H4|]. apply Forall_take, H4'.
Qed.

Lemma trim_buckets_ok fr live l : forall cp m, pool_ok fr m cp live ->
  let '(cp', m') := foldl trim_bucket (cp, m) l in pool_ok fr m' cp' live.
Proof.
  induction l as [|i l IH]; intros cp m Hok; cbn [foldl]; [exact Hok|].
  pose proof (trim_bucket_ok fr cp m live i Hok) as H. destruct (trim_bucket (cp, m) i) as [cp1 m1]. destruct H as [H _]. apply IH, H.
Qed.

Lemma gc_sweep_ok fr m live cp es : sweep_inv fr m live cp es -> (forall p n, live !! p = Some n -> all_marked es p) ->
  let '(cp', m') := gc_bigints_sweep es cp m in pool_ok fr m' cp' live.
Proof.
  intros Hinv Hmark. pose proof (sweep_all fr m live es cp Hinv Hmark) as Hok. unfold gc_bigints_sweep.
  set (cp1 := foldl sweep_entry cp es) in *. clearbody cp1.
  pose proof (trim_buckets_ok fr live (seq 0 (length (cp_classes cp1))) cp1 m Hok) as Hok2.
  destruct (foldl trim_bucket (cp1, m) _) as [cp2 m2]. unfold bigint_free_list_trim.
  pose proof Hok2 as [H1 H2 H3 H4 H5 H6 H7 H8]. set (base := cp_base cp2) in *.
  assert (Hp : m2 ≡ₚ map region (drop 2 (pl_free base)) ++ concat (map bucket_regions (cp_classes cp2)) ++ map region (pl_head base ++ take 2 (pl_free base)) ++ fr).
  { rewrite H2. unfold class_regions. fold base. rewrite <- !app_assoc, (Permutation_app_swap_app (map region (drop 2 _))). apply Permutation_app; [reflexivity|].
    rewrite !app_assoc. apply Permutation_app; [|reflexivity]. rewrite <- (take_drop 2 (pl_free base)) at 1. rewrite !map_app, app_assoc. apply Permutation_app_comm. }
  destruct (blocks_free_ok _ _ _ H1 Hp) as [Hm' Hp']. split; auto.
  - unfold class_regions. cbn. rewrite Hp', <- app_assoc. reflexivity.
  - unfold chain_ok in *. cbn. rewrite Forall_app in H6 |- *. destruct H6 as [H6 H6']. split; [exact H6|]. apply Forall_take, H6'.
Qed.

(** ** A collection *)

(** What survives: the pieces whose pointers were marked. *)
Definition survivors (roots : list Z) (live : gmap Z Z) : gmap Z Z := filter (fun pn => pn.1 ∈ roots) live.

Lemma pool_ok_subset fr m cp live live' : live' ⊆ live -> pool_ok fr m cp live -> pool_ok fr m cp live'.
Proof.
  intros Hsub [H1 H2 H3 H4 H5 H6 H7 H8]. assert (Hl : forall p n, live' !! p = Some n -> live !! p = Some n) by (intros p n Hp; eapply lookup_weaken; eauto).
  split; eauto.
Qed.

(** A piece in use is not at the null address. *)
Lemma live_nonzero fr m cp live p n : pool_ok fr m cp live -> live !! p = Some n -> p <> 0.
Proof.
  intros Hok Hp. pose proof (all_blocks_ok _ _ _ _ Hok) as Hbl. rewrite Forall_forall in Hbl.
  destruct (po_live _ _ _ _ Hok p n Hp) as [_ [(i & b & Hi & [(k & j & Hk & Hj & -> & _) _] & _)|(k & Hk & [Hin _])]].
  - assert (block_ok k) as [? Ha ? ?] by (apply Hbl; eapply bucket_in_all; [exact Hi|]; apply elem_of_app; auto).
    destruct (po_classes _ _ _ _ Hok i b Hi) as [[[? _] _ _ _ _ _ _] _]. unfold sizeof_pool_block in Ha. nia.
  - assert (block_ok k) as [? Ha ? ?] by (apply Hbl; unfold all_blocks; rewrite !elem_of_app; auto). unfold sizeof_pool_block in Ha. lia.
Qed.

Lemma gc_collect_ok malloc_ok t fr m cp live roots : pool_ok fr m cp live ->
  let '(_, cp', m') := collect_bigints malloc_ok t cp m roots in pool_ok fr m' cp' (survivors roots live).
Proof.
  intros Hok. unfold collect_bigints. pose proof (gc_begin_ok malloc_ok t fr m cp live Hok) as Hbegin.
  destruct (gc_bigints_begin malloc_ok t cp) as [t1 cp1]. destruct Hbegin as (-> & Htab & Hent & Hnd).
  destruct (marking_ok roots (g_bigint_blocks t1) Htab) as (Hsh & Htab' & _ & Hmk). set (es := foldl gc_bigints_mark (g_bigint_blocks t1) roots) in *.
  assert (Hsub : survivors roots live ⊆ live) by (apply map_filter_subseteq).
  pose proof (pool_ok_subset fr m (cleared cp) live _ Hsub (cleared_ok fr m cp live Hok)) as Hok1.
  assert (Hinv : sweep_inv fr m (survivors roots live) (cleared cp) es).
  { split; auto.
    - apply Forall_lookup. intros i e He. destruct (shape_lookup _ _ _ _ Hsh He) as (x & Hx & Ex). rewrite Forall_lookup in Hent.
      destruct (Hent i x Hx) as [_ (k & Hk)]. split; [destruct Htab' as [_ Hf]; rewrite Forall_lookup in Hf; eauto|].
      exists k. unfold entry_block in *. unfold entry_shape in Ex. injection Ex as -> -> -> -> -> -> _. exact Hk.
    - replace (map g_base es) with (map g_base (g_bigint_blocks t1)); [exact Hnd|].
      assert (E : map (fun s : Z * Z * Z * option nat * Z * Z * nat => s.1.1.1.1.1.1) (map entry_shape es) = map (fun s => s.1.1.1.1.1.1) (map entry_shape (g_bigint_blocks t1)))
        by (rewrite Hsh; reflexivity). rewrite !map_map in E. symmetry. exact E.
    - intros e i b p _ _ Hi Hp. destruct (cleared_lookup cp i b Hi) as (b0 & _ & ->). cbn in Hp. inversion Hp. }
  assert (Hlive : forall p n, survivors roots live !! p = Some n -> all_marked es p).
  { intros p n Hp. apply map_lookup_filter_Some in Hp as [Hp Hr]. apply Hmk; [exact Hr|]. exact (live_nonzero fr m cp live p n Hok Hp). }
  pose proof (gc_sweep_ok fr m (survivors roots live) (cleared cp) es Hinv Hlive) as Hs.
  destruct (gc_bigints_sweep es (cleared cp) m) as [cp2 m2]. exact Hs.
Qed.

(** ** What a collection gives back *)

Section Reclaim.
Abbreviation granted := (fun _ : Z => true).

(** The shape of the entry for a block. *)
Definition shape_of (k : ant_pool_block_t) (bucket : option nat) (stride : Z) : Z * Z * Z * option nat * Z * Z * nat :=
  let n := if stride =? 0 then 0 else b_used k / stride in
  (b_data k, b_data k + b_used k, b_data k, bucket, stride, n, Z.to_nat ((n + 7) / 8)).

(** Marks are the ones that [roots] made. *)
Definition exact (roots : list Z) (e : gc_bigint_block_t) : Prop :=
  (g_block_live e = true -> exists r, r ∈ roots /\ covers e r) /\
  (forall j, 0 <= j < g_slot_count e -> get_mark (g_marks e) j = true -> g_base e + j * g_stride e ∈ roots).

(** The table has room for what is to come. *)
Record roomy (t : gc_table) (more : Z) : Prop := {
  ro_count : 0 <= Z.of_nat (length (g_bigint_blocks t)) <= g_bigint_block_cap t;
  ro_more : Z.of_nat (length (g_bigint_blocks t)) + more < 2 ^ 40;
  ro_cap : g_bigint_block_cap t < 2 ^ 60;
  ro_exact : Forall (exact []) (g_bigint_blocks t) }.

Lemma add_tracks t k bucket stride more : roomy t (more + 1) -> 0 <= more -> let t' := bigint_block_add granted t k bucket stride in
  roomy t' more /\ (exists l, g_bigint_blocks t' = g_bigint_blocks t ++ l) /\
  (0 < b_used k -> shape_of k bucket stride ∈ map entry_shape (g_bigint_blocks t')).
Proof.
  intros [H1 H2 H3 H4] Hm t'. unfold t', bigint_block_add. destruct (Z.eqb_spec (b_used k) 0) as [E|E].
  { splits; [split; auto; lia|exists []; rewrite app_nil_r; reflexivity|lia]. }
  cbv zeta. set (count := Z.of_nat (length (g_bigint_blocks t))) in *.
  set (cap := bigint_blocks_reserve granted count (g_bigint_block_cap t) 1).
  assert (Hcap : count + 1 <= cap < 2 ^ 60).
  { unfold cap, bigint_blocks_reserve. destruct (Z.leb_spec (count + 1) (g_bigint_block_cap t)); [lia|]. cbv zeta iota.
    set (c0 := if g_bigint_block_cap t =? 0 then _ else _).
    assert (Hc0 : count + 1 <= c0 < 2 ^ 60) by (unfold c0; destruct (Z.eqb_spec (g_bigint_block_cap t) 0); [lia|]; rewrite wrap_small by lia; lia).
    change (reserve_loop 64 c0 (count + 1)) with (if c0 <? count + 1 then reserve_loop 63 (u64 (c0 * 2)) (count + 1) else c0).
    destruct (Z.ltb_spec c0 (count + 1)); lia. }
  destruct (Z.leb_spec cap count); [lia|]. rewrite andb_false_r. set (n := if stride =? 0 then 0 else b_used k / stride).
  splits.
  - split; cbn [g_bigint_blocks g_bigint_block_cap]; rewrite ?length_app; cbn [length]; fold count; try lia.
    apply Forall_app. split; [exact H4|]. apply Forall_singleton. split; cbn; [discriminate|].
    intros j Hj. rewrite get_mark_zero by lia. discriminate.
  - eexists. reflexivity.
  - intros _. cbn [g_bigint_blocks]. rewrite map_app. apply elem_of_app. right. apply list_elem_of_singleton.
    unfold entry_shape, shape_of. cbn. rewrite length_replicate. reflexivity.
Qed.

Lemma adds_track ks bucket stride : forall t more, roomy t (more + Z.of_nat (length ks)) -> 0 <= more ->
  let t' := foldl (fun t k => bigint_block_add granted t k bucket stride) t ks in
  roomy t' more /\ (exists l, g_bigint_blocks t' = g_bigint_blocks t ++ l) /\
  (forall k, k ∈ ks -> 0 < b_used k -> shape_of k bucket stride ∈ map entry_shape (g_bigint_blocks t')).
Proof.
  induction ks as [|k ks IH]; intros t more Ht Hm; cbn [foldl].
  { splits; [cbn in Ht; rewrite Z.add_0_r in Ht; exact Ht|exists []; rewrite app_nil_r; reflexivity|intros k Hk; inversion Hk]. }
  cbn [length] in Ht. replace (more + Z.of_nat (S (length ks))) with (more + Z.of_nat (length ks) + 1) in Ht by lia.
  destruct (add_tracks t k bucket stride _ Ht ltac:(lia)) as (G1 & (l1 & G2) & G3).
  destruct (IH _ more G1 Hm) as (F1 & (l2 & F2) & F3). splits; auto.
  - exists (l1 ++ l2). rewrite F2, G2, <- app_assoc. reflexivity.
  - intros x Hx Hu. apply elem_of_cons in Hx as [->|Hx]; [|auto]. rewrite F2, map_app. apply elem_of_app. left. auto.
Qed.

Lemma buckets_track l : forall t more, 0 <= more ->
  roomy t (more + Z.of_nat (length (concat (map (fun ib : nat * ant_pool_bucket_t => bk_head ib.2) l)))) ->
  let t' := foldl (add_bucket granted) t l in
  roomy t' more /\ (exists x, g_bigint_blocks t' = g_bigint_blocks t ++ x) /\
  (forall i b k, (i, b) ∈ l -> slot_stride b <> 0 -> k ∈ bk_head b -> 0 < b_used k -> shape_of k (Some i) (slot_stride b) ∈ map entry_shape (g_bigint_blocks t')).
Proof.
  induction l as [|[i b] l IH]; intros t more Hm Ht; cbn [foldl map concat] in *.
  { splits; [cbn in Ht; rewrite Z.add_0_r in Ht; exact Ht|exists []; rewrite app_nil_r; reflexivity|intros i b k Hk; inversion Hk]. }
  rewrite length_app in Ht. cbn [snd] in Ht. set (rest := length (concat _)) in *.
  assert (Hb : roomy (add_bucket granted t (i, b)) (more + Z.of_nat rest) /\
    (exists x, g_bigint_blocks (add_bucket granted t (i, b)) = g_bigint_blocks t ++ x) /\
    (slot_stride b <> 0 -> forall k, k ∈ bk_head b -> 0 < b_used k ->
       shape_of k (Some i) (slot_stride b) ∈ map entry_shape (g_bigint_blocks (add_bucket granted t (i, b))))).
  { unfold add_bucket. destruct (Z.eqb_spec (slot_stride b) 0).
    - splits; [destruct Ht; split; auto; lia|exists []; rewrite app_nil_r; reflexivity|contradiction].
    - destruct (adds_track (bk_head b) (Some i) (slot_stride b) t (more + Z.of_nat rest)) as (G1 & G2 & G3); [|lia|splits; auto].
      destruct Ht; split; auto; lia. }
  destruct Hb as (G1 & (l1 & G2) & G3). destruct (IH _ more Hm G1) as (F1 & (l2 & F2) & F3). splits; auto.
  - exists (l1 ++ l2). rewrite F2, G2, <- app_assoc. reflexivity.
  - intros j x k Hin Hs Hk Hu. apply elem_of_cons in Hin as [E|Hin]; [|eauto]. injection E as -> ->. rewrite F2, map_app. apply elem_of_app. left. auto.
Qed.

Lemma search_covers es p fuel : forall lo hi i, search_block fuel es lo hi p = Some i -> exists e, es !! i = Some e /\ covers e p.
Proof.
  induction fuel as [|fuel IH]; intros lo hi i; cbn [search_block]; [discriminate|]. case_if; [|discriminate]. cbv zeta.
  generalize (lo + (hi - lo) / 2)%nat as mid. intros mid. destruct (es !! mid) as [y|] eqn:Hy; [|discriminate].
  case_if; [apply IH|]. case_if; [apply IH|]. intros [= <-]. exists y. boolprop. unfold covers. auto.
Qed.

Lemma mark_exact roots es p : Forall marks_fit es -> Forall (exact roots) es -> Forall (exact (p :: roots)) (gc_bigints_mark es p).
Proof.
  intros Hf He. assert (Hw : Forall (exact (p :: roots)) es).
  { eapply Forall_impl; [exact He|]. intros e [H1 H2]. split.
    - intros Hl. destruct (H1 Hl) as (r & Hr & Hc). exists r. split; [apply elem_of_cons; auto|exact Hc].
    - intros j Hj Hg. apply elem_of_cons. auto. }
  unfold gc_bigints_mark. case_if; [exact Hw|]. destruct (search_block _ _ _ _ _) as [i|] eqn:Es; [|exact Hw].
  destruct (search_covers _ _ _ _ _ _ Es) as (e & Hi & Hc). rewrite Forall_lookup in Hw, Hf |- *. intros j x Hj.
  destruct (decide (i = j)) as [<-|Hne]; [|rewrite list_lookup_alter_ne in Hj by exact Hne; eauto].
  rewrite list_lookup_alter_eq, Hi in Hj. cbn in Hj. injection Hj as <-. destruct (Hw i e Hi) as [W1 W2]. destruct (Hf i e Hi) as (F1 & F2 & F3).
  unfold mark_entry. destruct (Z.eqb_spec (g_stride e) 0) as [E|E]; [split; [intros _; exists p; split; [apply elem_of_cons; auto|exact Hc]|exact W2]|].
  cbv zeta. destruct (Z.eqb_spec ((p - g_base e) mod g_stride e) 0) as [Em|Em]; cbn [negb]; [|split; auto].
  destruct (Z.leb_spec (g_slot_count e) ((p - g_base e) / g_stride e)); [split; auto|]. split; [exact W1|]. cbn. intros s Hs.
  unfold covers in Hc. assert (0 <= (p - g_base e) / g_stride e) by (apply Z.div_pos; lia).
  rewrite get_set_mark by (try lia; apply Z.div_lt_upper_bound; lia). intros Hg. apply orb_true_iff in Hg as [Hg|Hg]; [|auto].
  apply Z.eqb_eq in Hg as ->. apply elem_of_cons. left. pose proof (Z.div_mod (p - g_base e) (g_stride e) E). lia.
Qed.

Lemma marks_exact roots : forall seen es, table_ok es -> Forall (exact seen) es ->
  Forall (exact (rev roots ++ seen)) (foldl gc_bigints_mark es roots).
Proof.
  induction roots as [|r roots IH]; intros seen es Ht He; cbn [foldl rev app]; [exact He|]. rewrite <- app_assoc. cbn [app].
  apply IH; [eapply shape_table_ok; [apply gc_mark_shape|exact Ht]|]. apply mark_exact; [apply Ht|exact He].
Qed.

(** Sweeping only takes blocks out of the chains and adds free slots. *)
Record shrinks (cp cp' : ant_class_pool_t) : Prop := {
  sh_base : forall k, k ∈ pl_head (cp_base cp') -> k ∈ pl_head (cp_base cp);
  sh_class : forall i b', cp_classes cp' !! i = Some b' -> exists b, cp_classes cp !! i = Some b /\ slot_stride b' = slot_stride b /\
    (forall k, k ∈ bk_head b' -> k ∈ bk_head b) /\ (forall p, p ∈ slot_free b -> p ∈ slot_free b') }.

Lemma shrinks_refl cp : shrinks cp cp.
Proof. split; [auto|]. intros i b Hi. exists b. auto. Qed.

Lemma shrinks_trans cp1 cp2 cp3 : shrinks cp1 cp2 -> shrinks cp2 cp3 -> shrinks cp1 cp3.
Proof.
  intros [A1 A2] [B1 B2]. split; [auto|]. intros i b3 H3. destruct (B2 i b3 H3) as (b2 & H2 & E2 & F2 & G2).
  destruct (A2 i b2 H2) as (b1 & H1 & E1 & F1 & G1). exists b1. splits; auto. congruence.
Qed.

Lemma sweep_bucket_shrinks e b : slot_stride (sweep_bucket e b) = slot_stride b /\
  (forall k, k ∈ bk_head (sweep_bucket e b) -> k ∈ bk_head b) /\ (forall p, p ∈ slot_free b -> p ∈ slot_free (sweep_bucket e b)).
Proof.
  unfold sweep_bucket. destruct (any_live e); cbn; splits; auto.
  - intros p Hp. apply free_slots_elem. auto.
  - intros k Hk. apply unlink_elem in Hk as [Hk _]. exact Hk.
Qed.

Lemma sweep_entry_shrinks cp e : shrinks cp (sweep_entry cp e).
Proof.
  unfold sweep_entry. case_if.
  - destruct (g_block_live e); [apply shrinks_refl|]. split; cbn.
    + intros k Hk. apply unlink_elem in Hk as [Hk _]. exact Hk.
    + intros i b Hi. exists b. auto.
  - destruct (g_bucket e) as [i|]; [|apply shrinks_refl]. split; cbn; [auto|]. intros j b' Hj. destruct (decide (i = j)) as [<-|Hne].
    + rewrite list_lookup_alter_eq in Hj. destruct (cp_classes cp !! i) as [b|]; [|discriminate]. cbn in Hj. injection Hj as <-.
      exists b. split; [reflexivity|]. apply sweep_bucket_shrinks.
    + rewrite list_lookup_alter_ne in Hj by exact Hne. exists b'. auto.
Qed.

(** What the sweep owes an entry. *)
Definition swept (cp : ant_class_pool_t) (e : gc_bigint_block_t) : Prop :=
  if g_stride e =? 0 then forall k, k ∈ pl_head (cp_base cp) -> b_data k = g_block e -> g_block_live e = true
  else forall i b, g_bucket e = Some i -> cp_classes cp !! i = Some b ->
    (forall k, k ∈ bk_head b -> b_data k <> g_block e) \/
    (forall j, 0 <= j < g_slot_count e -> get_mark (g_marks e) j = false -> g_base e + j * g_stride e ∈ slot_free b).

Lemma swept_shrinks cp cp' e : shrinks cp cp' -> swept cp e -> swept cp' e.
Proof.
  intros [A1 A2]. unfold swept. destruct (g_stride e =? 0); [eauto|]. intros H i b' Ei Hi. destruct (A2 i b' Hi) as (b & Hb & _ & F & G).
  destruct (H i b Ei Hb) as [Hn|Hs]; [left|right]; eauto.
Qed.

Lemma sweep_entry_swept cp e : swept (sweep_entry cp e) e.
Proof.
  unfold swept, sweep_entry. destruct (Z.eqb_spec (g_stride e) 0) as [E|E].
  - destruct (g_block_live e); [auto|]. cbn. intros k Hk Ek. apply unlink_elem in Hk as [_ Hk]. contradiction.
  - intros i b Ei. rewrite Ei. cbn. rewrite list_lookup_alter_eq. destruct (cp_classes cp !! i) as [b0|]; [|discriminate]. cbn. intros [= <-].
    unfold sweep_bucket. destruct (any_live e); cbn; [right|left].
    + intros j Hj Hm. apply free_slots_elem. right. exists j. auto.
    + intros k Hk. apply unlink_elem in Hk as [_ Hk]. exact Hk.
Qed.

Lemma sweep_all_swept es : forall cp, shrinks cp (foldl sweep_entry cp es) /\ Forall (swept (foldl sweep_entry cp es)) es.
Proof.
  induction es as [|e es IH]; intros cp; cbn [foldl]; [split; [apply shrinks_refl|constructor]|]. destruct (IH (sweep_entry cp e)) as [H1 H2].
  split; [eapply shrinks_trans; [apply sweep_entry_shrinks|exact H1]|]. constructor; [|exact H2].
  eapply swept_shrinks; [exact H1|apply sweep_entry_swept].
Qed.

(** Trimming changes the free lists only. *)
Lemma trim_fold l : forall cp m, let '(cp', _) := foldl trim_bucket (cp, m) l in
  cp_base cp' = cp_base cp /\ forall i b', cp_classes cp' !! i = Some b' ->
    exists b, cp_classes cp !! i = Some b /\ b' = set_free b (bk_free b') /\ (length (bk_free b') <= length (bk_free b))%nat /\
      (i ∈ l -> (length (bk_free b') <= 2)%nat).
Proof.
  induction l as [|j l IH]; intros cp m; cbn [foldl].
  { split; [reflexivity|]. intros i b Hi. exists b. splits; auto; [destruct b; reflexivity|intros Hin; inversion Hin]. }
  assert (Hone : exists cp1 m1, trim_bucket (cp, m) j = (cp1, m1) /\ cp_base cp1 = cp_base cp /\ forall i b1, cp_classes cp1 !! i = Some b1 ->
    exists b, cp_classes cp !! i = Some b /\ b1 = set_free b (bk_free b1) /\ (length (bk_free b1) <= length (bk_free b))%nat /\ (i = j -> (length (bk_free b1) <= 2)%nat)).
  { unfold trim_bucket. destruct (cp_classes cp !! j) as [b|] eqn:Hj; do 2 eexists; (split; [reflexivity|]); (split; [reflexivity|]); intros i b1 Hi.
    - cbn in Hi. destruct (decide (j = i)) as [<-|Hne].
      + rewrite list_lookup_insert_eq in Hi by (eapply lookup_lt_Some; eauto). injection Hi as <-. exists b. cbn. rewrite length_take. splits; auto; lia.
      + rewrite list_lookup_insert_ne in Hi by exact Hne. exists b1. splits; auto; [destruct b1; reflexivity|congruence].
    - exists b1. splits; auto; [destruct b1; reflexivity|]. intros ->. congruence. }
  destruct Hone as (cp1 & m1 & -> & Eb & Hc). specialize (IH cp1 m1). destruct (foldl trim_bucket (cp1, m1) l) as [cp2 m2].
  destruct IH as [Eb2 Hc2]. split; [congruence|]. intros i b2 Hi. destruct (Hc2 i b2 Hi) as (b1 & H1 & E1 & L1 & T1).
  destruct (Hc i b1 H1) as (b & H0 & E0 & L0 & T0). exists b. splits; auto; [rewrite E1 at 1; rewrite E0 at 1; reflexivity|lia|].
  intros Hin. apply elem_of_cons in Hin as [->|Hin]; [specialize (T0 eq_refl); lia|auto].
Qed.

Lemma heads_length (l : list ant_pool_bucket_t) (a : nat) :
  (length (concat (map (fun ib : nat * ant_pool_bucket_t => bk_head ib.2) (zip (seq a (length l)) l))) <= length (concat (map (fun b => bk_head b ++ bk_free b) l)))%nat.
Proof.
  revert a. induction l as [|b l IH]; intros a; cbn [length seq zip zip_with map concat snd]; [lia|]. rewrite !length_app. specialize (IH (S a)). lia.
Qed.

(** With memory for the table, every block in use has an entry. *)
Lemma begin_tracks t cp : 0 <= g_bigint_block_cap t < 2 ^ 60 -> Z.of_nat (length (all_blocks cp)) < 2 ^ 40 ->
  let '(t1, _) := gc_bigints_begin granted t cp in
  Forall (exact []) (g_bigint_blocks t1) /\
  (forall i b k, cp_classes (cleared cp) !! i = Some b -> slot_stride b <> 0 -> k ∈ bk_head b -> 0 < b_used k ->
     shape_of k (Some i) (slot_stride b) ∈ map entry_shape (g_bigint_blocks t1)) /\
  (forall k, k ∈ pl_head (cp_base cp) -> 0 < b_used k -> shape_of k None 0 ∈ map entry_shape (g_bigint_blocks t1)).
Proof.
  intros Hcap Hlen. unfold gc_bigints_begin. cbv zeta. cbn [g_bigint_blocks].
  change (map (fun b => set_slots b []) (cp_classes cp)) with (cp_classes (cleared cp)).
  set (l := zip (seq 0 (length (cp_classes (cleared cp)))) (cp_classes (cleared cp))).
  set (nb := length (pl_head (cp_base cp))). set (nh := length (concat (map (fun ib : nat * ant_pool_bucket_t => bk_head ib.2) l))).
  assert (Hn : Z.of_nat nh + Z.of_nat nb < 2 ^ 40).
  { pose proof (heads_length (cp_classes (cleared cp)) 0) as Hh. fold l in Hh. fold nh in Hh. unfold all_blocks in Hlen. rewrite !length_app in Hlen.
    replace (map (fun b => bk_head b ++ bk_free b) (cp_classes (cleared cp))) with (map (fun b => bk_head b ++ bk_free b) (cp_classes cp)) in Hh
      by (cbn; rewrite map_map; reflexivity). unfold nb. lia. }
  destruct (buckets_track l (GcTable [] (g_bigint_block_cap t)) (Z.of_nat nb)) as (G1 & _ & G3); [lia|split; cbn [g_bigint_blocks g_bigint_block_cap length]; fold nh; try lia; constructor|].
  set (t1 := foldl (add_bucket granted) _ l) in *.
  destruct (adds_track (pl_head (cp_base cp)) None 0 t1 0) as (F1 & (x & F2) & F3); [fold nb; exact G1|lia|]. set (t2 := foldl _ t1 _) in *.
  pose proof (merge_sort_Permutation by_base (g_bigint_blocks t2)) as Hperm. splits.
  - rewrite Hperm. apply F1.
  - intros i b k Hi Hs Hk Hu. rewrite Hperm, F2, map_app. apply elem_of_app. left. apply G3; auto.
    unfold l. apply list_elem_of_lookup. exists i. rewrite lookup_zip_with, lookup_seq_lt by (eapply lookup_lt_Some; eauto). rewrite Hi. reflexivity.
  - intros k Hk Hu. rewrite Hperm. apply F3; assumption.
Qed.

Lemma shape_entry es sh : sh ∈ map entry_shape es -> exists e, e ∈ es /\ entry_shape e = sh.
Proof. intros H. apply list_elem_of_fmap in H as (e & -> & He). exists e. auto. Qed.

Lemma collect_reclaims t fr m cp live roots : pool_ok fr m cp live -> 0 <= g_bigint_block_cap t < 2 ^ 60 ->
  Z.of_nat (length (all_blocks cp)) < 2 ^ 40 ->
  let '(_, cp', _) := collect_bigints granted t cp m roots in
  (forall i b p, cp_classes cp' !! i = Some b -> is_slot b p -> p ∈ roots \/ p ∈ slot_free b) /\
  (forall k, k ∈ pl_head (cp_base cp') -> 0 < b_used k -> exists r, r ∈ roots /\ b_data k <= r < b_data k + b_used k) /\
  (forall i b, cp_classes cp' !! i = Some b -> (length (bk_free b) <= 2)%nat) /\ (length (pl_free (cp_base cp')) <= 2)%nat.
Proof.
  intros Hok Hcap Hlen. unfold collect_bigints. pose proof (gc_begin_ok granted t fr m cp live Hok) as Hbegin.
  pose proof (begin_tracks t cp Hcap Hlen) as Htr. pose proof (cleared_ok fr m cp live Hok) as Hok1.
  destruct (gc_bigints_begin granted t cp) as [t1 cp1]. destruct Hbegin as (-> & Htab & _ & _), Htr as (Hex & Hcls & Hbase).
  destruct (marking_ok roots (g_bigint_blocks t1) Htab) as (Hsh & _ & _ & _).
  pose proof (marks_exact roots [] _ Htab Hex) as Hexact. rewrite app_nil_r in Hexact. rewrite <- Hsh in Hcls, Hbase.
  set (es := foldl gc_bigints_mark (g_bigint_blocks t1) roots) in *. unfold gc_bigints_sweep.
  destruct (sweep_all_swept es (cleared cp)) as [Hshr Hsw]. set (cp2 := foldl sweep_entry (cleared cp) es) in *.
  pose proof (trim_fold (seq 0 (length (cp_classes cp2))) cp2 m) as Htrim. destruct (foldl trim_bucket (cp2, m) _) as [cp3 m3]. destruct Htrim as [Eb Htrim].
  unfold bigint_free_list_trim. cbn. rewrite Forall_forall in Hsw, Hexact. assert (Hrev : forall r, r ∈ rev roots -> r ∈ roots).
  { intros r Hr. apply list_elem_of_In, in_rev, list_elem_of_In, Hr. }
  splits.
  - intros i b3 p Hi (k & j & Hk & Hj & -> & Hle). destruct (Htrim i b3 Hi) as (b2 & H2 & E3 & _). rewrite E3 in *. cbn in *.
    destruct (sh_class _ _ Hshr i b2 H2) as (b1 & H1 & Es & Hh & _). rewrite Es in *.
    destruct (po_classes _ _ _ _ Hok1 i b1 H1) as [[[Hs0 _] Hz _ _ _ _ _] _].
    assert (Hs : slot_stride b1 <> 0) by (intros E; destruct (Hz E) as [En _]; specialize (Hh k Hk); rewrite En in Hh; inversion Hh).
    assert (Hu : 0 < b_used k) by nia.
    destruct (shape_entry _ _ (Hcls i b1 k H1 Hs (Hh k Hk) Hu)) as (e & He & Ee). unfold entry_shape, shape_of in Ee.
    destruct (Z.eqb_spec (slot_stride b1) 0) as [?|_]; [contradiction|]. injection Ee as Eba _ Ebl Ebk Est Esc _.
    specialize (Hsw e He). unfold swept in Hsw. rewrite Est in Hsw. destruct (Z.eqb_spec (slot_stride b1) 0) as [?|_]; [contradiction|].
    assert (Hj2 : 0 <= j < g_slot_count e) by (rewrite Esc; split; [lia|]; assert (j + 1 <= b_used k / slot_stride b1) by (apply Z.div_le_lower_bound; nia); lia).
    destruct (Hsw i b2 Ebk H2) as [Hn|Hfree]; [exfalso; apply (Hn k Hk); congruence|]. rewrite Eba in Hfree.
    destruct (get_mark (g_marks e) j) eqn:Em; [|auto]. left. apply Hrev. destruct (Hexact e He) as [_ Hx]. specialize (Hx j Hj2 Em). rewrite Eba, Est in Hx. exact Hx.
  - intros k Hk Hu. rewrite Eb in Hk. pose proof (sh_base _ _ Hshr k Hk) as Hk0. destruct (shape_entry _ _ (Hbase k Hk0 Hu)) as (e & He & Ee).
    unfold entry_shape, shape_of in Ee. injection Ee as Eba Een Ebl _ Est _ _. specialize (Hsw e He). unfold swept in Hsw. rewrite Est in Hsw. cbn in Hsw.
    destruct (Hexact e He) as [Hx _]. destruct (Hx (Hsw k Hk ltac:(congruence))) as (r & Hr & Hc). exists r. unfold covers in Hc. rewrite Eba, Een in Hc. auto.
  - intros i b Hi. destruct (Htrim i b Hi) as (b2 & H2 & _ & _ & T). apply T. apply list_elem_of_In, in_seq. apply lookup_lt_Some in H2. lia.
  - rewrite length_take. lia.
Qed.

End Reclaim.
