(* ===== verification/BigIntHeap.v ===== *)
(** * The heap of bigints

    Runs of the program as sequences of allocations ([Pool], [ClassPool]) and
    collections ([BigIntGc]), and what holds in every state they reach. *)

From S2P Require Import Prelude Pool ClassPool BigIntGc.

(** ** Runs of the program *)

(** The memory, the pool, the table of the collector and, as a record of who
    owns what, the pieces handed out and not collected. *)
Record world := World { w_mem : mem; w_pool : ant_class_pool_t; w_table : gc_table; w_live : gmap Z Z }.

Section Runs.
Context `{Hos : OsMap} (fr : mem).

(** An allocation that returns a piece is a step when the system grants what it
    asks for; one that returns none is a step in any case. *)
Inductive step : world -> world -> Prop :=
| step_alloc m cp t live size align p cp' m' :
    0 < size -> c_align align -> size + align <= ANT_POOL_BIGINT_BLOCK_SIZE -> os_grants m ->
    class_pool_alloc m cp size align = (Some p, cp', m') ->
    step (World m cp t live) (World m' cp' t (<[p := size]> live))
| step_refused m cp t live size align cp' m' :
    0 < size -> c_align align -> size + align <= ANT_POOL_BIGINT_BLOCK_SIZE ->
    class_pool_alloc m cp size align = (None, cp', m') ->
    step (World m cp t live) (World m' cp' t live)
| step_collect malloc_ok m cp t live roots t' cp' m' :
    collect_bigints malloc_ok t cp m roots = (t', cp', m') ->
    step (World m cp t live) (World m' cp' t' (survivors roots live)).

Definition start : world := World fr class_pool_new (GcTable [] 0) ∅.

Definition world_ok (w : world) : Prop := pool_ok fr (w_mem w) (w_pool w) (w_live w).

Lemma start_ok : mem_ok fr -> world_ok start.
Proof using Type.
  intros Hfr. split; cbn [w_mem w_pool w_live start]; auto.
  - intros i b Hi. apply lookup_replicate in Hi as [-> Hi]. split; [apply empty_bucket_ok|].
    destruct (lookup_lt_is_Some_2 g_size_classes i Hi) as [c Hc]. exists c. splits; auto. left. reflexivity.
  - constructor.
  - intros p n. rewrite lookup_empty. discriminate.
  - intros p q n k. rewrite lookup_empty. discriminate.
Qed.

Lemma heap_step_ok w w' : step w w' -> world_ok w -> world_ok w'.
Proof using Type.
  intros Hst Hok. unfold world_ok in *. destruct Hst as [m cp t live size align p cp' m' Hs Ha Hf Hg E|m cp t live size align cp' m' Hs Ha Hf E|mo m cp t live roots t' cp' m' E]; cbn [w_mem w_pool w_live] in *.
  - pose proof (class_alloc_ok fr m cp live size align Hok Hs Ha Hf) as H. rewrite E in H. apply (H Hg).
  - pose proof (class_alloc_ok fr m cp live size align Hok Hs Ha Hf) as H. rewrite E in H. apply H.
  - pose proof (gc_collect_ok mo t fr m cp live roots Hok) as H. rewrite E in H. exact H.
Qed.

Lemma heap_reachable_ok w : mem_ok fr -> rtc step start w -> world_ok w.
Proof using Type.
  intros Hfr Hr. assert (Hi : forall a b, rtc step a b -> world_ok a -> world_ok b).
  { induction 1; eauto using heap_step_ok. }
  apply (Hi start w Hr), start_ok, Hfr.
Qed.

(** The piece lies in a mapped region that belongs to the pool. *)
Definition in_pool (w : world) (p n : Z) : Prop :=
  exists r, r ∈ class_regions (w_pool w) /\ r ∈ w_mem w /\ r.1 + sizeof_pool_block <= p /\ p + n <= r.1 + r.2.

Lemma live_in_pool w p n : world_ok w -> w_live w !! p = Some n -> 0 < n /\ in_pool w p n.
Proof using Type.
  intros Hok Hp. unfold world_ok in Hok. destruct (po_live _ _ _ _ Hok p n Hp) as [Hn Hin]. split; [exact Hn|].
  assert (Hk : exists k, k ∈ all_blocks (w_pool w) /\ inside p n k).
  { destruct Hin as [(i & b & Hi & [Hs _] & Hle)|(k & Hk & Hin)].
    - destruct (po_classes _ _ _ _ Hok i b Hi) as [Hb _]. destruct (slot_inside b p n Hb Hs Hle) as (k & Hk & Ink). exists k. split; [|exact Ink].
      eapply bucket_in_all; [exact Hi|]. apply elem_of_app. auto.
    - exists k. split; [unfold all_blocks; rewrite !elem_of_app; auto|]. apply piece_inside; [|exact Hin].
      pose proof (all_blocks_ok _ _ _ _ Hok) as Hbl. rewrite Forall_forall in Hbl. apply Hbl. unfold all_blocks. rewrite !elem_of_app. auto. }
  destruct Hk as (k & Hk & Ink). exists (region k). assert (Hr : region k ∈ class_regions (w_pool w)).
  { rewrite all_blocks_regions. apply list_elem_of_In, in_map, list_elem_of_In, Hk. }
  splits; [exact Hr|rewrite (po_regions _ _ _ _ Hok); apply elem_of_app; auto| |]; unfold region, inside, sizeof_pool_block in *; cbn; lia.
Qed.
End Runs.

(** ** A system that maps upwards *)

Definition os_bump (m : mem) (n : Z) : option Z :=
  let top := foldr (fun r acc => Z.max (r.1 + r.2) acc) 4096 m in
  let a := (top + 4095) / 4096 * 4096 in
  if a + n <=? 2 ^ 47 then Some a else None.

Lemma os_bump_fresh m n a : 0 < n -> os_bump m n = Some a -> 0 < a /\ a mod 4096 = 0 /\ a + n <= 2 ^ 47 /\ Forall (disj (a, n)) m.
Proof.
  intros Hn. unfold os_bump. set (top := foldr _ 4096 m). cbv zeta. destruct (Z.leb_spec ((top + 4095) / 4096 * 4096 + n) (2 ^ 47)); [|discriminate].
  intros [= <-]. assert (Htop : 4096 <= top /\ Forall (fun r => r.1 + r.2 <= top) m).
  { unfold top. clear. induction m as [|r m [IH1 IH2]]; cbn [foldr]; [split; [lia|constructor]|]. split; [lia|]. constructor; [lia|].
    eapply Forall_impl; [exact IH2|]. cbn. lia. }
  pose proof (Z.div_mod (top + 4095) 4096 ltac:(lia)). pose proof (Z.mod_pos_bound (top + 4095) 4096 ltac:(lia)).
  splits; [lia|apply Z.mod_mul; lia|assumption|]. eapply Forall_impl; [apply Htop|]. intros r Hr. unfold disj. cbn in *. lia.
Qed.

#[local] Instance bump_os : OsMap := {| os_alloc := os_bump; os_alloc_fresh := os_bump_fresh |}.

Lemma c_align_8 : c_align 8.
Proof. exists 3. split; [lia|reflexivity]. Qed.

Lemma mem_ok_nil : mem_ok [].
Proof. split; [split; [constructor|intros r1 r2 H; inversion H]|constructor]. Qed.

Lemma bump_grants m : foldr (fun r acc => Z.max (r.1 + r.2) acc) 4096 m <= 2 ^ 46 -> os_grants m.
Proof.
  intros Hm n Hn. unfold os_alloc, bump_os, os_bump. cbv zeta. set (top := foldr _ 4096 m) in *.
  pose proof (Z.div_mod (top + 4095) 4096 ltac:(lia)). pose proof (Z.mod_pos_bound (top + 4095) 4096 ltac:(lia)).
  destruct (Z.leb_spec ((top + 4095) / 4096 * 4096 + n) (2 ^ 47)); [discriminate|lia].
Qed.

(** ** Theorems *)

(** C26: the memory of bigints is safe under every interleaving of collections
    and of allocations that either return no piece or are made when the system
    would grant a block. Starting from an empty pool, after any sequence of
    such allocations of up to one block and of collections with any marked
    pointers (even when the collector's own tables cannot be allocated), every
    piece that was handed out and whose pointer was marked by each collection
    since lies inside a mapped block of the pool, no two such pieces overlap,
    and the memory of the rest of the program is still mapped and apart from
    the pool's blocks. A piece that is cut from the rest of an old block
    because a new one is refused is not covered, and is not safe
    ([refused_piece_lost]). *)
Theorem bigint_heap_safe `{Hos : OsMap} fr w : mem_ok fr -> rtc step (start fr) w ->
  (forall p n, w_live w !! p = Some n -> 0 < n /\ in_pool w p n) /\
  (forall p q n k, w_live w !! p = Some n -> w_live w !! q = Some k -> p <> q -> p + n <= q \/ q + k <= p) /\
  (forall r, r ∈ fr -> r ∈ w_mem w) /\
  (forall r s, r ∈ class_regions (w_pool w) -> s ∈ fr -> disj r s).
Proof.
  intros Hfr Hr. pose proof (heap_reachable_ok fr w Hfr Hr) as Hok. splits.
  - intros p n. apply (live_in_pool fr w p n Hok).
  - apply (po_apart _ _ _ _ Hok).
  - intros r Hin. rewrite (po_regions _ _ _ _ Hok). apply elem_of_app. auto.
  - intros r s H1 H2. apply (split_disj (w_mem w) (class_regions (w_pool w)) fr); auto; apply Hok.
Qed.

(** Steps as functions of the state. *)
Definition do_alloc `{OsMap} (size align : Z) (w : world) : world :=
  match class_pool_alloc (w_mem w) (w_pool w) size align with
  | (Some p, cp, m) => World m cp (w_table w) (<[p := size]> (w_live w))
  | (None, cp, m) => World m cp (w_table w) (w_live w)
  end.
Definition do_collect (roots : list Z) (w : world) : world :=
  let '(t, cp, m) := collect_bigints (fun _ => true) (w_table w) (w_pool w) (w_mem w) roots in World m cp t (survivors roots (w_live w)).

Lemma do_alloc_step `{OsMap} size align w : 0 < size -> c_align align -> size + align <= ANT_POOL_BIGINT_BLOCK_SIZE -> os_grants (w_mem w) ->
  step w (do_alloc size align w).
Proof.
  intros Hs Ha Hf Hg. unfold do_alloc. destruct w as [m cp t live]. cbn [w_mem w_pool w_table w_live] in *.
  destruct (class_pool_alloc m cp size align) as [[[p|] cp'] m'] eqn:E; [eapply step_alloc; eauto|eapply step_refused; eauto].
Qed.
Lemma do_collect_step `{OsMap} roots w : step w (do_collect roots w).
Proof.
  unfold do_collect. destruct w as [m cp t live]. cbn [w_mem w_pool w_table w_live].
  destruct (collect_bigints _ t cp m roots) as [[t' cp'] m'] eqn:E. eapply step_collect; eauto.
Qed.

(** Two bigints, of which a collection keeps the second. *)
Definition run_two : world := do_collect [4128 + 32] (do_alloc (H := bump_os) 24 8 (do_alloc (H := bump_os) 24 8 (start []))).

Lemma run_two_steps : rtc (step (Hos := bump_os)) (start []) run_two.
Proof.
  eapply rtc_l; [apply (do_alloc_step 24 8 (start []))|]; [lia|apply c_align_8|unfold ANT_POOL_BIGINT_BLOCK_SIZE; lia|apply bump_grants; cbn; lia|].
  eapply rtc_l; [apply (do_alloc_step 24 8)|]; [lia|apply c_align_8|unfold ANT_POOL_BIGINT_BLOCK_SIZE; lia|apply bump_grants; vm_compute; discriminate|].
  apply rtc_once, do_collect_step.
Qed.

Lemma bigint_heap_safe_witness : w_live run_two !! (4128 + 32) = Some 24 /\ w_live run_two !! 4128 = None /\
  (forall p n, w_live run_two !! p = Some n -> 0 < n /\ in_pool run_two p n).
Proof.
  split; [vm_compute; reflexivity|]. split; [vm_compute; reflexivity|].
  apply (bigint_heap_safe (Hos := bump_os) [] run_two mem_ok_nil run_two_steps).
Defined.

(** As long as the system grants memory, an allocation in any reachable
    state succeeds: it returns an aligned pointer to a piece inside a mapped
    block of the pool that overlaps no piece in use. *)
Theorem bigint_alloc_correct `{Hos : OsMap} fr w size align : mem_ok fr -> rtc step (start fr) w ->
  0 < size -> c_align align -> size + align <= ANT_POOL_BIGINT_BLOCK_SIZE -> os_grants (w_mem w) ->
  exists p cp' m', class_pool_alloc (w_mem w) (w_pool w) size align = (Some p, cp', m') /\ p mod align = 0 /\
    in_pool (World m' cp' (w_table w) (<[p := size]> (w_live w))) p size /\
    forall q k, w_live w !! q = Some k -> p + size <= q \/ q + k <= p.
Proof.
  intros Hfr Hr Hs Ha Hf Hg. pose proof (heap_reachable_ok fr w Hfr Hr) as Hok. unfold world_ok in Hok.
  pose proof (class_alloc_ok fr _ _ _ size align Hok Hs Ha Hf) as Hc.
  destruct (class_pool_alloc (w_mem w) (w_pool w) size align) as [[[p|] cp'] m']; [|destruct Hc as [_ Hc]; contradiction].
  destruct (Hc Hg) as (Hok' & Hfresh & Hal). exists p, cp', m'. splits; auto.
  - apply (live_in_pool fr (World m' cp' (w_table w) (<[p := size]> (w_live w))) p size Hok'). cbn. apply lookup_insert_eq.
  - intros q k Hq. apply (po_apart _ _ _ _ Hok'); [apply lookup_insert_eq|rewrite lookup_insert_ne; [exact Hq|congruence]|congruence].
Qed.

Lemma bigint_alloc_correct_witness : exists p cp' m', class_pool_alloc (H := bump_os) (w_mem run_two) (w_pool run_two) 100 8 = (Some p, cp', m') /\
  p mod 8 = 0 /\ in_pool (World m' cp' (w_table run_two) (<[p := 100]> (w_live run_two))) p 100 /\
  forall q k, w_live run_two !! q = Some k -> p + 100 <= q \/ q + k <= p.
Proof.
  apply (bigint_alloc_correct (Hos := bump_os) [] run_two 100 8 mem_ok_nil run_two_steps);
    [lia|apply c_align_8|unfold ANT_POOL_BIGINT_BLOCK_SIZE; lia|]. apply bump_grants. vm_compute. discriminate.
Defined.

(** C27: a collection gives back everything that was not marked. After a
    collection in any state that the runs of [bigint_heap_safe] reach, with
    fewer than 2^40 blocks and a table below 2^60 entries that can be allocated
    when it must grow, every slot of every block still in a size class is
    either one of the marked pointers or on the class's list of free slots,
    every block left in the base chain contains a marked pointer, at most two
    free blocks per chain are kept, and the mapped memory is exactly that of
    the blocks still in the pool and of the rest of the program: all other
    blocks are unmapped. *)
Theorem bigint_collect_reclaims `{Hos : OsMap} fr w roots : mem_ok fr -> rtc step (start fr) w ->
  0 <= g_bigint_block_cap (w_table w) < 2 ^ 60 -> Z.of_nat (length (all_blocks (w_pool w))) < 2 ^ 40 ->
  let '(_, cp', m') := collect_bigints (fun _ => true) (w_table w) (w_pool w) (w_mem w) roots in
  m' ≡ₚ class_regions cp' ++ fr /\
  (forall i b p, cp_classes cp' !! i = Some b -> is_slot b p -> p ∈ roots \/ p ∈ slot_free b) /\
  (forall k, k ∈ pl_head (cp_base cp') -> 0 < b_used k -> exists r, r ∈ roots /\ b_data k <= r < b_data k + b_used k) /\
  (forall i b, cp_classes cp' !! i = Some b -> (length (bk_free b) <= 2)%nat) /\ (length (pl_free (cp_base cp')) <= 2)%nat.
Proof.
  intros Hfr Hr Hcap Hlen. pose proof (heap_reachable_ok fr w Hfr Hr) as Hok.
  pose proof (collect_reclaims _ fr _ _ _ roots Hok Hcap Hlen) as H1.
  pose proof (gc_collect_ok (fun _ => true) (w_table w) fr _ _ _ roots Hok) as H2.
  destruct (collect_bigints _ _ _ _ _) as [[t' cp'] m']. split; [exact (po_regions _ _ _ _ H2)|exact H1].
Qed.

Lemma bigint_collect_reclaims_witness :
  let '(_, cp', m') := collect_bigints (fun _ => true) (w_table run_two) (w_pool run_two) (w_mem run_two) [4128 + 32] in
  m' ≡ₚ class_regions cp' ++ [] /\
  (forall i b p, cp_classes cp' !! i = Some b -> is_slot b p -> p ∈ [4128 + 32] \/ p ∈ slot_free b) /\
  (forall k, k ∈ pl_head (cp_base cp') -> 0 < b_used k -> exists r, r ∈ [4128 + 32] /\ b_data k <= r < b_data k + b_used k) /\
  (forall i b, cp_classes cp' !! i = Some b -> (length (bk_free b) <= 2)%nat) /\ (length (pl_free (cp_base cp')) <= 2)%nat.
Proof.
  apply (bigint_collect_reclaims (Hos := bump_os) [] run_two [4128 + 32] mem_ok_nil run_two_steps).
  - vm_compute. split; [discriminate|reflexivity].
  - vm_compute. reflexivity.
Defined.

(** ** Limits *)

(** Allocation of pieces longer than a block is not safe: after a collection
    has recycled a block of 65536 bytes, the second piece of 200000 bytes is
    placed into it. *)
Definition large_run : option (Z * ant_pool_block_t) :=
  let '(_, cp, m) := class_pool_alloc [] class_pool_new 60000 8 in
  let '(_, cp, m) := collect_bigints (fun _ => true) (GcTable [] 0) cp m [] in
  let '(_, cp, m) := class_pool_alloc m cp 200000 8 in
  let '(p, cp, _) := class_pool_alloc m cp 200000 8 in
  match p, pl_head (cp_base cp) with Some p, k :: _ => Some (p, k) | _, _ => None end.

Lemma large_piece_overflows : exists p k, large_run = Some (p, k) /\ p = b_data k /\ b_data k + b_cap k < p + 200000.
Proof. do 2 eexists. split; [vm_compute; reflexivity|]. split; vm_compute; reflexivity. Qed.

(** When the system refuses a block, a piece may be cut from the rest of the
    last one, which is not a slot: the collector does not see it and recycles
    the block although the piece is marked. *)
Definition one_block (m : mem) (n : Z) : option Z := if (length m =? 0)%nat then os_bump m n else None.

Lemma one_block_fresh m n a : 0 < n -> one_block m n = Some a -> 0 < a /\ a mod 4096 = 0 /\ a + n <= 2 ^ 47 /\ Forall (disj (a, n)) m.
Proof. intros Hn. unfold one_block. case_if; [|discriminate]. apply os_bump_fresh, Hn. Qed.

#[local] Instance one_block_os : OsMap := {| os_alloc := one_block; os_alloc_fresh := one_block_fresh |}.

Definition refused_run : option (Z * list ant_pool_block_t * list ant_pool_block_t) :=
  let fill := Nat.iter 204 (fun '(cp, m) => let '(_, cp, m) := class_pool_alloc (H := one_block_os) m cp 300 8 in (cp, m)) (class_pool_new, []) in
  let '(p, cp, m) := class_pool_alloc (H := one_block_os) fill.2 fill.1 250 8 in
  match p with
  | Some p =>
      let '(_, cp, _) := collect_bigints (fun _ => true) (GcTable [] 0) cp m [p] in
      let b := nth 15 (cp_classes cp) empty_bucket in Some (p, bk_head b, bk_free b)
  | None => None
  end.

Lemma refused_piece_lost : exists p k, refused_run = Some (p, [], [k]) /\ b_data k <= p /\ p + 250 <= b_data k + b_cap k.
Proof. do 2 eexists. split; [vm_compute; reflexivity|]. split; vm_compute; discriminate. Qed.
