(* ===== verification/Date.v ===== *)
(** * Dates: time values and civil fields

    The arithmetic of [src/src/modules/date.c]: the calendar, the conversion of
    a time value to fields and back, and the getters and setters of Date
    objects.  The doubles of this code hold integers: a finite one is the
    integer, [None] stands for NaN and the infinities; sums and products are
    rounded to the nearest double.  [tz] is the zone of the system, the minutes
    [get_timezone_offset] returns for a time in milliseconds. *)

From S2P Require Import Prelude.

(** ** Doubles that hold integers *)

Definition dbl := option Z.

Definition finite (z : Z) : dbl := if Z.abs z <? 2 ^ 1024 then Some z else None.

Definition dadd (x y : dbl) : dbl :=
  match x, y with Some x, Some y => finite (round53 (x + y)) | _, _ => None end.
Definition dmul (x y : dbl) : dbl :=
  match x, y with Some x, Some y => finite (round53 (x * y)) | _, _ => None end.

(** [floor(m / 12)]: the quotient is rounded to 53 bits first; [s] places
    after the point are kept. *)
Definition floor_12th (m : Z) : Z :=
  let a := Z.abs m in
  if a =? 0 then 0
  else
    let s := 52 - (Z.log2 (a * 2 ^ 16 / 12) - 16) in
    if 0 <=? s then Z.sgn m * quot_even (a * 2 ^ s) 12 / 2 ^ s
    else Z.sgn m * quot_even a (12 * 2 ^ (- s)) * 2 ^ (- s).

(** ** The calendar *)

Definition month_days : list Z := [31; 28; 31; 30; 31; 30; 31; 31; 30; 31; 30; 31].

Definition math_mod (a b : Z) : Z := let m := Z.rem a b in m + (if m <? 0 then b else 0).
Definition floor_div_int64 (a b : Z) : Z := let m := Z.rem a b in Z.quot (a - (m + (if m <? 0 then b else 0))) b.

Definition c_not (b : Z) : Z := if b =? 0 then 1 else 0.
Definition days_in_year (y : Z) : Z := 365 + c_not (Z.rem y 4) - c_not (Z.rem y 100) + c_not (Z.rem y 400).
Definition days_from_year (y : Z) : Z :=
  365 * (y - 1970) + floor_div_int64 (y - 1969) 4 - floor_div_int64 (y - 1901) 100 + floor_div_int64 (y - 1601) 400.

(** The loop of [year_from_days] corrects an estimate. *)
Fixpoint year_loop (fuel : nat) (d y : Z) : option (Z * Z) :=
  match fuel with
  | O => None
  | S fuel =>
      let d1 := d - days_from_year y in
      if d1 <? 0 then year_loop fuel d (y - 1)
      else if d1 <? days_in_year y then Some (y, d1)
      else year_loop fuel d (y + 1)
  end.
Definition year_from_days (days : Z) : option (Z * Z) :=
  year_loop 4 days (floor_div_int64 (days * 10000) 3652425 + 1970).

(** ** Fields *)

Record date_fields_t := DateFields {
  year : Z; month : Z; day : Z; hour : Z; minute : Z; second : Z; millisecond : Z; weekday : Z; tz_minutes : Z }.

Inductive date_field_index_t :=
| DATE_FIELD_YEAR | DATE_FIELD_MONTH | DATE_FIELD_DAY_OF_MONTH | DATE_FIELD_HOUR | DATE_FIELD_MINUTE
| DATE_FIELD_SECOND | DATE_FIELD_MILLISECOND | DATE_FIELD_DAY_OF_WEEK | DATE_FIELD_TZ_MINUTES.

Definition date_fields_get (f : date_fields_t) (i : date_field_index_t) : Z :=
  match i with
  | DATE_FIELD_YEAR => year f | DATE_FIELD_MONTH => month f | DATE_FIELD_DAY_OF_MONTH => day f
  | DATE_FIELD_HOUR => hour f | DATE_FIELD_MINUTE => minute f | DATE_FIELD_SECOND => second f
  | DATE_FIELD_MILLISECOND => millisecond f | DATE_FIELD_DAY_OF_WEEK => weekday f | DATE_FIELD_TZ_MINUTES => tz_minutes f
  end.
Definition date_fields_set (f : date_fields_t) (i : date_field_index_t) (v : Z) : date_fields_t :=
  let '(DateFields y mo d h mi s ms wd tz) := f in
  match i with
  | DATE_FIELD_YEAR => DateFields v mo d h mi s ms wd tz
  | DATE_FIELD_MONTH => DateFields y v d h mi s ms wd tz
  | DATE_FIELD_DAY_OF_MONTH => DateFields y mo v h mi s ms wd tz
  | DATE_FIELD_HOUR => DateFields y mo d v mi s ms wd tz
  | DATE_FIELD_MINUTE => DateFields y mo d h v s ms wd tz
  | DATE_FIELD_SECOND => DateFields y mo d h mi v ms wd tz
  | DATE_FIELD_MILLISECOND => DateFields y mo d h mi s v wd tz
  | DATE_FIELD_DAY_OF_WEEK => DateFields y mo d h mi s ms v tz
  | DATE_FIELD_TZ_MINUTES => DateFields y mo d h mi s ms wd v
  end.

Definition field_number (i : date_field_index_t) : nat :=
  match i with
  | DATE_FIELD_YEAR => 0 | DATE_FIELD_MONTH => 1 | DATE_FIELD_DAY_OF_MONTH => 2 | DATE_FIELD_HOUR => 3 | DATE_FIELD_MINUTE => 4
  | DATE_FIELD_SECOND => 5 | DATE_FIELD_MILLISECOND => 6 | DATE_FIELD_DAY_OF_WEEK => 7 | DATE_FIELD_TZ_MINUTES => 8
  end.
Definition field_list : list date_field_index_t :=
  [DATE_FIELD_YEAR; DATE_FIELD_MONTH; DATE_FIELD_DAY_OF_MONTH; DATE_FIELD_HOUR; DATE_FIELD_MINUTE; DATE_FIELD_SECOND;
   DATE_FIELD_MILLISECOND; DATE_FIELD_DAY_OF_WEEK; DATE_FIELD_TZ_MINUTES].

Definition date_timeclip (t : dbl) : dbl :=
  match t with
  | Some t => if (-8640000000000000 <=? t) && (t <=? 8640000000000000) then Some t else None
  | None => None
  end.

(** The days of a month: February has one more in a leap year. *)
Definition days_in_month (i : nat) (md y : Z) : Z := match i with 1%nat => md + (days_in_year y - 365) | _ => md end.

(** The first eleven months; the twelfth takes what is left. *)
Fixpoint month_loop (ms : list Z) (i : nat) (y days : Z) : nat * Z :=
  match ms with
  | [] => (i, days)
  | md :: ms =>
      let md := days_in_month i md y in
      if days <? md then (i, days) else month_loop ms (S i) y (days - md)
  end.

Fixpoint days_before (ms : list Z) (i : nat) (y : Z) : Z :=
  match ms with
  | [] => 0
  | md :: ms => days_in_month i md y + days_before ms (S i) y
  end.

Section Zone.
Context (tz : Z -> Z).

(** [None]: the function returns 0, the time is NaN. *)
Definition date_extract_fields_from_time (dval : dbl) (is_local force : bool) : option date_fields_t :=
  let start := match dval with
               | None => if force then Some (0, 0) else None
               | Some d => if is_local then let z := - tz d in Some (d + z * 60000, z) else Some (d, 0)
               end in
  match start with
  | None => None
  | Some (d, z) =>
      let h := math_mod d 86400000 in
      let days := Z.quot (d - h) 86400000 in
      let ms := Z.rem h 1000 in
      let h := Z.quot (h - ms) 1000 in
      let s := Z.rem h 60 in
      let h := Z.quot (h - s) 60 in
      let m := Z.rem h 60 in
      let h := Z.quot (h - m) 60 in
      let wd := math_mod (days + 4) 7 in
      match year_from_days days with
      | None => None
      | Some (y, days) =>
          let '(i, days) := month_loop (take 11 month_days) 0 y days in
          Some (DateFields y (Z.of_nat i) (days + 1) h m s ms wd z)
      end
  end.

(** [(int64_t)tv] saturates. *)
Definition to_int64 (t : Z) : Z := if t <? - 2 ^ 63 then - 2 ^ 63 else if 2 ^ 63 <=? t then 2 ^ 63 - 1 else t.

(** The time value in the zone of the fields. *)
Definition make_tv (f : date_fields_t) : dbl :=
  match dadd (Some (year f)) (Some (floor_12th (month f))) with
  | None => None
  | Some ym =>
      let mn := Z.rem (month f) 12 in
      let mn := if mn <? 0 then mn + 12 else mn in
      if (ym <? -271821) || (275760 <? ym) then None
      else
        let days := days_from_year ym + days_before (take (Z.to_nat mn) month_days) 0 ym in
        let day := dadd (dadd (Some days) (Some (day f))) (Some (-1)) in
        let time := dmul (Some (hour f)) (Some 3600000) in
        let time := dadd time (dmul (Some (minute f)) (Some 60000)) in
        let time := dadd time (dmul (Some (second f)) (Some 1000)) in
        let time := dadd time (Some (millisecond f)) in
        dadd (dmul day (Some 86400000)) time
  end.

Definition date_make_fields (f : date_fields_t) (is_local : bool) : dbl :=
  match make_tv f with
  | None => None
  | Some tv =>
      let tv := if is_local then dadd (Some tv) (dmul (Some (tz (to_int64 tv))) (Some 60000)) else Some tv in
      date_timeclip tv
  end.

(** ** Methods

    The receiver is a Date object with its time value, or [None] for any other
    value.  A numeric argument is what [js_to_number] and [trunc] make of it,
    [None] when it is not finite. *)

Definition not_a_date {A} : result A := Err JS_ERR_TYPE "not a Date object".

Record date_get_field_spec_t := GetSpec { gs_field : date_field_index_t; gs_local : bool; gs_legacy_get_year : bool }.
Record date_set_field_spec_t := SetSpec { ss_first : date_field_index_t; ss_end : date_field_index_t; ss_local : bool }.

Definition date_get_field (this : option dbl) (spec : date_get_field_spec_t) : result dbl :=
  match this with
  | None => not_a_date
  | Some t =>
      match date_extract_fields_from_time t (gs_local spec) false with
      | None => Ok None
      | Some f =>
          let f := if gs_legacy_get_year spec then date_fields_set f DATE_FIELD_YEAR (year f - 1900) else f in
          Ok (Some (date_fields_get f (gs_field spec)))
      end
  end.

(** The arguments in turn; [None] when one is not finite. *)
Fixpoint set_args (f : date_fields_t) (fields : list date_field_index_t) (args : list dbl) : option date_fields_t :=
  match fields, args with
  | i :: fields, Some a :: args => set_args (date_fields_set f i a) fields args
  | _ :: _, None :: _ => None
  | _, _ => Some f
  end.

Definition is_year (i : date_field_index_t) : bool := match i with DATE_FIELD_YEAR => true | _ => false end.
Definition spec_fields (spec : date_set_field_spec_t) : list date_field_index_t :=
  let a := field_number (ss_first spec) in take (field_number (ss_end spec) - a) (drop a field_list).

(** The result is the value returned and the new time value. *)
Definition date_set_field (this : option dbl) (args : list dbl) (spec : date_set_field_spec_t) : result (dbl * dbl) :=
  match this with
  | None => not_a_date
  | Some t =>
      let res := date_extract_fields_from_time t (ss_local spec) (is_year (ss_first spec)) in
      let f := match res with Some f => f | None => DateFields 0 0 0 0 0 0 0 0 0 end in
      match set_args f (spec_fields spec) args with
      | None => Ok (None, None)
      | Some f =>
          match res with
          | None => Ok (None, t)
          | Some _ => let d := match args with [] => None | _ => date_make_fields f (ss_local spec) end in Ok (d, d)
          end
      end
  end.

Definition builtin_Date_getTimezoneOffset (this : option dbl) : result dbl :=
  match this with
  | None => not_a_date
  | Some None => Ok None
  | Some (Some t) => Ok (Some (tz t))
  end.

Definition builtin_Date_setTime (this : option dbl) (args : list dbl) : result (dbl * dbl) :=
  match this with
  | None => not_a_date
  | Some _ => let v := date_timeclip (match args with a :: _ => a | [] => None end) in Ok (v, v)
  end.

Definition builtin_Date_valueOf (this : option dbl) : result dbl :=
  match this with None => not_a_date | Some t => Ok t end.

(** The fields from the arguments of the constructor and of [Date.UTC]. *)
Fixpoint ctor_args (f : date_fields_t) (fields : list date_field_index_t) (args : list dbl) : option date_fields_t :=
  match fields, args with
  | i :: fields, Some a :: args =>
      let f := date_fields_set f i a in
      let f := if is_year i && (0 <=? year f) && (year f <? 100) then date_fields_set f DATE_FIELD_YEAR (year f + 1900) else f in
      ctor_args f fields args
  | _ :: _, None :: _ => None
  | _, _ => Some f
  end.
Definition ctor_fields : date_fields_t := DateFields 0 0 1 0 0 0 0 0 0.

Definition builtin_Date_UTC (args : list dbl) : dbl :=
  match args with
  | [] => None
  | _ => match ctor_args ctor_fields (take 7 field_list) args with Some f => date_make_fields f false | None => None end
  end.

(** [new Date(year, month, ...)] with two arguments or more. *)
Definition builtin_Date_fields (args : list dbl) : dbl :=
  match ctor_args ctor_fields (take 7 field_list) args with Some f => date_make_fields f true | None => None end.

(** [setYear]: an infinite argument reaches [date_set_field]. *)
Definition builtin_Date_setYear (this : option dbl) (args : list dbl) : result (dbl * dbl) :=
  match this with
  | None => not_a_date
  | Some _ =>
      match args with
      | Some y :: _ =>
          let y := if (0 <=? y) && (y <? 100) then y + 1900 else y in
          date_set_field this [Some y] (SetSpec DATE_FIELD_YEAR DATE_FIELD_MONTH true)
      | _ => Ok (None, None)
      end
  end.

End Zone.

(** The specifications of the methods, in local time or in UTC. *)
Definition getYear_spec := GetSpec DATE_FIELD_YEAR true true.
Definition getFullYear_spec (local : bool) := GetSpec DATE_FIELD_YEAR local false.
Definition getMonth_spec (local : bool) := GetSpec DATE_FIELD_MONTH local false.
Definition getDate_spec (local : bool) := GetSpec DATE_FIELD_DAY_OF_MONTH local false.
Definition getHours_spec (local : bool) := GetSpec DATE_FIELD_HOUR local false.
Definition getMinutes_spec (local : bool) := GetSpec DATE_FIELD_MINUTE local false.
Definition getSeconds_spec (local : bool) := GetSpec DATE_FIELD_SECOND local false.
Definition getMilliseconds_spec (local : bool) := GetSpec DATE_FIELD_MILLISECOND local false.
Definition getDay_spec (local : bool) := GetSpec DATE_FIELD_DAY_OF_WEEK local false.
Definition setMilliseconds_spec := SetSpec DATE_FIELD_MILLISECOND DATE_FIELD_DAY_OF_WEEK.
Definition setSeconds_spec := SetSpec DATE_FIELD_SECOND DATE_FIELD_DAY_OF_WEEK.
Definition setMinutes_spec := SetSpec DATE_FIELD_MINUTE DATE_FIELD_DAY_OF_WEEK.
Definition setHours_spec := SetSpec DATE_FIELD_HOUR DATE_FIELD_DAY_OF_WEEK.
Definition setDate_spec := SetSpec DATE_FIELD_DAY_OF_MONTH DATE_FIELD_HOUR.
Definition setMonth_spec := SetSpec DATE_FIELD_MONTH DATE_FIELD_DAY_OF_MONTH.
Definition setFullYear_spec := SetSpec DATE_FIELD_YEAR DATE_FIELD_HOUR.

(** ** Exact doubles *)

Lemma finite_small z : Z.abs z < 2 ^ 53 -> finite (round53 z) = Some z.
Proof.
  intros Hz. rewrite round53_small by exact Hz. unfold finite.
  assert (Hlt : Z.abs z < 2 ^ 1024) by (apply Z.lt_trans with (2 ^ 53); [exact Hz|apply Z.pow_lt_mono_r; lia]).
  apply Z.ltb_lt in Hlt. rewrite Hlt. reflexivity.
Qed.
Lemma dadd_small x y : Z.abs (x + y) < 2 ^ 53 -> dadd (Some x) (Some y) = Some (x + y).
Proof. apply finite_small. Qed.
Lemma dmul_small x y : Z.abs (x * y) < 2 ^ 53 -> dmul (Some x) (Some y) = Some (x * y).
Proof. apply finite_small. Qed.

Lemma quot_even_spec a b : 0 < b -> b * (2 * quot_even a b - 1) <= 2 * a <= b * (2 * quot_even a b + 1).
Proof.
  intros Hb. unfold quot_even. pose proof (Z.div_mod a b ltac:(lia)). pose proof (Z.mod_pos_bound a b Hb).
  destruct (Z.ltb_spec b (2 * (a mod b))); cbn [orb]; [nia|].
  destruct (Z.eqb_spec b (2 * (a mod b))); cbn [andb]; [destruct (Z.odd (a / b)); nia|nia].
Qed.

(** Below 2^53 the quotient by twelve keeps three binary places, which is
    enough for its floor to be right. *)
Lemma floor_12th_exact m : Z.abs m < 2 ^ 53 -> floor_12th m = m / 12.
Proof.
  intros Hm. unfold floor_12th. destruct (Z.eqb_spec (Z.abs m) 0) as [E|E]; [replace m with 0 by lia; reflexivity|].
  set (a := Z.abs m) in *. set (s := 52 - (Z.log2 (a * 2 ^ 16 / 12) - 16)).
  assert (Hlog : Z.log2 (a * 2 ^ 16 / 12) <= 65).
  { assert (a * 2 ^ 16 / 12 < 2 ^ 66) by (apply Z.div_lt_upper_bound; lia).
    assert (0 < a * 2 ^ 16 / 12) by (apply Z.div_str_pos; lia). apply Z.log2_lt_pow2 in H; lia. }
  assert (Hs : 3 <= s) by (unfold s; lia). destruct (Z.leb_spec 0 s); [|lia].
  assert (Hp : 8 <= 2 ^ s) by (change 8 with (2 ^ 3); apply Z.pow_le_mono_r; lia).
  pose proof (quot_even_spec (a * 2 ^ s) 12 ltac:(lia)) as Hq. set (M := quot_even (a * 2 ^ s) 12) in *. set (P := 2 ^ s) in *. clearbody P M.
  assert (Hd : a = 12 * (a / 12) + a mod 12) by (apply Z.div_mod; lia). pose proof (Z.mod_pos_bound a 12 ltac:(lia)) as Hr.
  set (k := a / 12) in *. set (r := a mod 12) in *. clearbody k r.
  assert (HM : k * P <= M < (k + 1) * P) by nia.
  destruct (Z.abs_spec m) as [[Hm0 Ea]|[Hm0 Ea]]; fold a in Ea.
  - rewrite Z.sgn_pos by lia. rewrite Z.mul_1_l. transitivity k; [symmetry; apply Z.div_unique with (M - P * k); lia|].
    apply Z.div_unique with r; lia.
  - rewrite Z.sgn_neg by lia. destruct (Z.eq_dec r 0) as [Er|Er].
    + assert (M = k * P) by nia. replace (-1 * M) with (- k * P) by lia. rewrite Z.div_mul by lia. apply Z.div_unique with 0; lia.
    + assert (k * P < M) by nia. transitivity (- k - 1); [symmetry; apply Z.div_unique with ((k + 1) * P - M); lia|].
      apply Z.div_unique with (12 - r); lia.
Qed.

(** ** The calendar *)

Lemma math_mod_spec a b : 0 < b -> math_mod a b = a mod b.
Proof.
  intros Hb. unfold math_mod. pose proof (Z.quot_rem' a b). pose proof (Z.rem_bound_abs a b ltac:(lia)).
  destruct (Z.ltb_spec (Z.rem a b) 0); [apply Z.mod_unique with (Z.quot a b - 1)|apply Z.mod_unique with (Z.quot a b)]; lia.
Qed.
Lemma floor_div_spec a b : 0 < b -> floor_div_int64 a b = a / b.
Proof.
  intros Hb. unfold floor_div_int64. change (Z.rem a b + (if Z.rem a b <? 0 then b else 0)) with (math_mod a b). rewrite math_mod_spec by exact Hb.
  pose proof (Z.div_mod a b ltac:(lia)). replace (a - a mod b) with (a / b * b) by lia. apply Z.quot_mul. lia.
Qed.

Lemma c_not_rem y k : 0 < k -> c_not (Z.rem y k) = if y mod k =? 0 then 1 else 0.
Proof.
  intros Hk. unfold c_not. destruct (Z.eqb_spec (Z.rem y k) 0) as [E|E], (Z.eqb_spec (y mod k) 0) as [E2|E2]; try reflexivity; exfalso.
  - apply E2. apply Z.rem_divide in E; [|lia]. apply Z.mod_divide; [lia|exact E].
  - apply E. apply Z.mod_divide in E2; [|lia]. apply Z.rem_divide; [lia|exact E2].
Qed.

(** A year is a leap year as the Gregorian calendar has it. *)
Definition leap (y : Z) : bool := (y mod 4 =? 0) && (negb (y mod 100 =? 0) || (y mod 400 =? 0)).

Lemma days_in_year_spec y : days_in_year y = if leap y then 366 else 365.
Proof.
  unfold days_in_year, leap. rewrite !c_not_rem by lia. pose proof (Z.div_mod y 400 ltac:(lia)). pose proof (Z.mod_pos_bound y 400 ltac:(lia)).
  destruct (Z.eqb_spec (y mod 4) 0), (Z.eqb_spec (y mod 100) 0), (Z.eqb_spec (y mod 400) 0); cbn; try reflexivity; exfalso;
    Z.to_euclidean_division_equations; lia.
Qed.

Lemma days_from_year_next y : days_from_year (y + 1) = days_from_year y + days_in_year y.
Proof.
  unfold days_from_year, days_in_year. rewrite !floor_div_spec, !c_not_rem by lia.
  destruct (Z.eqb_spec (y mod 4) 0), (Z.eqb_spec (y mod 100) 0), (Z.eqb_spec (y mod 400) 0); Z.to_euclidean_division_equations; lia.
Qed.

(** The estimate of the year is off by one at most. *)
Lemma year_estimate d : let y := d * 10000 / 3652425 + 1970 in days_from_year (y - 1) <= d < days_from_year (y + 2).
Proof.
  cbv zeta. unfold days_from_year. rewrite !floor_div_spec by lia. Z.to_euclidean_division_equations. lia.
Qed.

Lemma year_from_days_ok d : exists y r, year_from_days d = Some (y, r) /\ d = days_from_year y + r /\ 0 <= r < days_in_year y.
Proof.
  unfold year_from_days. rewrite floor_div_spec by lia. destruct (year_estimate d) as [H1 H2]. set (y := d * 10000 / 3652425 + 1970) in *.
  pose proof (days_from_year_next (y - 1)) as N1. replace (y - 1 + 1) with y in N1 by lia.
  pose proof (days_from_year_next y) as N2. pose proof (days_from_year_next (y + 1)) as N3. replace (y + 1 + 1) with (y + 2) in N3 by lia.
  cbn [year_loop]. destruct (Z.ltb_spec (d - days_from_year y) 0).
  - destruct (Z.ltb_spec (d - days_from_year (y - 1)) 0); [lia|]. destruct (Z.ltb_spec (d - days_from_year (y - 1)) (days_in_year (y - 1))); [|lia].
    do 2 eexists. split; [reflexivity|]. lia.
  - destruct (Z.ltb_spec (d - days_from_year y) (days_in_year y)); [do 2 eexists; split; [reflexivity|lia]|].
    destruct (Z.ltb_spec (d - days_from_year (y + 1)) 0); [lia|]. destruct (Z.ltb_spec (d - days_from_year (y + 1)) (days_in_year (y + 1))); [|lia].
    do 2 eexists. split; [reflexivity|lia].
Qed.

(** ** Months *)

Definition month_length (y : Z) (i : nat) : Z := days_in_month i (nth i month_days 0) y.
Definition month_start (y : Z) (i : nat) : Z := days_before (take i month_days) 0 y.

Lemma year_length y : days_in_year y = 365 \/ days_in_year y = 366.
Proof. rewrite days_in_year_spec. destruct (leap y); auto. Qed.

Lemma month_next y i : (i < 12)%nat -> month_start y (S i) = month_start y i + month_length y i.
Proof.
  intros Hi. unfold month_start, month_length. do 12 (destruct i as [|i]; [cbn; lia|]). lia.
Qed.

(** The loop finds the month a day of the year lies in. *)
Lemma month_loop_ok y d : 0 <= d < days_in_year y -> exists i r, month_loop (take 11 month_days) 0 y d = (i, r) /\ (i < 12)%nat /\
  d = month_start y i + r /\ 0 <= r < month_length y i.
Proof.
  intros Hd. pose proof (year_length y) as Hy. unfold month_start, month_length. cbn [take month_days month_loop days_in_month].
  repeat match goal with
  | |- context [if ?b then _ else _] => destruct b eqn:?; boolprop
  end; do 2 eexists; (split; [reflexivity|]); cbn in *; lia.
Qed.

(** A month and a day of a month are found again. *)
Lemma month_loop_start y i r : (i < 12)%nat -> 0 <= r < month_length y i -> month_loop (take 11 month_days) 0 y (month_start y i + r) = (i, r).
Proof.
  intros Hi Hr. pose proof (year_length y) as Hy. unfold month_start, month_length in *.
  do 12 (destruct i as [|i]; [cbn in *; repeat match goal with
  | |- context [if ?b then _ else _] => destruct b eqn:?; boolprop; try lia
  end; f_equal; lia|]). lia.
Qed.

Lemma month_in_year y i r : (i < 12)%nat -> 0 <= r < month_length y i -> 0 <= month_start y i + r < days_in_year y.
Proof.
  intros Hi Hr. pose proof (year_length y) as Hy. unfold month_start, month_length in *.
  do 12 (destruct i as [|i]; [cbn in *; lia|]). lia.
Qed.

(** ** Fields and time values *)

(** A date of the Gregorian calendar with a time of day. *)
Record valid_fields (f : date_fields_t) : Prop := {
  vf_month : 0 <= month f < 12;
  vf_day : 1 <= day f <= month_length (year f) (Z.to_nat (month f));
  vf_hour : 0 <= hour f < 24; vf_minute : 0 <= minute f < 60; vf_second : 0 <= second f < 60; vf_ms : 0 <= millisecond f < 1000 }.

Definition day_number (f : date_fields_t) : Z := days_from_year (year f) + month_start (year f) (Z.to_nat (month f)) + day f - 1.
Definition time_of_day (f : date_fields_t) : Z := hour f * 3600000 + minute f * 60000 + second f * 1000 + millisecond f.
(** The milliseconds from 1970 to the date, in a zone without offset. *)
Definition time_of (f : date_fields_t) : Z := day_number f * 86400000 + time_of_day f.

Definition max_time : Z := 8640000000000000.

Lemma days_from_year_mono a b : a <= b -> days_from_year a <= days_from_year b.
Proof.
  intros H. replace b with (a + Z.of_nat (Z.to_nat (b - a))) by lia. generalize (Z.to_nat (b - a)) as n. intros n. clear H.
  induction n as [|n IH]; [rewrite Z.add_0_r; lia|].
  replace (a + Z.of_nat (S n)) with (a + Z.of_nat n + 1) by lia. rewrite days_from_year_next. pose proof (year_length (a + Z.of_nat n)). lia.
Qed.

(** The years of time values. *)
Lemma year_range y r : 0 <= r < days_in_year y -> -100000001 <= days_from_year y + r <= 100000001 -> -271821 <= y <= 275760.
Proof.
  intros Hr Hd. split.
  - destruct (Z.leb_spec (-271821) y) as [H|H]; [exact H|]. pose proof (days_from_year_mono (y + 1) (-271821) ltac:(lia)) as Hm.
    rewrite days_from_year_next in Hm. change (days_from_year (-271821)) with (-100000109) in Hm. lia.
  - destruct (Z.leb_spec y 275760) as [H|H]; [exact H|]. pose proof (days_from_year_mono 275761 y ltac:(lia)) as Hm.
    change (days_from_year 275761) with 100000110 in Hm. lia.
Qed.

(** MakeDay and MakeTime of the language: months outside the year move the
    year, and every other field may be negative or too large. *)
Definition make_time (f : date_fields_t) : dbl :=
  let y := year f + month f / 12 in
  if (y <? -271821) || (275760 <? y) then None
  else Some ((days_from_year y + month_start y (Z.to_nat (month f mod 12)) + day f - 1) * 86400000 + time_of_day f).

(** Fields for which the arithmetic of doubles is exact. *)
Record small_fields (f : date_fields_t) : Prop := {
  sf_year : Z.abs (year f) < 2 ^ 50; sf_month : Z.abs (month f) < 2 ^ 50; sf_day : Z.abs (day f) <= 10 ^ 6;
  sf_hour : Z.abs (hour f) <= 10 ^ 7; sf_minute : Z.abs (minute f) <= 10 ^ 8; sf_second : Z.abs (second f) <= 10 ^ 10;
  sf_ms : Z.abs (millisecond f) <= 10 ^ 13 }.

Lemma month_start_range y i : (i < 12)%nat -> 0 <= month_start y i <= 335.
Proof. intros Hi. pose proof (year_length y). unfold month_start. do 12 (destruct i as [|i]; [cbn; lia|]). lia. Qed.

Lemma make_tv_ok f : small_fields f -> make_tv f = make_time f.
Proof.
  intros [H1 H2 H3 H4 H5 H6 H7]. unfold make_tv, make_time. rewrite floor_12th_exact by lia.
  assert (Hd : Z.abs (month f / 12) <= 2 ^ 50) by (Z.to_euclidean_division_equations; lia).
  rewrite dadd_small by lia.
  assert (Hmn : (let mn := Z.rem (month f) 12 in if mn <? 0 then mn + 12 else mn) = month f mod 12).
  { cbv zeta. rewrite <- math_mod_spec by lia. unfold math_mod. destruct (Z.ltb_spec (Z.rem (month f) 12) 0); lia. }
  cbv zeta in *. rewrite Hmn. set (y := year f + month f / 12). case_if; [reflexivity|]. boolprop.
  pose proof (Z.mod_pos_bound (month f) 12 ltac:(lia)) as Hmr.
  change (days_before (take (Z.to_nat (month f mod 12)) month_days) 0 y) with (month_start y (Z.to_nat (month f mod 12))).
  pose proof (month_start_range y (Z.to_nat (month f mod 12)) ltac:(lia)) as Hms.
  pose proof (days_from_year_mono (-271821) y ltac:(lia)) as Hlo. pose proof (days_from_year_mono y 275760 ltac:(lia)) as Hhi.
  change (days_from_year (-271821)) with (-100000109) in Hlo. change (days_from_year 275760) with 99999744 in Hhi.
  unfold time_of_day. set (base := days_from_year y + month_start y (Z.to_nat (month f mod 12))) in *.
  rewrite (dadd_small base (day f)) by lia. rewrite (dadd_small (base + day f) (-1)) by lia.
  rewrite (dmul_small (hour f)), (dmul_small (minute f)), (dmul_small (second f)) by lia.
  rewrite !dadd_small by lia. rewrite dmul_small by lia. rewrite dadd_small by lia. reflexivity.
Qed.

Lemma valid_small f : valid_fields f -> -271821 <= year f <= 275760 -> small_fields f /\ make_time f = Some (time_of f).
Proof.
  intros [H1 H2 H3 H4 H5 H6] Hy.
  assert (Hm : 0 <= month_start (year f) (Z.to_nat (month f)) + (day f - 1) < days_in_year (year f)) by (apply month_in_year; lia).
  pose proof (year_length (year f)) as Hyl. pose proof (month_start_range (year f) (Z.to_nat (month f)) ltac:(lia)).
  split; [split; lia|]. unfold make_time. rewrite Z.div_small, Z.add_0_r, Z.mod_small by lia. case_if; [apply orb_true_iff in Eif as [E|E]; boolprop; lia|].
  unfold time_of, day_number. reflexivity.
Qed.

(** One step of the division of a day. *)
Lemma split_unit h k : 0 <= h -> 0 < k -> Z.rem h k = h mod k /\ Z.quot (h - h mod k) k = h / k /\ 0 <= h / k.
Proof.
  intros Hh Hk. pose proof (Z.div_mod h k ltac:(lia)). splits; [apply Z.rem_mod_nonneg; lia| |apply Z.div_pos; lia].
  replace (h - h mod k) with (h / k * k) by lia. apply Z.quot_mul. lia.
Qed.

(** Splitting a time value into fields. *)
Lemma extract_ok (tz : Z -> Z) (d : Z) (is_local force : bool) : exists f : date_fields_t, let z := if is_local then - tz d else 0 in
  date_extract_fields_from_time tz (Some d) is_local force = Some f /\ valid_fields f /\ time_of f = d + z * 60000 /\
  weekday f = (day_number f + 4) mod 7 /\ tz_minutes f = z.
Proof.
  set (z := if is_local then - tz d else 0). unfold date_extract_fields_from_time.
  replace (if is_local then _ else Some (d, 0)) with (Some (d + z * 60000, z)) by (unfold z; destruct is_local; [reflexivity|rewrite Z.add_0_r; reflexivity]).
  set (t := d + z * 60000). cbv zeta. rewrite (math_mod_spec t) by lia. pose proof (Z.mod_pos_bound t 86400000 ltac:(lia)) as Hh.
  pose proof (Z.div_mod t 86400000 ltac:(lia)) as Hdiv. set (h := t mod 86400000) in *.
  replace (Z.quot (t - h) 86400000) with (t / 86400000) by (replace (t - h) with (t / 86400000 * 86400000) by lia; rewrite Z.quot_mul by lia; reflexivity).
  set (days := t / 86400000) in *. rewrite !(math_mod_spec (days + 4)) by lia.
  destruct (year_from_days_ok days) as (y & r & -> & Hd & Hr). destruct (month_loop_ok y r Hr) as (i & r2 & -> & Hi & Hr2 & Hl).
  destruct (split_unit h 1000) as (E1 & E2 & E3); [lia|lia|]. rewrite E1, E2.
  destruct (split_unit (h / 1000) 60) as (E4 & E5 & E6); [lia|lia|]. rewrite E4, E5.
  destruct (split_unit (h / 1000 / 60) 60) as (E7 & E8 & E9); [lia|lia|]. rewrite E7, E8. clear E1 E2 E4 E5 E7 E8.
  eexists. split; [reflexivity|]. splits.
  - split; cbn; rewrite ?Nat2Z.id; try lia; Z.to_euclidean_division_equations; lia.
  - unfold time_of, day_number, time_of_day. cbn. rewrite Nat2Z.id. Z.to_euclidean_division_equations; lia.
  - unfold day_number. cbn. rewrite Nat2Z.id. f_equal. lia.
  - reflexivity.
Qed.

(** ** Uniqueness *)

Lemma year_unique y1 y2 r1 r2 : 0 <= r1 < days_in_year y1 -> 0 <= r2 < days_in_year y2 -> days_from_year y1 + r1 = days_from_year y2 + r2 ->
  y1 = y2 /\ r1 = r2.
Proof.
  intros H1 H2 E. assert (y1 = y2); [|subst; lia]. destruct (Z.lt_trichotomy y1 y2) as [Hlt|[Heq|Hgt]]; [|exact Heq|].
  - pose proof (days_from_year_mono (y1 + 1) y2 ltac:(lia)) as Hm. rewrite days_from_year_next in Hm. lia.
  - pose proof (days_from_year_mono (y2 + 1) y1 ltac:(lia)) as Hm. rewrite days_from_year_next in Hm. lia.
Qed.

(** The date and the time of day of two sets of fields. *)
Definition same_date (f g : date_fields_t) : Prop :=
  year f = year g /\ month f = month g /\ day f = day g /\ hour f = hour g /\ minute f = minute g /\ second f = second g /\ millisecond f = millisecond g.

Lemma fields_unique f g : valid_fields f -> valid_fields g -> time_of f = time_of g -> same_date f g.
Proof.
  intros [F1 F2 F3 F4 F5 F6] [G1 G2 G3 G4 G5 G6] E. unfold time_of, day_number, time_of_day in E.
  pose proof (month_in_year (year f) (Z.to_nat (month f)) (day f - 1) ltac:(lia) ltac:(lia)) as Hf.
  pose proof (month_in_year (year g) (Z.to_nat (month g)) (day g - 1) ltac:(lia) ltac:(lia)) as Hg.
  destruct (year_unique (year f) (year g) _ _ Hf Hg) as [Ey Er]; [lia|].
  pose proof (month_loop_start (year f) (Z.to_nat (month f)) (day f - 1) ltac:(lia) ltac:(lia)) as Lf.
  pose proof (month_loop_start (year g) (Z.to_nat (month g)) (day g - 1) ltac:(lia) ltac:(lia)) as Lg.
  rewrite <- Er, <- Ey, Lf in Lg. injection Lg as Em Ed. unfold same_date. lia.
Qed.

Lemma time_year f : valid_fields f -> Z.abs (time_of f) <= max_time + 86400000 -> -271821 <= year f <= 275760.
Proof.
  intros [H1 H2 H3 H4 H5 H6] Ht. pose proof (month_in_year (year f) (Z.to_nat (month f)) (day f - 1) ltac:(lia) ltac:(lia)) as Hm.
  apply (year_range (year f) _ Hm). unfold time_of, day_number, time_of_day, max_time in Ht. lia.
Qed.

Lemma clip_in t : Z.abs t <= max_time -> date_timeclip (Some t) = Some t.
Proof. unfold max_time. intros H. unfold date_timeclip. case_if; [reflexivity|]. apply andb_false_iff in Eif as [E|E]; boolprop; lia. Qed.

(** Fields of a time value give the time value back, in a zone whose offset is
    the same at the instant and at the local time read as an instant. *)
Lemma extract_make (tz : Z -> Z) t is_local force : Z.abs t <= max_time -> (is_local = true -> tz (t - tz t * 60000) = tz t /\ Z.abs (tz t) <= 1440) ->
  exists f, date_extract_fields_from_time tz (Some t) is_local force = Some f /\ valid_fields f /\
    time_of f = t - (if is_local then tz t else 0) * 60000 /\ weekday f = (day_number f + 4) mod 7 /\ date_make_fields tz f is_local = Some t.
Proof.
  intros Ht Hz. destruct (extract_ok tz t is_local force) as (f & E & V & Et & W & _). exists f.
  assert (Et' : time_of f = t - (if is_local then tz t else 0) * 60000) by (destruct is_local; lia).
  assert (Hb : Z.abs (time_of f) <= max_time + 86400000) by (rewrite Et'; unfold max_time in *; destruct is_local; [destruct (Hz eq_refl)|]; lia).
  destruct (valid_small f V (time_year f V Hb)) as [Hs Hm].
  splits; auto. unfold date_make_fields. rewrite (make_tv_ok f Hs), Hm, Et'. unfold max_time in *. destruct is_local.
  - destruct (Hz eq_refl) as [Hz1 Hz2]. assert (Hi : to_int64 (t - tz t * 60000) = t - tz t * 60000).
    { unfold to_int64. destruct (Z.ltb_spec (t - tz t * 60000) (- 2 ^ 63)); [lia|]. destruct (Z.leb_spec (2 ^ 63) (t - tz t * 60000)); [lia|reflexivity]. }
    rewrite Hi, Hz1, dmul_small, dadd_small by lia. replace (t - tz t * 60000 + tz t * 60000) with t by lia. apply clip_in, Ht.
  - replace (t - 0 * 60000) with t by lia. apply clip_in, Ht.
Qed.

(** ** Setters and constructors *)

(** A setter in UTC: the fields of the time with the arguments put in. *)
Lemma set_field_utc (tz : Z -> Z) t args spec f f' : date_extract_fields_from_time tz (Some t) false (is_year (ss_first spec)) = Some f ->
  ss_local spec = false -> args <> [] -> set_args f (spec_fields spec) args = Some f' -> small_fields f' ->
  date_set_field tz (Some (Some t)) args spec = Ok (date_timeclip (make_time f'), date_timeclip (make_time f')).
Proof.
  intros E Hl Ha Hs Hf. unfold date_set_field. rewrite Hl, E, Hs. destruct args; [contradiction|].
  unfold date_make_fields. rewrite (make_tv_ok f' Hf). destruct (make_time f'); reflexivity.
Qed.

Lemma make_time_in_year f : 0 <= month f < 12 -> -271821 <= year f <= 275760 -> make_time f = Some (time_of f).
Proof.
  intros Hm Hy. unfold make_time. rewrite Z.div_small, Z.add_0_r, Z.mod_small by lia. case_if; [apply orb_true_iff in Eif as [E|E]; boolprop; lia|].
  reflexivity.
Qed.

Lemma utc_fields (tz : Z -> Z) t force : Z.abs t <= max_time -> exists f, date_extract_fields_from_time tz (Some t) false force = Some f /\
  valid_fields f /\ time_of f = t /\ -271821 <= year f <= 275760.
Proof.
  intros Ht. destruct (extract_ok tz t false force) as (f & E & V & Et & _). exists f. rewrite Z.add_0_r in Et. splits; auto; apply (time_year f V); lia.
Qed.

(** ** Theorems *)

(** The calendar is the Gregorian one and the search for the year ends.
    Day 0 is the first of January 1970, consecutive years are 366 days apart
    when the first is a leap year and 365 days otherwise, and for every day
    number, before or after 1970, the correction loop stops within four rounds
    with the year the day lies in and the day of that year. *)
Theorem date_calendar :
  days_from_year 1970 = 0 /\ (forall y, days_from_year (y + 1) = days_from_year y + (if leap y then 366 else 365)) /\
  forall d, exists y r, year_from_days d = Some (y, r) /\ d = days_from_year y + r /\ 0 <= r < (if leap y then 366 else 365).
Proof.
  split; [reflexivity|]. split; [intros y; rewrite days_from_year_next, days_in_year_spec; reflexivity|].
  intros d. destruct (year_from_days_ok d) as (y & r & E & Hd & Hr). rewrite days_in_year_spec in Hr. eauto.
Qed.

(** Time values and calendar dates correspond.  Every time value in range is
    split into a valid date and time of day that lies exactly that many
    milliseconds from 1970, with the right day of the week; the getters return those
    fields, and making a time value from them gives the time value back, in UTC, and in local time
    wherever the zone's offset at the instant and at the local time agree;
    conversely every valid date in range makes a time value whose fields are
    the date again. *)
Theorem date_fields_roundtrip (tz : Z -> Z) :
  (forall t, Z.abs t <= max_time -> exists f, date_extract_fields_from_time tz (Some t) false false = Some f /\ valid_fields f /\ time_of f = t /\
     weekday f = (day_number f + 4) mod 7 /\ date_make_fields tz f false = Some t /\
     date_get_field tz (Some (Some t)) (getFullYear_spec false) = Ok (Some (year f)) /\
     date_get_field tz (Some (Some t)) (getMonth_spec false) = Ok (Some (month f)) /\
     date_get_field tz (Some (Some t)) (getDate_spec false) = Ok (Some (day f))) /\
  (forall t, Z.abs t <= max_time -> tz (t - tz t * 60000) = tz t -> Z.abs (tz t) <= 1440 ->
     exists f, date_extract_fields_from_time tz (Some t) true false = Some f /\ valid_fields f /\ time_of f = t - tz t * 60000 /\
       date_make_fields tz f true = Some t) /\
  (forall f, valid_fields f -> Z.abs (time_of f) <= max_time -> date_make_fields tz f false = Some (time_of f) /\
     exists g, date_extract_fields_from_time tz (Some (time_of f)) false false = Some g /\ same_date f g).
Proof.
  splits.
  - intros t Ht. destruct (extract_make tz t false false Ht) as (f & E & V & Et & W & M); [discriminate|]. exists f. unfold date_get_field. cbn [gs_local getFullYear_spec getMonth_spec getDate_spec]. rewrite E. splits; auto. lia.
  - intros t Ht Hz Hb. destruct (extract_make tz t true false Ht) as (f & E & V & Et & W & M); [auto|]. exists f. auto.
  - intros f V Ht. destruct (extract_make tz (time_of f) false false Ht) as (g & E & Vg & Eg & _ & _); [discriminate|]. rewrite Z.sub_0_r in Eg.
    assert (Hy : -271821 <= year f <= 275760) by (apply (time_year f V); lia). destruct (valid_small f V Hy) as [Hs Hm]. split.
    + unfold date_make_fields. rewrite (make_tv_ok f Hs), Hm. apply clip_in, Ht.
    + exists g. split; [exact E|]. apply fields_unique; auto.
Qed.

(** The setters carry.  For a Date object in range and arguments within
    wide bounds, setUTCHours keeps the day and replaces the time of day by the
    sum of its arguments, setUTCDate moves to the given day counted from the
    start of the month, and setUTCFullYear to the given year, with months beyond
    the year moving the year; the result is clipped to the range of time
    values, and is both returned and stored. *)
Theorem date_setters_correct (tz : Z -> Z) t y m d h mi s ms : Z.abs t <= max_time ->
  Z.abs y < 2 ^ 50 -> Z.abs m < 2 ^ 50 -> Z.abs d <= 10 ^ 6 -> Z.abs h <= 10 ^ 7 -> Z.abs mi <= 10 ^ 8 -> Z.abs s <= 10 ^ 10 -> Z.abs ms <= 10 ^ 13 ->
  exists f, valid_fields f /\ time_of f = t /\
    (let r := date_timeclip (Some (day_number f * 86400000 + (h * 3600000 + mi * 60000 + s * 1000 + ms))) in
     date_set_field tz (Some (Some t)) [Some h; Some mi; Some s; Some ms] (setHours_spec false) = Ok (r, r)) /\
    (let r := date_timeclip (Some ((days_from_year (year f) + month_start (year f) (Z.to_nat (month f)) + d - 1) * 86400000 + time_of_day f)) in
     date_set_field tz (Some (Some t)) [Some d] (setDate_spec false) = Ok (r, r)) /\
    (let r := date_timeclip (make_time (DateFields y m d (hour f) (minute f) (second f) (millisecond f) (weekday f) (tz_minutes f))) in
     date_set_field tz (Some (Some t)) [Some y; Some m; Some d] (setFullYear_spec false) = Ok (r, r)).
Proof.
  intros Ht Hy Hm Hd Hh Hmi Hs Hms. destruct (utc_fields tz t false Ht) as (f & E & V & Et & Hyr). exists f. split; [exact V|]. split; [exact Et|].
  destruct (valid_small f V Hyr) as [[S1 S2 S3 S4 S5 S6 S7] _]. pose proof V as [V1 V2 _ _ _ _].
  assert (E' : date_extract_fields_from_time tz (Some t) false true = Some f) by exact E.
  destruct f as [fy fm fd fh fmi fs fms wd z]. cbn [year month day hour minute second millisecond weekday tz_minutes] in *. splits.
  - pose proof (set_field_utc tz t [Some h; Some mi; Some s; Some ms] (setHours_spec false) _ (DateFields fy fm fd h mi s ms wd z) E eq_refl) as Hset.
    rewrite Hset; [|discriminate|reflexivity|split; cbn; lia]. rewrite make_time_in_year by (cbn; lia). reflexivity.
  - pose proof (set_field_utc tz t [Some d] (setDate_spec false) _ (DateFields fy fm d fh fmi fs fms wd z) E eq_refl) as Hset.
    rewrite Hset; [|discriminate|reflexivity|split; cbn; lia]. rewrite make_time_in_year by (cbn; lia). reflexivity.
  - pose proof (set_field_utc tz t [Some y; Some m; Some d] (setFullYear_spec false) _ (DateFields y m d fh fmi fs fms wd z) E' eq_refl) as Hset.
    apply Hset; [discriminate|reflexivity|split; cbn; lia].
Qed.

(** The last day of February 2024 moves on by 25 hours. *)
Lemma date_setters_correct_witness : exists f, valid_fields f /\ time_of f = 1709164800000 /\
  (let r := date_timeclip (Some (day_number f * 86400000 + (25 * 3600000 + 0 * 60000 + 0 * 1000 + 0))) in
   date_set_field (fun _ => 0) (Some (Some 1709164800000)) [Some 25; Some 0; Some 0; Some 0] (setHours_spec false) = Ok (r, r)) /\
  (let r := date_timeclip (Some ((days_from_year (year f) + month_start (year f) (Z.to_nat (month f)) + 31 - 1) * 86400000 + time_of_day f)) in
   date_set_field (fun _ => 0) (Some (Some 1709164800000)) [Some 31] (setDate_spec false) = Ok (r, r)) /\
  (let r := date_timeclip (make_time (DateFields 2023 14 31 (hour f) (minute f) (second f) (millisecond f) (weekday f) (tz_minutes f))) in
   date_set_field (fun _ => 0) (Some (Some 1709164800000)) [Some 2023; Some 14; Some 31] (setFullYear_spec false) = Ok (r, r)).
Proof. apply (date_setters_correct (fun _ => 0) 1709164800000 2023 14 31 25 0 0 0); unfold max_time; lia. Defined.

(** [setMonth] passes one argument on: the day of the month given as second
    argument has no effect. *)
Lemma set_month_ignores_day (tz : Z -> Z) this m d local :
  date_set_field tz this [Some m; Some d] (setMonth_spec local) = date_set_field tz this [Some m] (setMonth_spec local).
Proof. destruct this as [t|]; reflexivity. Qed.
