(* ===== verification/DateText.v ===== *)
(** * Dates: printing and parsing

    [get_date_string] and the two parsers of [src/src/modules/date.c].  The
    buffer of 96 bytes is the list of what was printed so far, [None] a write
    that does not fit.  A position in the text to parse is the rest of the
    text; past its end the terminating NUL is read. *)

From S2P Require Import Prelude Date.

(** ** Printing *)

Inductive date_string_fmt_t := DATE_STRING_FMT_UTC | DATE_STRING_FMT_LOCAL | DATE_STRING_FMT_ISO | DATE_STRING_FMT_LOCALE.
Inductive date_string_part_t := DATE_STRING_PART_DATE | DATE_STRING_PART_TIME | DATE_STRING_PART_ALL.

Definition month_names : list Z := str_bytes "JanFebMarAprMayJunJulAugSepOctNovDec".
Definition day_names : list Z := str_bytes "SunMonTueWedThuFriSat".
(** ["%.3s"] of a table. *)
Definition name3 (names : list Z) (i : Z) : list Z := take 3 (drop (Z.to_nat (i * 3)) names).

Definition buf_size : nat := 96.
(** [snprintf] writes a terminating NUL too. *)
Definition emit (buf : option (list Z)) (s : list Z) : option (list Z) :=
  match buf with
  | Some b => if (length b + length s <? buf_size)%nat then Some (b ++ s) else None
  | None => None
  end.
Definition put_char (buf : option (list Z)) (c : Z) : option (list Z) :=
  match buf with
  | Some b => if (length b <? buf_size)%nat then Some (b ++ [c]) else None
  | None => None
  end.

Definition year_width (y : Z) : nat := if y <? 0 then 5 else 4.

Definition date_part (fmt : date_string_fmt_t) (part : date_string_part_t) (f : date_fields_t) (buf : option (list Z)) : option (list Z) :=
  let y := year f in
  match fmt with
  | DATE_STRING_FMT_UTC =>
      emit buf (name3 day_names (weekday f) ++ str_bytes ", " ++ fmt_0d 2 (day f) ++ str_bytes " " ++ name3 month_names (month f) ++
                str_bytes " " ++ fmt_0d (year_width y) y ++ str_bytes " ")
  | DATE_STRING_FMT_LOCAL =>
      let buf := emit buf (name3 day_names (weekday f) ++ str_bytes " " ++ name3 month_names (month f) ++ str_bytes " " ++ fmt_0d 2 (day f) ++
                           str_bytes " " ++ fmt_0d (year_width y) y) in
      match part with DATE_STRING_PART_ALL => put_char buf 32 | _ => buf end
  | DATE_STRING_FMT_ISO =>
      let buf := if (0 <=? y) && (y <=? 9999) then emit buf (fmt_0d 4 y)
                 else emit buf ((if y <? 0 then 45 else 43) :: pad0 6 (fmt_u (Z.abs y))) in
      emit buf (str_bytes "-" ++ fmt_0d 2 (month f + 1) ++ str_bytes "-" ++ fmt_0d 2 (day f) ++ str_bytes "T")
  | DATE_STRING_FMT_LOCALE =>
      let buf := emit buf (fmt_0d 2 (month f + 1) ++ str_bytes "/" ++ fmt_0d 2 (day f) ++ str_bytes "/" ++ fmt_0d (year_width y) y) in
      match part with DATE_STRING_PART_ALL => put_char (put_char buf 44) 32 | _ => buf end
  end.

Definition hms (h m s : Z) : list Z := fmt_0d 2 h ++ str_bytes ":" ++ fmt_0d 2 m ++ str_bytes ":" ++ fmt_0d 2 s.

Definition time_part (fmt : date_string_fmt_t) (f : date_fields_t) (buf : option (list Z)) : option (list Z) :=
  let '(h, m, s) := (hour f, minute f, second f) in
  match fmt with
  | DATE_STRING_FMT_UTC => emit buf (hms h m s ++ str_bytes " GMT")
  | DATE_STRING_FMT_LOCAL =>
      let buf := emit buf (hms h m s ++ str_bytes " GMT") in
      let tz := tz_minutes f in
      let buf := put_char buf (if tz <? 0 then 45 else 43) in
      let tz := if tz <? 0 then - tz else tz in
      emit buf (fmt_0d 2 (Z.quot tz 60) ++ fmt_0d 2 (Z.rem tz 60))
  | DATE_STRING_FMT_ISO => emit buf (hms h m s ++ str_bytes "." ++ fmt_0d 3 (millisecond f) ++ str_bytes "Z")
  | DATE_STRING_FMT_LOCALE => emit buf (hms (Z.rem (h + 11) 12 + 1) m s ++ str_bytes " " ++ [if h <? 12 then 65 else 80] ++ str_bytes "M")
  end.

Definition has_date (p : date_string_part_t) : bool := match p with DATE_STRING_PART_TIME => false | _ => true end.
Definition has_time (p : date_string_part_t) : bool := match p with DATE_STRING_PART_DATE => false | _ => true end.

(** [None] is a write outside the buffer. *)
Definition get_date_string (tz : Z -> Z) (this : option dbl) (fmt : date_string_fmt_t) (part : date_string_part_t) : option (result (list Z)) :=
  match this with
  | None => Some not_a_date
  | Some t =>
      match date_extract_fields_from_time tz t (match fmt with DATE_STRING_FMT_LOCAL => true | _ => false end) false with
      | None =>
          Some (match fmt with
                | DATE_STRING_FMT_ISO => Err JS_ERR_RANGE "Date value is NaN"
                | _ => Ok (str_bytes "Invalid Date")
                end)
      | Some f =>
          let buf := if has_date part then date_part fmt part f (Some []) else Some [] in
          let buf := if has_time part then time_part fmt f buf else buf in
          option_map Ok buf
      end
  end.

Section Methods.
  Variable tz : Z -> Z.
  Variable this : option dbl.

Definition builtin_Date_toUTCString := get_date_string tz this DATE_STRING_FMT_UTC DATE_STRING_PART_ALL.
Definition builtin_Date_toString := get_date_string tz this DATE_STRING_FMT_LOCAL DATE_STRING_PART_ALL.
Definition builtin_Date_toISOString := get_date_string tz this DATE_STRING_FMT_ISO DATE_STRING_PART_ALL.
Definition builtin_Date_toDateString := get_date_string tz this DATE_STRING_FMT_LOCAL DATE_STRING_PART_DATE.
Definition builtin_Date_toTimeString := get_date_string tz this DATE_STRING_FMT_LOCAL DATE_STRING_PART_TIME.
Definition builtin_Date_toLocaleString := get_date_string tz this DATE_STRING_FMT_LOCALE DATE_STRING_PART_ALL.
Definition builtin_Date_toLocaleDateString := get_date_string tz this DATE_STRING_FMT_LOCALE DATE_STRING_PART_DATE.
Definition builtin_Date_toLocaleTimeString := get_date_string tz this DATE_STRING_FMT_LOCALE DATE_STRING_PART_TIME.

End Methods.

(** ** Parsing *)

Definition to_upper_ascii (c : Z) : Z := if (97 <=? c) && (c <=? 122) then c - 32 else c.

(** [Some rest] when the next character is [c]. *)
Definition string_skip_char (s : list Z) (c : Z) : option (list Z) := if rd s 0 =? c then Some (drop 1 s) else None.

Fixpoint skip_chars (P : Z -> bool) (s : list Z) : list Z :=
  match s with
  | c :: t => if P c then skip_chars P t else s
  | [] => []
  end.
Definition string_skip_spaces (s : list Z) : list Z := skip_chars (Z.eqb 32) s.
Definition is_separator (c : Z) : bool := (c =? 45) || (c =? 47) || (c =? 46) || (c =? 44).
Definition string_skip_separators (s : list Z) : list Z := skip_chars is_separator s.
(** The terminating NUL of the list counts as a stop. *)
Definition string_skip_until (stop : list Z) (s : list Z) : list Z :=
  skip_chars (fun c => negb ((c =? 0) || existsb (Z.eqb c) stop)) s.

Fixpoint get_digits_loop (s : list Z) (v : Z) (n max : nat) : option (Z * nat) :=
  match s with
  | c :: t =>
      if (48 <=? c) && (c <=? 57) then
        if 100000000 <=? v then None
        else
          let v := v * 10 + c - 48 in
          if (0 <? max)%nat && (S n =? max)%nat then Some (v, S n) else get_digits_loop t v (S n) max
      else Some (v, n)
  | [] => Some (v, n)
  end.
(** [max] 0 means no limit. *)
Definition string_get_digits (s : list Z) (min max : nat) : option (Z * list Z) :=
  match get_digits_loop s 0 0 max with
  | Some (v, n) => if (n <? min)%nat then None else Some (v, drop n s)
  | None => None
  end.

Fixpoint ms_loop (s : list Z) (ms mul : Z) (n : nat) : Z * nat :=
  match s with
  | c :: t =>
      if (48 <=? c) && (c <=? 57) then
        let ms := ms + (c - 48) * mul in
        if (S n =? 9)%nat then (ms, S n) else ms_loop t ms (mul / 10) (S n)
      else (ms, n)
  | [] => (ms, n)
  end.
Definition string_get_milliseconds (s : list Z) (ms0 : Z) : Z * list Z :=
  if (rd s 0 =? 46) || (rd s 0 =? 44) then
    let '(ms, n) := ms_loop (drop 1 s) 0 100 0 in
    if (0 <? n)%nat then (ms, drop (1 + n) s) else (ms0, s)
  else (ms0, s).

(** [while (n > 4)] drops digits in pairs. *)
Fixpoint drop_pairs (fuel n : nat) (hh : Z) : nat * Z :=
  match fuel with
  | O => (n, hh)
  | S fuel => if (4 <? n)%nat then drop_pairs fuel (n - 2) (hh / 100) else (n, hh)
  end.

Definition string_get_tzoffset (s : list Z) (strict : bool) : option (Z * list Z) :=
  let sgn := rd s 0 in
  let s := drop 1 s in
  if (sgn =? 43) || (sgn =? 45) then
    match string_get_digits s 1 0 with
    | None => None
    | Some (hh, rest) =>
        let n := (length s - length rest)%nat in
        if strict && negb (n =? 2)%nat && negb (n =? 4)%nat then None
        else
          let '(n, hh) := drop_pairs n n hh in
          let split :=
            if (2 <? n)%nat then Some (Z.rem hh 100, Z.quot hh 100, rest)
            else match string_skip_char rest 58 with
                 | Some rest => match string_get_digits rest 2 2 with Some (mm, rest) => Some (mm, hh, rest) | None => None end
                 | None => Some (0, hh, rest)
                 end in
          match split with
          | None => None
          | Some (mm, hh, rest) =>
              if (23 <? hh) || (59 <? mm) then None
              else let tz := hh * 60 + mm in Some (if sgn =? 43 then tz else - tz, rest)
          end
    end
  else if sgn =? 90 then Some (0, s) else None.

Fixpoint string_match (s name : list Z) : option (list Z) :=
  match name with
  | [] => Some s
  | c :: name => if to_upper_ascii (rd s 0) =? to_upper_ascii c then string_match (drop 1 s) name else None
  end.

(** The first name of three characters that matches. *)
Fixpoint find_abbrev (s : list Z) (names : list Z) (count n : nat) : option nat :=
  match count with
  | O => None
  | S count =>
      match string_match s (take 3 (drop (n * 3) names)) with
      | Some _ => Some n
      | None => find_abbrev s names count (S n)
      end
  end.
Definition string_get_month (s : list Z) : option (Z * list Z) :=
  match find_abbrev s month_names 12 0 with
  | Some n => Some (Z.of_nat n + 1, drop 3 s)
  | None => None
  end.

(** [fields[9]]. *)
Abbreviation pfields := (list Z).
Notation "f .[ i ]" := (nth i f 0) (at level 1, left associativity, format "f .[ i ]").

Definition iso_year (s : list Z) : option (Z * list Z) :=
  let sgn := rd s 0 in
  if (sgn =? 45) || (sgn =? 43) then
    match string_get_digits (drop 1 s) 6 6 with
    | Some (y, s) => if sgn =? 45 then (if y =? 0 then None else Some (- y, s)) else Some (y, s)
    | None => None
    end
  else string_get_digits s 4 4.

(** Month and day, both optional. *)
Definition iso_month_day (s : list Z) : option (Z * Z * list Z) :=
  match string_skip_char s 45 with
  | None => Some (0, 1, s)
  | Some s =>
      match string_get_digits s 2 2 with
      | None => None
      | Some (mo, s) =>
          if mo <? 1 then None
          else match string_skip_char s 45 with
               | None => Some (mo - 1, 1, s)
               | Some s =>
                   match string_get_digits s 2 2 with
                   | None => None
                   | Some (d, s) => if d <? 1 then None else Some (mo - 1, d, s)
                   end
               end
      end
  end.

(** Hours and minutes; [None] when they are malformed. *)
Definition iso_hour_minute (s : list Z) : option (Z * Z * list Z) :=
  match string_get_digits s 2 2 with
  | None => None
  | Some (h, s) =>
      match string_skip_char s 58 with
      | None => None
      | Some s => match string_get_digits s 2 2 with Some (mi, s) => Some (h, mi, s) | None => None end
      end
  end.

(** What may follow the time: a zone, then the end. *)
Definition iso_end (f : pfields) (is_local : bool) (s : list Z) : option (pfields * bool) :=
  if negb (rd s 0 =? 0) then
    match string_get_tzoffset s true with
    | Some (tz, s) => if rd s 0 =? 0 then Some (<[8%nat := tz]> f, false) else None
    | None => None
    end
  else Some (f, is_local).

Definition parse_isostring (s : list Z) : option (pfields * bool) :=
  match iso_year s with
  | None => None
  | Some (y, s) =>
      match iso_month_day s with
      | None => None
      | Some (mo, d, s) =>
          match string_skip_char s 84 with
          | None => iso_end [y; mo; d; 0; 0; 0; 0; 0; 0] false s
          | Some s =>
              match iso_hour_minute s with
              | None => Some ([y; mo; d; 100; 0; 0; 0; 0; 0], true)
              | Some (h, mi, s) =>
                  match string_skip_char s 58 with
                  | None => iso_end [y; mo; d; h; mi; 0; 0; 0; 0] true s
                  | Some s =>
                      match string_get_digits s 2 2 with
                      | None => None
                      | Some (sec, s) =>
                          let '(ms, s) := string_get_milliseconds s 0 in
                          iso_end [y; mo; d; h; mi; sec; ms; 0; 0] true s
                      end
                  end
              end
          end
      end
  end.

(** The state of the second parser. *)
Record ostate := OState {
  o_fields : pfields; o_local : bool; o_year : bool; o_mon : bool; o_time : bool; o_num : list Z }.
Definition o_set (st : ostate) (i : nat) (v : Z) : ostate :=
  OState (<[i := v]> (o_fields st)) (o_local st) (o_year st) (o_mon st) (o_time st) (o_num st).
Definition with_local (st : ostate) (b : bool) : ostate := OState (o_fields st) b (o_year st) (o_mon st) (o_time st) (o_num st).
Definition with_year (st : ostate) : ostate := OState (o_fields st) (o_local st) true (o_mon st) (o_time st) (o_num st).
Definition with_mon (st : ostate) : ostate := OState (o_fields st) (o_local st) (o_year st) true (o_time st) (o_num st).
Definition with_time (st : ostate) : ostate := OState (o_fields st) (o_local st) (o_year st) (o_mon st) true (o_num st).
Definition push_num (st : ostate) (v : Z) : ostate := OState (o_fields st) (o_local st) (o_year st) (o_mon st) (o_time st) (o_num st ++ [v]).

(** A year of one or two digits. *)
Definition short_year (v : Z) : Z := v + (if v <? 100 then 1900 else 0) + (if v <? 50 then 100 else 0).

Definition js_tzabbr : list (list Z * Z) :=
  [(str_bytes "GMT", 0); (str_bytes "UTC", 0); (str_bytes "UT", 0); (str_bytes "Z", 0);
   (str_bytes "EDT", -4 * 60); (str_bytes "EST", -5 * 60); (str_bytes "CDT", -5 * 60); (str_bytes "CST", -6 * 60);
   (str_bytes "MDT", -6 * 60); (str_bytes "MST", -7 * 60); (str_bytes "PDT", -7 * 60); (str_bytes "PST", -8 * 60);
   (str_bytes "WET", 0); (str_bytes "WEST", 60); (str_bytes "CET", 60); (str_bytes "CEST", 2 * 60);
   (str_bytes "EET", 2 * 60); (str_bytes "EEST", 3 * 60)].
Fixpoint tzabbr_loop (table : list (list Z * Z)) (s : list Z) : option (Z * list Z) :=
  match table with
  | [] => None
  | (name, offset) :: table =>
      match string_match s name with
      | Some s => Some (offset, s)
      | None => tzabbr_loop table s
      end
  end.
Definition string_get_tzabbr (s : list Z) : option (Z * list Z) := tzabbr_loop js_tzabbr s.

(** A parenthesis: [None] when it is not closed. *)
Fixpoint skip_paren (s : list Z) (level : Z) : option (list Z) :=
  match s with
  | c :: t =>
      if c =? 0 then (if 0 <? level then None else Some s)
      else
        let level := level + (if c =? 40 then 1 else 0) - (if c =? 41 then 1 else 0) in
        if level =? 0 then Some t else skip_paren t level
  | [] => if 0 <? level then None else Some []
  end.

(** After a sign: a zone once there is a time, a year otherwise. *)
Definition other_signed (st : ostate) (s : list Z) : option (ostate * list Z) :=
  let c := rd s 0 in
  match (if o_time st then string_get_tzoffset s false else None) with
  | Some (tz, s) => Some (with_local (o_set st 8 tz) false, s)
  | None =>
      match string_get_digits (drop 1 s) 1 0 with
      | Some (val, s) =>
          if c =? 45 then (if val =? 0 then None else Some (with_year (o_set st 0 (- val)), s))
          else Some (with_year (o_set st 0 val), s)
      | None => Some (st, drop 1 s)
      end
  end.

(** A number: a time when a colon follows, else a year, or one of three numbers. *)
Definition other_number (st : ostate) (val : Z) (ndigits : nat) (s : list Z) : option (ostate * list Z) :=
  match string_skip_char s 58 with
  | Some s =>
      let st := o_set st 3 val in
      match string_get_digits s 1 2 with
      | None => None
      | Some (mi, s) =>
          let st := o_set st 4 mi in
          match string_skip_char s 58 with
          | Some s =>
              match string_get_digits s 1 2 with
              | None => None
              | Some (sec, s) =>
                  let st := o_set st 5 sec in
                  let '(ms, s) := string_get_milliseconds s ((o_fields st).[6]) in
                  Some (with_time (o_set st 6 ms), s)
              end
          | None => if negb (rd s 0 =? 0) && negb (rd s 0 =? 32) then None else Some (with_time st, s)
          end
      end
  | None =>
      if (2 <? ndigits)%nat then Some (with_year (o_set st 0 val), s)
      else if (val <? 1) || (31 <? val) then Some (with_year (o_set st 0 (short_year val)), s)
      else if (length (o_num st) =? 3)%nat then None
      else Some (push_num st val, s)
  end.

(** One round of the loop, at a character that is neither a space nor the end. *)
Definition other_step (st : ostate) (s : list Z) : option (ostate * list Z) :=
  let c := rd s 0 in
  let next := option_map (fun '(st, s) => (st, string_skip_separators s)) in
  if (c =? 43) || (c =? 45) then next (other_signed st s)
  else
    match string_get_digits s 1 0 with
    | Some (val, s') => next (other_number st val (length s - length s') s')
    | None =>
        match string_get_month s with
        | Some (mo, s') => next (Some (with_mon (o_set st 1 mo), string_skip_until (str_bytes "0123456789 -/(") s'))
        | None =>
            let hour := (o_fields st).[3] in
            match (if o_time st then string_match s (str_bytes "PM") else None) with
            | Some s' => Some (if negb (hour =? 12) then o_set st 3 (hour + 12) else st, s')
            | None =>
                match (if o_time st then string_match s (str_bytes "AM") else None) with
                | Some s' => if 12 <? hour then None else Some (if hour =? 12 then o_set st 3 (hour - 12) else st, s')
                | None =>
                    match string_get_tzabbr s with
                    | Some (offset, s') => Some (with_local (o_set st 8 offset) false, s')
                    | None =>
                        if c =? 40 then match skip_paren s 0 with Some s' => next (Some (st, s')) | None => None end
                        else if c =? 41 then None
                        else if o_year st || o_mon st || o_time st || negb (length (o_num st) =? 0)%nat then None
                        else next (Some (st, string_skip_until (str_bytes " -/(") s))
                    end
                end
            end
        end
    end.

(** [None] when the fuel runs out, [Some None] when the text is rejected. *)
Fixpoint other_loop (fuel : nat) (st : ostate) (s : list Z) : option (option ostate) :=
  match fuel with
  | O => None
  | S fuel =>
      let s := string_skip_spaces s in
      if rd s 0 =? 0 then Some (Some st)
      else match other_step st s with
           | Some (st, s) => other_loop fuel st s
           | None => Some None
           end
  end.

(** Which of the numbers is what. *)
Definition other_finish (st : ostate) : option (pfields * bool) :=
  let f := o_fields st in
  let num := o_num st in
  if (3 <? length num + (if o_year st then 1 else 0) + (if o_mon st then 1 else 0))%nat then None
  else
    let f := match num with
             | [] => if o_year st then Some f else None
             | [a] => Some (if o_mon st then <[2%nat := a]> f else <[1%nat := a]> f)
             | [a; b] =>
                 Some (if o_year st then <[2%nat := b]> (<[1%nat := a]> f)
                       else if o_mon st then <[2%nat := a]> (<[0%nat := short_year b]> f)
                       else <[2%nat := b]> (<[1%nat := a]> f))
             | [a; b; c] => Some (<[2%nat := b]> (<[1%nat := a]> (<[0%nat := short_year c]> f)))
             | _ => None
             end in
    match f with
    | None => None
    | Some f => if (f.[1] <? 1) || (f.[2] <? 1) then None else Some (<[1%nat := f.[1] - 1]> f, o_local st)
    end.

Definition other_start : ostate := OState [2001; 1; 1; 0; 0; 0; 0; 0; 0] true false false false [].
Definition parse_otherstring (s : list Z) : option (option (pfields * bool)) :=
  match other_loop (S (length s)) other_start s with
  | None => None
  | Some None => Some None
  | Some (Some st) => Some (other_finish st)
  end.

(** The fields in their ranges; 24 hours only at midnight. *)
Definition fields_valid (f : pfields) : bool :=
  negb ((11 <? f.[1]) || (31 <? f.[2]) || (24 <? f.[3]) || (59 <? f.[4]) || (59 <? f.[5])) &&
  negb ((f.[3] =? 24) && negb ((f.[4] .| f.[5]) .| f.[6] =? 0)).

(** [None]: the parser does not end. *)
Definition date_parse_string_to_ms (tz : Z -> Z) (malloc_ok : bool) (s : list Z) : option dbl :=
  if negb malloc_ok then Some None
  else
    match (match parse_isostring s with Some r => Some (Some r) | None => parse_otherstring s end) with
    | None => None
    | Some None => Some None
    | Some (Some (f, is_local)) =>
        if negb (fields_valid f) then Some None
        else
          let fields := DateFields f.[0] f.[1] f.[2] f.[3] f.[4] f.[5] f.[6] 0 0 in
          Some (dadd (date_make_fields tz fields is_local) (option_map Z.opp (dmul (Some f.[8]) (Some 60000))))
    end.

Definition builtin_Date_parse (tz : Z -> Z) (malloc_ok : bool) (args : list (list Z)) : option dbl :=
  match args with [] => Some None | s :: _ => date_parse_string_to_ms tz malloc_ok s end.
(** [new Date(string)]. *)
Definition builtin_Date_string (tz : Z -> Z) (malloc_ok : bool) (s : list Z) : option dbl :=
  option_map date_timeclip (date_parse_string_to_ms tz malloc_ok s).

(** ** The parsers end *)

Lemma skip_while_le P s : (length (skip_chars P s) <= length s)%nat.
Proof. induction s as [|c s IH]; cbn; [lia|]. destruct (P c); cbn; lia. Qed.
Lemma skip_while_lt P c s : P c = true -> (length (skip_chars P (c :: s)) < length (c :: s))%nat.
Proof. intros H. cbn. rewrite H. pose proof (skip_while_le P s). lia. Qed.
Lemma skip_while_stop P s c t : skip_chars P s = c :: t -> P c = false.
Proof. induction s as [|x s IH]; cbn; [discriminate|]. destruct (P x) eqn:E; [exact IH|]. intros [= -> ->]. exact E. Qed.

Lemma digits_loop_count s : forall v n max v' k, get_digits_loop s v n max = Some (v', k) -> (n <= k)%nat.
Proof.
  induction s as [|c s IH]; intros v n max v' k; cbn [get_digits_loop]; [intros [= <- <-]; lia|].
  case_if; [|intros [= <- <-]; lia]. case_if; [discriminate|]. cbv zeta. case_if; [intros [= <- <-]; lia|].
  intros H. apply IH in H. lia.
Qed.

Lemma get_digits_le s min max v r : string_get_digits s min max = Some (v, r) -> (length r <= length s)%nat.
Proof.
  unfold string_get_digits. destruct (get_digits_loop s 0 0 max) as [[x n]|]; [|discriminate]. case_if; [discriminate|]. intros [= <- <-]. rewrite length_drop. lia.
Qed.
Lemma get_digits_lt c s max v r : string_get_digits (c :: s) 1 max = Some (v, r) -> (length r < length (c :: s))%nat.
Proof.
  unfold string_get_digits. destruct (get_digits_loop (c :: s) 0 0 max) as [[x n]|]; [|discriminate]. case_if; [discriminate|]. boolprop.
  intros [= <- <-]. rewrite length_drop. cbn. lia.
Qed.
Lemma skip_char_lt s c r : string_skip_char s c = Some r -> (length r <= length s)%nat.
Proof. unfold string_skip_char. case_if; [|discriminate]. intros [= <-]. rewrite length_drop. lia. Qed.
Lemma milliseconds_le s ms0 : (length (string_get_milliseconds s ms0).2 <= length s)%nat.
Proof. unfold string_get_milliseconds. case_if; [|cbn; lia]. destruct (ms_loop _ _ _ _) as [ms n]. case_if; cbn [snd]; [rewrite length_drop|]; lia. Qed.
Lemma match_le s name r : string_match s name = Some r -> (length r <= length s)%nat.
Proof.
  revert s. induction name as [|c name IH]; intros s; cbn [string_match]; [intros [= ->]; lia|]. case_if; [|discriminate].
  intros H. apply IH in H. rewrite length_drop in H. lia.
Qed.
Lemma match_lt c s n name r : string_match (c :: s) (n :: name) = Some r -> (length r < length (c :: s))%nat.
Proof. cbn [string_match]. case_if; [|discriminate]. intros H. apply match_le in H. rewrite length_drop in H. cbn [length] in *. lia. Qed.
Lemma tzabbr_lt c s table o r : Forall (fun e => e.1 <> []) table -> tzabbr_loop table (c :: s) = Some (o, r) -> (length r < length (c :: s))%nat.
Proof.
  induction 1 as [|[name off] table Hn Ht IH]; cbn [tzabbr_loop]; [discriminate|]. destruct (string_match (c :: s) name) as [x|] eqn:E; [|exact IH].
  intros [= _ <-]. destruct name as [|n name]; [cbn in Hn; contradiction|]. eapply match_lt, E.
Qed.
Lemma tzoffset_lt c s strict tz r : string_get_tzoffset (c :: s) strict = Some (tz, r) -> (length r < length (c :: s))%nat.
Proof.
  unfold string_get_tzoffset. change (rd (c :: s) 0) with c. change (drop 1 (c :: s)) with s. cbv zeta.
  case_if; [|case_if; [intros [= _ <-]; cbn [length]; lia|discriminate]].
  destruct (string_get_digits s 1 0) as [[hh rest]|] eqn:Ed; [|discriminate]. apply get_digits_le in Ed. cbv zeta. case_if; [discriminate|].
  destruct (drop_pairs _ _ _) as [n h2]. set (sp := if (2 <? n)%nat then _ else _).
  assert (Hsp : forall mm h3 rest2, sp = Some (mm, h3, rest2) -> (length rest2 <= length rest)%nat).
  { unfold sp. intros mm h3 rest2. case_if; [intros [= _ _ <-]; lia|]. destruct (string_skip_char rest 58) as [r1|] eqn:E1; [|intros [= _ _ <-]; lia].
    apply skip_char_lt in E1. destruct (string_get_digits r1 2 2) as [[mm1 r2]|] eqn:E2; [|discriminate]. apply get_digits_le in E2. intros [= _ _ <-]. lia. }
  destruct sp as [[[mm h3] rest2]|]; [|discriminate]. specialize (Hsp _ _ _ eq_refl). case_if; [discriminate|]. intros [= _ <-]. cbn. lia.
Qed.
Lemma skip_paren_le s : forall l r, skip_paren s l = Some r -> (length r <= length s)%nat.
Proof.
  induction s as [|c s IH]; intros l r; cbn [skip_paren]; cbv zeta; repeat case_if; try discriminate; intros E;
    solve [injection E as <-; cbn [length]; lia | apply IH in E; cbn [length]; lia].
Qed.

Lemma other_signed_lt st c s st' r : other_signed st (c :: s) = Some (st', r) -> (length r < length (c :: s))%nat.
Proof.
  unfold other_signed. cbv zeta. change (drop 1 (c :: s)) with s. destruct (if o_time st then string_get_tzoffset (c :: s) false else None) as [[tz x]|] eqn:E.
  - intros [= _ <-]. destruct (o_time st); [|discriminate]. eapply tzoffset_lt, E.
  - destruct (string_get_digits s 1 0) as [[v x]|] eqn:Ed; [apply get_digits_le in Ed|intros [= _ <-]; cbn; lia].
    case_if; [case_if; [discriminate|]|]; intros [= _ <-]; cbn; lia.
Qed.
Lemma other_number_le st v n s st' r : other_number st v n s = Some (st', r) -> (length r <= length s)%nat.
Proof.
  unfold other_number. destruct (string_skip_char s 58) as [s1|] eqn:E1.
  - apply skip_char_lt in E1. cbv zeta. destruct (string_get_digits s1 1 2) as [[mi s2]|] eqn:E2; [|discriminate]. apply get_digits_le in E2.
    destruct (string_skip_char s2 58) as [s3|] eqn:E3; [|case_if; [discriminate|intros [= _ <-]; lia]]. apply skip_char_lt in E3.
    destruct (string_get_digits s3 1 2) as [[sec s4]|] eqn:E4; [|discriminate]. apply get_digits_le in E4.
    match goal with |- context [string_get_milliseconds s4 ?x] => pose proof (milliseconds_le s4 x); destruct (string_get_milliseconds s4 x) as [ms s5] end.
    intros [= _ <-]. cbn in *. lia.
  - repeat case_if; try discriminate; intros [= _ <-]; lia.
Qed.

(** Every round of the loop consumes something. *)
Lemma other_step_lt st c s st' r : c <> 0 -> c <> 32 -> other_step st (c :: s) = Some (st', r) -> (length r < length (c :: s))%nat.
Proof.
  intros H0 H32. unfold other_step. change (rd (c :: s) 0) with c.
  set (next := option_map (fun '(st, s) => (st, string_skip_separators s))). cbv zeta.
  assert (Hnext : forall o bound, (forall st1 s1, o = Some (st1, s1) -> (length s1 < bound)%nat) -> next o = Some (st', r) -> (length r < bound)%nat).
  { intros [[st1 s1]|] bound Ho; [|discriminate]. unfold next. cbn. intros [= _ <-]. unfold string_skip_separators. pose proof (skip_while_le is_separator s1).
    specialize (Ho _ _ eq_refl). lia. }
  destruct ((c =? 43) || (c =? 45)) eqn:Esgn.
  { apply Hnext. intros st1 s1. apply other_signed_lt. }
  destruct (string_get_digits (c :: s) 1 0) as [[v s']|] eqn:Ed.
  { apply get_digits_lt in Ed. apply Hnext. intros st1 s1 E. apply other_number_le in E. lia. }
  destruct (string_get_month (c :: s)) as [[mo s']|] eqn:Em.
  { unfold string_get_month in Em. destruct (find_abbrev _ _ _ _); [|discriminate]. injection Em as _ <-. apply Hnext. intros st1 s1 [= _ <-].
    unfold string_skip_until. match goal with |- context [skip_chars ?P ?x] => pose proof (skip_while_le P x) end. rewrite length_drop in *. cbn [length] in *. lia. }
  destruct (if o_time st then string_match (c :: s) (str_bytes "PM") else None) as [s'|] eqn:Ep.
  { destruct (o_time st); [|discriminate]. apply match_lt in Ep. intros [= _ <-]. exact Ep. }
  destruct (if o_time st then string_match (c :: s) (str_bytes "AM") else None) as [s'|] eqn:Ea.
  { destruct (o_time st); [|discriminate]. apply match_lt in Ea. case_if; [discriminate|]. intros [= _ <-]. exact Ea. }
  destruct (string_get_tzabbr (c :: s)) as [[o s']|] eqn:Et.
  { intros [= _ <-]. eapply tzabbr_lt; [|exact Et]. repeat constructor; discriminate. }
  destruct (Z.eqb_spec c 40) as [E40|E40].
  { destruct (skip_paren (c :: s) 0) as [s'|] eqn:Es; [|discriminate]. apply Hnext. intros st1 s1 [= _ <-]. subst c. cbn in Es. apply skip_paren_le in Es. cbn. lia. }
  destruct (c =? 41); [discriminate|]. destruct (o_year st || _ || _ || _); [discriminate|].
  unfold next. cbn [option_map]. intros [= _ <-]. unfold string_skip_separators, string_skip_until.
  destruct (Z.eqb_spec c 47) as [->|E47].
  - change (skip_chars is_separator _) with (skip_chars is_separator s). pose proof (skip_while_le is_separator s). cbn [length]. lia.
  - match goal with |- context [skip_chars is_separator ?x] => pose proof (skip_while_le is_separator x) end.
    match goal with H : context [skip_chars ?P (c :: s)] |- _ => pose proof (skip_while_lt P c s) as Hlt end.
    apply orb_false_iff in Esgn as [_ E45]. rewrite Z.eqb_neq in E45.
    assert (Hp : negb ((c =? 0) || existsb (Z.eqb c) (str_bytes " -/(")) = true).
    { change (str_bytes " -/(") with [32; 45; 47; 40]. cbn [existsb]. destruct (Z.eqb_spec c 0); [contradiction|]. destruct (Z.eqb_spec c 32); [contradiction|]. destruct (Z.eqb_spec c 45); [contradiction|].
      destruct (Z.eqb_spec c 47); [contradiction|]. destruct (Z.eqb_spec c 40); [contradiction|]. reflexivity. }
    specialize (Hlt Hp). lia.
Qed.

Lemma other_loop_ends fuel : forall st s, (length s < fuel)%nat -> exists r, other_loop fuel st s = Some r.
Proof.
  induction fuel as [|fuel IH]; intros st s Hf; [lia|]. cbn [other_loop]. cbv zeta.
  pose proof (skip_while_le (Z.eqb 32) s) as Hle. unfold string_skip_spaces in *. destruct (skip_chars (Z.eqb 32) s) as [|c t] eqn:Es; [cbn; eauto|].
  apply skip_while_stop in Es as H32. change (rd (c :: t) 0) with c. destruct (Z.eqb_spec c 0); [eauto|].
  destruct (other_step st (c :: t)) as [[st' r]|] eqn:E; [|eauto]. apply IH. apply other_step_lt in E; [|assumption|apply Z.eqb_neq in H32; congruence]. lia.
Qed.

(** ** The texts printed *)

(** What the parts of a date string look like. *)
Definition date_text (fmt : date_string_fmt_t) (part : date_string_part_t) (f : date_fields_t) : list Z :=
  let y := year f in
  match fmt with
  | DATE_STRING_FMT_UTC =>
      name3 day_names (weekday f) ++ str_bytes ", " ++ fmt_0d 2 (day f) ++ str_bytes " " ++ name3 month_names (month f) ++
      str_bytes " " ++ fmt_0d (year_width y) y ++ str_bytes " "
  | DATE_STRING_FMT_LOCAL =>
      (name3 day_names (weekday f) ++ str_bytes " " ++ name3 month_names (month f) ++ str_bytes " " ++ fmt_0d 2 (day f) ++
       str_bytes " " ++ fmt_0d (year_width y) y) ++ (match part with DATE_STRING_PART_ALL => [32] | _ => [] end)
  | DATE_STRING_FMT_ISO =>
      (if (0 <=? y) && (y <=? 9999) then fmt_0d 4 y else (if y <? 0 then 45 else 43) :: pad0 6 (fmt_u (Z.abs y))) ++
      str_bytes "-" ++ fmt_0d 2 (month f + 1) ++ str_bytes "-" ++ fmt_0d 2 (day f) ++ str_bytes "T"
  | DATE_STRING_FMT_LOCALE =>
      (fmt_0d 2 (month f + 1) ++ str_bytes "/" ++ fmt_0d 2 (day f) ++ str_bytes "/" ++ fmt_0d (year_width y) y) ++
      (match part with DATE_STRING_PART_ALL => [44] ++ [32] | _ => [] end)
  end.
Definition time_text (fmt : date_string_fmt_t) (f : date_fields_t) : list Z :=
  let '(h, m, s) := (hour f, minute f, second f) in
  match fmt with
  | DATE_STRING_FMT_UTC => hms h m s ++ str_bytes " GMT"
  | DATE_STRING_FMT_LOCAL =>
      (hms h m s ++ str_bytes " GMT") ++ [if tz_minutes f <? 0 then 45 else 43] ++
      fmt_0d 2 (Z.abs (tz_minutes f) / 60) ++ fmt_0d 2 (Z.abs (tz_minutes f) mod 60)
  | DATE_STRING_FMT_ISO => hms h m s ++ str_bytes "." ++ fmt_0d 3 (millisecond f) ++ str_bytes "Z"
  | DATE_STRING_FMT_LOCALE => hms ((h + 11) mod 12 + 1) m s ++ str_bytes " " ++ [if h <? 12 then 65 else 80] ++ str_bytes "M"
  end.

Lemma emit_ok b s : (length b + length s < 96)%nat -> emit (Some b) s = Some (b ++ s).
Proof. intros Hl. unfold emit, buf_size. destruct (Nat.ltb_spec (length b + length s) 96); [reflexivity|lia]. Qed.
Lemma put_ok b c : (length b < 96)%nat -> put_char (Some b) c = Some (b ++ [c]).
Proof. intros Hl. unfold put_char, buf_size. destruct (Nat.ltb_spec (length b) 96); [reflexivity|lia]. Qed.

Lemma fmt_u_length n : 0 <= n < 10 ^ 10 -> (length (fmt_u n) <= 10)%nat.
Proof. intros Hn. unfold fmt_u. rewrite length_rev. destruct (dec_lsb_spec 10 n Hn) as (_ & _ & H). apply H; [lia|apply Hn]. Qed.
Lemma pad0_length k n : (k <= 10)%nat -> 0 <= n < 10 ^ 10 -> (length (pad0 k (fmt_u n)) <= 10)%nat.
Proof. intros Hk Hn. pose proof (fmt_u_length n Hn). unfold pad0. rewrite length_app, length_replicate. lia. Qed.
Lemma fmt_0d_length k n : (k <= 10)%nat -> Z.abs n < 10 ^ 10 -> (length (fmt_0d k n) <= 11)%nat.
Proof.
  intros Hk Hn. unfold fmt_0d. destruct (Z.ltb_spec n 0); cbn [length].
  - pose proof (pad0_length (k - 1) (- n) ltac:(lia) ltac:(lia)). lia.
  - pose proof (pad0_length k n ltac:(lia) ltac:(lia)). lia.
Qed.
Lemma name3_length names i : (length (name3 names i) <= 3)%nat.
Proof. unfold name3. rewrite length_take. lia. Qed.
Lemma year_width_le y : (year_width y <= 10)%nat.
Proof. unfold year_width. case_if; lia. Qed.

(** Fields a format of ten digits holds. *)
Definition printable (f : date_fields_t) : Prop :=
  Z.abs (year f) < 10 ^ 9 /\ 0 <= month f < 100 /\ 0 <= day f < 100 /\ 0 <= hour f < 100 /\ 0 <= minute f < 100 /\ 0 <= second f < 100 /\
  0 <= millisecond f < 1000 /\ Z.abs (tz_minutes f) < 10 ^ 10.

Lemma hms_length h m s : 0 <= h < 100 -> 0 <= m < 100 -> 0 <= s < 100 -> length (hms h m s) = 8%nat.
Proof.
  intros Hh Hm Hs. unfold hms, fmt_0d. destruct (Z.ltb_spec h 0), (Z.ltb_spec m 0), (Z.ltb_spec s 0); try lia. rewrite !length_app.
  destruct (pad0_spec 2 h) as (_ & -> & _); [lia..|]. destruct (pad0_spec 2 m) as (_ & -> & _); [lia..|].
  destruct (pad0_spec 2 s) as (_ & -> & _); [lia..|]. reflexivity.
Qed.

Ltac text_lengths := rewrite ?length_app; cbn [length];
  repeat match goal with |- context [length (str_bytes ?s)] => let n := eval vm_compute in (length (str_bytes s)) in change (length (str_bytes s)) with n end.

Lemma date_text_length fmt part f : printable f -> (length (date_text fmt part f) <= 40)%nat.
Proof.
  intros (P1 & P2 & P3 & _). unfold date_text. pose proof (fmt_0d_length 2 (day f) ltac:(lia) ltac:(lia)).
  pose proof (fmt_0d_length 2 (month f + 1) ltac:(lia) ltac:(lia)). pose proof (fmt_0d_length 4 (year f) ltac:(lia) ltac:(lia)).
  pose proof (fmt_0d_length (year_width (year f)) (year f) (year_width_le _) ltac:(lia)).
  pose proof (pad0_length 6 (Z.abs (year f)) ltac:(lia) ltac:(lia)). pose proof (name3_length day_names (weekday f)). pose proof (name3_length month_names (month f)).
  destruct fmt, part; try case_if; text_lengths; lia.
Qed.
Lemma time_text_length fmt f : printable f -> (length (time_text fmt f) <= 50)%nat.
Proof.
  intros (_ & _ & _ & P4 & P5 & P6 & P7 & P8). unfold time_text. pose proof (hms_length (hour f) (minute f) (second f) P4 P5 P6).
  assert (Hh : 0 <= (hour f + 11) mod 12 < 12) by (apply Z.mod_pos_bound; lia).
  pose proof (hms_length ((hour f + 11) mod 12 + 1) (minute f) (second f) ltac:(lia) P5 P6).
  pose proof (fmt_0d_length 3 (millisecond f) ltac:(lia) ltac:(lia)).
  pose proof (Z.mod_pos_bound (Z.abs (tz_minutes f)) 60 ltac:(lia)). assert (0 <= Z.abs (tz_minutes f) / 60 < 10 ^ 10) by (Z.to_euclidean_division_equations; lia).
  pose proof (fmt_0d_length 2 (Z.abs (tz_minutes f) mod 60) ltac:(lia) ltac:(lia)). pose proof (fmt_0d_length 2 (Z.abs (tz_minutes f) / 60) ltac:(lia) ltac:(lia)).
  destruct fmt; text_lengths; lia.
Qed.

Lemma date_part_text fmt part f : printable f -> date_part fmt part f (Some []) = Some (date_text fmt part f).
Proof.
  intros P. pose proof (date_text_length fmt part f P) as Hl. unfold date_part, date_text in *. cbv zeta.
  destruct fmt; [|destruct part|destruct ((0 <=? year f) && (year f <=? 9999))|destruct part];
    rewrite ?length_app in Hl; cbn [length] in Hl;
    rewrite ?emit_ok, ?put_ok, ?app_nil_r; rewrite ?app_nil_l, <- ?app_assoc; try reflexivity; rewrite ?length_app; cbn [length]; lia.
Qed.
Lemma time_part_text fmt f b : printable f -> (length b <= 40)%nat -> time_part fmt f (Some b) = Some (b ++ time_text fmt f).
Proof.
  intros P Hb. pose proof (time_text_length fmt f P) as Hl. unfold time_part, time_text in *. cbv zeta.
  destruct P as (_ & _ & _ & P4 & _ & _ & _ & P8).
  replace (if tz_minutes f <? 0 then - tz_minutes f else tz_minutes f) with (Z.abs (tz_minutes f)) by (destruct (Z.ltb_spec (tz_minutes f) 0); lia).
  rewrite Z.quot_div_nonneg, !Z.rem_mod_nonneg by lia.
  destruct fmt; rewrite ?length_app in Hl; cbn [length] in Hl; repeat (rewrite emit_ok || rewrite put_ok); rewrite <- ?app_assoc; try reflexivity; rewrite ?length_app; cbn [length]; lia.
Qed.

Lemma get_date_string_text (tz : Z -> Z) t fmt part f :
  date_extract_fields_from_time tz (Some t) (match fmt with DATE_STRING_FMT_LOCAL => true | _ => false end) false = Some f -> printable f ->
  get_date_string tz (Some (Some t)) fmt part =
    Some (Ok ((if has_date part then date_text fmt part f else []) ++ (if has_time part then time_text fmt f else []))).
Proof.
  intros E P. unfold get_date_string. rewrite E. pose proof (date_text_length fmt part f P) as Hl.
  destruct part; cbn [has_date has_time]; rewrite ?date_part_text by exact P; rewrite ?time_part_text by (exact P || cbn; lia); rewrite ?app_nil_r; reflexivity.
Qed.

(** ** Reading the digits back *)

Lemma digits_loop_run ds : Forall digit ds -> forall v n max rest, (n + length ds = max)%nat -> (0 < length ds)%nat -> (max <= 8)%nat ->
  0 <= v < 10 ^ Z.of_nat n -> get_digits_loop (ds ++ rest) v n max = Some (dec_value ds v, max).
Proof.
  induction 1 as [|c ds Hc Hds IH]; intros v n max rest Hn Hl Hm Hv; [cbn in Hl; lia|]. cbn [app get_digits_loop length] in *. unfold digit in Hc.
  destruct (Z.leb_spec 48 c), (Z.leb_spec c 57); cbn [andb]; try lia.
  assert (Hp : 10 ^ Z.of_nat n <= 10 ^ 7) by (apply Z.pow_le_mono_r; lia). destruct (Z.leb_spec 100000000 v); [lia|]. cbv zeta.
  destruct (Nat.ltb_spec 0 max); [|lia]. cbn [andb]. replace (v * 10 + c - 48) with (10 * v + (c - 48)) by lia.
  destruct (Nat.eqb_spec (S n) max) as [E|E].
  - destruct ds; [|cbn in *; lia]. rewrite E. reflexivity.
  - rewrite IH; [reflexivity|lia|lia|lia|]. rewrite Nat2Z.inj_succ, Z.pow_succ_r by lia. lia.
Qed.

Lemma get_pad k n rest : (1 <= k <= 8)%nat -> 0 <= n < 10 ^ Z.of_nat k -> string_get_digits (pad0 k (fmt_u n) ++ rest) k k = Some (n, rest).
Proof.
  intros Hk Hn. assert (10 ^ Z.of_nat k <= 10 ^ 8) by (apply Z.pow_le_mono_r; lia).
  destruct (pad0_spec k n) as (D & L & V); [lia..|]. unfold string_get_digits.
  rewrite (digits_loop_run _ D) by (rewrite ?L; cbn; lia). rewrite V. destruct (Nat.ltb_spec k k); [lia|]. rewrite drop_app_length' by (symmetry; exact L). reflexivity.
Qed.
Lemma get_fmt k n rest : (1 <= k <= 8)%nat -> 0 <= n < 10 ^ Z.of_nat k -> string_get_digits (fmt_0d k n ++ rest) k k = Some (n, rest).
Proof. intros Hk Hn. unfold fmt_0d. destruct (Z.ltb_spec n 0); [lia|]. apply get_pad; assumption. Qed.

Lemma get_ms n rest : 0 <= n < 1000 -> string_get_milliseconds (46 :: fmt_0d 3 n ++ 90 :: rest) 0 = (n, 90 :: rest).
Proof.
  intros Hn. unfold fmt_0d. destruct (Z.ltb_spec n 0); [lia|]. destruct (pad0_spec 3 n) as (D & L & V); [lia..|].
  destruct (pad0 3 (fmt_u n)) as [|a [|b [|c [|]]]]; try discriminate L. rewrite !Forall_cons in D. unfold digit in D. destruct D as (Ha & Hb & Hc & _).
  unfold string_get_milliseconds, dec_value in *. cbn [fold_left] in V. cbn [app rd nth]. change ((46 =? 46) || (46 =? 44)) with true. cbv iota.
  change (drop 1 (46 :: a :: b :: c :: 90 :: rest)) with (a :: b :: c :: 90 :: rest). cbn [ms_loop].
  repeat match goal with |- context [48 <=? ?x] => destruct (Z.leb_spec 48 x); [|lia] end.
  repeat match goal with |- context [?x <=? 57] => destruct (Z.leb_spec x 57); try lia end. cbn [andb].
  change (100 / 10) with 10. change (10 / 10) with 1. cbn. f_equal. lia.
Qed.

Lemma skip_char_hd c s : string_skip_char (c :: s) c = Some s.
Proof. unfold string_skip_char. cbn [rd nth]. rewrite Z.eqb_refl. reflexivity. Qed.

(** The year in either form. *)
Lemma iso_year_back y rest : -271821 <= y <= 275760 ->
  iso_year ((if (0 <=? y) && (y <=? 9999) then fmt_0d 4 y else (if y <? 0 then 45 else 43) :: pad0 6 (fmt_u (Z.abs y))) ++ rest) = Some (y, rest).
Proof.
  intros Hy. destruct ((0 <=? y) && (y <=? 9999)) eqn:E; unfold iso_year.
  - apply andb_true_iff in E as [E1 E2]. apply Z.leb_le in E1, E2. pose proof (get_fmt 4 y rest ltac:(lia) ltac:(lia)) as Hg.
    assert (Hd : 48 <= rd (fmt_0d 4 y ++ rest) 0 <= 57).
    { unfold fmt_0d. destruct (Z.ltb_spec y 0); [lia|]. destruct (pad0_spec 4 y) as (D & L & _); [lia..|]. destruct (pad0 4 (fmt_u y)); [discriminate|].
      apply Forall_cons in D as [D _]. exact D. }
    destruct (Z.eqb_spec (rd (fmt_0d 4 y ++ rest) 0) 45), (Z.eqb_spec (rd (fmt_0d 4 y ++ rest) 0) 43); try lia. exact Hg.
  - cbn [app rd nth]. set (sg := if y <? 0 then 45 else 43). change (drop 1 (sg :: pad0 6 (fmt_u (Z.abs y)) ++ rest)) with (pad0 6 (fmt_u (Z.abs y)) ++ rest).
    rewrite get_pad by lia. unfold sg. destruct (Z.ltb_spec y 0) as [Hy0|Hy0].
    + change (45 =? 45) with true. cbn [orb]. destruct (Z.eqb_spec (Z.abs y) 0); [lia|]. do 2 f_equal. lia.
    + change (43 =? 45) with false. change (43 =? 43) with true. cbn [orb]. do 2 f_equal. lia.
Qed.

Lemma month_len_le y i : month_length y i <= 31.
Proof. pose proof (year_length y). unfold month_length. do 12 (destruct i as [|i]; [cbn; lia|]). destruct i; cbn; lia. Qed.

Definition iso_text (f : date_fields_t) : list Z := date_text DATE_STRING_FMT_ISO DATE_STRING_PART_ALL f ++ time_text DATE_STRING_FMT_ISO f.

Lemma parse_iso_text f : valid_fields f -> -271821 <= year f <= 275760 ->
  parse_isostring (iso_text f) = Some ([year f; month f; day f; hour f; minute f; second f; millisecond f; 0; 0], false).
Proof.
  intros V Hy. pose proof V as [V1 V2 V3 V4 V5 V6]. pose proof (month_len_le (year f) (Z.to_nat (month f))).
  unfold parse_isostring, iso_text, date_text, time_text, hms. cbv zeta. rewrite <- !app_assoc.
  change (str_bytes "-") with [45]. change (str_bytes ":") with [58]. change (str_bytes "T") with [84]. change (str_bytes ".") with [46]. change (str_bytes "Z") with [90].
  cbn [app]. rewrite iso_year_back by exact Hy. unfold iso_month_day. rewrite skip_char_hd, get_fmt by lia.
  destruct (Z.ltb_spec (month f + 1) 1); [lia|]. rewrite skip_char_hd, get_fmt by lia. destruct (Z.ltb_spec (day f) 1); [lia|].
  rewrite skip_char_hd. unfold iso_hour_minute. rewrite get_fmt by lia. rewrite skip_char_hd, get_fmt, skip_char_hd, get_fmt by lia.
  rewrite get_ms by lia. cbn. rewrite Z.add_simpl_r. reflexivity.
Qed.

Lemma fields_valid_ok f z w : valid_fields f -> fields_valid [year f; month f; day f; hour f; minute f; second f; millisecond f; z; w] = true.
Proof.
  intros [V1 V2 V3 V4 V5 V6]. pose proof (month_len_le (year f) (Z.to_nat (month f))). unfold fields_valid. cbn [nth].
  destruct (Z.ltb_spec 11 (month f)), (Z.ltb_spec 31 (day f)), (Z.ltb_spec 24 (hour f)), (Z.ltb_spec 59 (minute f)), (Z.ltb_spec 59 (second f)), (Z.eqb_spec (hour f) 24);
    try lia; reflexivity.
Qed.

Lemma valid_printable f : valid_fields f -> Z.abs (year f) < 10 ^ 9 -> Z.abs (tz_minutes f) < 10 ^ 10 -> printable f.
Proof. intros [V1 V2 V3 V4 V5 V6] Hy Hz. pose proof (month_len_le (year f) (Z.to_nat (month f))). unfold printable. lia. Qed.

Lemma year_small f : valid_fields f -> Z.abs (time_of f) < 10 ^ 16 -> Z.abs (year f) < 10 ^ 9.
Proof.
  intros [V1 V2 V3 V4 V5 V6] Ht. pose proof (month_in_year (year f) (Z.to_nat (month f)) (day f - 1) ltac:(lia) ltac:(lia)) as Hm.
  pose proof (year_length (year f)) as Hl. unfold time_of, day_number, time_of_day in Ht.
  destruct (Z.leb_spec (10 ^ 9) (year f)) as [H|H].
  - pose proof (days_from_year_mono (10 ^ 9) (year f) H) as Hd. change (days_from_year (10 ^ 9)) with 365241780472 in Hd. lia.
  - destruct (Z.leb_spec (year f) (- 10 ^ 9)) as [H'|H']; [|lia]. pose proof (days_from_year_mono (year f) (- 10 ^ 9) H') as Hd.
    change (days_from_year (- 10 ^ 9)) with (-365243219528) in Hd. lia.
Qed.

(** ** Theorems *)

(** Parsing a date ends.  On every text, and in every time zone, the ISO
    parser and the loop of the lenient parser behind [Date.parse] and
    [new Date(string)] come to an answer: each round of the loop consumes at
    least one character. *)
Theorem date_parse_ends (tz : Z -> Z) malloc_ok s : exists r, date_parse_string_to_ms tz malloc_ok s = Some r.
Proof.
  unfold date_parse_string_to_ms. destruct malloc_ok; cbn [negb]; [|eauto].
  destruct (parse_isostring s) as [[f l]|]; [case_if; eauto|]. unfold parse_otherstring.
  destruct (other_loop_ends (S (length s)) other_start s) as [[st|] ->]; [lia| |eauto].
  destruct (other_finish st) as [[f l]|]; [case_if; eauto|eauto].
Qed.

(** C37: [toISOString] and [Date.parse] are inverse.  For every time value in
    range, of any year from -271821 to 275760, the printed text is the one the
    parser reads back as exactly that time value, and [new Date] of it is the
    same date; no allocation fails. *)
Theorem date_iso_roundtrip (tz : Z -> Z) t : Z.abs t <= max_time ->
  exists s, builtin_Date_toISOString tz (Some (Some t)) = Some (Ok s) /\
    builtin_Date_parse tz true [s] = Some (Some t) /\ builtin_Date_string tz true s = Some (Some t).
Proof.
  intros Ht. destruct (extract_make tz t false false Ht) as (f & E & V & Et & _ & M); [discriminate|]. exists (iso_text f).
  assert (Hy : -271821 <= year f <= 275760) by (apply (time_year f V); lia).
  destruct (extract_ok tz t false false) as (f' & E' & _ & _ & _ & Hz). rewrite E in E'. injection E' as <-.
  split; [unfold builtin_Date_toISOString; rewrite (get_date_string_text tz t DATE_STRING_FMT_ISO _ f E); [reflexivity|apply valid_printable; [exact V|lia|rewrite Hz; cbn; lia]]|].
  assert (P : date_parse_string_to_ms tz true (iso_text f) = Some (Some t)).
  { unfold date_parse_string_to_ms. rewrite (parse_iso_text f V Hy). cbn [negb]. rewrite (fields_valid_ok f 0 0 V). cbn [negb nth].
    change (date_make_fields tz (DateFields (year f) (month f) (day f) (hour f) (minute f) (second f) (millisecond f) 0 0) false) with (date_make_fields tz f false).
    rewrite M. change (option_map Z.opp (dmul (Some 0) (Some 60000))) with (Some 0). rewrite dadd_small by (unfold max_time in Ht; lia).
    rewrite Z.add_0_r. reflexivity. }
  unfold builtin_Date_parse, builtin_Date_string. rewrite P. split; [reflexivity|]. cbn [option_map]. rewrite clip_in by exact Ht. reflexivity.
Qed.

(** A moment of the last day of February 2024. *)
Lemma date_iso_roundtrip_witness :
  exists s, builtin_Date_toISOString (fun _ => 0) (Some (Some 1709210096789)) = Some (Ok s) /\
    builtin_Date_parse (fun _ => 0) true [s] = Some (Some 1709210096789) /\ builtin_Date_string (fun _ => 0) true s = Some (Some 1709210096789).
Proof. apply (date_iso_roundtrip (fun _ => 0) 1709210096789). unfold max_time. lia. Defined.

(** The text of a date fits its buffer of 96 bytes.  For every time value in
    range, every zone offset that fits in 30 bits and every format and part, no
    write leaves the buffer, and what is printed is the text of the date the
    fields describe. *)
Theorem date_string_in_bounds (tz : Z -> Z) t fmt part : Z.abs t <= max_time -> Z.abs (tz t) < 2 ^ 30 ->
  exists f, valid_fields f /\ time_of f = t - (match fmt with DATE_STRING_FMT_LOCAL => tz t | _ => 0 end) * 60000 /\
    get_date_string tz (Some (Some t)) fmt part =
      Some (Ok ((if has_date part then date_text fmt part f else []) ++ (if has_time part then time_text fmt f else []))).
Proof.
  intros Ht Hz. set (is_local := match fmt with DATE_STRING_FMT_LOCAL => true | _ => false end).
  destruct (extract_ok tz t is_local false) as (f & E & V & Et & _ & Etz). exists f. split; [exact V|].
  split; [rewrite Et; unfold is_local; destruct fmt; lia|]. apply get_date_string_text; [exact E|].
  assert (Hb : Z.abs (tz_minutes f) < 2 ^ 30) by (rewrite Etz; destruct is_local; lia).
  apply valid_printable; [exact V| |lia]. apply (year_small f V). unfold max_time in *. rewrite Et, <- Etz. lia.
Qed.

(** Midnight of 2024-02-29, an hour east of Greenwich. *)
Lemma date_string_in_bounds_witness :
  exists f, valid_fields f /\ time_of f = 1709164800000 - (-60) * 60000 /\
    get_date_string (fun _ => -60) (Some (Some 1709164800000)) DATE_STRING_FMT_LOCAL DATE_STRING_PART_ALL =
      Some (Ok (date_text DATE_STRING_FMT_LOCAL DATE_STRING_PART_ALL f ++ time_text DATE_STRING_FMT_LOCAL f)).
Proof. apply (date_string_in_bounds (fun _ => -60) 1709164800000 DATE_STRING_FMT_LOCAL DATE_STRING_PART_ALL); unfold max_time; lia. Defined.

(** [Date.parse] does not clip: a zone offset carries the result past the
    largest time value. *)
Lemma parse_beyond_range (tz : Z -> Z) : builtin_Date_parse tz true [str_bytes "+275760-09-13T00:00:00-00:01"] = Some (Some (max_time + 60000)).
Proof. reflexivity. Qed.
(** The strings in the locale's format show the fields in UTC, in every zone. *)
Lemma locale_string_utc (tz : Z -> Z) this : builtin_Date_toLocaleString tz this = builtin_Date_toLocaleString (fun _ => 0) this.
Proof. destruct this as [[t|]|]; reflexivity. Qed.
