(* ===== verification/Value.v ===== *)
(** * Tagged values

    [src/src/ant.c] and [src/include/internal.h] put every JavaScript value
    in one 64-bit word: a word up to the bits of minus infinity is a double,
    and the words above it, which are NaNs, hold a type and 47 bits of data. *)

From S2P Require Import Prelude.

(** ** The layout *)

Definition NANBOX_TYPE_MASK : Z := 0x1F.
Definition NANBOX_TYPE_SHIFT : Z := 0x2F.
Definition NANBOX_PREFIX : Z := 0xFFF0000000000000.
Definition NANBOX_DATA_MASK : Z := 0x00007FFFFFFFFFFF.

Definition T_OBJ : Z := 0.
Definition T_STR : Z := 1.
Definition T_ARR : Z := 2.
Definition T_FUNC : Z := 3.
Definition T_CFUNC : Z := 4.
Definition T_PROMISE : Z := 5.
Definition T_GENERATOR : Z := 6.
Definition T_UNDEF : Z := 7.
Definition T_NULL : Z := 8.
Definition T_BOOL : Z := 9.
Definition T_NUM : Z := 10.
Definition T_BIGINT : Z := 11.
Definition T_SYMBOL : Z := 12.
Definition T_ERR : Z := 13.
Definition T_MAP : Z := 16.
Definition T_SET : Z := 17.
Definition T_WEAKMAP : Z := 18.
Definition T_WEAKSET : Z := 19.
Definition T_SENTINEL : Z := NANBOX_TYPE_MASK.

(** A set of types as the bits of a 32-bit word. *)
Definition T_FLAG_FIND (t : Z) : Z := u32 (1 .<< t).
Definition T_MASK (ts : list Z) : Z := fold_right (fun t m => T_FLAG_FIND t .| m) 0 ts.
Definition T_SPECIAL_OBJECT_MASK : Z := T_MASK [T_OBJ; T_ARR].
Definition T_OBJECT_MASK : Z := T_MASK [T_OBJ; T_ARR; T_FUNC; T_PROMISE; T_GENERATOR].
Definition T_NON_NUMERIC_MASK : Z := T_MASK [T_STR; T_ARR; T_FUNC; T_CFUNC; T_OBJ; T_GENERATOR].
Definition GC_OBJ_TYPE_MASK : Z := T_FLAG_FIND T_OBJ .| T_FLAG_FIND T_ARR .| T_FLAG_FIND T_PROMISE .| T_FLAG_FIND T_GENERATOR.

Definition mkval (type data : Z) : Z := NANBOX_PREFIX .| ((type .& NANBOX_TYPE_MASK) .<< NANBOX_TYPE_SHIFT) .| (data .& NANBOX_DATA_MASK).
Definition is_tagged (v : Z) : bool := NANBOX_PREFIX <? v.
Definition vtype (v : Z) : Z := if is_tagged v then (v .>> NANBOX_TYPE_SHIFT) .& NANBOX_TYPE_MASK else T_NUM.
Definition vdata (v : Z) : Z := v .& NANBOX_DATA_MASK.

(** A double is its bits: sign, eleven bits of exponent, 52 of fraction. *)
Definition isnan (d : Z) : bool := ((d .>> 52) .& 0x7FF =? 0x7FF) && negb (d .& (2 ^ 52 - 1) =? 0).
Definition signbit (d : Z) : bool := Z.testbit d 63.
Definition is_zero (d : Z) : bool := d .& (2 ^ 63 - 1) =? 0.
Definition tov (d : Z) : Z := if isnan d then if NANBOX_PREFIX <? d then 0x7FF8000000000000 else d else d.
Definition tod (v : Z) : Z := v.

Definition type_in (mask v : Z) : bool := negb ((T_FLAG_FIND (vtype v) .& mask) =? 0).
Definition is_non_numeric (v : Z) : bool := type_in T_NON_NUMERIC_MASK v.
Definition is_object_type (v : Z) : bool := type_in T_OBJECT_MASK v.
Definition is_special_object (v : Z) : bool := type_in T_SPECIAL_OBJECT_MASK v.
Definition gc_value_is_heap_ref (v : Z) : bool :=
  if v <=? NANBOX_PREFIX then false
  else
    let type := (v .>> NANBOX_TYPE_SHIFT) .& NANBOX_TYPE_MASK in
    (type =? T_FUNC) || (type =? T_STR) || negb ((T_FLAG_FIND type .& GC_OBJ_TYPE_MASK) =? 0).

Definition js_mkundef : Z := mkval T_UNDEF 0.
Definition js_mknull : Z := mkval T_NULL 0.
Definition js_mknum (d : Z) : Z := tov d.
Definition js_true : Z := NANBOX_PREFIX .| (T_BOOL .<< NANBOX_TYPE_SHIFT) .| 1.
Definition js_false : Z := NANBOX_PREFIX .| (T_BOOL .<< NANBOX_TYPE_SHIFT).
Definition js_bool (x : bool) : Z := js_false .| Z.b2z x.
Definition ANT_SENTINEL (payload : Z) : Z := NANBOX_PREFIX .| (T_SENTINEL .<< NANBOX_TYPE_SHIFT) .| payload.
Definition T_EMPTY : Z := ANT_SENTINEL 0xDEAD.
Definition is_err (v : Z) : bool := vtype v =? T_ERR.
Definition is_null (v : Z) : bool := vtype v =? T_NULL.
Definition is_undefined (v : Z) : bool := vtype v =? T_UNDEF.
Definition is_empty_slot (v : Z) : bool := v =? T_EMPTY.

(** ** Words *)

(** The bits of minus infinity, the type and the data do not overlap. *)
Lemma mkval_sum t d : 0 <= t < 32 -> 0 <= d < 2 ^ 47 -> mkval t d = NANBOX_PREFIX + t * 2 ^ 47 + d.
Proof.
  intros Ht Hd. unfold mkval, NANBOX_TYPE_MASK, NANBOX_TYPE_SHIFT, NANBOX_DATA_MASK. change 0x1F with (2 ^ 5 - 1). change 0x00007FFFFFFFFFFF with (2 ^ 47 - 1). change 0x2F with 47. rewrite !land_ones_mod, !Z.mod_small by lia.
  replace NANBOX_PREFIX with (0xFFF .<< 52) by reflexivity. rewrite (lor_shiftl_add 0xFFF (t .<< 47) 52); [|lia|rewrite Z.shiftl_mul_pow2 by lia; lia].
  assert (E : 0xFFF * 2 ^ 52 + (t .<< 47) = (0xFFF * 32 + t) .<< 47) by (rewrite !Z.shiftl_mul_pow2 by lia; lia). rewrite E, lor_shiftl_add, Z.shiftl_mul_pow2 by lia. lia.
Qed.
Lemma word_split v : NANBOX_PREFIX <= v < 2 ^ 64 -> exists t d, 0 <= t < 32 /\ 0 <= d < 2 ^ 47 /\ v = NANBOX_PREFIX + t * 2 ^ 47 + d.
Proof.
  intros H. exists ((v - NANBOX_PREFIX) / 2 ^ 47), ((v - NANBOX_PREFIX) mod 2 ^ 47). unfold NANBOX_PREFIX in *. Z.to_euclidean_division_equations. lia.
Qed.
Lemma type_bits t d : 0 <= t < 32 -> 0 <= d < 2 ^ 47 -> ((NANBOX_PREFIX + t * 2 ^ 47 + d) .>> NANBOX_TYPE_SHIFT) .& NANBOX_TYPE_MASK = t.
Proof.
  intros Ht Hd. unfold NANBOX_TYPE_SHIFT, NANBOX_TYPE_MASK. change 0x2F with 47. change 0x1F with (2 ^ 5 - 1). rewrite land_ones_mod, Z.shiftr_div_pow2 by lia. unfold NANBOX_PREFIX. Z.to_euclidean_division_equations. lia.
Qed.
Lemma data_bits t d : 0 <= t < 32 -> 0 <= d < 2 ^ 47 -> vdata (NANBOX_PREFIX + t * 2 ^ 47 + d) = d.
Proof.
  intros Ht Hd. unfold vdata, NANBOX_DATA_MASK. change 0x00007FFFFFFFFFFF with (2 ^ 47 - 1). rewrite land_ones_mod by lia. unfold NANBOX_PREFIX. Z.to_euclidean_division_equations. lia.
Qed.
Lemma word_cases v : 0 <= v < 2 ^ 64 -> (v <= NANBOX_PREFIX /\ is_tagged v = false /\ vtype v = T_NUM) \/
  exists t d, 0 <= t < 32 /\ 0 <= d < 2 ^ 47 /\ (t, d) <> (0, 0) /\ v = mkval t d /\ is_tagged v = true /\ vtype v = t /\ vdata v = d.
Proof.
  intros Hv. unfold vtype, is_tagged. destruct (Z.ltb_spec NANBOX_PREFIX v) as [Hp|Hp]; [right|left; auto]. destruct (word_split v) as (t & d & Ht & Hd & ->); [lia|]. exists t, d.
  split; [exact Ht|]. split; [exact Hd|]. split; [intros [= -> ->]; lia|]. split; [symmetry; apply mkval_sum; auto|]. split; [reflexivity|]. split; [apply type_bits; auto|apply data_bits; auto].
Qed.
Lemma mkval_word t d : 0 <= t < 32 -> 0 <= d < 2 ^ 47 -> (t, d) <> (0, 0) -> NANBOX_PREFIX < mkval t d < 2 ^ 64.
Proof. intros Ht Hd Hne. rewrite mkval_sum by auto. unfold NANBOX_PREFIX. assert (~ (t = 0 /\ d = 0)) by (intros [-> ->]; auto). lia. Qed.
Lemma mkval_fields t d : 0 <= t < 32 -> 0 <= d < 2 ^ 47 -> (t, d) <> (0, 0) -> is_tagged (mkval t d) = true /\ vtype (mkval t d) = t /\ vdata (mkval t d) = d.
Proof.
  intros Ht Hd Hne. pose proof (mkval_word t d Ht Hd Hne) as Hw. unfold vtype, is_tagged. destruct (Z.ltb_spec NANBOX_PREFIX (mkval t d)); [|lia]. rewrite mkval_sum by auto. splits; [reflexivity|apply type_bits; auto|apply data_bits; auto].
Qed.

(** ** Doubles *)

(** The NaNs are the words between the infinities and their sign bit. *)
Lemma isnan_spec d : 0 <= d < 2 ^ 64 -> isnan d = (0x7FF0000000000000 <? d) && (d <? 2 ^ 63) || (NANBOX_PREFIX <? d).
Proof.
  intros Hd. unfold isnan, NANBOX_PREFIX. change 0x7FF with (2 ^ 11 - 1) at 1. rewrite !land_ones_mod, Z.shiftr_div_pow2 by lia.
  destruct (Z.eqb_spec (d / 2 ^ 52 mod 2 ^ 11) 0x7FF), (Z.eqb_spec (d mod 2 ^ 52) 0), (Z.ltb_spec 0x7FF0000000000000 d), (Z.ltb_spec d (2 ^ 63)), (Z.ltb_spec 0xFFF0000000000000 d); cbn [andb orb negb]; try reflexivity; exfalso; Z.to_euclidean_division_equations; lia.
Qed.
Lemma tov_range d : 0 <= d < 2 ^ 64 -> 0 <= tov d <= NANBOX_PREFIX.
Proof.
  intros Hd. unfold tov. rewrite isnan_spec by lia. destruct (Z.ltb_spec NANBOX_PREFIX d); [rewrite orb_true_r; unfold NANBOX_PREFIX; lia|]. destruct (_ && _); cbn [orb]; lia.
Qed.

(** ** What a word is *)

(** A list of types and the mask that stands for it. *)
Lemma type_in_list ts v : 0 <= v < 2 ^ 64 -> Forall (fun t => 0 <= t < 32) ts -> type_in (T_MASK ts) v = bool_decide (vtype v ∈ ts).
Proof.
  intros Hv Hts. assert (Ht : 0 <= vtype v < 32) by (destruct (word_cases v Hv) as [(_ & _ & ->)|(t & d & H & _ & _ & _ & _ & -> & _)]; [unfold T_NUM; lia|exact H]).
  unfold type_in. set (t := vtype v) in *. assert (F : forall x, 0 <= x < 32 -> T_FLAG_FIND x = 2 ^ x). { intros x Hx. unfold T_FLAG_FIND. rewrite Z.shiftl_mul_pow2, Z.mul_1_l by lia. apply wrap_small. split; [lia|apply Z.pow_lt_mono_r; lia]. }
  rewrite F by exact Ht. rewrite Z.land_comm, land_pow2 by lia. pose proof (Z.pow_pos_nonneg 2 t ltac:(lia) ltac:(lia)). assert (E : Z.testbit (T_MASK ts) t = bool_decide (t ∈ ts)).
  { induction Hts as [|x xs Hx _ IH]; [cbn; apply Z.bits_0|]. cbn [T_MASK fold_right]. change (fold_right _ 0 xs) with (T_MASK xs). rewrite Z.lor_spec, IH, F, Z.pow2_bits_eqb by lia. destruct (Z.eqb_spec x t) as [->|Hne]; cbn [orb]; [symmetry; apply bool_decide_eq_true; left|].
    apply bool_decide_ext. rewrite elem_of_cons. split; [auto|intros [H0|H0]; [congruence|exact H0]]. }
  rewrite E. destruct (bool_decide (t ∈ ts)); [|reflexivity]. destruct (Z.eqb_spec (2 ^ t) 0); [lia|reflexivity].
Qed.

(** C16: every word is either a number, or a tagged value with one type and one
    datum, which encode it; encoding any type and datum but an object at
    address zero, and decoding, gives them back. *)
Theorem value_roundtrip :
  (forall v, 0 <= v < 2 ^ 64 -> (is_tagged v = false /\ vtype v = T_NUM /\ tov (tod v) = v) \/ (is_tagged v = true /\ 0 <= vtype v < 32 /\ 0 <= vdata v < 2 ^ 47 /\ mkval (vtype v) (vdata v) = v)) /\
  (forall t d, 0 <= t < 32 -> 0 <= d < 2 ^ 47 -> (t, d) <> (T_OBJ, 0) -> is_tagged (mkval t d) = true /\ vtype (mkval t d) = t /\ vdata (mkval t d) = d).
Proof.
  split; [|apply mkval_fields]. intros v Hv. destruct (word_cases v Hv) as [(Hp & E1 & E2)|(t & d & Ht & Hd & _ & -> & E1 & E2 & E3)]; [left|right; rewrite E2, E3; auto]. splits; auto. unfold tov, tod. destruct (Z.ltb_spec NANBOX_PREFIX v); [lia|]. destruct (isnan v); reflexivity.
Qed.

(** C17: a double of any bits becomes a number that reads back as the same
    double, a NaN as a NaN; the type predicates and the collector's test for a
    pointer are true of exactly the types they name, and of no number. *)
Theorem value_types :
  (forall d, 0 <= d < 2 ^ 64 -> is_tagged (tov d) = false /\ vtype (tov d) = T_NUM /\ isnan (tod (tov d)) = isnan d /\ (isnan d = false -> tod (tov d) = d)) /\
  (forall v, 0 <= v < 2 ^ 64 ->
     is_object_type v = bool_decide (vtype v ∈ [T_OBJ; T_ARR; T_FUNC; T_PROMISE; T_GENERATOR]) /\
     is_special_object v = bool_decide (vtype v ∈ [T_OBJ; T_ARR]) /\
     is_non_numeric v = bool_decide (vtype v ∈ [T_STR; T_ARR; T_FUNC; T_CFUNC; T_OBJ; T_GENERATOR]) /\
     gc_value_is_heap_ref v = bool_decide (vtype v ∈ [T_FUNC; T_STR; T_OBJ; T_ARR; T_PROMISE; T_GENERATOR])) /\
  (forall b, vtype (js_bool b) = T_BOOL /\ (js_bool b = js_true <-> b = true)).
Proof.
  splits.
  - intros d Hd. pose proof (tov_range d Hd) as [R1 R2]. unfold is_tagged, vtype, is_tagged. destruct (Z.ltb_spec NANBOX_PREFIX (tov d)); [lia|]. splits; auto; unfold tod, tov; [|intros ->; reflexivity].
    destruct (isnan d) eqn:E; [|exact E]. destruct (Z.ltb_spec NANBOX_PREFIX d); [reflexivity|exact E].
  - intros v Hv. assert (W : forall ts, Forall (fun t => 0 <= t < 32) ts -> type_in (T_MASK ts) v = bool_decide (vtype v ∈ ts)) by (intros ts; apply type_in_list, Hv). splits; try (apply W; repeat constructor; unfold T_OBJ, T_ARR, T_FUNC, T_PROMISE, T_GENERATOR, T_STR, T_CFUNC; lia).
    assert (E : gc_value_is_heap_ref v = (is_tagged v && ((vtype v =? T_FUNC) || (vtype v =? T_STR) || type_in (T_MASK [T_OBJ; T_ARR; T_PROMISE; T_GENERATOR]) v))).
    { unfold gc_value_is_heap_ref, type_in, vtype, is_tagged. rewrite Z.leb_antisym. destruct (Z.ltb_spec NANBOX_PREFIX v); reflexivity. }
    rewrite E, W by (repeat constructor; unfold T_OBJ, T_ARR, T_PROMISE, T_GENERATOR; lia). destruct (word_cases v Hv) as [(_ & -> & ->)|(t & d & Ht & _ & _ & _ & -> & -> & _)]; [reflexivity|]. cbn [andb].
    destruct (Z.eqb_spec t T_FUNC) as [->|N1]; [reflexivity|]. destruct (Z.eqb_spec t T_STR) as [->|N2]; [reflexivity|]. cbn [orb]. apply bool_decide_ext. rewrite !elem_of_cons. tauto.
  - intros [|]; (split; [reflexivity|]); split; auto; discriminate.
Qed.

Module Example.

Lemma value_roundtrip_witness : vtype (mkval T_STR 4096) = T_STR /\ vdata (mkval T_STR 4096) = 4096.
Proof. destruct value_roundtrip as [_ H]. destruct (H T_STR 4096 ltac:(unfold T_STR; lia) ltac:(lia) ltac:(discriminate)) as (_ & H1 & H2). split; assumption. Defined.
Lemma value_types_witness : isnan (tod (tov 0xFFF8000000000001)) = true /\ is_object_type (mkval T_ARR 8) = true.
Proof.
  destruct value_types as (H1 & H2 & _). split; [destruct (H1 0xFFF8000000000001 ltac:(lia)) as (_ & _ & -> & _); reflexivity|].
  destruct (H2 (mkval T_ARR 8)) as (-> & _); [vm_compute; split; [discriminate|reflexivity]|reflexivity].
Defined.

(** Minus infinity is the largest number; an object at address zero would be it. *)
Example minus_infinity : is_tagged NANBOX_PREFIX = false /\ mkval T_OBJ 0 = NANBOX_PREFIX.
Proof. split; reflexivity. Qed.
(** NaNs of either sign stay apart from the tagged values; a positive one keeps its bits. *)
Example nan_bits : tov 0xFFF8000000000000 = 0x7FF8000000000000 /\ tov 0x7FF8000000000001 = 0x7FF8000000000001.
Proof. split; reflexivity. Qed.
End Example.
