(* ===== verification/WeakTable.v ===== *)
(** * Hash tables with open addressing

    The table behind every WeakMap ([weakmap_table_t] of
    [src/src/modules/collections.c], [src/include/modules/collections.h]) and
    the index of pending pairs the collector builds ([src/src/gc/weak.c]) are
    the same structure: a power of two of entries, linear probing from a hash
    of the key, key 0 for an empty slot and key 1 for a deleted one.  The
    common part is the section [Table]; the loops over slots take the number
    of slots as fuel, and [None] is a loop that does not end or leaves the
    array.  [calloc_ok n] says whether [n] bytes can be allocated. *)

From S2P Require Import Prelude.

Definition weak_collection_key_hash (key : Z) : Z :=
  let hash := u32 key .^ u32 (key .>> 32) in
  let hash := u32 (((hash .>> 16) .^ hash) * 0x45d9f3b) in
  (hash .>> 16) .^ hash.

(** ** The code *)

Section Table.
Context {V : Type} (zero : V).

(** The array, the number of entries in use and of deleted ones. *)
Record table := Table { entries : list (Z * V); count : Z; tombstones : Z }.

Definition capacity (t : table) : Z := Z.of_nat (length (entries t)).
Definition empty_table : table := Table [] 0 0.

Definition weakmap_entry_is_occupied (e : Z * V) : bool := negb (e.1 =? 0) && negb (e.1 =? 1).

Definition next_slot (es : list (Z * V)) (slot : nat) : nat := Z.to_nat ((Z.of_nat slot + 1) .& (Z.of_nat (length es) - 1)).
Definition first_slot (es : list (Z * V)) (key : Z) : nat := Z.to_nat (weak_collection_key_hash key .& (Z.of_nat (length es) - 1)).

Fixpoint probe (fuel : nat) (es : list (Z * V)) (key : Z) (slot : nat) (first_tombstone : option nat) : option (bool * nat) :=
  match fuel with
  | O => None
  | S fuel =>
      match es !! slot with
      | None => None
      | Some (stored_key, _) =>
          if stored_key =? 0 then Some (false, match first_tombstone with Some s => s | None => slot end)
          else if stored_key =? key then Some (true, slot)
          else
            let first_tombstone := if (stored_key =? 1) && negb (bool_decide (is_Some first_tombstone)) then Some slot else first_tombstone in
            probe fuel es key (next_slot es slot) first_tombstone
      end
  end.

Definition find_slot (es : list (Z * V)) (key : Z) : option (bool * nat) :=
  probe (length es) es key (first_slot es key) None.

(** The loop of a rehash: the entries in use move over. *)
Fixpoint reinsert (old : list (Z * V)) (es : list (Z * V)) (n : Z) : option (list (Z * V) * Z) :=
  match old with
  | [] => Some (es, n)
  | e :: old =>
      if negb (weakmap_entry_is_occupied e) then reinsert old es n
      else match find_slot es e.1 with
           | Some (_, slot) => reinsert old (<[slot := e]> es) (u32 (n + 1))
           | None => None
           end
  end.

Context (calloc_ok : Z -> bool).

(** [sizeof_entry] is 16 in both tables. *)
Definition rehash (t : table) (new_capacity : Z) : option (bool * table) :=
  if negb (calloc_ok (new_capacity * 16)) then Some (false, t)
  else
    match reinsert (entries t) (replicate (Z.to_nat new_capacity) (0, zero)) 0 with
    | Some (es, n) => Some (true, Table es n 0)
    | None => None
    end.

(** [&table->entries[slot]] of a key. *)
Definition table_find (t : table) (key : Z) : option (option nat) :=
  if capacity t =? 0 then Some None
  else match find_slot (entries t) key with
       | Some (found, slot) => Some (if found then Some slot else None)
       | None => None
       end.

(** A new entry goes into a slot that is empty or deleted. *)
Definition fill_slot (t : table) (slot : nat) (key : Z) (value : V) : table :=
  let deleted := match entries t !! slot with Some (k, _) => k =? 1 | None => false end in
  Table (<[slot := (key, value)]> (entries t)) (u32 (count t + 1)) (if deleted then u32 (tombstones t - 1) else tombstones t).

(** An entry becomes a deleted one. *)
Definition clear_slot (t : table) (slot : nat) : table :=
  Table (<[slot := (1, zero)]> (entries t)) (u32 (count t - 1)) (u32 (tombstones t + 1)).

Definition needs_room (t : table) : bool := capacity t * 3 <=? (count t + tombstones t + 1) * 4.

End Table.

Arguments table : clear implicits.
Arguments Table {V} _ _ _.

(** ** WeakMap tables *)

Record weakmap_table_t := WeakMapTable { wm : table Z; gc_prune_pending : bool }.
Definition weakmap_table_new : weakmap_table_t := WeakMapTable empty_table false.

Section WeakMap.
Context (calloc_ok : Z -> bool).

Definition weakmap_table_rehash (t : table Z) (new_capacity : Z) : option (bool * table Z) := rehash 0 calloc_ok t new_capacity.

(** The value stored under a key. *)
Definition weakmap_table_find (t : weakmap_table_t) (key : Z) : option (option Z) :=
  match table_find (wm t) key with
  | Some (Some slot) => Some (option_map snd (entries (wm t) !! slot))
  | Some None => Some None
  | None => None
  end.

Definition UINT32_MAX_half : Z := (2 ^ 32 - 1) / 2.

Definition store_in (t : table Z) (key value : Z) : option (bool * table Z) :=
  match find_slot (entries t) key with
  | None => None
  | Some (true, slot) => Some (true, Table (<[slot := (key, value)]> (entries t)) (count t) (tombstones t))
  | Some (false, slot) =>
      if needs_room t then
        if (tombstones t <=? count t) && (UINT32_MAX_half <? capacity t) then Some (false, t)
        else
          match weakmap_table_rehash t (if tombstones t <=? count t then capacity t * 2 else capacity t) with
          | None => None
          | Some (false, t) => Some (false, t)
          | Some (true, t) =>
              match find_slot (entries t) key with
              | None => None
              | Some (_, slot) => Some (true, fill_slot t slot key value)
              end
          end
      else Some (true, fill_slot t slot key value)
  end.

Definition weakmap_table_store (t : weakmap_table_t) (key value : Z) : option (bool * weakmap_table_t) :=
  let back := option_map (fun '(b, t') => (b, WeakMapTable t' (gc_prune_pending t))) in
  if capacity (wm t) =? 0 then
    match weakmap_table_rehash (wm t) 8 with
    | None => None
    | Some (false, _) => Some (false, t)
    | Some (true, t') => back (store_in t' key value)
    end
  else back (store_in (wm t) key value).

Definition weakmap_table_delete (t : weakmap_table_t) (key : Z) : option (bool * weakmap_table_t) :=
  match table_find (wm t) key with
  | None => None
  | Some None => Some (false, t)
  | Some (Some slot) => Some (true, WeakMapTable (clear_slot 0 (wm t) slot) (gc_prune_pending t))
  end.

Definition weakmap_table_finish_prune (t : weakmap_table_t) : option weakmap_table_t :=
  let w := wm t in
  if (capacity w =? 0) || (tombstones w =? 0) then Some (WeakMapTable w false)
  else if count w =? 0 then Some (WeakMapTable (Table (replicate (length (entries w)) (0, 0)) (count w) 0) false)
  else if count w <? tombstones w then
    match weakmap_table_rehash w (capacity w) with
    | Some (_, w) => Some (WeakMapTable w false)
    | None => None
    end
  else Some (WeakMapTable w false).

(** The loop of [gc_weak_prune_collection] over the slots [i], [i + 1], ... *)
Fixpoint prune_slots (alive : Z -> bool) (n i : nat) (t : table Z) : table Z :=
  match n with
  | O => t
  | S n =>
      let t := match entries t !! i with
               | Some e => if weakmap_entry_is_occupied e && negb (alive e.1) then clear_slot 0 t i else t
               | None => t
               end in
      prune_slots alive n (S i) t
  end.
Definition prune_weakmap (alive : Z -> bool) (t : weakmap_table_t) : option weakmap_table_t :=
  weakmap_table_finish_prune (WeakMapTable (prune_slots alive (length (entries (wm t))) 0 (wm t)) (gc_prune_pending t)).

End WeakMap.

(** ** Probing *)

Section Probing.
Context {V : Type}.
Implicit Types (es : list (Z * V)).

(** A power of two between 8 and [2^31]. *)
Definition size_ok es : Prop := exists k, 3 <= k <= 31 /\ Z.of_nat (length es) = 2 ^ k.

Definition pos es (h d : nat) : nat := ((h + d) mod length es)%nat.
Definition key_at es (i : nat) (k : Z) : Prop := exists v, es !! i = Some (k, v).
Definition nonempty es (i : nat) : Prop := exists k, key_at es i k /\ k <> 0.
Definition is_key (k : Z) : Prop := k <> 0 /\ k <> 1.

(** The slots from the first one of a key up to a given one are in use. *)
Definition on_path es (k : Z) (i : nat) : Prop :=
  exists d, (d < length es)%nat /\ i = pos es (first_slot es k) d /\ forall e, (e < d)%nat -> nonempty es (pos es (first_slot es k) e).

Record es_ok es : Prop := {
  eo_path : forall i k, key_at es i k -> is_key k -> on_path es k i;
  eo_unique : forall i j k, key_at es i k -> key_at es j k -> is_key k -> i = j }.

Lemma size_pos es : size_ok es -> (8 <= length es)%nat.
Proof. intros (k & Hk & E). assert (2 ^ 3 <= 2 ^ k) by (apply Z.pow_le_mono_r; lia). lia. Qed.

Lemma land_size es x : size_ok es -> x .& (Z.of_nat (length es) - 1) = x mod Z.of_nat (length es).
Proof. intros (k & Hk & ->). apply land_ones_mod. lia. Qed.

Lemma first_slot_lt es k : size_ok es -> (first_slot es k < length es)%nat.
Proof.
  intros H. pose proof (size_pos es H). unfold first_slot. rewrite land_size by exact H.
  pose proof (Z.mod_pos_bound (weak_collection_key_hash k) (Z.of_nat (length es)) ltac:(lia)). lia.
Qed.
Lemma pos_lt es h d : size_ok es -> (pos es h d < length es)%nat.
Proof. intros H. pose proof (size_pos es H). apply Nat.mod_upper_bound. lia. Qed.
Lemma pos_0 es k : size_ok es -> pos es (first_slot es k) 0 = first_slot es k.
Proof. intros H. unfold pos. rewrite Nat.add_0_r. apply Nat.mod_small, first_slot_lt, H. Qed.
Lemma next_pos es h d : size_ok es -> next_slot es (pos es h d) = pos es h (S d).
Proof.
  intros H. pose proof (size_pos es H). unfold next_slot. rewrite land_size by exact H.
  replace (Z.of_nat (pos es h d) + 1) with (Z.of_nat (pos es h d + 1)) by lia. rewrite <- Nat2Z.inj_mod, Nat2Z.id. unfold pos.
  rewrite Nat.Div0.add_mod_idemp_l. f_equal. lia.
Qed.
Lemma pos_onto es h i : (h < length es)%nat -> (i < length es)%nat -> exists d, (d < length es)%nat /\ i = pos es h d.
Proof.
  intros Hh Hi. unfold pos. destruct (Nat.le_gt_cases h i).
  - exists (i - h)%nat. split; [lia|]. rewrite Nat.mod_small; lia.
  - exists (i + length es - h)%nat. split; [lia|]. replace (h + (i + length es - h))%nat with (i + 1 * length es)%nat by lia.
    rewrite Nat.Div0.mod_add, Nat.mod_small by lia. reflexivity.
Qed.

Lemma key_at_inj es i k k' : key_at es i k -> key_at es i k' -> k = k'.
Proof. intros [v H] [v' H']. congruence. Qed.

(** The loop: what was passed is neither empty nor the key. *)
Lemma probe_loop es k h : size_ok es -> is_key k -> forall f d tomb, (d + f = length es)%nat ->
  (exists e, (d <= e < length es)%nat /\ key_at es (pos es h e) 0) ->
  (forall e, (e < d)%nat -> exists x, key_at es (pos es h e) x /\ x <> 0 /\ x <> k) ->
  (forall s, tomb = Some s -> exists e, (e < d)%nat /\ s = pos es h e /\ key_at es s 1) ->
  (exists s, probe f es k (pos es h d) tomb = Some (true, s) /\ key_at es s k) \/
  (exists s e, probe f es k (pos es h d) tomb = Some (false, s) /\ (e < length es)%nat /\ key_at es (pos es h e) 0 /\
     (forall e', (e' < e)%nat -> exists x, key_at es (pos es h e') x /\ x <> 0 /\ x <> k) /\
     exists e', (e' <= e)%nat /\ s = pos es h e' /\ (key_at es s 0 \/ key_at es s 1)).
Proof.
  intros Hs [Hk0 Hk1]. induction f as [|f IH]; intros d tomb Hd (e0 & He0 & Hemp) Hpast Htomb; [lia|].
  cbn [probe]. destruct (lookup_lt_is_Some_2 es (pos es h d) (pos_lt es h d Hs)) as [[x v] Hx]. rewrite Hx.
  destruct (Z.eqb_spec x 0) as [->|Hx0].
  { right. eexists _, d. split; [reflexivity|]. split; [lia|]. split; [exists v; exact Hx|]. split; [exact Hpast|].
    destruct tomb as [s|]; [destruct (Htomb s eq_refl) as (e & He & -> & Ht); exists e; splits; [lia|reflexivity|right; exact Ht]|].
    exists d. splits; [lia|reflexivity|left; exists v; exact Hx]. }
  destruct (Z.eqb_spec x k) as [->|Hxk]; [left; eexists; split; [reflexivity|exists v; exact Hx]|].
  rewrite next_pos by exact Hs. apply IH; [lia| | |].
  - exists e0. split; [|exact Hemp]. destruct (Nat.eq_dec e0 d) as [->|]; [destruct Hemp as [w Hw]; congruence|lia].
  - intros e He. destruct (Nat.eq_dec e d) as [->|]; [exists x; splits; [exists v; exact Hx|exact Hx0|exact Hxk]|apply Hpast; lia].
  - intros s. destruct (Z.eqb_spec x 1) as [->|]; cbn [andb].
    + destruct (bool_decide (is_Some tomb)) eqn:Eb; cbn [negb].
      * intros E. destruct (Htomb s E) as (e & He & Hrest). exists e. split; [lia|exact Hrest].
      * intros [= <-]. exists d. splits; [lia|reflexivity|exists v; exact Hx].
    + intros E. destruct (Htomb s E) as (e & He & Hrest). exists e. split; [lia|exact Hrest].
Qed.

(** A search ends, finds a key that is there, and otherwise the slot for it. *)
Lemma find_slot_spec es k : size_ok es -> es_ok es -> is_key k -> (exists i, key_at es i 0) ->
  (exists s, find_slot es k = Some (true, s) /\ key_at es s k) \/
  (exists s, find_slot es k = Some (false, s) /\ (forall i, ~ key_at es i k) /\ (key_at es s 0 \/ key_at es s 1) /\ on_path es k s).
Proof.
  intros Hs [Hpath Huniq] Hk [i Hi]. unfold find_slot. set (h := first_slot es k).
  assert (Hil : (i < length es)%nat) by (destruct Hi as [v Hv]; eapply lookup_lt_Some, Hv).
  destruct (pos_onto es h i (first_slot_lt es k Hs) Hil) as (e & He & Ee). subst i.
  pose proof (pos_0 es k Hs) as P0. fold h in P0. rewrite <- P0.
  destruct (probe_loop es k h Hs Hk (length es) 0 None) as [(s & E & Hf)|(s & e1 & E & He1 & Hemp & Hpast & e2 & He2 & -> & Hfree)].
  - lia.
  - exists e. split; [lia|exact Hi].
  - intros; lia.
  - discriminate.
  - left. eauto.
  - right. eexists. split; [exact E|]. splits; [|exact Hfree|].
    + intros j Hj. destruct (Hpath j k Hj Hk) as (d & Hd & -> & Hne). fold h in Hne, Hj.
      destruct (Nat.lt_trichotomy d e1) as [Hlt|[->|Hgt]].
      * destruct (Hpast d Hlt) as (x & Hx & _ & Hxk). apply Hxk. eapply key_at_inj; eassumption.
      * destruct Hk as [Hk0 _]. apply Hk0. eapply key_at_inj; eassumption.
      * destruct (Hne e1 Hgt) as (x & Hx & Hx0). apply Hx0. eapply key_at_inj; eassumption.
    + exists e2. splits; [lia|reflexivity|]. intros e' He'. destruct (Hpast e') as (x & Hx & Hx0 & _); [lia|]. exists x. auto.
Qed.

(** ** Changing a slot *)

Lemma key_at_insert es s x v i k : (s < length es)%nat -> key_at (<[s := (x, v)]> es) i k <-> (i = s /\ k = x) \/ (i <> s /\ key_at es i k).
Proof.
  intros Hs. unfold key_at. destruct (decide (i = s)) as [->|Hne].
  - rewrite list_lookup_insert by exact Hs. rewrite decide_True by auto. split; [intros (w & [= -> ->]); auto|intros [(_ & ->)|(H & _)]; [eauto|contradiction]].
  - rewrite list_lookup_insert_ne by congruence. split; [auto|intros [(-> & _)|(_ & H)]; [contradiction|exact H]].
Qed.

Lemma path_insert es s x v k i : (s < length es)%nat -> x <> 0 -> on_path es k i -> on_path (<[s := (x, v)]> es) k i.
Proof.
  intros Hs Hx (d & Hd & -> & Hne). exists d. unfold pos, first_slot in *. rewrite length_insert. splits; [exact Hd|reflexivity|].
  intros e He. destruct (Hne e He) as (y & Hy & Hy0). destruct (decide (((Z.to_nat (weak_collection_key_hash k .& (Z.of_nat (length es) - 1)) + e) mod length es)%nat = s)) as [<-|Hn].
  - exists x. split; [apply key_at_insert; auto|exact Hx].
  - exists y. split; [apply key_at_insert; auto|exact Hy0].
Qed.

(** A new key in its slot, or a deletion, keeps the table in order. *)
Lemma es_ok_insert es s x v : es_ok es -> (s < length es)%nat -> x <> 0 -> (is_key x -> on_path es x s /\ forall i, i <> s -> ~ key_at es i x) ->
  es_ok (<[s := (x, v)]> es).
Proof.
  intros [Hp Hu] Hs Hx Hnew. split.
  - intros i k [[-> ->]|[Hi Hk]]%key_at_insert Hkk; [apply path_insert; [exact Hs|exact Hx|apply Hnew, Hkk]| |exact Hs].
    apply path_insert; auto.
  - intros i j k Hi Hj Hkk. apply key_at_insert in Hi, Hj; try exact Hs.
    destruct Hi as [[E1 E2]|[Hi Ki]], Hj as [[E3 E4]|[Hj Kj]]; subst; [reflexivity| | |eapply Hu; eassumption].
    + exfalso. eapply (proj2 (Hnew Hkk)); eassumption.
    + exfalso. eapply (proj2 (Hnew Hkk)); eassumption.
Qed.

Lemma es_ok_empty n (z : V) : es_ok (replicate n (0, z)).
Proof.
  assert (H : forall i k, key_at (replicate n (0, z)) i k -> k = 0) by (intros i k [v [[= -> ->] _]%lookup_replicate]; reflexivity).
  split; [intros i k Hk [H0 _]|intros i j k Hk _ [H0 _]]; apply H in Hk; contradiction.
Qed.

End Probing.

(** ** Contents and counts *)

Section Contents.
Context {V : Type} (zero : V).
Implicit Types (es : list (Z * V)) (t : table V) (m : gmap Z V).

Definition holds es (k : Z) (v : V) : Prop := is_key k /\ exists i, es !! i = Some (k, v).
Definition is_deleted_entry (e : Z * V) : bool := e.1 =? 1.
Definition is_empty_entry (e : Z * V) : bool := e.1 =? 0.
Abbreviation used es := (countb weakmap_entry_is_occupied es).
Abbreviation deleted es := (countb is_deleted_entry es).

Record sized t : Prop := {
  sz_size : size_ok (entries t); sz_ok : es_ok (entries t);
  sz_count : count t = Z.of_nat (used (entries t)); sz_tombs : tombstones t = Z.of_nat (deleted (entries t)) }.

Lemma occupied_key (e : Z * V) : weakmap_entry_is_occupied e = true <-> is_key e.1.
Proof.
  unfold weakmap_entry_is_occupied, is_key. destruct (Z.eqb_spec e.1 0), (Z.eqb_spec e.1 1); cbn; split; try discriminate; try tauto; intros [? ?]; contradiction.
Qed.

Lemma counts_sum es : (used es + deleted es + countb is_empty_entry es = length es)%nat.
Proof.
  induction es as [|[k v] es IH]; [reflexivity|]. rewrite !countb_cons. cbn [length]. unfold weakmap_entry_is_occupied, is_deleted_entry, is_empty_entry in *. cbn [fst].
  destruct (Z.eqb_spec k 0), (Z.eqb_spec k 1); cbn; lia.
Qed.

Lemma has_empty es : (used es + deleted es < length es)%nat -> exists i, key_at es i 0.
Proof.
  intros H. pose proof (counts_sum es). destruct (countb_pos is_empty_entry es) as (i & [k v] & Hi & Hp); [lia|].
  unfold is_empty_entry in Hp. cbn in Hp. apply Z.eqb_eq in Hp as ->. exists i, v. exact Hi.
Qed.

Lemma length_bound es : size_ok es -> Z.of_nat (length es) <= 2 ^ 31.
Proof. intros (k & Hk & ->). apply Z.pow_le_mono_r; lia. Qed.

Lemma holds_key_at es k v : holds es k v -> exists i, key_at es i k.
Proof. intros (_ & i & Hi). exists i, v. exact Hi. Qed.

Lemma holds_insert es s k v x w : (s < length es)%nat -> is_key k -> (forall i, i <> s -> ~ key_at es i k) -> (forall y u, es !! s = Some (y, u) -> is_key y -> y = k) ->
  holds (<[s := (k, v)]> es) x w <-> (x = k /\ w = v) \/ (x <> k /\ holds es x w).
Proof.
  intros Hs Hk Hnew Hold. unfold holds. split.
  - intros (Hx & i & Hi). destruct (decide (i = s)) as [->|Hne].
    + rewrite list_lookup_insert, decide_True in Hi by auto. injection Hi as -> ->. auto.
    + rewrite list_lookup_insert_ne in Hi by congruence. right. split; [intros ->; apply (Hnew i Hne); exists w; exact Hi|eauto].
  - intros [(-> & ->)|(Hne & Hx & i & Hi)].
    + split; [exact Hk|]. exists s. rewrite list_lookup_insert, decide_True by auto. reflexivity.
    + split; [exact Hx|]. exists i. rewrite list_lookup_insert_ne; [exact Hi|]. intros <-. apply Hne. eapply Hold; eassumption.
Qed.

(** A new entry. *)
Lemma fill_sized t s k v : sized t -> is_key k -> (forall i, ~ key_at (entries t) i k) -> key_at (entries t) s 0 \/ key_at (entries t) s 1 ->
  on_path (entries t) k s ->
  sized (fill_slot t s k v) /\ length (entries (fill_slot t s k v)) = length (entries t) /\ count (fill_slot t s k v) = count t + 1 /\
  tombstones (fill_slot t s k v) <= tombstones t /\
  forall x w, holds (entries (fill_slot t s k v)) x w <-> (x = k /\ w = v) \/ (x <> k /\ holds (entries t) x w).
Proof.
  intros [S1 S2 S3 S4] Hk Hno Hfree Hpath. pose proof (length_bound _ S1) as Hb.
  assert (Hl : exists y u, entries t !! s = Some (y, u) /\ (y = 0 \/ y = 1)) by (destruct Hfree as [[u Hu]|[u Hu]]; eauto).
  destruct Hl as (y & u & Hy & Hy01). pose proof (lookup_lt_Some _ _ _ Hy) as Hs.
  pose proof (countb_insert weakmap_entry_is_occupied _ s _ (k, v) Hy) as C1. pose proof (countb_insert is_deleted_entry _ s _ (k, v) Hy) as C2.
  assert (Ok : weakmap_entry_is_occupied (k, v) = true) by (apply occupied_key; exact Hk). rewrite Ok in C1.
  assert (Oy : weakmap_entry_is_occupied (y, u) = false) by (destruct Hy01 as [-> | ->]; reflexivity). rewrite Oy in C1.
  assert (Dk : is_deleted_entry (k, v) = false) by (unfold is_deleted_entry; cbn; apply Z.eqb_neq, Hk). rewrite Dk in C2.
  pose proof (countb_le weakmap_entry_is_occupied (<[s := (k, v)]> (entries t))) as L1. rewrite length_insert in L1.
  pose proof (countb_le is_deleted_entry (entries t)) as L2. unfold fill_slot. rewrite Hy. cbn [entries count tombstones].
  assert (E1 : u32 (count t + 1) = Z.of_nat (used (<[s := (k, v)]> (entries t)))) by (rewrite wrap_small; lia).
  assert (E2 : (if y =? 1 then u32 (tombstones t - 1) else tombstones t) = Z.of_nat (deleted (<[s := (k, v)]> (entries t)))).
  { change (is_deleted_entry (y, u)) with (y =? 1) in C2. destruct (Z.eqb_spec y 1); [rewrite wrap_small; lia|lia]. }
  splits.
  - split; cbn; [destruct S1 as (p & Hp & E); exists p; rewrite length_insert; auto| |exact E1|exact E2].
    apply es_ok_insert; [exact S2|exact Hs|apply Hk|]. intros _. split; [exact Hpath|auto].
  - apply length_insert.
  - lia.
  - lia.
  - intros x w. apply holds_insert; [exact Hs|exact Hk|auto|]. intros y' u' Hy' Hky. rewrite Hy in Hy'. injection Hy' as <- <-. destruct Hky, Hy01; contradiction.
Qed.

(** A deletion. *)
Lemma clear_sized t s k v : sized t -> is_key k -> entries t !! s = Some (k, v) ->
  sized (clear_slot zero t s) /\ length (entries (clear_slot zero t s)) = length (entries t) /\ count (clear_slot zero t s) = count t - 1 /\
  tombstones (clear_slot zero t s) = tombstones t + 1 /\
  forall x w, holds (entries (clear_slot zero t s)) x w <-> x <> k /\ holds (entries t) x w.
Proof.
  intros [S1 S2 S3 S4] Hk Hs. pose proof (length_bound _ S1) as Hb. pose proof (lookup_lt_Some _ _ _ Hs) as Hl.
  pose proof (countb_insert weakmap_entry_is_occupied _ s _ (1, zero) Hs) as C1. pose proof (countb_insert is_deleted_entry _ s _ (1, zero) Hs) as C2.
  assert (Ok : weakmap_entry_is_occupied (k, v) = true) by (apply occupied_key; exact Hk). rewrite Ok in C1. change (weakmap_entry_is_occupied (1, zero)) with false in C1.
  assert (Dk : is_deleted_entry (k, v) = false) by (unfold is_deleted_entry; cbn; apply Z.eqb_neq, Hk). rewrite Dk in C2. change (is_deleted_entry (1, zero)) with true in C2. cbv iota in C1, C2.
  pose proof (countb_le weakmap_entry_is_occupied (entries t)) as L1. pose proof (countb_le is_deleted_entry (<[s := (1, zero)]> (entries t))) as L2. rewrite length_insert in L2.
  unfold clear_slot. cbn [entries count tombstones].
  assert (E1 : u32 (count t - 1) = Z.of_nat (used (<[s := (1, zero)]> (entries t)))) by (rewrite wrap_small; lia).
  assert (E2 : u32 (tombstones t + 1) = Z.of_nat (deleted (<[s := (1, zero)]> (entries t)))) by (rewrite wrap_small; lia).
  splits.
  - split; cbn; [destruct S1 as (p & Hp & E); exists p; rewrite length_insert; auto| |exact E1|exact E2].
    apply es_ok_insert; [exact S2|exact Hl|lia|]. intros [_ H]. contradiction.
  - apply length_insert.
  - lia.
  - lia.
  - intros x w. unfold holds. split.
    + intros (Hx & i & Hi). destruct (decide (i = s)) as [->|Hne].
      * rewrite list_lookup_insert, decide_True in Hi by auto. injection Hi as <- <-. destruct Hx; contradiction.
      * rewrite list_lookup_insert_ne in Hi by congruence. split; [intros ->; apply Hne; eapply (eo_unique _ S2); [exists w; exact Hi|exists v; exact Hs|exact Hk]|eauto].
    + intros (Hne & Hx & i & Hi). split; [exact Hx|]. exists i. rewrite list_lookup_insert_ne; [exact Hi|]. intros <-. congruence.
Qed.

Lemma key_at_cons e es i k : key_at (e :: es) (S i) k <-> key_at es i k.
Proof. reflexivity. Qed.
Lemma holds_cons e es k v : holds (e :: es) k v <-> (is_key k /\ e = (k, v)) \/ holds es k v.
Proof.
  unfold holds. split.
  - intros (Hk & [|i] & Hi); cbn in Hi; [injection Hi as ->; auto|right; eauto].
  - intros [(Hk & ->)|(Hk & i & Hi)]; split; auto; [exists 0%nat; reflexivity|exists (S i); exact Hi].
Qed.

(** The entries in use arrive in the new array. *)
Lemma reinsert_ok old : forall t, sized t -> tombstones t = 0 -> (used (entries t) + used old < length (entries t))%nat ->
  (forall i j k, key_at old i k -> key_at old j k -> is_key k -> i = j) -> (forall k i j, key_at (entries t) i k -> is_key k -> ~ key_at old j k) ->
  exists t', reinsert old (entries t) (count t) = Some (entries t', count t') /\ sized t' /\ tombstones t' = 0 /\
    length (entries t') = length (entries t) /\ used (entries t') = (used (entries t) + used old)%nat /\
    forall k v, holds (entries t') k v <-> holds (entries t) k v \/ holds old k v.
Proof.
  induction old as [|e old IH]; intros t Ht Htomb Hroom Huniq Hdisj.
  { exists t. splits; auto. intros k v. split; [auto|intros [H|(_ & i & Hi)]; [exact H|discriminate]]. }
  cbn [reinsert]. rewrite countb_cons in Hroom.
  assert (Huniq' : forall i j k, key_at old i k -> key_at old j k -> is_key k -> i = j).
  { intros i j k Hi Hj Hk. assert (S i = S j) by (eapply Huniq; [apply key_at_cons, Hi|apply key_at_cons, Hj|exact Hk]). lia. }
  destruct (weakmap_entry_is_occupied e) eqn:Eo; cbn [negb].
  - destruct e as [k v]. apply occupied_key in Eo as Hk. cbn [fst] in *. pose proof Ht as [S1 S2 S3 S4].
    assert (Hno : forall i, ~ key_at (entries t) i k) by (intros i Hi; apply (Hdisj k i 0%nat Hi Hk); exists v; reflexivity).
    destruct (find_slot_spec (entries t) k S1 S2 Hk) as [(s & _ & Hs)|(s & -> & _ & Hfree & Hpath)]; [apply has_empty; lia|exfalso; eapply Hno, Hs|].
    destruct (fill_sized t s k v Ht Hk Hno Hfree Hpath) as (F1 & F2 & F3 & F4 & F5). set (t1 := fill_slot t s k v) in *.
    assert (Htomb1 : tombstones t1 = 0) by (pose proof (sz_tombs _ F1); lia).
    assert (U1 : (used (entries t1) = used (entries t) + 1)%nat) by (pose proof (sz_count _ F1); lia).
    destruct (IH t1) as (t' & E & G1 & G2 & G3 & G4 & G5); auto; [lia| |].
    + intros x i j Hi Hx Hj. apply key_at_insert in Hi; [|destruct Hpath as (d & _ & -> & _); apply pos_lt, S1].
      destruct Hi as [(-> & ->)|(Hne & Hi)].
      * assert (0%nat = S j) by (eapply (Huniq 0%nat (S j) k); [exists v; reflexivity|exact Hj|exact Hk]). lia.
      * eapply (Hdisj x i (S j)); eassumption.
    + exists t'. split; [exact E|]. rewrite countb_cons, Eo. splits; auto; [lia|lia|].
      intros x w. rewrite G5, F5, holds_cons. split.
      * intros [[(-> & ->)|(_ & H)]|H]; auto.
      * intros [H|[(Hx & [= -> ->])|H]]; auto. left. right. split; [|exact H]. intros ->. destruct (holds_key_at _ _ _ H) as [i Hi]. eapply Hno, Hi.
  - assert (Hnk : ~ is_key e.1) by (rewrite <- occupied_key, Eo; discriminate).
    destruct (IH t) as (t' & E & G1 & G2 & G3 & G4 & G5); auto.
    { intros k i j Hi Hk Hj. eapply (Hdisj k i (S j)); eassumption. }
    exists t'. rewrite countb_cons, Eo. splits; auto. intros k v. rewrite G5, holds_cons.
    split; [intros [H|H]; auto|intros [H|[(Hk & ->)|H]]; auto; contradiction].
Qed.

Context (calloc_ok : Z -> bool).

Lemma rehash_ok t c : (exists k, 3 <= k <= 31 /\ c = 2 ^ k) -> (forall i j k, key_at (entries t) i k -> key_at (entries t) j k -> is_key k -> i = j) ->
  Z.of_nat (used (entries t)) < c ->
  if calloc_ok (c * 16) then
    exists t', rehash zero calloc_ok t c = Some (true, t') /\ sized t' /\ tombstones t' = 0 /\ capacity t' = c /\ count t' = Z.of_nat (used (entries t)) /\
      forall k v, holds (entries t') k v <-> holds (entries t) k v
  else rehash zero calloc_ok t c = Some (false, t).
Proof.
  intros (p & Hp & ->) Huniq Hroom. unfold rehash. destruct (calloc_ok (2 ^ p * 16)); cbn [negb]; [|reflexivity].
  set (n := Z.to_nat (2 ^ p)). assert (Hn : Z.of_nat n = 2 ^ p) by (unfold n; lia).
  set (t0 := Table (replicate n (0, zero)) 0 0).
  assert (U0 : used (entries t0) = 0%nat) by (apply countb_replicate; reflexivity).
  assert (S0 : sized t0).
  { split; cbn [t0 entries count tombstones]; [exists p; rewrite length_replicate; auto|apply es_ok_empty|rewrite countb_replicate by reflexivity; reflexivity|].
    rewrite countb_replicate by reflexivity. reflexivity. }
  assert (L0 : length (entries t0) = n) by apply length_replicate.
  destruct (reinsert_ok (entries t) t0 S0 eq_refl) as (t' & E & G1 & G2 & G3 & G4 & G5); [lia|exact Huniq| |].
  { intros k i j Hi [Hk0 _]. exfalso. apply Hk0. destruct Hi as [v [[= -> _] _]%lookup_replicate]. reflexivity. }
  change (reinsert (entries t) (replicate n (0, zero)) 0) with (reinsert (entries t) (entries t0) (count t0)). rewrite E.
  exists t'. replace (Table (entries t') (count t') 0) with t' by (destruct t'; cbn in *; congruence). splits; auto.
  - unfold capacity. rewrite G3, L0. exact Hn.
  - rewrite (sz_count _ G1), G4, U0. reflexivity.
  - intros k v. rewrite G5. split; [intros [([Hk0 _] & i & Hi)|H]; [|exact H]|auto].
    apply lookup_replicate in Hi as [[= -> _] _]. contradiction.
Qed.

End Contents.

(** ** WeakMap tables implement finite maps *)

Section Refinement.
Implicit Types (t : table Z) (m : gmap Z Z).

(** Less than three quarters of the slots are in use or deleted. *)
Definition table_ok t : Prop :=
  (entries t = [] /\ count t = 0 /\ tombstones t = 0) \/ (sized t /\ 4 * (count t + tombstones t) < 3 * capacity t).
Definition models t m : Prop := forall k v, m !! k = Some v <-> holds (entries t) k v.

Lemma ok_room t : sized t -> 4 * (count t + tombstones t) < 3 * capacity t ->
  exists i, key_at (entries t) i 0.
Proof. intros [S1 _ S3 S4] Hl. apply has_empty. unfold capacity in *. lia. Qed.

Lemma models_insert t t' m k v : models t m -> (forall x w, holds (entries t') x w <-> (x = k /\ w = v) \/ (x <> k /\ holds (entries t) x w)) ->
  models t' (<[k := v]> m).
Proof.
  intros Hm H x w. rewrite H, <- (Hm x w). destruct (decide (x = k)) as [->|Hne].
  - rewrite lookup_insert, decide_True by reflexivity. split; [intros [= ->]; auto|intros [(_ & ->)|(Hn & _)]; [reflexivity|contradiction]].
  - rewrite lookup_insert_ne by congruence. split; [auto|intros [(-> & _)|(_ & Hw)]; [contradiction|exact Hw]].
Qed.
Lemma models_delete t t' m k : models t m -> (forall x w, holds (entries t') x w <-> x <> k /\ holds (entries t) x w) -> models t' (delete k m).
Proof.
  intros Hm H x w. rewrite H, <- (Hm x w). destruct (decide (x = k)) as [->|Hne].
  - rewrite lookup_delete, decide_True by reflexivity. split; [discriminate|intros [Hn _]; contradiction].
  - rewrite lookup_delete_ne by congruence. tauto.
Qed.
Lemma models_key_at t m k i : models t m -> key_at (entries t) i k -> is_key k -> exists v, entries t !! i = Some (k, v) /\ m !! k = Some v.
Proof. intros Hm [v Hv] Hk. exists v. split; [exact Hv|]. apply Hm. split; [exact Hk|eauto]. Qed.
Lemma models_none t m k : models t m -> (forall i, ~ key_at (entries t) i k) -> m !! k = None.
Proof. intros Hm Hno. destruct (m !! k) as [v|] eqn:E; [|reflexivity]. apply Hm, holds_key_at in E as [i Hi]. exfalso. eapply Hno, Hi. Qed.

(** Lookup finds the slot. *)
Lemma find_models t m k : table_ok t -> models t m -> is_key k ->
  (exists s v, table_find t k = Some (Some s) /\ entries t !! s = Some (k, v) /\ m !! k = Some v /\ sized t) \/ (table_find t k = Some None /\ m !! k = None).
Proof.
  intros [(E0 & _)|[S Hl]] Hm Hk; unfold table_find.
  { right. unfold capacity. rewrite E0. split; [reflexivity|]. apply (models_none t); [exact Hm|]. rewrite E0. intros i [v Hv]. discriminate. }
  pose proof (size_pos _ (sz_size _ S)). unfold capacity in *. destruct (Z.eqb_spec (Z.of_nat (length (entries t))) 0); [lia|].
  destruct (find_slot_spec (entries t) k (sz_size _ S) (sz_ok _ S) Hk (ok_room t S Hl)) as [(s & -> & Hs)|(s & -> & Hno & _)].
  - left. destruct (models_key_at t m k s Hm Hs Hk) as (v & Hv & Ev). eauto 6.
  - right. split; [reflexivity|]. eapply models_none; eassumption.
Qed.

(** A value replaced in its slot. *)
Lemma update_sized t s k v w : sized t -> is_key k -> entries t !! s = Some (k, w) ->
  let t' := Table (<[s := (k, v)]> (entries t)) (count t) (tombstones t) in
  sized t' /\ forall x u, holds (entries t') x u <-> (x = k /\ u = v) \/ (x <> k /\ holds (entries t) x u).
Proof.
  intros [S1 S2 S3 S4] Hk Hs. pose proof (lookup_lt_Some _ _ _ Hs) as Hl. cbn.
  assert (Hno : forall i, i <> s -> ~ key_at (entries t) i k) by (intros i Hi Hki; apply Hi; eapply (eo_unique _ S2); [exact Hki|exists w; exact Hs|exact Hk]).
  pose proof (countb_insert weakmap_entry_is_occupied _ s _ (k, v) Hs) as C1. pose proof (countb_insert is_deleted_entry _ s _ (k, v) Hs) as C2.
  change (weakmap_entry_is_occupied (k, w)) with (weakmap_entry_is_occupied (k, v)) in C1. change (is_deleted_entry (k, w)) with (is_deleted_entry (k, v)) in C2.
  split; [split; cbn|].
  - destruct S1 as (p & Hp & E). exists p. rewrite length_insert. auto.
  - apply es_ok_insert; [exact S2|exact Hl|apply Hk|]. intros _. split; [|exact Hno]. apply (eo_path _ S2); [exists w; exact Hs|exact Hk].
  - rewrite S3. f_equal. destruct (weakmap_entry_is_occupied (k, v)); lia.
  - rewrite S4. f_equal. destruct (is_deleted_entry (k, v)); lia.
  - intros x u. apply holds_insert; auto. intros y u' Hy _. congruence.
Qed.

Lemma size_double t : size_ok (entries t) -> capacity t <= UINT32_MAX_half -> exists k, 3 <= k <= 31 /\ capacity t * 2 = 2 ^ k.
Proof.
  intros (k & Hk & E) Hc. unfold capacity in *. rewrite E in *. exists (k + 1). rewrite Z.pow_add_r by lia. split; [|lia].
  assert (k <> 31) by (intros ->; change UINT32_MAX_half with 2147483647 in Hc; lia). lia.
Qed.

Context (calloc_ok : Z -> bool).

(** The outcome of an operation that may be refused. *)
Definition stored t m k v (r : option (bool * table Z)) : Prop :=
  exists b t', r = Some (b, t') /\ table_ok t' /\ models t' (if b then <[k := v]> m else m) /\
    (b = false -> t' = t /\ needs_room t = true /\ (2 ^ 31 <= capacity t \/ exists n, calloc_ok n = false)).

(** The new entry after a rehash. *)
Lemma rehash_fill t m k v c : sized t -> 4 * (count t + tombstones t) < 3 * capacity t -> models t m -> is_key k -> (forall i, ~ key_at (entries t) i k) ->
  (exists p, 3 <= p <= 31 /\ c = 2 ^ p) -> 4 * (count t + 1) < 3 * c -> needs_room t = true ->
  stored t m k v (match weakmap_table_rehash calloc_ok t c with
                  | None => None
                  | Some (false, t) => Some (false, t)
                  | Some (true, t) => match find_slot (entries t) k with None => None | Some (_, slot) => Some (true, fill_slot t slot k v) end
                  end).
Proof.
  intros S Hl Hm Hk Hno Hp Hc Hnr. pose proof (sz_count _ S) as Hn.
  pose proof (rehash_ok 0 calloc_ok t c Hp (eo_unique _ (sz_ok _ S)) ltac:(lia)) as R. unfold weakmap_table_rehash. destruct (calloc_ok _) eqn:Ec.
  2: { rewrite R. do 2 eexists. split; [reflexivity|]. splits; [right; auto|exact Hm|eauto 6]. }
  destruct R as (t1 & -> & S1 & T1 & C1 & N1 & M1).
  destruct (find_slot_spec (entries t1) k (sz_size _ S1) (sz_ok _ S1) Hk (ok_room t1 S1 ltac:(lia))) as [(s1 & _ & Hs1)|(s1 & -> & Hno1 & Hfree1 & Hpath1)].
  { exfalso. destruct Hs1 as [w Hw]. assert (Hh : holds (entries t) k w) by (apply M1; split; eauto). destruct (holds_key_at _ _ _ Hh) as [i Hi]. eapply Hno, Hi. }
  destruct (fill_sized t1 s1 k v S1 Hk Hno1 Hfree1 Hpath1) as (F1 & F2 & F3 & F4 & F5). do 2 eexists. split; [reflexivity|].
  splits; [right; split; [exact F1|]; unfold capacity in *; rewrite F2; lia| |discriminate].
  apply (models_insert t); [exact Hm|]. intros x w. rewrite F5, M1. reflexivity.
Qed.

Lemma store_in_ok t m k v : sized t -> 4 * (count t + tombstones t) < 3 * capacity t -> models t m -> is_key k ->
  stored t m k v (store_in calloc_ok t k v).
Proof.
  intros S Hl Hm Hk. unfold store_in. pose proof (size_pos _ (sz_size _ S)) as H8.
  destruct (find_slot_spec (entries t) k (sz_size _ S) (sz_ok _ S) Hk (ok_room t S Hl)) as [(s & -> & Hs)|(s & -> & Hno & Hfree & Hpath)].
  { destruct Hs as [w Hw]. destruct (update_sized t s k v w S Hk Hw) as [U1 U2]. do 2 eexists. split; [reflexivity|]. splits; [|eapply models_insert; eassumption|discriminate].
    right. split; [exact U1|]. unfold capacity in *. cbn. rewrite length_insert. exact Hl. }
  pose proof (sz_count _ S) as Hc. pose proof (sz_tombs _ S) as Ht. destruct (needs_room t) eqn:Hr; unfold needs_room in Hr; boolprop.
  2: { destruct (fill_sized t s k v S Hk Hno Hfree Hpath) as (F1 & F2 & F3 & F4 & F5). do 2 eexists. split; [reflexivity|].
       splits; [|eapply models_insert; eassumption|discriminate]. right. split; [exact F1|]. unfold capacity in *. rewrite F2. lia. }
  destruct (Z.leb_spec (tombstones t) (count t)) as [Htc|Htc]; cbn [andb].
  - destruct (Z.ltb_spec UINT32_MAX_half (capacity t)) as [Hbig|Hbig].
    { do 2 eexists. split; [reflexivity|]. splits; [right; auto|exact Hm|]. intros _. splits; [reflexivity|unfold needs_room; apply Z.leb_le; lia|]. left. change UINT32_MAX_half with 2147483647 in Hbig. lia. }
    apply rehash_fill; auto; [apply size_double; [apply S|exact Hbig]|unfold capacity in *; lia|unfold needs_room; apply Z.leb_le; lia].
  - apply rehash_fill; auto; [apply S|unfold capacity in *; lia|unfold needs_room; apply Z.leb_le; lia].
Qed.
(** ** The operations *)

(** Every table in order stands for a map. *)
Lemma entries_map (es : list (Z * Z)) : (forall i j k, key_at es i k -> key_at es j k -> is_key k -> i = j) -> exists m : gmap Z Z, forall k v, m !! k = Some v <-> holds es k v.
Proof.
  induction es as [|[k0 v0] es IH]; intros Hu.
  { exists ∅. intros k v. rewrite lookup_empty. split; [discriminate|intros (_ & i & Hi); discriminate]. }
  destruct IH as [m Hm]. { intros i j k Hi Hj Hk. assert (S i = S j) by (eapply Hu; [apply key_at_cons, Hi|apply key_at_cons, Hj|exact Hk]). lia. }
  destruct (weakmap_entry_is_occupied (k0, v0)) eqn:Eo.
  - apply (occupied_key (k0, v0)) in Eo. cbn in Eo. exists (<[k0 := v0]> m). intros k v. rewrite holds_cons. destruct (decide (k = k0)) as [->|Hne].
    + rewrite lookup_insert, decide_True by reflexivity. split; [intros [= ->]; auto|]. intros [(_ & [= ->])|(_ & i & Hi)]; [reflexivity|].
      assert (0%nat = S i) by (eapply Hu; [exists v0; reflexivity|exists v; exact Hi|exact Eo]). discriminate.
    + rewrite lookup_insert_ne, Hm by congruence. split; [auto|]. intros [(_ & [= -> ->])|H]; [contradiction|exact H].
  - exists m. intros k v. rewrite holds_cons, Hm. split; [auto|]. intros [(Hk & [= -> ->])|H]; [|exact H]. apply (occupied_key (k, v)) in Hk. congruence.
Qed.
Lemma table_models t : table_ok t -> exists m, models t m.
Proof. intros [(E & _)|[S _]]; apply entries_map; [rewrite E; intros i j k [v Hv]; discriminate|apply (eo_unique _ (sz_ok _ S))]. Qed.

Lemma empty_ok : table_ok empty_table /\ models empty_table ∅.
Proof. split; [left; auto|]. intros k v. rewrite lookup_empty. split; [discriminate|intros (_ & i & Hi); discriminate]. Qed.

Lemma find_ok t m b k : table_ok t -> models t m -> is_key k -> weakmap_table_find (WeakMapTable t b) k = Some (m !! k).
Proof.
  intros Ht Hm Hk. unfold weakmap_table_find. cbn [wm]. destruct (find_models t m k Ht Hm Hk) as [(s & v & -> & Hs & -> & _)|(-> & ->)]; [|reflexivity].
  rewrite Hs. reflexivity.
Qed.

Lemma table_store_ok t m p k v : table_ok t -> models t m -> is_key k ->
  exists b t', weakmap_table_store calloc_ok (WeakMapTable t p) k v = Some (b, WeakMapTable t' p) /\ table_ok t' /\ models t' (if b then <[k := v]> m else m) /\
    (b = false -> t' = t /\ (2 ^ 31 <= capacity t \/ exists n, calloc_ok n = false)).
Proof.
  intros [(E0 & C0 & T0)|[S Hl]] Hm Hk; unfold weakmap_table_store; cbn [wm gc_prune_pending].
  - unfold capacity at 1. rewrite E0. change (Z.of_nat (length []) =? 0) with true. cbv iota.
    assert (U0 : countb weakmap_entry_is_occupied (entries t) = 0%nat) by (rewrite E0; reflexivity).
    assert (H8 : exists q, 3 <= q <= 31 /\ 8 = 2 ^ q) by (exists 3; split; [lia|reflexivity]).
    pose proof (rehash_ok 0 calloc_ok t 8 H8) as R. rewrite U0 in R. unfold weakmap_table_rehash.
    destruct (calloc_ok (8 * 16)) eqn:Ec.
    + destruct R as (t1 & -> & S1 & T1 & C1 & N1 & M1); [rewrite E0; intros i j x [w Hw]; discriminate|lia|].
      assert (Hm1 : models t1 m) by (intros x w; rewrite M1; apply Hm).
      destruct (store_in_ok t1 m k v S1) as (b & t' & -> & Ht' & Hm' & Hb); [lia|exact Hm1|exact Hk|].
      destruct b; [do 2 eexists; split; [reflexivity|]; splits; auto; discriminate|]. exfalso. destruct (Hb eq_refl) as (_ & Hn & _).
      unfold needs_room in Hn. boolprop. lia.
    + rewrite R; [|rewrite E0; intros i j x [w Hw]; discriminate|lia]. do 2 eexists. split; [reflexivity|]. splits; [left; auto|exact Hm|]. intros _. split; [reflexivity|eauto].
  - pose proof (size_pos _ (sz_size _ S)) as H8. destruct (Z.eqb_spec (capacity t) 0); [unfold capacity in *; lia|].
    destruct (store_in_ok t m k v S Hl Hm Hk) as (b & t' & -> & Ht' & Hm' & Hb). do 2 eexists. split; [reflexivity|]. splits; auto. intros E. destruct (Hb E) as (H1 & _ & H2). auto.
Qed.

Lemma table_delete_ok t m p k : table_ok t -> models t m -> is_key k ->
  exists t', weakmap_table_delete (WeakMapTable t p) k = Some (bool_decide (is_Some (m !! k)), WeakMapTable t' p) /\ table_ok t' /\ models t' (delete k m).
Proof.
  intros Ht Hm Hk. unfold weakmap_table_delete. cbn [wm gc_prune_pending]. destruct (find_models t m k Ht Hm Hk) as [(s & v & -> & Hs & -> & S)|(-> & Hno)].
  - destruct (clear_sized 0 t s k v S Hk Hs) as (F1 & F2 & F3 & F4 & F5). eexists. split; [reflexivity|]. split; [|eapply models_delete; eassumption].
    right. split; [exact F1|]. unfold capacity. rewrite F2, F3, F4. destruct Ht as [(E0 & _)|[_ Hl]]; [rewrite E0 in Hs; discriminate|]. unfold capacity in Hl. lia.
  - rewrite Hno. exists t. splits; [reflexivity|exact Ht|]. rewrite delete_id by exact Hno. exact Hm.
Qed.

Lemma finish_prune_ok t m p : table_ok t -> models t m ->
  exists t', weakmap_table_finish_prune calloc_ok (WeakMapTable t p) = Some (WeakMapTable t' false) /\ table_ok t' /\ models t' m.
Proof.
  intros Ht Hm. unfold weakmap_table_finish_prune. cbn [wm]. destruct ((capacity t =? 0) || (tombstones t =? 0)) eqn:E0; [eauto|]. boolprop.
  destruct Ht as [(E & _ & _)|[S Hl]]; [unfold capacity in *; rewrite E in *; cbn in *; lia|]. pose proof S as [S1 S2 S3 S4]. pose proof (size_pos _ S1) as H8.
  destruct (Z.eqb_spec (count t) 0) as [C0|C0].
  - eexists. split; [reflexivity|]. split.
    + right. split; [split; cbn; [destruct S1 as (q & Hq & E); exists q; rewrite length_replicate; auto|apply es_ok_empty|rewrite countb_replicate by reflexivity; lia|rewrite countb_replicate by reflexivity; lia]|].
      unfold capacity. cbn. rewrite length_replicate. lia.
    + intros k v. rewrite (Hm k v). split.
      * intros (Hk & i & Hi). exfalso. pose proof (countb_insert weakmap_entry_is_occupied _ i _ (0, 0) Hi) as C. rewrite (proj2 (occupied_key (k, v)) Hk) in C. change (weakmap_entry_is_occupied (0, 0)) with false in C. cbv iota in C. lia.
      * intros ([Hk0 _] & i & [[= -> _] _]%lookup_replicate). contradiction.
  - destruct (Z.ltb_spec (count t) (tombstones t)) as [Hct|Hct]; [|exists t; splits; [reflexivity|right; auto|exact Hm]].
    pose proof (rehash_ok 0 calloc_ok t (capacity t) S1 (eo_unique _ S2) ltac:(unfold capacity in *; lia)) as R. unfold weakmap_table_rehash. destruct (calloc_ok _).
    + destruct R as (t1 & -> & G1 & G2 & G3 & G4 & G5). exists t1. splits; [reflexivity|right; split; [exact G1|lia]|]. intros k v. rewrite G5. apply Hm.
    + rewrite R. exists t. splits; [reflexivity|right; auto|exact Hm].
Qed.

Lemma prune_slots_ok alive n : forall i t, (i + n = length (entries t))%nat -> sized t -> let t' := prune_slots alive n i t in
  sized t' /\ length (entries t') = length (entries t) /\ count t' + tombstones t' = count t + tombstones t /\
  forall x w, holds (entries t') x w <-> is_key x /\ exists j, entries t !! j = Some (x, w) /\ ((i <= j)%nat -> alive x = true).
Proof.
  induction n as [|n IH]; intros i t Hi S; cbn [prune_slots].
  { splits; auto. intros x w. unfold holds. split.
    - intros (Hx & j & Hj). split; [exact Hx|]. exists j. split; [exact Hj|]. intros Hle. apply lookup_lt_Some in Hj. lia.
    - intros (Hx & j & Hj & _). eauto. }
  destruct (lookup_lt_is_Some_2 (entries t) i ltac:(lia)) as [[k v] Hv]. rewrite Hv. cbn [fst].
  destruct (weakmap_entry_is_occupied (k, v) && negb (alive k)) eqn:E.
  - apply andb_true_iff in E as [Ho Ha]. apply occupied_key in Ho as Hk. apply negb_true_iff in Ha. cbn [fst] in Hk.
    destruct (clear_sized 0 t i k v S Hk Hv) as (F1 & F2 & F3 & F4 & _). destruct (IH (Datatypes.S i) (clear_slot 0 t i)) as (G1 & G2 & G3 & G4); [rewrite F2; lia|exact F1|].
    splits; [exact G1|congruence|lia|]. intros x w. rewrite G4. cbn [clear_slot entries]. split.
    + intros (Hx & j & Hj & Hal). split; [exact Hx|]. exists j. destruct (decide (j = i)) as [->|Hne].
      * rewrite list_lookup_insert, decide_True in Hj by (split; [reflexivity|lia]). injection Hj as <- <-. destruct Hx; contradiction.
      * rewrite list_lookup_insert_ne in Hj by congruence. split; [exact Hj|]. intros. apply Hal. lia.
    + intros (Hx & j & Hj & Hal). split; [exact Hx|]. exists j. destruct (decide (j = i)) as [->|Hne].
      * rewrite Hv in Hj. injection Hj as -> ->. rewrite Hal in Ha by lia. discriminate.
      * rewrite list_lookup_insert_ne by congruence. split; [exact Hj|]. intros. apply Hal. lia.
  - destruct (IH (Datatypes.S i) t) as (G1 & G2 & G3 & G4); [lia|exact S|]. splits; auto. intros x w. rewrite G4.
    split; intros (Hx & j & Hj & Hal); (split; [exact Hx|]); exists j; (split; [exact Hj|]); intros Hle; [|apply Hal; lia].
    destruct (decide (j = i)) as [->|Hne]; [|apply Hal; lia]. rewrite Hv in Hj. injection Hj as -> ->. apply andb_false_iff in E as [E|E].
    + rewrite (proj2 (occupied_key (x, w)) Hx) in E. discriminate.
    + apply negb_false_iff in E. exact E.
Qed.

(** A collection drops the entries whose keys are dead and no others. *)
Lemma table_prune_ok alive t m p : table_ok t -> models t m ->
  exists t', prune_weakmap calloc_ok alive (WeakMapTable t p) = Some (WeakMapTable t' false) /\ table_ok t' /\ models t' (filter (fun kv => alive kv.1 = true) m).
Proof.
  intros Ht Hm. unfold prune_weakmap. cbn [wm gc_prune_pending]. apply finish_prune_ok.
  - destruct Ht as [(E & H1 & H2)|[S Hl]]; [rewrite E; left; auto|]. destruct (prune_slots_ok alive (length (entries t)) 0 t eq_refl S) as (G1 & G2 & G3 & _).
    right. split; [exact G1|]. unfold capacity in *. rewrite G2. lia.
  - intros k v. rewrite map_lookup_filter_Some, (Hm k v). cbn [fst]. destruct Ht as [(E & H1 & H2)|[S Hl]].
    + rewrite E. cbn [length prune_slots]. rewrite E. unfold holds. split; [intros ((_ & i & Hi) & _); discriminate|intros (_ & i & Hi); discriminate].
    + destruct (prune_slots_ok alive (length (entries t)) 0 t eq_refl S) as (_ & _ & _ & ->). unfold holds. split.
      * intros ((Hk & i & Hi) & Ha). eauto.
      * intros (Hk & i & Hi & Ha). split; [eauto|apply Ha; lia].
Qed.

End Refinement.

(** ** Runs *)

(** Tables and the finite maps they stand for, through any sequence of
    operations; memory may be refused differently at each of them. *)
Inductive table_run : weakmap_table_t -> gmap Z Z -> Prop :=
| run_new : table_run weakmap_table_new ∅
| run_store ok t m k v b t' : table_run t m -> is_key k -> weakmap_table_store ok t k v = Some (b, t') -> table_run t' (if b : bool then <[k := v]> m else m)
| run_delete t m k b t' : table_run t m -> is_key k -> weakmap_table_delete t k = Some (b, t') -> table_run (WeakMapTable (wm t') true) (delete k m)
| run_finish ok t m t' : table_run t m -> weakmap_table_finish_prune ok t = Some t' -> table_run t' m
| run_prune ok alive t m t' : table_run t m -> prune_weakmap ok alive t = Some t' -> table_run t' (filter (fun kv => alive kv.1 = true) m).

Lemma table_run_ok t m : table_run t m -> table_ok (wm t) /\ models (wm t) m.
Proof.
  induction 1 as [|ok [t p] m k v b t' _ [Ht Hm] Hk E|[t p] m k b t' _ [Ht Hm] Hk E|ok [t p] m t' _ [Ht Hm] E|ok alive [t p] m t' _ [Ht Hm] E]; cbn [wm] in *.
  - apply empty_ok.
  - destruct (table_store_ok ok t m p k v Ht Hm Hk) as (b1 & t1 & E1 & H1 & H2 & _). rewrite E in E1. injection E1 as <- ->. auto.
  - destruct (table_delete_ok t m p k Ht Hm Hk) as (t1 & E1 & H1 & H2). rewrite E in E1. injection E1 as _ ->. auto.
  - destruct (finish_prune_ok ok t m p Ht Hm) as (t1 & E1 & H1 & H2). rewrite E in E1. injection E1 as ->. auto.
  - destruct (table_prune_ok ok alive t m p Ht Hm) as (t1 & E1 & H1 & H2). rewrite E in E1. injection E1 as ->. auto.
Qed.

(** C10: the table of a WeakMap is a finite map.  After any sequence of stores,
    deletions and collections, with memory refused at any of them, every search
    ends, a lookup returns exactly what the map holds under the key, a deletion
    says whether the key was there, a collection ends, and a store ends and
    fails only when memory is refused or the table has its largest size. *)
Theorem weakmap_table_refines t m : table_run t m ->
  (forall k, is_key k -> weakmap_table_find t k = Some (m !! k) /\ (exists t', weakmap_table_delete t k = Some (bool_decide (is_Some (m !! k)), t')) /\
     forall ok v, exists b t', weakmap_table_store ok t k v = Some (b, t') /\ (b = false -> t' = t /\ (2 ^ 31 <= capacity (wm t) \/ exists n, ok n = false))) /\
  forall ok alive, exists t', prune_weakmap ok alive t = Some t' /\ gc_prune_pending t' = false.
Proof.
  intros H. destruct (table_run_ok t m H) as [Ht Hm]. destruct t as [t p]. cbn [wm] in *. split.
  - intros k Hk. splits; [apply find_ok; assumption| |].
    + destruct (table_delete_ok t m p k Ht Hm Hk) as (t' & E & _). eauto.
    + intros ok v. destruct (table_store_ok ok t m p k v Ht Hm Hk) as (b & t' & E & _ & _ & Hb). do 2 eexists. split; [exact E|]. intros Eb. destruct (Hb Eb) as [-> Hr]. auto.
  - intros ok alive. destruct (table_prune_ok ok alive t m p Ht Hm) as (t' & E & _). eauto.
Qed.

(** Two entries, of which a collection drops one. *)
Lemma weakmap_table_refines_witness : exists t1 t2 t3,
  weakmap_table_store (fun _ => true) weakmap_table_new 16 5 = Some (true, t1) /\ weakmap_table_store (fun _ => true) t1 24 7 = Some (true, t2) /\
  prune_weakmap (fun _ => true) (fun k => k =? 24) t2 = Some t3 /\
  weakmap_table_find t3 24 = Some (filter (fun kv => (kv.1 =? 24) = true) (<[24 := 7]> (<[16 := 5]> (∅ : gmap Z Z))) !! 24).
Proof.
  do 3 eexists. split; [vm_compute; reflexivity|]. split; [vm_compute; reflexivity|]. split; [vm_compute; reflexivity|].
  apply weakmap_table_refines; [|split; lia].
  apply (run_prune (fun _ => true) (fun k => k =? 24) _ _ _ (run_store (fun _ => true) _ _ 24 7 true _ (run_store (fun _ => true) _ _ 16 5 true _ run_new ltac:(split; lia) eq_refl) ltac:(split; lia) eq_refl)).
  vm_compute. reflexivity.
Defined.
