(* ===== verification/WeakGc.v ===== *)
(** * Weak collections in the collector

    [src/src/gc/weak.c] with the marking functions of [src/src/gc/objects.c]
    it calls: ephemerons are kept in a list of pending pairs with an index by
    key, and a value is marked when its key is.  The heap during a collection
    is a finite map of objects; the values an object or a closure refers to
    ([gc_scan_obj], [gc_mark_closure]) are the parameters [scan] and [cvals].
    [None] is a run that does not end within the fuel, or that reads outside
    an array.  [malloc_ok n] says whether [n] bytes can be allocated for the
    tables of this file, [stack_ok n] whether the mark stack can grow to [n]
    bytes. *)

From S2P Require Import Prelude Value WeakTable.

(** ** Values *)

(** The types of [GC_OBJ_TYPE_MASK]. *)
Definition is_gc_obj_type (t : Z) : bool := (t =? T_OBJ) || (t =? T_ARR) || (t =? T_PROMISE) || (t =? T_GENERATOR).

(** What a value refers to, as far as this file is concerned. *)
Inductive ref := RObj (a : Z) | RFunc (c : Z) | RSym (s : Z) | RCfunc | RNone.
Definition ref_of (v : Z) : ref :=
  if v <=? NANBOX_PREFIX then RNone
  else
    let t := (v .>> NANBOX_TYPE_SHIFT) .& NANBOX_TYPE_MASK in
    let d := v .& NANBOX_DATA_MASK in
    if t =? T_FUNC then RFunc d
    else if t =? T_SYMBOL then RSym d
    else if t =? T_CFUNC then RCfunc
    else if is_gc_obj_type t then RObj d
    else RNone.

(** ** The heap *)

Inductive gnative := NoNative | MapNative (t : weakmap_table_t) | SetNative (values : list Z) | RefNative (target : Z).
(** [generation] is true for an old object. *)
Record gobj := GObj { type_tag : Z; generation : bool; gc_permanent : bool; native : gnative }.
Definition with_native (o : gobj) (n : gnative) : gobj := GObj (type_tag o) (generation o) (gc_permanent o) n.

Record minor_edge := Edge { e_owner : Z; e_key : Z; e_value : Z; e_kind : Z }.

(** [pt_next] is the array [next] up to its capacity; in the index a key has
    the head of its chain, one more than the position of a pair, or 0. *)
Record pending_table := Pending { pt_pairs : list (Z * Z); pt_cap : Z; pt_next : list Z; pt_index : table Z }.

(** [gs_marked], [gs_cmarked] and [gs_smarked] are the objects, closures and
    symbols marked in this cycle; the top of the mark stack comes first. *)
Record gstate := GState {
  gs_objs : gmap Z gobj; gs_marked : gset Z; gs_cmarked : gset Z; gs_smarked : gset Z;
  gs_stack : list Z; gs_stack_cap : Z;
  gs_collections : list Z; gs_edges : list minor_edge;
  gs_registry_overflow : bool; gs_edge_overflow : bool;
  gs_pending : option pending_table; gs_active : bool; gs_oom : bool }.

Definition set_stack (st : gstate) (m : gset Z) (s : list Z) (cap : Z) : gstate :=
  GState (gs_objs st) m (gs_cmarked st) (gs_smarked st) s cap (gs_collections st) (gs_edges st) (gs_registry_overflow st) (gs_edge_overflow st)
    (gs_pending st) (gs_active st) (gs_oom st).
Definition set_cmarked (st : gstate) (c : gset Z) : gstate :=
  GState (gs_objs st) (gs_marked st) c (gs_smarked st) (gs_stack st) (gs_stack_cap st) (gs_collections st) (gs_edges st) (gs_registry_overflow st)
    (gs_edge_overflow st) (gs_pending st) (gs_active st) (gs_oom st).
Definition set_smarked (st : gstate) (s : gset Z) : gstate :=
  GState (gs_objs st) (gs_marked st) (gs_cmarked st) s (gs_stack st) (gs_stack_cap st) (gs_collections st) (gs_edges st) (gs_registry_overflow st)
    (gs_edge_overflow st) (gs_pending st) (gs_active st) (gs_oom st).
Definition set_objs (st : gstate) (o : gmap Z gobj) : gstate :=
  GState o (gs_marked st) (gs_cmarked st) (gs_smarked st) (gs_stack st) (gs_stack_cap st) (gs_collections st) (gs_edges st) (gs_registry_overflow st)
    (gs_edge_overflow st) (gs_pending st) (gs_active st) (gs_oom st).
Definition set_pending (st : gstate) (p : option pending_table) (active oom : bool) : gstate :=
  GState (gs_objs st) (gs_marked st) (gs_cmarked st) (gs_smarked st) (gs_stack st) (gs_stack_cap st) (gs_collections st) (gs_edges st)
    (gs_registry_overflow st) (gs_edge_overflow st) p active oom.
Definition set_registry (st : gstate) (l : list Z) (overflow : bool) (edges : list minor_edge) (edge_overflow : bool) : gstate :=
  GState (gs_objs st) (gs_marked st) (gs_cmarked st) (gs_smarked st) (gs_stack st) (gs_stack_cap st) l edges overflow edge_overflow
    (gs_pending st) (gs_active st) (gs_oom st).

(** ** The code *)

Section Code.
Context (scan cvals : Z -> list Z) (closures : gset Z) (closure_old sym_permanent : Z -> bool).
Context (malloc_ok stack_ok : Z -> bool) (minor : bool).

(** *** Marking *)

Definition GC_MARK_STACK_INIT : Z := 4096.

Definition gc_mark_stack_push (st : gstate) (marked : gset Z) (a : Z) : gstate :=
  if gs_stack_cap st <=? Z.of_nat (length (gs_stack st)) then
    let new_cap := if gs_stack_cap st =? 0 then GC_MARK_STACK_INIT else gs_stack_cap st * 2 in
    if stack_ok (new_cap * 8) then set_stack st marked (a :: gs_stack st) new_cap
    else set_stack st marked (gs_stack st) (gs_stack_cap st)
  else set_stack st marked (a :: gs_stack st) (gs_stack_cap st).

Definition gc_grey_obj (st : gstate) (a : Z) : gstate :=
  match gs_objs st !! a with
  | None => st
  | Some o =>
      if bool_decide (a ∈ gs_marked st) then st
      else if minor && generation o then st
      else gc_mark_stack_push st ({[a]} ∪ gs_marked st) a
  end.

Definition gc_weak_key_alive (st : gstate) (key : Z) : bool :=
  match ref_of key with
  | RCfunc => true
  | RFunc c => bool_decide (c ∈ closures) && ((minor && closure_old c) || bool_decide (c ∈ gs_cmarked st))
  | RSym s => if minor then true else sym_permanent s || bool_decide (s ∈ gs_smarked st)
  | RObj a =>
      match gs_objs st !! a with
      | None => false
      | Some o => (minor && generation o) || bool_decide (a ∈ gs_marked st) || gc_permanent o
      end
  | RNone => false
  end.

Definition gc_weak_collection_live (st : gstate) (a : Z) : bool :=
  match gs_objs st !! a with
  | None => false
  | Some o => (minor && generation o) || bool_decide (a ∈ gs_marked st) || gc_permanent o
  end.

Definition gc_weak_key_from_marked_object (o : gobj) (a : Z) : Z :=
  if (type_tag o =? T_ARR) || (type_tag o =? T_PROMISE) || (type_tag o =? T_GENERATOR) then mkval (type_tag o) a else mkval T_OBJ a.

(** The chain of pairs of one key. *)
Fixpoint mark_chain (mark : gstate -> Z -> option gstate) (n : nat) (st : gstate) (next : Z) : option gstate :=
  match n with
  | O => None
  | S n =>
      if next =? 0 then Some st
      else
        match gs_pending st with
        | None => None
        | Some p =>
            let i := Z.to_nat (next - 1) in
            match pt_next p !! i, pt_pairs p !! i with
            | Some next, Some (_, v) => match mark st v with Some st => mark_chain mark n st next | None => None end
            | _, _ => None
            end
        end
  end.

Definition gc_weak_key_marked (mark : gstate -> Z -> option gstate) (st : gstate) (key : Z) : option gstate :=
  if negb (gs_active st) then Some st
  else
    match gs_pending st with
    | None => Some st
    | Some p =>
        if capacity (pt_index p) =? 0 then Some st
        else
          match find_slot (entries (pt_index p)) key with
          | None => None
          | Some (false, _) => Some st
          | Some (true, slot) =>
              let head := match entries (pt_index p) !! slot with Some (_, h) => h | None => 0 end in
              let st := set_pending st (Some (Pending (pt_pairs p) (pt_cap p) (pt_next p) (clear_slot 0 (pt_index p) slot))) (gs_active st) (gs_oom st) in
              mark_chain mark (S (length (pt_pairs p))) st head
          end
    end.

(** The values of a list, in turn. *)
Fixpoint mark_all (mark : gstate -> Z -> option gstate) (vs : list Z) (st : gstate) : option gstate :=
  match vs with
  | [] => Some st
  | v :: vs => match mark st v with Some st => mark_all mark vs st | None => None end
  end.

(** [gc_mark_value], with [gc_mark_closure] in its first branch. *)
Fixpoint gc_mark_value (fuel : nat) (st : gstate) (v : Z) : option gstate :=
  match fuel with
  | O => None
  | S fuel =>
      match ref_of v with
      | RFunc c =>
          if (c =? 0) || bool_decide (c ∈ gs_cmarked st) then Some st
          else
            let st := set_cmarked st ({[c]} ∪ gs_cmarked st) in
            match (if gs_active st then gc_weak_key_marked (gc_mark_value fuel) st (mkval T_FUNC c) else Some st) with
            | None => None
            | Some st => mark_all (gc_mark_value fuel) (cvals c) st
            end
      | RSym s =>
          if (s =? 0) || bool_decide (s ∈ gs_smarked st) then Some st
          else
            let st := set_smarked st ({[s]} ∪ gs_smarked st) in
            if gs_active st then gc_weak_key_marked (gc_mark_value fuel) st v else Some st
      | RObj a => Some (if a =? 0 then st else gc_grey_obj st a)
      | RCfunc | RNone => Some st
      end
  end.

(** *** Pending pairs *)

Definition gc_weak_pending_ensure_next (p : pending_table) (cap : Z) : bool * pending_table :=
  if cap <=? zlen (pt_next p) then (true, p)
  else if negb (malloc_ok (cap * 4)) then (false, p)
  else (true, Pending (pt_pairs p) (pt_cap p) (pt_next p ++ replicate (Z.to_nat cap - length (pt_next p)) 0) (pt_index p)).

(** The slot of a key in the index, which is made when there is none. *)
Definition index_slot (idx : table Z) (key : Z) : option (bool * table Z * nat) :=
  match find_slot (entries idx) key with
  | None => None
  | Some (true, slot) => Some (true, idx, slot)
  | Some (false, slot) =>
      if needs_room idx then
        if UINT32_MAX_half <? capacity idx then Some (false, idx, slot)
        else
          match rehash 0 malloc_ok idx (capacity idx * 2) with
          | None => None
          | Some (false, idx) => Some (false, idx, slot)
          | Some (true, idx) =>
              match find_slot (entries idx) key with
              | None => None
              | Some (_, slot) => Some (true, fill_slot idx slot key 0, slot)
              end
          end
      else Some (true, fill_slot idx slot key 0, slot)
  end.

(** The pair becomes the first of the chain of its key. *)
Definition link_pair (p : pending_table) (idx : table Z) (slot i : nat) : option pending_table :=
  match entries idx !! slot with
  | None => None
  | Some (k, head) =>
      if (i <? length (pt_next p))%nat then
        Some (Pending (pt_pairs p) (pt_cap p) (<[i := head]> (pt_next p))
                (Table (<[slot := (k, Z.of_nat i + 1)]> (entries idx)) (count idx) (tombstones idx)))
      else None
  end.

Definition gc_weak_pending_index_add (p : pending_table) (i : nat) : option (bool * pending_table) :=
  match pt_pairs p !! i with
  | None => None
  | Some (key, _) =>
      match (if capacity (pt_index p) =? 0 then rehash 0 malloc_ok (pt_index p) 64 else Some (true, pt_index p)) with
      | None => None
      | Some (false, _) => Some (false, p)
      | Some (true, idx) =>
          match index_slot idx key with
          | None => None
          | Some (false, idx, _) => Some (false, Pending (pt_pairs p) (pt_cap p) (pt_next p) idx)
          | Some (true, idx, slot) => option_map (pair true) (link_pair p idx slot i)
          end
      end
  end.

(** [sizeof(gc_weak_pending_table_t)] is 48. *)
Definition gc_weak_pending_get (st : gstate) : option pending_table :=
  match gs_pending st with
  | Some p => Some p
  | None => if malloc_ok 48 then Some (Pending [] 0 [] empty_table) else None
  end.

Definition grow_pairs (p : pending_table) : option pending_table :=
  if Z.of_nat (length (pt_pairs p)) =? pt_cap p then
    let new_capacity := if pt_cap p =? 0 then 64 else u32 (pt_cap p * 2) in
    if new_capacity <? pt_cap p then None
    else if negb (malloc_ok (new_capacity * 16)) then None
    else Some (Pending (pt_pairs p) new_capacity (pt_next p) (pt_index p))
  else Some p.

Definition set_oom (st : gstate) (p : option pending_table) : gstate := set_pending st p (gs_active st) true.

Definition gc_weak_add_pending (st : gstate) (key value : Z) : option gstate :=
  match gc_weak_pending_get st with
  | None => Some (set_oom st (gs_pending st))
  | Some p =>
      match grow_pairs p with
      | None => Some (set_oom st (Some p))
      | Some p =>
          let i := length (pt_pairs p) in
          let p := Pending (pt_pairs p ++ [(key, value)]) (pt_cap p) (pt_next p) (pt_index p) in
          if gs_active st then
            let '(ok, p) := gc_weak_pending_ensure_next p (pt_cap p) in
            if negb ok then Some (set_oom st (Some p))
            else match gc_weak_pending_index_add p i with
                 | None => None
                 | Some (true, p) => Some (set_pending st (Some p) (gs_active st) (gs_oom st))
                 | Some (false, p) => Some (set_oom st (Some p))
                 end
          else Some (set_pending st (Some p) (gs_active st) (gs_oom st))
      end
  end.

(** *** Collections *)

Section Fuel.
Context (F : nat).
Abbreviation mark := (gc_mark_value F).

(** The entries of one WeakMap. *)
Fixpoint process_entries (es : list (Z * Z)) (st : gstate) : option gstate :=
  match es with
  | [] => Some st
  | e :: es =>
      let st' :=
        if negb (weakmap_entry_is_occupied e) then Some st
        else if gs_oom st then mark_all mark [e.1; e.2] st
        else if gc_weak_key_alive st e.1 then mark st e.2
        else gc_weak_add_pending st e.1 e.2 in
      match st' with Some st => process_entries es st | None => None end
  end.

Definition gc_weak_process_map (st : gstate) (a : Z) : option gstate :=
  match gs_objs st !! a with
  | Some o =>
      if type_tag o =? T_WEAKMAP then
        match native o with MapNative t => process_entries (entries (wm t)) st | _ => Some st end
      else Some st
  | None => Some st
  end.

(** [gc_weak_collection_marked] is called with the mark function set. *)
Definition gc_weak_collection_marked (st : gstate) (a : Z) : option gstate := gc_weak_process_map st a.

(** One object popped from the mark stack. *)
Definition drain_step (st : gstate) (a : Z) : option gstate :=
  match gs_objs st !! a with
  | None => None
  | Some o =>
      match gc_weak_key_marked mark st (gc_weak_key_from_marked_object o a) with
      | None => None
      | Some st =>
          match gc_weak_collection_marked st a with
          | None => None
          | Some st => mark_all mark (scan a) st
          end
      end
  end.

Fixpoint gc_drain_mark_stack_weak (fuel : nat) (st : gstate) : option gstate :=
  match gs_stack st with
  | [] => Some st
  | a :: s =>
      match fuel with
      | O => None
      | S fuel =>
          match drain_step (set_stack st (gs_marked st) s (gs_stack_cap st)) a with
          | Some st => gc_drain_mark_stack_weak fuel st
          | None => None
          end
      end
  end.
Abbreviation drain := (gc_drain_mark_stack_weak F).

Fixpoint index_all (n i : nat) (p : pending_table) : option (bool * pending_table) :=
  match n with
  | O => Some (true, p)
  | S n =>
      match gc_weak_pending_index_add p i with
      | Some (true, p) => index_all n (S i) p
      | r => r
      end
  end.

(** The keys that were marked before the index was made. *)
Fixpoint notify_keys (pairs : list (Z * Z)) (st : gstate) : option gstate :=
  match pairs with
  | [] => Some st
  | (key, _) :: pairs =>
      match (if gc_weak_key_alive st key then gc_weak_key_marked mark st key else Some st) with
      | Some st => notify_keys pairs st
      | None => None
      end
  end.

(** False when memory is refused. *)
Definition gc_weak_prepare_pending (st : gstate) : option (bool * gstate) :=
  match gs_pending st with
  | None => Some (true, st)
  | Some p =>
      if (length (pt_pairs p) =? 0)%nat then Some (true, st)
      else if negb (existsb (fun kv => gc_weak_key_alive st kv.1) (pt_pairs p)) then Some (true, st)
      else
        let '(ok, p) := gc_weak_pending_ensure_next p (pt_cap p) in
        if negb ok then Some (false, set_pending st (Some p) (gs_active st) (gs_oom st))
        else
          match index_all (length (pt_pairs p)) 0 p with
          | None => None
          | Some (false, p) => Some (false, set_pending st (Some p) (gs_active st) (gs_oom st))
          | Some (true, p) => option_map (pair true) (notify_keys (pt_pairs p) (set_pending st (Some p) true (gs_oom st)))
          end
  end.

Definition gc_weak_clear_pending (st : gstate) : gstate :=
  match gs_pending st with
  | None => st
  | Some p =>
      set_pending st (Some (Pending [] (pt_cap p) (pt_next p) (Table (replicate (length (entries (pt_index p))) (0, 0)) 0 0))) (gs_active st) (gs_oom st)
  end.

Definition occupied_values (t : weakmap_table_t) : list Z :=
  flat_map (fun e => if weakmap_entry_is_occupied e then [e.1; e.2] else []) (entries (wm t)).

Definition gc_weak_mark_all_in_collection (st : gstate) (a : Z) : option gstate :=
  match gs_objs st !! a with
  | None => Some st
  | Some o =>
      match (match native o with RefNative target => mark st target | _ => Some st end) with
      | None => None
      | Some st =>
          if type_tag o =? T_WEAKMAP then match native o with MapNative t => mark_all mark (occupied_values t) st | _ => Some st end
          else if type_tag o =? T_WEAKSET then match native o with SetNative vs => mark_all mark vs st | _ => Some st end
          else Some st
      end
  end.

Definition gc_weak_prune_collection (st : gstate) (a : Z) : option gstate :=
  match gs_objs st !! a with
  | None => Some st
  | Some o =>
      let alive := gc_weak_key_alive st in
      let store n := set_objs st (<[a := with_native o n]> (gs_objs st)) in
      match native o with
      | RefNative target => Some (if alive target then st else store (RefNative js_mkundef))
      | MapNative t => if type_tag o =? T_WEAKMAP then option_map (fun t => store (MapNative t)) (prune_weakmap malloc_ok alive t) else Some st
      | SetNative vs => Some (if type_tag o =? T_WEAKSET then store (SetNative (List.filter alive vs)) else st)
      | NoNative => Some st
      end
  end.

(** *** Minor collections *)

Fixpoint gc_weak_process_minor_edges (es : list minor_edge) (st : gstate) : option gstate :=
  match es with
  | [] => Some st
  | e :: es =>
      let st' :=
        match gs_objs st !! e_owner e with
        | None => Some st
        | Some _ =>
            if e_kind e =? T_WEAKMAP then
              if gc_weak_key_alive st (e_key e) then mark st (e_value e) else gc_weak_add_pending st (e_key e) (e_value e)
            else Some st
        end in
      match st' with Some st => gc_weak_process_minor_edges es st | None => None end
  end.

Fixpoint prune_edges (es : list minor_edge) (st : gstate) : option gstate :=
  match es with
  | [] => Some st
  | e :: es =>
      let st' :=
        match gs_objs st !! e_owner e with
        | None => Some st
        | Some o =>
            if gc_weak_key_alive st (e_key e) then Some st
            else
              let store n := set_objs st (<[e_owner e := with_native o n]> (gs_objs st)) in
              if e_kind e =? T_WEAKMAP then
                match native o with
                | MapNative t =>
                    match weakmap_table_delete t (e_key e) with
                    | None => None
                    | Some (true, t) => Some (store (MapNative (WeakMapTable (wm t) true)))
                    | Some (false, _) => Some st
                    end
                | _ => Some st
                end
              else if e_kind e =? T_WEAKSET then
                match native o with
                | SetNative vs => Some (store (SetNative (List.filter (fun v => negb (v =? e_key e)) vs)))
                | _ => Some st
                end
              else Some st
        end in
      match st' with Some st => prune_edges es st | None => None end
  end.

Fixpoint finish_edges (es : list minor_edge) (st : gstate) : option gstate :=
  match es with
  | [] => Some st
  | e :: es =>
      let st' :=
        match gs_objs st !! e_owner e with
        | Some o =>
            match native o with
            | MapNative t =>
                if (e_kind e =? T_WEAKMAP) && gc_prune_pending t then
                  option_map (fun t => set_objs st (<[e_owner e := with_native o (MapNative t)]> (gs_objs st))) (weakmap_table_finish_prune malloc_ok t)
                else Some st
            | _ => Some st
            end
        | None => Some st
        end in
      match st' with Some st => finish_edges es st | None => None end
  end.
Definition gc_weak_prune_minor_edges (st : gstate) : option gstate :=
  match prune_edges (gs_edges st) st with Some st => finish_edges (gs_edges st) st | None => None end.

(** *** The whole *)

(** [f] on every element of a list that passes a test in the state reached. *)
Fixpoint each (test : gstate -> Z -> bool) (f : gstate -> Z -> option gstate) (l : list Z) (st : gstate) : option gstate :=
  match l with
  | [] => Some st
  | a :: l => match (if test st a then f st a else Some st) with Some st => each test f l st | None => None end
  end.

Definition young_or_major (st : gstate) (a : Z) : bool :=
  gc_weak_collection_live st a && (negb minor || negb (match gs_objs st !! a with Some o => generation o | None => false end)).
Definition is_weakmap (st : gstate) (a : Z) : bool := match gs_objs st !! a with Some o => type_tag o =? T_WEAKMAP | None => false end.
Definition gc_weak_is_collection (st : gstate) (a : Z) : bool :=
  match gs_objs st !! a with
  | Some o => (type_tag o =? T_WEAKMAP) || (type_tag o =? T_WEAKSET) || match native o with RefNative _ => true | _ => false end
  | None => false
  end.

(** [objects] lists all objects, young, old and permanent. *)
Context (objects : list Z) (registry_room : Z -> bool).

(** [gc_weak_register] while the registry is rebuilt; [registry_room n] says
    whether it can hold [n] entries. *)
Definition register_all (st : gstate) : list Z * bool :=
  fold_left (fun '(l, over) a =>
    if gc_weak_collection_live st a && gc_weak_is_collection st a && negb over then
      if registry_room (Z.of_nat (length l) + 1) then (l ++ [a], false) else (l, true)
    else (l, over)) objects ([], false).

Definition overflow_path (st : gstate) : option gstate :=
  match each (fun st a => gc_weak_collection_live st a && gc_weak_is_collection st a) gc_weak_mark_all_in_collection objects st with
  | None => None
  | Some st =>
      match drain st with
      | None => None
      | Some st => let '(l, over) := register_all st in Some (set_registry st l over [] false)
      end
  end.

(** The pairs are collected and the mark stack drained, then the keys that
    are marked release their values. *)
Definition ephemerons (st : gstate) : option gstate :=
  match each (fun st a => young_or_major st a && is_weakmap st a) gc_weak_process_map (gs_collections st) (set_pending st (gs_pending st) false false) with
  | None => None
  | Some st =>
      match (if minor then gc_weak_process_minor_edges (gs_edges st) st else Some st) with
      | None => None
      | Some st =>
          match drain st with
          | None => None
          | Some st =>
              match (if gs_oom st then Some (true, st) else gc_weak_prepare_pending st) with
              | None => None
              | Some (ok, st) =>
                  let st := if ok then st else set_oom st (gs_pending st) in
                  if negb (gs_oom st) && gs_active st then drain st else Some st
              end
          end
      end
  end.

Definition finish (st : gstate) : option gstate :=
  let st := gc_weak_clear_pending st in
  let st := set_pending st (gs_pending st) false (gs_oom st) in
  match
    (if gs_oom st then
       match each gc_weak_collection_live gc_weak_mark_all_in_collection (gs_collections st) st with
       | Some st => drain st
       | None => None
       end
     else
       match each young_or_major gc_weak_prune_collection (gs_collections st) st with
       | Some st => if minor then gc_weak_prune_minor_edges st else Some st
       | None => None
       end)
  with
  | None => None
  | Some st => Some (set_registry st (List.filter (gc_weak_collection_live st) (gs_collections st)) (gs_registry_overflow st) [] false)
  end.

Definition gc_weak_process (st : gstate) : option gstate :=
  option_map (fun st => let st := gc_weak_clear_pending st in set_pending st (gs_pending st) false (gs_oom st))
    (if gs_registry_overflow st || (minor && gs_edge_overflow st) then overflow_path st
     else match ephemerons st with Some st => finish st | None => None end).

End Fuel.
End Code.
