(* ===== verification/Ephemeron.v ===== *)
(** * Weak collections: what a collection keeps

    The specification of weak references and the proof that [gc_weak_process]
    of [WeakGc] meets it in a full collection: what is marked at the end is
    what is reachable when the value of a WeakMap entry counts as reachable
    only while both the map and the key are. *)

From stdpp Require Import fin_sets.
From S2P Require Import Prelude Value WeakTable WeakGc.

(** ** Specification *)

Inductive node := NObj (a : Z) | NFunc (c : Z) | NSym (s : Z).

Definition is_marked (st : gstate) (n : node) : Prop :=
  match n with NObj a => a ∈ gs_marked st | NFunc c => c ∈ gs_cmarked st | NSym s => s ∈ gs_smarked st end.

Section Spec.
Context (scan cvals : Z -> list Z) (closures symbols : gset Z) (sym_permanent : Z -> bool) (objs : gmap Z gobj).

(** What a value refers to; pointers outside the heap are ignored. *)
Definition node_of (v : Z) : option node :=
  match ref_of v with
  | RObj a => match objs !! a with Some _ => Some (NObj a) | None => None end
  | RFunc c => if c =? 0 then None else Some (NFunc c)
  | RSym s => if s =? 0 then None else Some (NSym s)
  | _ => None
  end.

Definition permanent (a : Z) : Prop := exists o, objs !! a = Some o /\ gc_permanent o = true.
(** The entries of the WeakMap at an address. *)
Definition map_entry (a k v : Z) : Prop :=
  exists o t, objs !! a = Some o /\ type_tag o = T_WEAKMAP /\ native o = MapNative t /\ (k, v) ∈ entries (wm t) /\ is_key k.

(** Keys that are never collected. *)
Definition always (k : Z) : Prop :=
  match ref_of k with RCfunc => True | RSym s => sym_permanent s = true | RObj a => permanent a | _ => False end.
Definition key_live (R : node -> Prop) (k : Z) : Prop := always k \/ exists n, node_of k = Some n /\ R n.

(** Closed under references; the value of an entry follows its map and its key. *)
Record closed (root R : node -> Prop) : Prop := {
  cl_root : forall n, root n -> R n;
  cl_scan : forall a v n, R (NObj a) -> v ∈ scan a -> node_of v = Some n -> R n;
  cl_cvals : forall c v n, R (NFunc c) -> v ∈ cvals c -> node_of v = Some n -> R n;
  cl_map : forall a k v n, R (NObj a) \/ permanent a -> map_entry a k v -> key_live R k -> node_of v = Some n -> R n }.
Definition reachable (root : node -> Prop) (n : node) : Prop := forall R, closed root R -> R n.

(** Closures and symbols a value refers to exist; a symbol has one encoding. *)
Definition known (v : Z) : Prop :=
  match ref_of v with RFunc c => c = 0 \/ c ∈ closures | RSym s => (s = 0 \/ s ∈ symbols) /\ v = mkval T_SYMBOL s | _ => True end.
(** An object or a closure occurs as a key with one tag only. *)
Definition canonical (k : Z) : Prop :=
  match ref_of k with
  | RObj a => forall o, objs !! a = Some o -> k = gc_weak_key_from_marked_object o a
  | RFunc c => k = mkval T_FUNC c
  | _ => True
  end.
Definition entry_ok (k v : Z) : Prop := is_key k /\ known k /\ known v /\ canonical k.

Record heap_ok : Prop := {
  h_addr : (forall a, is_Some (objs !! a) -> 0 < a < 2 ^ 47) /\ (forall c, c ∈ closures -> 0 < c < 2 ^ 47) /\ (forall s, s ∈ symbols -> 0 < s < 2 ^ 47);
  h_tag : forall a o, objs !! a = Some o -> 0 <= type_tag o < 32;
  h_scan : forall a v, is_Some (objs !! a) -> v ∈ scan a -> known v;
  h_cvals : forall c v, c ∈ closures -> v ∈ cvals c -> known v;
  h_map : forall a o t, objs !! a = Some o -> native o = MapNative t -> table_ok (wm t) /\ forall k v, (k, v) ∈ entries (wm t) -> is_key k -> entry_ok k v;
  h_set : forall a o vs v, objs !! a = Some o -> native o = SetNative vs -> v ∈ vs -> known v;
  h_ref : forall a o v, objs !! a = Some o -> native o = RefNative v -> known v }.

End Spec.

(** ** Encoding of values *)

Definition ref_tag (t d : Z) : ref :=
  if t =? T_FUNC then RFunc d else if t =? T_SYMBOL then RSym d else if t =? T_CFUNC then RCfunc else if is_gc_obj_type t then RObj d else RNone.
Lemma ref_mkval t d : 0 <= t < 32 -> 0 < d < 2 ^ 47 -> ref_of (mkval t d) = ref_tag t d.
Proof.
  intros Ht Hd. unfold ref_of, ref_tag. rewrite mkval_sum by lia. unfold NANBOX_TYPE_SHIFT, NANBOX_TYPE_MASK, NANBOX_DATA_MASK.
  destruct (Z.leb_spec (NANBOX_PREFIX + t * 2 ^ 47 + d) NANBOX_PREFIX); [lia|].
  change 31 with (2 ^ 5 - 1). change 0x00007FFFFFFFFFFF with (2 ^ 47 - 1). rewrite !land_ones_mod, Z.shiftr_div_pow2 by lia.
  change NANBOX_PREFIX with (0xFFF * 32 * 2 ^ 47). replace (0xFFF * 32 * 2 ^ 47 + t * 2 ^ 47 + d) with (d + (0xFFF * 32 + t) * 2 ^ 47) by lia.
  rewrite Z.div_add, Z.mod_add, (Z.div_small d), (Z.mod_small d) by lia. cbn [Z.add]. replace (0 + (0xFFF * 32 + t)) with (t + 0xFFF * 32) by lia.
  change (2 ^ 5) with 32. rewrite Z.mod_add, Z.mod_small by lia. reflexivity.
Qed.

(** ** Chains of pending pairs *)

Inductive chain (pairs : list (Z * Z)) (next : list Z) (k : Z) : Z -> list nat -> Prop :=
| chain_nil : chain pairs next k 0 []
| chain_cons i v h l : pairs !! i = Some (k, v) -> next !! i = Some h -> 0 <= h <= Z.of_nat i -> chain pairs next k h l ->
    chain pairs next k (Z.of_nat i + 1) (i :: l).

Definition indexed (p : pending_table) (i : nat) : Prop :=
  exists k v h l, pt_pairs p !! i = Some (k, v) /\ holds (entries (pt_index p)) k h /\ chain (pt_pairs p) (pt_next p) k h l /\ i ∈ l.

Lemma chain_fun pairs next k h l l' : chain pairs next k h l -> chain pairs next k h l' -> l = l'.
Proof.
  intros H. revert l'. induction H as [|i v h l Hp Hn Hr Hc IH]; intros l' H'; inversion H' as [E|i' v' h' l2 Hp' Hn' Hr' Hc' E]; subst; try lia; [reflexivity|].
  assert (i' = i) by lia. subst i'. rewrite Hn in Hn'. injection Hn' as <-. f_equal. apply IH, Hc'.
Qed.
Lemma chain_below pairs next k h l : chain pairs next k h l -> forall j, j ∈ l -> Z.of_nat j < h.
Proof.
  induction 1 as [|i v h l Hp Hn Hr Hc IH]; intros j Hj; [inversion Hj|]. apply elem_of_cons in Hj as [->|Hj]; [lia|]. specialize (IH j Hj). lia.
Qed.
Lemma chain_length pairs next k h l : chain pairs next k h l -> 0 <= h -> Z.of_nat (length l) <= h.
Proof. induction 1 as [|i v h l Hp Hn Hr Hc IH]; cbn [length]; [lia|]. intros _. specialize (IH ltac:(lia)). lia. Qed.
Lemma chain_range pairs next k h l : chain pairs next k h l -> 0 <= h <= Z.of_nat (length pairs).
Proof. induction 1 as [|i v h l Hp Hn Hr Hc IH]; [lia|]. apply lookup_lt_Some in Hp. lia. Qed.
Lemma chain_pairs pairs next k h l j : chain pairs next k h l -> j ∈ l -> exists v, pairs !! j = Some (k, v).
Proof. induction 1 as [|i v h l Hp Hn Hr Hc IH]; intros Hj; [inversion Hj|]. apply elem_of_cons in Hj as [->|Hj]; eauto. Qed.
(** Writing a cell that is not on a chain, or adding pairs, does not change it. *)
Lemma chain_frame pairs pairs' next next' k h l : chain pairs next k h l -> (forall i x, pairs !! i = Some x -> pairs' !! i = Some x) ->
  (forall i, i ∈ l -> next' !! i = next !! i) -> chain pairs' next' k h l.
Proof.
  induction 1 as [|i v h l Hp Hn Hr Hc IH]; intros Hpp Hnn; [constructor|]. econstructor; [apply Hpp, Hp| |exact Hr|].
  - rewrite Hnn; [exact Hn|left].
  - apply IH; [exact Hpp|]. intros j Hj. apply Hnn. right. exact Hj.
Qed.

Record pend_ok (closures symbols : gset Z) (objs : gmap Z gobj) (p : pending_table) : Prop := {
  pk_table : table_ok (pt_index p);
  pk_chain : forall k h, holds (entries (pt_index p)) k h -> exists l, chain (pt_pairs p) (pt_next p) k h l;
  pk_cap : Z.of_nat (length (pt_pairs p)) <= pt_cap p < 2 ^ 32;
  pk_entry : forall k v, (k, v) ∈ pt_pairs p -> entry_ok closures symbols objs k v }.

(** ** The index of pending pairs *)

Section Index.
Context (malloc_ok : Z -> bool) (closures symbols : gset Z) (objs : gmap Z gobj).
Abbreviation pend_ok := (pend_ok closures symbols objs).

Definition roomy (t : table Z) : Prop := sized t /\ 4 * (count t + tombstones t) < 3 * capacity t.

Lemma index_fill idx k s : roomy idx -> is_key k -> (forall i, ~ key_at (entries idx) i k) -> key_at (entries idx) s 0 \/ key_at (entries idx) s 1 ->
  on_path (entries idx) k s -> 4 * (count idx + tombstones idx + 1) < 3 * capacity idx ->
  roomy (fill_slot idx s k 0) /\ entries (fill_slot idx s k 0) !! s = Some (k, 0) /\
  forall x w, holds (entries (fill_slot idx s k 0)) x w <-> (x = k /\ w = 0) \/ (x <> k /\ holds (entries idx) x w).
Proof.
  intros [S Hl] Hk Hno Hfree Hpath Hroom. destruct (fill_sized idx s k 0 S Hk Hno Hfree Hpath) as (F1 & F2 & F3 & F4 & F5). splits; [split; [exact F1|]| |exact F5].
  - unfold capacity in *. rewrite F2. lia.
  - unfold fill_slot. cbn [entries]. rewrite list_lookup_insert, decide_True; [reflexivity|]. split; [reflexivity|]. destruct Hfree as [[v Hv]|[v Hv]]; eapply lookup_lt_Some, Hv.
Qed.

Lemma index_slot_ok idx k : roomy idx -> is_key k -> exists b idx' s, index_slot malloc_ok idx k = Some (b, idx', s) /\ roomy idx' /\
  (b = false -> idx' = idx) /\
  (b = true -> exists h, entries idx' !! s = Some (k, h) /\
     ((holds (entries idx) k h /\ idx' = idx) \/
      (h = 0 /\ (forall w, ~ holds (entries idx) k w) /\ forall x w, holds (entries idx') x w <-> (x = k /\ w = 0) \/ (x <> k /\ holds (entries idx) x w)))).
Proof.
  intros [S Hl] Hk. unfold index_slot. pose proof (size_pos _ (sz_size _ S)) as H8.
  destruct (find_slot_spec (entries idx) k (sz_size _ S) (sz_ok _ S) Hk (ok_room _ S Hl)) as [(s & -> & [h Hs])|(s & -> & Hno & Hfree & Hpath)].
  { exists true, idx, s. splits; [reflexivity|split; assumption|discriminate|]. intros _. exists h. split; [exact Hs|]. left. split; [split; eauto|reflexivity]. }
  assert (Hno' : forall w, ~ holds (entries idx) k w) by (intros w (_ & i & Hi); eapply Hno; exists w; exact Hi).
  destruct (needs_room idx) eqn:Hr; unfold needs_room in Hr; boolprop.
  2: { destruct (index_fill idx k s) as (F1 & F2 & F3); auto; [split; assumption|lia|]. do 3 eexists. split; [reflexivity|]. splits; [exact F1|discriminate|]. intros _. exists 0. auto 6. }
  destruct (Z.ltb_spec UINT32_MAX_half (capacity idx)) as [Hbig|Hbig].
  { do 3 eexists. split; [reflexivity|]. splits; [split; assumption|reflexivity|discriminate]. }
  pose proof (sz_count _ S) as Hc. pose proof (sz_tombs _ S) as Ht.
  pose proof (rehash_ok 0 malloc_ok idx (capacity idx * 2) (size_double idx (sz_size _ S) Hbig) (eo_unique _ (sz_ok _ S)) ltac:(unfold capacity in *; lia)) as Rh.
  destruct (malloc_ok (capacity idx * 2 * 16)).
  2: { rewrite Rh. do 3 eexists. split; [reflexivity|]. splits; [split; assumption|reflexivity|discriminate]. }
  destruct Rh as (t1 & -> & S1 & T1 & C1 & N1 & M1). assert (Hl1 : 4 * (count t1 + tombstones t1 + 1) < 3 * capacity t1) by (unfold capacity in *; lia).
  assert (Hr1 : roomy t1) by (split; [exact S1|lia]).
  destruct (find_slot_spec (entries t1) k (sz_size _ S1) (sz_ok _ S1) Hk (ok_room _ S1 ltac:(lia))) as [(s1 & _ & [w Hw])|(s1 & -> & Hno1 & Hfree1 & Hpath1)].
  { exfalso. apply (Hno' w), M1. split; eauto. }
  destruct (index_fill t1 k s1 Hr1 Hk Hno1 Hfree1 Hpath1 Hl1) as (F1 & F2 & F3). do 3 eexists. split; [reflexivity|]. splits; [exact F1|discriminate|].
  intros _. exists 0. split; [exact F2|]. right. splits; [reflexivity|exact Hno'|]. intros x w. rewrite F3, M1. reflexivity.
Qed.

Definition below (p : pending_table) (n : nat) : Prop :=
  forall x h l, holds (entries (pt_index p)) x h -> chain (pt_pairs p) (pt_next p) x h l -> forall j, j ∈ l -> (j < n)%nat.

Lemma chain_head pairs next k h l i : chain pairs next k h l -> (forall j, j ∈ l -> (j < i)%nat) -> 0 <= h <= Z.of_nat i.
Proof. intros Hc Hb. inversion Hc as [|j v h' l' Hp Hn Hr Hc' E1 E2]; subst; [lia|]. specialize (Hb j ltac:(left)). lia. Qed.

(** A pair joins the chain of its key. *)
Lemma link_ok p idx s i k v h : pend_ok p -> pt_pairs p !! i = Some (k, v) -> (i < length (pt_next p))%nat -> below p i -> roomy idx ->
  entries idx !! s = Some (k, h) -> is_key k ->
  (holds (entries (pt_index p)) k h \/ (h = 0 /\ forall w, ~ holds (entries (pt_index p)) k w)) ->
  (forall x w, x <> k -> holds (entries idx) x w <-> holds (entries (pt_index p)) x w) ->
  exists p', link_pair p idx s i = Some p' /\ pt_pairs p' = pt_pairs p /\ pt_cap p' = pt_cap p /\ length (pt_next p') = length (pt_next p) /\ pend_ok p' /\
    (forall j, indexed p j -> indexed p' j) /\ indexed p' i /\ below p' (S i) /\ roomy (pt_index p').
Proof.
  intros [P1 P2 P3 P4] Hi Hn Hb [S Hl] Hs Hk Hh Hother. unfold link_pair. rewrite Hs. destruct (Nat.ltb_spec i (length (pt_next p))); [|lia].
  destruct (update_sized idx s k (Z.of_nat i + 1) h S Hk Hs) as [U1 U2]. set (idx' := Table _ _ _) in *. eexists. split; [reflexivity|]. cbn [pt_pairs pt_cap pt_next pt_index].
  set (next' := <[i := h]> (pt_next p)) in *.
  assert (Hframe : forall x w l, holds (entries (pt_index p)) x w -> chain (pt_pairs p) (pt_next p) x w l -> chain (pt_pairs p) next' x w l).
  { intros x w l Hw Hc. eapply chain_frame; [exact Hc|auto|]. intros j Hj. specialize (Hb x w l Hw Hc j Hj). unfold next'. rewrite list_lookup_insert_ne by lia. reflexivity. }
  assert (Hold : exists l, chain (pt_pairs p) next' k h l /\ (forall j, j ∈ l -> (j < i)%nat) /\ (holds (entries (pt_index p)) k h -> chain (pt_pairs p) (pt_next p) k h l)).
  { destruct Hh as [Hh|[-> Hno]].
    - destruct (P2 k h Hh) as [l Hc]. exists l. splits; [apply Hframe; assumption|intros j Hj; eapply Hb; eassumption|auto].
    - exists []. splits; [constructor|intros j Hj; inversion Hj|]. intros Hw. exfalso. eapply Hno, Hw. }
  destruct Hold as (l & Hcl & Hlb & Hlold). pose proof (chain_head _ _ _ _ _ i Hcl Hlb) as Hhr.
  assert (Hnew : chain (pt_pairs p) next' k (Z.of_nat i + 1) (i :: l)).
  { econstructor; [exact Hi| |exact Hhr|exact Hcl]. unfold next'. rewrite list_lookup_insert, decide_True by auto. reflexivity. }
  assert (Hroomy : roomy idx') by (split; [exact U1|]; unfold capacity in *; cbn; rewrite length_insert; exact Hl).
  splits; auto.
  - apply length_insert.
  - split; cbn; [right; exact Hroomy| |exact P3|exact P4]. intros x w Hx. apply U2 in Hx as [(-> & ->)|(Hne & Hw)]; [eauto|].
    apply Hother in Hw; [|exact Hne]. destruct (P2 x w Hw) as [lx Hx]. exists lx. apply Hframe; assumption.
  - intros j (x & vx & w & lx & Hj & Hw & Hc & Hin). destruct (decide (x = k)) as [->|Hne].
    + assert (Ehw : w = h). { destruct Hh as [Hh|[_ Hno]]; [|exfalso; eapply Hno, Hw]. destruct P1 as [(E0 & _)|[S0 _]]; [destruct Hw as (_ & z & Hz); rewrite E0 in Hz; discriminate|].
        destruct Hh as (_ & z1 & X1), Hw as (_ & z2 & X2). assert (z1 = z2) by (eapply (eo_unique _ (sz_ok _ S0)); [exists h; exact X1|exists w; exact X2|exact Hk]). congruence. }
      subst w. rewrite (chain_fun _ _ _ _ _ _ Hc (Hlold Hw)) in Hin. exists k, vx, (Z.of_nat i + 1), (i :: l). splits; [exact Hj|apply U2; auto|exact Hnew|right; exact Hin].
    + exists x, vx, w, lx. splits; [exact Hj|apply U2; right; split; [exact Hne|apply Hother; assumption]|apply Hframe; assumption|exact Hin].
  - exists k, v, (Z.of_nat i + 1), (i :: l). splits; [exact Hi|apply U2; auto|exact Hnew|left].
  - intros x w lx Hx Hc j Hj. cbn in *. apply U2 in Hx as [(-> & ->)|(Hne & Hw)].
    + rewrite (chain_fun _ _ _ _ _ _ Hc Hnew) in Hj. apply elem_of_cons in Hj as [->|Hj]; [lia|]. specialize (Hlb j Hj). lia.
    + apply Hother in Hw; [|exact Hne]. destruct (P2 x w Hw) as [l0 Hl0]. rewrite (chain_fun _ _ _ _ _ _ Hc (Hframe x w l0 Hw Hl0)) in Hj.
      specialize (Hb x w l0 Hw Hl0 j Hj). lia.
Qed.
(** Another table with the same contents. *)
Lemma pend_table p idx : pend_ok p -> roomy idx -> (forall k h, holds (entries idx) k h <-> holds (entries (pt_index p)) k h) ->
  let p' := Pending (pt_pairs p) (pt_cap p) (pt_next p) idx in
  pend_ok p' /\ (forall j, indexed p j -> indexed p' j) /\ forall n, below p n -> below p' n.
Proof.
  intros [P1 P2 P3 P4] Hr Hh p'. splits.
  - split; cbn; [right; exact Hr| |exact P3|exact P4]. intros k h Hk. apply P2, Hh, Hk.
  - intros j (k & v & h & l & Hj & Hk & Hc & Hin). exists k, v, h, l. splits; auto. apply Hh, Hk.
  - intros n Hb k h l Hk. apply (Hb k h l). apply Hh, Hk.
Qed.

Definition joined (p p' : pending_table) : Prop :=
  pt_pairs p' = pt_pairs p /\ pt_cap p' = pt_cap p /\ length (pt_next p') = length (pt_next p) /\ pend_ok p' /\ forall j, indexed p j -> indexed p' j.

Lemma slot_link p i k v : pend_ok p -> roomy (pt_index p) -> pt_pairs p !! i = Some (k, v) -> (i < length (pt_next p))%nat -> below p i ->
  exists b p', match index_slot malloc_ok (pt_index p) k with
    | None => None
    | Some (false, idx, _) => Some (false, Pending (pt_pairs p) (pt_cap p) (pt_next p) idx)
    | Some (true, idx, slot) => option_map (pair true) (link_pair p idx slot i)
    end = Some (b, p') /\ joined p p' /\ (b = true -> indexed p' i /\ below p' (S i)).
Proof.
  intros Pk Hr Hi Hn Hb. assert (Hk : is_key k) by (eapply (pk_entry _ _ _ _ Pk), list_elem_of_lookup_2, Hi).
  destruct (index_slot_ok (pt_index p) k Hr Hk) as (b & idx & s & -> & Hr' & Hf & Ht). destruct b.
  - destruct (Ht eq_refl) as (h & Hs & Hcase).
    assert (Hold : holds (entries (pt_index p)) k h \/ (h = 0 /\ forall w, ~ holds (entries (pt_index p)) k w)) by (destruct Hcase as [[H _]|(H1 & H2 & _)]; auto).
    assert (Hother : forall x w, x <> k -> holds (entries idx) x w <-> holds (entries (pt_index p)) x w).
    { intros x w Hx. destruct Hcase as [[_ ->]|(_ & _ & H)]; [reflexivity|]. rewrite H. split; [intros [[? _]|[_ ?]]; [contradiction|assumption]|auto]. }
    destruct (link_ok p idx s i k v h Pk Hi Hn Hb Hr' Hs Hk Hold Hother) as (p' & -> & L1 & L2 & L3 & L4 & L5 & L6 & L7 & _).
    exists true, p'. split; [reflexivity|]. split; [unfold joined; splits; auto|auto].
  - rewrite (Hf eq_refl). exists false. eexists. split; [reflexivity|]. split; [|discriminate]. destruct p; unfold joined; splits; auto.
Qed.

(** A pair enters the index, or memory is refused. *)
Lemma index_add_ok p i k v : pend_ok p -> pt_pairs p !! i = Some (k, v) -> (i < length (pt_next p))%nat -> below p i ->
  exists b p', gc_weak_pending_index_add malloc_ok p i = Some (b, p') /\ joined p p' /\ (b = true -> indexed p' i /\ below p' (S i)).
Proof.
  intros Pk Hi Hn Hb. unfold gc_weak_pending_index_add. rewrite Hi. destruct (pk_table _ _ _ _ Pk) as [(E0 & C0 & T0)|Hr].
  - unfold capacity. rewrite E0. change (Z.of_nat (length []) =? 0) with true. cbv iota.
    assert (U0 : countb weakmap_entry_is_occupied (entries (pt_index p)) = 0%nat) by (rewrite E0; reflexivity).
    pose proof (rehash_ok 0 malloc_ok (pt_index p) 64) as Rh. rewrite U0 in Rh.
    assert (H64 : exists q, 3 <= q <= 31 /\ 64 = 2 ^ q) by (exists 6; split; [lia|reflexivity]). specialize (Rh H64). specialize (Rh ltac:(rewrite E0; intros x y z [w Hw]; discriminate) ltac:(lia)).
    destruct (malloc_ok (64 * 16)).
    2: { rewrite Rh. exists false, p. split; [reflexivity|]. split; [unfold joined; splits; auto|discriminate]. }
    destruct Rh as (t1 & -> & S1 & T1 & C1 & N1 & M1). assert (Hr1 : roomy t1) by (split; [exact S1|unfold capacity in *; lia]).
    destruct (pend_table p t1 Pk Hr1 M1) as (Q1 & Q2 & Q3). set (p1 := Pending _ _ _ _) in *.
    destruct (slot_link p1 i k v Q1 Hr1 Hi Hn (Q3 i Hb)) as (b & p' & E & (J1 & J2 & J3 & J4 & J5) & Hb').
    exists b, p'. split; [exact E|]. split; [unfold joined; splits; auto|exact Hb'].
  - pose proof (size_pos _ (sz_size _ (proj1 Hr))) as H8. destruct (Z.eqb_spec (capacity (pt_index p)) 0); [unfold capacity in *; lia|]. apply (slot_link p i k v); assumption.
Qed.

Lemma ensure_next_ok p cap : pend_ok p -> exists b p', gc_weak_pending_ensure_next malloc_ok p cap = (b, p') /\ pend_ok p' /\ pt_pairs p' = pt_pairs p /\ pt_cap p' = pt_cap p /\
  pt_index p' = pt_index p /\ (forall j, indexed p j -> indexed p' j) /\ (forall n, below p n -> below p' n) /\ (b = true -> cap <= Z.of_nat (length (pt_next p'))).
Proof.
  intros Pk. unfold gc_weak_pending_ensure_next. destruct (Z.leb_spec cap (zlen (pt_next p))) as [Hc|Hc]; [exists true, p; splits; auto|].
  destruct (malloc_ok (cap * 4)); cbn [negb]; [|exists false, p; splits; auto; discriminate].
  assert (Hfr : forall k h l, chain (pt_pairs p) (pt_next p) k h l -> forall r, chain (pt_pairs p) (pt_next p ++ r) k h l).
  { intros k h l Hl r. induction Hl as [|i v h l Hp Hn Hr Hl IH]; [constructor|]. econstructor; [exact Hp| |exact Hr|exact IH]. rewrite lookup_app_l by (eapply lookup_lt_Some, Hn). exact Hn. }
  exists true. eexists. split; [reflexivity|]. pose proof Pk as [P1 P2 P3 P4]. splits; cbn; auto.
  - split; cbn; auto. intros k h Hk. destruct (P2 k h Hk) as [l Hl]. eauto.
  - intros j (k & v & h & l & Hj & Hk & Hl & Hin). exists k, v, h, l. splits; cbn; auto.
  - intros n Hb k h l Hk Hl j Hj. cbn in *. destruct (P2 k h Hk) as [l0 Hl0]. rewrite (chain_fun _ _ _ _ _ _ Hl (Hfr _ _ _ Hl0 _)) in Hj. eapply Hb; eassumption.
  - intros _. rewrite length_app, length_replicate. unfold zlen in Hc. lia.
Qed.

(** A new pair at the end. *)
Lemma pair_append_ok p k v : pend_ok p -> Z.of_nat (length (pt_pairs p)) < pt_cap p -> entry_ok closures symbols objs k v ->
  let p' := Pending (pt_pairs p ++ [(k, v)]) (pt_cap p) (pt_next p) (pt_index p) in
  pend_ok p' /\ (forall j, indexed p j -> indexed p' j) /\ below p' (length (pt_pairs p)).
Proof.
  intros Pk Hc He p'. pose proof Pk as [P1 P2 P3 P4].
  assert (Hfr : forall x h l, chain (pt_pairs p) (pt_next p) x h l -> chain (pt_pairs p') (pt_next p') x h l).
  { intros x h l Hl. eapply chain_frame; [exact Hl| |auto]. intros i y Hy. cbn. rewrite lookup_app_l by (eapply lookup_lt_Some, Hy). exact Hy. }
  splits.
  - split; cbn; auto; [|rewrite length_app; cbn; lia|].
    + intros x h Hx. destruct (P2 x h Hx) as [l Hl]. eauto.
    + intros x w Hin. apply elem_of_app in Hin as [Hin|Hin]; [auto|]. apply list_elem_of_singleton in Hin as [= -> ->]. exact He.
  - intros j (x & w & h & l & Hj & Hx & Hl & Hin). exists x, w, h, l. splits; auto. cbn. rewrite lookup_app_l by (eapply lookup_lt_Some, Hj). exact Hj.
  - intros x h l Hx Hl j Hj. destruct (P2 x h Hx) as [l0 Hl0]. rewrite (chain_fun _ _ _ _ _ _ Hl (Hfr _ _ _ Hl0)) in Hj.
    destruct (chain_pairs _ _ _ _ _ _ Hl0 Hj) as [w Hw]. eapply lookup_lt_Some, Hw.
Qed.

(** The array of pairs has room for one more, or memory is refused. *)
Lemma grow_ok p : pend_ok p -> match grow_pairs malloc_ok p with
  | None => True
  | Some p' => pend_ok p' /\ pt_pairs p' = pt_pairs p /\ pt_next p' = pt_next p /\ pt_index p' = pt_index p /\ Z.of_nat (length (pt_pairs p)) < pt_cap p'
  end.
Proof.
  intros Pk. pose proof Pk as [P1 P2 P3 P4]. unfold grow_pairs. destruct (Z.eqb_spec (Z.of_nat (length (pt_pairs p))) (pt_cap p)) as [E|E]; [|splits; auto; lia].
  set (c := if pt_cap p =? 0 then 64 else u32 (pt_cap p * 2)). destruct (Z.ltb_spec c (pt_cap p)) as [|Hc]; [exact I|]. destruct (malloc_ok (c * 16)); cbn [negb]; [|exact I].
  assert (Hnew : pt_cap p < c < 2 ^ 32).
  { unfold c in *. destruct (Z.eqb_spec (pt_cap p) 0) as [E0|E0]; [lia|]. unfold u32, wrap in *. pose proof (Z.mod_pos_bound (pt_cap p * 2) (2 ^ 32) ltac:(lia)) as Hm.
    destruct (Z.lt_ge_cases (pt_cap p * 2) (2 ^ 32)) as [Hs|Hs]; [rewrite Z.mod_small in *; lia|].
    assert (Em : (pt_cap p * 2) mod 2 ^ 32 = pt_cap p * 2 - 2 ^ 32) by (symmetry; apply (Z.mod_unique _ _ 1); lia). lia. }
  splits; cbn; auto; [|lia]. split; cbn; auto. lia.
Qed.

(** The index is built. *)
Lemma index_all_ok n : forall i p, pend_ok p -> (i + n = length (pt_pairs p))%nat -> (length (pt_pairs p) <= length (pt_next p))%nat -> below p i -> (forall j, (j < i)%nat -> indexed p j) ->
  exists b p', index_all malloc_ok n i p = Some (b, p') /\ pend_ok p' /\ pt_pairs p' = pt_pairs p /\ (b = true -> forall j, (j < length (pt_pairs p))%nat -> indexed p' j).
Proof.
  induction n as [|n IH]; intros i p Pk Hi Hn Hb Hd; cbn [index_all].
  { exists true, p. splits; auto. intros _ j Hj. apply Hd. lia. }
  destruct (lookup_lt_is_Some_2 (pt_pairs p) i) as [[k v] Hk]; [lia|]. destruct (index_add_ok p i k v Pk Hk) as (b & p1 & -> & (J1 & J2 & J3 & J4 & J5) & J6); [lia|exact Hb|].
  destruct b; [|exists false, p1; splits; auto; discriminate]. destruct (J6 eq_refl) as [K1 K2].
  destruct (IH (S i) p1 J4) as (b & p2 & -> & L1 & L2 & L3); [rewrite J1; lia|rewrite J1, J3; exact Hn|exact K2| |].
  - intros j Hj. destruct (Nat.eq_dec j i) as [->|]; [exact K1|]. apply J5, Hd. lia.
  - exists b, p2. rewrite L2, J1. rewrite J1 in L3. auto.
Qed.

(** The pairs are dropped and the index emptied. *)
Lemma clear_ok p : pend_ok p -> let p' := Pending [] (pt_cap p) (pt_next p) (Table (replicate (length (entries (pt_index p))) (0, 0)) 0 0) in
  pend_ok p' /\ forall k h, ~ holds (entries (pt_index p')) k h.
Proof.
  intros [P1 P2 P3 P4] p'. assert (Hno : forall k h, ~ holds (entries (pt_index p')) k h).
  { intros k h ([H0 _] & i & Hi). apply lookup_replicate in Hi as [[= -> _] _]. contradiction. }
  split; [|exact Hno]. split; cbn; [|intros k h H; destruct (Hno k h H)|pose proof (Zle_0_nat (length (pt_pairs p))); lia|intros k v H; inversion H].
  destruct P1 as [(E & _ & _)|[[S1 S2 S3 S4] Hl]]; [rewrite E; left; auto|]. right. pose proof (size_pos _ S1). split; [split; cbn|].
  - destruct S1 as (q & Hq & Eq). exists q. rewrite length_replicate. auto.
  - apply es_ok_empty.
  - rewrite countb_replicate by reflexivity. reflexivity.
  - rewrite countb_replicate by reflexivity. reflexivity.
  - unfold capacity. cbn. rewrite length_replicate. lia.
Qed.
End Index.

Lemma size_take_out (X Y : gset Z) a : a ∈ X -> a ∉ Y -> size (X ∖ Y) = S (size (X ∖ ({[a]} ∪ Y))).
Proof.
  intros Hx Hy. assert (E : X ∖ Y = {[a]} ∪ X ∖ ({[a]} ∪ Y)).
  { apply set_eq. intros x. rewrite elem_of_union, !elem_of_difference, elem_of_union, elem_of_singleton. destruct (decide (x = a)) as [->|]; tauto. }
  rewrite E at 1. rewrite size_union, size_singleton; [reflexivity|]. intros x. rewrite elem_of_singleton, elem_of_difference, elem_of_union, elem_of_singleton. tauto.
Qed.

Lemma size_difference_le (X Y : gset Z) : (size (X ∖ Y) <= size X)%nat.
Proof. apply subseteq_size. intros x Hx. apply elem_of_difference in Hx. apply Hx. Qed.

(** ** Marking *)

Section Marking.
Context (scan cvals : Z -> list Z) (closures symbols : gset Z) (closure_old sym_permanent : Z -> bool) (objs : gmap Z gobj).
Context (stack_ok : Z -> bool) (root R : node -> Prop).
Hypothesis Hheap : heap_ok scan cvals closures symbols objs.
Hypothesis Hstack : forall n, stack_ok n = true.
Hypothesis HR : closed scan cvals sym_permanent objs root R.

Abbreviation known := (known closures symbols).
Abbreviation canonical := (canonical objs).
Abbreviation entry_ok := (entry_ok closures symbols objs).
Abbreviation node_of := (node_of objs).
Abbreviation key_live := (key_live sym_permanent objs R).
Abbreviation pend_ok := (pend_ok closures symbols objs).
Abbreviation alive := (gc_weak_key_alive closures closure_old sym_permanent false).
Abbreviation grey := (gc_grey_obj stack_ok false).
Abbreviation mark := (gc_mark_value cvals stack_ok false).

Definition marked_val (st : gstate) (v : Z) : Prop := forall n, node_of v = Some n -> is_marked st n.
Definition in_R (v : Z) : Prop := forall n, node_of v = Some n -> R n.

(** A key whose marking the pairs still wait for. *)
Definition waiting (st : gstate) (k : Z) : Prop := alive st k = false \/ exists a, ref_of k = RObj a /\ a ∈ gs_stack st.

Definition live_map (st : gstate) (a : Z) : Prop := a ∈ gs_marked st \/ permanent objs a.
(** The entries of a map are accounted for; [full] in the fallback. *)
Definition covered (full : bool) (st : gstate) (a : Z) : Prop :=
  forall k v, map_entry objs a k v -> marked_val st v \/
    (full = false /\ (gs_oom st = true \/ exists p, gs_pending st = Some p /\ (k, v) ∈ pt_pairs p)).

(** The invariant.  The parameters are what is under way: [P] closures whose
    references are being marked, [Q] keys just marked, [E] pairs whose value is
    about to be marked, [D] objects being scanned, [M] maps being processed. *)
Record Inv (P Q : Z -> Prop) (E : nat -> Prop) (D M : Z -> Prop) (full : bool) (st : gstate) : Prop := {
  i_objs : gs_objs st = objs;
  i_marked : forall a, a ∈ gs_marked st -> is_Some (objs !! a);
  i_clos : gs_cmarked st ⊆ closures; i_syms : gs_smarked st ⊆ symbols;
  i_stack : forall a, a ∈ gs_stack st -> a ∈ gs_marked st;
  i_pend : forall p, gs_pending st = Some p -> pend_ok p;
  i_idle : gs_active st = false -> forall p k h, gs_pending st = Some p -> ~ holds (entries (pt_index p)) k h;
  i_cvals : forall c, c ∈ gs_cmarked st -> P c \/ forall v, v ∈ cvals c -> marked_val st v;
  i_pairs : gs_active st = true -> gs_oom st = false -> forall p i k v, gs_pending st = Some p -> pt_pairs p !! i = Some (k, v) ->
    E i \/ marked_val st v \/ (indexed p i /\ (Q k \/ waiting st k));
  i_scan : forall a, a ∈ gs_marked st -> a ∈ gs_stack st \/ D a \/ forall v, v ∈ scan a -> marked_val st v;
  i_cov : forall a, live_map st a -> a ∈ gs_stack st \/ M a \/ covered full st a;
  i_sound : gs_oom st = false -> forall n, is_marked st n -> R n;
  i_psound : gs_oom st = false -> forall p k v, gs_pending st = Some p -> (k, v) ∈ pt_pairs p -> key_live k -> in_R v }.

(** What marking may change: more is marked, what is pushed is newly marked,
    and entries leave the index. *)
Definition same_pairs (o o' : option pending_table) : Prop :=
  match o, o' with
  | Some p, Some p' => pt_pairs p' = pt_pairs p /\ pt_next p' = pt_next p /\ pt_cap p' = pt_cap p
  | None, None => True
  | _, _ => False
  end.
Record mext (st st' : gstate) : Prop := {
  m_objs : gs_objs st' = gs_objs st; m_active : gs_active st' = gs_active st; m_oom : gs_oom st' = gs_oom st;
  m_coll : gs_collections st' = gs_collections st; m_over : gs_registry_overflow st' = gs_registry_overflow st;
  m_marked : gs_marked st ⊆ gs_marked st'; m_cmarked : gs_cmarked st ⊆ gs_cmarked st'; m_smarked : gs_smarked st ⊆ gs_smarked st';
  m_stack : exists l, gs_stack st' = l ++ gs_stack st;
  m_size : (size (dom objs ∖ gs_marked st') + length (gs_stack st') <= size (dom objs ∖ gs_marked st) + length (gs_stack st))%nat;
  m_pend : same_pairs (gs_pending st) (gs_pending st') }.

Lemma mext_refl st : mext st st.
Proof. split; auto; [exists []; reflexivity|]. destruct (gs_pending st); cbn; auto. Qed.
Lemma mext_trans a b c : mext a b -> mext b c -> mext a c.
Proof.
  intros [A1 A2 A3 A4 A5 A6 A7 A8 [la A9] A10 A11] [B1 B2 B3 B4 B5 B6 B7 B8 [lb B9] B10 B11].
  split; [congruence|congruence|congruence|congruence|congruence|etransitivity; eassumption|etransitivity; eassumption|etransitivity; eassumption| | |].
  - exists (lb ++ la). rewrite B9, A9, app_assoc. reflexivity.
  - lia.
  - destruct (gs_pending a), (gs_pending b), (gs_pending c); cbn in *; try contradiction; auto. intuition congruence.
Qed.

Lemma marked_mono st st' n : mext st st' -> is_marked st n -> is_marked st' n.
Proof. intros H. destruct n; cbn; [apply (m_marked _ _ H)|apply (m_cmarked _ _ H)|apply (m_smarked _ _ H)]. Qed.
Lemma marked_val_mono st st' v : mext st st' -> marked_val st v -> marked_val st' v.
Proof. intros H Hv n Hn. eapply marked_mono; eauto. Qed.

(** A key is alive when it is never collected or has been marked. *)
Lemma alive_marked st k n : gs_objs st = objs -> known k -> node_of k = Some n -> is_marked st n -> alive st k = true.
Proof.
  intros Ho Hk Hn Hm. unfold gc_weak_key_alive, Ephemeron.node_of, Ephemeron.known in *. rewrite Ho. destruct (ref_of k) as [a|c|s| |]; try discriminate.
  - destruct (objs !! a); [|discriminate]. injection Hn as <-. cbn in Hm. rewrite bool_decide_true by exact Hm. apply orb_true_r || reflexivity.
  - destruct (Z.eqb_spec c 0); [discriminate|]. injection Hn as <-. cbn in Hm. rewrite (bool_decide_true (c ∈ gs_cmarked st)) by exact Hm.
    rewrite bool_decide_true by (destruct Hk; [contradiction|assumption]). reflexivity.
  - destruct (Z.eqb_spec s 0); [discriminate|]. injection Hn as <-. cbn in Hm. rewrite (bool_decide_true (s ∈ gs_smarked st)) by exact Hm. apply orb_true_r.
Qed.
Lemma alive_always st k : gs_objs st = objs -> always sym_permanent objs k -> alive st k = true.
Proof.
  intros Ho Ha. unfold gc_weak_key_alive, always in *. rewrite Ho. destruct (ref_of k) as [a|c|s| |]; try contradiction; [| |reflexivity].
  - destruct Ha as (o & -> & ->). apply orb_true_r.
  - rewrite Ha. reflexivity.
Qed.
Lemma alive_inv st k : gs_objs st = objs -> gs_smarked st ⊆ symbols -> gs_cmarked st ⊆ closures -> alive st k = true ->
  always sym_permanent objs k \/ exists n, node_of k = Some n /\ is_marked st n.
Proof using Hheap.
  intros Ho Hs Hc. destruct (h_addr _ _ _ _ _ Hheap) as (Z1 & Z2 & Z3). unfold gc_weak_key_alive, always, Ephemeron.node_of. rewrite Ho. destruct (ref_of k) as [a|c|s| |]; try discriminate; auto.
  - destruct (objs !! a) as [o|] eqn:E; [|discriminate]. cbn [andb orb]. intros [Hm|Hp]%orb_true_iff; [right; apply bool_decide_eq_true in Hm; eauto|]. left. exists o. auto.
  - cbn [andb orb]. intros [Hm1 Hm2]%andb_true_iff. apply bool_decide_eq_true in Hm2. right. exists (NFunc c). split; [|exact Hm2].
    destruct (Z.eqb_spec c 0) as [->|]; [specialize (Z2 0 (Hc 0 Hm2)); lia|reflexivity].
  - intros [Hm|Hm]%orb_true_iff; [auto|]. apply bool_decide_eq_true in Hm. right. exists (NSym s). split; [|exact Hm].
    destruct (Z.eqb_spec s 0) as [->|]; [specialize (Z3 0 (Hs 0 Hm)); lia|reflexivity].
Qed.
Lemma alive_iff st k : gs_objs st = objs -> gs_smarked st ⊆ symbols -> gs_cmarked st ⊆ closures ->
  alive st k = true <-> always sym_permanent objs k \/ exists n, node_of k = Some n /\ is_marked st n.
Proof using Hheap.
  intros Ho Hs Hc. split; [apply alive_inv; assumption|]. intros [H|(n & Hn & Hm)]; [apply alive_always; assumption|].
  unfold gc_weak_key_alive, Ephemeron.node_of in *. rewrite Ho. destruct (ref_of k) as [a|c|s| |]; try discriminate.
  - destruct (objs !! a); [|discriminate]. injection Hn as <-. cbn in Hm. rewrite bool_decide_true by exact Hm. reflexivity.
  - destruct (c =? 0); [discriminate|]. injection Hn as <-. cbn in Hm. rewrite !bool_decide_true by auto. reflexivity.
  - destruct (s =? 0); [discriminate|]. injection Hn as <-. cbn in Hm. rewrite bool_decide_true by exact Hm. apply orb_true_r.
Qed.
Lemma alive_mono st st' k : mext st st' -> alive st k = true -> alive st' k = true.
Proof.
  intros H. unfold gc_weak_key_alive. rewrite (m_objs _ _ H). destruct (ref_of k) as [a|c|s| |]; auto.
  - destruct (gs_objs st !! a); [|auto]. cbn [andb orb]. intros [Hm|Hm]%orb_true_iff; [|rewrite Hm; apply orb_true_r].
    apply bool_decide_eq_true in Hm. rewrite bool_decide_true by (apply (m_marked _ _ H), Hm). reflexivity.
  - cbn [andb orb]. intros [H1 H2]%andb_true_iff. apply bool_decide_eq_true in H2. rewrite H1, bool_decide_true by (apply (m_cmarked _ _ H), H2). reflexivity.
  - intros [Hm|Hm]%orb_true_iff; [rewrite Hm; reflexivity|]. apply bool_decide_eq_true in Hm. rewrite bool_decide_true by (apply (m_smarked _ _ H), Hm). apply orb_true_r.
Qed.

Lemma pair_entry p i k v : pend_ok p -> pt_pairs p !! i = Some (k, v) -> entry_ok k v.
Proof. intros H Hi. apply (pk_entry _ _ _ _ H). eapply list_elem_of_lookup_2, Hi. Qed.

Lemma covered_mono full st st' a : mext st st' -> gs_pending st' = gs_pending st -> covered full st a -> covered full st' a.
Proof.
  intros He Hp Hc k v Hkv. destruct (Hc k v Hkv) as [Hm|(-> & [Ho|(p & Hpp & Hin)])].
  - left. eapply marked_val_mono; eassumption.
  - right. split; [reflexivity|]. left. rewrite (m_oom _ _ He). exact Ho.
  - right. split; [reflexivity|]. right. exists p. rewrite Hp. auto.
Qed.

(** The invariant when the marks grow and the pairs stay. *)
Lemma Inv_grow P Q E D M full st st' (P' Q' : Z -> Prop) : Inv P Q E D M full st -> mext st st' -> gs_pending st' = gs_pending st ->
  (forall a, a ∈ gs_marked st' -> is_Some (objs !! a) /\ (a ∈ gs_marked st \/ a ∈ gs_stack st')) -> (forall a, a ∈ gs_stack st' -> a ∈ gs_marked st') ->
  gs_cmarked st' ⊆ closures -> gs_smarked st' ⊆ symbols -> (forall c, c ∈ gs_cmarked st' -> c ∈ gs_cmarked st \/ P' c) ->
  (forall c, P c -> P' c) -> (forall k, Q k -> Q' k) ->
  (forall k, known k -> canonical k -> alive st' k = true -> alive st k = true \/ Q' k \/ exists a, ref_of k = RObj a /\ a ∈ gs_stack st') ->
  (gs_oom st = false -> forall n, is_marked st' n -> R n) ->
  Inv P' Q' E D M full st'.
Proof.
  intros I He Hp Hm Hs Hc Hsy HP' HP HQ Hal Hsound. pose proof I as [I1 I2 I3 I4 I5 I6 I7 I8 I9 I10 I11 I12 I13].
  destruct (m_stack _ _ He) as [l Hl].
  assert (Hst : forall a, a ∈ gs_stack st -> a ∈ gs_stack st') by (intros a Ha; rewrite Hl; apply elem_of_app; auto).
  split; rewrite ?Hp, ?(m_active _ _ He), ?(m_oom _ _ He); auto.
  - rewrite (m_objs _ _ He). exact I1.
  - intros a Ha. apply Hm, Ha.
  - intros c Hcc. destruct (HP' c Hcc) as [Hold|]; [|auto]. destruct (I8 c Hold) as [HPc|Hv]; [auto|]. right. intros v Hv'. eapply marked_val_mono; [exact He|auto].
  - intros Ha Ho p i k v Hpp Hi. destruct (I9 Ha Ho p i k v Hpp Hi) as [HE|[Hv|(Hix & HQk)]]; [auto|right; left; eapply marked_val_mono; eassumption|].
    right. right. split; [exact Hix|]. destruct HQk as [HQk|Hw]; [auto|]. destruct Hw as [Hd|(a & Ha1 & Ha2)]; [|right; right; eauto].
    destruct (alive st' k) eqn:Ek; [|right; left; exact Ek]. destruct (pair_entry p i k v (I6 p Hpp) Hi) as (_ & Hk & _ & Hcan).
    destruct (Hal k Hk Hcan Ek) as [Hold|[HQ'|Hstk]]; [congruence|auto|right; right; exact Hstk].
  - intros a Ha. destruct (Hm a Ha) as [_ [Hold|Hnew]]; [|auto]. destruct (I10 a Hold) as [|[|Hv]]; auto. right. right. intros v Hv'. eapply marked_val_mono; [exact He|auto].
  - intros a Ha. assert (Hc' : live_map st a \/ a ∈ gs_stack st').
    { destruct Ha as [Ha|Ha]; [|left; right; exact Ha]. destruct (Hm a Ha) as [_ [Hold|Hnew]]; [left; left; exact Hold|right; exact Hnew]. }
    destruct Hc' as [Hlive|]; [|auto]. destruct (I11 a Hlive) as [|[|Hcov]]; auto. right. right. eapply covered_mono; eassumption.
Qed.

Lemma grey_ok P Q E D M full st a : Inv P Q E D M full st -> is_Some (objs !! a) -> (gs_oom st = false -> R (NObj a)) ->
  Inv P Q E D M full (grey st a) /\ mext st (grey st a) /\ a ∈ gs_marked (grey st a).
Proof using Hheap Hstack.
  intros I [o Ho] HRa. pose proof I as [I1 I2 I3 I4 I5 I6 I7 I8 I9 I10 I11 I12 I13]. unfold gc_grey_obj. rewrite I1, Ho. destruct (bool_decide (a ∈ gs_marked st)) eqn:Ea.
  { apply bool_decide_eq_true in Ea. auto using mext_refl. }
  apply bool_decide_eq_false in Ea. cbn [andb].
  assert (Hpush : exists cap, gc_mark_stack_push stack_ok st ({[a]} ∪ gs_marked st) a = set_stack st ({[a]} ∪ gs_marked st) (a :: gs_stack st) cap).
  { unfold gc_mark_stack_push. destruct (gs_stack_cap st <=? _); [|eauto]. rewrite Hstack. eauto. }
  destruct Hpush as [cap ->]. set (st' := set_stack _ _ _ _).
  assert (He : mext st st').
  { split; cbn; auto; [apply union_subseteq_r|exists [a]; reflexivity| |destruct (gs_pending st); cbn; auto].
    rewrite (size_take_out (dom objs) (gs_marked st) a) by (try apply elem_of_dom; eauto). lia. }
  split; [|split; [exact He|cbn; apply elem_of_union; left; apply elem_of_singleton; reflexivity]]. eapply Inv_grow; [exact I|exact He|reflexivity| | |exact I3|exact I4| | | | |]; cbn [gs_marked gs_stack gs_cmarked set_stack st'].
  - intros x [->%elem_of_singleton|Hx]%elem_of_union; [split; [eauto|right; left]|auto].
  - intros x [->|Hx]%elem_of_cons; apply elem_of_union; [left; apply elem_of_singleton; reflexivity|right; auto].
  - auto.
  - auto.
  - auto.
  - intros k Hk Hcan Hal. destruct (alive_inv st' k I1 I4 I3 Hal) as [Haw|(n & Hn & Hmk)]; [left; apply alive_always; assumption|].
    destruct n as [x|c|s]; cbn in Hmk; try (left; eapply alive_marked; eassumption).
    apply elem_of_union in Hmk as [->%elem_of_singleton|Hx]; [|left; eapply alive_marked; eassumption].
    right. right. exists a. split; [|left]. unfold Ephemeron.node_of in Hn. destruct (ref_of k) as [y|y|y| |]; try discriminate; [destruct (objs !! y); congruence|destruct (y =? 0); discriminate|destruct (y =? 0); discriminate].
  - intros Hoom [x|c|s] Hx; cbn in Hx; [|apply I12; assumption|apply I12; assumption].
    apply elem_of_union in Hx as [->%elem_of_singleton|Hx]; [auto|apply I12; assumption].
Qed.

Lemma elem_add (X : gset Z) x y : y ∈ {[x]} ∪ X <-> y = x \/ y ∈ X.
Proof. rewrite elem_of_union, elem_of_singleton. reflexivity. Qed.
Lemma add_subseteq (X Y : gset Z) x : x ∈ Y -> X ⊆ Y -> {[x]} ∪ X ⊆ Y.
Proof. intros Hx H y [->|Hy]%elem_add; auto. Qed.

(** A closure or a symbol is marked; its key is to be announced. *)
Lemma clos_step P Q E D M full st c : Inv P Q E D M full st -> c ∈ closures -> (gs_oom st = false -> R (NFunc c)) ->
  let st' := set_cmarked st ({[c]} ∪ gs_cmarked st) in
  Inv (fun x => x = c \/ P x) (fun k => k = mkval T_FUNC c \/ Q k) E D M full st' /\ mext st st'.
Proof using Hheap.
  intros I Hc HRc st'. pose proof I as [I1 I2 I3 I4 I5 I6 I7 I8 I9 I10 I11 I12 I13].
  assert (He : mext st st') by (split; cbn; auto; [apply union_subseteq_r|exists []; reflexivity|destruct (gs_pending st); cbn; auto]).
  split; [|exact He]. eapply Inv_grow; [exact I|exact He|reflexivity| | |cbn; apply add_subseteq; assumption|exact I4| | | | |]; cbn.
  - auto.
  - auto.
  - intros x [->|Hx]%elem_add; auto.
  - auto.
  - auto.
  - intros k Hk Hcan Hal. destruct (alive_inv st' k I1 I4 (add_subseteq _ _ _ Hc I3) Hal) as [Haw|(n & Hn & Hmk)]; [left; apply alive_always; assumption|].
    destruct n as [x|x|x]; cbn in Hmk; try (left; eapply alive_marked; eassumption).
    apply elem_add in Hmk as [->|Hx]; [|left; eapply alive_marked; eassumption]. right. left. left.
    unfold Ephemeron.node_of, Ephemeron.canonical in *. destruct (ref_of k) as [y|y|y| |]; try discriminate; [destruct (objs !! y); discriminate| |destruct (y =? 0); discriminate].
    destruct (y =? 0); [discriminate|]. congruence.
  - intros Hoom [x|x|x] Hx; cbn in Hx; try (apply I12; assumption). apply elem_add in Hx as [->|Hx]; [auto|apply I12; assumption].
Qed.
Lemma sym_step P Q E D M full st s v : Inv P Q E D M full st -> s ∈ symbols -> v = mkval T_SYMBOL s -> (gs_oom st = false -> R (NSym s)) ->
  let st' := set_smarked st ({[s]} ∪ gs_smarked st) in Inv P (fun k => k = v \/ Q k) E D M full st' /\ mext st st'.
Proof using Hheap.
  intros I Hc Hv HRc st'. pose proof I as [I1 I2 I3 I4 I5 I6 I7 I8 I9 I10 I11 I12 I13].
  assert (He : mext st st') by (split; cbn; auto; [apply union_subseteq_r|exists []; reflexivity|destruct (gs_pending st); cbn; auto]).
  split; [|exact He]. eapply Inv_grow; [exact I|exact He|reflexivity| | |exact I3|cbn; apply add_subseteq; assumption| | | | |]; cbn; auto.
  - intros k Hk Hcan Hal. destruct (alive_inv st' k I1 (add_subseteq _ _ _ Hc I4) I3 Hal) as [Haw|(n & Hn & Hmk)]; [left; apply alive_always; assumption|].
    destruct n as [x|x|x]; cbn in Hmk; try (left; eapply alive_marked; eassumption).
    apply elem_add in Hmk as [->|Hx]; [|left; eapply alive_marked; eassumption]. right. left. left.
    unfold Ephemeron.node_of, Ephemeron.known in *. destruct (ref_of k) as [y|y|y| |]; try discriminate; [destruct (objs !! y); discriminate|destruct (y =? 0); discriminate|].
    destruct (y =? 0); [discriminate|]. destruct Hk as [_ Hk]. congruence.
  - intros Hoom [x|x|x] Hx; cbn in Hx; try (apply I12; assumption). apply elem_add in Hx as [->|Hx]; [auto|apply I12; assumption].
Qed.

(** Only the condition on the pairs mentions [Q] and [E]. *)
Lemma Inv_pairs P Q E D M full st Q' E' : Inv P Q E D M full st ->
  (gs_active st = true -> gs_oom st = false -> forall p i k v, gs_pending st = Some p -> pt_pairs p !! i = Some (k, v) ->
    E' i \/ marked_val st v \/ (indexed p i /\ (Q' k \/ waiting st k))) -> Inv P Q' E' D M full st.
Proof. intros [I1 I2 I3 I4 I5 I6 I7 I8 I9 I10 I11 I12 I13] H. split; auto. Qed.
Lemma Inv_closure P Q E D M full st c : Inv (fun x => x = c \/ P x) Q E D M full st -> (forall v, v ∈ cvals c -> marked_val st v) -> Inv P Q E D M full st.
Proof.
  intros [I1 I2 I3 I4 I5 I6 I7 I8 I9 I10 I11 I12 I13] H. split; auto. intros x Hx. destruct (I8 x Hx) as [[->|HP]|Hv]; auto.
Qed.

(** An entry leaves the index. *)
Lemma clear_pend p slot k h : pend_ok p -> entries (pt_index p) !! slot = Some (k, h) -> is_key k ->
  let p' := Pending (pt_pairs p) (pt_cap p) (pt_next p) (clear_slot 0 (pt_index p) slot) in
  pend_ok p' /\ (forall x w, holds (entries (pt_index p')) x w <-> x <> k /\ holds (entries (pt_index p)) x w) /\
  forall i x v, pt_pairs p !! i = Some (x, v) -> x <> k -> indexed p i -> indexed p' i.
Proof.
  intros [P1 P2 P3 P4] Hs Hk. destruct P1 as [(E & _)|[S Hl]]; [rewrite E in Hs; discriminate|].
  destruct (clear_sized 0 (pt_index p) slot k h S Hk Hs) as (F1 & F2 & F3 & F4 & F5). intros p'. splits.
  - split; cbn; [right; split; [exact F1|unfold capacity in *; rewrite F2, F3, F4; lia]| |exact P3|exact P4]. intros x w [_ Hw]%F5. apply P2, Hw.
  - exact F5.
  - intros i x v Hi Hx (k' & v' & h' & l & Hi' & Hh & Hc & Hin). rewrite Hi in Hi'. injection Hi' as <- <-. exists x, v, h', l. splits; auto. apply F5. auto.
Qed.

Definition unmarked (st : gstate) : nat := (size (closures ∖ gs_cmarked st) + size (symbols ∖ gs_smarked st))%nat.
Lemma unmarked_mono st st' : mext st st' -> (unmarked st' <= unmarked st)%nat.
Proof.
  intros H. unfold unmarked. apply Nat.add_le_mono; apply subseteq_size; intros x [H1 H2]%elem_of_difference; apply elem_of_difference; (split; [exact H1|]); intros H3; apply H2.
  - apply (m_cmarked _ _ H), H3.
  - apply (m_smarked _ _ H), H3.
Qed.

(** What a marking function does, with [u] closures and symbols left. *)
Definition mark_spec (f : gstate -> Z -> option gstate) (u : nat) : Prop :=
  forall P Q E D M full st v, (unmarked st <= u)%nat -> Inv P Q E D M full st -> known v -> (gs_oom st = false -> in_R v) ->
  exists st', f st v = Some st' /\ Inv P Q E D M full st' /\ mext st st' /\ marked_val st' v.

Lemma all_ok f u P Q E D M full : mark_spec f u -> forall vs st, (unmarked st <= u)%nat -> Inv P Q E D M full st ->
  (forall v, v ∈ vs -> known v /\ (gs_oom st = false -> in_R v)) ->
  exists st', mark_all f vs st = Some st' /\ Inv P Q E D M full st' /\ mext st st' /\ forall v, v ∈ vs -> marked_val st' v.
Proof.
  intros Hf. induction vs as [|v vs IH]; intros st Hu I Hv; cbn [mark_all].
  { exists st. splits; auto using mext_refl. intros v Hv'. inversion Hv'. }
  destruct (Hv v ltac:(left)) as [Hk HRv]. destruct (Hf _ _ _ _ _ _ st v Hu I Hk HRv) as (st1 & -> & I1 & E1 & M1).
  destruct (IH st1) as (st2 & -> & I2 & E2 & M2); [pose proof (unmarked_mono _ _ E1); lia|exact I1| |].
  { intros w Hw. rewrite (m_oom _ _ E1). apply Hv. right. exact Hw. }
  exists st2. splits; auto; [eapply mext_trans; eassumption|]. intros w [->|Hw]%elem_of_cons; [eapply marked_val_mono; eassumption|auto].
Qed.

(** The values of one chain. *)
Lemma chain_ok f u P Q E D M full k : mark_spec f u -> forall l n st p h, gs_pending st = Some p -> chain (pt_pairs p) (pt_next p) k h l ->
  (length l < n)%nat -> (unmarked st <= u)%nat -> Inv P Q (fun i => E i \/ i ∈ l) D M full st -> (gs_oom st = false -> key_live k) ->
  exists st', mark_chain f n st h = Some st' /\ Inv P Q E D M full st' /\ mext st st'.
Proof.
  intros Hf. induction l as [|i l IH]; intros n st p h Hp Hc Hn Hu I HRk; (destruct n as [|n]; [lia|]); inversion Hc as [Eh|i' v h' l' Hi Hx Hr Hc' Eh]; subst; cbn [mark_chain].
  { exists st. splits; [reflexivity| |apply mext_refl]. eapply Inv_pairs; [exact I|]. intros Ha Ho q i x v Hq Hi. destruct (i_pairs _ _ _ _ _ _ _ I Ha Ho q i x v Hq Hi) as [[HE|Hin]|H]; auto. inversion Hin. }
  destruct (Z.eqb_spec (Z.of_nat i + 1) 0); [lia|]. rewrite Hp. replace (Z.to_nat (Z.of_nat i + 1 - 1)) with i by lia. rewrite Hx, Hi.
  pose proof (i_pend _ _ _ _ _ _ _ I p Hp) as Pk. destruct (pair_entry p i k v Pk Hi) as (_ & _ & Hkv & _).
  destruct (Hf _ _ _ _ _ _ st v Hu I Hkv) as (st1 & -> & I1 & E1 & M1).
  { intros Ho. eapply (i_psound _ _ _ _ _ _ _ I Ho p k v Hp); [eapply list_elem_of_lookup_2, Hi|auto]. }
  pose proof (m_pend _ _ E1) as Hpp. rewrite Hp in Hpp. destruct (gs_pending st1) as [p1|] eqn:Hp1; [|contradiction]. destruct Hpp as (Q1 & Q2 & Q3).
  destruct (IH n st1 p1 h') as (st2 & -> & I2 & E2); auto.
  - rewrite Q1, Q2. exact Hc'.
  - cbn in Hn. lia.
  - pose proof (unmarked_mono _ _ E1). lia.
  - eapply Inv_pairs; [exact I1|]. intros Ha Ho q j x w Hq Hj. destruct (i_pairs _ _ _ _ _ _ _ I1 Ha Ho q j x w Hq Hj) as [[HE|[->|Hin]%elem_of_cons]|H]; auto.
    right. left. rewrite Hp1 in Hq. injection Hq as <-. rewrite Q1, Hi in Hj. injection Hj as <- <-. exact M1.
  - rewrite (m_oom _ _ E1). exact HRk.
  - exists st2. splits; auto. eapply mext_trans; eassumption.
Qed.

Lemma waiting_pending st p k : waiting (set_pending st p (gs_active st) (gs_oom st)) k <-> waiting st k.
Proof. reflexivity. Qed.

(** A key is announced: the values that waited for it are marked. *)
Lemma key_marked_ok f u P Q E D M full st k : mark_spec f u -> (unmarked st <= u)%nat -> Inv P (fun x => x = k \/ Q x) E D M full st -> is_key k ->
  (gs_oom st = false -> key_live k) ->
  exists st', gc_weak_key_marked f st k = Some st' /\ Inv P Q E D M full st' /\ mext st st'.
Proof.
  intros Hf Hu I Hk HRk. unfold gc_weak_key_marked. destruct (gs_active st) eqn:Ea; cbn [negb].
  2: { exists st. splits; [reflexivity| |apply mext_refl]. eapply Inv_pairs; [exact I|]. congruence. }
  destruct (gs_pending st) as [p|] eqn:Ep.
  2: { exists st. splits; [reflexivity| |apply mext_refl]. eapply Inv_pairs; [exact I|]. congruence. }
  pose proof (i_pend _ _ _ _ _ _ _ I p Ep) as Pk.
  assert (Hdrop : (forall h, ~ holds (entries (pt_index p)) k h) -> Inv P Q E D M full st).
  { intros Hno. eapply Inv_pairs; [exact I|]. intros Ha Ho q i x v Hq Hi. destruct (i_pairs _ _ _ _ _ _ _ I Ha Ho q i x v Hq Hi) as [|[|(Hix & [[->|HQ]|Hw])]]; auto.
    exfalso. rewrite Ep in Hq. injection Hq as <-. destruct Hix as (k' & v' & h & l & Hi' & Hh & _). rewrite Hi in Hi'. injection Hi' as <- <-. eapply Hno, Hh. }
  destruct (pk_table _ _ _ _ Pk) as [(E0 & _)|[S Hl]].
  { unfold capacity. rewrite E0. exists st. splits; [reflexivity| |apply mext_refl]. apply Hdrop. intros h (_ & i & Hi). rewrite E0 in Hi. discriminate. }
  pose proof (size_pos _ (sz_size _ S)) as H8. destruct (Z.eqb_spec (capacity (pt_index p)) 0); [unfold capacity in *; lia|].
  destruct (find_slot_spec (entries (pt_index p)) k (sz_size _ S) (sz_ok _ S) Hk (ok_room _ S Hl)) as [(s & -> & [h Hs])|(s & -> & Hno & _)].
  2: { exists st. splits; [reflexivity| |apply mext_refl]. apply Hdrop. intros h (_ & i & Hi). eapply Hno. exists h. exact Hi. }
  rewrite Hs. destruct (clear_pend p s k h Pk Hs Hk) as (C1 & C2 & C3). set (p' := Pending _ _ _ _) in *. set (st1 := set_pending _ _ _ _).
  assert (Hh : holds (entries (pt_index p)) k h) by (split; eauto). destruct (pk_chain _ _ _ _ Pk k h Hh) as [l Hc].
  assert (He : mext st st1) by (split; cbn; auto; [exists []; reflexivity|]; rewrite Ep; cbn; auto).
  assert (I1 : Inv P Q (fun i => E i \/ i ∈ l) D M full st1).
  { destruct I as [I1 I2 I3 I4 I5 I6 I7 I8 I9 I10 I11 I12 I13]. split; cbn; auto.
    - intros q [= <-]. exact C1.
    - congruence.
    - intros _ Ho q i x v [= <-] Hi. destruct (I9 Ea Ho p i x v Ep Hi) as [|[|(Hix & HQ)]]; auto. destruct (decide (x = k)) as [->|Hne].
      + left. right. destruct Hix as (k' & v' & h' & l' & Hi' & Hh' & Hc' & Hin). cbn in Hi. rewrite Hi in Hi'. injection Hi' as <- <-.
        assert (h' = h). { destruct Hh as (_ & i1 & X1), Hh' as (_ & i2 & X2). assert (i1 = i2) by (eapply (eo_unique _ (sz_ok _ S)); [exists h; exact X1|exists h'; exact X2|exact Hk]). congruence. }
        subst h'. rewrite (chain_fun _ _ _ _ _ _ Hc Hc'). exact Hin.
      + right. right. split; [eapply C3; eassumption|]. destruct HQ as [[->|HQ]|Hw]; [contradiction|auto|auto].
    - intros a Ha. destruct (I11 a Ha) as [|[|Hcov]]; auto. right. right. intros x v Hxv. destruct (Hcov x v Hxv) as [Hm|(-> & [Ho|(q & Hq & Hin)])]; [left; exact Hm|right; auto|].
      right. split; [reflexivity|]. right. rewrite Ep in Hq. injection Hq as <-. eauto.
    - intros Ho q x v [= <-] Hin. eapply (I13 Ho p); eassumption. }
  destruct (chain_ok f u P Q E D M full k Hf l (Datatypes.S (length (pt_pairs p))) st1 p' h) as (st2 & E2 & I2 & M2); auto.
  - pose proof (chain_range _ _ _ _ _ Hc). pose proof (chain_length _ _ _ _ _ Hc ltac:(lia)). lia.
  - exists st2. splits; [exact E2|exact I2|eapply mext_trans; eassumption].
Qed.

Lemma mkval_key t d : is_key (mkval t d).
Proof.
  assert (H : Z.testbit (mkval t d) 63 = true). { unfold mkval. rewrite !Z.lor_spec. reflexivity. }
  split; intros E; rewrite E in H; discriminate.
Qed.

Lemma ref_node v n : node_of v = Some n -> match n with NObj a => ref_of v = RObj a | NFunc c => ref_of v = RFunc c | NSym s => ref_of v = RSym s end.
Proof.
  unfold Ephemeron.node_of. destruct (ref_of v) as [y|y|y| |]; try discriminate; [destruct (objs !! y)|destruct (y =? 0)|destruct (y =? 0)]; intros [= <-]; reflexivity.
Qed.

(** Marking a value ends, keeps the invariant and marks what it refers to. *)
Lemma mark_ok fuel : forall u, (u < fuel)%nat -> mark_spec (mark fuel) u.
Proof using Hheap Hstack HR.
  induction fuel as [|fuel IH]; intros u Hf P Q E D M full st v Hu I Hk HRv; [lia|]. cbn [gc_mark_value].
  assert (Hnone : node_of v = None -> marked_val st v) by (intros Hn n Hn'; congruence).
  unfold Ephemeron.known in Hk. unfold in_R in HRv. unfold Ephemeron.node_of in *. destruct (ref_of v) as [a|c|s| |] eqn:Er.
  - destruct (Z.eqb_spec a 0) as [->|Ha0].
    { exists st. splits; auto using mext_refl. apply Hnone. destruct (objs !! 0) eqn:E0; [|reflexivity]. destruct (h_addr _ _ _ _ _ Hheap) as (Z1 & _ & _). specialize (Z1 0 ltac:(eauto)). lia. }
    destruct (objs !! a) as [o|] eqn:Eo.
    + destruct (grey_ok P Q E D M full st a I) as (G1 & G2 & G3); [eauto|intros Ho; apply (HRv Ho _ eq_refl)|]. eexists. splits; [reflexivity|exact G1|exact G2|].
      intros n Hn. apply ref_node in Hn as Hr. destruct n; rewrite Er in Hr; try discriminate. injection Hr as <-. exact G3.
    + eexists. split; [reflexivity|]. unfold gc_grey_obj. rewrite (i_objs _ _ _ _ _ _ _ I), Eo. splits; auto using mext_refl.
  - destruct (Z.eqb_spec c 0) as [->|Hc0]; cbn [orb]; [exists st; splits; auto using mext_refl|].
    destruct Hk as [|Hc]; [contradiction|]. destruct (bool_decide (c ∈ gs_cmarked st)) eqn:Em.
    { apply bool_decide_eq_true in Em. exists st. splits; auto using mext_refl. intros n Hn. apply ref_node in Hn as Hr. destruct n; rewrite Er in Hr; try discriminate. injection Hr as <-. exact Em. }
    apply bool_decide_eq_false in Em. assert (HRc : gs_oom st = false -> R (NFunc c)) by (intros Ho; apply (HRv Ho _ eq_refl)).
    destruct (clos_step P Q E D M full st c I Hc HRc) as [I1 E1]. set (st1 := set_cmarked _ _) in *.
    assert (U1 : (S (unmarked st1) <= unmarked st)%nat). { unfold unmarked. cbn. rewrite (size_take_out closures (gs_cmarked st) c Hc Em). lia. }
    assert (Hsub : mark_spec (mark fuel) (u - 1)) by (apply IH; lia).
    assert (Hkm : exists st2, (if gs_active st1 then gc_weak_key_marked (mark fuel) st1 (mkval T_FUNC c) else Some st1) = Some st2 /\
      Inv (fun x => x = c \/ P x) Q E D M full st2 /\ mext st1 st2).
    { destruct (gs_active st1) eqn:Ea; [|exists st1; splits; [reflexivity|eapply Inv_pairs; [exact I1|congruence]|apply mext_refl]].
      eapply key_marked_ok; [exact Hsub|lia|exact I1|apply mkval_key|]. intros Ho. right. exists (NFunc c). split; [|auto]. unfold Ephemeron.node_of. pose proof (proj1 (proj2 (h_addr _ _ _ _ _ Hheap)) c Hc) as Hca. rewrite ref_mkval by (unfold T_FUNC; lia). change (ref_tag T_FUNC c) with (RFunc c). cbv iota. apply Z.eqb_neq in Hc0. rewrite Hc0. reflexivity. }
    destruct Hkm as (st2 & -> & I2 & E2).
    destruct (all_ok (mark fuel) (u - 1) (fun x => x = c \/ P x) Q E D M full Hsub (cvals c) st2) as (st3 & -> & I3 & E3 & M3); [pose proof (unmarked_mono _ _ E2); lia|exact I2| |].
    { intros w Hw. split; [eapply (h_cvals _ _ _ _ _ Hheap); eassumption|]. intros Ho n Hn. rewrite (m_oom _ _ E2) in Ho. eapply (cl_cvals _ _ _ _ _ _ HR); eauto. }
    exists st3. assert (E03 : mext st st3) by (eapply mext_trans; [exact E1|eapply mext_trans; eassumption]). splits; [reflexivity|eapply Inv_closure; eassumption|exact E03|].
    intros n Hn. apply ref_node in Hn as Hr. destruct n; rewrite Er in Hr; try discriminate. injection Hr as <-. cbn.
    apply (m_cmarked _ _ E3), (m_cmarked _ _ E2). cbn. apply elem_add. auto.
  - destruct (Z.eqb_spec s 0) as [->|Hs0]; cbn [orb]; [exists st; splits; auto using mext_refl|].
    destruct Hk as [[|Hs] Hvs]; [contradiction|]. destruct (bool_decide (s ∈ gs_smarked st)) eqn:Em.
    { apply bool_decide_eq_true in Em. exists st. splits; auto using mext_refl. intros n Hn. apply ref_node in Hn as Hr. destruct n; rewrite Er in Hr; try discriminate. injection Hr as <-. exact Em. }
    apply bool_decide_eq_false in Em. assert (HRs : gs_oom st = false -> R (NSym s)) by (intros Ho; apply (HRv Ho _ eq_refl)).
    destruct (sym_step P Q E D M full st s v I Hs Hvs HRs) as [I1 E1]. set (st1 := set_smarked _ _) in *.
    assert (U1 : (S (unmarked st1) <= unmarked st)%nat). { unfold unmarked. cbn. rewrite (size_take_out symbols (gs_smarked st) s Hs Em). lia. }
    assert (Hsub : mark_spec (mark fuel) (u - 1)) by (apply IH; lia).
    assert (Hmk : forall st2, mext st1 st2 -> marked_val st2 v).
    { intros st2 E2 n Hn. apply ref_node in Hn as Hr. destruct n; rewrite Er in Hr; try discriminate. injection Hr as <-. cbn. apply (m_smarked _ _ E2). cbn. apply elem_add. auto. }
    destruct (gs_active st1) eqn:Ea.
    + destruct (key_marked_ok (mark fuel) (u - 1) P Q E D M full st1 v) as (st2 & -> & I2 & E2); [exact Hsub|lia|exact I1|rewrite Hvs; apply mkval_key| |].
      { intros Ho. right. exists (NSym s). split; [|auto]. unfold Ephemeron.node_of. rewrite Er. apply Z.eqb_neq in Hs0. rewrite Hs0. reflexivity. }
      exists st2. splits; auto. eapply mext_trans; eassumption.
    + exists st1. splits; [reflexivity|eapply Inv_pairs; [exact I1|congruence]|exact E1|apply Hmk, mext_refl].
  - exists st. splits; auto using mext_refl.
  - exists st. splits; auto using mext_refl.
Qed.

(** ** New pairs *)

Context (malloc_ok : Z -> bool).
Abbreviation NoZ := (fun _ : Z => False).
Abbreviation NoN := (fun _ : nat => False).
Abbreviation map_entry := (map_entry objs).

Definition pairs_of (st : gstate) : list (Z * Z) := match gs_pending st with Some p => pt_pairs p | None => [] end.

(** What processing a map may change besides: pairs are added, and memory may
    run out. *)
Record xext (st st' : gstate) : Prop := {
  x_objs : gs_objs st' = gs_objs st; x_active : gs_active st' = gs_active st; x_oom : gs_oom st = true -> gs_oom st' = true;
  x_coll : gs_collections st' = gs_collections st; x_over : gs_registry_overflow st' = gs_registry_overflow st;
  x_marked : forall n, is_marked st n -> is_marked st' n;
  x_size : (size (dom objs ∖ gs_marked st') + length (gs_stack st') <= size (dom objs ∖ gs_marked st) + length (gs_stack st))%nat;
  x_pairs : forall kv, kv ∈ pairs_of st -> kv ∈ pairs_of st' }.
(** What the phases may change. *)
Record grows (st st' : gstate) : Prop := {
  g_objs : gs_objs st' = gs_objs st; g_coll : gs_collections st' = gs_collections st; g_over : gs_registry_overflow st' = gs_registry_overflow st;
  g_marked : forall n, is_marked st n -> is_marked st' n;
  g_size : (size (dom objs ∖ gs_marked st') + length (gs_stack st') <= size (dom objs ∖ gs_marked st) + length (gs_stack st))%nat }.
Lemma grows_trans a b c : grows a b -> grows b c -> grows a c.
Proof. intros [A1 A2 A3 A4 A5] [B1 B2 B3 B4 B5]. split; auto; [congruence|congruence|congruence|lia]. Qed.
Lemma xext_grows st st' : xext st st' -> grows st st'.
Proof. intros [A1 A0 A2 A3 A4 A5 A6 A7]. split; auto. Qed.
Lemma xext_refl st : xext st st.
Proof. split; auto. Qed.
Lemma xext_trans a b c : xext a b -> xext b c -> xext a c.
Proof. intros [A1 A0 A2 A3 A4 A5 A6 A7] [B1 B0 B2 B3 B4 B5 B6 B7]. split; auto; [congruence|congruence|congruence|congruence|lia]. Qed.
Lemma mext_xext st st' : mext st st' -> xext st st'.
Proof.
  intros H. split; [apply (m_objs _ _ H)|apply (m_active _ _ H)|rewrite (m_oom _ _ H); auto|apply (m_coll _ _ H)|apply (m_over _ _ H)|intros n; apply (marked_mono _ _ _ H)|apply (m_size _ _ H)|].
  intros kv. pose proof (m_pend _ _ H) as Hp. unfold pairs_of. destruct (gs_pending st), (gs_pending st'); cbn in Hp; try contradiction; [|auto]. destruct Hp as (-> & _). auto.
Qed.
Lemma marked_val_x st st' v : xext st st' -> marked_val st v -> marked_val st' v.
Proof. intros H Hv n Hn. apply (x_marked _ _ H), Hv, Hn. Qed.

(** One entry is accounted for. *)
Definition counted (full : bool) (st : gstate) (kv : Z * Z) : Prop := marked_val st kv.2 \/ (full = false /\ (gs_oom st = true \/ kv ∈ pairs_of st)).
Lemma counted_mono full st st' kv : xext st st' -> counted full st kv -> counted full st' kv.
Proof.
  intros H [Hm|(-> & [Ho|Hp])]; [left; eapply marked_val_x; eassumption|right; split; [reflexivity|]|right; split; [reflexivity|]].
  - left. apply (x_oom _ _ H), Ho.
  - right. apply (x_pairs _ _ H), Hp.
Qed.
Lemma covered_counted full st a : covered full st a <-> forall k v, map_entry a k v -> counted full st (k, v).
Proof.
  unfold covered, counted, pairs_of. cbn [snd].
  assert (E : forall kv, (exists p, gs_pending st = Some p /\ kv ∈ pt_pairs p) <-> kv ∈ match gs_pending st with Some p => pt_pairs p | None => [] end).
  { intros kv. destruct (gs_pending st) as [p|]; [split; [intros (q & [= <-] & H); exact H|eauto]|split; [intros (q & [=] & _)|intros H; inversion H]]. }
  setoid_rewrite E. reflexivity.
Qed.

(** The pending pairs change. *)
Lemma Inv_pending P Q E D M full st o oom : Inv P Q E D M full st -> (gs_oom st = true -> oom = true) ->
  (forall p, o = Some p -> pend_ok p /\ (gs_active st = false -> forall k h, ~ holds (entries (pt_index p)) k h)) ->
  (forall kv, kv ∈ pairs_of st -> kv ∈ pairs_of (set_pending st o (gs_active st) oom)) ->
  (oom = false -> forall p, o = Some p ->
    (gs_active st = true -> forall i k v, pt_pairs p !! i = Some (k, v) -> E i \/ marked_val st v \/ (indexed p i /\ (Q k \/ waiting st k))) /\
    forall k v, (k, v) ∈ pt_pairs p -> key_live k -> in_R v) ->
  Inv P Q E D M full (set_pending st o (gs_active st) oom) /\ xext st (set_pending st o (gs_active st) oom).
Proof.
  intros I Hoom Hok Hpairs Hnew. assert (X : xext st (set_pending st o (gs_active st) oom)) by (split; cbn; auto).
  split; [|exact X]. destruct I as [I1 I2 I3 I4 I5 I6 I7 I8 I9 I10 I11 I12 I13].
  assert (Hof : oom = false -> gs_oom st = false) by (intros ->; destruct (gs_oom st); [symmetry; auto|auto]).
  split; cbn; auto.
  - intros p Hp. apply (Hok p Hp).
  - intros Ha p k h Hp. apply (Hok p Hp), Ha.
  - intros Ha Ho p i k v Hp. apply (Hnew Ho p Hp), Ha.
  - intros a Ha. destruct (I11 a Ha) as [|[|Hcov]]; auto. right. right. apply covered_counted. intros k v Hkv. eapply counted_mono; [exact X|]. apply (proj1 (covered_counted full st a) Hcov), Hkv.
  - intros Ho p k v Hp. apply (Hnew Ho p Hp).
Qed.

Lemma Inv_oom P Q E D M full st o : Inv P Q E D M full st ->
  (forall p, o = Some p -> pend_ok p /\ (gs_active st = false -> forall k h, ~ holds (entries (pt_index p)) k h)) ->
  (forall kv, kv ∈ pairs_of st -> kv ∈ pairs_of (set_oom st o)) -> Inv P Q E D M full (set_oom st o) /\ xext st (set_oom st o).
Proof. intros I Hok Hp. apply Inv_pending; auto. discriminate. Qed.

Lemma get_ok P Q E D M full st p : Inv P Q E D M full st -> gc_weak_pending_get malloc_ok st = Some p ->
  pend_ok p /\ pt_pairs p = pairs_of st /\ (gs_active st = false -> forall k h, ~ holds (entries (pt_index p)) k h) /\
  (gs_active st = true -> gs_oom st = false -> forall i k v, pt_pairs p !! i = Some (k, v) -> E i \/ marked_val st v \/ (indexed p i /\ (Q k \/ waiting st k))) /\
  (gs_oom st = false -> forall k v, (k, v) ∈ pt_pairs p -> key_live k -> in_R v).
Proof.
  intros [I1 I2 I3 I4 I5 I6 I7 I8 I9 I10 I11 I12 I13]. unfold gc_weak_pending_get, pairs_of. destruct (gs_pending st) as [q|] eqn:Ep.
  - intros [= <-]. splits; [auto|reflexivity|eauto|intros Ha Ho i k v; apply (I9 Ha Ho q i k v eq_refl)|intros Ho k v; apply (I13 Ho q k v eq_refl)].
  - destruct (malloc_ok 48); [|discriminate]. intros [= <-]. splits; cbn.
    + split; cbn; [left; auto|intros k h (_ & i & Hi); discriminate|lia|intros k v Hin; inversion Hin].
    + reflexivity.
    + intros _ k h (_ & i & Hi). discriminate.
    + intros _ _ i k v Hi. discriminate.
    + intros _ k v Hin. inversion Hin.
Qed.

(** A pair is added and waits for its key, or memory runs out. *)
Lemma add_pending_ok P Q E D M full st k v : Inv P Q E D M full st -> gs_oom st = false -> alive st k = false -> entry_ok k v -> (key_live k -> in_R v) ->
  exists st', gc_weak_add_pending malloc_ok st k v = Some st' /\ Inv P Q E D M full st' /\ xext st st' /\ (gs_oom st' = true \/ (k, v) ∈ pairs_of st').
Proof.
  intros I Ho Hd He Hs. unfold gc_weak_add_pending. destruct (gc_weak_pending_get malloc_ok st) as [p|] eqn:Eg.
  2: { destruct (Inv_oom P Q E D M full st (gs_pending st) I) as [I' X']; [|auto|eexists; split; [reflexivity|]; splits; auto].
       intros p Hp. destruct I as [I1 I2 I3 I4 I5 I6 I7 I8 I9 I10 I11 I12 I13]. split; [auto|]. intros Ha x h. apply (I7 Ha p x h Hp). }
  destruct (get_ok P Q E D M full st p I Eg) as (G1 & G2 & G3 & G4 & G5). pose proof (grow_ok malloc_ok closures symbols objs p G1) as Hg. destruct (grow_pairs malloc_ok p) as [q|].
  2: { destruct (Inv_oom P Q E D M full st (Some p) I) as [I' X']; [intros ? [= <-]; auto|unfold pairs_of at 2; cbn; rewrite G2; auto|eexists; split; [reflexivity|]; splits; auto]. }
  destruct Hg as (H1 & H2 & H3 & H4 & H5). rewrite <- H2 in H5. destruct (pair_append_ok closures symbols objs q k v H1 H5 He) as (A1 & A2 & A3). set (r := Pending _ _ _ _) in *.
  assert (Hsub : forall kv, kv ∈ pairs_of st -> kv ∈ pt_pairs r) by (intros kv Hkv; cbn; rewrite H2, G2; apply elem_of_app; auto).
  assert (Hin : (k, v) ∈ pt_pairs r) by (cbn; apply elem_of_app; right; left).
  assert (Hsound : forall x w, (x, w) ∈ pt_pairs r -> key_live x -> in_R w).
  { intros x w Hx. cbn in Hx. rewrite H2 in Hx. apply elem_of_app in Hx as [Hx|Hx]; [apply (G5 Ho), Hx|]. apply list_elem_of_singleton in Hx as [= -> ->]. exact Hs. }
  assert (Hidx : forall j, indexed p j -> indexed r j).
  { intros j Hj. apply A2. destruct Hj as (x & w & h & l & J1 & J2 & J3 & J4). exists x, w, h, l. rewrite H2, H3, H4. auto. }
  destruct (gs_active st) eqn:Ea.
  - destruct (ensure_next_ok malloc_ok closures symbols objs r (pt_cap r) A1) as (b & r1 & -> & N1 & N2 & N3 & N4 & N5 & N6 & N7). destruct b; cbn [negb].
    2: { destruct (Inv_oom P Q E D M full st (Some r1) I) as [I' X']; [intros ? [= <-]; split; [auto|congruence]|unfold pairs_of at 2; cbn; rewrite N2; auto|eexists; split; [reflexivity|]; splits; auto]. }
    assert (Hi : pt_pairs r1 !! length (pt_pairs q) = Some (k, v)) by (rewrite N2; cbn; apply list_lookup_middle; reflexivity).
    destruct (index_add_ok malloc_ok closures symbols objs r1 (length (pt_pairs q)) k v N1 Hi) as (b & r2 & -> & (J1 & J2 & J3 & J4 & J5) & J6); [specialize (N7 eq_refl); cbn in N7; lia|apply N6, A3|].
    destruct b.
    + destruct (J6 eq_refl) as [J7 _]. rewrite <- Ea. destruct (Inv_pending P Q E D M full st (Some r2) (gs_oom st) I) as [I' X'].
      * auto.
      * intros ? [= <-]. split; [exact J4|congruence].
      * unfold pairs_of at 2. cbn. rewrite J1, N2. exact Hsub.
      * intros _ ? [= <-]. rewrite J1, N2. split; [|exact Hsound]. intros _ i x w Hx. cbn in Hx. rewrite H2 in Hx. apply lookup_app_Some in Hx as [Hx|[Hl Hx]].
        -- destruct (G4 eq_refl Ho i x w Hx) as [|[|[Hix Hw]]]; [auto|auto|]. right. right. split; [apply J5, N5, Hidx, Hix|exact Hw].
        -- apply list_lookup_singleton_Some in Hx as [Hz [= <- <-]]. right. right. replace i with (length (pt_pairs q)) by (rewrite H2; lia). split; [exact J7|]. right. left. exact Hd.
      * eexists. split; [reflexivity|]. splits; auto. right. unfold pairs_of. cbn. rewrite J1, N2. exact Hin.
    + destruct (Inv_oom P Q E D M full st (Some r2) I) as [I' X']; [intros ? [= <-]; split; [exact J4|congruence]|unfold pairs_of at 2; cbn; rewrite J1, N2; auto|eexists; split; [reflexivity|]; splits; auto].
  - destruct (Inv_pending P Q E D M full st (Some r) (gs_oom st) I) as [I' X'].
    + auto.
    + intros ? [= <-]. split; [exact A1|]. intros _ x h. cbn. rewrite H4. auto.
    + unfold pairs_of at 2. cbn. exact Hsub.
    + intros _ ? [= <-]. split; [congruence|exact Hsound].
    + rewrite Ea in *. eexists. split; [reflexivity|]. splits; auto.
Qed.

Lemma key_node o a : objs !! a = Some o -> ref_of (gc_weak_key_from_marked_object o a) = RObj a.
Proof using Hheap.
  intros Ho. pose proof (proj1 (h_addr _ _ _ _ _ Hheap) a ltac:(eauto)) as Ha. pose proof (h_tag _ _ _ _ _ Hheap a o Ho) as Ht. unfold gc_weak_key_from_marked_object.
  destruct (Z.eqb_spec (type_tag o) T_ARR) as [E|_]; cbn [orb]; [rewrite E, ref_mkval by (unfold T_ARR; lia); reflexivity|].
  destruct (Z.eqb_spec (type_tag o) T_PROMISE) as [E|_]; cbn [orb]; [rewrite E, ref_mkval by (unfold T_PROMISE; lia); reflexivity|].
  destruct (Z.eqb_spec (type_tag o) T_GENERATOR) as [E|_]; cbn [orb]; [rewrite E, ref_mkval by (unfold T_GENERATOR; lia); reflexivity|].
  rewrite ref_mkval by (unfold T_OBJ; lia). reflexivity.
Qed.

(** ** Maps and the mark stack *)

Context (F : nat).
Hypothesis Hfuel : (size closures + size symbols < F)%nat.
Abbreviation process_map := (gc_weak_process_map cvals closures closure_old sym_permanent malloc_ok stack_ok false F).
Abbreviation drain := (gc_drain_mark_stack_weak scan cvals closures closure_old sym_permanent malloc_ok stack_ok false F).

Lemma mark_F P Q E D M full st v : Inv P Q E D M full st -> known v -> (gs_oom st = false -> in_R v) ->
  exists st', mark F st v = Some st' /\ Inv P Q E D M full st' /\ mext st st' /\ marked_val st' v.
Proof using Hheap Hstack HR Hfuel. intros I. apply (mark_ok F (unmarked st)); [|lia|exact I]. unfold unmarked. pose proof (size_difference_le closures (gs_cmarked st)). pose proof (size_difference_le symbols (gs_smarked st)). lia. Qed.
Lemma all_F P Q E D M full vs st : Inv P Q E D M full st -> (forall v, v ∈ vs -> known v /\ (gs_oom st = false -> in_R v)) ->
  exists st', mark_all (mark F) vs st = Some st' /\ Inv P Q E D M full st' /\ mext st st' /\ forall v, v ∈ vs -> marked_val st' v.
Proof using Hheap Hstack HR Hfuel. intros I. apply (all_ok (mark F) (unmarked st)); [|lia|exact I]. intros ? ? ? ? ? ? st1 w _ I1. apply mark_F, I1. Qed.
Lemma key_F P Q E D M full st k : Inv P (fun x => x = k \/ Q x) E D M full st -> is_key k -> (gs_oom st = false -> key_live k) ->
  exists st', gc_weak_key_marked (mark F) st k = Some st' /\ Inv P Q E D M full st' /\ mext st st'.
Proof using Hheap Hstack HR Hfuel. intros I. apply (key_marked_ok (mark F) (unmarked st)); [|lia|exact I]. intros ? ? ? ? ? ? st1 w _ I1. apply mark_F, I1. Qed.

Lemma alive_live P Q E D M full st k : Inv P Q E D M full st -> gs_oom st = false -> alive st k = true -> key_live k.
Proof using Hheap.
  intros I Ho Ha. destruct (alive_inv st k (i_objs _ _ _ _ _ _ _ I) (i_syms _ _ _ _ _ _ _ I) (i_clos _ _ _ _ _ _ _ I) Ha) as [H|(n & Hn & Hm)]; [left; exact H|].
  right. exists n. split; [exact Hn|]. eapply i_sound; eassumption.
Qed.

(** The entries of a map that is live. *)
Lemma entries_ok P Q E D M full a : (forall k v, map_entry a k v -> entry_ok k v) -> forall es st, Inv P Q E D M full st -> (full = true -> gs_oom st = true) ->
  (forall k v, (k, v) ∈ es -> is_key k -> map_entry a k v) -> (gs_oom st = false -> R (NObj a) \/ permanent objs a) ->
  exists st', process_entries cvals closures closure_old sym_permanent malloc_ok stack_ok false F es st = Some st' /\ Inv P Q E D M full st' /\ xext st st' /\
    forall k v, (k, v) ∈ es -> is_key k -> counted full st' (k, v).
Proof using Hheap Hstack HR Hfuel.
  intros Hent. induction es as [|[k v] es IH]; intros st I Hfull Hes Hsrc; cbn [process_entries].
  { exists st. splits; auto using xext_refl. intros k v Hin. inversion Hin. }
  assert (Hone : exists st1, (if negb (weakmap_entry_is_occupied (k, v)) then Some st else if gs_oom st then mark_all (mark F) [k; v] st
      else if alive st k then mark F st v else gc_weak_add_pending malloc_ok st k v) = Some st1 /\ Inv P Q E D M full st1 /\ xext st st1 /\ (is_key k -> counted full st1 (k, v))).
  { destruct (weakmap_entry_is_occupied (k, v)) eqn:Eo; cbn [negb].
    2: { exists st. splits; auto using xext_refl. intros Hk. apply (occupied_key (k, v)) in Hk. congruence. }
    apply (occupied_key (k, v)) in Eo. cbn [fst] in Eo. assert (Hm : map_entry a k v) by (apply Hes; [left|exact Eo]). pose proof (Hent k v Hm) as He. destruct (gs_oom st) eqn:Ho.
    - destruct (all_F P Q E D M full [k; v] st I) as (st1 & E1 & I1 & X1 & M1).
      { intros w Hw. destruct He as (_ & Hk & Hv & _). split; [|congruence]. apply elem_of_cons in Hw as [->|Hw]; [exact Hk|]. apply list_elem_of_singleton in Hw as ->. exact Hv. }
      exists st1. splits; [exact E1|exact I1|apply mext_xext, X1|]. intros _. left. apply M1. right. left.
    - assert (HRv : key_live k -> in_R v) by (intros Hl n Hn; eapply (cl_map _ _ _ _ _ _ HR a k v n); auto). destruct (alive st k) eqn:Ea.
      + destruct (mark_F P Q E D M full st v I) as (st1 & E1 & I1 & X1 & M1); [apply He|intros _; apply HRv; eapply alive_live; eassumption|].
        exists st1. splits; [exact E1|exact I1|apply mext_xext, X1|]. intros _. left. exact M1.
      + destruct (add_pending_ok P Q E D M full st k v I Ho Ea He HRv) as (st1 & E1 & I1 & X1 & M1). exists st1. splits; auto. intros _. right.
        split; [destruct full; [specialize (Hfull eq_refl); congruence|reflexivity]|exact M1]. }
  destruct Hone as (st1 & E1 & I1 & X1 & C1). cbn [fst snd]. rewrite E1.
  destruct (IH st1 I1) as (st2 & -> & I2 & X2 & C2).
  - intros Hf. apply (x_oom _ _ X1), Hfull, Hf.
  - intros x w Hx. apply Hes. right. exact Hx.
  - intros Ho. apply Hsrc. destruct (gs_oom st) eqn:Es; [|reflexivity]. rewrite (x_oom _ _ X1 Es) in Ho. discriminate.
  - exists st2. splits; [reflexivity|exact I2|eapply xext_trans; eassumption|]. intros x w Hx Hk. apply elem_of_cons in Hx as [[= -> ->]|Hx]; [|auto]. eapply counted_mono; [exact X2|auto].
Qed.

Lemma entry_of_map a k v : map_entry a k v -> entry_ok k v.
Proof using Hheap. intros (o & t & Ho & _ & Hn & Hin & Hk). eapply (h_map _ _ _ _ _ Hheap); eassumption. Qed.

(** Only the condition on maps mentions [M], and only that on objects [D]. *)
Lemma Inv_maps P Q E D M full st M' : Inv P Q E D M full st -> (forall a, M a -> live_map st a -> a ∈ gs_stack st \/ M' a \/ covered full st a) -> Inv P Q E D M' full st.
Proof. intros [I1 I2 I3 I4 I5 I6 I7 I8 I9 I10 I11 I12 I13] H. split; auto. intros a Ha. destruct (I11 a Ha) as [|[|]]; auto. Qed.
Lemma Inv_scanned P Q E D M full st a : Inv P Q E (fun x => x = a \/ D x) M full st -> (forall v, v ∈ scan a -> marked_val st v) -> Inv P Q E D M full st.
Proof. intros [I1 I2 I3 I4 I5 I6 I7 I8 I9 I10 I11 I12 I13] H. split; auto. intros x Hx. destruct (I10 x Hx) as [|[[->|]|]]; auto. Qed.

Lemma process_map_ok P Q E D M full a st : Inv P Q E D (fun x => x = a \/ M x) full st -> (full = true -> gs_oom st = true) -> (gs_oom st = false -> R (NObj a) \/ permanent objs a) ->
  exists st', process_map st a = Some st' /\ Inv P Q E D M full st' /\ xext st st'.
Proof using Hheap Hstack HR Hfuel.
  intros I Hfull Hsrc. unfold gc_weak_process_map. rewrite (i_objs _ _ _ _ _ _ _ I).
  assert (Hnot : (forall k v, ~ map_entry a k v) -> exists st', Some st = Some st' /\ Inv P Q E D M full st' /\ xext st st').
  { intros Hno. exists st. splits; [reflexivity| |apply xext_refl]. eapply Inv_maps; [exact I|]. intros x [->|Hx] _; [|auto]. right. right. intros k v Hkv. exfalso. eapply Hno, Hkv. }
  destruct (objs !! a) as [o|] eqn:Eo.
  2: { apply Hnot. intros k v (o & t & Ho & _). congruence. }
  destruct (Z.eqb_spec (type_tag o) T_WEAKMAP) as [Et|Et].
  2: { apply Hnot. intros k v (o' & t & Ho & Ht & _). congruence. }
  destruct (native o) as [|t|vs|w] eqn:En; try (apply Hnot; intros k v (o' & t' & Ho & Ht & Hn & _); congruence).
  destruct (entries_ok P Q E D (fun x => x = a \/ M x) full a (entry_of_map a) (entries (wm t)) st I Hfull) as (st1 & E1 & I1 & X1 & C1).
  - intros k v Hin Hk. exists o, t. splits; assumption.
  - exact Hsrc.
  - exists st1. splits; [exact E1| |exact X1]. eapply Inv_maps; [exact I1|]. intros x [->|Hx] _; [|auto]. right. right. apply covered_counted. intros k v (o' & t' & Ho & _ & Hn & Hin & Hk).
    rewrite Eo in Ho. injection Ho as <-. rewrite En in Hn. injection Hn as <-. apply C1; assumption.
Qed.

Abbreviation Idle := (Inv NoZ NoZ NoN NoZ NoZ).

(** An object leaves the stack. *)
Lemma pop_ok full st a s o : Idle full st -> gs_stack st = a :: s -> objs !! a = Some o ->
  Inv NoZ (fun k => k = gc_weak_key_from_marked_object o a \/ False) NoN (fun x => x = a \/ False) (fun x => x = a \/ False) full (set_stack st (gs_marked st) s (gs_stack_cap st)).
Proof.
  intros [I1 I2 I3 I4 I5 I6 I7 I8 I9 I10 I11 I12 I13] Hs Ho.
  assert (Hst : forall x, x ∈ gs_stack st -> x = a \/ x ∈ s) by (intros x Hx; rewrite Hs in Hx; apply elem_of_cons, Hx).
  split; cbn; auto.
  - intros x Hx. apply I5. rewrite Hs. right. exact Hx.
  - intros Ha Hoom p i k v Hp Hi. destruct (I9 Ha Hoom p i k v Hp Hi) as [[]|[|[Hix [[]|[Hw|(x & Hx & Hin)]]]]]; auto.
    + right. right. split; [exact Hix|]. right. left. exact Hw.
    + right. right. split; [exact Hix|]. destruct (Hst x Hin) as [->|Hin']; [|right; right; eauto]. left. left.
      destruct (pair_entry p i k v (I6 p Hp) Hi) as (_ & _ & _ & Hcan). unfold Ephemeron.canonical in Hcan. rewrite Hx in Hcan. apply Hcan, Ho.
  - intros x Hx. destruct (I10 x Hx) as [Hx'|[[]|Hx']]; auto. destruct (Hst x Hx'); auto.
  - intros x Hx. destruct (I11 x Hx) as [Hx'|[[]|Hx']]; auto. destruct (Hst x Hx'); auto.
Qed.

Lemma drain_step_ok full st a s : Idle full st -> (full = true -> gs_oom st = true) -> gs_stack st = a :: s ->
  exists st', drain_step scan cvals closures closure_old sym_permanent malloc_ok stack_ok false F (set_stack st (gs_marked st) s (gs_stack_cap st)) a = Some st' /\
    Idle full st' /\ xext (set_stack st (gs_marked st) s (gs_stack_cap st)) st'.
Proof using Hheap Hstack HR Hfuel.
  intros I Hfull Hs. assert (Ha : a ∈ gs_marked st) by (apply (i_stack _ _ _ _ _ _ _ I); rewrite Hs; left). destruct (i_marked _ _ _ _ _ _ _ I a Ha) as [o Ho].
  pose proof (pop_ok full st a s o I Hs Ho) as I0. pose proof (fun H => i_sound _ _ _ _ _ _ _ I H (NObj a) Ha) as HRa.
  set (st0 := set_stack _ _ _ _) in *. unfold drain_step. rewrite (i_objs _ _ _ _ _ _ _ I0), Ho.
  pose proof (key_node o a Ho) as Hr. assert (Hkey : is_key (gc_weak_key_from_marked_object o a)) by (unfold gc_weak_key_from_marked_object; destruct (_ || _); apply mkval_key).
  destruct (key_F _ _ _ _ _ _ st0 _ I0 Hkey) as (st1 & -> & I1 & X1%mext_xext).
  { intros Hoom. right. exists (NObj a). split; [|auto]. unfold Ephemeron.node_of. rewrite Hr, Ho. reflexivity. }
  unfold gc_weak_collection_marked. destruct (process_map_ok _ _ _ _ _ _ a st1 I1) as (st2 & -> & I2 & X2).
  - intros Hf. apply (x_oom _ _ X1), Hfull, Hf.
  - intros Hoom. left. apply HRa. destruct (gs_oom st) eqn:Es; [|reflexivity]. rewrite (x_oom _ _ X1 Es) in Hoom. discriminate.
  - destruct (all_F _ _ _ _ _ _ (scan a) st2 I2) as (st3 & -> & I3 & X3%mext_xext & M3).
    + intros v Hv. split; [eapply (h_scan _ _ _ _ _ Hheap); eauto|]. intros Hoom n Hn. eapply (cl_scan _ _ _ _ _ _ HR a v n); auto. apply HRa.
      destruct (gs_oom st) eqn:Es; [|reflexivity]. rewrite (x_oom _ _ X2 (x_oom _ _ X1 Es)) in Hoom. discriminate.
    + exists st3. splits; [reflexivity|eapply Inv_scanned; eassumption|]. eapply xext_trans; [exact X1|eapply xext_trans; eassumption].
Qed.

Definition left_over (st : gstate) : nat := (size (dom objs ∖ gs_marked st) + length (gs_stack st))%nat.

(** Draining ends with an empty stack. *)
Lemma drain_ok full fuel : forall st, (left_over st <= fuel)%nat -> Idle full st -> (full = true -> gs_oom st = true) ->
  exists st', drain fuel st = Some st' /\ Idle full st' /\ xext st st' /\ gs_stack st' = [].
Proof using Hheap Hstack HR Hfuel.
  induction fuel as [|fuel IH]; intros st Hl I Hfull; cbn [gc_drain_mark_stack_weak]; (destruct (gs_stack st) as [|a s] eqn:Es; [exists st; splits; auto using xext_refl|]).
  { unfold left_over in Hl. rewrite Es in Hl. cbn in Hl. lia. }
  destruct (drain_step_ok full st a s I Hfull Es) as (st1 & -> & I1 & X1).
  assert (X0 : xext st st1) by (destruct X1 as [X1 X0 X2 X3 X4 X5 X6 X7]; split; auto; rewrite Es; cbn in *; lia).
  destruct (IH st1) as (st2 & -> & I2 & X2 & S2); [|exact I1|intros Hf; apply (x_oom _ _ X0), Hfull, Hf|].
  - pose proof (x_size _ _ X1) as Hz. unfold left_over in *. rewrite Es in Hl. cbn in *. lia.
  - exists st2. splits; auto. eapply xext_trans; eassumption.
Qed.

(** ** Phases *)

Lemma live_iff P Q E D M full st a : Inv P Q E D M full st -> gc_weak_collection_live false st a = true <-> live_map st a.
Proof.
  intros I. unfold gc_weak_collection_live, live_map, permanent. rewrite (i_objs _ _ _ _ _ _ _ I). split.
  - destruct (objs !! a) as [o|] eqn:Eo; [|discriminate]. cbn [andb orb]. intros [Hm|Hp]%orb_true_iff; [left; eapply bool_decide_eq_true_1, Hm|right; eauto].
  - intros [Hm|(o & -> & Hp)].
    + destruct (i_marked _ _ _ _ _ _ _ I a Hm) as [o ->]. rewrite bool_decide_true by exact Hm. reflexivity.
    + rewrite Hp. apply orb_true_r.
Qed.
Lemma not_map_covered full st a : (forall o, objs !! a = Some o -> type_tag o <> T_WEAKMAP) -> covered full st a.
Proof. intros H k v (o & t & Ho & Ht & _). exfalso. apply (H o Ho Ht). Qed.

(** A loop that accounts for the maps of a list. *)
Lemma each_ok full (test : gstate -> Z -> bool) (f : gstate -> Z -> option gstate) : (forall (M : Z -> Prop) st a, Inv NoZ NoZ NoN NoZ (fun x => x = a \/ M x) full st -> (full = true -> gs_oom st = true) ->
    exists st', (if test st a then f st a else Some st) = Some st' /\ Inv NoZ NoZ NoN NoZ M full st' /\ xext st st') ->
  forall l st, Inv NoZ NoZ NoN NoZ (fun x => x ∈ l) full st -> (full = true -> gs_oom st = true) ->
  exists st', each test f l st = Some st' /\ Idle full st' /\ xext st st'.
Proof.
  intros Hf. induction l as [|a l IH]; intros st I Hfull; cbn [each].
  { exists st. splits; [reflexivity| |apply xext_refl]. eapply Inv_maps; [exact I|]. intros a Ha. inversion Ha. }
  destruct (Hf (fun x => x ∈ l) st a) as (st1 & -> & I1 & X1); [|exact Hfull|].
  - eapply Inv_maps; [exact I|]. intros x [->|Hx]%elem_of_cons _; auto.
  - destruct (IH st1 I1) as (st2 & E2 & I2 & X2); [intros H; apply (x_oom _ _ X1), Hfull, H|]. exists st2. splits; auto. eapply xext_trans; eassumption.
Qed.

(** The WeakMaps that are live at the start. *)
Lemma collect_map_ok M st a : Inv NoZ NoZ NoN NoZ (fun x => x = a \/ M x) false st ->
  exists st', (if young_or_major false st a && is_weakmap st a then process_map st a else Some st) = Some st' /\ Inv NoZ NoZ NoN NoZ M false st' /\ xext st st'.
Proof using Hheap Hstack HR Hfuel.
  intros I. unfold young_or_major. cbn [negb orb]. rewrite andb_true_r. destruct (gc_weak_collection_live false st a && is_weakmap st a) eqn:Et.
  - apply andb_true_iff in Et as [Hl _]. apply (live_iff _ _ _ _ _ _ _ a I) in Hl. apply process_map_ok; [exact I|discriminate|].
    intros Ho. destruct Hl as [Hm|Hp]; [|auto]. left. eapply (i_sound _ _ _ _ _ _ _ I Ho (NObj a)), Hm.
  - exists st. splits; [reflexivity| |apply xext_refl]. eapply Inv_maps; [exact I|]. intros x [->|Hx] Hlive; [|auto]. right. right. apply not_map_covered. intros o Ho Ht.
    apply (live_iff _ _ _ _ _ _ _ a I) in Hlive. rewrite Hlive in Et. unfold is_weakmap in Et. rewrite (i_objs _ _ _ _ _ _ _ I), Ho, Ht in Et. discriminate.
Qed.

(** Everything a collection refers to is marked when memory has run out. *)
Lemma mark_all_in_ok M st a : Inv NoZ NoZ NoN NoZ (fun x => x = a \/ M x) true st -> gs_oom st = true ->
  exists st', (if gc_weak_collection_live false st a then gc_weak_mark_all_in_collection cvals stack_ok false F st a else Some st) = Some st' /\
    Inv NoZ NoZ NoN NoZ M true st' /\ xext st st'.
Proof using Hheap Hstack HR Hfuel.
  intros I Hoom. destruct (gc_weak_collection_live false st a) eqn:El.
  2: { exists st. splits; [reflexivity| |apply xext_refl]. eapply Inv_maps; [exact I|]. intros x [->|Hx] Hlive; [|auto]. apply (live_iff _ _ _ _ _ _ _ a I) in Hlive. congruence. }
  unfold gc_weak_mark_all_in_collection. rewrite (i_objs _ _ _ _ _ _ _ I). destruct (objs !! a) as [o|] eqn:Eo.
  2: { unfold gc_weak_collection_live in El. rewrite (i_objs _ _ _ _ _ _ _ I), Eo in El. discriminate. }
  assert (Hvac : forall st1 v, xext st st1 -> gs_oom st1 = false -> in_R v) by (intros st1 v X Ho; rewrite (x_oom _ _ X Hoom) in Ho; discriminate).
  assert (Hdone : forall st1, Inv NoZ NoZ NoN NoZ (fun x => x = a \/ M x) true st1 -> xext st st1 -> covered true st1 a -> exists st', Some st1 = Some st' /\ Inv NoZ NoZ NoN NoZ M true st' /\ xext st st').
  { intros st1 I1 X1 Hc. exists st1. splits; [reflexivity| |exact X1]. eapply Inv_maps; [exact I1|]. intros x [->|Hx] _; auto. }
  assert (Hother : type_tag o <> T_WEAKMAP -> forall st1, covered true st1 a) by (intros Ht st1; apply not_map_covered; congruence).
  assert (Href : exists st1, match native o with RefNative target => mark F st target | _ => Some st end = Some st1 /\
    Inv NoZ NoZ NoN NoZ (fun x => x = a \/ M x) true st1 /\ xext st st1).
  { destruct (native o) as [| | |w] eqn:En; [exists st; auto using xext_refl|exists st; auto using xext_refl|exists st; auto using xext_refl|]. destruct (mark_F _ _ _ _ _ _ st w I) as (st1 & E1 & I1 & X1 & _); [eapply (h_ref _ _ _ _ _ Hheap); eassumption|congruence|].
    exists st1. auto using mext_xext. }
  destruct Href as (st1 & -> & I1 & X1). destruct (Z.eqb_spec (type_tag o) T_WEAKMAP) as [Et|Et].
  - destruct (native o) as [|t|vs|w] eqn:En; try (apply Hdone; [exact I1|exact X1|]; intros k v (o' & t' & Ho & _ & Hn & _); congruence).
    assert (Hin : forall k v, (k, v) ∈ entries (wm t) -> is_key k -> k ∈ occupied_values t /\ v ∈ occupied_values t).
    { intros k v Hkv Hk. apply (occupied_key (k, v)) in Hk. unfold occupied_values. rewrite !list_elem_of_In, !in_flat_map. apply list_elem_of_In in Hkv. split; (exists (k, v); split; [exact Hkv|rewrite Hk; cbn; auto]). }
    destruct (all_F _ _ _ _ _ _ (occupied_values t) st1 I1) as (st2 & -> & I2 & X2 & M2).
    + intros w Hw. split; [|apply Hvac, X1]. unfold occupied_values in Hw. apply list_elem_of_In, in_flat_map in Hw as ([k v] & Hkv & Hw). destruct (weakmap_entry_is_occupied (k, v)) eqn:Ek; [|destruct Hw].
      apply (occupied_key (k, v)) in Ek. apply list_elem_of_In in Hkv. destruct (h_map _ _ _ _ _ Hheap a o t Eo En) as [_ He]. destruct (He k v Hkv Ek) as (_ & H1 & H2 & _). destruct Hw as [<-|[<-|[]]]; assumption.
    + apply Hdone; [exact I2|eapply xext_trans; [exact X1|apply mext_xext, X2]|]. intros k v (o' & t' & Ho & _ & Hn & Hkv & Hk). rewrite Eo in Ho. injection Ho as <-. rewrite En in Hn. injection Hn as <-. left. apply M2, (Hin k v Hkv Hk).
  - destruct (type_tag o =? T_WEAKSET); [|apply Hdone; auto]. destruct (native o) as [|t|vs|w] eqn:En; try (apply Hdone; auto).
    destruct (all_F _ _ _ _ _ _ vs st1 I1) as (st2 & -> & I2 & X2 & M2).
    + intros w Hw. split; [eapply (h_set _ _ _ _ _ Hheap); eassumption|apply Hvac, X1].
    + apply Hdone; [exact I2|eapply xext_trans; [exact X1|apply mext_xext, X2]|auto].
Qed.

(** The keys that are already marked release their values. *)
Lemma notify_ok ps : forall st, Inv NoZ (fun k => k ∈ ps.*1) NoN NoZ NoZ false st -> gs_oom st = false -> (forall k v, (k, v) ∈ ps -> is_key k) ->
  exists st', notify_keys cvals closures closure_old sym_permanent stack_ok false F ps st = Some st' /\ Idle false st' /\ mext st st'.
Proof using Hheap Hstack HR Hfuel.
  induction ps as [|[k v] ps IH]; intros st I Ho Hk; cbn [notify_keys].
  { exists st. splits; [reflexivity| |apply mext_refl]. eapply Inv_pairs; [exact I|]. intros Ha Hoom p i k v Hp Hi. destruct (i_pairs _ _ _ _ _ _ _ I Ha Hoom p i k v Hp Hi) as [|[|[Hix [HQ|Hw]]]]; auto. inversion HQ. }
  assert (Hone : exists st1, (if alive st k then gc_weak_key_marked (mark F) st k else Some st) = Some st1 /\ Inv NoZ (fun x => x ∈ ps.*1) NoN NoZ NoZ false st1 /\ mext st st1).
  { assert (I' : Inv NoZ (fun x => x = k \/ x ∈ ps.*1) NoN NoZ NoZ false st).
    { eapply Inv_pairs; [exact I|]. intros Ha Hoom p i x w Hp Hi. destruct (i_pairs _ _ _ _ _ _ _ I Ha Hoom p i x w Hp Hi) as [|[|[Hix [HQ|Hw]]]]; auto. cbn in HQ. apply elem_of_cons in HQ. auto. }
    destruct (alive st k) eqn:Ea.
    - apply key_F; [exact I'|eapply Hk; left|]. intros _. eapply alive_live; eassumption.
    - exists st. splits; [reflexivity| |apply mext_refl]. eapply Inv_pairs; [exact I'|]. intros Ha Hoom p i x w Hp Hi.
      destruct (i_pairs _ _ _ _ _ _ _ I' Ha Hoom p i x w Hp Hi) as [|[|[Hix [[->|HQ]|Hw]]]]; auto. right. right. split; [exact Hix|]. right. left. exact Ea. }
  destruct Hone as (st1 & -> & I1 & X1). destruct (IH st1 I1) as (st2 & -> & I2 & X2); [rewrite (m_oom _ _ X1); exact Ho|intros x w Hx; eapply Hk; right; exact Hx|].
  exists st2. splits; auto. eapply mext_trans; eassumption.
Qed.

(** Pairs whose keys are all dead need no index. *)
Definition dead_pairs (st : gstate) : Prop := gs_active st = false -> forall k v, (k, v) ∈ pairs_of st -> alive st k = false.

Lemma prepare_ok st : Idle false st -> gs_oom st = false -> gs_active st = false ->
  exists ok st', gc_weak_prepare_pending cvals closures closure_old sym_permanent malloc_ok stack_ok false F st = Some (ok, st') /\
    (ok = true -> Idle false st' /\ grows st st' /\ gs_oom st' = false /\ dead_pairs st' /\ (gs_active st' = false -> st' = st)) /\
    (ok = false -> exists p, st' = set_pending st (Some p) false false /\ pend_ok p).
Proof using Hheap Hstack HR Hfuel.
  intros I Ho Ha. unfold gc_weak_prepare_pending.
  assert (Hnop : (forall k v, (k, v) ∈ pairs_of st -> alive st k = false) -> exists ok st', Some (true, st) = Some (ok, st') /\
    (ok = true -> Idle false st' /\ grows st st' /\ gs_oom st' = false /\ dead_pairs st' /\ (gs_active st' = false -> st' = st)) /\
    (ok = false -> exists p, st' = set_pending st (Some p) false false /\ pend_ok p)).
  { intros Hd. exists true, st. splits; [reflexivity| |discriminate]. intros _. splits; auto using xext_grows, xext_refl. intros _. exact Hd. }
  destruct (gs_pending st) as [p|] eqn:Ep.
  2: { apply Hnop. unfold pairs_of. rewrite Ep. intros k v Hin. inversion Hin. }
  assert (Epairs : pairs_of st = pt_pairs p) by (unfold pairs_of; rewrite Ep; reflexivity).
  destruct (Nat.eqb_spec (length (pt_pairs p)) 0) as [E0|E0].
  { apply Hnop. rewrite Epairs. apply nil_length_inv in E0. rewrite E0. intros k v Hin. inversion Hin. }
  destruct (existsb (fun kv => alive st kv.1) (pt_pairs p)) eqn:Ex; cbn [negb].
  2: { apply Hnop. rewrite Epairs. intros k v Hin. destruct (alive st k) eqn:Ek; [|reflexivity]. rewrite <- Ex. symmetry. apply existsb_exists. exists (k, v). apply list_elem_of_In in Hin. auto. }
  pose proof (i_pend _ _ _ _ _ _ _ I p Ep) as Pk. destruct (ensure_next_ok malloc_ok closures symbols objs p (pt_cap p) Pk) as (b & p1 & -> & N1 & N2 & N3 & N4 & N5 & N6 & N7).
  destruct b; cbn [negb]; rewrite Ha, Ho.
  2: { do 2 eexists. split; [reflexivity|]. split; [discriminate|]. eauto. }
  destruct (index_all_ok malloc_ok closures symbols objs (length (pt_pairs p1)) 0 p1 N1 eq_refl) as (b & p2 & -> & L1 & L2 & L3).
  - specialize (N7 eq_refl). pose proof (pk_cap _ _ _ _ N1) as Hc. rewrite N3 in Hc. lia.
  - intros x h l Hx. exfalso. rewrite N4 in Hx. eapply (i_idle _ _ _ _ _ _ _ I Ha p); eassumption.
  - intros j Hj. lia.
  - destruct b.
    2: { do 2 eexists. split; [reflexivity|]. split; [discriminate|]. eauto. }
    assert (I1 : Inv NoZ (fun k => k ∈ (pt_pairs p2).*1) NoN NoZ NoZ false (set_pending st (Some p2) true false)).
    { destruct I as [I1 I2 I3 I4 I5 I6 I7 I8 I9 I10 I11 I12 I13]. split; cbn; auto.
      - intros q [= <-]. exact L1.
      - discriminate.
      - intros _ _ q i k v [= <-] Hi. right. right. split; [|left; apply (list_elem_of_fmap_2 fst _ (k, v)), list_elem_of_lookup_2 with i; exact Hi].
        apply L3; [reflexivity|]. rewrite <- L2. eapply lookup_lt_Some, Hi.
      - intros a Hl. destruct (I11 a Hl) as [|[[]|Hc]]; auto. right. right. intros k v Hkv. destruct (Hc k v Hkv) as [|(_ & [|(q & Hq & Hin)])]; [auto|congruence|].
        right. split; [reflexivity|]. right. exists p2. split; [reflexivity|]. rewrite L2, N2. rewrite Ep in Hq. injection Hq as <-. exact Hin.
      - intros _ q k v [= <-]. rewrite L2, N2. apply (I13 Ho p), Ep. }
    destruct (notify_ok (pt_pairs p2) _ I1 eq_refl) as (st2 & -> & I2 & X2).
    { intros k v Hin. apply (pk_entry _ _ _ _ L1 k v Hin). }
    do 2 eexists. split; [reflexivity|]. split; [|discriminate]. intros _. pose proof (m_active _ _ X2) as Ea2. cbn in Ea2. splits; [exact I2| |apply (m_oom _ _ X2)|intros H; congruence|congruence].
    apply mext_xext, xext_grows in X2. destruct X2 as [X1 X2 X3 X4 X5]. split; auto.
Qed.

(** Everything reachable from what is marked is marked. *)
Lemma closed_marks full st : Idle full st -> gs_stack st = [] -> (forall n, root n -> is_marked st n) -> full = true \/ (gs_oom st = false /\ dead_pairs st) ->
  closed scan cvals sym_permanent objs root (is_marked st).
Proof using Hheap.
  intros I Hs Hroot Hmode. split.
  - exact Hroot.
  - intros a v n Ha Hv Hn. destruct (i_scan _ _ _ _ _ _ _ I a Ha) as [Hin|[[]|H]]; [rewrite Hs in Hin; inversion Hin|]. apply (H v Hv), Hn.
  - intros c v n Hc Hv Hn. destruct (i_cvals _ _ _ _ _ _ _ I c Hc) as [[]|H]. apply (H v Hv), Hn.
  - intros a k v n Ha Hm Hk Hn. destruct (i_cov _ _ _ _ _ _ _ I a Ha) as [Hin|[[]|H]]; [rewrite Hs in Hin; inversion Hin|].
    destruct (H k v Hm) as [Hv|(Hf & Hw)]; [apply Hv, Hn|]. destruct Hmode as [|[Ho Hd]]; [congruence|]. destruct Hw as [|(p & Hp & Hin)]; [congruence|].
    assert (Hal : alive st k = true).
    { destruct Hk as [Hk|(m & Hm1 & Hm2)]; [apply alive_always; [apply (i_objs _ _ _ _ _ _ _ I)|exact Hk]|]. eapply alive_marked; [apply (i_objs _ _ _ _ _ _ _ I)| |exact Hm1|exact Hm2]. apply (entry_of_map a k v Hm). }
    destruct (gs_active st) eqn:Ea.
    + apply list_elem_of_lookup in Hin as [i Hi]. destruct (i_pairs _ _ _ _ _ _ _ I Ea Ho p i k v Hp Hi) as [[]|[Hv|(_ & [[]|[Hw|(b & _ & Hb)]])]]; [apply Hv, Hn|congruence|]. rewrite Hs in Hb. inversion Hb.
    + rewrite (Hd Ea k v) in Hal; [discriminate|]. unfold pairs_of. rewrite Hp. exact Hin.
Qed.

Definition start (st : gstate) : gstate := set_pending st (gs_pending st) false false.

(** The pairs are collected and released. *)
Lemma ephemerons_ok st : Inv NoZ NoZ NoN NoZ (fun a => a ∈ gs_collections st) false (start st) -> (left_over st <= F)%nat ->
  exists st', ephemerons scan cvals closures closure_old sym_permanent malloc_ok stack_ok false F st = Some st' /\
    (gs_oom st' = false -> Idle false st' /\ grows st st' /\ gs_stack st' = [] /\ dead_pairs st') /\
    (gs_oom st' = true -> exists st1 o b, st' = set_pending st1 o b true /\ Idle false st1 /\ grows st st1 /\ forall p, o = Some p -> pend_ok p).
Proof using Hheap Hstack HR Hfuel.
  intros I0 HF. unfold ephemerons. fold (start st).
  destruct (each_ok false (fun st a => young_or_major false st a && is_weakmap st a) process_map) with (l := gs_collections st) (st := start st) as (st1 & -> & I1 & X1); [intros M st' a I _; apply collect_map_ok, I|exact I0|discriminate|].
  assert (G1 : grows st st1) by (apply xext_grows in X1 as [A1 A2 A3 A4 A5]; split; auto).
  assert (Hle : forall st2, grows st st2 -> (left_over st2 <= F)%nat) by (intros st2 [_ _ _ _ Hz]; unfold left_over in *; lia).
  destruct (drain_ok false F st1 (Hle _ G1) I1) as (st2 & -> & I2 & X2 & S2); [discriminate|].
  assert (G2 : grows st st2) by (eapply grows_trans; [exact G1|apply xext_grows, X2]).
  assert (Hoomcase : forall st3, gs_oom st3 = true -> Idle false st3 -> grows st st3 ->
    exists st1 o b, st3 = set_pending st1 o b true /\ Idle false st1 /\ grows st st1 /\ forall p, o = Some p -> pend_ok p).
  { intros st3 Ho I3 G3. exists st3, (gs_pending st3), (gs_active st3). splits; auto; [destruct st3; cbn in *; subst; reflexivity|]. apply (i_pend _ _ _ _ _ _ _ I3). }
  destruct (gs_oom st2) eqn:Eo2.
  { rewrite Eo2. cbn [negb andb]. exists st2. splits; [reflexivity|congruence|]. intros _. apply Hoomcase; assumption. }
  assert (Ea2 : gs_active st2 = false) by (rewrite (x_active _ _ X2), (x_active _ _ X1); reflexivity).
  destruct (prepare_ok st2 I2 Eo2 Ea2) as (ok & st3 & -> & Hok & Hbad). destruct ok.
  - destruct (Hok eq_refl) as (I3 & G3 & Eo3 & D3 & Hsame). rewrite Eo3. cbn [negb andb]. assert (G03 : grows st st3) by (eapply grows_trans; eassumption). destruct (gs_active st3) eqn:Ea3.
    + destruct (drain_ok false F st3 (Hle _ G03) I3) as (st4 & -> & I4 & X4 & S4); [discriminate|]. assert (G4 : grows st st4) by (eapply grows_trans; [exact G03|apply xext_grows, X4]).
      exists st4. splits; [reflexivity| |intros Ho; apply Hoomcase; assumption]. intros _. splits; auto. intros Ha. rewrite (x_active _ _ X4), Ea3 in Ha. discriminate.
    + rewrite (Hsame eq_refl) in *. exists st2. splits; [reflexivity|auto|congruence].
  - destruct (Hbad eq_refl) as (p & -> & Hp). cbn. eexists. split; [reflexivity|]. split; [discriminate|]. intros _. exists st2, (Some p), false. splits; auto. intros q [= <-]. exact Hp.
Qed.

(** The state in which everything is marked, after memory has run out. *)
Definition reset (st : gstate) : gstate := let st := gc_weak_clear_pending st in set_pending st (gs_pending st) false (gs_oom st).
Lemma reset_same st : gs_objs (reset st) = gs_objs st /\ gs_collections (reset st) = gs_collections st /\ gs_stack (reset st) = gs_stack st /\ gs_oom (reset st) = gs_oom st /\
  gs_marked (reset st) = gs_marked st /\ gs_cmarked (reset st) = gs_cmarked st /\ gs_smarked (reset st) = gs_smarked st /\ gs_active (reset st) = false.
Proof. unfold reset, gc_weak_clear_pending. destruct (gs_pending st); cbn; splits; reflexivity. Qed.
Lemma reset_marked st n : is_marked (reset st) n <-> is_marked st n.
Proof. destruct (reset_same st) as (_ & _ & _ & _ & E1 & E2 & E3 & _). destruct n; unfold is_marked; rewrite ?E1, ?E2, ?E3; reflexivity. Qed.

Lemma reset_ok st o b : Idle false st -> (forall p, o = Some p -> pend_ok p) -> (forall a x, objs !! a = Some x -> type_tag x = T_WEAKMAP -> a ∈ gs_collections st) ->
  Inv NoZ NoZ NoN NoZ (fun a => a ∈ gs_collections (reset (set_pending st o b true))) true (reset (set_pending st o b true)).
Proof.
  intros [I1 I2 I3 I4 I5 I6 I7 I8 I9 I10 I11 I12 I13] Hp Hreg.
  assert (Hpe : forall p, gs_pending (reset (set_pending st o b true)) = Some p -> pend_ok p /\ forall k h, ~ holds (entries (pt_index p)) k h).
  { intros p. unfold reset, gc_weak_clear_pending. destruct o as [q|]; cbn; intros [= <-]. apply clear_ok, Hp. reflexivity. }
  assert (Hmv : forall v, marked_val (reset (set_pending st o b true)) v <-> marked_val st v).
  { intros v. unfold marked_val. split; intros H n Hn; [apply (proj1 (reset_marked (set_pending st o b true) n))|apply reset_marked]; apply H, Hn. }
  destruct (reset_same (set_pending st o b true)) as (E1 & E2 & E3 & E4 & E5 & E6 & E7 & E8). split; rewrite ?E1, ?E3, ?E4, ?E5, ?E6, ?E7; auto; try discriminate.
  - intros p H. apply (Hpe p H).
  - intros _ p k h H. apply (Hpe p H).
  - intros c Hc. destruct (I8 c Hc) as [|H]; [auto|]. right. intros v Hv. apply Hmv, H, Hv.
  - intros a Ha. destruct (I10 a Ha) as [|[|H]]; auto. right. right. intros v Hv. apply Hmv, H, Hv.
  - intros a _. right. rewrite E2. destruct (objs !! a) as [x|] eqn:Ex; [destruct (decide (type_tag x = T_WEAKMAP)) as [Et|Et]|].
    + left. cbn. eapply Hreg; eassumption.
    + right. apply not_map_covered. congruence.
    + right. apply not_map_covered. congruence.
Qed.

(** The end of a collection that ran out of memory. *)
Lemma finish_oom_ok st o b : Idle false st -> (left_over st <= F)%nat -> (forall p, o = Some p -> pend_ok p) ->
  (forall a x, objs !! a = Some x -> type_tag x = T_WEAKMAP -> a ∈ gs_collections st) -> (forall n, root n -> is_marked st n) ->
  exists st', finish scan cvals closures closure_old sym_permanent malloc_ok stack_ok false F (set_pending st o b true) = Some st' /\ gs_stack st' = [] /\
    gs_objs st' = objs /\ gs_oom st' = true /\ closed scan cvals sym_permanent objs root (is_marked st').
Proof using Hheap Hstack HR Hfuel.
  intros I HF Hp Hreg Hroot. pose proof (reset_ok st o b I Hp Hreg) as I0. pose proof (reset_marked (set_pending st o b true)) as Hmk.
  destruct (reset_same (set_pending st o b true)) as (E1 & E2 & E3 & E4 & E5 & _). unfold finish. fold (reset (set_pending st o b true)). set (st0 := reset _) in *. cbv zeta. rewrite E4. change (gs_oom (set_pending st o b true)) with true. cbv iota.
  destruct (each_ok true (gc_weak_collection_live false) (gc_weak_mark_all_in_collection cvals stack_ok false F)) with (l := gs_collections st0) (st := st0) as (st1 & -> & I1 & X1); [|exact I0|auto|].
  { intros M st' a I' Ho. apply mark_all_in_ok; auto. }
  destruct (drain_ok true F st1) as (st2 & -> & I2 & X2 & S2); [|exact I1|intros _; apply (x_oom _ _ X1), E4|].
  { pose proof (x_size _ _ X1) as Hz. unfold left_over in *. rewrite E3, E5 in Hz. cbn in Hz. lia. }
  eexists. split; [reflexivity|]. cbn. splits; [exact S2|apply (i_objs _ _ _ _ _ _ _ I2)|apply (x_oom _ _ X2), (x_oom _ _ X1), E4|].
  apply (closed_marks true st2 I2 S2); [|auto]. intros n Hn. apply (x_marked _ _ X2), (x_marked _ _ X1), Hmk, Hroot, Hn.
Qed.
End Marking.

(** ** Pruning *)

(** What becomes of a weak collection: the entries whose keys are live stay. *)
Definition pruned (live : Z -> Prop) (o : gobj) (n : gnative) : Prop :=
  match native o with
  | MapNative t =>
      if type_tag o =? T_WEAKMAP then
        exists t', n = MapNative t' /\ table_ok (wm t') /\ forall k v, holds (entries (wm t')) k v <-> holds (entries (wm t)) k v /\ live k
      else n = native o
  | SetNative vs => if type_tag o =? T_WEAKSET then exists vs', n = SetNative vs' /\ forall v, v ∈ vs' <-> v ∈ vs /\ live v else n = native o
  | RefNative v => (live v -> n = RefNative v) /\ (~ live v -> n = RefNative js_mkundef)
  | NoNative => n = NoNative
  end.

#[export] Instance pruned_proper : Proper (pointwise_relation Z iff ==> eq ==> eq ==> iff) pruned.
Proof.
  assert (H : forall l1 l2 : Z -> Prop, pointwise_relation Z iff l1 l2 -> forall o n, pruned l1 o n -> pruned l2 o n).
  { intros l1 l2 Hl o n. unfold pruned. destruct (native o) as [|t|vs|v]; [auto| | |intros [H1 H2]; split; intros Hv; [apply H1|apply H2; intros Hv']; apply Hl in Hv || apply Hl in Hv'; auto].
    - destruct (type_tag o =? T_WEAKMAP); [|auto]. intros (t' & -> & Ht & E). exists t'. splits; auto. intros k w. rewrite E, (Hl k). reflexivity.
    - destruct (type_tag o =? T_WEAKSET); [|auto]. intros (vs' & -> & E). exists vs'. split; [reflexivity|]. intros w. rewrite E, (Hl w). reflexivity. }
  intros l1 l2 Hl o ? <- n ? <-. split; apply H; [exact Hl|symmetry; exact Hl].
Qed.

Lemma pruned_twice live o n1 n2 : ~ live js_mkundef -> pruned live o n1 -> pruned live (with_native o n1) n2 -> pruned live o n2.
Proof.
  intros Hu. unfold pruned. cbn [native with_native type_tag]. destruct (native o) as [|t|vs|v]; intros H1 H2.
  - subst n1. exact H2.
  - destruct (type_tag o =? T_WEAKMAP); [|subst n1; exact H2]. destruct H1 as (t1 & -> & _ & E1). destruct H2 as (t2 & -> & T2 & E2). exists t2. splits; auto. intros k w. rewrite E2, E1. tauto.
  - destruct (type_tag o =? T_WEAKSET) eqn:Et; [|subst n1; rewrite ?Et in H2; exact H2]. destruct H1 as (vs1 & -> & E1). rewrite ?Et in H2. destruct H2 as (vs2 & -> & E2). exists vs2. split; [reflexivity|]. intros w. rewrite E2, E1. tauto.
  - destruct H1 as [H1 H1']. split; intros Hv; [rewrite (H1 Hv) in H2; apply H2, Hv|rewrite (H1' Hv) in H2; apply H2, Hu].
Qed.

Lemma pruned_tables live o n t : pruned live o n -> n = MapNative t -> (forall t0, native o = MapNative t0 -> table_ok (wm t0)) -> table_ok (wm t).
Proof.
  unfold pruned. intros H -> Ht. destruct (native o) as [|t0|vs|v].
  - discriminate.
  - destruct (type_tag o =? T_WEAKMAP); [destruct H as (t' & [= ->] & Ok & _); exact Ok|injection H as ->; auto].
  - destruct (type_tag o =? T_WEAKSET); [destruct H as (vs' & H & _)|]; discriminate.
  - exfalso. assert (Hn : ~ live v) by (intros Hv; apply H in Hv; discriminate). apply H in Hn. discriminate.
Qed.

Section Pruning.
Context (closures : gset Z) (closure_old sym_permanent malloc_ok : Z -> bool).
Abbreviation alive := (gc_weak_key_alive closures closure_old sym_permanent false).

Lemma alive_native st a o n k : gs_objs st !! a = Some o -> alive (set_objs st (<[a := with_native o n]> (gs_objs st))) k = alive st k.
Proof.
  intros Ho. unfold gc_weak_key_alive. cbn. destruct (ref_of k) as [b| | | |]; try reflexivity. destruct (decide (b = a)) as [->|Hne].
  - rewrite lookup_insert, decide_True, Ho by reflexivity. reflexivity.
  - rewrite lookup_insert_ne by congruence. reflexivity.
Qed.
Lemma live_native st a o n b : gs_objs st !! a = Some o -> gc_weak_collection_live false (set_objs st (<[a := with_native o n]> (gs_objs st))) b = gc_weak_collection_live false st b.
Proof.
  intros Ho. unfold gc_weak_collection_live. cbn. destruct (decide (b = a)) as [->|Hne].
  - rewrite lookup_insert, decide_True, Ho by reflexivity. reflexivity.
  - rewrite lookup_insert_ne by congruence. reflexivity.
Qed.
Lemma undef_dead st : alive st js_mkundef = false.
Proof. unfold gc_weak_key_alive. replace (ref_of js_mkundef) with RNone by (vm_compute; reflexivity). reflexivity. Qed.

Definition tables_ok (st : gstate) : Prop := forall a o t, gs_objs st !! a = Some o -> native o = MapNative t -> table_ok (wm t).

Lemma prune_one st a o : tables_ok st -> gs_objs st !! a = Some o ->
  exists n, gc_weak_prune_collection closures closure_old sym_permanent malloc_ok false st a = Some (set_objs st (<[a := with_native o n]> (gs_objs st))) /\ pruned (fun k => alive st k = true) o n.
Proof.
  intros Ht Ho. unfold gc_weak_prune_collection, pruned. rewrite Ho.
  assert (Hsame : st = set_objs st (<[a := with_native o (native o)]> (gs_objs st))).
  { replace (with_native o (native o)) with o by (destruct o; reflexivity). rewrite insert_id by exact Ho. destruct st; reflexivity. }
  destruct (native o) as [|t|vs|v] eqn:En.
  - exists NoNative. split; [f_equal; exact Hsame|reflexivity].
  - destruct (type_tag o =? T_WEAKMAP); [|exists (MapNative t); split; [f_equal; exact Hsame|reflexivity]].
    pose proof (Ht a o t Ho En) as Ok. destruct (table_models (wm t) Ok) as [m Hm]. destruct t as [t p]. cbn [wm] in *.
    destruct (table_prune_ok malloc_ok (alive st) t m p Ok Hm) as (t' & -> & Ok' & Hm'). exists (MapNative (WeakMapTable t' false)). split; [reflexivity|]. eexists. split; [reflexivity|]. split; [exact Ok'|].
    intros k w. cbn [wm]. rewrite <- (Hm' k w), map_lookup_filter_Some, (Hm k w). reflexivity.
  - destruct (type_tag o =? T_WEAKSET); [|exists (SetNative vs); split; [f_equal; exact Hsame|reflexivity]]. eexists. split; [reflexivity|]. eexists. split; [reflexivity|].
    intros w. rewrite !list_elem_of_In, filter_In. reflexivity.
  - destruct (alive st v) eqn:Ev.
    + exists (RefNative v). split; [f_equal; exact Hsame|]. split; [reflexivity|congruence].
    + exists (RefNative js_mkundef). split; [reflexivity|]. split; [congruence|reflexivity].
Qed.


(** The loop over the registered collections. *)
Lemma prune_each l : forall st, tables_ok st ->
  exists objs', each (young_or_major false) (gc_weak_prune_collection closures closure_old sym_permanent malloc_ok false) l st = Some (set_objs st objs') /\
    forall a, match gs_objs st !! a with
      | None => objs' !! a = None
      | Some o => exists n, objs' !! a = Some (with_native o n) /\
          (a ∈ l -> gc_weak_collection_live false st a = true -> pruned (fun k => alive st k = true) o n) /\
          (a ∉ l \/ gc_weak_collection_live false st a = false -> n = native o)
      end.
Proof.
  induction l as [|b l IH]; intros st Ht; cbn [each].
  { exists (gs_objs st). split; [destruct st; reflexivity|]. intros a. destruct (gs_objs st !! a) as [o|]; [|reflexivity]. exists (native o). splits; [destruct o; reflexivity| |auto]. intros H. inversion H. }
  unfold young_or_major at 1. cbn [negb orb]. rewrite andb_true_r. destruct (gc_weak_collection_live false st b) eqn:El.
  - assert (Hb : exists o, gs_objs st !! b = Some o) by (unfold gc_weak_collection_live in El; destruct (gs_objs st !! b); [eauto|discriminate]). destruct Hb as [o Ho].
    destruct (prune_one st b o Ht Ho) as (n & -> & Hn). pose proof (fun k => alive_native st b o n k Ho) as Al. pose proof (fun x => live_native st b o n x Ho) as Li.
    set (st1 := set_objs st _) in *. assert (Hl1 : forall x, gs_objs st1 !! x = if decide (x = b) then Some (with_native o n) else gs_objs st !! x).
    { intros x. cbn. destruct (decide (x = b)) as [->|Hne]; [rewrite lookup_insert, decide_True by reflexivity; reflexivity|rewrite lookup_insert_ne by congruence; reflexivity]. }
    destruct (IH st1) as (objs' & -> & Hobjs).
    { intros x ox t. rewrite Hl1. destruct (decide (x = b)) as [->|Hne]; [intros [= <-] Hm|apply Ht]. eapply pruned_tables; [exact Hn|exact Hm|]. intros t0. apply (Ht b o t0 Ho). }
    exists objs'. split; [reflexivity|]. intros a. specialize (Hobjs a). rewrite Hl1 in Hobjs. destruct (decide (a = b)) as [->|Hne].
    + rewrite Ho. destruct Hobjs as (n2 & E2 & H1 & H2). exists n2. splits; [exact E2| |intros [H|H]; [exfalso; apply H; left|congruence]]. intros _ _.
      destruct (decide (b ∈ l)) as [Hin|Hin].
      * eapply pruned_twice; [rewrite undef_dead; discriminate|exact Hn|]. assert (Hp : pruned (fun k => alive st1 k = true) (with_native o n) n2) by (apply H1; [exact Hin|rewrite Li; exact El]).
        eapply pruned_proper; [|reflexivity|reflexivity|exact Hp]. intros k. rewrite Al. reflexivity.
      * rewrite (H2 (or_introl Hin)). exact Hn.
    + destruct (gs_objs st !! a) as [oa|]; [|exact Hobjs]. destruct Hobjs as (n2 & E2 & H1 & H2). exists n2. splits; [exact E2| |].
      * intros [->|Hin]%elem_of_cons Hlive; [contradiction|]. assert (Hp : pruned (fun k => alive st1 k = true) oa n2) by (apply H1; [exact Hin|rewrite Li; exact Hlive]).
        eapply pruned_proper; [|reflexivity|reflexivity|exact Hp]. intros k. rewrite Al. reflexivity.
      * intros H. apply H2. rewrite Li. destruct H as [H|H]; [left; intros Hin; apply H; right; exact Hin|auto].
  - destruct (IH st Ht) as (objs' & -> & Hobjs). exists objs'. split; [reflexivity|]. intros a. specialize (Hobjs a). destruct (gs_objs st !! a) as [oa|]; [|exact Hobjs].
    destruct Hobjs as (n2 & E2 & H1 & H2). exists n2. splits; [exact E2| |].
    + intros [->|Hin]%elem_of_cons Hlive; [congruence|auto].
    + intros [H|H]; apply H2; [left; intros Hin; apply H; right; exact Hin|auto].
Qed.
End Pruning.

(** ** The whole *)

(** Sets with the same elements are closed alike. *)
Lemma closed_proper scan cvals sym_permanent objs root R R' : (forall n, R' n <-> R n) -> closed scan cvals sym_permanent objs root R -> closed scan cvals sym_permanent objs root R'.
Proof.
  intros E [H1 H2 H3 H4]. split.
  - intros n Hn. apply E, H1, Hn.
  - intros a v n Ha Hv Hn. apply E. eapply H2; [apply E, Ha|exact Hv|exact Hn].
  - intros c v n Hc Hv Hn. apply E. eapply H3; [apply E, Hc|exact Hv|exact Hn].
  - intros a k v n Ha Hm Hk Hn. apply E. eapply (H4 a k v n); [|exact Hm| |exact Hn].
    + destruct Ha as [Ha|Ha]; [left; apply E, Ha|right; exact Ha].
    + destruct Hk as [Hk|(m & Hm1 & Hm2)]; [left; exact Hk|]. right. exists m. split; [exact Hm1|apply E, Hm2].
Qed.
Lemma reachable_closed scan cvals sym_permanent objs root : closed scan cvals sym_permanent objs root (reachable scan cvals sym_permanent objs root).
Proof.
  split.
  - intros n Hn R HR. apply (cl_root _ _ _ _ _ _ HR), Hn.
  - intros a v n Ha Hv Hn R HR. eapply (cl_scan _ _ _ _ _ _ HR); [apply Ha, HR|exact Hv|exact Hn].
  - intros c v n Hc Hv Hn R HR. eapply (cl_cvals _ _ _ _ _ _ HR); [apply Hc, HR|exact Hv|exact Hn].
  - intros a k v n Ha Hm Hk Hn R HR. eapply (cl_map _ _ _ _ _ _ HR a k v n); [|exact Hm| |exact Hn].
    + destruct Ha as [Ha|Ha]; [left; apply Ha, HR|right; exact Ha].
    + destruct Hk as [Hk|(m & Hm1 & Hm2)]; [left; exact Hk|]. right. exists m. split; [exact Hm1|apply Hm2, HR].
Qed.

Section Process.
Context (scan cvals : Z -> list Z) (closures symbols : gset Z) (closure_old sym_permanent : Z -> bool).

(** The state in which the collector calls [gc_weak_process]: everything
    marked has been scanned or is on the stack, nothing is pending, and every
    weak collection is registered. *)
Record ready (st : gstate) : Prop := {
  r_heap : heap_ok scan cvals closures symbols (gs_objs st);
  r_marked : forall a, a ∈ gs_marked st -> is_Some (gs_objs st !! a) /\
    (a ∈ gs_stack st \/ forall v n, v ∈ scan a -> node_of (gs_objs st) v = Some n -> is_marked st n);
  r_stack : forall a, a ∈ gs_stack st -> a ∈ gs_marked st;
  r_clos : forall c, c ∈ gs_cmarked st -> c ∈ closures /\ forall v n, v ∈ cvals c -> node_of (gs_objs st) v = Some n -> is_marked st n;
  r_syms : gs_smarked st ⊆ symbols;
  r_pend : forall p, gs_pending st = Some p -> pt_pairs p = [] /\ 0 <= pt_cap p < 2 ^ 32 /\ table_ok (pt_index p) /\ forall k h, ~ holds (entries (pt_index p)) k h;
  r_registry : forall a, gc_weak_is_collection st a = true -> a ∈ gs_collections st;
  r_over : gs_registry_overflow st = false }.

Lemma ready_Inv R st : ready st -> closed scan cvals sym_permanent (gs_objs st) (is_marked st) R ->
  Inv scan cvals closures symbols closure_old sym_permanent (gs_objs st) R (fun _ => False) (fun _ => False) (fun _ => False) (fun _ => False) (fun a => a ∈ gs_collections st) false (start st).
Proof.
  intros [H1 H2 H3 H4 H5 H6 H7 H8] HR. split; cbn; auto.
  - intros a Ha. apply H2, Ha.
  - intros c Hc. apply H4, Hc.
  - intros p Hp. destruct (H6 p Hp) as (E1 & E2 & E3 & E4). split; [exact E3|intros k h H; destruct (E4 k h H)|rewrite E1; cbn; lia|rewrite E1; intros k v H; inversion H].
  - intros _ p k h Hp. apply (H6 p Hp).
  - intros c Hc. right. intros v Hv n Hn. eapply H4; eassumption.
  - discriminate.
  - intros a Ha. destruct (H2 a Ha) as [_ [H|H]]; [auto|]. right. right. intros v Hv n Hn. eapply H; eassumption.
  - intros a Ha. right. destruct (gs_objs st !! a) as [o|] eqn:Eo; [|right; apply not_map_covered; congruence]. destruct (decide (type_tag o = T_WEAKMAP)) as [Et|Et].
    + left. apply H7. unfold gc_weak_is_collection. rewrite Eo, Et. reflexivity.
    + right. apply not_map_covered. congruence.
  - intros _ n Hn. apply (cl_root _ _ _ _ _ _ HR), Hn.
  - intros _ p k v Hp Hin. destruct (H6 p Hp) as (E1 & _). rewrite E1 in Hin. inversion Hin.
Qed.

Context (malloc_ok stack_ok : Z -> bool) (F : nat) (objects : list Z) (registry_room : Z -> bool).
Abbreviation alive := (gc_weak_key_alive closures closure_old sym_permanent false).
Abbreviation process := (gc_weak_process scan cvals closures closure_old sym_permanent malloc_ok stack_ok false F objects registry_room).

(** What a collection that did not run out of memory leaves. *)
Record collected (st st' : gstate) : Prop := {
  co_marks : forall n, is_marked st' n <-> reachable scan cvals sym_permanent (gs_objs st) (is_marked st) n;
  co_objs : forall a o, gs_objs st !! a = Some o -> exists n, gs_objs st' !! a = Some (with_native o n) /\
    (gc_weak_is_collection st a = true -> is_marked st' (NObj a) \/ permanent (gs_objs st) a ->
     pruned (key_live sym_permanent (gs_objs st) (is_marked st')) o n) /\
    (a ∉ gs_collections st \/ ~ (is_marked st' (NObj a) \/ permanent (gs_objs st) a) -> n = native o);
  co_registry : forall a, a ∈ gs_collections st' <-> a ∈ gs_collections st /\ (is_marked st' (NObj a) \/ permanent (gs_objs st) a) }.

Lemma alive_reset st k : alive (reset st) k = alive st k.
Proof. destruct (reset_same st) as (E1 & _ & _ & _ & E5 & E6 & E7 & _). unfold gc_weak_key_alive. rewrite E1, E5, E6, E7. reflexivity. Qed.
Lemma live_reset st a : gc_weak_collection_live false (reset st) a = gc_weak_collection_live false st a.
Proof. destruct (reset_same st) as (E1 & _ & _ & _ & E5 & _). unfold gc_weak_collection_live. rewrite E1, E5. reflexivity. Qed.

Section Run.
Context (st : gstate).
Hypothesis Hready : ready st.
Hypothesis Hstack : forall n, stack_ok n = true.
Hypothesis Hfuel : (size closures + size symbols < F)%nat.
Hypothesis Hleft : (size (dom (gs_objs st) ∖ gs_marked st) + length (gs_stack st) <= F)%nat.
Abbreviation reach := (reachable scan cvals sym_permanent (gs_objs st) (is_marked st)).

(** The end of a collection that has all the memory it needs. *)
Lemma finish_prune_run st1 : Inv scan cvals closures symbols closure_old sym_permanent (gs_objs st) reach (fun _ => False) (fun _ => False) (fun _ => False) (fun _ => False) (fun _ => False) false st1 ->
  grows (gs_objs st) st st1 -> gs_stack st1 = [] -> gs_oom st1 = false -> dead_pairs closures closure_old sym_permanent st1 ->
  exists st', finish scan cvals closures closure_old sym_permanent malloc_ok stack_ok false F st1 = Some st' /\ gs_stack st' = [] /\ gs_oom st' = false /\ (forall n, is_marked st' n <-> is_marked st1 n) /\ collected st st'.
Proof using Hready.
  intros I G Hs Ho Hd. pose proof (closed_marks _ _ _ _ _ _ _ (is_marked st) reach (r_heap _ Hready) false st1 I Hs (g_marked _ _ _ G) (or_intror (conj Ho Hd))) as Hcl.
  assert (Hmk : forall n, is_marked st1 n <-> reach n) by (intros n; split; [apply (i_sound _ _ _ _ _ _ _ _ _ _ _ _ _ _ _ I Ho)|intros H; apply H, Hcl]).
  destruct (reset_same st1) as (E1 & E2 & E3 & E4 & E5 & E6 & E7 & E8). pose proof (reset_marked st1) as Erm. unfold finish. fold (reset st1). cbv zeta. rewrite E4, Ho. cbv iota.
  destruct (prune_each closures closure_old sym_permanent malloc_ok (gs_collections (reset st1)) (reset st1)) as (objs' & -> & Hobjs).
  { intros a o t. rewrite E1, (i_objs _ _ _ _ _ _ _ _ _ _ _ _ _ _ _ I). intros H1 H2. eapply (h_map _ _ _ _ _ (r_heap _ Hready)); eassumption. }
  cbv iota. eexists. split; [reflexivity|].
  assert (Hlive : forall a, gc_weak_collection_live false st1 a = true <-> is_marked st1 (NObj a) \/ permanent (gs_objs st) a) by (intros a; apply (live_iff _ _ _ _ _ _ _ _ _ _ _ _ _ _ _ a I)).
  assert (Hlookup : forall a, gc_weak_collection_live false (set_objs (reset st1) objs') a = gc_weak_collection_live false st1 a).
  { intros a. specialize (Hobjs a). rewrite E1, (i_objs _ _ _ _ _ _ _ _ _ _ _ _ _ _ _ I) in Hobjs. unfold gc_weak_collection_live. cbn. rewrite (i_objs _ _ _ _ _ _ _ _ _ _ _ _ _ _ _ I).
    destruct (gs_objs st !! a) as [o|]; [destruct Hobjs as (n & -> & _)|rewrite Hobjs; reflexivity].
    cbn. change (gs_marked (gc_weak_clear_pending st1)) with (gs_marked (reset st1)). rewrite E5. reflexivity. }
  splits.
  - cbn. change (gs_stack (gc_weak_clear_pending st1)) with (gs_stack (reset st1)). rewrite E3. exact Hs.
  - cbn. change (gs_oom (gc_weak_clear_pending st1)) with (gs_oom (reset st1)). rewrite E4. exact Ho.
  - intros n. rewrite <- Erm. destruct n; reflexivity.
  - assert (Em : forall n, is_marked (set_registry (set_objs (reset st1) objs') (List.filter (gc_weak_collection_live false (set_objs (reset st1) objs')) (gs_collections (set_objs (reset st1) objs'))) (gs_registry_overflow (set_objs (reset st1) objs')) [] false) n <-> is_marked st1 n) by (intros n; rewrite <- Erm; destruct n; reflexivity).
    set (st' := set_registry _ _ _ _ _) in *. split.
    + intros n. rewrite Em. apply Hmk.
    + intros a o Hao. specialize (Hobjs a). rewrite E1, (i_objs _ _ _ _ _ _ _ _ _ _ _ _ _ _ _ I), Hao in Hobjs. destruct Hobjs as (n & En & H1 & H2). exists n. splits; [exact En| |].
      * intros Hc Hl. rewrite Em in Hl. apply Hlive in Hl. eapply pruned_proper; [|reflexivity|reflexivity|apply H1].
        -- intros k. rewrite alive_reset. pose proof (alive_iff scan cvals closures symbols closure_old sym_permanent (gs_objs st) (r_heap _ Hready) st1 k (i_objs _ _ _ _ _ _ _ _ _ _ _ _ _ _ _ I) (i_syms _ _ _ _ _ _ _ _ _ _ _ _ _ _ _ I) (i_clos _ _ _ _ _ _ _ _ _ _ _ _ _ _ _ I)) as ->.
           unfold key_live. setoid_rewrite Em. reflexivity.
        -- rewrite E2, (g_coll _ _ _ G). apply (r_registry _ Hready), Hc.
        -- rewrite live_reset. exact Hl.
      * rewrite Em. intros H. apply H2. rewrite live_reset, E2, (g_coll _ _ _ G). destruct H as [H|H]; [auto|]. right. destruct (gc_weak_collection_live false st1 a) eqn:El; [|reflexivity]. exfalso. apply H, Hlive, El.
    + intros a. rewrite Em, <- Hlive. change (gs_collections st') with (List.filter (gc_weak_collection_live false (set_objs (reset st1) objs')) (gs_collections (reset st1))).
      rewrite list_elem_of_In, filter_In, E2, (g_coll _ _ _ G), <- list_elem_of_In. rewrite Hlookup. reflexivity.
Qed.

(** The two ways a collection ends. *)
Lemma process_run : exists st', process st = Some st' /\ gs_stack st' = [] /\ closed scan cvals sym_permanent (gs_objs st) (is_marked st) (is_marked st') /\
  (gs_oom st' = false -> collected st st').
Proof using Hready Hstack Hfuel Hleft.
  pose proof (reachable_closed scan cvals sym_permanent (gs_objs st) (is_marked st)) as HR. pose proof (ready_Inv reach st Hready HR) as I0.
  unfold gc_weak_process. rewrite (r_over _ Hready). cbn [orb andb].
  destruct (ephemerons_ok scan cvals closures symbols closure_old sym_permanent (gs_objs st) stack_ok _ reach (r_heap _ Hready) Hstack HR malloc_ok F Hfuel st I0 Hleft) as (st1 & -> & H1 & H2).
  change (fun st => let st := gc_weak_clear_pending st in set_pending st (gs_pending st) false (gs_oom st)) with reset.
  assert (Hend : forall st2, gs_stack st2 = [] -> closed scan cvals sym_permanent (gs_objs st) (is_marked st) (is_marked st2) -> (gs_oom st2 = false -> collected st st2) ->
    exists st', option_map reset (Some st2) = Some st' /\ gs_stack st' = [] /\ closed scan cvals sym_permanent (gs_objs st) (is_marked st) (is_marked st') /\ (gs_oom st' = false -> collected st st')).
  { intros st2 S2 C2 K2. destruct (reset_same st2) as (E1 & E2 & E3 & E4 & _). pose proof (reset_marked st2) as Em. eexists. split; [reflexivity|]. rewrite E3, E4. splits; [exact S2| |].
    - eapply closed_proper; [exact Em|exact C2].
    - intros Ho. destruct (K2 Ho) as [K3 K4 K5]. split.
      + intros n. rewrite Em. apply K3.
      + intros a o Ha. destruct (K4 a o Ha) as (n & N1 & N2 & N3). exists n. rewrite E1. unfold key_live. setoid_rewrite Em. auto.
      + intros a. rewrite E2, Em. apply K5. }
  destruct (gs_oom st1) eqn:Eo.
  - destruct (H2 eq_refl) as (st2 & o & b & -> & I2 & G2 & Hp).
    destruct (finish_oom_ok scan cvals closures symbols closure_old sym_permanent (gs_objs st) stack_ok (is_marked st) reach (r_heap _ Hready) Hstack HR malloc_ok F Hfuel st2 o b I2) as (st3 & -> & S3 & O3 & Z3 & C3).
    + unfold left_over. pose proof (g_size _ _ _ G2). lia.
    + exact Hp.
    + intros a x Hx Ht. rewrite (g_coll _ _ _ G2). apply (r_registry _ Hready). unfold gc_weak_is_collection. rewrite Hx, Ht. reflexivity.
    + apply (g_marked _ _ _ G2).
    + apply Hend; [exact S3|exact C3|congruence].
  - destruct (H1 eq_refl) as (I1 & G1 & S1 & D1). destruct (finish_prune_run st1 I1 G1 S1 Eo D1) as (st2 & -> & S2 & O2 & M2 & K2). apply Hend; [exact S2| |auto].
    apply (closed_proper _ _ _ _ _ _ _ (fun n => M2 n)). apply (closed_marks _ _ _ _ _ _ _ (is_marked st) reach (r_heap _ Hready) false st1 I1 S1 (g_marked _ _ _ G1)). auto.
Qed.
End Run.

(** C8: in a full collection (not a minor one) of a well-formed heap that
    starts with everything marked scanned or on the mark stack, nothing pending
    and every weak collection registered, and whose mark stack can always grow,
    [gc_weak_process] ends with an empty mark stack and everything reachable is
    marked, whatever the tables of pending keys are refused by [malloc] and in
    whatever order keys and maps are reached. What is reachable is what the
    marked objects lead to along strong references, where the value of a
    WeakMap entry counts when the map and the key do. The target of a WeakRef
    is not a strong reference: what only a WeakRef leads to may be freed. *)
Theorem weak_process_keeps st : ready st -> (forall n, stack_ok n = true) -> (size closures + size symbols < F)%nat ->
  (size (dom (gs_objs st) ∖ gs_marked st) + length (gs_stack st) <= F)%nat ->
  exists st', process st = Some st' /\ gs_stack st' = [] /\ forall n, reachable scan cvals sym_permanent (gs_objs st) (is_marked st) n -> is_marked st' n.
Proof.
  intros H1 H2 H3 H4. destruct (process_run st H1 H2 H3 H4) as (st' & E & S & C & _). exists st'. splits; [exact E|exact S|]. intros n Hn. apply Hn, C.
Qed.

(** C9: in a full collection (not a minor one) that starts as in
    [weak_process_keeps], whose mark stack can always grow and in which no
    other table was refused memory, [gc_weak_process] marks exactly what is
    reachable, and in every live weak collection exactly the entries with a
    live key remain: dead entries leave WeakMaps and WeakSets, a WeakRef to a
    dead target reads undefined, other objects are untouched, and the registry
    lists the live collections. Minor collections, which keep entries with old
    keys, are not covered. *)
Theorem weak_process_exact st : ready st -> (forall n, stack_ok n = true) -> (size closures + size symbols < F)%nat ->
  (size (dom (gs_objs st) ∖ gs_marked st) + length (gs_stack st) <= F)%nat ->
  forall st', process st = Some st' -> gs_oom st' = false -> collected st st'.
Proof.
  intros H1 H2 H3 H4 st' E Ho. destruct (process_run st H1 H2 H3 H4) as (st2 & E2 & _ & _ & C). rewrite E in E2. injection E2 as <-. apply C, Ho.
Qed.
End Process.

(** ** An example

    A map at 4096, a closure and three objects as keys, a WeakRef at 24576 to
    the object at 16384, which nothing else refers to. *)

Module Example.
Definition scan (a : Z) : list Z := if a =? 8192 then [mkval T_FUNC 256] else [].
Definition cvals (_ : Z) : list Z := [].
Definition closures : gset Z := {[256]}.
Definition symbols : gset Z := ∅.
Definition obj (a : Z) : Z := mkval T_OBJ a.
Definition entries_in : list (Z * Z) := [(obj 12288, obj 12544); (obj 16384, obj 20480); (mkval T_FUNC 256, obj 12288)].
Definition fill (l : list (Z * Z)) : weakmap_table_t :=
  fold_left (fun t kv => match weakmap_table_store (fun _ => true) t kv.1 kv.2 with Some (_, t) => t | None => t end) l weakmap_table_new.
Definition plain : gobj := GObj T_OBJ false false NoNative.
Definition heap : list (Z * gobj) :=
  [(4096, GObj T_WEAKMAP false false (MapNative (fill entries_in))); (8192, plain); (12288, plain); (12544, plain); (16384, plain); (20480, plain);
   (24576, GObj T_OBJ false false (RefNative (obj 16384)))].
Definition before : gstate := GState (list_to_map heap) {[4096; 8192; 24576]} ∅ ∅ [8192] 4096 [4096; 24576] [] false false None false false.
Definition run (malloc_ok : Z -> bool) : option gstate :=
  gc_weak_process scan cvals closures (fun _ => false) (fun _ => false) malloc_ok (fun _ => true) false 8 [] (fun _ => true) before.

Lemma fill_ok l : (forall kv, kv ∈ l -> is_key kv.1) -> table_ok (wm (fill l)).
Proof.
  intros H. unfold fill. assert (G : forall t, table_ok (wm t) -> table_ok (wm (fold_left (fun t kv => match weakmap_table_store (fun _ => true) t kv.1 kv.2 with Some (_, t) => t | None => t end) l t))).
  { induction l as [|kv l IH]; intros t Ht; cbn [fold_left]; [exact Ht|]. apply IH; [intros x Hx; apply H; right; exact Hx|]. destruct t as [t p]. destruct (table_models t Ht) as [m Hm].
    destruct (table_store_ok (fun _ => true) t m p kv.1 kv.2 Ht Hm) as (b & t' & -> & Ht' & _); [apply H; left|exact Ht']. }
  apply G. apply empty_ok.
Qed.

#[local] Opaque fill mkval.
Lemma heap_all (P : Z -> gobj -> Prop) : P 4096 (GObj T_WEAKMAP false false (MapNative (fill entries_in))) -> P 24576 (GObj T_OBJ false false (RefNative (obj 16384))) ->
  Forall (fun a => P a plain) [8192; 12288; 12544; 16384; 20480] -> forall a o, (list_to_map heap : gmap Z gobj) !! a = Some o -> P a o.
Proof.
  intros H1 H2 H3 a o Ho. apply elem_of_list_to_map_2 in Ho. rewrite Forall_forall in H3.
  assert (G : Forall (fun ao => P ao.1 ao.2) heap); [|rewrite Forall_forall in G; apply (G (a, o)), Ho].
  unfold heap. rewrite !Forall_cons. cbn [fst snd]. splits; try assumption; try constructor; apply H3, list_elem_of_In; cbn; auto 6.
Qed.
Lemma obj_ref a : 0 < a < 2 ^ 47 -> ref_of (obj a) = RObj a.
Proof. intros H. unfold obj. rewrite ref_mkval by (unfold T_OBJ; lia). reflexivity. Qed.
Lemma obj_known a : 0 < a < 2 ^ 47 -> known closures symbols (obj a).
Proof. intros H. unfold known. rewrite obj_ref by exact H. exact I. Qed.

Lemma func_ref : ref_of (mkval T_FUNC 256) = RFunc 256.
Proof. rewrite ref_mkval by (unfold T_FUNC; lia). reflexivity. Qed.
Lemma func_known : known closures symbols (mkval T_FUNC 256).
Proof. unfold known. rewrite func_ref. right. apply elem_of_singleton. reflexivity. Qed.
Lemma obj_canonical a : 0 < a < 2 ^ 47 -> canonical (list_to_map heap) (obj a).
Proof.
  intros H. unfold canonical. rewrite obj_ref by exact H. intros o Ho. symmetry. revert a o Ho H. apply (heap_all (fun a o => 0 < a < 2 ^ 47 -> gc_weak_key_from_marked_object o a = obj a)); [reflexivity|reflexivity|].
  repeat constructor; reflexivity.
Qed.
Lemma func_canonical : canonical (list_to_map heap) (mkval T_FUNC 256).
Proof. unfold canonical. rewrite func_ref. reflexivity. Qed.

Lemma entries_good k v : (k, v) ∈ entries_in -> entry_ok closures symbols (list_to_map heap) k v.
Proof.
  intros H. unfold entries_in in H. repeat (apply elem_of_cons in H as [H|H]); [injection H as -> ->|injection H as -> ->|injection H as -> ->|inversion H];
    unfold entry_ok; splits; try apply mkval_key; first [apply obj_known; lia | apply func_known | apply obj_canonical; lia | apply func_canonical].
Qed.
#[local] Transparent fill mkval.
Lemma filled kv : kv ∈ entries (wm (fill entries_in)) -> is_key kv.1 -> kv ∈ entries_in.
Proof.
  assert (H : forallb (fun kv => negb (weakmap_entry_is_occupied kv) || bool_decide (kv ∈ entries_in)) (entries (wm (fill entries_in))) = true) by (vm_compute; reflexivity).
  rewrite forallb_forall in H. intros Hin%list_elem_of_In Hk. specialize (H kv Hin). apply occupied_key in Hk. rewrite Hk in H. apply bool_decide_eq_true in H. exact H.
Qed.
#[local] Opaque fill mkval.

Lemma MapNative_inj t t' : MapNative t = MapNative t' -> t = t'.
Proof. congruence. Qed.

Lemma heap_good : heap_ok scan cvals closures symbols (list_to_map heap).
Proof.
  split.
  - splits; [|intros c ->%elem_of_singleton; lia|intros s Hs; inversion Hs]. intros a [o Ho]. revert a o Ho. apply (heap_all (fun a _ => 0 < a < 2 ^ 47)); [lia|lia|repeat constructor; lia].
  - apply (heap_all (fun _ o => 0 <= type_tag o < 32)); [|unfold T_OBJ; cbn; lia|repeat constructor; cbn; unfold T_OBJ; lia]. unfold T_WEAKMAP. cbn. lia.
  - intros a v _ Hv. unfold scan in Hv. destruct (a =? 8192); [|inversion Hv]. apply list_elem_of_singleton in Hv as ->. apply func_known.
  - intros c v _ Hv. inversion Hv.
  - intros a o t Ho. revert t. revert a o Ho. apply (heap_all (fun _ o => forall t, native o = MapNative t -> table_ok (wm t) /\ forall k v, (k, v) ∈ entries (wm t) -> is_key k -> entry_ok closures symbols (list_to_map heap) k v)).
    + intros t <-%MapNative_inj. split; [|intros k v Hkv Hk; apply entries_good, (filled (k, v) Hkv Hk)]. apply fill_ok. intros [k v] Hkv. apply (entries_good k v Hkv).
    + discriminate.
    + repeat constructor; discriminate.
  - intros a o vs v Ho. revert vs v. revert a o Ho. apply (heap_all (fun _ o => forall vs v, native o = SetNative vs -> v ∈ vs -> known closures symbols v)); [discriminate|discriminate|repeat constructor; discriminate].
  - intros a o v Ho. revert v. revert a o Ho. apply (heap_all (fun _ o => forall v, native o = RefNative v -> known closures symbols v)); [discriminate| |repeat constructor; discriminate].
    intros v [= <-]. apply obj_known. lia.
Qed.

Lemma before_ready : ready scan cvals closures symbols before.
Proof.
  split; cbn [before gs_objs gs_marked gs_stack gs_cmarked gs_smarked gs_pending gs_collections gs_registry_overflow].
  - apply heap_good.
  - intros a Ha. rewrite !elem_of_union, !elem_of_singleton in Ha. split; [|destruct Ha as [[->| ->]| ->]; [right|left; left|right]; intros v n Hv; inversion Hv].
    destruct Ha as [[->| ->]| ->]; eexists; vm_compute; reflexivity.
  - intros a ->%list_elem_of_singleton. rewrite !elem_of_union, !elem_of_singleton. auto.
  - intros c Hc. inversion Hc.
  - intros s Hs. inversion Hs.
  - discriminate.
  - intros a. unfold gc_weak_is_collection. cbn [gs_objs before]. destruct (list_to_map heap !! a) as [o|] eqn:Ho; [|discriminate]. revert a o Ho.
    apply (heap_all (fun a o => (type_tag o =? T_WEAKMAP) || (type_tag o =? T_WEAKSET) || match native o with RefNative _ => true | _ => false end = true -> a ∈ [4096; 24576])); [left|right; left|repeat constructor; discriminate].
  - reflexivity.
Qed.
#[local] Transparent fill mkval.

Definition marked_list (o : option gstate) : list Z := match o with Some st => elements (gs_marked st) | None => [] end.
Definition native_at (o : option gstate) (a : Z) : option gnative := match o with Some st => option_map native (gs_objs st !! a) | None => None end.

Lemma fuel_enough : (size closures + size symbols < 8)%nat /\ (size (dom (gs_objs before) ∖ gs_marked before) + length (gs_stack before) <= 8)%nat.
Proof. split; [apply Nat.ltb_lt|apply Nat.leb_le]; vm_compute; reflexivity. Qed.

(** When memory is refused the dead pair at 16384 is kept as well. *)
Lemma weak_process_keeps_witness : ready scan cvals closures symbols before /\ marked_list (run (fun _ => false)) = [12544; 20480; 12288; 24576; 16384; 8192; 4096] /\
  exists st', run (fun _ => false) = Some st' /\ gs_stack st' = [] /\ forall n, reachable scan cvals (fun _ => false) (gs_objs before) (is_marked before) n -> is_marked st' n.
Proof.
  split; [exact before_ready|]. split; [vm_compute; reflexivity|].
  exact (weak_process_keeps scan cvals closures symbols (fun _ => false) (fun _ => false) (fun _ => false) (fun _ => true) 8 [] (fun _ => true) before before_ready (fun _ => eq_refl) (proj1 fuel_enough) (proj2 fuel_enough)).
Defined.

(** With memory the dead pair goes and the WeakRef is cleared. *)
Lemma weak_process_exact_witness : marked_list (run (fun _ => true)) = [12544; 12288; 24576; 8192; 4096] /\ native_at (run (fun _ => true)) 24576 = Some (RefNative js_mkundef) /\
  exists st', run (fun _ => true) = Some st' /\ collected scan cvals (fun _ => false) before st'.
Proof.
  split; [vm_compute; reflexivity|]. split; [vm_compute; reflexivity|].
  assert (H : exists st', run (fun _ => true) = Some st' /\ gs_oom st' = false).
  { destruct (run (fun _ => true)) as [st'|] eqn:E; [exists st'; split; [reflexivity|]|exfalso].
    - assert (G : option_map gs_oom (run (fun _ => true)) = Some false) by (vm_compute; reflexivity). rewrite E in G. injection G as ->. reflexivity.
    - assert (G : option_map gs_oom (run (fun _ => true)) = Some false) by (vm_compute; reflexivity). rewrite E in G. discriminate. }
  destruct H as (st' & E & Ho). exists st'. split; [exact E|].
  exact (weak_process_exact scan cvals closures symbols (fun _ => false) (fun _ => false) (fun _ => true) (fun _ => true) 8 [] (fun _ => true) before before_ready (fun _ => eq_refl) (proj1 fuel_enough) (proj2 fuel_enough) st' E Ho).
Defined.

(** A WeakRef that is first reached in the last drain after memory ran out is
    neither cleared nor is its target marked: the WeakRef at 24576 is live, its
    target at 16384 is about to be freed. *)
Definition scan_late (a : Z) : list Z := if a =? 8192 then [obj 12288] else if a =? 12544 then [obj 24576] else [].
Definition late : gstate :=
  GState (list_to_map [(4096, GObj T_WEAKMAP false false (MapNative (fill [(obj 12288, obj 12544)]))); (8192, plain); (12288, plain); (12544, plain); (16384, plain);
                       (24576, GObj T_OBJ false false (RefNative (obj 16384)))])
    {[4096; 8192]} ∅ ∅ [8192] 4096 [4096; 24576] [] false false None false false.
Lemma weakref_target_lost :
  let r := gc_weak_process scan_late cvals closures (fun _ => false) (fun _ => false) (fun _ => false) (fun _ => true) false 8 [] (fun _ => true) late in
  marked_list r = [12544; 12288; 24576; 8192; 4096] /\ native_at r 24576 = Some (RefNative (obj 16384)).
Proof. vm_compute. split; reflexivity. Qed.
End Example.
