(* ===== verification/SilverLexer.v ===== *)
(** * The Silver lexer

    [src/src/silver/lexer.c]: white space and comments, identifiers and
    keywords, numbers, strings, templates, operators, and the driver with its
    one-token state.  The source text is a list of bytes; a function that takes
    a pointer and the number of bytes left takes the list of these bytes.
    Loops that are not structural have fuel, and [None] is a loop that does
    not end within it.

    Parameters: utf8proc is the class of [Utf8Codec], with the general category
    of a code point as [category]; [number_parse] is [ant_number_parse] in
    decimal mode ([numbers.cc], which calls the double-conversion library) and
    gives the bits of the double when the whole text is a number; [malloc_ok]
    says whether a number of bytes can be allocated. *)

From S2P Require Import Prelude Utf8Codec Date.

(** ** Tokens *)

Definition TOK_ERR : Z := 0.
Definition TOK_EOF : Z := 1.
Definition TOK_NUMBER : Z := 2.
Definition TOK_STRING : Z := 3.
Definition TOK_SEMICOLON : Z := 4.
Definition TOK_BIGINT : Z := 5.
Definition TOK_LPAREN : Z := 6.
Definition TOK_RPAREN : Z := 7.
Definition TOK_LBRACE : Z := 8.
Definition TOK_RBRACE : Z := 9.
Definition TOK_LBRACKET : Z := 10.
Definition TOK_RBRACKET : Z := 11.
Definition TOK_IDENTIFIER : Z := 50.
Definition TOK_ASYNC : Z := 51.
Definition TOK_AWAIT : Z := 52.
Definition TOK_BREAK : Z := 53.
Definition TOK_CASE : Z := 54.
Definition TOK_CATCH : Z := 55.
Definition TOK_CLASS : Z := 56.
Definition TOK_CONST : Z := 57.
Definition TOK_CONTINUE : Z := 58.
Definition TOK_DEFAULT : Z := 59.
Definition TOK_DELETE : Z := 60.
Definition TOK_DO : Z := 61.
Definition TOK_DEBUGGER : Z := 62.
Definition TOK_ELSE : Z := 63.
Definition TOK_EXPORT : Z := 64.
Definition TOK_FINALLY : Z := 65.
Definition TOK_FOR : Z := 66.
Definition TOK_FROM : Z := 67.
Definition TOK_FUNC : Z := 68.
Definition TOK_IF : Z := 69.
Definition TOK_IMPORT : Z := 70.
Definition TOK_IN : Z := 71.
Definition TOK_INSTANCEOF : Z := 72.
Definition TOK_LET : Z := 73.
Definition TOK_NEW : Z := 74.
Definition TOK_OF : Z := 75.
Definition TOK_RETURN : Z := 76.
Definition TOK_SUPER : Z := 77.
Definition TOK_SWITCH : Z := 78.
Definition TOK_THIS : Z := 79.
Definition TOK_THROW : Z := 80.
Definition TOK_TRY : Z := 81.
Definition TOK_VAR : Z := 82.
Definition TOK_VOID : Z := 83.
Definition TOK_WHILE : Z := 84.
Definition TOK_WITH : Z := 85.
Definition TOK_YIELD : Z := 86.
Definition TOK_UNDEF : Z := 87.
Definition TOK_NULL : Z := 88.
Definition TOK_TRUE : Z := 89.
Definition TOK_FALSE : Z := 90.
Definition TOK_AS : Z := 91.
Definition TOK_STATIC : Z := 92.
Definition TOK_TYPEOF : Z := 93.
Definition TOK_USING : Z := 94.
Definition TOK_WINDOW : Z := 95.
Definition TOK_GLOBAL_THIS : Z := 96.
Definition TOK_DOT : Z := 100.
Definition TOK_POSTINC : Z := 103.
Definition TOK_POSTDEC : Z := 104.
Definition TOK_NOT : Z := 105.
Definition TOK_TILDA : Z := 106.
Definition TOK_EXP : Z := 109.
Definition TOK_MUL : Z := 110.
Definition TOK_DIV : Z := 111.
Definition TOK_REM : Z := 112.
Definition TOK_OPTIONAL_CHAIN : Z := 113.
Definition TOK_REST : Z := 114.
Definition TOK_PLUS : Z := 115.
Definition TOK_MINUS : Z := 116.
Definition TOK_SHL : Z := 117.
Definition TOK_SHR : Z := 118.
Definition TOK_ZSHR : Z := 119.
Definition TOK_LT : Z := 120.
Definition TOK_LE : Z := 121.
Definition TOK_GT : Z := 122.
Definition TOK_GE : Z := 123.
Definition TOK_EQ : Z := 124.
Definition TOK_NE : Z := 125.
Definition TOK_SEQ : Z := 126.
Definition TOK_SNE : Z := 127.
Definition TOK_AND : Z := 128.
Definition TOK_XOR : Z := 129.
Definition TOK_OR : Z := 130.
Definition TOK_LAND : Z := 131.
Definition TOK_LOR : Z := 132.
Definition TOK_NULLISH : Z := 133.
Definition TOK_COLON : Z := 134.
Definition TOK_Q : Z := 135.
Definition TOK_ASSIGN : Z := 136.
Definition TOK_PLUS_ASSIGN : Z := 137.
Definition TOK_MINUS_ASSIGN : Z := 138.
Definition TOK_MUL_ASSIGN : Z := 139.
Definition TOK_DIV_ASSIGN : Z := 140.
Definition TOK_REM_ASSIGN : Z := 141.
Definition TOK_SHL_ASSIGN : Z := 142.
Definition TOK_SHR_ASSIGN : Z := 143.
Definition TOK_ZSHR_ASSIGN : Z := 144.
Definition TOK_AND_ASSIGN : Z := 145.
Definition TOK_XOR_ASSIGN : Z := 146.
Definition TOK_OR_ASSIGN : Z := 147.
Definition TOK_EXP_ASSIGN : Z := 148.
Definition TOK_LOR_ASSIGN : Z := 149.
Definition TOK_LAND_ASSIGN : Z := 150.
Definition TOK_NULLISH_ASSIGN : Z := 151.
Definition TOK_COMMA : Z := 152.
Definition TOK_TEMPLATE : Z := 153.
Definition TOK_ARROW : Z := 154.
Definition TOK_HASH : Z := 155.

(** ** Characters *)

Definition CHAR_DIGIT : Z := 0x01.
Definition CHAR_XDIGIT : Z := 0x02.
Definition CHAR_ALPHA : Z := 0x04.
Definition CHAR_IDENT : Z := 0x08.
Definition CHAR_IDENT1 : Z := 0x10.
Definition CHAR_WS : Z := 0x20.
Definition CHAR_OCTAL : Z := 0x40.

Definition between (lo hi c : Z) : bool := (lo <=? c) && (c <=? hi).

(** The table, by ranges of characters. *)
Definition char_type (c : Z) : Z :=
  if (c =? 9) || (c =? 10) || (c =? 13) || (c =? 32) then CHAR_WS
  else if between 48 55 c then CHAR_DIGIT .| CHAR_XDIGIT .| CHAR_IDENT .| CHAR_OCTAL
  else if between 56 57 c then CHAR_DIGIT .| CHAR_XDIGIT .| CHAR_IDENT
  else if between 65 70 c || between 97 102 c then CHAR_XDIGIT .| CHAR_ALPHA .| CHAR_IDENT .| CHAR_IDENT1
  else if between 71 90 c || between 103 122 c then CHAR_ALPHA .| CHAR_IDENT .| CHAR_IDENT1
  else if (c =? 95) || (c =? 36) then CHAR_IDENT .| CHAR_IDENT1
  else 0.
Definition has_type (c mask : Z) : bool := negb (char_type c .& mask =? 0).
Definition IS_DIGIT (c : Z) : bool := has_type c CHAR_DIGIT.
Definition IS_XDIGIT (c : Z) : bool := has_type c CHAR_XDIGIT.
Definition IS_IDENT1 (c : Z) : bool := has_type c CHAR_IDENT1.
Definition IS_OCTAL (c : Z) : bool := has_type c CHAR_OCTAL.

Definition single_char_tok (c : Z) : Z :=
  if c =? 40 then TOK_LPAREN else if c =? 41 then TOK_RPAREN else if c =? 123 then TOK_LBRACE else if c =? 125 then TOK_RBRACE
  else if c =? 91 then TOK_LBRACKET else if c =? 93 then TOK_RBRACKET else if c =? 59 then TOK_SEMICOLON else if c =? 44 then TOK_COMMA
  else if c =? 58 then TOK_COLON else if c =? 126 then TOK_TILDA else if c =? 35 then TOK_HASH else 0.

(** The argument is an [int]. *)
Definition is_digit (c : Z) : bool := if (c <? 0) || (256 <=? c) then false else has_type c CHAR_DIGIT.
Definition is_ident_begin (c : Z) : bool :=
  if c <? 0 then false else if c <? 128 then has_type c CHAR_IDENT1 else negb (c .& 0x80 =? 0).
Definition is_ident_continue (c : Z) : bool :=
  if c <? 0 then false else if c <? 128 then has_type c (CHAR_IDENT .| CHAR_IDENT1) else negb (c .& 0x80 =? 0).
Definition is_xdigit (c : Z) : bool := between 48 57 c || between 97 102 c || between 65 70 c.

(** The length of the longest prefix of bytes that pass a test. *)
Fixpoint span (p : Z -> bool) (s : list Z) : nat :=
  match s with [] => 0%nat | c :: s => if p c then S (span p s) else 0%nat end.

(** ** Keywords *)

Definition is_eval_or_arguments_name (s : list Z) : bool :=
  if rd s 0 =? 97 then bool_decide (s = str_bytes "arguments") else if rd s 0 =? 101 then bool_decide (s = str_bytes "eval") else false.
Definition is_strict_reserved_name (s : list Z) : bool :=
  let M names := existsb (fun name => bool_decide (s = str_bytes name)) names in
  if rd s 0 =? 105 then M ["interface"; "implements"]%string
  else if rd s 0 =? 108 then M ["let"]%string
  else if rd s 0 =? 112 then M ["private"; "package"; "public"; "protected"]%string
  else if rd s 0 =? 115 then M ["static"]%string
  else if rd s 0 =? 121 then M ["yield"]%string
  else false.

(** The cases of the switch of [sv_parsekeyword], by first character. *)
Definition keyword_cases : list (Z * list (string * Z)) :=
  [(97, [("as", TOK_AS); ("async", TOK_ASYNC); ("await", TOK_AWAIT)]);
   (98, [("break", TOK_BREAK)]);
   (99, [("case", TOK_CASE); ("catch", TOK_CATCH); ("class", TOK_CLASS); ("const", TOK_CONST); ("continue", TOK_CONTINUE)]);
   (100, [("do", TOK_DO); ("default", TOK_DEFAULT); ("delete", TOK_DELETE); ("debugger", TOK_DEBUGGER)]);
   (101, [("else", TOK_ELSE); ("export", TOK_EXPORT)]);
   (102, [("for", TOK_FOR); ("from", TOK_FROM); ("false", TOK_FALSE); ("finally", TOK_FINALLY); ("function", TOK_FUNC)]);
   (103, [("globalThis", TOK_GLOBAL_THIS)]);
   (105, [("if", TOK_IF); ("in", TOK_IN); ("import", TOK_IMPORT); ("instanceof", TOK_INSTANCEOF)]);
   (108, [("let", TOK_LET)]);
   (110, [("new", TOK_NEW); ("null", TOK_NULL)]);
   (111, [("of", TOK_OF)]);
   (114, [("return", TOK_RETURN)]);
   (115, [("super", TOK_SUPER); ("static", TOK_STATIC); ("switch", TOK_SWITCH)]);
   (116, [("try", TOK_TRY); ("this", TOK_THIS); ("true", TOK_TRUE); ("throw", TOK_THROW); ("typeof", TOK_TYPEOF)]);
   (117, [("undefined", TOK_UNDEF); ("using", TOK_USING)]);
   (118, [("var", TOK_VAR); ("void", TOK_VOID)]);
   (119, [("while", TOK_WHILE); ("with", TOK_WITH); ("window", TOK_WINDOW)]);
   (121, [("yield", TOK_YIELD)])]%string.

Fixpoint keyword_in (s : list Z) (ks : list (string * Z)) : Z :=
  match ks with
  | [] => TOK_IDENTIFIER
  | (k, t) :: ks => if bool_decide (s = str_bytes k) then t else keyword_in s ks
  end.
Fixpoint keyword_switch (s : list Z) (cs : list (Z * list (string * Z))) : Z :=
  match cs with
  | [] => TOK_IDENTIFIER
  | (c, ks) :: cs => if rd s 0 =? c then keyword_in s ks else keyword_switch s cs
  end.
Definition sv_parsekeyword (s : list Z) : Z := keyword_switch s keyword_cases.

(** ** White space and comments *)

(** The label of a character in [sv_skiptonext]. *)
Inductive lbl := C_0 | C_SPC | C_NL | C_SL | C_HI.
Definition cc (c : Z) : lbl :=
  if negb (c .& 0x80 =? 0) then C_HI
  else if (c =? 9) || between 11 13 c || (c =? 32) then C_SPC
  else if c =? 10 then C_NL
  else if c =? 47 then C_SL
  else C_0.

Definition not_newline (c : Z) : bool := negb (c =? 10).

(** [before] holds the bytes before [p], the last one first. *)
Fixpoint html_close_comment_at_line_start (before : list Z) : bool :=
  match before with
  | [] => true
  | c :: before =>
      if (c =? 10) || (c =? 13) then true
      else if negb (c =? 32) && negb (c =? 9) && negb (c =? 12) && negb (c =? 11) then false
      else html_close_comment_at_line_start before
  end.

(** To the end of the line: where the text goes on, and whether the line ends
    with a newline. *)
Definition skip_line (code : list Z) (p : nat) (saw_nl : bool) : nat * bool :=
  let p := (p + span not_newline (drop p code))%nat in
  if (p <? length code)%nat then (S p, true) else (p, saw_nl).
Definition skip_html_line_comment := skip_line.

(** The bytes of a block comment after its start; when it is not closed the
    last byte is left. *)
Fixpoint block_comment (s : list Z) (saw_nl : bool) : nat * bool :=
  match s with
  | c :: ((d :: _) as t) =>
      if (c =? 42) && (d =? 47) then (2%nat, saw_nl)
      else let '(n, nl) := block_comment t (if c =? 10 then true else saw_nl) in (S n, nl)
  | _ => (0%nat, saw_nl)
  end.

(** The general categories the lexer names; [CATEGORY_OTHER] stands for the
    rest. *)
Inductive utf8proc_category_t :=
| CATEGORY_LU | CATEGORY_LL | CATEGORY_LT | CATEGORY_LM | CATEGORY_LO | CATEGORY_NL | CATEGORY_MN | CATEGORY_MC | CATEGORY_ND | CATEGORY_PC
| CATEGORY_ZS | CATEGORY_ZL | CATEGORY_ZP | CATEGORY_OTHER.

Section Lexer.
Context `{U : Utf8proc} (category : Z -> utf8proc_category_t) (number_parse : list Z -> option Z) (malloc_ok : Z -> bool).

(** The length of a space outside ASCII, 0 for none, and whether it ends a line. *)
Definition is_unicode_space (s : list Z) : nat * bool :=
  if rd s 0 <? 0x80 then (0%nat, false)
  else
    match utf8proc_iterate s with
    | None => (0%nat, false)
    | Some (n, cp) =>
        if cp =? 0xFEFF then (n, false)
        else
          match category cp with
          | CATEGORY_ZS => (n, false)
          | CATEGORY_ZL | CATEGORY_ZP => (n, true)
          | _ => (0%nat, false)
          end
    end.

Definition starts (s : list Z) (w : list Z) : bool := bool_decide (take (length w) s = w).

(** What is done at one position: go on at another one, or stop here. *)
Definition html_step (code : list Z) (p : nat) (saw_nl : bool) : option (nat * bool) :=
  let s := drop p code in
  if starts s [60; 33; 45; 45] then Some (skip_html_line_comment code (p + 4) saw_nl)
  else if starts s [45; 45; 62] && html_close_comment_at_line_start (rev (take p code)) then Some (skip_html_line_comment code (p + 3) saw_nl)
  else None.
Definition skip_step (code : list Z) (p : nat) (saw_nl : bool) : option (nat * bool) :=
  match code !! p with
  | None => None
  | Some c =>
      match cc c with
      | C_SPC => Some (S p, saw_nl)
      | C_NL => Some (S p, true)
      | C_SL =>
          match code !! S p with
          | Some d =>
              if d =? 47 then Some (skip_line code (p + 2) saw_nl)
              else if d =? 42 then let '(n, nl) := block_comment (drop (p + 2) code) saw_nl in Some ((p + 2 + n)%nat, nl)
              else html_step code p saw_nl
          | None => html_step code p saw_nl
          end
      | C_HI =>
          let '(u, lt) := is_unicode_space (drop p code) in
          if (0 <? u)%nat then Some ((p + u)%nat, lt || saw_nl) else html_step code p saw_nl
      | C_0 => html_step code p saw_nl
      end
  end.
Fixpoint skip_loop (fuel : nat) (code : list Z) (p : nat) (saw_nl : bool) : option (nat * bool) :=
  match fuel with
  | O => None
  | S fuel =>
      match skip_step code p saw_nl with
      | None => Some (p, saw_nl)
      | Some (p, saw_nl) => skip_loop fuel code p saw_nl
      end
  end.

Definition sv_skiptonext (code : list Z) (n : nat) : option (nat * bool) :=
  let '(p, saw_nl) := if (n =? 0)%nat && starts code [35; 33] then skip_line code 2 false else (n, false) in
  skip_loop (S (length code)) code p saw_nl.

(** ** Identifiers *)

Definition hex_of (c : Z) : Z := if c <=? 57 then c - 48 else (c .| 0x20) - 97 + 10.

(** The length of an escape and the code point it stands for. *)
Definition parse_unicode_escape (s : list Z) (pos : nat) : option (nat * Z) :=
  if (length s <=? pos + 3)%nat then None
  else if negb (rd s pos =? 92) || negb (rd s (pos + 1) =? 117) then None
  else if rd s (pos + 2) =? 123 then
    let ndigits := span is_xdigit (drop (pos + 3) s) in
    let cp := fold_left (fun cp c => u32 (cp .<< 4) .| hex_of c) (take ndigits (drop (pos + 3) s)) 0 in
    let i := (pos + 3 + ndigits)%nat in
    if (ndigits =? 0)%nat || (length s <=? i)%nat || negb (rd s i =? 125) || (0x10FFFF <? cp) then None
    else Some ((i - pos + 1)%nat, cp)
  else if (length s <=? pos + 5)%nat then None
  else
    let digits := take 4 (drop (pos + 2) s) in
    if negb (forallb is_xdigit digits) then None
    else Some (6%nat, fold_left (fun cp c => u32 (cp .<< 4) .| hex_of c) digits 0).

Definition is_unicode_id_start (cp : Z) : bool :=
  if cp =? 0x2E2F then false
  else
    match category cp with
    | CATEGORY_LU | CATEGORY_LL | CATEGORY_LT | CATEGORY_LM | CATEGORY_LO | CATEGORY_NL => true
    | _ => false
    end.
Definition is_unicode_id_continue (cp : Z) : bool :=
  if is_unicode_id_start cp then true
  else
    match category cp with
    | CATEGORY_MN | CATEGORY_MC | CATEGORY_ND | CATEGORY_PC => true
    | _ => (cp =? 0x200C) || (cp =? 0x200D)
    end.
Definition is_unicode_ident_begin (cp : Z) : bool := if cp <? 128 then has_type cp CHAR_IDENT1 else is_unicode_id_start cp.
Definition is_unicode_ident_continue (cp : Z) : bool :=
  if cp <? 128 then has_type cp (CHAR_IDENT .| CHAR_IDENT1) else is_unicode_id_continue cp.

(** The bytes written to [dst] and whether every write is inside [dstlen] bytes. *)
Fixpoint decode_ident_loop (fuel : nat) (src : list Z) (si : nat) (dst : list Z) (dstlen : nat) : option (list Z) :=
  match fuel with
  | O => None
  | S fuel =>
      if (si <? length src)%nat && (length dst + 4 <? dstlen)%nat then
        match parse_unicode_escape src si with
        | Some (el, cp) => decode_ident_loop fuel src (si + el) (dst ++ utf8_encode cp) dstlen
        | None => decode_ident_loop fuel src (S si) (dst ++ [rd src si]) dstlen
        end
      else if (length dst <? dstlen)%nat then Some dst else None
  end.
Definition decode_ident_escapes (src : list Z) (dstlen : nat) : option (list Z) := decode_ident_loop (S (length src)) src 0 [] dstlen.

(** The loop of the slow path: the length, and whether there were escapes. *)
Fixpoint ident_loop (fuel : nat) (s : list Z) (tlen : nat) (has_escapes : bool) : option (nat * bool) :=
  match fuel with
  | O => None
  | S fuel =>
      if (length s <=? tlen)%nat then Some (tlen, has_escapes)
      else
        let c := rd s tlen in
        if c =? 92 then
          match parse_unicode_escape s tlen with
          | Some (el, cp) => if is_unicode_ident_continue cp then ident_loop fuel s (tlen + el) true else Some (tlen, has_escapes)
          | None => Some (tlen, has_escapes)
          end
        else if c <? 128 then
          if is_ident_continue c then ident_loop fuel s (S tlen) has_escapes else Some (tlen, has_escapes)
        else
          match utf8proc_iterate (drop tlen s) with
          | Some (n, cp) => if is_unicode_id_continue cp then ident_loop fuel s (tlen + n) has_escapes else Some (tlen, has_escapes)
          | None => Some (tlen, has_escapes)
          end
  end.

(** The token, and its length when it is set. *)
Definition ident_slow (s : list Z) (tlen : nat) : option (Z * option nat) :=
  match ident_loop (S (length s)) s tlen (rd s 0 =? 92) with
  | None => None
  | Some (tlen, false) => Some (sv_parsekeyword (take tlen s), Some tlen)
  | Some (tlen, true) =>
      match decode_ident_escapes (take tlen s) 256 with
      | None => None
      | Some decoded => Some (if sv_parsekeyword decoded =? TOK_IDENTIFIER then TOK_IDENTIFIER else TOK_ERR, Some tlen)
      end
  end.
Definition ascii_continue (c : Z) : bool := (c <? 128) && negb (c =? 92) && is_ident_continue c.
Definition parseident (s : list Z) : option (Z * option nat) :=
  if (length s =? 0)%nat then Some (TOK_ERR, None)
  else
    let c := rd s 0 in
    if (c <? 128) && negb (c =? 92) && is_ident_begin c then
      let i := S (span ascii_continue (drop 1 s)) in
      if (i <? length s)%nat && ((128 <=? rd s i) || (rd s i =? 92)) then ident_slow s i
      else Some (sv_parsekeyword (take i s), Some i)
    else if c =? 92 then
      match parse_unicode_escape s 0 with
      | Some (esc_len, first_cp) => if is_unicode_ident_begin first_cp then ident_slow s esc_len else Some (TOK_ERR, None)
      | None => Some (TOK_ERR, None)
      end
    else if 128 <=? c then
      match utf8proc_iterate s with
      | Some (n, cp) => if is_unicode_id_start cp then ident_slow s n else Some (TOK_ERR, None)
      | None => Some (TOK_ERR, None)
      end
    else Some (TOK_ERR, None).

(** ** Numbers *)

(** The value of a number token: bits of a double for decimal literals, for
    the others the integer the doubles hold ([None]: infinite). *)
Inductive tvalue := Undefined | Decimal (bits : Z) | Integer (d : dbl).

Definition is_decimal_literal_char (c : Z) : bool := IS_DIGIT c || (c =? 95).
Definition scan_decimal_literal_chars (s : list Z) (p : nat) : nat := (p + span is_decimal_literal_char (drop p s))%nat.
Definition at_char (s : list Z) (p : nat) (test : Z -> bool) : bool := (p <? length s)%nat && test (rd s p).
Definition scan_decimal_literal (s : list Z) : nat :=
  let p := scan_decimal_literal_chars s 0 in
  let p := if at_char s p (fun c => c =? 46) then scan_decimal_literal_chars s (S p) else p in
  if at_char s p (fun c => (c .| 0x20) =? 101) then
    let p := S p in
    let p := if at_char s p (fun c => (c =? 43) || (c =? 45)) then S p else p in
    scan_decimal_literal_chars s p
  else p.
Definition has_numeric_separator (s : list Z) : bool := existsb (fun c => c =? 95) s.
Definition copy_without_numeric_separators (s : list Z) : list Z := List.filter (fun c => negb (c =? 95)) s.

(** The length and the value, if any. *)
Definition parse_decimal_literal (s : list Z) : nat * option Z :=
  let toklen := scan_decimal_literal s in
  let digits := take toklen s in
  if has_numeric_separator digits then
    if (128 <? toklen)%nat && negb (malloc_ok (Z.of_nat toklen)) then (toklen, None)
    else (toklen, number_parse (copy_without_numeric_separators digits))
  else (toklen, number_parse digits).

Definition radix_step (r : Z) (val : dbl) (d : Z) : dbl := dadd (dmul val (Some r)) (Some d).
Definition radix_value (r : Z) (digit : Z -> Z) (s : list Z) : dbl :=
  fold_left (fun val c => if c =? 95 then val else radix_step r val (digit c)) s (Some 0).
Definition parse_radix (r : Z) (test : Z -> bool) (digit : Z -> Z) (from : nat) (s : list Z) : nat * dbl :=
  let n := span test (drop from s) in ((from + n)%nat, radix_value r digit (take n (drop from s))).

Definition parse_binary := parse_radix 2 (fun c => (c =? 48) || (c =? 49) || (c =? 95)) (fun c => c - 48) 2.
Definition parse_octal := parse_radix 8 (fun c => IS_OCTAL c || (c =? 95)) (fun c => c - 48) 2.
Definition parse_legacy_octal := parse_radix 8 IS_OCTAL (fun c => c - 48) 1.
Definition parse_hex :=
  parse_radix 16 (fun c => IS_XDIGIT c || (c =? 95)) (fun c => if 97 <=? c then c - 97 + 10 else if 65 <=? c then c - 65 + 10 else c - 48) 2.

Definition number_literal_has_invalid_tail (s : list Z) (toklen : nat) : bool := at_char s toklen is_ident_continue.

(** What a scanner sets: the token, its length and, if it is set, its value. *)
Definition scanned : Type := Z * nat * option tvalue.

Definition finish_number (s : list Z) (numlen : nat) (value : tvalue) : scanned :=
  let bigint := at_char s numlen (fun c => c =? 110) in
  let toklen := if bigint then S numlen else numlen in
  (if number_literal_has_invalid_tail s toklen then TOK_ERR else if bigint then TOK_BIGINT else TOK_NUMBER, toklen, Some value).
Definition decimal_number (s : list Z) : scanned :=
  match parse_decimal_literal s with
  | (numlen, None) => (TOK_ERR, numlen, None)
  | (numlen, Some bits) => finish_number s numlen (Decimal bits)
  end.
Definition integer_number (s : list Z) (r : nat * dbl) : scanned := finish_number s r.1 (Integer r.2).
Definition parse_number (strict : bool) (s : list Z) : scanned :=
  if (rd s 0 =? 48) && (1 <? length s)%nat then
    let c1 := rd s 1 .| 0x20 in
    if c1 =? 98 then integer_number s (parse_binary s)
    else if c1 =? 111 then integer_number s (parse_octal s)
    else if c1 =? 120 then integer_number s (parse_hex s)
    else if IS_OCTAL (rd s 1) then
      if strict then (TOK_ERR, 1%nat, None) else integer_number s (parse_legacy_octal s)
    else if is_digit (rd s 1) && strict then (TOK_ERR, 1%nat, None)
    else decimal_number s
  else decimal_number s.

(** ** Strings and templates *)

(** [memchr] in the bytes from [i]: the position in the whole buffer. *)
Definition memchr (s : list Z) (i : nat) (c : Z) : option nat :=
  let n := span (fun b => negb (b =? c)) (drop i s) in
  if (i + n <? length s)%nat then Some (i + n)%nat else None.

(** The bytes an escape takes, from its backslash. *)
Definition escape_skip (s : list Z) (esc_pos : nat) : nat :=
  let c := rd s (esc_pos + 1) in
  if c =? 120 then 4%nat
  else if c =? 117 then
    if at_char s (esc_pos + 2) (fun c => c =? 123) then
      match memchr s (esc_pos + 3) 125 with
      | Some j => (j - esc_pos + 1)%nat
      | None => (length s - esc_pos)%nat
      end
    else 6%nat
  else 2%nat.
Fixpoint string_loop (fuel : nat) (s : list Z) (quote : Z) (i : nat) : option (Z * nat) :=
  match fuel with
  | O => None
  | S fuel =>
      if (length s <=? i)%nat then Some (TOK_ERR, length s)
      else
        match memchr s i quote, memchr s i 92 with
        | None, _ => Some (TOK_ERR, length s)
        | Some q, None => Some (TOK_STRING, S q)
        | Some q, Some b =>
            if (q <? b)%nat then Some (TOK_STRING, S q)
            else if (length s <=? b + 1)%nat then Some (TOK_ERR, length s)
            else
              let skip := escape_skip s b in
              if (length s <? b + skip)%nat then Some (TOK_ERR, length s)
              else string_loop fuel s quote (b + skip)
        end
  end.
Definition scan_string (s : list Z) (quote : Z) : option (Z * nat) := string_loop (length s) s quote 1.

Fixpoint skip_string_loop (fuel : nat) (s : list Z) (i : nat) (quote : Z) : option nat :=
  match fuel with
  | O => None
  | S fuel =>
      if (length s <=? i)%nat then Some (length s)
      else if rd s i =? 92 then skip_string_loop fuel s (i + 2) quote
      else if rd s i =? quote then Some (S i)
      else skip_string_loop fuel s (S i) quote
  end.
Definition skip_string_literal (s : list Z) (start : nat) (quote : Z) : option nat := skip_string_loop (S (length s)) s (S start) quote.
Definition skip_line_comment (s : list Z) (start : nat) : nat := (start + 2 + span not_newline (drop (start + 2) s))%nat.
Fixpoint find_close (s : list Z) : option nat :=
  match s with
  | c :: ((d :: _) as t) => if (c =? 42) && (d =? 47) then Some 2%nat else option_map S (find_close t)
  | _ => None
  end.
Definition skip_block_comment (s : list Z) (start : nat) : nat :=
  match find_close (drop (start + 2) s) with Some n => (start + 2 + n)%nat | None => length s end.
Definition is_expr_ws (c : Z) : bool := (c =? 32) || (c =? 9) || (c =? 10) || (c =? 13) || (c =? 12) || (c =? 11).
Definition is_ident_ascii_start (c : Z) : bool := (c =? 95) || (c =? 36) || between 97 122 c || between 65 90 c.
Definition is_ident_ascii_continue (c : Z) : bool := is_ident_ascii_start c || between 48 57 c.

Fixpoint regex_loop (fuel : nat) (s : list Z) (i : nat) (in_class : bool) : option nat :=
  match fuel with
  | O => None
  | S fuel =>
      if (length s <=? i)%nat then Some i
      else
        let c := rd s i in
        if (c =? 92) && (i + 1 <? length s)%nat then regex_loop fuel s (i + 2) in_class
        else if c =? 91 then regex_loop fuel s (S i) true
        else if (c =? 93) && in_class then regex_loop fuel s (S i) false
        else if (c =? 47) && negb in_class then Some (S i)
        else regex_loop fuel s (S i) in_class
  end.
Definition skip_regex_literal (s : list Z) (start : nat) : option nat :=
  option_map (fun i => (i + span is_ident_ascii_start (drop i s))%nat) (regex_loop (S (length s)) s (S start) false).

Definition regex_words : list string :=
  ["if"; "in"; "do"; "of"; "for"; "else"; "case"; "throw"; "return"; "typeof"; "delete"; "void"; "new"; "instanceof"]%string.
Definition regex_allowed_after_ident (word : list Z) : bool := existsb (fun w => bool_decide (word = str_bytes w)) regex_words.

Definition opens_regex (c : Z) : bool := existsb (Z.eqb c) (str_bytes "([,;:?!~+-*%&|^=<>").

(** [i] is the position, [closed] the second result. *)
Fixpoint template_loop (fuel : nat) (s : list Z) (i : nat) (expr_depth : Z) (can_start_regex : bool) : option (nat * bool) :=
  match fuel with
  | O => None
  | S fuel =>
      if (length s <=? i)%nat then Some (length s, false)
      else
        let c := rd s i in
        let next := at_char s (S i) in
        if c =? 92 then template_loop fuel s (i + 2) expr_depth can_start_regex
        else if expr_depth =? 0 then
          if c =? 96 then Some (S i, true)
          else if (c =? 36) && next (fun d => d =? 123) then template_loop fuel s (i + 2) 1 true
          else template_loop fuel s (S i) expr_depth can_start_regex
        else if (c =? 39) || (c =? 34) then
          match skip_string_literal s i c with Some i => template_loop fuel s i expr_depth can_start_regex | None => None end
        else if c =? 96 then
          match template_loop fuel s (S i) 0 true with
          | None => None
          | Some (next, closed) => if negb closed || (next <=? i)%nat then Some (length s, false) else template_loop fuel s next expr_depth false
          end
        else if (c =? 47) && (S i <? length s)%nat then
          if rd s (S i) =? 47 then template_loop fuel s (skip_line_comment s i) expr_depth can_start_regex
          else if rd s (S i) =? 42 then template_loop fuel s (skip_block_comment s i) expr_depth can_start_regex
          else if can_start_regex then
            match skip_regex_literal s i with Some i => template_loop fuel s i expr_depth false | None => None end
          else template_loop fuel s (S i) expr_depth true
        else if is_expr_ws c then template_loop fuel s (S i) expr_depth can_start_regex
        else if is_ident_ascii_start c then
          let n := span is_ident_ascii_continue (drop (S i) s) in
          template_loop fuel s (S i + n) expr_depth (regex_allowed_after_ident (take (S n) (drop i s)))
        else if between 48 57 c || ((c =? 46) && next (between 48 57)) then
          template_loop fuel s (S i + span (fun d => between 48 57 d || (d =? 95) || (d =? 46)) (drop (S i) s)) expr_depth false
        else if c =? 123 then template_loop fuel s (S i) (expr_depth + 1) true
        else if c =? 125 then template_loop fuel s (S i) (expr_depth - 1) false
        else if opens_regex c then template_loop fuel s (S i) expr_depth true
        else template_loop fuel s (S i) expr_depth false
  end.
Definition skip_template_literal (s : list Z) (start : nat) : option (nat * bool) := template_loop (S (length s)) s (S start) 0 true.
Definition scan_template (s : list Z) : option (Z * nat) :=
  match skip_template_literal s 0 with
  | None => None
  | Some (stop, closed) =>
      if negb closed || (stop <=? 1)%nat || (length s <? stop)%nat then Some (TOK_ERR, length s) else Some (TOK_TEMPLATE, stop)
  end.

(** ** Operators *)

(** [None] is the default case of the switch; the result is 0 for it and for
    an error in a number. *)
Definition parse_operator (s : list Z) : option scanned :=
  let rem := length s in
  let c := rd s 0 in
  let MATCH2 c2 := (2 <=? rem)%nat && (rd s 1 =? c2) in
  let MATCH3 c2 c3 := (3 <=? rem)%nat && (rd s 1 =? c2) && (rd s 2 =? c3) in
  let MATCH4 c2 c3 c4 := (4 <=? rem)%nat && (rd s 1 =? c2) && (rd s 2 =? c3) && (rd s 3 =? c4) in
  let op t n : option scanned := Some (t, n, None) in
  if c =? 63 then
    if MATCH3 63 61 then op TOK_NULLISH_ASSIGN 3%nat else if MATCH2 63 then op TOK_NULLISH 2%nat
    else if MATCH2 46 then op TOK_OPTIONAL_CHAIN 2%nat else op TOK_Q 1%nat
  else if c =? 33 then
    if MATCH3 61 61 then op TOK_SNE 3%nat else if MATCH2 61 then op TOK_NE 2%nat else op TOK_NOT 1%nat
  else if c =? 61 then
    if MATCH3 61 61 then op TOK_SEQ 3%nat else if MATCH2 61 then op TOK_EQ 2%nat
    else if MATCH2 62 then op TOK_ARROW 2%nat else op TOK_ASSIGN 1%nat
  else if c =? 60 then
    if MATCH3 60 61 then op TOK_SHL_ASSIGN 3%nat else if MATCH2 60 then op TOK_SHL 2%nat
    else if MATCH2 61 then op TOK_LE 2%nat else op TOK_LT 1%nat
  else if c =? 62 then
    if MATCH4 62 62 61 then op TOK_ZSHR_ASSIGN 4%nat else if MATCH3 62 62 then op TOK_ZSHR 3%nat
    else if MATCH3 62 61 then op TOK_SHR_ASSIGN 3%nat else if MATCH2 62 then op TOK_SHR 2%nat
    else if MATCH2 61 then op TOK_GE 2%nat else op TOK_GT 1%nat
  else if c =? 38 then
    if MATCH3 38 61 then op TOK_LAND_ASSIGN 3%nat else if MATCH2 38 then op TOK_LAND 2%nat
    else if MATCH2 61 then op TOK_AND_ASSIGN 2%nat else op TOK_AND 1%nat
  else if c =? 124 then
    if MATCH3 124 61 then op TOK_LOR_ASSIGN 3%nat else if MATCH2 124 then op TOK_LOR 2%nat
    else if MATCH2 61 then op TOK_OR_ASSIGN 2%nat else op TOK_OR 1%nat
  else if c =? 43 then
    if MATCH2 43 then op TOK_POSTINC 2%nat else if MATCH2 61 then op TOK_PLUS_ASSIGN 2%nat else op TOK_PLUS 1%nat
  else if c =? 45 then
    if MATCH2 45 then op TOK_POSTDEC 2%nat else if MATCH2 61 then op TOK_MINUS_ASSIGN 2%nat else op TOK_MINUS 1%nat
  else if c =? 42 then
    if MATCH3 42 61 then op TOK_EXP_ASSIGN 3%nat else if MATCH2 42 then op TOK_EXP 2%nat
    else if MATCH2 61 then op TOK_MUL_ASSIGN 2%nat else op TOK_MUL 1%nat
  else if c =? 47 then if MATCH2 61 then op TOK_DIV_ASSIGN 2%nat else op TOK_DIV 1%nat
  else if c =? 37 then if MATCH2 61 then op TOK_REM_ASSIGN 2%nat else op TOK_REM 1%nat
  else if c =? 94 then if MATCH2 61 then op TOK_XOR_ASSIGN 2%nat else op TOK_XOR 1%nat
  else if c =? 46 then
    if MATCH3 46 46 then op TOK_REST 3%nat
    else if (1 <? rem)%nat && IS_DIGIT (rd s 1) then
      match parse_decimal_literal s with
      | (len, None) => op TOK_ERR len
      | (len, Some bits) => if number_literal_has_invalid_tail s len then op TOK_ERR len else Some (TOK_NUMBER, len, Some (Decimal bits))
      end
    else op TOK_DOT 1%nat
  else None.

(** ** The lexer *)

Record sv_lexer_state_t := LexState { pos : nat; toff : nat; tlen : nat; tval : tvalue; tok : Z; consumed : bool; had_newline : bool }.
Record sv_lexer_t := Lexer { code : list Z; strict : bool; lst : sv_lexer_state_t }.
(** The source a nested parse leaves, with its state. *)
Definition sv_lexer_checkpoint_t : Type := sv_lexer_t.

Definition fresh_state : sv_lexer_state_t := LexState 0 0 0 Undefined TOK_ERR true false.
Definition sv_lexer_init (code : list Z) (strict : bool) : sv_lexer_t := Lexer code strict fresh_state.
Definition with_state (lx : sv_lexer_t) (st : sv_lexer_state_t) : sv_lexer_t := Lexer (code lx) (strict lx) st.
Definition sv_lexer_save_state (lx : sv_lexer_t) : sv_lexer_state_t := lst lx.
Definition sv_lexer_restore_state (lx : sv_lexer_t) (st : sv_lexer_state_t) : sv_lexer_t := with_state lx st.
Definition sv_lexer_push_source (lx : sv_lexer_t) (code : list Z) : sv_lexer_t * sv_lexer_checkpoint_t := (Lexer code (strict lx) fresh_state, lx).
Definition sv_lexer_pop_source (lx : sv_lexer_t) (cp : sv_lexer_checkpoint_t) : sv_lexer_t := cp.

(** [CONSUME()] of the parser. *)
Definition consume (lx : sv_lexer_t) : sv_lexer_t :=
  let st := lst lx in with_state lx (LexState (pos st) (toff st) (tlen st) (tval st) (tok st) true (had_newline st)).

(** The token at the start of a text that is not empty: what is set, where a
    length of 0 has become 1. *)
Definition at_least_1 (n : nat) : nat := if (n =? 0)%nat then 1%nat else n.
Definition scan_token (strict : bool) (s : list Z) : option scanned :=
  let c := rd s 0 in
  let plain (r : option (Z * nat)) : option scanned := option_map (fun '(t, n) => (t, at_least_1 n, None)) r in
  if (c <? 128) && negb (single_char_tok c =? 0) then Some (single_char_tok c, 1%nat, None)
  else if IS_IDENT1 c then option_map (fun '(t, n) => (t, match n with Some n => n | None => 0%nat end, None)) (parseident s)
  else if IS_DIGIT c then let '(t, n, v) := parse_number strict s in Some (t, at_least_1 n, v)
  else if (c =? 34) || (c =? 39) then plain (scan_string s c)
  else if c =? 96 then plain (scan_template s)
  else
    let other (t0 : nat) : option scanned :=
      option_map (fun '(t, n) => (t, at_least_1 (match n with Some n => n | None => t0 end), None)) (parseident s) in
    match parse_operator s with
    | Some (t, n, v) => if t =? 0 then other n else Some (t, at_least_1 n, v)
    | None => other 0%nat
    end.

Definition sv_next_raw (lx : sv_lexer_t) : option sv_lexer_t :=
  let st := lst lx in
  if negb (consumed st) then Some lx
  else
    match sv_skiptonext (code lx) (pos st) with
    | None => None
    | Some (p, nl) =>
        if (length (code lx) <=? p)%nat then Some (with_state lx (LexState p p 0 (tval st) TOK_EOF false nl))
        else
          match scan_token (strict lx) (drop p (code lx)) with
          | None => None
          | Some (t, n, v) =>
              Some (with_state lx (LexState (p + n) p n (match v with Some v => v | None => tval st end) t false nl))
          end
    end.

(** The token is [tok] of the new state. *)
Definition sv_lexer_next (lx : sv_lexer_t) : option sv_lexer_t := if negb (consumed (lst lx)) then Some lx else sv_next_raw lx.

(** The next token and the state afterwards; the value is not restored. *)
Definition sv_lexer_lookahead (lx : sv_lexer_t) : option (Z * sv_lexer_t) :=
  let st := lst lx in
  match sv_lexer_next (consume lx) with
  | None => None
  | Some lx' => Some (tok (lst lx'), with_state lx (LexState (pos st) (toff st) (tlen st) (tval (lst lx')) (tok st) (consumed st) (had_newline st)))
  end.

(** ** The whole text *)

(** The tokens up to the end of the text, with their places: what the parser
    sees when it takes every token. *)
Record token := Token { t_tok : Z; t_off : nat; t_len : nat; t_newline : bool }.
Definition current (lx : sv_lexer_t) : token := Token (tok (lst lx)) (toff (lst lx)) (tlen (lst lx)) (had_newline (lst lx)).
Fixpoint token_stream (fuel : nat) (lx : sv_lexer_t) : option (list token) :=
  match fuel with
  | O => None
  | S fuel =>
      match sv_lexer_next (consume lx) with
      | None => None
      | Some lx =>
          if tok (lst lx) =? TOK_EOF then Some []
          else option_map (cons (current lx)) (token_stream fuel lx)
      end
  end.
Definition tokenize (code : list Z) (strict : bool) : option (list token) := token_stream (S (length code)) (sv_lexer_init code strict).

(** ** Every scan ends inside the text *)

Lemma span_le p s : (span p s <= length s)%nat.
Proof. induction s as [|c s IH]; cbn; [lia|]. destruct (p c); cbn; lia. Qed.
Lemma span_drop p s n : (n <= length s)%nat -> (n + span p (drop n s) <= length s)%nat.
Proof. intros H. pose proof (span_le p (drop n s)) as Hs. rewrite length_drop in Hs. lia. Qed.

Context `{US : !Utf8procSpec U}.

Lemma iterate_range s n cp : bytes s -> utf8proc_iterate s = Some (n, cp) -> (1 <= n <= length s)%nat /\ 0 <= cp < 0x110000.
Proof using US.
  intros Hb Hi. apply (iterate_spec s n cp Hb) in Hi as (Hc & -> & Ht). pose proof (utf8_enc_length cp) as Hl. apply (f_equal length) in Ht. rewrite length_take in Ht.
  split; [lia|]. unfold is_scalar in Hc. boolprop. lia.
Qed.
Lemma bytes_drop s n : bytes s -> bytes (drop n s).
Proof. apply Forall_drop. Qed.

Lemma skip_line_range code p nl : (p <= length code)%nat -> (p <= (skip_line code p nl).1 <= length code)%nat.
Proof. intros H. unfold skip_line. pose proof (span_drop not_newline code p H). destruct (Nat.ltb_spec (p + span not_newline (drop p code)) (length code)); cbn; lia. Qed.
Lemma block_comment_cons c d t nl : block_comment (c :: d :: t) nl =
  if (c =? 42) && (d =? 47) then (2%nat, nl) else let '(n, nl') := block_comment (d :: t) (if c =? 10 then true else nl) in (S n, nl').
Proof. reflexivity. Qed.
Lemma block_comment_le s : forall nl, ((block_comment s nl).1 <= length s)%nat.
Proof.
  induction s as [|c [|d t] IH]; intros nl; [cbn; lia|cbn; lia|]. rewrite block_comment_cons. destruct ((c =? 42) && (d =? 47)); [cbn; lia|].
  specialize (IH (if c =? 10 then true else nl)). destruct (block_comment (d :: t) _) as [n nl']. cbn in *. lia.
Qed.
Lemma starts_length s w : starts s w = true -> (length w <= length s)%nat.
Proof. unfold starts. intros H. apply bool_decide_eq_true in H. apply (f_equal length) in H. rewrite length_take in H. lia. Qed.

Lemma html_step_range code p nl q : html_step code p nl = Some q -> (p < q.1 <= length code)%nat.
Proof.
  unfold html_step, skip_html_line_comment. intros H.
  destruct (starts (drop p code) [60; 33; 45; 45]) eqn:E1; [|destruct (starts (drop p code) [45; 45; 62]) eqn:E2; [|discriminate]].
  - apply starts_length in E1. rewrite length_drop in E1. cbn in E1. injection H as <-. pose proof (skip_line_range code (p + 4) nl ltac:(lia)). lia.
  - apply starts_length in E2. rewrite length_drop in E2. cbn in E2. destruct (html_close_comment_at_line_start _); [|discriminate]. cbn in H. injection H as <-. pose proof (skip_line_range code (p + 3) nl ltac:(lia)). lia.
Qed.
Lemma skip_step_range code p nl q : bytes code -> skip_step code p nl = Some q -> (p < q.1 <= length code)%nat.
Proof using US.
  intros Hb. unfold skip_step. destruct (code !! p) as [c|] eqn:Ec; [|discriminate]. pose proof (lookup_lt_Some _ _ _ Ec) as Hp.
  destruct (cc c); [apply html_step_range|intros [= <-]; cbn; lia|intros [= <-]; cbn; lia| |].
  - destruct (code !! S p) as [d|] eqn:Ed; [|apply html_step_range]. pose proof (lookup_lt_Some _ _ _ Ed) as Hd.
    destruct (d =? 47); [intros [= <-]; pose proof (skip_line_range code (p + 2) nl ltac:(lia)); lia|]. destruct (d =? 42); [|apply html_step_range].
    pose proof (block_comment_le (drop (p + 2) code) nl) as Hl. rewrite length_drop in Hl. destruct (block_comment _ _) as [n nl']. intros [= <-]. cbn in *. lia.
  - destruct (is_unicode_space (drop p code)) as [u lt] eqn:Eu. destruct (Nat.ltb_spec 0 u) as [Hu|]; [|apply html_step_range]. intros [= <-]. cbn [fst]. unfold is_unicode_space in Eu.
    destruct (rd (drop p code) 0 <? 0x80); [injection Eu as <- _; lia|]. destruct (utf8proc_iterate (drop p code)) as [[n cp]|] eqn:Ei; [|injection Eu as <- _; lia].
    apply iterate_range in Ei as [Hn _]; [|apply bytes_drop, Hb]. rewrite length_drop in Hn. assert (u = n \/ u = 0%nat) by (destruct (cp =? 0xFEFF); [|destruct (category cp)]; injection Eu as <- _; auto). lia.
Qed.

(** Whether the loop stops does not depend on the flag. *)
Lemma html_step_stops code p a b : html_step code p a = None -> html_step code p b = None.
Proof. unfold html_step. destruct (starts _ [60; 33; 45; 45]); [discriminate|]. destruct (starts _ _ && _); [discriminate|reflexivity]. Qed.
Lemma skip_step_stops code p a b : skip_step code p a = None -> skip_step code p b = None.
Proof.
  unfold skip_step. destruct (code !! p) as [c|]; [|reflexivity]. destruct (cc c); try discriminate; try apply html_step_stops.
  - destruct (code !! S p) as [d|]; [|apply html_step_stops]. destruct (d =? 47); [discriminate|]. destruct (d =? 42); [|apply html_step_stops]. destruct (block_comment (drop (p + 2) code) a). discriminate.
  - destruct (is_unicode_space (drop p code)) as [u lt]. destruct (0 <? u)%nat; [discriminate|apply html_step_stops].
Qed.

Lemma skip_loop_ends code : bytes code -> forall fuel p nl, (p <= length code)%nat -> (length code - p < fuel)%nat ->
  exists q nl', skip_loop fuel code p nl = Some (q, nl') /\ (p <= q <= length code)%nat /\ forall b, skip_step code q b = None.
Proof using US.
  intros Hb. induction fuel as [|fuel IH]; intros p nl Hp Hf; [lia|]. cbn [skip_loop]. destruct (skip_step code p nl) as [[q nl']|] eqn:Es.
  - pose proof (skip_step_range code p nl _ Hb Es) as Hr. cbn in Hr. destruct (IH q nl') as (r & nl2 & E & H1 & H2); [lia|lia|]. exists r, nl2. splits; [exact E|lia|lia|exact H2].
  - exists p, nl. splits; [reflexivity|lia|lia|]. intros b. eapply skip_step_stops, Es.
Qed.

Lemma skiptonext_ends code n : bytes code -> (n <= length code)%nat ->
  exists q nl, sv_skiptonext code n = Some (q, nl) /\ (n <= q <= length code)%nat /\ forall b, skip_step code q b = None.
Proof using US.
  intros Hb Hn. unfold sv_skiptonext. destruct ((n =? 0)%nat && starts code [35; 33]) eqn:E.
  - apply andb_true_iff in E as [E1 E2]. apply starts_length in E2. cbn in E2. pose proof (skip_line_range code 2 false E2). destruct (skip_line code 2 false) as [p nl]. cbn in *.
    apply Nat.eqb_eq in E1. destruct (skip_loop_ends code Hb (S (length code)) p nl) as (q & nl' & E & H1 & H2); [lia|lia|]. exists q, nl'. splits; [exact E|lia|lia|exact H2].
  - apply skip_loop_ends; [exact Hb|exact Hn|lia].
Qed.

(** *** Identifiers *)

Lemma hex_range c : is_xdigit c = true -> 0 <= hex_of c < 16.
Proof using.
  intros H. assert (Hb : is_byte c) by (unfold is_xdigit, between in H; unfold is_byte; apply orb_true_iff in H as [H|H]; [apply orb_true_iff in H as [H|H]|]; boolprop; lia).
  by_bytes c (fun c => implb (is_xdigit c) ((0 <=? hex_of c) && (hex_of c <? 16))). rewrite H in Hbyte. cbn in Hbyte. boolprop. lia.
Qed.
Lemma hex_fold_nonneg l : forallb is_xdigit l = true -> forall a, 0 <= a -> 0 <= fold_left (fun cp c => u32 (cp .<< 4) .| hex_of c) l a.
Proof using.
  induction l as [|c l IH]; intros Hl a Ha; cbn [fold_left forallb] in *; [exact Ha|]. apply andb_true_iff in Hl as [Hc Hl]. apply IH; [exact Hl|].
  apply hex_range in Hc. apply Z.lor_nonneg. split; [|lia]. unfold u32. apply Z.mod_pos_bound. lia.
Qed.
Lemma hex_fold_bound l : forallb is_xdigit l = true -> forall a k, 0 <= a < 16 ^ k -> 0 <= k -> k + Z.of_nat (length l) <= 8 ->
  fold_left (fun cp c => u32 (cp .<< 4) .| hex_of c) l a < 16 ^ (k + Z.of_nat (length l)).
Proof using.
  induction l as [|c l IH]; intros Hl a k Ha Hk Hlen; cbn [fold_left forallb length] in *; [replace (k + Z.of_nat 0) with k by lia; lia|].
  apply andb_true_iff in Hl as [Hc Hl]. apply hex_range in Hc. replace (k + Z.of_nat (S (length l))) with (k + 1 + Z.of_nat (length l)) by lia.
  assert (E1 : 16 ^ (k + 1) = 16 * 16 ^ k) by (rewrite Z.pow_add_r by lia; lia). assert (E2 : 16 ^ (k + 1) <= 16 ^ 8) by (apply Z.pow_le_mono_r; lia). change (16 ^ 8) with (2 ^ 32) in E2.
  assert (E : u32 (a .<< 4) = a .<< 4) by (apply wrap_small; rewrite Z.shiftl_mul_pow2 by lia; lia).
  apply IH; [exact Hl| |lia|lia]. rewrite E, lor_shiftl_add by lia. lia.
Qed.

Lemma escape_range s p el cp : parse_unicode_escape s p = Some (el, cp) -> (1 <= el)%nat /\ (p + el <= length s)%nat /\ 0 <= cp < 0x110000.
Proof using.
  unfold parse_unicode_escape. case_if; [discriminate|]. case_if; [discriminate|]. boolprop. destruct (rd s (p + 2) =? 123).
  - set (n := span is_xdigit _). set (cp0 := fold_left _ _ _). destruct ((n =? 0)%nat || (length s <=? p + 3 + n)%nat || negb (rd s (p + 3 + n) =? 125) || (0x10FFFF <? cp0)) eqn:Ec; [discriminate|]. boolprop.
    intros [= <- <-]. assert (Hx : forallb is_xdigit (take n (drop (p + 3) s)) = true).
    { unfold n. generalize (drop (p + 3) s). intros l. induction l as [|c l IH]; [reflexivity|]. cbn [span]. destruct (is_xdigit c) eqn:E; [|reflexivity]. cbn. rewrite E. exact IH. }
    pose proof (hex_fold_nonneg _ Hx 0 ltac:(lia)). fold cp0 in H. lia.
  - case_if; [discriminate|]. destruct (forallb is_xdigit (take 4 (drop (p + 2) s))) eqn:Ex; [|discriminate]. cbn [negb]. boolprop. intros [= <- <-].
    pose proof (hex_fold_nonneg _ Ex 0 ltac:(lia)) as H1. assert (Hl : length (take 4 (drop (p + 2) s)) = 4%nat) by (rewrite length_take, length_drop; lia).
    pose proof (hex_fold_bound _ Ex 0 0 ltac:(lia) ltac:(lia) ltac:(rewrite Hl; lia)) as H2. rewrite Hl in H2. change (16 ^ (0 + Z.of_nat 4)) with 65536 in H2. lia.
Qed.

Lemma decode_ident_ends fuel : forall src si dst dstlen, (length src - si < fuel)%nat -> (length dst < dstlen)%nat ->
  exists d, decode_ident_loop fuel src si dst dstlen = Some d /\ (length d < dstlen)%nat.
Proof using US.
  induction fuel as [|fuel IH]; intros src si dst dstlen Hf Hd; [lia|]. cbn [decode_ident_loop].
  destruct ((si <? length src)%nat && (length dst + 4 <? dstlen)%nat) eqn:Ec; boolprop.
  - destruct (parse_unicode_escape src si) as [[el cp]|] eqn:Ee.
    + apply escape_range in Ee as (H1 & H2 & H3). apply IH; [lia|]. rewrite length_app. unfold utf8_encode. rewrite encode_char_spec by exact H3. pose proof (utf8_enc_length cp). lia.
    + apply IH; [lia|]. rewrite length_app. cbn. lia.
  - destruct (Nat.ltb_spec (length dst) dstlen); [eauto|lia].
Qed.

Lemma ident_loop_ends fuel : forall s n esc, bytes s -> (n <= length s)%nat -> (length s - n < fuel)%nat ->
  exists m esc', ident_loop fuel s n esc = Some (m, esc') /\ (n <= m <= length s)%nat.
Proof using US.
  induction fuel as [|fuel IH]; intros s n esc Hb Hn Hf; [lia|]. cbn [ident_loop]. destruct (Nat.leb_spec (length s) n); [exists n, esc; split; [reflexivity|lia]|].
  assert (Hstop : exists m esc', Some (n, esc) = Some (m, esc') /\ (n <= m <= length s)%nat) by (exists n, esc; split; [reflexivity|lia]).
  assert (Hgo : forall k e, (1 <= k)%nat -> (n + k <= length s)%nat -> exists m esc', ident_loop fuel s (n + k) e = Some (m, esc') /\ (n <= m <= length s)%nat).
  { intros k e Hk1 Hk2. destruct (IH s (n + k)%nat e Hb) as (m & e' & E & Hm); [lia|lia|]. exists m, e'. split; [exact E|lia]. }
  destruct (rd s n =? 92).
  { destruct (parse_unicode_escape s n) as [[el cp]|] eqn:Ee; [|exact Hstop]. apply escape_range in Ee as (H1 & H2 & _). destruct (is_unicode_ident_continue cp); [apply Hgo; lia|exact Hstop]. }
  destruct (rd s n <? 128).
  { destruct (is_ident_continue (rd s n)); [|exact Hstop]. replace (S n) with (n + 1)%nat by lia. apply Hgo; lia. }
  destruct (utf8proc_iterate (drop n s)) as [[k cp]|] eqn:Ei; [|exact Hstop]. destruct (is_unicode_id_continue cp); [|exact Hstop].
  apply iterate_range in Ei as [Hk _]; [|apply bytes_drop, Hb]. rewrite length_drop in Hk. apply Hgo; lia.
Qed.

Lemma keyword_least s : 50 <= sv_parsekeyword s.
Proof using.
  assert (Hin : forall ks, Forall (fun kt => 50 <= kt.2) ks -> 50 <= keyword_in s ks).
  { intros ks. induction 1 as [|[k t] ks H _ IH]; cbn [keyword_in]; [unfold TOK_IDENTIFIER; lia|]. case_bool_decide; [exact H|exact IH]. }
  assert (Hsw : forall cs, Forall (fun c => Forall (fun kt => 50 <= kt.2) c.2) cs -> 50 <= keyword_switch s cs).
  { intros cs. induction 1 as [|[c ks] cs H _ IH]; cbn [keyword_switch]; [unfold TOK_IDENTIFIER; lia|]. destruct (rd s 0 =? c); [apply Hin, H|exact IH]. }
  apply Hsw. repeat constructor; vm_compute; discriminate.
Qed.

(** The length of an identifier, when it is set, and its token. *)
Definition ident_result (s : list Z) (r : option (Z * option nat)) : Prop :=
  exists t n, r = Some (t, n) /\ (t = TOK_ERR \/ 50 <= t) /\ match n with Some n => (1 <= n <= length s)%nat | None => t = TOK_ERR end.
Lemma ident_slow_ends s n : bytes s -> (1 <= n <= length s)%nat -> ident_result s (ident_slow s n).
Proof using US.
  intros Hb Hn. unfold ident_slow. destruct (ident_loop_ends (S (length s)) s n (rd s 0 =? 92) Hb) as (m & esc & -> & Hm); [lia|lia|]. destruct esc.
  - destruct (decode_ident_ends (S (length (take m s))) (take m s) 0 [] 256) as (d & E & _); [lia|cbn; lia|]. unfold decode_ident_escapes. rewrite E.
    eexists _, (Some m). split; [reflexivity|]. split; [|lia]. destruct (sv_parsekeyword d =? TOK_IDENTIFIER); [right; unfold TOK_IDENTIFIER; lia|auto].
  - eexists _, (Some m). split; [reflexivity|]. split; [right; apply keyword_least|lia].
Qed.
Lemma parseident_ends s : bytes s -> ident_result s (parseident s).
Proof using US.
  intros Hb. unfold parseident. assert (Herr : ident_result s (Some (TOK_ERR, None))) by (eexists _, None; auto).
  destruct (Nat.eqb_spec (length s) 0) as [E0|E0]; [exact Herr|]. destruct ((rd s 0 <? 128) && negb (rd s 0 =? 92) && is_ident_begin (rd s 0)).
  { pose proof (span_drop ascii_continue s 1 ltac:(lia)) as Hs. destruct ((S (span ascii_continue (drop 1 s)) <? length s)%nat && _) eqn:Ec.
    - apply ident_slow_ends; [exact Hb|lia].
    - eexists _, (Some _). split; [reflexivity|]. split; [right; apply keyword_least|lia]. }
  destruct (rd s 0 =? 92).
  { destruct (parse_unicode_escape s 0) as [[el cp]|] eqn:Ee; [|exact Herr]. apply escape_range in Ee as (H1 & H2 & _). destruct (is_unicode_ident_begin cp); [|exact Herr]. apply ident_slow_ends; [exact Hb|lia]. }
  destruct (128 <=? rd s 0); [|exact Herr]. destruct (utf8proc_iterate s) as [[n cp]|] eqn:Ei; [|exact Herr]. apply iterate_range in Ei as [Hn _]; [|exact Hb].
  destruct (is_unicode_id_start cp); [|exact Herr]. apply ident_slow_ends; assumption.
Qed.

(** *** Numbers *)

Lemma chars_le s p : (p <= length s)%nat -> (p <= scan_decimal_literal_chars s p <= length s)%nat.
Proof using. intros H. unfold scan_decimal_literal_chars. pose proof (span_drop is_decimal_literal_char s p H). lia. Qed.
Lemma at_char_lt s p test : at_char s p test = true -> (p < length s)%nat.
Proof using. unfold at_char. intros H. boolprop. lia. Qed.
Lemma scan_decimal_le s : (scan_decimal_literal s <= length s)%nat.
Proof using.
  unfold scan_decimal_literal. pose proof (chars_le s 0 ltac:(lia)) as H0. set (p0 := scan_decimal_literal_chars s 0) in *.
  assert (H1 : ((if at_char s p0 (fun c => (c =? 46)%Z) then scan_decimal_literal_chars s (S p0) else p0) <= length s)%nat).
  { destruct (at_char s p0 _) eqn:E; [|lia]. apply at_char_lt in E. apply chars_le. lia. }
  set (p1 := if at_char s p0 _ then _ else p0) in *. destruct (at_char s p1 _) eqn:E1; [|exact H1]. apply at_char_lt in E1. apply chars_le.
  destruct (at_char s (S p1) _) eqn:E2; [apply at_char_lt in E2; lia|lia].
Qed.
Lemma parse_decimal_le s : ((parse_decimal_literal s).1 <= length s)%nat.
Proof using. unfold parse_decimal_literal. pose proof (scan_decimal_le s). destruct (has_numeric_separator _); [|exact H]. destruct (_ && _); exact H. Qed.

Definition scan_ok (s : list Z) (r : scanned) : Prop := (r.1.2 <= length s)%nat /\ (r.1.1 = TOK_ERR \/ 2 <= r.1.1).
Lemma finish_number_ok s n v : (n <= length s)%nat -> scan_ok s (finish_number s n v).
Proof using.
  intros Hn. unfold finish_number, scan_ok. cbn [fst snd]. split.
  - destruct (at_char s n _) eqn:E; [apply at_char_lt in E; lia|exact Hn].
  - destruct (number_literal_has_invalid_tail _ _); [auto|]. right. destruct (at_char s n _); unfold TOK_BIGINT, TOK_NUMBER; lia.
Qed.
Lemma decimal_number_ok s : scan_ok s (decimal_number s).
Proof using. unfold decimal_number. pose proof (parse_decimal_le s) as H. destruct (parse_decimal_literal s) as [n [b|]]; cbn in H; [apply finish_number_ok, H|split; cbn; auto]. Qed.
Lemma integer_number_ok s r test digit from : (from <= length s)%nat -> scan_ok s (integer_number s (parse_radix r test digit from s)).
Proof using. intros H. apply finish_number_ok. cbn. apply span_drop, H. Qed.
Lemma parse_number_ok strict s : s <> [] -> scan_ok s (parse_number strict s).
Proof using.
  intros Hs. assert (H1 : (1 <= length s)%nat) by (destruct s; [contradiction|cbn; lia]). unfold parse_number. destruct ((rd s 0 =? 48) && (1 <? length s)%nat) eqn:E; [|apply decimal_number_ok]. boolprop.
  assert (Herr : scan_ok s (TOK_ERR, 1%nat, None)) by (split; cbn; auto).
  case_if; [apply integer_number_ok; lia|]. case_if; [apply integer_number_ok; lia|]. case_if; [apply integer_number_ok; lia|].
  case_if; [case_if; [exact Herr|apply integer_number_ok; lia]|]. case_if; [exact Herr|apply decimal_number_ok].
Qed.

(** *** Strings and templates *)

Lemma memchr_range s i c q : memchr s i c = Some q -> (i <= q < length s)%nat.
Proof using. unfold memchr. destruct (Nat.ltb_spec (i + span (fun b => negb (b =? c)) (drop i s)) (length s)); [|discriminate]. intros [= <-]. lia. Qed.
Lemma escape_skip_ge s b : (b + 1 < length s)%nat -> (2 <= escape_skip s b)%nat.
Proof using.
  intros Hb. unfold escape_skip. case_if; [lia|]. case_if; [|lia]. destruct (at_char s (b + 2) _) eqn:E; [|lia]. apply at_char_lt in E.
  destruct (memchr s (b + 3) 125) as [j|] eqn:Ej; [apply memchr_range in Ej; lia|lia].
Qed.
Lemma string_loop_ends fuel : forall s quote i, (1 <= i)%nat -> (1 <= length s)%nat -> (length s - i < fuel)%nat ->
  exists t n, string_loop fuel s quote i = Some (t, n) /\ (1 <= n <= length s)%nat /\ (t = TOK_ERR \/ (t = TOK_STRING /\ (2 <= n)%nat)).
Proof using.
  induction fuel as [|fuel IH]; intros s quote i H1 Hs Hf; [lia|]. cbn [string_loop].
  assert (Herr : exists t n, Some (TOK_ERR, length s) = Some (t, n) /\ (1 <= n <= length s)%nat /\ (t = TOK_ERR \/ (t = TOK_STRING /\ (2 <= n)%nat))) by (exists TOK_ERR, (length s); splits; auto; lia).
  destruct (Nat.leb_spec (length s) i); [exact Herr|]. destruct (memchr s i quote) as [q|] eqn:Eq; [|destruct (memchr s i 92); exact Herr]. apply memchr_range in Eq.
  assert (Hok : exists t n, Some (TOK_STRING, S q) = Some (t, n) /\ (1 <= n <= length s)%nat /\ (t = TOK_ERR \/ (t = TOK_STRING /\ (2 <= n)%nat))) by (exists TOK_STRING, (S q); splits; [reflexivity|lia|lia|right; split; [reflexivity|lia]]).
  destruct (memchr s i 92) as [b|] eqn:Eb; [|exact Hok]. apply memchr_range in Eb. destruct (q <? b)%nat; [exact Hok|]. destruct (Nat.leb_spec (length s) (b + 1)); [exact Herr|].
  destruct (length s <? b + escape_skip s b)%nat; [exact Herr|]. pose proof (escape_skip_ge s b ltac:(lia)). apply IH; lia.
Qed.

Lemma skip_string_ends fuel : forall s i quote, (length s - i < fuel)%nat -> exists n, skip_string_loop fuel s i quote = Some n /\ (n <= length s)%nat /\ ((i <= length s)%nat -> (i <= n)%nat).
Proof using.
  induction fuel as [|fuel IH]; intros s i quote Hf; [lia|]. cbn [skip_string_loop]. destruct (Nat.leb_spec (length s) i); [exists (length s); splits; auto|].
  destruct (rd s i =? 92).
  { destruct (Nat.le_gt_cases (i + 2) (length s)); [destruct (IH s (i + 2)%nat quote) as (n & E & H1 & H2); [lia|exists n; splits; [exact E|lia|lia]]|].
    destruct fuel as [|fuel]; [lia|]. cbn [skip_string_loop]. destruct (Nat.leb_spec (length s) (i + 2)); [|lia]. exists (length s). splits; auto. }
  destruct (rd s i =? quote); [exists (S i); splits; [reflexivity|lia|lia]|]. destruct (IH s (S i) quote) as (n & E & H1 & H2); [lia|]. exists n. splits; [exact E|lia|lia].
Qed.
Lemma find_close_range s n : find_close s = Some n -> (2 <= n <= length s)%nat.
Proof using.
  revert n. induction s as [|c [|d t] IH]; intros n; try discriminate. cbn [find_close]. destruct ((c =? 42) && (d =? 47)); [intros [= <-]; cbn; lia|].
  change (match t with [] => None | d0 :: _ => if (d =? 42) && (d0 =? 47) then Some 2%nat else option_map S (find_close t) end) with (find_close (d :: t)).
  destruct (find_close (d :: t)) as [m|]; [|discriminate]. intros [= <-]. specialize (IH m eq_refl). cbn in *. lia.
Qed.
Lemma regex_ends fuel : forall s i in_class, (i <= length s)%nat -> (length s - i < fuel)%nat -> exists n, regex_loop fuel s i in_class = Some n /\ (i <= n <= length s)%nat.
Proof using.
  induction fuel as [|fuel IH]; intros s i in_class Hi Hf; [lia|]. cbn [regex_loop]. destruct (Nat.leb_spec (length s) i); [exists i; split; [reflexivity|lia]|].
  assert (Hgo : forall k b, (1 <= k)%nat -> (i + k <= length s)%nat -> exists n, regex_loop fuel s (i + k) b = Some n /\ (i <= n <= length s)%nat).
  { intros k b H1 H2. destruct (IH s (i + k)%nat b) as (n & E & Hn); [lia|lia|]. exists n. split; [exact E|lia]. }
  assert (Hone : forall b, exists n, regex_loop fuel s (S i) b = Some n /\ (i <= n <= length s)%nat) by (intros b; replace (S i) with (i + 1)%nat by lia; apply Hgo; lia).
  destruct ((rd s i =? 92) && (i + 1 <? length s)%nat) eqn:E; [boolprop; apply Hgo; lia|]. case_if; [apply Hone|]. case_if; [apply Hone|]. case_if; [exists (S i); split; [reflexivity|lia]|apply Hone].
Qed.

Lemma template_ends fuel : forall s i depth regex, (length s - i < fuel)%nat ->
  exists n closed, template_loop fuel s i depth regex = Some (n, closed) /\ (n <= length s)%nat /\ (closed = true -> (i < n)%nat).
Proof using.
  induction fuel as [|fuel IH]; intros s i depth regex Hf; [lia|]. cbn [template_loop]. destruct (Nat.leb_spec (length s) i); [exists (length s), false; splits; auto; discriminate|].
  assert (Hgo : forall j d r, (i < j)%nat -> exists n closed, template_loop fuel s j d r = Some (n, closed) /\ (n <= length s)%nat /\ (closed = true -> (i < n)%nat)).
  { intros j d r Hj. destruct (IH s j d r) as (n & c & E & H1 & H2); [lia|]. exists n, c. splits; [exact E|exact H1|]. intros Hc. specialize (H2 Hc). lia. }
  destruct (rd s i =? 92); [apply Hgo; lia|]. destruct (depth =? 0).
  { destruct (rd s i =? 96); [exists (S i), true; splits; auto; lia|]. destruct (_ && _); apply Hgo; lia. }
  destruct ((rd s i =? 39) || (rd s i =? 34)).
  { unfold skip_string_literal. destruct (skip_string_ends (S (length s)) s (S i) (rd s i)) as (n & -> & H1 & H2); [lia|]. apply Hgo. lia. }
  destruct (rd s i =? 96).
  { destruct (IH s (S i) 0 true) as (n & c & -> & H1 & H2); [lia|]. destruct c; cbn [negb orb]; [|exists (length s), false; splits; auto; discriminate].
    destruct (Nat.leb_spec n i); [exists (length s), false; splits; auto; discriminate|]. apply Hgo. lia. }
  destruct ((rd s i =? 47) && (S i <? length s)%nat) eqn:E; boolprop.
  { case_if; [apply Hgo; unfold skip_line_comment; lia|]. case_if; [apply Hgo; unfold skip_block_comment; destruct (find_close _) eqn:Ec; [lia|lia]|]. destruct regex; [|apply Hgo; lia].
    unfold skip_regex_literal. destruct (regex_ends (S (length s)) s (S i) false) as (n & -> & Hn); [lia|lia|]. cbn [option_map]. apply Hgo. lia. }
  repeat (case_if; [apply Hgo; lia|]). apply Hgo. lia.
Qed.
Lemma scan_template_ends s : s <> [] -> exists t n, scan_template s = Some (t, n) /\ (1 <= n <= length s)%nat /\ (t = TOK_ERR \/ t = TOK_TEMPLATE).
Proof using.
  intros Hs. assert (H1 : (1 <= length s)%nat) by (destruct s; [contradiction|cbn; lia]). unfold scan_template, skip_template_literal.
  destruct (template_ends (S (length s)) s 1 0 true) as (n & c & -> & Hn & Hc); [lia|]. destruct (negb c || (n <=? 1)%nat || (length s <? n)%nat) eqn:E; [exists TOK_ERR, (length s); splits; auto; lia|].
  boolprop. exists TOK_TEMPLATE, n. splits; auto; lia.
Qed.

(** *** Tokens *)

Lemma parse_operator_ok s r : s <> [] -> parse_operator s = Some r -> scan_ok s r.
Proof using.
  intros Hs. assert (H1 : (1 <= length s)%nat) by (destruct s; [contradiction|cbn; lia]). unfold parse_operator.
  assert (Hop : forall t n, (n <= length s)%nat -> 2 <= t -> Some (t, n, None) = Some r -> scan_ok s r) by (intros t n Hn Ht [= <-]; split; cbn; auto).
  repeat match goal with |- (if ?b then _ else _) = Some r -> _ => destruct b eqn:?; boolprop end; try (apply Hop; [lia|vm_compute; discriminate]); try discriminate.
  pose proof (parse_decimal_le s) as Hd. destruct (parse_decimal_literal s) as [n [b|]]; cbn in Hd; [destruct (number_literal_has_invalid_tail s n)|]; intros [= <-]; split; cbn; auto. right. vm_compute. discriminate.
Qed.

(** A token is found at the start of every text, and it is not empty. *)
Lemma scan_token_ends strict s : bytes s -> s <> [] ->
  exists t n v, scan_token strict s = Some (t, n, v) /\ (1 <= n <= length s)%nat /\ t <> TOK_EOF.
Proof using US.
  intros Hb Hs. assert (H1 : (1 <= length s)%nat) by (destruct s; [contradiction|cbn; lia]). unfold scan_token.
  assert (Hr : forall t n (v : option tvalue), (n <= length s)%nat -> t = TOK_ERR \/ 2 <= t -> exists t' n' v', Some (t, at_least_1 n, v) = Some (t', n', v') /\ (1 <= n' <= length s)%nat /\ t' <> TOK_EOF).
  { intros t n v Hn Ht. exists t, (at_least_1 n), v. split; [reflexivity|]. unfold at_least_1. split; [destruct (Nat.eqb_spec n 0); lia|]. unfold TOK_ERR, TOK_EOF in *. lia. }
  assert (Hident : forall n0, (n0 <= length s)%nat -> exists t n v, option_map (fun '(t, n) => (t, at_least_1 (match n with Some n => n | None => n0 end), @None tvalue)) (parseident s) = Some (t, n, v) /\ (1 <= n <= length s)%nat /\ t <> TOK_EOF).
  { intros n0 Hn0. destruct (parseident_ends s Hb) as (t & n & -> & Ht & Hn). cbn [option_map]. apply Hr; [destruct n; [lia|exact Hn0]|]. destruct Ht; [auto|right; lia]. }
  destruct ((rd s 0 <? 128) && negb (single_char_tok (rd s 0) =? 0)).
  { exists (single_char_tok (rd s 0)), 1%nat, None. splits; [reflexivity|lia|lia|]. unfold single_char_tok. repeat (case_if; [vm_compute; discriminate|]). vm_compute. discriminate. }
  destruct (IS_IDENT1 (rd s 0)) eqn:Ei.
  { destruct (parseident_ends s Hb) as (t & n & E & Ht & Hn). rewrite E. cbn [option_map]. eexists _, _, _. split; [reflexivity|]. destruct n as [n|]; [split; [exact Hn|unfold TOK_ERR, TOK_EOF in *; lia]|]. exfalso. subst t.
    assert (Hc : is_byte (rd s 0)) by (destruct s; [contradiction|inversion Hb; assumption]).
    by_bytes (rd s 0) (fun c => implb (IS_IDENT1 c) ((c <? 128) && negb (c =? 92) && is_ident_begin c)). rewrite Ei in Hbyte. cbn [implb] in Hbyte.
    unfold parseident in E. destruct (Nat.eqb_spec (length s) 0); [lia|]. rewrite Hbyte in E. destruct ((_ <? _)%nat && _); [|discriminate].
    unfold ident_slow in E. destruct (ident_loop _ _ _ _) as [[m []]|]; [destruct (decode_ident_escapes _ _)| |]; discriminate. }
  destruct (IS_DIGIT (rd s 0)). { destruct (parse_number_ok strict s Hs) as [Hn Ht]. destruct (parse_number strict s) as [[t n] v]. apply Hr; assumption. }
  destruct ((rd s 0 =? 34) || (rd s 0 =? 39)).
  { unfold scan_string. destruct (string_loop_ends (length s) s (rd s 0) 1) as (t & n & -> & Hn & Ht); [lia|lia|lia|]. cbn [option_map]. apply Hr; [lia|]. unfold TOK_STRING in Ht. lia. }
  destruct (rd s 0 =? 96). { destruct (scan_template_ends s Hs) as (t & n & -> & Hn & Ht). cbn [option_map]. apply Hr; [lia|]. unfold TOK_TEMPLATE in Ht. lia. }
  destruct (parse_operator s) as [[[t n] v]|] eqn:Eo; [|apply Hident; lia]. apply parse_operator_ok in Eo as [Hn Ht]; [|exact Hs]. cbn in Hn, Ht. destruct (t =? 0); [apply Hident, Hn|apply Hr; assumption].
Qed.

(** *** The driver *)

Definition lex_ok (lx : sv_lexer_t) : Prop := bytes (code lx) /\ (pos (lst lx) <= length (code lx))%nat.
(** A new token: after the last one, inside the text, and not empty. *)
Definition advanced (lx lx' : sv_lexer_t) : Prop :=
  code lx' = code lx /\ strict lx' = strict lx /\ consumed (lst lx') = false /\
  let st := lst lx' in
  (pos (lst lx) <= toff st)%nat /\ pos st = (toff st + tlen st)%nat /\ (pos st <= length (code lx))%nat /\
  (if tok st =? TOK_EOF then toff st = length (code lx) /\ tlen st = 0%nat else (1 <= tlen st)%nat).

Lemma next_ends lx : lex_ok lx -> consumed (lst lx) = true -> exists lx', sv_lexer_next lx = Some lx' /\ advanced lx lx'.
Proof using US.
  intros [Hb Hp] Hc. unfold sv_lexer_next, sv_next_raw. rewrite Hc. cbn [negb]. destruct (skiptonext_ends (code lx) (pos (lst lx)) Hb Hp) as (p & nl & -> & Hr & _).
  destruct (Nat.leb_spec (length (code lx)) p) as [Hend|Hend].
  { eexists. split; [reflexivity|]. unfold advanced. cbn [code strict lst consumed toff tlen pos tok with_state]. change (TOK_EOF =? TOK_EOF) with true. cbv iota. splits; auto; lia. }
  assert (Hne : drop p (code lx) <> []) by (intros E; apply (f_equal length) in E; rewrite length_drop in E; cbn in E; lia).
  destruct (scan_token_ends (strict lx) (drop p (code lx)) (bytes_drop _ _ Hb) Hne) as (t & n & v & -> & Hn & Ht). rewrite length_drop in Hn.
  eexists. split; [reflexivity|]. unfold advanced. cbn [code strict lst consumed toff tlen pos tok with_state]. splits; auto; try lia. destruct (Z.eqb_spec t TOK_EOF); [contradiction|lia].
Qed.
Lemma consume_ok lx : lex_ok lx -> lex_ok (consume lx) /\ consumed (lst (consume lx)) = true.
Proof using. intros H. split; [exact H|reflexivity]. Qed.

(** Tokens from a position on, each after the one before. *)
Fixpoint in_order (p : nat) (ts : list token) (stop : nat) : Prop :=
  match ts with
  | [] => (p <= stop)%nat
  | t :: ts => (p <= t_off t)%nat /\ (1 <= t_len t)%nat /\ t_tok t <> TOK_EOF /\ in_order (t_off t + t_len t) ts stop
  end.

Lemma stream_ends fuel : forall lx, lex_ok lx -> (length (code lx) - pos (lst lx) < fuel)%nat ->
  exists ts, token_stream fuel lx = Some ts /\ in_order (pos (lst lx)) ts (length (code lx)).
Proof using US.
  induction fuel as [|fuel IH]; intros lx Hl Hf; [lia|]. cbn [token_stream]. destruct (consume_ok lx Hl) as [Hl' Hc].
  destruct (next_ends (consume lx) Hl' Hc) as (lx' & -> & A1 & A2 & A3 & A4 & A5 & A6 & A7). cbn [consume with_state code lst pos] in *.
  destruct (Z.eqb_spec (tok (lst lx')) TOK_EOF) as [E|E]; [exists []; split; [reflexivity|cbn; apply Hl]|].
  destruct (IH lx') as (ts & -> & Ho); [split; [rewrite A1; apply Hl|rewrite A1; exact A6]|rewrite A1; lia|]. exists (current lx' :: ts). split; [reflexivity|].
  cbn. rewrite A1, A5 in Ho. splits; auto.
Qed.

(** C19: the lexer takes every text of bytes to its end: no scan loops or leaves
    the text or its buffer for decoded names, the tokens come in order, do not
    overlap, are not empty and end inside the text. *)
Theorem tokenize_total text strict : bytes text -> exists ts, tokenize text strict = Some ts /\ in_order 0 ts (length text).
Proof using US. intros Hb. apply (stream_ends (S (length text)) (sv_lexer_init text strict)); [split; [exact Hb|cbn; lia]|cbn; lia]. Qed.

(** Looking ahead gives the token that the next call gives once the current
    one is consumed, and leaves the lexer where it was: only the value of the
    current token may be lost. *)
Theorem lookahead_correct lx : lex_ok lx ->
  exists t lx', sv_lexer_lookahead lx = Some (t, lx') /\
    (exists v, lx' = with_state lx (let st := lst lx in LexState (pos st) (toff st) (tlen st) v (tok st) (consumed st) (had_newline st))) /\
    exists lx2, sv_lexer_next (consume lx) = Some lx2 /\ tok (lst lx2) = t /\
    exists lx3, sv_lexer_next (consume lx') = Some lx3 /\ current lx3 = current lx2 /\ pos (lst lx3) = pos (lst lx2).
Proof using US.
  intros Hl. destruct (consume_ok lx Hl) as [Hl' Hc]. unfold sv_lexer_lookahead. destruct (next_ends (consume lx) Hl' Hc) as (lx2 & E & _). rewrite E.
  eexists _, _. split; [reflexivity|]. split; [eexists; reflexivity|]. exists lx2. splits; auto.
  revert E. unfold sv_lexer_next, sv_next_raw. rewrite Hc. cbn [consume with_state lst consumed negb code pos strict tval]. destruct (sv_skiptonext (code lx) (pos (lst lx))) as [[p nl]|]; [|discriminate].
  destruct (length (code lx) <=? p)%nat; [intros [= <-]; eexists; split; [reflexivity|]; split; reflexivity|]. destruct (scan_token (strict lx) (drop p (code lx))) as [[[t n] v]|]; [|discriminate].
  intros [= <-]. eexists. split; [reflexivity|]. split; reflexivity.
Qed.

End Lexer.

(** ** Examples *)

Module Example.
Definition no_category : Z -> utf8proc_category_t := fun _ => CATEGORY_OTHER.
(** A number parser for the examples: the value of the digits. *)
Definition digits_value (s : list Z) : option Z := Some (fold_left (fun n d => n * 10 + (d - 48)) s 0).
Definition enough_memory : Z -> bool := fun _ => true.
Abbreviation lex text := (tokenize (U := utf8proc_ref) no_category digits_value enough_memory (str_bytes text) false).
Abbreviation toks text := (option_map (map (fun t => (t_tok t, t_off t, t_len t))) (lex text)).

Lemma tokenize_total_witness : exists ts, lex "let x = 5" = Some ts /\ in_order 0 ts 9.
Proof. apply (tokenize_total (U := utf8proc_ref) (US := utf8proc_ref_spec) no_category digits_value enough_memory (str_bytes "let x = 5") false). repeat constructor; discriminate. Defined.

Lemma lookahead_correct_witness :
  let lx := sv_lexer_init (str_bytes "a ?? 3") true in
  exists t lx', sv_lexer_lookahead (U := utf8proc_ref) no_category digits_value enough_memory lx = Some (t, lx') /\
    (exists v, lx' = with_state lx (let st := lst lx in LexState (pos st) (toff st) (tlen st) v (tok st) (consumed st) (had_newline st))) /\
    exists lx2, sv_lexer_next (U := utf8proc_ref) no_category digits_value enough_memory (consume lx) = Some lx2 /\ tok (lst lx2) = t /\
    exists lx3, sv_lexer_next (U := utf8proc_ref) no_category digits_value enough_memory (consume lx') = Some lx3 /\ current lx3 = current lx2 /\ pos (lst lx3) = pos (lst lx2).
Proof.
  apply (lookahead_correct (U := utf8proc_ref) (US := utf8proc_ref_spec) no_category digits_value enough_memory). split; [repeat constructor; discriminate|cbn; lia].
Defined.

(** A comment that is not closed is no error: all but its last byte is skipped,
    and that byte is the next token. *)
Lemma open_comment_tail : toks "a /* b" = Some [(TOK_IDENTIFIER, 0%nat, 1%nat); (TOK_IDENTIFIER, 5%nat, 1%nat)].
Proof. vm_compute. reflexivity. Qed.
(** [?.] is an optional chain before a digit too. *)
Lemma conditional_digit : option_map (map t_tok) (lex "a?.5:1") = Some [TOK_IDENTIFIER; TOK_OPTIONAL_CHAIN; TOK_NUMBER; TOK_COLON; TOK_NUMBER].
Proof. vm_compute. reflexivity. Qed.
(** A division after a string in a template's expression is taken for a regex,
    and the template is not closed. *)
Lemma template_division : option_map (map (fun t => (t_tok t, t_len t))) (lex "`${'4'/2}` ") = Some [(TOK_ERR, 11%nat)].
Proof. vm_compute. reflexivity. Qed.
(** A number right before a no-break space is an error. *)
Lemma number_nbsp : option_map (map (fun t => t_tok t)) (tokenize (U := utf8proc_ref) (fun cp => if cp =? 0xA0 then CATEGORY_ZS else CATEGORY_OTHER) digits_value enough_memory [49; 0xC2; 0xA0] false) = Some [TOK_ERR].
Proof. vm_compute. reflexivity. Qed.
End Example.
