(* ===== verification/LexerText.v ===== *)
(** * What the lexer reads

    The punctuators and their longest match, the reserved words, and the round
    trip: a program text made of spelled tokens, with white space and comments
    between them, comes back as these tokens with the line breaks before them. *)

From S2P Require Import Prelude Utf8Codec Date SilverLexer.

(** ** Punctuators *)

(** The spellings of [parse_operator], longer ones before their prefixes. *)
Definition operators : list (list Z * Z) := Eval vm_compute in map (fun '(w, t) => (str_bytes w, t))
  [("??=", TOK_NULLISH_ASSIGN); ("??", TOK_NULLISH); ("?.", TOK_OPTIONAL_CHAIN); ("?", TOK_Q);
   ("!==", TOK_SNE); ("!=", TOK_NE); ("!", TOK_NOT);
   ("===", TOK_SEQ); ("==", TOK_EQ); ("=>", TOK_ARROW); ("=", TOK_ASSIGN);
   ("<<=", TOK_SHL_ASSIGN); ("<<", TOK_SHL); ("<=", TOK_LE); ("<", TOK_LT);
   (">>>=", TOK_ZSHR_ASSIGN); (">>>", TOK_ZSHR); (">>=", TOK_SHR_ASSIGN); (">>", TOK_SHR); (">=", TOK_GE); (">", TOK_GT);
   ("&&=", TOK_LAND_ASSIGN); ("&&", TOK_LAND); ("&=", TOK_AND_ASSIGN); ("&", TOK_AND);
   ("||=", TOK_LOR_ASSIGN); ("||", TOK_LOR); ("|=", TOK_OR_ASSIGN); ("|", TOK_OR);
   ("++", TOK_POSTINC); ("+=", TOK_PLUS_ASSIGN); ("+", TOK_PLUS);
   ("--", TOK_POSTDEC); ("-=", TOK_MINUS_ASSIGN); ("-", TOK_MINUS);
   ("**=", TOK_EXP_ASSIGN); ("**", TOK_EXP); ("*=", TOK_MUL_ASSIGN); ("*", TOK_MUL);
   ("/=", TOK_DIV_ASSIGN); ("/", TOK_DIV); ("%=", TOK_REM_ASSIGN); ("%", TOK_REM); ("^=", TOK_XOR_ASSIGN); ("^", TOK_XOR);
   ("...", TOK_REST); (".", TOK_DOT)]%string.
Definition single_chars : list (list Z * Z) := Eval vm_compute in map (fun '(w, t) => (str_bytes w, t))
  [("(", TOK_LPAREN); (")", TOK_RPAREN); ("{", TOK_LBRACE); ("}", TOK_RBRACE); ("[", TOK_LBRACKET); ("]", TOK_RBRACKET);
   (";", TOK_SEMICOLON); (",", TOK_COMMA); (":", TOK_COLON); ("~", TOK_TILDA); ("#", TOK_HASH)]%string.

Lemma starts_cons c s d w : starts (c :: s) (d :: w) = (c =? d) && starts s w.
Proof.
  unfold starts. cbn [length take]. destruct (Z.eqb_spec c d) as [->|Hne]; cbn [andb].
  - apply bool_decide_ext. split; [intros [= H]; exact H|intros ->; reflexivity].
  - apply bool_decide_eq_false. congruence.
Qed.
Lemma starts_empty d w : starts [] (d :: w) = false.
Proof. reflexivity. Qed.
Lemma starts_nil s : starts s [] = true.
Proof. unfold starts. apply bool_decide_eq_true. apply take_0. Qed.
Lemma starts_app w r : starts (w ++ r) w = true.
Proof. unfold starts. apply bool_decide_eq_true. apply take_app_length. Qed.

Fixpoint first_match (ops : list (list Z * Z)) (s : list Z) : option (Z * nat) :=
  match ops with
  | [] => None
  | (w, t) :: ops => if starts s w then Some (t, length w) else first_match ops s
  end.

(** No word is a prefix of a later one. *)
Fixpoint longer_first (ops : list (list Z * Z)) : bool :=
  match ops with
  | [] => true
  | (w, _) :: ops => forallb (fun o => negb (starts o.1 w)) ops && longer_first ops
  end.

Lemma starts_prefix s w w' : starts s w = true -> starts s w' = true -> (length w <= length w')%nat -> starts w' w = true.
Proof.
  unfold starts. intros H1%bool_decide_eq_true H2%bool_decide_eq_true Hl. apply bool_decide_eq_true.
  assert (H : take (length w) (take (length w') s) = w) by (rewrite take_take, Nat.min_l by lia; exact H1). rewrite H2 in H. exact H.
Qed.

Definition longest (ops : list (list Z * Z)) (s : list Z) (t : Z) (n : nat) : Prop :=
  exists w, (w, t) ∈ ops /\ starts s w = true /\ n = length w /\ forall w' t', (w', t') ∈ ops -> starts s w' = true -> (length w' <= length w)%nat.
Lemma first_longest ops s t n : longer_first ops = true -> first_match ops s = Some (t, n) -> longest ops s t n.
Proof.
  induction ops as [|[w0 t0] ops IH]; cbn [longer_first first_match]; [discriminate|]. intros [Hw Ho]%andb_true_iff H. destruct (starts s w0) eqn:E.
  - injection H as <- <-. exists w0. splits; [left|exact E|reflexivity|]. intros w' t' [[= <- <-]|Hin]%elem_of_cons Hs; [lia|].
    destruct (Nat.le_gt_cases (length w') (length w0)) as [|Hlt]; [assumption|]. exfalso. rewrite forallb_forall in Hw. apply list_elem_of_In in Hin. specialize (Hw _ Hin). cbn in Hw.
    rewrite (starts_prefix s w0 w' E Hs) in Hw by lia. discriminate.
  - destruct (IH Ho H) as (w & Hin & Hs & Hn & Hmax). exists w. splits; [right; exact Hin|exact Hs|exact Hn|]. intros w' t' [[= <- <-]|Hin']%elem_of_cons Hs'; [congruence|eauto].
Qed.
Lemma first_none ops s : first_match ops s = None -> forall w t, (w, t) ∈ ops -> starts s w = false.
Proof.
  induction ops as [|[w0 t0] ops IH]; cbn [first_match]; intros H w t Hin; [inversion Hin|]. destruct (starts s w0) eqn:E; [discriminate|].
  apply elem_of_cons in Hin as [[= -> ->]|Hin]; [exact E|eauto].
Qed.

(** ** Words *)

Definition keyword_list (cs : list (Z * list (string * Z))) : list (list Z * Z) := map (fun '(k, t) => (str_bytes k, t)) (flat_map snd cs).
Definition keywords : list (list Z * Z) := Eval vm_compute in keyword_list keyword_cases.
Fixpoint word_in (ks : list (list Z * Z)) (w : list Z) : Z :=
  match ks with [] => TOK_IDENTIFIER | (k, t) :: ks => if bool_decide (w = k) then t else word_in ks w end.

Lemma word_in_app ks l w : word_in (ks ++ l) w = if bool_decide (w ∈ map fst ks) then word_in ks w else word_in l w.
Proof.
  induction ks as [|[k t] ks IH]; [reflexivity|]. cbn [app word_in map fst]. rewrite IH. destruct (bool_decide_reflect (w = k)) as [->|Hne].
  - rewrite bool_decide_true by left. reflexivity.
  - rewrite (bool_decide_ext (w ∈ k :: map fst ks) (w ∈ map fst ks)); [reflexivity|]. rewrite elem_of_cons. tauto.
Qed.
Lemma word_in_none l w : w ∉ map fst l -> word_in l w = TOK_IDENTIFIER.
Proof. induction l as [|[k t] l IH]; [reflexivity|]. cbn [map fst word_in]. rewrite not_elem_of_cons. intros [Hne H]. rewrite bool_decide_false by exact Hne. apply IH, H. Qed.

(** Every case lists words of its character, and no character comes twice. *)
Fixpoint cases_ok (cs : list (Z * list (string * Z))) : bool :=
  match cs with
  | [] => true
  | (c, ks) :: cs => forallb (fun kt => rd (str_bytes kt.1) 0 =? c) ks && negb (existsb (fun d => d.1 =? c) cs) && cases_ok cs
  end.
Lemma case_words cs : cases_ok cs = true -> forall w, w ∈ map fst (keyword_list cs) -> exists c ks, (c, ks) ∈ cs /\ rd w 0 = c.
Proof.
  induction cs as [|[c ks] cs IH]; cbn [cases_ok]; intros H w Hw; [inversion Hw|]. apply andb_true_iff in H as [[H1 _]%andb_true_iff H2].
  unfold keyword_list in Hw. cbn [flat_map snd] in Hw. rewrite map_app, map_app in Hw. apply elem_of_app in Hw as [Hw|Hw].
  - exists c, ks. split; [left|]. rewrite list_elem_of_In, in_map_iff in Hw. destruct Hw as ((k, t) & <- & Hin). apply in_map_iff in Hin as ((k0, t0) & [= <- <-] & Hin).
    rewrite forallb_forall in H1. specialize (H1 _ Hin). cbn in *. apply Z.eqb_eq, H1.
  - destruct (IH H2 w Hw) as (d & ks' & Hin & Hd). exists d, ks'. split; [right; exact Hin|exact Hd].
Qed.

(** The switch on the first character finds the same word as a search of the
    whole list. *)
Lemma keyword_flat w : sv_parsekeyword w = word_in keywords w.
Proof.
  assert (H : cases_ok keyword_cases = true) by (vm_compute; reflexivity). change keywords with (keyword_list keyword_cases). unfold sv_parsekeyword. revert H.
  generalize keyword_cases. intros cs. induction cs as [|[c ks] cs IH]; [reflexivity|]. intros H. pose proof H as H0. cbn [cases_ok] in H. apply andb_true_iff in H as [[H1 H2]%andb_true_iff H3].
  assert (Hin : keyword_in w ks = word_in (map (fun '(k, t) => (str_bytes k, t)) ks) w) by (clear; induction ks as [|[k t] ks IH]; [reflexivity|]; cbn [keyword_in map word_in]; rewrite IH; reflexivity).
  assert (Hks : forall x, x ∈ map fst (map (fun '(k, t) => (str_bytes k, t)) ks) -> rd x 0 = c).
  { intros x Hx. rewrite list_elem_of_In, in_map_iff in Hx. destruct Hx as ((k, t) & <- & Hx). apply in_map_iff in Hx as ((k0, t0) & [= <- <-] & Hx). rewrite forallb_forall in H1. apply Z.eqb_eq, (H1 _ Hx). }
  unfold keyword_list. cbn [keyword_switch flat_map snd]. rewrite map_app, word_in_app. case_bool_decide as Hw.
  - rewrite (Hks w Hw), Z.eqb_refl. exact Hin.
  - destruct (Z.eqb_spec (rd w 0) c) as [E|E]; [|apply IH, H3]. rewrite Hin, word_in_none by exact Hw. symmetry. apply word_in_none. intros Hr.
    destruct (case_words cs H3 w Hr) as (d & ks' & Hd & Ed). apply negb_true_iff in H2. enough (existsb (fun d => d.1 =? c) cs = true) by congruence.
    apply existsb_exists. exists (d, ks'). split; [apply list_elem_of_In, Hd|]. cbn. apply Z.eqb_eq. congruence.
Qed.

Section Text.
Context `{U : Utf8proc} {US : Utf8procSpec U} (category : Z -> utf8proc_category_t) (number_parse : list Z -> option Z) (malloc_ok : Z -> bool).
Abbreviation operator := (parse_operator number_parse malloc_ok).

(** A dot that starts a number. *)
Definition dot_digit (s : list Z) : bool := (rd s 0 =? 46) && (1 <? length s)%nat && IS_DIGIT (rd s 1).

Lemma match_2 c s d : (2 <=? length (c :: s))%nat && (rd (c :: s) 1 =? d) = starts s [d].
Proof. destruct s as [|x s]; [reflexivity|]. rewrite starts_cons. cbn. destruct (x =? d); reflexivity. Qed.
Lemma match_3 c s d e : (3 <=? length (c :: s))%nat && (rd (c :: s) 1 =? d) && (rd (c :: s) 2 =? e) = starts s [d; e].
Proof. destruct s as [|x [|y s]]; [reflexivity|rewrite starts_cons; cbn; destruct (x =? d); reflexivity|]. rewrite !starts_cons. cbn. destruct (x =? d), (y =? e); reflexivity. Qed.
Lemma match_4 c s d e f : (4 <=? length (c :: s))%nat && (rd (c :: s) 1 =? d) && (rd (c :: s) 2 =? e) && (rd (c :: s) 3 =? f) = starts s [d; e; f].
Proof.
  destruct s as [|x [|y [|z s]]]; [reflexivity|rewrite starts_cons; cbn; destruct (x =? d); reflexivity|rewrite !starts_cons; cbn; destruct (x =? d), (y =? e); reflexivity|].
  rewrite !starts_cons. cbn. destruct (x =? d), (y =? e), (z =? f); reflexivity.
Qed.

(** Both sides look at the same prefixes once the first character is known. *)
Ltac solve_op := cbv [Z.eqb Pos.eqb andb]; repeat match goal with |- context [starts ?s ?w] => destruct (starts s w) end; reflexivity.

Lemma operator_first s : s <> [] -> dot_digit s = false -> operator s = option_map (fun '(t, n) => (t, n, None)) (first_match operators s).
Proof.
  intros Hs Hd. destruct s as [|c s]; [contradiction|]. unfold parse_operator. rewrite !match_2, !match_3, !match_4. change (rd (c :: s) 0) with c.
  unfold dot_digit in Hd. change (rd (c :: s) 0) with c in Hd.
  cbn [operators first_match]. rewrite !starts_cons, !starts_nil.
  repeat match goal with |- (if c =? ?k then _ else _) = _ => destruct (Z.eqb_spec c k) as [->|?]; [solve_op|] end.
  repeat match goal with H : c <> ?k |- _ => apply Z.eqb_neq in H; rewrite ?H; clear H end. cbn [andb].
  destruct (Z.eqb_spec c 46) as [->|Hc]; [|reflexivity]. change (46 =? 46) with true in Hd. cbn [andb] in Hd. rewrite Hd. solve_op.
Qed.
Lemma operators_ordered : longer_first operators = true.
Proof. vm_compute. reflexivity. Qed.

(** An operator is the longest punctuator at the start of the text (a dot
    before a digit starts a number), and there is none only when no punctuator
    starts the text. *)
Theorem operator_longest s : s <> [] -> dot_digit s = false ->
  match operator s with
  | Some (t, n, v) => longest operators s t n /\ v = None
  | None => forall w t, (w, t) ∈ operators -> starts s w = false
  end.
Proof.
  intros Hs Hd. rewrite operator_first by assumption. destruct (first_match operators s) as [[t n]|] eqn:E; cbn [option_map].
  - split; [apply first_longest; [exact operators_ordered|exact E]|reflexivity].
  - apply first_none, E.
Qed.

End Text.

(** ** White space and comments *)

Definition is_gap_char (c : Z) : bool := (c =? 9) || (c =? 10) || (c =? 11) || (c =? 12) || (c =? 13) || (c =? 32).

Lemma span_app p l c r : forallb p l = true -> p c = false -> span p (l ++ c :: r) = length l.
Proof. induction l as [|x l IH]; cbn; intros Hl Hc; [rewrite Hc; reflexivity|]. apply andb_true_iff in Hl as [Hx Hl]. rewrite Hx, IH by assumption. reflexivity. Qed.
Lemma at_pre (pre : list Z) c s : (pre ++ c :: s) !! length pre = Some c.
Proof. apply list_lookup_middle. reflexivity. Qed.
Lemma at_pre_S (pre : list Z) c d s : (pre ++ c :: d :: s) !! S (length pre) = Some d.
Proof. rewrite lookup_app_r by lia. replace (S (length pre) - length pre)%nat with 1%nat by lia. reflexivity. Qed.
Lemma drop_pre (pre s : list Z) n : drop (length pre + n) (pre ++ s) = drop n s.
Proof. apply drop_app_add. Qed.
Lemma drop_pre_0 (pre s : list Z) : drop (length pre) (pre ++ s) = s.
Proof. apply drop_app_length. Qed.

Lemma line_end pre body r b : forallb not_newline body = true ->
  skip_line (pre ++ 47 :: 47 :: body ++ 10 :: r) (length pre + 2) b = ((length pre + (2 + length body + 1))%nat, true).
Proof.
  intros H. unfold skip_line. rewrite drop_pre. cbn [drop skipn]. rewrite ?drop_0. rewrite span_app by (auto; reflexivity).
  destruct (Nat.ltb_spec (length pre + 2 + length body) (length (pre ++ 47 :: 47 :: body ++ 10 :: r))) as [|Hn]; [f_equal; lia|].
  rewrite !length_app in Hn. cbn in Hn. rewrite length_app in Hn. cbn in Hn. lia.
Qed.

Lemma find_close_cons c d t : find_close (c :: d :: t) = if (c =? 42) && (d =? 47) then Some 2%nat else option_map S (find_close (d :: t)).
Proof. reflexivity. Qed.
Lemma block_end body r : forall b, find_close (body ++ [42; 47]) = Some (length body + 2)%nat ->
  block_comment (body ++ 42 :: 47 :: r) b = ((length body + 2)%nat, existsb (Z.eqb 10) body || b).
Proof.
  induction body as [|c body IH]; intros b H; [reflexivity|]. cbn [app] in *.
  assert (Hd : exists d t, body ++ [42; 47] = d :: t /\ body ++ 42 :: 47 :: r = d :: t ++ r) by (destruct body as [|d body]; [exists 42, [47]; auto|exists d, (body ++ [42; 47]); cbn; rewrite <- app_assoc; auto]).
  destruct Hd as (d & t & E1 & E2). rewrite E1, find_close_cons in H. rewrite E2, block_comment_cons. destruct ((c =? 42) && (d =? 47)) eqn:Ec.
  { injection H as H. destruct body; cbn in H; lia. }
  rewrite <- E1 in H. rewrite <- E2. destruct (find_close (body ++ [42; 47])) as [n|] eqn:En; [|discriminate]. cbn [option_map] in H. injection H as H. cbn [length] in *.
  rewrite IH by (f_equal; lia). cbn [existsb]. rewrite (Z.eqb_sym 10 c). f_equal. destruct (c =? 10), (existsb (Z.eqb 10) body), b; reflexivity.
Qed.

Lemma enc_high cp : 0x80 <= cp -> is_scalar cp = true -> exists c s, utf8_enc cp = c :: s /\ 0x80 <= c < 256 /\ bytes (c :: s).
Proof.
  intros H Hs. assert (Hc : cp < 0x110000) by (unfold is_scalar in Hs; boolprop; lia). assert (Hb : forall x, 0x80 <= x < 256 -> is_byte x) by (unfold is_byte; intros; lia).
  unfold utf8_enc. destruct (Z.ltb_spec cp 0x80); [lia|]. case_ifs; eexists _, _; (split; [reflexivity|]); (split; [|repeat constructor; apply Hb]); Z.to_euclidean_division_equations; lia.
Qed.
Lemma cc_high c : 0x80 <= c < 256 -> cc c = C_HI.
Proof. intros H. assert (Hb : is_byte c) by (unfold is_byte; lia). by_bytes c (fun c => implb (0x80 <=? c) (negb (c .& 0x80 =? 0))). destruct (Z.leb_spec 0x80 c); [|lia]. cbn in Hbyte. unfold cc. rewrite Hbyte. reflexivity. Qed.

Lemma gap_cases c : is_gap_char c = true -> c = 9 \/ c = 10 \/ c = 11 \/ c = 12 \/ c = 13 \/ c = 32.
Proof. unfold is_gap_char. intros H. repeat (apply orb_true_iff in H as [H|H]); apply Z.eqb_eq in H; tauto. Qed.

Section RoundTrip.
Context `{U : Utf8proc} {US : Utf8procSpec U} (category : Z -> utf8proc_category_t) (number_parse : list Z -> option Z) (malloc_ok : Z -> bool).

(** A piece of white space or a comment, and whether it ends a line. *)
Inductive piece : list Z -> bool -> Prop :=
| p_char c : is_gap_char c = true -> piece [c] (c =? 10)
| p_line body : forallb not_newline body = true -> piece (47 :: 47 :: body ++ [10]) true
| p_block body : find_close (body ++ [42; 47]) = Some (length body + 2)%nat -> piece (47 :: 42 :: body ++ [42; 47]) (existsb (Z.eqb 10) body)
| p_space cp : 0x80 <= cp -> is_scalar cp = true -> cp = 0xFEFF \/ category cp = CATEGORY_ZS -> piece (utf8_enc cp) false
| p_separator cp : 0x80 <= cp -> is_scalar cp = true -> cp <> 0xFEFF -> category cp = CATEGORY_ZL \/ category cp = CATEGORY_ZP -> piece (utf8_enc cp) true.

Lemma unicode_step pre cp r b lt : bytes r -> 0x80 <= cp -> is_scalar cp = true ->
  (if cp =? 0xFEFF then (length (utf8_enc cp), false) else match category cp with CATEGORY_ZS => (length (utf8_enc cp), false) | CATEGORY_ZL | CATEGORY_ZP => (length (utf8_enc cp), true) | _ => (0%nat, false) end) = (length (utf8_enc cp), lt) ->
  skip_step category (pre ++ utf8_enc cp ++ r) (length pre) b = Some ((length pre + length (utf8_enc cp))%nat, lt || b).
Proof using US.
  intros Hr Hcp Hs Hcat. destruct (enc_high cp Hcp Hs) as (c & s & E & Hc & Hb). pose proof (utf8_enc_length cp) as Hl.
  assert (Hi : utf8proc_iterate (utf8_enc cp ++ r) = Some (length (utf8_enc cp), cp)).
  { apply (iterate_spec (utf8_enc cp ++ r)); [rewrite E; apply Forall_app; auto|]. splits; [exact Hs|reflexivity|apply take_app_length]. }
  unfold skip_step. replace ((pre ++ utf8_enc cp ++ r) !! length pre) with (Some c) by (rewrite E; symmetry; apply at_pre). rewrite cc_high by exact Hc.
  rewrite drop_pre_0. unfold is_unicode_space. rewrite Hi, Hcat. replace (rd (utf8_enc cp ++ r) 0) with c by (rewrite E; reflexivity). destruct (Z.ltb_spec c 0x80); [lia|]. destruct (Nat.ltb_spec 0 (length (utf8_enc cp))); [reflexivity|lia].
Qed.

Lemma piece_step w nl pre r b : piece w nl -> bytes r -> skip_step category (pre ++ w ++ r) (length pre) b = Some ((length pre + length w)%nat, nl || b).
Proof using US.
  intros [c Hc|body Hb|body Hb|cp H1 H2 H3|cp H1 H2 H3 H4] Hr.
  - unfold skip_step. cbn [app]. rewrite at_pre. replace (length pre + length [c])%nat with (S (length pre)) by (cbn; lia).
    apply gap_cases in Hc as [->|[->|[->|[->|[->| ->]]]]]; reflexivity.
  - unfold skip_step. cbn [app]. rewrite <- app_assoc. cbn [app]. rewrite at_pre, at_pre_S. change (cc 47) with C_SL. change (47 =? 47) with true. cbv iota. rewrite line_end by exact Hb.
    f_equal. f_equal. cbn. rewrite length_app. cbn. lia.
  - unfold skip_step. cbn [app]. rewrite <- app_assoc. cbn [app]. rewrite at_pre, at_pre_S. change (cc 47) with C_SL. change (42 =? 47) with false. change (42 =? 42) with true. cbv iota.
    rewrite drop_pre. cbn [drop skipn]. rewrite ?drop_0. rewrite block_end by exact Hb. f_equal. f_equal. cbn. rewrite length_app. cbn. lia.
  - apply unicode_step; auto. destruct (Z.eqb_spec cp 0xFEFF); [reflexivity|]. destruct H3 as [|H3]; [contradiction|]. rewrite H3. reflexivity.
  - apply unicode_step; auto. apply Z.eqb_neq in H3. rewrite H3. destruct H4 as [-> | ->]; reflexivity.
Qed.
Lemma piece_length w nl : piece w nl -> (1 <= length w)%nat.
Proof using. intros []; cbn; try lia; apply utf8_enc_length. Qed.

Definition gap_bytes (ps : list (list Z * bool)) : list Z := concat (map fst ps).
Definition gap_newline (ps : list (list Z * bool)) : bool := existsb snd ps.
Abbreviation pieces := (Forall (fun p : list Z * bool => piece p.1 p.2)).

Lemma skip_pieces ps : pieces ps -> forall fuel pre r b, bytes (gap_bytes ps ++ r) -> (length (gap_bytes ps) < fuel)%nat ->
  (forall b, skip_step category (pre ++ gap_bytes ps ++ r) (length pre + length (gap_bytes ps)) b = None) ->
  skip_loop category fuel (pre ++ gap_bytes ps ++ r) (length pre) b = Some ((length pre + length (gap_bytes ps))%nat, gap_newline ps || b).
Proof using US.
  induction 1 as [|[w nl] ps Hw _ IH]; intros fuel pre r b Hb Hf Hstop; (destruct fuel as [|fuel]; [lia|]); cbn [skip_loop].
  - cbn [gap_bytes concat map length] in *. rewrite Nat.add_0_r in *. rewrite Hstop. reflexivity.
  - unfold gap_bytes in *. cbn [map concat fst] in *. fold (gap_bytes ps) in *. rewrite <- app_assoc in *. cbn [fst snd] in Hw. pose proof (piece_length w nl Hw) as Hl. rewrite length_app in Hf.
    apply Forall_app in Hb as [_ Hb]. rewrite (piece_step w nl pre (gap_bytes ps ++ r) b Hw Hb).
    specialize (IH fuel (pre ++ w) r (nl || b) Hb ltac:(lia)). rewrite <- !app_assoc, length_app in IH. rewrite IH.
    + unfold gap_newline. cbn [existsb snd]. f_equal. rewrite length_app. f_equal; [lia|]. destruct nl, (existsb snd ps), b; reflexivity.
    + intros b'. rewrite <- (Hstop b'). f_equal. rewrite length_app. lia.
Qed.

(** ** Spelled tokens *)

Definition digits (ds : list Z) : Prop := ds <> [] /\ forallb IS_DIGIT ds = true /\ (rd ds 0 = 48 -> length ds = 1%nat).
Definition fraction (fs : list Z) : Prop := fs = [] \/ exists ds, fs = 46 :: ds /\ forallb IS_DIGIT ds = true.

(** A part of a string: one character, or a backslash and a character. *)
Definition chunk (quote : Z) (w : list Z) : Prop :=
  (exists c, w = [c] /\ c <> quote /\ c <> 92) \/ exists c, w = [92; c] /\ c <> 120 /\ c <> 117.

Inductive spells : list Z -> Z -> Prop :=
| sp_operator w t : (w, t) ∈ operators -> spells w t
| sp_single w t : (w, t) ∈ single_chars -> spells w t
| sp_word c w : IS_IDENT1 c = true -> forallb ascii_continue w = true -> spells (c :: w) (word_in keywords (c :: w))
| sp_number ds fs bits : digits ds -> fraction fs -> number_parse (ds ++ fs) = Some bits -> spells (ds ++ fs) TOK_NUMBER
| sp_bigint ds bits : digits ds -> number_parse ds = Some bits -> spells (ds ++ [110]) TOK_BIGINT
| sp_hex ds : forallb IS_XDIGIT ds = true -> spells (48 :: 120 :: ds) TOK_NUMBER
| sp_string quote body : quote = 34 \/ quote = 39 -> Forall (chunk quote) body -> spells (quote :: concat body ++ [quote]) TOK_STRING
| sp_template body : forallb (fun c => negb (c =? 96) && negb (c =? 92) && negb (c =? 36)) body = true -> spells (96 :: body ++ [96]) TOK_TEMPLATE.

Abbreviation scan := (scan_token category number_parse malloc_ok).
(** The token is found whatever comes after one character of white space. *)
Definition found (strict : bool) (w : list Z) (t : Z) : Prop :=
  forall c r, is_gap_char c = true -> exists v, scan strict (w ++ c :: r) = Some (t, length w, v).

Lemma operators_found strict w t : (w, t) ∈ operators ++ single_chars -> found strict w t.
Proof using.
  intros H c r Hc. unfold operators, single_chars in H. cbn [app] in H.
  apply gap_cases in Hc. exists None. assert (Hr : r = [] \/ (exists x, r = [x]) \/ exists x y q, r = x :: y :: q) by (destruct r as [|x [|y q]]; eauto 6).
  repeat (apply elem_of_cons in H as [H|H]; [injection H as -> ->; destruct Hc as [->|[->|[->|[->|[->| ->]]]]], Hr as [->|[(x & ->)|(x & y & q & ->)]]; vm_compute; reflexivity|]). inversion H.
Qed.

Lemma gap_facts c : is_gap_char c = true -> ascii_continue c = false /\ is_ident_continue c = false /\ IS_DIGIT c = false /\ IS_XDIGIT c = false /\ is_decimal_literal_char c = false /\ c < 128.
Proof using. intros H. apply gap_cases in H as [->|[->|[->|[->|[->| ->]]]]]; splits; reflexivity || lia. Qed.
Lemma ident1_byte c : IS_IDENT1 c = true -> is_byte c /\ c < 128.
Proof using.
  unfold IS_IDENT1, has_type, char_type, between. intros H. destruct (Z.leb_spec 0 c), (Z.ltb_spec c 128); [unfold is_byte; lia| | |]; exfalso; revert H; repeat (case_if; boolprop; try lia); discriminate.
Qed.
Lemma digit_byte c : IS_DIGIT c = true -> 48 <= c <= 57.
Proof using.
  unfold IS_DIGIT, has_type, char_type, between. intros H. destruct (Z.leb_spec 48 c), (Z.leb_spec c 57); [lia| | |]; exfalso; revert H; repeat (case_if; boolprop; try lia); discriminate.
Qed.

Lemma word_found strict c w : IS_IDENT1 c = true -> forallb ascii_continue w = true -> found strict (c :: w) (word_in keywords (c :: w)).
Proof using.
  intros Hc Hw x r Hx. pose proof (gap_facts x Hx) as (G1 & _ & _ & _ & _ & G2). destruct (ident1_byte c Hc) as [Hb Hlt]. exists None. unfold scan_token. cbn [app]. change (rd (c :: w ++ x :: r) 0) with c.
  assert (F : single_char_tok c = 0 /\ (c <? 128) && negb (c =? 92) && is_ident_begin c = true).
  { by_bytes c (fun c => implb (IS_IDENT1 c) ((single_char_tok c =? 0) && ((c <? 128) && negb (c =? 92) && is_ident_begin c))). rewrite Hc in Hbyte. cbn [implb] in Hbyte. apply andb_true_iff in Hbyte as [H1 H2]. apply Z.eqb_eq in H1. auto. }
  destruct F as [F1 F2]. rewrite F1. change (0 =? 0) with true. rewrite andb_false_r, Hc. cbv iota. unfold parseident. change (rd (c :: w ++ x :: r) 0) with c. rewrite F2.
  change (length (c :: w ++ x :: r) =? 0)%nat with false. cbv iota. change (drop 1 (c :: w ++ x :: r)) with (w ++ x :: r). rewrite span_app by assumption.
  replace (rd (c :: w ++ x :: r) (S (length w))) with x by (unfold rd; cbn [nth]; rewrite nth_middle; reflexivity).
  destruct (Z.leb_spec 128 x); [lia|]. destruct (Z.eqb_spec x 92) as [->|]; [discriminate|]. rewrite andb_false_r. cbv iota. cbn [option_map].
  replace (take (S (length w)) (c :: w ++ x :: r)) with (c :: w) by (cbn; rewrite take_app_length; reflexivity). rewrite keyword_flat. reflexivity.
Qed.

(** *** Numbers *)

Lemma digits_chars ds : forallb IS_DIGIT ds = true -> forallb is_decimal_literal_char ds = true /\ existsb (fun c => c =? 95) ds = false.
Proof using.
  induction ds as [|d ds IH]; [auto|]. cbn [forallb existsb]. intros [Hd H]%andb_true_iff. destruct (IH H) as [I1 I2]. rewrite I1, I2. unfold is_decimal_literal_char. rewrite Hd. split; [reflexivity|].
  apply digit_byte in Hd. destruct (Z.eqb_spec d 95); [lia|reflexivity].
Qed.
Lemma rd_app_r w c (r : list Z) : rd (w ++ c :: r) (length w) = c.
Proof using. unfold rd. apply nth_middle. Qed.
Lemma at_end test w c r : test c = false -> at_char (w ++ c :: r) (length w) test = false.
Proof using. intros H. unfold at_char. rewrite rd_app_r, H. apply andb_false_r. Qed.
Lemma at_hit test w c r : test c = true -> at_char (w ++ c :: r) (length w) test = true.
Proof using. intros H. unfold at_char. rewrite rd_app_r, H, length_app. cbn. destruct (Nat.ltb_spec (length w) (length w + S (length r))); [reflexivity|lia]. Qed.

(** Where a decimal literal ends. *)
Definition ends_literal (c : Z) : Prop := is_decimal_literal_char c = false /\ (c =? 46) = false /\ ((c .| 0x20) =? 101) = false.
Lemma scan_decimal_end ds fs c r : digits ds -> fraction fs -> ends_literal c -> scan_decimal_literal (ds ++ fs ++ c :: r) = length (ds ++ fs).
Proof using.
  intros (_ & Hd & _) Hf (E1 & E2 & E3). apply digits_chars in Hd as [Hd _]. unfold scan_decimal_literal, scan_decimal_literal_chars. cbn [Nat.add]. rewrite drop_0.
  destruct Hf as [->|(es & -> & He)].
  - cbn [app]. rewrite span_app by assumption. rewrite at_end by exact E2. rewrite at_end by exact E3. rewrite app_nil_r. reflexivity.
  - apply digits_chars in He as [He _]. cbn [app]. rewrite span_app by (auto; reflexivity). rewrite at_hit by reflexivity. replace (S (length ds)) with (length ds + 1)%nat by lia. rewrite drop_pre. cbn [drop skipn].
    rewrite ?drop_0, span_app by assumption. rewrite ?(Nat.add_1_r (length ds)). cbn [Nat.add]. replace (S (length ds + length es)) with (length (ds ++ 46 :: es)) by (rewrite length_app; cbn; lia).
    replace (ds ++ 46 :: es ++ c :: r) with ((ds ++ 46 :: es) ++ c :: r) by (rewrite <- app_assoc; reflexivity). rewrite at_end by exact E3. reflexivity.
Qed.
Lemma decimal_found ds fs c r bits : digits ds -> fraction fs -> ends_literal c -> number_parse (ds ++ fs) = Some bits ->
  parse_decimal_literal number_parse malloc_ok (ds ++ fs ++ c :: r) = (length (ds ++ fs), Some bits).
Proof using.
  intros Hd Hf Hc Hn. unfold parse_decimal_literal. rewrite scan_decimal_end by assumption. rewrite app_assoc, take_app_length.
  assert (E : has_numeric_separator (ds ++ fs) = false).
  { unfold has_numeric_separator. rewrite existsb_app. destruct Hd as (_ & Hd & _). apply digits_chars in Hd as [_ ->]. destruct Hf as [->|(es & -> & He)]; [reflexivity|]. apply digits_chars in He as [_ He]. cbn. exact He. }
  rewrite E, Hn. reflexivity.
Qed.

(** A literal that does not start with a prefix is decimal. *)
Lemma number_decimal strict ds s : digits ds -> (forall c, s <> [] -> c = rd s 0 -> (c .| 0x20) <> 98 /\ (c .| 0x20) <> 111 /\ (c .| 0x20) <> 120 /\ IS_OCTAL c = false /\ is_digit c = false) ->
  parse_number number_parse malloc_ok strict (ds ++ s) = decimal_number number_parse malloc_ok (ds ++ s).
Proof using.
  intros (Hne & Hd & H0) Hs. unfold parse_number. destruct ds as [|d ds]; [contradiction|]. change (rd ((d :: ds) ++ s) 0) with d. destruct (Z.eqb_spec d 48) as [->|]; [|reflexivity]. cbn [andb].
  destruct ds as [|e ds]; [|specialize (H0 eq_refl); discriminate]. destruct s as [|c s]; [reflexivity|]. change (rd ([48] ++ c :: s) 1) with c. destruct (Hs c ltac:(discriminate) eq_refl) as (S1 & S2 & S3 & S4 & S5).
  case_if; [|reflexivity]. apply Z.eqb_neq in S1, S2, S3. rewrite S1, S2, S3, S4, S5. reflexivity.
Qed.
Lemma gap_ends c : is_gap_char c = true -> ends_literal c.
Proof using. intros H. apply gap_cases in H as [->|[->|[->|[->|[->| ->]]]]]; unfold ends_literal; splits; reflexivity. Qed.

Lemma digit_first strict ds s : digits ds -> scan strict (ds ++ s) = let '(t, n, v) := parse_number number_parse malloc_ok strict (ds ++ s) in Some (t, at_least_1 n, v).
Proof using.
  intros (Hne & Hd & _). destruct ds as [|d ds]; [contradiction|]. cbn [forallb] in Hd. apply andb_true_iff in Hd as [Hd _]. unfold scan_token. change (rd ((d :: ds) ++ s) 0) with d.
  assert (Hb : is_byte d) by (apply digit_byte in Hd; unfold is_byte; lia). by_bytes d (fun d => implb (IS_DIGIT d) ((single_char_tok d =? 0) && negb (IS_IDENT1 d))). rewrite Hd in Hbyte. cbn [implb] in Hbyte.
  apply andb_true_iff in Hbyte as [H1 H2]. rewrite H1. apply negb_true_iff in H2. rewrite H2, Hd, andb_false_r. reflexivity.
Qed.
Lemma tail_ok w c r : is_gap_char c = true -> number_literal_has_invalid_tail (w ++ c :: r) (length w) = false.
Proof using. intros H. apply at_end, gap_facts, H. Qed.

Lemma number_found strict ds fs bits : digits ds -> fraction fs -> number_parse (ds ++ fs) = Some bits -> found strict (ds ++ fs) TOK_NUMBER.
Proof using.
  intros Hd Hf Hn c r Hc. rewrite <- app_assoc, digit_first, number_decimal; [|exact Hd| |exact Hd].
  - unfold decimal_number. rewrite (decimal_found ds fs c r bits Hd Hf (gap_ends c Hc) Hn). exists (Some (Decimal bits)). unfold finish_number. rewrite app_assoc.
    rewrite at_end by (apply gap_cases in Hc as [->|[->|[->|[->|[->| ->]]]]]; reflexivity). rewrite tail_ok by exact Hc. cbv iota. unfold at_least_1. destruct Hd as (Hne & _). destruct ds; [contradiction|]. reflexivity.
  - intros x _ ->. destruct Hf as [->|(es & -> & _)]; [|cbn; splits; try discriminate; reflexivity]. cbn. apply gap_cases in Hc as [->|[->|[->|[->|[->| ->]]]]]; splits; try discriminate; reflexivity.
Qed.
Lemma bigint_found strict ds bits : digits ds -> number_parse ds = Some bits -> found strict (ds ++ [110]) TOK_BIGINT.
Proof using.
  intros Hd Hn c r Hc. rewrite <- app_assoc. cbn [app]. rewrite digit_first, number_decimal; [|exact Hd| |exact Hd].
  - unfold decimal_number. rewrite <- (app_nil_r ds) in Hn. pose proof (decimal_found ds [] 110 (c :: r) bits Hd (or_introl eq_refl) ltac:(unfold ends_literal; splits; reflexivity) Hn) as E. cbn [app] in E. rewrite E, app_nil_r.
    exists (Some (Decimal bits)). unfold finish_number. rewrite at_hit by reflexivity. replace (ds ++ 110 :: c :: r) with ((ds ++ [110]) ++ c :: r) by (rewrite <- app_assoc; reflexivity).
    replace (S (length ds)) with (length (ds ++ [110])) by (rewrite length_app; cbn; lia). rewrite tail_ok by exact Hc. cbv iota. unfold at_least_1. destruct ds; reflexivity.
  - intros x _ ->. cbn. splits; try discriminate; reflexivity.
Qed.
Lemma hex_found strict ds : forallb IS_XDIGIT ds = true -> found strict (48 :: 120 :: ds) TOK_NUMBER.
Proof using.
  intros Hx c r Hc. pose proof (gap_facts c Hc) as (_ & _ & _ & G & _ & _). assert (Hd : digits [48]) by (unfold digits; splits; [discriminate|reflexivity|reflexivity]). cbn [app].
  change (48 :: 120 :: ds ++ c :: r) with ([48] ++ 120 :: ds ++ c :: r). rewrite digit_first by exact Hd. unfold parse_number. change (rd ([48] ++ 120 :: ds ++ c :: r) 0) with 48. change (rd ([48] ++ 120 :: ds ++ c :: r) 1) with 120.
  change (48 =? 48) with true. change (1 <? length ([48%Z] ++ 120%Z :: ds ++ c :: r))%nat with true. cbn [andb]. change (120 .| 0x20) with 120. change (120 =? 98) with false. change (120 =? 111) with false. change (120 =? 120) with true. cbv iota.
  unfold integer_number, parse_hex, parse_radix. cbn [fst snd]. change (drop 2 ([48] ++ 120 :: ds ++ c :: r)) with (ds ++ c :: r).
  rewrite span_app; [| |rewrite G; apply gap_cases in Hc as [->|[->|[->|[->|[->| ->]]]]]; reflexivity].
  - eexists. unfold finish_number. change ([48] ++ 120 :: ds ++ c :: r) with ((48 :: 120 :: ds) ++ c :: r). change (2 + length ds)%nat with (length (48 :: 120 :: ds)).
    rewrite at_end by (apply gap_cases in Hc as [->|[->|[->|[->|[->| ->]]]]]; reflexivity). rewrite tail_ok by exact Hc. reflexivity.
  - clear -Hx. induction ds as [|d ds IH]; [reflexivity|]. cbn in *. apply andb_true_iff in Hx as [H1 H2]. rewrite H1, IH by exact H2. reflexivity.
Qed.

(** *** Strings and templates *)

Lemma drop_rd s i : (i < length s)%nat -> drop i s = rd s i :: drop (S i) s.
Proof using. intros H. unfold rd. destruct (lookup_lt_is_Some_2 s i H) as [x Hx]. rewrite (drop_S s x i Hx), (nth_lookup_Some s i 0 x Hx). reflexivity. Qed.
Lemma memchr_hit s i x : (i < length s)%nat -> rd s i = x -> memchr s i x = Some i.
Proof using. intros H Hx. unfold memchr. rewrite drop_rd by exact H. cbn [span]. rewrite Hx, Z.eqb_refl. cbn [negb]. rewrite Nat.add_0_r. destruct (Nat.ltb_spec i (length s)); [reflexivity|lia]. Qed.
Lemma memchr_miss s i x : (i < length s)%nat -> rd s i <> x -> memchr s i x = memchr s (S i) x.
Proof using. intros H Hx. unfold memchr. rewrite (drop_rd s i) by exact H. cbn [span]. apply Z.eqb_neq in Hx. rewrite Hx. cbn [negb]. rewrite Nat.add_succ_r, Nat.add_succ_l. reflexivity. Qed.
Lemma memchr_some x s : forall n i j, (n = j - i)%nat -> (i <= j < length s)%nat -> rd s j = x -> exists k, memchr s i x = Some k /\ (i <= k)%nat.
Proof using.
  induction n as [|n IH]; intros i j Hn Hj Hx; [replace i with j by lia; exists j; split; [apply memchr_hit; [lia|exact Hx]|lia]|].
  destruct (Z.eq_dec (rd s i) x) as [E|E]; [exists i; split; [apply memchr_hit; [lia|exact E]|lia]|]. rewrite memchr_miss by (auto; lia). destruct (IH (S i) j) as (k & Ek & Hk); [lia|lia|exact Hx|]. exists k. split; [exact Ek|lia].
Qed.

Lemma plain_step fuel s q i : (S i < length s)%nat -> rd s i <> q -> rd s i <> 92 -> string_loop (S fuel) s q i = string_loop (S fuel) s q (S i).
Proof using.
  intros Hi Hq Hb. cbn [string_loop]. rewrite !(memchr_miss s i) by (auto; lia). destruct (Nat.leb_spec (length s) i), (Nat.leb_spec (length s) (S i)); try lia. reflexivity.
Qed.
Lemma close_step fuel s q i : (i < length s)%nat -> rd s i = q -> q <> 92 -> string_loop (S fuel) s q i = Some (TOK_STRING, S i).
Proof using.
  intros Hi Hq Hne. cbn [string_loop]. destruct (Nat.leb_spec (length s) i); [lia|]. rewrite memchr_hit by assumption. rewrite memchr_miss by (auto; congruence). destruct (memchr s (S i) 92) as [b|] eqn:E; [|reflexivity].
  apply memchr_range in E. destruct (Nat.ltb_spec i b); [reflexivity|lia].
Qed.
Lemma escape_step fuel s q i j : (S i < j < length s)%nat -> rd s i = 92 -> q <> 92 -> rd s (S i) <> 120 -> rd s (S i) <> 117 -> rd s j = q ->
  string_loop (S fuel) s q i = string_loop fuel s q (i + 2).
Proof using.
  intros Hi Hb Hne Hx Hu Hj. cbn [string_loop]. destruct (Nat.leb_spec (length s) i); [lia|]. rewrite (memchr_hit s i 92) by (auto; lia). rewrite memchr_miss by (try lia; congruence).
  destruct (memchr_some q s (j - S i) (S i) j) as (k & -> & Hk); [reflexivity|lia|exact Hj|]. destruct (Nat.ltb_spec k i); [lia|]. destruct (Nat.leb_spec (length s) (i + 1)); [lia|].
  unfold escape_skip. rewrite Nat.add_1_r. apply Z.eqb_neq in Hx, Hu. rewrite Hx, Hu. destruct (Nat.ltb_spec (length s) (i + 2)); [lia|]. reflexivity.
Qed.

Lemma string_chunks q body r : q <> 92 -> Forall (chunk q) body -> forall fuel p, (length body < fuel)%nat ->
  string_loop fuel (p ++ concat body ++ q :: r) q (length p) = Some (TOK_STRING, S (length p + length (concat body))).
Proof using.
  intros Hq. induction 1 as [|w body Hw _ IH]; intros fuel p Hf; (destruct fuel as [|fuel]; [lia|]).
  { cbn [concat app length]. rewrite Nat.add_0_r. apply close_step; [rewrite length_app; cbn; lia|apply rd_app_r|exact Hq]. }
  cbn [length] in Hf. destruct Hw as [(c & -> & Hc1 & Hc2)|(c & -> & Hc1 & Hc2)]; cbn [concat app].
  - rewrite plain_step; [|rewrite !length_app; cbn; rewrite length_app; cbn; lia|rewrite rd_app_r; exact Hc1|rewrite rd_app_r; exact Hc2].
    specialize (IH (S fuel) (p ++ [c]) ltac:(lia)). rewrite <- app_assoc, length_app in IH. cbn [app length] in IH. rewrite Nat.add_1_r in IH. rewrite IH. f_equal. f_equal. cbn. lia.
  - set (s := p ++ 92 :: c :: concat body ++ q :: r). assert (Hl : length s = (length p + 2 + length (concat body) + 1 + length r)%nat) by (unfold s; rewrite !length_app; cbn; rewrite length_app; cbn; lia).
    assert (Hs : s = (p ++ 92 :: c :: concat body) ++ q :: r) by (unfold s; rewrite <- !app_assoc; reflexivity).
    rewrite (escape_step fuel s q (length p) (length p + 2 + length (concat body))); [|lia|apply rd_app_r|exact Hq| | |].
    + specialize (IH fuel (p ++ [92; c]) ltac:(lia)). rewrite <- app_assoc, length_app in IH. cbn [app length] in IH. fold s in IH. rewrite IH. f_equal. f_equal. cbn. lia.
    + unfold s. replace (p ++ 92 :: c :: concat body ++ q :: r) with ((p ++ [92]) ++ c :: concat body ++ q :: r) by (rewrite <- app_assoc; reflexivity).
      replace (S (length p)) with (length (p ++ [92])) by (rewrite length_app; cbn; lia). rewrite rd_app_r. exact Hc1.
    + unfold s. replace (p ++ 92 :: c :: concat body ++ q :: r) with ((p ++ [92]) ++ c :: concat body ++ q :: r) by (rewrite <- app_assoc; reflexivity).
      replace (S (length p)) with (length (p ++ [92])) by (rewrite length_app; cbn; lia). rewrite rd_app_r. exact Hc2.
    + rewrite Hs. replace (length p + 2 + length (concat body))%nat with (length (p ++ 92 :: c :: concat body)) by (rewrite length_app; cbn; lia). apply rd_app_r.
Qed.
Lemma chunks_length q body : Forall (chunk q) body -> (length body <= length (concat body))%nat.
Proof using. induction 1 as [|w body Hw _ IH]; [cbn; lia|]. cbn. rewrite length_app. destruct Hw as [(c & -> & _)|(c & -> & _)]; cbn; lia. Qed.
Lemma string_found strict q body : q = 34 \/ q = 39 -> Forall (chunk q) body -> found strict (q :: concat body ++ [q]) TOK_STRING.
Proof using.
  intros Hq Hb c r Hc. exists None. cbn [app]. rewrite <- app_assoc. cbn [app].
  assert (E : scan strict (q :: concat body ++ q :: c :: r) = option_map (fun '(t, n) => (t, at_least_1 n, @None tvalue)) (scan_string (q :: concat body ++ q :: c :: r) q)) by (destruct Hq as [-> | ->]; reflexivity).
  rewrite E. unfold scan_string. pose proof (chunks_length q body Hb). change (q :: concat body ++ q :: c :: r) with ([q] ++ concat body ++ q :: c :: r).
  rewrite (string_chunks q body (c :: r)); [|destruct Hq; lia|exact Hb|rewrite !length_app; cbn; rewrite ?length_app; cbn; lia]. cbn [option_map length]. rewrite length_app. cbn [length]. rewrite Nat.add_1_r. reflexivity.
Qed.

Lemma template_chars body r : forallb (fun c => negb (c =? 96) && negb (c =? 92) && negb (c =? 36)) body = true -> forall fuel p, (length body < fuel)%nat ->
  template_loop fuel (p ++ body ++ 96 :: r) (length p) 0 true = Some (S (length p + length body), true).
Proof using.
  induction body as [|c body IH]; intros Hb fuel p Hf; (destruct fuel as [|fuel]; [lia|]); cbn [template_loop].
  - cbn [app length]. rewrite length_app, rd_app_r. cbn [length]. destruct (Nat.leb_spec (length p + S (length r)) (length p)); [lia|]. rewrite Nat.add_0_r. reflexivity.
  - cbn [app length forallb] in *. apply andb_true_iff in Hb as [Hc Hb]. boolprop. rewrite rd_app_r. destruct (Nat.leb_spec (length (p ++ c :: body ++ 96%Z :: r)) (length p)) as [Hl|_]; [rewrite length_app in Hl; cbn in Hl; lia|].
    destruct (Z.eqb_spec c 92); [congruence|]. change (0 =? 0) with true. cbv iota. destruct (Z.eqb_spec c 96); [congruence|]. destruct (Z.eqb_spec c 36); [congruence|]. cbn [andb].
    specialize (IH Hb fuel (p ++ [c]) ltac:(lia)). rewrite <- app_assoc, length_app in IH. cbn [app length] in IH. rewrite Nat.add_1_r in IH. rewrite IH. f_equal. f_equal. lia.
Qed.
Lemma template_found strict body : forallb (fun c => negb (c =? 96) && negb (c =? 92) && negb (c =? 36)) body = true -> found strict (96 :: body ++ [96]) TOK_TEMPLATE.
Proof using.
  intros Hb c r Hc. exists None. cbn [app]. rewrite <- app_assoc. cbn [app].
  assert (E : scan strict (96 :: body ++ 96 :: c :: r) = option_map (fun '(t, n) => (t, at_least_1 n, @None tvalue)) (scan_template (96 :: body ++ 96 :: c :: r))) by reflexivity.
  rewrite E. unfold scan_template, skip_template_literal. change (96 :: body ++ 96 :: c :: r) with ([96] ++ body ++ 96 :: c :: r). rewrite (template_chars body (c :: r) Hb) by (rewrite !length_app; cbn; rewrite ?length_app; cbn; lia).
  cbn [negb orb length Nat.add]. destruct (Nat.leb_spec (S (S (length body))) 1); [lia|]. rewrite !length_app. cbn [length]. destruct (Nat.ltb_spec (1 + (length body + S (S (length r)))) (S (S (length body)))); [lia|].
  cbn [orb option_map length]. rewrite Nat.add_1_r. reflexivity.
Qed.

Lemma spells_found strict w t : spells w t -> found strict w t.
Proof using.
  intros [w0 t0 H|w0 t0 H|c w0 H1 H2|ds fs bits H1 H2 H3|ds bits H1 H2|ds H|q body H1 H2|body H].
  - apply operators_found, elem_of_app. auto.
  - apply operators_found, elem_of_app. auto.
  - apply word_found; assumption.
  - eapply number_found; eassumption.
  - eapply bigint_found; eassumption.
  - apply hex_found, H.
  - apply string_found; assumption.
  - apply template_found, H.
Qed.

(** ** The whole text *)

(** Nothing is skipped where a token starts, and it is no hash-bang line. *)
Definition solid (s : list Z) : Prop :=
  exists x r, s = x :: r /\ (cc x = C_0 \/ (x = 47 /\ exists d q, r = d :: q /\ d <> 47 /\ d <> 42)) /\
    starts s [60; 33; 45; 45] = false /\ starts s [45; 45; 62] = false /\ starts s [35; 33] = false.
Lemma solid_stops pre s b : solid s -> skip_step category (pre ++ s) (length pre) b = None.
Proof using.
  intros (x & r & -> & Hx & H1 & H2 & _). unfold skip_step. rewrite at_pre.
  assert (Hh : html_step (pre ++ x :: r) (length pre) b = None) by (unfold html_step; rewrite drop_pre_0, H1, H2; reflexivity).
  destruct Hx as [-> |(-> & d & q & -> & D1 & D2)]; [exact Hh|]. change (cc 47) with C_SL. cbv iota. rewrite at_pre_S. apply Z.eqb_neq in D1, D2. rewrite D1, D2. exact Hh.
Qed.

Lemma solid_char x r : cc x = C_0 -> x <> 60 -> x <> 45 -> x <> 35 -> solid (x :: r).
Proof using. intros H H1 H2 H3. apply Z.eqb_neq in H1, H2, H3. exists x, r. rewrite !starts_cons, H1, H2, H3. auto 6. Qed.
Ltac solve_solid Hc := first [apply solid_char; [reflexivity|lia|lia|lia] |
  cbn [app]; eexists _, _; split; [reflexivity|]; rewrite !starts_cons; split; [first [left; reflexivity | right; split; [reflexivity|]; eexists _, _; split; [reflexivity|]; lia]|];
  destruct Hc as [->|[->|[->|[->|[->| ->]]]]]; splits; reflexivity].
Lemma operators_solid w t c r : (w, t) ∈ operators ++ single_chars -> is_gap_char c = true -> solid (w ++ c :: r).
Proof using.
  intros H Hc. unfold operators, single_chars in H. cbn [app] in H. apply gap_cases in Hc.
  repeat (apply elem_of_cons in H as [H|H]; [injection H as -> ->; solve_solid Hc|]). inversion H.
Qed.
Lemma spells_solid w t c r : spells w t -> is_gap_char c = true -> solid (w ++ c :: r).
Proof using.
  assert (Hdig : forall ds s, digits ds -> solid (ds ++ s)).
  { intros ds s (Hne & Hd & _). destruct ds as [|d ds]; [contradiction|]. cbn [forallb] in Hd. apply andb_true_iff in Hd as [Hd _]. apply digit_byte in Hd as Hr. cbn [app]. apply solid_char; try lia.
    assert (Hb : is_byte d) by (unfold is_byte; lia). by_bytes d (fun d => implb (IS_DIGIT d) (match cc d with C_0 => true | _ => false end)). rewrite Hd in Hbyte. cbn in Hbyte. destruct (cc d); try discriminate. reflexivity. }
  intros [w0 t0 H|w0 t0 H|x w0 H1 H2|ds fs bits H1 H2 H3|ds bits H1 H2|ds H|q body H1 H2|body H] Hc.
  - eapply operators_solid; [apply elem_of_app; left; exact H|exact Hc].
  - eapply operators_solid; [apply elem_of_app; right; exact H|exact Hc].
  - destruct (ident1_byte x H1) as [Hb _]. by_bytes x (fun d => implb (IS_IDENT1 d) (match cc d with C_0 => true | _ => false end && negb (d =? 60) && negb (d =? 45) && negb (d =? 35))). rewrite H1 in Hbyte. cbn in Hbyte.
    boolprop. cbn [app]. apply solid_char; try assumption. destruct (cc x); try discriminate. reflexivity.
  - rewrite <- app_assoc. apply Hdig, H1.
  - rewrite <- app_assoc. apply Hdig, H1.
  - cbn [app]. apply solid_char; [reflexivity|lia|lia|lia].
  - cbn [app]. destruct H1 as [-> | ->]; apply solid_char; try reflexivity; lia.
  - cbn [app]. apply solid_char; [reflexivity|lia|lia|lia].
Qed.

(** A token with the white space after it: one character, then pieces. *)
Record spelled := Spelled { sp_text : list Z; sp_tok : Z; sp_gap : Z; sp_rest : list (list Z * bool) }.
Definition spelled_ok (k : spelled) : Prop := spells (sp_text k) (sp_tok k) /\ is_gap_char (sp_gap k) = true /\ pieces (sp_rest k).
Definition after (k : spelled) : list (list Z * bool) := ([sp_gap k], sp_gap k =? 10) :: sp_rest k.
Definition text_of (toks : list spelled) : list Z := concat (map (fun k => sp_text k ++ gap_bytes (after k)) toks).
(** The tokens with their texts, and whether a line ended before each. *)
Fixpoint reads (newline : bool) (toks : list spelled) : list (Z * list Z * bool) :=
  match toks with
  | [] => []
  | k :: toks => (sp_tok k, sp_text k, newline) :: reads (gap_newline (after k)) toks
  end.
Definition read_at (text : list Z) (t : token) : Z * list Z * bool := (t_tok t, take (t_len t) (drop (t_off t) text), t_newline t).

Lemma after_pieces k : spelled_ok k -> pieces (after k).
Proof using. intros (_ & Hg & Hr). constructor; [apply p_char, Hg|exact Hr]. Qed.
Lemma spells_known w t : spells w t -> t <> TOK_EOF.
Proof using U category malloc_ok number_parse.
  intros H E. destruct (spells_found false w t H 32 [] eq_refl) as [v Hv]. destruct H as [w t H|w t H| | | | | |]; try discriminate E.
  - unfold operators in H. repeat (apply elem_of_cons in H as [H|H]; [injection H as -> ->; discriminate E|]). inversion H.
  - unfold single_chars in H. repeat (apply elem_of_cons in H as [H|H]; [injection H as -> ->; discriminate E|]). inversion H.
  - rewrite <- keyword_flat in E. pose proof (keyword_least (c :: w)). unfold TOK_EOF in E. lia.
Qed.

Abbreviation next := (sv_lexer_next category number_parse malloc_ok).
Abbreviation stream := (token_stream category number_parse malloc_ok).
Lemma skip_to_token pre ps r : pieces ps -> bytes (gap_bytes ps ++ r) -> r = [] \/ solid r -> (pre = [] -> starts (gap_bytes ps ++ r) [35; 33] = false) ->
  sv_skiptonext category (pre ++ gap_bytes ps ++ r) (length pre) = Some ((length pre + length (gap_bytes ps))%nat, gap_newline ps).
Proof using US.
  intros Hp Hb Hr Hsh. unfold sv_skiptonext. assert (E : (length pre =? 0)%nat && starts (pre ++ gap_bytes ps ++ r) [35; 33] = false) by (destruct pre; [cbn [app]; rewrite Hsh by reflexivity; apply andb_false_r|reflexivity]).
  rewrite E. rewrite skip_pieces; [rewrite orb_false_r; reflexivity|exact Hp|exact Hb|rewrite !length_app; lia|]. intros b. rewrite app_assoc. rewrite <- length_app.
  destruct Hr as [->|Hr]; [|apply solid_stops, Hr]. unfold skip_step. rewrite app_nil_r. rewrite lookup_ge_None_2 by lia. reflexivity.
Qed.

Lemma solid_gap ps r : pieces ps -> r = [] \/ solid r -> starts (gap_bytes ps ++ r) [35; 33] = false.
Proof using.
  intros Hp Hr. destruct Hp as [|[w nl] ps Hw _]; [destruct Hr as [->|(x & q & -> & _ & _ & _ & H)]; [reflexivity|exact H]|]. cbn [fst snd] in Hw. unfold gap_bytes. cbn [map concat fst]. rewrite <- app_assoc.
  destruct Hw as [c Hc|body Hb|body Hb|cp H1 H2 H3|cp H1 H2 H3 H4]; cbn [app]; try (rewrite starts_cons; reflexivity).
  - apply gap_cases in Hc as [->|[->|[->|[->|[->| ->]]]]]; rewrite starts_cons; reflexivity.
  - destruct (enc_high cp H1 H2) as (c & s & -> & Hc & _). cbn [app]. rewrite starts_cons. destruct (Z.eqb_spec c 35); [lia|reflexivity].
  - destruct (enc_high cp H1 H2) as (c & s & -> & Hc & _). cbn [app]. rewrite starts_cons. destruct (Z.eqb_spec c 35); [lia|reflexivity].
Qed.
Lemma text_solid toks : Forall spelled_ok toks -> text_of toks = [] \/ solid (text_of toks).
Proof using. destruct 1 as [|k toks (H1 & H2 & H3) _]; [left; reflexivity|right]. unfold text_of. cbn [map concat]. unfold after, gap_bytes. cbn [map concat fst]. rewrite <- !app_assoc. cbn [app]. eapply spells_solid; eassumption. Qed.

Lemma stream_reads toks : Forall spelled_ok toks -> forall fuel pre ps lx, pieces ps -> bytes (gap_bytes ps ++ text_of toks) -> (length toks < fuel)%nat ->
  code lx = pre ++ gap_bytes ps ++ text_of toks -> pos (lst lx) = length pre ->
  exists ts, stream fuel lx = Some ts /\ map (read_at (code lx)) ts = reads (gap_newline ps) toks.
Proof using US.
  induction 1 as [|k toks Hk Ht IH]; intros fuel pre ps lx Hp Hb Hf Hcode Hpos; (destruct fuel as [|fuel]; [cbn in Hf; lia|]); cbn [token_stream]; unfold sv_lexer_next, sv_next_raw; cbn [consume with_state lst consumed negb code pos strict tval]; rewrite Hcode, Hpos.
  - rewrite skip_to_token; [|exact Hp|exact Hb|left; reflexivity|intros _; apply solid_gap; auto]. unfold text_of. cbn [map concat]. rewrite app_nil_r, length_app. destruct (Nat.leb_spec (length pre + length (gap_bytes ps)) (length pre + length (gap_bytes ps))); [|lia].
    exists []. split; reflexivity.
  - pose proof (Forall_cons_2 _ _ _ Hk Ht) as Hall. rewrite skip_to_token; [|exact Hp|exact Hb|apply text_solid, Hall|intros _; apply solid_gap; [exact Hp|apply text_solid, Hall]].
    destruct Hk as (Hs & Hg & Hr). pose proof (after_pieces k (conj Hs (conj Hg Hr))) as Ha. assert (Etext : text_of (k :: toks) = sp_text k ++ sp_gap k :: gap_bytes (sp_rest k) ++ text_of toks) by (unfold text_of; cbn [map concat]; unfold after, gap_bytes; cbn; rewrite <- app_assoc; reflexivity).
    rewrite Etext in *. rewrite app_assoc, <- length_app, drop_app_length. destruct (spells_found (strict lx) _ _ Hs (sp_gap k) (gap_bytes (sp_rest k) ++ text_of toks) Hg) as [v Hv]. rewrite Hv.
    destruct (Nat.leb_spec (length ((pre ++ gap_bytes ps) ++ sp_text k ++ sp_gap k :: gap_bytes (sp_rest k) ++ text_of toks)) (length (pre ++ gap_bytes ps))) as [Hl|_]; [rewrite !length_app in Hl; cbn [length] in Hl; lia|].
    cbn [tok lst with_state]. destruct (Z.eqb_spec (sp_tok k) TOK_EOF) as [E|_]; [destruct (spells_known _ _ Hs E)|]. set (lx' := with_state _ _).
    destruct (IH fuel ((pre ++ gap_bytes ps) ++ sp_text k) (after k) lx') as (ts & -> & Hts).
    + exact Ha.
    + unfold after, gap_bytes. cbn. apply Forall_app in Hb as [_ Hb]. apply Forall_app in Hb as [_ Hb]. exact Hb.
    + cbn in Hf. lia.
    + change (code lx') with (code lx). rewrite Hcode. unfold after, gap_bytes. cbn. rewrite <- !app_assoc. reflexivity.
    + unfold lx'. cbn. rewrite !length_app. reflexivity.
    + eexists. split; [reflexivity|]. cbn [map reads]. f_equal; [|].
      * unfold read_at, current, lx'. cbn. rewrite drop_app_length, take_app_length. reflexivity.
      * change (code lx') with (code lx) in Hts. rewrite Hcode, app_assoc in Hts. exact Hts.
Qed.

(** C18: a program text made of spelled punctuators, words, numbers, strings
    and templates, each followed by a white-space character and then by any
    white space and comments, comes back from the lexer as these tokens with
    their texts, and each with a flag that tells whether a line ended before
    it. Strings are spelled without hexadecimal and Unicode escapes, templates
    without [$] and backslash; numbers are decimal integers and fractions,
    hexadecimal integers and bigints. *)
Theorem lex_roundtrip strict lead toks : pieces lead -> Forall spelled_ok toks -> bytes (gap_bytes lead ++ text_of toks) ->
  exists ts, tokenize category number_parse malloc_ok (gap_bytes lead ++ text_of toks) strict = Some ts /\
    map (read_at (gap_bytes lead ++ text_of toks)) ts = reads (gap_newline lead) toks.
Proof using US.
  intros Hp Ht Hb. apply (stream_reads toks Ht (S (length (gap_bytes lead ++ text_of toks))) [] lead (sv_lexer_init (gap_bytes lead ++ text_of toks) strict) Hp Hb); [|reflexivity|reflexivity].
  rewrite length_app. enough (length toks <= length (text_of toks))%nat by lia. clear. induction toks as [|k toks IH]; [cbn; lia|]. unfold text_of in *. cbn [map concat]. unfold after at 1, gap_bytes at 1. cbn [map concat fst]. rewrite !length_app. cbn [length]. lia.
Qed.
End RoundTrip.

(** ** Examples *)

Module Example.
Import SilverLexer.Example.

Lemma operator_longest_witness : exists t n, parse_operator digits_value enough_memory (str_bytes ">>>=1") = Some (t, n, None) /\ longest operators (str_bytes ">>>=1") t n.
Proof.
  pose proof (operator_longest digits_value enough_memory (str_bytes ">>>=1") ltac:(discriminate) eq_refl) as H.
  destruct (parse_operator digits_value enough_memory (str_bytes ">>>=1")) as [[[t n] v]|] eqn:E; [destruct H as [H ->]; exists t, n; auto|discriminate E].
Defined.

(** [let x = 0x1F; // c], a line end, and a string. *)
Definition line : list spelled :=
  [Spelled (str_bytes "let") TOK_LET 32 []; Spelled [120] TOK_IDENTIFIER 32 []; Spelled [61] TOK_ASSIGN 32 [];
   Spelled (str_bytes "0x1F") TOK_NUMBER 32 []; Spelled [59] TOK_SEMICOLON 32 [(str_bytes "// c" ++ [10], true)];
   Spelled (str_bytes "'s'") TOK_STRING 10 []].
Lemma line_ok : Forall (spelled_ok no_category digits_value) line.
Proof.
  unfold line. repeat (apply Forall_cons; split); try apply Forall_nil; unfold spelled_ok; cbn [sp_text sp_tok sp_gap sp_rest]; splits; try apply Forall_nil; try reflexivity.
  - apply (sp_word digits_value 108 (str_bytes "et")); reflexivity.
  - apply (sp_word digits_value 120 []); reflexivity.
  - apply sp_operator. unfold operators. set_solver.
  - apply (sp_hex digits_value (str_bytes "1F")). reflexivity.
  - apply sp_single. unfold single_chars. set_solver.
  - apply Forall_singleton. apply (p_line no_category (str_bytes " c")). reflexivity.
  - apply (sp_string digits_value 39 [[115]]); [auto|]. apply Forall_singleton. left. exists 115. splits; [reflexivity|discriminate|discriminate].
Qed.
Lemma lex_roundtrip_witness :
  exists ts, tokenize (U := utf8proc_ref) no_category digits_value enough_memory ([9] ++ text_of line) false = Some ts /\
    map (read_at ([9] ++ text_of line)) ts = reads false line.
Proof.
  apply (lex_roundtrip (U := utf8proc_ref) (US := utf8proc_ref_spec) no_category digits_value enough_memory false [([9], false)] line); [|apply line_ok|vm_compute; repeat constructor; discriminate].
  apply Forall_singleton. apply (p_char no_category 9). reflexivity.
Defined.
End Example.
