(* ===== verification/Escape.v ===== *)
(** * Escapes of string literals, templates and identifiers

    [src/src/escape.c] decodes one escape; [sv_lexer_str_literal] of the lexer,
    [decode_template_segment] and [decode_ident_into_arena] of the parser use
    it to write the value of a token into a buffer of the parse arena.  A write
    past the end of that buffer is [None]. *)

From S2P Require Import Prelude Utf8Codec SilverLexer LexerText.

(** ** One escape

    [t] is the text from the backslash on ([in + pos]) and [n] the number of
    its bytes before [end].  The result is the bytes written and [advance]. *)

Definition unhex (c : Z) : Z := u8 ((c .& 0xF) + (c .>> 6) * 9).
Definition is_octal_digit (c : Z) : bool := (48 <=? c) && (c <=? 55).
Definition is_octal_escape (t : list Z) : bool :=
  let c := rd t 1 in (48 <=? c) && (c <=? 55) && negb ((c =? 48) && negb (is_octal_digit (rd t 2))).

Section Decode.
Context `{U : Utf8proc}.

(** [utf8_encode] takes the code point as a signed number. *)
Definition encode_u32 (cp : Z) : list Z := utf8_encode (to_i32 cp).

Definition decode_hex_escape (t : list Z) : list Z * nat :=
  (encode_u32 ((unhex (rd t 2) .<< 4) .| unhex (rd t 3)), 2%nat).

Definition decode_octal_escape (t : list Z) : list Z * nat :=
  let val := rd t 1 - 48 in
  if is_octal_digit (rd t 2) then
    let val := val * 8 + (rd t 2 - 48) in
    if is_octal_digit (rd t 3) && (val * 8 + (rd t 3 - 48) <=? 255) then (encode_u32 (val * 8 + (rd t 3 - 48)), 2%nat)
    else (encode_u32 val, 1%nat)
  else (encode_u32 val, 0%nat).

Definition push_hex (cp c : Z) : Z := u32 (cp .<< 4) .| unhex c.
Definition decode_unicode_braced (t : list Z) (n : nat) : list Z * nat :=
  let k := span is_xdigit (take (n - 3) (drop 3 t)) in
  let cp := fold_left push_hex (take k (drop 3 t)) 0 in
  if (3 + k <? n)%nat && (rd t (3 + k) =? 125) then (encode_u32 cp, (2 + k)%nat) else ([117], 0%nat).

Definition hex4 (t : list Z) (i : nat) : Z :=
  (unhex (rd t i) .<< 12) .| (unhex (rd t (i + 1)) .<< 8) .| (unhex (rd t (i + 2)) .<< 4) .| unhex (rd t (i + 3)).
Definition xdigits4 (t : list Z) (i : nat) : bool :=
  is_xdigit (rd t i) && is_xdigit (rd t (i + 1)) && is_xdigit (rd t (i + 2)) && is_xdigit (rd t (i + 3)).
Definition decode_unicode_fixed (t : list Z) (n : nat) : list Z * nat :=
  let cp := hex4 t 2 in
  let lo := hex4 t 8 in
  if (0xD800 <=? cp) && (cp <=? 0xDBFF) && (11 <? n)%nat && (rd t 6 =? 92) && (rd t 7 =? 117) && xdigits4 t 8 &&
     ((0xDC00 <=? lo) && (lo <=? 0xDFFF))
  then (encode_u32 (0x10000 + ((cp - 0xD800) .<< 10) + (lo - 0xDC00)), 10%nat)
  else (encode_u32 cp, 4%nat).

Definition decode_escape (t : list Z) (n : nat) (quote : Z) : list Z * nat :=
  let c := rd t 1 in
  if c =? 110 then ([10], 0%nat)
  else if c =? 116 then ([9], 0%nat)
  else if c =? 114 then ([13], 0%nat)
  else if c =? 118 then ([11], 0%nat)
  else if c =? 102 then ([12], 0%nat)
  else if c =? 98 then ([8], 0%nat)
  else if c =? 92 then ([92], 0%nat)
  else if (c =? 48) && negb (is_octal_digit (rd t 2)) then ([0], 0%nat)
  else if is_octal_digit c then decode_octal_escape t
  else if c =? 120 then
    if (3 <? n)%nat && is_xdigit (rd t 2) && is_xdigit (rd t 3) then decode_hex_escape t else ([c], 0%nat)
  else if c =? 117 then
    if (2 <? n)%nat && (rd t 2 =? 123) then decode_unicode_braced t n
    else if (5 <? n)%nat && xdigits4 t 2 then decode_unicode_fixed t n
    else ([c], 0%nat)
  else ([if c =? quote then quote else c], 0%nat).

(** A write of [w] at the end of what a buffer of [cap] bytes holds. *)
Definition put (cap : nat) (out w : list Z) : option (list Z) :=
  if (length out + length w <=? cap)%nat then Some (out ++ w) else None.

(** ** String literals *)

Definition octal_error : result (list Z) := Err JS_ERR_SYNTAX "Octal escape sequences are not allowed in strict mode.".

(** The loop: [n2] is its value before the test. *)
Fixpoint str_loop (fuel : nat) (inp : list Z) (tlen : nat) (strict : bool) (n2 : nat) (out : list Z) : option (result (list Z)) :=
  match fuel with
  | O => None
  | S fuel =>
      if (n2 + 2 <? tlen)%nat then
        let n2 := S n2 in
        if rd inp n2 =? 92 then
          if strict && is_octal_escape (drop n2 inp) then Some octal_error
          else
            let '(w, extra) := decode_escape (drop n2 inp) (tlen - n2) (rd inp 0) in
            match put tlen out w with
            | Some out => str_loop fuel inp tlen strict (n2 + (extra + 1)) out
            | None => None
            end
        else
          match put tlen out [rd inp n2] with
          | Some out => str_loop fuel inp tlen strict n2 out
          | None => None
          end
      else Some (Ok out)
  end.
(** [bump_ok n]: the parse arena has room for [n] bytes or can be extended. *)
Definition sv_lexer_str_literal (bump_ok : Z -> bool) (lx : sv_lexer_t) : option (result (list Z)) :=
  let cap := tlen (lst lx) in
  if (cap =? 0)%nat then Some (Ok [])
  else if negb (bump_ok (Z.of_nat cap)) then Some oom
  else str_loop (S cap) (drop (toff (lst lx)) (code lx)) cap (strict lx) 0 [].

(** ** Template segments *)

(** The cooked value; [Ok None] when an escape is not allowed in a template. *)
Definition template_escape_ok (t : list Z) (n : nat) : bool :=
  let c := rd t 1 in
  if (49 <=? c) && (c <=? 57) then false
  else if (c =? 48) && (2 <? n)%nat && (48 <=? rd t 2) && (rd t 2 <=? 57) then false
  else if (c =? 120) && negb ((3 <? n)%nat && is_xdigit (rd t 2) && is_xdigit (rd t 3)) then false
  else if c =? 117 then
    if (2 <? n)%nat && (rd t 2 =? 123) then
      let k := span is_xdigit (take (n - 3) (drop 3 t)) in
      let cp := fold_left push_hex (take k (drop 3 t)) 0 in
      (3 + k <? n)%nat && (rd t (3 + k) =? 125) && (0 <? k)%nat && (cp <=? 0x10FFFF)
    else (5 <? n)%nat && xdigits4 t 2
  else true.
Fixpoint template_segment_loop (fuel : nat) (inp : list Z) (stop cap i : nat) (out : list Z) : option (option (list Z)) :=
  match fuel with
  | O => None
  | S fuel =>
      if (i <? stop)%nat then
        let c := rd inp i in
        if c =? 13 then
          match put cap out [10] with
          | Some out => template_segment_loop fuel inp stop cap (if (i + 1 <? stop)%nat && (rd inp (i + 1) =? 10) then i + 2 else i + 1) out
          | None => None
          end
        else if negb (c =? 92) || (stop <=? i + 1)%nat then
          match put cap out [c] with
          | Some out => template_segment_loop fuel inp stop cap (i + 1) out
          | None => None
          end
        else if negb (template_escape_ok (drop i inp) (stop - i)) then Some None
        else
          let '(w, adv) := decode_escape (drop i inp) (stop - i) 96 in
          match put cap out w with
          | Some out => template_segment_loop fuel inp stop cap (i + (1 + adv) + 1) out
          | None => None
          end
      else Some (Some out)
  end.
Definition decode_template_segment (bump_ok : Z -> bool) (inp : list Z) (start stop : nat) : option (result (option (list Z))) :=
  let raw_len := (if (start <? stop)%nat then stop - start else 0)%nat in
  if (raw_len =? 0)%nat then Some (Ok (Some []))
  else if negb (bump_ok (Z.of_nat raw_len)) then Some oom
  else option_map Ok (template_segment_loop (S raw_len) inp stop raw_len start []).
End Decode.

(** ** The value of a literal *)

Definition hex_value (c : Z) : Z := if c <=? 57 then c - 48 else if c <=? 70 then c - 55 else c - 87.
Definition hex_num (ds : list Z) : Z := fold_left (fun n c => n * 16 + hex_value c) ds 0.
Definition octal_num (ds : list Z) : Z := fold_left (fun n c => n * 8 + (c - 48)) ds 0.
Definition hex_digits (n : nat) (ds : list Z) : Prop := length ds = n /\ forallb is_xdigit ds = true.

Definition single_escapes : list (Z * Z) := [(110, 10); (116, 9); (114, 13); (118, 11); (102, 12); (98, 8); (92, 92)].
(** What a backslash takes away its meaning of: no letter of an escape, no
    octal digit, no line terminator. *)
Definition escapes_itself (c : Z) : bool :=
  negb (existsb (fun k => c =? k.1) single_escapes) && negb (is_octal_digit c) && negb (c =? 120) && negb (c =? 117) && negb (c =? 10) && negb (c =? 13).
Definition line_separator (s : list Z) : bool := starts s [0xE2; 0x80; 0xA8] || starts s [0xE2; 0x80; 0xA9].

(** An octal escape is as long as it can be with a value below 256. *)
Definition octal_run (ds s : list Z) : Prop :=
  (1 <= length ds <= 3)%nat /\ ds <> [48] /\ forallb is_octal_digit ds = true /\ octal_num ds <= 255 /\
  (length ds = 3%nat \/ is_octal_digit (rd s 0) = false \/ (length ds = 2%nat /\ 255 < octal_num ds * 8 + (rd s 0 - 48))).
(** The second half of a pair follows. *)
Definition low_follows (s : list Z) : Prop := exists ds s', hex_digits 4 ds /\ is_low (hex_num ds) = true /\ s = 92 :: 117 :: ds ++ s'.

(** [denotes q strict s v]: [s], up to the closing quote [q], has the value [v];
    none when it holds an octal escape in strict code. *)
Inductive denotes (q : Z) (strict : bool) : list Z -> option (list Z) -> Prop :=
| d_end : denotes q strict [q] (Some [])
| d_char c s v : c <> q -> c <> 92 -> denotes q strict s v -> denotes q strict (c :: s) (cons c <$> v)
| d_single c x s v : (c, x) ∈ single_escapes -> denotes q strict s v -> denotes q strict (92 :: c :: s) (cons x <$> v)
| d_itself c s v : escapes_itself c = true -> line_separator (c :: s) = false -> denotes q strict s v -> denotes q strict (92 :: c :: s) (cons c <$> v)
| d_nul s v : is_octal_digit (rd s 0) = false -> denotes q strict s v -> denotes q strict (92 :: 48 :: s) (cons 0 <$> v)
| d_octal ds s v : octal_run ds s -> denotes q strict s v ->
    denotes q strict (92 :: ds ++ s) (if strict then None else app (utf8_enc (octal_num ds)) <$> v)
| d_hex ds s v : hex_digits 2 ds -> denotes q strict s v -> denotes q strict (92 :: 120 :: ds ++ s) (app (utf8_enc (hex_num ds)) <$> v)
| d_unit ds s v : hex_digits 4 ds -> ~ (is_high (hex_num ds) = true /\ low_follows s) -> denotes q strict s v ->
    denotes q strict (92 :: 117 :: ds ++ s) (app (utf8_enc (hex_num ds)) <$> v)
| d_pair hs ls s v : hex_digits 4 hs -> hex_digits 4 ls -> is_high (hex_num hs) = true -> is_low (hex_num ls) = true -> denotes q strict s v ->
    denotes q strict (92 :: 117 :: hs ++ 92 :: 117 :: ls ++ s) (app (utf8_enc (combine_pair (hex_num hs) (hex_num ls))) <$> v)
| d_point ds s v : ds <> [] -> forallb is_xdigit ds = true -> hex_num ds < 0x110000 -> denotes q strict s v ->
    denotes q strict (92 :: 117 :: 123 :: ds ++ 125 :: s) (app (utf8_enc (hex_num ds)) <$> v).

(** ** Digits *)

Lemma xdigit_byte c : is_xdigit c = true -> is_byte c.
Proof. unfold is_xdigit, between, is_byte. intros H. apply orb_true_iff in H as [H|H]; [apply orb_true_iff in H as [H|H]|]; boolprop; lia. Qed.
Lemma unhex_value c : is_xdigit c = true -> unhex c = hex_value c /\ 0 <= hex_value c < 16.
Proof.
  intros H. pose proof (xdigit_byte c H) as Hb. by_bytes c (fun c => implb (is_xdigit c) ((unhex c =? hex_value c) && (0 <=? hex_value c) && (hex_value c <? 16))).
  rewrite H in Hbyte. cbn [implb] in Hbyte. boolprop. lia.
Qed.
Lemma hex_fold_ge ds : forallb is_xdigit ds = true -> forall a, 0 <= a -> a <= fold_left (fun n c => n * 16 + hex_value c) ds a.
Proof.
  induction ds as [|d ds IH]; cbn [forallb fold_left]; intros H a Ha; [lia|]. apply andb_true_iff in H as [Hd H]. destruct (unhex_value d Hd) as [_ Hr]. specialize (IH H (a * 16 + hex_value d) ltac:(lia)). lia.
Qed.
Lemma push_hex_fold ds : forallb is_xdigit ds = true -> forall a, 0 <= a -> fold_left (fun n c => n * 16 + hex_value c) ds a < 2 ^ 32 ->
  fold_left push_hex ds a = fold_left (fun n c => n * 16 + hex_value c) ds a.
Proof.
  induction ds as [|d ds IH]; cbn [forallb fold_left]; intros H a Ha Hf; [reflexivity|]. apply andb_true_iff in H as [Hd H]. destruct (unhex_value d Hd) as [Hu Hr].
  pose proof (hex_fold_ge ds H (a * 16 + hex_value d) ltac:(lia)) as Hge. unfold push_hex at 2. rewrite Hu, wrap_small by (rewrite Z.shiftl_mul_pow2; lia). rewrite lor_shiftl_add by lia. apply IH; [exact H|lia|exact Hf].
Qed.
Lemma hex4_num t i a b c d s : drop i t = [a; b; c; d] ++ s -> forallb is_xdigit [a; b; c; d] = true -> hex4 t i = hex_num [a; b; c; d] /\ 0 <= hex_num [a; b; c; d] < 0x10000 /\ xdigits4 t i = true.
Proof.
  intros Ht H. assert (Hr : forall k, rd t (i + k) = rd (drop i t) k) by (intros; rewrite rd_drop; reflexivity). unfold hex4, xdigits4. rewrite <- (Nat.add_0_r i) at 1 5. rewrite !Hr, Ht. cbn [app rd nth].
  cbn [forallb] in H. boolprop. destruct (unhex_value a), (unhex_value b), (unhex_value c), (unhex_value d); [assumption..|]. unfold hex_num. cbn [fold_left].
  split; [|split; [lia|rewrite !andb_true_iff; auto]].
  replace (unhex a) with (hex_value a) by congruence. replace (unhex b) with (hex_value b) by congruence. replace (unhex c) with (hex_value c) by congruence. replace (unhex d) with (hex_value d) by congruence.
  rewrite <- !Z.lor_assoc. rewrite (lor_shiftl_add (hex_value c)) by lia. rewrite (lor_shiftl_add (hex_value b)) by lia. rewrite lor_shiftl_add by lia. lia.
Qed.

(** ** Decoding one escape *)

Section Decoding.
Context `{U : Utf8proc} {US : Utf8procSpec U}.

Lemma enc_u32 cp : 0 <= cp < 0x110000 -> encode_u32 cp = utf8_enc cp.
Proof using US. intros H. unfold encode_u32, utf8_encode. rewrite to_i32_small by lia. apply encode_char_spec, H. Qed.

Lemma decode_single c x s n q : (c, x) ∈ single_escapes -> decode_escape (92 :: c :: s) n q = ([x], 0%nat) /\ is_octal_escape (92 :: c :: s) = false.
Proof using. intros H. unfold single_escapes in H. repeat (apply elem_of_cons in H as [H|H]; [injection H as -> ->; split; reflexivity|]). inversion H. Qed.
Lemma octal_no c s : is_octal_digit c = false -> is_octal_escape (92 :: c :: s) = false.
Proof using. unfold is_octal_escape. cbn [rd nth]. unfold is_octal_digit at 1. intros ->. reflexivity. Qed.
Lemma decode_itself c s n q : escapes_itself c = true -> decode_escape (92 :: c :: s) n q = ([c], 0%nat) /\ is_octal_escape (92 :: c :: s) = false.
Proof using.
  unfold escapes_itself, single_escapes. cbn [existsb fst]. intros H. boolprop. split; [|apply octal_no; assumption]. unfold decode_escape. change (rd (92 :: c :: s) 1) with c.
  repeat match goal with H : c <> ?k |- _ => apply Z.eqb_neq in H; rewrite H end. replace (is_octal_digit c) with false by congruence.
  destruct (Z.eqb_spec c 48) as [->|]; [discriminate|]. cbn [andb]. destruct (Z.eqb_spec c q) as [->|]; reflexivity.
Qed.
Lemma decode_nul s n q : is_octal_digit (rd s 0) = false -> decode_escape (92 :: 48 :: s) n q = ([0], 0%nat) /\ is_octal_escape (92 :: 48 :: s) = false.
Proof using.
  intros H. unfold decode_escape, is_octal_escape. change (rd (92 :: 48 :: s) 2) with (rd s 0). rewrite H. split; reflexivity.
Qed.

Lemma octal_range c : is_octal_digit c = true -> 48 <= c <= 55.
Proof using. unfold is_octal_digit. intros H. boolprop. lia. Qed.
Lemma octal_head c s n q : is_octal_digit c = true -> (c = 48 -> is_octal_digit (rd s 0) = true) ->
  decode_escape (92 :: c :: s) n q = decode_octal_escape (92 :: c :: s) /\ is_octal_escape (92 :: c :: s) = true.
Proof using.
  intros Hc H0. assert (E : (c =? 48) && negb (is_octal_digit (rd s 0)) = false) by (destruct (Z.eqb_spec c 48) as [->|]; [rewrite H0 by reflexivity|]; reflexivity).
  unfold decode_escape, is_octal_escape. change (rd (92 :: c :: s) 1) with c. change (rd (92 :: c :: s) 2) with (rd s 0). rewrite E, Hc. unfold is_octal_digit in Hc. rewrite Hc. apply octal_range in Hc. split; [|reflexivity].
  repeat match goal with |- context [c =? ?k] => destruct (Z.eqb_spec c k); [lia|] end. reflexivity.
Qed.
Lemma decode_octal ds s n q : octal_run ds s -> decode_escape (92 :: ds ++ s) n q = (utf8_enc (octal_num ds), (length ds - 1)%nat) /\ is_octal_escape (92 :: ds ++ s) = true.
Proof using US.
  intros (Hl & H48 & Hd & Hv & Hm). destruct ds as [|d [|e [|f [|]]]]; cbn [length] in Hl; try lia; cbn [forallb] in Hd; boolprop; unfold octal_num in *; cbn [fold_left app length] in *.
  - destruct Hm as [|[Hm|[]]]; try lia. destruct (octal_head d s n q) as [-> ->]; [assumption|intros ->; contradiction|]. split; [|reflexivity]. unfold decode_octal_escape. cbn [rd nth]. fold (rd s 0). rewrite Hm.
    pose proof (octal_range d ltac:(assumption)). rewrite enc_u32 by lia. repeat f_equal; lia.
  - destruct (octal_head d (e :: s) n q) as [-> ->]; [assumption|intros; assumption|]. split; [|reflexivity]. unfold decode_octal_escape. cbn [rd nth]. fold (rd s 0). replace (is_octal_digit e) with true by congruence.
    pose proof (octal_range d ltac:(assumption)). pose proof (octal_range e ltac:(assumption)).
    replace (is_octal_digit (rd s 0) && (((d - 48) * 8 + (e - 48)) * 8 + (rd s 0 - 48) <=? 255)) with false.
    + rewrite enc_u32 by lia. repeat f_equal; lia.
    + symmetry. destruct Hm as [|[Hm|[_ Hm]]]; [lia|rewrite Hm; reflexivity|]. apply andb_false_iff. right. apply Z.leb_gt. lia.
  - destruct (octal_head d (e :: f :: s) n q) as [-> ->]; [assumption|intros; assumption|]. split; [|reflexivity]. unfold decode_octal_escape. cbn [rd nth]. replace (is_octal_digit e) with true by congruence. replace (is_octal_digit f) with true by congruence.
    pose proof (octal_range d ltac:(assumption)). pose proof (octal_range e ltac:(assumption)). pose proof (octal_range f ltac:(assumption)).
    destruct (Z.leb_spec (((d - 48) * 8 + (e - 48)) * 8 + (f - 48)) 255); [|lia]. cbn [andb]. rewrite enc_u32 by lia. repeat f_equal; lia.
Qed.

Lemma digits_4 n ds : hex_digits n ds -> length ds = n.
Proof using. intros [H _]. exact H. Qed.
Lemma decode_x t n q : rd t 1 = 120 -> decode_escape t n q = if (3 <? n)%nat && is_xdigit (rd t 2) && is_xdigit (rd t 3) then decode_hex_escape t else ([120], 0%nat).
Proof using. intros H. unfold decode_escape. rewrite H. reflexivity. Qed.
Lemma decode_u t n q : rd t 1 = 117 -> decode_escape t n q =
  if (2 <? n)%nat && (rd t 2 =? 123) then decode_unicode_braced t n else if (5 <? n)%nat && xdigits4 t 2 then decode_unicode_fixed t n else ([117], 0%nat).
Proof using. intros H. unfold decode_escape. rewrite H. reflexivity. Qed.

Lemma decode_hex ds s n q : hex_digits 2 ds -> (3 < n)%nat -> decode_escape (92 :: 120 :: ds ++ s) n q = (utf8_enc (hex_num ds), 2%nat).
Proof using US.
  intros [Hl Hx] Hn. destruct ds as [|a [|b [|]]]; try discriminate. cbn [forallb] in Hx. boolprop. rewrite decode_x by reflexivity. cbn [app].
  change (rd (92 :: 120 :: a :: b :: s) 2) with a. change (rd (92 :: 120 :: a :: b :: s) 3) with b. apply Nat.ltb_lt in Hn. rewrite Hn. replace (is_xdigit a) with true by congruence. replace (is_xdigit b) with true by congruence. cbn [andb].
  unfold decode_hex_escape. change (rd (92 :: 120 :: a :: b :: s) 2) with a. change (rd (92 :: 120 :: a :: b :: s) 3) with b. destruct (unhex_value a ltac:(assumption)) as [-> ?], (unhex_value b ltac:(assumption)) as [-> ?]. rewrite lor_shiftl_add by lia.
  rewrite enc_u32 by lia. unfold hex_num. cbn [fold_left]. repeat f_equal; lia.
Qed.

Lemma four ds : hex_digits 4 ds -> exists a b c d, ds = [a; b; c; d].
Proof using. intros [H _]. destruct ds as [|a [|b [|c [|d [|]]]]]; try discriminate. eauto. Qed.
Lemma hex4_at t i ds s : hex_digits 4 ds -> drop i t = ds ++ s -> hex4 t i = hex_num ds /\ 0 <= hex_num ds < 0x10000 /\ xdigits4 t i = true.
Proof using. intros Hd Ht. destruct (four ds Hd) as (a & b & c & d & ->). eapply hex4_num; [exact Ht|apply Hd]. Qed.
Lemma xdigit_brace c : is_xdigit c = true -> c <> 123 /\ c <> 125.
Proof using. intros H. split; intros ->; discriminate. Qed.
Lemma decode_u4 ds s n q : hex_digits 4 ds -> (5 < n)%nat -> decode_escape (92 :: 117 :: ds ++ s) n q = decode_unicode_fixed (92 :: 117 :: ds ++ s) n.
Proof using.
  intros Hd Hn. rewrite decode_u by reflexivity. destruct (hex4_at (92 :: 117 :: ds ++ s) 2 ds s Hd eq_refl) as (_ & _ & ->). apply Nat.ltb_lt in Hn. rewrite Hn. destruct (four ds Hd) as (a & b & c & d & ->).
  change (rd (92 :: 117 :: [a; b; c; d] ++ s) 2) with a. destruct Hd as [_ Hd]. cbn [forallb] in Hd. boolprop. destruct (xdigit_brace a) as [Ha _]; [assumption|]. apply Z.eqb_neq in Ha. rewrite Ha, andb_false_r. reflexivity.
Qed.
Lemma decode_pair hs ls s n q : hex_digits 4 hs -> hex_digits 4 ls -> is_high (hex_num hs) = true -> is_low (hex_num ls) = true -> (11 < n)%nat ->
  decode_escape (92 :: 117 :: hs ++ 92 :: 117 :: ls ++ s) n q = (utf8_enc (combine_pair (hex_num hs) (hex_num ls)), 10%nat).
Proof using US.
  intros Hh Hl Hhi Hlo Hn. rewrite decode_u4 by (auto; lia). unfold decode_unicode_fixed. destruct (hex4_at (92 :: 117 :: hs ++ 92 :: 117 :: ls ++ s) 2 hs (92 :: 117 :: ls ++ s) Hh eq_refl) as (-> & R1 & _).
  destruct (four hs Hh) as (a & b & c & d & E). destruct (hex4_at (92 :: 117 :: hs ++ 92 :: 117 :: ls ++ s) 8 ls s Hl) as (-> & R2 & ->); [rewrite E; reflexivity|].
  replace (rd (92 :: 117 :: hs ++ 92 :: 117 :: ls ++ s) 6) with 92 by (rewrite E; reflexivity). replace (rd (92 :: 117 :: hs ++ 92 :: 117 :: ls ++ s) 7) with 117 by (rewrite E; reflexivity). apply Nat.ltb_lt in Hn. rewrite Hn.
  unfold is_high in Hhi. unfold is_low in Hlo. rewrite Hhi, Hlo. cbn [andb]. change (92 =? 92) with true. change (117 =? 117) with true. cbn [andb]. boolprop. unfold combine_pair. rewrite Z.shiftl_mul_pow2 by lia. rewrite enc_u32 by lia. repeat f_equal; lia.
Qed.
Lemma decode_unit ds s r q : hex_digits 4 ds -> ~ (is_high (hex_num ds) = true /\ low_follows s) ->
  decode_escape (92 :: 117 :: ds ++ s ++ r) (6 + length s) q = (utf8_enc (hex_num ds), 4%nat).
Proof using US.
  intros Hd Hno. rewrite decode_u4 by (auto; lia). unfold decode_unicode_fixed. destruct (hex4_at (92 :: 117 :: ds ++ s ++ r) 2 ds (s ++ r) Hd eq_refl) as (-> & R1 & _). case_if; [|rewrite enc_u32 by lia; reflexivity]. exfalso. apply Hno.
  destruct (four ds Hd) as (a & b & c & d & ->). boolprop. split; [unfold is_high; rewrite !andb_true_iff, !Z.leb_le; lia|]. destruct s as [|s1 [|s2 [|s3 [|s4 [|s5 [|s6 s]]]]]]; cbn [length] in *; try lia.
  set (t := 92 :: 117 :: [a; b; c; d] ++ (s1 :: s2 :: s3 :: s4 :: s5 :: s6 :: s) ++ r) in *. change (rd t 6) with s1 in *. change (rd t 7) with s2 in *. subst s1 s2. exists [s3; s4; s5; s6], s.
  assert (Hx : hex_digits 4 [s3; s4; s5; s6]) by (split; [reflexivity|]; unfold xdigits4 in *; change (rd t 8) with s3 in *; change (rd t (8 + 1)) with s4 in *; change (rd t (8 + 2)) with s5 in *; change (rd t (8 + 3)) with s6 in *; boolprop; cbn [forallb]; rewrite !andb_true_iff; auto).
  destruct (hex4_at t 8 [s3; s4; s5; s6] (s ++ r) Hx eq_refl) as (E & _ & _). rewrite E in *. split; [exact Hx|]. split; [unfold is_low; rewrite andb_true_iff, !Z.leb_le; lia|reflexivity].
Qed.
Lemma span_stop p l c r : forallb p l = true -> p c = false -> span p (l ++ c :: r) = length l.
Proof using. induction l as [|x l IH]; cbn; intros Hl Hc; [rewrite Hc; reflexivity|]. apply andb_true_iff in Hl as [Hx Hl]. rewrite Hx, IH by assumption. reflexivity. Qed.
Lemma decode_braced ds s r q : forallb is_xdigit ds = true ->
  decode_escape (92 :: 117 :: 123 :: ds ++ 125 :: s ++ r) (4 + length ds + length s) q = (encode_u32 (fold_left push_hex ds 0), (2 + length ds)%nat).
Proof using.
  intros Hx. rewrite decode_u by reflexivity. change (rd (92 :: 117 :: 123 :: ds ++ 125 :: s ++ r) 2) with 123. change (123 =? 123) with true. destruct (Nat.ltb_spec 2 (4 + length ds + length s)); [|lia]. cbn [andb]. unfold decode_unicode_braced.
  change (drop 3 (92 :: 117 :: 123 :: ds ++ 125 :: s ++ r)) with (ds ++ 125 :: s ++ r). replace (4 + length ds + length s - 3)%nat with (length ds + S (length s))%nat by lia. rewrite take_app_add. cbn [take firstn]. rewrite span_stop by (auto; reflexivity).
  rewrite take_app_length. replace (rd (92 :: 117 :: 123 :: ds ++ 125 :: s ++ r) (3 + length ds)) with 125 by (symmetry; apply (rd_app_r (92 :: 117 :: 123 :: ds))). destruct (Nat.ltb_spec (3 + length ds) (4 + length ds + length s)); [|lia]. change (125 =? 125) with true. reflexivity.
Qed.
Lemma decode_point ds s r q : ds <> [] -> forallb is_xdigit ds = true -> hex_num ds < 0x110000 ->
  decode_escape (92 :: 117 :: 123 :: ds ++ 125 :: s ++ r) (4 + length ds + length s) q = (utf8_enc (hex_num ds), (2 + length ds)%nat).
Proof using US.
  intros Hne Hx Hlt. rewrite decode_braced by exact Hx. pose proof (hex_fold_ge ds Hx 0 ltac:(lia)). fold (hex_num ds) in *. rewrite push_hex_fold; [|exact Hx|lia|unfold hex_num in Hlt; lia]. fold (hex_num ds). rewrite enc_u32 by lia. reflexivity.
Qed.

(** ** Where the literal ends *)

Lemma denotes_last q strict s v : denotes q strict s v -> exists b, s = b ++ [q].
Proof using.
  induction 1 as [|c s v _ _ _ [b ->]|c x s v _ _ [b ->]|c s v _ _ _ [b ->]|s v _ _ [b ->]|ds s v _ _ [b ->]|ds s v _ _ [b ->]|ds s v _ _ _ [b ->]|hs ls s v _ _ _ _ _ [b ->]|ds s v _ _ _ _ [b ->]]; [exists []; reflexivity|..];
    eexists (_ :: _); cbn [app]; f_equal; rewrite ?app_comm_cons, ?app_assoc, ?app_comm_cons; reflexivity.
Qed.
Lemma rd_pre (p t : list Z) k : rd (p ++ t) (length p + k) = rd t k.
Proof using. unfold rd. rewrite app_nth2_plus. reflexivity. Qed.
Lemma skip_pre p t : escape_skip (p ++ t) (length p) = escape_skip t 0.
Proof using.
  unfold escape_skip, at_char, memchr. rewrite !rd_pre, length_app. change (0 + 1)%nat with 1%nat. change (0 + 2)%nat with 2%nat. change (0 + 3)%nat with 3%nat. rewrite drop_app_add.
  replace (length p + 2 <? length p + length t)%nat with (2 <? length t)%nat by (destruct (Nat.ltb_spec 2 (length t)), (Nat.ltb_spec (length p + 2) (length p + length t)); lia || reflexivity).
  set (n := span _ _). replace (length p + 3 + n <? length p + length t)%nat with (3 + n <? length t)%nat by (destruct (Nat.ltb_spec (3 + n) (length t)), (Nat.ltb_spec (length p + 3 + n) (length p + length t)); lia || reflexivity).
  case_ifs; lia.
Qed.
Lemma escape_jump fuel p w s r q b : q <> 92 -> (2 <= length w)%nat -> rd w 0 = 92 -> s = b ++ [q] -> escape_skip (w ++ s ++ r) 0 = length w ->
  string_loop (S fuel) (p ++ (w ++ s) ++ r) q (length p) = string_loop fuel ((p ++ w) ++ s ++ r) q (length (p ++ w)).
Proof using.
  intros Hq Hw H0 -> Hk. cbn [string_loop]. set (t := p ++ (w ++ b ++ [q]) ++ r). assert (Et : t = (p ++ w) ++ (b ++ [q]) ++ r) by (unfold t; rewrite <- !app_assoc; reflexivity).
  assert (Hl : length t = (length p + length w + length b + 1 + length r)%nat) by (rewrite Et, !length_app; cbn; lia). destruct (Nat.leb_spec (length t) (length p)); [lia|].
  assert (H92 : rd t (length p) = 92) by (unfold t; rewrite <- (Nat.add_0_r (length p)) at 1; rewrite rd_pre, <- !app_assoc, rd_app_l by lia; exact H0).
  rewrite (memchr_hit t (length p) 92) by (auto; lia). rewrite memchr_miss by (try lia; congruence).
  destruct (memchr_some q t (length p + length w + length b - S (length p)) (S (length p)) (length p + length w + length b)) as (k & -> & Hk'); [reflexivity|lia|rewrite Et, <- !app_assoc; replace (p ++ w ++ b ++ [q] ++ r) with ((p ++ w ++ b) ++ q :: r) by (rewrite <- !app_assoc; reflexivity); replace (length p + length w + length b)%nat with (length (p ++ w ++ b)) by (rewrite !length_app; lia); apply rd_app_r|].
  destruct (Nat.ltb_spec k (length p)); [lia|]. destruct (Nat.leb_spec (length t) (length p + 1)); [lia|]. replace (escape_skip t (length p)) with (length w) by (unfold t; rewrite skip_pre, <- !app_assoc, app_assoc in *; symmetry; rewrite <- Hk; f_equal; rewrite <- !app_assoc; reflexivity).
  destruct (Nat.ltb_spec (length t) (length p + length w)); [lia|]. rewrite length_app. rewrite <- Et. reflexivity.
Qed.
Lemma plain_jump fuel p c s r q b : c <> q -> c <> 92 -> s = b ++ [q] ->
  string_loop (S fuel) (p ++ (c :: s) ++ r) q (length p) = string_loop (S fuel) ((p ++ [c]) ++ s ++ r) q (length (p ++ [c])).
Proof using.
  intros H1 H2 ->. rewrite plain_step; [|rewrite !length_app; cbn; rewrite !length_app; cbn; lia|rewrite <- (Nat.add_0_r (length p)), rd_pre; exact H1|rewrite <- (Nat.add_0_r (length p)), rd_pre; exact H2].
  rewrite length_app, Nat.add_1_r, <- (app_assoc p). reflexivity.
Qed.
Lemma plain_run ds : forall fuel p s r q b, forallb is_octal_digit ds = true -> q = 34 \/ q = 39 -> s = b ++ [q] ->
  string_loop (S fuel) (p ++ (ds ++ s) ++ r) q (length p) = string_loop (S fuel) ((p ++ ds) ++ s ++ r) q (length (p ++ ds)).
Proof using.
  induction ds as [|d ds IH]; intros fuel p s r q b Hd Hq Hs; [rewrite app_nil_r; reflexivity|]. cbn [forallb] in Hd. apply andb_true_iff in Hd as [Hd Hds]. apply octal_range in Hd.
  cbn [app]. change (d :: (ds ++ s) ++ r) with ((d :: (ds ++ s)) ++ r). rewrite (plain_jump fuel p d (ds ++ s) r q (ds ++ b)); [|lia|lia|rewrite Hs, app_assoc; reflexivity].
  rewrite (IH fuel (p ++ [d]) s r q b Hds Hq Hs). rewrite <- (app_assoc p). reflexivity.
Qed.
Lemma skip_two c t : c <> 120 -> c <> 117 -> escape_skip (92 :: c :: t) 0 = 2%nat.
Proof using. intros H1 H2. unfold escape_skip. change (rd (92 :: c :: t) (0 + 1)) with c. apply Z.eqb_neq in H1, H2. rewrite H1, H2. reflexivity. Qed.
Lemma skip_six ds t : hex_digits 4 ds -> escape_skip (92 :: 117 :: ds ++ t) 0 = 6%nat.
Proof using.
  intros H. destruct (four ds H) as (a & b & c & d & ->). destruct H as [_ H]. cbn [forallb] in H. apply andb_true_iff in H as [H _]. destruct (xdigit_brace a H) as [Ha _]. apply Z.eqb_neq in Ha.
  unfold escape_skip, at_char. change (rd (92 :: 117 :: [a; b; c; d] ++ t) (0 + 1)) with 117. change (rd (92 :: 117 :: [a; b; c; d] ++ t) (0 + 2)) with a. rewrite Ha, andb_false_r. reflexivity.
Qed.
Lemma skip_point ds t : forallb is_xdigit ds = true -> escape_skip (92 :: 117 :: 123 :: ds ++ 125 :: t) 0 = (4 + length ds)%nat.
Proof using.
  intros H. unfold escape_skip, at_char, memchr. change (rd (92 :: 117 :: 123 :: ds ++ 125 :: t) (0 + 1)) with 117. change (rd (92 :: 117 :: 123 :: ds ++ 125 :: t) (0 + 2)) with 123. change (drop (0 + 3) (92 :: 117 :: 123 :: ds ++ 125 :: t)) with (ds ++ 125 :: t).
  change (0 + 2 <? length (92%Z :: 117%Z :: 123%Z :: ds ++ 125%Z :: t))%nat with true. cbn [andb]. change (117 =? 120) with false. change (117 =? 117) with true. change (123 =? 123) with true. cbv iota.
  rewrite span_stop; [|rewrite forallb_forall in *; intros x Hx; apply H in Hx; apply xdigit_brace in Hx as [_ Hx]; apply Z.eqb_neq in Hx; rewrite Hx; reflexivity|reflexivity].
  cbn [length]. rewrite length_app. cbn [length]. destruct (Nat.ltb_spec (0 + 3 + length ds) (S (S (S (length ds + S (length t)))))); lia.
Qed.

(** An escape of [w] that leaves [s] to read. *)
Lemma denotes_scan q strict s v : denotes q strict s v -> q = 34 \/ q = 39 ->
  forall fuel p r, (length s <= fuel)%nat -> string_loop fuel (p ++ s ++ r) q (length p) = Some (TOK_STRING, (length p + length s)%nat).
Proof using.
  intros Hd Hq. assert (Hq2 : q <> 92) by (destruct Hq; lia). assert (Hq3 : q = 34 \/ q = 39) by exact Hq.
  assert (J : forall w s v, denotes q strict s v -> (2 <= length w)%nat -> rd w 0 = 92 -> (forall t, escape_skip (w ++ t) 0 = length w) ->
     (forall fuel p r, (length s <= fuel)%nat -> string_loop fuel (p ++ s ++ r) q (length p) = Some (TOK_STRING, (length p + length s)%nat)) ->
     forall fuel p r, (length (w ++ s) <= fuel)%nat -> string_loop fuel (p ++ (w ++ s) ++ r) q (length p) = Some (TOK_STRING, (length p + length (w ++ s))%nat)).
  { intros w s1 v1 H1 Hw H0 Hk IH fuel p r Hf. rewrite length_app in *. destruct fuel as [|fuel]; [lia|]. destruct (denotes_last _ _ _ _ H1) as [b Hb].
    rewrite (escape_jump fuel p w s1 r q b) by auto. rewrite IH by lia. rewrite length_app. do 2 f_equal; lia. }
  induction Hd as [|c s v H1 H2 H IH|c x s v H1 H IH|c s v H1 _ H IH|s v H1 H IH|ds s v H1 H IH|ds s v H1 H IH|ds s v H1 H2 H IH|hs ls s v H1 H2 _ _ H IH|ds s v H1 H2 H3 H IH].
  - intros fuel p r Hf. destruct fuel as [|fuel]; [cbn in Hf; lia|]. cbn [app length]. rewrite close_step; [f_equal; f_equal; lia|rewrite length_app; cbn; lia|apply rd_app_r|exact Hq2].
  - intros fuel p r Hf. cbn [length] in *. destruct fuel as [|fuel]; [lia|]. destruct (denotes_last _ _ _ _ H) as [b Hb]. rewrite (plain_jump fuel p c s r q b) by auto. rewrite IH by lia. rewrite length_app. cbn [length]. do 2 f_equal; lia.
  - apply (J [92; c] s v H); [rewrite ?length_app; cbn; lia|reflexivity| |exact IH]. intros t. apply skip_two; intros ->; unfold single_escapes in H1; repeat (apply elem_of_cons in H1 as [H1|H1]; [discriminate H1|]); inversion H1.
  - apply (J [92; c] s v H); [rewrite ?length_app; cbn; lia|reflexivity| |exact IH]. unfold escapes_itself in H1. boolprop. intros t. apply skip_two; assumption.
  - apply (J [92; 48] s v H); [rewrite ?length_app; cbn; lia|reflexivity| |exact IH]. intros t. apply skip_two; discriminate.
  - destruct H1 as (Hl & _ & Hds & _). destruct ds as [|d ds]; [cbn in Hl; lia|]. cbn [forallb] in Hds. apply andb_true_iff in Hds as [Hd Hds]. apply octal_range in Hd. destruct (denotes_last _ _ _ _ H) as [b Hb].
    intros fuel p r Hf. change (92 :: (d :: ds) ++ s) with ([92; d] ++ ds ++ s) in *. rewrite !length_app in Hf |- *. cbn [length] in Hf. destruct fuel as [|[|fuel]]; [lia|lia|].
    rewrite (escape_jump (S fuel) p [92; d] (ds ++ s) r q (ds ++ b)); [|exact Hq2|cbn; lia|reflexivity|rewrite Hb, app_assoc; reflexivity|apply skip_two; lia].
    rewrite (plain_run ds fuel (p ++ [92; d]) s r q b Hds Hq3 Hb). rewrite IH by lia. rewrite !length_app. cbn [length]. do 2 f_equal; lia.
  - destruct ds as [|a [|c [|]]]; try (destruct H1; discriminate). apply (J [92; 120; a; c] s v H); [rewrite ?length_app; cbn; lia|reflexivity| |exact IH]. reflexivity.
  - change (92 :: 117 :: ds ++ s) with ((92 :: 117 :: ds) ++ s). apply (J (92 :: 117 :: ds) s v H); [rewrite ?length_app; cbn; lia|reflexivity| |exact IH]. cbn [length]. intros t. rewrite (digits_4 4 ds H1). apply skip_six, H1.
  - assert (Hs : forall fuel p r, (length (92%Z :: 117%Z :: ls ++ s) <= fuel)%nat -> string_loop fuel (p ++ (92 :: 117 :: ls ++ s) ++ r) q (length p) = Some (TOK_STRING, (length p + length (92%Z :: 117%Z :: ls ++ s))%nat)).
    { change (92 :: 117 :: ls ++ s) with ((92 :: 117 :: ls) ++ s). apply (J (92 :: 117 :: ls) s v H); [rewrite ?length_app; cbn; lia|reflexivity| |exact IH]. cbn [length]. intros t. rewrite (digits_4 4 ls H2). apply skip_six, H2. }
    destruct (denotes_last _ _ _ _ H) as [b Hb]. intros fuel p r Hf. change (92 :: 117 :: hs ++ 92 :: 117 :: ls ++ s) with ((92 :: 117 :: hs) ++ 92 :: 117 :: ls ++ s) in *. rewrite length_app in *. cbn [length] in Hf. destruct fuel as [|fuel]; [lia|].
    rewrite (escape_jump fuel p (92 :: 117 :: hs) (92 :: 117 :: ls ++ s) r q (92 :: 117 :: ls ++ b)); [|exact Hq2|cbn; lia|reflexivity|rewrite Hb; cbn; rewrite <- app_assoc; reflexivity|cbn [length]; rewrite (digits_4 4 hs H1); apply skip_six, H1].
    rewrite Hs by (cbn [length]; lia). rewrite length_app. do 2 f_equal; lia.
  - change (92 :: 117 :: 123 :: ds ++ 125 :: s) with ((92 :: 117 :: 123 :: ds) ++ [125] ++ s). rewrite app_assoc. apply (J ((92 :: 117 :: 123 :: ds) ++ [125]) s v H); [rewrite ?length_app; cbn; lia|reflexivity| |exact IH].
    intros t. rewrite <- app_assoc. cbn [app]. rewrite skip_point by exact H2. cbn [length]. rewrite length_app. cbn [length]. lia.
Qed.

(** ** What the loop writes *)

Lemma put_some cap out w : (length out + length w <= cap)%nat -> put cap out w = Some (out ++ w).
Proof using. intros H. unfold put. apply Nat.leb_le in H. rewrite H. reflexivity. Qed.
Lemma at_text x (p t : list Z) : drop (S (length p)) (x :: p ++ t) = t /\ rd (x :: p ++ t) (S (length p)) = rd t 0.
Proof using. split; [cbn; apply drop_app_length|]. change (rd (x :: p ++ t) (S (length p))) with (rd (p ++ t) (length p)). rewrite <- (Nat.add_0_r (length p)) at 1. apply rd_pre. Qed.
Lemma loop_plain fuel x p c s r strict out : c <> 92 -> (1 <= length s)%nat -> (length out <= length p)%nat ->
  str_loop (S fuel) (x :: p ++ (c :: s) ++ r) (S (length p + length (c :: s))) strict (length p) out =
  str_loop fuel (x :: (p ++ [c]) ++ s ++ r) (S (length (p ++ [c]) + length s)) strict (length (p ++ [c])) (out ++ [c]).
Proof using.
  intros Hc Hs Ho. cbn [str_loop length]. destruct (Nat.ltb_spec (length p + 2) (S (length p + S (length s)))); [|lia]. destruct (at_text x p ((c :: s) ++ r)) as [_ ->]. change (rd ((c :: s) ++ r) 0) with c. apply Z.eqb_neq in Hc. rewrite Hc.
  rewrite put_some by (cbn; lia). rewrite length_app. cbn [length]. rewrite <- app_assoc. cbn [app]. f_equal; lia.
Qed.
Lemma loop_escape fuel x p w s r strict out o : rd w 0 = 92 -> (2 <= length w)%nat -> (1 <= length s)%nat -> (length out <= length p)%nat -> (length o <= length w)%nat ->
  decode_escape (w ++ s ++ r) (length w + length s) x = (o, (length w - 2)%nat) -> strict && is_octal_escape (w ++ s ++ r) = false ->
  str_loop (S fuel) (x :: p ++ (w ++ s) ++ r) (S (length p + length (w ++ s))) strict (length p) out =
  str_loop fuel (x :: (p ++ w) ++ s ++ r) (S (length (p ++ w) + length s)) strict (length (p ++ w)) (out ++ o).
Proof using.
  intros Hw Hl Hs Ho Ho2 Hdec Hoct. cbn [str_loop]. rewrite !length_app. destruct (Nat.ltb_spec (length p + 2) (S (length p + (length w + length s)))); [|lia]. destruct (at_text x p ((w ++ s) ++ r)) as [-> ->]. rewrite <- !app_assoc. rewrite rd_app_l by lia. rewrite Hw. change (92 =? 92) with true. cbv iota.
  rewrite Hoct. change (rd (x :: p ++ w ++ s ++ r) 0) with x. replace (S (length p + (length w + length s)) - S (length p))%nat with (length w + length s)%nat by lia. rewrite Hdec. rewrite put_some by lia. f_equal; lia.
Qed.
Lemma loop_octal fuel x p w s r out : rd w 0 = 92 -> (2 <= length w)%nat -> (1 <= length s)%nat -> is_octal_escape (w ++ s ++ r) = true ->
  str_loop (S fuel) (x :: p ++ (w ++ s) ++ r) (S (length p + length (w ++ s))) true (length p) out = Some octal_error.
Proof using.
  intros Hw Hl Hs Hoct. cbn [str_loop]. rewrite !length_app. destruct (Nat.ltb_spec (length p + 2) (S (length p + (length w + length s)))); [|lia]. destruct (at_text x p ((w ++ s) ++ r)) as [-> ->]. rewrite <- !app_assoc. rewrite rd_app_l by lia. rewrite Hw. change (92 =? 92) with true. cbv iota.
  rewrite Hoct. reflexivity.
Qed.

Definition outcome (out : list Z) (v : option (list Z)) : result (list Z) := match v with Some v => Ok (out ++ v) | None => octal_error end.
Lemma outcome_app out o v : outcome (out ++ o) v = outcome out (app o <$> v).
Proof using. destruct v; [|reflexivity]. cbn. rewrite <- app_assoc. reflexivity. Qed.
Lemma octal_in s r : s <> [] -> rd (s ++ r) 0 = rd s 0.
Proof using. destruct s; [contradiction|reflexivity]. Qed.
Lemma denotes_pos q strict s v : denotes q strict s v -> (1 <= length s)%nat.
Proof using. intros H. apply denotes_last in H as [b ->]. rewrite length_app. cbn. lia. Qed.
Lemma octal_enc ds s : octal_run ds s -> (length (utf8_enc (octal_num ds)) <= 2)%nat.
Proof using. intros (_ & _ & _ & H & _). unfold utf8_enc. destruct (Z.ltb_spec (octal_num ds) 0x80); [cbn; lia|]. destruct (Z.ltb_spec (octal_num ds) 0x800); [cbn; lia|lia]. Qed.

Lemma denotes_loop q strict s v : denotes q strict s v -> forall fuel p r out, (length s <= fuel)%nat -> (length out <= length p)%nat ->
  str_loop fuel (q :: p ++ s ++ r) (S (length p + length s)) strict (length p) out = Some (outcome out v).
Proof using US.
  assert (J : forall w o s v, denotes q strict s v -> (2 <= length w)%nat -> rd w 0 = 92 -> (length o <= length w)%nat ->
     (forall r, decode_escape (w ++ s ++ r) (length w + length s) q = (o, (length w - 2)%nat) /\ strict && is_octal_escape (w ++ s ++ r) = false) ->
     (forall fuel p r out, (length s <= fuel)%nat -> (length out <= length p)%nat -> str_loop fuel (q :: p ++ s ++ r) (S (length p + length s)) strict (length p) out = Some (outcome out v)) ->
     forall fuel p r out, (length (w ++ s) <= fuel)%nat -> (length out <= length p)%nat ->
     str_loop fuel (q :: p ++ (w ++ s) ++ r) (S (length p + length (w ++ s))) strict (length p) out = Some (outcome out (app o <$> v))).
  { intros w o s1 v1 H1 Hw H0 Ho Hd IH fuel p r out Hf Hout. pose proof (denotes_pos _ _ _ _ H1). destruct (Hd r) as [D1 D2]. destruct fuel as [|fuel]; [rewrite length_app in Hf; lia|].
    rewrite (loop_escape fuel q p w s1 r strict out o) by auto. rewrite length_app in Hf. rewrite IH by (rewrite ?length_app; lia). rewrite outcome_app. reflexivity. }
  induction 1 as [|c s v H1 H2 H IH|c x s v H1 H IH|c s v H1 _ H IH|s v H1 H IH|ds s v H1 H IH|ds s v H1 H IH|ds s v H1 H2 H IH|hs ls s v H1 H2 H3 H4 H IH|ds s v H1 H2 H3 H IH].
  - intros fuel p r out Hf Ho. destruct fuel as [|fuel]; [cbn in Hf; lia|]. cbn [str_loop length]. destruct (Nat.ltb_spec (length p + 2) (S (length p + 1))); [lia|]. cbn. rewrite app_nil_r. reflexivity.
  - intros fuel p r out Hf Ho. pose proof (denotes_pos _ _ _ _ H). cbn [length] in Hf. destruct fuel as [|fuel]; [lia|]. rewrite loop_plain by auto. rewrite IH by (rewrite ?length_app; cbn; lia). rewrite outcome_app. reflexivity.
  - apply (J [92; c] [x] s v H); [cbn; lia|reflexivity|cbn; lia| |exact IH]. intros r. destruct (decode_single c x (s ++ r) (2 + length s) q H1) as [D1 D2]. split; [exact D1|cbn [app]; rewrite D2; apply andb_false_r].
  - apply (J [92; c] [c] s v H); [cbn; lia|reflexivity|cbn; lia| |exact IH]. intros r. destruct (decode_itself c (s ++ r) (2 + length s) q H1) as [D1 D2]. split; [exact D1|cbn [app]; rewrite D2; apply andb_false_r].
  - apply (J [92; 48] [0] s v H); [cbn; lia|reflexivity|cbn; lia| |exact IH]. intros r. destruct (decode_nul (s ++ r) (2 + length s) q) as [D1 D2]; [rewrite octal_in; [exact H1|apply denotes_pos in H; destruct s; [cbn in H; lia|discriminate]]|]. split; [exact D1|cbn [app]; rewrite D2; apply andb_false_r].
  - assert (H1r : forall r, octal_run ds (s ++ r)) by (intros r; unfold octal_run in *; rewrite octal_in; [exact H1|apply denotes_pos in H; destruct s; [cbn in H; lia|discriminate]]). destruct H1 as (Hl & H1). assert (Hs := denotes_pos _ _ _ _ H).
    change (92 :: ds ++ s) with ((92 :: ds) ++ s). destruct strict.
    + intros fuel p r out Hf Ho. destruct (decode_octal ds (s ++ r) 0 q (H1r r)) as [_ D2]. rewrite length_app in Hf. destruct fuel as [|fuel]; [cbn in Hf; lia|]. apply loop_octal; [reflexivity|cbn; lia|exact Hs|exact D2].
    + apply (J (92 :: ds) (utf8_enc (octal_num ds)) s v H); [cbn; lia|reflexivity|pose proof (octal_enc ds (s ++ []) (H1r [])); cbn; lia| |exact IH]. intros r. split; [|reflexivity]. destruct (decode_octal ds (s ++ r) (length (92 :: ds) + length s) q (H1r r)) as [D1 _]. cbn [app]. rewrite D1. cbn [length]. f_equal; lia.
  - pose proof (digits_4 2 ds H1) as Hl. apply (J (92 :: 120 :: ds) (utf8_enc (hex_num ds)) s v H); [cbn; lia|reflexivity|pose proof (utf8_enc_length (hex_num ds)); cbn; lia| |exact IH].
    intros r. split; [|apply andb_false_iff; right; apply octal_no; reflexivity]. pose proof (denotes_pos _ _ _ _ H). cbn [app length]. rewrite Hl. apply decode_hex; [exact H1|lia].
  - pose proof (digits_4 4 ds H1) as Hl. apply (J (92 :: 117 :: ds) (utf8_enc (hex_num ds)) s v H); [cbn; lia|reflexivity|pose proof (utf8_enc_length (hex_num ds)); cbn; lia| |exact IH].
    intros r. split; [|apply andb_false_iff; right; apply octal_no; reflexivity]. cbn [app length]. rewrite Hl. apply decode_unit; [exact H1|exact H2].
  - pose proof (digits_4 4 hs H1) as Hl. pose proof (digits_4 4 ls H2) as Hl2. replace (92 :: 117 :: hs ++ 92 :: 117 :: ls ++ s) with ((92 :: 117 :: hs ++ 92 :: 117 :: ls) ++ s) by (cbn; rewrite <- app_assoc; reflexivity).
    assert (Hw : length (92 :: 117 :: hs ++ 92 :: 117 :: ls) = 12%nat) by (cbn [length]; rewrite length_app; cbn [length]; lia).
    apply (J (92 :: 117 :: hs ++ 92 :: 117 :: ls) (utf8_enc (combine_pair (hex_num hs) (hex_num ls))) s v H); [lia|reflexivity|pose proof (utf8_enc_length (combine_pair (hex_num hs) (hex_num ls))); lia| |exact IH].
    intros r. split; [|apply andb_false_iff; right; apply octal_no; reflexivity]. rewrite Hw. cbn [app]. rewrite <- app_assoc. cbn [app]. pose proof (denotes_pos _ _ _ _ H). apply decode_pair; [assumption..|lia].
  - replace (92 :: 117 :: 123 :: ds ++ 125 :: s) with ((92 :: 117 :: 123 :: ds ++ [125]) ++ s) by (cbn; rewrite <- app_assoc; reflexivity). assert (Hw : length (92 :: 117 :: 123 :: ds ++ [125]) = (4 + length ds)%nat) by (cbn [length]; rewrite length_app; cbn [length]; lia).
    apply (J (92 :: 117 :: 123 :: ds ++ [125]) (utf8_enc (hex_num ds)) s v H); [lia|reflexivity|pose proof (utf8_enc_length (hex_num ds)); lia| |exact IH].
    intros r. split; [|apply andb_false_iff; right; apply octal_no; reflexivity]. rewrite Hw. cbn [app]. rewrite <- app_assoc. cbn [app]. rewrite decode_point by assumption. f_equal; lia.
Qed.

(** C20: a string token has the value that the grammar gives its text.  The lexer
    finds the literal's end, and the bytes decoded into the buffer of the
    token's length are the code points of its characters and escapes; an octal
    escape in strict code is a SyntaxError. *)
Theorem string_literal_value category number_parse malloc_ok bump_ok lx pre q s r v :
  q = 34 \/ q = 39 -> denotes q (strict lx) s v -> code lx = pre ++ (q :: s) ++ r -> bytes (code lx) -> pos (lst lx) = length pre -> consumed (lst lx) = true ->
  exists lx', sv_lexer_next category number_parse malloc_ok lx = Some lx' /\ current lx' = Token TOK_STRING (length pre) (length (q :: s)) false /\
    sv_lexer_str_literal bump_ok lx' = Some (if bump_ok (Z.of_nat (length (q :: s))) then match v with Some v => Ok v | None => octal_error end else oom).
Proof using US.
  intros Hq Hd Hcode Hb Hpos Hc. pose proof (denotes_pos _ _ _ _ Hd) as Hl. unfold sv_lexer_next, sv_next_raw. rewrite Hc. cbn [negb]. rewrite Hcode, Hpos in *.
  assert (Hsol : solid ((q :: s) ++ r)) by (cbn [app]; destruct Hq as [-> | ->]; apply solid_char; reflexivity || lia).
  pose proof (skip_to_token category pre [] ((q :: s) ++ r) ltac:(constructor)) as Hskip. cbn [gap_bytes map concat app length gap_newline existsb] in Hskip. rewrite Nat.add_0_r in Hskip.
  change ((q :: s) ++ r) with (q :: s ++ r) in *. rewrite Hskip; [|apply Forall_app in Hb as [_ Hb]; exact Hb|right; exact Hsol|intros _; destruct Hq as [-> | ->]; apply starts_cons].
  destruct (Nat.leb_spec (length (pre ++ q :: s ++ r)) (length pre)) as [Hn|_]; [rewrite length_app in Hn; cbn in Hn; lia|]. rewrite drop_app_length.
  assert (E : scan_token category number_parse malloc_ok (strict lx) (q :: s ++ r) = option_map (fun '(t, n) => (t, at_least_1 n, @None tvalue)) (scan_string (q :: s ++ r) q)) by (destruct Hq as [-> | ->]; reflexivity).
  rewrite E. unfold scan_string. change (q :: s ++ r) with ([q] ++ s ++ r). rewrite (denotes_scan q (strict lx) s v Hd Hq _ [q] r) by (rewrite length_app; cbn; rewrite length_app; lia). cbn [option_map length Nat.add at_least_1].
  eexists. split; [reflexivity|]. split; [reflexivity|]. unfold sv_lexer_str_literal. cbn [lst with_state tlen toff code strict]. change (at_least_1 (S (length s))) with (S (length s)). change ((S (length s) =? 0)%nat) with false. cbv iota.
  destruct (bump_ok (Z.of_nat (S (length s)))); [|reflexivity]. cbn [negb]. rewrite Hcode, drop_app_length. pose proof (denotes_loop q (strict lx) s v Hd (S (S (length s))) [] r [] ltac:(lia) ltac:(cbn; lia)) as L. cbn [app length Nat.add] in L |- *. rewrite L. destruct v; reflexivity.
Qed.

(** ** Any token fits its buffer *)

(** [utf8proc_encode_char] asks for room for four bytes. *)
Context (encode_room : forall cp, (length (utf8proc_encode_char cp) <= 4)%nat).

Lemma encode_le cp : (length (encode_u32 cp) <= 4)%nat.
Proof using encode_room. apply encode_room. Qed.
Lemma octal_fits t n : (2 <= n)%nat -> is_octal_digit (rd t 1) = true -> is_octal_digit (rd t (n - 1)) = false ->
  (length (decode_octal_escape t).1 <= 2 + (decode_octal_escape t).2)%nat /\ (2 + (decode_octal_escape t).2 <= n)%nat.
Proof using US.
  intros Hn H1 Hlast. unfold decode_octal_escape. assert (H : forall cp, 0 <= cp <= 255 -> (length (encode_u32 cp) <= 2)%nat).
  { intros cp Hcp. rewrite enc_u32 by lia. unfold utf8_enc. destruct (Z.ltb_spec cp 0x80); [cbn; lia|]. destruct (Z.ltb_spec cp 0x800); [cbn; lia|lia]. }
  assert (D : forall k, is_octal_digit (rd t k) = true -> k <> (n - 1)%nat) by (intros k Hk ->; congruence). pose proof (D 1%nat H1). apply octal_range in H1.
  destruct (is_octal_digit (rd t 2)) eqn:E2; [|cbn [fst snd]; split; [apply H; lia|lia]]. pose proof (D 2%nat E2). apply octal_range in E2.
  destruct (is_octal_digit (rd t 3)) eqn:E3; cbn [andb]; [|cbn [fst snd]; split; [specialize (H ((rd t 1 - 48) * 8 + (rd t 2 - 48)) ltac:(lia)); lia|lia]]. pose proof (D 3%nat E3). apply octal_range in E3.
  destruct (Z.leb_spec (((rd t 1 - 48) * 8 + (rd t 2 - 48)) * 8 + (rd t 3 - 48)) 255); cbn [fst snd]; (split; [|lia]); [specialize (H (((rd t 1 - 48) * 8 + (rd t 2 - 48)) * 8 + (rd t 3 - 48)) ltac:(lia))|specialize (H ((rd t 1 - 48) * 8 + (rd t 2 - 48)) ltac:(lia))]; lia.
Qed.
Lemma escape_fits t n q : (2 <= n)%nat -> is_octal_digit (rd t 1) = false \/ (rd t 1 = 48 /\ is_octal_digit (rd t 2) = false) \/ is_octal_digit (rd t (n - 1)) = false ->
  (length (decode_escape t n q).1 <= 2 + (decode_escape t n q).2)%nat /\ (2 + (decode_escape t n q).2 <= n)%nat.
Proof using US encode_room.
  intros Hn Hlast. unfold decode_escape.
  repeat match goal with |- context [if rd t 1 =? ?k then ([_], 0%nat) else _] => destruct (rd t 1 =? k); [cbn; lia|] end.
  destruct ((rd t 1 =? 48) && negb (is_octal_digit (rd t 2))) eqn:E0; [cbn; lia|].
  destruct (is_octal_digit (rd t 1)) eqn:E1; [destruct Hlast as [|[[E48 E]|Hlast]]; [discriminate|rewrite E48, E in E0; discriminate|apply octal_fits; auto]|].
  destruct (rd t 1 =? 120).
  { case_if; [|cbn; lia]. boolprop. unfold decode_hex_escape. pose proof (encode_le ((unhex (rd t 2) .<< 4) .| unhex (rd t 3))). cbn [fst snd]. lia. }
  destruct (rd t 1 =? 117); [|cbn; lia]. case_if; [|case_if; [|cbn; lia]]; boolprop.
  - unfold decode_unicode_braced. set (k := span _ _). case_if; [|cbn; lia]. boolprop. pose proof (encode_le (fold_left push_hex (take k (drop 3 t)) 0)). cbn [fst snd]. lia.
  - unfold decode_unicode_fixed. case_if; boolprop; cbn [fst snd]; split; try lia; etransitivity; try apply encode_le; lia.
Qed.

Lemma str_loop_fits inp tl strict : is_octal_digit (rd inp (tl - 1)) = false -> forall fuel n2 out, (tl - n2 < fuel)%nat -> (n2 < tl)%nat -> (length out <= n2)%nat ->
  exists res, str_loop fuel inp tl strict n2 out = Some res /\ (res = octal_error \/ exists v, res = Ok v /\ (length v < tl)%nat).
Proof using US encode_room.
  intros Hlast. induction fuel as [|fuel IH]; intros n2 out Hf Hn Ho; [lia|]. cbn [str_loop]. destruct (Nat.ltb_spec (n2 + 2) tl); [|eexists; split; [reflexivity|right; exists out; split; [reflexivity|lia]]].
  destruct (rd inp (S n2) =? 92).
  - destruct (strict && is_octal_escape (drop (S n2) inp)); [eexists; split; [reflexivity|left; reflexivity]|]. destruct (escape_fits (drop (S n2) inp) (tl - S n2) (rd inp 0)) as [F1 F2]; [lia|right; right; rewrite rd_drop; replace (S n2 + (tl - S n2 - 1))%nat with (tl - 1)%nat by lia; exact Hlast|].
    destruct (decode_escape (drop (S n2) inp) (tl - S n2) (rd inp 0)) as [w extra]. cbn [fst snd] in *. rewrite put_some by lia. apply IH; rewrite ?length_app; lia.
  - rewrite put_some by (cbn; lia). apply IH; rewrite ?length_app; cbn; lia.
Qed.

Lemma string_loop_quote fuel : forall s q i n, string_loop fuel s q i = Some (TOK_STRING, n) -> (1 <= n)%nat /\ rd s (n - 1) = q.
Proof using.
  induction fuel as [|fuel IH]; intros s q i n; [discriminate|]. cbn [string_loop]. destruct (length s <=? i)%nat; [discriminate|]. destruct (memchr s i q) as [j|] eqn:E; [|discriminate].
  assert (Hj : rd s j = q).
  { unfold memchr in E. set (k := span (fun b => negb (b =? q)) (drop i s)) in *. destruct (Nat.ltb_spec (i + k) (length s)) as [Hk|]; [|discriminate]. injection E as <-.
    rewrite <- rd_drop. assert (Hlt : (k < length (drop i s))%nat) by (rewrite length_drop; lia). revert Hlt. unfold k. generalize (drop i s). clear. intros l. induction l as [|c l IH]; cbn [span length]; intros H; [lia|].
    destruct (Z.eqb_spec c q) as [->|Hc]; cbn [negb] in *; [reflexivity|]. apply IH. lia. }
  assert (Hd : forall m, Some (TOK_STRING, S j) = Some (TOK_STRING, m) -> (1 <= m)%nat /\ rd s (m - 1) = q) by (intros m [= <-]; split; [lia|replace (S j - 1)%nat with j by lia; exact Hj]).
  destruct (memchr s i 92) as [b|]; [|intros H; apply Hd, H]. destruct (j <? b)%nat; [intros H; apply Hd, H|]. destruct (length s <=? b + 1)%nat; [discriminate|]. destruct (length s <? b + escape_skip s b)%nat; [discriminate|]. apply IH.
Qed.

(** A string token starts at a quote. *)
Lemma not_string t : t = TOK_ERR \/ 50 <= t -> t <> TOK_STRING.
Proof using. unfold TOK_ERR, TOK_STRING. lia. Qed.
Lemma parseident_tok category s t n : parseident category s = Some (t, n) -> t <> TOK_STRING.
Proof using.
  assert (Hslow : forall s tl t n, ident_slow category s tl = Some (t, n) -> t <> TOK_STRING).
  { intros s0 tl t0 n0. unfold ident_slow. destruct (ident_loop _ _ _ _ _) as [[m []]|]; [|intros [= <- _]; apply not_string; right; apply keyword_least|discriminate].
    destruct (decode_ident_escapes _ _); [|discriminate]. intros [= <- _]. case_if; discriminate. }
  unfold parseident. intros H. repeat match type of H with
  | Some (sv_parsekeyword _, _) = Some _ => injection H as <- _; apply not_string; right; apply keyword_least
  | Some _ = Some _ => injection H as <- _; discriminate
  | ident_slow _ _ _ = _ => eapply Hslow, H
  | None = _ => discriminate H
  | context [if ?b then _ else _] => destruct b
  | context [match ?x with _ => _ end] => destruct x as [[]|]
  end.
Qed.
Lemma string_token category number_parse malloc_ok strict s t n v : scan_token category number_parse malloc_ok strict s = Some (t, n, v) -> t = TOK_STRING ->
  exists m, scan_string s (rd s 0) = Some (TOK_STRING, m) /\ n = at_least_1 m /\ (rd s 0 = 34 \/ rd s 0 = 39).
Proof using.
  intros H ->. unfold scan_token in H. destruct ((rd s 0 <? 128) && negb (single_char_tok (rd s 0) =? 0)).
  { injection H as H _ _. unfold single_char_tok in H. revert H. case_ifs; discriminate. }
  destruct (IS_IDENT1 (rd s 0)). { destruct (parseident category s) as [[t n0]|] eqn:E; [|discriminate]. injection H as -> _ _. apply parseident_tok in E. contradiction. }
  destruct (IS_DIGIT (rd s 0)).
  { exfalso. revert H. unfold parse_number, decimal_number, integer_number, finish_number. case_ifs; try discriminate; destruct (parse_decimal_literal number_parse malloc_ok s) as [m []]; case_ifs; discriminate. }
  destruct ((rd s 0 =? 34) || (rd s 0 =? 39)) eqn:Eq.
  { destruct (scan_string s (rd s 0)) as [[t m]|]; [|discriminate]. injection H as -> <- _. exists m. splits; auto. apply orb_true_iff in Eq as [Eq|Eq]; apply Z.eqb_eq in Eq; auto. }
  exfalso. destruct (rd s 0 =? 96).
  { unfold scan_template in H. destruct (skip_template_literal s 0) as [[]|]; [|discriminate]. revert H. case_if; discriminate. }
  assert (Ho : forall m v0, option_map (fun '(t, n) => (t, at_least_1 match n with Some n => n | None => m end, v0)) (parseident category s) = Some (TOK_STRING, n, v) -> False).
  { intros m v0 Hm. destruct (parseident category s) as [[t k]|] eqn:E; [|discriminate]. injection Hm as -> _ _. apply parseident_tok in E. contradiction. }
  destruct (parse_operator number_parse malloc_ok s) as [[[t k] w]|] eqn:E; [|eapply Ho, H]. destruct (t =? 0) eqn:Et; [eapply Ho, H|]. injection H as -> _ _. revert E. unfold parse_operator.
  repeat (case_if; try discriminate). destruct (parse_decimal_literal number_parse malloc_ok s) as [m []]; case_ifs; discriminate.
Qed.

(** The octal escapes that remain in a template are [\0] before no digit. *)
Lemma template_octal t n : template_escape_ok t n = true -> (2 <= n)%nat -> (n = 2%nat -> is_octal_digit (rd t 2) = false) ->
  is_octal_digit (rd t 1) = false \/ (rd t 1 = 48 /\ is_octal_digit (rd t 2) = false) \/ is_octal_digit (rd t (n - 1)) = false.
Proof using.
  intros H Hn H2. destruct (is_octal_digit (rd t 1)) eqn:E; [right; left|auto]. apply octal_range in E. unfold template_escape_ok in H.
  destruct ((49 <=? rd t 1) && (rd t 1 <=? 57)) eqn:E1; [discriminate|]. apply andb_false_iff in E1. assert (E48 : rd t 1 = 48) by (destruct E1 as [E1|E1]; apply Z.leb_gt in E1; lia). split; [exact E48|].
  destruct (Nat.eq_dec n 2) as [|Hn2]; [auto|]. rewrite E48 in H. destruct (Nat.ltb_spec 2 n); [|lia]. change (48 =? 48) with true in H. cbn [andb] in H. unfold is_octal_digit. destruct (Z.leb_spec 48 (rd t 2)), (Z.leb_spec (rd t 2) 57), (Z.leb_spec (rd t 2) 55); try reflexivity; try lia; discriminate.
Qed.
Lemma template_loop_fits inp start stop : is_octal_digit (rd inp stop) = false -> forall fuel i out, (start <= i <= stop)%nat -> (stop - i < fuel)%nat -> (start + length out <= i)%nat ->
  exists res, template_segment_loop fuel inp stop (stop - start) i out = Some res /\ forall v, res = Some v -> (length v <= stop - start)%nat.
Proof using US encode_room.
  intros Hstop. induction fuel as [|fuel IH]; intros i out Hi Hf Ho; [lia|]. cbn [template_segment_loop]. destruct (Nat.ltb_spec i stop); [|eexists; split; [reflexivity|intros v [= <-]; lia]].
  destruct (rd inp i =? 13); [rewrite put_some by (cbn; lia); destruct (Nat.ltb_spec (i + 1) stop); cbn [andb]; [destruct (rd inp (i + 1) =? 10)|]; apply IH; rewrite ?length_app; cbn; lia|].
  destruct (negb (rd inp i =? 92) || (stop <=? i + 1)%nat) eqn:E; [rewrite put_some by (cbn; lia); apply IH; rewrite ?length_app; cbn; lia|]. boolprop.
  destruct (template_escape_ok (drop i inp) (stop - i)) eqn:Et; cbn [negb]; [|eexists; split; [reflexivity|discriminate]].
  destruct (escape_fits (drop i inp) (stop - i) 96) as [F1 F2]; [lia|apply template_octal; [exact Et|lia|intros E2; rewrite rd_drop; replace (i + 2)%nat with stop by lia; exact Hstop]|].
  destruct (decode_escape (drop i inp) (stop - i) 96) as [w adv]. cbn [fst snd] in *. rewrite put_some by lia. apply IH; rewrite ?length_app; lia.
Qed.
(** The cooked value of a template segment, which is never longer than its text,
    stays in its buffer, whatever the segment holds. *)
Theorem template_segment_fits bump_ok inp start stop : is_octal_digit (rd inp stop) = false -> bump_ok (Z.of_nat (stop - start)) = true ->
  exists res, decode_template_segment bump_ok inp start stop = Some (Ok res) /\ forall v, res = Some v -> (length v <= stop - start)%nat.
Proof using US encode_room.
  intros Hs Hb. unfold decode_template_segment. destruct (Nat.ltb_spec start stop) as [H|H]; [|exists (Some []); split; [reflexivity|intros v [= <-]; cbn; lia]].
  destruct (Nat.eqb_spec (stop - start) 0); [lia|]. rewrite Hb. cbn [negb]. destruct (template_loop_fits inp start stop Hs (S (stop - start)) start []) as (res & -> & Hr); [lia|lia|cbn; lia|]. exists res. split; [reflexivity|exact Hr].
Qed.

(** The value of a string token never leaves the buffer of the token's
    length, whatever the literal holds: decoding it ends, with a shorter value
    or with the error for octal escapes. *)
Theorem string_literal_fits category number_parse malloc_ok bump_ok lx lx' :
  sv_lexer_next category number_parse malloc_ok lx = Some lx' -> consumed (lst lx) = true -> tok (lst lx') = TOK_STRING -> bump_ok (Z.of_nat (tlen (lst lx'))) = true ->
  exists res, sv_lexer_str_literal bump_ok lx' = Some res /\ (res = octal_error \/ exists v, res = Ok v /\ (length v < tlen (lst lx'))%nat).
Proof using US encode_room.
  unfold sv_lexer_next, sv_next_raw. intros H Hc Ht Hb. rewrite Hc in H. cbn [negb] in H. destruct (sv_skiptonext category (code lx) (pos (lst lx))) as [[p nl]|]; [|discriminate].
  destruct (length (code lx) <=? p)%nat; [injection H as <-; discriminate Ht|]. destruct (scan_token category number_parse malloc_ok (strict lx) (drop p (code lx))) as [[[t n] v]|] eqn:E; [|discriminate].
  injection H as <-. cbn [lst tok tlen with_state] in *. apply string_token in E as (m & E & -> & Hq); [|exact Ht]. apply string_loop_quote in E as [Hm Hr].
  unfold sv_lexer_str_literal. cbn [lst tlen toff with_state code strict]. assert (Em : at_least_1 m = m) by (unfold at_least_1; destruct (Nat.eqb_spec m 0); [lia|reflexivity]). rewrite Em in *. destruct (Nat.eqb_spec m 0); [lia|]. rewrite Hb. cbn [negb].
  apply str_loop_fits; [|lia|lia|cbn; lia]. rewrite Hr. destruct Hq as [-> | ->]; reflexivity.
Qed.
End Decoding.

(** ** Identifiers *)

Section Identifiers.
Context `{U : Utf8proc}.

Fixpoint arena_loop (fuel : nat) (src : list Z) (cap i : nat) (out : list Z) : option (list Z) :=
  match fuel with
  | O => None
  | S fuel =>
      if (i <? length src)%nat then
        let one out := match put cap out [rd src i] with Some out => arena_loop fuel src cap (S i) out | None => None end in
        if (rd src i =? 92) && (i + 1 <? length src)%nat && (rd src (i + 1) =? 117) then
          let '(w, adv) := decode_escape (drop i src) (length src - i) 0 in
          match put cap out w with
          | Some out => if (0 <? adv)%nat then arena_loop fuel src cap (i + 2 + adv) out else one out
          | None => None
          end
        else one out
      else match put cap out [0] with Some _ => Some out | None => None end
  end.
Definition decode_ident_into_arena (bump_ok : Z -> bool) (src : list Z) : option (list Z) :=
  if (length src =? 0)%nat || negb (existsb (Z.eqb 92) src) then Some src
  else if negb (bump_ok (zlen src + 1)) then Some src
  else arena_loop (S (length src)) src (length src + 1) 0 [].

Context {US : Utf8procSpec U}.

(** A unicode escape and its code point, as the lexer computes it. *)
Definition escape_cp (ds : list Z) : Z := fold_left push_hex ds 0.
Inductive escape_text : list Z -> Z -> Prop :=
| et_four ds : hex_digits 4 ds -> escape_text (92 :: 117 :: ds) (escape_cp ds)
| et_point ds : ds <> [] -> forallb is_xdigit ds = true -> escape_cp ds <= 0x10FFFF -> escape_text (92 :: 117 :: 123 :: ds ++ [125]) (escape_cp ds).
(** The name a source text spells. *)
Inductive ident_text : list Z -> list Z -> Prop :=
| it_nil : ident_text [] []
| it_byte c s v : c <> 92 -> ident_text s v -> ident_text (c :: s) (c :: v)
| it_escape w cp s v : escape_text w cp -> is_scalar cp = true -> ident_text s v -> ident_text (w ++ s) (utf8_enc cp ++ v).

Lemma push_lexer ds : forallb is_xdigit ds = true -> forall a, fold_left (fun cp c => u32 (cp .<< 4) .| hex_of c) ds a = fold_left push_hex ds a.
Proof using.
  induction ds as [|d ds IH]; [reflexivity|]. cbn [forallb fold_left]. intros H a. apply andb_true_iff in H as [Hd H]. rewrite IH by exact H. unfold push_hex at 3. repeat f_equal.
  pose proof (xdigit_byte d Hd) as Hb. by_bytes d (fun c => implb (is_xdigit c) (unhex c =? hex_of c)). rewrite Hd in Hbyte. cbn in Hbyte. boolprop. congruence.
Qed.
Lemma escape_nonneg ds : forallb is_xdigit ds = true -> 0 <= escape_cp ds.
Proof using. intros H. unfold escape_cp. rewrite <- push_lexer by exact H. apply hex_fold_nonneg; [exact H|lia]. Qed.
Lemma text_length w cp : escape_text w cp -> (4 <= length w)%nat /\ (exists w', w = 92 :: 117 :: w') /\ 0 <= cp.
Proof using.
  intros [ds [Hl Hx]|ds Hne Hx _]; cbn [length]; rewrite ?length_app; (split; [destruct ds; [contradiction || discriminate|cbn [length] in *; lia]|split; [eexists; reflexivity|apply escape_nonneg, Hx]]).
Qed.
Lemma rd_at (p t : list Z) k : rd (p ++ t) (length p + k) = rd t k.
Proof using. unfold rd. rewrite app_nth2_plus. reflexivity. Qed.

(** What the lexer accepts as an escape is one, and the other way round. *)
Lemma parse_escape_inv s p n cp : parse_unicode_escape s p = Some (n, cp) -> escape_text (take n (drop p s)) cp /\ (p + n <= length s)%nat.
Proof using.
  unfold parse_unicode_escape. destruct (Nat.leb_spec (length s) (p + 3)); [discriminate|]. destruct (negb (rd s p =? 92) || negb (rd s (p + 1) =? 117)) eqn:E0; [discriminate|]. boolprop.
  assert (Es : drop p s = 92 :: 117 :: drop (p + 2) s) by (rewrite (drop_cons_rd s p), (drop_cons_rd s (S p)) by lia; replace (S p) with (p + 1)%nat by lia; replace (S (p + 1)) with (p + 2)%nat by lia; congruence).
  destruct (Z.eqb_spec (rd s (p + 2)) 123) as [E2|E2].
  - set (k := span is_xdigit (drop (p + 3) s)). destruct ((k =? 0)%nat || (length s <=? p + 3 + k)%nat || negb (rd s (p + 3 + k) =? 125) || (0x10FFFF <? _)) eqn:E; [discriminate|]. boolprop. intros [= <- <-]. split; [|lia].
    assert (Ek : take k (drop (p + 3) s) ++ [125] = take (S k) (drop (p + 3) s)) by (rewrite <- (take_S_r _ k 125); [reflexivity|rewrite lookup_drop; replace 125 with (rd s (p + 3 + k)) by congruence; unfold rd; rewrite nth_lookup; destruct (lookup_lt_is_Some_2 s (p + 3 + k)%nat ltac:(lia)) as [x ->]; reflexivity]).
    replace (p + 3 + k - p + 1)%nat with (S (S (S (S k)))) by lia. rewrite Es, (drop_cons_rd s (p + 2)) by lia. replace (S (p + 2)) with (p + 3)%nat by lia. rewrite E2. cbn [take firstn]. fold (take (S k) (drop (p + 3) s)). rewrite <- Ek.
    assert (Hx : forallb is_xdigit (take k (drop (p + 3) s)) = true).
    { unfold k. generalize (drop (p + 3) s). intros l. induction l as [|c l IH]; [reflexivity|]. cbn [span]. destruct (is_xdigit c) eqn:Ec; [|reflexivity]. cbn. rewrite Ec. exact IH. }
    rewrite push_lexer in * by exact Hx. apply et_point; [|exact Hx|unfold escape_cp; lia]. intros Hn. apply (f_equal length) in Hn. rewrite length_take, length_drop in Hn. cbn in Hn. lia.
  - destruct (Nat.leb_spec (length s) (p + 5)); [discriminate|]. destruct (forallb is_xdigit (take 4 (drop (p + 2) s))) eqn:Ex; [|discriminate]. cbn [negb]. intros [= <- <-]. split; [|lia]. rewrite push_lexer by exact Ex. rewrite Es. change (take 6 (92 :: 117 :: drop (p + 2) s)) with (92 :: 117 :: take 4 (drop (p + 2) s)).
    apply et_four. split; [rewrite length_take, length_drop; lia|exact Ex].
Qed.
Lemma parse_escape_text w cp p r : escape_text w cp -> parse_unicode_escape (p ++ w ++ r) (length p) = Some (length w, cp).
Proof using.
  intros H. destruct (text_length w cp H) as (Hl & _). unfold parse_unicode_escape. destruct (Nat.leb_spec (length (p ++ w ++ r)) (length p + 3)) as [Hn|_]; [rewrite !length_app in Hn; lia|]. replace (rd (p ++ w ++ r) (length p)) with (rd (w ++ r) 0) by (rewrite <- (Nat.add_0_r (length p)), rd_at; reflexivity). rewrite !rd_at. rewrite !drop_app_add.
  destruct H as [ds H4|ds Hne Hx Hc].
  - destruct (four ds H4) as (a & b & c & d & ->). destruct H4 as [_ Hx]. cbn [app]. change (rd (92 :: 117 :: a :: b :: c :: d :: r) 0) with 92. change (rd (92 :: 117 :: a :: b :: c :: d :: r) 1) with 117. change (rd (92 :: 117 :: a :: b :: c :: d :: r) 2) with a. cbn [negb orb]. change (negb (92 =? 92) || negb (117 =? 117)) with false. cbv iota.
    assert (Ha : is_xdigit a = true) by (cbn [forallb] in Hx; boolprop; assumption). apply xdigit_brace in Ha as [Ha _]. apply Z.eqb_neq in Ha. rewrite Ha. destruct (Nat.leb_spec (length (p ++ 92 :: 117 :: a :: b :: c :: d :: r)) (length p + 5)) as [Hn|_]; [rewrite length_app in Hn; cbn in Hn; lia|].
    change (take 4 (drop 2 (92 :: 117 :: a :: b :: c :: d :: r))) with [a; b; c; d]. rewrite Hx. cbn [negb]. rewrite push_lexer by exact Hx. reflexivity.
  - cbn [app]. rewrite <- app_assoc. cbn [app]. set (t := 92 :: 117 :: 123 :: ds ++ 125 :: r). change (rd t 0) with 92. change (rd t 1) with 117. change (rd t 2) with 123. change (negb (92 =? 92) || negb (117 =? 117)) with false. change (123 =? 123) with true. cbv iota.
    change (drop 3 t) with (ds ++ 125 :: r). rewrite span_stop by (auto; reflexivity). rewrite take_app_length, push_lexer by exact Hx. fold (escape_cp ds).
    replace (rd (p ++ t) (length p + 3 + length ds)) with 125 by (rewrite <- Nat.add_assoc, rd_at; unfold t; symmetry; apply (rd_app_r (92 :: 117 :: 123 :: ds))).
    destruct (Nat.eqb_spec (length ds) 0) as [Hz|_]; [destruct ds; [contradiction|discriminate]|]. destruct (Nat.leb_spec (length (p ++ t)) (length p + 3 + length ds)) as [Hn|_]; [unfold t in Hn; rewrite length_app in Hn; cbn [length] in Hn; rewrite length_app in Hn; cbn in Hn; lia|].
    destruct (Z.ltb_spec 0x10FFFF (escape_cp ds)); [lia|]. change (125 =? 125) with true. cbn [negb orb]. do 2 f_equal. cbn [length]. rewrite length_app. cbn [length]. lia.
Qed.

Lemma hex_fold_lt ds : forallb is_xdigit ds = true -> forall a, 0 <= a -> fold_left (fun n c => n * 16 + hex_value c) ds a < (a + 1) * 16 ^ Z.of_nat (length ds).
Proof using.
  induction ds as [|d ds IH]; cbn [forallb fold_left length]; intros H a Ha; [cbn; lia|]. apply andb_true_iff in H as [Hd H]. destruct (unhex_value d Hd) as [_ Hr]. specialize (IH H (a * 16 + hex_value d) ltac:(lia)).
  rewrite Nat2Z.inj_succ, Z.pow_succ_r by lia. nia.
Qed.
Lemma text_range w cp : escape_text w cp -> 0 <= cp < 0x110000.
Proof using.
  intros H. destruct (text_length w cp H) as (_ & _ & H0). destruct H as [ds [Hl Hx]|ds _ _ Hc]; [|lia]. pose proof (hex_fold_lt ds Hx 0 ltac:(lia)) as Hlt. rewrite Hl in Hlt. change ((0 + 1) * 16 ^ Z.of_nat 4) with 65536 in Hlt.
  unfold escape_cp in *. rewrite push_hex_fold in * by (auto; lia). lia.
Qed.
Lemma decode_text w cp s : escape_text w cp -> is_scalar cp = true -> decode_escape (w ++ s) (length w + length s) 0 = (utf8_enc cp, (length w - 2)%nat).
Proof using US.
  intros H Hs. pose proof (text_range w cp H) as Hr. destruct H as [ds Hd|ds Hne Hx Hc].
  - pose proof (hex_fold_lt ds (proj2 Hd) 0 ltac:(lia)) as Hlt. rewrite (proj1 Hd) in Hlt. change ((0 + 1) * 16 ^ Z.of_nat 4) with 65536 in Hlt.
    assert (E : escape_cp ds = hex_num ds) by (apply push_hex_fold; [apply Hd|lia|lia]). rewrite E in *. cbn [app length]. rewrite (digits_4 4 ds Hd). rewrite <- (app_nil_r s) at 1. apply decode_unit; [exact Hd|].
    intros [Hh _]. unfold is_high in Hh. unfold is_scalar in Hs. boolprop. apply orb_true_iff in Hs as [Hs|Hs]; boolprop; lia.
  - cbn [app length]. rewrite <- app_assoc, length_app. cbn [app length]. rewrite <- (app_nil_r s) at 1. replace (S (S (S (length ds + 1))) + length s)%nat with (4 + length ds + length s)%nat by lia. rewrite decode_braced by exact Hx. rewrite enc_u32 by exact Hr. f_equal. lia.
Qed.

Lemma arena_text s v : ident_text s v -> forall fuel p out, (length s < fuel)%nat -> (length out <= length p)%nat ->
  arena_loop fuel (p ++ s) (length (p ++ s) + 1) (length p) out = Some (out ++ v).
Proof using US.
  induction 1 as [|c s v Hc _ IH|w cp s v Hw Hs _ IH]; intros fuel p out Hf Ho; (destruct fuel as [|fuel]; [lia|]); cbn [arena_loop].
  - rewrite !app_nil_r. destruct (Nat.ltb_spec (length p) (length p)); [lia|]. rewrite put_some by (cbn; lia). reflexivity.
  - replace (rd (p ++ c :: s) (length p)) with c by (rewrite <- (Nat.add_0_r (length p)), rd_at; reflexivity). apply Z.eqb_neq in Hc. rewrite Hc. cbn [andb]. destruct (Nat.ltb_spec (length p) (length (p ++ c :: s))) as [_|Hn]; [|rewrite length_app in Hn; cbn in Hn; lia].
    rewrite put_some by (rewrite !length_app; cbn; lia). cbn [length] in Hf. specialize (IH fuel (p ++ [c]) (out ++ [c]) ltac:(lia) ltac:(rewrite !length_app; cbn; lia)). rewrite <- !app_assoc in IH. cbn [app] in IH. rewrite <- IH. f_equal. rewrite length_app. cbn. lia.
  - destruct (text_length w cp Hw) as (Hl & (w' & E) & _). rewrite length_app in Hf. destruct (Nat.ltb_spec (length p) (length (p ++ w ++ s))) as [_|Hn]; [|rewrite !length_app in Hn; lia].
    replace (rd (p ++ w ++ s) (length p)) with 92 by (rewrite <- (Nat.add_0_r (length p)), rd_at, E; reflexivity). replace (rd (p ++ w ++ s) (length p + 1)) with 117 by (rewrite rd_at, E; reflexivity). change (92 =? 92) with true. change (117 =? 117) with true.
    destruct (Nat.ltb_spec (length p + 1) (length (p ++ w ++ s))) as [_|Hn]; [|rewrite !length_app in Hn; lia]. cbn [andb]. rewrite drop_app_length. replace (length (p ++ w ++ s) - length p)%nat with (length w + length s)%nat by (rewrite !length_app; lia).
    rewrite (decode_text w cp s Hw Hs). pose proof (utf8_enc_length cp). rewrite put_some by (rewrite !length_app; lia). destruct (Nat.ltb_spec 0 (length w - 2)); [|lia].
    specialize (IH fuel (p ++ w) (out ++ utf8_enc cp) ltac:(lia) ltac:(rewrite !length_app; lia)). rewrite <- !app_assoc in IH. rewrite <- IH. f_equal. rewrite length_app. lia.
Qed.
Lemma lexer_text s v : ident_text s v -> forall fuel p out dstlen, (length s < fuel)%nat -> (length out <= length p)%nat -> (length (p ++ s) + 4 < dstlen)%nat ->
  decode_ident_loop fuel (p ++ s) (length p) out dstlen = Some (out ++ v).
Proof using US.
  induction 1 as [|c s v Hc _ IH|w cp s v Hw Hs _ IH]; intros fuel p out dl Hf Ho Hd; (destruct fuel as [|fuel]; [lia|]); cbn [decode_ident_loop].
  - rewrite !app_nil_r in *. destruct (Nat.ltb_spec (length p) (length p)); [lia|]. cbn [andb]. destruct (Nat.ltb_spec (length out) dl); [reflexivity|lia].
  - assert (E : parse_unicode_escape (p ++ c :: s) (length p) = None).
    { unfold parse_unicode_escape. case_if; [reflexivity|]. replace (rd (p ++ c :: s) (length p)) with c by (rewrite <- (Nat.add_0_r (length p)), rd_at; reflexivity). apply Z.eqb_neq in Hc. rewrite Hc. reflexivity. }
    rewrite E. rewrite length_app in Hd. cbn [length] in *. destruct (Nat.ltb_spec (length p) (length (p ++ c :: s))) as [_|Hn]; [|rewrite length_app in Hn; cbn in Hn; lia]. destruct (Nat.ltb_spec (length out + 4) dl); [|lia]. cbn [andb].
    replace (rd (p ++ c :: s) (length p)) with c by (rewrite <- (Nat.add_0_r (length p)), rd_at; reflexivity). specialize (IH fuel (p ++ [c]) (out ++ [c]) dl ltac:(lia) ltac:(rewrite !length_app; cbn; lia) ltac:(rewrite !length_app; cbn; lia)). rewrite <- !app_assoc in IH. cbn [app] in IH. rewrite <- IH. f_equal. rewrite length_app. cbn. lia.
  - destruct (text_length w cp Hw) as (Hl & _). rewrite (parse_escape_text w cp p s Hw). rewrite !length_app in *. destruct (Nat.ltb_spec (length p) (length p + (length w + length s))); [|lia]. destruct (Nat.ltb_spec (length out + 4) dl); [|lia]. cbn [andb].
    unfold utf8_encode. rewrite encode_char_spec by (eapply text_range, Hw). pose proof (utf8_enc_length cp). specialize (IH fuel (p ++ w) (out ++ utf8_enc cp) dl ltac:(lia) ltac:(rewrite !length_app; lia) ltac:(rewrite !length_app; lia)). rewrite <- !app_assoc in IH. rewrite <- IH. f_equal. rewrite length_app. lia.
Qed.
Lemma plain_text s v : ident_text s v -> existsb (Z.eqb 92) s = false -> v = s.
Proof using.
  induction 1 as [|c s v _ _ IH|w cp s v Hw _ _ IH]; cbn [existsb]; intros H; [reflexivity|boolprop; rewrite IH by assumption; reflexivity|].
  destruct (text_length w cp Hw) as (_ & (w' & ->) & _). discriminate.
Qed.

(** Surrogates are no letters. *)
Context (category : Z -> utf8proc_category_t) (surrogates : forall cp, 0xD800 <= cp <= 0xDFFF -> category cp = CATEGORY_OTHER).

Lemma continue_scalar cp : 0 <= cp < 0x110000 -> is_unicode_ident_continue category cp = true -> is_scalar cp = true.
Proof using surrogates.
  intros Hr H. unfold is_scalar. apply orb_true_iff. rewrite !andb_true_iff, !Z.leb_le, !Z.ltb_lt. destruct (Z.lt_ge_cases cp 0xD800) as [|H1]; [lia|]. destruct (Z.le_gt_cases 0xE000 cp) as [|H2]; [lia|]. exfalso. revert H.
  unfold is_unicode_ident_continue, is_unicode_id_continue, is_unicode_id_start. destruct (Z.ltb_spec cp 128); [lia|]. rewrite surrogates by lia. destruct (Z.eqb_spec cp 0x2E2F); [lia|]. destruct (Z.eqb_spec cp 0x200C); [lia|]. destruct (Z.eqb_spec cp 0x200D); [lia|]. discriminate.
Qed.
Lemma begin_continue cp : is_unicode_ident_begin category cp = true -> is_unicode_ident_continue category cp = true.
Proof using.
  unfold is_unicode_ident_begin, is_unicode_ident_continue. destruct (Z.ltb_spec cp 128); [|unfold is_unicode_id_continue; intros ->; reflexivity].
  unfold has_type. rewrite Z.land_lor_distr_r. intros H1. apply negb_true_iff, Z.eqb_neq in H1. apply negb_true_iff, Z.eqb_neq. intros H2. apply Z.lor_eq_0_iff in H2. tauto.
Qed.
Lemma text_bytes w s v : Forall (fun c => c <> 92) w -> ident_text s v -> ident_text (w ++ s) (w ++ v).
Proof using. induction 1 as [|c w Hc _ IH]; intros Hs; [exact Hs|]. cbn [app]. constructor; [exact Hc|apply IH, Hs]. Qed.
Lemma enc_plain cp : 0x80 <= cp -> Forall (fun c => c <> 92) (utf8_enc cp).
Proof using. intros H. unfold utf8_enc. destruct (Z.ltb_spec cp 0x80); [lia|]. case_ifs; repeat constructor; Z.to_euclidean_division_equations; lia. Qed.
Lemma enc_head l n cp : bytes l -> utf8proc_iterate l = Some (n, cp) -> 128 <= rd l 0 -> take n l = utf8_enc cp /\ n = length (utf8_enc cp) /\ 0x80 <= cp /\ (n <= length l)%nat.
Proof using US.
  intros Hb Hi H. apply iterate_spec in Hi as (Hs & Hn & Ht); [|exact Hb]. pose proof (utf8_enc_length cp) as He. assert (Hl : (n <= length l)%nat) by (apply (f_equal length) in Ht; rewrite length_take in Ht; lia). splits; auto.
  unfold utf8_enc in Ht. destruct (Z.ltb_spec cp 0x80); [|lia]. destruct l as [|c l]; [destruct n; discriminate|]. destruct n as [|n]; [discriminate|]. cbn in Ht, H. injection Ht as -> _. lia.
Qed.
Lemma take_split (l : list Z) i k n : (i + k <= n)%nat -> take (n - i) (drop i l) = take k (drop i l) ++ take (n - (i + k)) (drop (i + k) l).
Proof using. intros H. replace (n - i)%nat with (k + (n - (i + k)))%nat by lia. rewrite <- (take_take_drop (drop i l)), drop_drop. reflexivity. Qed.
Lemma byte_text s i n v : (i < length s)%nat -> (S i <= n)%nat -> rd s i <> 92 -> ident_text (take (n - S i) (drop (S i) s)) v -> ident_text (take (n - i) (drop i s)) (rd s i :: v).
Proof using.
  intros Hi Hn Hc H. rewrite (take_split s i 1 n) by lia. rewrite Nat.add_1_r. rewrite (drop_cons_rd s i) at 1 by exact Hi. cbn [take firstn app]. constructor; [exact Hc|exact H].
Qed.

Lemma ident_loop_text fuel : forall s i h n h', bytes s -> (i <= length s)%nat -> ident_loop category fuel s i h = Some (n, h') -> (i <= n <= length s)%nat /\ exists v, ident_text (take (n - i) (drop i s)) v.
Proof using US surrogates.
  induction fuel as [|fuel IH]; intros s i h n h' Hb Hi; [discriminate|]. cbn [ident_loop]. assert (Hstop : forall m k, Some (i, h) = Some (m, k) -> (i <= m <= length s)%nat /\ exists v, ident_text (take (m - i) (drop i s)) v).
  { intros m k [= <- _]. split; [lia|]. rewrite Nat.sub_diag. exists []. constructor. }
  destruct (Nat.leb_spec (length s) i); [apply Hstop|]. destruct (Z.eqb_spec (rd s i) 92) as [E|E].
  - destruct (parse_unicode_escape s i) as [[el cp]|] eqn:Ep; [|apply Hstop]. destruct (is_unicode_ident_continue category cp) eqn:Ec; [|apply Hstop]. intros Hl. destruct (parse_escape_inv s i el cp Ep) as [Hw Hlen].
    apply IH in Hl as [Hr [v Hv]]; [|exact Hb|lia]. split; [lia|]. rewrite (take_split s i el n) by lia. exists (utf8_enc cp ++ v). apply it_escape; [exact Hw|apply continue_scalar; [eapply text_range, Hw|exact Ec]|exact Hv].
  - destruct (Z.ltb_spec (rd s i) 128).
    + destruct (is_ident_continue (rd s i)); [|apply Hstop]. intros Hl. apply IH in Hl as [Hr [v Hv]]; [|exact Hb|lia]. split; [lia|]. eexists. apply byte_text; [assumption|lia|exact E|exact Hv].
    + destruct (utf8proc_iterate (drop i s)) as [[m cp]|] eqn:Ei; [|apply Hstop]. destruct (is_unicode_id_continue category cp) eqn:Ec; [|apply Hstop]. intros Hl. destruct (enc_head _ _ _ (Forall_drop _ _ _ Hb) Ei) as (Ht & Hm & Hcp & Hle); [rewrite rd_drop, Nat.add_0_r; exact H0|].
      rewrite length_drop in Hle. apply IH in Hl as [Hr [v Hv]]; [|exact Hb|lia]. split; [lia|]. rewrite (take_split s i m n) by lia. rewrite Ht. exists (utf8_enc cp ++ v). apply text_bytes; [apply enc_plain, Hcp|exact Hv].
Qed.
Lemma ident_slow_text s i t n w v : bytes s -> (i <= length s)%nat -> ident_slow category s i = Some (t, Some n) -> take i s = w -> (forall s' v', ident_text s' v' -> ident_text (w ++ s') (v ++ v')) -> exists name, ident_text (take n s) name.
Proof using US surrogates.
  intros Hb Hi H Hw Hv. unfold ident_slow in H. destruct (ident_loop category (S (length s)) s i (rd s 0 =? 92)) as [[m h]|] eqn:E; [|discriminate]. apply ident_loop_text in E as [Hr [v' Hv']]; [|exact Hb|exact Hi].
  assert (Hm : m = n) by (destruct h; [destruct (decode_ident_escapes (take m s) 256); [|discriminate]; injection H as _ ->; reflexivity|injection H as _ ->; reflexivity]). subst m. exists (v ++ v').
  replace (take n s) with (w ++ take (n - i) (drop i s)) by (rewrite <- Hw, take_take_drop; f_equal; lia). apply Hv, Hv'.
Qed.
Lemma parseident_text s t n : bytes s -> parseident category s = Some (t, Some n) -> exists name, ident_text (take n s) name.
Proof using US surrogates.
  intros Hb. unfold parseident. destruct (Nat.eqb_spec (length s) 0); [discriminate|]. destruct ((rd s 0 <? 128) && negb (rd s 0 =? 92) && is_ident_begin (rd s 0)) eqn:E0.
  - boolprop. set (i := S (span ascii_continue (drop 1 s))). assert (Hi : (i <= length s)%nat) by (unfold i; pose proof (span_drop ascii_continue s 1); lia).
    assert (Hw : Forall (fun c => c <> 92) (take i s)).
    { replace (take i s) with (rd s 0 :: take (span ascii_continue (drop 1 s)) (drop 1 s)) by (destruct s; [cbn in *; lia|reflexivity]). constructor; [assumption|]. generalize (drop 1 s). intros l. induction l as [|c l IH]; [constructor|]. cbn [span]. destruct (ascii_continue c) eqn:Ec; [|constructor]. cbn. constructor; [|exact IH]. unfold ascii_continue in Ec. boolprop. assumption. }
    destruct ((i <? length s)%nat && ((128 <=? rd s i) || (rd s i =? 92))).
    + intros H'. eapply (ident_slow_text s i t n (take i s) (take i s)); eauto. intros. apply text_bytes; assumption.
    + intros [= _ <-]. exists (take i s). rewrite <- (app_nil_r (take i s)). apply text_bytes; [exact Hw|constructor].
  - destruct (rd s 0 =? 92).
    + destruct (parse_unicode_escape s 0) as [[el cp]|] eqn:Ep; [|discriminate]. destruct (is_unicode_ident_begin category cp) eqn:Ec; [|discriminate]. destruct (parse_escape_inv s 0 el cp Ep) as [Hw Hlen]. rewrite drop_0 in Hw.
      intros H'. eapply (ident_slow_text s el t n (take el s) (utf8_enc cp)); eauto. intros s' v' Hv. apply it_escape; [exact Hw|apply continue_scalar; [eapply text_range, Hw|apply begin_continue, Ec]|exact Hv].
    + destruct (Z.leb_spec 128 (rd s 0)); [|discriminate]. destruct (utf8proc_iterate s) as [[m cp]|] eqn:Ei; [|discriminate]. destruct (is_unicode_id_start category cp); [|discriminate]. destruct (enc_head s m cp Hb Ei) as (Ht & Hm & Hcp & Hle); [assumption|].
      intros H'. eapply (ident_slow_text s m t n (utf8_enc cp) (utf8_enc cp)); eauto. intros. apply text_bytes; [apply enc_plain, Hcp|assumption].
Qed.

(** The parser decodes the name of an identifier token as the lexer does to
    compare it with the reserved words, when that one has a large enough buffer:
    both give the name that the token's characters and escapes spell, in a
    buffer of the token's length. *)
Theorem ident_name_agrees bump_ok s t n : bytes s -> parseident category s = Some (t, Some n) -> bump_ok (Z.of_nat (length (take n s)) + 1) = true ->
  exists name, ident_text (take n s) name /\ decode_ident_escapes (take n s) (length (take n s) + 5) = Some name /\ decode_ident_into_arena bump_ok (take n s) = Some name.
Proof using US surrogates.
  intros Hb H Hok. destruct (parseident_text s t n Hb H) as [name Hn]. exists name. split; [exact Hn|]. set (src := take n s) in *. split.
  - apply (lexer_text src name Hn (S (length src)) [] [] (length src + 5)); cbn; lia.
  - unfold decode_ident_into_arena, zlen. destruct (Nat.eqb_spec (length src) 0) as [E|_]; cbn [orb].
    { destruct src; [|discriminate]. rewrite (plain_text [] name Hn eq_refl). reflexivity. }
    destruct (existsb (Z.eqb 92) src) eqn:E; cbn [negb]; [|rewrite (plain_text src name Hn E); reflexivity]. rewrite Hok. cbn [negb]. apply (arena_text src name Hn (S (length src)) [] []); cbn; lia.
Qed.
End Identifiers.

(** ** Examples *)

Module Example.
Import SilverLexer.Example.
Definition has_room : Z -> bool := fun _ => true.
(** [a] tab [é] as [\xE9], then a pair of surrogates and a code point. *)
Definition body : list Z := str_bytes "a\t\xE9\uD83D\uDE00\u{1F600}'".
Lemma body_denotes : denotes 39 true body (Some ([97; 9] ++ utf8_enc 0xE9 ++ utf8_enc 0x1F600 ++ utf8_enc 0x1F600)).
Proof.
  apply (d_char 39 true 97 _ (Some _)); [lia|lia|]. apply (d_single 39 true 116 9 _ (Some _)); [unfold single_escapes; set_solver|].
  apply (d_hex 39 true (str_bytes "E9") _ (Some _)); [split; reflexivity|].
  apply (d_pair 39 true (str_bytes "D83D") (str_bytes "DE00") _ (Some _)); [split; reflexivity|split; reflexivity|reflexivity|reflexivity|].
  apply (d_point 39 true (str_bytes "1F600") _ (Some [])); [discriminate|reflexivity|reflexivity|constructor].
Qed.
Lemma string_literal_value_witness :
  let lx := sv_lexer_init ((39 :: body) ++ [59]) true in
  exists lx', sv_lexer_next (U := utf8proc_ref) no_category digits_value enough_memory lx = Some lx' /\ current lx' = Token TOK_STRING 0 (length (39 :: body)) false /\
    sv_lexer_str_literal (U := utf8proc_ref) has_room lx' = Some (Ok ([97; 9] ++ utf8_enc 0xE9 ++ utf8_enc 0x1F600 ++ utf8_enc 0x1F600)).
Proof.
  apply (string_literal_value (U := utf8proc_ref) (US := utf8proc_ref_spec) no_category digits_value enough_memory has_room (sv_lexer_init ((39 :: body) ++ [59]) true) [] 39 body [59] _ ltac:(right; reflexivity) body_denotes); [reflexivity|repeat constructor; discriminate|reflexivity|reflexivity].
Defined.
Definition odd_literal : sv_lexer_t := sv_lexer_init (str_bytes "'\u{}\xZ1\777' ") false.
Definition after_odd : sv_lexer_t := Eval vm_compute in
  match sv_lexer_next (U := utf8proc_ref) no_category digits_value enough_memory odd_literal with Some lx => lx | None => odd_literal end.
Lemma string_literal_fits_witness :
  exists res, sv_lexer_str_literal (U := utf8proc_ref) has_room after_odd = Some res /\ (res = octal_error \/ exists v, res = Ok v /\ (length v < tlen (lst after_odd))%nat).
Proof.
  apply (string_literal_fits (U := utf8proc_ref) (US := utf8proc_ref_spec) (fun cp => proj2 (utf8_enc_length cp)) no_category digits_value enough_memory has_room odd_literal); vm_compute; reflexivity.
Defined.
Lemma ident_name_agrees_witness :
  exists name, ident_text (str_bytes "a\u{62}\u0063") name /\ decode_ident_escapes (U := utf8proc_ref) (str_bytes "a\u{62}\u0063") 18 = Some name /\
    decode_ident_into_arena (U := utf8proc_ref) has_room (str_bytes "a\u{62}\u0063") = Some name.
Proof.
  apply (ident_name_agrees (U := utf8proc_ref) (US := utf8proc_ref_spec) no_category (fun _ _ => eq_refl) has_room (str_bytes "a\u{62}\u0063 = 1") TOK_IDENTIFIER 13); [repeat constructor; discriminate|vm_compute; reflexivity|reflexivity].
Defined.

(** A backslash before a line end should continue the line; the line end stays
    in the value. *)
Lemma continuation_kept : str_loop (U := utf8proc_ref) 7 ([39; 97; 92; 10; 98; 39]) 6 true 0 [] = Some (Ok [97; 10; 98]).
Proof. vm_compute. reflexivity. Qed.
(** Escapes that are errors in ECMAScript are taken as text: [\xZ1] is [xZ1]. *)
Lemma bad_escape_kept : sv_lexer_str_literal (U := utf8proc_ref) has_room (sv_lexer_restore_state (sv_lexer_init (str_bytes "'\xZ1'") true) (LexState 6 0 6 Undefined TOK_STRING false false)) = Some (Ok (str_bytes "xZ1")).
Proof. vm_compute. reflexivity. Qed.
End Example.
