(* ===== verification/SourceArena.v ===== *)
(** * Arenas of the code and of the parser

    [src/src/runtime.c] keeps program texts, bytecode and syntax trees in two
    chains of blocks: memory is handed out by moving a mark up, and given back
    by rewinding to an earlier mark.  Program texts are interned: a text that is
    already in the code arena is found in a hash table and shared, and rewinding
    removes the entries of what it frees. *)

From S2P Require Import Prelude.

(** ** Blocks

    A block is the address [malloc] gave it; its payload starts after the three
    words of the header.  A pointer that is freed, or was never allocated, is
    not in [sm_blocks], and following it is [None]. *)

Definition CODE_ARENA_BLOCK_SIZE : Z := 64 * 1024.
Definition CODE_ARENA_ALIGNMENT : Z := 8.
Definition sizeof_block : Z := 24.

Record code_block_t := CodeBlock { cb_next : Z; cb_used : Z; cb_capacity : Z }.
Record chain_t := Chain { ch_head : Z; ch_current : Z }.
(** An entry of the table: the text's pointer and length. *)
Definition intern_entry_t : Type := Z * Z.
Inductive which := CODE | PARSE.
Record source_mem := SourceMem {
  sm_blocks : gmap Z code_block_t; sm_bytes : Z -> Z;
  sm_code : chain_t; sm_parse : chain_t; code_interns : list intern_entry_t }.

Definition data_of (b : Z) : Z := b + sizeof_block.
Definition chain_of (a : which) (w : source_mem) : chain_t := match a with CODE => sm_code w | PARSE => sm_parse w end.
Definition set_chain (a : which) (c : chain_t) (w : source_mem) : source_mem :=
  match a with
  | CODE => SourceMem (sm_blocks w) (sm_bytes w) c (sm_parse w) (code_interns w)
  | PARSE => SourceMem (sm_blocks w) (sm_bytes w) (sm_code w) c (code_interns w)
  end.
Definition set_blocks (bs : gmap Z code_block_t) (w : source_mem) : source_mem := SourceMem bs (sm_bytes w) (sm_code w) (sm_parse w) (code_interns w).
Definition set_interns (es : list intern_entry_t) (w : source_mem) : source_mem := SourceMem (sm_blocks w) (sm_bytes w) (sm_code w) (sm_parse w) es.
Definition set_bytes (f : Z -> Z) (w : source_mem) : source_mem := SourceMem (sm_blocks w) f (sm_code w) (sm_parse w) (code_interns w).
Definition empty_mem : source_mem := SourceMem ∅ (fun _ => 0) (Chain 0 0) (Chain 0 0) [].

(** Bytes that are all in one live block. *)
Definition live_range (w : source_mem) (p n : Z) : bool :=
  existsb (fun kb : Z * code_block_t => (data_of kb.1 <=? p) && (p + n <=? data_of kb.1 + cb_capacity kb.2)) (map_to_list (sm_blocks w)).
Definition bytes_at (f : Z -> Z) (p : Z) (n : nat) : list Z := map (fun k => f (p + Z.of_nat k)) (seq 0 n).
Definition store_at (f : Z -> Z) (p : Z) (s : list Z) : Z -> Z := fun a => if (p <=? a) && (a <? p + zlen s) then rd s (Z.to_nat (a - p)) else f a.
Definition mem_read (w : source_mem) (p : Z) (n : nat) : option (list Z) := if live_range w p (Z.of_nat n) then Some (bytes_at (sm_bytes w) p n) else None.
Definition mem_write (w : source_mem) (p : Z) (s : list Z) : option source_mem := if live_range w p (zlen s) then Some (set_bytes (store_at (sm_bytes w) p s) w) else None.

(** ** Bumping

    [m] is the address [malloc] returns, 0 when it refuses. *)

Definition new_capacity (min_size : Z) : Z := if CODE_ARENA_BLOCK_SIZE <? min_size then min_size else CODE_ARENA_BLOCK_SIZE.
Definition code_arena_new_block (w : source_mem) (min_size m : Z) : option source_mem :=
  if m =? 0 then None else Some (set_blocks (<[m := CodeBlock 0 0 (new_capacity min_size)]> (sm_blocks w)) w).
Definition set_next (w : source_mem) (b next : Z) : option source_mem :=
  match sm_blocks w !! b with
  | Some k => Some (set_blocks (<[b := CodeBlock next (cb_used k) (cb_capacity k)]> (sm_blocks w)) w)
  | None => None
  end.
Definition set_block_used (w : source_mem) (b used : Z) : option source_mem :=
  match sm_blocks w !! b with
  | Some k => Some (set_blocks (<[b := CodeBlock (cb_next k) used (cb_capacity k)]> (sm_blocks w)) w)
  | None => None
  end.
(** The new block becomes the last of the chain and its current one. *)
Definition link_block (a : which) (w : source_mem) (m : Z) : option source_mem :=
  let c := chain_of a w in
  if ch_head c =? 0 then Some (set_chain a (Chain m m) w)
  else if negb (ch_current c =? 0) then
    match set_next w (ch_current c) m with Some w => Some (set_chain a (Chain (ch_head c) m) w) | None => None end
  else Some (set_chain a (Chain (ch_head c) m) w).

Definition align8 (n : Z) : Z := Z.ldiff (u64 (n + (CODE_ARENA_ALIGNMENT - 1))) (CODE_ARENA_ALIGNMENT - 1).
(** A piece of [size] bytes at offset [used] of the current block. *)
Definition take_piece (a : which) (w : source_mem) (used size : Z) : option (Z * source_mem) :=
  let b := ch_current (chain_of a w) in
  match set_block_used w b (u64 (used + size)) with Some w => Some (data_of b + used, w) | None => None end.
Definition arena_bump (a : which) (w : source_mem) (size m : Z) : option (Z * source_mem) :=
  let size := align8 size in
  let b := ch_current (chain_of a w) in
  let fresh :=
    match code_arena_new_block w size m with
    | None => Some (0, w)
    | Some w => match link_block a w m with Some w => take_piece a w 0 size | None => None end
    end in
  if b =? 0 then fresh
  else
    match sm_blocks w !! b with
    | None => None
    | Some k => let used := align8 (cb_used k) in if cb_capacity k <? u64 (used + size) then fresh else take_piece a w used size
    end.
Definition code_arena_bump := arena_bump CODE.
Definition parse_arena_bump := arena_bump PARSE.

(** ** Interned texts *)

(** [HASH_FIND] compares the text with the bytes of the entries. *)
Fixpoint hash_find (w : source_mem) (es : list intern_entry_t) (code : list Z) : option (option Z) :=
  match es with
  | [] => Some None
  | (p, n) :: es =>
      if n =? zlen code then
        match mem_read w p (length code) with
        | Some s => if bool_decide (s = code) then Some (Some p) else hash_find w es code
        | None => None
        end
      else hash_find w es code
  end.
(** [entry_ok]: [malloc] has memory for the table's entry. *)
Definition code_arena_alloc (w : source_mem) (code : list Z) (m : Z) (entry_ok : bool) : option (Z * source_mem) :=
  if (length code =? 0)%nat then Some (0, w)
  else
    match hash_find w (code_interns w) code with
    | None => None
    | Some (Some p) => Some (p, w)
    | Some None =>
        let alloc_size := u64 (zlen code + 1) in
        let place (w : source_mem) (used : Z) :=
          match take_piece CODE w used alloc_size with
          | None => None
          | Some (p, w) =>
              match mem_write w p (code ++ [0]) with
              | None => None
              | Some w => Some (p, if entry_ok then set_interns ((p, zlen code) :: code_interns w) w else w)
              end
          end in
        let fresh :=
          match code_arena_new_block w alloc_size m with
          | None => Some (0, w)
          | Some w => match link_block CODE w m with Some w => place w 0 | None => None end
          end in
        let b := ch_current (sm_code w) in
        if b =? 0 then fresh
        else
          match sm_blocks w !! b with
          | None => None
          | Some k => if cb_capacity k <? u64 (cb_used k + alloc_size) then fresh else place w (cb_used k)
          end
    end.

(** ** Marks and rewinding *)

Record code_arena_mark_t := Mark { mk_block : Z; mk_used : Z }.
Definition arena_mark (a : which) (w : source_mem) : option code_arena_mark_t :=
  let b := ch_current (chain_of a w) in
  if b =? 0 then Some (Mark 0 0) else match sm_blocks w !! b with Some k => Some (Mark b (cb_used k)) | None => None end.

(** Freeing a block and those after it; [None] when one is not live. *)
Fixpoint free_chain (fuel : nat) (bs : gmap Z code_block_t) (b : Z) : option (gmap Z code_block_t) :=
  if b =? 0 then Some bs
  else
    match fuel with
    | O => None
    | S fuel => match bs !! b with Some k => free_chain fuel (delete b bs) (cb_next k) | None => None end
    end.
Definition free_from (w : source_mem) (b : Z) : option source_mem :=
  match free_chain (size (sm_blocks w)) (sm_blocks w) b with Some bs => Some (set_blocks bs w) | None => None end.

Definition code_interns_prune_for_block_range (w : source_mem) (b start_offset : Z) : option source_mem :=
  if b =? 0 then Some w
  else
    match sm_blocks w !! b with
    | None => None
    | Some k =>
        let start := data_of b + start_offset in
        let stop := data_of b + cb_capacity k in
        Some (set_interns (List.filter (fun e => negb ((start <=? e.1) && (e.1 <? stop))) (code_interns w)) w)
    end.
Fixpoint prune_chain (fuel : nat) (w : source_mem) (b : Z) : option source_mem :=
  if b =? 0 then Some w
  else
    match fuel with
    | O => None
    | S fuel =>
        match code_interns_prune_for_block_range w b 0, sm_blocks w !! b with
        | Some w, Some k => prune_chain fuel w (cb_next k)
        | _, _ => None
        end
    end.
Definition code_interns_prune_for_blocks (w : source_mem) (b : Z) : option source_mem := prune_chain (size (sm_blocks w)) w b.

Definition arena_rewind_plain (a : which) (w : source_mem) (mark : code_arena_mark_t) : option source_mem :=
  let target := mk_block mark in
  if target =? 0 then
    match free_from w (ch_head (chain_of a w)) with Some w => Some (set_chain a (Chain 0 0) w) | None => None end
  else
    match sm_blocks w !! target with
    | None => None
    | Some k =>
        let clamped_used := if mk_used mark <=? cb_capacity k then mk_used mark else cb_capacity k in
        match set_block_used w target clamped_used with
        | None => None
        | Some w =>
            match free_from w (cb_next k) with
            | None => None
            | Some w => match set_next w target 0 with Some w => Some (set_chain a (Chain (ch_head (chain_of a w)) target) w) | None => None end
            end
        end
    end.
Definition parse_arena_rewind (w : source_mem) (mark : code_arena_mark_t) : option source_mem := arena_rewind_plain PARSE w mark.
Definition parse_arena_reset (w : source_mem) : option source_mem := parse_arena_rewind w (Mark 0 0).

Definition code_arena_rewind (w : source_mem) (mark : code_arena_mark_t) : option source_mem :=
  let target := mk_block mark in
  if target =? 0 then
    match code_interns_prune_for_blocks w (ch_head (sm_code w)) with
    | None => None
    | Some w => match free_from w (ch_head (sm_code w)) with Some w => Some (set_chain CODE (Chain 0 0) w) | None => None end
    end
  else
    match sm_blocks w !! target with
    | None => None
    | Some k =>
        let clamped_used := if mk_used mark <=? cb_capacity k then mk_used mark else cb_capacity k in
        match code_interns_prune_for_block_range w target clamped_used with
        | None => None
        | Some w =>
            match code_interns_prune_for_blocks w (cb_next k) with
            | None => None
            | Some w =>
                match (if mk_used mark <=? cb_capacity k then set_block_used w target (mk_used mark) else Some w) with
                | None => None
                | Some w =>
                    match free_from w (cb_next k) with
                    | None => None
                    | Some w => match set_next w target 0 with Some w => Some (set_chain CODE (Chain (ch_head (sm_code w)) target) w) | None => None end
                    end
                end
            end
        end
    end.
Definition code_arena_reset (w : source_mem) : option source_mem :=
  let w := set_interns [] w in
  match free_from w (ch_head (sm_code w)) with Some w => parse_arena_reset (set_chain CODE (Chain 0 0) w) | None => None end.

(** [arena_get_memory]: the bytes of a chain. *)
Fixpoint arena_get_memory (fuel : nat) (w : source_mem) (b : Z) : option Z :=
  if b =? 0 then Some 0
  else
    match fuel with
    | O => None
    | S fuel => match sm_blocks w !! b with Some k => option_map (Z.add (sizeof_block + cb_capacity k)) (arena_get_memory fuel w (cb_next k)) | None => None end
    end.

Definition code_arena_get_memory (w : source_mem) : option Z := arena_get_memory (size (sm_blocks w)) w (ch_head (sm_code w)).
Definition parse_arena_get_memory (w : source_mem) : option Z := arena_get_memory (size (sm_blocks w)) w (ch_head (sm_parse w)).
Definition code_arena_mark := arena_mark CODE.
Definition parse_arena_mark := arena_mark PARSE.

(** ** Use of the arenas

    What the callers hold: the pieces of each arena, the newest first, with the
    text of those that are interned texts, and the marks with the pieces there
    were when they were taken. *)

Record piece_t := Piece { pc_ptr : Z; pc_len : Z; pc_text : option (list Z) }.
Record client := Client { cl_pieces : which -> list piece_t; cl_marks : which -> list (code_arena_mark_t * list piece_t) }.
Definition on (a : which) {A} (x : A) (f : which -> A) : which -> A := fun b => match a, b with CODE, CODE | PARSE, PARSE => x | _, _ => f b end.
Definition add_piece (a : which) (pc : piece_t) (c : client) : client := Client (on a (pc :: cl_pieces c a) (cl_pieces c)) (cl_marks c).

Inductive arena_op :=
| Bump (a : which) (size m : Z)
| AllocText (code : list Z) (m : Z) (entry_ok : bool)
| Write (a : which) (pc : piece_t) (off : Z) (s : list Z)
| TakeMark (a : which)
| Rewind (a : which) (k : nat)
| Reset.

Definition rewind_arena (a : which) (w : source_mem) (mark : code_arena_mark_t) : option source_mem :=
  match a with CODE => code_arena_rewind w mark | PARSE => parse_arena_rewind w mark end.
(** The state after an operation and what the callers then hold. *)
Definition run_op (w : source_mem) (c : client) (o : arena_op) : option (source_mem * client) :=
  match o with
  | Bump a size m =>
      match arena_bump a w size m with
      | Some (p, w) => Some (w, if p =? 0 then c else add_piece a (Piece p (align8 size) None) c)
      | None => None
      end
  | AllocText code m entry_ok =>
      match code_arena_alloc w code m entry_ok with
      | Some (p, w) =>
          Some (w, if (p =? 0) || existsb (fun pc => pc_ptr pc =? p) (cl_pieces c CODE) then c else add_piece CODE (Piece p (zlen code + 1) (Some code)) c)
      | None => None
      end
  | Write a pc off s => match mem_write w (pc_ptr pc + off) s with Some w => Some (w, c) | None => None end
  | TakeMark a => match arena_mark a w with Some mk => Some (w, Client (cl_pieces c) (on a ((mk, cl_pieces c a) :: cl_marks c a) (cl_marks c))) | None => None end
  | Rewind a k =>
      match drop k (cl_marks c a) with
      | (mk, ps) :: older =>
          match rewind_arena a w mk with Some w => Some (w, Client (on a ps (cl_pieces c)) (on a ((mk, ps) :: older) (cl_marks c))) | None => None end
      | [] => None
      end
  | Reset => match code_arena_reset w with Some w => Some (w, Client (fun _ => []) (fun _ => [])) | None => None end
  end.

(** What [malloc] answers: nothing, or memory that overlaps no live block. *)
Definition block_end (b : Z) (k : code_block_t) : Z := data_of b + cb_capacity k.
Definition malloc_fresh (w : source_mem) (m n : Z) : Prop :=
  m = 0 \/ (0 < m /\ m mod 8 = 0 /\ m + n < 2 ^ 63 /\ forall b k, sm_blocks w !! b = Some k -> m + n <= b \/ block_end b k <= m).
(** How an operation may be used: sizes that fit the address space, writes
    inside a piece that is no interned text, rewinding to a mark that was taken
    and not rewound past. *)
Definition op_allowed (w : source_mem) (c : client) (o : arena_op) : Prop :=
  match o with
  | Bump _ size m => 0 < size < 2 ^ 62 /\ malloc_fresh w m (sizeof_block + new_capacity (align8 size))
  | AllocText code m _ => zlen code < 2 ^ 62 /\ malloc_fresh w m (sizeof_block + new_capacity (zlen code + 1))
  | Write a pc off s => pc ∈ cl_pieces c a /\ pc_text pc = None /\ 0 <= off /\ off + zlen s <= pc_len pc
  | Rewind a k => (k < length (cl_marks c a))%nat
  | TakeMark _ | Reset => True
  end.
Definition no_pieces : client := Client (fun _ => []) (fun _ => []).
Inductive in_use : source_mem -> client -> Prop :=
| use_start : in_use empty_mem no_pieces
| use_step w c o w' c' : in_use w c -> op_allowed w c o -> run_op w c o = Some (w', c') -> in_use w' c'.

(** ** The chains as lists

    A block of a chain with its used bytes and its capacity. *)

Record blk := Blk { k_id : Z; k_used : Z; k_cap : Z }.
Definition head_id (l : list blk) : Z := match l with [] => 0 | k :: _ => k_id k end.
Definition last_blk (l : list blk) : option blk := last l.
Definition last_id (l : list blk) : Z := match last l with Some k => k_id k | None => 0 end.
Definition mark_of (l : list blk) : code_arena_mark_t := match last l with Some k => Mark (k_id k) (k_used k) | None => Mark 0 0 end.
(** The node of [b] in a list that goes on at [h]. *)
Definition head_or (l : list blk) (h : Z) : Z := match l with [] => h | k :: _ => k_id k end.
Fixpoint nodes_in (l : list blk) (h b : Z) (n : code_block_t) : Prop :=
  match l with
  | [] => False
  | k :: l => (k_id k = b /\ n = CodeBlock (head_or l h) (k_used k) (k_cap k)) \/ nodes_in l h b n
  end.
Definition other (a : which) : which := match a with CODE => PARSE | PARSE => CODE end.

Definition blk_ok (k : blk) : Prop := 0 < k_id k /\ k_id k mod 8 = 0 /\ 0 <= k_used k <= k_cap k /\ k_id k + sizeof_block + k_cap k < 2 ^ 63.
Definition blk_end (k : blk) : Z := data_of (k_id k) + k_cap k.
Definition apart (k k' : blk) : Prop := blk_end k <= k_id k' \/ blk_end k' <= k_id k.
(** The blocks of both chains, and nothing else, are live. *)
Record rep (a : which) (w : source_mem) (l l' : list blk) : Prop := Rep {
  r_chain : chain_of a w = Chain (head_or l 0) (last_id l);
  r_other : chain_of (other a) w = Chain (head_or l' 0) (last_id l');
  r_blocks : forall b n, sm_blocks w !! b = Some n <-> nodes_in l 0 b n \/ nodes_in l' 0 b n;
  r_ok : Forall blk_ok (l ++ l');
  r_apart : ForallOrdPairs apart (l ++ l') }.

Lemma apart_sym k k' : apart k k' -> apart k' k.
Proof. unfold apart. tauto. Qed.
Lemma pairs_app (l l' : list blk) : ForallOrdPairs apart (l ++ l') <-> ForallOrdPairs apart l /\ ForallOrdPairs apart l' /\ (forall k k', k ∈ l -> k' ∈ l' -> apart k k').
Proof.
  induction l as [|k l IH]; cbn [app].
  - split; [intros H; splits; [constructor|exact H|intros k k' Hk; inversion Hk]|tauto].
  - split.
    + intros H. inversion H as [|? ? H1 H2]; subst. apply IH in H2 as (I1 & I2 & I3). apply List.Forall_app in H1 as [H1 H1']. splits; [constructor; assumption|exact I2|].
      intros x y Hx Hy. apply elem_of_cons in Hx as [->|Hx]; [|apply I3; assumption]. rewrite List.Forall_forall in H1'. apply H1', list_elem_of_In, Hy.
    + intros (H1 & H2 & H3). inversion H1 as [|? ? H4 H5]; subst. constructor; [|apply IH; splits; auto; intros; apply H3; [right|]; assumption].
      apply List.Forall_app. split; [exact H4|]. apply List.Forall_forall. intros x Hx. apply H3; [left|apply list_elem_of_In, Hx].
Qed.
Lemma rep_swap a w l l' : rep a w l l' -> rep (other a) w l' l.
Proof.
  intros [H1 H2 H3 H4 H5]. constructor; [exact H2|destruct a; exact H1|intros b n; rewrite H3; tauto|rewrite List.Forall_app in *; tauto|].
  rewrite pairs_app in *. destruct H5 as (A & B & C). splits; auto. intros. apply apart_sym, C; assumption.
Qed.
Lemma nodes_id l h b n : nodes_in l h b n -> exists k, k ∈ l /\ k_id k = b /\ cb_used n = k_used k /\ cb_capacity n = k_cap k.
Proof.
  induction l as [|k l IH]; cbn [nodes_in]; [tauto|]. intros [[<- ->]|H]; [exists k; splits; auto; left|]. destruct (IH H) as (k' & H1 & H2). exists k'. split; [right; exact H1|exact H2].
Qed.
Lemma nodes_of l h k : k ∈ l -> exists n, nodes_in l h (k_id k) n /\ cb_used n = k_used k /\ cb_capacity n = k_cap k.
Proof.
  induction l as [|x l IH]; intros H; [inversion H|]. apply elem_of_cons in H as [->|H]; [eexists; split; [left; split; reflexivity|auto]|]. destruct (IH H) as (n & H1 & H2). exists n. split; [right; exact H1|exact H2].
Qed.
Lemma nodes_app l l2 h b n : nodes_in (l ++ l2) h b n <-> nodes_in l (head_or l2 h) b n \/ nodes_in l2 h b n.
Proof.
  induction l as [|k l IH]; cbn [app nodes_in]; [tauto|]. rewrite IH. assert (E : head_or (l ++ l2) h = head_or l (head_or l2 h)) by (destruct l; reflexivity). rewrite E. tauto.
Qed.

Section Rep.
Context {a : which} {w : source_mem} {l l' : list blk} (R : rep a w l l').
Lemma rep_ok k : k ∈ l ++ l' -> blk_ok k.
Proof using R. intros Hk. pose proof (r_ok _ _ _ _ R) as H. rewrite List.Forall_forall in H. apply H, list_elem_of_In, Hk. Qed.
(** Blocks with a common byte, or the same address, are the same. *)
Lemma same_blk k k' : k ∈ l ++ l' -> k' ∈ l ++ l' -> ~ apart k k' -> k = k'.
Proof using R.
  intros Hk Hk' Hn. pose proof (r_apart _ _ _ _ R) as H. destruct (ForallOrdPairs_In H k k') as [E|[E|E]]; [apply list_elem_of_In, Hk|apply list_elem_of_In, Hk'|exact E|contradiction|apply apart_sym in E; contradiction].
Qed.
Lemma not_apart_id k k' : blk_ok k -> blk_ok k' -> k_id k = k_id k' -> ~ apart k k'.
Proof using. unfold blk_ok, apart, blk_end, data_of, sizeof_block. intros H1 H2 E [H|H]; lia. Qed.
Lemma same_id k k' : k ∈ l ++ l' -> k' ∈ l ++ l' -> k_id k = k_id k' -> k = k'.
Proof using R. intros H1 H2 E. apply same_blk; auto. apply not_apart_id; auto using rep_ok. Qed.
Lemma rep_nodup : NoDup (map k_id (l ++ l')).
Proof using R.
  pose proof (r_apart _ _ _ _ R) as H. pose proof (r_ok _ _ _ _ R) as Ho. induction H as [|k r Hk _ IH]; [constructor|]. inversion Ho; subst. cbn. constructor; [|apply IH; assumption].
  intros Hin. apply list_elem_of_fmap in Hin as (k' & E & Hin). rewrite List.Forall_forall in Hk, H2. apply list_elem_of_In in Hin. eapply not_apart_id; [exact H1|apply H2, Hin|exact E|apply Hk, Hin].
Qed.
Lemma rep_lookup k : k ∈ l ++ l' -> exists n, sm_blocks w !! k_id k = Some n /\ cb_used n = k_used k /\ cb_capacity n = k_cap k.
Proof using R.
  intros Hk. apply elem_of_app in Hk as [Hk|Hk]; destruct (nodes_of _ 0 k Hk) as (n & H & E); exists n; (split; [apply (r_blocks _ _ _ _ R); auto|exact E]).
Qed.
Lemma rep_node l1 k l2 : l = l1 ++ k :: l2 -> sm_blocks w !! k_id k = Some (CodeBlock (head_or l2 0) (k_used k) (k_cap k)).
Proof using R. intros ->. apply (r_blocks _ _ _ _ R). left. apply nodes_app. right. left. auto. Qed.
Lemma rep_live b n : sm_blocks w !! b = Some n -> exists k, k ∈ l ++ l' /\ k_id k = b /\ cb_used n = k_used k /\ cb_capacity n = k_cap k.
Proof using R. intros H. apply (r_blocks _ _ _ _ R) in H as [H|H]; apply nodes_id in H as (k & H1 & H2); exists k; (split; [apply elem_of_app; auto|exact H2]). Qed.
End Rep.

(** ** Changing the chains *)

Lemma blocks_of_chain a c w : sm_blocks (set_chain a c w) = sm_blocks w.
Proof. destruct a; reflexivity. Qed.
Lemma chain_same a c w : chain_of a (set_chain a c w) = c.
Proof. destruct a; reflexivity. Qed.
Lemma chain_other a c w : chain_of (other a) (set_chain a c w) = chain_of (other a) w.
Proof. destruct a; reflexivity. Qed.
Lemma chain_blocks a bs w : chain_of a (set_blocks bs w) = chain_of a w.
Proof. destruct a; reflexivity. Qed.
Lemma last_snoc_id l k : last_id (l ++ [k]) = k_id k.
Proof. unfold last_id. rewrite last_snoc. reflexivity. Qed.
Lemma in_ids l b h n : nodes_in l h b n -> b ∈ map k_id l.
Proof. intros H. apply nodes_id in H as (k & Hk & <- & _). apply list_elem_of_fmap. eauto. Qed.

(** A node in the middle of a chain is changed in place. *)
Lemma nodes_change l1 k k2 l2 l' b n (bs : gmap Z code_block_t) : NoDup (map k_id ((l1 ++ k :: l2) ++ l')) -> k_id k2 = k_id k ->
  (forall b n, bs !! b = Some n <-> nodes_in (l1 ++ k :: l2) 0 b n \/ nodes_in l' 0 b n) ->
  <[k_id k := CodeBlock (head_or l2 0) (k_used k2) (k_cap k2)]> bs !! b = Some n <-> nodes_in (l1 ++ k2 :: l2) 0 b n \/ nodes_in l' 0 b n.
Proof.
  intros Hnd Hid Hb. rewrite nodes_app. cbn [nodes_in head_or]. rewrite Hid. rewrite map_app, map_app, <- app_assoc in Hnd. cbn [map app] in Hnd. apply NoDup_app in Hnd as (N1 & N2 & N3). apply NoDup_cons in N3 as [N3 N4].
  destruct (decide (b = k_id k)) as [->|Hne].
  - rewrite lookup_insert, decide_True by reflexivity. split; [intros [= <-]; auto|]. intros [[H|[[_ ->]|H]]|H]; [|reflexivity| |]; exfalso; apply in_ids in H; [apply (N2 (k_id k)); [exact H|left]|apply N3, elem_of_app; auto|apply N3, elem_of_app; auto].
  - rewrite lookup_insert_ne by congruence. rewrite Hb, nodes_app. cbn [nodes_in head_or]. split; intros [[H|[[E H]|H]]|H]; auto; congruence.
Qed.
Lemma rep_set_block_used a w l1 k l2 l' u : rep a w (l1 ++ k :: l2) l' -> k_used k <= u <= k_cap k \/ 0 <= u <= k_used k ->
  exists w', set_block_used w (k_id k) u = Some w' /\ rep a w' (l1 ++ Blk (k_id k) u (k_cap k) :: l2) l' /\ sm_bytes w' = sm_bytes w /\ code_interns w' = code_interns w.
Proof.
  intros R Hu. unfold set_block_used. rewrite (rep_node R l1 k l2 eq_refl). eexists. split; [reflexivity|]. split; [|auto]. cbn [cb_next cb_capacity]. constructor.
  - rewrite chain_blocks, (r_chain _ _ _ _ R). f_equal; [destruct l1; reflexivity|]. unfold last_id. rewrite !last_app. destruct l2; reflexivity.
  - rewrite chain_blocks. apply (r_other _ _ _ _ R).
  - intros b n. cbn [sm_blocks set_blocks]. apply (nodes_change l1 k (Blk (k_id k) u (k_cap k)) l2 l' b n (sm_blocks w)); [apply (rep_nodup R)|reflexivity|apply (r_blocks _ _ _ _ R)].
  - pose proof (r_ok _ _ _ _ R) as H. rewrite !List.Forall_app in *. destruct H as [[H1 H2] H3]. inversion H2 as [|? ? (B1 & B2 & B3 & B4) H4]; subst. repeat split; auto. constructor; [|exact H4]. unfold blk_ok. cbn [k_id k_used k_cap]. splits; auto; lia.
  - pose proof (r_apart _ _ _ _ R) as H. rewrite !pairs_app in *. destruct H as ((A1 & A2 & A3) & A4 & A5). inversion A2 as [|? ? A6 A7]; subst. splits; auto.
    + constructor; [exact A6|exact A7].
    + intros x y Hx Hy. apply elem_of_cons in Hy as [->|Hy]; [apply (A3 x k Hx); left|apply A3; [exact Hx|right; exact Hy]].
    + intros x y Hx Hy. apply elem_of_app in Hx as [Hx|Hx]; [apply A5; [apply elem_of_app; auto|exact Hy]|]. apply elem_of_cons in Hx as [->|Hx]; [apply (A5 k y); [apply elem_of_app; right; left|exact Hy]|apply A5; [apply elem_of_app; right; right; exact Hx|exact Hy]].
Qed.

(** A new block at the end of a chain. *)
Lemma capacity_ge n : 0 <= n -> n <= new_capacity n /\ 0 <= new_capacity n.
Proof. unfold new_capacity, CODE_ARENA_BLOCK_SIZE. intros H. case_if; boolprop; lia. Qed.
Lemma snoc_cases (l : list blk) : l = [] \/ exists l0 k, l = l0 ++ [k].
Proof. destruct l as [|x l]; [auto|right]. exists (removelast (x :: l)), (List.last (x :: l) x). apply app_removelast_last. discriminate. Qed.
Lemma rep_fresh a w l l' m k : rep a w l l' -> k_id k = m -> malloc_fresh w m (sizeof_block + k_cap k) -> m <> 0 -> k ∈ [] \/ (forall x, x ∈ l ++ l' -> apart x k).
Proof.
  intros R Hk Hm H0. right. intros x Hx. destruct (rep_lookup R x Hx) as (n & Hn & _ & Hc). destruct Hm as [|(_ & _ & _ & H)]; [contradiction|]. specialize (H _ _ Hn). unfold apart, blk_end, block_end, data_of in *. rewrite Hc in H. subst m. lia.
Qed.
Lemma rep_new_block a w l l' size m : rep a w l l' -> 0 <= size < 2 ^ 62 + 8 -> malloc_fresh w m (sizeof_block + new_capacity size) -> m <> 0 ->
  exists w1 w2, code_arena_new_block w size m = Some w1 /\ link_block a w1 m = Some w2 /\ rep a w2 (l ++ [Blk m 0 (new_capacity size)]) l' /\ sm_bytes w2 = sm_bytes w /\ code_interns w2 = code_interns w.
Proof.
  intros R Hs Hm H0. set (new := Blk m 0 (new_capacity size)). assert (Hap : forall x, x ∈ l ++ l' -> apart x new) by (destruct (rep_fresh a w l l' m new R eq_refl Hm H0) as [H|H]; [inversion H|exact H]).
  assert (Hnew : blk_ok new) by (destruct Hm as [|(H1 & H2 & H3 & _)]; [contradiction|]; pose proof (capacity_ge size ltac:(lia)); unfold blk_ok, new; cbn [k_id k_used k_cap]; splits; auto; lia).
  assert (Hfree : sm_blocks w !! m = None). { destruct (sm_blocks w !! m) as [n|] eqn:E; [|reflexivity]. exfalso. destruct (rep_live R m n E) as (k & Hk & Hid & _). eapply not_apart_id; [apply (rep_ok R), Hk|exact Hnew|rewrite Hid; reflexivity|apply Hap, Hk]. }
  assert (Hm_ids : m ∉ map k_id (l ++ l')). { intros H. apply list_elem_of_fmap in H as (k & E & Hk). destruct (rep_lookup R k Hk) as (n & Hn & _). congruence. }
  assert (Hok : Forall blk_ok ((l ++ [new]) ++ l')). { pose proof (r_ok _ _ _ _ R) as H. rewrite !List.Forall_app in *. destruct H. auto. }
  assert (Hpairs : ForallOrdPairs apart ((l ++ [new]) ++ l')).
  { pose proof (r_apart _ _ _ _ R) as H. rewrite !pairs_app in *. destruct H as (A & B & C). splits; auto; [repeat constructor|intros x y Hx Hy; apply elem_of_cons in Hy as [->|Hy]; [apply Hap, elem_of_app; auto|inversion Hy]|].
    intros x y Hx Hy. apply elem_of_app in Hx as [Hx|Hx]; [auto|]. apply elem_of_cons in Hx as [->|Hx]; [|inversion Hx]. apply apart_sym, Hap, elem_of_app. auto. }
  unfold code_arena_new_block. apply Z.eqb_neq in H0. rewrite H0. eexists. unfold link_block. rewrite chain_blocks, (r_chain _ _ _ _ R). cbn [ch_head ch_current]. destruct (snoc_cases l) as [->|(l0 & k & ->)].
  - eexists. split; [reflexivity|]. split; [reflexivity|]. split; [|destruct a; auto]. constructor; [apply chain_same|rewrite chain_other, chain_blocks; apply (r_other _ _ _ _ R)| |exact Hok|exact Hpairs].
    intros b n. rewrite blocks_of_chain. cbn [sm_blocks set_blocks app nodes_in head_or]. destruct (decide (b = m)) as [->|Hne].
    + rewrite lookup_insert, decide_True by reflexivity. split; [intros [= <-]; left; left; auto|]. intros [[[_ ->]|[]]|H]; [reflexivity|]. apply in_ids in H. contradiction.
    + rewrite lookup_insert_ne by congruence. rewrite (r_blocks _ _ _ _ R). cbn [nodes_in k_id]. split; [tauto|]. intros [[[E _]|[]]|H]; [cbn in E; congruence|auto].
  - assert (Hk : k ∈ (l0 ++ [k]) ++ l') by (apply elem_of_app; left; apply elem_of_app; right; left). pose proof (rep_ok R k Hk) as (K1 & _). destruct (Z.eqb_spec (head_or (l0 ++ [k]) 0) 0) as [E|_].
    { exfalso. destruct l0 as [|x l0]; cbn in E; [lia|]. pose proof (rep_ok R x ltac:(left)) as (X1 & _). lia. }
    rewrite last_snoc_id. destruct (Z.eqb_spec (k_id k) 0) as [|_]; [lia|]. cbn [negb]. unfold set_next. cbn [sm_blocks set_blocks]. assert (Hkm : k_id k <> m) by (intros E; apply Hm_ids, list_elem_of_fmap; eauto).
    rewrite lookup_insert_ne by congruence. rewrite (rep_node R l0 k [] eq_refl). eexists. split; [reflexivity|]. split; [reflexivity|]. split; [|destruct a; auto].
    constructor; [rewrite chain_same, last_snoc_id; f_equal; destruct l0; reflexivity|rewrite chain_other, !chain_blocks; apply (r_other _ _ _ _ R)| |exact Hok|exact Hpairs].
    intros b n. rewrite blocks_of_chain. cbn [sm_blocks set_blocks cb_used cb_capacity]. rewrite <- app_assoc, nodes_app. cbn [app nodes_in head_or]. pose proof (rep_nodup R) as Hnd. rewrite map_app, map_app, <- app_assoc in Hnd. cbn [map app] in Hnd. apply NoDup_app in Hnd as (N1 & N2 & N3). apply NoDup_cons in N3 as [N3 N4].
    destruct (decide (b = k_id k)) as [->|Hne]; [|rewrite lookup_insert_ne by congruence; destruct (decide (b = m)) as [->|Hnm]].
    + rewrite lookup_insert, decide_True by reflexivity. split; [intros [= <-]; left; right; left; auto|]. intros [[H|[[_ ->]|[[E _]|[]]]]|H]; [|reflexivity|cbn in E; congruence|]; exfalso; apply in_ids in H; [apply (N2 (k_id k)); [exact H|left]|contradiction].
    + rewrite lookup_insert, decide_True by reflexivity. split; [intros [= <-]; left; right; right; left; auto|]. intros [[H|[[E _]|[[_ ->]|[]]]]|H]; [|congruence|reflexivity|]; exfalso; apply Hm_ids; apply in_ids in H; rewrite !map_app, !elem_of_app; auto.
    + rewrite lookup_insert_ne by congruence. rewrite (r_blocks _ _ _ _ R), nodes_app. cbn [nodes_in head_or]. split; [intros [[H|[[E _]|[]]]|H]; auto; congruence|intros [[H|[[E _]|[[E _]|[]]]]|H]; auto; cbn in E; congruence].
Qed.

(** ** Rewinding the chains *)

(** A list is linked in the heap up to its end. *)
Fixpoint linked (bs : gmap Z code_block_t) (l : list blk) : Prop :=
  match l with
  | [] => True
  | k :: l => bs !! k_id k = Some (CodeBlock (head_or l 0) (k_used k) (k_cap k)) /\ linked bs l
  end.
Lemma linked_same bs bs' l : (forall k, k ∈ l -> bs' !! k_id k = bs !! k_id k) -> linked bs l -> linked bs' l.
Proof. induction l as [|k l IH]; intros H; [auto|]. intros [H1 H2]. split; [rewrite H by left; exact H1|apply IH; [intros; apply H; right; assumption|exact H2]]. Qed.
Lemma rep_linked a w l1 l2 l' : rep a w (l1 ++ l2) l' -> linked (sm_blocks w) l2.
Proof. intros R. revert l1 R. induction l2 as [|k l2 IH]; intros l1 R; [exact I|]. split; [apply (rep_node R l1 k l2 eq_refl)|]. apply (IH (l1 ++ [k])). rewrite <- app_assoc. exact R. Qed.
Lemma free_chain_ok l : forall fuel bs, linked bs l -> NoDup (map k_id l) -> Forall (fun k => k_id k <> 0) l -> (length l <= fuel)%nat ->
  exists bs', free_chain fuel bs (head_or l 0) = Some bs' /\ forall x, bs' !! x = if bool_decide (x ∈ map k_id l) then None else bs !! x.
Proof.
  induction l as [|k l IH]; intros fuel bs Hl Hnd H0 Hf.
  - exists bs. split; [destruct fuel; reflexivity|]. intros x. rewrite bool_decide_false; [reflexivity|]. intros H. inversion H.
  - destruct fuel as [|fuel]; [cbn in Hf; lia|]. destruct Hl as [Hk Hl]. cbn [map] in Hnd. apply NoDup_cons in Hnd as [N1 N2]. apply Forall_cons in H0 as [Hz H0]. cbn [free_chain head_or]. destruct (Z.eqb_spec (k_id k) 0); [contradiction|]. rewrite Hk. cbn [cb_next].
    destruct (IH fuel (delete (k_id k) bs)) as (bs' & E & H'); [|exact N2|exact H0|cbn in Hf; lia|].
    { apply (linked_same bs); [|exact Hl]. intros k' Hk'. apply lookup_delete_ne. intros E. apply N1. rewrite E. apply list_elem_of_fmap. eauto. }
    exists bs'. split; [exact E|]. intros x. rewrite H'. cbn [map]. destruct (decide (x = k_id k)) as [->|Hx].
    + rewrite (bool_decide_true (k_id k ∈ k_id k :: map k_id l)) by left. case_bool_decide; [reflexivity|]. rewrite lookup_delete, decide_True by reflexivity. reflexivity.
    + rewrite lookup_delete_ne by congruence. do 2 case_bool_decide; try reflexivity; exfalso; [apply H1; right; assumption|]. apply elem_of_cons in H1 as [|]; contradiction.
Qed.
Lemma live_size a w l l' : rep a w l l' -> (length l <= size (sm_blocks w))%nat.
Proof.
  intros R. pose proof (rep_nodup R) as Hn. rewrite map_app in Hn. apply NoDup_app in Hn as (Hn & _ & _). rewrite <- (length_map k_id l), <- (size_list_to_set (C := gset Z)) by exact Hn. rewrite <- size_dom. apply subseteq_size. intros x Hx.
  apply elem_of_list_to_set, list_elem_of_fmap in Hx as (k & -> & Hk). destruct (rep_lookup R k) as (n & H & _); [apply elem_of_app; auto|]. apply elem_of_dom_2 in H. exact H.
Qed.
Lemma rep_free a w l1 l2 l' : rep a w (l1 ++ l2) l' -> exists bs', free_from w (head_or l2 0) = Some (set_blocks bs' w) /\ forall x, bs' !! x = if bool_decide (x ∈ map k_id l2) then None else sm_blocks w !! x.
Proof.
  intros R. pose proof (rep_nodup R) as Hn. rewrite !map_app in Hn. apply NoDup_app in Hn as (Hn & _ & _). apply NoDup_app in Hn as (_ & _ & Hn). unfold free_from.
  destruct (free_chain_ok l2 (size (sm_blocks w)) (sm_blocks w)) as (bs' & -> & H); [eapply rep_linked, R|exact Hn| |pose proof (live_size _ _ _ _ R) as Hs; rewrite length_app in Hs; lia|eauto].
  apply List.Forall_forall. intros k Hk. pose proof (rep_ok R k) as (K & _); [apply elem_of_app; left; apply elem_of_app; right; apply list_elem_of_In, Hk|lia].
Qed.
(** The blocks after [k] are freed and [k] becomes the last one. *)
Lemma rep_cut a w l1 k l2 l' : rep a w (l1 ++ k :: l2) l' ->
  exists w1 w2, free_from w (head_or l2 0) = Some w1 /\ set_next w1 (k_id k) 0 = Some w2 /\ ch_head (chain_of a w2) = head_or (l1 ++ [k]) 0 /\
    rep a (set_chain a (Chain (head_or (l1 ++ [k]) 0) (k_id k)) w2) (l1 ++ [k]) l' /\ sm_bytes w2 = sm_bytes w /\ code_interns w2 = code_interns w.
Proof.
  intros R. pose proof (rep_nodup R) as Hnd. assert (R0 : rep a w ((l1 ++ [k]) ++ l2) l') by (rewrite <- app_assoc; exact R). destruct (rep_free a w (l1 ++ [k]) l2 l' R0) as (bs' & E & H). rewrite E. exists (set_blocks bs' w). unfold set_next. cbn [sm_blocks set_blocks].
  rewrite map_app, map_app, <- app_assoc in Hnd. cbn [map app] in Hnd. apply NoDup_app in Hnd as (N1 & N2 & N3). apply NoDup_cons in N3 as [N3 N4]. rewrite elem_of_app in N3. apply NoDup_app in N4 as (N4 & N5 & N6).
  rewrite H, bool_decide_false by tauto. rewrite (rep_node R l1 k l2 eq_refl). eexists. split; [reflexivity|]. split; [reflexivity|]. split; [rewrite !chain_blocks, (r_chain _ _ _ _ R); destruct l1; reflexivity|].
  assert (Hc : sm_bytes w = sm_bytes w) by reflexivity. split; [|auto]. constructor.
  - rewrite chain_same, last_snoc_id. reflexivity.
  - rewrite chain_other, !chain_blocks. apply (r_other _ _ _ _ R).
  - intros b n. rewrite blocks_of_chain. cbn [sm_blocks set_blocks cb_used cb_capacity]. rewrite nodes_app. cbn [nodes_in head_or]. destruct (decide (b = k_id k)) as [->|Hne].
    + rewrite lookup_insert, decide_True by reflexivity. split; [intros [= <-]; auto|]. intros [[Hn|[[_ ->]|[]]]|Hn]; [|reflexivity|]; exfalso; apply in_ids in Hn; [apply (N2 (k_id k)); [exact Hn|left]|tauto].
    + rewrite lookup_insert_ne by congruence. rewrite H. case_bool_decide as Hb.
      * split; [discriminate|]. intros [[Hn|[[E' _]|[]]]|Hn]; [|congruence|]; exfalso; apply in_ids in Hn; [apply (N2 b); [exact Hn|right; apply elem_of_app; auto]|apply (N5 b); assumption].
      * rewrite (r_blocks _ _ _ _ R), nodes_app. cbn [nodes_in head_or]. split; [intros [[Hn|[[E' _]|Hn]]|Hn]; auto; try congruence; apply in_ids in Hn; contradiction|intros [[Hn|[[E' _]|[]]]|Hn]; auto; congruence].
  - pose proof (r_ok _ _ _ _ R) as Ho. rewrite !List.Forall_app in *. destruct Ho as [[H1 H2] H3]. inversion H2; subst. auto.
  - pose proof (r_apart _ _ _ _ R) as Ho. rewrite !pairs_app in *. destruct Ho as ((A1 & A2 & A3) & A4 & A5). splits; auto; [repeat constructor|intros x y Hx Hy; apply elem_of_cons in Hy as [->|Hy]; [apply A3; [exact Hx|left]|inversion Hy]|].
    intros x y Hx Hy. apply A5; [|exact Hy]. apply elem_of_app in Hx as [Hx|Hx]; [apply elem_of_app; auto|]. apply elem_of_cons in Hx as [->|Hx]; [apply elem_of_app; right; left|inversion Hx].
Qed.
Lemma rep_clear a w l l' : rep a w l l' -> exists w1, free_from w (head_or l 0) = Some w1 /\ rep a (set_chain a (Chain 0 0) w1) [] l' /\ sm_bytes w1 = sm_bytes w /\ code_interns w1 = code_interns w.
Proof.
  intros R. destruct (rep_free a w [] l l' R) as (bs' & E & H). rewrite E. eexists. split; [reflexivity|]. split; [|auto]. pose proof (rep_nodup R) as Hnd. rewrite map_app in Hnd. apply NoDup_app in Hnd as (_ & N2 & _).
  constructor; [apply chain_same|rewrite chain_other, chain_blocks; apply (r_other _ _ _ _ R)| | |].
  - intros b n. rewrite blocks_of_chain. cbn [sm_blocks set_blocks nodes_in]. rewrite H. case_bool_decide as Hb; [split; [discriminate|intros [[]|Hn]; exfalso; apply (N2 b Hb); eapply in_ids, Hn]|]. rewrite (r_blocks _ _ _ _ R).
    split; [intros [Hn|Hn]; auto; apply in_ids in Hn; contradiction|intros [[]|Hn]; auto].
  - pose proof (r_ok _ _ _ _ R) as Ho. rewrite List.Forall_app in Ho. apply Ho.
  - pose proof (r_apart _ _ _ _ R) as Ho. rewrite pairs_app in Ho. apply Ho.
Qed.

(** ** Pruning the table *)

Definition in_payload (e : intern_entry_t) (k : blk) : bool := (data_of (k_id k) <=? e.1) && (e.1 <? data_of (k_id k) + k_cap k).
Lemma rep_interns a es w l l' : rep a w l l' -> rep a (set_interns es w) l l'.
Proof. intros [H1 H2 H3 H4 H5]. constructor; auto; destruct a; assumption. Qed.
Lemma rep_bytes a f w l l' : rep a w l l' -> rep a (set_bytes f w) l l'.
Proof. intros [H1 H2 H3 H4 H5]. constructor; auto; destruct a; assumption. Qed.
Lemma filter_twice {A} (p q : A -> bool) l : List.filter q (List.filter p l) = List.filter (fun x => p x && q x) l.
Proof. induction l as [|x l IH]; [reflexivity|]. cbn. destruct (p x) eqn:E; cbn; [destruct (q x); rewrite IH; reflexivity|exact IH]. Qed.
Lemma filter_same {A} (p q : A -> bool) l : (forall x, p x = q x) -> List.filter p l = List.filter q l.
Proof. intros H. induction l as [|x l IH]; [reflexivity|]. cbn. rewrite H, IH. reflexivity. Qed.
Lemma prune_chain_ok l : forall fuel w, linked (sm_blocks w) l -> Forall (fun k => k_id k <> 0) l -> (length l <= fuel)%nat ->
  prune_chain fuel w (head_or l 0) = Some (set_interns (List.filter (fun e => negb (existsb (in_payload e) l)) (code_interns w)) w).
Proof.
  induction l as [|k l IH]; intros fuel w Hl H0 Hf.
  - assert (E : List.filter (fun e => negb (existsb (in_payload e) [])) (code_interns w) = code_interns w) by (cbn; induction (code_interns w) as [|e es IHe]; [reflexivity|cbn; rewrite IHe; reflexivity]). rewrite E. destruct w, fuel; reflexivity.
  - destruct fuel as [|fuel]; [cbn in Hf; lia|]. destruct Hl as [Hk Hl]. apply Forall_cons in H0 as [Hz H0]. cbn [prune_chain head_or]. unfold code_interns_prune_for_block_range. destruct (Z.eqb_spec (k_id k) 0); [contradiction|]. rewrite Hk. cbn [cb_next cb_capacity].
    rewrite IH; [|exact Hl|exact H0|cbn in Hf; lia]. cbn [code_interns set_interns]. rewrite filter_twice. unfold set_interns. cbn. do 2 f_equal. apply filter_same. intros e. cbn [existsb]. rewrite negb_orb. unfold in_payload at 2. rewrite Z.add_0_r. reflexivity.
Qed.
Lemma rep_nonzero a w l l' : rep a w l l' -> Forall (fun k => k_id k <> 0) l.
Proof. intros R. apply List.Forall_forall. intros k Hk. pose proof (rep_ok R k) as (K & _); [apply elem_of_app; left; apply list_elem_of_In, Hk|lia]. Qed.
Lemma prune_blocks_ok a w l1 l2 l' : rep a w (l1 ++ l2) l' ->
  code_interns_prune_for_blocks w (head_or l2 0) = Some (set_interns (List.filter (fun e => negb (existsb (in_payload e) l2)) (code_interns w)) w).
Proof.
  intros R. apply prune_chain_ok; [eapply rep_linked, R|pose proof (rep_nonzero _ _ _ _ R) as H; apply Forall_app in H; apply H|]. pose proof (live_size _ _ _ _ R) as H. rewrite length_app in H. lia.
Qed.

(** *** The memory of the chains *)

Definition block_bytes (k : code_block_t) : Z := sizeof_block + cb_capacity k.
Definition live_bytes (w : source_mem) : Z := foldr Z.add 0 (map (fun kb => block_bytes kb.2) (map_to_list (sm_blocks w))).
Definition chain_bytes (l : list blk) : Z := foldr Z.add 0 (map (fun k => sizeof_block + k_cap k) l).
Fixpoint nodes_list (l : list blk) (h : Z) : list (Z * code_block_t) :=
  match l with [] => [] | k :: l => (k_id k, CodeBlock (head_or l h) (k_used k) (k_cap k)) :: nodes_list l h end.
Lemma nodes_list_in l h b n : (b, n) ∈ nodes_list l h <-> nodes_in l h b n.
Proof. induction l as [|k l IH]; cbn; [split; [intros H; inversion H|tauto]|]. rewrite elem_of_cons, IH. split; (intros [H|H]; [left|auto]); [injection H as -> ->; auto|destruct H as [-> ->]; reflexivity]. Qed.
Lemma nodes_list_ids l h : map fst (nodes_list l h) = map k_id l.
Proof. induction l as [|k l IH]; cbn; [|rewrite IH]; reflexivity. Qed.
Lemma nodes_list_bytes l h : foldr Z.add 0 (map (fun kb => block_bytes kb.2) (nodes_list l h)) = chain_bytes l.
Proof. unfold chain_bytes. induction l as [|k l IH]; [reflexivity|]. cbn. rewrite IH. reflexivity. Qed.
Lemma get_memory_ok l : forall fuel w, linked (sm_blocks w) l -> Forall (fun k => k_id k <> 0) l -> (length l <= fuel)%nat -> arena_get_memory fuel w (head_or l 0) = Some (chain_bytes l).
Proof.
  induction l as [|k l IH]; intros fuel w Hl H0 Hf; [destruct fuel; reflexivity|]. destruct fuel as [|fuel]; [cbn in Hf; lia|]. destruct Hl as [Hk Hl]. apply Forall_cons in H0 as [Hz H0]. cbn [arena_get_memory head_or]. destruct (Z.eqb_spec (k_id k) 0); [contradiction|].
  rewrite Hk. cbn [cb_next cb_capacity]. rewrite IH; [reflexivity|exact Hl|exact H0|cbn in Hf; lia].
Qed.
Lemma memory_chain a w l l' : rep a w l l' -> arena_get_memory (size (sm_blocks w)) w (ch_head (chain_of a w)) = Some (chain_bytes l).
Proof. intros R. rewrite (r_chain _ _ _ _ R). cbn [ch_head]. apply get_memory_ok; [apply (rep_linked a w [] l l'), R|eapply rep_nonzero, R|]. pose proof (live_size _ _ _ _ R) as H. lia. Qed.
Lemma sum_perm l l' : l ≡ₚ l' -> foldr Z.add 0 l = foldr Z.add 0 l'.
Proof. induction 1; cbn; lia. Qed.
(** No block is in both chains, and none is in neither. *)
Lemma live_chains a w l l' : rep a w l l' -> live_bytes w = chain_bytes l + chain_bytes l'.
Proof.
  intros R. assert (E : map_to_list (sm_blocks w) ≡ₚ nodes_list l 0 ++ nodes_list l' 0).
  { apply NoDup_Permutation; [apply NoDup_map_to_list|apply (NoDup_fmap_1 fst); change (fst <$> ?x) with (map fst x); rewrite map_app, !nodes_list_ids, <- map_app; apply (rep_nodup R)|]. intros [b n]. rewrite elem_of_app, !nodes_list_in, elem_of_map_to_list. apply (r_blocks _ _ _ _ R). }
  unfold live_bytes. rewrite (sum_perm _ _ (Permutation_map (fun kb => block_bytes kb.2) E)), map_app, foldr_app, <- (nodes_list_bytes l 0), <- (nodes_list_bytes l' 0). induction (map _ (nodes_list l 0)) as [|x xs IH]; cbn; lia.
Qed.

(** ** Pieces and snapshots *)

Definition pc_apart (p q : piece_t) : Prop := pc_ptr p + pc_len p <= pc_ptr q \/ pc_ptr q + pc_len q <= pc_ptr p.
Definition in_used (k : blk) (pc : piece_t) : Prop := data_of (k_id k) <= pc_ptr pc /\ pc_ptr pc + pc_len pc <= data_of (k_id k) + k_used k.
Definition pieces_ok (l : list blk) (ps : list piece_t) : Prop :=
  Forall (fun pc => 0 < pc_len pc /\ (pc_text pc = None -> pc_ptr pc mod 8 = 0) /\ exists k, k ∈ l /\ in_used k pc) ps /\ ForallOrdPairs pc_apart ps.
(** The chain [l] has grown from [l0]. *)
Definition extends (l0 l : list blk) : Prop :=
  l0 = [] \/ exists l1 k u l2, l0 = l1 ++ [k] /\ l = l1 ++ Blk (k_id k) u (k_cap k) :: l2 /\ k_used k <= u.
(** A piece that begins past what [l0] uses. *)
Definition above (l0 : list blk) (pc : piece_t) : Prop := forall k, k ∈ l0 -> pc_ptr pc < data_of (k_id k) \/ data_of (k_id k) + k_used k <= pc_ptr pc.
Definition snap_ok (l : list blk) (ps : list piece_t) : Prop := pieces_ok l ps /\ Forall (fun k => 0 <= k_used k) l.
Fixpoint stack_ok (l : list blk) (ps : list piece_t) (snaps : list (list blk * list piece_t)) : Prop :=
  match snaps with
  | [] => True
  | (l0, ps0) :: r => extends l0 l /\ (exists newer, ps = newer ++ ps0 /\ Forall (above l0) newer) /\ snap_ok l0 ps0 /\ stack_ok l0 ps0 r
  end.
Definition marks_of (snaps : list (list blk * list piece_t)) : list (code_arena_mark_t * list piece_t) := map (fun s => (mark_of s.1, s.2)) snaps.
Definition arena_inv (l : list blk) (ps : list piece_t) (marks : list (code_arena_mark_t * list piece_t)) : Prop :=
  pieces_ok l ps /\ exists snaps, marks = marks_of snaps /\ stack_ok l ps snaps.

Lemma blk_eta k : Blk (k_id k) (k_used k) (k_cap k) = k.
Proof. destruct k. reflexivity. Qed.
Lemma extends_refl l : extends l l.
Proof. destruct (snoc_cases l) as [->|(l0 & k & ->)]; [left; reflexivity|right]. exists l0, k, (k_used k), []. rewrite blk_eta. splits; auto. lia. Qed.
Lemma extends_use l0 k u : k_used k <= u -> extends (l0 ++ [k]) (l0 ++ [Blk (k_id k) u (k_cap k)]).
Proof. intros H. right. exists l0, k, u, []. auto. Qed.
Lemma extends_new l k : extends l (l ++ [k]).
Proof. destruct (snoc_cases l) as [->|(l0 & x & ->)]; [left; reflexivity|right]. exists l0, x, (k_used x), [k]. rewrite blk_eta, <- app_assoc. splits; auto. lia. Qed.
Lemma extends_trans l0 l1 l2 : extends l0 l1 -> extends l1 l2 -> extends l0 l2.
Proof.
  intros [->|(p & k & u & q & -> & -> & Hu)] H; [left; reflexivity|right]. destruct H as [H|(p' & k' & u' & q' & E & -> & Hu')]; [destruct p; discriminate|]. destruct (snoc_cases q) as [->|(q0 & x & ->)].
  - apply app_inj_tail in E as [-> <-]. cbn [k_id k_used k_cap] in *. exists p', k, u', q'. splits; auto. lia.
  - rewrite app_comm_cons, app_assoc in E. apply app_inj_tail in E as [<- <-]. rewrite <- app_assoc. cbn [app]. exists p, k, u, (q0 ++ Blk (k_id x) u' (k_cap x) :: q'). splits; auto.
Qed.
(** A block of the older chain is still there. *)
Lemma extends_blk l0 l k : extends l0 l -> k ∈ l0 -> exists k', k' ∈ l /\ k_id k' = k_id k /\ k_cap k' = k_cap k /\ k_used k <= k_used k'.
Proof.
  intros [->|(p & x & u & q & -> & -> & Hu)] Hk; [inversion Hk|]. apply elem_of_app in Hk as [Hk|Hk]; [exists k; splits; auto; [apply elem_of_app; auto|lia]|]. apply elem_of_cons in Hk as [->|Hk]; [|inversion Hk].
  eexists. split; [apply elem_of_app; right; left|]. auto.
Qed.
Lemma above_older l0 l pc : extends l0 l -> above l pc -> above l0 pc.
Proof. intros He Ha k Hk. destruct (extends_blk l0 l k He Hk) as (k' & H1 & H2 & _ & H3). destruct (Ha k' H1) as [H|H]; rewrite H2 in H; [left; exact H|right; lia]. Qed.
Lemma pieces_extend l0 l ps : extends l0 l -> pieces_ok l0 ps -> pieces_ok l ps.
Proof.
  intros He [H1 H2]. split; [|exact H2]. eapply Forall_impl; [exact H1|]. cbn. intros pc (Hl & Hal & k & Hk & Hu). split; [exact Hl|]. split; [exact Hal|]. destruct (extends_blk l0 l k He Hk) as (k' & K1 & K2 & _ & K3). exists k'. split; [exact K1|]. unfold in_used in *. rewrite K2. lia.
Qed.
Lemma above_apart l ps pc : pieces_ok l ps -> 0 < pc_len pc -> above l pc -> (forall k, k ∈ l -> pc_ptr pc + pc_len pc <= data_of (k_id k) \/ data_of (k_id k) <= pc_ptr pc) -> Forall (pc_apart pc) ps.
Proof.
  intros [H _] Hl Ha Hb. eapply Forall_impl; [exact H|]. cbn. intros q (Hq & _ & k & Hk & [U1 U2]). unfold pc_apart. destruct (Ha k Hk), (Hb k Hk); lia.
Qed.
Lemma stack_grow l ps snaps l2 pc : stack_ok l ps snaps -> extends l l2 -> above l pc -> stack_ok l2 (pc :: ps) snaps.
Proof.
  destruct snaps as [|[l0 ps0] r]; [auto|]. intros (H1 & (newer & -> & H2) & H3 & H4) He Ha. split; [eapply extends_trans; eassumption|]. split; [|auto]. exists (pc :: newer). split; [reflexivity|]. constructor; [eapply above_older; eassumption|exact H2].
Qed.
Lemma stack_drop snaps : forall n l ps l0 ps0 r, stack_ok l ps snaps -> drop n snaps = (l0, ps0) :: r ->
  extends l0 l /\ (exists newer, ps = newer ++ ps0 /\ Forall (above l0) newer) /\ snap_ok l0 ps0 /\ stack_ok l0 ps0 r.
Proof.
  induction snaps as [|[l1 ps1] snaps IH]; intros n l ps l0 ps0 r H Hd; [rewrite drop_nil in Hd; discriminate|]. destruct n as [|n]; [injection Hd as -> -> ->; exact H|].
  destruct H as (H1 & (newer & -> & H2) & _ & H4). destruct (IH n l1 ps1 l0 ps0 r H4 Hd) as (I1 & (newer' & -> & I2) & I3). split; [eapply extends_trans; eassumption|]. split; [|exact I3].
  exists (newer ++ newer'). split; [apply app_assoc|]. apply Forall_app. split; [|exact I2]. eapply Forall_impl; [exact H2|]. cbn. intros pc Hpc. eapply above_older; eassumption.
Qed.

(** ** Taking a piece *)

Lemma align8_spec n : 0 <= n < 2 ^ 63 -> align8 n mod 8 = 0 /\ n <= align8 n < n + 8.
Proof.
  intros H. unfold align8, CODE_ARENA_ALIGNMENT. rewrite wrap_small by lia. change (8 - 1) with (Z.ones 3). rewrite Z.ldiff_ones_r by lia. rewrite Z.shiftr_div_pow2, Z.shiftl_mul_pow2 by lia. change (2 ^ 3) with 8. change (Z.ones 3) with 7.
  split; [apply Z.mod_mul; lia|]. Z.to_euclidean_division_equations. lia.
Qed.
Lemma inv_new_block l ps marks k : arena_inv l ps marks -> arena_inv (l ++ [k]) ps marks.
Proof.
  intros [H (snaps & -> & Hs)]. split; [eapply pieces_extend; [apply extends_new|exact H]|]. exists snaps. split; [reflexivity|]. destruct snaps as [|[l0 ps0] r]; [exact I|]. destruct Hs as (H1 & H2). split; [eapply extends_trans; [exact H1|apply extends_new]|exact H2].
Qed.
Lemma inv_use l0 k ps marks pc u : arena_inv (l0 ++ [k]) ps marks -> 0 < pc_len pc -> (pc_text pc = None -> pc_ptr pc mod 8 = 0) -> u = pc_ptr pc + pc_len pc - data_of (k_id k) ->
  data_of (k_id k) + k_used k <= pc_ptr pc -> u <= k_cap k -> ForallOrdPairs apart (l0 ++ [k]) -> Forall blk_ok (l0 ++ [k]) ->
  arena_inv (l0 ++ [Blk (k_id k) u (k_cap k)]) (pc :: ps) marks /\ above (l0 ++ [k]) pc.
Proof.
  intros [H (snaps & -> & Hs)] Hl Hal -> Hp Hu Hap Hok. set (u := pc_ptr pc + pc_len pc - data_of (k_id k)) in *. apply pairs_app in Hap as (_ & _ & Hap). rewrite List.Forall_app in Hok. destruct Hok as [Ok1 Ok2]. inversion Ok2 as [|? ? (B1 & _ & B3 & _) _]; subst.
  assert (He : extends (l0 ++ [k]) (l0 ++ [Blk (k_id k) u (k_cap k)])) by (apply extends_use; unfold u; lia).
  assert (Hside : forall k', k' ∈ l0 ++ [k] -> (pc_ptr pc + pc_len pc <= data_of (k_id k') \/ data_of (k_id k') <= pc_ptr pc) /\ (pc_ptr pc < data_of (k_id k') \/ data_of (k_id k') + k_used k' <= pc_ptr pc)).
  { intros k' Hk'. apply elem_of_app in Hk' as [Hk'|Hk']; [|apply elem_of_cons in Hk' as [->|Hk']; [lia|inversion Hk']]. rewrite List.Forall_forall in Ok1. destruct (Ok1 k') as (_ & _ & B3' & _); [apply list_elem_of_In, Hk'|].
    destruct (Hap k' k Hk' ltac:(left)) as [A|A]; unfold blk_end, data_of, sizeof_block in *; lia. }
  assert (Ha : above (l0 ++ [k]) pc) by (intros k' Hk'; apply Hside, Hk'). split; [|exact Ha]. split.
  - pose proof (pieces_extend _ _ _ He H) as [P1 P2]. split.
    + constructor; [|exact P1]. split; [exact Hl|]. split; [exact Hal|]. eexists. split; [apply elem_of_app; right; left|]. unfold in_used. cbn. unfold u. lia.
    + constructor; [|exact P2]. apply (above_apart (l0 ++ [k])); auto. intros k' Hk'. apply Hside, Hk'.
  - exists snaps. split; [reflexivity|]. eapply stack_grow; eassumption.
Qed.
Lemma rep_own a w l l' : rep a w l l' -> ForallOrdPairs apart l /\ Forall blk_ok l.
Proof. intros [_ _ _ H1 H2]. rewrite List.Forall_app in H1. rewrite pairs_app in H2. tauto. Qed.

(** A piece of [n] bytes is taken at [p]; nothing else changes. *)
Definition took (a : which) (w : source_mem) (l' : list blk) (ps : list piece_t) (marks : list (code_arena_mark_t * list piece_t)) (p n : Z) (w' : source_mem) : Prop :=
  0 < p /\ sm_bytes w' = sm_bytes w /\ code_interns w' = code_interns w /\
  exists l2, rep a w' l2 l' /\ forall t, (t = None -> p mod 8 = 0) -> arena_inv l2 (Piece p n t :: ps) marks.
Lemma take_ok a w l0 k l' ps marks used n : rep a w (l0 ++ [k]) l' -> arena_inv (l0 ++ [k]) ps marks -> k_used k <= used -> 0 < n -> used + n <= k_cap k ->
  exists w', take_piece a w used n = Some (data_of (k_id k) + used, w') /\ took a w l' ps marks (data_of (k_id k) + used) n w'.
Proof.
  intros R Hi Hu Hn Hc. unfold take_piece. rewrite (r_chain _ _ _ _ R). cbn [ch_current]. rewrite last_snoc_id. pose proof (rep_ok R k) as (K1 & _ & K3 & K4); [apply elem_of_app; left; apply elem_of_app; right; left|]. rewrite wrap_small by (unfold sizeof_block in *; lia).
  destruct (rep_set_block_used a w l0 k [] l' (used + n) R) as (w' & -> & R' & E1 & E2); [lia|]. exists w'. split; [reflexivity|]. destruct (rep_own _ _ _ _ R) as [O1 O2]. unfold took. splits; auto; [unfold data_of, sizeof_block; lia|]. eexists. split; [exact R'|]. intros t Ht.
  apply (inv_use l0 k ps marks (Piece (data_of (k_id k) + used) n t) (used + n)); auto; cbn; lia.
Qed.
Lemma fresh_ok a w l l' ps marks size n m : rep a w l l' -> arena_inv l ps marks -> 0 < n <= size -> size < 2 ^ 62 + 8 -> malloc_fresh w m (sizeof_block + new_capacity size) -> m <> 0 ->
  exists w1 w2 w3, code_arena_new_block w size m = Some w1 /\ link_block a w1 m = Some w2 /\ take_piece a w2 0 n = Some (data_of m, w3) /\ took a w l' ps marks (data_of m) n w3.
Proof.
  intros R Hi Hn Hs Hm H0. destruct (rep_new_block a w l l' size m R ltac:(lia) Hm H0) as (w1 & w2 & E1 & E2 & R2 & B2 & I2). destruct (capacity_ge size ltac:(lia)) as [C1 C2].
  destruct (take_ok a w2 l (Blk m 0 (new_capacity size)) l' ps marks 0 n R2 (inv_new_block _ _ _ _ Hi)) as (w3 & E3 & (T1 & T2 & T3 & T4)); [cbn; lia|lia|cbn; lia|]. cbn [k_id] in *. rewrite Z.add_0_r in *.
  exists w1, w2, w3. unfold took. rewrite <- B2, <- I2. auto 10.
Qed.
Lemma arena_bump_ok a w l l' ps marks size m : rep a w l l' -> arena_inv l ps marks -> 0 < size < 2 ^ 62 -> malloc_fresh w m (sizeof_block + new_capacity (align8 size)) ->
  arena_bump a w size m = Some (0, w) \/ exists p w', arena_bump a w size m = Some (p, w') /\ took a w l' ps marks p (align8 size) w' /\ p mod 8 = 0.
Proof.
  intros R Hi Hs Hm. destruct (align8_spec size ltac:(lia)) as [A1 A2]. unfold arena_bump.
  assert (F : let r := match code_arena_new_block w (align8 size) m with None => Some (0, w) | Some w => match link_block a w m with Some w => take_piece a w 0 (align8 size) | None => None end end in
    r = Some (0, w) \/ exists p w', r = Some (p, w') /\ took a w l' ps marks p (align8 size) w' /\ p mod 8 = 0).
  { destruct (Z.eq_dec m 0) as [->|H0]; [left; reflexivity|right]. destruct (fresh_ok a w l l' ps marks (align8 size) (align8 size) m R Hi ltac:(lia) ltac:(lia) Hm H0) as (w1 & w2 & w3 & E1 & E2 & E3 & T). cbv zeta. rewrite E1, E2, E3. exists (data_of m), w3. splits; auto.
    destruct Hm as [|(_ & H8 & _)]; [contradiction|]. unfold data_of, sizeof_block. rewrite Z.add_mod, H8 by lia. reflexivity. }
  rewrite (r_chain _ _ _ _ R). cbn [ch_current]. destruct (snoc_cases l) as [->|(l0 & k & ->)]; [exact F|]. rewrite last_snoc_id. pose proof (rep_ok R k) as (K1 & K2 & K3 & K4); [apply elem_of_app; left; apply elem_of_app; right; left|].
  destruct (Z.eqb_spec (k_id k) 0); [lia|]. rewrite (rep_node R l0 k [] eq_refl). cbn [cb_used cb_capacity]. destruct (align8_spec (k_used k)) as [A3 A4]; [unfold sizeof_block in *; lia|]. rewrite wrap_small by (unfold sizeof_block in *; lia). destruct (Z.ltb_spec (k_cap k) (align8 (k_used k) + align8 size)); [exact F|right].
  destruct (take_ok a w l0 k l' ps marks (align8 (k_used k)) (align8 size) R Hi) as (w' & E & T); [lia|lia|lia|]. exists (data_of (k_id k) + align8 (k_used k)), w'. splits; auto. unfold data_of, sizeof_block. rewrite Z.add_mod, (Z.add_mod (k_id k)), K2, A3 by lia. reflexivity.
Qed.

(** ** Bytes *)

Lemma bytes_at_length f p n : length (bytes_at f p n) = n.
Proof. unfold bytes_at. rewrite length_map, length_seq. reflexivity. Qed.
Lemma bytes_at_same f p s : bytes_at (store_at f p s) p (length s) = s.
Proof.
  unfold bytes_at. apply (nth_ext _ _ 0 0); [rewrite length_map, length_seq; reflexivity|]. intros i Hi. rewrite length_map, length_seq in Hi. rewrite (nth_indep _ 0 (store_at f p s (p + Z.of_nat 0))) by (rewrite length_map, length_seq; lia).
  rewrite (map_nth (fun k => store_at f p s (p + Z.of_nat k)) (seq 0 (length s)) 0%nat i), seq_nth by lia. unfold store_at, zlen. destruct (Z.leb_spec p (p + Z.of_nat (0 + i))), (Z.ltb_spec (p + Z.of_nat (0 + i)) (p + Z.of_nat (length s))); try lia. cbn [andb]. unfold rd. f_equal. lia.
Qed.
Lemma bytes_at_other f p s q n : p + zlen s <= q \/ q + Z.of_nat n <= p -> bytes_at (store_at f p s) q n = bytes_at f q n.
Proof.
  intros H. unfold bytes_at. apply map_ext_in. intros k Hk. apply in_seq in Hk. unfold store_at. destruct (Z.leb_spec p (q + Z.of_nat k)), (Z.ltb_spec (q + Z.of_nat k) (p + zlen s)); cbn [andb]; try reflexivity. lia.
Qed.
Lemma live_ok a w l l' k p n : rep a w l l' -> k ∈ l ++ l' -> data_of (k_id k) <= p -> p + n <= data_of (k_id k) + k_cap k -> live_range w p n = true.
Proof.
  intros R Hk H1 H2. destruct (rep_lookup R k Hk) as (m & Hm & _ & Hc). unfold live_range. apply existsb_exists. exists (k_id k, m). split; [apply list_elem_of_In, elem_of_map_to_list, Hm|]. cbn. rewrite Hc. apply andb_true_iff. split; apply Z.leb_le; assumption.
Qed.
Lemma piece_live a w l l' ps pc : rep a w l l' -> pieces_ok l ps -> pc ∈ ps -> forall p n, pc_ptr pc <= p -> p + n <= pc_ptr pc + pc_len pc -> live_range w p n = true.
Proof.
  intros R [H _] Hpc p n H1 H2. rewrite Forall_forall in H. destruct (H pc Hpc) as (_ & _ & k & Hk & U1 & U2). assert (Hk' : k ∈ l ++ l') by (apply elem_of_app; auto). destruct (rep_ok R k Hk') as (_ & _ & K3 & _). apply (live_ok a w l l' k); auto; lia.
Qed.

(** ** The state of both arenas *)

Definition key (w : source_mem) (e : intern_entry_t) : list Z := bytes_at (sm_bytes w) e.1 (Z.to_nat e.2).
Definition texts_ok (w : source_mem) (ps : list piece_t) : Prop :=
  forall pc s, pc ∈ ps -> pc_text pc = Some s -> s <> [] /\ pc_len pc = zlen s + 1 /\ bytes_at (sm_bytes w) (pc_ptr pc) (length (s ++ [0])) = s ++ [0].
Definition interns_ok (w : source_mem) (ps : list piece_t) : Prop :=
  (forall e, e ∈ code_interns w -> exists pc s, pc ∈ ps /\ pc_text pc = Some s /\ pc_ptr pc = e.1 /\ zlen s = e.2) /\ NoDup (map (key w) (code_interns w)).
Definition both (w : source_mem) (c : client) (lc lp : list blk) : Prop :=
  rep CODE w lc lp /\ arena_inv lc (cl_pieces c CODE) (cl_marks c CODE) /\ arena_inv lp (cl_pieces c PARSE) (cl_marks c PARSE) /\
  texts_ok w (cl_pieces c CODE) /\ (forall pc, pc ∈ cl_pieces c PARSE -> pc_text pc = None) /\ interns_ok w (cl_pieces c CODE).
Definition client_inv (w : source_mem) (c : client) : Prop := exists lc lp, both w c lc lp.

Lemma bytes_prefix f p s : bytes_at f p (length (s ++ [0])) = s ++ [0] -> bytes_at f p (length s) = s.
Proof.
  intros H. unfold bytes_at in *. rewrite length_app in H. cbn [length] in H. rewrite seq_app, map_app in H. apply app_inj_2 in H; [apply H|reflexivity].
Qed.
Lemma key_text w ps e pc s : texts_ok w ps -> pc ∈ ps -> pc_text pc = Some s -> pc_ptr pc = e.1 -> zlen s = e.2 -> key w e = s.
Proof. intros H H1 H2 H3 H4. destruct (H pc s H1 H2) as (_ & _ & H5). unfold key. rewrite <- H3, <- H4. unfold zlen. rewrite Nat2Z.id. apply bytes_prefix, H5. Qed.
(** Two pieces are the same or apart, in one arena or in both. *)
Lemma pieces_same l ps p q : pieces_ok l ps -> p ∈ ps -> q ∈ ps -> p = q \/ pc_apart p q.
Proof. intros [_ H] Hp Hq. destruct (ForallOrdPairs_In H p q) as [E|[E|E]]; [apply list_elem_of_In, Hp|apply list_elem_of_In, Hq|auto|auto|right; unfold pc_apart in *; tauto]. Qed.
Lemma pieces_cross a w l l' ps ps' p q : rep a w l l' -> pieces_ok l ps -> pieces_ok l' ps' -> p ∈ ps -> q ∈ ps' -> pc_apart p q.
Proof.
  intros R [Hp _] [Hq _] H1 H2. rewrite Forall_forall in Hp, Hq. destruct (Hp p H1) as (L1 & _ & k & Hk & U1 & U2), (Hq q H2) as (L2 & _ & k' & Hk' & V1 & V2). pose proof (r_apart _ _ _ _ R) as Ha. rewrite pairs_app in Ha. destruct Ha as (_ & _ & Ha). specialize (Ha k k' Hk Hk').
  pose proof (rep_ok R k ltac:(apply elem_of_app; auto)) as (_ & _ & K & _). pose proof (rep_ok R k' ltac:(apply elem_of_app; auto)) as (_ & _ & K' & _). unfold apart, blk_end, pc_apart, data_of, sizeof_block in *. lia.
Qed.

Lemma hash_find_ok w ps code es : texts_ok w ps -> (forall e, e ∈ es -> exists pc s, pc ∈ ps /\ pc_text pc = Some s /\ pc_ptr pc = e.1 /\ zlen s = e.2) ->
  (forall pc s, pc ∈ ps -> pc_text pc = Some s -> live_range w (pc_ptr pc) (zlen s) = true) ->
  (exists p, hash_find w es code = Some (Some p) /\ (p, zlen code) ∈ es /\ key w (p, zlen code) = code) \/ (hash_find w es code = Some None /\ code ∉ map (key w) es).
Proof.
  intros Ht He Hl. induction es as [|[p n] es IH]; [right; split; [reflexivity|intros H; inversion H]|]. cbn [hash_find]. specialize (IH ltac:(intros; apply He; right; assumption)). destruct (He (p, n) ltac:(left)) as (pc & s & H1 & H2 & H3 & H4). cbn [fst snd] in *.
  pose proof (key_text w ps (p, n) pc s Ht H1 H2 H3 H4) as Hk.
  assert (Hrest : code <> s -> (exists q, hash_find w es code = Some (Some q) /\ (q, zlen code) ∈ (p, n) :: es /\ key w (q, zlen code) = code) \/ (hash_find w es code = Some None /\ code ∉ map (key w) ((p, n) :: es))).
  { intros Hne. destruct IH as [(q & Q1 & Q2 & Q3)|[Q1 Q2]]; [left; exists q; splits; auto; right; exact Q2|right; split; [exact Q1|]]. cbn [map]. intros H. apply elem_of_cons in H as [H|H]; [congruence|contradiction]. }
  destruct (Z.eqb_spec n (zlen code)) as [->|Hn]; [|apply Hrest; intros E; apply Hn; rewrite E; congruence]. unfold mem_read. pose proof (Hl pc s H1 H2) as Hlive. rewrite H3, H4 in Hlive. unfold zlen in Hlive. rewrite Hlive. unfold key in Hk. cbn [fst snd] in Hk. unfold zlen in Hk. rewrite Nat2Z.id in Hk. rewrite Hk. case_bool_decide as Hs; [|apply Hrest; congruence].
  left. exists p. splits; auto; [left|]. unfold key. cbn [fst snd]. unfold zlen. rewrite Nat2Z.id. congruence.
Qed.

(** ** Each operation keeps the invariant *)

Lemma texts_same w w' ps : sm_bytes w' = sm_bytes w -> texts_ok w ps -> texts_ok w' ps.
Proof. intros E H pc s. rewrite E. apply H. Qed.
Lemma interns_same w w' ps ps' : sm_bytes w' = sm_bytes w -> code_interns w' = code_interns w -> (forall pc, pc ∈ ps -> pc ∈ ps') -> interns_ok w ps -> interns_ok w' ps'.
Proof.
  intros E1 E2 Hs [H1 H2]. split; [intros e; rewrite E2; intros He; destruct (H1 e He) as (pc & s & P & Q); exists pc, s; auto|]. rewrite E2. erewrite map_ext; [exact H2|]. intros e. unfold key. rewrite E1. reflexivity.
Qed.
Lemma on_same a {A} (x : A) f : on a x f a = x.
Proof. destruct a; reflexivity. Qed.

Lemma bump_inv w c a size m : client_inv w c -> op_allowed w c (Bump a size m) -> exists w' c', run_op w c (Bump a size m) = Some (w', c') /\ client_inv w' c'.
Proof.
  intros (lc & lp & R & Ic & Ip & T & P & I) [Hs Hm]. cbn [run_op]. destruct a.
  - destruct (arena_bump_ok CODE w lc lp (cl_pieces c CODE) (cl_marks c CODE) size m R Ic Hs Hm) as [E|(p & w' & E & (T1 & T2 & T3 & l2 & R2 & I2) & H8)]; rewrite E; [change (0 =? 0) with true; cbv iota; eexists _, _; split; [reflexivity|]; exists lc, lp; unfold both; auto 7|].
    destruct (Z.eqb_spec p 0); [lia|]. eexists _, _. split; [reflexivity|]. exists l2, lp. unfold both, add_piece. cbn [cl_pieces cl_marks on]. splits; auto.
    + intros pc s Hpc Ht. apply elem_of_cons in Hpc as [->|Hpc]; [discriminate|]. rewrite T2. apply T; assumption.
    + eapply interns_same; [exact T2|exact T3| |exact I]. intros. right. assumption.
  - apply rep_swap in R. destruct (arena_bump_ok PARSE w lp lc (cl_pieces c PARSE) (cl_marks c PARSE) size m R Ip Hs Hm) as [E|(p & w' & E & (T1 & T2 & T3 & l2 & R2 & I2) & H8)]; rewrite E; [change (0 =? 0) with true; cbv iota; eexists _, _; split; [reflexivity|]; exists lc, lp; unfold both; apply rep_swap in R; auto 7|].
    destruct (Z.eqb_spec p 0); [lia|]. eexists _, _. split; [reflexivity|]. exists lc, l2. unfold both, add_piece. cbn [cl_pieces cl_marks on]. apply rep_swap in R2. splits; auto.
    + eapply texts_same; eassumption.
    + intros pc Hpc. apply elem_of_cons in Hpc as [->|Hpc]; [reflexivity|apply P, Hpc].
    + eapply interns_same; eauto.
Qed.

Lemma write_inv w c a pc off s : client_inv w c -> op_allowed w c (Write a pc off s) -> exists w' c', run_op w c (Write a pc off s) = Some (w', c') /\ client_inv w' c'.
Proof.
  intros (lc & lp & R & Ic & Ip & T & P & I) (Hpc & Ht & H1 & H2). cbn [run_op]. unfold mem_write.
  assert (Hlive : live_range w (pc_ptr pc + off) (zlen s) = true) by (destruct a; [apply (piece_live CODE w lc lp (cl_pieces c CODE) pc R (proj1 Ic) Hpc); lia|apply (piece_live PARSE w lp lc (cl_pieces c PARSE) pc (rep_swap _ _ _ _ R) (proj1 Ip) Hpc); lia]).
  rewrite Hlive. eexists _, _. split; [reflexivity|].
  assert (Hkeep : forall q t, q ∈ cl_pieces c CODE -> pc_text q = Some t -> forall n, Z.of_nat n <= pc_len q -> bytes_at (store_at (sm_bytes w) (pc_ptr pc + off) s) (pc_ptr q) n = bytes_at (sm_bytes w) (pc_ptr q) n).
  { intros q t Hq Hqt n Hn. apply bytes_at_other. assert (Ha : pc_apart q pc) by (destruct a; [destruct (pieces_same lc _ q pc (proj1 Ic) Hq Hpc) as [->|Ha]; [congruence|exact Ha]|eapply (pieces_cross CODE); [exact R|apply Ic|apply Ip|exact Hq|exact Hpc]]). unfold pc_apart in Ha. lia. }
  exists lc, lp. unfold both. splits; auto; [apply rep_bytes, R| |].
  - intros q t Hq Hqt. destruct (T q t Hq Hqt) as (T1 & T2 & T3). splits; auto. cbn [sm_bytes set_bytes]. rewrite (Hkeep q t Hq Hqt); [exact T3|]. rewrite length_app. unfold zlen in T2. cbn [length]. lia.
  - destruct I as [I1 I2]. split; [exact I1|]. cbn [code_interns set_bytes]. erewrite map_ext_in; [exact I2|]. intros e He. apply list_elem_of_In in He. destruct (I1 e He) as (q & t & Hq & Hqt & E1 & E2). unfold key. cbn [sm_bytes set_bytes]. rewrite <- E1.
    apply (Hkeep q t Hq Hqt). destruct (T q t Hq Hqt) as (_ & T2 & _). rewrite T2, <- E2. unfold zlen. lia.
Qed.

Lemma mark_inv w c a : client_inv w c -> exists w' c', run_op w c (TakeMark a) = Some (w', c') /\ client_inv w' c'.
Proof.
  assert (M : forall a w l l', rep a w l l' -> arena_mark a w = Some (mark_of l)).
  { intros b v l l' R. unfold arena_mark. rewrite (r_chain _ _ _ _ R). cbn [ch_current]. destruct (snoc_cases l) as [->|(l0 & k & ->)]; [reflexivity|]. rewrite last_snoc_id. pose proof (rep_ok R k) as (K & _); [apply elem_of_app; left; apply elem_of_app; right; left|].
    destruct (Z.eqb_spec (k_id k) 0); [lia|]. rewrite (rep_node R l0 k [] eq_refl). unfold mark_of. rewrite last_snoc. reflexivity. }
  assert (Iv : forall a w l l' ps marks, rep a w l l' -> arena_inv l ps marks -> arena_inv l ps ((mark_of l, ps) :: marks)).
  { intros b v l l' ps marks Rb [H (snaps & -> & Hs)]. split; [exact H|]. exists ((l, ps) :: snaps). split; [reflexivity|]. split; [apply extends_refl|]. split; [exists []; split; [reflexivity|constructor]|]. split; [|exact Hs]. split; [exact H|]. destruct (rep_own _ _ _ _ Rb) as [_ Ho]. eapply Forall_impl; [exact Ho|]. intros k (_ & _ & K & _). lia. }
  intros (lc & lp & R & Ic & Ip & T & P & I). cbn [run_op]. destruct a; [rewrite (M CODE w lc lp R)|rewrite (M PARSE w lp lc (rep_swap _ _ _ _ R))]; (eexists _, _; split; [reflexivity|]); exists lc, lp; unfold both; cbn [cl_pieces cl_marks on]; splits; auto; [eapply Iv; [exact R|exact Ic]|eapply Iv; [apply (rep_swap CODE), R|exact Ip]].
Qed.

(** A text that is not in the table gets a piece of its own. *)
Lemma place_inv w c lc lp code p w' (entry_ok : bool) : both w c lc lp -> took CODE w lp (cl_pieces c CODE) (cl_marks c CODE) p (zlen code + 1) w' -> code <> [] -> code ∉ map (key w) (code_interns w) ->
  exists w2, mem_write w' p (code ++ [0]) = Some w2 /\
    let c' := add_piece CODE (Piece p (zlen code + 1) (Some code)) c in
    client_inv (if entry_ok then set_interns ((p, zlen code) :: code_interns w2) w2 else w2) c' /\ existsb (fun pc => pc_ptr pc =? p) (cl_pieces c CODE) = false /\ 0 < p.
Proof.
  intros (R & Ic & Ip & T & P & I) (T1 & T2 & T3 & l2 & R2 & I2) Hne Hnew. set (pc := Piece p (zlen code + 1) (Some code)) in *. specialize (I2 (Some code) ltac:(discriminate)). fold pc in I2.
  assert (Hz : zlen (code ++ [0]) = zlen code + 1) by (unfold zlen; rewrite length_app; cbn [length]; lia). assert (Hz0 : 0 <= zlen code) by (unfold zlen; lia).
  unfold mem_write. rewrite (piece_live CODE w' l2 lp (pc :: cl_pieces c CODE) pc R2 (proj1 I2) ltac:(left)) by (cbn; lia). eexists. split; [reflexivity|]. cbv zeta.
  assert (Hap : forall q, q ∈ cl_pieces c CODE -> pc_apart pc q). { intros q Hq. destruct I2 as [[_ H2] _]. inversion H2 as [|? ? H3 _]; subst. rewrite List.Forall_forall in H3. apply H3, list_elem_of_In, Hq. }
  assert (Hlen : forall q, q ∈ cl_pieces c CODE -> 0 < pc_len q) by (intros q Hq; destruct Ic as [[H _] _]; rewrite Forall_forall in H; apply H, Hq).
  assert (Hkeep : forall q n, q ∈ cl_pieces c CODE -> Z.of_nat n <= pc_len q -> bytes_at (store_at (sm_bytes w') p (code ++ [0])) (pc_ptr q) n = bytes_at (sm_bytes w) (pc_ptr q) n).
  { intros q n Hq Hn. rewrite T2. apply bytes_at_other. specialize (Hap q Hq). unfold pc_apart, pc in Hap. cbn in Hap. lia. }
  assert (Hkey : forall e, e ∈ code_interns w -> key (set_bytes (store_at (sm_bytes w') p (code ++ [0])) w') e = key w e).
  { intros e He. destruct I as [I _]. destruct (I e He) as (q & t & Hq & Hqt & E1 & E2). unfold key. cbn [sm_bytes set_bytes]. rewrite <- E1. apply Hkeep; [exact Hq|]. destruct (T q t Hq Hqt) as (_ & L & _). rewrite L, <- E2. unfold zlen. lia. }
  assert (Hmap : map (key (set_bytes (store_at (sm_bytes w') p (code ++ [0])) w')) (code_interns w') = map (key w) (code_interns w)) by (rewrite T3; apply map_ext_in; intros e He; apply Hkey, list_elem_of_In, He).
  assert (Hself : key (set_bytes (store_at (sm_bytes w') p (code ++ [0])) w') (p, zlen code) = code). { unfold key. cbn [fst snd sm_bytes set_bytes]. unfold zlen. rewrite Nat2Z.id. apply bytes_prefix, bytes_at_same. }
  splits; [|apply not_true_iff_false; intros H; apply existsb_exists in H as (q & Hq & E); apply Z.eqb_eq in E; apply list_elem_of_In in Hq; specialize (Hap q Hq); specialize (Hlen q Hq); unfold pc_apart, pc in Hap; cbn in Hap; lia|exact T1].
  assert (Hboth : forall es, interns_ok (set_interns es (set_bytes (store_at (sm_bytes w') p (code ++ [0])) w')) (pc :: cl_pieces c CODE) -> client_inv (set_interns es (set_bytes (store_at (sm_bytes w') p (code ++ [0])) w')) (add_piece CODE pc c)).
  { intros es He. exists l2, lp. unfold both, add_piece. cbn [cl_pieces cl_marks on]. splits; auto; [apply rep_interns, rep_bytes, R2|].
    intros q t Hq Hqt. apply elem_of_cons in Hq as [->|Hq]; [injection Hqt as <-; splits; auto; cbn [sm_bytes set_bytes set_interns]; apply bytes_at_same|]. destruct (T q t Hq Hqt) as (A & B & C). splits; auto. cbn [sm_bytes set_bytes set_interns]. rewrite Hkeep; [exact C|exact Hq|]. rewrite length_app, B. unfold zlen. cbn [length]. lia. }
  assert (Hold : forall e, e ∈ code_interns w' -> exists q s, q ∈ pc :: cl_pieces c CODE /\ pc_text q = Some s /\ pc_ptr q = e.1 /\ zlen s = e.2) by (rewrite T3; intros e He; destruct I as [I _]; destruct (I e He) as (q & t & Hq & Hqt); exists q, t; split; [right; exact Hq|exact Hqt]).
  destruct entry_ok.
  - apply Hboth. split; [intros e He; apply elem_of_cons in He as [->|He]; [exists pc, code; splits; auto; left|apply Hold, He]|]. cbn [code_interns set_interns set_bytes map]. constructor.
    + change (key (set_interns _ ?x)) with (key x). rewrite Hself, Hmap. exact Hnew.
    + change (key (set_interns _ ?x)) with (key x). rewrite Hmap. apply I.
  - specialize (Hboth (code_interns w')). assert (E : set_interns (code_interns w') (set_bytes (store_at (sm_bytes w') p (code ++ [0])) w') = set_bytes (store_at (sm_bytes w') p (code ++ [0])) w') by (destruct w'; reflexivity). rewrite E in Hboth. apply Hboth. split; [exact Hold|]. cbn [code_interns set_bytes]. rewrite Hmap. apply I.
Qed.

Lemma find_text w c lc lp code : both w c lc lp ->
  (exists p, hash_find w (code_interns w) code = Some (Some p) /\ (p, zlen code) ∈ code_interns w /\ key w (p, zlen code) = code) \/ (hash_find w (code_interns w) code = Some None /\ (code ∉ map (key w) (code_interns w))).
Proof.
  intros (R & Ic & Ip & T & P & I). apply (hash_find_ok w (cl_pieces c CODE)); [exact T|apply I|]. intros pc s Hpc Hs. destruct (T pc s Hpc Hs) as (_ & L & _). apply (piece_live CODE w lc lp (cl_pieces c CODE) pc R (proj1 Ic) Hpc); lia.
Qed.
(** What interning gives: no memory, the text that is there, or a new one. *)
Lemma alloc_cases w c lc lp code m entry_ok : both w c lc lp -> zlen code < 2 ^ 62 -> malloc_fresh w m (sizeof_block + new_capacity (zlen code + 1)) -> code <> [] ->
  (exists p, code_arena_alloc w code m entry_ok = Some (p, w) /\ (p, zlen code) ∈ code_interns w /\ key w (p, zlen code) = code) \/
  (code_arena_alloc w code m entry_ok = Some (0, w)) \/
  exists p w' w2, (code ∉ map (key w) (code_interns w)) /\ took CODE w lp (cl_pieces c CODE) (cl_marks c CODE) p (zlen code + 1) w' /\ mem_write w' p (code ++ [0]) = Some w2 /\
    code_arena_alloc w code m entry_ok = Some (p, if entry_ok then set_interns ((p, zlen code) :: code_interns w2) w2 else w2).
Proof.
  intros B Hs Hm Hne. pose proof B as (R & Ic & Ip & T & P & I). assert (Hz : 0 <= zlen code) by (unfold zlen; lia). unfold code_arena_alloc. destruct (Nat.eqb_spec (length code) 0) as [E|_]; [destruct code; [contradiction|discriminate]|].
  destruct (find_text w c lc lp code B) as [(p & -> & H1 & H2)|[-> Hnew]]; [left; eauto|right]. rewrite (wrap_small 64 (zlen code + 1)) by lia.
  set (place := fun (w : source_mem) (used : Z) => match take_piece CODE w used (zlen code + 1) with None => None | Some (p, w) => match mem_write w p (code ++ [0]) with None => None | Some w => Some (p, if entry_ok then set_interns ((p, zlen code) :: code_interns w) w else w) end end).
  assert (Hplace : forall v used p w', take_piece CODE v used (zlen code + 1) = Some (p, w') -> took CODE w lp (cl_pieces c CODE) (cl_marks c CODE) p (zlen code + 1) w' -> exists p0 w0 w2, (code ∉ map (key w) (code_interns w)) /\
     took CODE w lp (cl_pieces c CODE) (cl_marks c CODE) p0 (zlen code + 1) w0 /\ mem_write w0 p0 (code ++ [0]) = Some w2 /\ place v used = Some (p0, if entry_ok then set_interns ((p0, zlen code) :: code_interns w2) w2 else w2)).
  { intros v used p w' E Tk. destruct (place_inv w c lc lp code p w' entry_ok B Tk Hne Hnew) as (w2 & E2 & _). exists p, w', w2. splits; auto. unfold place. rewrite E, E2. reflexivity. }
  assert (F : let r := match code_arena_new_block w (zlen code + 1) m with None => Some (0, w) | Some w => match link_block CODE w m with Some w => place w 0 | None => None end end in r = Some (0, w) \/ exists p w' w2, (code ∉ map (key w) (code_interns w)) /\
     took CODE w lp (cl_pieces c CODE) (cl_marks c CODE) p (zlen code + 1) w' /\ mem_write w' p (code ++ [0]) = Some w2 /\ r = Some (p, if entry_ok then set_interns ((p, zlen code) :: code_interns w2) w2 else w2)).
  { destruct (Z.eq_dec m 0) as [->|H0]; [left; reflexivity|right]. destruct (fresh_ok CODE w lc lp (cl_pieces c CODE) (cl_marks c CODE) (zlen code + 1) (zlen code + 1) m R Ic ltac:(lia) ltac:(lia) Hm H0) as (w1 & w2 & w3 & E1 & E2 & E3 & Tk). cbv zeta. rewrite E1, E2. eapply Hplace; eassumption. }
  pose proof (r_chain _ _ _ _ R) as Hch. cbn [chain_of] in Hch. rewrite Hch. cbn [ch_current]. destruct (snoc_cases lc) as [->|(l0 & k & ->)]; [exact F|]. rewrite last_snoc_id. pose proof (rep_ok R k) as (K1 & K2 & K3 & K4); [apply elem_of_app; left; apply elem_of_app; right; left|].
  destruct (Z.eqb_spec (k_id k) 0); [lia|]. rewrite (rep_node R l0 k [] eq_refl). cbn [cb_used cb_capacity]. rewrite wrap_small by (unfold sizeof_block in *; lia). destruct (Z.ltb_spec (k_cap k) (k_used k + (zlen code + 1))); [exact F|right].
  destruct (take_ok CODE w l0 k lp (cl_pieces c CODE) (cl_marks c CODE) (k_used k) (zlen code + 1) R Ic) as (w' & E & Tk); [lia|lia|lia|]. eapply Hplace; eassumption.
Qed.
Lemma alloc_inv w c code m entry_ok : client_inv w c -> op_allowed w c (AllocText code m entry_ok) -> exists w' c', run_op w c (AllocText code m entry_ok) = Some (w', c') /\ client_inv w' c'.
Proof.
  intros (lc & lp & B) [Hs Hm]. cbn [run_op]. destruct (decide (code = [])) as [->|Hne]; [unfold code_arena_alloc; cbn; eexists _, _; split; [reflexivity|]; exists lc, lp; exact B|].
  destruct (alloc_cases w c lc lp code m entry_ok B Hs Hm Hne) as [(p & -> & He & Hk)|[->|(p & w' & w2 & Hnew & Tk & Hw & ->)]].
  - pose proof B as (_ & _ & _ & _ & _ & [I _]). destruct (I _ He) as (pc & s & Hpc & _ & Hp & _). cbn [fst] in Hp. replace (existsb (fun pc => pc_ptr pc =? p) (cl_pieces c CODE)) with true; [rewrite orb_true_r; eexists _, _; split; [reflexivity|]; exists lc, lp; exact B|].
    symmetry. apply existsb_exists. exists pc. split; [apply list_elem_of_In, Hpc|apply Z.eqb_eq, Hp].
  - eexists _, _. split; [reflexivity|]. exists lc, lp. exact B.
  - destruct (place_inv w c lc lp code p w' entry_ok B Tk Hne Hnew) as (w3 & E & Hinv & Hex & Hp). rewrite Hw in E. injection E as <-. rewrite Hex. destruct (Z.eqb_spec p 0); [lia|]. cbn [orb]. eexists _, _. split; [reflexivity|]. exact Hinv.
Qed.

(** *** Rewinding *)

Lemma mark_snoc l k : mark_of (l ++ [k]) = Mark (k_id k) (k_used k).
Proof. unfold mark_of. rewrite last_snoc. reflexivity. Qed.
Lemma older_pieces l0 l1 k u (l2 : list blk) e pc l' w : 0 <= k_used k -> rep CODE w (l1 ++ Blk (k_id k) u (k_cap k) :: l2) l' -> l0 = l1 ++ [k] -> k_used k <= u -> pieces_ok l0 [pc] -> pc_ptr pc = e.1 ->
  negb ((data_of (k_id k) + k_used k <=? e.1) && (e.1 <? data_of (k_id k) + k_cap k)) && negb (existsb (in_payload e) l2) = true.
Proof.
  intros Hk0 R -> Hu [H _] He. apply Forall_cons in H as [(Hl & _ & x & Hx & U1 & U2) _]. rewrite <- He. pose proof (r_apart _ _ _ _ R) as Ha. rewrite !pairs_app in Ha. destruct Ha as ((_ & A2 & A3) & _). inversion A2 as [|? ? A4 _]; subst.
  assert (Hok : forall y, y ∈ l1 ++ Blk (k_id k) u (k_cap k) :: l2 -> blk_ok y) by (intros y Hy; apply (rep_ok R); apply elem_of_app; auto).
  assert (Hpos : exists y, y ∈ l1 ++ [Blk (k_id k) u (k_cap k)] /\ k_id y = k_id x /\ k_used x <= k_used y /\ (y ∈ l1 \/ (k_id y = k_id k /\ k_used x = k_used k))).
  { apply elem_of_app in Hx as [Hx|Hx]; [exists x; splits; auto; [apply elem_of_app; auto|lia]|]. apply elem_of_cons in Hx as [->|Hx]; [|inversion Hx]. eexists. split; [apply elem_of_app; right; left|]. cbn. auto. }
  destruct Hpos as (y & Hy & Ey & Uy & Dy). assert (Yok : blk_ok y) by (apply Hok; apply elem_of_app in Hy as [Hy|Hy]; apply elem_of_app; [auto|right]; apply elem_of_cons in Hy as [->|Hy]; [left|inversion Hy]). destruct Yok as (_ & _ & Y3 & _).
  assert (Hfar : forall z, z ∈ l2 -> in_payload e z = false).
  { intros z Hz. assert (Hz' : z ∈ Blk (k_id k) u (k_cap k) :: l2) by (right; exact Hz). assert (Az : apart y z). { apply elem_of_app in Hy as [Hy|Hy]; [apply A3; assumption|]. apply elem_of_cons in Hy as [->|Hy]; [|inversion Hy]. rewrite List.Forall_forall in A4. apply A4, list_elem_of_In, Hz. }
    destruct (Hok z) as (_ & _ & Z3 & _); [apply elem_of_app; auto|]. unfold in_payload. rewrite <- He. unfold apart, blk_end, data_of, sizeof_block in *. destruct (Z.leb_spec (k_id z + 24) (pc_ptr pc)), (Z.ltb_spec (pc_ptr pc) (k_id z + 24 + k_cap z)); try reflexivity. lia. }
  apply andb_true_iff. split.
  - apply negb_true_iff. destruct (Z.leb_spec (data_of (k_id k) + k_used k) (pc_ptr pc)), (Z.ltb_spec (pc_ptr pc) (data_of (k_id k) + k_cap k)); try reflexivity. exfalso. destruct Dy as [Hy1|[E1 E2]]; [|unfold data_of in *; lia].
    specialize (A3 y _ Hy1 ltac:(left)). destruct (Hok (Blk (k_id k) u (k_cap k))) as (_ & _ & K3 & _); [apply elem_of_app; right; left|]. unfold apart, blk_end, data_of, sizeof_block in *. cbn [k_id k_used k_cap] in *. lia.
  - apply negb_true_iff, not_true_iff_false. intros H. apply existsb_exists in H as (z & Hz & E). apply list_elem_of_In in Hz. rewrite Hfar in E by exact Hz. discriminate.
Qed.
Lemma newer_pieces l1 k u (l2 : list blk) e pc l' w : rep CODE w (l1 ++ Blk (k_id k) u (k_cap k) :: l2) l' -> pieces_ok (l1 ++ Blk (k_id k) u (k_cap k) :: l2) [pc] -> above (l1 ++ [k]) pc -> pc_ptr pc = e.1 ->
  negb ((data_of (k_id k) + k_used k <=? e.1) && (e.1 <? data_of (k_id k) + k_cap k)) && negb (existsb (in_payload e) l2) = false.
Proof.
  intros R [H _] Ha He. apply Forall_cons in H as [(Hl & _ & x & Hx & U1 & U2) _]. rewrite <- He. destruct (rep_ok R x) as (_ & _ & X3 & _); [apply elem_of_app; auto|]. apply elem_of_app in Hx as [Hx|Hx].
  - exfalso. destruct (Ha x) as [A|A]; [apply elem_of_app; auto|lia|lia].
  - apply elem_of_cons in Hx as [->|Hx].
    + cbn [k_id k_used k_cap] in *. destruct (Ha k) as [A|A]; [apply elem_of_app; right; left|lia|]. destruct (Z.leb_spec (data_of (k_id k) + k_used k) (pc_ptr pc)), (Z.ltb_spec (pc_ptr pc) (data_of (k_id k) + k_cap k)); first [lia|reflexivity].
    + apply andb_false_iff. right. apply negb_false_iff, existsb_exists. exists x. split; [apply list_elem_of_In, Hx|]. unfold in_payload. rewrite <- He. apply andb_true_iff. split; [apply Z.leb_le|apply Z.ltb_lt]; lia.
Qed.

Lemma back_to a w l1 k u l2 l' : rep a w (l1 ++ Blk (k_id k) u (k_cap k) :: l2) l' -> 0 <= k_used k <= u ->
  exists w1 w2 w3, set_block_used w (k_id k) (k_used k) = Some w1 /\ free_from w1 (head_or l2 0) = Some w2 /\ set_next w2 (k_id k) 0 = Some w3 /\
    rep a (set_chain a (Chain (ch_head (chain_of a w3)) (k_id k)) w3) (l1 ++ [k]) l' /\ sm_bytes w3 = sm_bytes w /\ code_interns w3 = code_interns w.
Proof.
  intros R Hu. destruct (rep_set_block_used a w l1 _ l2 l' (k_used k) R) as (w1 & E1 & R1 & B1 & I1); [cbn; lia|]. cbn [k_id k_cap] in *. rewrite blk_eta in R1. destruct (rep_cut a w1 l1 k l2 l' R1) as (w2 & w3 & E2 & E3 & H & R3 & B3 & I3). exists w1, w2, w3. rewrite H, B3, I3. auto 10.
Qed.
Lemma chain_fields a c w : sm_bytes (set_chain a c w) = sm_bytes w /\ code_interns (set_chain a c w) = code_interns w.
Proof. destruct a; auto. Qed.
Lemma rewind_plain_ok a w l l0 l' : rep a w l l' -> extends l0 l -> Forall (fun k => 0 <= k_used k) l0 ->
  exists w', arena_rewind_plain a w (mark_of l0) = Some w' /\ rep a w' l0 l' /\ sm_bytes w' = sm_bytes w /\ code_interns w' = code_interns w.
Proof.
  intros R He Hn. unfold arena_rewind_plain. destruct He as [->|(l1 & k & u & l2 & -> & -> & Hu)].
  - cbn [mark_of last mk_block]. change (0 =? 0) with true. cbv iota. rewrite (r_chain _ _ _ _ R). cbn [ch_head]. destruct (rep_clear a w l l' R) as (w1 & -> & R1 & B1 & I1). eexists. split; [reflexivity|]. destruct (chain_fields a (Chain 0 0) w1) as [-> ->]. auto.
  - rewrite mark_snoc. cbn [mk_block mk_used]. apply Forall_app in Hn as [_ Hn]. apply Forall_cons in Hn as [Hn _]. pose proof (rep_ok R (Blk (k_id k) u (k_cap k))) as (K1 & _ & K3 & _); [apply elem_of_app; left; apply elem_of_app; right; left|]. cbn [k_id k_used k_cap] in *.
    destruct (Z.eqb_spec (k_id k) 0); [lia|]. pose proof (rep_node R l1 _ l2 eq_refl) as Hb. cbn [k_id k_used k_cap] in Hb. rewrite Hb. cbn [cb_capacity cb_next]. destruct (Z.leb_spec (k_used k) (k_cap k)); [|lia].
    destruct (back_to a w l1 k u l2 l' R ltac:(lia)) as (w1 & w2 & w3 & -> & -> & -> & R3 & B3 & I3). eexists. split; [reflexivity|]. destruct (chain_fields a (Chain (ch_head (chain_of a w3)) (k_id k)) w3) as [-> ->]. auto.
Qed.
Lemma rewind_code_ok w l l0 l' : rep CODE w l l' -> extends l0 l -> Forall (fun k => 0 <= k_used k) l0 ->
  exists w' keep, code_arena_rewind w (mark_of l0) = Some w' /\ rep CODE w' l0 l' /\ sm_bytes w' = sm_bytes w /\ code_interns w' = List.filter keep (code_interns w) /\
    (forall pc e, pieces_ok l0 [pc] -> pc_ptr pc = e.1 -> keep e = true) /\ (forall pc e, pieces_ok l [pc] -> above l0 pc -> pc_ptr pc = e.1 -> keep e = false).
Proof.
  intros R He Hn. unfold code_arena_rewind. pose proof (r_chain _ _ _ _ R) as Hch. cbn [chain_of] in Hch. destruct He as [->|(l1 & k & u & l2 & -> & -> & Hu)].
  - cbn [mark_of last mk_block]. change (0 =? 0) with true. cbv iota. rewrite Hch. cbn [ch_head]. rewrite (prune_blocks_ok CODE w [] l l' R). set (wi := set_interns _ w). pose proof (rep_interns CODE (List.filter (fun e => negb (existsb (in_payload e) l)) (code_interns w)) w l l' R) as Ri. fold wi in Ri.
    pose proof (r_chain _ _ _ _ Ri) as Hch'. cbn [chain_of] in Hch'. rewrite Hch'. cbn [ch_head]. destruct (rep_clear CODE wi l l' Ri) as (w1 & -> & R1 & B1 & I1). eexists _, (fun e => negb (existsb (in_payload e) l)). split; [reflexivity|]. destruct (chain_fields CODE (Chain 0 0) w1) as [-> ->]. splits; auto.
    + intros pc e [H _] _. apply Forall_cons in H as [(_ & _ & x & Hx & _) _]. inversion Hx.
    + intros pc e [H _] _ Hpe. apply Forall_cons in H as [(Hl & _ & x & Hx & U1 & U2) _]. apply negb_false_iff, existsb_exists. exists x. split; [apply list_elem_of_In, Hx|]. destruct (rep_ok R x) as (_ & _ & X3 & _); [apply elem_of_app; auto|].
      unfold in_payload. rewrite <- Hpe. apply andb_true_iff. split; [apply Z.leb_le; exact U1|apply Z.ltb_lt; lia].
  - rewrite mark_snoc. cbn [mk_block mk_used]. apply Forall_app in Hn as [_ Hn]. apply Forall_cons in Hn as [Hn _]. pose proof (rep_ok R (Blk (k_id k) u (k_cap k))) as (K1 & _ & K3 & _); [apply elem_of_app; left; apply elem_of_app; right; left|]. cbn [k_id k_used k_cap] in *.
    destruct (Z.eqb_spec (k_id k) 0) as [|_]; [lia|]. pose proof (rep_node R l1 _ l2 eq_refl) as Hb. cbn [k_id k_used k_cap] in Hb. rewrite Hb. cbn [cb_capacity cb_next]. destruct (Z.leb_spec (k_used k) (k_cap k)); [|lia].
    unfold code_interns_prune_for_block_range. destruct (Z.eqb_spec (k_id k) 0) as [|_]; [lia|]. rewrite Hb. cbn [cb_capacity]. cbv zeta. match goal with |- context [List.filter ?g _] => set (f1 := g) end.
    pose proof (rep_interns CODE (List.filter f1 (code_interns w)) w _ l' R) as R1. assert (R1' : rep CODE (set_interns (List.filter f1 (code_interns w)) w) ((l1 ++ [Blk (k_id k) u (k_cap k)]) ++ l2) l') by (rewrite <- app_assoc; exact R1).
        rewrite (prune_blocks_ok CODE _ _ l2 l' R1'). set (f := fun e => f1 e && negb (existsb (in_payload e) l2)). match goal with |- context [set_block_used ?x _ _] => set (wi := x) end.
    assert (R2 : rep CODE wi (l1 ++ Blk (k_id k) u (k_cap k) :: l2) l') by (apply rep_interns, R1). assert (Hi : code_interns wi = List.filter f (code_interns w)) by apply filter_twice.
    destruct (back_to CODE wi l1 k u l2 l' R2 ltac:(lia)) as (w1 & w2 & w3 & -> & -> & -> & R3 & B3 & I3). cbn [chain_of] in R3. eexists _, f. split; [reflexivity|]. destruct (chain_fields CODE (Chain (ch_head (sm_code w3)) (k_id k)) w3) as [-> ->]. split; [exact R3|]. split; [exact B3|]. split; [rewrite I3; exact Hi|]. split.
    + intros pc e Hpc Hp. apply (older_pieces (l1 ++ [k]) l1 k u l2 e pc l' w); auto; lia.
    + intros pc e Hpc Ha Hp. apply (newer_pieces l1 k u l2 e pc l' w); auto.
Qed.

Lemma pieces_one l ps pc : pieces_ok l ps -> pc ∈ ps -> pieces_ok l [pc].
Proof. intros [H _] Hpc. rewrite Forall_forall in H. split; [constructor; [apply H, Hpc|constructor]|repeat constructor]. Qed.
Lemma drop_marks n snaps : drop n (marks_of snaps) = marks_of (drop n snaps).
Proof. unfold marks_of. revert snaps. induction n as [|n IH]; intros [|s snaps]; cbn; auto. Qed.
Lemma rewind_stack l ps marks n mk ps0 r : arena_inv l ps marks -> drop n marks = (mk, ps0) :: r ->
  exists l0, mk = mark_of l0 /\ extends l0 l /\ Forall (fun k => 0 <= k_used k) l0 /\ (exists newer, ps = newer ++ ps0 /\ Forall (above l0) newer) /\ pieces_ok l0 ps0 /\ arena_inv l0 ps0 ((mk, ps0) :: r).
Proof.
  intros [H (snaps & -> & Hs)] Hd. rewrite drop_marks in Hd. destruct (drop n snaps) as [|[l0 ps1] r0] eqn:E; [discriminate|]. injection Hd as <- <- <-. destruct (stack_drop snaps n l ps l0 ps1 r0 Hs E) as (S1 & S2 & [S3 S4] & S5). exists l0. splits; auto.
  split; [exact S3|]. exists ((l0, ps1) :: r0). split; [reflexivity|]. split; [apply extends_refl|]. split; [exists []; split; [reflexivity|constructor]|]. split; [split; assumption|exact S5].
Qed.
Lemma rewind_inv w c a n : client_inv w c -> op_allowed w c (Rewind a n) -> exists w' c', run_op w c (Rewind a n) = Some (w', c') /\ client_inv w' c'.
Proof.
  intros (lc & lp & R & Ic & Ip & T & P & I) Hn. cbn [run_op op_allowed] in *. destruct (drop n (cl_marks c a)) as [|[mk ps0] r] eqn:Ed; [apply (f_equal length) in Ed; rewrite length_drop in Ed; cbn in Ed; lia|]. destruct a.
  - destruct (rewind_stack lc _ _ n mk ps0 r Ic Ed) as (l0 & -> & He & Hz & (newer & Hps & Ha) & Hp & Hi). cbn [rewind_arena]. destruct (rewind_code_ok w lc l0 lp R He Hz) as (w' & keep & -> & R' & B' & I' & K1 & K2). eexists _, _. split; [reflexivity|].
    assert (Hsub : forall pc, pc ∈ ps0 -> pc ∈ cl_pieces c CODE) by (intros pc Hpc; rewrite Hps; apply elem_of_app; auto). exists l0, lp. unfold both. cbn [cl_pieces cl_marks on]. splits; auto.
    + intros pc s Hpc Hs. rewrite B'. apply T; auto.
    + destruct I as [I1 I2]. assert (Hkey : forall e, key w' e = key w e) by (intros e; unfold key; rewrite B'; reflexivity). split.
      * intros e. rewrite I'. intros Hin. apply list_elem_of_In, filter_In in Hin as [Hin Hk]. apply list_elem_of_In in Hin. destruct (I1 e Hin) as (pc & s & Hpc & Hs & E1 & E2). exists pc, s. splits; auto. rewrite Hps in Hpc. apply elem_of_app in Hpc as [Hpc|Hpc]; [|exact Hpc]. exfalso.
        rewrite Forall_forall in Ha. rewrite (K2 pc e) in Hk; [discriminate| |apply Ha, Hpc|exact E1]. eapply pieces_one; [apply Ic|rewrite Hps; apply elem_of_app; auto].
      * rewrite (map_ext _ _ Hkey), I'. clear -I2. induction (code_interns w) as [|e es IH]; [constructor|]. cbn [map List.filter] in *. apply NoDup_cons in I2 as [N1 N2]. destruct (keep e); [|apply IH, N2]. cbn [map]. constructor; [|apply IH, N2]. intros H. apply N1. apply list_elem_of_fmap in H as (x & E & Hx). apply list_elem_of_fmap. exists x. split; [exact E|]. apply list_elem_of_In, filter_In in Hx as [Hx _]. apply list_elem_of_In, Hx.
  - apply rep_swap in R. destruct (rewind_stack lp _ _ n mk ps0 r Ip Ed) as (l0 & -> & He & Hz & (newer & Hps & _) & Hp & Hi). cbn [rewind_arena]. destruct (rewind_plain_ok PARSE w lp l0 lc R He Hz) as (w' & E & R' & B' & I'). unfold parse_arena_rewind. rewrite E. eexists _, _. split; [reflexivity|].
    apply rep_swap in R'. exists lc, l0. unfold both. cbn [cl_pieces cl_marks on]. splits; auto.
    + eapply texts_same; eassumption.
    + intros pc Hpc. apply P. rewrite Hps. apply elem_of_app. auto.
    + eapply interns_same; eauto.
Qed.
Lemma arena_reset_ok w c : client_inv w c -> exists w', code_arena_reset w = Some w' /\ sm_blocks w' = ∅ /\ client_inv w' no_pieces.
Proof.
  intros (lc & lp & R & Ic & Ip & T & P & I). unfold code_arena_reset. apply (rep_interns CODE []) in R. pose proof (r_chain _ _ _ _ R) as Hch. cbn [chain_of] in Hch. rewrite Hch. cbn [ch_head]. destruct (rep_clear CODE _ lc lp R) as (w1 & -> & R1 & B1 & I1). apply rep_swap in R1.
  destruct (rewind_plain_ok PARSE _ lp [] [] R1 ltac:(left; reflexivity) ltac:(constructor)) as (w2 & E2 & R2 & B2 & I2). unfold parse_arena_reset, parse_arena_rewind. change (Mark 0 0) with (mark_of []). rewrite E2. exists w2. split; [reflexivity|].
  assert (Hi : code_interns w2 = []) by (rewrite I2; destruct (chain_fields CODE (Chain 0 0) w1) as [_ ->]; rewrite I1; reflexivity). split.
  - apply map_eq. intros b. rewrite lookup_empty. destruct (sm_blocks w2 !! b) as [x|] eqn:E; [|reflexivity]. apply (r_blocks _ _ _ _ R2) in E as [[]|[]].
  - apply rep_swap in R2. exists [], []. assert (Hn : arena_inv [] [] []) by (split; [split; [apply Forall_nil_2|apply FOP_nil]|exists []; split; [reflexivity|exact Logic.I]]). unfold both. cbn [no_pieces cl_pieces cl_marks]. splits; auto; [intros pc s H; inversion H|intros pc H; inversion H|]. rewrite <- Hi in *. split; [intros e He; rewrite Hi in He; inversion He|rewrite Hi; constructor].
Qed.

Lemma step_inv w c o : client_inv w c -> op_allowed w c o -> exists w' c', run_op w c o = Some (w', c') /\ client_inv w' c'.
Proof.
  intros H Ho. destruct o as [a size m|code m e|a pc off s|a|a n|]; [apply bump_inv|apply alloc_inv|apply write_inv|apply mark_inv|apply rewind_inv|]; auto.
  cbn [run_op]. destruct (arena_reset_ok w c H) as (w' & -> & _ & Hi). eauto.
Qed.
Lemma start_inv : client_inv empty_mem no_pieces.
Proof.
  exists [], []. assert (Hn : arena_inv [] [] []) by (split; [split; [apply Forall_nil_2|apply FOP_nil]|exists []; split; [reflexivity|exact I]]). unfold both. cbn [no_pieces cl_pieces cl_marks]. splits; auto; [|intros pc s H; inversion H|intros pc H; inversion H|split; [intros e H; inversion H|constructor]].
  constructor; [reflexivity|reflexivity| |constructor|constructor]. intros b n. cbn. rewrite lookup_empty. split; [discriminate|tauto].
Qed.
Lemma in_use_inv w c : in_use w c -> client_inv w c.
Proof. induction 1 as [|w c o w' c' _ IH Ho E]; [apply start_inv|]. destruct (step_inv w c o IH Ho) as (w2 & c2 & E2 & H2). rewrite E in E2. injection E2 as <- <-. exact H2. Qed.

(** C21: however the arenas are used, no operation follows a pointer to freed
    memory, every piece that was handed out and not rewound past is in live
    memory, aligned if it was bumped, and overlaps no other, and every program
    text can still be read, with its final NUL. *)
Theorem source_arena_safe w c : in_use w c ->
  (forall o, op_allowed w c o -> exists w' c', run_op w c o = Some (w', c')) /\
  (forall a pc, pc ∈ cl_pieces c a -> live_range w (pc_ptr pc) (pc_len pc) = true /\ (pc_text pc = None -> pc_ptr pc mod 8 = 0)) /\
  (forall a b p q, p ∈ cl_pieces c a -> q ∈ cl_pieces c b -> (a = b /\ p = q) \/ pc_apart p q) /\
  (forall pc s, pc ∈ cl_pieces c CODE -> pc_text pc = Some s -> mem_read w (pc_ptr pc) (length (s ++ [0])) = Some (s ++ [0])).
Proof.
  intros H. pose proof (in_use_inv w c H) as Hi. split; [intros o Ho; destruct (step_inv w c o Hi Ho) as (w' & c' & E & _); eauto|]. destruct Hi as (lc & lp & R & [Pc _] & [Pp _] & T & P & I). pose proof (rep_swap _ _ _ _ R) as R'.
  assert (L : forall a pc, pc ∈ cl_pieces c a -> live_range w (pc_ptr pc) (pc_len pc) = true /\ (pc_text pc = None -> pc_ptr pc mod 8 = 0)).
  { intros [] pc Hpc; split; [apply (piece_live CODE w lc lp _ pc R Pc Hpc); lia| |apply (piece_live PARSE w lp lc _ pc R' Pp Hpc); lia|]; [destruct Pc as [F _]|destruct Pp as [F _]]; rewrite Forall_forall in F; destruct (F pc Hpc) as (_ & A & _); exact A. }
  split; [exact L|]. split.
  - intros [] [] p q Hp Hq; [destruct (pieces_same lc _ p q Pc Hp Hq); auto|right; eapply (pieces_cross CODE); eauto|right; eapply (pieces_cross PARSE); eauto|destruct (pieces_same lp _ p q Pp Hp Hq); auto].
  - intros pc s Hpc Hs. destruct (T pc s Hpc Hs) as (_ & E & B). destruct (L CODE pc Hpc) as [Hl _]. unfold mem_read. rewrite B. rewrite E in Hl. unfold zlen in Hl. rewrite length_app. cbn [length]. replace (Z.of_nat (length s + 1)) with (Z.of_nat (length s) + 1) by lia. rewrite Hl. reflexivity.
Qed.

(** Interning gives a pointer to the text followed by NUL, the same pointer
    for a text that is in the table, at no cost, and a text that got an entry
    is in the table from then on. *)
Theorem interning_correct w c code m entry_ok p w' : in_use w c -> op_allowed w c (AllocText code m entry_ok) -> code <> [] -> code_arena_alloc w code m entry_ok = Some (p, w') ->
  (forall e m' ok', e ∈ code_interns w -> key w e <> [] -> code_arena_alloc w (key w e) m' ok' = Some (e.1, w)) /\
  (p <> 0 -> mem_read w' p (length (code ++ [0])) = Some (code ++ [0]) /\ (entry_ok = true \/ p ∈ map fst (code_interns w) -> (p, zlen code) ∈ code_interns w' /\ key w' (p, zlen code) = code)).
Proof.
  intros H [Hs Hm] Hne E. destruct (in_use_inv w c H) as (lc & lp & B). pose proof B as (R & Ic & Ip & T & P & I). split.
  - intros e m' ok' He Hk. unfold code_arena_alloc. destruct (Nat.eqb_spec (length (key w e)) 0) as [Hz|_]; [destruct (key w e); [contradiction|discriminate]|]. destruct (find_text w c lc lp (key w e) B) as [(q & -> & Hq & Eq)|[_ Hno]]; [|exfalso; apply Hno, list_elem_of_fmap; eauto].
    enough (e = (q, zlen (key w e))) as -> by reflexivity. destruct I as [_ I]. clear -He Hq Eq I. induction (code_interns w) as [|x es IH]; [inversion He|]. cbn [map] in I. apply NoDup_cons in I as [N1 N2]. apply elem_of_cons in He as [->|He], Hq as [Hq|Hq]; auto.
    + exfalso. apply N1, list_elem_of_fmap. eauto.
    + subst x. exfalso. apply N1, list_elem_of_fmap. exists e. rewrite Eq. auto.
  - intros Hp. destruct (alloc_cases w c lc lp code m entry_ok B Hs Hm Hne) as [(q & E2 & Hq & Eq)|[E2|(q & w1 & w2 & Hnew & Tk & Hw & E2)]]; rewrite E in E2; injection E2 as -> ->; [|contradiction|].
    + split; [|auto]. destruct I as [I _]. destruct (I _ Hq) as (pc & s & Hpc & Hst & E1 & E2). cbn [fst snd] in *. assert (s = code) as -> by (rewrite <- Eq; symmetry; eapply key_text; eauto). destruct (T pc code Hpc Hst) as (_ & L & Bt). rewrite <- E1. unfold mem_read. rewrite Bt.
      rewrite (piece_live CODE w lc lp (cl_pieces c CODE) pc R (proj1 Ic) Hpc); [reflexivity|lia|rewrite L; unfold zlen; rewrite length_app; cbn [length]; lia].
    + destruct (place_inv w c lc lp code q w1 entry_ok B Tk Hne Hnew) as (w3 & E3 & (lc2 & lp2 & R3 & Ic3 & _ & T3 & _ & I3) & _ & _). rewrite Hw in E3. injection E3 as <-. set (pc := Piece q (zlen code + 1) (Some code)) in *. cbn [add_piece cl_pieces on] in *. fold pc in Ic3, T3.
      assert (Hpc : pc ∈ pc :: cl_pieces c CODE) by left. destruct (T3 pc code Hpc eq_refl) as (_ & L & Bt). split.
      * unfold mem_read. cbn [pc_ptr] in Bt. unfold pc in Bt. cbn [pc_ptr] in Bt. rewrite Bt. rewrite (piece_live CODE _ lc2 lp2 _ pc R3 (proj1 Ic3) Hpc); [reflexivity|cbn; lia|rewrite L; unfold zlen, pc; cbn [pc_ptr]; rewrite length_app; cbn [length]; lia].
      * intros Hent. destruct entry_ok; [split; [left|]; unfold key; cbn [fst snd]; unfold zlen; rewrite Nat2Z.id; apply bytes_prefix, Bt|]. destruct Hent as [|Hent]; [discriminate|exfalso]. apply list_elem_of_fmap in Hent as (e & -> & He). destruct I as [I _]. destruct (I e He) as (x & s & Hx & _ & Ex & _).
        destruct Ic3 as [[F O] _]. inversion O as [|? ? O1 _]; subst. rewrite List.Forall_forall in O1. specialize (O1 x ltac:(apply list_elem_of_In, Hx)). rewrite Forall_forall in F. destruct (F x) as (F1 & _); [right; exact Hx|]. destruct (F pc Hpc) as (F2 & _). unfold pc_apart, pc in O1. cbn [pc_ptr pc_len] in *. lia.
Qed.

(** No block is lost: what the two arenas count is all that is live, and
    resetting gives back every block and forgets every text. *)
Theorem arena_reset_frees w c : in_use w c ->
  (exists n1 n2, code_arena_get_memory w = Some n1 /\ parse_arena_get_memory w = Some n2 /\ n1 + n2 = live_bytes w) /\
  exists w', code_arena_reset w = Some w' /\ sm_blocks w' = ∅ /\ code_interns w' = [] /\ in_use w' no_pieces.
Proof.
  intros H. split.
  { destruct (in_use_inv w c H) as (lc & lp & R & _). exists (chain_bytes lc), (chain_bytes lp). splits; [apply (memory_chain CODE w lc lp R)|apply (memory_chain PARSE w lp lc (rep_swap _ _ _ _ R))|rewrite (live_chains _ _ _ _ R); reflexivity]. }
  destruct (arena_reset_ok w c (in_use_inv w c H)) as (w' & E & E2 & (lc & lp & _ & _ & _ & _ & _ & [I _])). exists w'. splits; auto.
  - destruct (code_interns w') as [|e es]; [reflexivity|]. destruct (I e ltac:(left)) as (pc & s & Hpc & _). inversion Hpc.
  - apply (use_step w c Reset w' no_pieces H); [exact Logic.I|]. cbn [run_op]. rewrite E. reflexivity.
Qed.

Module Example.

(** A text [a] in a block at 4096. *)
Definition text : list Z := [97].
Definition one : option (source_mem * client) := run_op empty_mem no_pieces (AllocText text 4096 true).
Definition w1 : source_mem := match one with Some (w, _) => w | None => empty_mem end.
Definition c1 : client := match one with Some (_, c) => c | None => no_pieces end.
Lemma first_allowed : op_allowed empty_mem no_pieces (AllocText text 4096 true).
Proof. split; [vm_compute; reflexivity|]. right. splits; [lia|reflexivity|vm_compute; reflexivity|]. intros b k H. cbn in H. rewrite lookup_empty in H. discriminate. Qed.
Lemma used : in_use w1 c1.
Proof. apply (use_step empty_mem no_pieces (AllocText text 4096 true)); [apply use_start|apply first_allowed|]. unfold w1, c1. destruct one as [[w c]|] eqn:E; [exact E|vm_compute in E; discriminate]. Qed.

Lemma source_arena_safe_witness : in_use w1 c1 /\ exists pc, pc ∈ cl_pieces c1 CODE /\ mem_read w1 (pc_ptr pc) 2 = Some [97; 0].
Proof.
  split; [apply used|]. destruct (source_arena_safe w1 c1 used) as (_ & _ & _ & H). exists (Piece 4120 2 (Some text)). assert (Hin : Piece 4120 2 (Some text) ∈ cl_pieces c1 CODE) by (apply list_elem_of_In; vm_compute; left; reflexivity).
  split; [exact Hin|]. exact (H _ text Hin eq_refl).
Defined.
Lemma interning_correct_witness : in_use empty_mem no_pieces /\ code_arena_alloc empty_mem text 4096 true = Some (4120, w1) /\ (4120, 1) ∈ code_interns w1 /\ code_arena_alloc w1 text 0 false = Some (4120, w1).
Proof.
  assert (E : code_arena_alloc empty_mem text 4096 true = Some (4120, w1)) by reflexivity. assert (E2 : code_arena_alloc w1 text 0 false = Some (4120, w1)) by reflexivity.
  split; [apply use_start|]. split; [exact E|]. split; [|exact E2].
  refine (proj1 (proj2 (proj2 (interning_correct empty_mem no_pieces text 4096 true 4120 w1 use_start first_allowed ltac:(discriminate) E) ltac:(discriminate)) (or_introl eq_refl))).
Defined.
Lemma arena_reset_frees_witness : in_use w1 c1 /\ live_bytes w1 = 65560 /\ exists w', code_arena_reset w1 = Some w' /\ sm_blocks w' = ∅.
Proof.
  split; [apply used|]. split; [reflexivity|]. destruct (arena_reset_frees w1 c1 used) as (_ & w' & E & E2 & _). exists w'. split; assumption.
Defined.

(** Rewinding past the text forgets it. *)
Example rewound : match code_arena_rewind w1 (Mark 0 0) with Some w => Some (code_interns w, code_arena_get_memory w) | None => None end = Some ([], Some 0).
Proof. vm_compute. reflexivity. Qed.
(** A bump after the text is aligned; a text after it is not. *)
Example bumped : match code_arena_bump w1 5 0 with Some (p, w) => option_map fst (code_arena_alloc w [98] 0 true) | None => None end = Some 4136 /\ option_map fst (code_arena_bump w1 5 0) = Some 4128.
Proof. split; vm_compute; reflexivity. Qed.
End Example.
