(* ===== verification/FixedArena.v ===== *)
(** * Fixed arenas

    The arenas of objects, closures and upvalues ([include/arena.h]): a reserved
    range of addresses whose first part is committed, slots of one size up to a
    watermark, and a list of free slots through their first word.  The collector
    rebuilds the list from the epochs it finds in the slots and gives pages back
    ([gc/objects.c]).  A pointer is an address; the memory knows the first word
    and the epoch of each slot and which pages can be accessed, and [None] is an
    access to a page that cannot.  [grant k] says whether the [k]-th call of the
    system succeeds. *)

From S2P Require Import Prelude.

(** ** The code *)

Definition ARENA_GROW_INCREMENT : Z := 8 * 1024 * 1024.
Definition ANT_GC_DEAD : Z := 0xFF.

Record fixed_arena := FixedArena {
  fa_base : Z;
  fa_committed : Z;
  fa_reserved : Z;
  fa_watermark : Z;
  fa_live_count : Z;
  fa_elem_size : Z;
  fa_epoch_offset : Z;
  fa_free_list : Z
}.

Record arena_mem := ArenaMem {
  am_word : gmap Z Z;
  am_epoch : gmap Z Z;
  am_mapped : Z -> bool;
  am_asked : nat
}.

Section code.
Context (page : Z) (grant : nat -> bool).

Definition round_up (size : Z) : Z := u64 (size + page - 1) / page * page.

(** The pages that hold [n] bytes at [p]. *)
Definition pages_of (p n : Z) : list Z := seqZ (p / page) ((p + n - 1) / page - p / page + 1).
Definition touch (m : arena_mem) (p n : Z) : bool := forallb (am_mapped m) (pages_of p n).

Definition read_word (m : arena_mem) (p : Z) : option Z :=
  if touch m p 8 then Some (default 0 (am_word m !! p)) else None.
Definition write_word (m : arena_mem) (p v : Z) : option arena_mem :=
  if touch m p 8 then Some (ArenaMem (<[p := v]> (am_word m)) (am_epoch m) (am_mapped m) (am_asked m)) else None.
(** The epoch of the slot at [p]. *)
Definition read_epoch (a : fixed_arena) (m : arena_mem) (p : Z) : option Z :=
  if touch m p (fa_elem_size a) then Some (default 0 (am_epoch m !! (p + fa_epoch_offset a))) else None.
Definition write_epoch (a : fixed_arena) (m : arena_mem) (p e : Z) : option arena_mem :=
  if touch m p (fa_elem_size a)
  then Some (ArenaMem (am_word m) (<[p + fa_epoch_offset a := e]> (am_epoch m)) (am_mapped m) (am_asked m)) else None.
Definition zero_slot (a : fixed_arena) (m : arena_mem) (p : Z) : option arena_mem :=
  if touch m p (fa_elem_size a)
  then Some (ArenaMem (<[p := 0]> (am_word m)) (<[p + fa_epoch_offset a := 0]> (am_epoch m)) (am_mapped m) (am_asked m)) else None.

(** [mprotect] of a range of pages. *)
Definition protect (m : arena_mem) (first last : Z) (access : bool) : bool * arena_mem :=
  let ok := grant (am_asked m) in
  (ok, ArenaMem (am_word m) (am_epoch m)
         (fun q => if ok && (first <=? q) && (q <? last) then access else am_mapped m q) (S (am_asked m))).

(** [madvise]: the pages lose their contents. *)
Definition discard (m : arena_mem) (first last : Z) : arena_mem :=
  let keep := fun kv : Z * Z => ~ (first <= kv.1 / page < last) in
  ArenaMem (filter keep (am_word m)) (filter keep (am_epoch m)) (am_mapped m) (am_asked m).

Definition ant_arena_commit (m : arena_mem) (base old_size new_size : Z) : bool * arena_mem :=
  if new_size <=? old_size then (true, m)
  else
    let old_pages := round_up old_size in
    let new_pages := round_up new_size in
    if new_pages <=? old_pages then (true, m)
    else protect m ((base + old_pages) / page) ((base + new_pages) / page) true.

Definition ant_arena_decommit (m : arena_mem) (base old_size new_size : Z) : arena_mem :=
  if old_size <=? new_size then m
  else
    let new_pages := round_up new_size in
    let old_pages := round_up old_size in
    if old_pages <=? new_pages then m
    else
      let first := (base + new_pages) / page in
      let last := (base + old_pages) / page in
      let '(ok, m) := protect m first last false in
      if ok then discard m first last else m.

(** [munmap]. *)
Definition ant_arena_free (m : arena_mem) (base reserved_size : Z) : arena_mem :=
  if base =? 0 then m
  else
    let first := base / page in
    let last := (base + reserved_size + page - 1) / page in
    discard (ArenaMem (am_word m) (am_epoch m)
      (fun q => if (first <=? q) && (q <? last) then false else am_mapped m q) (am_asked m)) first last.

(** [reserved] is what the system answers to the reservation. *)
Definition fixed_arena_init (m : arena_mem) (reserved : option Z) (elem_size epoch_offset max_size : Z) : option fixed_arena * arena_mem :=
  match reserved with
  | None => (None, m)
  | Some base =>
      let initial := 2 * 1024 * 1024 in
      let initial := if max_size <? initial then max_size else initial in
      let '(ok, m) := ant_arena_commit m base 0 initial in
      if ok then (Some (FixedArena base initial max_size 0 0 elem_size epoch_offset 0), m)
      else (None, ant_arena_free m base max_size)
  end.

Definition fixed_arena_destroy (a : fixed_arena) (m : arena_mem) : fixed_arena * arena_mem :=
  (FixedArena 0 0 0 0 0 (fa_elem_size a) (fa_epoch_offset a) 0, ant_arena_free m (fa_base a) (fa_reserved a)).

Definition with_list (a : fixed_arena) (live_count free_list : Z) : fixed_arena :=
  FixedArena (fa_base a) (fa_committed a) (fa_reserved a) (fa_watermark a) live_count (fa_elem_size a) (fa_epoch_offset a) free_list.
Definition with_extent (a : fixed_arena) (committed watermark : Z) : fixed_arena :=
  FixedArena (fa_base a) committed (fa_reserved a) watermark (fa_live_count a) (fa_elem_size a) (fa_epoch_offset a) (fa_free_list a).

(** The committed part grows when one more slot does not fit. *)
Definition arena_grow (a : fixed_arena) (m : arena_mem) (needed : Z) : option fixed_arena * arena_mem :=
  if fa_committed a <? needed then
    let grow := fa_committed a / 4 in
    let grow := if grow <? 64 * 1024 then 64 * 1024 else grow in
    let grow := if ARENA_GROW_INCREMENT <? grow then ARENA_GROW_INCREMENT else grow in
    let new_committed := u64 (fa_committed a + grow) in
    if fa_reserved a <? new_committed then (None, m)
    else
      let '(ok, m) := ant_arena_commit m (fa_base a) (fa_committed a) new_committed in
      (if ok then Some (with_extent a new_committed (fa_watermark a)) else None, m)
  else (Some a, m).

(** Both allocators: [zero] is the [memset] of [fixed_arena_alloc]. *)
Definition arena_take (zero : bool) (a : fixed_arena) (m : arena_mem) : option (option Z * fixed_arena * arena_mem) :=
  if negb (fa_free_list a =? 0) then
    let p := fa_free_list a in
    next ← read_word m p;
    m ← (if zero then zero_slot a m p else Some m);
    Some (Some p, with_list a (u64 (fa_live_count a + 1)) next, m)
  else
    let needed := u64 (fa_watermark a + fa_elem_size a) in
    match arena_grow a m needed with
    | (None, m) => Some (None, a, m)
    | (Some a, m) =>
        let p := fa_base a + fa_watermark a in
        m ← (if zero then zero_slot a m p else Some m);
        Some (Some p, with_list (with_extent a (fa_committed a) needed) (u64 (fa_live_count a + 1)) (fa_free_list a), m)
    end.
Definition fixed_arena_alloc := arena_take true.
Definition fixed_arena_alloc_uninit := arena_take false.

Definition fixed_arena_free_elem (a : fixed_arena) (m : arena_mem) (p : Z) : option (fixed_arena * arena_mem) :=
  if p =? 0 then Some (a, m)
  else
    m ← write_word m p (fa_free_list a);
    Some (with_list a (if 0 <? fa_live_count a then fa_live_count a - 1 else fa_live_count a) p, m).

Definition fixed_arena_contains (a : fixed_arena) (p : Z) : bool :=
  if (p <? fa_base a) || (fa_base a + fa_watermark a <=? p) then false
  else (p - fa_base a) mod fa_elem_size a =? 0.

(** The loops of the collector that link the dead slots below a limit into the
    list, and count the others. *)
Fixpoint relink_dead (dead : Z -> bool) (count : bool) (fuel : nat) (limit off : Z) (a : fixed_arena) (m : arena_mem) : option (fixed_arena * arena_mem) :=
  match fuel with
  | O => None
  | S fuel =>
      if off <? limit then
        let slot := fa_base a + off in
        epoch ← read_epoch a m slot;
        if dead epoch then
          m ← write_word m slot (fa_free_list a);
          relink_dead dead count fuel limit (off + fa_elem_size a) (with_list a (fa_live_count a) slot) m
        else
          relink_dead dead count fuel limit (off + fa_elem_size a)
            (if count then with_list a (u64 (fa_live_count a + 1)) (fa_free_list a) else a) m
      else Some (a, m)
  end.
Definition sweep_fuel (a : fixed_arena) : nat := S (Z.to_nat (fa_watermark a / fa_elem_size a)).

(** The sweep of closures and of upvalues: the slots with the current epoch are
    live, all others are free. *)
Definition gc_sweep_arena (gc_epoch : Z) (a : fixed_arena) (m : arena_mem) : option (fixed_arena * arena_mem) :=
  relink_dead (fun epoch => negb (epoch =? gc_epoch)) true (sweep_fuel a) (fa_watermark a) 0 (with_list a 0 0) m.

(** The end of the last slot that is not dead. *)
Fixpoint last_used (fuel : nat) (off : Z) (a : fixed_arena) (m : arena_mem) : option Z :=
  match fuel with
  | O => None
  | S fuel =>
      if fa_elem_size a <=? off then
        epoch ← read_epoch a m (fa_base a + off - fa_elem_size a);
        if negb (epoch =? ANT_GC_DEAD) then Some off else last_used fuel (off - fa_elem_size a) a m
      else Some 0
  end.

(** The arena of objects gives its dead end back. *)
Definition gc_shrink_arena (a : fixed_arena) (m : arena_mem) : option (fixed_arena * arena_mem) :=
  new_wm ← last_used (sweep_fuel a) (fa_watermark a) a m;
  if new_wm <? fa_watermark a then
    '(a, m) ← relink_dead (fun epoch => epoch =? ANT_GC_DEAD) false (sweep_fuel a) new_wm 0 (with_list a (fa_live_count a) 0) m;
    Some (with_extent a new_wm new_wm, ant_arena_decommit m (fa_base a) (fa_committed a) new_wm)
  else Some (a, m).

(** ** The clients *)

(** The slot of a new closure carries the current epoch, those of a new object and
    of a new upvalue are zero.  The other fields are not read here. *)
Definition new_closure_slot (zero : bool) (gc_epoch : Z) (a : fixed_arena) (m : arena_mem) : option (option Z * fixed_arena * arena_mem) :=
  '(r, a, m) ← arena_take zero a m;
  match r with
  | None => Some (None, a, m)
  | Some c => m ← write_epoch a m c gc_epoch; Some (Some c, a, m)
  end.

(** The end of an object, for its arena. *)
Definition free_object_slot (a : fixed_arena) (m : arena_mem) (obj : Z) : option (fixed_arena * arena_mem) :=
  if obj =? 0 then Some (a, m) else m ← write_epoch a m obj ANT_GC_DEAD; fixed_arena_free_elem a m obj.

Definition gc_next_epoch (gc_epoch : Z) : Z := let e := u64 (gc_epoch + 1) in if e =? 0 then 1 else e.

(** What the marking of a collection leaves in the slots it reaches. *)
Fixpoint mark_slots (a : fixed_arena) (m : arena_mem) (e : Z) (marks : list Z) : option arena_mem :=
  match marks with
  | [] => Some m
  | p :: marks => m ← write_epoch a m p e; mark_slots a m e marks
  end.

(** The sweep of a minor collection looks at the slots made since the last one
    (for closures also at what they own, which is not here). *)
Fixpoint sweep_young_slots (gc_epoch : Z) (young : list Z) (a : fixed_arena) (m : arena_mem) : option (fixed_arena * arena_mem) :=
  match young with
  | [] => Some (a, m)
  | p :: young =>
      epoch ← read_epoch a m p;
      if epoch =? gc_epoch then sweep_young_slots gc_epoch young a m
      else '(a, m) ← fixed_arena_free_elem a m p; sweep_young_slots gc_epoch young a m
  end.

(** One arena with the epoch of its collector, and what is done to it. *)
Record arena_heap := ArenaHeap { ah_arena : fixed_arena; ah_mem : arena_mem; ah_epoch : Z }.

Inductive slot_op :=
  | NewSlot
  | NewClosure (zero : bool)
  | MarkObject (obj e : Z)
  | FreeObject (obj : Z)
  | Minor (young marks : list Z)
  | Major (marks : list Z)
  | Shrink.

Definition arena_step (op : slot_op) (h : arena_heap) : option (option Z * arena_heap) :=
  let '(ArenaHeap a m e) := h in
  match op with
  | NewSlot => '(r, a, m) ← fixed_arena_alloc a m; Some (r, ArenaHeap a m e)
  | NewClosure zero => '(r, a, m) ← new_closure_slot zero e a m; Some (r, ArenaHeap a m e)
  | MarkObject obj v => m ← write_epoch a m obj v; Some (None, ArenaHeap a m e)
  | FreeObject obj => '(a, m) ← free_object_slot a m obj; Some (None, ArenaHeap a m e)
  | Minor young marks =>
      let e := gc_next_epoch e in
      m ← mark_slots a m e marks;
      '(a, m) ← sweep_young_slots e young a m; Some (None, ArenaHeap a m e)
  | Major marks =>
      let e := gc_next_epoch e in
      m ← mark_slots a m e marks;
      '(a, m) ← gc_sweep_arena e a m; Some (None, ArenaHeap a m e)
  | Shrink => '(a, m) ← gc_shrink_arena a m; Some (None, ArenaHeap a m e)
  end.

End code.

(** ** What an arena promises

    The state a client knows is the set of its slots. *)

Definition slot_spec (op : slot_op) (r : option Z) (live : gset Z) : option (gset Z) :=
  match op, r with
  | (NewSlot | NewClosure _), Some p => if decide (p ∈ live) then None else Some ({[p]} ∪ live)
  | (NewSlot | NewClosure _ | MarkObject _ _ | Shrink), None => Some live
  | FreeObject obj, None => Some (live ∖ {[obj]})
  | Minor young marks, None => Some (filter (fun p => p ∈ young -> p ∈ marks) live)
  | Major marks, None => Some (list_to_set marks)
  | _, _ => None
  end.

(** The arena of objects is not swept, those of closures and upvalues do not shrink. *)
Definition op_valid (objects : bool) (e : Z) (live : gset Z) (op : slot_op) : Prop :=
  match op with
  | NewSlot => True
  | NewClosure _ => objects = false
  | MarkObject obj v => objects = true /\ obj ∈ live /\ v <> ANT_GC_DEAD
  | FreeObject obj => objects = true /\ obj ∈ live
  | Minor young marks => objects = false /\ NoDup young /\ list_to_set young ⊆ live /\ list_to_set marks ⊆ live /\ e + 1 < 2 ^ 64
  | Major marks => objects = false /\ list_to_set marks ⊆ live /\ e + 1 < 2 ^ 64
  | Shrink => objects = true
  end.

Inductive arena_reach (page : Z) (grant : nat -> bool) (objects : bool) : arena_heap -> gset Z -> Prop :=
  | reach_init base elem off max m a m' :
      0 < base -> (page | base) -> 8 <= off < elem -> elem <= 64 * 1024 -> 0 <= max -> base + max + page < 2 ^ 63 ->
      fixed_arena_init page grant m (Some base) elem off max = (Some a, m') ->
      arena_reach page grant objects (ArenaHeap a m' 0) ∅
  | reach_step h live op r h' live' :
      arena_reach page grant objects h live -> op_valid objects (ah_epoch h) live op ->
      arena_step page grant op h = Some (r, h') -> slot_spec op r live = Some live' ->
      arena_reach page grant objects h' live'.

(** ** The invariant *)

Section arenas.
Context (page : Z) (grant : nat -> bool) (Hpage : 8 <= page).

(** The slots of an arena. *)
Definition slot_at (base elem : Z) (i : nat) : Z := base + Z.of_nat i * elem.
Definition slots (base elem : Z) (n : nat) : list Z := map (slot_at base elem) (seq 0 n).

(** The free list, by the first words of its slots. *)
Fixpoint chain (m : arena_mem) (p : Z) (fl : list Z) : Prop :=
  match fl with
  | [] => p = 0
  | x :: fl => p = x /\ chain m (default 0 (am_word m !! x)) fl
  end.

(** Every page that begins in the first [len] bytes of the arena is accessible. *)
Definition mapped_to (m : arena_mem) (base len : Z) : Prop :=
  forall q, base <= q * page < base + len -> am_mapped m q = true.

Record arena_ok (a : fixed_arena) (m : arena_mem) (fl live : list Z) : Prop := {
  ao_base : 0 < fa_base a /\ (page | fa_base a);
  ao_elem : 8 <= fa_elem_size a <= 64 * 1024;
  ao_reserved : fa_base a + fa_reserved a + page < 2 ^ 63;
  ao_mark : exists n, fa_watermark a = Z.of_nat n * fa_elem_size a /\
    fl ++ live ≡ₚ slots (fa_base a) (fa_elem_size a) n;
  ao_extent : fa_watermark a <= fa_committed a <= fa_reserved a;
  ao_mapped : mapped_to m (fa_base a) (fa_committed a);
  ao_chain : chain m (fa_free_list a) fl;
  ao_count : fa_live_count a = Z.of_nat (length live);
  ao_epoch : 8 <= fa_epoch_offset a < fa_elem_size a
}.

Lemma round_up_spec s : 0 <= s -> s + page < 2 ^ 63 ->
  s <= round_up page s < s + page /\ (page | round_up page s).
Proof using Hpage.
  intros H0 H1. unfold round_up. rewrite wrap_small by lia.
  pose proof (Z.div_mod (s + page - 1) page ltac:(lia)). pose proof (Z.mod_pos_bound (s + page - 1) page ltac:(lia)).
  split; [|apply Z.divide_factor_r]. rewrite (Z.mul_comm _ page). lia.
Qed.

Lemma touch_ok m base len p n : mapped_to m base len -> (page | base) -> base <= p -> 0 < n -> p + n <= base + len ->
  touch page m p n = true.
Proof using Hpage.
  intros Hm [k Hk] Hp Hn He. unfold touch. apply forallb_forall. intros q Hq.
  apply list_elem_of_In in Hq. unfold pages_of in Hq. apply elem_of_seqZ in Hq. apply Hm.
  pose proof (Z.div_mod (p + n - 1) page ltac:(lia)). pose proof (Z.mod_pos_bound (p + n - 1) page ltac:(lia)).
  pose proof (Z.div_mod p page ltac:(lia)). pose proof (Z.mod_pos_bound p page ltac:(lia)).
  assert (k <= p / page) by (apply Z.div_le_lower_bound; lia). nia.
Qed.

Lemma commit_ok m base old new : mapped_to m base old -> (page | base) -> 0 <= old -> 0 <= base -> base + new + page < 2 ^ 63 -> old <= new ->
  let '(ok, m') := ant_arena_commit page grant m base old new in
  mapped_to m' base (if ok then new else old) /\ am_word m' = am_word m /\ am_epoch m' = am_epoch m.
Proof using Hpage.
  intros Hm [k Hk] H0 Hb Hn Hle. unfold ant_arena_commit. destruct (Z.leb_spec new old) as [Hno|Hno].
  { splits; auto. intros q Hq. apply Hm. lia. }
  destruct (round_up_spec old ltac:(lia) ltac:(lia)) as [Ho [ko Eo]]. destruct (round_up_spec new ltac:(lia) ltac:(lia)) as [Hn' [kn En]].
  destruct (Z.leb_spec (round_up page new) (round_up page old)) as [Hr|Hr].
  { splits; auto. intros q Hq. apply Hm. split; [lia|]. rewrite Eo, En in *.
    assert (q - k < kn) by nia. assert (kn <= ko) by nia. assert ((q - k) * page <= (ko - 1) * page) by (apply Z.mul_le_mono_nonneg_r; lia). lia. }
  unfold protect. splits; auto. intros q Hq. cbn [am_mapped]. rewrite Hk, Eo, En, <- !Z.mul_add_distr_r, !Z.div_mul by lia.
  destruct (grant (am_asked m)); cbn [andb]; [|apply Hm; lia].
  destruct (Z.leb_spec (k + ko) q); cbn [andb]; [|apply Hm; nia].
  destruct (Z.ltb_spec q (k + kn)); [reflexivity|]. exfalso. nia.
Qed.

Lemma keep_lookup (P : Z * Z -> Prop) `{!forall x, Decision (P x)} (mp : gmap Z Z) k : (forall v, P (k, v)) -> filter P mp !! k = mp !! k.
Proof.
  intros HP. destruct (mp !! k) as [v|] eqn:E.
  - apply map_lookup_filter_Some. split; [exact E|apply HP].
  - apply map_lookup_filter_None. left. exact E.
Qed.

Lemma decommit_ok m base old new : mapped_to m base new -> (page | base) -> 0 <= new -> 0 <= base -> base + old + page < 2 ^ 63 ->
  let m' := ant_arena_decommit page grant m base old new in
  mapped_to m' base new /\
  forall p, base <= p < base + new -> am_word m' !! p = am_word m !! p /\ am_epoch m' !! p = am_epoch m !! p.
Proof using Hpage.
  intros Hm [k Hk] H0 Hb Hn. unfold ant_arena_decommit. destruct (Z.leb_spec old new); [splits; auto|].
  destruct (round_up_spec new ltac:(lia) ltac:(lia)) as [Hn' [kn En]]. destruct (round_up_spec old ltac:(lia) ltac:(lia)) as [_ [ko Eo]].
  destruct (round_up page old <=? round_up page new); [splits; auto|].
  rewrite Hk, Eo, En, <- !Z.mul_add_distr_r, !Z.div_mul by lia. unfold protect. cbv zeta.
  set (ok := grant (am_asked m)). set (m1 := ArenaMem (am_word m) _ _ _).
  assert (Hm1 : mapped_to m1 (k * page) new).
  { intros q Hq. unfold m1. cbn [am_mapped]. rewrite Hk in Hm. destruct ok; cbn [andb]; [|apply Hm; lia].
    destruct (Z.leb_spec (k + kn) q); cbn [andb]; [exfalso; nia|apply Hm; lia]. }
  destruct ok; (split; [exact Hm1|]); [|auto]. intros p Hp.
  assert (p / page < k + kn) by (apply Z.div_lt_upper_bound; nia).
  split; apply keep_lookup; cbn; lia.
Qed.

(** ** Slots *)

Lemma slots_snoc base elem n : slots base elem (S n) = slots base elem n ++ [slot_at base elem n].
Proof. unfold slots. rewrite seq_S, map_app. reflexivity. Qed.

Lemma elem_slots base elem n p : p ∈ slots base elem n <-> exists i, (i < n)%nat /\ p = slot_at base elem i.
Proof.
  unfold slots. rewrite list_elem_of_In, in_map_iff. split.
  - intros (i & <- & Hi). apply in_seq in Hi. exists i. split; [lia|reflexivity].
  - intros (i & Hi & ->). exists i. split; [reflexivity|]. apply in_seq. lia.
Qed.

Lemma slots_nodup base elem n : 0 < elem -> NoDup (slots base elem n).
Proof.
  intros He. induction n as [|n IH]; [constructor|]. rewrite slots_snoc. apply NoDup_app. splits; [exact IH| |apply NoDup_singleton].
  intros p Hp Hq. apply elem_slots in Hp as (i & Hi & ->). apply list_elem_of_singleton in Hq. unfold slot_at in Hq. nia.
Qed.

Lemma chain_ext m m' fl : forall p, (forall x, x ∈ fl -> am_word m' !! x = am_word m !! x) -> chain m p fl -> chain m' p fl.
Proof.
  induction fl as [|x fl IH]; intros p Hw Hc; [exact Hc|]. destruct Hc as [-> Hc]. split; [reflexivity|].
  rewrite Hw by left. apply IH; [|exact Hc]. intros y Hy. apply Hw. right. exact Hy.
Qed.

(** The epoch in a slot. *)
Definition epoch_of (a : fixed_arena) (m : arena_mem) (p : Z) : Z := default 0 (am_epoch m !! (p + fa_epoch_offset a)).

Lemma slot_bounds a m fl live p : arena_ok a m fl live -> p ∈ fl \/ p ∈ live ->
  fa_base a <= p /\ p + fa_elem_size a <= fa_base a + fa_watermark a.
Proof using Hpage.
  intros [_ He _ (n & Hw & Hp) _ _ _ _ _] Hin. assert (Hs : p ∈ slots (fa_base a) (fa_elem_size a) n).
  { rewrite <- Hp. apply elem_of_app. exact Hin. }
  apply elem_slots in Hs as (i & Hi & ->). unfold slot_at. rewrite Hw. nia.
Qed.

Lemma slot_touch a m fl live p k : arena_ok a m fl live -> p ∈ fl \/ p ∈ live -> 0 < k <= fa_elem_size a -> touch page m p k = true.
Proof using Hpage.
  intros Hok Hin Hk. destruct (slot_bounds _ _ _ _ _ Hok Hin). destruct (ao_base _ _ _ _ Hok). pose proof (ao_extent _ _ _ _ Hok).
  apply touch_ok with (fa_base a) (fa_committed a); [apply Hok|assumption|lia..].
Qed.

Lemma arena_slots_apart a m fl live : arena_ok a m fl live -> NoDup (fl ++ live).
Proof using Hpage. intros [_ He _ (n & _ & Hp) _ _ _ _ _]. rewrite Hp. apply slots_nodup. lia. Qed.

(** ** Allocation *)

(** Writing a slot that is in neither list, or live, does not disturb the list. *)
Lemma write_chain m p w e fl q : p ∉ fl -> chain m q fl ->
  chain (ArenaMem (<[p := w]> (am_word m)) e (am_mapped m) (am_asked m)) q fl.
Proof.
  intros Hp. apply chain_ext. intros x Hx. cbn. apply lookup_insert_ne. intros ->. contradiction.
Qed.

Lemma fa_grow_ok a m fl live : arena_ok a m fl live ->
  let '(r, m') := arena_grow page grant a m (fa_watermark a + fa_elem_size a) in
  match r with
  | Some a' => a' = with_extent a (fa_committed a') (fa_watermark a) /\
      fa_watermark a + fa_elem_size a <= fa_committed a' <= fa_reserved a /\ mapped_to m' (fa_base a) (fa_committed a')
  | None => mapped_to m' (fa_base a) (fa_committed a)
  end /\ am_word m' = am_word m /\ am_epoch m' = am_epoch m.
Proof using Hpage.
  intros [[Hb Hd] He Hr (n & Hw & _) Hx Hm _ _ _]. assert (0 <= fa_watermark a) by nia. unfold arena_grow.
  destruct (Z.ltb_spec (fa_committed a) (fa_watermark a + fa_elem_size a)) as [Hlt|Hge].
  2: { splits; auto; [destruct a; reflexivity|lia]. }
  set (g0 := if fa_committed a / 4 <? 64 * 1024 then 64 * 1024 else fa_committed a / 4).
  set (g := if ARENA_GROW_INCREMENT <? g0 then ARENA_GROW_INCREMENT else g0). cbv zeta.
  assert (Hg : 64 * 1024 <= g <= ARENA_GROW_INCREMENT).
  { unfold g, g0, ARENA_GROW_INCREMENT. repeat match goal with |- context [?x <? ?y] => destruct (Z.ltb_spec x y) end; lia. }
  clearbody g. clear g0. unfold ARENA_GROW_INCREMENT in Hg. rewrite wrap_small by lia.
  destruct (Z.ltb_spec (fa_reserved a) (fa_committed a + g)); [splits; auto|].
  pose proof (commit_ok m (fa_base a) (fa_committed a) (fa_committed a + g) Hm Hd ltac:(lia) ltac:(lia) ltac:(lia) ltac:(lia)) as Hc.
  destruct (ant_arena_commit _ _ _ _ _ _) as [[|] m']; destruct Hc as (Hc & Hcw & Hce); splits; auto.
  cbn [fa_committed with_extent]. lia.
Qed.

Lemma fa_take_ok zero a m fl live : arena_ok a m fl live ->
  exists r a' m', arena_take page grant zero a m = Some (r, a', m') /\
  match r with
  | None => a' = a /\ arena_ok a m' fl live /\ am_epoch m' = am_epoch m
  | Some p => (exists fl', arena_ok a' m' fl' (p :: live) /\ forall q, q ∈ fl' -> q ∈ fl) /\ (p ∉ live) /\ touch page m' p (fa_elem_size a) = true /\
      fa_base a' = fa_base a /\ fa_elem_size a' = fa_elem_size a /\ fa_epoch_offset a' = fa_epoch_offset a /\
      am_epoch m' = if zero then <[p + fa_epoch_offset a := 0]> (am_epoch m) else am_epoch m
  end.
Proof using Hpage.
  intros Hok. unfold arena_take. pose proof (arena_slots_apart _ _ _ _ Hok) as Hnd.
  destruct (Z.eqb_spec (fa_free_list a) 0) as [E0|N0]; cbn [negb].
  - pose proof (ao_extent _ _ _ _ Hok) as Hx. pose proof (ao_reserved _ _ _ _ Hok) as Hr. destruct (ao_base _ _ _ _ Hok) as [Hb Hd].
    pose proof (ao_elem _ _ _ _ Hok) as He. destruct (ao_mark _ _ _ _ Hok) as (n & Hw & Hp).
    assert (fl = []) as ->.
    { pose proof (ao_chain _ _ _ _ Hok) as Hc. destruct fl as [|x fl]; [reflexivity|]. destruct Hc as [Hc _].
      destruct (slot_bounds _ _ _ _ x Hok) as [? _]; [left; left|]. lia. }
    rewrite wrap_small by nia. pose proof (fa_grow_ok _ _ _ _ Hok) as Hg.
    destruct (arena_grow _ _ _ _ _) as [[a1|] m1]; destruct Hg as (Hg & Hgw & Hge).
    + destruct Hg as (Ea & Hc & Hm). set (p := fa_base a + fa_watermark a).
      assert (Hf : fa_base a1 = fa_base a /\ fa_elem_size a1 = fa_elem_size a /\ fa_watermark a1 = fa_watermark a /\
        fa_live_count a1 = fa_live_count a /\ fa_free_list a1 = fa_free_list a /\ fa_reserved a1 = fa_reserved a /\ fa_epoch_offset a1 = fa_epoch_offset a)
        by (rewrite Ea; cbn; splits; reflexivity).
      destruct Hf as (Eb & Ee & Ew & El & Ef & Er & Eo).
      assert (Ht : touch page m1 p (fa_elem_size a) = true) by (apply touch_ok with (fa_base a) (fa_committed a1); auto; unfold p; nia).
      assert (Hpn : p ∉ live).
      { intros Hin. destruct (slot_bounds _ _ _ _ p Hok) as [_ ?]; [right; exact Hin|]. unfold p in *. lia. }
      assert (Hfin : forall m2, am_mapped m2 = am_mapped m1 ->
        arena_ok (with_list (with_extent a1 (fa_committed a1) (fa_watermark a + fa_elem_size a)) (u64 (fa_live_count a1 + 1)) (fa_free_list a1)) m2 [] (p :: live)).
      { intros m2 Em. pose proof (ao_count _ _ _ _ Hok) as Hcnt.
        assert (Hln : (length live <= n)%nat) by (apply Permutation_length in Hp; cbn in Hp; unfold slots in Hp; rewrite length_map, length_seq in Hp; lia).
        split; cbn; rewrite ?Eb, ?Ee, ?El, ?Er, ?Ef, ?Eo; auto; try lia.
        - exists (S n). split; [lia|]. cbn in Hp. rewrite slots_snoc, <- Hp, <- Permutation_cons_append.
          unfold slot_at, p. rewrite Hw. reflexivity.
        - unfold mapped_to. rewrite Em. exact Hm.
        - rewrite wrap_small by nia. lia.
        - apply Hok. }
      rewrite Eb, Ew. fold p. unfold zero_slot. rewrite Ee, Eo, Ht. destruct zero; cbn [mbind option_bind];
        eexists _, _, _; (split; [reflexivity|]); cbn [fa_base with_list with_extent fa_elem_size fa_epoch_offset am_epoch]; splits; auto; rewrite ?Hge; auto;
        try (exists []; split; [apply Hfin; reflexivity|auto]); exact Ht.
    + eexists _, _, _. split; [reflexivity|]. split; [reflexivity|]. split; [|exact Hge]. destruct Hok. split; auto.
  - destruct fl as [|p fl]; [pose proof (ao_chain _ _ _ _ Hok) as Hc; cbn in Hc; congruence|].
    pose proof (ao_chain _ _ _ _ Hok) as [Ep Hc]. rewrite Ep.
    assert (Hin : p ∈ p :: fl \/ p ∈ live) by (left; left). pose proof (ao_elem _ _ _ _ Hok) as He.
    pose proof (slot_touch _ _ _ _ p 8 Hok Hin ltac:(lia)) as T8. pose proof (slot_touch _ _ _ _ p (fa_elem_size a) Hok Hin ltac:(lia)) as Te.
    unfold read_word. rewrite T8. cbn [mbind option_bind].
    cbn [app] in Hnd. apply NoDup_cons in Hnd as [Hni _]. apply not_elem_of_app in Hni as [Hnf Hnl].
    assert (Hfin : forall m2, am_mapped m2 = am_mapped m -> chain m2 (default 0 (am_word m !! p)) fl ->
      arena_ok (with_list a (u64 (fa_live_count a + 1)) (default 0 (am_word m !! p))) m2 fl (p :: live)).
    { intros m2 Em Hc2. destruct Hok as [Hb He' Hr (n & Hw & Hp) Hx Hm _ Hcnt Hoff].
      assert (Hln : (length live <= n)%nat) by (apply Permutation_length in Hp; unfold slots in Hp; cbn in Hp; rewrite length_app, length_map, length_seq in Hp; lia).
      split; cbn; auto.
      - exists n. split; [exact Hw|]. rewrite <- Hp. symmetry. apply Permutation_middle.
      - unfold mapped_to. rewrite Em. exact Hm.
      - rewrite wrap_small by nia. lia. }
    unfold zero_slot. rewrite Te. destruct zero; cbn [mbind option_bind]; eexists _, _, _; (split; [reflexivity|]);
      cbn [fa_base with_list fa_elem_size fa_epoch_offset am_epoch]; splits; auto; try exact Te; exists fl; (split; [apply Hfin; auto|intros q Hq; right; exact Hq]).
    apply write_chain; assumption.
Qed.

(** ** Freeing one slot *)

Lemma filter_others (p : Z) (l : list Z) : p ∉ l -> filter (.≠ p) l = l.
Proof.
  induction l as [|x l IH]; intros Hp; [reflexivity|]. apply not_elem_of_cons in Hp as [Hx Hp].
  rewrite filter_cons_True by congruence. rewrite IH by exact Hp. reflexivity.
Qed.

Lemma remove_one (p : Z) (l : list Z) : NoDup l -> p ∈ l -> l ≡ₚ p :: filter (.≠ p) l.
Proof.
  induction l as [|x l IH]; intros Hnd Hin; [inversion Hin|]. apply NoDup_cons in Hnd as [Hx Hnd].
  destruct (decide (x = p)) as [->|Hne].
  - rewrite filter_cons_False by (intros H; exact (H eq_refl)). constructor.
    rewrite filter_others by exact Hx. reflexivity.
  - rewrite filter_cons_True by exact Hne. apply elem_of_cons in Hin as [->|Hin]; [congruence|].
    rewrite (IH Hnd Hin) at 1. apply perm_swap.
Qed.

Lemma fa_free_ok a m fl live p : arena_ok a m fl live -> p ∈ live ->
  exists a' m', fixed_arena_free_elem page a m p = Some (a', m') /\ arena_ok a' m' (p :: fl) (filter (.≠ p) live) /\
    fa_base a' = fa_base a /\ fa_elem_size a' = fa_elem_size a /\ fa_epoch_offset a' = fa_epoch_offset a /\ am_epoch m' = am_epoch m.
Proof using Hpage.
  intros Hok Hin. pose proof (arena_slots_apart _ _ _ _ Hok) as Hnd. apply NoDup_app in Hnd as (_ & Hdis & Hnd).
  pose proof (ao_elem _ _ _ _ Hok) as He. pose proof (slot_touch _ _ _ _ p 8 Hok (or_intror Hin) ltac:(lia)) as T8.
  destruct (slot_bounds _ _ _ _ p Hok (or_intror Hin)) as [Hlo _]. pose proof (ao_base _ _ _ _ Hok) as [Hb _].
  unfold fixed_arena_free_elem, write_word. destruct (Z.eqb_spec p 0); [lia|]. rewrite T8. cbn [mbind option_bind].
  eexists _, _. split; [reflexivity|]. splits; try reflexivity. pose proof (remove_one p live Hnd Hin) as Hrem.
  destruct Hok as [Hb' He' Hr (n' & Hw & Hp) Hx Hm Hc Hcnt Hoff]. split; cbn; auto.
  - exists n'. split; [exact Hw|]. rewrite <- Hp. etransitivity; [apply Permutation_middle|].
    apply Permutation_app_head. symmetry. exact Hrem.
  - split; [reflexivity|]. rewrite lookup_insert_eq. apply write_chain; [|exact Hc]. intros Hf. exact (Hdis p Hf Hin).
  - pose proof (Permutation_length Hrem) as Hlen. cbn in Hlen. destruct (Z.ltb_spec 0 (fa_live_count a)); lia.
Qed.

Lemma contains_ok a m fl live p : arena_ok a m fl live ->
  fixed_arena_contains a p = true <-> p ∈ fl \/ p ∈ live.
Proof using Hpage.
  intros Hok. pose proof Hok as [[Hb _] He _ (n & Hw & Hp) _ _ _ _ _]. rewrite <- elem_of_app, Hp, elem_slots.
  unfold fixed_arena_contains, slot_at. rewrite Hw. split.
  - destruct (Z.ltb_spec p (fa_base a)); [discriminate|]. destruct (Z.leb_spec (fa_base a + Z.of_nat n * fa_elem_size a) p); [discriminate|].
    cbn [orb]. rewrite Z.eqb_eq. intros Hd. apply Z.mod_divide in Hd as [k Hk]; [|lia].
    exists (Z.to_nat k). assert (0 <= k) by nia. split; [nia|]. rewrite Z2Nat.id by lia. lia.
  - intros (i & Hi & ->). destruct (Z.ltb_spec (fa_base a + Z.of_nat i * fa_elem_size a) (fa_base a)); [nia|].
    destruct (Z.leb_spec (fa_base a + Z.of_nat n * fa_elem_size a) (fa_base a + Z.of_nat i * fa_elem_size a)); [nia|].
    cbn [orb]. apply Z.eqb_eq. replace (fa_base a + Z.of_nat i * fa_elem_size a - fa_base a) with (Z.of_nat i * fa_elem_size a) by lia.
    apply Z.mod_mul. lia.
Qed.

(** ** Rebuilding the list *)

Definition range (base elem : Z) (i k : nat) : list Z := map (slot_at base elem) (seq i k).

Lemma rebuild_ok dead count k : forall fuel i n a m fl,
  8 <= fa_elem_size a -> (page | fa_base a) -> mapped_to m (fa_base a) (fa_committed a) ->
  Z.of_nat n * fa_elem_size a <= fa_committed a -> (k = n - i)%nat -> (i <= n)%nat -> (k < fuel)%nat ->
  chain m (fa_free_list a) fl -> (forall p, p ∈ fl -> p ∉ range (fa_base a) (fa_elem_size a) i k) ->
  0 <= fa_live_count a -> fa_live_count a + Z.of_nat k < 2 ^ 63 ->
  let rest := range (fa_base a) (fa_elem_size a) i k in
  let fl' := rev (List.filter (fun p => dead (epoch_of a m p)) rest) ++ fl in
  exists p m', relink_dead page dead count fuel (Z.of_nat n * fa_elem_size a) (Z.of_nat i * fa_elem_size a) a m =
      Some (with_list a (fa_live_count a + if count then zlen (List.filter (fun p => negb (dead (epoch_of a m p))) rest) else 0) p, m') /\
    chain m' p fl' /\ am_epoch m' = am_epoch m /\ am_mapped m' = am_mapped m.
Proof using Hpage.
  induction k as [|k IH]; intros fuel i n a m fl He Hd Hm Hn Hk Hi Hfuel Hc Hdis H0 Hcnt rest fl';
    (destruct fuel as [|fuel]; [lia|]); cbn [relink_dead].
  - assert (i = n) as -> by lia. rewrite Z.ltb_irrefl. exists (fa_free_list a), m. unfold rest, fl'. splits; auto.
    destruct a, count; cbn; rewrite ?Z.add_0_r; reflexivity.
  - destruct (Z.ltb_spec (Z.of_nat i * fa_elem_size a) (Z.of_nat n * fa_elem_size a)); [|nia].
    set (slot := fa_base a + Z.of_nat i * fa_elem_size a).
    assert (Er : rest = slot :: range (fa_base a) (fa_elem_size a) (S i) k) by reflexivity.
    assert (Ht : forall c, 0 < c <= fa_elem_size a -> touch page m slot c = true).
    { intros c Hc0. apply touch_ok with (fa_base a) (fa_committed a); auto; unfold slot; nia. }
    unfold read_epoch. rewrite Ht by lia. cbn [mbind option_bind]. fold (epoch_of a m slot).
    replace (Z.of_nat i * fa_elem_size a + fa_elem_size a) with (Z.of_nat (S i) * fa_elem_size a) by lia.
    assert (Hlater : slot ∉ range (fa_base a) (fa_elem_size a) (S i) k).
    { unfold range. rewrite list_elem_of_In, in_map_iff. intros (j & Hj & Hin). apply in_seq in Hin. unfold slot_at, slot in Hj. nia. }
    unfold fl'. rewrite Er. cbn [List.filter]. destruct (dead (epoch_of a m slot)) eqn:Edead; cbn [negb].
    + unfold write_word. rewrite Ht by lia. cbn [mbind option_bind].
      set (m1 := ArenaMem _ _ _ _). set (a1 := with_list a (fa_live_count a) slot).
      destruct (IH fuel (S i) n a1 m1 (slot :: fl)) as (p & m' & E & Hch & Hep & Hmp); unfold a1; cbn; auto; try lia.
      { split; [reflexivity|]. unfold m1. cbn. rewrite lookup_insert_eq. apply write_chain; [|exact Hc].
        intros Hin. apply (Hdis slot Hin). fold rest. rewrite Er. left. }
      { intros p Hp. apply elem_of_cons in Hp as [->|Hp]; [exact Hlater|]. intros Hin. apply (Hdis p Hp). fold rest. rewrite Er. right. exact Hin. }
      exists p, m'. splits; auto. rewrite <- app_assoc. exact Hch.
    + set (a1 := if count then _ else a).
      assert (Ea : fa_base a1 = fa_base a /\ fa_elem_size a1 = fa_elem_size a /\ fa_committed a1 = fa_committed a /\ fa_free_list a1 = fa_free_list a /\
        fa_live_count a1 = fa_live_count a + (if count then 1 else 0) /\ (forall x q, with_list a1 x q = with_list a x q) /\ fa_epoch_offset a1 = fa_epoch_offset a).
      { unfold a1. destruct count; cbn; rewrite ?wrap_small by lia; splits; auto; lia. }
      destruct Ea as (E1 & E2 & E3 & E4 & E5 & E6 & E7).
      destruct (IH fuel (S i) n a1 m fl) as (p & m' & E & Hch & Hep & Hmp); rewrite ?E1, ?E2, ?E3, ?E4, ?E5; auto; try (destruct count; lia).
      { intros p Hp Hin. apply (Hdis p Hp). fold rest. rewrite Er. right. exact Hin. }
      unfold epoch_of in E, Hch |- *. rewrite E1, E2, E5, E6, E7 in E. rewrite E1, E2, E7 in Hch. exists p, m'. splits; auto. rewrite E. f_equal. f_equal. f_equal.
      destruct count; [|lia]. unfold zlen. cbn [length]. lia.
Qed.

Lemma filter_split {A} (f : A -> bool) l : List.filter f l ++ List.filter (fun x => negb (f x)) l ≡ₚ l.
Proof.
  induction l as [|x l IH]; [reflexivity|]. cbn. destruct (f x); cbn; [rewrite IH; reflexivity|].
  rewrite <- IH at 3. symmetry. apply Permutation_middle.
Qed.

Lemma filter_perm {A} (f : A -> bool) l l' : l ≡ₚ l' -> List.filter f l ≡ₚ List.filter f l'.
Proof.
  induction 1 as [|x l l' _ IH|x y l|l l' l'' _ IH1 _ IH2]; cbn; [reflexivity| | |etransitivity; eassumption].
  - destruct (f x); [rewrite IH; reflexivity|exact IH].
  - destruct (f x), (f y); try reflexivity. apply perm_swap.
Qed.

Lemma rev_split {A} (f : A -> bool) l : rev (List.filter f l) ++ List.filter (fun x => negb (f x)) l ≡ₚ l.
Proof.
  etransitivity; [|apply (filter_split f)]. apply Permutation_app_tail. symmetry. apply Permutation_rev.
Qed.

Lemma filter_elem {A} (f : A -> bool) l x : x ∈ List.filter f l <-> x ∈ l /\ f x = true.
Proof. rewrite !list_elem_of_In. apply filter_In. Qed.

(** The loop over all slots below a limit. *)
Lemma rebuild_all dead count n a m : 8 <= fa_elem_size a -> (page | fa_base a) -> mapped_to m (fa_base a) (fa_committed a) ->
  Z.of_nat n * fa_elem_size a <= fa_committed a -> (n <= Z.to_nat (fa_watermark a / fa_elem_size a))%nat ->
  fa_free_list a = 0 -> 0 <= fa_live_count a -> fa_live_count a + Z.of_nat n < 2 ^ 63 ->
  let all := slots (fa_base a) (fa_elem_size a) n in
  exists p m', relink_dead page dead count (sweep_fuel a) (Z.of_nat n * fa_elem_size a) 0 a m =
      Some (with_list a (fa_live_count a + if count then zlen (List.filter (fun p => negb (dead (epoch_of a m p))) all) else 0) p, m') /\
    chain m' p (rev (List.filter (fun p => dead (epoch_of a m p)) all)) /\ am_epoch m' = am_epoch m /\ am_mapped m' = am_mapped m.
Proof using Hpage.
  intros He Hd Hm Hn Hfuel Hf H0 Hc all. rewrite <- (app_nil_r (rev _)).
  apply (rebuild_ok dead count n (sweep_fuel a) 0 n a m []); auto; unfold sweep_fuel; try lia.
  intros p Hp. inversion Hp.
Qed.

Lemma mark_count a fl live m n : arena_ok a m fl live -> fa_watermark a = Z.of_nat n * fa_elem_size a ->
  Z.to_nat (fa_watermark a / fa_elem_size a) = n /\ Z.of_nat n < 2 ^ 62.
Proof using Hpage.
  intros Hok Hw. pose proof (ao_elem _ _ _ _ Hok). pose proof (ao_extent _ _ _ _ Hok). pose proof (ao_reserved _ _ _ _ Hok). destruct (ao_base _ _ _ _ Hok).
  rewrite Hw, Z.div_mul by lia. split; [lia|]. nia.
Qed.

Lemma fa_sweep_ok gc_epoch a m fl live : arena_ok a m fl live ->
  exists a' m' fl' live', gc_sweep_arena page gc_epoch a m = Some (a', m') /\ arena_ok a' m' fl' live' /\
    (forall p, p ∈ live' <-> (p ∈ fl \/ p ∈ live) /\ epoch_of a m p = gc_epoch) /\
    (forall p, p ∈ fl' \/ p ∈ live' -> p ∈ fl \/ p ∈ live) /\
    fa_base a' = fa_base a /\ fa_elem_size a' = fa_elem_size a /\ fa_epoch_offset a' = fa_epoch_offset a /\ am_epoch m' = am_epoch m.
Proof using Hpage.
  intros Hok. destruct (ao_mark _ _ _ _ Hok) as (n & Hw & Hp). destruct (mark_count _ _ _ _ _ Hok Hw) as [Hn Hlt].
  pose proof (ao_extent _ _ _ _ Hok) as Hx. unfold gc_sweep_arena. rewrite Hw.
  set (dead := fun epoch => negb (epoch =? gc_epoch)). set (all := slots (fa_base a) (fa_elem_size a) n) in *.
  pose proof (rebuild_all dead true n (with_list a 0 0) m) as Hall. cbn [fa_elem_size fa_base fa_committed fa_watermark fa_free_list fa_live_count with_list] in Hall.
  destruct Hall as (p & m' & E & Hch & Hep & Hmp); try apply Hok; auto; try lia.
  change (epoch_of (with_list a 0 0)) with (epoch_of a) in E, Hch.
  change (sweep_fuel (with_list a 0 0)) with (sweep_fuel a) in E. rewrite E. fold all in Hch |- *.
  eexists _, m', _, _. split; [reflexivity|]. splits; cbn; auto.
  - destruct Hok as [Hb He Hr _ _ Hm _ _ Hoff]. split; cbn; auto.
    + exists n. split; [exact Hw|]. apply rev_split.
    + unfold mapped_to. rewrite Hmp. exact Hm.
    + exact Hch.
  - intros q. rewrite filter_elem, <- elem_of_app, Hp. unfold dead. rewrite negb_involutive, Z.eqb_eq. reflexivity.
  - intros q Hq. rewrite <- elem_of_app, Hp. rewrite <- (rev_split (fun p => dead (epoch_of a m p)) all). apply elem_of_app. exact Hq.
Qed.

(** ** Giving the end back *)

Lemma last_used_ok a m fl live k : forall fuel, arena_ok a m fl live -> Z.of_nat k * fa_elem_size a <= fa_committed a -> (k < fuel)%nat ->
  exists n, last_used page fuel (Z.of_nat k * fa_elem_size a) a m = Some (Z.of_nat n * fa_elem_size a) /\ (n <= k)%nat /\
    forall i, (n <= i < k)%nat -> epoch_of a m (slot_at (fa_base a) (fa_elem_size a) i) = ANT_GC_DEAD.
Proof using Hpage.
  induction k as [|k IH]; intros fuel Hok Hc Hfuel; (destruct fuel as [|fuel]; [lia|]); cbn [last_used];
    pose proof (ao_elem _ _ _ _ Hok) as He; destruct (ao_base _ _ _ _ Hok) as [Hb Hd].
  - destruct (Z.leb_spec (fa_elem_size a) (Z.of_nat 0 * fa_elem_size a)); [lia|]. exists 0%nat. splits; [reflexivity|lia|intros i Hi; lia].
  - destruct (Z.leb_spec (fa_elem_size a) (Z.of_nat (S k) * fa_elem_size a)); [|lia].
    replace (fa_base a + Z.of_nat (S k) * fa_elem_size a - fa_elem_size a) with (slot_at (fa_base a) (fa_elem_size a) k) by (unfold slot_at; lia).
    unfold read_epoch. rewrite (touch_ok m (fa_base a) (fa_committed a)); [|apply Hok|exact Hd|unfold slot_at; nia|lia|unfold slot_at; nia].
    cbn [mbind option_bind]. fold (epoch_of a m (slot_at (fa_base a) (fa_elem_size a) k)).
    destruct (Z.eqb_spec (epoch_of a m (slot_at (fa_base a) (fa_elem_size a) k)) ANT_GC_DEAD) as [Ed|Nd]; cbn [negb].
    + replace (Z.of_nat (S k) * fa_elem_size a - fa_elem_size a) with (Z.of_nat k * fa_elem_size a) by lia.
      destruct (IH fuel Hok ltac:(lia) ltac:(lia)) as (n & E & Hn & Hdead). exists n. splits; [exact E|lia|].
      intros i Hi. destruct (decide (i = k)) as [->|]; [exact Ed|apply Hdead; lia].
    + exists (S k). splits; [reflexivity|lia|intros i Hi; lia].
Qed.

Lemma slots_split base elem n n' : (n' <= n)%nat -> slots base elem n = slots base elem n' ++ range base elem n' (n - n').
Proof. intros Hn. unfold slots, range. rewrite <- map_app, <- seq_app. do 2 f_equal. lia. Qed.

Lemma fa_filter_none {A} (f : A -> bool) l : (forall x, x ∈ l -> f x = false) -> List.filter f l = [].
Proof.
  induction l as [|x l IH]; intros H; [reflexivity|]. cbn. rewrite H by left. apply IH. intros y Hy. apply H. right. exact Hy.
Qed.
Lemma fa_filter_all {A} (f : A -> bool) l : (forall x, x ∈ l -> f x = true) -> List.filter f l = l.
Proof.
  induction l as [|x l IH]; intros H; [reflexivity|]. cbn. rewrite H by left. f_equal. apply IH. intros y Hy. apply H. right. exact Hy.
Qed.

(** The dead slots are exactly the free ones. *)
Definition dead_free (a : fixed_arena) (m : arena_mem) (fl live : list Z) : Prop :=
  (forall p, p ∈ fl -> epoch_of a m p = ANT_GC_DEAD) /\ (forall p, p ∈ live -> epoch_of a m p <> ANT_GC_DEAD).

Lemma live_bound a m fl live n : arena_ok a m fl live -> fa_watermark a = Z.of_nat n * fa_elem_size a -> (length live <= n)%nat.
Proof using Hpage.
  intros [_ He _ (k & Hk & Hp) _ _ _ _ _] Hw. assert (k = n) as -> by nia.
  apply Permutation_length in Hp. unfold slots in Hp. rewrite length_app, length_map, length_seq in Hp. lia.
Qed.

Lemma live_filter (a : fixed_arena) (m : arena_mem) fl live : (forall p, p ∈ fl -> epoch_of a m p = ANT_GC_DEAD) -> (forall p, p ∈ live -> epoch_of a m p <> ANT_GC_DEAD) ->
  List.filter (fun p => negb (epoch_of a m p =? ANT_GC_DEAD)) (fl ++ live) = live.
Proof.
  intros Hf Hl. rewrite List.filter_app, fa_filter_none, fa_filter_all; [reflexivity| |].
  - intros p Hp. destruct (Z.eqb_spec (epoch_of a m p) ANT_GC_DEAD) as [E|]; [destruct (Hl p Hp E)|reflexivity].
  - intros p Hp. rewrite (Hf p Hp). reflexivity.
Qed.

Lemma shrink_ok a m fl live : arena_ok a m fl live -> dead_free a m fl live ->
  exists a' m' fl', gc_shrink_arena page grant a m = Some (a', m') /\ arena_ok a' m' fl' live /\ (forall p, p ∈ fl' -> p ∈ fl) /\
    fa_base a' = fa_base a /\ fa_elem_size a' = fa_elem_size a /\ fa_epoch_offset a' = fa_epoch_offset a /\
    (forall p, p ∈ fl' \/ p ∈ live -> epoch_of a m' p = epoch_of a m p).
Proof using Hpage.
  intros Hok [Hdf Hdl]. destruct (ao_mark _ _ _ _ Hok) as (n & Hw & Hp). destruct (mark_count _ _ _ _ _ Hok Hw) as [Hn Hlt].
  pose proof (ao_extent _ _ _ _ Hok) as Hx. pose proof (ao_elem _ _ _ _ Hok) as He. pose proof (ao_reserved _ _ _ _ Hok) as Hr.
  destruct (ao_base _ _ _ _ Hok) as [Hb Hd]. unfold gc_shrink_arena. rewrite Hw.
  destruct (last_used_ok a m fl live n (sweep_fuel a) Hok ltac:(lia)) as (n' & E1 & Hle & Hdead); [unfold sweep_fuel; lia|].
  rewrite E1. cbn [mbind option_bind]. destruct (Z.ltb_spec (Z.of_nat n' * fa_elem_size a) (Z.of_nat n * fa_elem_size a)) as [Hlt'|Hge].
  2: { exists a, m, fl. splits; auto. }
  set (dead := fun epoch => epoch =? ANT_GC_DEAD).
  pose proof (rebuild_all dead false n' (with_list a (fa_live_count a) 0) m) as Hall.
  cbn [fa_elem_size fa_base fa_committed fa_watermark fa_free_list fa_live_count with_list] in Hall.
  pose proof (ao_count _ _ _ _ Hok) as Hcnt. pose proof (live_bound _ _ _ _ _ Hok Hw) as Hlb.
  destruct Hall as (p & m' & E & Hch & Hep & Hmp); try apply Hok; auto; try lia.
  change (epoch_of (with_list a (fa_live_count a) 0)) with (epoch_of a) in E, Hch.
  change (sweep_fuel (with_list a (fa_live_count a) 0)) with (sweep_fuel a) in E. rewrite E. cbn [mbind option_bind].
  set (all := slots (fa_base a) (fa_elem_size a) n') in *.
  set (fl' := rev (List.filter (fun p => dead (epoch_of a m p)) all)) in *.
  assert (Hlive : List.filter (fun p => negb (dead (epoch_of a m p))) all ≡ₚ live).
  { transitivity (List.filter (fun p => negb (dead (epoch_of a m p))) (fl ++ live)); [|unfold dead; rewrite live_filter by assumption; reflexivity]. rewrite <- (app_nil_r (List.filter _ all)).
    etransitivity; [|symmetry; exact (filter_perm _ _ _ Hp)]. rewrite (slots_split _ _ n n') by lia. rewrite List.filter_app.
    apply Permutation_app_head. rewrite fa_filter_none; [reflexivity|]. intros q Hq. unfold range in Hq.
    apply list_elem_of_In, in_map_iff in Hq as (i & <- & Hi). apply in_seq in Hi. rewrite Hdead by lia. reflexivity. }
  assert (Hkeep : fl' ++ live ≡ₚ all).
  { etransitivity; [apply Permutation_app_head; symmetry; exact Hlive|apply rev_split]. }
  pose proof (decommit_ok m' (fa_base a) (fa_committed a) (Z.of_nat n' * fa_elem_size a)) as Hdc. cbn zeta in Hdc.
  destruct Hdc as (Hdm & Hdw); try lia; [|exact Hd|].
  { unfold mapped_to. rewrite Hmp. intros q Hq. apply (ao_mapped _ _ _ _ Hok). lia. }
  pose proof (ao_epoch _ _ _ _ Hok) as Hoff.
  assert (Hin : forall q, q ∈ all -> fa_base a <= q /\ q + fa_elem_size a <= fa_base a + Z.of_nat n' * fa_elem_size a).
  { intros q Hq. apply elem_slots in Hq as (i & Hi & ->). unfold slot_at. nia. }
  eexists _, _, fl'. split; [reflexivity|]. splits; cbn; auto.
  - split; cbn; auto; try lia.
    + exists n'. split; [reflexivity|exact Hkeep].
    + apply chain_ext with m'; [|exact Hch]. intros x Hq. apply Hdw.
      destruct (Hin x); [|lia]. rewrite <- Hkeep. apply elem_of_app. left. exact Hq.
  - intros q Hq. assert (Hs : q ∈ fl ++ live).
    { rewrite Hp, (slots_split _ _ n n') by lia. apply elem_of_app. left. unfold fl' in Hq. apply list_elem_of_In, in_rev, list_elem_of_In in Hq.
      apply filter_elem in Hq. apply Hq. }
    apply elem_of_app in Hs as [Hs|Hs]; [exact Hs|]. exfalso. apply (Hdl q Hs). unfold fl' in Hq. apply list_elem_of_In, in_rev, list_elem_of_In in Hq.
    apply filter_elem in Hq as [_ Hq]. apply Z.eqb_eq. exact Hq.
  - intros q Hq. unfold epoch_of. destruct (Hdw (q + fa_epoch_offset a)) as [_ ->]; [|rewrite Hep; reflexivity].
    destruct (Hin q); [|lia]. rewrite <- Hkeep. apply elem_of_app. exact Hq.
Qed.
(** ** Epochs *)

Lemma write_epoch_ok a m fl live p e : arena_ok a m fl live -> p ∈ fl \/ p ∈ live ->
  exists m', write_epoch page a m p e = Some m' /\ arena_ok a m' fl live /\
    forall q, epoch_of a m' q = if decide (q = p) then e else epoch_of a m q.
Proof using Hpage.
  intros Hok Hin. unfold write_epoch. pose proof (ao_elem _ _ _ _ Hok).
  rewrite (slot_touch _ _ _ _ p (fa_elem_size a) Hok Hin) by lia. eexists. split; [reflexivity|]. split.
  - destruct Hok as [Hb He Hr Hn Hx Hm Hc Hcnt Hoff]. split; auto. apply chain_ext with m; [|exact Hc]. reflexivity.
  - intros q. unfold epoch_of. cbn [am_epoch]. destruct (decide (q = p)) as [->|Hne].
    + rewrite lookup_insert_eq. reflexivity.
    + rewrite lookup_insert_ne by lia. reflexivity.
Qed.

Lemma mark_slots_ok a fl live e marks : forall m, arena_ok a m fl live -> (forall p, p ∈ marks -> p ∈ live) ->
  exists m', mark_slots page a m e marks = Some m' /\ arena_ok a m' fl live /\
    forall q, epoch_of a m' q = if decide (q ∈ marks) then e else epoch_of a m q.
Proof using Hpage.
  induction marks as [|p marks IH]; intros m Hok Hin; cbn [mark_slots].
  - exists m. splits; auto.
  - destruct (write_epoch_ok a m fl live p e Hok) as (m1 & -> & Hok1 & Hq1); [right; apply Hin; left|]. cbn [mbind option_bind].
    destruct (IH m1 Hok1) as (m' & -> & Hok' & Hq); [intros q Hq; apply Hin; right; exact Hq|]. exists m'. splits; auto.
    intros q. rewrite Hq, Hq1. destruct (decide (q ∈ marks)), (decide (q = p)), (decide (q ∈ p :: marks)) as [Hc|Hc]; try reflexivity; set_solver.
Qed.

Lemma young_ok e young : forall a m fl live, arena_ok a m fl live -> NoDup young -> (forall p, p ∈ young -> p ∈ live) ->
  exists a' m' fl' live', sweep_young_slots page e young a m = Some (a', m') /\ arena_ok a' m' fl' live' /\
    (forall p, p ∈ live' <-> p ∈ live /\ (p ∈ young -> epoch_of a m p = e)) /\
    (forall p, p ∈ fl' \/ p ∈ live' -> p ∈ fl \/ p ∈ live) /\
    (forall p, epoch_of a' m' p = epoch_of a m p).
Proof using Hpage.
  induction young as [|p young IH]; intros a m fl live Hok Hnd Hin; cbn [sweep_young_slots].
  - exists a, m, fl, live. splits; auto. intros p. split; [|tauto]. intros Hp. split; [exact Hp|]. intros Hn. inversion Hn.
  - apply NoDup_cons in Hnd as [Hp Hnd]. pose proof (ao_elem _ _ _ _ Hok).
    assert (Hpl : p ∈ live) by (apply Hin; left). assert (Hyl : forall q, q ∈ young -> q ∈ live) by (intros q Hq; apply Hin; right; exact Hq).
    unfold read_epoch. rewrite (slot_touch _ _ _ _ p (fa_elem_size a) Hok (or_intror Hpl)) by lia. cbn [mbind option_bind].
    fold (epoch_of a m p). destruct (Z.eqb_spec (epoch_of a m p) e) as [Ee|Ne].
    + destruct (IH a m fl live Hok Hnd Hyl) as (a' & m' & fl' & live' & -> & Hok' & Hl & Hs & Hq). exists a', m', fl', live'. splits; auto.
      intros q. rewrite Hl. set_solver.
    + destruct (fa_free_ok a m fl live p Hok Hpl) as (a1 & m1 & -> & Hok1 & _ & _ & Ho & He). cbn [mbind option_bind].
      assert (Hq1 : forall q, epoch_of a1 m1 q = epoch_of a m q) by (intros q; unfold epoch_of; rewrite Ho, He; reflexivity).
      destruct (IH a1 m1 (p :: fl) (filter (.≠ p) live) Hok1 Hnd) as (a' & m' & fl' & live' & -> & Hok' & Hl & Hs & Hq).
      { intros q Hy. apply list_elem_of_filter. split; [intros ->; contradiction|apply Hyl, Hy]. }
      exists a', m', fl', live'. splits; auto.
      * intros q. rewrite Hl, list_elem_of_filter, Hq1, elem_of_cons. split; [|naive_solver].
        intros [[Hne Hql] Hy]. split; [exact Hql|]. intros [->|Hin']; [congruence|auto].
      * intros q Hl'. destruct (Hs q Hl') as [Hs'|Hs']; [|apply list_elem_of_filter in Hs' as [_ Hs']; auto].
        apply elem_of_cons in Hs' as [->|Hs']; auto.
      * intros q. rewrite Hq. apply Hq1.
Qed.

(** ** The operations keep the promise *)

Definition heap_inv (objects : bool) (h : arena_heap) (live : gset Z) : Prop :=
  exists fl lv, arena_ok (ah_arena h) (ah_mem h) fl lv /\ (forall p, p ∈ live <-> p ∈ lv) /\ 0 <= ah_epoch h < 2 ^ 64 /\
    if objects then dead_free (ah_arena h) (ah_mem h) fl lv
    else forall p, p ∈ fl \/ p ∈ lv -> epoch_of (ah_arena h) (ah_mem h) p <= ah_epoch h.

(** What a new slot does to the epochs of all slots. *)
Lemma take_epochs zero a m fl live : arena_ok a m fl live ->
  exists r a' m' fl', arena_take page grant zero a m = Some (r, a', m') /\
  match r with
  | None => fl' = fl /\ arena_ok a' m' fl live /\ forall q, epoch_of a' m' q = epoch_of a m q
  | Some p => arena_ok a' m' fl' (p :: live) /\ (p ∉ live) /\ (p ∉ fl') /\ (forall q, q ∈ fl' -> q ∈ fl) /\
      (forall q, q <> p -> epoch_of a' m' q = epoch_of a m q) /\ (zero = true -> epoch_of a' m' p = 0)
  end.
Proof using Hpage.
  intros Hok. destruct (fa_take_ok zero a m fl live Hok) as (r & a' & m' & E & Hr). exists r, a', m'. destruct r as [p|].
  - destruct Hr as ((fl' & Hok' & Hfl) & Hp & _ & _ & _ & Ho & He). exists fl'. split; [exact E|]. splits; auto.
    + intros Hin. pose proof (arena_slots_apart _ _ _ _ Hok') as Hnd. apply NoDup_app in Hnd as (_ & Hdis & _).
      apply (Hdis p Hin). left.
    + intros q Hq. unfold epoch_of. rewrite Ho, He. destruct zero; [rewrite lookup_insert_ne by lia|]; reflexivity.
    + intros ->. unfold epoch_of. rewrite Ho, He, lookup_insert_eq. reflexivity.
  - destruct Hr as (-> & Hok' & He). exists fl. split; [exact E|]. splits; auto. intros q. unfold epoch_of. rewrite He. reflexivity.
Qed.

Lemma next_epoch_up e : 0 <= e -> e + 1 < 2 ^ 64 -> gc_next_epoch e = e + 1.
Proof. intros H0 H1. unfold gc_next_epoch. rewrite wrap_small by lia. destruct (Z.eqb_spec (e + 1) 0); lia. Qed.

(** A new slot can be recorded. *)
Lemma spec_new op (live : gset Z) (lv : list Z) p : (op = NewSlot \/ exists zero, op = NewClosure zero) -> (forall q, q ∈ live <-> q ∈ lv) -> p ∉ lv ->
  slot_spec op (Some p) live = Some ({[p]} ∪ live) /\ forall q, q ∈ {[p]} ∪ live <-> q ∈ p :: lv.
Proof.
  intros Hop Hl Hp. split; [|intros q; rewrite elem_of_union, elem_of_singleton, Hl, elem_of_cons; reflexivity].
  destruct Hop as [->|[zero ->]]; cbn; destruct (decide (p ∈ live)) as [Hin|]; try reflexivity; apply Hl in Hin; contradiction.
Qed.

Definition step_safe (objects : bool) (h : arena_heap) (live : gset Z) (op : slot_op) : Prop :=
  exists r h' live', arena_step page grant op h = Some (r, h') /\ slot_spec op r live = Some live' /\ heap_inv objects h' live'.

Lemma new_slot_safe objects h live : heap_inv objects h live -> step_safe objects h live NewSlot.
Proof using Hpage.
  destruct h as [a m e]. intros (fl & lv & Hok & Hl & He & Hep). cbn [ah_arena ah_mem ah_epoch] in *.
  destruct (take_epochs true a m fl lv Hok) as (r & a' & m' & fl' & E & Hr). unfold step_safe. cbn [arena_step].
  unfold fixed_arena_alloc. rewrite E. cbn [mbind option_bind]. eexists _, _. destruct r as [p|].
  - destruct Hr as (Hok' & Hp & Hpf & Hfl & Hq & Hz). destruct (spec_new NewSlot live lv p (or_introl eq_refl) Hl Hp) as [Es Hl'].
    eexists. split; [reflexivity|]. split; [exact Es|]. exists fl', (p :: lv). cbn [ah_arena ah_mem ah_epoch]. splits; auto; [lia..|].
    assert (Hz' := Hz eq_refl). destruct objects.
    + destruct Hep as [Hf Hlv]. split; intros q Hin.
      * rewrite Hq; [apply Hf, Hfl, Hin|]. intros ->. contradiction.
      * destruct (decide (q = p)) as [->|Hne]; [rewrite Hz'; discriminate|]. rewrite Hq by exact Hne.
        apply Hlv. apply elem_of_cons in Hin as [?|?]; [contradiction|assumption].
    + intros q Hin. destruct (decide (q = p)) as [->|Hne]; [lia|]. rewrite Hq by exact Hne. apply Hep.
      destruct Hin as [Hin|Hin]; [left; apply Hfl, Hin|right]. apply elem_of_cons in Hin as [?|?]; [contradiction|assumption].
  - destruct Hr as (-> & Hok' & Hq). eexists. split; [reflexivity|]. split; [reflexivity|]. exists fl, lv.
    cbn [ah_arena ah_mem ah_epoch]. splits; auto; [lia..|]. destruct objects.
    + split; intros q Hin; rewrite Hq; [apply Hep, Hin|apply Hep, Hin].
    + intros q Hin. rewrite Hq. apply Hep, Hin.
Qed.

Lemma new_closure_safe zero h live : heap_inv false h live -> step_safe false h live (NewClosure zero).
Proof using Hpage.
  destruct h as [a m e]. intros (fl & lv & Hok & Hl & He & Hep). cbn [ah_arena ah_mem ah_epoch] in *.
  destruct (take_epochs zero a m fl lv Hok) as (r & a' & m' & fl' & E & Hr). unfold step_safe. cbn [arena_step].
  unfold new_closure_slot. rewrite E. cbn [mbind option_bind]. destruct r as [p|].
  - destruct Hr as (Hok' & Hp & Hpf & Hfl & Hq & _).
    destruct (write_epoch_ok a' m' fl' (p :: lv) p e Hok') as (m2 & -> & Hok2 & Hq2); [right; left|]. cbn [mbind option_bind].
    destruct (spec_new (NewClosure zero) live lv p) as [Es Hl']; [right; eauto|exact Hl|exact Hp|].
    eexists _, _, _. split; [reflexivity|]. split; [exact Es|]. exists fl', (p :: lv). cbn [ah_arena ah_mem ah_epoch]. splits; auto; [lia..|].
    intros q Hin. rewrite Hq2. destruct (decide (q = p)) as [->|Hne]; [lia|]. rewrite Hq by exact Hne. apply Hep.
    destruct Hin as [Hin|Hin]; [left; apply Hfl, Hin|right]. apply elem_of_cons in Hin as [?|?]; [contradiction|assumption].
  - destruct Hr as (-> & Hok' & Hq). eexists _, _, _. split; [reflexivity|]. split; [reflexivity|]. exists fl, lv.
    cbn [ah_arena ah_mem ah_epoch]. splits; auto; [lia..|]. intros q Hin. rewrite Hq. apply Hep, Hin.
Qed.

Lemma mark_object_safe h live obj v : heap_inv true h live -> obj ∈ live -> v <> ANT_GC_DEAD -> step_safe true h live (MarkObject obj v).
Proof using Hpage.
  destruct h as [a m e]. intros (fl & lv & Hok & Hl & He & Hf & Hlv) Hin Hv. cbn [ah_arena ah_mem ah_epoch] in *.
  apply Hl in Hin. destruct (write_epoch_ok a m fl lv obj v Hok (or_intror Hin)) as (m' & E & Hok' & Hq).
  unfold step_safe. cbn [arena_step]. rewrite E. cbn [mbind option_bind].
  eexists _, _, live. split; [reflexivity|]. split; [reflexivity|]. exists fl, lv. cbn [ah_arena ah_mem ah_epoch]. splits; auto; [lia..|].
  pose proof (arena_slots_apart _ _ _ _ Hok) as Hnd. apply NoDup_app in Hnd as (_ & Hdis & _).
  split; intros q Hq'; rewrite Hq; destruct (decide (q = obj)) as [->|]; auto. destruct (Hdis obj Hq' Hin).
Qed.

Lemma free_object_safe h live obj : heap_inv true h live -> obj ∈ live -> step_safe true h live (FreeObject obj).
Proof using Hpage.
  destruct h as [a m e]. intros (fl & lv & Hok & Hl & He & Hf & Hlv) Hin. cbn [ah_arena ah_mem ah_epoch] in *.
  apply Hl in Hin. destruct (write_epoch_ok a m fl lv obj ANT_GC_DEAD Hok (or_intror Hin)) as (m1 & E1 & Hok1 & Hq1).
  destruct (fa_free_ok a m1 fl lv obj Hok1 Hin) as (a' & m' & E & Hok' & _ & _ & Ho & Hep).
  destruct (slot_bounds _ _ _ _ obj Hok (or_intror Hin)). destruct (ao_base _ _ _ _ Hok).
  unfold step_safe. cbn [arena_step]. unfold free_object_slot. destruct (Z.eqb_spec obj 0); [lia|]. rewrite E1. cbn [mbind option_bind].
  rewrite E. cbn [mbind option_bind]. eexists _, _, _. split; [reflexivity|]. split; [reflexivity|].
  exists (obj :: fl), (filter (.≠ obj) lv). cbn [ah_arena ah_mem ah_epoch]. splits; auto; [|lia..|].
  - intros q. rewrite list_elem_of_filter, elem_of_difference, elem_of_singleton, Hl. tauto.
  - assert (Hq : forall q, epoch_of a' m' q = epoch_of a m1 q) by (intros q; unfold epoch_of; rewrite Ho, Hep; reflexivity).
    split; intros q Hq'; rewrite Hq, Hq1; destruct (decide (q = obj)) as [->|Hne]; auto.
    + apply elem_of_cons in Hq' as [?|?]; [contradiction|auto].
    + apply list_elem_of_filter in Hq' as [? _]. contradiction.
    + apply list_elem_of_filter in Hq' as [_ ?]. auto.
Qed.

(** A collection writes its new epoch into the slots it reaches, and nowhere else. *)
Lemma marked a m fl lv e marks (live : gset Z) : arena_ok a m fl lv -> (forall p, p ∈ live <-> p ∈ lv) ->
  list_to_set marks ⊆ live -> (forall p, p ∈ fl \/ p ∈ lv -> epoch_of a m p <= e) ->
  exists m', mark_slots page a m (e + 1) marks = Some m' /\ arena_ok a m' fl lv /\
    (forall p, p ∈ fl \/ p ∈ lv -> epoch_of a m' p <= e + 1) /\
    (forall p, p ∈ fl \/ p ∈ lv -> epoch_of a m' p = e + 1 <-> p ∈ marks) /\ (forall p, p ∈ marks -> p ∈ lv).
Proof using Hpage.
  intros Hok Hl Hm He. assert (Hml : forall p, p ∈ marks -> p ∈ lv).
  { intros p Hp. apply Hl, Hm, elem_of_list_to_set, Hp. }
  destruct (mark_slots_ok a fl lv (e + 1) marks m Hok Hml) as (m' & E & Hok' & Hq). exists m'. splits; auto;
    intros p Hp; rewrite Hq; pose proof (He p Hp); destruct (decide (p ∈ marks)); try lia; split; auto; lia || contradiction.
Qed.

Lemma minor_safe h live young marks : heap_inv false h live -> op_valid false (ah_epoch h) live (Minor young marks) ->
  step_safe false h live (Minor young marks).
Proof using Hpage.
  destruct h as [a m e]. intros (fl & lv & Hok & Hl & He & Hep) (_ & Hnd & Hy & Hm & Hb). cbn [ah_arena ah_mem ah_epoch] in *.
  destruct (marked a m fl lv e marks live Hok Hl Hm Hep) as (m1 & E1 & Hok1 & Hle & Hmk & _).
  destruct (young_ok (e + 1) young a m1 fl lv Hok1 Hnd) as (a' & m' & fl' & lv' & E & Hok' & Hlv & Hs & Hq).
  { intros p Hp. apply Hl, Hy, elem_of_list_to_set, Hp. }
  unfold step_safe. cbn [arena_step]. rewrite next_epoch_up by lia. rewrite E1. cbn [mbind option_bind]. rewrite E. cbn [mbind option_bind].
  eexists _, _, _. split; [reflexivity|]. split; [reflexivity|]. exists fl', lv'. cbn [ah_arena ah_mem ah_epoch]. splits; auto; [|lia..|].
  - intros p. rewrite elem_of_filter, Hlv, Hl. split.
    + intros [Hym Hp]. split; [exact Hp|]. intros Hpy. apply Hmk; auto.
    + intros [Hp Hpy]. split; [|exact Hp]. intros Hpy'. apply Hmk; auto.
  - intros p Hp. rewrite Hq. apply Hle, Hs, Hp.
Qed.

Lemma major_safe h live marks : heap_inv false h live -> op_valid false (ah_epoch h) live (Major marks) ->
  step_safe false h live (Major marks).
Proof using Hpage.
  destruct h as [a m e]. intros (fl & lv & Hok & Hl & He & Hep) (_ & Hm & Hb). cbn [ah_arena ah_mem ah_epoch] in *.
  destruct (marked a m fl lv e marks live Hok Hl Hm Hep) as (m1 & E1 & Hok1 & Hle & Hmk & Hml).
  destruct (fa_sweep_ok (e + 1) a m1 fl lv Hok1) as (a' & m' & fl' & lv' & E & Hok' & Hlv & Hs & _ & _ & Ho & Hq).
  unfold step_safe. cbn [arena_step]. rewrite next_epoch_up by lia. rewrite E1. cbn [mbind option_bind]. rewrite E. cbn [mbind option_bind].
  eexists _, _, _. split; [reflexivity|]. split; [reflexivity|]. exists fl', lv'. cbn [ah_arena ah_mem ah_epoch]. splits; auto; [|lia..|].
  - intros p. rewrite elem_of_list_to_set, Hlv. split.
    + intros Hp. split; [right; auto|]. apply Hmk; auto.
    + intros [Hp Hpe]. apply Hmk; auto.
  - intros p Hp. unfold epoch_of. rewrite Ho, Hq. apply Hle, Hs, Hp.
Qed.

Lemma shrink_safe h live : heap_inv true h live -> step_safe true h live Shrink.
Proof using Hpage.
  destruct h as [a m e]. intros (fl & lv & Hok & Hl & He & Hep). cbn [ah_arena ah_mem ah_epoch] in *.
  destruct (shrink_ok a m fl lv Hok Hep) as (a' & m' & fl' & E & Hok' & Hfl & _ & _ & Ho & Hq).
  unfold step_safe. cbn [arena_step]. rewrite E. cbn [mbind option_bind].
  eexists _, _, _. split; [reflexivity|]. split; [reflexivity|]. exists fl', lv. cbn [ah_arena ah_mem ah_epoch]. splits; auto; [lia..|].
  destruct Hep as [Hf Hlv]. assert (Hq' : forall p, p ∈ fl' \/ p ∈ lv -> epoch_of a' m' p = epoch_of a m p).
  { intros p Hp. rewrite <- Hq by exact Hp. unfold epoch_of. rewrite Ho. reflexivity. }
  split; intros p Hp; rewrite Hq' by auto; auto.
Qed.

Lemma op_safe objects h live op : heap_inv objects h live -> op_valid objects (ah_epoch h) live op -> step_safe objects h live op.
Proof using Hpage.
  intros Hi Hv. destruct op as [|zero|obj v|obj|young marks|marks|].
  - apply new_slot_safe, Hi.
  - cbn in Hv. subst objects. apply new_closure_safe, Hi.
  - destruct Hv as (-> & Hin & Hv). apply mark_object_safe; assumption.
  - destruct Hv as (-> & Hin). apply free_object_safe; assumption.
  - destruct objects; [destruct Hv; discriminate|]. apply minor_safe; assumption.
  - destruct objects; [destruct Hv; discriminate|]. apply major_safe; assumption.
  - cbn in Hv. subst objects. apply shrink_safe, Hi.
Qed.

Lemma init_inv objects base elem off max m a m' : 0 < base -> (page | base) -> 8 <= off < elem -> elem <= 64 * 1024 -> 0 <= max ->
  base + max + page < 2 ^ 63 -> fixed_arena_init page grant m (Some base) elem off max = (Some a, m') ->
  heap_inv objects (ArenaHeap a m' 0) ∅.
Proof using Hpage.
  intros Hb Hd Ho He Hx Hr. unfold fixed_arena_init. cbv zeta. set (initial := if max <? 2 * 1024 * 1024 then max else 2 * 1024 * 1024).
  assert (Hi : 0 <= initial <= max) by (unfold initial; destruct (Z.ltb_spec max (2 * 1024 * 1024)); lia). clearbody initial.
  assert (H0 : mapped_to m base 0) by (intros q Hq; lia).
  pose proof (commit_ok m base 0 initial H0 Hd ltac:(lia) ltac:(lia) ltac:(lia) ltac:(lia)) as Hc.
  destruct (ant_arena_commit _ _ _ _ _ _) as [[|] m1]; intros Hfin; [injection Hfin as <- <-|discriminate]. destruct Hc as (Hm & _).
  exists [], []. cbn [ah_arena ah_mem ah_epoch]. splits; [|set_solver|lia|lia|].
  - split; cbn; auto; try lia. exists 0%nat. split; [lia|reflexivity].
  - destruct objects; [split|]; intros p Hp; (apply not_elem_of_nil in Hp as []) || (destruct Hp as [Hp|Hp]; apply not_elem_of_nil in Hp as []).
Qed.

Lemma reach_inv objects h live : arena_reach page grant objects h live -> heap_inv objects h live.
Proof using Hpage.
  induction 1 as [base elem off max m a m' Hb Hd Ho He Hx Hr Hi|h live op r h' live' _ IH Hv Hs Hsp].
  - eapply init_inv; eassumption.
  - destruct (op_safe objects h live op IH Hv) as (r1 & h1 & live1 & E1 & E2 & Hi).
    rewrite Hs in E1. injection E1 as <- <-. rewrite Hsp in E2. injection E2 as <-. exact Hi.
Qed.

(** The state the invariant describes, as a client sees it. *)
Lemma inv_client objects h live : heap_inv objects h live ->
  fa_live_count (ah_arena h) = Z.of_nat (size live) /\
  (forall p, p ∈ live -> touch page (ah_mem h) p (fa_elem_size (ah_arena h)) = true /\ fixed_arena_contains (ah_arena h) p = true) /\
  (forall p q, p ∈ live -> q ∈ live -> p <> q -> p + fa_elem_size (ah_arena h) <= q \/ q + fa_elem_size (ah_arena h) <= p).
Proof using Hpage.
  destruct h as [a m e]. intros (fl & lv & Hok & Hl & _ & _). cbn [ah_arena ah_mem] in *. pose proof (ao_elem _ _ _ _ Hok). splits.
  - rewrite (ao_count _ _ _ _ Hok). pose proof (arena_slots_apart _ _ _ _ Hok) as Hnd. apply NoDup_app in Hnd as (_ & _ & Hnd).
    f_equal. rewrite <- (size_list_to_set (C := gset Z) lv) by exact Hnd. f_equal. apply set_eq.
    intros p. rewrite elem_of_list_to_set. symmetry. apply Hl.
  - intros p Hp. apply Hl in Hp. split; [apply (slot_touch _ _ _ _ p _ Hok); auto; lia|]. apply (contains_ok _ _ _ _ p Hok). auto.
  - intros p q Hp Hq Hne. apply Hl in Hp, Hq. destruct (ao_mark _ _ _ _ Hok) as (n & _ & Hperm).
    assert (Hs : forall x, x ∈ lv -> exists i, (i < n)%nat /\ x = slot_at (fa_base a) (fa_elem_size a) i).
    { intros x Hx. apply elem_slots. rewrite <- Hperm. apply elem_of_app. auto. }
    destruct (Hs p Hp) as (i & _ & ->), (Hs q Hq) as (j & _ & ->). unfold slot_at in *.
    assert (i <> j) by congruence. destruct (decide (i < j)%nat); nia.
Qed.

(** C22: arenas are safe.  Take any state an arena reaches from its initialization by
    allocations, marks, frees, minor and major collections and shrinking.  Every
    further operation returns without an access to a page that is not accessible,
    and does what it promises to the set of slots: a new slot is not one that is
    in use, a minor collection frees exactly the young slots it did not mark, a
    major one keeps exactly the marked slots, and giving pages back to the system
    keeps every slot in use.  The count of slots is exact; the slots
    are disjoint, accessible and recognized. *)
Theorem fixed_arena_safe objects h live op : arena_reach page grant objects h live -> op_valid objects (ah_epoch h) live op ->
  fa_live_count (ah_arena h) = Z.of_nat (size live) /\
  (forall p, p ∈ live -> touch page (ah_mem h) p (fa_elem_size (ah_arena h)) = true /\ fixed_arena_contains (ah_arena h) p = true) /\
  (forall p q, p ∈ live -> q ∈ live -> p <> q -> p + fa_elem_size (ah_arena h) <= q \/ q + fa_elem_size (ah_arena h) <= p) /\
  exists r h' live', arena_step page grant op h = Some (r, h') /\ slot_spec op r live = Some live' /\
    arena_reach page grant objects h' live'.
Proof using Hpage.
  intros Hr Hv. pose proof (reach_inv objects h live Hr) as Hi. destruct (inv_client objects h live Hi) as (H1 & H2 & H3).
  splits; auto. destruct (op_safe objects h live op Hi Hv) as (r & h' & live' & E1 & E2 & _).
  exists r, h', live'. splits; auto. eapply reach_step; eassumption.
Qed.
End arenas.

(** ** Examples *)

Module Example.
Definition closure_size : Z := 152.
Definition closure_epoch : Z := 144.
Definition granted (_ : nat) : bool := true.
Definition empty : arena_mem := ArenaMem ∅ ∅ (fun _ => false) 0.

Definition start (elem off : Z) : arena_heap :=
  match fixed_arena_init 4096 granted empty (Some 0x10000000000) elem off (2 ^ 31) with
  | (Some a, m) => ArenaHeap a m 0
  | (None, m) => ArenaHeap (FixedArena 0 0 0 0 0 0 0 0) m 0
  end.

Fixpoint run (ops : list slot_op) (h : arena_heap) : option (list (option Z) * arena_heap) :=
  match ops with
  | [] => Some ([], h)
  | op :: ops => '(r, h) ← arena_step 4096 granted op h; '(rs, h) ← run ops h; Some (r :: rs, h)
  end.
Definition answers (ops : list slot_op) (elem off : Z) : option (list (option Z) * Z * Z) :=
  '(rs, h) ← run ops (start elem off); Some (rs, fa_live_count (ah_arena h), fa_watermark (ah_arena h)).

(** Two closures, the second dies, and its slot is used again. *)
Example closure_reused :
  answers [NewClosure true; NewClosure false; Major [0x10000000000]; NewClosure false] closure_size closure_epoch =
  Some ([Some 0x10000000000; Some 0x10000000098; None; Some 0x10000000098], 2, 304).
Proof. vm_compute. reflexivity. Qed.

(** The dead end of the objects goes back to the system, and comes again. *)
Example objects_shrink :
  answers [NewSlot; NewSlot; NewSlot; FreeObject 0x10000000000; FreeObject 0x10000000200; Shrink; NewSlot; NewSlot] 256 200 =
  Some ([Some 0x10000000000; Some 0x10000000100; Some 0x10000000200; None; None; None; Some 0x10000000000; Some 0x10000000200], 3, 768).
Proof. vm_compute. reflexivity. Qed.

Definition after (op : slot_op) (h : arena_heap) : arena_heap :=
  match arena_step 4096 granted op h with Some (_, h) => h | None => h end.
Definition two : arena_heap := after (NewClosure false) (after (NewClosure true) (start closure_size closure_epoch)).
Definition both : gset Z := {[0x10000000098]} ∪ ({[0x10000000000]} ∪ ∅).

Lemma start_reached : arena_reach 4096 granted false (start closure_size closure_epoch) ∅.
Proof.
  apply (reach_init 4096 granted false 0x10000000000 closure_size closure_epoch (2 ^ 31) empty); try (unfold closure_size, closure_epoch; lia).
  - exists 268435456. reflexivity.
  - reflexivity.
Qed.

Lemma two_reached : arena_reach 4096 granted false two both.
Proof.
  eapply (reach_step _ _ _ (after (NewClosure true) (start closure_size closure_epoch)) ({[0x10000000000]} ∪ ∅) (NewClosure false) (Some 0x10000000098)); [|reflexivity..].
  eapply (reach_step _ _ _ (start closure_size closure_epoch) ∅ (NewClosure true) (Some 0x10000000000)); [apply start_reached|reflexivity..].
Qed.

Lemma fixed_arena_safe_witness :
  exists r h' live', arena_step 4096 granted (Minor [0x10000000098] []) two = Some (r, h') /\
    slot_spec (Minor [0x10000000098] []) r both = Some live' /\ arena_reach 4096 granted false h' live'.
Proof.
  refine (proj2 (proj2 (proj2 (fixed_arena_safe 4096 granted _ false two both (Minor [0x10000000098] []) two_reached _)))); [lia|].
  unfold op_valid. splits; [reflexivity|apply NoDup_singleton|set_solver|set_solver|].
  vm_compute. reflexivity.
Defined.
End Example.
