(* ===== verification/MapSet.v ===== *)
(** * Map and Set

    [src/src/modules/collections.c]: a Map or Set is a hash table whose entries
    are chained in the order they were added; a key is the type of the value
    and its text or bits.  An iterator is a pointer to the entry it will give
    next. *)

From S2P Require Import Prelude Limbs Alloc LimbDiv BigInt BigIntText Value.

(** ** Keys

    Strings and bigints are immutable; the heap gives what they hold.  The
    answers of [malloc] to one operation: for the two conversions of a bigint,
    for a long key, for the entry (an address, or 0) and for its copy of the
    key. *)

Record heap := Heap { heap_str : Z -> list Z; heap_big : Z -> bigint; heap_callable : Z -> bool }.
Record answers := Answers { a_len : nat -> bool; a_text : nat -> bool; a_key : bool; a_entry : Z; a_copy : bool }.

Definition normalize_map_key (key : Z) : Z := if (vtype key =? T_NUM) && is_zero (tod key) && signbit (tod key) then tov 0 else key.

(** No memory, or a write or read outside the buffer. *)
Inductive key_result := KeyOk (k : list Z) | KeyNoMem | KeyFault.
Definition STACK_KEY : Z := 32.
Definition collection_key_reserve (a : answers) (len : Z) : bool := if len <=? STACK_KEY then true else a_key a.
Definition word_bytes (v : Z) : list Z := map (fun i => (v .>> (8 * Z.of_nat i)) .& 255) (seq 0 8).
(** [strbigint] is told that it may write one byte more than the text has: the
    NUL after it must be inside the buffer.  When it gets no memory it writes
    nothing. *)
Definition bigint_key (h : heap) (a : answers) (key : Z) : key_result :=
  let v := heap_big h key in
  let str_len := bigint_digits_len (a_len a) v 0 + (if bigint_is_negative v then 1 else 0) in
  let len := 1 + str_len in
  if negb (collection_key_reserve a len) then KeyNoMem
  else if 0 <? str_len then
    let room := (if len <=? STACK_KEY then STACK_KEY else len) - 1 in
    match strbigint (a_text a) v (replicate (Z.to_nat (str_len + 1)) 0) 0 with
    | (total, out) => if (total =? 0) || (room <? str_len + 1) then KeyFault else KeyOk (vtype key :: take (Z.to_nat str_len) out)
    end
  else KeyOk [vtype key].
Definition collection_key_init (h : heap) (a : answers) (input : Z) : key_result :=
  let key := normalize_map_key input in
  if vtype key =? T_STR then
    let str := heap_str h key in
    if collection_key_reserve a (1 + zlen str) then KeyOk (vtype key :: str) else KeyNoMem
  else if vtype key =? T_BIGINT then bigint_key h a key
  else KeyOk (vtype key :: word_bytes key).

(** ** The hash table

    What the module uses of uthash, as its documentation has it: items are
    found by their key, and stay in the order in which they were added. *)

Class UTHash := {
  ut_table : Type;
  ut_items : ut_table -> list (list Z * Z);
  ut_null : ut_table;
  HASH_FIND : ut_table -> list Z -> Z;
  HASH_ADD_KEYPTR : ut_table -> list Z -> Z -> ut_table;
  HASH_DEL : ut_table -> Z -> ut_table;
  HASH_COUNT : ut_table -> Z;
  ut_head : ut_table -> Z;
  hh_next : ut_table -> Z -> Z;
  ut_items_null : ut_items ut_null = [];
  HASH_FIND_hit : forall t k e, NoDup (map fst (ut_items t)) -> (k, e) ∈ ut_items t -> HASH_FIND t k = e;
  HASH_FIND_miss : forall t k, k ∉ map fst (ut_items t) -> HASH_FIND t k = 0;
  HASH_ADD_items : forall t k e, k ∉ map fst (ut_items t) -> ut_items (HASH_ADD_KEYPTR t k e) = ut_items t ++ [(k, e)];
  HASH_DEL_items : forall t e, ut_items (HASH_DEL t e) = List.filter (fun i => negb (i.2 =? e)) (ut_items t);
  HASH_COUNT_items : forall t, HASH_COUNT t = Z.of_nat (length (ut_items t));
  ut_head_items : forall t, ut_head t = match ut_items t with [] => 0 | i :: _ => i.2 end;
  hh_next_items : forall t l k e l', NoDup (map snd (ut_items t)) -> ut_items t = l ++ (k, e) :: l' -> hh_next t e = match l' with [] => 0 | i :: _ => i.2 end }.

(** Chains of items, as uthash keeps them. *)
Fixpoint next_of (l : list (list Z * Z)) (e : Z) : Z :=
  match l with
  | [] => 0
  | i :: l' => if i.2 =? e then match l' with [] => 0 | j :: _ => j.2 end else next_of l' e
  end.
Definition find_in (l : list (list Z * Z)) (k : list Z) : Z := match List.find (fun i => bool_decide (i.1 = k)) l with Some i => i.2 | None => 0 end.
#[export] Instance chained : UTHash.
Proof.
  refine {| ut_table := list (list Z * Z); ut_items t := t; ut_null := []; HASH_FIND := find_in; HASH_ADD_KEYPTR t k e := t ++ [(k, e)];
    HASH_DEL t e := List.filter (fun i => negb (i.2 =? e)) t; HASH_COUNT t := Z.of_nat (length t); ut_head t := match t with [] => 0 | i :: _ => i.2 end; hh_next := next_of |}; try reflexivity.
  - intros t k e Hn H. unfold find_in. destruct (List.find _ t) as [i|] eqn:E.
    + apply List.find_some in E as [Hi E]. apply bool_decide_eq_true in E. apply list_elem_of_In in Hi. clear -Hn H Hi E. induction t as [|x t IH]; [inversion H|]. cbn in Hn. apply NoDup_cons in Hn as [N1 N2].
      apply elem_of_cons in H as [H|H], Hi as [Hi|Hi].
      * rewrite Hi, <- H. reflexivity.
      * exfalso. apply N1, list_elem_of_fmap. exists i. rewrite <- H, E. auto.
      * exfalso. apply N1, list_elem_of_fmap. exists (k, e). rewrite <- Hi, E. auto.
      * auto.
    + apply list_elem_of_In in H. apply (List.find_none _ _ E) in H. apply bool_decide_eq_false in H. exfalso. apply H. reflexivity.
  - intros t k Hk. unfold find_in. destruct (List.find _ t) as [i|] eqn:E; [|reflexivity]. apply List.find_some in E as [Hi E]. apply bool_decide_eq_true in E. exfalso. apply Hk, list_elem_of_fmap. exists i. split; [auto|apply list_elem_of_In, Hi].
  - intros t l k e l' Hn ->. induction l as [|x l IH]; cbn in *; [rewrite Z.eqb_refl; reflexivity|]. apply NoDup_cons in Hn as [N1 N2]. destruct (Z.eqb_spec x.2 e) as [E|_]; [|apply IH, N2]. exfalso. apply N1. rewrite E, map_app. apply elem_of_app. right. left.
Defined.

(** ** Entries

    The memory of a collection: its table and its live entries.  An operation
    that follows a pointer to a freed entry, or writes outside a key's buffer,
    is [None]. *)

Record map_entry_t := MapEntry { key_val : Z; value : Z }.
Record set_entry_t := SetEntry { set_value : Z }.
Inductive iter_type_t := ITER_TYPE_MAP_VALUES | ITER_TYPE_MAP_KEYS | ITER_TYPE_MAP_ENTRIES | ITER_TYPE_SET_VALUES | ITER_TYPE_SET_ENTRIES.

Section Code.
Context `{UTHash} (h : heap).

Record coll (E : Type) := Coll { c_table : ut_table; c_entries : gmap Z E }.
Arguments Coll {E}.
Arguments c_table {E}.
Arguments c_entries {E}.
Definition map_t : Type := coll map_entry_t.
Definition set_t : Type := coll set_entry_t.
Definition new_coll {E} : coll E := Coll ut_null ∅.

(** The address of the entry of a key, or 0. *)
Definition lookup_entry {E} (a : answers) (c : coll E) (key : Z) : option Z :=
  match collection_key_init h a key with
  | KeyFault => None
  | KeyNoMem => Some 0
  | KeyOk k => Some (HASH_FIND (c_table c) k)
  end.
Definition map_find_entry : answers -> map_t -> Z -> option Z := lookup_entry.
Definition set_find_entry : answers -> set_t -> Z -> option Z := lookup_entry.
(** A new entry at the end; [false] without memory. *)
Definition add_entry {E} (a : answers) (c : coll E) (k : list Z) (x : E) : bool * coll E :=
  if (a_entry a =? 0) || negb (a_copy a) then (false, c)
  else (true, Coll (HASH_ADD_KEYPTR (c_table c) k (a_entry a)) (<[a_entry a := x]> (c_entries c))).
Definition map_store_entry (a : answers) (m : map_t) (raw_key key_val value : Z) : option (bool * map_t) :=
  match collection_key_init h a raw_key with
  | KeyFault => None
  | KeyNoMem => Some (false, m)
  | KeyOk k =>
      let entry := HASH_FIND (c_table m) k in
      if negb (entry =? 0) then
        match c_entries m !! entry with
        | Some _ => Some (true, Coll (c_table m) (<[entry := MapEntry key_val value]> (c_entries m)))
        | None => None
        end
      else Some (add_entry a m k (MapEntry key_val value))
  end.
Definition set_store_entry (a : answers) (s : set_t) (value : Z) : option (bool * set_t) :=
  let stored_value := normalize_map_key value in
  match collection_key_init h a stored_value with
  | KeyFault => None
  | KeyNoMem => Some (false, s)
  | KeyOk k => if negb (HASH_FIND (c_table s) k =? 0) then Some (true, s) else Some (add_entry a s k (SetEntry stored_value))
  end.
(** [HASH_DEL] and the two calls of [free]. *)
Definition drop_entry {E} (c : coll E) (entry : Z) : coll E := Coll (HASH_DEL (c_table c) entry) (delete entry (c_entries c)).
(** [HASH_ITER] that deletes every entry. *)
Fixpoint drop_all {E} (fuel : nat) (c : coll E) (el : Z) : option (coll E) :=
  if el =? 0 then Some c
  else
    match fuel with
    | O => None
    | S fuel =>
        match c_entries c !! el with
        | Some _ => drop_all fuel (drop_entry c el) (hh_next (c_table c) el)
        | None => None
        end
    end.
Definition clear_entries {E} (c : coll E) : option (coll E) :=
  match drop_all (size (c_entries c)) c (ut_head (c_table c)) with
  | Some c => Some (Coll ut_null (c_entries c))
  | None => None
  end.

(** ** The methods

    The receiver is the native pointer of the object, [None] when the object is
    not a Map or Set. *)

Definition call_t (E : Type) : Type := option (result Z * option (coll E)).
Definition map_set (a : answers) (this_val : Z) (map_ptr : option map_t) (args : list Z) : call_t map_entry_t :=
  if (length args <? 2)%nat then Some (js_mkerr "Map.set() requires 2 arguments", map_ptr)
  else
    match map_ptr with
    | None => Some (js_mkerr "Invalid Map object", None)
    | Some m =>
        let key_val := normalize_map_key (rd args 0) in
        match map_store_entry a m (rd args 0) key_val (rd args 1) with
        | None => None
        | Some (false, m) => Some (js_mkerr "out of memory", Some m)
        | Some (true, m) => Some (Ok this_val, Some m)
        end
    end.
Definition map_get (a : answers) (map_ptr : option map_t) (args : list Z) : option (result Z) :=
  if (length args <? 1)%nat then Some (js_mkerr "Map.get() requires 1 argument")
  else
    match map_ptr with
    | None => Some (Ok js_mkundef)
    | Some m =>
        match map_find_entry a m (rd args 0) with
        | None => None
        | Some entry => if entry =? 0 then Some (Ok js_mkundef) else match c_entries m !! entry with Some x => Some (Ok (value x)) | None => None end
        end
    end.
Definition map_has (a : answers) (map_ptr : option map_t) (args : list Z) : option (result Z) :=
  if (length args <? 1)%nat then Some (js_mkerr "Map.has() requires 1 argument")
  else
    match map_ptr with
    | None => Some (js_mkerr "Invalid Map object")
    | Some m => match map_find_entry a m (rd args 0) with None => None | Some entry => Some (Ok (js_bool (negb (entry =? 0)))) end
    end.
Definition delete_key {E} (find : answers -> coll E -> Z -> option Z) (a : answers) (c : coll E) (key : Z) : option (result Z * coll E) :=
  match find a c key with
  | None => None
  | Some entry => if negb (entry =? 0) then Some (Ok js_true, drop_entry c entry) else Some (Ok js_false, c)
  end.
Definition map_delete (a : answers) (map_ptr : option map_t) (args : list Z) : call_t map_entry_t :=
  if (length args <? 1)%nat then Some (js_mkerr "Map.delete() requires 1 argument", map_ptr)
  else
    match map_ptr with
    | None => Some (Ok js_false, None)
    | Some m => match delete_key map_find_entry a m (rd args 0) with None => None | Some (r, m) => Some (r, Some m) end
    end.
Definition map_clear (map_ptr : option map_t) : call_t map_entry_t :=
  match map_ptr with
  | None => Some (Ok js_mkundef, None)
  | Some m => match clear_entries m with None => None | Some m => Some (Ok js_mkundef, Some m) end
  end.
(** The count, before it becomes a double. *)
Definition map_size (map_ptr : option map_t) : Z := match map_ptr with None => 0 | Some m => HASH_COUNT (c_table m) end.

Definition set_add (a : answers) (this_val : Z) (set_ptr : option set_t) (args : list Z) : call_t set_entry_t :=
  if (length args <? 1)%nat then Some (js_mkerr "Set.add() requires 1 argument", set_ptr)
  else
    match set_ptr with
    | None => Some (js_mkerr "Invalid Set object", None)
    | Some s =>
        match set_store_entry a s (rd args 0) with
        | None => None
        | Some (false, s) => Some (js_mkerr "out of memory", Some s)
        | Some (true, s) => Some (Ok this_val, Some s)
        end
    end.
Definition set_has (a : answers) (set_ptr : option set_t) (args : list Z) : option (result Z) :=
  if (length args <? 1)%nat then Some (js_mkerr "Set.has() requires 1 argument")
  else
    match set_ptr with
    | None => Some (js_mkerr "Invalid Set object")
    | Some s => match set_find_entry a s (rd args 0) with None => None | Some entry => Some (Ok (js_bool (negb (entry =? 0)))) end
    end.
Definition set_delete (a : answers) (set_ptr : option set_t) (args : list Z) : call_t set_entry_t :=
  if (length args <? 1)%nat then Some (js_mkerr "Set.delete() requires 1 argument", set_ptr)
  else
    match set_ptr with
    | None => Some (Ok js_false, None)
    | Some s => match delete_key set_find_entry a s (rd args 0) with None => None | Some (r, s) => Some (r, Some s) end
    end.
Definition set_clear (set_ptr : option set_t) : call_t set_entry_t :=
  match set_ptr with
  | None => Some (Ok js_mkundef, None)
  | Some s => match clear_entries s with None => None | Some s => Some (Ok js_mkundef, Some s) end
  end.
Definition set_size (set_ptr : option set_t) : Z := match set_ptr with None => 0 | Some s => HASH_COUNT (c_table s) end.

(** ** Iteration

    What an iterator gives: a value, or the pair of an entry. *)

Inductive js_out := OutVal (v : Z) | OutPair (k v : Z).
Record iter_state := IterState { it_current : Z; it_type : iter_type_t }.
(** [granted]: there is memory for the state. *)
Definition create_iterator {E} (granted : bool) (c : option (coll E)) (type : iter_type_t) : result iter_state :=
  if granted then Ok (IterState (match c with Some c => ut_head (c_table c) | None => 0 end) type) else js_mkerr "out of memory".
Definition create_map_iterator (granted : bool) : option map_t -> iter_type_t -> result iter_state := create_iterator granted.
Definition create_set_iterator (granted : bool) : option set_t -> iter_type_t -> result iter_state := create_iterator granted.
Definition map_values (granted : bool) (m : option map_t) : result iter_state := create_map_iterator granted m ITER_TYPE_MAP_VALUES.
Definition map_keys (granted : bool) (m : option map_t) : result iter_state := create_map_iterator granted m ITER_TYPE_MAP_KEYS.
Definition map_entries (granted : bool) (m : option map_t) : result iter_state := create_map_iterator granted m ITER_TYPE_MAP_ENTRIES.
Definition set_values (granted : bool) (s : option set_t) : result iter_state := create_set_iterator granted s ITER_TYPE_SET_VALUES.
Definition set_entries (granted : bool) (s : option set_t) : result iter_state := create_set_iterator granted s ITER_TYPE_SET_ENTRIES.

(** The entry the iterator stands on; it moves to the next. *)
Definition advance {E} (out : iter_type_t -> E -> js_out) (c : coll E) (state : iter_state) : option (option js_out * iter_state) :=
  if it_current state =? 0 then Some (None, state)
  else
    match c_entries c !! it_current state with
    | None => None
    | Some entry => Some (Some (out (it_type state) entry), IterState (hh_next (c_table c) (it_current state)) (it_type state))
    end.
Definition map_out (type : iter_type_t) (entry : map_entry_t) : js_out :=
  match type with
  | ITER_TYPE_MAP_VALUES => OutVal (value entry)
  | ITER_TYPE_MAP_KEYS => OutVal (key_val entry)
  | ITER_TYPE_MAP_ENTRIES => OutPair (key_val entry) (value entry)
  | _ => OutVal js_mkundef
  end.
Definition set_out (type : iter_type_t) (entry : set_entry_t) : js_out :=
  match type with ITER_TYPE_SET_ENTRIES => OutPair (set_value entry) (set_value entry) | _ => OutVal (set_value entry) end.
Definition advance_map : map_t -> iter_state -> option (option js_out * iter_state) := advance map_out.
Definition advance_set : set_t -> iter_state -> option (option js_out * iter_state) := advance set_out.

(** ** Calls of JavaScript functions

    A called function may use the methods of the same collection, and change
    what else there is. *)

Section Calls.
Context {S : Type}.
Definition fn_t (E : Type) : Type := Z -> Z -> list Z -> coll E -> S -> option (result Z * coll E * S).
Inductive outcome (E : Type) := Crash | Running | Finished (r : result Z) (c : coll E) (st : S).
Arguments Crash {E}.
Arguments Running {E}.
Arguments Finished {E}.

Definition is_callable (v : Z) : bool := (vtype v =? T_FUNC) || (vtype v =? T_CFUNC) || ((vtype v =? T_OBJ) && heap_callable h v).
Definition map_upsert (a a2 : answers) (call : fn_t map_entry_t) (this_val : Z) (map_ptr : option map_t) (args : list Z) (st : S) : option (result Z * option map_t * S) :=
  if (length args <? 3)%nat then Some (js_mkerr "Map.upsert() requires 3 arguments", map_ptr, st)
  else
    match map_ptr with
    | None => Some (js_mkerr "Invalid Map object", None, st)
    | Some m =>
        let update_fn := rd args 1 in
        let insert_fn := rd args 2 in
        if negb (is_callable update_fn) then Some (js_mkerr "Map.upsert update callback must be callable", Some m, st)
        else if negb (is_callable insert_fn) then Some (js_mkerr "Map.upsert insert callback must be callable", Some m, st)
        else
          match map_find_entry a m (rd args 0) with
          | None => None
          | Some entry =>
              let called :=
                if negb (entry =? 0) then
                  match c_entries m !! entry with
                  | Some x => call update_fn js_mkundef [value x; rd args 0; this_val] m st
                  | None => None
                  end
                else call insert_fn js_mkundef [rd args 0; this_val] m st in
              match called with
              | None => None
              | Some (Err k e, m, st) => Some (Err k e, Some m, st)
              | Some (Ok v, m, st) =>
                  match map_store_entry a2 m (rd args 0) (normalize_map_key (rd args 0)) v with
                  | None => None
                  | Some (false, m) => Some (js_mkerr "out of memory", Some m, st)
                  | Some (true, m) => Some (Ok v, Some m, st)
                  end
              end
          end
    end.

(** [HASH_ITER]: the next entry is read before the body runs. *)
Definition hash_iter_next {E} (c : coll E) (p : Z) : option Z :=
  if p =? 0 then Some 0 else match c_entries c !! p with Some _ => Some (hh_next (c_table c) p) | None => None end.
Fixpoint for_each {E} (fuel : nat) (body : E -> coll E -> S -> option (result Z * coll E * S)) (c : coll E) (el tmp : Z) (st : S) : outcome E :=
  if el =? 0 then Finished (Ok js_mkundef) c st
  else
    match fuel with
    | O => Running
    | Datatypes.S fuel =>
        match c_entries c !! el with
        | None => Crash
        | Some entry =>
            match body entry c st with
            | None => Crash
            | Some (Err k e, c, st) => Finished (Err k e) c st
            | Some (Ok _, c, st) => match hash_iter_next c tmp with Some next => for_each fuel body c tmp next st | None => Crash end
            end
        end
    end.
Definition iter_all {E} (fuel : nat) (body : E -> coll E -> S -> option (result Z * coll E * S)) (c : coll E) (st : S) : outcome E :=
  match hash_iter_next c (ut_head (c_table c)) with Some next => for_each fuel body c (ut_head (c_table c)) next st | None => Crash end.
Definition map_forEach (fuel : nat) (call : fn_t map_entry_t) (this_val : Z) (map_ptr : option map_t) (args : list Z) (st : S) : outcome map_entry_t :=
  if (length args <? 1)%nat || negb (vtype (rd args 0) =? T_FUNC) then Finished (js_mkerr "forEach requires a callback function") (default new_coll map_ptr) st
  else
    let this_arg := if (1 <? length args)%nat then rd args 1 else js_mkundef in
    match map_ptr with
    | None => Finished (Ok js_mkundef) new_coll st
    | Some m => iter_all fuel (fun entry => call (rd args 0) this_arg [value entry; key_val entry; this_val]) m st
    end.
Definition set_forEach (fuel : nat) (call : fn_t set_entry_t) (this_val : Z) (set_ptr : option set_t) (args : list Z) (st : S) : outcome set_entry_t :=
  if (length args <? 1)%nat || negb (vtype (rd args 0) =? T_FUNC) then Finished (js_mkerr "forEach requires a callback function") (default new_coll set_ptr) st
  else
    let this_arg := if (1 <? length args)%nat then rd args 1 else js_mkundef in
    match set_ptr with
    | None => Finished (Ok js_mkundef) new_coll st
    | Some s => iter_all fuel (fun entry => call (rd args 0) this_arg [set_value entry; set_value entry; this_val]) s st
    end.
End Calls.
End Code.

Arguments Coll {_ _} _ _.
Arguments c_table {_ _} _.
Arguments c_entries {_ _} _.
Arguments Crash {_ _ _}.
Arguments Running {_ _ _}.
Arguments Finished {_ _ _} _ _ _.

(** ** Equality of keys

    [SameValueZero] of ECMAScript: numbers by value, with one NaN and one zero,
    strings and bigints by what they hold, anything else by identity. *)

Definition same_value_zero (h : heap) (v w : Z) : bool :=
  if (vtype v =? T_NUM) && (vtype w =? T_NUM) then (is_zero v && is_zero w) || (isnan v && isnan w) || (v =? w)
  else if (vtype v =? T_STR) && (vtype w =? T_STR) then bool_decide (heap_str h v = heap_str h w)
  else if (vtype v =? T_BIGINT) && (vtype w =? T_BIGINT) then bval (heap_big h v) =? bval (heap_big h w)
  else v =? w.
Definition CANONICAL_NAN : Z := 0x7FF8000000000000.
(** A NaN is the canonical one, and a bigint is one whose text fits a key. *)
Definition key_ok (h : heap) (v : Z) : Prop :=
  0 <= v < 2 ^ 64 /\ (vtype v = T_NUM -> isnan v = true -> v = CANONICAL_NAN) /\
  (vtype v = T_BIGINT -> bigint_ok (heap_big h v) /\ - 10 ^ 29 < bval (heap_big h v) < 10 ^ 30).
Definition memory_ok (a : answers) : Prop := (forall k, a_len a k = true) /\ (forall k, a_text a k = true) /\ a_key a = true.

Definition has_memory : nat -> bool := fun _ => true.
Definition bigint_text (v : bigint) : list Z :=
  (if bigint_is_negative v then [45] else []) ++ match (bigint_abs_to_decimal_string has_memory (blimbs v) 0%nat).1 with Done (Ok s) => s | _ => [] end.
Definition key_bytes (h : heap) (input : Z) : list Z :=
  let key := normalize_map_key input in
  vtype key :: (if vtype key =? T_STR then heap_str h key else if vtype key =? T_BIGINT then bigint_text (heap_big h key) else word_bytes key).

Lemma decimal_once g v : bigint_ok v -> (forall k, g k = true) -> forall k, exists s, (bigint_abs_to_decimal_string g (blimbs v) k).1 = Done (Ok s) /\ numeral 10 s (lv (blimbs v)).
Proof. intros Hv Hg k. apply (yields_total g False _ _ (decimal_spec g (blimbs v) (ok_limbs v Hv) (ok_normal v Hv)) (fun x => x) Hg k). Qed.
Lemma bigint_text_spec v : bigint_ok v -> signed_numeral 10 (bigint_text v) (bval v) /\ bigint_text v <> [].
Proof.
  intros Hv. unfold bigint_text. destruct (decimal_once has_memory v Hv (fun _ => eq_refl) 0%nat) as (s & -> & Hs). split; [|destruct Hs as [Hs _]; destruct (bigint_is_negative v); [discriminate|exact Hs]].
  unfold signed_numeral, bigint_is_negative. rewrite <- (bval_sign v Hv). unfold bval. destruct (sign v); [|exact Hs]. exists s. rewrite Z.opp_involutive. auto.
Qed.
Lemma signed_unique s t v : signed_numeral 10 s v -> signed_numeral 10 t v -> s = t.
Proof.
  unfold signed_numeral. destruct (v <? 0); [intros (a & -> & Ha) (b & -> & Hb); f_equal|intros Ha Hb]; eapply (numeral_unique 10); eauto; lia.
Qed.
Lemma bigint_text_eq v w : bigint_ok v -> bigint_ok w -> bigint_text v = bigint_text w <-> bval v = bval w.
Proof.
  intros Hv Hw. destruct (bigint_text_spec v Hv) as [Tv _], (bigint_text_spec w Hw) as [Tw _]. split; [|intros E; rewrite E in Tv; eapply signed_unique; eassumption]. intros E. rewrite E in Tv. revert Tv Tw. unfold signed_numeral.
  assert (D : forall r s, numeral 10 (45 :: r) s -> False) by (intros r s (_ & Hd & _); apply Forall_cons in Hd as [(d & Hd & Ed) _]; unfold digit_map in Ed; destruct (d <? 10); lia).
  destruct (Z.ltb_spec (bval v) 0), (Z.ltb_spec (bval w) 0).
  - intros (a & -> & Ha) (b & [= <-] & Hb). destruct Ha as (_ & _ & Ha & _), Hb as (_ & _ & Hb & _). lia.
  - intros (a & -> & _) Hb. destruct (D _ _ Hb).
  - intros Ha (b & Eb & _). rewrite Eb in Ha. destruct (D _ _ Ha).
  - intros (_ & _ & Ha & _) (_ & _ & Hb & _). lia.
Qed.
(** What the two conversions give. *)
Lemma conversions a v : bigint_ok v -> memory_ok a -> bigint_digits_len (a_len a) v 0 + (if bigint_is_negative v then 1 else 0) = zlen (bigint_text v) /\
  exists out, strbigint (a_text a) v (replicate (Z.to_nat (zlen (bigint_text v) + 1)) 0) 0 = (zlen (bigint_text v), out) /\ take (length (bigint_text v)) out = bigint_text v.
Proof.
  intros Hv (M1 & M2 & _). unfold bigint_text, bigint_digits_len, strbigint. destruct (decimal_once has_memory v Hv (fun _ => eq_refl) 0%nat) as (s & -> & Hs), (decimal_once (a_len a) v Hv M1 0%nat) as (s1 & -> & H1), (decimal_once (a_text a) v Hv M2 0%nat) as (s2 & -> & H2).
  rewrite (numeral_unique 10 s1 s _ ltac:(lia) H1 Hs), (numeral_unique 10 s2 s _ ltac:(lia) H2 Hs). set (text := (if bigint_is_negative v then [45] else []) ++ s). split; [unfold text, zlen; rewrite length_app; destruct (bigint_is_negative v); cbn [length]; lia|].
  pose proof (strbigint_text_spec (bigint_is_negative v) s (replicate (Z.to_nat (zlen text + 1)) 0)) as T. cbv zeta in T. destruct (strbigint_text _ s _) as [total out]. fold text in T. destruct T as (-> & _ & T). rewrite length_replicate in T. exists out. split; [reflexivity|].
  assert (Hne : text <> []) by (destruct Hs as [Hs _]; unfold text; destruct (bigint_is_negative v); [discriminate|exact Hs]). unfold zlen in *. assert (length text <> 0)%nat by (destruct text; [contradiction|discriminate]).
  destruct T as [T _]; [intros E; apply (f_equal length) in E; rewrite length_replicate in E; cbn in E; lia|lia|]. replace (Nat.min (length text) (Z.to_nat (Z.of_nat (length text) + 1) - 1)) with (length text) in T by lia. rewrite T, firstn_all. reflexivity.
Qed.

Lemma normalize_type v : vtype (normalize_map_key v) = vtype v.
Proof. unfold normalize_map_key. destruct (Z.eqb_spec (vtype v) T_NUM) as [E|_]; [|reflexivity]. cbn [andb]. destruct (is_zero (tod v) && signbit (tod v)); [rewrite E|]; reflexivity. Qed.
Lemma normalize_other v : vtype v <> T_NUM -> normalize_map_key v = v.
Proof. intros Hv. unfold normalize_map_key. destruct (Z.eqb_spec (vtype v) T_NUM); [contradiction|reflexivity]. Qed.
Lemma zero_words v : 0 <= v < 2 ^ 64 -> is_zero v = (v =? 0) || (v =? 2 ^ 63).
Proof.
  intros Hv. unfold is_zero. rewrite land_ones_mod by lia. destruct (Z.eqb_spec (v mod 2 ^ 63) 0), (Z.eqb_spec v 0), (Z.eqb_spec v (2 ^ 63)); cbn [orb]; try reflexivity; exfalso; subst; try (revert n; clear; intros n; apply n; reflexivity); Z.to_euclidean_division_equations; lia.
Qed.
Lemma normalize_number v : 0 <= v < 2 ^ 64 -> vtype v = T_NUM -> normalize_map_key v = if v =? 2 ^ 63 then 0 else v.
Proof.
  intros Hv E. unfold normalize_map_key, tod, signbit. rewrite E, zero_words by exact Hv. change (T_NUM =? T_NUM) with true. cbn [andb]. destruct (Z.eqb_spec v 0) as [->|]; [reflexivity|]. destruct (Z.eqb_spec v (2 ^ 63)) as [->|]; reflexivity.
Qed.
Lemma normalize_word v : 0 <= v < 2 ^ 64 -> 0 <= normalize_map_key v < 2 ^ 64.
Proof. intros Hv. unfold normalize_map_key. destruct (_ && signbit (tod v)); [vm_compute; split; [discriminate|reflexivity]|exact Hv]. Qed.
Lemma normalize_twice v : 0 <= v < 2 ^ 64 -> normalize_map_key (normalize_map_key v) = normalize_map_key v.
Proof.
  intros Hv. destruct (Z.eq_dec (vtype v) T_NUM) as [E|E]; [|rewrite !(normalize_other v E); reflexivity]. rewrite (normalize_number v Hv E). destruct (Z.eqb_spec v (2 ^ 63)) as [->|Hne]; [reflexivity|]. rewrite normalize_number by auto. destruct (Z.eqb_spec v (2 ^ 63)); [contradiction|reflexivity].
Qed.
Lemma key_bytes_normal h v : 0 <= v < 2 ^ 64 -> key_bytes h (normalize_map_key v) = key_bytes h v.
Proof. intros Hv. unfold key_bytes. cbv zeta. rewrite normalize_twice by exact Hv. reflexivity. Qed.

(** *** Words as bytes *)

Lemma word_bit v i j : (i < 8)%nat -> 0 <= j < 8 -> Z.testbit (nth i (word_bytes v) 0) j = Z.testbit v (8 * Z.of_nat i + j).
Proof.
  intros Hi Hj. unfold word_bytes. rewrite (nth_indep _ 0 ((v .>> (8 * Z.of_nat 0)) .& 255)) by (rewrite length_map, length_seq; exact Hi). rewrite (map_nth (fun i => (v .>> (8 * Z.of_nat i)) .& 255)), seq_nth by exact Hi. rewrite Nat.add_0_l, Z.land_spec, Z.shiftr_spec by lia.
  change 255 with (Z.ones 8). rewrite Z.ones_spec_low, andb_true_r by lia. f_equal. lia.
Qed.
Lemma word_bytes_inj v w : 0 <= v < 2 ^ 64 -> 0 <= w < 2 ^ 64 -> word_bytes v = word_bytes w -> v = w.
Proof.
  intros Hv Hw E. apply Z.bits_inj'. intros n Hn. destruct (Z.lt_ge_cases n 64) as [Hs|Hs]; [|rewrite !(testbit_small _ 64) by lia; reflexivity].
  pose proof (Z.div_mod n 8 ltac:(lia)) as D. pose proof (Z.mod_pos_bound n 8 ltac:(lia)) as M. assert (Q : 0 <= n / 8 < 8) by (split; [apply Z.div_pos; lia|apply Z.div_lt_upper_bound; lia]).
  pose proof (word_bit v (Z.to_nat (n / 8)) (n mod 8) ltac:(lia) M) as Bv. pose proof (word_bit w (Z.to_nat (n / 8)) (n mod 8) ltac:(lia) M) as Bw. rewrite Z2Nat.id in Bv, Bw by lia. rewrite <- D in Bv, Bw. rewrite <- Bv, <- Bw, E. reflexivity.
Qed.

(** *** Keys *)

Lemma number_word v : 0 <= v < 2 ^ 64 -> vtype v = T_NUM -> v <= NANBOX_PREFIX \/ isnan v = true.
Proof. intros Hv _. rewrite isnan_spec by exact Hv. destruct (Z.ltb_spec NANBOX_PREFIX v); [rewrite orb_true_r; auto|left; lia]. Qed.
Lemma same_numbers h v w : key_ok h v -> key_ok h w -> vtype v = T_NUM -> vtype w = T_NUM -> normalize_map_key v = normalize_map_key w <-> same_value_zero h v w = true.
Proof.
  intros (Hv & Nv & _) (Hw & Nw & _) Ev Ew. specialize (Nv Ev). specialize (Nw Ew). unfold same_value_zero. rewrite Ev, Ew. change (T_NUM =? T_NUM) with true. cbn [andb]. rewrite !normalize_number, !zero_words by assumption.
  assert (Z0 : isnan 0 = false) by reflexivity. assert (Z1 : isnan (2 ^ 63) = false) by reflexivity.
  assert (N : isnan v = true -> isnan w = true -> v = w) by (intros A B; rewrite (Nv A), (Nw B); reflexivity).
  destruct (Z.eqb_spec v (2 ^ 63)) as [->|V1], (Z.eqb_spec w (2 ^ 63)) as [->|W1]; rewrite ?Z1, ?orb_true_r, ?orb_false_r; cbn [andb orb].
  - tauto.
  - destruct (Z.eqb_spec w 0), (Z.eqb_spec (2 ^ 63) w); cbn [orb]; split; intros; congruence.
  - rewrite andb_true_r, andb_false_r, orb_false_r. destruct (Z.eqb_spec v 0), (Z.eqb_spec v (2 ^ 63)); cbn [orb]; split; intros; congruence.
  - destruct (Z.eqb_spec v w) as [->|Hne]; [rewrite orb_true_r; tauto|]. rewrite orb_false_r. split; [intros; contradiction|]. intros E. apply orb_true_iff in E as [E|E]; apply andb_true_iff in E as [E1 E2]; [apply Z.eqb_eq in E1; apply Z.eqb_eq in E2; congruence|auto].
Qed.
Lemma cons_eq (x y : Z) l m : x :: l = y :: m -> l = m.
Proof. intros [= _ H]. exact H. Qed.
Lemma key_bytes_eq h v w : key_ok h v -> key_ok h w -> key_bytes h v = key_bytes h w <-> same_value_zero h v w = true.
Proof.
  intros Kv Kw. pose proof Kv as (Hv & _ & Bv). pose proof Kw as (Hw & _ & Bw). pose proof (normalize_word v Hv) as Nv. pose proof (normalize_word w Hw) as Nw. unfold key_bytes. cbv zeta. rewrite !normalize_type.
  destruct (Z.eq_dec (vtype v) (vtype w)) as [E|E].
  - destruct (Z.eq_dec (vtype v) T_NUM) as [En|En].
    { rewrite <- (same_numbers h v w Kv Kw En ltac:(congruence)), <- E, En. change (T_NUM =? T_STR) with false. change (T_NUM =? T_BIGINT) with false. split; [intros H; apply cons_eq in H; apply word_bytes_inj; auto|intros ->; reflexivity]. }
    rewrite !normalize_other by congruence. unfold same_value_zero. rewrite <- E. destruct (Z.eqb_spec (vtype v) T_NUM); [contradiction|]. cbn [andb]. destruct (Z.eqb_spec (vtype v) T_STR) as [Es|_]; cbn [andb].
    { rewrite bool_decide_eq_true. split; [apply cons_eq|intros ->; reflexivity]. }
    destruct (Z.eqb_spec (vtype v) T_BIGINT) as [Eb|_]; cbn [andb]; [|rewrite Z.eqb_eq; split; [intros H; apply cons_eq in H; apply word_bytes_inj; auto|intros ->; reflexivity]].
    destruct (Bv Eb) as [Ov _], (Bw ltac:(congruence)) as [Ow _]. rewrite Z.eqb_eq, <- (bigint_text_eq _ _ Ov Ow). split; [apply cons_eq|intros ->; reflexivity].
  - split; [intros H; injection H; intros; contradiction|]. unfold same_value_zero. intros H. exfalso. apply E.
    assert (D : forall t, (vtype v =? t) && (vtype w =? t) = false) by (intros t; destruct (Z.eqb_spec (vtype v) t), (Z.eqb_spec (vtype w) t); auto; congruence). rewrite !D in H. apply Z.eqb_eq in H. congruence.
Qed.
Lemma bigint_text_short v : bigint_ok v -> - 10 ^ 29 < bval v < 10 ^ 30 -> zlen (bigint_text v) <= 30.
Proof.
  intros Hv Hb. destruct (bigint_text_spec v Hv) as [T _]. unfold signed_numeral in T. assert (L : forall s x k, numeral 10 s x -> 0 <= k -> x < 10 ^ k -> 1 <= k -> zlen s <= k).
  { intros s x k Hs Hk Hx H1. destruct (numeral_large 10 s x ltac:(lia) Hs) as [[_ ->]|H]; [unfold zlen; cbn; lia|]. assert (zlen s - 1 < k) by (apply (Z.pow_lt_mono_r_iff 10); lia). lia. }
  destruct (Z.ltb_spec (bval v) 0); [destruct T as (t & -> & Ht); pose proof (L t _ 29 Ht); unfold zlen in *; cbn [length]; lia|apply (L _ _ 30 T); lia].
Qed.
Lemma bigint_key_spec h a key : bigint_ok (heap_big h key) -> memory_ok a ->
  bigint_key h a key = if 31 <=? zlen (bigint_text (heap_big h key)) then KeyFault else KeyOk (vtype key :: bigint_text (heap_big h key)).
Proof.
  intros Hb Ha. unfold bigint_key. set (text := bigint_text (heap_big h key)) in *. destruct (conversions a (heap_big h key) Hb Ha) as (E & out & E1 & E2). fold text in E, E1, E2. rewrite E. destruct (bigint_text_spec _ Hb) as [_ Hne]. fold text in Hne.
  assert (Hl : 1 <= zlen text) by (unfold zlen; destruct text; [contradiction|cbn [length]; lia]). unfold collection_key_reserve. replace (if 1 + zlen text <=? STACK_KEY then true else a_key a) with true by (destruct (_ <=? _); [|rewrite (proj2 (proj2 Ha))]; reflexivity). cbn [negb].
  destruct (Z.ltb_spec 0 (zlen text)); [|lia]. rewrite E1. destruct (Z.eqb_spec (zlen text) 0); [lia|]. cbn [orb]. unfold STACK_KEY. replace (Z.to_nat (zlen text)) with (length text) by (unfold zlen; lia). rewrite E2.
  replace ((if 1 + zlen text <=? 32 then 32 else 1 + zlen text) - 1 <? zlen text + 1) with (31 <=? zlen text); [destruct (31 <=? zlen text); reflexivity|].
  destruct (Z.leb_spec 31 (zlen text)), (Z.leb_spec (1 + zlen text) 32); symmetry; (apply Z.ltb_lt || apply Z.ltb_ge); lia.
Qed.
Lemma key_init_ok h a v : key_ok h v -> memory_ok a -> collection_key_init h a v = KeyOk (key_bytes h v).
Proof.
  intros (Hv & _ & Hb) Ha. unfold collection_key_init, key_bytes. cbv zeta. rewrite normalize_type. destruct (Z.eqb_spec (vtype v) T_STR); [unfold collection_key_reserve; rewrite (proj2 (proj2 Ha)); destruct (_ <=? _); reflexivity|].
  destruct (Z.eqb_spec (vtype v) T_BIGINT) as [E|]; [|reflexivity]. destruct (Hb E) as [B1 B2]. rewrite normalize_other by (rewrite E; discriminate). rewrite bigint_key_spec by assumption. pose proof (bigint_text_short _ B1 B2). destruct (Z.leb_spec 31 (zlen (bigint_text (heap_big h v)))); [lia|reflexivity].
Qed.

(** C14: with memory for the conversion, two values are the same key exactly
    when ECMAScript's SameValueZero holds of them, for values that are no NaN
    other than the canonical one and no bigint of more than 30 characters;
    strings can have any length. A bigint of 31 characters or more makes the
    conversion write its final NUL past the buffer. *)
Theorem collection_keys h a v w : memory_ok a ->
  (key_ok h v -> key_ok h w -> exists kv kw, collection_key_init h a v = KeyOk kv /\ collection_key_init h a w = KeyOk kw /\ (kv = kw <-> same_value_zero h v w = true)) /\
  (vtype v = T_BIGINT -> bigint_ok (heap_big h v) -> 31 <= zlen (bigint_text (heap_big h v)) -> collection_key_init h a v = KeyFault).
Proof.
  intros Ha. split; [intros Kv Kw; exists (key_bytes h v), (key_bytes h w); splits; try (apply key_init_ok; assumption); apply key_bytes_eq; assumption|]. intros E Hb Hl. unfold collection_key_init. cbv zeta. rewrite normalize_type, E. change (T_BIGINT =? T_STR) with false. change (T_BIGINT =? T_BIGINT) with true. cbv iota.
  rewrite normalize_other by (rewrite E; discriminate). rewrite bigint_key_spec by assumption. destruct (Z.leb_spec 31 (zlen (bigint_text (heap_big h v)))); [reflexivity|lia].
Qed.

(** ** A collection as a list

    The entries in the order they were added, with their addresses. *)

Section Rep.
Context `{UTHash} {E : Type} (h : heap) (ekey : E -> Z).

Definition entry_key (p : Z * E) : list Z := key_bytes h (ekey p.2).
Definition entry_ok (p : Z * E) : Prop := p.1 <> 0 /\ key_ok h (ekey p.2) /\ normalize_map_key (ekey p.2) = ekey p.2.
Record rep (c : coll E) (l : list (Z * E)) : Prop := Rep {
  r_items : ut_items (c_table c) = map (fun p => (entry_key p, p.1)) l;
  r_entries : c_entries c = list_to_map l;
  r_addrs : NoDup (map fst l);
  r_keys : NoDup (map entry_key l);
  r_ok : Forall entry_ok l }.
(** The first entry of a key, with its position. *)
Definition find_key (l : list E) (v : Z) : option (nat * E) := list_find (fun x => same_value_zero h (ekey x) v = true) l.
Definition head_addr (l : list (Z * E)) : Z := match l with [] => 0 | p :: _ => p.1 end.

Lemma rep_new : rep new_coll [].
Proof. constructor; [apply ut_items_null|reflexivity|constructor|constructor|constructor]. Qed.
Lemma item_keys {c l} (R : rep c l) : map fst (ut_items (c_table c)) = map entry_key l.
Proof. rewrite (r_items _ _ R), map_map. reflexivity. Qed.
Lemma item_addrs {c l} (R : rep c l) : map snd (ut_items (c_table c)) = map fst l.
Proof. rewrite (r_items _ _ R), map_map. reflexivity. Qed.
Lemma rep_entry {c l} (R : rep c l) e x : (e, x) ∈ l -> c_entries c !! e = Some x.
Proof. intros Hin. rewrite (r_entries _ _ R). apply elem_of_list_to_map; [apply (r_addrs _ _ R)|exact Hin]. Qed.
Lemma rep_unused {c l} (R : rep c l) e : e ∉ map fst l <-> c_entries c !! e = None.
Proof. rewrite (r_entries _ _ R). split; [apply not_elem_of_list_to_map_1|apply not_elem_of_list_to_map_2]. Qed.
Lemma rep_head {c l} (R : rep c l) : ut_head (c_table c) = head_addr l.
Proof. rewrite ut_head_items, (r_items _ _ R). destruct l; reflexivity. Qed.
Lemma rep_next {c l} (R : rep c l) l1 e x l2 : l = l1 ++ (e, x) :: l2 -> hh_next (c_table c) e = head_addr l2.
Proof.
  intros ->. rewrite (hh_next_items _ (map (fun p => (entry_key p, p.1)) l1) (entry_key (e, x)) e (map (fun p => (entry_key p, p.1)) l2)); [destruct l2; reflexivity|rewrite (item_addrs R); apply (r_addrs _ _ R)|rewrite (r_items _ _ R), map_app; reflexivity].
Qed.
Lemma rep_count {c l} (R : rep c l) : HASH_COUNT (c_table c) = Z.of_nat (length l).
Proof. rewrite HASH_COUNT_items, (r_items _ _ R), length_map. reflexivity. Qed.
Lemma rep_same {c l} (R : rep c l) p v : p ∈ l -> key_ok h v -> entry_key p = key_bytes h v <-> same_value_zero h (ekey p.2) v = true.
Proof. intros Hp Hv. apply key_bytes_eq; [|exact Hv]. pose proof (r_ok _ _ R) as F. rewrite Forall_forall in F. apply F, Hp. Qed.
(** The table finds what the list has. *)
Lemma rep_find {c l} (R : rep c l) a v : key_ok h v -> memory_ok a ->
  (exists l1 e x l2, l = l1 ++ (e, x) :: l2 /\ HASH_FIND (c_table c) (key_bytes h v) = e /\ lookup_entry h a c v = Some e /\ e <> 0 /\ entry_key (e, x) = key_bytes h v /\ find_key (map snd l) v = Some (length l1, x)) \/
  (HASH_FIND (c_table c) (key_bytes h v) = 0 /\ lookup_entry h a c v = Some 0 /\ (key_bytes h v ∉ map entry_key l) /\ find_key (map snd l) v = None).
Proof.
  intros Hv Ha. unfold lookup_entry. rewrite key_init_ok by assumption. unfold find_key. destruct (list_find _ (map snd l)) as [[i x]|] eqn:Ef; [left|right].
  - apply list_find_Some in Ef as (Hi & Hx & Hb). assert (Hi' := Hi). change (map snd l) with (snd <$> l) in Hi'. apply list_lookup_fmap_Some in Hi' as ([e y] & Ey & Hl). cbn in Ey. subst y. pose proof (take_drop_middle _ _ _ Hl) as D. assert (Hin : (e, x) ∈ l) by (eapply list_elem_of_lookup_2, Hl).
    assert (Ek : entry_key (e, x) = key_bytes h v) by (apply (rep_same R); auto). exists (take i l), e, x, (drop (S i) l). assert (Hh : HASH_FIND (c_table c) (key_bytes h v) = e). { apply HASH_FIND_hit; [rewrite (item_keys R); apply (r_keys _ _ R)|]. rewrite (r_items _ _ R). apply list_elem_of_fmap. exists (e, x). rewrite Ek. auto. }
    pose proof (r_ok _ _ R) as F. rewrite Forall_forall in F. destruct (F _ Hin) as (F1 & _). splits; auto; [rewrite Hh; reflexivity|]. do 2 f_equal. rewrite length_take. apply lookup_lt_Some in Hl. lia.
  - apply list_find_None in Ef. assert (Hn : key_bytes h v ∉ map entry_key l). { intros Hin. apply list_elem_of_fmap in Hin as (p & Ep & Hp). rewrite Forall_forall in Ef. apply (Ef p.2); [apply list_elem_of_fmap; eauto|]. apply (rep_same R); auto. }
    assert (Hh : HASH_FIND (c_table c) (key_bytes h v) = 0) by (apply HASH_FIND_miss; rewrite (item_keys R); exact Hn). splits; auto. rewrite Hh. reflexivity.
Qed.
Lemma rep_add {c l} (R : rep c l) a x : a_entry a <> 0 -> a_copy a = true -> c_entries c !! a_entry a = None -> key_ok h (ekey x) -> normalize_map_key (ekey x) = ekey x -> key_bytes h (ekey x) ∉ map entry_key l ->
  exists c', add_entry a c (key_bytes h (ekey x)) x = (true, c') /\ rep c' (l ++ [(a_entry a, x)]).
Proof.
  intros H0 Hc Hf Hk Hn Hnew. unfold add_entry. rewrite Hc. destruct (Z.eqb_spec (a_entry a) 0); [contradiction|]. cbn [orb negb]. eexists. split; [reflexivity|]. apply (rep_unused R) in Hf. constructor; cbn [c_table c_entries].
  - rewrite HASH_ADD_items by (rewrite (item_keys R); exact Hnew). rewrite (r_items _ _ R), map_app. reflexivity.
  - rewrite (r_entries _ _ R). rewrite list_to_map_app. rewrite list_to_map_cons, list_to_map_nil. rewrite <- insert_union_r; [rewrite (right_id_L ∅ (∪)); reflexivity|apply not_elem_of_list_to_map_1, Hf].
  - rewrite map_app. apply NoDup_app. split; [apply (r_addrs _ _ R)|]. split; [|apply NoDup_singleton]. intros e He Hs. apply list_elem_of_singleton in Hs. cbn in Hs. subst e. contradiction.
  - rewrite map_app. apply NoDup_app. split; [apply (r_keys _ _ R)|]. split; [|apply NoDup_singleton]. intros k Hk' Hs. apply list_elem_of_singleton in Hs. cbn in Hs. subst k. contradiction.
  - apply Forall_app. split; [apply (r_ok _ _ R)|]. constructor; [|constructor]. split; auto.
Qed.
Lemma rep_update {c l} (R : rep c l) l1 e x l2 y : l = l1 ++ (e, x) :: l2 -> entry_key (e, y) = entry_key (e, x) -> key_ok h (ekey y) -> normalize_map_key (ekey y) = ekey y ->
  rep (Coll (c_table c) (<[e := y]> (c_entries c))) (l1 ++ (e, y) :: l2).
Proof.
  intros -> Ek Hk Hn. constructor; cbn [c_table c_entries].
  - rewrite (r_items _ _ R), !map_app. cbn [map]. rewrite Ek. reflexivity.
  - rewrite (r_entries _ _ R), !list_to_map_app, !list_to_map_cons. rewrite insert_union_r; [rewrite insert_insert, decide_True by reflexivity; reflexivity|]. apply not_elem_of_list_to_map_1. pose proof (r_addrs _ _ R) as N. rewrite map_app in N. apply NoDup_app in N as (_ & N & _). intros Hin. apply (N e Hin). left.
  - pose proof (r_addrs _ _ R) as N. rewrite map_app in *. exact N.
  - pose proof (r_keys _ _ R) as N. rewrite map_app in *. cbn [map] in *. rewrite Ek. exact N.
  - pose proof (r_ok _ _ R) as F. rewrite Forall_app, Forall_cons in *. destruct F as (F1 & (F2 & _) & F3). split; [exact F1|]. split; [|exact F3]. split; auto.
Qed.
Lemma rep_drop {c l} (R : rep c l) l1 e x l2 : l = l1 ++ (e, x) :: l2 -> rep (drop_entry c e) (l1 ++ l2).
Proof.
  intros ->. pose proof (r_addrs _ _ R) as N. rewrite map_app in N. cbn [map] in N. apply NoDup_app in N as (N1 & N2 & N3). apply NoDup_cons in N3 as [N3 N4]. cbn [fst] in *. constructor; cbn [c_table c_entries drop_entry].
  - rewrite HASH_DEL_items, (r_items _ _ R), map_app. cbn [map]. rewrite List.filter_app. cbn [List.filter fst snd]. rewrite Z.eqb_refl. cbn [negb]. rewrite map_app.
    assert (K : forall m : list (Z * E), e ∉ map fst m -> List.filter (fun i => negb (i.2 =? e)) (map (fun p => (entry_key p, p.1)) m) = map (fun p => (entry_key p, p.1)) m).
    { clear. induction m as [|p m IH]; intros Hm; [reflexivity|]. cbn [map List.filter fst snd] in *. apply not_elem_of_cons in Hm as [Hne Hm]. destruct (Z.eqb_spec p.1 e); [congruence|]. cbn [negb]. rewrite IH by exact Hm. reflexivity. }
    rewrite !K; [reflexivity|exact N3|intros Hin; apply (N2 e Hin); left].
  - rewrite (r_entries _ _ R), !list_to_map_app, list_to_map_cons. rewrite delete_union, delete_insert_eq. rewrite !delete_id; [reflexivity|apply not_elem_of_list_to_map_1, N3|apply not_elem_of_list_to_map_1; intros Hin; apply (N2 e Hin); left].
  - rewrite map_app. apply NoDup_app. split; [exact N1|]. split; [|exact N4]. intros k Hk Hk'. apply (N2 k Hk). right. exact Hk'.
  - pose proof (r_keys _ _ R) as K. rewrite map_app in *. cbn [map] in K. apply NoDup_app in K as (K1 & K2 & K3). apply NoDup_cons in K3 as [_ K4]. apply NoDup_app. split; [exact K1|]. split; [|exact K4]. intros k Hk Hk'. apply (K2 k Hk). right. exact Hk'.
  - pose proof (r_ok _ _ R) as F. rewrite Forall_app, Forall_cons in *. tauto.
Qed.
Lemma rep_drop_all l : forall fuel c, rep c l -> (length l <= fuel)%nat -> exists c', drop_all fuel c (head_addr l) = Some c' /\ rep c' [].
Proof.
  induction l as [|[e x] l IH]; intros fuel c R Hf; [exists c; split; [destruct fuel; reflexivity|exact R]|]. destruct fuel as [|fuel]; [cbn in Hf; lia|]. pose proof (r_ok _ _ R) as F. apply Forall_cons in F as [(He & _) _]. cbn [drop_all head_addr fst] in *.
  destruct (Z.eqb_spec e 0); [contradiction|]. rewrite (rep_entry R e x) by left. rewrite (rep_next R [] e x l eq_refl). apply IH; [apply (rep_drop R [] e x l eq_refl)|cbn in Hf; lia].
Qed.
Lemma rep_cleared c l : rep c l -> exists c', clear_entries c = Some c' /\ rep c' [].
Proof.
  intros R. unfold clear_entries. rewrite (rep_head R). destruct (rep_drop_all l (size (c_entries c)) c R) as (c' & -> & R').
  - rewrite (r_entries _ _ R), <- (length_map fst l), <- (size_list_to_set (C := gset Z)) by apply (r_addrs _ _ R). rewrite <- size_dom, dom_list_to_map_L. reflexivity.
  - eexists. split; [reflexivity|]. destruct R' as [_ H2 H3 H4 H5]. constructor; auto. apply ut_items_null.
Qed.
End Rep.

(** ** Stored keys *)

Section Stores.
Context `{UTHash} (h : heap).

Definition answers_ok {E} (a : answers) (c : coll E) : Prop := memory_ok a /\ a_entry a <> 0 /\ a_copy a = true /\ c_entries c !! a_entry a = None.
(** The specification of adding a key: the entry keeps its place, or is the last. *)
Definition spec_set (l : list map_entry_t) (k v : Z) : list map_entry_t :=
  let x := MapEntry (normalize_map_key k) v in
  match find_key h key_val l k with Some (i, _) => <[i := x]> l | None => l ++ [x] end.
Definition spec_add (l : list set_entry_t) (v : Z) : list set_entry_t :=
  match find_key h set_value l v with Some _ => l | None => l ++ [SetEntry (normalize_map_key v)] end.

Lemma key_ok_normal v : key_ok h v -> key_ok h (normalize_map_key v).
Proof.
  intros (Hv & Hn & Hb). split; [apply normalize_word, Hv|]. rewrite normalize_type. split.
  - intros E En. rewrite normalize_number in * by auto. destruct (v =? 2 ^ 63); [discriminate|auto].
  - intros E. rewrite normalize_other by (rewrite E; discriminate). auto.
Qed.
Lemma map_store_ok a m l k v : rep h key_val m l -> answers_ok a m -> key_ok h k ->
  exists m' l', map_store_entry h a m k (normalize_map_key k) v = Some (true, m') /\ rep h key_val m' l' /\ map snd l' = spec_set (map snd l) k v /\
    forall i e x, l !! i = Some (e, x) -> exists y, l' !! i = Some (e, y).
Proof.
  intros R (Ha & A1 & A2 & A3) Hk. pose proof (key_ok_normal k Hk) as Hn. pose proof Hk as (Hw & _). pose proof (normalize_twice k Hw) as Ht. unfold map_store_entry, spec_set. rewrite key_init_ok by assumption.
  destruct (rep_find h key_val R a k Hk Ha) as [(l1 & e & x & l2 & -> & -> & _ & He & Ek & ->)|(-> & _ & Hnew & ->)].
  - destruct (Z.eqb_spec e 0); [contradiction|]. cbn [negb]. rewrite (rep_entry h key_val R e x) by (apply elem_of_app; right; left). exists (Coll (c_table m) (<[e := MapEntry (normalize_map_key k) v]> (c_entries m))), (l1 ++ (e, MapEntry (normalize_map_key k) v) :: l2).
    split; [reflexivity|]. split; [eapply rep_update; [exact R|reflexivity|rewrite Ek; apply key_bytes_normal, Hw|exact Hn|exact Ht]|]. split.
    + rewrite !map_app. cbn [map snd]. rewrite <- (length_map snd l1), insert_app_r_alt, Nat.sub_diag by lia. reflexivity.
    + intros i e' y Hi. destruct (decide (i = length l1)) as [->|Hne]; [rewrite list_lookup_middle in Hi by reflexivity; injection Hi as <- <-; exists (MapEntry (normalize_map_key k) v); apply list_lookup_middle; reflexivity|].
      exists y. rewrite <- Hi. destruct (decide (i < length l1)%nat); [rewrite !lookup_app_l by lia; reflexivity|]. rewrite !lookup_app_r by lia. destruct (i - length l1)%nat eqn:D; [lia|reflexivity].
  - change (0 =? 0) with true. cbn [negb]. assert (Eb : key_bytes h k = key_bytes h (key_val (MapEntry (normalize_map_key k) v))) by (symmetry; apply key_bytes_normal, Hw). rewrite Eb in *.
    destruct (rep_add h key_val R a (MapEntry (normalize_map_key k) v) A1 A2 A3 Hn Ht Hnew) as (m' & -> & R'). exists m', (l ++ [(a_entry a, MapEntry (normalize_map_key k) v)]). splits; auto; [rewrite map_app; reflexivity|].
    intros i e x Hi. exists x. rewrite lookup_app_l by (eapply lookup_lt_Some, Hi). exact Hi.
Qed.
Lemma set_store_ok a s l v : rep h set_value s l -> answers_ok a s -> key_ok h v ->
  exists s' l', set_store_entry h a s v = Some (true, s') /\ rep h set_value s' l' /\ map snd l' = spec_add (map snd l) v /\ forall i e x, l !! i = Some (e, x) -> exists y, l' !! i = Some (e, y).
Proof.
  intros R (Ha & A1 & A2 & A3) Hk. pose proof (key_ok_normal v Hk) as Hn. pose proof Hk as (Hw & _). pose proof (normalize_twice v Hw) as Ht. unfold set_store_entry, spec_add. cbv zeta. rewrite key_init_ok by assumption. rewrite key_bytes_normal by exact Hw.
  destruct (rep_find h set_value R a v Hk Ha) as [(l1 & e & x & l2 & -> & -> & _ & He & _ & ->)|(-> & _ & Hnew & ->)].
  - destruct (Z.eqb_spec e 0); [contradiction|]. cbn [negb]. exists s, (l1 ++ (e, x) :: l2). splits; auto. eauto.
  - change (0 =? 0) with true. cbn [negb]. assert (Eb : key_bytes h v = key_bytes h (set_value (SetEntry (normalize_map_key v)))) by (symmetry; apply key_bytes_normal, Hw). rewrite Eb in *.
    destruct (rep_add h set_value R a (SetEntry (normalize_map_key v)) A1 A2 A3 Hn Ht Hnew) as (s' & -> & R'). exists s', (l ++ [(a_entry a, SetEntry (normalize_map_key v))]). splits; auto; [rewrite map_app; reflexivity|].
    intros i e x Hi. exists x. rewrite lookup_app_l by (eapply lookup_lt_Some, Hi). exact Hi.
Qed.
(** Without memory for the entry nothing is stored. *)
Lemma map_store_refused a m l k v : rep h key_val m l -> memory_ok a -> key_ok h k -> find_key h key_val (map snd l) k = None -> a_entry a = 0 \/ a_copy a = false ->
  map_store_entry h a m k (normalize_map_key k) v = Some (false, m).
Proof.
  intros R Ha Hk Hf Hr. unfold map_store_entry. rewrite key_init_ok by assumption. destruct (rep_find h key_val R a k Hk Ha) as [(? & ? & ? & ? & _ & _ & _ & _ & _ & E)|(-> & _)]; [congruence|]. change (0 =? 0) with true. cbn [negb]. unfold add_entry.
  destruct Hr as [Hr|Hr]; rewrite Hr; [reflexivity|]. rewrite orb_true_r. reflexivity.
Qed.
End Stores.

(** ** Maps and sets with their iterators

    The specification keeps the entries in a list, and an iterator as the
    position of the entry it will give next.  Deleting that entry is what a
    program must not do. *)

Section Iterators.
Context `{UTHash} {E : Type} (h : heap) (ekey : E -> Z) (out : iter_type_t -> E -> js_out).

Definition cursor : Type := iter_type_t * option nat.
Definition start_cursor (l : list E) (type : iter_type_t) : cursor := (type, match l with [] => None | _ => Some 0%nat end).
Definition next_cursor (l : list E) (n : nat) : option nat := if (S n <? length l)%nat then Some (S n) else None.
(** An iterator beyond a deleted entry moves down with the entries. *)
Definition shift_cursor (i : nat) (c : cursor) : option cursor :=
  match c with
  | (t, None) => Some (t, None)
  | (t, Some n) => if (n =? i)%nat then None else Some (t, Some (if (i <? n)%nat then (n - 1)%nat else n))
  end.
Definition stands_on (l : list (Z * E)) (st : iter_state) (c : cursor) : Prop :=
  it_type st = c.1 /\ match c.2 with None => it_current st = 0 | Some n => exists x, l !! n = Some (it_current st, x) end.
Definition represents (w : coll E * list iter_state) (s : list E * list cursor) : Prop :=
  exists l, rep h ekey w.1 l /\ map snd l = s.1 /\ Forall2 (stands_on l) w.2 s.2.

Lemma head_stands l type : Forall (entry_ok h ekey) l -> stands_on l (IterState (head_addr l) type) (start_cursor (map snd l) type).
Proof. intros F. destruct l as [|[e x] l]; split; try reflexivity. cbn. eauto. Qed.
Lemma stands_grow l l' st c : (forall i e x, l !! i = Some (e, x) -> exists y, l' !! i = Some (e, y)) -> stands_on l st c -> stands_on l' st c.
Proof. intros Hl [H1 H2]. split; [exact H1|]. destruct c.2 as [n|]; [|exact H2]. destruct H2 as (x & Hx). destruct (Hl n _ x Hx) as (y & Hy). eauto. Qed.
(** One step of an iterator. *)
Lemma advance_ok c l st t n : rep h ekey c l -> stands_on l st (t, Some n) ->
  exists x, map snd l !! n = Some x /\ exists st', advance out c st = Some (Some (out t x), st') /\ stands_on l st' (t, next_cursor (map snd l) n).
Proof.
  intros R [Ht (x & Hx)]. cbn [fst snd] in *. exists x. change (map snd l) with (snd <$> l). rewrite list_lookup_fmap, Hx. split; [reflexivity|]. pose proof (take_drop_middle _ _ _ Hx) as D. pose proof (r_ok _ _ _ _ R) as F. rewrite Forall_forall in F.
  assert (Hin : (it_current st, x) ∈ l) by (eapply list_elem_of_lookup_2, Hx). destruct (F _ Hin) as (H0 & _). unfold advance. destruct (Z.eqb_spec (it_current st) 0); [contradiction|]. rewrite (rep_entry h ekey R _ x Hin), Ht. eexists. split; [reflexivity|].
  rewrite (rep_next h ekey R (take n l) (it_current st) x (drop (S n) l)) by (symmetry; exact D). split; [reflexivity|]. cbn [fst snd it_current]. unfold next_cursor. rewrite length_fmap. destruct (Nat.ltb_spec (S n) (length l)) as [Hlt|Hge].
  - destruct (lookup_lt_is_Some_2 l (S n) Hlt) as ([e y] & Hy). rewrite (drop_S l (e, y) (S n) Hy). cbn. eauto.
  - rewrite drop_ge by lia. reflexivity.
Qed.
Lemma advance_end c st t l : stands_on l st (t, None) -> advance out c st = Some (None, st).
Proof. intros [_ E0]. cbn in E0. unfold advance. rewrite E0. reflexivity. Qed.
(** Dropping an entry leaves the iterators on the others where they were. *)
Lemma shift_ok l1 e x l2 st c c' : stands_on (l1 ++ (e, x) :: l2) st c -> shift_cursor (length l1) c = Some c' -> stands_on (l1 ++ l2) st c'.
Proof.
  intros [H1 H2] Hs. destruct c as [t [n|]]; cbn [shift_cursor fst snd] in *; [|injection Hs as <-; split; assumption]. destruct (Nat.eqb_spec n (length l1)) as [|Hne]; [discriminate|]. injection Hs as <-. split; [exact H1|]. cbn [snd]. destruct H2 as (y & Hy). exists y. rewrite <- Hy.
  destruct (Nat.ltb_spec (length l1) n); [|rewrite !lookup_app_l by lia; reflexivity]. rewrite !lookup_app_r by lia. replace (n - length l1)%nat with (S (n - 1 - length l1)) by lia. reflexivity.
Qed.
Lemma shift_all l1 e x l2 sts cs cs' : Forall2 (stands_on (l1 ++ (e, x) :: l2)) sts cs -> mapM (shift_cursor (length l1)) cs = Some cs' -> Forall2 (stands_on (l1 ++ l2)) sts cs'.
Proof.
  intros F. revert cs'. induction F as [|st c sts cs Hs _ IH]; intros cs' Hm; cbn in Hm; [injection Hm as <-; constructor|]. destruct (shift_cursor (length l1) c) as [c1|] eqn:E1; [|discriminate]. cbn in Hm. destruct (mapM _ cs) as [cs1|]; [|discriminate]. injection Hm as <-. constructor; [eapply shift_ok; eassumption|auto].
Qed.
(** The iterator on the entry that goes follows a freed pointer next. *)
Lemma dropped_crashes c l l1 e x l2 st t : rep h ekey c l -> l = l1 ++ (e, x) :: l2 -> stands_on l st (t, Some (length l1)) -> advance out (drop_entry c e) st = None.
Proof.
  intros R -> [_ (y & Hy)]. cbn [fst snd] in *. rewrite list_lookup_middle in Hy by reflexivity. injection Hy as Hy _. pose proof (r_ok _ _ _ _ R) as F. rewrite Forall_app, Forall_cons in F. destruct F as (_ & (He & _) & _). cbn in He. unfold advance. destruct (Z.eqb_spec (it_current st) 0); [congruence|].
  cbn [c_entries drop_entry]. rewrite <- Hy, lookup_delete_eq. reflexivity.
Qed.
End Iterators.

(** ** Programs that use a collection *)

Inductive map_op := MSet (k v : Z) | MGet (k : Z) | MHas (k : Z) | MDelete (k : Z) | MClear | MSize | MIter (type : iter_type_t) | MNext (i : nat).
Inductive set_op := SAdd (v : Z) | SHas (v : Z) | SDelete (v : Z) | SClear | SSize | SIter (type : iter_type_t) | SNext (i : nat).
(** What the program sees: a result, a count, an iterator, or what one gives. *)
Inductive output := ORes (r : result Z) | OSize (n : Z) | OIter | ONext (o : option js_out).

Section Programs.
Context `{UTHash} (h : heap) (this_val : Z).

Definition with_iter {E} (create : option (coll E) -> iter_type_t -> result iter_state) (type : iter_type_t) (w : coll E * list iter_state) : option (output * (coll E * list iter_state)) :=
  match create (Some w.1) type with Ok st => Some (OIter, (w.1, w.2 ++ [st])) | Err k e => Some (ORes (Err k e), w) end.
Definition with_next {E} (adv : coll E -> iter_state -> option (option js_out * iter_state)) (i : nat) (w : coll E * list iter_state) : option (output * (coll E * list iter_state)) :=
  match w.2 !! i with
  | None => None
  | Some st => match adv w.1 st with Some (o, st) => Some (ONext o, (w.1, <[i := st]> w.2)) | None => None end
  end.
Definition with_call {E} (r : call_t E) (its : list iter_state) : option (output * (coll E * list iter_state)) :=
  match r with Some (r, Some c) => Some (ORes r, (c, its)) | _ => None end.
Definition run_map (a : answers) (w : coll map_entry_t * list iter_state) (o : map_op) : option (output * (coll map_entry_t * list iter_state)) :=
  match o with
  | MSet k v => with_call (map_set h a this_val (Some w.1) [k; v]) w.2
  | MGet k => option_map (fun r => (ORes r, w)) (map_get h a (Some w.1) [k])
  | MHas k => option_map (fun r => (ORes r, w)) (map_has h a (Some w.1) [k])
  | MDelete k => with_call (map_delete h a (Some w.1) [k]) w.2
  | MClear => with_call (map_clear (Some w.1)) w.2
  | MSize => Some (OSize (map_size (Some w.1)), w)
  | MIter type => with_iter (create_map_iterator true) type w
  | MNext i => with_next advance_map i w
  end.
Definition run_set (a : answers) (w : coll set_entry_t * list iter_state) (o : set_op) : option (output * (coll set_entry_t * list iter_state)) :=
  match o with
  | SAdd v => with_call (set_add h a this_val (Some w.1) [v]) w.2
  | SHas v => option_map (fun r => (ORes r, w)) (set_has h a (Some w.1) [v])
  | SDelete v => with_call (set_delete h a (Some w.1) [v]) w.2
  | SClear => with_call (set_clear (Some w.1)) w.2
  | SSize => Some (OSize (set_size (Some w.1)), w)
  | SIter type => with_iter (create_set_iterator true) type w
  | SNext i => with_next advance_set i w
  end.

(** *** The specification: [None] when an iterator would be left on an entry
    that is gone *)

Definition spec_delete {E} (ekey : E -> Z) (s : list E * list cursor) (k : Z) : option (output * (list E * list cursor)) :=
  match find_key h ekey s.1 k with
  | Some (i, _) => match mapM (shift_cursor i) s.2 with Some cs => Some (ORes (Ok js_true), (delete i s.1, cs)) | None => None end
  | None => Some (ORes (Ok js_false), s)
  end.
Definition finished (c : cursor) : bool := match c.2 with None => true | Some _ => false end.
Definition spec_clear {E} (s : list E * list cursor) : option (output * (list E * list cursor)) :=
  if forallb finished s.2 then Some (ORes (Ok js_mkundef), ([], s.2)) else None.
Definition spec_iter {E} (s : list E * list cursor) (type : iter_type_t) : option (output * (list E * list cursor)) := Some (OIter, (s.1, s.2 ++ [start_cursor s.1 type])).
Definition spec_next {E} (out : iter_type_t -> E -> js_out) (s : list E * list cursor) (i : nat) : option (output * (list E * list cursor)) :=
  match s.2 !! i with
  | Some (t, Some n) => match s.1 !! n with Some x => Some (ONext (Some (out t x)), (s.1, <[i := (t, next_cursor s.1 n)]> s.2)) | None => None end
  | Some (_, None) => Some (ONext None, s)
  | None => None
  end.
Definition spec_has {E} (ekey : E -> Z) (s : list E * list cursor) (k : Z) : output := ORes (Ok (js_bool (bool_decide (is_Some (find_key h ekey s.1 k))))).
Definition spec_map (s : list map_entry_t * list cursor) (o : map_op) : option (output * (list map_entry_t * list cursor)) :=
  match o with
  | MSet k v => Some (ORes (Ok this_val), (spec_set h s.1 k v, s.2))
  | MGet k => Some (ORes (Ok (match find_key h key_val s.1 k with Some (_, x) => value x | None => js_mkundef end)), s)
  | MHas k => Some (spec_has key_val s k, s)
  | MDelete k => spec_delete key_val s k
  | MClear => spec_clear s
  | MSize => Some (OSize (Z.of_nat (length s.1)), s)
  | MIter type => spec_iter s type
  | MNext i => spec_next map_out s i
  end.
Definition spec_set_op (s : list set_entry_t * list cursor) (o : set_op) : option (output * (list set_entry_t * list cursor)) :=
  match o with
  | SAdd v => Some (ORes (Ok this_val), (spec_add h s.1 v, s.2))
  | SHas v => Some (spec_has set_value s v, s)
  | SDelete v => spec_delete set_value s v
  | SClear => spec_clear s
  | SSize => Some (OSize (Z.of_nat (length s.1)), s)
  | SIter type => spec_iter s type
  | SNext i => spec_next set_out s i
  end.
(** Keys that can be keys, and memory for the operation. *)
Definition map_op_ok (a : answers) (m : map_t) (o : map_op) : Prop :=
  match o with MSet k _ => key_ok h k /\ answers_ok a m | MGet k | MHas k | MDelete k => key_ok h k /\ memory_ok a | _ => True end.
Definition set_op_ok (a : answers) (s : set_t) (o : set_op) : Prop :=
  match o with SAdd v => key_ok h v /\ answers_ok a s | SHas v | SDelete v => key_ok h v /\ memory_ok a | _ => True end.
Inductive map_in_use : coll map_entry_t * list iter_state -> list map_entry_t * list cursor -> Prop :=
| map_use_start : map_in_use (new_coll, []) ([], [])
| map_use_step w s a o out w' out' s' : map_in_use w s -> map_op_ok a w.1 o -> run_map a w o = Some (out, w') -> spec_map s o = Some (out', s') -> map_in_use w' s'.
Inductive set_in_use : coll set_entry_t * list iter_state -> list set_entry_t * list cursor -> Prop :=
| set_use_start : set_in_use (new_coll, []) ([], [])
| set_use_step w s a o out w' out' s' : set_in_use w s -> set_op_ok a w.1 o -> run_set a w o = Some (out, w') -> spec_set_op s o = Some (out', s') -> set_in_use w' s'.

(** *** The steps that maps and sets share *)

Section Shared.
Context {E : Type} (ekey : E -> Z) (out : iter_type_t -> E -> js_out).
Abbreviation repr := (represents h ekey).
Lemma delete_step a w s k o s' : repr w s -> key_ok h k -> memory_ok a -> spec_delete ekey s k = Some (o, s') ->
  exists r c', delete_key (lookup_entry h) a w.1 k = Some (r, c') /\ o = ORes r /\ repr (c', w.2) s'.
Proof.
  intros (l & R & El & F) Hk Ha Hs. unfold spec_delete in Hs. unfold delete_key. rewrite <- El in Hs. destruct (rep_find h ekey R a k Hk Ha) as [(l1 & e & x & l2 & -> & _ & -> & He & _ & Ef)|(_ & -> & _ & Ef)]; rewrite Ef in Hs.
  - destruct (Z.eqb_spec e 0); [contradiction|]. cbn [negb]. destruct (mapM _ s.2) as [cs|] eqn:Em; [|discriminate]. injection Hs as <- <-. eexists _, _. split; [reflexivity|]. split; [reflexivity|]. exists (l1 ++ l2). cbn [fst snd]. split; [apply (rep_drop h ekey R l1 e x l2 eq_refl)|].
    split; [|eapply shift_all; eassumption]. rewrite !map_app. cbn [map snd]. rewrite <- (length_map snd l1), delete_middle. reflexivity.
  - change (0 =? 0) with true. cbn [negb]. injection Hs as <- <-. eexists _, _. split; [reflexivity|]. split; [reflexivity|]. exists l. auto.
Qed.
Lemma finished_all l l' its cs : forallb finished cs = true -> Forall2 (stands_on (E := E) l) its cs -> Forall2 (stands_on (E := E) l') its cs.
Proof.
  intros Hf F. induction F as [|st c its cs [H1 H2] _ IH]; [constructor|]. cbn in Hf. apply andb_true_iff in Hf as [Hc Hf]. constructor; [|auto]. split; [exact H1|]. unfold finished in Hc. destruct c.2; [discriminate|exact H2].
Qed.
Lemma clear_step w s o s' : repr w s -> spec_clear s = Some (o, s') -> exists c', clear_entries w.1 = Some c' /\ o = ORes (Ok js_mkundef) /\ repr (c', w.2) s'.
Proof.
  intros (l & R & El & F) Hs. unfold spec_clear in Hs. destruct (forallb finished s.2) eqn:Ef; [|discriminate]. injection Hs as <- <-. destruct (rep_cleared h ekey w.1 l R) as (c' & -> & R'). exists c'. splits; auto. exists []. cbn [fst snd]. splits; auto. eapply finished_all; eassumption.
Qed.
Lemma iter_step w s type : repr w s -> exists w', with_iter (create_iterator true) type w = Some (OIter, w') /\ repr w' (s.1, s.2 ++ [start_cursor s.1 type]).
Proof.
  intros (l & R & El & F). unfold with_iter, create_iterator. rewrite (rep_head h ekey R). eexists. split; [reflexivity|]. exists l. cbn [fst snd]. splits; auto. apply Forall2_app; [exact F|]. constructor; [|constructor]. rewrite <- El. eapply head_stands, (r_ok _ _ _ _ R).
Qed.
Lemma next_step w s i o s' : repr w s -> spec_next out s i = Some (o, s') -> exists w', with_next (advance out) i w = Some (o, w') /\ repr w' s'.
Proof.
  intros (l & R & El & F) Hs. unfold spec_next, with_next in *. destruct (s.2 !! i) as [[t p]|] eqn:Ei; [|discriminate]. destruct (Forall2_lookup_r _ _ _ _ _ F Ei) as (st & Est & Hst). rewrite Est. destruct p as [n|].
  - destruct (advance_ok h ekey out w.1 l st t n R Hst) as (x & Hx & st' & -> & Hst'). rewrite <- El in Hs. rewrite Hx in Hs. injection Hs as <- <-. eexists. split; [reflexivity|]. exists l. cbn [fst snd]. splits; auto. apply Forall2_insert; assumption.
  - rewrite (advance_end out w.1 st t l Hst). injection Hs as <- <-. eexists. split; [reflexivity|]. exists l. cbn [fst snd]. splits; auto. rewrite list_insert_id by exact Est. exact F.
Qed.
Lemma has_step a w s k : repr w s -> key_ok h k -> memory_ok a -> exists e, lookup_entry h a w.1 k = Some e /\ bool_decide (is_Some (find_key h ekey s.1 k)) = negb (e =? 0) /\
  match find_key h ekey s.1 k with Some (_, x) => e <> 0 /\ c_entries w.1 !! e = Some x | None => e = 0 end.
Proof.
  intros (l & R & El & F) Hk Ha. rewrite <- El. destruct (rep_find h ekey R a k Hk Ha) as [(l1 & e & x & l2 & -> & _ & -> & He & _ & ->)|(_ & -> & _ & ->)].
  - exists e. destruct (Z.eqb_spec e 0); [contradiction|]. splits; auto. apply (rep_entry h ekey R). apply elem_of_app. right. left.
  - exists 0. auto.
Qed.
Lemma count_step w s : repr w s -> HASH_COUNT (c_table w.1) = Z.of_nat (length s.1).
Proof. intros (l & R & El & _). rewrite (rep_count h ekey R), <- El, length_map. reflexivity. Qed.
(** Entries that stay where they are keep their iterators. *)
Lemma grow_step c' cs (l l' : list (Z * E)) (its : list iter_state) : Forall2 (stands_on l) its cs -> rep h ekey c' l' -> (forall i e x, l !! i = Some (e, x) -> exists y, l' !! i = Some (e, y)) -> represents h ekey (c', its) (map snd l', cs).
Proof using. intros F R' Hg. exists l'. cbn [fst snd]. splits; auto. eapply Forall2_impl; [exact F|]. intros st cu. apply stands_grow, Hg. Qed.
End Shared.

Lemma map_step a w s o out s' : represents h key_val w s -> map_op_ok a w.1 o -> spec_map s o = Some (out, s') -> exists w', run_map a w o = Some (out, w') /\ represents h key_val w' s'.
Proof.
  intros Hr Ho Hs. destruct o as [k v|k|k|k| | |type|i]; cbn [spec_map run_map map_op_ok] in *.
  - injection Hs as <- <-. destruct Ho as [Hk Ha]. pose proof Hr as (l & R & El & F). destruct (map_store_ok h a w.1 l k v R Ha Hk) as (m' & l' & Es & R' & El' & Hg). unfold map_set. cbn [length Nat.ltb Nat.leb rd nth].
    rewrite Es. eexists. split; [reflexivity|]. rewrite <- El, <- El'. eapply grow_step; eassumption.
  - injection Hs as <- <-. destruct Ho as [Hk Ha]. destruct (has_step key_val a w s k Hr Hk Ha) as (e & Ef & _ & He). unfold map_get, map_find_entry. cbn [length Nat.ltb Nat.leb rd nth]. rewrite Ef. exists w. split; [|exact Hr]. destruct (find_key h key_val s.1 k) as [[i x]|]; [destruct He as [He ->]; destruct (Z.eqb_spec e 0); [contradiction|reflexivity]|subst e; reflexivity].
  - injection Hs as <- <-. destruct Ho as [Hk Ha]. destruct (has_step key_val a w s k Hr Hk Ha) as (e & Ef & Eb & _). unfold map_has, map_find_entry, spec_has. cbn [length Nat.ltb Nat.leb rd nth]. rewrite Ef, Eb. exists w. split; [reflexivity|exact Hr].
  - destruct Ho as [Hk Ha]. destruct (delete_step key_val a w s k out s' Hr Hk Ha Hs) as (r & c' & Ed & -> & R'). unfold map_delete, map_find_entry. cbn [length Nat.ltb Nat.leb rd nth]. rewrite Ed. eexists. split; [reflexivity|exact R'].
  - destruct (clear_step key_val w s out s' Hr Hs) as (c' & Ec & -> & R'). unfold map_clear. rewrite Ec. eexists. split; [reflexivity|exact R'].
  - injection Hs as <- <-. exists w. split; [|exact Hr]. unfold map_size. rewrite (count_step key_val w s Hr). reflexivity.
  - injection Hs as <- <-. apply (iter_step key_val w s type Hr).
  - apply (next_step key_val map_out w s i out s' Hr Hs).
Qed.
Lemma set_step a w s o out s' : represents h set_value w s -> set_op_ok a w.1 o -> spec_set_op s o = Some (out, s') -> exists w', run_set a w o = Some (out, w') /\ represents h set_value w' s'.
Proof.
  intros Hr Ho Hs. destruct o as [v|v|v| | |type|i]; cbn [spec_set_op run_set set_op_ok] in *.
  - injection Hs as <- <-. destruct Ho as [Hk Ha]. pose proof Hr as (l & R & El & F). destruct (set_store_ok h a w.1 l v R Ha Hk) as (m' & l' & Es & R' & El' & Hg). unfold set_add. cbn [length Nat.ltb Nat.leb rd nth].
    rewrite Es. eexists. split; [reflexivity|]. rewrite <- El, <- El'. eapply grow_step; eassumption.
  - injection Hs as <- <-. destruct Ho as [Hk Ha]. destruct (has_step set_value a w s v Hr Hk Ha) as (e & Ef & Eb & _). unfold set_has, set_find_entry, spec_has. cbn [length Nat.ltb Nat.leb rd nth]. rewrite Ef, Eb. exists w. split; [reflexivity|exact Hr].
  - destruct Ho as [Hk Ha]. destruct (delete_step set_value a w s v out s' Hr Hk Ha Hs) as (r & c' & Ed & -> & R'). unfold set_delete, set_find_entry. cbn [length Nat.ltb Nat.leb rd nth]. rewrite Ed. eexists. split; [reflexivity|exact R'].
  - destruct (clear_step set_value w s out s' Hr Hs) as (c' & Ec & -> & R'). unfold set_clear. rewrite Ec. eexists. split; [reflexivity|exact R'].
  - injection Hs as <- <-. exists w. split; [|exact Hr]. unfold set_size. rewrite (count_step set_value w s Hr). reflexivity.
  - injection Hs as <- <-. apply (iter_step set_value w s type Hr).
  - apply (next_step set_value set_out w s i out s' Hr Hs).
Qed.
Lemma map_use_repr w s : map_in_use w s -> represents h key_val w s.
Proof.
  induction 1 as [|w s a o out w' out' s' _ IH Ho E Es]; [exists []; split; [apply rep_new|split; [reflexivity|constructor]]|]. destruct (map_step a w s o out' s' IH Ho Es) as (w2 & E2 & R2). rewrite E in E2. injection E2 as _ <-. exact R2.
Qed.
Lemma set_use_repr w s : set_in_use w s -> represents h set_value w s.
Proof.
  induction 1 as [|w s a o out w' out' s' _ IH Ho E Es]; [exists []; split; [apply rep_new|split; [reflexivity|constructor]]|]. destruct (set_step a w s o out' s' IH Ho Es) as (w2 & E2 & R2). rewrite E in E2. injection E2 as _ <-. exact R2.
Qed.

(** C13: a Map is a list of entries in the order in which their keys were first
    added, with its iterators as positions in the list: each method and each
    step of an iterator gives what the list gives, and none reads freed memory.
    This is for keys that are no NaN other than the canonical one and no bigint
    of more than 30 characters, with memory for the operation, and as long as
    no entry is deleted that an iterator would give next. *)
Theorem map_refines w s a o out s' : map_in_use w s -> map_op_ok a w.1 o -> spec_map s o = Some (out, s') ->
  exists w', run_map a w o = Some (out, w') /\ map_in_use w' s'.
Proof.
  intros Hu Ho Hs. destruct (map_step a w s o out s' (map_use_repr w s Hu) Ho Hs) as (w' & E & _). exists w'. split; [exact E|]. eapply map_use_step; eassumption.
Qed.

(** A Set is a list of values, of which no two are the same, in the order in
    which they were added; the same holds of its methods and iterators. *)
Theorem set_refines w s a o out s' : set_in_use w s -> set_op_ok a w.1 o -> spec_set_op s o = Some (out, s') ->
  (exists w', run_set a w o = Some (out, w') /\ set_in_use w' s') /\ ForallOrdPairs (fun x y => same_value_zero h (set_value x) (set_value y) = false) s.1.
Proof.
  intros Hu Ho Hs. destruct (set_step a w s o out s' (set_use_repr w s Hu) Ho Hs) as (w' & E & _). split; [exists w'; split; [exact E|eapply set_use_step; eassumption]|].
  destruct (set_use_repr w s Hu) as (l & R & <- & _). pose proof (r_keys _ _ _ _ R) as N. pose proof (r_ok _ _ _ _ R) as F. clear -N F. induction l as [|p l IH]; [constructor|]. cbn [map] in *. apply NoDup_cons in N as [N1 N2]. apply Forall_cons in F as [(_ & Kp & _) F]. constructor; [|auto].
  apply List.Forall_forall. intros x Hx. apply list_elem_of_In, list_elem_of_fmap in Hx as (q & -> & Hq). apply not_true_iff_false. intros E. apply N1. rewrite Forall_forall in F. destruct (F q Hq) as (_ & Kq & _). apply list_elem_of_fmap. exists q. split; [|exact Hq]. apply (key_bytes_eq h); auto.
Qed.

(** C15: deleting the entry that an iterator would give next, or clearing the Map
    before an iterator is at its end, succeeds; the next step of the iterator
    then follows a pointer to freed memory. *)
Theorem dangling_iterator w s a k i t n : map_in_use w s -> s.2 !! i = Some (t, Some n) -> key_ok h k -> memory_ok a ->
  (option_map fst (find_key h key_val s.1 k) = Some n -> exists w', run_map a w (MDelete k) = Some (ORes (Ok js_true), w') /\ run_map a w' (MNext i) = None) /\
  (exists w', run_map a w MClear = Some (ORes (Ok js_mkundef), w') /\ run_map a w' (MNext i) = None).
Proof.
  intros Hu Hi Hk Ha. destruct (map_use_repr w s Hu) as (l & R & El & F). destruct (Forall2_lookup_r _ _ _ _ _ F Hi) as (st & Est & Hst). pose proof Hst as [_ (y & Hy)]. cbn [fst snd] in *. split.
  - intros Hf. rewrite <- El in Hf. cbn [run_map]. unfold map_delete, delete_key, map_find_entry. cbn [length Nat.ltb Nat.leb rd nth]. destruct (rep_find h key_val R a k Hk Ha) as [(l1 & e & x & l2 & -> & _ & -> & He & _ & Ef)|(_ & -> & _ & Ef)]; rewrite Ef in Hf; [|discriminate]. injection Hf as <-.
    destruct (Z.eqb_spec e 0); [contradiction|]. cbn [negb with_call]. eexists. split; [reflexivity|]. unfold with_next. cbn [fst snd]. rewrite Est. unfold advance_map. rewrite (dropped_crashes h key_val map_out w.1 _ l1 e x l2 st t R eq_refl Hst). reflexivity.
  - cbn [run_map]. unfold map_clear. destruct (rep_cleared h key_val w.1 l R) as (c' & -> & R'). cbn [with_call]. eexists. split; [reflexivity|]. unfold with_next. cbn [fst snd]. rewrite Est. unfold advance_map, advance. pose proof (r_ok _ _ _ _ R) as Fo. rewrite Forall_forall in Fo. destruct (Fo (it_current st, y)) as (H0 & _); [eapply list_elem_of_lookup_2, Hy|]. cbn [fst] in H0.
    destruct (Z.eqb_spec (it_current st) 0); [contradiction|]. rewrite (r_entries _ _ _ _ R'), list_to_map_nil, lookup_empty. reflexivity.
Qed.
End Programs.

(** ** Callbacks *)

Section Visits.
Context `{UTHash} {S : Type} (h : heap) (this_val : Z).

(** A callback for every entry in order, up to the first that throws. *)
Fixpoint visit {E} (f : E -> S -> result Z * S) (l : list E) (st : S) : result Z * S :=
  match l with
  | [] => (Ok js_mkundef, st)
  | x :: l => match f x st with (Ok _, st) => visit f l st | (Err k e, st) => (Err k e, st) end
  end.
Lemma for_each_ok {E} (ekey : E -> Z) (body : E -> coll E -> S -> option (result Z * coll E * S)) f c l1 l fuel st :
  rep h ekey c (l1 ++ l) -> (forall x st, body x c st = Some ((f x st).1, c, (f x st).2)) -> (length l <= fuel)%nat ->
  for_each fuel body c (head_addr l) (head_addr (tail l)) st = Finished (visit f (map snd l) st).1 c (visit f (map snd l) st).2.
Proof.
  intros R Hb. revert l1 R fuel st. induction l as [|[e x] l IH]; intros l1 R fuel st Hf; [destruct fuel; reflexivity|]. destruct fuel as [|fuel]; [cbn in Hf; lia|]. pose proof (r_ok _ _ _ _ R) as F. rewrite Forall_app, Forall_cons in F. destruct F as (_ & (He & _) & F). cbn [for_each head_addr fst snd map visit tail] in *.
  destruct (Z.eqb_spec e 0); [contradiction|]. rewrite (rep_entry h ekey R e x) by (apply elem_of_app; right; left). rewrite Hb. destruct (f x st) as [[r|k m] st'] eqn:Ef; cbn [fst snd]; [|reflexivity].
  assert (En : hash_iter_next c (head_addr l) = Some (head_addr (tail l))).
  { unfold hash_iter_next. destruct l as [|[e2 y] l]; [reflexivity|]. apply Forall_cons in F as [(He2 & _) _]. cbn [head_addr fst tail] in *. destruct (Z.eqb_spec e2 0); [contradiction|]. rewrite (rep_entry h ekey R e2 y) by (apply elem_of_app; right; right; left). f_equal. apply (rep_next h ekey R (l1 ++ [(e, x)]) e2 y l). rewrite <- app_assoc. reflexivity. }
  rewrite En. apply (IH (l1 ++ [(e, x)])); [rewrite <- app_assoc; exact R|cbn in Hf; lia].
Qed.
Lemma iter_all_ok {E} (ekey : E -> Z) (body : E -> coll E -> S -> option (result Z * coll E * S)) f c l fuel st :
  rep h ekey c l -> (forall x st, body x c st = Some ((f x st).1, c, (f x st).2)) -> (length l <= fuel)%nat -> iter_all fuel body c st = Finished (visit f (map snd l) st).1 c (visit f (map snd l) st).2.
Proof.
  intros R Hb Hf. unfold iter_all. rewrite (rep_head h ekey R). rewrite <- (for_each_ok ekey body f c [] l fuel st R Hb Hf). unfold hash_iter_next. destruct l as [|[e x] l]; [reflexivity|]. pose proof (r_ok _ _ _ _ R) as F. apply Forall_cons in F as [(He & _) _]. cbn [head_addr fst tail] in *.
  destruct (Z.eqb_spec e 0); [contradiction|]. rewrite (rep_entry h ekey R e x) by left. rewrite (rep_next h ekey R [] e x l eq_refl). reflexivity.
Qed.
(** A callback that deletes nothing cannot make the loop follow a freed entry. *)
Lemma for_each_safe {E} (ekey : E -> Z) (body : E -> coll E -> S -> option (result Z * coll E * S)) :
  (forall x c l st, rep h ekey c l -> exists r c' l' st', body x c st = Some (r, c', st') /\ rep h ekey c' l' /\ forall e, e ∈ map fst l -> e ∈ map fst l') ->
  forall fuel c l el tmp st, rep h ekey c l -> (el = 0 \/ el ∈ map fst l) -> (tmp = 0 \/ tmp ∈ map fst l) -> for_each fuel body c el tmp st <> Crash.
Proof.
  intros Hb. induction fuel as [|fuel IH]; intros c l el tmp st R Hel Htmp; cbn [for_each]; destruct (Z.eqb_spec el 0) as [|Hne]; try discriminate. destruct Hel as [|Hel]; [contradiction|]. apply list_elem_of_fmap in Hel as ([e x] & -> & Hx). cbn [fst]. rewrite (rep_entry h ekey R e x Hx).
  destruct (Hb x c l st R) as (r & c' & l' & st' & -> & R' & Hk). destruct r as [r|k m]; [|discriminate]. assert (Ht : tmp = 0 \/ tmp ∈ map fst l') by (destruct Htmp; auto). unfold hash_iter_next. destruct (Z.eqb_spec tmp 0) as [->|Hz]; [apply (IH c' l'); auto|].
  destruct Ht as [|Ht]; [contradiction|]. apply list_elem_of_fmap in Ht as ([e2 y] & -> & Hy). cbn [fst] in *. rewrite (rep_entry h ekey R' e2 y Hy). apply (IH c' l'); auto; [right; apply list_elem_of_fmap; exists (e2, y); auto|]. apply list_elem_of_split in Hy as (l1 & l2 & ->). rewrite (rep_next h ekey R' l1 e2 y l2 eq_refl).
  destruct l2 as [|p l2]; [left; reflexivity|right]. apply list_elem_of_fmap. exists p. split; [reflexivity|]. apply elem_of_app. right. right. left.
Qed.

(** ForEach calls its callback once for every entry, in the order of the
    keys, with the value, the key and the Map, and stops at the first that
    throws, when the callback leaves the Map as it is; with a callback that
    deletes nothing it follows no freed pointer. *)
Theorem forEach_visits w s (call : fn_t (S := S) map_entry_t) fn this_arg fuel st : map_in_use h this_val w s -> vtype fn = T_FUNC ->
  (forall f, (forall x st, call fn this_arg [value x; key_val x; this_val] w.1 st = Some ((f x st).1, w.1, (f x st).2)) -> (length s.1 <= fuel)%nat ->
     map_forEach fuel call this_val (Some w.1) [fn; this_arg] st = Finished (visit f s.1 st).1 w.1 (visit f s.1 st).2) /\
  ((forall args m l st, rep h key_val m l -> exists r m' l' st', call fn this_arg args m st = Some (r, m', st') /\ rep h key_val m' l' /\ forall e, e ∈ map fst l -> e ∈ map fst l') ->
     map_forEach fuel call this_val (Some w.1) [fn; this_arg] st <> Crash).
Proof.
  intros Hu Hv. destruct (map_use_repr h this_val w s Hu) as (l & R & El & _). unfold map_forEach. cbn [length Nat.ltb Nat.leb rd nth]. rewrite Hv. change (T_FUNC =? T_FUNC) with true. cbn [negb orb]. split.
  - intros f Hc Hf. rewrite <- El in *. rewrite length_map in Hf. apply (iter_all_ok key_val _ f w.1 l fuel st R); auto.
  - intros Hc. unfold iter_all, hash_iter_next. rewrite (rep_head h key_val R). assert (B : forall el tmp, (el = 0 \/ el ∈ map fst l) -> (tmp = 0 \/ tmp ∈ map fst l) -> for_each fuel (fun entry => call fn this_arg [value entry; key_val entry; this_val]) w.1 el tmp st <> Crash) by (intros el tmp H1 H2; eapply (for_each_safe key_val); eauto).
    destruct l as [|[e x] l]; [apply B; left; reflexivity|]. pose proof (r_ok _ _ _ _ R) as F. apply Forall_cons in F as [(He & _) _]. cbn [head_addr fst] in *. destruct (Z.eqb_spec e 0); [contradiction|]. rewrite (rep_entry h key_val R e x) by left. apply B; [right; left|]. rewrite (rep_next h key_val R [] e x l eq_refl). destruct l; [left; reflexivity|right; right; left].
Qed.

(** Upsert calls the update function with the value of the key, or the insert
    function when there is none, and stores what it returns, whatever the
    function did to the Map; what it throws is passed on and nothing stored. *)
Theorem upsert_correct w s a a2 (call : fn_t (S := S) map_entry_t) k fu fi st r m' its' s' st' :
  map_in_use h this_val w s -> key_ok h k -> memory_ok a -> is_callable h fu = true -> is_callable h fi = true ->
  (match find_key h key_val s.1 k with Some (_, x) => call fu js_mkundef [value x; k; this_val] w.1 st | None => call fi js_mkundef [k; this_val] w.1 st end) = Some (r, m', st') ->
  map_in_use h this_val (m', its') s' -> answers_ok a2 m' ->
  match r with
  | Ok v => exists m2, map_upsert h a a2 call this_val (Some w.1) [k; fu; fi] st = Some (Ok v, Some m2, st') /\ represents h key_val (m2, its') (spec_set h s'.1 k v, s'.2)
  | Err kd e => map_upsert h a a2 call this_val (Some w.1) [k; fu; fi] st = Some (Err kd e, Some m', st')
  end.
Proof.
  intros Hu Hk Ha Cu Ci Hcall Hu' Ha2. pose proof (map_use_repr h this_val w s Hu) as Hr. destruct (map_use_repr h this_val _ s' Hu') as (l' & R' & El' & F'). cbn [fst snd] in *. destruct (has_step h key_val a w s k Hr Hk Ha) as (e & Ef & _ & He).
  assert (Hc : (if negb (e =? 0) then match c_entries w.1 !! e with Some x => call fu js_mkundef [value x; k; this_val] w.1 st | None => None end else call fi js_mkundef [k; this_val] w.1 st) = Some (r, m', st')).
  { rewrite <- Hcall. destruct (find_key h key_val s.1 k) as [[i x]|]; [destruct He as [He ->]; destruct (Z.eqb_spec e 0); [contradiction|reflexivity]|subst e; reflexivity]. }
  unfold map_upsert. cbn [length Nat.ltb Nat.leb rd nth]. rewrite Cu, Ci. cbn [negb]. unfold map_find_entry. rewrite Ef, Hc. destruct r as [v|kd m]; [|reflexivity]. destruct (map_store_ok h a2 m' l' k v R' Ha2 Hk) as (m2 & l2 & -> & R2 & El2 & Hg). exists m2. split; [reflexivity|]. rewrite <- El', <- El2. eapply grow_step; eassumption.
Qed.
End Visits.

Module Example.

Definition one : Z := 0x3FF0000000000000.
Definition two : Z := 0x4000000000000000.
Definition text : Z := mkval T_STR 4096.
Definition fn : Z := mkval T_FUNC 8192.
Definition nonillion : bigint := BigInt false [1073741824; 1182068202; 2670501072; 12].
Definition hp : heap := Heap (fun v => if v =? text then [97; 98] else []) (fun _ => nonillion) (fun _ => false).
Definition mem (entry : Z) : answers := Answers has_memory has_memory true entry true.
Lemma mem_memory e : memory_ok (mem e).
Proof. unfold memory_ok. splits; reflexivity. Qed.
Lemma mem_answers {E} e (c : coll E) : e <> 0 -> c_entries c !! e = None -> answers_ok (mem e) c.
Proof. intros He Hf. unfold answers_ok. splits; auto. apply mem_memory. Qed.
Lemma one_ok : key_ok hp one.
Proof. split; [unfold one; lia|]. split; [intros _ H; vm_compute in H; discriminate|intros H; vm_compute in H; discriminate]. Qed.
Lemma text_ok : key_ok hp text.
Proof. split; [vm_compute; split; [discriminate|reflexivity]|]. split; intros H; vm_compute in H; discriminate. Qed.

(** A map of two entries and an iterator of its keys. *)
Definition play (w : map_t * list iter_state) (a : answers) (o : map_op) : map_t * list iter_state := match run_map hp 0 a w o with Some (_, w) => w | None => w end.
Definition w0 : map_t * list iter_state := (new_coll, []).
Definition w1 := play w0 (mem 64) (MSet one 5).
Definition w2 := play w1 (mem 128) (MSet text 6).
Definition w3 := play w2 (mem 0) (MIter ITER_TYPE_MAP_KEYS).
Definition s1 : list map_entry_t * list cursor := ([MapEntry one 5], []).
Definition s2 : list map_entry_t * list cursor := ([MapEntry one 5; MapEntry text 6], []).
Definition s3 : list map_entry_t * list cursor := (s2.1, [(ITER_TYPE_MAP_KEYS, Some 0%nat)]).
Lemma used1 : map_in_use hp 0 w1 s1.
Proof. apply (map_use_step hp 0 w0 ([], []) (mem 64) (MSet one 5) (ORes (Ok 0)) w1 (ORes (Ok 0)) s1 (map_use_start hp 0)); [split; [apply one_ok|apply mem_answers; [discriminate|vm_compute; reflexivity]]|vm_compute; reflexivity|vm_compute; reflexivity]. Qed.
Lemma used2 : map_in_use hp 0 w2 s2.
Proof. apply (map_use_step hp 0 w1 s1 (mem 128) (MSet text 6) (ORes (Ok 0)) w2 (ORes (Ok 0)) s2 used1); [split; [apply text_ok|apply mem_answers; [discriminate|vm_compute; reflexivity]]|vm_compute; reflexivity|vm_compute; reflexivity]. Qed.
Lemma used3 : map_in_use hp 0 w3 s3.
Proof. apply (map_use_step hp 0 w2 s2 (mem 0) (MIter ITER_TYPE_MAP_KEYS) OIter w3 OIter s3 used2); [exact I|vm_compute; reflexivity|vm_compute; reflexivity]. Qed.
Lemma set_used : set_in_use hp 0 (match run_set hp 0 (mem 64) (new_coll, []) (SAdd one) with Some (_, w) => w | None => (new_coll, []) end) ([SetEntry one], []).
Proof. eapply (set_use_step hp 0 (new_coll, []) ([], []) (mem 64) (SAdd one)); [apply set_use_start|split; [apply one_ok|apply mem_answers; [discriminate|vm_compute; reflexivity]]|vm_compute; reflexivity|vm_compute; reflexivity]. Qed.

Lemma collection_keys_witness : memory_ok (mem 0) /\ collection_key_init hp (mem 0) (mkval T_BIGINT 8) = KeyFault /\ exists kv kw, collection_key_init hp (mem 0) one = KeyOk kv /\ collection_key_init hp (mem 0) text = KeyOk kw /\ kv <> kw.
Proof.
  split; [apply mem_memory|]. destruct (collection_keys hp (mem 0) (mkval T_BIGINT 8) one (mem_memory 0)) as [_ H]. split; [apply H; [vm_compute; reflexivity|apply bigint_okb_ok; vm_compute; reflexivity|vm_compute; discriminate]|].
  destruct (collection_keys hp (mem 0) one text (mem_memory 0)) as [H2 _]. destruct (H2 one_ok text_ok) as (kv & kw & E1 & E2 & E3). exists kv, kw. split; [exact E1|]. split; [exact E2|]. intros E. apply E3 in E. vm_compute in E. discriminate.
Defined.
Lemma map_refines_witness : exists w', run_map hp 0 (mem 0) w3 (MNext 0) = Some (ONext (Some (OutVal one)), w') /\ map_in_use hp 0 w' (s2.1, [(ITER_TYPE_MAP_KEYS, Some 1%nat)]).
Proof. apply (map_refines hp 0 w3 s3 (mem 0) (MNext 0)); [apply used3|exact I|vm_compute; reflexivity]. Defined.
Lemma set_refines_witness : exists w, set_in_use hp 0 w ([SetEntry one], []) /\ exists w', run_set hp 0 (mem 0) w (SHas text) = Some (ORes (Ok js_false), w').
Proof.
  eexists. split; [apply set_used|]. destruct (set_refines hp 0 _ _ (mem 0) (SHas text) (ORes (Ok js_false)) ([SetEntry one], []) set_used) as [(w' & E & _) _]; [split; [apply text_ok|apply mem_memory]|vm_compute; reflexivity|]. exists w'. exact E.
Defined.
Lemma dangling_iterator_witness : exists w', run_map hp 0 (mem 0) w3 (MDelete one) = Some (ORes (Ok js_true), w') /\ run_map hp 0 (mem 0) w' (MNext 0) = None.
Proof.
  destruct (dangling_iterator hp 0 w3 s3 (mem 0) one 0 ITER_TYPE_MAP_KEYS 0 used3 eq_refl one_ok (mem_memory 0)) as [H _]. apply H. vm_compute. reflexivity.
Defined.
(** A callback that adds up the values. *)
Definition adder : fn_t (S := Z) map_entry_t := fun _ _ args m st => Some (Ok js_mkundef, m, st + rd args 0).
Lemma forEach_visits_witness : map_forEach 2 adder 0 (Some w3.1) [fn; js_mkundef] 0 = Finished (Ok js_mkundef) w3.1 11.
Proof.
  destruct (forEach_visits hp 0 w3 s3 adder fn js_mkundef 2 0 used3 eq_refl) as [H _]. exact (H (fun x st => (Ok js_mkundef, st + value x)) (fun _ _ => eq_refl) (le_n 2)).
Defined.
Lemma upsert_correct_witness : exists m2, map_upsert hp (mem 0) (mem 192) adder 0 (Some w3.1) [text; fn; fn] 0 = Some (Ok js_mkundef, Some m2, 6) /\ represents hp key_val (m2, w3.2) ([MapEntry one 5; MapEntry text js_mkundef], s3.2).
Proof.
  apply (upsert_correct hp 0 w3 s3 (mem 0) (mem 192) adder text fn fn 0 (Ok js_mkundef) w3.1 w3.2 s3 6); [apply used3|apply text_ok|apply mem_memory|reflexivity|reflexivity|vm_compute; reflexivity|apply used3|apply mem_answers; [discriminate|vm_compute; reflexivity]].
Defined.

(** NaNs with other bits, which a typed array can give, are keys of their own. *)
Example other_nan : isnan (tov 0x7FF8000000000001) = true /\ key_bytes hp (tov 0x7FF8000000000001) <> key_bytes hp CANONICAL_NAN.
Proof. split; [reflexivity|vm_compute; discriminate]. Qed.
(** A native function is no callback for forEach. *)
Example native_callback : map_forEach 2 adder 0 (Some w3.1) [mkval T_CFUNC 8] 0 = Finished (js_mkerr "forEach requires a callback function") w3.1 0.
Proof. vm_compute. reflexivity. Qed.
(** A callback that deletes the entry after the one it is called for. *)
Definition deleter : fn_t (S := Z) map_entry_t := fun _ _ _ m st => match map_delete hp (mem 0) (Some m) [text] with Some (r, Some m) => Some (r, m, st) | _ => None end.
Example deleted_next : map_forEach 2 deleter 0 (Some w3.1) [fn] 0 = Crash.
Proof. vm_compute. reflexivity. Qed.
(** An entry that the callback adds while it is called for the last is not visited. *)
Definition grower : fn_t (S := Z) map_entry_t := fun _ _ _ m st => match map_set hp (mem (256 + 64 * st)) 0 (Some m) [two; 7] with Some (r, Some m) => Some (r, m, st + 1) | _ => None end.
Example grown_at_end : match map_forEach 9 grower 0 (Some w1.1) [fn] 0 with Finished _ m st => Some (map_size (Some m), st) | _ => None end = Some (2, 1).
Proof. vm_compute. reflexivity. Qed.
End Example.
