(* ===== verification/TaskQueue.v ===== *)
(** * Task queues

    [src/src/modules/timer.c] without the timers themselves: the queues of
    next ticks, microtasks and immediates, how they are drained, and what they
    show to the collector.  Entries are chained through memory; following a
    pointer to a freed entry is [Fault]. *)

From S2P Require Import Prelude Value.

(** ** Entries and queues *)

Inductive mt_kind := MT_CALLBACK | MT_PROMISE_TRIGGER | MT_THENABLE_JOB.
(** [u] is the promise of a trigger and the receiver of a thenable job. *)
Record microtask_entry_t := Microtask { mt_callback : Z; mt_u : Z; mt_next : Z; mt_argc : Z; mt_kind_of : mt_kind; mt_argv : list Z }.
Record immediate_entry_t := Immediate { im_callback : Z; immediate_id : Z; im_active : bool; im_next : Z }.
Inductive which_queue := TICKS | TASKS.
Record queue_t := Queue { q_head : Z; q_tail : Z; q_processing : Z }.
(** [triggers] are the promises whose trigger is queued, [draining] is a field
    of the runtime. *)
Record timer_state := TimerState {
  ts_mts : gmap Z microtask_entry_t; ts_ims : gmap Z immediate_entry_t;
  ts_ticks : queue_t; ts_tasks : queue_t; ts_immediates : Z; ts_immediates_tail : Z; next_immediate_id : Z;
  triggers : gset Z; microtasks_draining : bool }.

Definition no_queue : queue_t := Queue 0 0 0.
Definition timer_state_init : timer_state := TimerState ∅ ∅ no_queue no_queue 0 0 1 ∅ false.
Definition queue_of (q : which_queue) (st : timer_state) : queue_t := match q with TICKS => ts_ticks st | TASKS => ts_tasks st end.
Definition set_queue (q : which_queue) (x : queue_t) (st : timer_state) : timer_state :=
  match q with
  | TICKS => TimerState (ts_mts st) (ts_ims st) x (ts_tasks st) (ts_immediates st) (ts_immediates_tail st) (next_immediate_id st) (triggers st) (microtasks_draining st)
  | TASKS => TimerState (ts_mts st) (ts_ims st) (ts_ticks st) x (ts_immediates st) (ts_immediates_tail st) (next_immediate_id st) (triggers st) (microtasks_draining st)
  end.
Definition set_mts (m : gmap Z microtask_entry_t) (st : timer_state) : timer_state :=
  TimerState m (ts_ims st) (ts_ticks st) (ts_tasks st) (ts_immediates st) (ts_immediates_tail st) (next_immediate_id st) (triggers st) (microtasks_draining st).
Definition set_immediates (m : gmap Z immediate_entry_t) (h t n : Z) (st : timer_state) : timer_state :=
  TimerState (ts_mts st) m (ts_ticks st) (ts_tasks st) h t n (triggers st) (microtasks_draining st).
Definition set_triggers (s : gset Z) (st : timer_state) : timer_state :=
  TimerState (ts_mts st) (ts_ims st) (ts_ticks st) (ts_tasks st) (ts_immediates st) (ts_immediates_tail st) (next_immediate_id st) s (microtasks_draining st).
Definition set_draining (b : bool) (st : timer_state) : timer_state :=
  TimerState (ts_mts st) (ts_ims st) (ts_ticks st) (ts_tasks st) (ts_immediates st) (ts_immediates_tail st) (next_immediate_id st) (triggers st) b.
Definition mt_set_next (e : microtask_entry_t) (n : Z) : microtask_entry_t := Microtask (mt_callback e) (mt_u e) n (mt_argc e) (mt_kind_of e) (mt_argv e).
Definition im_set_next (e : immediate_entry_t) (n : Z) : immediate_entry_t := Immediate (im_callback e) (immediate_id e) (im_active e) n.

(** ** Queueing

    [entry] is the address of the new entry, 0 when there is no memory. *)

Definition queue_microtask_entry (q : which_queue) (entry : Z) (st : timer_state) : option timer_state :=
  let x := queue_of q st in
  if q_tail x =? 0 then Some (set_queue q (Queue entry entry (q_processing x)) st)
  else
    match ts_mts st !! q_tail x with
    | Some t => Some (set_queue q (Queue (q_head x) entry (q_processing x)) (set_mts (<[q_tail x := mt_set_next t entry]> (ts_mts st)) st))
    | None => None
    end.
Definition new_microtask (q : which_queue) (entry : Z) (e : microtask_entry_t) (st : timer_state) : option timer_state :=
  if entry =? 0 then Some st else queue_microtask_entry q entry (set_mts (<[entry := e]> (ts_mts st)) st).
Definition queue_microtask (entry callback : Z) : timer_state -> option timer_state := new_microtask TASKS entry (Microtask callback js_mkundef 0 0 MT_CALLBACK []).
Definition queue_next_tick (entry callback : Z) : timer_state -> option timer_state := new_microtask TICKS entry (Microtask callback js_mkundef 0 0 MT_CALLBACK []).
Definition queue_microtask_with_args (entry callback : Z) (args : list Z) : timer_state -> option timer_state :=
  if (length args =? 0)%nat then queue_microtask entry callback
  else new_microtask TASKS entry (Microtask callback js_mkundef 0 (u8 (zlen args)) MT_CALLBACK args).
Definition queue_next_tick_with_args (entry callback : Z) (args : list Z) : timer_state -> option timer_state :=
  if (length args =? 0)%nat then queue_next_tick entry callback
  else new_microtask TICKS entry (Microtask callback js_mkundef 0 (u8 (zlen args)) MT_CALLBACK args).
Definition queue_promise_thenable_job (entry then_fn thenable resolve_fn reject_fn : Z) : timer_state -> option timer_state :=
  new_microtask TASKS entry (Microtask then_fn thenable 0 2 MT_THENABLE_JOB [resolve_fn; reject_fn]).

Section Code.
(** [has_data]: the promise has its state. *)
Context {W : Type} (has_data : Z -> bool).

Definition js_mark_promise_trigger_queued (promise : Z) (st : timer_state) : bool * timer_state :=
  if negb (has_data promise) then (true, st)
  else if bool_decide (promise ∈ triggers st) then (false, st)
  else (true, set_triggers ({[promise]} ∪ triggers st) st).
Definition js_mark_promise_trigger_dequeued (promise : Z) (st : timer_state) : timer_state :=
  if negb (has_data promise) then st else set_triggers (triggers st ∖ {[promise]}) st.
Definition queue_promise_trigger (entry promise : Z) (st : timer_state) : option timer_state :=
  match js_mark_promise_trigger_queued promise st with
  | (false, st) => Some st
  | (true, st) =>
      if entry =? 0 then Some (js_mark_promise_trigger_dequeued promise st)
      else new_microtask TASKS entry (Microtask js_mkundef promise 0 0 MT_PROMISE_TRIGGER []) st
  end.
(** The next id is an [int]; its overflow is taken to wrap around. *)
Definition js_set_immediate (entry callback : Z) (st : timer_state) : option timer_state :=
  if entry =? 0 then Some st
  else
    let id := next_immediate_id st in
    let next := to_i32 (id + 1) in
    let m := <[entry := Immediate callback id true 0]> (ts_ims st) in
    if ts_immediates_tail st =? 0 then Some (set_immediates m entry entry next st)
    else
      match m !! ts_immediates_tail st with
      | Some t => Some (set_immediates (<[ts_immediates_tail st := im_set_next t entry]> m) (ts_immediates st) entry next st)
      | None => None
      end.
(** The first immediate with the id is made inactive. *)
Fixpoint clear_from (fuel : nat) (m : gmap Z immediate_entry_t) (entry id : Z) : option (gmap Z immediate_entry_t) :=
  if entry =? 0 then Some m
  else
    match fuel with
    | O => None
    | S fuel =>
        match m !! entry with
        | Some e => if immediate_id e =? id then Some (<[entry := Immediate (im_callback e) (immediate_id e) false (im_next e)]> m) else clear_from fuel m (im_next e) id
        | None => None
        end
    end.
Definition js_clear_immediate (id : Z) (st : timer_state) : option timer_state :=
  match clear_from (size (ts_ims st)) (ts_ims st) (ts_immediates st) id with
  | Some m => Some (set_immediates m (ts_immediates st) (ts_immediates_tail st) (next_immediate_id st) st)
  | None => None
  end.

(** ** Calls into JavaScript

    A call changes what the program has, and asks for tasks on the way.  It ends
    with the value to reject with, when it throws.  [malloc] gives an address
    for a new entry, or 0. *)

Inductive js_call := CallFn (fn this_val : Z) (args : list Z) | Handlers (promise : Z).
Inductive request :=
| RMicrotask (callback : Z) (args : list Z) | RTick (callback : Z) (args : list Z) | RThenable (then_fn thenable resolve_fn reject_fn : Z)
| RTrigger (promise : Z) | RImmediate (callback : Z) | RClear (id : Z).
Context (malloc : timer_state -> Z) (vm : js_call -> W -> option Z * W * list request).

Definition do_request (r : request) (st : timer_state) : option timer_state :=
  let entry := malloc st in
  match r with
  | RMicrotask callback args => queue_microtask_with_args entry callback args st
  | RTick callback args => queue_next_tick_with_args entry callback args st
  | RThenable then_fn thenable resolve_fn reject_fn => queue_promise_thenable_job entry then_fn thenable resolve_fn reject_fn st
  | RTrigger promise => queue_promise_trigger entry promise st
  | RImmediate callback => js_set_immediate entry callback st
  | RClear id => js_clear_immediate id st
  end.
Fixpoint do_requests (rs : list request) (st : timer_state) : option timer_state :=
  match rs with [] => Some st | r :: rs => match do_request r st with Some st => do_requests rs st | None => None end end.

(** What [gc_mark_timers] marks of the queues. *)
Fixpoint mark_entries (fuel : nat) (m : gmap Z microtask_entry_t) (p : Z) : option (list Z) :=
  if p =? 0 then Some []
  else
    match fuel with
    | O => None
    | S fuel =>
        match m !! p with
        | Some e => option_map (fun l => mt_callback e :: mt_u e :: take (Z.to_nat (mt_argc e)) (mt_argv e) ++ l) (mark_entries fuel m (mt_next e))
        | None => None
        end
    end.
Fixpoint mark_immediates (fuel : nat) (m : gmap Z immediate_entry_t) (p : Z) : option (list Z) :=
  if p =? 0 then Some []
  else
    match fuel with
    | O => None
    | S fuel => match m !! p with Some e => option_map (cons (im_callback e)) (mark_immediates fuel m (im_next e)) | None => None end
    end.
Definition gc_mark_timers (st : timer_state) : option (list Z) :=
  let entries := mark_entries (size (ts_mts st)) (ts_mts st) in
  match entries (q_head (ts_tasks st)), entries (q_processing (ts_tasks st)), entries (q_head (ts_ticks st)), entries (q_processing (ts_ticks st)), mark_immediates (size (ts_ims st)) (ts_ims st) (ts_immediates st) with
  | Some a, Some b, Some c, Some d, Some e => Some (a ++ b ++ c ++ d ++ e)
  | _, _, _, _, _ => None
  end.

(** ** Draining

    [log] has the calls made, each with what the collector would mark of the
    queues if it ran during the call. *)

Record world := World { w_st : timer_state; w_js : W; w_log : list (js_call * list Z) }.
Inductive ran (A : Type) := Fault | OutOfFuel | Done (a : A).
Arguments Fault {A}.
Arguments OutOfFuel {A}.
Arguments Done {A}.

Definition run_call (c : js_call) (w : world) : option (option Z * world) :=
  match gc_mark_timers (w_st w) with
  | None => None
  | Some marked =>
      let '(thrown, js, rs) := vm c (w_js w) in
      match do_requests rs (w_st w) with Some st => Some (thrown, World st js (w_log w ++ [(c, marked)])) | None => None end
  end.
Definition with_st (st : timer_state) (w : world) : world := World st (w_js w) (w_log w).
Definition process_microtask_entry (e : microtask_entry_t) (w : world) : option world :=
  match mt_kind_of e with
  | MT_PROMISE_TRIGGER => option_map snd (run_call (Handlers (mt_u e)) (with_st (js_mark_promise_trigger_dequeued (mt_u e) (w_st w)) w))
  | kind =>
      let this_val := match kind with MT_THENABLE_JOB => mt_u e | _ => js_mkundef end in
      match run_call (CallFn (mt_callback e) this_val (take (Z.to_nat (mt_argc e)) (mt_argv e))) w with
      | None => None
      | Some (thrown, w) =>
          match kind, thrown with
          | MT_THENABLE_JOB, Some reject_value => if mt_argc e =? 2 then option_map snd (run_call (CallFn (rd (mt_argv e) 1) js_mkundef [reject_value]) w) else Some w
          | _, _ => Some w
          end
      end
  end.
Definition take_batch (q : which_queue) (st : timer_state) : Z * timer_state :=
  let batch := q_head (queue_of q st) in (batch, set_queue q (Queue 0 0 batch) st).
Definition take_microtask_batch : timer_state -> Z * timer_state := take_batch TASKS.
Definition take_next_tick_batch : timer_state -> Z * timer_state := take_batch TICKS.
Definition set_processing (q : which_queue) (p : Z) (st : timer_state) : timer_state :=
  let x := queue_of q st in set_queue q (Queue (q_head x) (q_tail x) p) st.
Fixpoint process_batch (fuel : nat) (q : which_queue) (batch : Z) (w : world) : ran world :=
  if batch =? 0 then Done w
  else
    match fuel with
    | O => OutOfFuel
    | S fuel =>
        match ts_mts (w_st w) !! batch with
        | None => Fault
        | Some entry =>
            match process_microtask_entry entry (with_st (set_processing q (mt_next entry) (w_st w)) w) with
            | None => Fault
            | Some w => process_batch fuel q (mt_next entry) (with_st (set_mts (delete batch (ts_mts (w_st w))) (w_st w)) w)
            end
        end
    end.
Definition process_microtask_batch (fuel : nat) : Z -> world -> ran world := process_batch fuel TASKS.
Definition process_next_tick_batch (fuel : nat) : Z -> world -> ran world := process_batch fuel TICKS.
(** The inner loops: batches until the queue is empty. *)
Fixpoint drain_queue (fuel : nat) (q : which_queue) (w : world) : ran world :=
  if q_head (queue_of q (w_st w)) =? 0 then Done w
  else
    match fuel with
    | O => OutOfFuel
    | S n =>
        let '(batch, st) := take_batch q (w_st w) in
        match process_batch fuel q batch (with_st st w) with Done w => drain_queue n q w | r => r end
    end.
Definition has_pending_microtasks (st : timer_state) : bool := negb (q_head (ts_ticks st) =? 0) || negb (q_head (ts_tasks st) =? 0).
Fixpoint drain_all (fuel : nat) (w : world) : ran world :=
  if negb (has_pending_microtasks (w_st w)) then Done w
  else
    match fuel with
    | O => OutOfFuel
    | S n =>
        match drain_queue fuel TICKS w with
        | Done w => match drain_queue fuel TASKS w with Done w => drain_all n w | r => r end
        | r => r
        end
    end.
Definition process_microtasks (fuel : nat) (w : world) : ran world :=
  if microtasks_draining (w_st w) then Done w
  else
    match drain_all fuel (with_st (set_draining true (w_st w)) w) with
    | Done w => Done (with_st (set_draining false (set_processing TASKS 0 (set_processing TICKS 0 (w_st w)))) w)
    | r => r
    end.
(** [depth] is the number of JavaScript frames. *)
Definition js_maybe_drain_microtasks (fuel : nat) (depth : Z) (w : world) : ran (bool * world) :=
  if microtasks_draining (w_st w) || negb (depth =? 0) || negb (has_pending_microtasks (w_st w)) then Done (false, w)
  else match process_microtasks fuel w with Done w => Done (true, w) | Fault => Fault | OutOfFuel => OutOfFuel end.
Definition js_maybe_drain_microtasks_after_async_settle (fuel : nat) (w : world) : ran (bool * world) :=
  if microtasks_draining (w_st w) || negb (has_pending_microtasks (w_st w)) then Done (false, w)
  else match process_microtasks fuel w with Done w => Done (true, w) | Fault => Fault | OutOfFuel => OutOfFuel end.
Fixpoint process_immediates (fuel : nat) (w : world) : ran world :=
  let entry := ts_immediates (w_st w) in
  if entry =? 0 then Done w
  else
    match fuel with
    | O => OutOfFuel
    | S n =>
        match ts_ims (w_st w) !! entry with
        | None => Fault
        | Some e =>
            let st := set_immediates (ts_ims (w_st w)) (im_next e) (if im_next e =? 0 then 0 else ts_immediates_tail (w_st w)) (next_immediate_id (w_st w)) (w_st w) in
            let free w := with_st (set_immediates (delete entry (ts_ims (w_st w))) (ts_immediates (w_st w)) (ts_immediates_tail (w_st w)) (next_immediate_id (w_st w)) (w_st w)) w in
            if im_active e then
              match run_call (CallFn (im_callback e) js_mkundef []) (with_st st w) with
              | None => Fault
              | Some (_, w) => match process_microtasks fuel w with Done w => process_immediates n (free w) | r => r end
              end
            else process_immediates n (free (with_st st w))
        end
    end.
Fixpoint pending_from (fuel : nat) (m : gmap Z immediate_entry_t) (p : Z) : option bool :=
  if p =? 0 then Some false
  else match fuel with O => None | S fuel => match m !! p with Some e => if im_active e then Some true else pending_from fuel m (im_next e) | None => None end end.
Definition has_pending_immediates (st : timer_state) : option bool := pending_from (size (ts_ims st)) (ts_ims st) (ts_immediates st).
End Code.

Arguments Fault {A}.
Arguments OutOfFuel {A}.
Arguments Done {A} _.
Arguments World {W} _ _ _.
Arguments w_st {W} _.
Arguments w_js {W} _.
Arguments w_log {W} _.

(** ** The specification: queues as lists of jobs *)

Record job := Job { j_callback : Z; j_u : Z; j_argc : Z; j_kind : mt_kind; j_argv : list Z }.
Record immediate_job := ImmediateJob { ij_callback : Z; ij_id : Z; ij_active : bool }.
Record spec (W : Type) := Spec { s_ticks : list job; s_tasks : list job; s_immediates : list immediate_job; s_next_id : Z; s_triggers : gset Z; s_js : W; s_log : list (js_call * list Z) }.
Arguments Spec {W} _ _ _ _ _ _ _.
Arguments s_ticks {W} _.
Arguments s_tasks {W} _.
Arguments s_immediates {W} _.
Arguments s_next_id {W} _.
Arguments s_triggers {W} _.
Arguments s_js {W} _.
Arguments s_log {W} _.
Definition callback_job (callback : Z) (args : list Z) : job := Job callback js_mkundef (if (length args =? 0)%nat then 0 else u8 (zlen args)) MT_CALLBACK args.
(** The values of a job: all of them, and those its count of arguments tells of,
    which are the ones the job is called with. *)
Definition job_values (j : job) : list Z := j_callback j :: j_u j :: j_argv j.
Definition counted_values (j : job) : list Z := j_callback j :: j_u j :: take (Z.to_nat (j_argc j)) (j_argv j).

Section SpecDefs.
Context {W : Type} (has_data : Z -> bool) (vm : js_call -> W -> option Z * W * list request).

Definition values_by (f : job -> list Z) (s : spec W) : list Z := flat_map f (s_tasks s) ++ flat_map f (s_ticks s) ++ map ij_callback (s_immediates s).
Definition queued_values : spec W -> list Z := values_by job_values.
Definition used_values : spec W -> list Z := values_by counted_values.
Definition add_tick (j : job) (s : spec W) : spec W := Spec (s_ticks s ++ [j]) (s_tasks s) (s_immediates s) (s_next_id s) (s_triggers s) (s_js s) (s_log s).
Definition add_task (j : job) (s : spec W) : spec W := Spec (s_ticks s) (s_tasks s ++ [j]) (s_immediates s) (s_next_id s) (s_triggers s) (s_js s) (s_log s).
Definition put_triggers (t : gset Z) (s : spec W) : spec W := Spec (s_ticks s) (s_tasks s) (s_immediates s) (s_next_id s) t (s_js s) (s_log s).
Definition put_immediates (l : list immediate_job) (n : Z) (s : spec W) : spec W := Spec (s_ticks s) (s_tasks s) l n (s_triggers s) (s_js s) (s_log s).
Fixpoint deactivate (id : Z) (l : list immediate_job) : list immediate_job :=
  match l with
  | [] => []
  | i :: l => if ij_id i =? id then ImmediateJob (ij_callback i) (ij_id i) false :: l else i :: deactivate id l
  end.
Definition spec_request (r : request) (s : spec W) : spec W :=
  match r with
  | RMicrotask callback args => add_task (callback_job callback args) s
  | RTick callback args => add_tick (callback_job callback args) s
  | RThenable then_fn thenable resolve_fn reject_fn => add_task (Job then_fn thenable 2 MT_THENABLE_JOB [resolve_fn; reject_fn]) s
  | RTrigger promise =>
      if has_data promise && bool_decide (promise ∈ s_triggers s) then s
      else add_task (Job js_mkundef promise 0 MT_PROMISE_TRIGGER []) (if has_data promise then put_triggers ({[promise]} ∪ s_triggers s) s else s)
  | RImmediate callback => put_immediates (s_immediates s ++ [ImmediateJob callback (s_next_id s) true]) (to_i32 (s_next_id s + 1)) s
  | RClear id => put_immediates (deactivate id (s_immediates s)) (s_next_id s) s
  end.
Definition spec_call (c : js_call) (s : spec W) : option Z * spec W :=
  let '(thrown, js, rs) := vm c (s_js s) in
  (thrown, fold_left (fun s r => spec_request r s) rs (Spec (s_ticks s) (s_tasks s) (s_immediates s) (s_next_id s) (s_triggers s) js (s_log s ++ [(c, used_values s)]))).
Definition spec_run (j : job) (s : spec W) : spec W :=
  match j_kind j with
  | MT_PROMISE_TRIGGER => (spec_call (Handlers (j_u j)) (if has_data (j_u j) then put_triggers (s_triggers s ∖ {[j_u j]}) s else s)).2
  | kind =>
      let '(thrown, s) := spec_call (CallFn (j_callback j) (match kind with MT_THENABLE_JOB => j_u j | _ => js_mkundef end) (take (Z.to_nat (j_argc j)) (j_argv j))) s in
      match kind, thrown with
      | MT_THENABLE_JOB, Some reject_value => if j_argc j =? 2 then (spec_call (CallFn (rd (j_argv j) 1) js_mkundef [reject_value]) s).2 else s
      | _, _ => s
      end
  end.
(** All next ticks, then all microtasks, with those queued meanwhile, until
    there are none: [n] bounds the jobs and turns. *)
Fixpoint spec_drain (n : nat) (ticking : bool) (s : spec W) : option (spec W) :=
  match n with
  | O => None
  | S n =>
      if ticking then
        match s_ticks s with
        | j :: l => spec_drain n true (spec_run j (Spec l (s_tasks s) (s_immediates s) (s_next_id s) (s_triggers s) (s_js s) (s_log s)))
        | [] => spec_drain n false s
        end
      else
        match s_tasks s, s_ticks s with
        | j :: l, _ => spec_drain n false (spec_run j (Spec (s_ticks s) l (s_immediates s) (s_next_id s) (s_triggers s) (s_js s) (s_log s)))
        | [], _ :: _ => spec_drain n true s
        | [], [] => Some s
        end
  end.
(** Immediates in the order of their ids, each followed by a drain. *)
Fixpoint spec_immediates (n : nat) (s : spec W) : option (spec W) :=
  match n with
  | O => None
  | S m =>
      match s_immediates s with
      | [] => Some s
      | i :: l =>
          let s := put_immediates l (s_next_id s) s in
          if ij_active i then match spec_drain n true (spec_call (CallFn (ij_callback i) js_mkundef []) s).2 with Some s => spec_immediates m s | None => None end
          else spec_immediates m s
      end
  end.
End SpecDefs.

(** ** Chains in memory *)

Section Chains.
Context {E : Type}.
Definition heap_is (m : gmap Z E) (l : list (Z * E)) : Prop := NoDup (map fst l) /\ forall b e, m !! b = Some e <-> (b, e) ∈ l.
Lemma heap_perm m l l' : l ≡ₚ l' -> heap_is m l -> heap_is m l'.
Proof. intros P [H1 H2]. split; [rewrite <- P; exact H1|]. intros b e. rewrite H2, P. tauto. Qed.
Lemma heap_get m l b e : heap_is m l -> (b, e) ∈ l -> m !! b = Some e.
Proof. intros [_ H] Hin. apply H, Hin. Qed.
Lemma heap_none m l b : heap_is m l -> m !! b = None -> b ∉ map fst l.
Proof. intros [_ H] Hn Hin. apply list_elem_of_fmap in Hin as ([b' e] & -> & Hin). apply H in Hin. cbn in Hn. congruence. Qed.
Lemma heap_add m l b e : heap_is m l -> m !! b = None -> heap_is (<[b := e]> m) ((b, e) :: l).
Proof.
  intros H Hn. pose proof (heap_none m l b H Hn) as Hb. destruct H as [H1 H2]. split; [constructor; assumption|]. intros x y. rewrite lookup_insert_Some, elem_of_cons, H2. split; [intros [[-> ->]|[_ H]]; auto|]. intros [[= -> ->]|H]; [auto|right]. split; [|exact H]. intros ->. apply Hb, list_elem_of_fmap. exists (x, y). auto.
Qed.
Lemma heap_set m l b e e' : heap_is m ((b, e) :: l) -> heap_is (<[b := e']> m) ((b, e') :: l).
Proof.
  intros [H1 H2]. split; [exact H1|]. cbn in H1. apply NoDup_cons in H1 as [H1 _]. intros x y. rewrite lookup_insert_Some, elem_of_cons, H2, elem_of_cons. split.
  - intros [[-> ->]|[Hne [[= -> ->]|H]]]; auto. contradiction.
  - intros [[= -> ->]|H]; [auto|right]. split; [|auto]. intros ->. apply H1, list_elem_of_fmap. exists (x, y). auto.
Qed.
Lemma heap_del m l b e : heap_is m ((b, e) :: l) -> heap_is (delete b m) l.
Proof.
  intros [H1 H2]. cbn in H1. apply NoDup_cons in H1 as [H1 H3]. split; [exact H3|]. intros x y. rewrite lookup_delete_Some, H2, elem_of_cons. split; [intros [Hne [[= -> ->]|H]]; [contradiction|exact H]|]. intros H. split; [intros ->; apply H1, list_elem_of_fmap; exists (x, y); auto|auto].
Qed.
Lemma heap_size m l : heap_is m l -> size m = length l.
Proof.
  intros [H1 H2]. assert (m = list_to_map l) as ->. { apply map_eq. intros b. apply option_eq. intros e. rewrite H2, elem_of_list_to_map by exact H1. reflexivity. }
  rewrite <- (length_map fst l), <- (size_list_to_set (C := gset Z)) by exact H1. rewrite <- size_dom, dom_list_to_map_L. reflexivity.
Qed.

(** A chain of jobs, each entry with the address of the next. *)
Context {J : Type} (mk : J -> Z -> E).
Definition first_of (l : list (Z * J)) (z : Z) : Z := match l with [] => z | p :: _ => p.1 end.
Definition last_of (l : list (Z * J)) : Z := match last l with Some p => p.1 | None => 0 end.
Fixpoint nodes (l : list (Z * J)) (z : Z) : list (Z * E) := match l with [] => [] | p :: l => (p.1, mk p.2 (first_of l z)) :: nodes l z end.
Lemma chain_app l l' z : nodes (l ++ l') z = nodes l (first_of l' z) ++ nodes l' z.
Proof. induction l as [|p l IH]; [reflexivity|]. cbn. rewrite IH. f_equal. f_equal. f_equal. destruct l; reflexivity. Qed.
Lemma nodes_fst l z : map fst (nodes l z) = map fst l.
Proof. induction l as [|p l IH]; cbn; [|rewrite IH]; reflexivity. Qed.
Lemma last_of_snoc l p : last_of (l ++ [p]) = p.1.
Proof. unfold last_of. rewrite last_snoc. reflexivity. Qed.
(** A new entry at the end of a chain. *)
Lemma chain_push m l rest a j set_next : (forall j x n, set_next (mk j x) n = mk j n) -> heap_is m (nodes l 0 ++ rest) -> Forall (fun p => p.1 <> 0) l -> m !! a = None ->
  match last l with
  | None => heap_is (<[a := mk j 0]> m) (nodes (l ++ [(a, j)]) 0 ++ rest)
  | Some t => exists e, <[a := mk j 0]> m !! t.1 = Some e /\ heap_is (<[t.1 := set_next e a]> (<[a := mk j 0]> m)) (nodes (l ++ [(a, j)]) 0 ++ rest)
  end.
Proof.
  intros Hs H _ Ha. pose proof (heap_add m _ a (mk j 0) H Ha) as Hadd. induction l as [|t l _] using rev_ind; [exact Hadd|]. rewrite last_snoc. destruct t as [t jt]. cbn [fst]. exists (mk jt 0). rewrite <- app_assoc, !chain_app in *. cbn [nodes app first_of fst snd] in *.
  assert (P : (a, mk j 0) :: (nodes l t ++ [(t, mk jt 0)]) ++ rest ≡ₚ (t, mk jt 0) :: (a, mk j 0) :: nodes l t ++ rest) by (rewrite <- app_assoc; cbn [app]; rewrite <- Permutation_middle; apply perm_swap).
  apply (heap_perm _ _ _ P) in Hadd. split; [eapply heap_get; [exact Hadd|left]|]. rewrite Hs. apply heap_set with (e' := mk jt a) in Hadd. eapply heap_perm; [|exact Hadd]. rewrite <- app_assoc. cbn [app]. rewrite <- !Permutation_middle. reflexivity.
Qed.
End Chains.

(** ** The queues in memory *)

Definition mt_node (j : job) (n : Z) : microtask_entry_t := Microtask (j_callback j) (j_u j) n (j_argc j) (j_kind j) (j_argv j).
Definition im_node (i : immediate_job) (n : Z) : immediate_entry_t := Immediate (ij_callback i) (ij_id i) (ij_active i) n.
Definition placed {J} (l : list (Z * J)) : Prop := Forall (fun p => p.1 <> 0) l.

Section Rep.
Context {W : Type} (has_data : Z -> bool) (malloc : timer_state -> Z) (vm : js_call -> W -> option Z * W * list request).

(** [bt] and [bm] are the batches being processed, [cur] and [curi] the entry
    whose job runs. *)
Record rep (cur : list (Z * microtask_entry_t)) (curi : list (Z * immediate_entry_t)) (bt lt bm lm : list (Z * job)) (li : list (Z * immediate_job)) (st : timer_state) (s : spec W) : Prop := Rep {
  r_mts : heap_is (ts_mts st) (nodes mt_node lm 0 ++ nodes mt_node bm 0 ++ nodes mt_node lt 0 ++ nodes mt_node bt 0 ++ cur);
  r_ims : heap_is (ts_ims st) (nodes im_node li 0 ++ curi);
  r_placed : placed lm /\ placed bm /\ placed lt /\ placed bt /\ placed li;
  r_ticks : ts_ticks st = Queue (first_of lt 0) (last_of lt) (first_of bt 0);
  r_tasks : ts_tasks st = Queue (first_of lm 0) (last_of lm) (first_of bm 0);
  r_immediates : ts_immediates st = first_of li 0 /\ ts_immediates_tail st = last_of li;
  r_id : next_immediate_id st = s_next_id s;
  r_triggers : triggers st = s_triggers s;
  r_lists : s_ticks s = map snd (bt ++ lt) /\ s_tasks s = map snd (bm ++ lm) /\ s_immediates s = map snd li }.

Lemma last_of_zero {J} (l : list (Z * J)) : placed l -> last_of l = 0 -> l = [].
Proof. intros H E. destruct l as [|p l _] using rev_ind; [reflexivity|]. rewrite last_of_snoc in E. apply Forall_app in H as [_ H]. apply Forall_cons in H as [H _]. contradiction. Qed.
Lemma first_of_snoc {J} (l : list (Z * J)) p z : first_of (l ++ [p]) z = if (length l =? 0)%nat then p.1 else first_of l z.
Proof. destruct l; reflexivity. Qed.
Lemma first_of_zero {J} (l : list (Z * J)) : placed l -> first_of l 0 = 0 -> l = [].
Proof. intros H E. destruct l as [|p l]; [reflexivity|]. apply Forall_cons in H as [H _]. contradiction. Qed.

(** A job is put at the end of a queue. *)
Lemma push_task cur curi bt lt bm lm li st s a j : rep cur curi bt lt bm lm li st s -> a <> 0 -> ts_mts st !! a = None ->
  exists st', new_microtask TASKS a (mt_node j 0) st = Some st' /\ rep cur curi bt lt bm (lm ++ [(a, j)]) li st' (add_task j s) /\ microtasks_draining st' = microtasks_draining st.
Proof.
  intros [Hm Hi (P1 & P2 & P3 & P4 & P5) Ht Hk Him Hid Htr (L1 & L2 & L3)] Ha Hf. unfold new_microtask. destruct (Z.eqb_spec a 0); [contradiction|]. unfold queue_microtask_entry. cbn [queue_of ts_tasks set_mts ts_mts]. rewrite Hk. cbn [q_tail q_head q_processing].
  pose proof (chain_push mt_node (ts_mts st) lm _ a j mt_set_next (fun _ _ _ => eq_refl) Hm P1 Hf) as C. assert (Q1 : placed (lm ++ [(a, j)])) by (apply Forall_app; split; [exact P1|repeat constructor; exact Ha]).
  assert (Q2 : map snd (bm ++ lm) ++ [j] = map snd (bm ++ lm ++ [(a, j)])) by (rewrite app_assoc, (map_app snd (bm ++ lm)); reflexivity).
  destruct lm as [|t lm' _] using rev_ind.
  - cbn [last] in C. change (last_of (J := job) []) with 0. change (0 =? 0) with true. eexists. split; [reflexivity|]. split; [|reflexivity]. constructor; cbn; auto. rewrite L2, Q2. auto.
  - rewrite last_snoc in C. rewrite last_of_snoc. apply Forall_app in P1 as [_ P1]. apply Forall_cons in P1 as [P1 _]. destruct (Z.eqb_spec t.1 0); [contradiction|]. destruct C as (e & -> & C). eexists. split; [reflexivity|]. split; [|reflexivity]. constructor; cbn [ts_mts ts_ims ts_ticks ts_tasks ts_immediates ts_immediates_tail next_immediate_id triggers set_queue set_mts]; auto.
    + f_equal; [|rewrite last_of_snoc; reflexivity]. destruct lm'; reflexivity.
    + cbn. rewrite L2, Q2. auto.
Qed.
Lemma push_tick cur curi bt lt bm lm li st s a j : rep cur curi bt lt bm lm li st s -> a <> 0 -> ts_mts st !! a = None ->
  exists st', new_microtask TICKS a (mt_node j 0) st = Some st' /\ rep cur curi bt (lt ++ [(a, j)]) bm lm li st' (add_tick j s) /\ microtasks_draining st' = microtasks_draining st.
Proof.
  intros [Hm Hi (P1 & P2 & P3 & P4 & P5) Ht Hk Him Hid Htr (L1 & L2 & L3)] Ha Hf. unfold new_microtask. destruct (Z.eqb_spec a 0); [contradiction|]. unfold queue_microtask_entry. cbn [queue_of ts_ticks set_mts ts_mts]. rewrite Ht. cbn [q_tail q_head q_processing].
  assert (Perm : forall x y z w c : list (Z * microtask_entry_t), x ++ y ++ z ++ w ++ c ≡ₚ z ++ x ++ y ++ w ++ c) by (intros; rewrite !(app_assoc x y); apply Permutation_app_swap_app).
  apply (heap_perm _ _ _ (Perm _ _ _ _ _)) in Hm. pose proof (chain_push mt_node (ts_mts st) lt _ a j mt_set_next (fun _ _ _ => eq_refl) Hm P3 Hf) as C. assert (Q1 : placed (lt ++ [(a, j)])) by (apply Forall_app; split; [exact P3|repeat constructor; exact Ha]).
  assert (Q2 : map snd (bt ++ lt) ++ [j] = map snd (bt ++ lt ++ [(a, j)])) by (rewrite app_assoc, (map_app snd (bt ++ lt)); reflexivity).
  destruct lt as [|t lt' _] using rev_ind.
  - cbn [last] in C. change (last_of (J := job) []) with 0. change (0 =? 0) with true. eexists. split; [reflexivity|]. split; [|reflexivity]. constructor; cbn [ts_mts ts_ims ts_ticks ts_tasks ts_immediates ts_immediates_tail next_immediate_id triggers set_queue set_mts]; auto; [eapply heap_perm; [symmetry; apply Perm|exact C]|cbn; rewrite L1, Q2; auto].
  - rewrite last_snoc in C. rewrite last_of_snoc. apply Forall_app in P3 as [_ P3]. apply Forall_cons in P3 as [P3 _]. destruct (Z.eqb_spec t.1 0); [contradiction|]. destruct C as (e & -> & C). eexists. split; [reflexivity|]. split; [|reflexivity]. constructor; cbn [ts_mts ts_ims ts_ticks ts_tasks ts_immediates ts_immediates_tail next_immediate_id triggers set_queue set_mts]; auto.
    + eapply heap_perm; [symmetry; apply Perm|exact C].
    + f_equal; [|rewrite last_of_snoc; reflexivity]. destruct lt'; reflexivity.
    + cbn. rewrite L1, Q2. auto.
Qed.
Lemma push_immediate cur curi bt lt bm lm li st s a cb : rep cur curi bt lt bm lm li st s -> a <> 0 -> ts_ims st !! a = None ->
  exists st' li', js_set_immediate a cb st = Some st' /\ rep cur curi bt lt bm lm li' st' (put_immediates (s_immediates s ++ [ImmediateJob cb (s_next_id s) true]) (to_i32 (s_next_id s + 1)) s) /\ microtasks_draining st' = microtasks_draining st.
Proof.
  intros [Hm Hi (P1 & P2 & P3 & P4 & P5) Ht Hk [Him1 Him2] Hid Htr (L1 & L2 & L3)] Ha Hf. unfold js_set_immediate. destruct (Z.eqb_spec a 0); [contradiction|]. rewrite Him2. set (j := ImmediateJob cb (s_next_id s) true).
  pose proof (chain_push im_node (ts_ims st) li _ a j im_set_next (fun _ _ _ => eq_refl) Hi P5 Hf) as C. assert (Q1 : placed (li ++ [(a, j)])) by (apply Forall_app; split; [exact P5|repeat constructor; exact Ha]). change (Immediate cb (next_immediate_id st) true 0) with (im_node (ImmediateJob cb (next_immediate_id st) true) 0). rewrite Hid. fold j.
  assert (Q2 : map snd li ++ [j] = map snd (li ++ [(a, j)])) by (rewrite map_app; reflexivity). destruct li as [|t li' _] using rev_ind.
  - cbn [last] in C. change (last_of (J := immediate_job) []) with 0. change (0 =? 0) with true. exists (set_immediates (<[a := im_node j 0]> (ts_ims st)) a a (to_i32 (s_next_id s + 1)) st), [(a, j)]. split; [reflexivity|]. split; [|reflexivity]. constructor; cbn; auto. rewrite L3. auto.
  - rewrite last_snoc in C. rewrite last_of_snoc. apply Forall_app in P5 as [_ P5]. apply Forall_cons in P5 as [P5 _]. destruct (Z.eqb_spec t.1 0); [contradiction|]. destruct C as (e & -> & C). eexists _, ((li' ++ [t]) ++ [(a, j)]). split; [reflexivity|]. split; [|reflexivity]. constructor; cbn [ts_mts ts_ims ts_ticks ts_tasks ts_immediates ts_immediates_tail next_immediate_id triggers set_immediates]; auto.
    + rewrite Him1, last_of_snoc. split; [destruct li'; reflexivity|reflexivity].
    + cbn. rewrite L3, Q2. auto.
Qed.
Lemma cancel_ok li : forall fuel m rest id, heap_is m (nodes im_node li 0 ++ rest) -> placed li -> (length li <= fuel)%nat ->
  exists m' li', clear_from fuel m (first_of li 0) id = Some m' /\ heap_is m' (nodes im_node li' 0 ++ rest) /\ map fst li' = map fst li /\ map snd li' = deactivate id (map snd li).
Proof.
  intros fuel m rest id H Hp. revert rest fuel H. induction li as [|[a i] li IH]; intros rest fuel H Hf; [exists m, []; split; [destruct fuel; reflexivity|auto]|]. destruct fuel as [|fuel]; [cbn in Hf; lia|]. apply Forall_cons in Hp as [Ha Hp]. cbn [clear_from first_of fst nodes map snd deactivate app] in *. destruct (Z.eqb_spec a 0); [contradiction|].
  rewrite (heap_get m _ a _ H) by left. cbn [immediate_id im_node im_next im_callback ij_id]. destruct (Z.eqb_spec (ij_id i) id).
  - exists (<[a := Immediate (ij_callback i) (ij_id i) false (first_of li 0)]> m), ((a, ImmediateJob (ij_callback i) (ij_id i) false) :: li). splits; auto. apply (heap_set _ _ _ _ (im_node (ImmediateJob (ij_callback i) (ij_id i) false) (first_of li 0))) in H. exact H.
  - destruct (IH Hp ((a, im_node i (first_of li 0)) :: rest) fuel) as (m' & li' & -> & H' & Ef & Es); [eapply heap_perm; [|exact H]; rewrite <- Permutation_middle; reflexivity|cbn in Hf; lia|]. exists m', ((a, i) :: li'). splits; [reflexivity| |cbn; rewrite Ef; reflexivity|cbn; rewrite Es; reflexivity].
    cbn [nodes fst snd app]. assert (first_of li' 0 = first_of li 0) as ->. { destruct li, li'; try discriminate; [reflexivity|]. cbn in Ef. injection Ef as E _. exact E. } eapply heap_perm; [|exact H']. rewrite <- Permutation_middle. reflexivity.
Qed.
End Rep.

(** ** Draining follows the specification *)

Section Drain.
Context {W : Type} (has_data : Z -> bool) (malloc : timer_state -> Z) (vm : js_call -> W -> option Z * W * list request).
(** There is memory, and [malloc] gives memory that is not in use. *)
Context (malloc_fresh : forall st, malloc st <> 0 /\ ts_mts st !! malloc st = None /\ ts_ims st !! malloc st = None).

Lemma put_triggers_rep cur curi bt lt bm lm li st (s : spec W) t : rep cur curi bt lt bm lm li st s -> rep cur curi bt lt bm lm li (set_triggers t st) (put_triggers t s).
Proof. intros [H1 H2 H3 H4 H5 H6 H7 H8 H9]. constructor; auto. Qed.
Lemma request_ok cur curi bt lt bm lm li st (s : spec W) r : rep cur curi bt lt bm lm li st s ->
  exists st' lt' lm' li', do_request has_data malloc r st = Some st' /\ rep cur curi bt lt' bm lm' li' st' (spec_request has_data r s) /\ microtasks_draining st' = microtasks_draining st.
Proof using malloc_fresh.
  intros R. destruct (malloc_fresh st) as (M1 & M2 & M3). destruct r as [cb args|cb args|tf th re rj|p|cb|id]; cbn [do_request spec_request].
  - assert (E : queue_microtask_with_args (malloc st) cb args = new_microtask TASKS (malloc st) (mt_node (callback_job cb args) 0)) by (unfold queue_microtask_with_args, queue_microtask, callback_job; destruct args; reflexivity).
    rewrite E. destruct (push_task cur curi bt lt bm lm li st s _ (callback_job cb args) R M1 M2) as (st' & -> & R' & D). eauto 8.
  - assert (E : queue_next_tick_with_args (malloc st) cb args = new_microtask TICKS (malloc st) (mt_node (callback_job cb args) 0)) by (unfold queue_next_tick_with_args, queue_next_tick, callback_job; destruct args; reflexivity).
    rewrite E. destruct (push_tick cur curi bt lt bm lm li st s _ (callback_job cb args) R M1 M2) as (st' & -> & R' & D). eauto 8.
  - destruct (push_task cur curi bt lt bm lm li st s _ (Job tf th 2 MT_THENABLE_JOB [re; rj]) R M1 M2) as (st' & E & R' & D). unfold queue_promise_thenable_job. change (Microtask tf th 0 2 MT_THENABLE_JOB [re; rj]) with (mt_node (Job tf th 2 MT_THENABLE_JOB [re; rj]) 0). rewrite E. eauto 8.
  - unfold queue_promise_trigger, js_mark_promise_trigger_queued. rewrite (r_triggers _ _ _ _ _ _ _ _ _ R). destruct (has_data p); cbn [negb andb].
    + case_bool_decide; [eauto 8|]. apply (put_triggers_rep _ _ _ _ _ _ _ _ _ ({[p]} ∪ s_triggers s)) in R. destruct (Z.eqb_spec (malloc st) 0); [contradiction|]. destruct (push_task _ _ _ _ _ _ _ _ _ (malloc st) (Job js_mkundef p 0 MT_PROMISE_TRIGGER []) R M1 M2) as (st' & E & R' & D).
      change (Microtask js_mkundef p 0 0 MT_PROMISE_TRIGGER []) with (mt_node (Job js_mkundef p 0 MT_PROMISE_TRIGGER []) 0). rewrite E. eauto 8.
    + destruct (Z.eqb_spec (malloc st) 0); [contradiction|]. destruct (push_task _ _ _ _ _ _ _ _ _ (malloc st) (Job js_mkundef p 0 MT_PROMISE_TRIGGER []) R M1 M2) as (st' & E & R' & D). change (Microtask js_mkundef p 0 0 MT_PROMISE_TRIGGER []) with (mt_node (Job js_mkundef p 0 MT_PROMISE_TRIGGER []) 0). rewrite E. eauto 8.
  - destruct (push_immediate cur curi bt lt bm lm li st s _ cb R M1 M3) as (st' & li' & -> & R' & D). eauto 8.
  - pose proof R as [H1 H2 (P1 & P2 & P3 & P4 & P5) H4 H5 [H6 H6'] H7 H8 (L1 & L2 & L3)]. unfold js_clear_immediate. rewrite H6. destruct (cancel_ok li (size (ts_ims st)) (ts_ims st) curi id H2 P5) as (m' & li' & -> & Hh & Ef & Es); [rewrite (heap_size _ _ H2), length_app, <- (length_map fst (nodes im_node li 0)), nodes_fst, length_map; lia|].
    eexists _, lt, lm, li'. split; [reflexivity|]. split; [|reflexivity]. constructor; cbn [ts_mts ts_ims ts_ticks ts_tasks ts_immediates ts_immediates_tail next_immediate_id triggers set_immediates]; auto.
    + splits; auto. unfold placed in *. rewrite <- (Forall_map fst (fun x => x <> 0)) in P5 |- *. rewrite Ef. exact P5.
    + rewrite H6'. split; [destruct li, li'; try discriminate; [reflexivity|]; cbn in Ef; injection Ef as E _; cbn; rewrite E; reflexivity|]. unfold last_of. apply (f_equal last) in Ef. change (map fst li') with (fst <$> li') in Ef. change (map fst li) with (fst <$> li) in Ef. rewrite !fmap_last in Ef. destruct (last li), (last li'); cbn in Ef; congruence.
    + cbn. rewrite L3, Es. auto.
Qed.
Lemma requests_ok rs : forall cur curi bt lt bm lm li st (s : spec W), rep cur curi bt lt bm lm li st s ->
  exists st' lt' lm' li', do_requests has_data malloc rs st = Some st' /\ rep cur curi bt lt' bm lm' li' st' (fold_left (fun s r => spec_request has_data r s) rs s) /\ microtasks_draining st' = microtasks_draining st.
Proof using malloc_fresh.
  induction rs as [|r rs IH]; intros cur curi bt lt bm lm li st s R; cbn [do_requests fold_left]; [eauto 8|]. destruct (request_ok _ _ _ _ _ _ _ _ _ r R) as (st1 & lt1 & lm1 & li1 & -> & R1 & D1). destruct (IH _ _ _ _ _ _ _ _ _ R1) as (st2 & lt2 & lm2 & li2 & -> & R2 & D2). rewrite D1 in D2. eauto 8.
Qed.

(** *** What the collector marks *)

Lemma mark_chain l : forall fuel m L, heap_is m L -> (forall p, p ∈ nodes mt_node l 0 -> p ∈ L) -> placed l -> (length l <= fuel)%nat -> mark_entries fuel m (first_of l 0) = Some (flat_map counted_values (map snd l)).
Proof.
  induction l as [|[a j] l IH]; intros fuel m L H Hin Hp Hf; [destruct fuel; reflexivity|]. destruct fuel as [|fuel]; [cbn in Hf; lia|]. apply Forall_cons in Hp as [Ha Hp]. cbn [mark_entries first_of fst map snd flat_map] in *. destruct (Z.eqb_spec a 0); [contradiction|].
  rewrite (heap_get m L a (mt_node j (first_of l 0)) H) by (apply Hin; left). cbn [mt_next mt_node mt_callback mt_u mt_argc mt_argv]. rewrite (IH fuel m L H); [|intros p Hp'; apply Hin; right; exact Hp'|exact Hp|cbn in Hf; lia]. reflexivity.
Qed.
Lemma mark_immediate_chain l : forall fuel m L, heap_is m L -> (forall p, p ∈ nodes im_node l 0 -> p ∈ L) -> placed l -> (length l <= fuel)%nat -> mark_immediates fuel m (first_of l 0) = Some (map ij_callback (map snd l)).
Proof.
  induction l as [|[a j] l IH]; intros fuel m L H Hin Hp Hf; [destruct fuel; reflexivity|]. destruct fuel as [|fuel]; [cbn in Hf; lia|]. apply Forall_cons in Hp as [Ha Hp]. cbn [mark_immediates first_of fst map snd] in *. destruct (Z.eqb_spec a 0); [contradiction|].
  rewrite (heap_get m L a (im_node j (first_of l 0)) H) by (apply Hin; left). cbn [im_next im_node im_callback]. rewrite (IH fuel m L H); [|intros p Hp'; apply Hin; right; exact Hp'|exact Hp|cbn in Hf; lia]. reflexivity.
Qed.
Lemma nodes_length {E J} (mk : J -> Z -> E) l z : length (nodes mk l z) = length l.
Proof. rewrite <- (length_map fst (nodes mk l z)), nodes_fst, length_map. reflexivity. Qed.
Lemma marks_ok cur curi bt lt bm lm li st (s : spec W) : rep cur curi bt lt bm lm li st s -> exists l, gc_mark_timers st = Some l /\ l ≡ₚ used_values s.
Proof using.
  intros [H1 H2 (P1 & P2 & P3 & P4 & P5) Ht Hk [H6 _] _ _ (L1 & L2 & L3)]. unfold gc_mark_timers. rewrite Ht, Hk, H6. cbn [q_head q_processing].
  assert (M : forall l, placed l -> (forall p, p ∈ nodes mt_node l 0 -> p ∈ nodes mt_node lm 0 ++ nodes mt_node bm 0 ++ nodes mt_node lt 0 ++ nodes mt_node bt 0 ++ cur) -> (length l <= size (ts_mts st))%nat -> mark_entries (size (ts_mts st)) (ts_mts st) (first_of l 0) = Some (flat_map counted_values (map snd l))) by (intros l Hl Hin Hs; eapply mark_chain; eassumption).
  pose proof (heap_size _ _ H1) as S1. pose proof (heap_size _ _ H2) as S2. rewrite !length_app, !nodes_length in S1. rewrite length_app, nodes_length in S2.
  rewrite (M lm), (M bm), (M lt), (M bt) by (auto; try lia; intros p Hp; rewrite !elem_of_app; auto 6). rewrite (mark_immediate_chain li _ _ _ H2); [|intros p Hp; apply elem_of_app; auto|exact P5|lia].
  eexists. split; [reflexivity|]. unfold used_values, values_by. rewrite L1, L2, L3, !map_app, !flat_map_app, <- !app_assoc. rewrite Permutation_app_swap_app. do 2 apply Permutation_app_head. apply Permutation_app_swap_app.
Qed.

(** *** Calls *)

Definition log_ok (c s : js_call * list Z) : Prop := c.1 = s.1 /\ c.2 ≡ₚ s.2.
Definition sim (cur : list (Z * microtask_entry_t)) (curi : list (Z * immediate_entry_t)) (bt bm : list (Z * job)) (drain : bool) (w : world (W := W)) (s : spec W) : Prop :=
  (exists lt lm li, rep cur curi bt lt bm lm li (w_st w) s) /\ w_js w = s_js s /\ Forall2 log_ok (w_log w) (s_log s) /\ microtasks_draining (w_st w) = drain.
Lemma requests_js rs : forall s : spec W, s_js (fold_left (fun s r => spec_request has_data r s) rs s) = s_js s /\ s_log (fold_left (fun s r => spec_request has_data r s) rs s) = s_log s.
Proof.
  induction rs as [|r rs IH]; intros s; [auto|]. cbn [fold_left]. destruct (IH (spec_request has_data r s)) as [-> ->]. destruct r; cbn; auto. destruct (has_data promise); cbn [andb]; [case_bool_decide|]; auto.
Qed.
Lemma call_ok cur curi bt bm d w s c : sim cur curi bt bm d w s -> exists w', run_call has_data malloc vm c w = Some ((spec_call has_data vm c s).1, w') /\ sim cur curi bt bm d w' (spec_call has_data vm c s).2.
Proof using malloc_fresh.
  intros ((lt & lm & li & R) & Hj & Hl & Hd). unfold run_call, spec_call. destruct (marks_ok _ _ _ _ _ _ _ _ _ R) as (l & -> & Hp). rewrite Hj. destruct (vm c (s_js s)) as [[thrown js] rs]. cbn [fst snd].
  assert (R1 : rep cur curi bt lt bm lm li (w_st w) (Spec (s_ticks s) (s_tasks s) (s_immediates s) (s_next_id s) (s_triggers s) js (s_log s ++ [(c, used_values s)]))) by (destruct R as [R1 R2 R3 R4 R5 R6 R7 R8 R9]; constructor; auto).
  destruct (requests_ok rs _ _ _ _ _ _ _ _ _ R1) as (st' & lt' & lm' & li' & -> & R' & D). eexists. split; [reflexivity|]. split; [eauto|]. cbn [w_js w_log w_st].
  destruct (requests_js rs (Spec (s_ticks s) (s_tasks s) (s_immediates s) (s_next_id s) (s_triggers s) js (s_log s ++ [(c, used_values s)]))) as [-> ->]. cbn [s_js s_log]. splits; auto; [apply Forall2_app; [exact Hl|repeat constructor; exact Hp]|rewrite D; exact Hd].
Qed.
Lemma entry_ok cur curi bt bm d w s j n : sim cur curi bt bm d w s -> exists w', process_microtask_entry has_data malloc vm (mt_node j n) w = Some w' /\ sim cur curi bt bm d w' (spec_run has_data vm j s).
Proof using malloc_fresh.
  intros Hs. unfold process_microtask_entry, spec_run. cbn [mt_node mt_kind_of mt_callback mt_u mt_argc mt_argv]. destruct (j_kind j).
  - destruct (call_ok _ _ _ _ _ _ _ (CallFn (j_callback j) js_mkundef (take (Z.to_nat (j_argc j)) (j_argv j))) Hs) as (w' & -> & Hs'). destruct (spec_call _ _ _ s) as [thrown s']. exists w'. split; [reflexivity|exact Hs'].
  - assert (Hs1 : sim cur curi bt bm d (with_st (js_mark_promise_trigger_dequeued has_data (j_u j) (w_st w)) w) (if has_data (j_u j) then put_triggers (s_triggers s ∖ {[j_u j]}) s else s)).
    { destruct Hs as ((lt & lm & li & R) & Hj & Hl & Hd). unfold js_mark_promise_trigger_dequeued. destruct (has_data (j_u j)); cbn [negb]; [|split; [eauto|auto]]. split; [exists lt, lm, li; cbn [w_st with_st]; rewrite (r_triggers _ _ _ _ _ _ _ _ _ R); apply put_triggers_rep, R|auto]. }
    destruct (call_ok _ _ _ _ _ _ _ (Handlers (j_u j)) Hs1) as (w' & -> & Hs'). exists w'. split; [reflexivity|exact Hs'].
  - destruct (call_ok _ _ _ _ _ _ _ (CallFn (j_callback j) (j_u j) (take (Z.to_nat (j_argc j)) (j_argv j))) Hs) as (w' & -> & Hs'). destruct (spec_call _ _ _ s) as [[rv|] s']; cbn [fst snd] in *; [|exists w'; split; [reflexivity|exact Hs']].
    destruct (j_argc j =? 2); [|exists w'; split; [reflexivity|exact Hs']]. destruct (call_ok _ _ _ _ _ _ _ (CallFn (rd (j_argv j) 1) js_mkundef [rv]) Hs') as (w2 & -> & Hs2). exists w2. split; [reflexivity|exact Hs2].
Qed.
(** *** A batch, the queues, and everything queued *)

Definition batch_sim (q : which_queue) (cur : list (Z * microtask_entry_t)) (curi : list (Z * immediate_entry_t)) (b : list (Z * job)) : bool -> world -> spec W -> Prop :=
  match q with TICKS => sim cur curi b [] | TASKS => sim cur curi [] b end.
Definition ticking (q : which_queue) : bool := match q with TICKS => true | TASKS => false end.
Definition jobs_of (q : which_queue) (s : spec W) : list job := match q with TICKS => s_ticks s | TASKS => s_tasks s end.
Definition pop_job (q : which_queue) (s : spec W) : spec W :=
  match q with
  | TICKS => Spec (tail (s_ticks s)) (s_tasks s) (s_immediates s) (s_next_id s) (s_triggers s) (s_js s) (s_log s)
  | TASKS => Spec (s_ticks s) (tail (s_tasks s)) (s_immediates s) (s_next_id s) (s_triggers s) (s_js s) (s_log s)
  end.
Lemma spec_drain_job q n s j l : jobs_of q s = j :: l -> spec_drain has_data vm (S n) (ticking q) s = spec_drain has_data vm n (ticking q) (spec_run has_data vm j (pop_job q s)).
Proof. destruct q; cbn; intros ->; reflexivity. Qed.

Lemma empty_batch q curi d w s : batch_sim q [] curi [] d w s <-> sim [] curi [] [] d w s.
Proof. destruct q; reflexivity. Qed.
(** The first entry of a batch is unlinked, and freed at the end. *)
Lemma unlink_entry_ok q curi a j b d w s : batch_sim q [] curi ((a, j) :: b) d w s ->
  a <> 0 /\ ts_mts (w_st w) !! a = Some (mt_node j (first_of b 0)) /\ (exists l, jobs_of q s = j :: l) /\
  batch_sim q [(a, mt_node j (first_of b 0))] curi b d (with_st (set_processing q (first_of b 0) (w_st w)) w) (pop_job q s).
Proof using.
  destruct q; intros ((lt & lm & li & [H1 H2 (P1 & P2 & P3 & P4 & P5) Ht Hk H6 H7 H8 (L1 & L2 & L3)]) & Hj & Hl & Hd); cbn [nodes fst snd map app] in *.
  - apply Forall_cons in P4 as [Ha P4]. splits; [exact Ha|eapply heap_get; [exact H1|rewrite !elem_of_app, elem_of_cons; auto]|exists (map snd (b ++ lt)); cbn [jobs_of]; exact L1|].
    split; [exists lt, lm, li|auto]. cbn [w_st with_st]. constructor; cbn; rewrite ?Ht; auto; [|rewrite L1; auto].
    eapply heap_perm; [|exact H1]. do 2 apply Permutation_app_head. rewrite app_nil_r. apply Permutation_cons_append.
  - apply Forall_cons in P2 as [Ha P2]. splits; [exact Ha|eapply heap_get; [exact H1|rewrite !elem_of_app, elem_of_cons; auto]|exists (map snd (b ++ lm)); cbn [jobs_of]; exact L2|].
    split; [exists lt, lm, li|auto]. cbn [w_st with_st]. constructor; cbn; rewrite ?Hk; auto; [|rewrite L2; auto].
    eapply heap_perm; [|exact H1]. apply Permutation_app_head. rewrite app_nil_r, Permutation_cons_append, <- app_assoc. reflexivity.
Qed.
Lemma free_ok q curi a e b d w s : batch_sim q [(a, e)] curi b d w s -> batch_sim q [] curi b d (with_st (set_mts (delete a (ts_mts (w_st w))) (w_st w)) w) s.
Proof using.
  assert (F : forall bt lt bm lm li, rep [(a, e)] curi bt lt bm lm li (w_st w) s -> rep [] curi bt lt bm lm li (set_mts (delete a (ts_mts (w_st w))) (w_st w)) s).
  { intros bt lt bm lm li [H1 H2 H3 H4 H5 H6 H7 H8 H9]. constructor; auto. apply (heap_perm _ _ ((a, e) :: nodes mt_node lm 0 ++ nodes mt_node bm 0 ++ nodes mt_node lt 0 ++ nodes mt_node bt 0)) in H1; [|rewrite !app_assoc; symmetry; apply Permutation_cons_append]. rewrite app_nil_r. exact (heap_del _ _ _ _ H1). }
  destruct q; intros ((lt & lm & li & R) & H); (split; [exists lt, lm, li; apply F, R|exact H]).
Qed.
Lemma batch_ok q b : forall fuel curi d w s n r, batch_sim q [] curi b d w s -> spec_drain has_data vm n (ticking q) s = Some r -> (length b <= fuel)%nat ->
  exists n' w' s', n = (length b + n')%nat /\ process_batch has_data malloc vm fuel q (first_of b 0) w = Done w' /\ sim [] curi [] [] d w' s' /\ spec_drain has_data vm n' (ticking q) s' = Some r.
Proof using malloc_fresh.
  induction b as [|[a j] b IH]; intros fuel curi d w s n r Hs Hn Hf; [exists n, w, s; splits; [reflexivity|destruct fuel; reflexivity|apply (empty_batch q), Hs|exact Hn]|].
  destruct (unlink_entry_ok _ _ _ _ _ _ _ _ Hs) as (Ha & Hm & [l Hj] & Hs1). destruct n as [|n]; [discriminate|]. rewrite (spec_drain_job _ _ _ _ _ Hj) in Hn. destruct fuel as [|fuel]; [cbn in Hf; lia|]. cbn [process_batch first_of fst]. destruct (Z.eqb_spec a 0); [contradiction|]. rewrite Hm. cbn [mt_next mt_node].
  assert (E : exists w', process_microtask_entry has_data malloc vm (mt_node j (first_of b 0)) (with_st (set_processing q (first_of b 0) (w_st w)) w) = Some w' /\ batch_sim q [(a, mt_node j (first_of b 0))] curi b d w' (spec_run has_data vm j (pop_job q s))) by (destruct q; apply entry_ok, Hs1).
  destruct E as (w1 & E & Hs2). rewrite E. apply free_ok in Hs2. destruct (IH fuel curi d _ _ n r Hs2 Hn) as (n' & w' & s' & -> & -> & Hs' & Hr); [cbn in Hf; lia|]. exists n', w', s'. auto.
Qed.
Lemma take_batch_ok q curi d w s : sim [] curi [] [] d w s -> exists b, q_head (queue_of q (w_st w)) = first_of b 0 /\ placed b /\ jobs_of q s = map snd b /\ batch_sim q [] curi b d (with_st (take_batch q (w_st w)).2 w) s.
Proof using.
  intros ((lt & lm & li & [H1 H2 (P1 & P2 & P3 & P4 & P5) Ht Hk H6 H7 H8 (L1 & L2 & L3)]) & Hj & Hl & Hd). destruct q.
  - exists lt. cbn [queue_of take_batch snd batch_sim]. rewrite Ht. splits; auto. split; [exists [], lm, li|auto]. cbn [w_st with_st set_queue]. constructor; cbn; auto. rewrite app_nil_r. auto.
  - exists lm. cbn [queue_of take_batch snd batch_sim]. rewrite Hk. splits; auto. split; [exists lt, [], li|auto]. cbn [w_st with_st set_queue]. constructor; cbn; auto. rewrite app_nil_r. auto.
Qed.
Lemma queue_ok q n : forall fuel curi d w s r, (n <= fuel)%nat -> sim [] curi [] [] d w s -> spec_drain has_data vm n (ticking q) s = Some r ->
  exists n' w' s', (n' <= n)%nat /\ drain_queue has_data malloc vm fuel q w = Done w' /\ sim [] curi [] [] d w' s' /\ jobs_of q s' = [] /\ spec_drain has_data vm n' (ticking q) s' = Some r.
Proof using malloc_fresh.
  induction n as [n IH] using lt_wf_ind. intros fuel curi d w s r Hf Hs Hn. destruct (take_batch_ok q _ _ _ _ Hs) as (b & Hb & Pb & Jb & Hs1). destruct b as [|[a j] b].
  - exists n, w, s. splits; auto. destruct fuel; cbn [drain_queue]; rewrite Hb; reflexivity.
  - pose proof Pb as Pa. apply Forall_cons in Pa as [Pa _]. destruct n as [|n]; [discriminate|]. destruct fuel as [|fuel]; [lia|].
    assert (Hlen : (length ((a, j) :: b) <= S fuel)%nat).
    { destruct (batch_ok q _ (length ((a, j) :: b)) _ _ _ _ _ _ Hs1 Hn ltac:(lia)) as (n' & _ & _ & E & _). lia. }
    destruct (batch_ok q _ (S fuel) _ _ _ _ _ _ Hs1 Hn Hlen) as (n1 & w1 & s1 & En & Ep & Hs2 & Hn1). cbn [length] in En.
    destruct (IH n1 ltac:(lia) fuel curi d w1 s1 r ltac:(lia) Hs2 Hn1) as (n' & w' & s' & Hle & Ed & Hs' & Hj & Hr). exists n', w', s'. splits; [lia| |exact Hs'|exact Hj|exact Hr].
    cbn [drain_queue]. rewrite Hb. cbn [first_of fst]. destruct (Z.eqb_spec a 0); [contradiction|]. unfold take_batch in *. cbn [snd] in *. rewrite Hb at 1. cbn [first_of fst] in *. rewrite Ep. exact Ed.
Qed.
Lemma pending_ok cur curi bt bm d w s : sim cur curi bt bm d w s -> bt = [] -> bm = [] -> has_pending_microtasks (w_st w) = negb (length (s_ticks s) =? 0)%nat || negb (length (s_tasks s) =? 0)%nat.
Proof using.
  intros ((lt & lm & li & R) & _) -> ->. destruct R as [_ _ (P1 & _ & P3 & _) Ht Hk _ _ _ (L1 & L2 & _)]. unfold has_pending_microtasks. rewrite Ht, Hk, L1, L2. cbn [q_head app]. f_equal.
  - destruct lt as [|p lt]; [reflexivity|]. apply Forall_cons in P3 as [P3 _]. cbn [first_of]. destruct (Z.eqb_spec p.1 0); [contradiction|reflexivity].
  - destruct lm as [|p lm]; [reflexivity|]. apply Forall_cons in P1 as [P1 _]. cbn [first_of]. destruct (Z.eqb_spec p.1 0); [contradiction|reflexivity].
Qed.
Lemma drain_all_ok n : forall fuel curi d w s r, (n <= fuel)%nat -> sim [] curi [] [] d w s -> spec_drain has_data vm n true s = Some r ->
  exists w', drain_all has_data malloc vm fuel w = Done w' /\ sim [] curi [] [] d w' r /\ s_ticks r = [] /\ s_tasks r = [].
Proof using malloc_fresh.
  induction n as [n IH] using lt_wf_ind. intros fuel curi d w s r Hf Hs Hn. pose proof (pending_ok _ _ _ _ _ _ _ Hs eq_refl eq_refl) as Hp. destruct (has_pending_microtasks (w_st w)) eqn:E.
  - destruct n as [|n]; [discriminate|]. destruct fuel as [|fuel]; [lia|]. cbn [drain_all]. rewrite E. cbn [negb].
    destruct (queue_ok TICKS (S n) (S fuel) _ _ _ _ _ Hf Hs Hn) as (n1 & w1 & s1 & Hn1 & -> & Hs1 & J1 & R1). destruct n1 as [|n1]; [discriminate|]. cbn [ticking spec_drain] in R1. cbn [jobs_of] in J1. rewrite J1 in R1.
    destruct (queue_ok TASKS n1 (S fuel) _ _ _ _ _ ltac:(lia) Hs1 R1) as (n2 & w2 & s2 & Hn2 & -> & Hs2 & J2 & R2). destruct n2 as [|n2]; [discriminate|]. cbn [ticking spec_drain] in R2. cbn [jobs_of] in J2. rewrite J2 in R2.
    destruct (s_ticks s2) as [|j l] eqn:Et; [|apply (IH n2 ltac:(lia) fuel curi d w2 s2 r ltac:(lia) Hs2 R2)]. injection R2 as <-. pose proof (pending_ok _ _ _ _ _ _ _ Hs2 eq_refl eq_refl) as Hp2. rewrite Et, J2 in Hp2. change (has_pending_microtasks (w_st w2) = false) in Hp2. exists w2. splits; auto. destruct fuel; cbn [drain_all]; rewrite Hp2; reflexivity.
  - exists w. destruct (s_ticks s) eqn:E1; [|discriminate]. destruct (s_tasks s) eqn:E2; [|discriminate]. destruct n as [|[|n]]; [discriminate|cbn in Hn; rewrite E1 in Hn; discriminate|]. cbn in Hn. rewrite E1, E2 in Hn. injection Hn as <-. splits; auto. destruct fuel; cbn [drain_all]; rewrite E; reflexivity.
Qed.
Lemma microtasks_ok n fuel curi w s r : (n <= fuel)%nat -> sim [] curi [] [] false w s -> spec_drain has_data vm n true s = Some r ->
  exists w', process_microtasks has_data malloc vm fuel w = Done w' /\ sim [] curi [] [] false w' r /\ s_ticks r = [] /\ s_tasks r = [].
Proof using malloc_fresh.
  intros Hf (R & Hj & Hl & Hd) Hn. unfold process_microtasks. rewrite Hd. assert (Hs : sim [] curi [] [] true (with_st (set_draining true (w_st w)) w) s) by (split; [destruct R as (lt & lm & li & [R1 R2 R3 R4 R5 R6 R7 R8 R9]); exists lt, lm, li; constructor; auto|auto]).
  destruct (drain_all_ok n fuel curi true _ s r Hf Hs Hn) as (w' & -> & ((lt & lm & li & [R1 R2 R3 R4 R5 R6 R7 R8 R9]) & Hj' & Hl' & Hd') & E1 & E2). eexists. split; [reflexivity|]. splits; auto. split; [exists lt, lm, li; constructor; cbn; rewrite ?R4, ?R5; auto|auto].
Qed.

(** *** Immediates *)

(** The first immediate is unlinked, and freed at the end. *)
Lemma immediate_unlink w s : sim [] [] [] [] false w s ->
  match s_immediates s with
  | [] => ts_immediates (w_st w) = 0
  | i :: l => exists a n, a <> 0 /\ ts_immediates (w_st w) = a /\ ts_ims (w_st w) !! a = Some (im_node i n) /\
      sim [] [(a, im_node i n)] [] [] false (with_st (set_immediates (ts_ims (w_st w)) n (if n =? 0 then 0 else ts_immediates_tail (w_st w)) (next_immediate_id (w_st w)) (w_st w)) w) (put_immediates l (s_next_id s) s)
  end.
Proof using.
  intros ((lt & lm & li & [H1 H2 (P1 & P2 & P3 & P4 & P5) Ht Hk [H6 H6'] H7 H8 (L1 & L2 & L3)]) & Hj & Hl & Hd). rewrite L3. destruct li as [|[a i] li]; [exact H6|]. cbn [map snd nodes fst app] in *. apply Forall_cons in P5 as [Ha P5].
  exists a, (first_of li 0). splits; [exact Ha|exact H6|eapply heap_get; [exact H2|left]|]. split; [exists lt, lm, li|auto]. cbn [w_st with_st]. constructor; cbn; auto.
  - eapply heap_perm; [|exact H2]. rewrite app_nil_r. apply Permutation_cons_append.
  - split; [reflexivity|]. rewrite H6'. destruct li as [|p li _] using rev_ind; [reflexivity|]. change ((a, i) :: li ++ [p]) with (((a, i) :: li) ++ [p]). rewrite !last_of_snoc. destruct (Z.eqb_spec (first_of (li ++ [p]) 0) 0) as [E|]; [|reflexivity]. apply first_of_zero in E; [destruct li; discriminate|exact P5].
Qed.
Lemma immediate_free a e w s : sim [] [(a, e)] [] [] false w s ->
  sim [] [] [] [] false (with_st (set_immediates (delete a (ts_ims (w_st w))) (ts_immediates (w_st w)) (ts_immediates_tail (w_st w)) (next_immediate_id (w_st w)) (w_st w)) w) s.
Proof using.
  intros ((lt & lm & li & [H1 H2 H3 H4 H5 H6 H7 H8 H9]) & H). split; [exists lt, lm, li|exact H]. constructor; auto. apply (heap_perm _ _ ((a, e) :: nodes im_node li 0)) in H2; [|symmetry; apply Permutation_cons_append]. cbn [w_st with_st ts_ims set_immediates]. rewrite app_nil_r. exact (heap_del _ _ _ _ H2).
Qed.
Lemma immediates_ok n : forall fuel w s r, (n <= fuel)%nat -> sim [] [] [] [] false w s -> spec_immediates has_data vm n s = Some r ->
  exists w', process_immediates has_data malloc vm fuel w = Done w' /\ sim [] [] [] [] false w' r /\ s_immediates r = [].
Proof using malloc_fresh.
  induction n as [|n IH]; intros fuel w s r Hf Hs Hn; [discriminate|]. destruct fuel as [|fuel]; [lia|]. cbn [spec_immediates process_immediates] in *. pose proof (immediate_unlink _ _ Hs) as U. destruct (s_immediates s) as [|i l] eqn:Ei.
  - rewrite U. change (0 =? 0) with true. injection Hn as <-. eauto.
  - destruct U as (a & m & Ha & -> & -> & Hs1). destruct (Z.eqb_spec a 0); [contradiction|]. cbn [im_active im_node im_next im_callback]. destruct (ij_active i).
    + destruct (call_ok _ _ _ _ _ _ _ (CallFn (ij_callback i) js_mkundef []) Hs1) as (w1 & -> & Hs2). destruct (spec_drain has_data vm (S n) true _) as [s2|] eqn:Es; [|discriminate]. destruct (microtasks_ok (S n) (S fuel) _ _ _ _ Hf Hs2 Es) as (w2 & -> & Hs3 & _). apply (IH fuel _ _ _ ltac:(lia) (immediate_free _ _ _ _ Hs3) Hn).
    + apply (IH fuel _ _ _ ltac:(lia) (immediate_free _ _ _ _ Hs1) Hn).
Qed.
Lemma pending_chain l : forall fuel m L, heap_is m L -> (forall p, p ∈ nodes im_node l 0 -> p ∈ L) -> placed l -> (length l <= fuel)%nat -> pending_from fuel m (first_of l 0) = Some (existsb ij_active (map snd l)).
Proof.
  induction l as [|[a j] l IH]; intros fuel m L H Hin Hp Hf; [destruct fuel; reflexivity|]. destruct fuel as [|fuel]; [cbn in Hf; lia|]. apply Forall_cons in Hp as [Ha Hp]. cbn [pending_from first_of fst map snd existsb] in *. destruct (Z.eqb_spec a 0); [contradiction|].
  rewrite (heap_get m L a (im_node j (first_of l 0)) H) by (apply Hin; left). cbn [im_next im_node im_active]. destruct (ij_active j); [reflexivity|]. apply (IH fuel m L H); [intros p Hp'; apply Hin; right; exact Hp'|exact Hp|cbn in Hf; lia].
Qed.

(** ** What the queues promise *)

(** The program runs calls, queues jobs between them, and drains.  [World] and
    [spec] go together. *)
Inductive in_use : world -> spec W -> Prop :=
| UseStart js : in_use (World timer_state_init js []) (Spec [] [] [] 1 ∅ js [])
| UseRequest w s r st : in_use w s -> do_request has_data malloc r (w_st w) = Some st -> in_use (with_st st w) (spec_request has_data r s)
| UseCall w s c thrown w' : in_use w s -> run_call has_data malloc vm c w = Some (thrown, w') -> in_use w' (spec_call has_data vm c s).2
| UseDrain w s n fuel w' s' : in_use w s -> (n <= fuel)%nat -> spec_drain has_data vm n true s = Some s' -> process_microtasks has_data malloc vm fuel w = Done w' -> in_use w' s'
| UseImmediates w s n fuel w' s' : in_use w s -> (n <= fuel)%nat -> spec_immediates has_data vm n s = Some s' -> process_immediates has_data malloc vm fuel w = Done w' -> in_use w' s'.
Lemma in_use_sim w s : in_use w s -> sim [] [] [] [] false w s.
Proof using malloc_fresh.
  induction 1 as [js|w s r st _ IH E|w s c t w' _ IH E|w s n fuel w' s' _ IH Hn Es E|w s n fuel w' s' _ IH Hn Es E].
  - split; [exists [], [], []|auto]. assert (H0 : forall E, heap_is (∅ : gmap Z E) []) by (split; [constructor|intros b e; rewrite lookup_empty; split; [discriminate|intros H; inversion H]]). constructor; cbn; auto. splits; constructor.
  - destruct IH as ((lt & lm & li & R) & Hj & Hl & Hd). destruct (request_ok _ _ _ _ _ _ _ _ _ r R) as (st' & lt' & lm' & li' & E' & R' & D). rewrite E in E'. injection E' as <-. destruct (requests_js [r] s) as [J1 J2]. cbn [fold_left] in J1, J2. split; [eauto|]. rewrite J1, J2. cbn [w_st with_st w_js w_log]. rewrite D. auto.
  - destruct (call_ok _ _ _ _ _ _ _ c IH) as (w1 & E1 & Hs). rewrite E in E1. injection E1 as _ <-. exact Hs.
  - destruct (microtasks_ok n fuel _ _ _ _ Hn IH Es) as (w1 & E1 & Hs & _). rewrite E in E1. injection E1 as <-. exact Hs.
  - destruct (immediates_ok n fuel _ _ _ Hn IH Es) as (w1 & E1 & Hs & _). rewrite E in E1. injection E1 as <-. exact Hs.
Qed.

(** The count of a job is the number of its arguments, as far as 8 bits tell. *)
Definition counted (j : job) : Prop := j_argc j = u8 (zlen (j_argv j)).
Definition few_arguments (j : job) : Prop := zlen (j_argv j) < 256.
Definition jobs_counted (s : spec W) : Prop := Forall counted (s_ticks s) /\ Forall counted (s_tasks s).

Lemma few_values (l : list job) : Forall counted l -> Forall few_arguments l -> flat_map counted_values l = flat_map job_values l.
Proof using.
  intros Hc Hf. induction Hf as [|j l Hj _ IH]; [reflexivity|]. apply Forall_cons in Hc as [Ej Hc]. cbn [flat_map]. rewrite IH by exact Hc. f_equal.
  unfold counted_values, job_values. unfold few_arguments in Hj. unfold counted in Ej. pose proof (zlen_nonneg (j_argv j)). rewrite Ej, wrap_small by lia.
  unfold zlen. rewrite Nat2Z.id, firstn_all. reflexivity.
Qed.
Lemma few_used s : jobs_counted s -> Forall few_arguments (s_ticks s ++ s_tasks s) -> used_values s = queued_values s.
Proof using.
  intros [H1 H2] Hf. apply Forall_app in Hf as [F1 F2]. unfold used_values, queued_values, values_by. rewrite !few_values by assumption. reflexivity.
Qed.
Lemma callback_counted cb args : counted (callback_job cb args).
Proof using. destruct args; reflexivity. Qed.
Lemma request_counted r s : jobs_counted s -> jobs_counted (spec_request has_data r s).
Proof using.
  assert (Hadd : forall j l, counted j -> Forall counted l -> Forall counted (l ++ [j])) by (intros j l Hj Hl; apply Forall_app; auto).
  intros [H1 H2]. destruct r as [cb args|cb args|tf th re rj|p|cb|id]; cbn [spec_request]; try (split; assumption).
  - split; [exact H1|]. apply Hadd; [apply callback_counted|exact H2].
  - split; [|exact H2]. apply Hadd; [apply callback_counted|exact H1].
  - split; [exact H1|]. apply Hadd; [reflexivity|exact H2].
  - destruct (has_data p); cbn [andb]; [case_bool_decide; [split; assumption|]|]; (split; [exact H1|]); apply Hadd; auto; reflexivity.
Qed.
Lemma requests_counted rs : forall s, jobs_counted s -> jobs_counted (fold_left (fun s r => spec_request has_data r s) rs s).
Proof using. induction rs as [|r rs IH]; intros s Hs; [exact Hs|]. cbn [fold_left]. apply IH, request_counted, Hs. Qed.
Lemma call_counted c s : jobs_counted s -> jobs_counted (spec_call has_data vm c s).2.
Proof using. intros Hs. unfold spec_call. destruct (vm c (s_js s)) as [[t js] rs]. apply requests_counted, Hs. Qed.
Lemma run_counted j s : jobs_counted s -> jobs_counted (spec_run has_data vm j s).
Proof using.
  intros Hs. unfold spec_run. destruct (j_kind j).
  2: { apply call_counted. destruct (has_data (j_u j)); exact Hs. }
  all: match goal with |- context [spec_call has_data vm ?c ?x] => pose proof (call_counted c x Hs) as H; destruct (spec_call has_data vm c x) as [t s1] end; cbn [snd] in H.
  - exact H.
  - destruct t; [|exact H]. destruct (j_argc j =? 2); [apply call_counted|]; exact H.
Qed.
Lemma drain_counted n : forall ticking s s', jobs_counted s -> spec_drain has_data vm n ticking s = Some s' -> jobs_counted s'.
Proof using.
  induction n as [|n IH]; intros ticking s s' [H1 H2] E; cbn [spec_drain] in E; [discriminate|]. destruct ticking.
  - destruct (s_ticks s) as [|j l] eqn:Et; [apply IH in E; [exact E|split; [rewrite Et|]; assumption]|]. apply Forall_cons in H1 as [_ H1].
    apply IH in E; [exact E|]. apply run_counted. split; assumption.
  - destruct (s_tasks s) as [|j l] eqn:Et.
    + assert (Hs : jobs_counted s) by (split; [|rewrite Et]; assumption). destruct (s_ticks s); [injection E as <-; exact Hs|apply IH in E; assumption].
    + apply Forall_cons in H2 as [_ H2]. apply IH in E; [exact E|]. apply run_counted. split; assumption.
Qed.
Lemma immediates_counted n : forall s s', jobs_counted s -> spec_immediates has_data vm n s = Some s' -> jobs_counted s'.
Proof using.
  induction n as [|n IH]; intros s s' Hs E; [discriminate|]. cbn [spec_immediates] in E. destruct (s_immediates s) as [|i l]; [injection E as <-; exact Hs|].
  destruct (ij_active i); [|apply IH in E; [exact E|exact Hs]]. destruct (spec_drain has_data vm (S n) true _) as [s2|] eqn:Ed; [|discriminate].
  apply IH in E; [exact E|]. apply drain_counted in Ed; [exact Ed|]. apply call_counted. exact Hs.
Qed.
Lemma in_use_counted w s : in_use w s -> jobs_counted s.
Proof using.
  induction 1 as [js|w s r st _ IH E|w s c t w' _ IH E|w s n fuel w' s' _ IH Hn Es E|w s n fuel w' s' _ IH Hn Es E].
  - split; constructor.
  - apply request_counted, IH.
  - apply call_counted, IH.
  - eapply drain_counted; eassumption.
  - eapply immediates_counted; eassumption.
Qed.

(** C11: draining runs next ticks and microtasks in the order the lists of the
    specification give: every next tick queued, and those queued meanwhile,
    before any microtask, every microtask before the ticks they queued, each
    queue in order, until both are empty. It makes the same calls with the same
    effects, never follows a pointer to a freed entry, frees every entry, and a
    drain that the specification ends in [n] turns ends. Memory for the entries
    is granted: a job whose entry is refused is silently dropped by the code.
    *)
Theorem drain_order w s n fuel s' : in_use w s -> (n <= fuel)%nat -> spec_drain has_data vm n true s = Some s' ->
  exists w', process_microtasks has_data malloc vm fuel w = Done w' /\ in_use w' s' /\ w_js w' = s_js s' /\ map fst (w_log w') = map fst (s_log s') /\
    ts_mts (w_st w') = ∅ /\ has_pending_microtasks (w_st w') = false /\ microtasks_draining (w_st w') = false.
Proof using malloc_fresh.
  intros Hu Hf Hn. destruct (microtasks_ok n fuel _ _ _ _ Hf (in_use_sim _ _ Hu) Hn) as (w' & E & Hs & E1 & E2). exists w'. pose proof (pending_ok _ _ _ _ _ _ _ Hs eq_refl eq_refl) as Hp. rewrite E1, E2 in Hp. destruct Hs as ((lt & lm & li & R) & Hj & Hl & Hd). splits; auto.
  - eapply UseDrain; eassumption.
  - clear -Hl. induction Hl as [|x y l k [Hxy _] _ IH]; cbn; congruence.
  - destruct R as [[_ R] _ _ _ _ _ _ _ (L1 & L2 & _)]. rewrite E1 in L1. rewrite E2 in L2. destruct lt; [|discriminate]. destruct lm; [|discriminate]. apply map_eq. intros b. rewrite lookup_empty. apply eq_None_not_Some. intros [e He]. apply R in He. inversion He.
Qed.
(** C12: the collector's walk of the queues, between operations and at the
    start of every call a drain makes (when the rest of the batch is queued
    nowhere but in the field for it), follows only live entries and marks
    exactly the callbacks, receivers and promises of the queued jobs and
    immediates and the arguments the jobs will be called with. When every
    queued job has fewer than 256 arguments these are all of them; of a longer
    list the count, which has 8 bits, tells only the first [n mod 256]. No
    request follows a freed entry, and [has_pending_immediates] tells whether
    an immediate is active. Memory for the entries is granted. *)
Theorem marks_queued w s : in_use w s ->
  (exists l, gc_mark_timers (w_st w) = Some l /\ l ≡ₚ used_values s /\
     (Forall few_arguments (s_ticks s ++ s_tasks s) -> l ≡ₚ queued_values s)) /\ Forall2 log_ok (w_log w) (s_log s) /\
  (forall r, is_Some (do_request has_data malloc r (w_st w))) /\ has_pending_immediates (w_st w) = Some (existsb ij_active (s_immediates s)).
Proof using malloc_fresh.
  intros Hu. pose proof (in_use_counted _ _ Hu) as Hc. apply in_use_sim in Hu as ((lt & lm & li & R) & _ & Hl & _). splits; [|exact Hl| |].
  - destruct (marks_ok _ _ _ _ _ _ _ _ _ R) as (l & E & P). exists l. splits; [exact E|exact P|]. intros Hf. rewrite P. rewrite few_used by assumption. reflexivity.
  - intros r. destruct (request_ok _ _ _ _ _ _ _ _ _ r R) as (st' & _ & _ & _ & E & _). rewrite E. eauto.
  - unfold has_pending_immediates. destruct R as [_ H2 (_ & _ & _ & _ & P5) _ _ [H6 _] _ _ (_ & _ & L3)]. rewrite H6, L3. apply (pending_chain _ _ _ _ H2); [rewrite app_nil_r; auto|exact P5|]. rewrite (heap_size _ _ H2), length_app, nodes_length. lia.
Qed.
(** Immediates run in the order they were set, cancelled ones not at all,
    each followed by a drain of ticks and microtasks before the next; those set
    meanwhile run in the same turn, and in the end none is left and every entry
    is freed. *)
Theorem immediates_order w s n fuel s' : in_use w s -> (n <= fuel)%nat -> spec_immediates has_data vm n s = Some s' ->
  exists w', process_immediates has_data malloc vm fuel w = Done w' /\ in_use w' s' /\ w_js w' = s_js s' /\ map fst (w_log w') = map fst (s_log s') /\
    ts_ims (w_st w') = ∅ /\ ts_immediates (w_st w') = 0 /\ ts_immediates_tail (w_st w') = 0.
Proof using malloc_fresh.
  intros Hu Hf Hn. destruct (immediates_ok n fuel _ _ _ Hf (in_use_sim _ _ Hu) Hn) as (w' & E & Hs & E1). exists w'. destruct Hs as ((lt & lm & li & R) & Hj & Hl & Hd). splits; auto; [eapply UseImmediates; eassumption|clear -Hl; induction Hl as [|x y l k [Hxy _] _ IH]; cbn; congruence| | |].
  all: destruct R as [_ [_ R] _ _ _ [H6 H6'] _ _ (_ & _ & L3)]; rewrite E1 in L3; destruct li; [|discriminate]; auto.
  apply map_eq. intros b. rewrite lookup_empty. apply eq_None_not_Some. intros [e He]. apply R in He. inversion He.
Qed.
End Drain.

(** A program that queues a tick, a microtask, a trigger and an immediate, from
    which more are queued, with [malloc] giving the address above all in use. *)
Module Example.
Definition top {E} (m : gmap Z E) : Z := map_fold (fun k _ a => Z.max k a) 0 m.
Definition next_addr (st : timer_state) : Z := Z.max (top (ts_mts st)) (top (ts_ims st)) + 1.
Definition run (c : js_call) (js : list Z) : option Z * list Z * list request :=
  match c with
  | Handlers p => (None, js ++ [p], [])
  | CallFn f _ _ =>
      (if f =? 3 then Some 30 else None, js ++ [f],
       if f =? 1 then [RTick 2 []; RThenable 3 40 41 42; RTrigger 7; RTrigger 7; RImmediate 5; RImmediate 6; RClear 2]
       else if f =? 2 then [RMicrotask 8 [9]] else if f =? 3 then [RTick 4 []] else if f =? 5 then [RMicrotask 10 []; RImmediate 11] else [])
  end.
Definition all_promises (p : Z) : bool := true.
Lemma top_above {E} (m : gmap Z E) : 0 <= top m /\ forall k e, m !! k = Some e -> k <= top m.
Proof.
  unfold top. apply (map_fold_weak_ind (fun r m => 0 <= r /\ forall k (e : E), m !! k = Some e -> k <= r)); [split; [lia|intros k e; rewrite lookup_empty; discriminate]|].
  intros i x m' r _ [H1 H2]. split; [lia|]. intros k e. rewrite lookup_insert_Some. intros [[-> _]|[_ H]]; [lia|]. apply H2 in H. lia.
Qed.
Lemma next_addr_fresh st : next_addr st <> 0 /\ ts_mts st !! next_addr st = None /\ ts_ims st !! next_addr st = None.
Proof.
  destruct (top_above (ts_mts st)) as [A1 A2], (top_above (ts_ims st)) as [B1 B2]. unfold next_addr. splits; [lia| |]; apply eq_None_not_Some; intros [e H]; [apply A2 in H|apply B2 in H]; lia.
Qed.
Definition w0 : world (W := list Z) := World (W := list Z) timer_state_init [] [].
Definition s0 : spec (list Z) := Spec [] [] [] 1 ∅ [] [].
Definition s1 : spec (list Z) := (spec_call all_promises run (CallFn 1 js_mkundef []) s0).2.
Lemma started : exists w1, in_use all_promises next_addr run w1 s1.
Proof.
  destruct (run_call all_promises next_addr run (CallFn 1 js_mkundef []) w0) as [[t w1]|] eqn:E; [|vm_compute in E; discriminate]. exists w1. exact (UseCall _ _ _ w0 s0 _ _ _ (UseStart _ _ _ []) E).
Qed.
Definition s2 : spec (list Z) := match spec_drain all_promises run 20 true s1 with Some s => s | None => s1 end.
Lemma drain_order_witness : exists w w', in_use all_promises next_addr run w s1 /\ process_microtasks all_promises next_addr run 20 w = Done w' /\ w_js w' = [1; 2; 3; 42; 7; 8; 4].
Proof.
  destruct started as [w Hw]. assert (E : spec_drain all_promises run 20 true s1 = Some s2) by (vm_compute; reflexivity).
  destruct (drain_order all_promises next_addr run next_addr_fresh w s1 20 20 s2 Hw (le_n 20) E) as (w' & H1 & _ & H2 & _). exists w, w'. splits; [exact Hw|exact H1|rewrite H2; vm_compute; reflexivity].
Defined.
Lemma marks_queued_witness : exists w l, in_use all_promises next_addr run w s1 /\ gc_mark_timers (w_st w) = Some l /\ 3 ∈ l /\ 42 ∈ l /\ 6 ∈ l.
Proof.
  destruct started as [w Hw]. destruct (marks_queued all_promises next_addr run next_addr_fresh w s1 Hw) as ((l & H1 & H2 & _) & _). exists w, l. splits; auto; rewrite H2; apply (bool_decide_unpack _); vm_compute; exact I.
Defined.
Lemma immediates_order_witness : exists w w', in_use all_promises next_addr run w s1 /\ process_immediates all_promises next_addr run 20 w = Done w' /\ w_js w' = [1; 5; 2; 3; 42; 7; 10; 8; 4; 11].
Proof.
  destruct started as [w Hw]. set (r := match spec_immediates all_promises run 20 s1 with Some s => s | None => s1 end). assert (E : spec_immediates all_promises run 20 s1 = Some r) by (vm_compute; reflexivity).
  destruct (immediates_order all_promises next_addr run next_addr_fresh w s1 20 20 r Hw (le_n 20) E) as (w' & H1 & _ & H2 & _). exists w, w'. splits; [exact Hw|exact H1|rewrite H2; vm_compute; reflexivity].
Defined.
End Example.
