(* ===== verification/Path.v ===== *)
(** * Paths

    [src/src/modules/path.c]: the functions of the path module for both styles.
    Strings are lists of bytes and may hold NULs, which end them for the C
    functions that look for one.  Buffers have the capacity the code computes:
    a write outside is [Overflows]. *)

From S2P Require Import Prelude.

(** ** Results *)

Inductive outcome (A : Type) := Returns (a : A) | Throws (msg : string) | Overflows.
Arguments Returns {A} _.
Arguments Throws {A} _.
Arguments Overflows {A}.
#[global] Instance outcome_bind : MBind outcome := fun A B f m => match m with Returns a => f a | Throws e => Throws e | Overflows => Overflows end.
Definition out_of_memory {A} : outcome A := Throws "Out of memory".
Definition put_bytes (cap : nat) (out bytes : list Z) : outcome (list Z) := if (length out + length bytes <=? cap)%nat then Returns (out ++ bytes) else Overflows.
Definition at_end (out : list Z) : Z := rd out (length out - 1).

(** ** Styles *)

Inductive path_style_t := PATH_STYLE_POSIX | PATH_STYLE_WIN32.
Definition is_win32 (style : path_style_t) : bool := match style with PATH_STYLE_WIN32 => true | _ => false end.
Definition path_is_sep (style : path_style_t) (ch : Z) : bool := if is_win32 style then (ch =? 92) || (ch =? 47) else ch =? 47.
Definition not_sep (style : path_style_t) (ch : Z) : bool := negb (path_is_sep style ch).
Definition path_sep_char (style : path_style_t) : Z := if is_win32 style then 92 else 47.
(** In the C locale. *)
Definition isalpha (c : Z) : bool := ((65 <=? c) && (c <=? 90)) || ((97 <=? c) && (c <=? 122)).
Definition path_has_drive_letter (path : list Z) : bool := (2 <=? length path)%nat && isalpha (rd path 0) && (rd path 1 =? 58).
Definition path_is_absolute_style (style : path_style_t) (path : list Z) : bool :=
  if (length path =? 0)%nat then false
  else if is_win32 style then path_is_sep style (rd path 0) || ((3 <=? length path)%nat && path_has_drive_letter path && path_is_sep style (rd path 2))
  else rd path 0 =? 47.
Definition path_is_drive_relative (style : path_style_t) (path : list Z) : bool := is_win32 style && path_has_drive_letter path && negb ((3 <=? length path)%nat && path_is_sep style (rd path 2)).

(** The length of the first run of bytes with [p]. *)
Fixpoint run_of (p : Z -> bool) (l : list Z) : nat := match l with c :: l => if p c then S (run_of p l) else O | [] => O end.
(** Three rounds are enough: see [unc_root_rounds]. *)
Fixpoint unc_root (rounds : nat) (path : list Z) (i parts : nat) : nat :=
  match rounds with
  | O => 2
  | S rounds =>
      if (i <? length path)%nat then
        let start := (i + run_of (path_is_sep PATH_STYLE_WIN32) (drop i path))%nat in
        let i := (start + run_of (not_sep PATH_STYLE_WIN32) (drop start path))%nat in
        if (i =? start)%nat then unc_root rounds path i parts
        else if (S parts =? 2)%nat then (i + run_of (path_is_sep PATH_STYLE_WIN32) (drop i path))%nat
        else unc_root rounds path i (S parts)
      else 2
  end.
Definition path_root_length (style : path_style_t) (path : list Z) : nat :=
  if (length path =? 0)%nat then 0
  else if negb (is_win32 style) then (if rd path 0 =? 47 then 1 else 0)
  else if (2 <=? length path)%nat && path_is_sep style (rd path 0) && path_is_sep style (rd path 1) then unc_root 3 path 2 0
  else if path_has_drive_letter path then (if (3 <=? length path)%nat && path_is_sep style (rd path 2) then 3 else 2)
  else if path_is_sep style (rd path 0) then 1 else 0.
(** [while (n > root && p(path[n - 1])) n--]. *)
Fixpoint back (p : Z -> bool) (path : list Z) (root n : nat) : nat :=
  match n with O => O | S k => if (root <? n)%nat && p (rd path k) then back p path root k else n end.
Definition path_trimmed_end (style : path_style_t) (path : list Z) : nat := back (path_is_sep style) path (path_root_length style path) (length path).
Definition path_basename_start (style : path_style_t) (path : list Z) : nat :=
  back (not_sep style) path (path_root_length style path) (path_trimmed_end style path).
(** The dot the extension starts with. *)
Fixpoint ext_dot (base : list Z) (i : nat) : option nat :=
  match i with O => None | S k => if negb (rd base k =? 46) then ext_dot base k else if (k =? 0)%nat then None else Some k end.
Definition is_dotdot (seg : list Z) : bool := (length seg =? 2)%nat && (rd seg 0 =? 46) && (rd seg 1 =? 46).
Fixpoint strncmp_eq (n : nat) (s t : list Z) : bool :=
  match n with
  | O => true
  | S n => let a := rd s 0 in if negb (a =? rd t 0) then false else if a =? 0 then true else strncmp_eq n (drop 1 s) (drop 1 t)
  end.

(** The result of [parse], and what [format] finds in its argument: [None] is a
    value that is not a string. *)
Record path_object := PathObject { p_dir : option (list Z); p_root : option (list Z); p_base : option (list Z); p_name : option (list Z); p_ext : option (list Z) }.
Definition PATH_MAX : nat := Z.to_nat 4096.

Section Code.
(** Whether [malloc] gives memory of that size, and the working directory. *)
Context (malloc_ok : Z -> bool) (getcwd : option (list Z)).

Definition malloc (n : nat) : outcome unit := if malloc_ok (Z.of_nat n) then Returns () else out_of_memory.
Definition path_normalize_separators (style : path_style_t) (path : list Z) : outcome (list Z) :=
  _ ← malloc (length path + 1);
  Returns (map (fun c => if is_win32 style && ((c =? 92) || (c =? 47)) then 92 else c) path).

(** ** Normalizing *)

Definition push_segment (cap : nat) (seg : list Z) (segments : list (list Z)) : outcome (list (list Z)) :=
  if (length segments <? cap)%nat then Returns (segments ++ [seg]) else Overflows.
(** [climbs]: a leading [..] stays. *)
Definition add_segment (cap : nat) (climbs : bool) (seg : list Z) (segments : list (list Z)) : outcome (list (list Z)) :=
  if (length seg =? 0)%nat || ((length seg =? 1)%nat && (rd seg 0 =? 46)) then Returns segments
  else if is_dotdot seg then
    if (0 <? length segments)%nat && negb (is_dotdot (nth (length segments - 1) segments [])) then Returns (removelast segments)
    else if climbs then push_segment cap seg segments
    else Returns segments
  else push_segment cap seg segments.
Fixpoint segments_loop (style : path_style_t) (cap : nat) (climbs : bool) (p seg : list Z) (segments : list (list Z)) : outcome (list (list Z)) :=
  match p with
  | [] => add_segment cap climbs seg segments
  | c :: p =>
      if c =? 0 then add_segment cap climbs seg segments
      else if path_is_sep style c then segments ← add_segment cap climbs seg segments; segments_loop style cap climbs p [] segments
      else segments_loop style cap climbs p (seg ++ [c]) segments
  end.
Fixpoint write_segments (sep : Z) (cap : nat) (drive_relative : bool) (root_len : nat) (segments : list (list Z)) (result : list Z) : outcome (list Z) :=
  match segments with
  | [] => Returns result
  | seg :: segments =>
      result ← (if (0 <? length result)%nat && negb (at_end result =? sep) && negb (drive_relative && (length result =? root_len)%nat) then put_bytes cap result [sep] else Returns result);
      result ← put_bytes cap result seg;
      write_segments sep cap drive_relative root_len segments result
  end.
Definition total_length (segments : list (list Z)) : nat := (sum_list (map length segments) + (length segments - 1))%nat.
(** [NULL] is the error that every caller makes of it. *)
Definition normalize_path_full (style : path_style_t) (path : list Z) : outcome (list Z) :=
  if (length path =? 0)%nat then _ ← malloc 2; Returns [46]
  else
    normalized ← path_normalize_separators style path;
    _ ← malloc (length path * 8);
    _ ← malloc (length path * 8);
    let root_len := path_root_length style normalized in
    let drive_relative := path_is_drive_relative style normalized in
    segments ← segments_loop style (length path) ((root_len =? 0)%nat || drive_relative) (drop root_len normalized) [] [];
    let result_len := match (root_len + total_length segments)%nat with O => 1%nat | n => n end in
    _ ← malloc (result_len + 1);
    let sep := path_sep_char style in
    result ← put_bytes (result_len + 1) [] (take root_len normalized);
    result ← write_segments sep (result_len + 1) drive_relative root_len segments result;
    result ← (if (length result =? 0)%nat then put_bytes (result_len + 1) result [46] else Returns result);
    if (root_len <? length path)%nat && path_is_sep style (rd path (length path - 1)) && (0 <? length result)%nat && negb (path_is_sep style (at_end result)) then
      _ ← malloc (length result + 2);
      result' ← put_bytes (length result + 2) result [sep];
      _ ← put_bytes (length result + 2) result' [0];
      Returns result'
    else
      _ ← put_bytes (result_len + 1) result [0];
      Returns result.
(** [strlen] ends the result at a NUL. *)
Definition normalized_string (style : path_style_t) (path : list Z) : outcome (list Z) := result ← normalize_path_full style path; Returns (c_str result).

(** ** The functions of the module *)

Definition with_path {A} (fn : string) (args : list (option (list Z))) (k : list Z -> outcome A) : outcome A :=
  match args with
  | [] => Throws (fn ++ "() requires a path argument")
  | None :: _ => Throws (fn ++ "() path must be a string")
  | Some path :: _ => k path
  end.
Definition builtin_path_basename (style : path_style_t) (args : list (option (list Z))) : outcome (list Z) :=
  with_path "basename" args (fun path =>
    if (length path =? 0)%nat then Returns []
    else
      let stop := path_trimmed_end style path in let start := path_basename_start style path in
      let base := drop start path in let base_len := (stop - start)%nat in
      match args with
      | _ :: Some ext :: _ =>
          if (0 <? length ext)%nat && (length ext <=? base_len)%nat && bool_decide (take (length ext) (drop (base_len - length ext) base) = ext) then Returns (take (base_len - length ext) base)
          else Returns (take base_len base)
      | _ => Returns (take base_len base)
      end).
Definition builtin_path_dirname (style : path_style_t) (args : list (option (list Z))) : outcome (list Z) :=
  with_path "dirname" args (fun path =>
    if (length path =? 0)%nat then Returns [46]
    else
      normalized ← path_normalize_separators style path;
      let root_len := path_root_length style normalized in
      let cut := back (not_sep style) normalized root_len (path_trimmed_end style normalized) in
      let cut := back (path_is_sep style) normalized root_len cut in
      if (cut =? 0)%nat then Returns [46] else Returns (take (if (cut <? root_len)%nat then root_len else cut) normalized)).
Definition builtin_path_extname (style : path_style_t) (args : list (option (list Z))) : outcome (list Z) :=
  with_path "extname" args (fun path =>
    let base := take (path_trimmed_end style path - path_basename_start style path) (drop (path_basename_start style path) path) in
    match ext_dot base (length base) with Some dot => Returns (drop dot base) | None => Returns [] end).
Definition builtin_path_normalize (style : path_style_t) (args : list (option (list Z))) : outcome (list Z) :=
  with_path "normalize" args (fun path => if (length path =? 0)%nat then Returns [46] else normalized_string style path).
Definition builtin_path_isAbsolute (style : path_style_t) (args : list (option (list Z))) : outcome bool :=
  with_path "isAbsolute" args (fun path => Returns (path_is_absolute_style style path)).

Definition valid_segments (args : list (option (list Z))) : list (list Z) := omap (fun a => match a with Some (c :: s) => Some (c :: s) | _ => None end) args.
Fixpoint join_segments (style : path_style_t) (cap : nat) (first : bool) (segments : list (list Z)) (result : list Z) : outcome (list Z) :=
  match segments with
  | [] => Returns result
  | seg :: segments =>
      result ← (if negb first && (0 <? length result)%nat && negb (at_end result =? path_sep_char style) then put_bytes cap result [path_sep_char style] else Returns result);
      let start := if negb first && path_is_sep style (rd seg 0) then 1%nat else 0%nat in
      let seg_len := back (path_is_sep style) seg (start + 1) (length seg) in
      result ← (if (start <? seg_len)%nat then put_bytes cap result (take (seg_len - start) (drop start seg)) else Returns result);
      join_segments style cap false segments result
  end.
Definition builtin_path_join (style : path_style_t) (args : list (option (list Z))) : outcome (list Z) :=
  if (length args =? 0)%nat then Returns [46]
  else
    _ ← malloc (length args * 8);
    _ ← malloc (length args * 8);
    let segments := valid_segments args in
    if (length segments =? 0)%nat then Returns [46]
    else
      let total_len := sum_list (map (fun s => length s + 1)%nat segments) in
      _ ← malloc (total_len + 1);
      result ← join_segments style (total_len + 1) true segments [];
      result ← (if path_is_sep style (at_end (List.last segments [])) && (0 <? length result)%nat && negb (path_is_sep style (at_end result)) then put_bytes (total_len + 1) result [path_sep_char style] else Returns result);
      _ ← put_bytes (total_len + 1) result [0];
      normalized_string style result.

(** [snprintf] of the text into [n] bytes. *)
Definition snprintf (n : nat) (text : list Z) : list Z := take (n - 1) text.
(** The arguments from the last to the first. *)
Fixpoint resolve_loop (style : path_style_t) (args : list (option (list Z))) (drive_prefix : list Z) (joined : option (list Z)) : outcome (list Z * option (list Z) * bool) :=
  match args with
  | [] => Returns (drive_prefix, joined, false)
  | Some (c :: s) :: args =>
      let segment := c :: s in
      let drive := path_is_drive_relative style segment in
      let drive_prefix := if drive && (length drive_prefix =? 0)%nat then [c; 58] else drive_prefix in
      let text := c_str (if drive then drop 2 segment else segment) in
      joined ← match joined with
               | None => _ ← malloc (length text + 1); Returns text
               | Some joined =>
                   let next_len := (length segment - (if drive then 2 else 0) + 1 + length joined + 1)%nat in
                   _ ← malloc next_len; Returns (snprintf next_len (text ++ [path_sep_char style] ++ joined))
               end;
      if path_is_absolute_style style segment then Returns (drive_prefix, Some joined, true) else resolve_loop style args drive_prefix (Some joined)
  | _ :: args => resolve_loop style args drive_prefix joined
  end.
Definition builtin_path_resolve (style : path_style_t) (args : list (option (list Z))) : outcome (list Z) :=
  match getcwd with
  | None => Throws "Failed to get current working directory"
  | Some cwd =>
      cwd_norm ← path_normalize_separators style (c_str cwd);
      '(drive_prefix, joined, saw_absolute) ← resolve_loop style (rev args) [] None;
      joined ← match joined with
               | None =>
                   let size := (length drive_prefix + length cwd_norm + 1)%nat in
                   _ ← malloc size; Returns (snprintf size (drive_prefix ++ cwd_norm))
               | Some joined =>
                   if saw_absolute : bool then Returns joined
                   else
                     let size := (length drive_prefix + length cwd_norm + 1 + length joined + 1)%nat in
                     _ ← malloc size; Returns (snprintf size (drive_prefix ++ cwd_norm ++ [path_sep_char style] ++ joined))
               end;
      normalized_string style joined
  end.

(** ** Relative paths *)

Fixpoint pieces (style : path_style_t) (p seg : list Z) : list (list Z) :=
  let found := if (length seg =? 0)%nat then [] else [seg] in
  match p with
  | [] => found
  | c :: p => if path_is_sep style c then found ++ pieces style p [] else pieces style p (seg ++ [c])
  end.
Definition bytes_equal (style : path_style_t) (n : nat) (a b : list Z) : bool := if is_win32 style then strncasecmp_eq n a b else strncmp_eq n a b.
Fixpoint common_segments (style : path_style_t) (a b : list (list Z)) : nat :=
  match a, b with
  | x :: a, y :: b => if (length x =? length y)%nat && bytes_equal style (length x) x y then S (common_segments style a b) else O
  | _, _ => O
  end.
Fixpoint write_pieces (sep : Z) (cap : nat) (segs : list (list Z)) (result : list Z) : outcome (list Z) :=
  match segs with
  | [] => Returns result
  | seg :: segs =>
      result ← (if (0 <? length result)%nat then put_bytes cap result [sep] else Returns result);
      result ← put_bytes cap result seg;
      write_pieces sep cap segs result
  end.
Definition segments_cap (cap : nat) (segs : list (list Z)) : outcome unit := if (length segs <=? cap)%nat then Returns () else Overflows.
Definition builtin_path_relative (style : path_style_t) (args : list (option (list Z))) : outcome (list Z) :=
  match args with
  | [] | [_] => Throws "relative() requires from and to arguments"
  | None :: _ => Throws "relative() from must be a string"
  | _ :: None :: _ => Throws "relative() to must be a string"
  | Some from :: Some to :: _ =>
      if (length from =? length to)%nat && strncmp_eq (length from) from to then Returns []
      else
        from_norm ← normalized_string style from;
        to_norm ← normalized_string style to;
        let from_root_len := path_root_length style from_norm in
        let to_root_len := path_root_length style to_norm in
        if negb (from_root_len =? to_root_len)%nat || negb (bytes_equal style from_root_len from_norm to_norm) then Returns to_norm
        else
          _ ← malloc (length from_norm * 8); _ ← malloc (length to_norm * 8); _ ← malloc (length from_norm * 8); _ ← malloc (length to_norm * 8);
          let from_segs := pieces style (drop from_root_len from_norm) [] in
          let to_segs := pieces style (drop to_root_len to_norm) [] in
          _ ← segments_cap (length from_norm) from_segs; _ ← segments_cap (length to_norm) to_segs;
          let common := common_segments style from_segs to_segs in
          let result_cap := (length to_norm + (length from_segs - common) * 3 + 2)%nat in
          _ ← malloc result_cap;
          result ← write_pieces (path_sep_char style) result_cap (replicate (length from_segs - common) [46; 46]) [];
          result ← write_pieces (path_sep_char style) result_cap (drop common to_segs) result;
          result ← (if (length result =? 0)%nat then put_bytes result_cap result [46] else Returns result);
          _ ← put_bytes result_cap result [0];
          Returns result
  end.

(** ** Taking apart and putting together *)

Definition builtin_path_parse (style : path_style_t) (args : list (option (list Z))) : outcome path_object :=
  with_path "parse" args (fun path =>
    normalized ← path_normalize_separators style path;
    let root_len := path_root_length style normalized in
    let stop := path_trimmed_end style normalized in
    let start := path_basename_start style normalized in
    let base := take (stop - start) (drop start normalized) in
    let dir := if (start =? 0)%nat then [] else take (back (path_is_sep style) normalized root_len start) normalized in
    let '(name, ext) := match ext_dot base (length base) with Some dot => (take dot base, drop dot base) | None => (base, []) end in
    Returns (PathObject (Some dir) (Some (take root_len normalized)) (Some base) (Some name) (Some ext))).
Definition path_get_nonempty_string (value : option (list Z)) : option (list Z) := match value with Some (c :: s) => Some (c :: s) | _ => None end.
Definition path_append (result : list Z) (str : option (list Z)) : outcome (bool * list Z) :=
  match str with
  | None => Returns (false, result)
  | Some str =>
      if (length str =? 0)%nat || (PATH_MAX - length result <=? length str)%nat then Returns (false, result)
      else result ← put_bytes PATH_MAX result str; Returns (true, result)
  end.
Definition path_append_ext (result : list Z) (ext : option (list Z)) : outcome (list Z) :=
  match ext with
  | None => Returns result
  | Some ext =>
      if (length ext =? 0)%nat then Returns result
      else
        let dot_len := if rd ext 0 =? 46 then 0%nat else 1%nat in
        let remaining := (PATH_MAX - length result)%nat in
        if (remaining <=? dot_len)%nat || (remaining - dot_len <=? length ext)%nat then Returns result
        else
          result ← (if (dot_len =? 0)%nat then Returns result else put_bytes PATH_MAX result [46]);
          '(_, result) ← path_append result (Some ext);
          Returns result
  end.
(** [None]: the argument is no object. *)
Definition builtin_path_format (style : path_style_t) (args : list (option path_object)) : outcome (list Z) :=
  match args with
  | [] => Throws "format() requires a path object argument"
  | None :: _ => Throws "format() argument must be an object"
  | Some obj :: _ =>
      let dir := path_get_nonempty_string (p_dir obj) in
      let append_sep := match dir with Some _ => true | None => false end in
      let dir := match dir with Some d => Some d | None => path_get_nonempty_string (p_root obj) end in
      '(appended, result) ← path_append [] dir;
      result ← (if (appended : bool) && append_sep && negb (at_end result =? path_sep_char style) && (length result <? PATH_MAX - 1)%nat then put_bytes PATH_MAX result [path_sep_char style] else Returns result);
      match path_get_nonempty_string (p_base obj) with
      | Some base => '(_, result) ← path_append result (Some base); Returns result
      | None =>
          '(_, result) ← path_append result (path_get_nonempty_string (p_name obj));
          path_append_ext result (path_get_nonempty_string (p_ext obj))
      end
  end.
End Code.

(** ** No write outside a buffer *)

(** The bytes [segs] take with a separator each. *)
Definition weight (segs : list (list Z)) : nat := sum_list (map (fun s => length s + 1)%nat segs).
Definition nonempty_all (segs : list (list Z)) : Prop := Forall (fun s => s <> []) segs.
Lemma weight_app a b : weight (a ++ b) = (weight a + weight b)%nat.
Proof. unfold weight. induction a as [|s a IH]; cbn; [reflexivity|]. rewrite IH. lia. Qed.
Lemma weight_total segs : total_length segs = (weight segs - 1)%nat.
Proof. unfold total_length, weight. induction segs as [|s segs IH]; [reflexivity|]. cbn in *. destruct segs; cbn in *; lia. Qed.
Lemma weight_count segs : nonempty_all segs -> (2 * length segs <= weight segs)%nat.
Proof. induction 1 as [|s segs Hs H IH]; [cbn; lia|]. unfold weight in *. cbn in *. destruct s; [contradiction|cbn; lia]. Qed.
Lemma removelast_snoc {A} (l : list A) a : removelast (l ++ [a]) = l.
Proof. rewrite removelast_app by discriminate. apply app_nil_r. Qed.
Lemma snoc_inv {A} (l : list A) : l = [] \/ exists l' a, l = l' ++ [a].
Proof. destruct l as [|a l _] using rev_ind; eauto. Qed.
Lemma at_end_snoc l c : at_end (l ++ [c]) = c.
Proof. unfold at_end, rd. rewrite length_app, app_nth2; cbn [length]; [|lia]. replace (length l + 1 - 1 - length l)%nat with 0%nat by lia. reflexivity. Qed.
Lemma put_returns cap out bytes : (length out + length bytes <= cap)%nat -> put_bytes cap out bytes = Returns (out ++ bytes).
Proof. intros H. unfold put_bytes. destruct (Nat.leb_spec (length out + length bytes) cap); [reflexivity|lia]. Qed.

Lemma add_segment_fits cap climbs seg segs : nonempty_all segs -> (weight segs + length seg <= cap)%nat ->
  exists segs', add_segment cap climbs seg segs = Returns segs' /\ nonempty_all segs' /\ (weight segs' <= weight segs + length seg + 1)%nat.
Proof.
  intros Hn Hw. unfold add_segment, push_segment. pose proof (weight_count _ Hn) as Hc.
  assert (Hpush : seg <> [] -> exists segs', (if (length segs <? cap)%nat then Returns (segs ++ [seg]) else Overflows) = Returns segs' /\ nonempty_all segs' /\ (weight segs' <= weight segs + length seg + 1)%nat).
  { intros Hs. destruct (Nat.ltb_spec (length segs) cap); [|destruct seg; [contradiction|cbn in *; lia]]. eexists. split; [reflexivity|]. split; [apply Forall_app; auto|rewrite weight_app; unfold weight at 2; cbn; lia]. }
  destruct (Nat.eqb_spec (length seg) 0); [cbn [orb]; exists segs; splits; auto; lia|]. assert (Hs : seg <> []) by (intros ->; cbn in *; lia). cbn [orb]. destruct ((length seg =? 1)%nat && (rd seg 0 =? 46)); [exists segs; splits; auto; lia|].
  destruct (is_dotdot seg); [|apply Hpush, Hs]. destruct (snoc_inv segs) as [->|(l & a & ->)]; cbn [length]; [change (0 <? 0)%nat with false; cbn [andb]; destruct climbs; [apply Hpush, Hs|exists []; splits; auto; lia]|].
  match goal with |- context[if ?b then Returns _ else _] => destruct b end; [|destruct climbs; [apply Hpush, Hs|eexists; splits; [reflexivity|auto|lia]]].
  rewrite removelast_snoc. apply Forall_app in Hn as [Hn _]. eexists. splits; [reflexivity|exact Hn|]. rewrite weight_app in *. lia.
Qed.
Lemma segments_fit style cap climbs p : forall seg segs, nonempty_all segs -> (weight segs + length seg + length p <= cap)%nat ->
  exists segs', segments_loop style cap climbs p seg segs = Returns segs' /\ nonempty_all segs' /\ (weight segs' <= weight segs + length seg + length p + 1)%nat.
Proof.
  induction p as [|c p IH]; intros seg segs Hn Hw; cbn [segments_loop length] in *.
  - destruct (add_segment_fits cap climbs seg segs Hn ltac:(lia)) as (s & -> & H1 & H2). exists s. splits; auto. lia.
  - destruct (c =? 0); [destruct (add_segment_fits cap climbs seg segs Hn ltac:(lia)) as (s & -> & H1 & H2); exists s; splits; auto; lia|]. destruct (path_is_sep style c).
    + destruct (add_segment_fits cap climbs seg segs Hn ltac:(lia)) as (s & -> & H1 & H2). cbn [mbind outcome_bind]. destruct (IH [] s H1) as (s' & -> & H3 & H4); [cbn; lia|]. exists s'. cbn in *. splits; auto. lia.
    + destruct (IH (seg ++ [c]) segs Hn) as (s' & -> & H3 & H4); [rewrite length_app; cbn; lia|]. rewrite length_app in H4. cbn in H4. exists s'. splits; auto. lia.
Qed.

(** *** Roots *)

Lemma run_le p l : (run_of p l <= length l)%nat.
Proof. induction l as [|c l IH]; cbn; [lia|]. destruct (p c); lia. Qed.
Lemma run_spec p l k : (k < run_of p l)%nat -> p (rd l k) = true.
Proof. revert k. induction l as [|c l IH]; intros k; cbn; [lia|]. destruct (p c) eqn:E; [|lia]. destruct k as [|k]; intros Hk; [exact E|]. apply IH. lia. Qed.
Lemma run_stop p l : (run_of p l < length l)%nat -> p (rd l (run_of p l)) = false.
Proof. induction l as [|c l IH]; cbn; [lia|]. destruct (p c) eqn:E; intros H; [apply IH; lia|exact E]. Qed.
Lemma rd_take_lt l n k : (k < n)%nat -> rd (take n l) k = rd l k.
Proof. unfold rd. revert l k. induction n as [|n IH]; intros l k Hk; [lia|]. destruct l; [reflexivity|]. destruct k; [reflexivity|]. cbn. apply IH. lia. Qed.
Lemma at_end_take l n : (0 < n <= length l)%nat -> at_end (take n l) = rd l (n - 1).
Proof. intros H. unfold at_end. rewrite length_take_le by lia. apply rd_take_lt. lia. Qed.
(** The rounds given to [unc_root] suffice. *)
Definition name_start (path : list Z) (i : nat) : nat := (i + run_of (path_is_sep PATH_STYLE_WIN32) (drop i path))%nat.
Definition name_end (path : list Z) (i : nat) : nat := (name_start path i + run_of (not_sep PATH_STYLE_WIN32) (drop (name_start path i) path))%nat.
Lemma unc_root_step rounds path i parts : unc_root (S rounds) path i parts =
  if (i <? length path)%nat then
    if (name_end path i =? name_start path i)%nat then unc_root rounds path (name_end path i) parts
    else if (S parts =? 2)%nat then name_start path (name_end path i) else unc_root rounds path (name_end path i) (S parts)
  else 2%nat.
Proof. reflexivity. Qed.
Lemma unc_root_done rounds path i parts : (length path <= i)%nat -> unc_root rounds path i parts = 2%nat.
Proof. intros H. destruct rounds; [reflexivity|]. rewrite unc_root_step. destruct (Nat.ltb_spec i (length path)); [lia|reflexivity]. Qed.
Lemma no_name path i : name_end path i = name_start path i -> (length path <= name_end path i)%nat.
Proof.
  intros E. rewrite E. unfold name_end in E. destruct (Nat.le_gt_cases (length path) (name_start path i)) as [|H]; [assumption|].
  pose proof (run_stop (not_sep PATH_STYLE_WIN32) (drop (name_start path i) path)) as H2. rewrite length_drop, rd_drop in H2. replace (run_of _ _) with 0%nat in H2 by lia. specialize (H2 ltac:(lia)). rewrite Nat.add_0_r in H2.
  pose proof (run_stop (path_is_sep PATH_STYLE_WIN32) (drop i path)) as H1. rewrite length_drop, rd_drop in H1. unfold name_start in H, H2. specialize (H1 ltac:(lia)). unfold not_sep in H2. rewrite H1 in H2. discriminate.
Qed.
Lemma unc_root_rounds path more : unc_root (3 + more) path 2 0 = unc_root 3 path 2 0.
Proof.
  change (3 + more)%nat with (S (S (S more))). rewrite (unc_root_step (S (S more))), (unc_root_step 2). destruct (2 <? length path)%nat; [|reflexivity]. destruct (Nat.eqb_spec (name_end path 2) (name_start path 2)) as [E|_]; [rewrite !unc_root_done by apply no_name, E; reflexivity|].
  change (1 =? 2)%nat with false. cbv iota. rewrite (unc_root_step (S more)), (unc_root_step 1). destruct (name_end path 2 <? length path)%nat; [|reflexivity]. match goal with |- context[(?a =? ?b)%nat] => destruct (Nat.eqb_spec a b) as [E|_] end; [rewrite !unc_root_done by apply no_name, E|]; reflexivity.
Qed.
Lemma unc_root_ok path : (2 <= length path)%nat -> path_is_sep PATH_STYLE_WIN32 (rd path 1) = true ->
  let r := unc_root 3 path 2 0 in (2 <= r <= length path)%nat /\ ((r < length path)%nat -> path_is_sep PATH_STYLE_WIN32 (rd path (r - 1)) = true).
Proof.
  intros Hl H1. assert (H2 : (2 <= 2 <= length path)%nat /\ ((2 < length path)%nat -> path_is_sep PATH_STYLE_WIN32 (rd path (2 - 1)) = true)) by (split; [lia|intros _; exact H1]).
  assert (Hn : forall i, (2 <= i)%nat -> (i < length path)%nat -> (2 <= name_start path (name_end path i) <= length path)%nat /\ ((name_start path (name_end path i) < length path)%nat -> path_is_sep PATH_STYLE_WIN32 (rd path (name_start path (name_end path i) - 1)) = true)).
  { intros i Hi Hlt. pose proof (run_le (path_is_sep PATH_STYLE_WIN32) (drop i path)) as L1. rewrite length_drop in L1. pose proof (run_le (not_sep PATH_STYLE_WIN32) (drop (name_start path i) path)) as L2. rewrite length_drop in L2. set (e := name_end path i). assert (He : (2 <= e <= length path)%nat) by (subst e; unfold name_end, name_start in *; lia).
    pose proof (run_le (path_is_sep PATH_STYLE_WIN32) (drop e path)) as L3. rewrite length_drop in L3. split; [unfold name_start; lia|]. intros Hr. unfold name_start in Hr |- *.
    pose proof (run_stop (not_sep PATH_STYLE_WIN32) (drop (name_start path i) path)) as S1. rewrite length_drop, rd_drop in S1. fold (name_end path i) in S1. fold e in S1. specialize (S1 ltac:(unfold e, name_end in *; lia)). unfold not_sep in S1. apply negb_false_iff in S1.
    destruct (run_of (path_is_sep PATH_STYLE_WIN32) (drop e path)) as [|k] eqn:Ek; [pose proof (run_stop (path_is_sep PATH_STYLE_WIN32) (drop e path)) as S2; rewrite Ek, length_drop, rd_drop, Nat.add_0_r, S1 in S2; specialize (S2 ltac:(lia)); discriminate|].
    replace (e + S k - 1)%nat with (e + k)%nat by lia. rewrite <- rd_drop. apply (run_spec _ _ k). lia. }
  cbv zeta. rewrite unc_root_step. destruct (Nat.ltb_spec 2 (length path)); [|exact H2]. destruct (Nat.eqb_spec (name_end path 2) (name_start path 2)) as [E|_]; [rewrite unc_root_done by apply no_name, E; exact H2|].
  change (1 =? 2)%nat with false. cbv iota. rewrite unc_root_step. destruct (Nat.ltb_spec (name_end path 2) (length path)); [|exact H2]. match goal with |- context[(?a =? ?b)%nat] => destruct (Nat.eqb_spec a b) as [E|_] end; [rewrite unc_root_done by apply no_name, E; exact H2|].
  change (2 =? 2)%nat with true. cbv iota. apply Hn; [unfold name_end, name_start; lia|assumption].
Qed.
Lemma root_ok style path : (path_root_length style path <= length path)%nat /\
  ((0 < path_root_length style path < length path)%nat -> path_is_sep style (rd path (path_root_length style path - 1)) = true \/ path_is_drive_relative style path = true).
Proof.
  unfold path_root_length. destruct (Nat.eqb_spec (length path) 0); [split; lia|]. destruct style; cbn [is_win32 negb].
  - destruct (Z.eqb_spec (rd path 0) 47) as [E|]; [|split; lia]. split; [lia|]. intros _. left. cbn. unfold path_is_sep. cbn [is_win32]. rewrite E. reflexivity.
  - destruct (Nat.leb_spec 2 (length path)); cbn [andb].
    + destruct (path_is_sep PATH_STYLE_WIN32 (rd path 0)) eqn:E0; cbn [andb].
      * destruct (path_is_sep PATH_STYLE_WIN32 (rd path 1)) eqn:E1; [destruct (unc_root_ok path ltac:(lia) E1) as [H1 H2]; split; [lia|intros; left; apply H2; lia]|].
        destruct (path_has_drive_letter path) eqn:Ed; [|split; [lia|intros; left; exact E0]]. destruct (Nat.leb_spec 3 (length path)); cbn [andb]; [destruct (path_is_sep PATH_STYLE_WIN32 (rd path 2)) eqn:E2|]; (split; [lia|intros]); [left; exact E2|right; unfold path_is_drive_relative; cbn [is_win32]; rewrite Ed, E2; destruct (3 <=? length path)%nat; reflexivity|lia].
      * destruct (path_has_drive_letter path) eqn:Ed; [|split; lia]. destruct (Nat.leb_spec 3 (length path)); cbn [andb]; [destruct (path_is_sep PATH_STYLE_WIN32 (rd path 2)) eqn:E2|]; (split; [lia|intros]); [left; exact E2|right; unfold path_is_drive_relative; cbn [is_win32]; rewrite Ed, E2; destruct (3 <=? length path)%nat; reflexivity|lia].
    + unfold path_has_drive_letter. destruct (Nat.leb_spec 2 (length path)); [lia|]. cbn [andb]. destruct (path_is_sep PATH_STYLE_WIN32 (rd path 0)); split; lia.
Qed.

(** *** Writing *)

Definition safe {A} (m : outcome A) : Prop := m <> Overflows.
Lemma safe_bind {A B} (m : outcome A) (f : A -> outcome B) : safe m -> (forall a, m = Returns a -> safe (f a)) -> safe (m ≫= f).
Proof. intros Hm Hf. destruct m; cbn; [apply Hf; reflexivity|discriminate|contradiction]. Qed.
Lemma safe_returns {A} (a : A) : safe (Returns a).
Proof. discriminate. Qed.
Lemma safe_throws {A} e : safe (Throws (A := A) e).
Proof. discriminate. Qed.
Lemma safe_malloc ok n : safe (malloc ok n).
Proof. unfold malloc. destruct (ok _); discriminate. Qed.
Lemma malloc_returns ok n u : malloc ok n = Returns u -> ok (Z.of_nat n) = true.
Proof. unfold malloc. destruct (ok _); [reflexivity|discriminate]. Qed.
Lemma safe_put cap out bytes : (length out + length bytes <= cap)%nat -> safe (put_bytes cap out bytes).
Proof. intros H. rewrite put_returns by exact H. discriminate. Qed.
Lemma safe_fits cap segs : (length segs <= cap)%nat -> safe (segments_cap cap segs).
Proof. intros H. unfold segments_cap. destruct (Nat.leb_spec (length segs) cap); [discriminate|lia]. Qed.
#[local] Hint Resolve safe_returns safe_throws safe_malloc safe_put safe_fits : fant.

Lemma write_more sep cap drive root segs : forall result, (length result + weight segs <= cap)%nat ->
  exists out, write_segments sep cap drive root segs result = Returns out /\ (length out <= length result + weight segs)%nat.
Proof.
  induction segs as [|s segs IH]; intros result H; cbn [write_segments]; [exists result; split; [reflexivity|lia]|]. unfold weight in *. cbn in H. fold (weight segs) in *.
  assert (E : forall r, (length r <= length result + 1)%nat -> exists out, (result ← put_bytes cap r s; write_segments sep cap drive root segs result) = Returns out /\ (length out <= length result + sum_list (map (fun s => length s + 1)%nat (s :: segs)))%nat).
  { intros r Hr. rewrite put_returns by lia. cbn [mbind outcome_bind]. destruct (IH (r ++ s)) as (out & -> & Ho); [rewrite length_app; lia|]. exists out. split; [reflexivity|]. rewrite length_app in Ho. cbn. fold (weight segs). lia. }
  match goal with |- context[if ?b then _ else _] => destruct b end; [rewrite put_returns by (cbn; lia)|]; cbn [mbind outcome_bind]; apply E; rewrite ?length_app; cbn; lia.
Qed.
Lemma write_first sep cap drive root segs result : result = [] \/ at_end result = sep \/ (drive = true /\ length result = root) -> (length result + (weight segs - 1) <= cap)%nat ->
  exists out, write_segments sep cap drive root segs result = Returns out /\ (length out <= length result + (weight segs - 1))%nat.
Proof.
  intros H Hw. destruct segs as [|s segs]; [exists result; split; [reflexivity|lia]|]. cbn [write_segments].
  assert (E : (0 <? length result)%nat && negb (at_end result =? sep) && negb (drive && (length result =? root)%nat) = false).
  { destruct H as [->|[->|[-> ->]]]; [reflexivity|rewrite Z.eqb_refl; cbn [negb]; rewrite andb_false_r; reflexivity|rewrite Nat.eqb_refl, andb_false_r; reflexivity]. }
  rewrite E. cbn [mbind outcome_bind]. unfold weight in *. cbn in *. fold (weight segs) in *. rewrite put_returns by lia. cbn [mbind outcome_bind]. destruct (write_more sep cap drive root segs (result ++ s)) as (out & -> & Ho); [rewrite length_app; lia|]. rewrite length_app in Ho. exists out. split; [reflexivity|lia].
Qed.
Section Safe.
Context (malloc_ok : Z -> bool) (getcwd : option (list Z)).

Definition normal_seps (style : path_style_t) (path : list Z) : list Z := map (fun c => if is_win32 style && ((c =? 92) || (c =? 47)) then 92 else c) path.
Lemma normal_seps_length style path : length (normal_seps style path) = length path.
Proof. apply length_map. Qed.
Lemma normal_seps_sep style path k : (k < length path)%nat -> path_is_sep style (rd (normal_seps style path) k) = true -> rd (normal_seps style path) k = path_sep_char style.
Proof.
  unfold normal_seps, rd, path_sep_char, path_is_sep. revert k. induction path as [|c path IH]; cbn [length map]; intros k Hk; [lia|]. destruct k as [|k]; cbn [nth]; [|intros H; apply IH; [lia|exact H]].
  destruct style; cbn [is_win32 andb]; [intros H; apply Z.eqb_eq in H; exact H|]. destruct ((c =? 92) || (c =? 47)) eqn:E; [reflexivity|rewrite E; discriminate].
Qed.
Lemma separators_returns style path n : path_normalize_separators malloc_ok style path = Returns n -> n = normal_seps style path.
Proof. unfold path_normalize_separators, malloc. destruct (malloc_ok _); cbn; [intros [= <-]; reflexivity|discriminate]. Qed.
Lemma safe_separators style path : safe (path_normalize_separators malloc_ok style path).
Proof. unfold path_normalize_separators. apply safe_bind; auto with fant. Qed.
#[local] Hint Resolve safe_separators : fant.

Lemma normalize_safe style path : safe (normalize_path_full malloc_ok style path).
Proof.
  unfold normalize_path_full. destruct (Nat.eqb_spec (length path) 0); [apply safe_bind; auto with fant|]. apply safe_bind; [auto with fant|]. intros nz Hn. apply separators_returns in Hn as ->. do 2 (apply safe_bind; [auto with fant|]; intros _ _).
  set (nz := normal_seps style path). set (root := path_root_length style nz). set (drive := path_is_drive_relative style nz). destruct (root_ok style nz) as [R1 R2]. fold root in R1, R2. fold drive in R2. unfold nz in R1, R2. rewrite normal_seps_length in R1, R2. fold nz in R2.
  destruct (segments_fit style (length path) ((root =? 0)%nat || drive) (drop root nz) [] []) as (segs & Es & Hs & Hw); [constructor|rewrite length_drop; unfold nz; rewrite normal_seps_length; cbn; lia|]. rewrite Es. cbn [mbind outcome_bind]. rewrite weight_total. rewrite length_drop in Hw. unfold nz in Hw. rewrite normal_seps_length in Hw. cbn [length] in Hw. change (weight []) with 0%nat in Hw.
  set (cap := match (root + (weight segs - 1))%nat with O => 1%nat | n => n end). assert (Hcap : (root + (weight segs - 1) <= cap)%nat /\ (1 <= cap)%nat) by (subst cap; destruct (root + (weight segs - 1))%nat; lia).
  apply safe_bind; [auto with fant|]. intros _ _. assert (Lt : length (take root nz) = root) by (apply length_take_le; unfold nz; rewrite normal_seps_length; lia). rewrite put_returns by (rewrite Lt; cbn; lia). cbn [mbind outcome_bind app].
  assert (Hfirst : exists out, write_segments (path_sep_char style) (cap + 1) drive root segs (take root nz) = Returns out /\ (length out <= root + (weight segs - 1))%nat).
  { destruct segs as [|s segs]; [eexists; split; [reflexivity|lia]|]. assert (Hlt : (root < length path)%nat). { pose proof (weight_count _ Hs) as Hc. cbn [length] in Hc. lia. }
    destruct (write_first (path_sep_char style) (cap + 1) drive root (s :: segs) (take root nz)) as (out & E & Ho); [|rewrite Lt; lia|exists out; rewrite Lt in Ho; auto].
    destruct (Nat.eqb_spec root 0) as [E0|]; [left; rewrite E0; reflexivity|]. destruct R2 as [R2|R2]; [lia| |auto]. right. left. rewrite at_end_take by (unfold nz; rewrite normal_seps_length; lia). apply normal_seps_sep; [lia|exact R2]. }
  destruct Hfirst as (out & -> & Ho). cbn [mbind outcome_bind]. apply safe_bind; [destruct (Nat.eqb_spec (length out) 0); [apply safe_put; cbn; lia|auto with fant]|]. intros out' Eo. assert (Ho' : (length out' <= cap)%nat).
  { destruct (Nat.eqb_spec (length out) 0) as [E0|]; [rewrite put_returns in Eo by (cbn; lia); injection Eo as <-; rewrite length_app; cbn; lia|injection Eo as <-; lia]. }
  match goal with |- context[if ?b then _ else _] => destruct b end; [apply safe_bind; [auto with fant|]; intros _ _; rewrite put_returns by (cbn; lia); cbn [mbind outcome_bind]; rewrite put_returns by (rewrite length_app; cbn; lia)|rewrite put_returns by (cbn; lia)]; discriminate.
Qed.
Lemma normalized_safe style path : safe (normalized_string malloc_ok style path).
Proof. unfold normalized_string. apply safe_bind; [apply normalize_safe|auto with fant]. Qed.
#[local] Hint Resolve normalized_safe : fant.

Lemma back_le p path root n : (back p path root n <= n)%nat.
Proof. induction n as [|n IH]; cbn [back]; [lia|]. destruct (_ && _); lia. Qed.
Lemma join_fits style cap segs : forall (first : bool) result, ((if first then length result + 1 else length result) + weight segs <= cap)%nat -> (first = true -> result = []) ->
  exists out, join_segments style cap first segs result = Returns out /\ (length out + (if (first : bool) && negb (length segs =? 0)%nat then 1 else 0) <= length result + weight segs)%nat.
Proof.
  induction segs as [|s segs IH]; intros first result H Hf; cbn [join_segments length]; [exists result; split; [reflexivity|rewrite andb_false_r; lia]|]. unfold weight in *. cbn in H. fold (weight segs) in *.
  assert (E : forall r, (length r <= length result + (if first then 0 else 1))%nat -> exists out, (r2 ← (if ((if negb first && path_is_sep style (rd s 0) then 1 else 0) <? back (path_is_sep style) s ((if negb first && path_is_sep style (rd s 0) then 1 else 0) + 1) (length s))%nat then put_bytes cap r (take (back (path_is_sep style) s ((if negb first && path_is_sep style (rd s 0) then 1 else 0) + 1) (length s) - (if negb first && path_is_sep style (rd s 0) then 1 else 0)) (drop (if negb first && path_is_sep style (rd s 0) then 1 else 0) s)) else Returns r); join_segments style cap false segs r2) = Returns out /\ (length out + (if first then 1 else 0) <= length result + (length s + 1 + weight segs))%nat).
  { intros r Hr. set (start := if negb first && path_is_sep style (rd s 0) then 1%nat else 0%nat). set (n := back (path_is_sep style) s (start + 1) (length s)). pose proof (back_le (path_is_sep style) s (start + 1) (length s)) as Hb. fold n in Hb.
    assert (G : exists r2, (if (start <? n)%nat then put_bytes cap r (take (n - start) (drop start s)) else Returns r) = Returns r2 /\ (length r2 <= length r + length s)%nat).
    { destruct (start <? n)%nat; [|exists r; split; [reflexivity|lia]]. assert (Hl : (length (take (n - start) (drop start s)) <= length s)%nat) by (rewrite length_take, length_drop; lia). rewrite put_returns by (destruct first; lia). eexists. split; [reflexivity|]. rewrite length_app. lia. }
    destruct G as (r2 & -> & Hr2). cbn [mbind outcome_bind]. destruct (IH false r2) as (out & -> & Ho); [destruct first; lia|discriminate|]. exists out. split; [reflexivity|]. cbn in Ho. destruct first; lia. }
  assert (E2 : negb (S (length segs) =? 0)%nat = true) by reflexivity. rewrite E2, andb_true_r. destruct first; cbn [negb andb].
  - cbn [mbind outcome_bind]. apply E. lia.
  - match goal with |- context[if ?b then put_bytes cap result _ else _] => destruct b end; [rewrite put_returns by (cbn; lia)|]; cbn [mbind outcome_bind]; apply E; rewrite ?length_app; cbn; lia.
Qed.
Lemma join_safe style args : safe (builtin_path_join malloc_ok style args).
Proof.
  unfold builtin_path_join. destruct (length args =? 0)%nat; [auto with fant|]. do 2 (apply safe_bind; [auto with fant|]; intros _ _). destruct (Nat.eqb_spec (length (valid_segments args)) 0) as [|Hn]; [auto with fant|]. set (segs := valid_segments args) in *. fold (weight segs). apply safe_bind; [auto with fant|]. intros _ _.
  destruct (join_fits style (weight segs + 1) segs true []) as (out & -> & Ho); [cbn; lia|reflexivity|]. cbn [mbind outcome_bind]. destruct (Nat.eqb_spec (length segs) 0); [contradiction|]. cbn in Ho.
  apply safe_bind; [match goal with |- context[if ?b then _ else _] => destruct b end; [apply safe_put; cbn; lia|auto with fant]|]. intros r Er. apply safe_bind; [apply safe_put|intros; auto with fant].
  match goal with H : context[if ?b then _ else _] |- _ => destruct b end; [rewrite put_returns in Er by (cbn; lia)|]; injection Er as <-; rewrite ?length_app; cbn; lia.
Qed.
Lemma resolve_loop_safe style args : forall drive joined, safe (resolve_loop malloc_ok style args drive joined).
Proof.
  induction args as [|[[|c s]|] args IH]; intros drive joined; cbn [resolve_loop]; [auto with fant|apply IH| |apply IH]. apply safe_bind; [destruct joined; apply safe_bind; auto with fant|]. intros j _. destruct (path_is_absolute_style style (c :: s)); [auto with fant|apply IH].
Qed.
Lemma resolve_safe style args : safe (builtin_path_resolve malloc_ok getcwd style args).
Proof.
  unfold builtin_path_resolve. destruct getcwd as [cwd|]; [|auto with fant]. apply safe_bind; [auto with fant|]. intros n _. apply safe_bind; [apply resolve_loop_safe|]. intros [[dp j] saw] _. apply safe_bind; [|auto with fant]. destruct j as [j|]; [destruct saw; [auto with fant|]|]; apply safe_bind; auto with fant.
Qed.
Lemma pieces_weight style p : forall seg, (weight (pieces style p seg) <= length seg + length p + 1)%nat.
Proof.
  assert (F : forall seg rest, (weight ((if (length seg =? 0)%nat then [] else [seg]) ++ rest) <= length seg + 1 + weight rest)%nat) by (intros seg rest; rewrite weight_app; destruct (length seg =? 0)%nat; unfold weight; cbn; lia).
  induction p as [|c p IH]; intros seg; cbn [pieces]; [specialize (F seg []); rewrite app_nil_r in F; cbn in *; lia|]. destruct (path_is_sep style c); [specialize (F seg (pieces style p [])); specialize (IH []); cbn in *; lia|specialize (IH (seg ++ [c])); rewrite length_app in IH; cbn in *; lia].
Qed.
Lemma pieces_nonempty style p : forall seg, nonempty_all (pieces style p seg).
Proof.
  assert (F : forall seg : list Z, nonempty_all (if (length seg =? 0)%nat then [] else [seg])) by (intros seg; destruct seg; cbn; repeat constructor; discriminate). induction p as [|c p IH]; intros seg; cbn [pieces]; [apply F|]. destruct (path_is_sep style c); [apply Forall_app; split; [apply F|apply IH]|apply IH].
Qed.
Lemma pieces_fit sep cap segs : forall result, (length result + weight segs <= cap)%nat -> exists out, write_pieces sep cap segs result = Returns out /\ (length out <= length result + weight segs)%nat.
Proof.
  induction segs as [|s segs IH]; intros result H; cbn [write_pieces]; [exists result; split; [reflexivity|lia]|]. unfold weight in *. cbn in *. fold (weight segs) in *. destruct (0 <? length result)%nat; [rewrite put_returns by (cbn; lia)|]; cbn [mbind outcome_bind]; (rewrite put_returns by (rewrite ?length_app; cbn; lia)); cbn [mbind outcome_bind];
    match goal with |- context[write_pieces _ _ _ ?r] => destruct (IH r) as (out & -> & Ho) end; try (rewrite !length_app in *; cbn in *; lia); exists out; (split; [reflexivity|]); rewrite !length_app in Ho; cbn in Ho; lia.
Qed.
Lemma weight_drop n segs : (weight (drop n segs) <= weight segs)%nat.
Proof. rewrite <- (take_drop n segs) at 2. rewrite weight_app. lia. Qed.
Lemma weight_dots k : weight (replicate k [46; 46]) = (3 * k)%nat.
Proof. unfold weight. induction k as [|k IH]; cbn in *; lia. Qed.
Lemma relative_safe style args : safe (builtin_path_relative malloc_ok style args).
Proof.
  destruct args as [|[from|] [|[to|] args]]; cbn [builtin_path_relative]; auto with fant. match goal with |- context[if ?b then _ else _] => destruct b end; [auto with fant|]. apply safe_bind; [auto with fant|]. intros fn _. apply safe_bind; [auto with fant|]. intros tn _. match goal with |- context[if ?b then _ else _] => destruct b end; [auto with fant|].
  set (fs := pieces style (drop (path_root_length style fn) fn) []). set (ts := pieces style (drop (path_root_length style tn) tn) []). do 4 (apply safe_bind; [auto with fant|]; intros _ _).
  assert (Hf : (2 * length fs <= length fn + 1)%nat) by (etransitivity; [apply weight_count, pieces_nonempty|]; etransitivity; [apply pieces_weight|rewrite length_drop; cbn; lia]). assert (Ht : (weight ts <= length tn + 1)%nat) by (etransitivity; [apply pieces_weight|rewrite length_drop; cbn; lia]).
  assert (Ht2 : (2 * length ts <= length tn + 1)%nat) by (etransitivity; [apply weight_count, pieces_nonempty|exact Ht]). apply safe_bind; [apply safe_fits; lia|]. intros _ _. apply safe_bind; [apply safe_fits; lia|]. intros _ _. apply safe_bind; [auto with fant|]. intros _ _.
  set (cap := (length tn + (length fs - common_segments style fs ts) * 3 + 2)%nat). pose proof (weight_drop (common_segments style fs ts) ts) as Hd.
  destruct (pieces_fit (path_sep_char style) cap (replicate (length fs - common_segments style fs ts) [46; 46]) []) as (o1 & -> & H1); [rewrite weight_dots; cbn; lia|]. rewrite weight_dots in H1. cbn [mbind outcome_bind length] in *.
  destruct (pieces_fit (path_sep_char style) cap (drop (common_segments style fs ts) ts) o1) as (o2 & -> & H2); [lia|]. cbn [mbind outcome_bind]. apply safe_bind; [destruct (Nat.eqb_spec (length o2) 0); [apply safe_put; cbn; lia|auto with fant]|]. intros o3 E3. apply safe_bind; [apply safe_put|auto with fant].
  destruct (Nat.eqb_spec (length o2) 0); [rewrite put_returns in E3 by (cbn; lia)|]; injection E3 as <-; rewrite ?length_app; cbn; lia.
Qed.
Lemma append_safe result str : safe (path_append result str).
Proof.
  unfold path_append. destruct str as [str|]; [|auto with fant]. destruct (Nat.eqb_spec (length str) 0); cbn [orb]; [auto with fant|]. destruct (Nat.leb_spec (PATH_MAX - length result) (length str)); [auto with fant|]. apply safe_bind; [apply safe_put; lia|auto with fant].
Qed.
Lemma append_ext_safe result ext : safe (path_append_ext result ext).
Proof.
  unfold path_append_ext. destruct ext as [ext|]; [|auto with fant]. destruct (length ext =? 0)%nat; [auto with fant|]. cbv zeta. set (dot := if rd ext 0 =? 46 then 0%nat else 1%nat). destruct (Nat.leb_spec (PATH_MAX - length result) dot); cbn [orb]; [auto with fant|]. destruct (_ <=? length ext)%nat; [auto with fant|].
  apply safe_bind; [destruct (Nat.eqb_spec dot 0); [auto with fant|apply safe_put; cbn; lia]|]. intros r _. apply safe_bind; [apply append_safe|]. intros [b r2] _. auto with fant.
Qed.
Lemma format_safe style args : safe (builtin_path_format style args).
Proof.
  destruct args as [|[obj|] args]; cbn [builtin_path_format]; auto with fant. apply safe_bind; [apply append_safe|]. intros [b r] _. apply safe_bind; [match goal with |- context[if ?b then _ else _] => destruct b eqn:E end; [|auto with fant]; apply andb_true_iff in E as [_ E]; apply Nat.ltb_lt in E; apply safe_put; cbn; lia|]. intros r2 _.
  destruct (path_get_nonempty_string (p_base obj)); apply safe_bind; try apply append_safe; intros [b2 r3] _; [auto with fant|apply append_ext_safe].
Qed.
Lemma with_path_safe {A} fn args (k : list Z -> outcome A) : (forall path, safe (k path)) -> safe (with_path fn args k).
Proof. intros H. destruct args as [|[path|] args]; cbn; auto with fant. Qed.

(** C31: No function of the path module writes outside the buffers it makes or
    the one it has on the stack, in either style, whatever bytes the arguments
    have and whichever allocations fail. *)
Theorem path_buffers_fit style args objects :
  safe (builtin_path_normalize malloc_ok style args) /\ safe (builtin_path_join malloc_ok style args) /\ safe (builtin_path_resolve malloc_ok getcwd style args) /\
  safe (builtin_path_relative malloc_ok style args) /\ safe (builtin_path_dirname malloc_ok style args) /\ safe (builtin_path_parse malloc_ok style args) /\ safe (builtin_path_format style objects).
Proof.
  splits; [|apply join_safe|apply resolve_safe|apply relative_safe| | |apply format_safe]; apply with_path_safe; intros path.
  - destruct (length path =? 0)%nat; auto with fant.
  - destruct (length path =? 0)%nat; [auto with fant|]. apply safe_bind; [auto with fant|]. intros n _. cbv zeta. destruct (_ =? 0)%nat; auto with fant.
  - apply safe_bind; [auto with fant|]. intros n _. cbv zeta. destruct (ext_dot _ _); auto with fant.
Qed.
End Safe.

(** ** What POSIX paths mean

    A path leads from a directory, given by the names from it up to the root,
    to another. *)

Fixpoint split_path (p seg : list Z) : list (list Z) :=
  match p with [] => [seg] | c :: p => if c =? 47 then seg :: split_path p [] else split_path p (seg ++ [c]) end.
Definition step_dir (d : list (list Z)) (seg : list Z) : list (list Z) :=
  if (length seg =? 0)%nat || ((length seg =? 1)%nat && (rd seg 0 =? 46)) then d else if is_dotdot seg then tail d else seg :: d.
Definition steps (d : list (list Z)) (p : list Z) : list (list Z) := fold_left step_dir (split_path p []) d.
Definition is_abs (p : list Z) : bool := rd p 0 =? 47.
Definition walk (d : list (list Z)) (p : list Z) : list (list Z) := steps (if is_abs p then [] else d) p.
Definition no_nul (p : list Z) : Prop := Forall (fun c => c <> 0) p.
(** Whether a separator at the end is kept. *)
Definition ends_slash (p : list Z) : bool := (1 <? length p)%nat && (at_end p =? 47).

Definition proper (seg : list Z) : Prop := seg <> [] /\ seg <> [46] /\ seg <> [46; 46] /\ ~ In 47 seg /\ ~ In 0 seg.
Definition plain_seg (seg : list Z) : Prop := ~ In 47 seg /\ ~ In 0 seg.
(** Some steps up, then names: no steps up when the path is absolute. *)
Definition canonical (climbs : bool) (segs : list (list Z)) : Prop := exists k names, segs = replicate k [46; 46] ++ names /\ Forall proper names /\ (climbs = false -> k = 0%nat).
Fixpoint joined (segs : list (list Z)) : list Z := match segs with [] => [] | [s] => s | s :: segs => s ++ 47 :: joined segs end.
Definition rendered (absolute : bool) (segs : list (list Z)) (slash : bool) : list Z :=
  let r := (if absolute then [47] else []) ++ joined segs in
  let r := if (length r =? 0)%nat then [46] else r in
  if slash && negb (at_end r =? 47) then r ++ [47] else r.

Lemma is_dotdot_iff seg : is_dotdot seg = true <-> seg = [46; 46].
Proof.
  unfold is_dotdot. split; [|intros ->; reflexivity]. rewrite !andb_true_iff, Nat.eqb_eq, !Z.eqb_eq. intros [[H1 H2] H3]. destruct seg as [|a [|b [|c seg]]]; try discriminate. cbn in H2, H3. subst. reflexivity.
Qed.
Lemma stays_iff (seg : list Z) : (length seg =? 0)%nat || ((length seg =? 1)%nat && (rd seg 0 =? 46)) = true <-> seg = [] \/ seg = [46].
Proof.
  rewrite orb_true_iff, andb_true_iff, !Nat.eqb_eq, Z.eqb_eq. split; [|intros [H|H]; rewrite H; cbn; auto]. intros [H|[H1 H2]]; [destruct seg; [auto|discriminate]|]. destruct seg as [|a [|b seg]]; try discriminate. cbn in H2. subst. auto.
Qed.
Lemma step_proper d seg : proper seg -> step_dir d seg = seg :: d.
Proof.
  intros (H1 & H2 & H3 & _). unfold step_dir. destruct (_ || _) eqn:E; [apply stays_iff in E as [|]; contradiction|]. destruct (is_dotdot seg) eqn:E2; [apply is_dotdot_iff in E2; contradiction|reflexivity].
Qed.
Lemma fold_proper names : forall d, Forall proper names -> fold_left step_dir names d = rev names ++ d.
Proof. induction names as [|n names IH]; intros d H; [reflexivity|]. apply Forall_cons in H as [H1 H2]. cbn [fold_left rev]. rewrite step_proper, IH by assumption. rewrite <- app_assoc. reflexivity. Qed.
Lemma fold_dots k : forall d, fold_left step_dir (replicate k [46; 46]) d = drop k d.
Proof. induction k as [|k IH]; intros d; [reflexivity|]. cbn [replicate fold_left]. rewrite IH. destruct d; [destruct k; reflexivity|reflexivity]. Qed.
Lemma fold_canonical k names d : Forall proper names -> fold_left step_dir (replicate k [46; 46] ++ names) d = rev names ++ drop k d.
Proof. intros H. rewrite fold_left_app, fold_dots. apply fold_proper, H. Qed.

(** *** Normalizing keeps the meaning *)

Definition add_pure (climbs : bool) (segments : list (list Z)) (seg : list Z) : list (list Z) :=
  if (length seg =? 0)%nat || ((length seg =? 1)%nat && (rd seg 0 =? 46)) then segments
  else if is_dotdot seg then
    if (0 <? length segments)%nat && negb (is_dotdot (nth (length segments - 1) segments [])) then removelast segments
    else if climbs then segments ++ [seg] else segments
  else segments ++ [seg].
Lemma add_segment_pure cap climbs seg segs segs' : add_segment cap climbs seg segs = Returns segs' -> segs' = add_pure climbs segs seg.
Proof.
  unfold add_segment, push_segment, add_pure. repeat match goal with |- context[if ?b then _ else _] => destruct b end; congruence.
Qed.
Lemma loop_pure cap climbs p : forall seg segs segs', no_nul p -> segments_loop PATH_STYLE_POSIX cap climbs p seg segs = Returns segs' -> segs' = fold_left (add_pure climbs) (split_path p seg) segs.
Proof.
  induction p as [|c p IH]; intros seg segs segs' Hn; cbn [segments_loop split_path]; [apply add_segment_pure|]. apply Forall_cons in Hn as [Hc Hn]. destruct (Z.eqb_spec c 0); [contradiction|]. unfold path_is_sep. cbn [is_win32]. destruct (c =? 47); [|apply IH, Hn].
  destruct (add_segment _ _ _ _) as [s1| |] eqn:E; cbn [mbind outcome_bind]; [|discriminate|discriminate]. apply add_segment_pure in E as ->. cbn [fold_left]. apply IH, Hn.
Qed.
Lemma last_split (segs : list (list Z)) s : nth (length (segs ++ [s]) - 1) (segs ++ [s]) [] = s.
Proof. rewrite length_app, app_nth2; cbn [length]; [|lia]. replace (length segs + 1 - 1 - length segs)%nat with 0%nat by lia. reflexivity. Qed.
Lemma replicate_snoc {A} k (x : A) : replicate k x ++ [x] = replicate (S k) x.
Proof. induction k as [|k IH]; [reflexivity|]. cbn in *. rewrite IH. reflexivity. Qed.
Lemma drop_tail {A} k : forall d : list A, drop (S k) d = tail (drop k d).
Proof. induction k as [|k IH]; intros d; [destruct d; reflexivity|]. destruct d as [|x d]; [reflexivity|]. cbn [drop]. rewrite <- IH. reflexivity. Qed.
Lemma add_canonical climbs segs seg : plain_seg seg -> canonical climbs segs ->
  canonical climbs (add_pure climbs segs seg) /\ forall d, (climbs = false -> d = []) -> fold_left step_dir (add_pure climbs segs seg) d = step_dir (fold_left step_dir segs d) seg.
Proof.
  intros Hp (k & names & -> & Hn & Hk). unfold add_pure. unfold step_dir at 2. destruct (_ || _) eqn:E; [split; [exists k, names; auto|reflexivity]|]. destruct (is_dotdot seg) eqn:Ed.
  - apply is_dotdot_iff in Ed as ->. destruct (snoc_inv names) as [->|(l & n & ->)].
    + rewrite app_nil_r. assert (Ec : (0 <? length (replicate k [46%Z; 46%Z]))%nat && negb (is_dotdot (nth (length (replicate k [46%Z; 46%Z]) - 1) (replicate k [46; 46]) [])) = false).
      { destruct k; [reflexivity|]. rewrite <- !replicate_snoc, last_split. cbn. apply andb_false_r. }
      rewrite Ec. destruct climbs; [|rewrite (Hk eq_refl) in *; split; [exists 0%nat, []; auto|intros d Hd; rewrite (Hd eq_refl); reflexivity]]. rewrite replicate_snoc. split; [exists (S k), []; rewrite app_nil_r; splits; auto; discriminate|]. intros d _. rewrite !fold_dots. apply drop_tail.
    + rewrite app_assoc, last_split, length_app. apply Forall_app in Hn as [Hl Hn]. apply Forall_cons in Hn as [Hn _]. destruct (is_dotdot n) eqn:Edn; [apply is_dotdot_iff in Edn; destruct Hn as (_ & _ & Hn & _); contradiction|]. destruct (Nat.ltb_spec 0 (length (replicate k [46; 46] ++ l) + length [n])); [|cbn in *; lia]. cbn [negb andb]. rewrite removelast_snoc. split; [exists k, l; auto|].
      intros d _. rewrite (fold_left_app _ _ [n]). cbn [fold_left]. rewrite (step_proper _ n Hn). reflexivity.
  - assert (Hs : proper seg) by (unfold proper; destruct Hp as [Hp1 Hp2]; splits; auto; intros ->; discriminate). split; [exists k, (names ++ [seg]); rewrite app_assoc; splits; auto; apply Forall_app; auto|]. intros d _. rewrite fold_left_app. cbn [fold_left]. apply step_proper, Hs.
Qed.

(** *** Splitting and joining *)

Lemma split_sep x y : forall acc, split_path (x ++ 47 :: y) acc = split_path x acc ++ split_path y [].
Proof. induction x as [|c x IH]; intros acc; cbn [app split_path]; [change (47 =? 47) with true; reflexivity|]. destruct (c =? 47); [cbn; rewrite IH; reflexivity|apply IH]. Qed.
Lemma split_plain seg : forall acc, ~ In 47 seg -> split_path seg acc = [acc ++ seg].
Proof. induction seg as [|c seg IH]; intros acc H; cbn [split_path]; [rewrite app_nil_r; reflexivity|]. destruct (Z.eqb_spec c 47) as [->|]; [destruct H; left; reflexivity|]. rewrite IH by (intros Hin; apply H; right; exact Hin). rewrite <- app_assoc. reflexivity. Qed.
Lemma split_plain_all p : forall seg, no_nul p -> plain_seg seg -> Forall plain_seg (split_path p seg).
Proof.
  induction p as [|c p IH]; intros seg Hn Hs; cbn [split_path]; [auto|]. apply Forall_cons in Hn as [Hc Hn]. destruct (Z.eqb_spec c 47); [constructor; [exact Hs|apply IH; [exact Hn|split; intros []]]|]. apply IH; [exact Hn|]. destruct Hs as [H1 H2]. split; rewrite in_app_iff; intros [|[|[]]]; auto; contradiction.
Qed.
Lemma steps_sep d x y : steps d (x ++ 47 :: y) = steps (steps d x) y.
Proof. unfold steps. rewrite split_sep, fold_left_app. reflexivity. Qed.
Lemma steps_nil d : steps d [] = d.
Proof. reflexivity. Qed.
Lemma steps_cons_sep d y : steps d (47 :: y) = steps d y.
Proof. apply (steps_sep d []). Qed.
Lemma steps_slash d x : steps d (x ++ [47]) = steps d x.
Proof. apply (steps_sep d x []). Qed.
Lemma steps_plain d seg : ~ In 47 seg -> steps d seg = step_dir d seg.
Proof. intros H. unfold steps. rewrite split_plain by exact H. reflexivity. Qed.
Lemma joined_cons s segs : joined (s :: segs) = s ++ concat (map (cons 47) segs).
Proof. revert s. induction segs as [|t segs IH]; intros s; [cbn; rewrite app_nil_r; reflexivity|]. change (joined (s :: t :: segs)) with (s ++ 47 :: joined (t :: segs)). rewrite IH. reflexivity. Qed.
Lemma steps_joined segs : forall d, Forall (fun s => ~ In 47 s) segs -> steps d (joined segs) = fold_left step_dir segs d.
Proof.
  induction segs as [|s segs IH]; intros d H; [reflexivity|]. apply Forall_cons in H as [H1 H2]. destruct segs as [|t segs]; [apply steps_plain, H1|]. change (joined (s :: t :: segs)) with (s ++ 47 :: joined (t :: segs)). rewrite steps_sep, (steps_plain d s) by exact H1. apply IH, H2.
Qed.
Lemma is_abs_inv p : is_abs p = true -> p = 47 :: drop 1 p.
Proof. unfold is_abs, rd. destruct p; cbn; [discriminate|]. intros H. apply Z.eqb_eq in H as ->. reflexivity. Qed.
Lemma walk_drop d p : walk d p = steps (if is_abs p then [] else d) (drop (if is_abs p then 1 else 0) p).
Proof. unfold walk. destruct (is_abs p) eqn:E; [|reflexivity]. rewrite (is_abs_inv p E) at 1. apply steps_cons_sep. Qed.

Definition reduce (p : list Z) : list (list Z) := fold_left (add_pure (negb (is_abs p))) (split_path (drop (if is_abs p then 1 else 0) p) []) [].
Lemma fold_add climbs l : forall segs, Forall plain_seg l -> canonical climbs segs ->
  canonical climbs (fold_left (add_pure climbs) l segs) /\ forall d, (climbs = false -> d = []) -> fold_left step_dir (fold_left (add_pure climbs) l segs) d = fold_left step_dir l (fold_left step_dir segs d).
Proof.
  induction l as [|s l IH]; intros segs Hl Hc; [auto|]. apply Forall_cons in Hl as [Hs Hl]. cbn [fold_left]. destruct (add_canonical climbs segs s Hs Hc) as [H1 H2]. destruct (IH _ Hl H1) as [H3 H4]. split; [exact H3|]. intros d Hd. rewrite H4, H2 by exact Hd. reflexivity.
Qed.
Lemma no_nul_drop n p : no_nul p -> no_nul (drop n p).
Proof. apply Forall_drop. Qed.
Lemma reduce_ok p : no_nul p -> canonical (negb (is_abs p)) (reduce p) /\ forall d, walk d p = fold_left step_dir (reduce p) (if is_abs p then [] else d).
Proof.
  intros Hn. destruct (fold_add (negb (is_abs p)) (split_path (drop (if is_abs p then 1 else 0) p) []) []) as [H1 H2]; [apply split_plain_all; [apply no_nul_drop, Hn|split; intros []]|exists 0%nat, []; auto|]. split; [exact H1|]. intros d. rewrite walk_drop. unfold reduce. rewrite H2; [reflexivity|]. destruct (is_abs p); [reflexivity|discriminate].
Qed.

(** *** The rendered path *)

Definition seg_ok (s : list Z) : Prop := s <> [] /\ ~ In 47 s /\ ~ In 0 s.
Lemma canonical_ok climbs segs : canonical climbs segs -> Forall seg_ok segs.
Proof.
  intros (k & names & -> & H & _). apply Forall_app. split; [apply Forall_replicate; unfold seg_ok; cbn; splits; [discriminate| |]; intros [|[|[]]]; lia|]. eapply Forall_impl; [exact H|]. intros s (H1 & _ & _ & H2 & H3). split; auto.
Qed.
Lemma seg_ok_nosep segs : Forall seg_ok segs -> Forall (fun s => ~ In 47 s) segs.
Proof. intros H. eapply Forall_impl; [exact H|]. intros s (_ & Hs & _). exact Hs. Qed.
Lemma at_end_app x y : y <> [] -> at_end (x ++ y) = at_end y.
Proof. intros H. destruct (snoc_inv y) as [->|(l & c & ->)]; [contradiction|]. rewrite app_assoc, !at_end_snoc. reflexivity. Qed.
Lemma at_end_in y : y <> [] -> In (at_end y) y.
Proof. intros H. destruct (snoc_inv y) as [->|(l & c & ->)]; [contradiction|]. rewrite at_end_snoc. apply in_app_iff. right. left. reflexivity. Qed.
Lemma seg_end s : seg_ok s -> at_end s <> 47.
Proof. intros (H1 & H2 & _) E. apply H2. rewrite <- E. apply at_end_in, H1. Qed.
Lemma joined_end segs : segs <> [] -> Forall seg_ok segs -> joined segs <> [] /\ at_end (joined segs) <> 47.
Proof.
  intros Hne H. induction segs as [|s segs IH]; [contradiction|]. apply Forall_cons in H as [H1 H2]. destruct segs as [|t segs]; [split; [apply H1|apply seg_end, H1]|]. change (joined (s :: t :: segs)) with (s ++ 47 :: joined (t :: segs)). destruct IH as [I1 I2]; [discriminate|exact H2|]. split; [destruct s; discriminate|]. rewrite (at_end_app s) by discriminate. change (47 :: joined (t :: segs)) with ([47] ++ joined (t :: segs)). rewrite at_end_app by exact I1. exact I2.
Qed.
Lemma joined_nul segs : Forall seg_ok segs -> no_nul (joined segs).
Proof.
  assert (F : forall s, seg_ok s -> no_nul s) by (intros s (_ & _ & H); apply List.Forall_forall; intros c Hc ->; contradiction).
  induction segs as [|s segs IH]; intros H; [constructor|]. apply Forall_cons in H as [H1 H2]. destruct segs as [|t segs]; [apply F, H1|]. change (joined (s :: t :: segs)) with (s ++ 47 :: joined (t :: segs)). apply Forall_app. split; [apply F, H1|constructor; [lia|apply IH, H2]].
Qed.
Definition render0 (absolute : bool) (segs : list (list Z)) : list Z :=
  let r := (if absolute then [47] else []) ++ joined segs in if (length r =? 0)%nat then [46] else r.
Lemma render0_spec a segs : Forall seg_ok segs ->
  render0 a segs <> [] /\ no_nul (render0 a segs) /\ is_abs (render0 a segs) = a /\ (forall d, steps d (render0 a segs) = fold_left step_dir segs d) /\ (at_end (render0 a segs) = 47 <-> render0 a segs = [47]).
Proof.
  intros H. pose proof (joined_nul segs H) as Hnul. pose proof (fun d => steps_joined segs d (seg_ok_nosep _ H)) as Hst. destruct segs as [|s segs].
  { destruct a; (splits; [discriminate|repeat constructor; lia|reflexivity|reflexivity|]); (split; [|discriminate || reflexivity]); [reflexivity|discriminate]. }
  destruct (joined_end (s :: segs)) as [J1 J2]; [discriminate|exact H|]. unfold render0. destruct a; cbn [app].
  - destruct (Nat.eqb_spec (length (47 :: joined (s :: segs))) 0); [discriminate|]. splits; [discriminate|constructor; [lia|exact Hnul]|reflexivity|intros d; rewrite steps_cons_sep; apply Hst|].
    change (47 :: joined (s :: segs)) with ([47] ++ joined (s :: segs)). rewrite at_end_app by exact J1. split; [contradiction|]. intros E. injection E as E. contradiction.
  - destruct (Nat.eqb_spec (length (joined (s :: segs))) 0) as [E|]; [destruct (joined (s :: segs)); [contradiction|discriminate]|]. splits; auto.
    + apply Forall_cons in H as [(H1 & H2 & _) _]. rewrite joined_cons. unfold is_abs, rd. destruct s as [|c s]; [contradiction|]. cbn. apply Z.eqb_neq. intros ->. apply H2. left. reflexivity.
    + split; [contradiction|]. intros E. rewrite E in J2. exfalso. apply J2. reflexivity.
Qed.
Lemma rendered_eq a segs slash : rendered a segs slash = if slash && negb (at_end (render0 a segs) =? 47) then render0 a segs ++ [47] else render0 a segs.
Proof. reflexivity. Qed.
Lemma rendered_spec a segs slash : Forall seg_ok segs -> let q := rendered a segs slash in
  q <> [] /\ no_nul q /\ is_abs q = a /\ (forall d, steps d q = fold_left step_dir segs d) /\ rendered a segs (ends_slash q) = q.
Proof.
  intros H. cbv zeta. destruct (render0_spec a segs H) as (R1 & R2 & R3 & R4 & R5). rewrite (rendered_eq a segs slash). destruct (slash && negb (at_end (render0 a segs) =? 47)) eqn:E.
  - splits; [destruct (render0 a segs); discriminate|apply Forall_app; split; [exact R2|repeat constructor; lia]|destruct (render0 a segs); [contradiction|exact R3]|intros d; rewrite steps_slash; apply R4|]. unfold ends_slash. rewrite at_end_snoc, length_app. destruct (Nat.ltb_spec 1 (length (render0 a segs) + length [47])) as [_|L]; [|destruct (render0 a segs); [contradiction|cbn in L; lia]].
    apply andb_true_iff in E as [_ E]. rewrite rendered_eq, E. reflexivity.
  - splits; auto. rewrite rendered_eq. unfold ends_slash. destruct (Z.eqb_spec (at_end (render0 a segs)) 47) as [E2|]; [|rewrite andb_false_r; reflexivity]. cbn [negb]. rewrite andb_false_r. reflexivity.
Qed.

(** Canonical segments are known by where they lead. *)
Lemma canonical_unique climbs segs segs' : canonical climbs segs -> canonical climbs segs' -> (forall d, (climbs = false -> d = []) -> fold_left step_dir segs d = fold_left step_dir segs' d) -> segs = segs'.
Proof.
  intros (k & names & -> & Hn & Hk) (k' & names' & -> & Hn' & Hk') H. assert (E : names = names').
  { specialize (H [] (fun _ => eq_refl)). rewrite !fold_canonical, !drop_nil, !app_nil_r in H by assumption. apply (f_equal (@rev (list Z))) in H. rewrite !rev_involutive in H. exact H. }
  subst names'. f_equal. f_equal. destruct climbs; [|rewrite Hk, Hk' by reflexivity; reflexivity]. specialize (H (replicate (k + k') []) ltac:(discriminate)). rewrite !fold_canonical in H by assumption. apply app_inv_head, (f_equal length) in H. rewrite !length_drop, length_replicate in H. lia.
Qed.

(** *** The code renders *)

Section Posix.
Context (malloc_ok : Z -> bool) (cwd : list Z).
Context (memory : forall n, malloc_ok n = true).

Definition quiet {A} (m : outcome A) : Prop := forall e, m <> Throws e.
Lemma quiet_bind {A B} (m : outcome A) (f : A -> outcome B) : quiet m -> (forall a, m = Returns a -> quiet (f a)) -> quiet (m ≫= f).
Proof. intros Hm Hf e. destruct m; cbn; [apply Hf; reflexivity|exfalso; exact (Hm msg eq_refl)|discriminate]. Qed.
Lemma quiet_returns {A} (a : A) : quiet (Returns a).
Proof. intros e. discriminate. Qed.
Lemma quiet_malloc n : quiet (malloc malloc_ok n).
Proof using memory. intros e. unfold malloc. rewrite memory. discriminate. Qed.
Lemma quiet_put cap out bytes : quiet (put_bytes cap out bytes).
Proof. intros e. unfold put_bytes. destruct (_ <=? _)%nat; discriminate. Qed.
Lemma quiet_fits cap segs : quiet (segments_cap cap segs).
Proof. intros e. unfold segments_cap. destruct (_ <=? _)%nat; discriminate. Qed.
Lemma quiet_add cap climbs seg segs : quiet (add_segment cap climbs seg segs).
Proof. intros e. unfold add_segment, push_segment. repeat match goal with |- context[if ?b then _ else _] => destruct b end; discriminate. Qed.
#[local] Hint Resolve quiet_returns quiet_malloc quiet_put quiet_fits quiet_add : fant.
Lemma quiet_loop style cap climbs p : forall seg segs, quiet (segments_loop style cap climbs p seg segs).
Proof. induction p as [|c p IH]; intros seg segs; cbn [segments_loop]; [auto with fant|]. destruct (c =? 0); [auto with fant|]. destruct (path_is_sep style c); [apply quiet_bind; auto with fant|apply IH]. Qed.
Lemma quiet_write sep cap drive root segs : forall r, quiet (write_segments sep cap drive root segs r).
Proof. induction segs as [|s segs IH]; intros r; cbn [write_segments]; [auto with fant|]. apply quiet_bind; [match goal with |- context[if ?b then _ else _] => destruct b end; auto with fant|]. intros r2 _. apply quiet_bind; auto with fant. Qed.
Lemma quiet_pieces sep cap segs : forall r, quiet (write_pieces sep cap segs r).
Proof. induction segs as [|s segs IH]; intros r; cbn [write_pieces]; [auto with fant|]. apply quiet_bind; [destruct (0 <? length r)%nat; auto with fant|]. intros r2 _. apply quiet_bind; auto with fant. Qed.
Lemma quiet_join style cap segs : forall first r, quiet (join_segments style cap first segs r).
Proof. induction segs as [|s segs IH]; intros first r; cbn [join_segments]; [auto with fant|]. apply quiet_bind; [match goal with |- context[if ?b then _ else _] => destruct b end; auto with fant|]. intros r2 _. cbv zeta. apply quiet_bind; [match goal with |- context[if (?a <? ?b)%nat then _ else _] => destruct (a <? b)%nat end; auto with fant|auto with fant]. Qed.
#[local] Hint Resolve quiet_loop quiet_write quiet_pieces quiet_join : fant.
Lemma safe_quiet {A} (m : outcome A) : safe m -> quiet m -> exists a, m = Returns a.
Proof. intros H1 H2. destruct m as [a|e|]; [eauto|exfalso; exact (H2 e eq_refl)|contradiction]. Qed.
Lemma posix_seps p : path_normalize_separators malloc_ok PATH_STYLE_POSIX p = Returns p.
Proof using memory. unfold path_normalize_separators, malloc. rewrite memory. cbn. rewrite map_id. reflexivity. Qed.
Lemma quiet_normalize p : quiet (normalize_path_full malloc_ok PATH_STYLE_POSIX p).
Proof using memory.
  unfold normalize_path_full. destruct (length p =? 0)%nat; [apply quiet_bind; auto with fant|]. rewrite posix_seps. cbn [mbind outcome_bind]. do 2 (apply quiet_bind; [auto with fant|]; intros _ _). apply quiet_bind; [auto with fant|]. intros segs _. apply quiet_bind; [auto with fant|]. intros _ _. apply quiet_bind; [auto with fant|]. intros r _. apply quiet_bind; [auto with fant|]. intros r1 _.
  apply quiet_bind; [destruct (length r1 =? 0)%nat; auto with fant|]. intros r2 _. match goal with |- context[if ?b then _ else _] => destruct b end; repeat (apply quiet_bind; [auto with fant|]; intros ? _); auto with fant.
Qed.

Lemma put_eq cap out bytes r : put_bytes cap out bytes = Returns r -> r = out ++ bytes.
Proof. unfold put_bytes. destruct (_ <=? _)%nat; congruence. Qed.
Lemma bind_eq {A B} (m : outcome A) (f : A -> outcome B) b : m ≫= f = Returns b -> exists a, m = Returns a /\ f a = Returns b.
Proof. destruct m; cbn; [eauto|discriminate|discriminate]. Qed.
Lemma write_tail cap root segs : forall r out, Forall seg_ok segs -> r <> [] -> at_end r <> 47 -> write_segments 47 cap false root segs r = Returns out -> out = r ++ concat (map (cons 47) segs).
Proof.
  induction segs as [|s segs IH]; intros r out H Hr He; cbn [write_segments]; [intros [= <-]; rewrite app_nil_r; reflexivity|]. apply Forall_cons in H as [H1 H2]. intros E. apply bind_eq in E as (r1 & E1 & E). apply bind_eq in E as (r2 & E2 & E).
  destruct (Nat.ltb_spec 0 (length r)); [|destruct r; [contradiction|cbn in *; lia]]. destruct (Z.eqb_spec (at_end r) 47); [contradiction|]. cbn [andb negb] in E1. apply put_eq in E1 as ->. apply put_eq in E2 as ->. apply IH in E; [|exact H2|destruct r; discriminate|rewrite at_end_app by apply H1; apply seg_end, H1]. rewrite E. cbn. rewrite <- !app_assoc. reflexivity.
Qed.
Lemma write_joined cap root segs r out : Forall seg_ok segs -> r = [] \/ at_end r = 47 -> write_segments 47 cap false root segs r = Returns out -> out = r ++ joined segs.
Proof.
  intros H Hr E. destruct segs as [|s segs]; cbn [write_segments] in E; [injection E as <-; rewrite app_nil_r; reflexivity|]. apply Forall_cons in H as [H1 H2]. apply bind_eq in E as (r1 & E1 & E). apply bind_eq in E as (r2 & E2 & E).
  assert (Eb : (0 <? length r)%nat && negb (at_end r =? 47) && negb (false && (length r =? root)%nat) = false) by (destruct Hr as [->| ->]; [reflexivity|rewrite andb_false_r; reflexivity]). rewrite Eb in E1. injection E1 as <-. apply put_eq in E2 as ->.
  apply write_tail in E; [|exact H2|destruct r; [apply H1|discriminate]|rewrite at_end_app by apply H1; apply seg_end, H1]. rewrite E, joined_cons, <- app_assoc. reflexivity.
Qed.
Lemma normalize_posix p : no_nul p -> p <> [] -> normalize_path_full malloc_ok PATH_STYLE_POSIX p = Returns (rendered (is_abs p) (reduce p) (ends_slash p)).
Proof using memory.
  intros Hn Hp. destruct (safe_quiet _ (normalize_safe malloc_ok PATH_STYLE_POSIX p) (quiet_normalize p)) as [q E]. rewrite E. f_equal. revert E. unfold normalize_path_full. destruct (Nat.eqb_spec (length p) 0) as [|Hlen]; [destruct p; [contradiction|discriminate]|].
  rewrite posix_seps. cbn [mbind outcome_bind]. intros E. do 2 apply bind_eq in E as (_ & _ & E). apply bind_eq in E as (segs & Es & E). apply bind_eq in E as (_ & _ & E). apply bind_eq in E as (r0 & E0 & E). apply bind_eq in E as (r1 & E1 & E). apply bind_eq in E as (r2 & E2 & E).
  assert (Hroot : path_root_length PATH_STYLE_POSIX p = if is_abs p then 1%nat else 0%nat) by (unfold path_root_length; destruct (Nat.eqb_spec (length p) 0); [contradiction|reflexivity]). rewrite Hroot in *. change (path_is_drive_relative PATH_STYLE_POSIX p) with false in *. rewrite orb_false_r in Es.
  assert (Hc : ((if is_abs p then 1 else 0) =? 0)%nat = negb (is_abs p)) by (destruct (is_abs p); reflexivity). rewrite Hc in Es. apply loop_pure in Es; [|apply no_nul_drop, Hn]. fold (reduce p) in Es. subst segs. destruct (reduce_ok p Hn) as [Hcan _]. pose proof (canonical_ok _ _ Hcan) as Hok.
  apply put_eq in E0 as ->. change (path_sep_char PATH_STYLE_POSIX) with 47 in *. assert (Ht : take (if is_abs p then 1 else 0) p = if is_abs p then [47] else []) by (destruct (is_abs p) eqn:Ea; [rewrite (is_abs_inv p Ea)|]; reflexivity). cbn [app] in E1. rewrite Ht in E1.
  apply write_joined in E1; [|exact Hok|destruct (is_abs p); auto]. assert (Er : r2 = render0 (is_abs p) (reduce p)) by (unfold render0; rewrite <- E1; destruct (Nat.eqb_spec (length r1) 0) as [E3|]; [apply put_eq in E2 as ->; destruct r1; [reflexivity|discriminate]|injection E2 as <-; reflexivity]).
  rewrite rendered_eq, <- Er. clear E1 E2. destruct (render0_spec (is_abs p) (reduce p) Hok) as (Rn & _). rewrite <- Er in Rn. unfold path_is_sep in E. cbn [is_win32] in E.
  assert (Hb : ((if is_abs p then 1 else 0) <? length p)%nat && (rd p (length p - 1) =? 47) = ends_slash p).
  { unfold ends_slash. fold (at_end p). destruct (Z.eqb_spec (at_end p) 47) as [Ee|]; [|rewrite !andb_false_r; reflexivity]. rewrite !andb_true_r. destruct (is_abs p) eqn:Ea; [reflexivity|]. destruct p as [|c [|c2 p]]; [contradiction| |reflexivity]. cbn in Ee. subst c. discriminate. }
  rewrite Hb in E. assert (Hl : (0 <? length r2)%nat = true) by (destruct r2; [contradiction|reflexivity]). rewrite Hl, andb_true_r in E. destruct (ends_slash p && negb (at_end r2 =? 47)).
  - apply bind_eq in E as (_ & _ & E). apply bind_eq in E as (r3 & E3 & E). apply bind_eq in E as (_ & _ & E). apply put_eq in E3 as ->. injection E as <-. reflexivity.
  - apply bind_eq in E as (_ & _ & E). injection E as <-. reflexivity.
Qed.
Lemma normalized_posix p : no_nul p -> p <> [] -> normalized_string malloc_ok PATH_STYLE_POSIX p = Returns (rendered (is_abs p) (reduce p) (ends_slash p)).
Proof using memory.
  intros Hn Hp. unfold normalized_string. rewrite normalize_posix by assumption. cbn [mbind outcome_bind]. rewrite c_str_id; [reflexivity|]. apply rendered_spec. eapply canonical_ok, reduce_ok, Hn.
Qed.
(** Where the normalized path leads. *)
Lemma normalized_spec p : no_nul p -> p <> [] -> exists q, normalized_string malloc_ok PATH_STYLE_POSIX p = Returns q /\ q <> [] /\ no_nul q /\ is_abs q = is_abs p /\ (forall d, walk d q = walk d p) /\ q = rendered (is_abs p) (reduce p) (ends_slash q).
Proof using memory.
  intros Hn Hp. eexists. split; [apply normalized_posix; assumption|]. destruct (reduce_ok p Hn) as [Hc Hw]. destruct (rendered_spec (is_abs p) (reduce p) (ends_slash p) (canonical_ok _ _ Hc)) as (Q1 & Q2 & Q3 & Q4 & Q5). splits; auto. intros d. unfold walk at 1. rewrite Q3, Q4. symmetry. apply Hw.
Qed.
Lemma normalize_at p : p <> [] -> builtin_path_normalize malloc_ok PATH_STYLE_POSIX [Some p] = normalized_string malloc_ok PATH_STYLE_POSIX p.
Proof. intros H. destruct p; [contradiction|reflexivity]. Qed.

(** C29: with memory to hand, a normalized POSIX path, not empty and without
    NUL, leads from every directory to where the path leads, and is absolute if
    the path is; normalizing again changes nothing; and paths that lead to the
    same places, both absolute or both relative and with or without a separator
    at the end, have the same normal form. *)
Theorem path_normal_form p : no_nul p -> p <> [] -> exists q, builtin_path_normalize malloc_ok PATH_STYLE_POSIX [Some p] = Returns q /\
  no_nul q /\ is_abs q = is_abs p /\ (forall d, walk d q = walk d p) /\ builtin_path_normalize malloc_ok PATH_STYLE_POSIX [Some q] = Returns q /\
  (forall p', no_nul p' -> p' <> [] -> is_abs p' = is_abs p -> ends_slash p' = ends_slash p -> (forall d, walk d p' = walk d p) -> builtin_path_normalize malloc_ok PATH_STYLE_POSIX [Some p'] = Returns q).
Proof using memory.
  intros Hn Hp. assert (Hu : forall p p', no_nul p -> no_nul p' -> is_abs p' = is_abs p -> (forall d, walk d p' = walk d p) -> reduce p' = reduce p).
  { intros x y Hx Hy Ha Hw. destruct (reduce_ok x Hx) as [C1 W1], (reduce_ok y Hy) as [C2 W2]. rewrite Ha in *. apply (canonical_unique _ _ _ C2 C1). intros d Hd. specialize (Hw d). rewrite W1, W2 in Hw. destruct (is_abs x); [rewrite (Hd eq_refl); exact Hw|exact Hw]. }
  rewrite normalize_at by exact Hp. destruct (normalized_spec p Hn Hp) as (q & E & Q1 & Q2 & Q3 & Q4 & Q5). exists q. splits; auto.
  - rewrite normalize_at, normalized_posix by assumption. rewrite Q3, (Hu p q), <- Q5 by auto. reflexivity.
  - intros p' Hn' Hp' Ha Ht Hw. rewrite normalize_at, normalized_posix by assumption. rewrite normalized_posix in E by assumption. rewrite Ha, Ht, (Hu p p') by auto. exact E.
Qed.

(** *** Relative paths *)

Definition filled (s : list Z) : bool := negb (length s =? 0)%nat.
Lemma pieces_split p : forall seg, pieces PATH_STYLE_POSIX p seg = List.filter filled (split_path p seg).
Proof.
  assert (F : forall seg : list Z, List.filter filled [seg] = if (length seg =? 0)%nat then [] else [seg]) by (intros seg; unfold filled; cbn; destruct (length seg =? 0)%nat; reflexivity).
  induction p as [|c p IH]; intros seg; cbn [pieces split_path]; [rewrite F; reflexivity|]. unfold path_is_sep. cbn [is_win32]. destruct (c =? 47); [|apply IH]. change (seg :: split_path p []) with ([seg] ++ split_path p []). rewrite List.filter_app, F, IH. reflexivity.
Qed.
Lemma split_joined segs : Forall (fun s => ~ In 47 s) segs -> segs <> [] -> split_path (joined segs) [] = segs.
Proof.
  intros H Hne. induction segs as [|s segs IH]; [contradiction|]. apply Forall_cons in H as [H1 H2]. destruct segs as [|t segs]; [apply split_plain, H1|]. change (joined (s :: t :: segs)) with (s ++ 47 :: joined (t :: segs)). rewrite split_sep, split_plain, IH by (auto; discriminate). reflexivity.
Qed.
Lemma filter_filled segs : Forall seg_ok segs -> List.filter filled segs = segs.
Proof. induction 1 as [|s segs Hs H IH]; [reflexivity|]. cbn. destruct Hs as (Hs & _). destruct s as [|c s]; [contradiction|]. cbn. rewrite IH. reflexivity. Qed.
Definition shown (absolute : bool) (segs : list (list Z)) : list (list Z) := match segs with [] => if absolute then [] else [[46]] | _ => segs end.
Lemma shown_ok a segs : Forall seg_ok segs -> Forall seg_ok (shown a segs).
Proof. intros H. destruct segs; [|exact H]. destruct a; repeat constructor; [discriminate| |]; intros [|[]]; lia. Qed.
Lemma shown_fold a segs d : fold_left step_dir (shown a segs) d = fold_left step_dir segs d.
Proof. destruct segs; [destruct a; reflexivity|reflexivity]. Qed.
Lemma pieces_rendered (a : bool) segs slash : Forall seg_ok segs -> pieces PATH_STYLE_POSIX (drop (if a then 1 else 0) (rendered a segs slash)) [] = shown a segs.
Proof.
  intros H. rewrite pieces_split. assert (F : forall x, List.filter filled (split_path (x ++ [47]) []) = List.filter filled (split_path x [])) by (intros x; rewrite split_sep, List.filter_app; cbn; apply app_nil_r).
  assert (G : List.filter filled (split_path (drop (if a then 1 else 0) (render0 a segs)) []) = shown a segs).
  { destruct segs as [|s segs]; [destruct a; reflexivity|]. unfold render0. destruct (joined_end (s :: segs)) as [J1 _]; [discriminate|exact H|]. assert (Hl : (length ((if a then [47%Z] else []) ++ joined (s :: segs)) =? 0)%nat = false) by (destruct a; [reflexivity|destruct (joined (s :: segs)); [contradiction|reflexivity]]). rewrite Hl. assert (Hd : drop (if a then 1 else 0) ((if a then [47] else []) ++ joined (s :: segs)) = joined (s :: segs)) by (destruct a; reflexivity). rewrite Hd, split_joined by (try discriminate; apply seg_ok_nosep, H). apply filter_filled, H. }
  rewrite rendered_eq. destruct (_ && _); [|exact G]. rewrite <- G, <- (F (drop (if a then 1 else 0) (render0 a segs))). f_equal. f_equal. destruct (render0_spec a segs H) as (R & _). destruct a; [|reflexivity]. destruct (render0 true segs); [contradiction|reflexivity].
Qed.
Lemma strncmp_same x : forall y, no_nul x -> length x = length y -> strncmp_eq (length x) x y = true -> x = y.
Proof.
  induction x as [|a x IH]; intros [|b y] Hn Hl; try discriminate; [reflexivity|]. apply Forall_cons in Hn as [Ha Hn]. cbn [length strncmp_eq]. change (rd (a :: x) 0) with a. change (rd (b :: y) 0) with b. destruct (Z.eqb_spec a b) as [->|]; [|discriminate]. destruct (Z.eqb_spec b 0); [contradiction|]. intros E. f_equal. apply IH; [exact Hn|cbn in Hl; lia|exact E].
Qed.
Lemma common_prefix a : forall b, Forall seg_ok a -> let n := common_segments PATH_STYLE_POSIX a b in take n a = take n b /\ (n <= length a)%nat.
Proof.
  induction a as [|x a IH]; intros [|y b] H; cbv zeta; cbn [common_segments]; [split; [reflexivity|lia]..|]. apply Forall_cons in H as [H1 H2]. destruct (Nat.eqb_spec (length x) (length y)) as [El|]; cbn [andb]; [|split; [reflexivity|lia]]. unfold bytes_equal. cbn [is_win32]. destruct (strncmp_eq (length x) x y) eqn:E; [|split; [reflexivity|lia]].
  assert (Hx : no_nul x) by (destruct H1 as (_ & _ & H1); apply List.Forall_forall; intros c Hc ->; contradiction). apply strncmp_same in E as ->; [|exact Hx|exact El]. destruct (IH b H2) as [I1 I2]. cbn [take length]. rewrite I1. split; [reflexivity|lia].
Qed.
Lemma bind_assoc {A B C} (m : outcome A) (f : A -> outcome B) (g : B -> outcome C) : (m ≫= f) ≫= g = m ≫= (fun x => f x ≫= g).
Proof. destruct m; reflexivity. Qed.
Lemma pieces_app sep cap a : forall b r, write_pieces sep cap (a ++ b) r = (x ← write_pieces sep cap a r; write_pieces sep cap b x).
Proof.
  induction a as [|s a IH]; intros b r; [reflexivity|]. cbn [app write_pieces]. rewrite bind_assoc. destruct (if (0 <? length r)%nat then put_bytes cap r [sep] else Returns r) as [r1| |]; cbn [mbind outcome_bind]; [|reflexivity|reflexivity]. rewrite bind_assoc. destruct (put_bytes cap r1 s) as [r2| |]; cbn [mbind outcome_bind]; [apply IH|reflexivity|reflexivity].
Qed.
Lemma pieces_more cap segs : forall r out, nonempty_all segs -> r <> [] -> write_pieces 47 cap segs r = Returns out -> out = r ++ concat (map (cons 47) segs).
Proof.
  induction segs as [|s segs IH]; intros r out H Hr; cbn [write_pieces]; [intros [= <-]; rewrite app_nil_r; reflexivity|]. apply Forall_cons in H as [H1 H2]. intros E. apply bind_eq in E as (r1 & E1 & E). apply bind_eq in E as (r2 & E2 & E). destruct (Nat.ltb_spec 0 (length r)); [|destruct r; [contradiction|cbn in *; lia]].
  apply put_eq in E1 as ->. apply put_eq in E2 as ->. apply IH in E; [|exact H2|destruct r; discriminate]. rewrite E. cbn. rewrite <- !app_assoc. reflexivity.
Qed.
Lemma pieces_joined cap segs out : nonempty_all segs -> write_pieces 47 cap segs [] = Returns out -> out = joined segs.
Proof.
  intros H E. destruct segs as [|s segs]; [injection E as <-; reflexivity|]. apply Forall_cons in H as [H1 H2]. cbn [write_pieces] in E. change (0 <? length [])%nat with false in E. cbn [mbind outcome_bind] in E. apply bind_eq in E as (r & E1 & E). apply put_eq in E1 as ->. apply pieces_more in E; [|exact H2|exact H1]. rewrite E, joined_cons. reflexivity.
Qed.
(** The start of a relative path is below the directory it is taken from. *)
Definition below (p : list Z) : Prop := is_abs p = true \/ exists s, s <> [] /\ forall d, walk d p = s ++ d.
Lemma below_proper p : no_nul p -> below p -> Forall proper (shown (is_abs p) (reduce p)) /\ shown (is_abs p) (reduce p) = reduce p.
Proof.
  intros Hn Hb. destruct (reduce_ok p Hn) as [(k & names & E & Hp & Hk) Hw]. rewrite E in *. destruct Hb as [Ha|(s & Hs & Hb)].
  - rewrite Ha in *. rewrite (Hk eq_refl) in *. cbn [replicate app] in *. split; [|destruct names; reflexivity]. destruct names; [constructor|exact Hp].
  - destruct (is_abs p) eqn:Ea; [specialize (Hk eq_refl) as ->; cbn [replicate app] in *; split; [|destruct names; reflexivity]; destruct names; [constructor|exact Hp]|].
    assert (H : forall d, rev names ++ drop k d = s ++ d) by (intros d; rewrite <- Hb, Hw, fold_canonical by exact Hp; reflexivity). pose proof (H []) as H0. rewrite drop_nil, !app_nil_r in H0. pose proof (H (replicate k [])) as H1. rewrite H0 in H1. apply app_inv_head, (f_equal length) in H1. rewrite length_drop, length_replicate in H1. assert (k = 0%nat) as -> by lia.
    cbn [replicate app]. destruct names as [|n names]; [cbn in H0; subst s; contradiction|]. split; [exact Hp|reflexivity].
Qed.
Lemma quiet_normalized p : quiet (normalized_string malloc_ok PATH_STYLE_POSIX p).
Proof using memory. unfold normalized_string. apply quiet_bind; [apply quiet_normalize|auto with fant]. Qed.
Lemma relative_returns from to : exists r, builtin_path_relative malloc_ok PATH_STYLE_POSIX [Some from; Some to] = Returns r.
Proof using memory.
  apply safe_quiet; [apply relative_safe|]. cbn [builtin_path_relative]. match goal with |- context[if ?b then _ else _] => destruct b end; [auto with fant|]. apply quiet_bind; [apply quiet_normalized|]. intros fn _. apply quiet_bind; [apply quiet_normalized|]. intros tn _. match goal with |- context[if ?b then _ else _] => destruct b end; [auto with fant|].
  do 4 (apply quiet_bind; [auto with fant|]; intros _ _). cbv zeta. do 3 (apply quiet_bind; [auto with fant|]; intros _ _). do 2 (apply quiet_bind; [auto with fant|]; intros ? _). apply quiet_bind; [match goal with |- context[if ?b then _ else _] => destruct b end; auto with fant|]. intros r3 _. apply quiet_bind; auto with fant.
Qed.

Lemma posix_root q : q <> [] -> path_root_length PATH_STYLE_POSIX q = if is_abs q then 1%nat else 0%nat.
Proof. intros H. unfold path_root_length. destruct q; [contradiction|reflexivity]. Qed.
Lemma normalized_pieces p : no_nul p -> p <> [] -> exists q, normalized_string malloc_ok PATH_STYLE_POSIX p = Returns q /\ path_root_length PATH_STYLE_POSIX q = (if is_abs p then 1%nat else 0%nat) /\
  pieces PATH_STYLE_POSIX (drop (path_root_length PATH_STYLE_POSIX q) q) [] = shown (is_abs p) (reduce p) /\ (is_abs p = true -> exists q', q = 47 :: q').
Proof using memory.
  intros Hn Hp. eexists. split; [apply normalized_posix; assumption|]. destruct (reduce_ok p Hn) as [Hc _]. pose proof (canonical_ok _ _ Hc) as Ho. destruct (rendered_spec (is_abs p) (reduce p) (ends_slash p) Ho) as (Q1 & _ & Q3 & _).
  assert (R : path_root_length PATH_STYLE_POSIX (rendered (is_abs p) (reduce p) (ends_slash p)) = if is_abs p then 1%nat else 0%nat) by (rewrite posix_root by exact Q1; rewrite Q3; reflexivity).
  splits; [exact R|rewrite R; apply pieces_rendered, Ho|]. intros Ha. rewrite Ha in *. eexists. apply is_abs_inv, Q3.
Qed.
Lemma dots_ok k : Forall seg_ok (replicate k [46; 46]).
Proof. apply Forall_replicate. unfold seg_ok. splits; [discriminate| |]; intros [|[|[]]]; lia. Qed.
(** Steps up from the last common directory, then down. *)
Lemma up_and_down names T n base : Forall proper names -> take n names = take n T -> (n <= length names)%nat ->
  fold_left step_dir (replicate (length names - n) [46; 46] ++ drop n T) (rev names ++ base) = fold_left step_dir T base.
Proof.
  intros Hp Ht Hn. rewrite fold_left_app, fold_dots. assert (E : drop (length names - n) (rev names ++ base) = rev (take n names) ++ base).
  { rewrite <- (take_drop n names) at 2. rewrite rev_app_distr, <- app_assoc. apply drop_app_length'. rewrite length_rev, length_drop. lia. }
  rewrite E, <- (fold_proper (take n names)) by (apply Forall_take, Hp). rewrite Ht, <- fold_left_app, take_drop. reflexivity.
Qed.

(** The relative path from one POSIX path to another leads from where the
    first leads to where the second leads, when both are absolute, or both
    relative and the first stays below its start. *)
Theorem relative_leads from to : no_nul from -> from <> [] -> no_nul to -> to <> [] -> is_abs from = is_abs to -> below from ->
  exists r, builtin_path_relative malloc_ok PATH_STYLE_POSIX [Some from; Some to] = Returns r /\ is_abs r = false /\ forall d, walk (walk d from) r = walk d to.
Proof using memory.
  intros Hf Hf0 Ht Ht0 Ha Hb. destruct (relative_returns from to) as [r E]. exists r. split; [exact E|]. revert E. cbn [builtin_path_relative]. match goal with |- context[if ?b then _ else _] => destruct b eqn:Ec end.
  { apply andb_true_iff in Ec as [El Es]. apply Nat.eqb_eq in El. apply strncmp_same in Es as ->; [intros [= <-]; split; reflexivity|exact Hf|exact El]. }
  destruct (normalized_pieces from Hf Hf0) as (fn & -> & F1 & F2 & F3), (normalized_pieces to Ht Ht0) as (tn & -> & T1 & T2 & T3). cbn [mbind outcome_bind]. rewrite F2, T2, F1, T1, <- Ha, Nat.eqb_refl.
  assert (Eb : bytes_equal PATH_STYLE_POSIX (if is_abs from then 1 else 0) fn tn = true) by (unfold bytes_equal; cbn [is_win32]; rewrite <- Ha in T3; destruct (is_abs from); [destruct (F3 eq_refl) as [x ->], (T3 eq_refl) as [y ->]|]; reflexivity). rewrite Eb. cbn [negb orb].
  destruct (reduce_ok from Hf) as [Cf Wf], (reduce_ok to Ht) as [Ct Wt]. destruct (below_proper from Hf Hb) as [Pf Sf]. rewrite Sf in *. pose proof (shown_ok (is_abs from) _ (canonical_ok _ _ Ct)) as Ot. set (names := reduce from) in *. set (T := shown (is_abs from) (reduce to)) in *. cbv zeta.
  destruct (common_prefix names T (canonical_ok _ _ Cf)) as [Hc Hl]. set (n := common_segments PATH_STYLE_POSIX names T) in *. set (cap := (length tn + (length names - n) * 3 + 2)%nat). change (path_sep_char PATH_STYLE_POSIX) with 47.
  intros E. do 7 apply bind_eq in E as (_ & _ & E). apply bind_eq in E as (r1 & E1 & E). apply bind_eq in E as (r2 & E2 & E). apply bind_eq in E as (r3 & E3 & E). apply bind_eq in E as (_ & _ & E). injection E as ->.
  assert (Ow : Forall seg_ok (replicate (length names - n) [46; 46] ++ drop n T)) by (apply Forall_app; split; [apply dots_ok|apply Forall_drop, Ot]).
  assert (E4 : write_pieces 47 cap (replicate (length names - n) [46; 46] ++ drop n T) [] = Returns r2) by (rewrite pieces_app, E1; exact E2). apply pieces_joined in E4; [|eapply Forall_impl; [exact Ow|]; intros x Hx; apply Hx].
  assert (Er : r = render0 false (replicate (length names - n) [46; 46] ++ drop n T)) by (unfold render0; cbn [app]; rewrite <- E4; destruct (Nat.eqb_spec (length r2) 0) as [E5|]; [apply put_eq in E3 as ->; destruct r2; [reflexivity|discriminate]|injection E3 as <-; reflexivity]).
  destruct (render0_spec false _ Ow) as (_ & _ & R3 & R4 & _). rewrite <- Er in R3, R4. split; [exact R3|]. intros d. unfold walk at 1. rewrite R3, R4, Wf, (fold_proper names), Wt, <- Ha by exact Pf. rewrite up_and_down by assumption. unfold T. rewrite shown_fold. reflexivity.
Qed.

(** *** Joining and resolving *)

Lemma steps_slashes k : forall d x, steps d (x ++ replicate k 47) = steps d x.
Proof. induction k as [|k IH]; intros d x; [rewrite app_nil_r; reflexivity|]. cbn [replicate]. rewrite (steps_sep d x (replicate k 47)). apply (IH (steps d x) []). Qed.
Lemma steps_glue d r y : at_end r = 47 -> steps d (r ++ y) = steps (steps d r) y.
Proof. intros H. destruct (snoc_inv r) as [->|(l & c & ->)]; [discriminate|]. rewrite at_end_snoc in H. subst c. rewrite <- app_assoc. cbn [app]. rewrite steps_sep, steps_slash. reflexivity. Qed.
Lemma back_ge p path root n : (root <= n)%nat -> (root <= back p path root n)%nat.
Proof. induction n as [|n IH]; cbn [back]; [lia|]. intros H. destruct (Nat.ltb_spec root (S n)); cbn [andb]; [|lia]. destruct (p (rd path n)); [apply IH; lia|lia]. Qed.
Lemma back_slashes path root n : (n <= length path)%nat -> exists k, take n path = take (back (path_is_sep PATH_STYLE_POSIX) path root n) path ++ replicate k 47.
Proof.
  induction n as [|n IH]; intros H; cbn [back]; [exists 0%nat; reflexivity|]. destruct ((root <? S n)%nat && path_is_sep PATH_STYLE_POSIX (rd path n)) eqn:E; [|exists 0%nat; rewrite app_nil_r; reflexivity]. apply andb_true_iff in E as [_ E]. unfold path_is_sep in E. cbn [is_win32] in E. apply Z.eqb_eq in E.
  destruct (IH ltac:(lia)) as [k Hk]. exists (S k). rewrite <- replicate_snoc, app_assoc, <- Hk. destruct (lookup_lt_is_Some_2 path n) as [x Hx]; [lia|]. rewrite (take_S_r path n x Hx). unfold rd in E. rewrite (nth_lookup_Some path n 0 x Hx) in E. rewrite E. reflexivity.
Qed.
(** The text of one argument, without the separators around it. *)
Lemma trimmed seg start : (start <= length seg)%nat -> (forall d, steps d (drop start seg) = steps d seg) ->
  let n := back (path_is_sep PATH_STYLE_POSIX) seg (start + 1) (length seg) in forall d, steps d (take (n - start) (drop start seg)) = steps d seg.
Proof.
  intros Hs Hd n d. destruct (back_slashes seg (start + 1) (length seg) ltac:(lia)) as [k Hk]. fold n in Hk. rewrite firstn_all in Hk. rewrite <- Hd. pose proof (back_le (path_is_sep PATH_STYLE_POSIX) seg (start + 1) (length seg)) as Hn. fold n in Hn.
  destruct (Nat.le_gt_cases (start + 1) (length seg)) as [Hl|Hl].
  - pose proof (back_ge (path_is_sep PATH_STYLE_POSIX) seg (start + 1) (length seg) Hl) as Hg. fold n in Hg. rewrite Hk at 2. rewrite drop_app_le by (rewrite length_take; lia). rewrite steps_slashes, take_drop_commute. replace (start + (n - start))%nat with n by lia. reflexivity.
  - replace (drop start seg) with (@nil Z) by (symmetry; apply drop_ge; lia). rewrite take_nil. reflexivity.
Qed.
Lemma strip_ok seg : let start := if path_is_sep PATH_STYLE_POSIX (rd seg 0) then 1%nat else 0%nat in (start <= length seg)%nat /\ forall d, steps d (drop start seg) = steps d seg.
Proof. cbv zeta. unfold path_is_sep. cbn [is_win32]. destruct seg as [|c seg]; [change (rd [] 0 =? 47) with false; split; [cbn; lia|reflexivity]|]. change (rd (c :: seg) 0) with c. destruct (Z.eqb_spec c 47) as [->|]; (split; [cbn; lia|]); intros d; [rewrite steps_cons_sep|]; reflexivity. Qed.
Lemma no_nul_take n p : no_nul p -> no_nul (take n p).
Proof. apply Forall_take. Qed.
Lemma no_nul_app p q : no_nul p -> no_nul q -> no_nul (p ++ q).
Proof. intros H1 H2. apply Forall_app. auto. Qed.
Lemma is_abs_app r y : r <> [] -> is_abs (r ++ y) = is_abs r.
Proof. destruct r; [contradiction|reflexivity]. Qed.
Lemma join_rest cap segs : forall r out, Forall no_nul segs -> no_nul r -> r <> [] -> join_segments PATH_STYLE_POSIX cap false segs r = Returns out ->
  no_nul out /\ out <> [] /\ is_abs out = is_abs r /\ forall d, steps d out = fold_left steps segs (steps d r).
Proof.
  induction segs as [|s segs IH]; intros r out Hn Hr Hr0; cbn [join_segments]; [intros [= <-]; auto|]. apply Forall_cons in Hn as [Hs Hn]. intros E. apply bind_eq in E as (r1 & E1 & E). cbn [negb andb] in *. destruct (strip_ok s) as [S1 S2]. set (start := if path_is_sep PATH_STYLE_POSIX (rd s 0) then 1%nat else 0%nat) in *. set (n := back _ s (start + 1) (length s)) in *. apply bind_eq in E as (r2 & E2 & E). pose proof (trimmed s start S1 S2) as Ht. fold n in Ht. cbv zeta in Ht.
  assert (H1 : no_nul r1 /\ r1 <> [] /\ is_abs r1 = is_abs r /\ at_end r1 = 47 /\ forall d, steps d r1 = steps d r).
  { change (path_sep_char PATH_STYLE_POSIX) with 47 in E1. destruct (Nat.ltb_spec 0 (length r)); [|destruct r; [contradiction|cbn in *; lia]]. cbn [andb] in E1. destruct (Z.eqb_spec (at_end r) 47) as [Ee|]; cbn [negb] in E1; [injection E1 as <-; auto|]. apply put_eq in E1 as ->. splits; [apply no_nul_app; [exact Hr|repeat constructor; lia]|destruct r; discriminate|apply is_abs_app, Hr0|apply at_end_snoc|intros d; apply steps_slash]. }
  destruct H1 as (A1 & A2 & A3 & A4 & A5). assert (H2 : no_nul r2 /\ r2 <> [] /\ is_abs r2 = is_abs r /\ forall d, steps d r2 = steps (steps d r) s).
  { destruct (Nat.ltb_spec start n) as [Hlt|Hge]; [apply put_eq in E2 as ->; splits; [apply no_nul_app; [exact A1|apply no_nul_take, no_nul_drop, Hs]|destruct r1; [contradiction|discriminate]|rewrite is_abs_app by exact A2; exact A3|intros d; rewrite steps_glue, A5, Ht by exact A4; reflexivity]|].
    injection E2 as <-. splits; auto. intros d. specialize (Ht (steps d r)). replace (n - start)%nat with 0%nat in Ht by lia. rewrite A5, <- Ht. reflexivity. }
  destruct H2 as (B1 & B2 & B3 & B4). destruct (IH r2 out Hn B1 B2 E) as (C1 & C2 & C3 & C4). splits; auto; [congruence|]. intros d. rewrite C4, B4. reflexivity.
Qed.
Lemma join_first cap s segs out : Forall no_nul (s :: segs) -> s <> [] -> join_segments PATH_STYLE_POSIX cap true (s :: segs) [] = Returns out ->
  no_nul out /\ out <> [] /\ is_abs out = is_abs s /\ forall d, steps d out = fold_left steps segs (steps d s).
Proof.
  intros Hn Hs0 E. apply Forall_cons in Hn as [Hs Hn]. cbn [join_segments negb andb mbind outcome_bind] in E. apply bind_eq in E as (r & E1 & E). pose proof (trimmed s 0 ltac:(lia) (fun d => eq_refl)) as Ht. cbv zeta in Ht. set (n := back _ s (0 + 1) (length s)) in *. assert (Hl : (1 <= n)%nat) by (apply back_ge; destruct s; [contradiction|cbn; lia]).
  destruct (Nat.ltb_spec 0 n); [|lia]. apply put_eq in E1. cbn [app drop] in E1. rewrite Nat.sub_0_r in *. subst r. cbn [drop] in Ht. assert (Hr : take n s <> []) by (destruct s; [contradiction|]; destruct n; [lia|discriminate]).
  destruct (join_rest _ _ _ _ Hn (no_nul_take n s Hs) Hr E) as (C1 & C2 & C3 & C4). splits; auto; [rewrite C3; destruct s; [contradiction|]; destruct n; [lia|reflexivity]|]. intros d. rewrite C4, Ht. reflexivity.
Qed.
Lemma valid_nonempty args : nonempty_all (valid_segments args).
Proof. unfold valid_segments. induction args as [|[[|c s]|] args IH]; [constructor|exact IH|constructor; [discriminate|exact IH]|exact IH]. Qed.
Lemma join_leads args s segs : valid_segments args = s :: segs -> Forall no_nul (s :: segs) -> exists r, builtin_path_join malloc_ok PATH_STYLE_POSIX args = Returns r /\ no_nul r /\ is_abs r = is_abs s /\ forall d, walk d r = fold_left steps segs (walk d s).
Proof using memory.
  intros Hv Hn. assert (Q : quiet (builtin_path_join malloc_ok PATH_STYLE_POSIX args)).
  { unfold builtin_path_join. destruct (length args =? 0)%nat; [auto with fant|]. do 2 (apply quiet_bind; [auto with fant|]; intros _ _). destruct (length (valid_segments args) =? 0)%nat; [auto with fant|]. apply quiet_bind; [auto with fant|]. intros _ _. apply quiet_bind; [auto with fant|]. intros r _. apply quiet_bind; [match goal with |- context[if ?b then _ else _] => destruct b end; auto with fant|]. intros r2 _. apply quiet_bind; [auto with fant|]. intros _ _. apply quiet_normalized. }
  destruct (safe_quiet _ (join_safe malloc_ok PATH_STYLE_POSIX args) Q) as [r E]. exists r. split; [exact E|]. revert E. unfold builtin_path_join. destruct (Nat.eqb_spec (length args) 0); [destruct args; [discriminate Hv|discriminate]|]. rewrite Hv. change (length (s :: segs) =? 0)%nat with false. cbv iota zeta. intros E. do 3 apply bind_eq in E as (_ & _ & E). apply bind_eq in E as (r1 & E1 & E). apply bind_eq in E as (r2 & E2 & E). apply bind_eq in E as (_ & _ & E).
  pose proof (valid_nonempty args) as Hne. rewrite Hv in Hne. apply Forall_cons in Hne as [Hs _]. destruct (join_first _ _ _ _ Hn Hs E1) as (A1 & A2 & A3 & A4).
  assert (H2 : no_nul r2 /\ r2 <> [] /\ is_abs r2 = is_abs s /\ forall d, steps d r2 = steps d r1).
  { match type of E2 with context[if ?b then _ else _] => destruct b end; [apply put_eq in E2 as ->; splits; [apply no_nul_app; [exact A1|repeat constructor; discriminate]|destruct r1; discriminate|rewrite is_abs_app by exact A2; exact A3|intros d; apply steps_slash]|injection E2 as <-; auto]. }
  destruct H2 as (B1 & B2 & B3 & B4). destruct (normalized_spec r2 B1 B2) as (q & Eq & _ & Q2 & Q3 & Q4 & _). rewrite E in Eq. injection Eq as <-. splits; [exact Q2|congruence|]. intros d. rewrite Q4. unfold walk. rewrite B3, B4, A4. reflexivity.
Qed.

(** What the arguments taken so far, from the last, lead to: [found] when one
    of them is absolute. *)
Definition resolves (joined : option (list Z)) (found : bool) (done : list (list Z)) : Prop :=
  match joined with
  | None => found = false /\ done = []
  | Some j => no_nul j /\ j <> [] /\ is_abs j = found /\ forall e, fold_left walk done e = walk e j
  end.
Lemma resolve_loop_ok l : forall joined done, Forall no_nul (valid_segments (rev l)) -> resolves joined false done ->
  exists j found, resolve_loop malloc_ok PATH_STYLE_POSIX l [] joined = Returns ([], j, found) /\
    (resolves j found (valid_segments (rev l) ++ done) \/ (found = true /\ exists t, j = Some t /\ no_nul t /\ is_abs t = true /\ forall e, fold_left walk (valid_segments (rev l) ++ done) e = walk e t)).
Proof using memory.
  assert (V : forall a (l : list (option (list Z))), valid_segments (rev (a :: l)) = valid_segments (rev l) ++ valid_segments [a]) by (intros a l'; unfold valid_segments; cbn [rev]; apply omap_app).
  induction l as [|a l IH]; intros joined done Hn Hr; [exists joined, false; split; [reflexivity|left; exact Hr]|]. rewrite V in *. apply Forall_app in Hn as [Hn Ha]. rewrite <- app_assoc. destruct a as [[|c s]|]; [apply IH; assumption| |apply IH; assumption].
  change (valid_segments [Some (c :: s)]) with [c :: s] in *. apply Forall_cons in Ha as [Ha _]. cbn [resolve_loop]. change (path_is_drive_relative PATH_STYLE_POSIX (c :: s)) with false. cbn [andb]. rewrite c_str_id by exact Ha. change (path_sep_char PATH_STYLE_POSIX) with 47.
  set (seg := c :: s) in *. set (t := match joined with None => seg | Some j => seg ++ 47 :: j end).
  assert (Ht : no_nul t /\ t <> [] /\ is_abs t = is_abs seg /\ forall e, fold_left walk ([seg] ++ done) e = walk e t).
  { destruct joined as [j|]; cbn in Hr; subst t; [|destruct Hr as [_ ->]; splits; auto; discriminate]. destruct Hr as (R1 & R2 & R3 & R4). splits; [apply no_nul_app; [exact Ha|constructor; [lia|exact R1]]|discriminate|reflexivity|]. intros e. cbn [app fold_left]. rewrite R4. unfold walk. rewrite R3. rewrite (is_abs_app seg) by discriminate. rewrite steps_sep. reflexivity. }
  assert (Ej : match joined with None => _ ← malloc malloc_ok (length seg + 1); Returns seg | Some j => _ ← malloc malloc_ok (length seg - 0 + 1 + length j + 1); Returns (snprintf (length seg - 0 + 1 + length j + 1) (seg ++ [47] ++ j)) end = Returns t).
  { unfold malloc. destruct joined as [j|]; rewrite memory; cbn [mbind outcome_bind]; [|reflexivity]. unfold snprintf. rewrite take_ge; [reflexivity|]. rewrite !length_app. cbn. lia. }
  rewrite Ej. cbn [mbind outcome_bind]. destruct Ht as (T1 & T2 & T3 & T4). change (path_is_absolute_style PATH_STYLE_POSIX seg) with (is_abs seg). destruct (is_abs seg) eqn:Ea.
  - exists (Some t), true. split; [reflexivity|]. right. split; [reflexivity|]. exists t. splits; auto. intros e. rewrite fold_left_app, T4. unfold walk. rewrite T3. reflexivity.
  - apply IH; [exact Hn|]. cbn. splits; auto.
Qed.
Lemma resolve_leads args : no_nul cwd -> is_abs cwd = true -> Forall no_nul (valid_segments args) ->
  exists r, builtin_path_resolve malloc_ok (Some cwd) PATH_STYLE_POSIX args = Returns r /\ no_nul r /\ is_abs r = true /\ forall d, walk d r = fold_left walk (valid_segments args) (walk [] cwd).
Proof using memory.
  intros Hc Ha Hn. unfold builtin_path_resolve. rewrite c_str_id, posix_seps by exact Hc. cbn [mbind outcome_bind]. destruct (resolve_loop_ok (rev args) None []) as (j & found & -> & H); [rewrite rev_involutive; exact Hn|split; reflexivity|]. rewrite rev_involutive, app_nil_r in H. cbn [mbind outcome_bind]. change (path_sep_char PATH_STYLE_POSIX) with 47.
  assert (G : forall t, no_nul t -> is_abs t = true -> (forall d, walk d t = fold_left walk (valid_segments args) (walk [] cwd)) -> exists r, normalized_string malloc_ok PATH_STYLE_POSIX t = Returns r /\ no_nul r /\ is_abs r = true /\ forall d, walk d r = fold_left walk (valid_segments args) (walk [] cwd)).
  { intros t H1 H2 H3. destruct (normalized_spec t H1) as (q & E & _ & Q2 & Q3 & Q4 & _); [intros ->; discriminate|]. exists q. splits; [exact E|exact Q2|congruence|]. intros d. rewrite Q4. apply H3. }
  destruct H as [H|(-> & t & -> & T1 & T2 & T3)]; [|cbn [mbind outcome_bind]; apply G; [exact T1|exact T2|intros d; rewrite T3; unfold walk; rewrite T2; reflexivity]].
  destruct j as [j|]; cbn in H.
  - destruct H as (J1 & J2 & J3 & J4). destruct found; [cbn [mbind outcome_bind]; apply G; [exact J1|exact J3|intros d; rewrite J4; unfold walk; rewrite J3; reflexivity]|]. unfold malloc. rewrite memory. cbn [mbind outcome_bind app length]. unfold snprintf. rewrite take_ge by (rewrite length_app; cbn; lia). assert (Hc0 : cwd <> []) by (intros ->; discriminate). apply G; [apply no_nul_app; [exact Hc|constructor; [lia|exact J1]]|rewrite is_abs_app by exact Hc0; exact Ha|].
    intros d. rewrite J4. unfold walk. rewrite is_abs_app, Ha, J3, steps_sep by exact Hc0. reflexivity.
  - destruct H as (-> & Hnil). unfold malloc. rewrite memory. cbn [mbind outcome_bind app length]. unfold snprintf. rewrite take_ge by lia. apply G; [exact Hc|exact Ha|]. intros d. rewrite Hnil. unfold walk. rewrite Ha. reflexivity.
Qed.
(** C30: in the POSIX style, for arguments and a working directory without NUL,
    an absolute working directory and memory to hand: joining leads where the
    arguments lead one after the other, the later ones taken as relative;
    resolving leads, from everywhere, where they lead one after the other from
    the working directory, and gives an absolute path. Arguments that are empty
    or no strings do not count; one at least is left. *)
Theorem path_compose args s segs : valid_segments args = s :: segs -> Forall no_nul (s :: segs) -> no_nul cwd -> is_abs cwd = true ->
  (exists r, builtin_path_join malloc_ok PATH_STYLE_POSIX args = Returns r /\ is_abs r = is_abs s /\ forall d, walk d r = fold_left steps segs (walk d s)) /\
  (exists r, builtin_path_resolve malloc_ok (Some cwd) PATH_STYLE_POSIX args = Returns r /\ is_abs r = true /\ forall d, walk d r = fold_left walk (s :: segs) (walk [] cwd)).
Proof using memory.
  intros Hv Hn Hc Ha. split; [destruct (join_leads args s segs Hv Hn) as (r & H1 & _ & H2); eauto|]. rewrite <- Hv in Hn |- *. destruct (resolve_leads args Hc Ha Hn) as (r & H1 & _ & H2). eauto.
Qed.

(** *** Taking apart and putting together *)

Lemma back_stop p path root n : (root < back p path root n)%nat -> p (rd path (back p path root n - 1)) = false.
Proof.
  induction n as [|n IH]; cbn [back]; [lia|]. destruct ((root <? S n)%nat && p (rd path n)) eqn:E; [exact IH|]. intros H. replace (S n - 1)%nat with n by lia. destruct (Nat.ltb_spec root (S n)); [exact E|lia].
Qed.
Lemma back_between p path root n k : (back p path root n <= k < n)%nat -> p (rd path k) = true.
Proof.
  induction n as [|n IH]; cbn [back]; [lia|]. destruct ((root <? S n)%nat && p (rd path n)) eqn:E; [|lia]. intros H. apply andb_true_iff in E as [_ E]. destruct (Nat.eq_dec k n) as [->|]; [exact E|apply IH; lia].
Qed.
(** The start of the base name, its end, and the end of the directory. *)
Definition cut_of (p : list Z) : nat := back (path_is_sep PATH_STYLE_POSIX) p (path_root_length PATH_STYLE_POSIX p) (path_basename_start PATH_STYLE_POSIX p).
Definition base_of (p : list Z) : list Z := take (path_trimmed_end PATH_STYLE_POSIX p - path_basename_start PATH_STYLE_POSIX p) (drop (path_basename_start PATH_STYLE_POSIX p) p).
Definition dir_of (p : list Z) : list Z := if (cut_of p =? 0)%nat then [46] else take (cut_of p) p.
Lemma parts_bounds p : let root := path_root_length PATH_STYLE_POSIX p in
  (root <= cut_of p <= path_basename_start PATH_STYLE_POSIX p)%nat /\ (path_basename_start PATH_STYLE_POSIX p <= path_trimmed_end PATH_STYLE_POSIX p <= length p)%nat.
Proof.
  cbv zeta. destruct (root_ok PATH_STYLE_POSIX p) as [Hr _]. unfold cut_of, path_basename_start, path_trimmed_end. set (root := path_root_length PATH_STYLE_POSIX p) in *. pose proof (back_ge (path_is_sep PATH_STYLE_POSIX) p root (length p) Hr) as G1. pose proof (back_le (path_is_sep PATH_STYLE_POSIX) p root (length p)) as L1. set (stop := back (path_is_sep PATH_STYLE_POSIX) p root (length p)) in *.
  pose proof (back_ge (not_sep PATH_STYLE_POSIX) p root stop G1) as G2. pose proof (back_le (not_sep PATH_STYLE_POSIX) p root stop) as L2. set (start := back (not_sep PATH_STYLE_POSIX) p root stop) in *. pose proof (back_ge (path_is_sep PATH_STYLE_POSIX) p root start G2). pose proof (back_le (path_is_sep PATH_STYLE_POSIX) p root start). lia.
Qed.
Lemma take_upto (p : list Z) a b : (a <= b)%nat -> take b p = take a p ++ take (b - a) (drop a p).
Proof. intros H. rewrite take_drop_commute. replace (a + (b - a))%nat with b by lia. rewrite <- (take_drop a (take b p)) at 1. rewrite take_take. f_equal. f_equal. lia. Qed.
Lemma base_nosep p : ~ In 47 (base_of p).
Proof.
  intros Hin. destruct (parts_bounds p) as [B1 B2]. apply (In_nth _ _ 0) in Hin as (k & Hk & E). unfold base_of in *. rewrite length_take, length_drop in Hk. fold (rd (take (path_trimmed_end PATH_STYLE_POSIX p - path_basename_start PATH_STYLE_POSIX p) (drop (path_basename_start PATH_STYLE_POSIX p) p)) k) in E. rewrite rd_take_lt, rd_drop in E by lia.
  pose proof (back_between (not_sep PATH_STYLE_POSIX) p (path_root_length PATH_STYLE_POSIX p) (path_trimmed_end PATH_STYLE_POSIX p) (path_basename_start PATH_STYLE_POSIX p + k)) as Hb. fold (path_basename_start PATH_STYLE_POSIX p) in Hb. specialize (Hb ltac:(lia)). rewrite E in Hb. discriminate.
Qed.
Lemma dir_base p : no_nul p -> p <> [] -> is_abs (dir_of p) = is_abs p /\ no_nul (dir_of p) /\ dir_of p <> [] /\ forall d, walk d p = step_dir (walk d (dir_of p)) (base_of p).
Proof.
  intros Hn Hp. destruct (parts_bounds p) as [B1 B2]. pose proof (posix_root p Hp) as Hroot. assert (Hd : is_abs (dir_of p) = is_abs p /\ no_nul (dir_of p) /\ dir_of p <> []).
  { unfold dir_of. destruct (Nat.eqb_spec (cut_of p) 0) as [E|E]; [destruct (is_abs p); [lia|splits; [reflexivity|repeat constructor; discriminate|discriminate]]|]. destruct p as [|c p]; [contradiction|]. destruct (cut_of (c :: p)) eqn:Ec; [lia|]. splits; [reflexivity|apply no_nul_take, Hn|discriminate]. }
  destruct Hd as (D1 & D2 & D3). splits; auto. intros d. unfold walk. rewrite D1. set (e := if is_abs p then [] else d). rewrite <- (steps_plain _ (base_of p)) by apply base_nosep.
  destruct (back_slashes p (path_root_length PATH_STYLE_POSIX p) (length p) ltac:(lia)) as [k1 K1]. fold (path_trimmed_end PATH_STYLE_POSIX p) in K1. rewrite firstn_all in K1. rewrite K1 at 1. rewrite steps_slashes. rewrite (take_upto p (path_basename_start PATH_STYLE_POSIX p)) by lia. fold (base_of p).
  destruct (back_slashes p (path_root_length PATH_STYLE_POSIX p) (path_basename_start PATH_STYLE_POSIX p) ltac:(lia)) as [k2 K2]. fold (cut_of p) in K2. rewrite K2.
  assert (Hs : steps e (dir_of p) = steps e (take (cut_of p) p)) by (unfold dir_of; destruct (Nat.eqb_spec (cut_of p) 0) as [E|]; [rewrite E|]; reflexivity). rewrite Hs. destruct k2 as [|k2].
  - rewrite app_nil_r in K2 |- *. apply (f_equal length) in K2. rewrite !length_take in K2. assert (Ec : cut_of p = path_basename_start PATH_STYLE_POSIX p) by lia. destruct (Nat.eq_dec (cut_of p) 0) as [E|E]; [rewrite E; reflexivity|]. apply steps_glue. rewrite at_end_take by lia.
    destruct (Nat.eq_dec (cut_of p) (path_root_length PATH_STYLE_POSIX p)) as [Er|Er]; [rewrite Er, Hroot in *; destruct (is_abs p) eqn:Ea; [rewrite (is_abs_inv p Ea); reflexivity|lia]|].
    assert (N1 : not_sep PATH_STYLE_POSIX (rd p (cut_of p - 1)) = false) by (rewrite Ec; apply back_stop; fold (path_basename_start PATH_STYLE_POSIX p); lia). unfold not_sep, path_is_sep in N1. apply negb_false_iff, Z.eqb_eq in N1. exact N1.
  - rewrite <- replicate_snoc, app_assoc, <- app_assoc. cbn [app]. rewrite steps_sep, steps_slashes. reflexivity.
Qed.
Lemma dirname_at p : p <> [] -> builtin_path_dirname malloc_ok PATH_STYLE_POSIX [Some p] = Returns (dir_of p).
Proof using memory.
  intros Hp. unfold builtin_path_dirname, with_path. destruct (Nat.eqb_spec (length p) 0); [destruct p; [contradiction|discriminate]|]. rewrite posix_seps. cbn [mbind outcome_bind]. fold (path_basename_start PATH_STYLE_POSIX p). fold (cut_of p). unfold dir_of. destruct (parts_bounds p) as [B1 _]. destruct (cut_of p =? 0)%nat; [reflexivity|]. destruct (Nat.ltb_spec (cut_of p) (path_root_length PATH_STYLE_POSIX p)); [lia|reflexivity].
Qed.
Lemma path_append_ok result str : str <> [] -> (length result + length str < PATH_MAX)%nat -> path_append result (Some str) = Returns (true, result ++ str).
Proof. intros H Hl. unfold path_append. destruct (Nat.eqb_spec (length str) 0); [destruct str; [contradiction|discriminate]|]. destruct (Nat.leb_spec (PATH_MAX - length result) (length str)); [lia|]. cbn [orb]. rewrite put_returns by lia. reflexivity. Qed.
Lemma nonempty_string (s : list Z) : path_get_nonempty_string (Some s) = match s with [] => None | _ => Some s end.
Proof. destruct s; reflexivity. Qed.

Lemma format_base base root name ext : root = [] -> base <> [] -> (length base < PATH_MAX)%nat -> builtin_path_format PATH_STYLE_POSIX [Some (PathObject (Some []) (Some root) (Some base) name ext)] = Returns base.
Proof.
  intros -> Hb Hl. destruct base as [|b base]; [contradiction|]. cbn [builtin_path_format p_dir p_root p_base path_get_nonempty_string]. change (path_append [] None) with (Returns (false, @nil Z)). cbn [mbind outcome_bind andb]. rewrite path_append_ok by (cbn [length] in *; lia || discriminate). reflexivity.
Qed.
Definition with_slash (dir : list Z) : list Z := if at_end dir =? 47 then dir else dir ++ [47].
Lemma format_dir dir base root ext : dir <> [] -> (length dir + 1 + length base < PATH_MAX)%nat -> base <> [] \/ ext = [] ->
  forall name, base = name ++ ext -> builtin_path_format PATH_STYLE_POSIX [Some (PathObject (Some dir) (Some root) (Some base) (Some name) (Some ext))] = Returns (with_slash dir ++ base).
Proof.
  intros Hd Hl Hor name Hb. cbn [builtin_path_format p_dir p_root p_base p_name p_ext]. rewrite !nonempty_string. destruct dir as [|c dir]; [contradiction|]. rewrite path_append_ok by (cbn [length] in *; lia || discriminate). cbn [mbind outcome_bind andb app]. change (path_sep_char PATH_STYLE_POSIX) with 47.
  set (r := if negb (at_end (c :: dir) =? 47) && (length (c :: dir) <? PATH_MAX - 1)%nat then put_bytes PATH_MAX (c :: dir) [47] else Returns (c :: dir)).
  assert (Er : r = Returns (with_slash (c :: dir))) by (unfold r, with_slash; destruct (at_end (c :: dir) =? 47); [reflexivity|]; cbn [negb andb]; destruct (Nat.ltb_spec (length (c :: dir)) (PATH_MAX - 1)); [|lia]; apply put_returns; cbn [length] in *; lia).
  rewrite Er. cbn [mbind outcome_bind]. assert (Hw : (length (with_slash (c :: dir)) <= length (c :: dir) + 1)%nat) by (unfold with_slash; destruct (at_end (c :: dir) =? 47); [|rewrite length_app]; cbn [length]; lia). destruct base as [|b base].
  - symmetry in Hb. apply app_eq_nil in Hb as [-> ->]. rewrite app_nil_r. reflexivity.
  - rewrite path_append_ok by (cbn [length] in *; lia || discriminate). reflexivity.
Qed.
Lemma base_nonempty p : p <> [] -> is_abs p = false -> path_basename_start PATH_STYLE_POSIX p = 0%nat -> base_of p <> [].
Proof.
  intros Hp Ha E0 Eb. destruct (parts_bounds p) as [B1 B2]. apply (f_equal length) in Eb. unfold base_of in Eb. rewrite length_take, length_drop in Eb. cbn [length] in Eb. destruct p as [|c p]; [contradiction|].
  pose proof (back_between (path_is_sep PATH_STYLE_POSIX) (c :: p) (path_root_length PATH_STYLE_POSIX (c :: p)) (length (c :: p)) 0) as Hs. fold (path_trimmed_end PATH_STYLE_POSIX (c :: p)) in Hs. specialize (Hs ltac:(cbn [length] in *; lia)). unfold path_is_sep in Hs. cbn [is_win32] in Hs. unfold is_abs in Ha. congruence.
Qed.
Lemma cut_nonzero p : p <> [] -> path_basename_start PATH_STYLE_POSIX p <> 0%nat -> cut_of p <> 0%nat.
Proof.
  intros Hp E0 Ec. destruct (parts_bounds p) as [B1 B2]. rewrite (posix_root p Hp) in B1. destruct (is_abs p) eqn:Ea; [lia|].
  pose proof (back_between (path_is_sep PATH_STYLE_POSIX) p (path_root_length PATH_STYLE_POSIX p) (path_basename_start PATH_STYLE_POSIX p) 0) as Hs. fold (cut_of p) in Hs. specialize (Hs ltac:(lia)). unfold path_is_sep in Hs. cbn [is_win32] in Hs. unfold is_abs in Ea. congruence.
Qed.

(** The directory and the base name of a path lead where the path leads, the
    base name has no separator, [parse] gives the same base name as its name
    and extension, and [format] puts its parts together to a path that leads
    where the path leads. *)
Theorem path_parts p : no_nul p -> p <> [] -> (length p + 1 < PATH_MAX)%nat -> exists dir base name ext o q,
  builtin_path_dirname malloc_ok PATH_STYLE_POSIX [Some p] = Returns dir /\ builtin_path_basename PATH_STYLE_POSIX [Some p] = Returns base /\ builtin_path_extname PATH_STYLE_POSIX [Some p] = Returns ext /\
  builtin_path_parse malloc_ok PATH_STYLE_POSIX [Some p] = Returns o /\ p_base o = Some base /\ p_name o = Some name /\ p_ext o = Some ext /\ base = name ++ ext /\ ~ In 47 base /\
  (forall d, walk d p = step_dir (walk d dir) base) /\ builtin_path_format PATH_STYLE_POSIX [Some o] = Returns q /\ forall d, walk d q = walk d p.
Proof using memory.
  intros Hn Hp Hlen. destruct (dir_base p Hn Hp) as (D1 & D2 & D3 & D4). destruct (parts_bounds p) as [B1 B2]. set (ne := match ext_dot (base_of p) (length (base_of p)) with Some dot => (take dot (base_of p), drop dot (base_of p)) | None => (base_of p, []) end).
  set (dir := if (path_basename_start PATH_STYLE_POSIX p =? 0)%nat then [] else take (cut_of p) p). set (o := PathObject (Some dir) (Some (take (path_root_length PATH_STYLE_POSIX p) p)) (Some (base_of p)) (Some ne.1) (Some ne.2)).
  assert (Hne : base_of p = ne.1 ++ ne.2) by (unfold ne; destruct (ext_dot _ _); cbn; [symmetry; apply take_drop|rewrite app_nil_r; reflexivity]).
  assert (Eo : builtin_path_parse malloc_ok PATH_STYLE_POSIX [Some p] = Returns o) by (unfold builtin_path_parse, with_path; rewrite posix_seps; cbn [mbind outcome_bind]; fold (base_of p) (cut_of p); unfold o, ne; destruct (ext_dot _ _); reflexivity).
  assert (Eb : builtin_path_basename PATH_STYLE_POSIX [Some p] = Returns (base_of p)) by (unfold builtin_path_basename, with_path; destruct p; [contradiction|reflexivity]). assert (Ee : builtin_path_extname PATH_STYLE_POSIX [Some p] = Returns ne.2) by (unfold builtin_path_extname, with_path; fold (base_of p); unfold ne; destruct (ext_dot _ _); reflexivity).
  assert (Hq : exists q, builtin_path_format PATH_STYLE_POSIX [Some o] = Returns q /\ forall d, walk d q = walk d p).
  { assert (Lb : (length (base_of p) + cut_of p <= length p)%nat) by (unfold base_of; rewrite length_take, length_drop; lia). unfold o. destruct (Nat.eq_dec (path_basename_start PATH_STYLE_POSIX p) 0) as [E0|E0].
    - assert (Ec : cut_of p = 0%nat) by lia. assert (Er : path_root_length PATH_STYLE_POSIX p = 0%nat) by lia. unfold dir. rewrite E0, Er. unfold dir_of in D1, D4. rewrite Ec in D1, D4. change (0 =? 0)%nat with true in *. cbv iota in *. assert (Hb : base_of p <> []) by (apply base_nonempty; auto).
      exists (base_of p). rewrite (format_base (base_of p) (take 0 p)) by (auto; lia). split; [reflexivity|]. intros d. rewrite D4. pose proof (base_nosep p) as Hns. unfold walk. assert (Ha : is_abs (base_of p) = false) by (unfold is_abs, rd; destruct (base_of p) as [|c b]; [contradiction|]; cbn; apply Z.eqb_neq; intros ->; apply Hns; left; reflexivity). rewrite Ha. apply steps_plain, Hns.
    - pose proof (cut_nonzero p Hp E0) as Ec. assert (Ed : dir_of p = take (cut_of p) p) by (unfold dir_of; destruct (Nat.eqb_spec (cut_of p) 0); [contradiction|reflexivity]). assert (Edir : dir = dir_of p) by (unfold dir; destruct (Nat.eqb_spec (path_basename_start PATH_STYLE_POSIX p) 0); [contradiction|rewrite Ed; reflexivity]).
      exists (with_slash (dir_of p) ++ base_of p). rewrite Edir. split; [apply format_dir; [exact D3|rewrite Ed, length_take; lia| |exact Hne]|].
      + destruct (base_of p); [right|left; discriminate]. symmetry in Hne. apply app_eq_nil in Hne as [_ H]. exact H.
      + intros d. rewrite D4. unfold walk, with_slash. destruct (Z.eqb_spec (at_end (dir_of p)) 47) as [E1|E1]; [rewrite is_abs_app, steps_glue by assumption|rewrite <- app_assoc; cbn [app]; rewrite is_abs_app, steps_sep by exact D3]; apply steps_plain, base_nosep. }
  destruct Hq as (q & Eq & Wq). exists (dir_of p), (base_of p), ne.1, ne.2, o, q. splits; auto; [apply dirname_at, Hp|apply base_nosep].
Qed.
End Posix.

Module Example.
Definition always (n : Z) : bool := true.
Lemma always_true n : always n = true.
Proof. reflexivity. Qed.
Abbreviation b := str_bytes.
Ltac no_nuls := repeat first [apply List.Forall_nil | apply List.Forall_cons]; discriminate.
(** [/a/./b//../c/] *)
Lemma path_normal_form_witness : exists q, builtin_path_normalize always PATH_STYLE_POSIX [Some (b "/a/./b//../c/")] = Returns q /\ q = b "/a/c/" /\ builtin_path_normalize always PATH_STYLE_POSIX [Some (b "/x/../a/c/")] = Returns q.
Proof.
  destruct (path_normal_form always always_true (b "/a/./b//../c/")) as (q & H1 & _ & _ & _ & _ & H2); [vm_compute; no_nuls|discriminate|]. exists q. splits; [exact H1|vm_compute in H1; vm_compute; congruence|]. apply H2; [vm_compute; no_nuls|discriminate|reflexivity|reflexivity|intros d; reflexivity].
Defined.
Lemma relative_leads_witness : exists r, builtin_path_relative always PATH_STYLE_POSIX [Some (b "/a/b/c"); Some (b "/a/d/e")] = Returns r /\ r = b "../../d/e" /\ walk (walk [] (b "/a/b/c")) r = walk [] (b "/a/d/e").
Proof.
  destruct (relative_leads always always_true (b "/a/b/c") (b "/a/d/e")) as (r & H1 & _ & H2); [vm_compute; no_nuls|discriminate|vm_compute; no_nuls|discriminate|reflexivity|left; reflexivity|]. exists r. splits; [exact H1|vm_compute in H1; vm_compute; congruence|apply H2].
Defined.
Lemma path_compose_witness : exists r, builtin_path_resolve always (Some (b "/home/u")) PATH_STYLE_POSIX [Some (b "x"); None; Some (b "../y")] = Returns r /\ walk [] r = [b "y"; b "u"; b "home"].
Proof.
  destruct (path_compose always (b "/home/u") always_true [Some (b "x"); None; Some (b "../y")] (b "x") [b "../y"]) as [_ (r & H1 & _ & H2)]; [reflexivity|repeat constructor; vm_compute; no_nuls|vm_compute; no_nuls|reflexivity|]. exists r. split; [exact H1|rewrite H2; vm_compute; reflexivity].
Defined.
Lemma path_parts_witness : exists dir base, builtin_path_dirname always PATH_STYLE_POSIX [Some (b "/a/b.c")] = Returns dir /\ builtin_path_basename PATH_STYLE_POSIX [Some (b "/a/b.c")] = Returns base /\ walk [] (b "/a/b.c") = step_dir (walk [] dir) base.
Proof.
  destruct (path_parts always always_true (b "/a/b.c")) as (dir & base & _ & _ & _ & _ & H1 & H2 & _ & _ & _ & _ & _ & _ & _ & H3 & _); [vm_compute; no_nuls|discriminate|apply Nat.ltb_lt; vm_compute; reflexivity|]. exists dir, base. splits; [exact H1|exact H2|apply H3].
Defined.

(** Behaviour that differs from Node.js. *)
Lemma relative_dot : builtin_path_relative always PATH_STYLE_POSIX [Some (b "."); Some (b "a")] = Returns (b "../a") /\ builtin_path_relative always PATH_STYLE_POSIX [Some (b "a"); Some (b ".")] = Returns (b "../.") /\ builtin_path_relative always PATH_STYLE_POSIX [Some (b "../a"); Some (b "b")] = Returns (b "../../b").
Proof. repeat split; vm_compute; reflexivity. Qed.
Lemma win32_becomes_absolute : builtin_path_isAbsolute PATH_STYLE_WIN32 [Some (b ".\C:\x")] = Returns false /\ builtin_path_normalize always PATH_STYLE_WIN32 [Some (b ".\C:\x")] = Returns (b "C:\x") /\ builtin_path_normalize always PATH_STYLE_WIN32 [Some (b ".\C:.\a")] = Returns (b "C:.\a") /\ builtin_path_normalize always PATH_STYLE_WIN32 [Some (b "C:.\a")] = Returns (b "C:a").
Proof. repeat split; vm_compute; reflexivity. Qed.
Lemma win32_join_root : builtin_path_join always PATH_STYLE_WIN32 [Some (b "/"); Some (b "b")] = Returns (b "\\b").
Proof. vm_compute. reflexivity. Qed.
Lemma win32_resolve_drive : builtin_path_resolve always (Some (b "C:\w")) PATH_STYLE_WIN32 [Some (b "D:x")] = Returns (b "D:C:\w\x").
Proof. vm_compute. reflexivity. Qed.
Lemma dotdot_extension : builtin_path_extname PATH_STYLE_POSIX [Some (b "..")] = Returns (b ".") /\ builtin_path_resolve always (Some (b "/")) PATH_STYLE_POSIX [Some (b "/a/")] = Returns (b "/a/").
Proof. repeat split; vm_compute; reflexivity. Qed.
End Example.
